(* ===== verification/_CoqProject ===== *)
-Q . S2P
Prelude.v
Table.v
ChatQueue.v
QuotaRepository.v
RateLimit.v
WriteBudget.v
Admission.v
SlotLimiter.v
Coordinator.v
Failover.v
LlmExecution.v
ChatHistory.v
WebhookInbox.v
ChatPipeline.v
RedisQueueState.v
RedisQueue.v
RedisQueueSpec.v
RedisQueuePoll.v
RedisQueueFlush.v
RescheduleStore.v
RescheduleConfirm.v
Paging.v
ReminderJobs.v
ReminderDispatch.v
ReminderSync.v
ReportClaims.v
ReportSend.v
AccountLinks.v
LinkFence.v
LinkFlow.v
PrivacyCleanup.v
PrivacyFence.v
Json.v
JsText.v
JsRegex.v
Masking.v
AgentTools.v
PromptSafety.v
ToolObservation.v
ToolRound.v
AgentContext.v
ReplySafety.v
AgentLoop.v
ToolSummary.v
PromptGuards.v
ScopeGuards.v
Grounding.v
OutputGuards.v
GuardedTurn.v
WispaceCache.v
