(* ===== verification/Prelude.v ===== *)
(** * WISPACE bots: a verification development

    The program is a TypeScript monorepo of three chat bots (apps/messenger-bot,
    apps/zalo-bot, apps/discord-bot) that share their logic in packages/.  A
    platform delivers an event to a webhook; the event is stored in a durable
    inbox and processed by a worker; a learner's texts are debounced per user,
    charged against a daily quota and a burst window, answered by a language
    model behind an admission gate, and remembered in a bounded history.  This
    library models that path, one file per component.

    ** Files and sources

    - [Prelude]: JavaScript values the code observes (numbers with NaN and the
      infinities, UTF-16 strings and trim, slice, Map in insertion order), list
      sums and counts, tactics and the hint database [wispace].
    - [Table]: the SQL statements the repositories use (INSERT ON CONFLICT,
      UPDATE, DELETE, guarded upsert) on tables as lists of rows, unique indexes.
    - [ChatQueue]: packages/chat-queue-core, debounce-chat-queue.ts.  [World] is
      the class with its per-user map, the pending timers and the handler calls
      in flight; [enqueue], [scheduleFlush], [fireTimer], [flush], [settle] (the
      finally block), [flushNow], [clear], [drainRound], [destroyBegin],
      [destroyEnd] and [evictStale] are its methods and callbacks; [step] runs
      one event.
    - [QuotaRepository]: packages/chat-metering, chat-rate-limit.repository.ts and
      the query of packages/database, learner-usage-query.ts.  [Db] holds the
      request rows, the daily counters, the links and the installed indexes; each
      repository method is one transaction.
    - [RateLimit]: the engine of chat-rate-limit-core.service.ts.  Its
      [BurstCounterPort] is the class [BurstCounter] with [BurstCounterLaws]; the
      PostgreSQL and the Redis counters (postgres-burst-counter.ts,
      redis-burst-counter.ts with its two Lua scripts) are instances.
    - [WriteBudget]: packages/chat-metering, write-tool-budget.
    - [Admission]: packages/llm-agent, execution: bounded-admission.ts as an
      event-driven gate ([acquire], [release], timers, abort listeners, [pump]),
      attempt-budget.ts and background-admission-capacity.ts.
    - [SlotLimiter]: redis-slot-limiter.ts, the two Lua scripts on a store with key
      expiry, and the retry loop against arbitrary replies.
    - [Coordinator]: llm-admission-coordinator.ts against arbitrary answers of the
      gate, the slot limiter, the clock and the abort signal.
    - [Failover]: packages/llm-agent, failover-adapter.ts: every request a [Run]
      that advances between its awaits, all on one circuit map.
    - [LlmExecution]: retry.ts, failure-attribution.ts and the execution circuit of
      env-llm-execution.port.ts with concurrent generations.
    - [ChatHistory]: packages/chat-history.  [ChatHistoryStorePort] is the class
      [ChatHistoryStore] with [ChatHistoryLaws]; the in-process and the Redis
      store are instances.
    - [WebhookInbox]: packages/webhook-inbound, the repository of the durable
      inbox, the per-row processing of the retry cron and of the inline
      dispatcher, and the system of interleaved workers with crashes.
    - [ChatPipeline]: packages/chat-pipeline, chat-pipeline.ts: one [flush] as a
      computation over its local variables with exceptions, against the type
      class [RateLimiterPort] with [RateLimiterLaws]; the quota engine is an
      instance through chat-pipeline-adapters.ts.
    - [RedisQueueState], [RedisQueue]: packages/chat-agent, chat-queue: the JSON
      documents of the shared queue with [parseState] and [printState], and every
      method of redis-chat-queue.store.ts on one [Redis] store with the faults of
      [Env].  [RedisQueueSpec] has the abstract queue ([qstep]) and the refinement,
      [RedisQueuePoll] the poll and the repair, [RedisQueueFlush] the flush of
      platform-chat-queue.service.ts on that store.
    - [RescheduleStore]: packages/reschedule-confirm, the PostgreSQL and the
      in-process stores of staged requests and of attempted writes, and the
      transitions of a confirmation's notification against the class
      [AttemptStore].
    - [RescheduleConfirm]: reschedule-confirm.service.ts and the recovery cron as
      programs ([Prog]) over awaited calls, run by any number of pods in one
      [World]; the relation [follows] is the protocol a program keeps to.
    - [Paging]: packages/bot-common, paging.utils.ts, the keyset-paged scan.
    - [ReminderJobs], [ReminderDispatch], [ReminderSync]:
      packages/study-reminder-shared: the job repository with its ownership fence,
      [processJob] as a program run by workers in one [World], and the sync of
      mappings with the paged full sync, the rollover and the dispatch timer.
    - [ReportClaims], [ReportSend]: packages/scheduler-core: both claim tables and
      the outbox of report sends, [claimAndSend] and the Discord retry dispatcher
      as programs run by workers of both platforms in one [World].
    - [AccountLinks]: the mapping tables of Discord and Zalo with the audit table
      and every transaction on them: platform-link-state.service.ts, [upsertLink]
      of the adapters, unlink and delete of privacy-data.service.ts.  [LinkFence]
      has their invariant and the ownership fence; [LinkFlow] runs the callback
      and the reconcile tick of packages/account-link-core on them.
    - [PrivacyCleanup]: unlink and delete with a durable cleanup, the job table and
      the reconciler of packages/database, metering-and-operations, as programs of
      requests and workers; [PrivacyFence] has the fence and the schedule of jobs.
    - [Json]: JavaScript's JSON values with [stringify] and [parse] on UTF-16 code
      units, and objects with their property order.
    - [JsText], [JsRegex]: JavaScript's string methods, and its regular expressions:
      the parser of a source, the backtracking matcher with groups, back references
      and lookaround, and [replace], [matchAll] and [split].
    - [Masking]: packages/bot-common, masking/ and logging/redacted-logger.ts: the
      registry of secrets, credential shapes, error messages and log lines.
    - [AgentTools]: packages/llm-agent, agent.tools.ts: the registry of tools and
      its startup check, the parsing of arguments against the class [Zod], and the
      keys of calls.  [PromptSafety]: the scan, redaction and clipping of untrusted
      text, against the class [TextScan].  [ToolObservation]: tool-observation.ts,
      what the model is told about a result.  [ToolRound]: tool-round-executor.ts,
      a round of tool calls.
    - [AgentContext]: agent-limits.ts, context-manager.ts and the composition of
      the system prompt.  [ReplySafety]: safety-pipeline.ts and the texts of
      messages.ts, against the class [ReplyGuards].  [AgentLoop]: agent.service.ts,
      a whole turn on all of these.  [ToolSummary]: tool-summary.ts, what the
      history keeps of its tools.
    - [PromptGuards], [ScopeGuards], [Grounding], [OutputGuards]: packages/llm-agent,
      safety/ with scope.ts, intent-detector.ts and text.ts: the tables of patterns
      and the checks over them.  [promptScan] and [replyGuards] are the instances of
      [TextScan] and [ReplyGuards], and [GuardedTurn] is the turn with them.
    - [WispaceCache]: packages/wispace-client, cache/: the read cache of every pod
      with its fetches in flight ([getOrFetch], [advance], [finish]) on one shared
      store, and that store's documents.

    ** What is proved

    The comment of each theorem states its assumptions; what follows is the outline.

    Queue: texts are delivered in order and exactly once, but for the oldest that the
    documented cap drops, never stranded, by one handler call per user at a time, within the
    memory bound; the queue is inert after destroy and its waits end.  Quota:
    under every sequence of transactions on the migrated schema, with ids free of
    colons, the daily counters equal the charged requests, no learner exceeds the limit, refunds are exact and happen once,
    delivered answers stay charged, the paged bulk recovery equals refunding row
    by row, duplicates are never charged, refunded messages can be retried, and a
    refused request leaves the burst counters alone.  Tool budget: the caps hold
    and the check predicts the consume.  Admission: capacity, one answer per
    request, first come first served, no idle slot; the coordinator leaks neither
    ticket nor slot and settles; the distributed limit holds with key expiry.
    Providers: requests follow their plan, quarantine is exact and permanent, the
    execution circuit is a function of the recorded outcomes and never wedges.
    History: under both stores what a user sees is the user's own session with its
    tool summaries, and for conversations without summaries the two agree; the sweep
    is bounded and fair.  Inbox: at most
    one success per event and none after it, a bounded number of attempts,
    nothing lost, exact cleanup, progress of every due row.  Pipeline: the
    documented order of calls, the settlement of the reserved slot on every
    error path, and one text for agent and history.  Shared queue: under
    any faults the store is an abstract leased queue, so texts are conserved in
    order, a superseded worker is fenced, buffered work stays indexed and is found by
    polls whose limit covers the indexes, and repaired indexes match the buffers; a flush takes out only what was answered.
    Reschedule: the protocol of
    every method, at most one committed calendar write per approval token as long as
    a failed write did not commit and the cron re-arms only unused claims, bounded
    notifications, claims that only their lease releases.  Reminders: at most one
    accepted delivery per opening of a job and a bounded number of attempts under
    any interleaving with crashes, every call fenced by the active mapping; an
    answered sync makes the table agree with the calendar up to the rows it must not
    touch, an unanswered one
    changes nothing; a paged scan ends and reaches every row.  Reports: under
    a learner's claim one report a day is delivered, plus one for every delivery whose
    record was lost or whose claim expired.  Links: a verified token links exactly when the account did
    not change hands since, unless its row was displaced or its tombstone purged; only
    a link under the present generation stamp gives an account to a learner; every
    mapping was verified upstream, and the tick finishes an interrupted link.
    Privacy: a cleanup that is reported was made or superseded, after a check that
    the account had no live owner; the fence of an erasure closes only by a new
    link or revocation, a displacement or a purge, and no job is lost.
    Agent: JSON documents survive printing and parsing; two calls have one key
    exactly when they mean the same; arguments are accepted exactly when they
    parse, and the registry check accepts exactly the consistent tables.  A round
    answers every call in order and runs what the budget, the repetition and the
    write order allow; its observations stay within their allocation.  A turn ends
    within its limits whatever the provider answers; its requests fit the budget
    and pair calls with answers; its reply comes from a text of the turn that
    passed the checks and discloses every bounded result.
    Text: the matcher finds a match exactly when the pattern has one, so a scan is
    exact; [redactCredentialText] and [redactLogLine] hide every registered secret that
    cannot be mistaken for their placeholders, the latter every raw identifier, and an
    error is one line; a spelled canary is
    refused, and what a turn answers is the Markdown-free form of a text without a
    credential; the
    summary of a turn's tools has no line that a tool's result wrote.
    Cache: a learner is served only data fetched for the same kind, learner and arguments, less than its
    lifetime before the promise that served it, whatever the store does; the map is
    bounded, a fetch ends, and documents survive the store with their dates.

    Corner cases where the code departs from its comments or from its intent are
    stated as lemmas at the end of the component's file.

    ** Bounds and fuel

    Loops over data are structural.  [ChatQueue.waitLoop] takes the number of
    milliseconds to the deadline as fuel, since every poll advances the clock by
    at least one; [Coordinator.loop] needs [maxProbeAttempts] passes, since each
    pass that continues counts a probe; [WebhookInbox.deleteLoop] needs one pass
    more than there are rows, since every full batch deletes; the theorems show
    that these amounts suffice.  The slot limiter's loop recurses on the attempts
    left.  [AgentContext.trimLoop] takes [trimFuel], as every pass removes a
    message or the calls of one; [Json.parse] takes the length of the text, as
    every call consumes a code unit.  [JsRegex.parse] takes three times the length of
    the source, and lemmas show that every pattern of the code parses; a repetition
    of at least [lo] takes [lo] more passes than there are units left, since each
    further pass must consume one; a search tries every position.  Integers are unbounded: the code's counters
    are far below 2^53.

    ** Interleaving

    Each SQL statement or transaction, each Lua script and each synchronous
    stretch of JavaScript between awaits is one step; the theorems quantify over
    all sequences of steps.  Times are explicit arguments; where a theorem needs a
    clock that does not go back it says so.

    ** Not modelled

    Logging, metrics and tracing; HTTP and platform SDK calls; the wording of
    prompts and the output of the model; database migrations; the NestJS wiring of
    the applications.  The data of Unicode outside ASCII (categories, cases, normal
    forms) are the class [JsRegex.Unicode], and the argument validation of zod is the
    class [Zod]; the deadline around a whole turn is an error like any other of the
    provider.  Time zones enter as the function from a time to the day key,
    random jitter as a value; hashes, the locale's
    order of strings and the parsing of dates and URLs are parameters. *)

From Stdlib Require Export ZArith Lia Bool QArith Qround.
From stdpp Require Export base tactics sorting list option strings gmap.

#[global] Set Default Goal Selector "!".
#[global] Open Scope Z_scope.

(** ** JavaScript numbers

    A configuration value read from the environment is a JS number: a finite
    double (a rational), an infinity, or NaN.  Only the observations the code
    makes of such a value are defined. *)

Inductive jsnum :=
| JNaN
| JInf (negative : bool)
| JFin (q : Q).

(** [Number.isFinite]. *)
Definition js_is_finite (x : jsnum) : bool :=
  match x with JFin _ => true | _ => false end.

(** [Math.floor] of a finite value; [None] on NaN and the infinities, which
    every caller below excludes first. *)
Definition js_floor (x : jsnum) : option Z :=
  match x with JFin q => Some (Qfloor q) | _ => None end.

(** [x > 0]; every comparison with NaN is false. *)
Definition js_pos (x : jsnum) : bool :=
  match x with
  | JNaN => false
  | JInf neg => negb neg
  | JFin q => bool_decide (0 < Qnum q)
  end.

(** [x < 0]. *)
Definition js_neg (x : jsnum) : bool :=
  match x with
  | JNaN => false
  | JInf neg => neg
  | JFin q => bool_decide (Qnum q < 0)
  end.

(** [Number.isInteger], returning the integer. *)
Definition js_integer (x : jsnum) : option Z :=
  match x with
  | JFin q => if Qnum q mod Zpos (Qden q) =? 0
              then Some (Qnum q / Zpos (Qden q)) else None
  | _ => None
  end.

Definition js_of_Z (z : Z) : jsnum := JFin (inject_Z z).

Lemma js_integer_of_Z z : js_integer (js_of_Z z) = Some z.
Proof. unfold js_integer, js_of_Z; simpl. by rewrite Z.mod_1_r, Z.div_1_r. Qed.

Lemma js_floor_of_Z z : js_floor (js_of_Z z) = Some z.
Proof. unfold js_floor, js_of_Z. by rewrite Qfloor_Z. Qed.

Lemma js_integer_finite x z : js_integer x = Some z → js_is_finite x = true.
Proof. by destruct x. Qed.

(** The floor of a positive number is never negative; it is positive exactly
    from 1 upwards. *)
Lemma js_floor_pos x z : js_pos x = true → js_floor x = Some z → 0 ≤ z.
Proof.
  destruct x as [| |q]; simpl; try done. intros Hp [= <-].
  apply bool_decide_eq_true in Hp. unfold Qfloor. destruct q as [n d]; simpl in *.
  apply Z.div_pos; lia.
Qed.

(** ** JavaScript strings

    Message texts are sequences of UTF-16 code units. *)

Abbreviation jsstring := (list Z).

(** Code units of an ASCII literal, for examples. *)
Definition js (s : string) : jsstring :=
  (λ a, Z.of_nat (Ascii.nat_of_ascii a)) <$> String.list_ascii_of_string s.

(** The code units of a literal whose bytes are UTF-8. *)
Fixpoint utf8 (l : list Z) : jsstring :=
  match l with
  | [] => []
  | b :: l1 =>
      if b <? 128 then b :: utf8 l1 else
      match l1 with
      | [] => []
      | c :: l2 =>
          if b <? 224 then 64 * (b - 192) + (c - 128) :: utf8 l2 else
          match l2 with
          | [] => []
          | d :: l3 =>
              if b <? 240 then 4096 * (b - 224) + 64 * (c - 128) + (d - 128) :: utf8 l3 else
              match l3 with
              | [] => []
              | e :: l4 =>
                  let x := 262144 * (b - 240) + 4096 * (c - 128) + 64 * (d - 128) + (e - 128) - 65536 in
                  55296 + x / 1024 :: 56320 + x mod 1024 :: utf8 l4
              end
          end
      end
  end.

Definition txt (s : string) : jsstring := utf8 (js s).

(** The WhiteSpace and LineTerminator code points of [String.prototype.trim]. *)
Definition js_whitespace (c : Z) : bool :=
  (9 <=? c) && (c <=? 13) || (c =? 32) || (c =? 160) || (c =? 5760)
  || (8192 <=? c) && (c <=? 8202) || (c =? 8232) || (c =? 8233)
  || (c =? 8239) || (c =? 8287) || (c =? 12288) || (c =? 65279).

Fixpoint drop_ws (s : jsstring) : jsstring :=
  match s with
  | [] => []
  | c :: s' => if js_whitespace c then drop_ws s' else s
  end.

(** [s.trim()]. *)
Definition js_trim (s : jsstring) : jsstring := rev (drop_ws (rev (drop_ws s))).

(** A text is blank when its trim is the empty (falsy) string. *)
Definition js_blank (s : jsstring) : bool := bool_decide (js_trim s = []).

(** ** Option helpers: JS truthiness and nullish coalescing *)

(** [a ?? b] where [a] may be undefined. *)
Definition nullish {A} (a : option A) (b : A) : A := default b a.

(** ** Tactics *)

(** Split the boolean tests of the code into their propositional readings. *)
Ltac bool_to_prop :=
  repeat match goal with
  | H : _ && _ = true |- _ => apply andb_true_iff in H as [? ?]
  | H : _ || _ = false |- _ => apply orb_false_iff in H as [? ?]
  | H : negb _ = true |- _ => apply negb_true_iff in H
  | H : negb _ = false |- _ => apply negb_false_iff in H
  | H : (_ <? _) = true |- _ => apply Z.ltb_lt in H
  | H : (_ <? _) = false |- _ => apply Z.ltb_ge in H
  | H : (_ <=? _) = true |- _ => apply Z.leb_le in H
  | H : (_ <=? _) = false |- _ => apply Z.leb_gt in H
  | H : (_ =? _) = true |- _ => apply Z.eqb_eq in H
  | H : (_ =? _) = false |- _ => apply Z.eqb_neq in H
  | H : bool_decide _ = true |- _ => apply bool_decide_eq_true in H
  | H : bool_decide _ = false |- _ => apply bool_decide_eq_false in H
  end.

(** Case split on every [match]/[if] scrutinee of the goal, keeping equations. *)
Ltac split_matches :=
  repeat (case_match; simplify_eq/=; try done).

(** ** Lists *)

Create HintDb wispace.

(** [arr.splice(0, excess)] with [excess = arr.length - cap]: keep the newest
    [cap] elements. *)
Definition keep_last {A} (cap : nat) (l : list A) : list A :=
  drop (length l - cap) l.

Lemma keep_last_length {A} cap (l : list A) :
  length (keep_last cap l) = Nat.min cap (length l).
Proof. unfold keep_last. rewrite length_drop. lia. Qed.

Lemma keep_last_short {A} cap (l : list A) :
  (length l ≤ cap)%nat → keep_last cap l = l.
Proof. intros. unfold keep_last. by replace (length l - cap)%nat with 0%nat by lia. Qed.

Lemma keep_last_suffix {A} cap (l : list A) :
  ∃ dropped, l = dropped ++ keep_last cap l
             ∧ length dropped = (length l - cap)%nat.
Proof.
  exists (take (length l - cap) l). split.
  - unfold keep_last. by rewrite take_drop.
  - rewrite length_take. lia.
Qed.

Lemma keep_last_sublist {A} cap (l : list A) : keep_last cap l `sublist_of` l.
Proof. apply sublist_drop. Qed.

Lemma list_not_nil_length {A} (l : list A) : l ≠ [] ↔ (0 < length l)%nat.
Proof. destruct l; simpl; split; intros; try done; lia. Qed.

(** A filter that keeps everything, and the one that takes an element out. *)
(** *** Sorting

    A stable insertion sort: JavaScript's sort is stable, and a query with ORDER BY
    and a unique last column has one answer. *)

Fixpoint insertBy {A} (le : A → A → bool) (x : A) (l : list A) : list A :=
  match l with
  | [] => [x]
  | y :: l' => if le x y then x :: l else y :: insertBy le x l'
  end.

Fixpoint sortBy {A} (le : A → A → bool) (l : list A) : list A :=
  match l with [] => [] | x :: l' => insertBy le x (sortBy le l') end.

Section Sort.
Context {A : Type} (le : A → A → bool).

Lemma insertBy_perm x l : insertBy le x l ≡ₚ x :: l.
Proof.
  induction l as [|y l IH]; simpl; [done|]. destruct (le x y); [done|]. rewrite IH. constructor.
Qed.

Lemma sortBy_perm l : sortBy le l ≡ₚ l.
Proof. induction l as [|x l IH]; simpl; [done|]. by rewrite insertBy_perm, IH. Qed.

Lemma elem_of_sortBy x l : x ∈ sortBy le l ↔ x ∈ l.
Proof. by rewrite sortBy_perm. Qed.

Hypothesis le_total : ∀ x y, le x y = true ∨ le y x = true.

Lemma insertBy_sorted x l :
  Sorted (λ a b, le a b = true) l → Sorted (λ a b, le a b = true) (insertBy le x l).
Proof.
  induction 1 as [|y l Hs IH Hh]; simpl; [by repeat constructor|].
  destruct (le x y) eqn:E; [by repeat constructor|].
  assert (le y x = true) as Eyx by (destruct (le_total x y); congruence).
  constructor; [done|]. destruct Hh as [|z l Hyz]; simpl; [by constructor|].
  destruct (le x z); by constructor.
Qed.

Lemma sortBy_sorted l : Sorted (λ a b, le a b = true) (sortBy le l).
Proof. induction l as [|x l IH]; simpl; [constructor|]. by apply insertBy_sorted. Qed.
End Sort.

Lemma sortBy_id {A} (le : A → A → bool) l : Sorted (λ a b, le a b = true) l → sortBy le l = l.
Proof.
  induction 1 as [|x l Hs IH Hh]; [done|]. simpl. rewrite IH.
  destruct Hh as [|y l Hxy]; simpl; [done|]. by rewrite Hxy.
Qed.

(** Lists with the same elements sort alike when the order tells them apart. *)
Lemma sortBy_unique {A} (le : A → A → bool) l l' :
  (∀ x y, le x y = true ∨ le y x = true) → (∀ x y z, le x y = true → le y z = true → le x z = true) →
  (∀ x y, x ∈ l → y ∈ l → le x y = true → le y x = true → x = y) →
  l ≡ₚ l' → sortBy le l = sortBy le l'.
Proof.
  intros Htot Htr Hanti Hp. assert (∀ m, StronglySorted (λ a b, le a b = true) (sortBy le m)) as Hs.
  { intros m. apply Sorted_StronglySorted; [intros x y z; apply Htr|]. by apply sortBy_sorted. }
  apply (StronglySorted_unique_strong (λ a b, le a b = true)); auto.
  - intros x y Hx Hy. rewrite elem_of_sortBy in Hx, Hy. apply Hanti; [done|by rewrite Hp].
  - by rewrite !sortBy_perm.
Qed.

Lemma sortBy_key_sorted {A} (key : A → Z) l :
  StronglySorted (λ a b, key a ≤ key b) (sortBy (λ a b, key a <=? key b) l).
Proof.
  apply Sorted_StronglySorted; [intros x y z; lia|].
  assert (∀ x y, (key x <=? key y) = true ∨ (key y <=? key x) = true) as Htot
    by (intros; destruct (Z.leb_spec (key x) (key y)); [by left|right; apply Z.leb_le; lia]).
  induction (sortBy_sorted _ Htot l) as [|a l' Hs IH Hh]; constructor; [done|].
  destruct Hh; constructor. by apply Z.leb_le.
Qed.

Lemma filter_all {A} (P : A → Prop) `{∀ x, Decision (P x)} (l : list A) :
  (∀ x, x ∈ l → P x) → filter P l = l.
Proof.
  intros Hp. induction l as [|x l IH]; [done|]. rewrite filter_cons, decide_True by (apply Hp; left).
  f_equal. apply IH. intros y Hy. apply Hp. by right.
Qed.

Lemma filter_none {A} (P : A → Prop) `{∀ x, Decision (P x)} (l : list A) :
  (∀ x, x ∈ l → ¬ P x) → filter P l = [].
Proof.
  intros Hl. induction l as [|a l IH]; [done|]. rewrite filter_cons_False by (apply Hl; left).
  apply IH. intros. apply Hl. by right.
Qed.

Lemma nodup_take_out `{EqDecision A} (x : A) (l : list A) :
  NoDup l → x ∈ l → l ≡ₚ x :: filter (λ y, y ≠ x) l.
Proof.
  intros Hnd Hx. destruct (list_elem_of_split _ _ Hx) as (l1 & l2 & ->).
  apply NoDup_app in Hnd as (_ & Hd & [Hn _]%NoDup_cons).
  rewrite filter_app, filter_cons_False, <-Permutation_middle by tauto.
  rewrite !filter_all; [done| |].
  - intros y Hy ->. done.
  - intros y Hy ->. apply (Hd x); [done|left].
Qed.

(** [arr.slice(-n)] for an integer [n]: the last [n] elements for a positive [n],
    everything for 0, and without the first [-n] for a negative one. *)
Definition slice_neg {A} (n : Z) (l : list A) : list A :=
  if 0 <? n then keep_last (Z.to_nat n) l else drop (Z.to_nat (- n)) l.

Lemma slice_neg_pos {A} n (l : list A) : 0 < n → slice_neg n l = keep_last (Z.to_nat n) l.
Proof. intros Hn. unfold slice_neg. by rewrite (proj2 (Z.ltb_lt 0 n)). Qed.

(** ** JavaScript [Map]

    Keys in insertion order; setting an existing key keeps its place. *)
Section JsMap.
Context {K V : Type} `{EqDecision K}.

Fixpoint jm_get (k : K) (m : list (K * V)) : option V :=
  match m with
  | [] => None
  | (k', v) :: m' => if decide (k' = k) then Some v else jm_get k m'
  end.

Fixpoint jm_set (k : K) (v : V) (m : list (K * V)) : list (K * V) :=
  match m with
  | [] => [(k, v)]
  | (k', v') :: m' => if decide (k' = k) then (k, v) :: m' else (k', v') :: jm_set k v m'
  end.

Definition jm_del (k : K) (m : list (K * V)) : list (K * V) := filter (λ e, e.1 ≠ k) m.

Lemma jm_get_set k k' v m : jm_get k' (jm_set k v m) = if decide (k' = k) then Some v else jm_get k' m.
Proof.
  induction m as [|[k0 v0] m IH]; simpl.
  - destruct (decide (k = k')), (decide (k' = k)); congruence.
  - destruct (decide (k0 = k)) as [->|Hne]; simpl.
    + destruct (decide (k = k')), (decide (k' = k)); congruence.
    + destruct (decide (k0 = k')) as [->|]; [by rewrite decide_False by done|]. apply IH.
Qed.

Lemma jm_get_del k k' m : jm_get k' (jm_del k m) = if decide (k' = k) then None else jm_get k' m.
Proof.
  unfold jm_del. induction m as [|[k0 v0] m IH]; simpl; [by destruct (decide (k' = k))|].
  rewrite filter_cons. simpl. destruct (decide (k0 ≠ k)) as [Hne|He]; simpl.
  - rewrite IH. destruct (decide (k0 = k')) as [->|]; [by rewrite decide_False by done|done].
  - apply dec_stable in He as ->. rewrite IH. destruct (decide (k' = k)) as [->|Hne]; [done|].
    by rewrite decide_False by congruence.
Qed.

Lemma jm_get_elem k v m : jm_get k m = Some v → (k, v) ∈ m.
Proof.
  induction m as [|[k0 v0] m IH]; simpl; [done|]. destruct (decide (k0 = k)) as [->|].
  - intros [= ->]. left.
  - intros Hg. right. by apply IH.
Qed.

Lemma jm_keys_set k v m : NoDup m.*1 → NoDup (jm_set k v m).*1.
Proof.
  assert (∀ m x, x ∈ (jm_set k v m).*1 → x = k ∨ x ∈ m.*1) as Hin.
  { clear m. induction m as [|[k0 v0] m IH]; simpl; intros x; [set_solver|].
    destruct (decide (k0 = k)); simpl; [set_solver|]. rewrite !elem_of_cons.
    intros [->|Hx]; [tauto|]. destruct (IH x Hx); tauto. }
  induction m as [|[k0 v0] m IH]; simpl; intros Hnd; [repeat constructor; set_solver|].
  apply NoDup_cons in Hnd as [Hn Hnd]. destruct (decide (k0 = k)) as [->|Hne]; simpl.
  - by constructor.
  - constructor; [|by apply IH]. intros [->|Hx]%Hin; done.
Qed.

Lemma jm_keys_filter (P : K * V → Prop) `{∀ e, Decision (P e)} m :
  NoDup m.*1 → NoDup (filter P m).*1.
Proof.
  induction m as [|e m IH]; [done|]. rewrite filter_cons, fmap_cons. intros [Hn Hnd]%NoDup_cons.
  case_decide; [|by apply IH]. rewrite fmap_cons. constructor; [|by apply IH].
  intros (e' & He & [_ Hin]%list_elem_of_filter)%list_elem_of_fmap. apply Hn. rewrite He.
  by apply list_elem_of_fmap_2.
Qed.

(** Keeping the entries of a map that satisfy a test. *)
Lemma jm_get_filter (P : K * V → Prop) `{∀ e, Decision (P e)} k m :
  NoDup m.*1 →
  jm_get k (filter P m)
  = match jm_get k m with Some v => if decide (P (k, v)) then Some v else None | None => None end.
Proof.
  induction m as [|[k0 v0] m IH]; [done|]. rewrite fmap_cons. intros [Hn Hnd]%NoDup_cons.
  rewrite filter_cons. simpl. destruct (decide (k0 = k)) as [->|Hne].
  - destruct (decide (P (k, v0))); simpl; [by rewrite decide_True|]. rewrite IH by done.
    destruct (jm_get k m) as [v|] eqn:E; [|done]. apply jm_get_elem in E. destruct Hn.
    by apply (list_elem_of_fmap_2 fst) in E.
  - destruct (decide (P (k0, v0))); simpl; [rewrite decide_False by done|]; by apply IH.
Qed.

Lemma jm_get_nodup (k : K) (v : V) m : NoDup m.*1 → (k, v) ∈ m → jm_get k m = Some v.
Proof.
  induction m as [|[k' v'] m IH]; [by intros _ ?%not_elem_of_nil|]. rewrite fmap_cons.
  intros [Hn Hnd]%NoDup_cons [[= <- <-]|Hin]%elem_of_cons; simpl; [by rewrite decide_True|].
  rewrite decide_False; [by apply IH|]. intros ->. destruct Hn. by apply (list_elem_of_fmap_2 fst) in Hin.
Qed.

Lemma jm_get_none (k : K) (m : list (K * V)) : k ∉ m.*1 → jm_get k m = None.
Proof.
  intros Hn. destruct (jm_get k m) as [v|] eqn:E; [|done]. destruct Hn. apply jm_get_elem in E.
  by apply (list_elem_of_fmap_2 fst) in E.
Qed.

Lemma jm_get_keyperm (k : K) (m m' : list (K * V)) :
  NoDup m.*1 → m ≡ₚ m' → jm_get k m = jm_get k m'.
Proof.
  intros Hnd Hp. destruct (jm_get k m) as [v|] eqn:E.
  - apply jm_get_elem in E. symmetry. apply jm_get_nodup; [by rewrite <-Hp|by rewrite <-Hp].
  - symmetry. destruct (jm_get k m') as [v|] eqn:E'; [|done]. apply jm_get_elem in E'.
    rewrite <-Hp in E'. by rewrite (jm_get_nodup _ _ _ Hnd E') in E.
Qed.

Lemma jm_get_app_r k m m' : k ∉ m.*1 → jm_get k (m ++ m') = jm_get k m'.
Proof.
  induction m as [|[k' v'] m IH]; [done|]. rewrite fmap_cons. cbn [fst]. intros [Hne Hn]%not_elem_of_cons. simpl.
  rewrite decide_False by congruence. by apply IH.
Qed.
End JsMap.

(** Sum of an integer measure over the elements of a list. *)
Fixpoint sum_by {A} (f : A → Z) (l : list A) : Z :=
  match l with [] => 0 | x :: l' => f x + sum_by f l' end.

Lemma sum_by_app {A} (f : A → Z) l1 l2 :
  sum_by f (l1 ++ l2) = sum_by f l1 + sum_by f l2.
Proof. induction l1; simpl; lia. Qed.

Lemma sum_by_nonneg {A} (f : A → Z) l :
  (∀ x, x ∈ l → 0 ≤ f x) → 0 ≤ sum_by f l.
Proof.
  induction l as [|x l IH]; intros H; simpl; [lia|].
  pose proof (H x ltac:(left)). assert (0 ≤ sum_by f l); [|lia].
  apply IH. intros. apply H. by right.
Qed.

Lemma sum_by_ext {A} (f g : A → Z) l :
  (∀ x, x ∈ l → f x = g x) → sum_by f l = sum_by g l.
Proof.
  induction l as [|x l IH]; intros H; simpl; [done|].
  rewrite (H x ltac:(left)), IH; [done|]. intros. apply H. by right.
Qed.

Lemma sum_by_plus {A} (f g : A → Z) l :
  sum_by (λ x, f x + g x) l = sum_by f l + sum_by g l.
Proof. induction l; simpl; lia. Qed.

Lemma sum_by_opp {A} (f : A → Z) l : sum_by (λ x, - f x) l = - sum_by f l.
Proof. induction l; simpl; lia. Qed.

Lemma sum_by_zero {A} (f : A → Z) l : (∀ x, x ∈ l → f x = 0) → sum_by f l = 0.
Proof.
  intros H. rewrite (sum_by_ext f (λ _, 0)) by done. clear. induction l; simpl; lia.
Qed.

Lemma sum_by_ge {A} (f : A → Z) l x :
  (∀ y, 0 ≤ f y) → x ∈ l → f x ≤ sum_by f l.
Proof.
  intros Hf. induction 1 as [x l|x y l Hin IH]; simpl.
  - assert (0 ≤ sum_by f l) by (apply sum_by_nonneg; auto). lia.
  - specialize (Hf y). lia.
Qed.

(** Number of elements satisfying a boolean predicate (SQL [COUNT] with a
    [WHERE] clause). *)
Definition count_by {A} (p : A → bool) (l : list A) : Z :=
  sum_by (λ x, if p x then 1 else 0) l.

Lemma count_by_nonneg {A} (p : A → bool) l : 0 ≤ count_by p l.
Proof. apply sum_by_nonneg. intros x _. destruct (p x); lia. Qed.

Lemma count_by_app {A} (p : A → bool) l1 l2 :
  count_by p (l1 ++ l2) = count_by p l1 + count_by p l2.
Proof. apply sum_by_app. Qed.

Lemma count_by_ext {A} (p q : A → bool) l :
  (∀ x, x ∈ l → p x = q x) → count_by p l = count_by q l.
Proof. intros H. apply sum_by_ext. intros x Hx. by rewrite H. Qed.

Lemma count_by_pos {A} (p : A → bool) l x :
  x ∈ l → p x = true → 0 < count_by p l.
Proof.
  unfold count_by. induction 1 as [x l|x y l Hin IH]; intros Hp; simpl.
  - rewrite Hp. pose proof (count_by_nonneg p l). unfold count_by in *. lia.
  - specialize (IH Hp). destruct (p y); lia.
Qed.

Lemma count_by_le {A} (p q : A → bool) l :
  (∀ x, x ∈ l → p x = true → q x = true) → count_by p l ≤ count_by q l.
Proof.
  unfold count_by. induction l as [|x l IH]; intros H; simpl; [lia|].
  assert (sum_by (λ x, if p x then 1 else 0) l ≤ sum_by (λ x, if q x then 1 else 0) l).
  { apply IH. intros. apply H; [by right|done]. }
  destruct (p x) eqn:E; [|destruct (q x); lia].
  rewrite (H x ltac:(left) E). lia.
Qed.

Lemma count_by_zero {A} (p : A → bool) l :
  (∀ x, x ∈ l → p x = false) → count_by p l = 0.
Proof.
  intros H. rewrite (count_by_ext p (λ _, false) l H).
  unfold count_by. induction l as [|x l IH]; simpl; [done|].
  apply IH. intros. apply H. by right.
Qed.

Lemma count_by_cons {A} (p : A → bool) x l :
  count_by p (x :: l) = (if p x then 1 else 0) + count_by p l.
Proof. done. Qed.

Lemma count_by_one {A} (p : A → bool) l x y :
  count_by p l ≤ 1 → x ∈ l → y ∈ l → p x = true → p y = true → x = y.
Proof.
  induction l as [|z l IH]; [by intros _ ?%not_elem_of_nil|].
  rewrite count_by_cons. pose proof (count_by_nonneg p l). intros Hc Hx Hy Hpx Hpy.
  apply elem_of_cons in Hx as [->|Hx]; apply elem_of_cons in Hy as [->|Hy]; [done| | |].
  - rewrite Hpx in Hc. pose proof (count_by_pos p l y Hy Hpy). lia.
  - rewrite Hpy in Hc. pose proof (count_by_pos p l x Hx Hpx). lia.
  - apply IH; try done. destruct (p z); lia.
Qed.

#[export] Hint Resolve count_by_nonneg keep_last_sublist : wispace.
#[export] Hint Rewrite @sum_by_app @count_by_app : wispace.
