(* ===== verification/Table.v ===== *)
(** * SQL tables

    The repositories of the program keep their state in PostgreSQL tables and
    touch it with INSERT .. ON CONFLICT, UPDATE .. WHERE .. RETURNING, DELETE
    and aggregate SELECTs.  A table is a list of rows in storage order; this
    file gives the statements used by the sources and the laws by which the
    components reason about counts, sums and unique indexes. *)

From S2P Require Import Prelude.

Section Table.
Context {R : Type}.
Implicit Types (p : R → bool) (t : list R).

(** [UPDATE t SET f WHERE p]. *)
Definition tbl_update p (f : R → R) t : list R :=
  (λ r, if p r then f r else r) <$> t.

(** The rows a [WHERE p] clause selects (also [RETURNING] before [SET]). *)
Definition tbl_select p t : list R := filter (λ r, p r = true) t.

(** [DELETE FROM t WHERE p]. *)
Definition tbl_delete p t : list R := filter (λ r, p r = false) t.

(** Is there a row satisfying [p]? *)
Definition tbl_exists p t : bool := existsb p t.

(** [INSERT r ON CONFLICT (unique index) DO NOTHING], where [conflict]
    recognises the rows with the same index key; the boolean says whether
    [RETURNING] yields the row. *)
Definition tbl_insert_nothing (conflict : R → bool) (r : R) t : list R * bool :=
  if tbl_exists conflict t then (t, false) else (t ++ [r], true).

(** [INSERT r ON CONFLICT (index) DO UPDATE SET upd WHERE guard RETURNING]:
    with a conflicting row the update happens only if [guard] holds of it,
    and nothing is returned otherwise. *)
Definition tbl_upsert (conflict guard : R → bool) (upd : R → R) (r : R) t
  : list R * option R :=
  match head (tbl_select conflict t) with
  | Some old => if guard old then (tbl_update conflict upd t, Some (upd old)) else (t, None)
  | None => (t ++ [r], Some r)
  end.

Lemma tbl_update_sum (g : R → Z) p f t :
  sum_by g (tbl_update p f t)
  = sum_by g t + sum_by (λ r, if p r then g (f r) - g r else 0) t.
Proof. induction t as [|r t IH]; simpl; [lia|]. rewrite IH. destruct (p r); lia. Qed.

Lemma tbl_delete_sum (g : R → Z) p t :
  sum_by g (tbl_delete p t)
  = sum_by g t - sum_by (λ r, if p r then g r else 0) t.
Proof.
  unfold tbl_delete. induction t as [|r t IH]; [done|].
  rewrite filter_cons. case_decide as Hp; simpl.
  - rewrite Hp, IH. lia.
  - apply not_false_iff_true in Hp. rewrite Hp, IH. lia.
Qed.

Lemma tbl_update_length p f t : length (tbl_update p f t) = length t.
Proof. apply length_fmap. Qed.

Lemma elem_of_tbl_update p f t r :
  r ∈ tbl_update p f t ↔
  ∃ r0, r0 ∈ t ∧ r = (if p r0 then f r0 else r0).
Proof.
  unfold tbl_update. rewrite list_elem_of_fmap. split; intros (r0 & ? & ?); eauto.
Qed.

Lemma elem_of_tbl_select p t r : r ∈ tbl_select p t ↔ p r = true ∧ r ∈ t.
Proof. unfold tbl_select. by rewrite list_elem_of_filter. Qed.

Lemma elem_of_tbl_delete p t r : r ∈ tbl_delete p t ↔ p r = false ∧ r ∈ t.
Proof. unfold tbl_delete. by rewrite list_elem_of_filter. Qed.

Lemma tbl_exists_spec p t :
  reflect (∃ r, r ∈ t ∧ p r = true) (tbl_exists p t).
Proof.
  unfold tbl_exists. destruct (existsb p t) eqn:E; constructor.
  - apply existsb_exists in E as (r & Hin & Hp). exists r.
    by rewrite list_elem_of_In.
  - intros (r & Hin & Hp). apply list_elem_of_In in Hin.
    assert (existsb p t = true); [|congruence].
    apply existsb_exists. eauto.
Qed.

Lemma tbl_exists_false p t r : tbl_exists p t = false → r ∈ t → p r = false.
Proof.
  intros H Hin. destruct (p r) eqn:E; [|done].
  destruct (tbl_exists_spec p t) as [|Hn]; [done|]. exfalso. eauto.
Qed.

Lemma tbl_select_head p t r :
  head (tbl_select p t) = Some r → r ∈ t ∧ p r = true.
Proof.
  intros Hh. assert (r ∈ tbl_select p t) as Hin.
  { destruct (tbl_select p t); simplify_eq/=; left. }
  by apply elem_of_tbl_select in Hin as [? ?].
Qed.

Lemma tbl_select_head_None p t r :
  head (tbl_select p t) = None → r ∈ t → p r = false.
Proof.
  intros Hh Hin. destruct (p r) eqn:E; [|done].
  assert (r ∈ tbl_select p t) as Hs by by apply elem_of_tbl_select.
  destruct (tbl_select p t); [by apply not_elem_of_nil in Hs|done].
Qed.

(** A statement that matches no row changes nothing. *)
Lemma tbl_update_none p f t : (∀ r, r ∈ t → p r = false) → tbl_update p f t = t.
Proof.
  unfold tbl_update. intros H. induction t as [|r t IH]; [done|]; csimpl.
  rewrite (H r ltac:(left)), IH; [done|]. intros. apply H. by right.
Qed.

Lemma tbl_delete_none p t : (∀ r, r ∈ t → p r = false) → tbl_delete p t = t.
Proof.
  unfold tbl_delete. intros H. induction t as [|r t IH]; [done|].
  rewrite filter_cons, decide_True by (apply H; left).
  rewrite IH; [done|]. intros. apply H. by right.
Qed.

Lemma tbl_update_ext p q f t :
  (∀ r, r ∈ t → p r = q r) → tbl_update p f t = tbl_update q f t.
Proof.
  unfold tbl_update. intros H. induction t as [|r t IH]; [done|]; csimpl.
  rewrite (H r ltac:(left)), IH; [done|]. intros. apply H. by right.
Qed.

Lemma tbl_update_app p f t1 t2 :
  tbl_update p f (t1 ++ t2) = tbl_update p f t1 ++ tbl_update p f t2.
Proof. apply fmap_app. Qed.

Lemma tbl_delete_ext p q t : (∀ r, r ∈ t → p r = q r) → tbl_delete p t = tbl_delete q t.
Proof.
  unfold tbl_delete. intros H. induction t as [|r t IH]; [done|].
  rewrite !filter_cons, (H r) by left. rewrite IH; [done|]. intros r' Hr'. apply H. by right.
Qed.

(** Selecting what an update of the same, or of other, rows left. *)
Lemma tbl_select_update_same p f t :
  (∀ r, p (f r) = p r) → tbl_select p (tbl_update p f t) = f <$> tbl_select p t.
Proof.
  intros Hf. unfold tbl_select, tbl_update. induction t as [|r t IH]; [done|].
  rewrite fmap_cons, !filter_cons, IH. destruct (p r) eqn:E.
  - rewrite !decide_True by (rewrite ?Hf; done). done.
  - by rewrite !decide_False by congruence.
Qed.

Lemma tbl_select_update_other p q f t :
  (∀ r, q (f r) = q r) → (∀ r, p r = true → q r = false) →
  tbl_select q (tbl_update p f t) = tbl_select q t.
Proof.
  intros Hf Hd. unfold tbl_select, tbl_update. induction t as [|r t IH]; [done|].
  rewrite fmap_cons, !filter_cons, IH. destruct (p r) eqn:E; [|done].
  rewrite !decide_False by (rewrite ?Hf, (Hd r E); done). done.
Qed.

Section Keyed.
Context `{EqDecision K} (key : R → K).

(** A unique index on [key]. *)
Definition unique_on t : Prop := NoDup (key <$> t).

Lemma unique_on_update p f t :
  (∀ r, key (f r) = key r) → unique_on t → unique_on (tbl_update p f t).
Proof.
  intros Hf. unfold unique_on, tbl_update. rewrite <-list_fmap_compose.
  rewrite (list_fmap_ext (key ∘ (λ r, if p r then f r else r)) key t); [done|].
  intros i r _; simpl. by destruct (p r).
Qed.

Lemma unique_on_filter (P : R → Prop) `{∀ r, Decision (P r)} t :
  unique_on t → unique_on (filter P t).
Proof.
  unfold unique_on. induction t as [|r t IH]; [done|].
  rewrite filter_cons, fmap_cons. intros [Hn Hd]%NoDup_cons.
  case_decide; [|by apply IH]. rewrite fmap_cons. constructor; [|by apply IH].
  intros Hin. apply Hn. apply list_elem_of_fmap in Hin as (r' & -> & Hin).
  apply list_elem_of_filter in Hin as [_ Hin]. by apply list_elem_of_fmap_2.
Qed.

Lemma unique_on_snoc r t :
  (∀ r', r' ∈ t → key r' ≠ key r) → unique_on t → unique_on (t ++ [r]).
Proof.
  unfold unique_on. intros Hn Hd. rewrite fmap_app. apply NoDup_app.
  split; [done|]. split; [|apply NoDup_singleton].
  intros k Hk Hin. apply list_elem_of_singleton in Hin as ->.
  apply list_elem_of_fmap in Hk as (r' & Heq & Hin). by eapply Hn.
Qed.

Lemma unique_on_eq t r1 r2 :
  unique_on t → r1 ∈ t → r2 ∈ t → key r1 = key r2 → r1 = r2.
Proof.
  unfold unique_on. intros Hd H1 H2 Hk. induction t as [|r t IH].
  { by apply not_elem_of_nil in H1. }
  rewrite fmap_cons, NoDup_cons in Hd. destruct Hd as [Hn Hd].
  apply elem_of_cons in H1 as [->|H1]; apply elem_of_cons in H2 as [->|H2];
    [done| | |by apply IH].
  - exfalso. apply Hn. rewrite Hk. by apply list_elem_of_fmap_2.
  - exfalso. apply Hn. rewrite <-Hk. by apply list_elem_of_fmap_2.
Qed.

(** A sum restricted to one key of a unique index is the value at its row. *)
Lemma sum_by_unique (g : R → Z) t r :
  unique_on t → r ∈ t →
  sum_by (λ r', if decide (key r' = key r) then g r' else 0) t = g r.
Proof.
  unfold unique_on. intros Hd Hin. induction t as [|r0 t IH].
  { by apply not_elem_of_nil in Hin. }
  rewrite fmap_cons, NoDup_cons in Hd. destruct Hd as [Hn Hd]. simpl.
  apply elem_of_cons in Hin as [->|Hin].
  - rewrite decide_True by done.
    rewrite (sum_by_ext _ (λ _, 0)).
    + clear. induction t; simpl; lia.
    + intros r' Hr'. rewrite decide_False; [done|].
      intros Heq. apply Hn. rewrite <-Heq. by apply list_elem_of_fmap_2.
  - rewrite decide_False, IH by
      (done || (intros Heq; apply Hn; rewrite Heq; by apply list_elem_of_fmap_2)).
    lia.
Qed.

Lemma sum_by_absent (g : R → Z) t k :
  (∀ r, r ∈ t → key r ≠ k) →
  sum_by (λ r', if decide (key r' = k) then g r' else 0) t = 0.
Proof.
  intros H. rewrite (sum_by_ext _ (λ _, 0)).
  - clear. induction t; simpl; lia.
  - intros r Hr. rewrite decide_False; [done|by apply H].
Qed.
End Keyed.
End Table.

#[export] Hint Rewrite @elem_of_tbl_update @elem_of_tbl_select @elem_of_tbl_delete
  @tbl_update_length : wispace.
