(* ===== verification/ChatQueue.v ===== *)
(** * The per-user debounce queue (packages/chat-queue-core)

    [DebounceChatQueue] buffers a user's messages during a debounce window,
    coalesces the messages that arrive while a batch is being processed, and
    evicts idle users.  The state is the [queues] map, the live timers of the
    event loop, the flush calls whose handler has not settled yet, and the
    [shuttingDown] flag.  Every entry point of the class, every timer callback
    and every continuation after an [await] is one event; a run of the queue is
    a list of events in the order the event loop executes them. *)

From S2P Require Import Prelude.

Module ChatQueue.

(** ** Configuration (constructor, lines 43-62) *)

Record DebounceChatQueueConfig := {
  staleTtlMs : Z;
  cfgMaxPendingSize : option jsnum;
  cfgDrainTimeoutMs : option jsnum
}.

Definition DEFAULT_MAX_PENDING_SIZE : Z := 20.
Definition DEFAULT_DRAIN_TIMEOUT_MS : Z := 25000.
Definition IDLE_POLL_MS : Z := 50.

(** [Number.isFinite(v) && (v ?? 0) > 0 ? Math.floor(v) : dflt]. *)
Definition positive_or_default (v : option jsnum) (dflt : Z) : Z :=
  match v with
  | Some x => if js_is_finite x && js_pos x then default dflt (js_floor x) else dflt
  | None => dflt
  end.

Definition maxPendingSize (c : DebounceChatQueueConfig) : Z :=
  positive_or_default (cfgMaxPendingSize c) DEFAULT_MAX_PENDING_SIZE.

Definition drainTimeoutMs (c : DebounceChatQueueConfig) : Z :=
  positive_or_default (cfgDrainTimeoutMs c) DEFAULT_DRAIN_TIMEOUT_MS.

Lemma positive_or_default_nonneg v d : 0 ≤ d → 0 ≤ positive_or_default v d.
Proof.
  intros Hd. destruct v as [x|]; simpl; [|done].
  destruct (js_is_finite x && js_pos x) eqn:E; [|done]. bool_to_prop.
  destruct (js_floor x) eqn:F; simpl; [|done]. by eapply js_floor_pos.
Qed.

Section Queue.
Context {V : Type} (cfg : DebounceChatQueueConfig).

(** ** Data *)

Abbreviation Ctx := (gmap string V).

Record EnqueueInput := {
  externalUserId : string;
  text : jsstring;
  inputContext : option Ctx;
  idempotencyKey : option string
}.

Record ChatQueueBatch := {
  batchUser : string;
  batchTexts : list jsstring;
  batchContext : option Ctx;
  batchKey : option string
}.

Record QueueState := mkQueueState {
  texts : list jsstring;
  lastIdempotencyKey : option string;
  context : option Ctx;
  debounceTimer : option nat;
  processing : bool;
  processingDeadlineAt : option Z;
  pendingWhileProcessing : list jsstring;
  lastPendingIdempotencyKey : option string;
  lastActivityAt : Z
}.

(** An unsettled call of [flush]: the locals its continuation reads.  A flush
    whose state object was dropped from the map by [destroy] still holds a
    reference to it. *)
Record Flight := {
  startedAt : Z;
  deadlineAt : Z;
  detached : option QueueState
}.

Record World := mkWorld {
  queues : gmap string QueueState;
  timers : gmap nat string;
  nextTimer : nat;
  flights : gmap string Flight;
  shuttingDown : bool
}.

(** Calls out of the queue: the flush handler and the four callbacks. *)
Inductive Output :=
| OFlush (b : ChatQueueBatch)
| OPendingQueued (u : string) (t : jsstring) (pendingCount : Z) (c : option Ctx)
| OPendingDropped (u : string) (droppedCount : Z)
| OFlushTimedOut (u : string) (timeoutMs : Z)
| OShutdownRejected (u : string) (t : jsstring).

Inductive FlushOutcome := HandlerResolved | HandlerRejected | TimedOut.

Inductive Event :=
| EvEnqueue (now : Z) (i : EnqueueInput)
| EvTimer (now : Z) (id : nat)
| EvFlushNow (now : Z) (u : string)
| EvResume (now : Z) (u : string) (deadline : Z)
| EvSettle (u : string) (o : FlushOutcome)
| EvClear (u : string)
| EvEvict (now : Z)
| EvDestroy
| EvDrainRound (now : Z) (users : list string) (deadline : Z)
| EvDrainScan
| EvDestroyEnd.

Definition init : World := mkWorld ∅ ∅ 0 ∅ false.

(** ** Operations *)

Definition truthy_key (k : option string) : option string :=
  match k with Some k' => if bool_decide (k' = "") then None else k | None => None end.

(** [clearTimeout]; clearing [undefined] does nothing. *)
Definition clearTimer (t : option nat) (ts : gmap nat string) : gmap nat string :=
  match t with Some i => delete i ts | None => ts end.

Definition freshState (now : Z) : QueueState :=
  mkQueueState [] None None None false None [] None now.

(** [state.lastActivityAt = Date.now()] and the context spread. *)
Definition touchState (now : Z) (c : option Ctx) (s : QueueState) : QueueState :=
  mkQueueState (texts s) (lastIdempotencyKey s)
    (match c with Some c' => Some (c' ∪ default ∅ (context s)) | None => context s end)
    (debounceTimer s) (processing s) (processingDeadlineAt s)
    (pendingWhileProcessing s) (lastPendingIdempotencyKey s) now.

Definition setTimer (t : option nat) (s : QueueState) : QueueState :=
  mkQueueState (texts s) (lastIdempotencyKey s) (context s) t (processing s)
    (processingDeadlineAt s) (pendingWhileProcessing s)
    (lastPendingIdempotencyKey s) (lastActivityAt s).

Definition scheduleFlush (u : string) (s : QueueState) (w : World) : World :=
  let id := nextTimer w in
  mkWorld (<[u := setTimer (Some id) s]> (queues w))
    (<[id := u]> (clearTimer (debounceTimer s) (timers w)))
    (S id) (flights w) (shuttingDown w).

Definition pushPending (key : option string) (t : jsstring) (s : QueueState) : QueueState :=
  mkQueueState (texts s) (lastIdempotencyKey s) (context s) (debounceTimer s)
    (processing s) (processingDeadlineAt s)
    (pendingWhileProcessing s ++ [t])
    (match truthy_key key with Some k => Some k | None => lastPendingIdempotencyKey s end)
    (lastActivityAt s).

(** Drop the oldest pending texts beyond the cap ([splice(0, excess)]). *)
Definition capPending (s : QueueState) : QueueState :=
  mkQueueState (texts s) (lastIdempotencyKey s) (context s) (debounceTimer s)
    (processing s) (processingDeadlineAt s)
    (keep_last (Z.to_nat (maxPendingSize cfg)) (pendingWhileProcessing s))
    (lastPendingIdempotencyKey s) (lastActivityAt s).

Definition pushText (t : jsstring) (s : QueueState) : QueueState :=
  mkQueueState (texts s ++ [t]) (lastIdempotencyKey s) (context s) (debounceTimer s)
    (processing s) (processingDeadlineAt s) (pendingWhileProcessing s)
    (lastPendingIdempotencyKey s) (lastActivityAt s).

Definition capTexts (s : QueueState) : QueueState :=
  mkQueueState (keep_last (Z.to_nat (maxPendingSize cfg)) (texts s))
    (lastIdempotencyKey s) (context s) (debounceTimer s)
    (processing s) (processingDeadlineAt s) (pendingWhileProcessing s)
    (lastPendingIdempotencyKey s) (lastActivityAt s).

Definition setKey (key : option string) (s : QueueState) : QueueState :=
  mkQueueState (texts s)
    (match truthy_key key with Some k => Some k | None => lastIdempotencyKey s end)
    (context s) (debounceTimer s)
    (processing s) (processingDeadlineAt s) (pendingWhileProcessing s)
    (lastPendingIdempotencyKey s) (lastActivityAt s).

Definition setQueue (u : string) (s : QueueState) (w : World) : World :=
  mkWorld (<[u := s]> (queues w)) (timers w) (nextTimer w) (flights w) (shuttingDown w).

Definition lenZ {A} (l : list A) : Z := Z.of_nat (length l).

Definition enqueue (now : Z) (i : EnqueueInput) (w : World) : World * list Output :=
  let t := js_trim (text i) in
  let u := externalUserId i in
  if bool_decide (t = []) then (w, [])
  else if shuttingDown w then (w, [OShutdownRejected u t])
  else
    let s := touchState now (inputContext i) (default (freshState now) (queues w !! u)) in
    if processing s then
      let s1 := pushPending (idempotencyKey i) t s in
      let n := lenZ (pendingWhileProcessing s1) in
      let queued := OPendingQueued u t n (context s1) in
      if (0 <? maxPendingSize cfg) && (maxPendingSize cfg <? n)
      then (setQueue u (capPending s1) w,
            [queued; OPendingDropped u (n - maxPendingSize cfg)])
      else (setQueue u s1 w, [queued])
    else
      let s1 := pushText t s in
      let n := lenZ (texts s1) in
      let '(s2, outs) :=
        if maxPendingSize cfg <? n
        then (capTexts s1, [OPendingDropped u (n - maxPendingSize cfg)])
        else (s1, []) in
      (scheduleFlush u (setKey (idempotencyKey i) s2) w, outs).

Definition deadlineFromNow (now : Z) : Z := now + drainTimeoutMs cfg.

(** [flush] up to its [await]: take the buffered texts and call the handler. *)
Definition flush (now : Z) (u : string) (deadline : Z) (w : World) : World * list Output :=
  match queues w !! u with
  | None => (w, [])
  | Some s =>
    if processing s || bool_decide (texts s = []) then (w, [])
    else
      let s' := mkQueueState [] None (context s) None true (Some deadline)
                  (pendingWhileProcessing s) (lastPendingIdempotencyKey s)
                  (lastActivityAt s) in
      (mkWorld (<[u := s']> (queues w)) (clearTimer (debounceTimer s) (timers w))
         (nextTimer w)
         (<[u := {| startedAt := now; deadlineAt := deadline; detached := None |}]> (flights w))
         (shuttingDown w),
       [OFlush {| batchUser := u; batchTexts := texts s;
                  batchContext := context s; batchKey := lastIdempotencyKey s |}])
  end.

(** The [finally] block of [flush] on the state object. *)
Definition promote (s : QueueState) : QueueState :=
  if bool_decide (pendingWhileProcessing s = [])
  then mkQueueState (texts s) (lastIdempotencyKey s) (context s) (debounceTimer s)
         false None [] (lastPendingIdempotencyKey s) (lastActivityAt s)
  else mkQueueState (texts s ++ pendingWhileProcessing s) (lastPendingIdempotencyKey s)
         (context s) (debounceTimer s) false None [] None (lastActivityAt s).

Definition dropFlight (u : string) (w : World) : World :=
  mkWorld (queues w) (timers w) (nextTimer w) (delete u (flights w)) (shuttingDown w).

Definition settle (u : string) (o : FlushOutcome) (w : World) : World * list Output :=
  match flights w !! u with
  | None => (w, [])
  | Some f =>
    let outs := match o with
                | TimedOut => [OFlushTimedOut u (Z.max 0 (deadlineAt f - startedAt f))]
                | _ => []
                end in
    let w1 := dropFlight u w in
    match detached f, queues w !! u with
    | Some s, _ =>
        (* the object is no longer in the map: only its new timer is visible *)
        (if bool_decide (texts (promote s) = []) then w1
         else mkWorld (queues w1) (<[nextTimer w1 := u]> (timers w1))
                (S (nextTimer w1)) (flights w1) (shuttingDown w1), outs)
    | None, Some s =>
        let s' := promote s in
        (if bool_decide (texts s' = [])
         then match debounceTimer s' with
              | None => mkWorld (delete u (queues w1)) (timers w1) (nextTimer w1)
                          (flights w1) (shuttingDown w1)
              | Some _ => setQueue u s' w1
              end
         else scheduleFlush u s' w1, outs)
    | None, None => (w1, outs)
    end
  end.

(** The timer callback of [scheduleFlush]. *)
Definition fireTimer (now : Z) (id : nat) (w : World) : World * list Output :=
  match timers w !! id with
  | None => (w, [])
  | Some u =>
    let q := match queues w !! u with
             | Some s => if bool_decide (debounceTimer s = Some id)
                         then <[u := setTimer None s]> (queues w) else queues w
             | None => queues w
             end in
    flush now u (deadlineFromNow now)
      (mkWorld q (delete id (timers w)) (nextTimer w) (flights w) (shuttingDown w))
  end.

(** [flushOrWait] up to its first [await]: a user whose batch is being processed
    is waited for, and [EvResume] is the call of [flush] after the wait. *)
Definition flushOrWait (now : Z) (u : string) (deadline : Z) (w : World) : World * list Output :=
  match queues w !! u with
  | None => (w, [])
  | Some s => if processing s then (w, []) else flush now u deadline w
  end.

Definition clearUserTimer (u : string) (s : QueueState) (w : World) : World :=
  mkWorld (<[u := setTimer None s]> (queues w)) (clearTimer (debounceTimer s) (timers w))
    (nextTimer w) (flights w) (shuttingDown w).

Definition flushNow (now : Z) (u : string) (w : World) : World * list Output :=
  let w1 := match queues w !! u with
            | Some s => match debounceTimer s with
                        | Some _ => clearUserTimer u s w
                        | None => w
                        end
            | None => w
            end in
  flushOrWait now u (deadlineFromNow now) w1.

Definition clear (u : string) (w : World) : World :=
  match queues w !! u with
  | None => w
  | Some s =>
    let ts := clearTimer (debounceTimer s) (timers w) in
    let s' := mkQueueState [] None (context s) None (processing s)
                (processingDeadlineAt s) [] None (lastActivityAt s) in
    mkWorld (if processing s then <[u := s']> (queues w) else delete u (queues w))
      ts (nextTimer w) (flights w) (shuttingDown w)
  end.

Definition isStale (cutoff : Z) (s : QueueState) : bool :=
  negb (processing s) && bool_decide (texts s = [])
  && bool_decide (pendingWhileProcessing s = [])
  && bool_decide (debounceTimer s = None) && (lastActivityAt s <? cutoff).

Definition evictStale (now : Z) (w : World) : World :=
  let cutoff := now - staleTtlMs cfg in
  mkWorld (filter (λ kv, isStale cutoff kv.2 = false) (queues w))
    (timers w) (nextTimer w) (flights w) (shuttingDown w).

Definition hasWork (s : QueueState) : bool :=
  processing s || negb (bool_decide (texts s = []))
  || negb (bool_decide (pendingWhileProcessing s = [])).

(** One pass of the drain loop: [users.map(user => flushOrWait(user, deadline))]. *)
Fixpoint drainRound (now : Z) (users : list string) (deadline : Z) (w : World)
  : World * list Output :=
  match users with
  | [] => (w, [])
  | u :: us =>
    let '(w1, o1) := flushOrWait now u deadline w in
    let '(w2, o2) := drainRound now us deadline w1 in
    (w2, o1 ++ o2)
  end.

(** The scan after the round: a timer of a user with nothing buffered is
    cancelled; the boolean is [hasWork]. *)
Definition drainScan (w : World) : World * bool :=
  let idle := filter (λ kv, hasWork kv.2 = false) (queues w) in
  let ids := omap debounceTimer (map_to_list idle).*2 in
  (mkWorld ((λ s, if hasWork s then s else setTimer None s) <$> queues w)
     (foldr (λ i ts, delete i ts) (timers w) ids)
     (nextTimer w) (flights w) (shuttingDown w),
   existsb hasWork (map_to_list (queues w)).*2).

Definition destroyBegin (w : World) : World :=
  mkWorld (queues w) (timers w) (nextTimer w) (flights w) true.

(** The tail of [destroy] after [drain] returned: cancel the timers of the
    queued states and clear the map. *)
Definition destroyEnd (w : World) : World :=
  if shuttingDown w then
    let ids := omap debounceTimer (map_to_list (queues w)).*2 in
    mkWorld ∅ (foldr (λ i ts, delete i ts) (timers w) ids) (nextTimer w)
      (map_imap (λ u f, Some match detached f with
                             | Some _ => f
                             | None => {| startedAt := startedAt f; deadlineAt := deadlineAt f;
                                          detached := queues w !! u |}
                             end) (flights w))
      true
  else w.

Definition step (ev : Event) (w : World) : World * list Output :=
  match ev with
  | EvEnqueue now i => enqueue now i w
  | EvTimer now id => fireTimer now id w
  | EvFlushNow now u => flushNow now u w
  | EvResume now u d => flush now u d w
  | EvSettle u o => settle u o w
  | EvClear u => (clear u w, [])
  | EvEvict now => (evictStale now w, [])
  | EvDestroy => (destroyBegin w, [])
  | EvDrainRound now us d => drainRound now us d w
  | EvDrainScan => (fst (drainScan w), [])
  | EvDestroyEnd => (destroyEnd w, [])
  end.

Fixpoint run (evs : list Event) (w : World) : World * list Output :=
  match evs with
  | [] => (w, [])
  | ev :: evs' =>
    let '(w1, o1) := step ev w in
    let '(w2, o2) := run evs' w1 in
    (w2, o1 ++ o2)
  end.

(** ** The structural invariant

    [user_ok u w] collects everything [w] knows about the user [u]; the
    invariant is that every user is in order. *)

Definition state_wf (s : QueueState) : Prop :=
  if processing s then texts s = [] ∧ debounceTimer s = None
  else pendingWhileProcessing s = [] ∧ (texts s ≠ [] → is_Some (debounceTimer s)).

(** The same without the promise that buffered texts have a timer: the state
    between cancelling a timer and starting the flush. *)
Definition state_weak (s : QueueState) : Prop :=
  if processing s then texts s = [] ∧ debounceTimer s = None
  else pendingWhileProcessing s = [].

Record user_inv (P : QueueState → Prop) (u : string) (w : World) : Prop := {
  ok_state s : queues w !! u = Some s → P s;
  ok_busy s : queues w !! u = Some s → processing s = true →
    ∃ f, flights w !! u = Some f ∧ detached f = None;
  ok_flight f : flights w !! u = Some f →
    match detached f with
    | None => ∃ s, queues w !! u = Some s ∧ processing s = true
    | Some _ => shuttingDown w = true ∧ queues w !! u = None
    end;
  ok_timer_of s id : queues w !! u = Some s → debounceTimer s = Some id →
    timers w !! id = Some u;
  ok_timer id : timers w !! id = Some u →
    (id < nextTimer w)%nat ∧
    ((∃ s, queues w !! u = Some s ∧ debounceTimer s = Some id)
     ∨ (shuttingDown w = true ∧ queues w !! u = None))
}.

Abbreviation user_ok := (user_inv state_wf).

Definition wf (w : World) : Prop := ∀ u, user_ok u w.

Lemma wf_init : wf init.
Proof. intros u. split; unfold init; simpl; intros; simplify_map_eq. Qed.

(** What an operation on the user [u] leaves alone. *)
Record frame (u : string) (w w' : World) : Prop := {
  fr_queues v : v ≠ u → queues w' !! v = queues w !! v;
  fr_flights v : v ≠ u → flights w' !! v = flights w !! v;
  fr_timers v id : v ≠ u → timers w' !! id = Some v ↔ timers w !! id = Some v;
  fr_next : (nextTimer w ≤ nextTimer w')%nat;
  fr_down : shuttingDown w' = shuttingDown w
}.

Lemma frame_ok u v w w' : frame u w w' → v ≠ u → user_ok v w → user_ok v w'.
Proof.
  intros [Fq Ff Ft Fn Fd] Hv [H1 H2 H3 H4 H5].
  specialize (Fq v Hv). specialize (Ff v Hv). split.
  - intros s. rewrite Fq. apply H1.
  - intros s. rewrite Fq, Ff. apply H2.
  - intros f. rewrite Ff, Fq, Fd. apply H3.
  - intros s id. rewrite Fq, (Ft v id Hv). apply H4.
  - intros id. rewrite (Ft v id Hv), Fq, Fd. intros Hx. destruct (H5 id Hx). split; [lia|done].
Qed.

Lemma wf_local u w w' :
  (∀ v, v ≠ u → user_ok v w) → frame u w w' → user_ok u w' → wf w'.
Proof.
  intros Hwf Hf Hu v. destruct (decide (v = u)) as [->|Hv]; [done|].
  eapply frame_ok; eauto.
Qed.

(** Timers: a fresh identifier is unused, and a state's timer is its own. *)
Lemma fresh_timer w id : wf w → (nextTimer w ≤ id)%nat → timers w !! id = None.
Proof.
  intros Hwf Hle. destruct (timers w !! id) as [u|] eqn:E; [|done].
  destruct (ok_timer _ _ _ (Hwf u) _ E). lia.
Qed.

Lemma clearTimer_other t (ts : gmap nat string) u v id :
  (∀ i, t = Some i → ts !! i = Some u) → v ≠ u →
  clearTimer t ts !! id = Some v ↔ ts !! id = Some v.
Proof.
  intros Ht Hv. destruct t as [i|]; simpl; [|done].
  rewrite lookup_delete. case_decide as Hi; [|done]. subst.
  rewrite (Ht id eq_refl). split; congruence.
Qed.

Lemma clearTimer_mono t (ts : gmap nat string) id v :
  clearTimer t ts !! id = Some v → ts !! id = Some v ∧ t ≠ Some id.
Proof.
  destruct t as [i|]; simpl; [|by split]. rewrite lookup_delete.
  case_decide; [done|]. intros Hl. split; [done|congruence].
Qed.

(** The timers of a user are exactly the ones its state refers to while the
    user is queued. *)
Lemma own_timer P u w s id : user_inv P u w → queues w !! u = Some s →
  timers w !! id = Some u → debounceTimer s = Some id ∧ (id < nextTimer w)%nat.
Proof.
  intros Hok Hs Ht. destruct (ok_timer _ _ _ Hok _ Ht) as [Hlt [(s' & Hs' & Hd)|[_ Hn]]];
    [|congruence]. split; [congruence|done].
Qed.

Lemma cleared_timer P u w s id : user_inv P u w → queues w !! u = Some s →
  clearTimer (debounceTimer s) (timers w) !! id ≠ Some u.
Proof.
  intros Hok Hs Ht. apply clearTimer_mono in Ht as [Ht Hne].
  by destruct (own_timer _ _ _ _ _ Hok Hs Ht).
Qed.

(** *** Scheduling a flush *)

(** [s] is not being processed, holds the user's only timer and no unsettled
    flush refers to the user. *)
Lemma wf_scheduleFlush u s w :
  (∀ v, v ≠ u → user_ok v w) → timers w !! nextTimer w = None →
  (∀ i, debounceTimer s = Some i → timers w !! i = Some u) →
  (∀ id, clearTimer (debounceTimer s) (timers w) !! id ≠ Some u) →
  processing s = false → pendingWhileProcessing s = [] → flights w !! u = None →
  wf (scheduleFlush u s w).
Proof.
  intros Hr Hfresh Hown Hno Hp Hpend Hfl.
  apply (wf_local u w); [done| |].
  - split; unfold scheduleFlush; simpl; [intros; by simplify_map_eq|done| |lia|done].
    intros v id Hv. rewrite lookup_insert. case_decide as Hi.
    + subst. rewrite Hfresh. split; congruence.
    + by apply clearTimer_other with (u := u).
  - split; unfold scheduleFlush; simpl.
    + intros s' ?; simplify_map_eq. unfold state_wf; simpl. rewrite Hp. by split.
    + intros s' ? Hpr; simplify_map_eq. simpl in Hpr. congruence.
    + intros f. by rewrite Hfl.
    + intros s' id Hl Hd; rewrite lookup_insert_eq in Hl; injection Hl as <-.
      simpl in Hd; injection Hd as <-. by rewrite lookup_insert_eq.
    + intros id. rewrite lookup_insert. case_decide as Hi.
      * intros _. subst id. split; [lia|]. left.
        exists (setTimer (Some (nextTimer w)) s). by rewrite lookup_insert_eq.
      * intros Hl. by destruct (Hno id).
Qed.

(** *** Per-operation preservation *)

Lemma frame_refl u w : frame u w w.
Proof. by split. Qed.

Lemma user_ok_of_weak u w s :
  user_inv state_weak u w → queues w !! u = Some s →
  processing s || bool_decide (texts s = []) = true → user_ok u w.
Proof.
  intros [H1 H2 H3 H4 H5] Hs Hb. split; try done.
  intros s' Hs'. simplify_eq. specialize (H1 _ Hs). unfold state_weak, state_wf in *.
  destruct (processing s); [done|]. split; [done|]. simpl in Hb. by bool_to_prop.
Qed.

Lemma user_ok_of_absent u w :
  user_inv state_weak u w → queues w !! u = None → user_ok u w.
Proof. intros [H1 H2 H3 H4 H5] Hs. split; try done. congruence. Qed.

Lemma weak_of_ok u w : user_ok u w → user_inv state_weak u w.
Proof.
  intros [H1 H2 H3 H4 H5]. split; try done. intros s Hs. specialize (H1 s Hs).
  unfold state_wf, state_weak in *. by destruct (processing s); [|destruct H1].
Qed.

Lemma wf_of_rest u w : (∀ v, v ≠ u → user_ok v w) → user_ok u w → wf w.
Proof. intros Hr Hu. eapply wf_local; [done|apply frame_refl|done]. Qed.

Lemma wf_flush now u d w :
  (∀ v, v ≠ u → user_ok v w) → user_inv state_weak u w → wf (fst (flush now u d w)).
Proof.
  intros Hr Hu. unfold flush. destruct (queues w !! u) as [s|] eqn:Hs; simpl.
  2:{ apply (wf_of_rest u); [done|]. by apply user_ok_of_absent. }
  destruct (processing s || bool_decide (texts s = [])) eqn:Hb; simpl.
  { apply (wf_of_rest u); [done|]. by eapply user_ok_of_weak. }
  bool_to_prop. pose proof (ok_state _ _ _ Hu _ Hs) as Hw. unfold state_weak in Hw.
  destruct (processing s) eqn:Hp; [done|].
  apply (wf_local u w); [done| |].
  - split; simpl; [intros; by simplify_map_eq..| | lia | done].
    intros v id Hv. apply clearTimer_other with (u := u); [|done].
    intros i Hi. by eapply ok_timer_of.
  - split; simpl.
    + intros s' ?; simplify_map_eq. by split.
    + intros s' ? _. simplify_map_eq. eauto.
    + intros f Hf; simplify_map_eq. eexists. by simplify_map_eq.
    + intros s' id ? ?; by simplify_map_eq.
    + intros id Hid. by destruct (cleared_timer _ _ _ _ id Hu Hs).
Qed.

Lemma wf_rest w u : wf w → ∀ v, v ≠ u → user_ok v w.
Proof. intros Hwf v _. apply Hwf. Qed.

Lemma wf_flush' now u d w : wf w → wf (fst (flush now u d w)).
Proof. intros Hwf. apply wf_flush; [by apply wf_rest|apply weak_of_ok, Hwf]. Qed.

Lemma wf_flushOrWait now u d w :
  (∀ v, v ≠ u → user_ok v w) → user_inv state_weak u w → wf (fst (flushOrWait now u d w)).
Proof.
  intros Hr Hu. unfold flushOrWait. destruct (queues w !! u) as [s|] eqn:Hs; simpl.
  2:{ apply (wf_of_rest u); [done|]. by apply user_ok_of_absent. }
  destruct (processing s) eqn:Hp; simpl; [|by apply wf_flush].
  apply (wf_of_rest u); [done|]. eapply user_ok_of_weak; [done..|by rewrite Hp].
Qed.

(** Cancelling the user's own timer leaves the weak invariant. *)
Lemma clearUserTimer_weak u s w :
  wf w → queues w !! u = Some s →
  (∀ v, v ≠ u → user_ok v (clearUserTimer u s w))
  ∧ user_inv state_weak u (clearUserTimer u s w).
Proof.
  intros Hwf Hs. pose proof (Hwf u) as Hok.
  assert (user_inv state_weak u (clearUserTimer u s w)) as Hweak.
  { destruct (weak_of_ok _ _ Hok) as [H1 H2 H3 H4 H5]. unfold clearUserTimer.
    split; simpl.
    - intros s' ?; simplify_map_eq. specialize (H1 _ Hs). unfold state_weak in *; simpl.
      destruct (processing s); naive_solver.
    - intros s' ? Hp; simplify_map_eq. by apply (H2 s).
    - intros f Hf. specialize (H3 f Hf). destruct (detached f).
      + destruct H3; congruence.
      + destruct H3 as (s' & Hs' & Hp). simplify_eq.
        exists (setTimer None s). by simplify_map_eq.
    - intros s' id ? ?; by simplify_map_eq.
    - intros id Hid. by destruct (cleared_timer _ _ _ _ id Hok Hs). }
  split; [|done]. intros v Hv. apply (frame_ok u v w); [|done|apply Hwf].
  split; unfold clearUserTimer; simpl; [intros; by simplify_map_eq|done| |lia|done].
  intros v' id Hv'. apply clearTimer_other with (u := u); [|done].
  intros i Hi. by eapply ok_timer_of.
Qed.

Lemma wf_flushNow now u w : wf w → wf (fst (flushNow now u w)).
Proof.
  intros Hwf. unfold flushNow. destruct (queues w !! u) as [s|] eqn:Hs.
  2:{ apply wf_flushOrWait; [by apply wf_rest|apply weak_of_ok, Hwf]. }
  destruct (debounceTimer s) eqn:Hd.
  - destruct (clearUserTimer_weak u s w Hwf Hs). by apply wf_flushOrWait.
  - apply wf_flushOrWait; [by apply wf_rest|apply weak_of_ok, Hwf].
Qed.

Lemma wf_fireTimer now id w : wf w → wf (fst (fireTimer now id w)).
Proof.
  intros Hwf. unfold fireTimer. destruct (timers w !! id) as [u|] eqn:Ht; [|done].
  destruct (ok_timer _ _ _ (Hwf u) _ Ht) as [Hlt [(s & Hs & Hd)|[Hsd Hn]]].
  - rewrite Hs, bool_decide_true by done.
    destruct (clearUserTimer_weak u s w Hwf Hs) as [Hr Hu].
    unfold clearUserTimer in Hr, Hu. rewrite Hd in Hr, Hu. simpl in Hr, Hu.
    by apply wf_flush.
  - rewrite Hn. unfold flush. simpl. rewrite Hn. simpl.
    apply (wf_local u w); [by apply wf_rest| |].
    + split; simpl; [done..| | lia|done].
      intros v i Hv. rewrite lookup_delete. case_decide; [|done]. subst.
      rewrite Ht. split; congruence.
    + destruct (Hwf u) as [H1 H2 H3 H4 H5]. split; simpl; try done; [congruence|].
      intros i. rewrite lookup_delete. case_decide; [done|]. apply H5.
Qed.

(** Rewriting a state in place, keeping its timer and its processing flag. *)
Lemma wf_setQueue u s s' w :
  wf w → queues w !! u = Some s →
  debounceTimer s' = debounceTimer s → processing s' = processing s → state_wf s' →
  wf (setQueue u s' w).
Proof.
  intros Hwf Hs Hd Hp Hst. destruct (Hwf u) as [H1 H2 H3 H4 H5].
  apply (wf_local u w); [by apply wf_rest| |].
  - split; unfold setQueue; simpl; [intros; by simplify_map_eq|done..].
  - split; unfold setQueue; simpl.
    + intros s0 ?; by simplify_map_eq.
    + intros s0 ? ?; simplify_map_eq. eapply H2; [done|congruence].
    + intros f Hf. specialize (H3 f Hf). destruct (detached f).
      * destruct H3; congruence.
      * destruct H3 as (s0 & ? & ?). simplify_eq. exists s'. rewrite lookup_insert_eq. split; congruence.
    + intros s0 id ? ?; simplify_map_eq. eapply H4; [done|congruence].
    + intros id Hid. destruct (H5 id Hid) as [? [(s0 & ? & ?)|[? ?]]]; [|congruence].
      simplify_eq. split; [done|]. left. exists s'. simplify_map_eq. split; congruence.
Qed.

(** A user that is not being processed has no unsettled flush in the map. *)
Lemma idle_no_flight u s w :
  user_ok u w → queues w !! u = Some s → processing s = false → flights w !! u = None.
Proof.
  intros Hok Hs Hp. destruct (flights w !! u) as [f|] eqn:Hf; [|done].
  pose proof (ok_flight _ _ _ Hok f Hf) as Hx. destruct (detached f).
  - destruct Hx; congruence.
  - destruct Hx as (s' & ? & ?). congruence.
Qed.

Lemma absent_no_flight u w :
  user_ok u w → queues w !! u = None → shuttingDown w = false → flights w !! u = None.
Proof.
  intros Hok Hs Hsd. destruct (flights w !! u) as [f|] eqn:Hf; [|done].
  pose proof (ok_flight _ _ _ Hok f Hf) as Hx. destruct (detached f).
  - destruct Hx; congruence.
  - destruct Hx as (s' & ? & ?). congruence.
Qed.

(** Scheduling from a well-formed world, for a queued or a new user. *)
Lemma wf_schedule_idle u s s0 w :
  wf w → queues w !! u = Some s0 → processing s0 = false →
  debounceTimer s = debounceTimer s0 → processing s = false →
  pendingWhileProcessing s = [] → wf (scheduleFlush u s w).
Proof.
  intros Hwf Hs Hp0 Hd Hp Hpend.
  apply wf_scheduleFlush; [by apply wf_rest| | | |done|done|].
  - by apply fresh_timer.
  - intros i Hi. eapply ok_timer_of; [apply Hwf|done|congruence].
  - intros id. rewrite Hd. eapply cleared_timer; [apply Hwf|done].
  - by eapply idle_no_flight.
Qed.

Lemma wf_schedule_new u s w :
  wf w → queues w !! u = None → shuttingDown w = false →
  debounceTimer s = None → processing s = false →
  pendingWhileProcessing s = [] → wf (scheduleFlush u s w).
Proof.
  intros Hwf Hs Hsd Hd Hp Hpend. apply wf_scheduleFlush; [by apply wf_rest| | | |done|done|].
  - by apply fresh_timer.
  - congruence.
  - intros id. rewrite Hd. simpl. intros Hid.
    destruct (ok_timer _ _ _ (Hwf u) _ Hid) as [_ [(s' & ? & _)|[? _]]]; congruence.
  - by apply absent_no_flight.
Qed.

Lemma wf_enqueue now i w : wf w → wf (fst (enqueue now i w)).
Proof.
  intros Hwf. unfold enqueue. case_bool_decide; [done|].
  destruct (shuttingDown w) eqn:Hsd; [done|].
  set (u := externalUserId i). pose proof (Hwf u) as Hok.
  destruct (queues w !! u) as [s|] eqn:Hs; simpl.
  - pose proof (ok_state _ _ _ Hok _ Hs) as Hst. unfold state_wf in Hst.
    destruct (processing s) eqn:Hp; simpl.
    + destruct Hst. case_match; simpl; eapply wf_setQueue; try done;
        unfold state_wf; simpl; by rewrite Hp.
    + destruct Hst. destruct (maxPendingSize cfg <? lenZ (texts s ++ [js_trim (text i)])); simpl;
        by eapply wf_schedule_idle.
  - destruct (maxPendingSize cfg <? lenZ [js_trim (text i)]); simpl; by apply wf_schedule_new.
Qed.

(** The flush of a user [destroy] removed: only a timer appears. *)
Lemma wf_settle_detached u o f s w :
  wf w → flights w !! u = Some f → detached f = Some s → wf (fst (settle u o w)).
Proof.
  intros Hwf Hf Hd. unfold settle. rewrite Hf, Hd. simpl.
  destruct (Hwf u) as [H1 H2 H3 H4 H5].
  pose proof (H3 f Hf) as Hfl. rewrite Hd in Hfl. destruct Hfl as [Hsd Hn].
  apply (wf_local u w); [by apply wf_rest| |].
  - case_bool_decide; split; simpl; try done; try (intros; by simplify_map_eq); try lia.
    intros v id Hv. rewrite lookup_insert. case_decide; [|done]. subst.
    rewrite (fresh_timer w) by (done || lia). split; congruence.
  - case_bool_decide; split; simpl; try congruence; try (intros; by simplify_map_eq);
      [apply H5|].
    intros id. rewrite lookup_insert. case_decide as Hid.
    + intros _. subst. split; [lia|by right].
    + intros Hl. destruct (H5 id Hl). split; [lia|done].
Qed.

Lemma promote_fields s :
  processing (promote s) = false ∧ pendingWhileProcessing (promote s) = []
  ∧ debounceTimer (promote s) = debounceTimer s
  ∧ texts (promote s) = texts s ++ pendingWhileProcessing s.
Proof.
  unfold promote. case_bool_decide as Hb; simpl; [|done].
  by rewrite Hb, app_nil_r.
Qed.

Lemma wf_settle u o w : wf w → wf (fst (settle u o w)).
Proof.
  intros Hwf. destruct (flights w !! u) as [f|] eqn:Hf.
  2:{ unfold settle. by rewrite Hf. }
  destruct (detached f) as [s|] eqn:Hd; [by eapply wf_settle_detached|].
  destruct (Hwf u) as [H1 H2 H3 H4 H5].
  pose proof (H3 f Hf) as Hfl. rewrite Hd in Hfl. destruct Hfl as (s & Hs & Hp).
  unfold settle. rewrite Hf, Hd, Hs. simpl.
  pose proof (H1 s Hs) as Hst. unfold state_wf in Hst. rewrite Hp in Hst.
  destruct Hst as [Htx Htm]. destruct (promote_fields s) as (Pp & Pq & Pt & Px).
  rewrite Htm in Pt.
  assert (∀ id, timers w !! id ≠ Some u) as Hno.
  { intros id Hid. destruct (H5 id Hid) as [_ [(s' & ? & ?)|[_ ?]]]; congruence. }
  assert (frame u w (dropFlight u w)) as Hfr
    by (split; simpl; try (intros; by simplify_map_eq); done).
  case_bool_decide as Hb; simpl.
  - rewrite Pt. simpl. apply (wf_local u w); [by apply wf_rest| |].
    + split; simpl; try (intros; by simplify_map_eq); done.
    + split; simpl; try (intros; by simplify_map_eq). intros id Hid. by destruct (Hno id).
  - apply wf_scheduleFlush; simpl; rewrite ?Pt; simpl; try done.
    + intros v Hv. by eapply frame_ok.
    + by apply fresh_timer.
    + by simplify_map_eq.
Qed.

Lemma wf_clear u w : wf w → wf (clear u w).
Proof.
  intros Hwf. unfold clear. destruct (queues w !! u) as [s|] eqn:Hs; [|done].
  pose proof (Hwf u) as Hok.
  apply (wf_local u w); [by apply wf_rest| |].
  - split; simpl; [intros v Hv; by case_match; simplify_map_eq|done| |lia|done].
    intros v id Hv. apply clearTimer_other with (u := u); [|done].
    intros i Hi. by eapply ok_timer_of.
  - destruct (processing s) eqn:Hp; split; simpl; try (intros; by simplify_map_eq).
    + intros s' ? _; simplify_map_eq. by eapply (ok_busy _ _ _ Hok).
    + intros f Hf. pose proof (ok_flight _ _ _ Hok f Hf) as Hx.
      destruct (detached f); [destruct Hx; congruence|].
      eexists. rewrite lookup_insert_eq. by split.
    + intros id Hid. by destruct (cleared_timer _ _ _ _ id Hok Hs).
    + intros f. by rewrite (idle_no_flight u s w Hok Hs Hp).
    + intros id Hid. by destruct (cleared_timer _ _ _ _ id Hok Hs).
Qed.

Lemma wf_evictStale now w : wf w → wf (evictStale now w).
Proof.
  intros Hwf u. destruct (Hwf u) as [H1 H2 H3 H4 H5]. unfold evictStale.
  set (c := now - staleTtlMs cfg).
  assert (∀ s, filter (λ kv, isStale c kv.2 = false) (queues w) !! u = Some s →
               queues w !! u = Some s) as Hin.
  { intros s Hs. by apply map_lookup_filter_Some in Hs as [? _]. }
  assert (∀ s, queues w !! u = Some s → processing s = true ∨ is_Some (debounceTimer s) →
     filter (λ kv, isStale c kv.2 = false) (queues w) !! u = Some s) as Hkeep.
  { intros s Hs Hor. apply map_lookup_filter_Some. split; [done|]. simpl. unfold isStale.
    destruct Hor as [->|[id Hid]]; [done|]. rewrite Hid.
    by rewrite (bool_decide_false (Some id = None)), !andb_false_r. }
  split; simpl.
  - intros s Hs. by apply H1, Hin.
  - intros s Hs. by apply H2, Hin.
  - intros f Hf. specialize (H3 f Hf). destruct (detached f).
    + destruct H3 as [? Hn]. split; [done|]. apply map_lookup_filter_None. by left.
    + destruct H3 as (s & Hs & Hp). exists s. split; [|done]. apply Hkeep; auto.
  - intros s id Hs. by apply H4, Hin.
  - intros id Hid. destruct (H5 id Hid) as [? [(s & Hs & Hd)|[? Hn]]]; split; try done.
    + left. exists s. split; [|done]. apply Hkeep; [done|]. right. by rewrite Hd.
    + right. split; [done|]. apply map_lookup_filter_None. by left.
Qed.

(** Cancelling a list of timers. *)
Lemma lookup_cancel ids (ts : gmap nat string) id :
  foldr (λ i ts, delete i ts) ts ids !! id
  = if bool_decide (id ∈ ids) then None else ts !! id.
Proof.
  induction ids as [|i ids IH]; simpl; [done|]. rewrite lookup_delete, IH.
  repeat case_bool_decide; case_decide; set_solver.
Qed.

Lemma elem_of_timer_ids (m : gmap string QueueState) id :
  id ∈ omap debounceTimer (map_to_list m).*2 ↔
  ∃ u s, m !! u = Some s ∧ debounceTimer s = Some id.
Proof.
  rewrite list_elem_of_omap. split.
  - intros (s & Hin & Hd). apply list_elem_of_fmap in Hin as ([u s'] & -> & Hin).
    apply elem_of_map_to_list in Hin. eauto.
  - intros (u & s & Hu & Hd). exists s. split; [|done].
    apply list_elem_of_fmap. exists (u, s). by rewrite elem_of_map_to_list.
Qed.

Lemma wf_drainScan w : wf w → wf (fst (drainScan w)).
Proof.
  intros Hwf u. destruct (Hwf u) as [H1 H2 H3 H4 H5]. unfold drainScan; simpl.
  set (ids := omap _ _).
  assert (∀ s id, queues w !! u = Some s → debounceTimer s = Some id →
            id ∈ ids ↔ hasWork s = false) as Hids.
  { intros s id Hs Hd. unfold ids. rewrite elem_of_timer_ids. split.
    - intros (v & s' & Hv & Hd'). apply map_lookup_filter_Some in Hv as [Hv Hw].
      pose proof (ok_timer_of _ _ _ (Hwf v) _ _ Hv Hd') as Htv.
      rewrite (H4 _ _ Hs Hd) in Htv. simplify_eq. done.
    - intros Hw. exists u, s. split; [|done]. by apply map_lookup_filter_Some. }
  split; simpl.
  - intros s. rewrite lookup_fmap. intros (s0 & Hs & ->)%fmap_Some.
    specialize (H1 s0 Hs). destruct (hasWork s0) eqn:Hw; [done|].
    unfold hasWork in Hw. bool_to_prop. unfold state_wf in *; simpl.
    destruct (processing s0); [done|]. by destruct H1.
  - intros s. rewrite lookup_fmap. intros (s0 & Hs & ->)%fmap_Some Hp.
    apply (H2 s0 Hs). by destruct (hasWork s0).
  - intros f Hf. specialize (H3 f Hf). rewrite lookup_fmap. destruct (detached f).
    + destruct H3 as [? ->]. done.
    + destruct H3 as (s & Hs & Hp). rewrite Hs. eexists. split; [done|].
      by destruct (hasWork s).
  - intros s id. rewrite lookup_fmap. intros (s0 & Hs & ->)%fmap_Some Hd.
    destruct (hasWork s0) eqn:Hw; [|done]. rewrite lookup_cancel.
    rewrite bool_decide_false; [by eapply H4|]. rewrite (Hids s0 id Hs Hd). congruence.
  - intros id. rewrite lookup_cancel. case_bool_decide as Hin; [done|]. intros Hid.
    destruct (H5 id Hid) as [? [(s & Hs & Hd)|[? Hn]]]; split; try done.
    + left. exists s. rewrite lookup_fmap, Hs. simpl. rewrite (Hids s id Hs Hd) in Hin.
      destruct (hasWork s); [done|congruence].
    + right. by rewrite lookup_fmap, Hn.
Qed.

Lemma wf_destroyEnd w : wf w → wf (destroyEnd w).
Proof.
  intros Hwf. unfold destroyEnd. destruct (shuttingDown w) eqn:Hsd; [|done].
  intros u. destruct (Hwf u) as [H1 H2 H3 H4 H5].
  split; simpl; try (intros; by simplify_map_eq).
  - intros f. rewrite map_lookup_imap. destruct (flights w !! u) as [f0|] eqn:Hf; [|done].
    simpl. intros [= <-]. specialize (H3 f0 eq_refl). destruct (detached f0) eqn:Hd.
    + rewrite Hd. by rewrite lookup_empty.
    + destruct H3 as (s & -> & _). simpl. by rewrite lookup_empty.
  - intros id. rewrite lookup_cancel. case_bool_decide as Hin; [done|]. intros Hid.
    destruct (H5 id Hid) as [? _]. split; [done|]. right. by rewrite lookup_empty.
Qed.

Lemma wf_drainRound now us d w : wf w → wf (fst (drainRound now us d w)).
Proof.
  revert w. induction us as [|u us IH]; intros w Hwf; simpl; [done|].
  pose proof (wf_flushOrWait now u d w (wf_rest w u Hwf) (weak_of_ok _ _ (Hwf u))) as Hw1.
  destruct (flushOrWait now u d w) as [w1 o1]. simpl in Hw1.
  specialize (IH w1 Hw1). by destruct (drainRound now us d w1).
Qed.

Lemma wf_step ev w : wf w → wf (fst (step ev w)).
Proof.
  intros Hwf. destruct ev; simpl.
  - by apply wf_enqueue.
  - by apply wf_fireTimer.
  - by apply wf_flushNow.
  - by apply wf_flush'.
  - by apply wf_settle.
  - by apply wf_clear.
  - by apply wf_evictStale.
  - intros u. destruct (Hwf u) as [H1 H2 H3 H4 H5]. split; simpl; try done.
    + intros f Hf. specialize (H3 f Hf). destruct (detached f); naive_solver.
    + intros id Hid. specialize (H5 id Hid). naive_solver.
  - by apply wf_drainRound.
  - by apply wf_drainScan.
  - by apply wf_destroyEnd.
Qed.

Lemma run_cons ev evs w :
  run (ev :: evs) w = ((run evs (step ev w).1).1, (step ev w).2 ++ (run evs (step ev w).1).2).
Proof. simpl. destruct (step ev w) as [w1 o1]; simpl. by destruct (run evs w1). Qed.

Lemma wf_run evs w : wf w → wf (fst (run evs w)).
Proof.
  revert w. induction evs as [|ev evs IH]; intros w Hwf; [done|].
  rewrite run_cons. simpl. by apply IH, wf_step.
Qed.

(** ** Delivery accounting *)

(** The texts of [u] the queue holds, oldest first. *)
Definition buffered (u : string) (w : World) : list jsstring :=
  match queues w !! u with
  | Some s => texts s ++ pendingWhileProcessing s
  | None => []
  end.

(** The texts of [u] handed to the flush handler, in order. *)
Fixpoint delivered (u : string) (outs : list Output) : list jsstring :=
  match outs with
  | [] => []
  | OFlush b :: outs' =>
      (if bool_decide (batchUser b = u) then batchTexts b else []) ++ delivered u outs'
  | _ :: outs' => delivered u outs'
  end.

(** The number of texts of [u] reported to [onPendingDropped]. *)
Fixpoint dropped (u : string) (outs : list Output) : Z :=
  match outs with
  | [] => 0
  | OPendingDropped v n :: outs' =>
      (if bool_decide (v = u) then n else 0) + dropped u outs'
  | _ :: outs' => dropped u outs'
  end.

(** The text an event adds to the queue of [u]: a non-blank message before
    shutdown. *)
Definition accepted (u : string) (ev : Event) (w : World) : list jsstring :=
  match ev with
  | EvEnqueue _ i =>
      if bool_decide (externalUserId i = u) && negb (js_blank (text i))
         && negb (shuttingDown w)
      then [js_trim (text i)] else []
  | _ => []
  end.

Fixpoint accepted_run (u : string) (evs : list Event) (w : World) : list jsstring :=
  match evs with
  | [] => []
  | ev :: evs' => accepted u ev w ++ accepted_run u evs' (step ev w).1
  end.

(** The events that throw buffered texts away on purpose. *)
Definition discards (u : string) (ev : Event) : bool :=
  match ev with
  | EvClear v => bool_decide (v = u)
  | EvDestroyEnd => true
  | _ => false
  end.

Lemma delivered_app u o1 o2 : delivered u (o1 ++ o2) = delivered u o1 ++ delivered u o2.
Proof. induction o1 as [|[] o1 IH]; simpl; rewrite ?IH, ?app_assoc; done. Qed.

Lemma dropped_app u o1 o2 : dropped u (o1 ++ o2) = dropped u o1 + dropped u o2.
Proof. induction o1 as [|[] o1 IH]; simpl; rewrite ?IH; lia. Qed.

(** A step that loses nothing: the buffer is split into what was handed over
    and what is still held. *)
Definition keeps (u : string) (w : World) (outs : list Output) (w' : World) : Prop :=
  buffered u w = delivered u outs ++ buffered u w' ∧ dropped u outs = 0.

Lemma keeps_same u w outs w' :
  buffered u w' = buffered u w → delivered u outs = [] → dropped u outs = 0 →
  keeps u w outs w'.
Proof. intros Hq Hd Hn. split; [|done]. by rewrite Hd, Hq. Qed.

Lemma keeps_trans u w o1 w1 o2 w2 :
  keeps u w o1 w1 → keeps u w1 o2 w2 → keeps u w (o1 ++ o2) w2.
Proof.
  intros [E1 D1] [E2 D2]. split; [|rewrite dropped_app; lia].
  by rewrite delivered_app, E1, E2, app_assoc.
Qed.

Lemma buffered_queues u w w' : queues w' !! u = queues w !! u → buffered u w' = buffered u w.
Proof. unfold buffered. by intros ->. Qed.

Lemma keeps_flush u v now d w :
  user_inv state_weak v w → keeps u w (flush now v d w).2 (flush now v d w).1.
Proof.
  intros Hv. unfold flush. destruct (queues w !! v) as [s|] eqn:Hs; [|by apply keeps_same].
  destruct (processing s || _) eqn:Hb; [by apply keeps_same|]. bool_to_prop.
  pose proof (ok_state _ _ _ Hv _ Hs) as Hw. unfold state_weak in Hw.
  destruct (processing s); [done|].
  destruct (decide (u = v)) as [->|Hne].
  - split; [|done]. unfold buffered; simpl. rewrite Hs, bool_decide_true by done.
    rewrite lookup_insert_eq. simpl. by rewrite Hw, !app_nil_r.
  - apply keeps_same; simpl; [|by rewrite bool_decide_false by congruence|done].
    apply buffered_queues; simpl. by simplify_map_eq.
Qed.

Lemma keeps_flushOrWait u v now d w :
  user_inv state_weak v w → keeps u w (flushOrWait now v d w).2 (flushOrWait now v d w).1.
Proof.
  intros Hv. unfold flushOrWait. destruct (queues w !! v) as [s|] eqn:Hs;
    [|by apply keeps_same].
  destruct (processing s); [by apply keeps_same|by apply keeps_flush].
Qed.

Lemma keeps_drainRound u now us d w :
  wf w → keeps u w (drainRound now us d w).2 (drainRound now us d w).1.
Proof.
  revert w. induction us as [|v us IH]; intros w Hwf; simpl; [by apply keeps_same|].
  pose proof (keeps_flushOrWait u v now d w (weak_of_ok _ _ (Hwf v))) as Hk.
  pose proof (wf_flushOrWait now v d w (wf_rest w v Hwf) (weak_of_ok _ _ (Hwf v))) as Hw1.
  destruct (flushOrWait now v d w) as [w1 o1]. specialize (IH w1 Hw1). simpl in *.
  destruct (drainRound now us d w1) as [w2 o2]. by eapply keeps_trans.
Qed.

(** Cancelling or setting a timer is invisible to the accounting. *)
Lemma buffered_retimed u v s s' (w w' : World) :
  queues w !! v = Some s → queues w' = <[v := s']> (queues w) →
  texts s' = texts s → pendingWhileProcessing s' = pendingWhileProcessing s →
  buffered u w' = buffered u w.
Proof.
  intros Hs Hq Ht Hp. unfold buffered. rewrite Hq. destruct (decide (v = u)) as [->|].
  - by rewrite lookup_insert_eq, Hs, Ht, Hp.
  - by rewrite lookup_insert_ne.
Qed.

Lemma keeps_from u w w1 outs w' :
  buffered u w1 = buffered u w → keeps u w1 outs w' → keeps u w outs w'.
Proof. intros He [H1 H2]. split; [|done]. by rewrite <-He. Qed.

Lemma keeps_flushNow u v now w :
  wf w → keeps u w (flushNow now v w).2 (flushNow now v w).1.
Proof.
  intros Hwf. unfold flushNow. destruct (queues w !! v) as [s|] eqn:Hs.
  2:{ apply keeps_flushOrWait, weak_of_ok, Hwf. }
  destruct (debounceTimer s); [|apply keeps_flushOrWait, weak_of_ok, Hwf].
  eapply (keeps_from _ _ (clearUserTimer v s w)).
  - by apply (buffered_retimed u v s (setTimer None s)).
  - apply keeps_flushOrWait. by apply clearUserTimer_weak.
Qed.

Lemma keeps_fireTimer u now id w :
  wf w → keeps u w (fireTimer now id w).2 (fireTimer now id w).1.
Proof.
  intros Hwf. unfold fireTimer. destruct (timers w !! id) as [v|] eqn:Ht;
    [|by apply keeps_same].
  destruct (ok_timer _ _ _ (Hwf v) _ Ht) as [Hlt [(s & Hs & Hd)|[Hsd Hn]]].
  - rewrite Hs, bool_decide_true by done.
    destruct (clearUserTimer_weak v s w Hwf Hs) as [Hr Hu].
    unfold clearUserTimer in Hr, Hu. rewrite Hd in Hr, Hu. simpl in Hr, Hu.
    eapply keeps_from; [|by apply keeps_flush].
    by apply (buffered_retimed u v s (setTimer None s)).
  - rewrite Hn. unfold flush; simpl. rewrite Hn. by apply keeps_same.
Qed.

Lemma keeps_settle u v o w :
  wf w → keeps u w (settle v o w).2 (settle v o w).1.
Proof.
  intros Hwf. unfold settle. destruct (flights w !! v) as [f|] eqn:Hf;
    [|by apply keeps_same].
  pose proof (ok_flight _ _ _ (Hwf v) f Hf) as Hfl.
  assert (∀ w', buffered u w' = buffered u w →
    keeps u w (match o with TimedOut => [OFlushTimedOut v (Z.max 0 (deadlineAt f - startedAt f))]
               | _ => [] end) w') as Hk.
  { intros w' Hb. apply keeps_same; [done|by destruct o..]. }
  destruct (detached f) as [s|]; simpl.
  { apply Hk. by case_bool_decide. }
  destruct Hfl as (s & Hs & Hp). rewrite Hs. simpl.
  pose proof (ok_state _ _ _ (Hwf v) _ Hs) as Hst. unfold state_wf in Hst.
  rewrite Hp in Hst. destruct Hst as [Htx Htm].
  destruct (promote_fields s) as (Pp & Pq & Pt & Px).
  apply Hk. unfold buffered. case_bool_decide as Hb; rewrite ?Pt, ?Htm; simpl;
    (destruct (decide (u = v)) as [->|Hne]; [|by simplify_map_eq]).
  - rewrite lookup_delete_eq, Hs. by rewrite <-Px.
  - rewrite lookup_insert_eq, Hs. simpl. by rewrite Pq, Px, app_nil_r.
Qed.

Lemma buffered_evict u now w : buffered u (evictStale now w) = buffered u w.
Proof.
  unfold buffered, evictStale; simpl. rewrite map_lookup_filter.
  destruct (queues w !! u) as [s|] eqn:Hs; simpl; [|done].
  destruct (isStale _ s) eqn:Hst.
  - rewrite option_guard_False by done. unfold isStale in Hst. bool_to_prop.
    destruct s; simpl in *; by subst.
  - by rewrite option_guard_True by done.
Qed.

Lemma buffered_drainScan u w : buffered u (drainScan w).1 = buffered u w.
Proof.
  unfold buffered, drainScan; simpl. rewrite lookup_fmap.
  destruct (queues w !! u) as [s|]; simpl; [|done]. by destruct (hasWork s).
Qed.

(** Dropping beyond the cap, in the accounting's terms. *)
Lemma keep_last_lost {A} cap (l : list A) :
  0 ≤ cap → cap < lenZ l →
  ∃ lost, l = lost ++ keep_last (Z.to_nat cap) l ∧ lenZ lost = lenZ l - cap.
Proof.
  unfold lenZ. intros Hc Hl. destruct (keep_last_suffix (Z.to_nat cap) l) as (d & E & D).
  exists d. split; [done|]. rewrite D. lia.
Qed.

Lemma maxPendingSize_nonneg : 0 ≤ maxPendingSize cfg.
Proof. apply positive_or_default_nonneg. unfold DEFAULT_MAX_PENDING_SIZE. lia. Qed.

Lemma enqueue_other u now i w :
  externalUserId i ≠ u →
  buffered u (enqueue now i w).1 = buffered u w
  ∧ delivered u (enqueue now i w).2 = [] ∧ dropped u (enqueue now i w).2 = 0.
Proof.
  intros Hne. unfold enqueue, buffered. case_bool_decide; [done|].
  destruct (shuttingDown w); [done|].
  destruct (processing _); [destruct ((0 <? _) && _)|destruct (_ <? _)]; simpl;
    rewrite lookup_insert_ne by done; rewrite ?bool_decide_false by done; done.
Qed.

Lemma enqueue_conserves now i w :
  wf w →
  let u := externalUserId i in
  let r := enqueue now i w in
  ∃ lost, buffered u w ++ accepted u (EvEnqueue now i) w
          = lost ++ delivered u r.2 ++ buffered u r.1
          ∧ lenZ lost = dropped u r.2.
Proof.
  intros Hwf u r. subst r. unfold accepted, enqueue. fold u.
  rewrite bool_decide_true by done. simpl. unfold js_blank.
  case_bool_decide as Hb; simpl; [exists []; by rewrite app_nil_r|].
  destruct (shuttingDown w); simpl; [exists []; by rewrite app_nil_r|].
  pose proof maxPendingSize_nonneg as Hm. unfold buffered.
  assert (state_wf (default (freshState now) (queues w !! u))) as Hst.
  { destruct (queues w !! u) eqn:Hs; simpl; [by eapply (ok_state _ _ _ (Hwf u))|done]. }
  assert (match queues w !! u with
          | Some s => texts s ++ pendingWhileProcessing s | None => [] end
          = texts (default (freshState now) (queues w !! u))
            ++ pendingWhileProcessing (default (freshState now) (queues w !! u))) as ->
    by (by destruct (queues w !! u)).
  destruct (default _ _) as [tx k c tm pr dl pend lk la]. unfold state_wf in Hst. simpl in *.
  destruct pr; destruct Hst as [-> Ht]; simpl.
  - destruct ((0 <? _) && _) eqn:Hc; simpl; rewrite lookup_insert_eq; simpl.
    + bool_to_prop. destruct (keep_last_lost (maxPendingSize cfg)
        (pend ++ [js_trim (text i)])) as (d & E & D); [done..|].
      exists d. rewrite bool_decide_true by done. split; [done|lia].
    + by exists [].
  - destruct (_ <? _) eqn:Hc; simpl; rewrite lookup_insert_eq; simpl; rewrite !app_nil_r.
    + bool_to_prop. destruct (keep_last_lost (maxPendingSize cfg)
        (tx ++ [js_trim (text i)])) as (d & E & D); [done..|].
      exists d. rewrite bool_decide_true by done. split; [done|lia].
    + by exists [].
Qed.

(** One event: nothing is duplicated or reordered, and what is lost was either
    reported as dropped or discarded by [clear]/[destroy]. *)
Lemma step_conserves u ev w :
  wf w → discards u ev = false →
  ∃ lost, buffered u w ++ accepted u ev w
          = lost ++ delivered u (step ev w).2 ++ buffered u (step ev w).1
          ∧ lenZ lost = dropped u (step ev w).2.
Proof.
  intros Hwf Hd.
  assert (∀ w' outs, keeps u w outs w' →
     ∃ lost, buffered u w ++ [] = lost ++ delivered u outs ++ buffered u w'
             ∧ lenZ lost = dropped u outs) as Hk.
  { intros w' outs [E D]. exists []. by rewrite app_nil_r, E, D. }
  destruct ev; simpl in *; try done.
  - destruct (decide (externalUserId i = u)) as [<-|Hne]; [by apply enqueue_conserves|].
    rewrite bool_decide_false by done. destruct (enqueue_other u now i w Hne) as (E & D & N).
    exists []. by rewrite E, D, N, app_nil_r.
  - by apply Hk, keeps_fireTimer.
  - by apply Hk, keeps_flushNow.
  - apply Hk, keeps_flush, weak_of_ok, Hwf.
  - by apply Hk, keeps_settle.
  - apply (Hk _ []), keeps_same; [|done..]. unfold clear. bool_to_prop.
    destruct (queues w !! u0); [|done]. apply buffered_queues; simpl.
    by case_match; simplify_map_eq.
  - by apply (Hk _ []), keeps_same; [apply buffered_evict|..].
  - by apply (Hk (destroyBegin w) []), keeps_same.
  - by apply Hk, keeps_drainRound.
  - by apply (Hk _ []), keeps_same; [apply buffered_drainScan|..].
Qed.

Lemma step_discards u ev w :
  discards u ev = true →
  accepted u ev w = [] ∧ delivered u (step ev w).2 = []
  ∧ buffered u (step ev w).1 `sublist_of` buffered u w.
Proof.
  destruct ev; simpl; try done.
  - intros ?. bool_to_prop. subst. split; [done|]. split; [done|].
    unfold clear, buffered. destruct (queues w !! u) as [s|] eqn:Hs; simpl; [|by rewrite Hs].
    destruct (processing s); simplify_map_eq; simpl; apply sublist_nil_l.
  - intros _. split; [done|]. split; [done|]. unfold destroyEnd, buffered.
    destruct (shuttingDown w); simpl; [|done]. rewrite lookup_empty. apply sublist_nil_l.
Qed.

(** *** Caps *)

Definition within_cap (w : World) : Prop :=
  ∀ u, lenZ (buffered u w) ≤ maxPendingSize cfg.

Lemma lenZ_app {A} (l1 l2 : list A) : lenZ (l1 ++ l2) = lenZ l1 + lenZ l2.
Proof. unfold lenZ. rewrite length_app. lia. Qed.

Lemma lenZ_nonneg {A} (l : list A) : 0 ≤ lenZ l.
Proof. unfold lenZ. lia. Qed.

Lemma enqueue_within_cap now i w :
  0 < maxPendingSize cfg → wf w → within_cap w → within_cap (enqueue now i w).1.
Proof.
  intros Hm Hwf Hc u. destruct (decide (externalUserId i = u)) as [Hu|Hne].
  2:{ destruct (enqueue_other u now i w Hne) as [-> _]. apply Hc. }
  specialize (Hc u). unfold enqueue. case_bool_decide; [done|].
  destruct (shuttingDown w); [done|]. rewrite Hu. unfold buffered in *.
  assert (state_wf (default (freshState now) (queues w !! u))) as Hst.
  { destruct (queues w !! u) eqn:Hs; simpl; [by eapply (ok_state _ _ _ (Hwf u))|done]. }
  unfold state_wf in Hst. simpl.
  destruct (processing (default _ _)) eqn:Hp; simpl.
  - destruct Hst as [Ht _].
    destruct ((0 <? _) && _) eqn:Hb; simpl; rewrite lookup_insert_eq; simpl; rewrite Ht; simpl.
    + unfold lenZ. rewrite keep_last_length. lia.
    + apply andb_false_iff in Hb as [Hb|Hb]; bool_to_prop; lia.
  - destruct Hst as [Ht _].
    destruct (_ <? _) eqn:Hb; simpl; rewrite lookup_insert_eq; simpl; rewrite Ht, app_nil_r.
    + unfold lenZ. rewrite keep_last_length. lia.
    + by bool_to_prop.
Qed.

Lemma step_within_cap ev w :
  0 < maxPendingSize cfg → wf w → within_cap w → within_cap (step ev w).1.
Proof.
  intros Hm Hwf Hc.
  assert ((∀ u, accepted u ev w = []) → within_cap (step ev w).1) as Hgen.
  { intros Ha u. specialize (Hc u). destruct (discards u ev) eqn:Hd.
    - destruct (step_discards u ev w Hd) as (_ & _ & Hs).
      apply sublist_length in Hs. unfold lenZ in *. lia.
    - destruct (step_conserves u ev w Hwf Hd) as (lost & E & _).
      rewrite Ha, app_nil_r in E. rewrite E, !lenZ_app in Hc.
      pose proof (lenZ_nonneg lost). pose proof (lenZ_nonneg (delivered u (step ev w).2)). lia. }
  destruct ev; try by apply Hgen. by apply enqueue_within_cap.
Qed.

(** *** Shutdown *)

Definition quiescent (w : World) : Prop := shuttingDown w = true ∧ queues w = ∅.

Lemma flush_empty now u d w : queues w = ∅ → flush now u d w = (w, []).
Proof. intros Hq. unfold flush. by rewrite Hq, lookup_empty. Qed.

Lemma drainRound_empty now us d w : queues w = ∅ → drainRound now us d w = (w, []).
Proof.
  intros Hq. induction us as [|u us IH]; simpl; [done|].
  unfold flushOrWait. by rewrite Hq, lookup_empty, IH.
Qed.

Lemma step_quiescent ev w u :
  quiescent w → quiescent (step ev w).1 ∧ delivered u (step ev w).2 = [].
Proof.
  intros [Hsd Hq]. destruct ev; simpl.
  - unfold enqueue. case_bool_decide; [done|]. by rewrite Hsd.
  - unfold fireTimer. destruct (timers w !! id); [|done]. rewrite Hq, lookup_empty.
    by rewrite flush_empty.
  - unfold flushNow, flushOrWait. by rewrite Hq, lookup_empty, Hq, lookup_empty.
  - by rewrite flush_empty.
  - unfold settle. destruct (flights w !! u0) as [f|]; [|done]. rewrite Hq, lookup_empty.
    destruct (detached f); simpl; [case_bool_decide|]; simpl; by destruct o.
  - unfold clear. by rewrite Hq, lookup_empty.
  - unfold evictStale, quiescent; simpl. by rewrite Hq, map_filter_empty.
  - done.
  - by rewrite drainRound_empty.
  - unfold quiescent; simpl. by rewrite Hq, fmap_empty.
  - unfold destroyEnd. by rewrite Hsd.
Qed.

Lemma run_quiescent evs w u :
  quiescent w → quiescent (run evs w).1 ∧ delivered u (run evs w).2 = [].
Proof.
  revert w. induction evs as [|ev evs IH]; intros w Hq; [done|].
  rewrite run_cons; simpl. destruct (step_quiescent ev w u Hq) as [Hq1 Hd].
  rewrite delivered_app, Hd. by apply IH.
Qed.

(** *** The wait of [flushOrWait] (lines 228-244)

    [busy t] is [state.processing] as the rest of the program leaves it at time
    [t]; [wake t ms] is the time at which a timer of [ms] set at [t] runs. *)
Fixpoint waitLoop (fuel : nat) (busy : Z → bool) (wake : Z → Z → Z)
    (now waitUntil : Z) : option Z :=
  if busy now && (now <? waitUntil) then
    match fuel with
    | O => None
    | S f => waitLoop f busy wake (wake now (Z.min IDLE_POLL_MS (waitUntil - now))) waitUntil
    end
  else Some now.

Definition waitUntilOf (deadline : Z) (processingDeadline : option Z) : Z :=
  Z.min deadline (nullish processingDeadline deadline).

Lemma waitLoop_total busy wake waitUntil :
  (∀ t ms, t + ms ≤ wake t ms) →
  ∀ fuel now, waitUntil - now ≤ Z.of_nat fuel →
  ∃ t, waitLoop fuel busy wake now waitUntil = Some t ∧ now ≤ t
       ∧ (busy t = false ∨ waitUntil ≤ t).
Proof.
  intros Hw fuel. induction fuel as [|f IH]; intros now Hf; simpl;
    (destruct (busy now && (now <? waitUntil)) eqn:Hb;
     [bool_to_prop|exists now; split; [done|]; split; [lia|];
      apply andb_false_iff in Hb as [?|?]; bool_to_prop; auto]); [lia|].
  pose proof (Hw now (Z.min IDLE_POLL_MS (waitUntil - now))) as Hx.
  unfold IDLE_POLL_MS in *.
  destruct (IH (wake now (Z.min 50 (waitUntil - now)))) as (t & E & L & O); [lia|].
  exists t. split; [done|]. split; [lia|done].
Qed.

(** *** Exclusive handler calls *)

Definition exclusive (b : ChatQueueBatch) (w : World) (outs : list Output) : Prop :=
  OFlush b ∈ outs → flights w !! batchUser b = None ∧ batchTexts b ≠ [].

Lemma exclusive_nil b w : exclusive b w [].
Proof. by intros ?%not_elem_of_nil. Qed.

Lemma flush_exclusive b now v d w :
  user_inv state_weak v w → exclusive b w (flush now v d w).2.
Proof.
  intros Hv Hb. unfold flush in Hb.
  destruct (queues w !! v) as [s|] eqn:Hs; [|by apply not_elem_of_nil in Hb].
  destruct (processing s || _) eqn:Hg; [by apply not_elem_of_nil in Hb|].
  apply list_elem_of_singleton in Hb. simplify_eq; simpl. bool_to_prop. split; [|done].
  destruct (flights w !! v) as [f|] eqn:Hf; [|done].
  pose proof (ok_flight _ _ _ Hv f Hf) as Hx. destruct (detached f); [destruct Hx; congruence|].
  destruct Hx as (s' & ? & ?). congruence.
Qed.

Lemma flushOrWait_exclusive b now v d w :
  user_inv state_weak v w → exclusive b w (flushOrWait now v d w).2.
Proof.
  intros Hv. unfold flushOrWait.
  destruct (queues w !! v) as [s|]; [|apply exclusive_nil].
  destruct (processing s); [apply exclusive_nil|by apply flush_exclusive].
Qed.

Lemma flushOrWait_flights now v d w u :
  flights (flushOrWait now v d w).1 !! u = None → flights w !! u = None.
Proof.
  unfold flushOrWait, flush. destruct (queues w !! v) as [s|]; [|done].
  destruct (processing s); [done|]. case_bool_decide; simpl; [done|].
  rewrite lookup_insert. by case_decide.
Qed.

Lemma drainRound_exclusive b now us d w :
  wf w → exclusive b w (drainRound now us d w).2.
Proof.
  revert w. induction us as [|v us IH]; intros w Hwf; simpl; [apply exclusive_nil|].
  pose proof (flushOrWait_exclusive b now v d w (weak_of_ok _ _ (Hwf v))) as H1.
  pose proof (wf_flushOrWait now v d w (wf_rest w v Hwf) (weak_of_ok _ _ (Hwf v))) as Hw1.
  pose proof (flushOrWait_flights now v d w (batchUser b)) as Hfl.
  destruct (flushOrWait now v d w) as [w1 o1]. specialize (IH w1 Hw1). simpl in *.
  destruct (drainRound now us d w1) as [w2 o2].
  intros [Hin|Hin]%elem_of_app; [by apply H1|]. destruct (IH Hin). auto.
Qed.

Lemma fireTimer_exclusive b now id w : wf w → exclusive b w (fireTimer now id w).2.
Proof.
  intros Hwf. unfold fireTimer. destruct (timers w !! id) as [v|] eqn:Ht;
    [|apply exclusive_nil].
  destruct (ok_timer _ _ _ (Hwf v) _ Ht) as [Hlt [(s & Hs & Hd)|[Hsd Hn]]].
  - rewrite Hs, bool_decide_true by done.
    destruct (clearUserTimer_weak v s w Hwf Hs) as [_ Hu].
    unfold clearUserTimer in Hu. rewrite Hd in Hu. simpl in Hu.
    exact (flush_exclusive b now v _ _ Hu).
  - rewrite Hn. unfold flush; simpl. rewrite Hn. apply exclusive_nil.
Qed.

Lemma flushNow_exclusive b now u w : wf w → exclusive b w (flushNow now u w).2.
Proof.
  intros Hwf. unfold flushNow. destruct (queues w !! u) as [s|] eqn:Hs.
  2:{ apply flushOrWait_exclusive, weak_of_ok, Hwf. }
  destruct (debounceTimer s); [|apply flushOrWait_exclusive, weak_of_ok, Hwf].
  destruct (clearUserTimer_weak u s w Hwf Hs) as [_ Hu].
  exact (flushOrWait_exclusive b now u _ _ Hu).
Qed.

(** [enqueue] and the settling of a flush call no handler. *)
Lemma enqueue_no_flush b now i w : OFlush b ∉ (enqueue now i w).2.
Proof.
  unfold enqueue. case_bool_decide; [set_solver|]. destruct (shuttingDown w); [set_solver|].
  destruct (processing _); [destruct ((0 <? _) && _)|destruct (_ <? _)]; set_solver.
Qed.

Lemma settle_no_flush b u o w : OFlush b ∉ (settle u o w).2.
Proof.
  unfold settle. destruct (flights w !! u) as [f|]; [|set_solver].
  destruct (detached f), (queues w !! u); destruct o; set_solver.
Qed.

(** ** Main properties *)

(** Delivery order: whatever the events, the texts handed to the flush
    handler followed by the texts still buffered are, for every user, a
    subsequence of the texts the queue accepted from that user.  No text is
    duplicated, invented or delivered out of order. *)
Theorem queue_delivers_in_order (evs : list Event) (u : string) :
  delivered u (run evs init).2 ++ buffered u (run evs init).1
  `sublist_of` accepted_run u evs init.
Proof.
  assert (∀ w, wf w → ∀ pre,
    pre ++ delivered u (run evs w).2 ++ buffered u (run evs w).1
    `sublist_of` pre ++ buffered u w ++ accepted_run u evs w) as Hgen.
  { induction evs as [|ev evs IH]; intros w Hwf pre; [by rewrite app_nil_r|].
    rewrite run_cons; simpl. rewrite delivered_app, <-!app_assoc.
    pose proof (IH _ (wf_step ev w Hwf) (pre ++ delivered u (step ev w).2)) as IHs.
    rewrite <-!app_assoc in IHs. etrans; [exact IHs|]. apply sublist_app; [done|].
    destruct (discards u ev) eqn:Hd.
    - destruct (step_discards u ev w Hd) as (-> & -> & Hs). cbn [app]. by apply sublist_app.
    - destruct (step_conserves u ev w Hwf Hd) as (lost & E & _).
      rewrite (app_assoc (buffered u w)), E, <-!app_assoc. by apply sublist_inserts_l. }
  specialize (Hgen init wf_init []). done.
Qed.

(** Only an enqueue beyond the cap drops texts, and it leaves as many as the cap. *)
Lemma enqueue_drops_to_cap u now i w :
  wf w → 0 < dropped u (enqueue now i w).2 → lenZ (buffered u (enqueue now i w).1) = maxPendingSize cfg.
Proof.
  intros Hwf Hdrop. destruct (decide (externalUserId i = u)) as [<-|Hne].
  2:{ destruct (enqueue_other u now i w Hne) as (_ & _ & E). lia. }
  revert Hdrop. unfold enqueue. case_bool_decide; simpl; [lia|].
  destruct (shuttingDown w); simpl; [lia|]. pose proof maxPendingSize_nonneg as Hm.
  assert (state_wf (default (freshState now) (queues w !! externalUserId i))) as Hst.
  { destruct (queues w !! _) eqn:Hs; simpl; [by eapply (ok_state _ _ _ (Hwf _))|done]. }
  unfold state_wf in Hst. unfold buffered. simpl.
  destruct (processing (default _ _)) eqn:Hp; simpl; destruct Hst as [Ht _].
  - destruct (_ && _) eqn:Hc; simpl; [|lia]. intros _. bool_to_prop. rewrite lookup_insert_eq; simpl.
    rewrite Ht. simpl. unfold lenZ in *. rewrite keep_last_length. lia.
  - destruct (_ <? _) eqn:Hc; simpl; [|lia]. intros _. bool_to_prop. rewrite lookup_insert_eq; simpl.
    rewrite Ht, app_nil_r. unfold lenZ in *. rewrite keep_last_length. lia.
Qed.

Lemma step_drops_to_cap u ev w :
  wf w → 0 < dropped u (step ev w).2 → lenZ (buffered u (step ev w).1) = maxPendingSize cfg.
Proof.
  intros Hwf. destruct ev; simpl; try lia.
  - by apply enqueue_drops_to_cap.
  - destruct (keeps_fireTimer u now id w Hwf). lia.
  - destruct (keeps_flushNow u u0 now w Hwf). lia.
  - destruct (keeps_flush u u0 now deadline w (weak_of_ok _ _ (Hwf _))). lia.
  - destruct (keeps_settle u u0 o w Hwf). lia.
  - destruct (keeps_drainRound u now users deadline w Hwf). lia.
Qed.

(** What became of a text that left the buffer. *)
Inductive Fate := WasDelivered | WasDropped.

#[export] Instance Fate_eq_dec : EqDecision Fate.
Proof. solve_decision. Defined.

(** The texts of a history that had the fate [f]. *)
Definition fated (f : Fate) (past : list (jsstring * Fate)) : list jsstring :=
  (filter (λ x, x.2 = f) past).*1.

Lemma fated_app f p q : fated f (p ++ q) = fated f p ++ fated f q.
Proof. unfold fated. by rewrite filter_app, fmap_app. Qed.

Lemma fated_tag f g (l : list jsstring) :
  fated f ((λ t, (t, g)) <$> l) = if decide (f = g) then l else [].
Proof.
  unfold fated. destruct (decide (f = g)) as [->|Hne]; induction l as [|t l IH]; csimpl; try done.
  - rewrite filter_cons_True by done. csimpl. by rewrite IH.
  - by rewrite filter_cons_False by (intros E; apply Hne; symmetry; exact E).
Qed.

(** C2. Exactly once: over a run that neither clears the user nor destroys the
    queue, the texts accepted from a user are, in their order, a past of which every
    text was delivered or dropped, followed by the texts still buffered.  Those
    delivered are the ones the handler got, each once and in order; as many were
    dropped as [onPendingDropped] reported.  Since this holds after every event, it
    is the oldest buffered texts that are dropped; an event that drops any leaves
    as many in the buffer as the cap allows; and when nothing was dropped, what was
    accepted is what was delivered followed by what is buffered. *)
Theorem queue_delivers_exactly_once (evs : list Event) (u : string)
    (Hkeep : Forall (λ ev, discards u ev = false) evs) :
  let w := (run evs init).1 in
  let outs := (run evs init).2 in
  (∃ past, accepted_run u evs init = past.*1 ++ buffered u w
     ∧ fated WasDelivered past = delivered u outs
     ∧ lenZ (fated WasDropped past) = dropped u outs)
  ∧ (∀ ev, 0 < dropped u (step ev w).2 → lenZ (buffered u (step ev w).1) = maxPendingSize cfg)
  ∧ (dropped u outs = 0 → accepted_run u evs init = delivered u outs ++ buffered u w).
Proof.
  assert (∀ w, wf w → ∃ past,
    buffered u w ++ accepted_run u evs w = past.*1 ++ buffered u (run evs w).1
    ∧ fated WasDelivered past = delivered u (run evs w).2
    ∧ lenZ (fated WasDropped past) = dropped u (run evs w).2) as Hgen.
  { induction Hkeep as [|ev evs Hd Hk IH]; intros w Hwf; [by exists []; rewrite app_nil_r|].
    rewrite run_cons; simpl. destruct (IH _ (wf_step ev w Hwf)) as (past & E & Hd1 & Hd2).
    destruct (step_conserves u ev w Hwf Hd) as (lost & S & D).
    exists (((λ t, (t, WasDropped)) <$> lost) ++ ((λ t, (t, WasDelivered)) <$> delivered u (step ev w).2) ++ past).
    rewrite delivered_app, dropped_app, !fated_app, !fated_tag. simpl. rewrite Hd1, lenZ_app, Hd2, D.
    split_and!; [|done|done].
    rewrite (app_assoc (buffered u w)), S, <-!app_assoc, E, !fmap_app, <-!list_fmap_compose, <-!app_assoc.
    f_equal; [|f_equal]; symmetry; apply list_fmap_id. }
  destruct (Hgen init wf_init) as (past & E & H1 & H2).
  change (accepted_run u evs init = past.*1 ++ buffered u (run evs init).1) in E. split_and!; [by exists past| |].
  - intros ev. apply step_drops_to_cap, wf_run, wf_init.
  - intros Hz. rewrite E, <-H1. f_equal. rewrite Hz in H2.
    assert (∀ x, x ∈ past → x.2 = WasDelivered) as Hall.
    { intros [t []] Hx; [done|]. assert (t ∈ fated WasDropped past) as Hin
        by (apply list_elem_of_fmap; exists (t, WasDropped); by rewrite list_elem_of_filter).
      destruct (fated WasDropped past); [by apply not_elem_of_nil in Hin|]. unfold lenZ in H2. simpl in H2. lia. }
    unfold fated. by rewrite filter_all.
Qed.

(** C29. No stranded message: in every reachable state a user with buffered
    texts either has exactly one unsettled flush (whose end promotes them), or
    has a live debounce timer, and when that timer runs the handler receives
    all the buffered texts, with the last idempotency key and the merged
    context. *)
Theorem queue_never_strands (evs : list Event) (u : string) (s : QueueState)
    (Hs : queues (run evs init).1 !! u = Some s)
    (Htext : buffered u (run evs init).1 ≠ []) :
  let w := (run evs init).1 in
  (processing s = true ∧ ∃ f, flights w !! u = Some f ∧ detached f = None)
  ∨ (∃ id, timers w !! id = Some u ∧
       ∀ now, (step (EvTimer now id) w).2
              = [OFlush {| batchUser := u; batchTexts := buffered u w;
                           batchContext := context s; batchKey := lastIdempotencyKey s |}]).
Proof.
  intros w. pose proof (wf_run evs init wf_init u) as Hok. fold w in Hok, Hs, Htext.
  pose proof (ok_state _ _ _ Hok _ Hs) as Hst. unfold state_wf in Hst.
  unfold buffered in *. rewrite Hs in *.
  destruct (processing s) eqn:Hp.
  - left. split; [done|]. by apply (ok_busy _ _ _ Hok s).
  - right. destruct Hst as [Hpend Htm]. rewrite Hpend, app_nil_r in *.
    destruct (Htm Htext) as [id Hid]. exists id.
    pose proof (ok_timer_of _ _ _ Hok _ _ Hs Hid) as Ht. split; [done|]. intros now.
    simpl. unfold fireTimer. rewrite Ht, Hs, bool_decide_true by done.
    unfold flush; simpl. rewrite lookup_insert_eq; simpl.
    rewrite Hp, bool_decide_false by done. done.
Qed.

(** One handler call per user at a time: a step that calls the flush
    handler for a user starts from a state where no earlier call for that user
    is unsettled, and takes a non-empty batch. *)
Theorem queue_handler_exclusive (evs : list Event) (ev : Event) (b : ChatQueueBatch)
    (Hin : OFlush b ∈ (step ev (run evs init).1).2) :
  flights (run evs init).1 !! batchUser b = None ∧ batchTexts b ≠ [].
Proof.
  pose proof (wf_run evs init wf_init) as Hwf. revert Hin.
  change (exclusive b (run evs init).1 (step ev (run evs init).1).2).
  destruct ev; simpl; try apply exclusive_nil.
  - intros Hin. by apply enqueue_no_flush in Hin.
  - by apply fireTimer_exclusive.
  - by apply flushNow_exclusive.
  - apply flush_exclusive, weak_of_ok, Hwf.
  - intros Hin. by apply settle_no_flush in Hin.
  - by apply drainRound_exclusive.
Qed.

(** Memory bound: with a configured cap of at least one (the default is
    20) no user ever has more than [maxPendingSize] texts buffered. *)
Theorem queue_within_cap (evs : list Event) (Hcap : 0 < maxPendingSize cfg) :
  ∀ u, lenZ (buffered u (run evs init).1) ≤ maxPendingSize cfg.
Proof.
  assert (∀ w, wf w → within_cap w → within_cap (run evs w).1) as Hgen.
  { induction evs as [|ev evs IH]; intros w Hwf Hc; [done|].
    rewrite run_cons; simpl. apply IH; [by apply wf_step|by apply step_within_cap]. }
  apply Hgen; [apply wf_init|]. intros u. unfold buffered; simpl. rewrite lookup_empty.
  unfold lenZ; simpl. lia.
Qed.

(** After [destroy] has finished the queue is inert: no later event, a late
    handler or timer included, buffers a text or calls the flush handler, and a
    message arriving then is reported as rejected. *)
Theorem queue_inert_after_destroy (before after : list Event) (u : string) :
  let w := (run (before ++ [EvDestroy; EvDestroyEnd]) init).1 in
  delivered u (run after w).2 = [] ∧ queues (run after w).1 = ∅
  ∧ ∀ now i, js_blank (text i) = false →
      step (EvEnqueue now i) w = (w, [OShutdownRejected (externalUserId i) (js_trim (text i))]).
Proof.
  intros w.
  assert (quiescent w) as Hq.
  { subst w. generalize init as w0. induction before as [|ev evs IH]; intros w0.
    - simpl. done.
    - simpl app. rewrite run_cons. simpl. apply IH. }
  destruct (run_quiescent after w u Hq) as [[_ Hq'] Hd]. split; [done|]. split; [done|].
  intros now i Hb. unfold js_blank in Hb. bool_to_prop. simpl. unfold enqueue.
  rewrite bool_decide_false by done. by rewrite (proj1 Hq).
Qed.

(** The wait of [flushOrWait] is bounded: whatever the handler does, polling
    stops after finitely many timers, either because the flush settled or
    because the shared deadline passed. *)
Theorem flushOrWait_terminates (busy : Z → bool) (wake : Z → Z → Z)
    (now deadline : Z) (pd : option Z)
    (Hwake : ∀ t ms, t + ms ≤ wake t ms) :
  ∃ t, waitLoop (Z.to_nat (waitUntilOf deadline pd - now)) busy wake now
         (waitUntilOf deadline pd) = Some t
       ∧ now ≤ t ∧ (busy t = false ∨ waitUntilOf deadline pd ≤ t).
Proof. apply waitLoop_total; [done|lia]. Qed.

End Queue.

Arguments EnqueueInput : clear implicits.
Arguments Event : clear implicits.
Arguments World : clear implicits.
Arguments QueueState : clear implicits.
Arguments Output : clear implicits.

(** ** Examples and witnesses *)

Definition demo_cfg : DebounceChatQueueConfig :=
  {| staleTtlMs := 60000; cfgMaxPendingSize := Some (js_of_Z 2); cfgDrainTimeoutMs := None |}.

Definition demo_msg (s k : string) : EnqueueInput string :=
  {| externalUserId := "u1"; text := js s; inputContext := None; idempotencyKey := Some k |}.

(** Two messages, a flush, three more while it is processed (one is dropped
    by the cap of two), and the end of the first batch. *)
Definition demo_run : list (Event string) :=
  [EvEnqueue 0 (demo_msg " hi " "k1"); EvEnqueue 10 (demo_msg "there" "k2");
   EvTimer 900 1%nat;
   EvEnqueue 1000 (demo_msg "a" "k3"); EvEnqueue 1001 (demo_msg "b" "k4");
   EvEnqueue 1002 (demo_msg "c" "k5"); EvSettle "u1" HandlerResolved].

Lemma queue_delivers_exactly_once_witness :
  accepted_run demo_cfg "u1" demo_run init = [js "hi"; js "there"; js "a"; js "b"; js "c"]
  ∧ dropped "u1" (run demo_cfg demo_run init).2 = 1
  ∧ ∃ past, [js "hi"; js "there"; js "a"; js "b"; js "c"]
            = past.*1 ++ buffered "u1" (run demo_cfg demo_run init).1
      ∧ fated WasDelivered past = delivered "u1" (run demo_cfg demo_run init).2
      ∧ lenZ (fated WasDropped past) = 1.
Proof.
  pose proof (queue_delivers_exactly_once demo_cfg demo_run "u1"
    ltac:(repeat constructor)) as [(past & E & H1 & H2) _].
  split; [vm_compute; reflexivity|]. split; [vm_compute; reflexivity|].
  exists past. split; [rewrite <-E; vm_compute; reflexivity|]. split; [exact H1|].
  rewrite H2. vm_compute. reflexivity.
Defined.

Lemma queue_never_strands_witness :
  ∃ id, timers (run demo_cfg demo_run init).1 !! id = Some "u1"
        ∧ delivered "u1" (step demo_cfg (EvTimer 2000 id) (run demo_cfg demo_run init).1).2
          = [js "b"; js "c"].
Proof.
  destruct (queue_never_strands demo_cfg demo_run "u1"
    (mkQueueState [js "b"; js "c"] (Some "k5") None (Some 2%nat) false None [] None 1002))
    as [[Hp _]|(id & Hid & Hstep)].
  - vm_compute. reflexivity.
  - vm_compute. discriminate.
  - discriminate Hp.
  - exists id. split; [exact Hid|]. rewrite (Hstep 2000). vm_compute. reflexivity.
Defined.

Lemma queue_handler_exclusive_witness :
  flights (run demo_cfg (take 2 demo_run) init).1 !! "u1" = None.
Proof.
  destruct (queue_handler_exclusive demo_cfg (take 2 demo_run) (EvTimer 900 1%nat)
    {| batchUser := "u1"; batchTexts := [js "hi"; js "there"];
       batchContext := None; batchKey := Some "k2" |}) as [Hf _].
  - vm_compute. left.
  - exact Hf.
Defined.

Lemma queue_within_cap_witness :
  0 < maxPendingSize demo_cfg
  ∧ lenZ (buffered "u1" (run demo_cfg demo_run init).1) ≤ maxPendingSize demo_cfg.
Proof.
  split; [vm_compute; reflexivity|].
  apply (queue_within_cap demo_cfg demo_run). vm_compute. reflexivity.
Defined.

(** A handler that settles at 120 ms, timers that run one millisecond late. *)
Lemma flushOrWait_terminates_witness :
  waitLoop 500 (λ t, t <? 120) (λ t ms, t + ms + 1) 0 (waitUntilOf 500 None) = Some 153
  ∧ ∃ t, waitLoop 500 (λ t, t <? 120) (λ t ms, t + ms + 1) 0 (waitUntilOf 500 None) = Some t
         ∧ 0 ≤ t ∧ ((t <? 120) = false ∨ waitUntilOf 500 None ≤ t).
Proof.
  split; [vm_compute; reflexivity|].
  apply (flushOrWait_terminates (λ t, t <? 120) (λ t ms, t + ms + 1) 0 500 None). lia.
Defined.

(** ** Configuration corner cases

    The interface documents [maxPendingSize: 0] as "no cap"; the constructor
    replaces it by the default cap. *)
Lemma zero_cap_is_default_cap ttl :
  maxPendingSize {| staleTtlMs := ttl; cfgMaxPendingSize := Some (js_of_Z 0);
                    cfgDrainTimeoutMs := None |} = DEFAULT_MAX_PENDING_SIZE.
Proof. reflexivity. Qed.

(** A positive cap below one is floored to zero: then every text is dropped as
    soon as it is enqueued, and the flush timer finds nothing to deliver. *)
Lemma fractional_cap_drops_every_text now (i : EnqueueInput string) :
  js_blank (text i) = false →
  let c := {| staleTtlMs := 60000; cfgMaxPendingSize := Some (JFin (1 # 2));
              cfgDrainTimeoutMs := None |} in
  maxPendingSize c = 0
  ∧ buffered (externalUserId i) (enqueue c now i init).1 = []
  ∧ (enqueue c now i init).2 = [OPendingDropped (externalUserId i) 1].
Proof.
  intros Hb c. unfold js_blank in Hb. bool_to_prop. split; [reflexivity|].
  unfold enqueue, buffered. rewrite bool_decide_false by done. simpl.
  rewrite lookup_empty. simpl. by rewrite lookup_insert_eq.
Qed.

End ChatQueue.
