(* ===== verification/QuotaRepository.v ===== *)
(** * The quota repository (packages/chat-metering, chat-rate-limit.repository.ts)

    The two PostgreSQL tables behind the chat quota: [chat_idempotency] (one row
    per chat request and platform, with its lifecycle status) and
    [chat_daily_usage] (the daily counters, one per learner or anonymous
    channel).  Every method of [ChatRateLimitRepository] is one transaction; a
    transaction that throws leaves the tables unchanged.  The learner usage
    queries are those of packages/database, learner-usage-query.ts. *)

From Stdlib Require Import DecimalString DecimalZ DecimalFacts.
From S2P Require Import Prelude Table.

Module Quota.

(** ** Data *)

Inductive ChatIdempotencyStatus := reserved | delivered | completed | refunded.

#[export] Instance status_eq_dec : EqDecision ChatIdempotencyStatus.
Proof. solve_decision. Defined.

(** A row of [chat_idempotency]. *)
Record IdempotencyRow := mkIdem {
  i_key : string;
  i_platform : string;
  i_ext : string;
  i_user : option Z;
  i_date : string;
  i_status : ChatIdempotencyStatus;
  i_reserved_at : Z
}.

(** A row of [chat_daily_usage]. *)
Record UsageRow := mkUsage {
  u_platform : string;
  u_ext : string;
  u_user : option Z;
  u_date : string;
  u_count : Z
}.

(** An active account link of one of the three platforms' link tables. *)
Record ActiveLink := { l_platform : string; l_ext : string; l_user : Z }.

(** The unique indexes present on [chat_daily_usage]. *)
Record UsageIndexes := { legacy_index : bool; linked_index : bool; anonymous_index : bool }.

Record Db := mkDb {
  idem : list IdempotencyRow;
  usage : list UsageRow;
  links : list ActiveLink;
  indexes : UsageIndexes
}.

Inductive SchemaMode := Legacy | OwnerAware.

(** Errors the repository throws to its caller. *)
Inductive RepoError := UnsupportedSchema.

Inductive Result (A : Type) :=
| Ok (a : A)
| Throw (e : RepoError).
Arguments Ok {A} _.
Arguments Throw {A} _.

Inductive ChatQuotaReleaseReason := send_failed | stuck_recover.

(** The telemetry hooks called inside the transactions. *)
Inductive HookEvent :=
| OnReserved (ext : string) (user : option Z) (date key : string) (limit usedAfter : Z)
| OnReleased (ext : string) (user : option Z) (date key : string)
    (reason : ChatQuotaReleaseReason) (usedAfter : Z).

Record ReserveFreeFormSlotInput := {
  r_ext : string;
  r_user : option Z;
  r_date : string;
  r_key : string;
  r_dailyLimit : Z;
  r_burstLimit : option Z;
  r_burstSince : option Z;
  r_burstCountsRefunded : bool
}.

Inductive ReserveFreeFormSlotOutcome :=
| Reserved (freeFormCount : Z)
| IdempotencyConflict
| DailyLimitExceeded
| BurstLimitExceeded (count : Z).

Inductive RecoverIdempotencyOutcome :=
| Reopened | InFlight | Delivered | Completed | NotFound.

(** ** Queries *)

Definition same_user (a b : option Z) : bool := bool_decide (a = b).

(** [readUsageSchemaMode]. *)
Definition readUsageSchemaMode (db : Db) : Result SchemaMode :=
  let ix := indexes db in
  if legacy_index ix && negb (linked_index ix) && negb (anonymous_index ix) then Ok Legacy
  else if negb (legacy_index ix) && linked_index ix && anonymous_index ix then Ok OwnerAware
  else Throw UnsupportedSchema.

(** [buildLearnerUsageQuery]: the rows owned by the learner, all platforms. *)
Definition learnerUsage (date : string) (user : Z) (db : Db) : Z :=
  sum_by (λ r, if bool_decide (u_date r = date) && same_user (u_user r) (Some user)
               then u_count r else 0) (usage db).

(** [buildLegacyLearnerUsageQuery]: also the anonymous rows of the channel and
    of every channel actively linked to the learner. *)
Definition legacyLearnerUsage (platform ext date : string) (user : Z) (db : Db) : Z :=
  sum_by (λ r,
    if bool_decide (u_date r = date) &&
       (same_user (u_user r) (Some user)
        || same_user (u_user r) None && bool_decide (u_platform r = platform)
           && bool_decide (u_ext r = ext)
        || same_user (u_user r) None
           && existsb (λ l, bool_decide (l_platform l = u_platform r)
                            && bool_decide (l_ext l = u_ext r)
                            && bool_decide (l_user l = user)) (links db))
    then u_count r else 0) (usage db).

(** [getLearnerUsageCount] with the query [learnerUsageQueryForSchema] selects. *)
Definition getLearnerUsageCount (mode : SchemaMode) (platform ext date : string)
    (user : Z) (db : Db) : Z :=
  match mode with
  | Legacy => legacyLearnerUsage platform ext date user db
  | OwnerAware => learnerUsage date user db
  end.

(** Does a usage row belong to this channel and date? *)
Definition on_channel (platform ext date : string) (r : UsageRow) : bool :=
  bool_decide (u_platform r = platform) && bool_decide (u_ext r = ext)
  && bool_decide (u_date r = date).

(** ... and to this owner ([user_id = $4], resp. [user_id IS NULL])? *)
Definition in_bucket (platform ext date : string) (owner : option Z) (r : UsageRow) : bool :=
  on_channel platform ext date r && same_user (u_user r) owner.

(** [getAnonymousUsageCount]. *)
Definition getAnonymousUsageCount (platform ext date : string) (db : Db) : Z :=
  match head (tbl_select (in_bucket platform ext date None) (usage db)) with
  | Some r => u_count r
  | None => 0
  end.

(** [getDailyUsageCount]. *)
Definition getDailyUsageCount (platform ext date : string) (user : option Z) (db : Db)
  : Result Z :=
  match user with
  | Some uid =>
      match readUsageSchemaMode db with
      | Ok mode => Ok (getLearnerUsageCount mode platform ext date uid db)
      | Throw e => Throw e
      end
  | None => Ok (getAnonymousUsageCount platform ext date db)
  end.

Definition charged (s : ChatIdempotencyStatus) : bool :=
  match s with refunded => false | _ => true end.

(** The rows of the sliding burst window. *)
Definition in_burst (platform ext : string) (since : Z) (withRefunded : bool)
    (r : IdempotencyRow) : bool :=
  bool_decide (i_platform r = platform) && bool_decide (i_ext r = ext)
  && (since <? i_reserved_at r) && (withRefunded || charged (i_status r)).

(** [countRecentReservations]. *)
Definition countRecentReservations (platform ext : string) (since : Z)
    (withRefunded : bool) (db : Db) : Z :=
  count_by (in_burst platform ext since withRefunded) (idem db).

(** ** Transactions *)

Definition with_idem (t : list IdempotencyRow) (db : Db) : Db :=
  mkDb t (usage db) (links db) (indexes db).

Definition with_usage (t : list UsageRow) (db : Db) : Db :=
  mkDb (idem db) t (links db) (indexes db).

Definition has_key (platform key : string) (r : IdempotencyRow) : bool :=
  bool_decide (i_platform r = platform) && bool_decide (i_key r = key).

Definition set_status (s : ChatIdempotencyStatus) (r : IdempotencyRow) : IdempotencyRow :=
  mkIdem (i_key r) (i_platform r) (i_ext r) (i_user r) (i_date r) s (i_reserved_at r).

Definition set_count (f : Z → Z) (r : UsageRow) : UsageRow :=
  mkUsage (u_platform r) (u_ext r) (u_user r) (u_date r) (f (u_count r)).

(** [tryReserveIdempotency]; [reserved_at] defaults to [now()]. *)
Definition tryReserveIdempotency (platform : string) (now : Z)
    (inp : ReserveFreeFormSlotInput) (db : Db) : Db * bool :=
  let row := mkIdem (r_key inp) platform (r_ext inp) (r_user inp) (r_date inp) reserved now in
  let '(t, inserted) := tbl_insert_nothing (has_key platform (r_key inp)) row (idem db) in
  (with_idem t db, inserted).

(** The four counter upserts of [reserveFreeFormSlotInTransaction]; [None] when
    the statement returns no row. *)
Definition chargeUsage (mode : SchemaMode) (platform : string)
    (inp : ReserveFreeFormSlotInput) (t : list UsageRow) : list UsageRow * option UsageRow :=
  let p := platform in let e := r_ext inp in let d := r_date inp in
  match r_user inp, mode with
  | Some uid, Legacy =>
      tbl_upsert (on_channel p e d) (λ _, true)
        (λ r, mkUsage p e (Some uid) d
                (if negb (same_user (u_user r) None) && negb (same_user (u_user r) (Some uid))
                 then 1 else u_count r + 1))
        (mkUsage p e (Some uid) d 1) t
  | Some uid, OwnerAware =>
      tbl_upsert (in_bucket p e d (Some uid)) (λ _, true)
        (set_count (λ c, c + 1)) (mkUsage p e (Some uid) d 1) t
  | None, Legacy =>
      tbl_upsert (on_channel p e d)
        (λ r, negb (same_user (u_user r) None) || (u_count r <? r_dailyLimit inp))
        (λ r, mkUsage p e None d
                (if same_user (u_user r) None then u_count r + 1 else 1))
        (mkUsage p e None d 1) t
  | None, OwnerAware =>
      tbl_upsert (in_bucket p e d None) (λ r, u_count r <? r_dailyLimit inp)
        (set_count (λ c, c + 1)) (mkUsage p e None d 1) t
  end.

(** The exceptions the transaction body turns into an outcome. *)
Inductive TxAbort :=
| AbortDaily
| AbortBurst (count : Z)
| AbortError (e : RepoError).

(** The burst check; the count includes the row just inserted. *)
Definition burstCheck (platform : string) (inp : ReserveFreeFormSlotInput) (db : Db)
  : option TxAbort :=
  match r_burstLimit inp, r_burstSince inp with
  | Some limit, Some since =>
      let count := countRecentReservations platform (r_ext inp) since
                     (r_burstCountsRefunded inp) db in
      if limit <? count then Some (AbortBurst count) else None
  | _, _ => None
  end.

(** The learner pre-check [usedBefore >= dailyLimit]. *)
Definition learnerOverLimit (mode : SchemaMode) (platform : string)
    (inp : ReserveFreeFormSlotInput) (db : Db) : bool :=
  match r_user inp with
  | Some uid =>
      r_dailyLimit inp <=? getLearnerUsageCount mode platform (r_ext inp) (r_date inp) uid db
  | None => false
  end.

(** The body of the reserve transaction after the idempotency row exists. *)
Definition reserveBody (platform : string) (inp : ReserveFreeFormSlotInput) (db : Db)
  : TxAbort + (Db * Z * list HookEvent) :=
  match burstCheck platform inp db with
  | Some a => inl a
  | None =>
    match readUsageSchemaMode db with
    | Throw e => inl (AbortError e)
    | Ok mode =>
      if learnerOverLimit mode platform inp db then inl AbortDaily
      else
        match chargeUsage mode platform inp (usage db) with
        | (_, None) => inl AbortDaily
        | (t, Some row) =>
          let db' := with_usage t db in
          let count := match r_user inp with
                       | Some uid => getLearnerUsageCount mode platform (r_ext inp) (r_date inp) uid db'
                       | None => u_count row
                       end in
          inr (db', count,
               [OnReserved (r_ext inp) (r_user inp) (r_date inp) (r_key inp)
                  (r_dailyLimit inp) count])
        end
    end
  end.

(** [reserveFreeFormSlotInTransaction]: an abort rolls the tables back. *)
Definition reserveFreeFormSlotInTransaction (platform : string) (now : Z)
    (inp : ReserveFreeFormSlotInput) (db : Db)
  : Db * Result ReserveFreeFormSlotOutcome * list HookEvent :=
  let '(db1, inserted) := tryReserveIdempotency platform now inp db in
  if inserted then
    match reserveBody platform inp db1 with
    | inr (db2, count, hooks) => (db2, Ok (Reserved count), hooks)
    | inl AbortDaily => (db, Ok DailyLimitExceeded, [])
    | inl (AbortBurst n) => (db, Ok (BurstLimitExceeded n), [])
    | inl (AbortError e) => (db, Throw e, [])
    end
  else (db1, Ok IdempotencyConflict, []).

(** [UPDATE chat_daily_usage SET free_form_count = GREATEST(free_form_count - n, 0)]
    on one bucket. *)
Definition releaseUsage (platform ext date : string) (owner : option Z) (n : Z)
    (t : list UsageRow) : list UsageRow :=
  tbl_update (in_bucket platform ext date owner) (set_count (λ c, Z.max (c - n) 0)) t.

(** The counter the [onReleased] hook reports: the learner's total, or the
    count of the row the UPDATE returned (0 when there is none). *)
Definition usedAfterRelease (platform ext date : string) (owner : option Z) (db : Db)
  : Result Z :=
  match owner with
  | Some uid =>
      match readUsageSchemaMode db with
      | Ok mode => Ok (getLearnerUsageCount mode platform ext date uid db)
      | Throw e => Throw e
      end
  | None => Ok (getAnonymousUsageCount platform ext date db)
  end.

(** [refundReservedSlot]: only a [reserved] row is refunded, and the bucket
    that is released is the one recorded on the row. *)
Definition refundReservedSlot (platform key : string) (reason : ChatQuotaReleaseReason)
    (db : Db) : Db * Result bool * list HookEvent :=
  let sel r := has_key platform key r && bool_decide (i_status r = reserved) in
  match head (tbl_select sel (idem db)) with
  | None => (db, Ok false, [])
  | Some row =>
    let db1 := with_idem (tbl_update sel (set_status refunded) (idem db)) db in
    let db2 := with_usage
      (releaseUsage platform (i_ext row) (i_date row) (i_user row) 1 (usage db1)) db1 in
    match usedAfterRelease platform (i_ext row) (i_date row) (i_user row) db2 with
    | Ok used => (db2, Ok true,
                  [OnReleased (i_ext row) (i_user row) (i_date row) key reason used])
    | Throw e => (db, Throw e, [])
    end
  end.

(** [completeReservedSlot]. *)
Definition completeReservedSlot (platform key : string) (db : Db) : Db * bool :=
  let sel r := has_key platform key r
               && (bool_decide (i_status r = reserved) || bool_decide (i_status r = delivered)) in
  (with_idem (tbl_update sel (set_status completed) (idem db)) db, tbl_exists sel (idem db)).

(** [markDeliveredSlot]. *)
Definition markDeliveredSlot (platform key : string) (db : Db) : Db * bool :=
  let sel r := has_key platform key r && bool_decide (i_status r = reserved) in
  (with_idem (tbl_update sel (set_status delivered) (idem db)) db, tbl_exists sel (idem db)).

Definition deleteKey (platform key : string) (db : Db) : Db :=
  with_idem (tbl_delete (has_key platform key) (idem db)) db.

(** [recoverIdempotencyForRetry]. *)
Definition recoverIdempotencyForRetry (platform key : string) (stuckBefore : Z) (db : Db)
  : Db * Result RecoverIdempotencyOutcome * list HookEvent :=
  match head (tbl_select (has_key platform key) (idem db)) with
  | None => (db, Ok NotFound, [])
  | Some row =>
    match i_status row with
    | completed => (db, Ok Completed, [])
    | delivered => (db, Ok Delivered, [])
    | reserved =>
      if stuckBefore <=? i_reserved_at row then (db, Ok InFlight, [])
      else
        match refundReservedSlot platform key stuck_recover db with
        | (db1, Ok true, hooks) => (deleteKey platform key db1, Ok Reopened, hooks)
        | (db1, Ok false, hooks) => (db, Ok NotFound, [])
        | (_, Throw e, _) => (db, Throw e, [])
        end
    | refunded => (deleteKey platform key db, Ok Reopened, [])
    end
  end.

(** ** Bulk recovery ([recoverAllStuckReserved]) *)

Definition colon : Ascii.ascii := Ascii.Ascii false true false true true true false false.

(** [s.split(':')]. *)
Fixpoint split_colon (s : string) : list string :=
  match s with
  | EmptyString => [EmptyString]
  | String a s' =>
      if bool_decide (a = colon) then EmptyString :: split_colon s'
      else match split_colon s' with
           | h :: t => String a h :: t
           | [] => [String a EmptyString]
           end
  end.

(** [String(d).slice(0, 10)]. *)
Definition date10 (d : string) : string := String.substring 0 10 d.

(** Decimal text of an integer in a template string, and [Number] of it. *)
Definition print_int (z : Z) : string := NilZero.string_of_int (Z.to_int z).
Definition parse_int (s : string) : option Z := Z.of_int <$> NilZero.int_of_string s.

(** [m.set(key, (m.get(key) ?? 0) + 1)] on an insertion-ordered Map. *)
Fixpoint bump (key : string) (m : list (string * Z)) : list (string * Z) :=
  match m with
  | [] => [(key, 1)]
  | (k, n) :: m' => if bool_decide (k = key) then (k, n + 1) :: m' else (k, n) :: bump key m'
  end.

Definition anonymousKey (r : IdempotencyRow) : string :=
  date10 (i_date r) +:+ ":" +:+ i_ext r.

Definition learnerKey (uid : Z) (r : IdempotencyRow) : string :=
  date10 (i_date r) +:+ ":" +:+ print_int uid +:+ ":" +:+ i_ext r.

(** The two decrement maps of one page. *)
Definition pageDecrements (page : list IdempotencyRow)
  : list (string * Z) * list (string * Z) :=
  foldl (λ '(anon, learner) r,
    match i_user r with
    | Some uid => (anon, bump (learnerKey uid r) learner)
    | None => (bump (anonymousKey r) anon, learner)
    end) ([], []) page.

(** A row of the VALUES list: date, owner, external id and delta. *)
Record Decrement := { d_date : string; d_user : option Z; d_ext : string; d_delta : Z }.

Definition decodeAnonymous (e : string * Z) : option Decrement :=
  match split_colon e.1 with
  | d :: x :: _ => Some {| d_date := date10 d; d_user := None; d_ext := x; d_delta := e.2 |}
  | _ => None
  end.

Definition decodeLearner (e : string * Z) : option Decrement :=
  match split_colon e.1 with
  | d :: u :: x :: _ =>
      match parse_int u with
      | Some uid => Some {| d_date := date10 d; d_user := Some uid; d_ext := x; d_delta := e.2 |}
      | None => None
      end
  | _ => None
  end.

Definition matches (platform : string) (r : UsageRow) (d : Decrement) : bool :=
  in_bucket platform (d_ext d) (d_date d) (d_user d) r.

(** [UPDATE chat_daily_usage .. FROM (VALUES ..) AS v WHERE ..]: a usage row is
    joined with the VALUES row of its bucket. *)
Definition applyDecrements (platform : string) (ds : list Decrement) (t : list UsageRow)
  : list UsageRow :=
  (λ r, match head (tbl_select (matches platform r) ds) with
        | Some d => set_count (λ c, Z.max 0 (c - d_delta d)) r
        | None => r
        end) <$> t.

Definition bucketKey (r : IdempotencyRow) : string :=
  match i_user r with
  | None => "anonymous:" +:+ date10 (i_date r) +:+ ":" +:+ i_ext r
  | Some uid => "learner:" +:+ date10 (i_date r) +:+ ":" +:+ print_int uid
  end.

(** The [onReleased] calls of a page, reading each bucket once. *)
Fixpoint pageHooks (platform : string) (mode : SchemaMode) (db : Db)
    (cache : list (string * Z)) (page : list IdempotencyRow) : list HookEvent :=
  match page with
  | [] => []
  | r :: page' =>
    let bk := bucketKey r in
    let '(used, cache') :=
      match list_find (λ e, e.1 = bk) cache with
      | Some (_, e) => (e.2, cache)
      | None =>
        let used := match i_user r with
                    | None => getAnonymousUsageCount platform (i_ext r) (date10 (i_date r)) db
                    | Some uid => getLearnerUsageCount mode platform (i_ext r)
                                    (date10 (i_date r)) uid db
                    end in
        (used, cache ++ [(bk, used)])
      end in
    OnReleased (i_ext r) (i_user r) (date10 (i_date r)) (i_key r) stuck_recover used
      :: pageHooks platform mode db cache' page'
  end.

Definition recoverPage (platform : string) (mode : SchemaMode)
    (acc : Db * list HookEvent) (page : list IdempotencyRow) : Db * list HookEvent :=
  let '(db, hooks) := acc in
  let '(anon, learner) := pageDecrements page in
  let t1 := applyDecrements platform (omap decodeAnonymous anon) (usage db) in
  let t2 := applyDecrements platform (omap decodeLearner learner) t1 in
  let db' := with_usage t2 db in
  (db', hooks ++ pageHooks platform mode db' [] page).

Definition PAGE_SIZE : nat := 1000.

(** [for (offset = 0; offset < rows.length; offset += PAGE_SIZE) rows.slice(..)];
    [length rows] iterations are always enough. *)
Fixpoint pages {A} (fuel : nat) (rows : list A) : list (list A) :=
  match fuel, rows with
  | S f, _ :: _ => take PAGE_SIZE rows :: pages f (drop PAGE_SIZE rows)
  | _, _ => []
  end.

Definition stuck (platform : string) (s : ChatIdempotencyStatus) (before : Z)
    (r : IdempotencyRow) : bool :=
  bool_decide (i_platform r = platform) && bool_decide (i_status r = s)
  && (i_reserved_at r <? before).

(** [listStuckReserved], without its [ORDER BY]. *)
Definition listStuckReserved (platform : string) (before : Z) (db : Db) : list IdempotencyRow :=
  tbl_select (stuck platform reserved before) (idem db).

Definition recoverAllStuckReserved (platform : string) (stuckBefore : Z) (db : Db)
  : Db * Result (list string) * list HookEvent :=
  match readUsageSchemaMode db with
  | Throw e => (db, Throw e, [])
  | Ok mode =>
    let selD := stuck platform delivered stuckBefore in
    let deliveredRows := tbl_select selD (idem db) in
    let db1 := with_idem (tbl_update selD (set_status completed) (idem db)) db in
    let rows := listStuckReserved platform stuckBefore db1 in
    let db2 := with_idem
      (tbl_update (stuck platform reserved stuckBefore) (set_status refunded) (idem db1)) db1 in
    let '(db3, hooks) :=
      foldl (recoverPage platform mode) (db2, []) (pages (length rows) rows) in
    (db3, Ok ((i_key <$> deliveredRows) ++ (i_key <$> rows)), hooks)
  end.

(** ** Accounting

    A bucket is one counter of the daily quota: platform, channel, date and
    owner (a learner, or nobody).  In the owner-aware schema the counter of a
    bucket should be the number of requests charged to it, that is the
    idempotency rows of the bucket that are not refunded. *)

Definition Bucket : Type := string * string * string * option Z.

Definition ubucket (r : UsageRow) : Bucket := (u_platform r, u_ext r, u_date r, u_user r).
Definition ibucket (r : IdempotencyRow) : Bucket := (i_platform r, i_ext r, i_date r, i_user r).
Definition ikey (r : IdempotencyRow) : string * string := (i_platform r, i_key r).

Definition recorded (b : Bucket) (t : list UsageRow) : Z :=
  sum_by (λ r, if decide (ubucket r = b) then u_count r else 0) t.

Definition charge (b : Bucket) (r : IdempotencyRow) : Z :=
  if decide (ibucket r = b) then (if charged (i_status r) then 1 else 0) else 0.

Definition charges (b : Bucket) (t : list IdempotencyRow) : Z := sum_by (charge b) t.

Fixpoint no_colon (s : string) : bool :=
  match s with
  | EmptyString => true
  | String a s' => negb (bool_decide (a = colon)) && no_colon s'
  end.

(** An external id without a colon and a [YYYY-MM-DD] date: what the bulk
    recovery needs to rebuild a bucket from its text key. *)
Definition clean_ids (ext date : string) : bool :=
  no_colon ext && no_colon date && bool_decide (date10 date = date).

Record accounted (db : Db) : Prop := {
  acc_idem_unique : unique_on ikey (idem db);
  acc_usage_unique : unique_on ubucket (usage db);
  acc_balance b : recorded b (usage db) = charges b (idem db);
  acc_clean r : r ∈ idem db → clean_ids (i_ext r) (i_date r) = true;
  acc_schema : readUsageSchemaMode db = Ok OwnerAware
}.

Lemma in_bucket_iff p e d o r : in_bucket p e d o r = true ↔ ubucket r = (p, e, d, o).
Proof.
  unfold in_bucket, on_channel, same_user, ubucket. rewrite !andb_true_iff.
  rewrite !bool_decide_eq_true. split; [intros [[[] ?] ?]|intros [=]]; naive_solver congruence.
Qed.

Lemma in_bucket_false p e d o r : in_bucket p e d o r = false ↔ ubucket r ≠ (p, e, d, o).
Proof. rewrite <-in_bucket_iff. by destruct (in_bucket p e d o r). Qed.

Lemma has_key_iff p k r : has_key p k r = true ↔ ikey r = (p, k).
Proof.
  unfold has_key, ikey. rewrite andb_true_iff, !bool_decide_eq_true. naive_solver congruence.
Qed.

Lemma charge_range b r : 0 ≤ charge b r ≤ 1.
Proof. unfold charge. case_decide; [destruct (charged _)|]; lia. Qed.

Lemma charges_nonneg b t : 0 ≤ charges b t.
Proof. apply sum_by_nonneg. intros r _. apply charge_range. Qed.

Lemma charges_pos r t : r ∈ t → charged (i_status r) = true → 1 ≤ charges (ibucket r) t.
Proof.
  intros Hin Hc. unfold charges.
  replace 1 with (charge (ibucket r) r)
    by (unfold charge; rewrite decide_True by done; by rewrite Hc).
  apply sum_by_ge; [|done]. intros y. apply charge_range.
Qed.

Lemma charges_update_same p f t b :
  (∀ r, p r = true → ibucket (f r) = ibucket r ∧ charged (i_status (f r)) = charged (i_status r)) →
  charges b (tbl_update p f t) = charges b t.
Proof.
  intros Hf. unfold charges. rewrite tbl_update_sum.
  rewrite (sum_by_zero (λ r, if p r then _ else 0)); [lia|].
  intros r _. destruct (p r) eqn:E; [|done]. destruct (Hf r E) as [Hb Hc].
  unfold charge. rewrite Hb, Hc. lia.
Qed.

(** Exactly one row, known by its unique key, changes its charge. *)
Lemma sum_by_single (p : IdempotencyRow → bool) (g : IdempotencyRow → Z) t r :
  unique_on ikey t → r ∈ t → p r = true → (∀ r', p r' = true → ikey r' = ikey r) →
  sum_by (λ r', if p r' then g r' else 0) t = g r.
Proof.
  intros Hu Hin Hp Hk. rewrite <-(sum_by_unique ikey g t r Hu Hin).
  apply sum_by_ext. intros r' Hin'. case_decide as Hd.
  - assert (r' = r) as -> by by eapply (unique_on_eq ikey). by rewrite Hp.
  - destruct (p r') eqn:E; [|done]. by destruct Hd; apply Hk.
Qed.

(** *** The usage table *)

Lemma recorded_update p e d o f t b :
  recorded b (tbl_update (in_bucket p e d o) (set_count f) t)
  = if decide (b = (p, e, d, o))
    then sum_by (λ r, if decide (ubucket r = b) then f (u_count r) else 0) t
    else recorded b t.
Proof.
  unfold recorded. rewrite tbl_update_sum, <-sum_by_plus. case_decide as Hb.
  - apply sum_by_ext. intros r _. destruct (in_bucket p e d o r) eqn:E.
    + apply in_bucket_iff in E. subst b. change (ubucket (set_count f r)) with (ubucket r).
      rewrite E, !decide_True by done. simpl. lia.
    + apply in_bucket_false in E. rewrite !decide_False by congruence. lia.
  - apply sum_by_ext. intros r _. destruct (in_bucket p e d o r) eqn:E; [|lia].
    apply in_bucket_iff in E. change (ubucket (set_count f r)) with (ubucket r).
    rewrite !decide_False by congruence. lia.
Qed.

(** The counter of a bucket, read at its row. *)
Lemma recorded_row t r : unique_on ubucket t → r ∈ t → recorded (ubucket r) t = u_count r.
Proof. intros. by apply sum_by_unique. Qed.

Lemma recorded_absent t b : (∀ r, r ∈ t → ubucket r ≠ b) → recorded b t = 0.
Proof. intros. by apply sum_by_absent. Qed.

Lemma usage_unique_update p e d o f t :
  unique_on ubucket t → unique_on ubucket (tbl_update (in_bucket p e d o) (set_count f) t).
Proof. by apply unique_on_update. Qed.

(** Releasing [n] charges of a bucket whose counter is at least [n]. *)
Lemma recorded_release p e d o n t b :
  unique_on ubucket t → 0 ≤ n ≤ recorded (p, e, d, o) t →
  recorded b (releaseUsage p e d o n t)
  = recorded b t - (if decide (b = (p, e, d, o)) then n else 0).
Proof.
  intros Hu Hn. unfold releaseUsage. rewrite recorded_update. case_decide as Hb; [|lia].
  subst b. destruct (tbl_exists_spec (in_bucket p e d o) t) as [(r & Hin & Hr)|Hno].
  - apply in_bucket_iff in Hr. rewrite <-Hr in *.
    rewrite (sum_by_unique ubucket (λ r, Z.max (u_count r - n) 0) t r) by done.
    rewrite recorded_row in * by done. lia.
  - assert (∀ r, r ∈ t → ubucket r ≠ (p, e, d, o)) as Habs.
    { intros r Hin Hr. apply Hno. exists r. by rewrite in_bucket_iff. }
    rewrite recorded_absent in Hn by done. rewrite recorded_absent by done.
    rewrite (sum_by_absent ubucket (λ r, Z.max (u_count r - n) 0)) by done. lia.
Qed.

(** The owner-aware upserts add one charge to their bucket. *)
Lemma recorded_upsert p e d o guard t t' row b :
  unique_on ubucket t →
  tbl_upsert (in_bucket p e d o) guard (set_count (λ c, c + 1)) (mkUsage p e o d 1) t
    = (t', Some row) →
  unique_on ubucket t'
  ∧ recorded b t' = recorded b t + (if decide (b = (p, e, d, o)) then 1 else 0)
  ∧ u_count row = recorded (p, e, d, o) t + 1.
Proof.
  intros Hu. unfold tbl_upsert.
  destruct (head (tbl_select (in_bucket p e d o) t)) as [old|] eqn:Hh.
  - apply tbl_select_head in Hh as [Hin Hb]. apply in_bucket_iff in Hb.
    destruct (guard old); [|done]. intros [= <- <-].
    split; [by apply usage_unique_update|]. rewrite recorded_update, <-Hb.
    simpl. rewrite recorded_row by done. split; [|done]. case_decide as Hd; [|lia].
    subst b. rewrite (sum_by_unique ubucket (λ r, u_count r + 1) t old) by done.
    rewrite recorded_row by done. lia.
  - assert (∀ r, r ∈ t → ubucket r ≠ (p, e, d, o)) as Habs.
    { intros r Hin. apply in_bucket_false. by eapply tbl_select_head_None. }
    intros [= <- <-]. split; [by apply unique_on_snoc|]. unfold recorded at 1.
    rewrite sum_by_app. simpl. fold (recorded b t). rewrite (recorded_absent t (p, e, d, o)) by done.
    split; [|done]. unfold ubucket; simpl. repeat case_decide; try congruence; lia.
Qed.

(** *** Preservation *)

(** Changing only charged statuses, or only the idempotency rows' status in a
    way that keeps the charge, keeps the books balanced. *)
Lemma accounted_restatus p s db :
  accounted db →
  (∀ r, p r = true → charged (i_status r) = charged s) →
  accounted (with_idem (tbl_update p (set_status s) (idem db)) db).
Proof.
  intros [U1 U2 B C S] Hp. split; simpl; try done.
  - by apply unique_on_update.
  - intros b. rewrite B. symmetry. apply charges_update_same. intros r Hr. split; [done|].
    symmetry. by apply Hp.
  - intros r. rewrite elem_of_tbl_update. intros (r0 & Hin & ->). destruct (p r0); simpl; by apply C.
Qed.

Ltac by_status := match goal with E : i_status _ = _ |- _ => by rewrite E end.

Lemma accounted_delivered p k db : accounted db → accounted (markDeliveredSlot p k db).1.
Proof.
  intros H. apply accounted_restatus; [done|]. intros r Hr. bool_to_prop. by_status.
Qed.

Lemma accounted_completed p k db : accounted db → accounted (completeReservedSlot p k db).1.
Proof.
  intros H. apply accounted_restatus; [done|]. intros r [_ Hr]%andb_true_iff.
  apply orb_true_iff in Hr as [?|?]; bool_to_prop; by_status.
Qed.

(** A row that stops being charged, together with the release of its bucket. *)
Lemma accounted_release p row db :
  accounted db → row ∈ idem db → i_status row = reserved →
  p row = true → (∀ r, p r = true → ikey r = ikey row) →
  accounted
    (with_usage (releaseUsage (i_platform row) (i_ext row) (i_date row) (i_user row) 1 (usage db))
       (with_idem (tbl_update p (set_status refunded) (idem db)) db)).
Proof.
  intros [U1 U2 B C S] Hin Hst Hp Hk. split; simpl; try done.
  - by apply unique_on_update.
  - by apply usage_unique_update.
  - intros b. unfold charges. rewrite tbl_update_sum.
    rewrite (sum_by_single p (λ r, charge b (set_status refunded r) - charge b r) _ row) by done.
    rewrite recorded_release; [|done|].
    + rewrite B. fold (charges b (idem db)). unfold charge; simpl. rewrite Hst. simpl.
      change (ibucket (set_status refunded row)) with (ibucket row).
      unfold ibucket. repeat case_decide; try congruence; lia.
    + rewrite B. change (i_platform row, i_ext row, i_date row, i_user row) with (ibucket row).
      pose proof (charges_pos row (idem db) Hin ltac:(by rewrite Hst)). lia.
  - intros r. rewrite elem_of_tbl_update. intros (r0 & Hr0 & ->).
    destruct (p r0); simpl; by apply C.
Qed.

Lemma usedAfter_total p e d o db :
  readUsageSchemaMode db = Ok OwnerAware → ∃ used, usedAfterRelease p e d o db = Ok used.
Proof. intros H. unfold usedAfterRelease. rewrite H. destruct o; eauto. Qed.

(** The full effect of a refund on a balanced database. *)
Lemma refund_cases p k reason db :
  accounted db →
  (refundReservedSlot p k reason db = (db, Ok false, [])
   ∧ ∀ r, r ∈ idem db → ikey r = (p, k) → i_status r ≠ reserved)
  ∨ ∃ row used db',
      row ∈ idem db ∧ ikey row = (p, k) ∧ i_status row = reserved ∧ accounted db'
      ∧ idem db' = tbl_update (has_key p k) (set_status refunded) (idem db)
      ∧ usage db' = releaseUsage p (i_ext row) (i_date row) (i_user row) 1 (usage db)
      ∧ refundReservedSlot p k reason db
        = (db', Ok true, [OnReleased (i_ext row) (i_user row) (i_date row) k reason used]).
Proof.
  intros Hacc. unfold refundReservedSlot.
  destruct (head (tbl_select _ (idem db))) as [row|] eqn:Hh.
  - right. apply tbl_select_head in Hh as [Hin Hsel].
    apply andb_true_iff in Hsel as [Hkey Hst]. apply bool_decide_eq_true in Hst.
    apply has_key_iff in Hkey. assert (i_platform row = p) as <- by (by injection Hkey).
    pose proof (accounted_release
      (λ r, has_key (i_platform row) k r && bool_decide (i_status r = reserved)) row db
      Hacc Hin Hst) as Ha.
    edestruct usedAfter_total as [used Hu]; [|rewrite Hu].
    { simpl. apply Hacc. }
    exists row, used. eexists. split_and!; [done..| | | |done].
    + apply Ha; [|intros r Hr; rewrite Hkey].
      * rewrite (proj2 (has_key_iff _ _ _) Hkey). simpl. by rewrite bool_decide_true.
      * apply andb_true_iff in Hr as [Hr _]. by apply has_key_iff.
    + simpl. apply tbl_update_ext. intros r Hr. destruct (has_key _ k r) eqn:E; [|done].
      apply has_key_iff in E. rewrite <-Hkey in E.
      assert (r = row) as -> by by eapply (unique_on_eq ikey _ _ _ (acc_idem_unique _ Hacc)).
      by rewrite bool_decide_true.
    + done.
  - left. split; [done|]. intros r Hin Hk Hst.
    pose proof (tbl_select_head_None _ _ r Hh Hin) as Hf. simpl in Hf.
    rewrite (proj2 (has_key_iff _ _ _) Hk), bool_decide_true in Hf by done. done.
Qed.

Lemma accounted_deleteKey p k db :
  accounted db → (∀ r, r ∈ idem db → ikey r = (p, k) → i_status r = refunded) →
  accounted (deleteKey p k db).
Proof.
  intros [U1 U2 B C S] Hr. split; simpl; try done.
  - by apply unique_on_filter.
  - intros b. rewrite B. unfold charges. rewrite tbl_delete_sum.
    rewrite (sum_by_zero (λ r, if has_key p k r then _ else 0)); [lia|].
    intros r Hin. destruct (has_key p k r) eqn:E; [|done]. apply has_key_iff in E.
    unfold charge. rewrite (Hr r Hin E). by case_decide.
  - intros r. rewrite elem_of_tbl_delete. intros [_ Hin]. by apply C.
Qed.

Lemma select_key p k db :
  match head (tbl_select (has_key p k) (idem db)) with
  | Some row => row ∈ idem db ∧ ikey row = (p, k)
  | None => ∀ r, r ∈ idem db → ikey r ≠ (p, k)
  end.
Proof.
  destruct (head _) as [row|] eqn:Hh.
  - apply tbl_select_head in Hh as [Hin Hk]. by apply has_key_iff in Hk.
  - intros r Hin Hk. apply has_key_iff in Hk.
    pose proof (tbl_select_head_None _ _ r Hh Hin). congruence.
Qed.

Lemma accounted_refund p k reason db :
  accounted db → accounted (refundReservedSlot p k reason db).1.1.
Proof.
  intros H. destruct (refund_cases p k reason db H) as [[-> _]|Hr]; [done|].
  by destruct Hr as (row & used & db' & _ & _ & _ & Ha & _ & _ & ->).
Qed.

Lemma accounted_recover p k before db :
  accounted db → accounted (recoverIdempotencyForRetry p k before db).1.1.
Proof.
  intros H. unfold recoverIdempotencyForRetry. pose proof (select_key p k db) as Hsel.
  destruct (head _) as [row|]; [|done]. destruct Hsel as [Hin Hk].
  destruct (i_status row) eqn:Hst; try done.
  - destruct (before <=? i_reserved_at row); [done|].
    destruct (refund_cases p k stuck_recover db H) as [[-> _]|Hr]; [done|].
    destruct Hr as (row' & used & db' & _ & _ & _ & Ha & Hi & _ & ->). simpl.
    apply accounted_deleteKey; [done|]. rewrite Hi. intros r.
    rewrite elem_of_tbl_update. intros (r0 & Hin0 & ->).
    destruct (has_key p k r0) eqn:E; [done|]. intros Hk0. apply has_key_iff in Hk0. congruence.
  - apply accounted_deleteKey; [done|]. intros r Hr Hkr.
    by assert (r = row) as -> by (eapply (unique_on_eq ikey); [apply H|done..|congruence]).
Qed.

(** *** Totals over sets of buckets *)

Definition total (w : Bucket → bool) (t : list UsageRow) : Z :=
  sum_by (λ r, if w (ubucket r) then u_count r else 0) t.

Definition owned (date : string) (uid : Z) (b : Bucket) : bool :=
  let '(_, _, d, o) := b in bool_decide (d = date) && same_user o (Some uid).

Lemma learnerUsage_total date uid db :
  learnerUsage date uid db = total (owned date uid) (usage db).
Proof. done. Qed.

Lemma total_lowered w (f : UsageRow → UsageRow) t :
  (∀ r, r ∈ t → ubucket (f r) = ubucket r ∧ u_count (f r) ≤ u_count r) →
  total w (f <$> t) ≤ total w t.
Proof.
  unfold total. induction t as [|r t IH]; intros Hf; csimpl; [lia|].
  destruct (Hf r ltac:(left)) as [-> Hc].
  assert (total w (f <$> t) ≤ total w t) by (apply IH; intros; apply Hf; by right).
  unfold total in *. destruct (w (ubucket r)); lia.
Qed.

Lemma total_upsert w p e d o guard t t' row :
  unique_on ubucket t →
  tbl_upsert (in_bucket p e d o) guard (set_count (λ c, c + 1)) (mkUsage p e o d 1) t
    = (t', Some row) →
  total w t' = total w t + (if w (p, e, d, o) then 1 else 0).
Proof.
  intros Hu. unfold tbl_upsert, total.
  destruct (head _) as [old|] eqn:Hh.
  - apply tbl_select_head in Hh as [Hin Hb]. destruct (guard old); [|done]. intros [= <- _].
    rewrite tbl_update_sum. f_equal. apply in_bucket_iff in Hb.
    rewrite <-(sum_by_unique ubucket (λ _, if w (p, e, d, o) then 1 else 0) t old) by done.
    apply sum_by_ext. intros r _. rewrite Hb. destruct (in_bucket p e d o r) eqn:E.
    + apply in_bucket_iff in E. change (ubucket (set_count (λ c, c + 1) r)) with (ubucket r).
      rewrite decide_True, E by done. simpl. destruct (w _); lia.
    + apply in_bucket_false in E. by rewrite decide_False.
  - intros [= <- _]. rewrite sum_by_app. simpl. unfold ubucket at 2; simpl. lia.
Qed.

(** *** Reserving *)

Definition new_row (p : string) (now : Z) (inp : ReserveFreeFormSlotInput) : IdempotencyRow :=
  mkIdem (r_key inp) p (r_ext inp) (r_user inp) (r_date inp) reserved now.

(** Adding a charged row and one unit to its bucket keeps the balance. *)
Lemma accounted_charge p now inp t' db :
  accounted db → clean_ids (r_ext inp) (r_date inp) = true →
  (∀ r, r ∈ idem db → ikey r ≠ (p, r_key inp)) →
  unique_on ubucket t' →
  (∀ b, recorded b t' = recorded b (usage db)
        + (if decide (b = (p, r_ext inp, r_date inp, r_user inp)) then 1 else 0)) →
  accounted (with_usage t' (with_idem (idem db ++ [new_row p now inp]) db)).
Proof.
  intros [U1 U2 B C S] Hc Hn Hu Hr. split; simpl; try done.
  - by apply unique_on_snoc.
  - intros b. rewrite Hr, B. unfold charges. rewrite sum_by_app. simpl.
    unfold charge at 3, ibucket; simpl. repeat case_decide; try congruence; lia.
  - intros r [Hin|Hin]%elem_of_app; [by apply C|].
    by apply list_elem_of_singleton in Hin as ->.
Qed.

Lemma reserveBody_owner p inp db :
  readUsageSchemaMode db = Ok OwnerAware → unique_on ubucket (usage db) →
  match reserveBody p inp db with
  | inr (db', count, _) =>
      ∃ t', db' = with_usage t' db ∧ unique_on ubucket t'
        ∧ (∀ b, recorded b t' = recorded b (usage db)
             + (if decide (b = (p, r_ext inp, r_date inp, r_user inp)) then 1 else 0))
        ∧ (∀ w, total w t' = total w (usage db)
             + (if w (p, r_ext inp, r_date inp, r_user inp) then 1 else 0))
        ∧ learnerOverLimit OwnerAware p inp db = false
        ∧ count = match r_user inp with
                  | Some uid => learnerUsage (r_date inp) uid db'
                  | None => recorded (p, r_ext inp, r_date inp, None) (usage db) + 1
                  end
        ∧ (r_user inp = None → recorded (p, r_ext inp, r_date inp, None) (usage db) = 0
                               ∨ recorded (p, r_ext inp, r_date inp, None) (usage db) < r_dailyLimit inp)
  | inl (AbortError _) => False
  | inl _ => True
  end.
Proof.
  intros Hs Hu. unfold reserveBody, burstCheck.
  destruct (match r_burstLimit inp with Some _ => _ | None => None end) as [a|] eqn:E.
  { revert E. destruct (r_burstLimit inp), (r_burstSince inp); try done.
    intros E. destruct (_ <? _); by simplify_eq. }
  rewrite Hs. destruct (learnerOverLimit _ _ _ _) eqn:Hl; [done|].
  destruct (chargeUsage _ _ _ _) as [t' [row|]] eqn:Hch; [|done].
  exists t'. unfold chargeUsage in Hch.
  assert (tbl_upsert (in_bucket p (r_ext inp) (r_date inp) (r_user inp))
            (match r_user inp with Some _ => λ _, true
             | None => λ r, u_count r <? r_dailyLimit inp end)
            (set_count (λ c, c + 1)) (mkUsage p (r_ext inp) (r_user inp) (r_date inp) 1)
            (usage db) = (t', Some row)) as Hup.
  { by destruct (r_user inp). }
  pose proof (λ b, recorded_upsert _ _ _ _ _ _ _ _ b Hu Hup) as Hr.
  split; [done|]. split; [apply (Hr (p, r_ext inp, r_date inp, None))|].
  split; [intros b; apply Hr|]. split; [intros w; by eapply total_upsert|]. split; [done|].
  destruct (r_user inp) as [uid|] eqn:Hus; split; try done.
  - destruct (Hr (p, r_ext inp, r_date inp, None)) as (_ & _ & ->). done.
  - intros _. clear Hr Hch. unfold tbl_upsert in Hup.
    destruct (head _) as [old|] eqn:Hh.
    + apply tbl_select_head in Hh as [Hin Hbk]. apply in_bucket_iff in Hbk.
      rewrite <-Hbk, recorded_row by done. right.
      destruct (u_count old <? r_dailyLimit inp) eqn:Hlt; [|done]. by bool_to_prop.
    + left. apply recorded_absent. intros r Hin.
      apply in_bucket_false. by eapply tbl_select_head_None.
Qed.

(** Every outcome of the reserve transaction on a balanced database. *)
Lemma reserve_cases p now inp db :
  accounted db → clean_ids (r_ext inp) (r_date inp) = true →
  let '(db', res, hooks) := reserveFreeFormSlotInTransaction p now inp db in
  (db' = db ∧ hooks = [] ∧
   (res = Ok IdempotencyConflict ∧ (∃ r, r ∈ idem db ∧ ikey r = (p, r_key inp))
    ∨ res = Ok DailyLimitExceeded ∨ ∃ n, res = Ok (BurstLimitExceeded n)))
  ∨ ∃ t' count,
      res = Ok (Reserved count)
      ∧ db' = with_usage t' (with_idem (idem db ++ [new_row p now inp]) db)
      ∧ accounted db'
      ∧ (∀ r, r ∈ idem db → ikey r ≠ (p, r_key inp))
      ∧ (∀ b, recorded b t' = recorded b (usage db)
           + (if decide (b = (p, r_ext inp, r_date inp, r_user inp)) then 1 else 0))
      ∧ (∀ w, total w t' = total w (usage db)
           + (if w (p, r_ext inp, r_date inp, r_user inp) then 1 else 0))
      ∧ learnerOverLimit OwnerAware p inp db = false
      ∧ count = match r_user inp with
                | Some uid => learnerUsage (r_date inp) uid db'
                | None => recorded (p, r_ext inp, r_date inp, None) (usage db) + 1
                end
      ∧ (r_user inp = None →
         recorded (p, r_ext inp, r_date inp, None) (usage db) = 0
         ∨ recorded (p, r_ext inp, r_date inp, None) (usage db) < r_dailyLimit inp).
Proof.
  intros Hacc Hc. unfold reserveFreeFormSlotInTransaction, tryReserveIdempotency,
    tbl_insert_nothing. fold (new_row p now inp).
  destruct (tbl_exists_spec (has_key p (r_key inp)) (idem db)) as [(r & Hin & Hk)|Hno]; simpl.
  { left. apply has_key_iff in Hk. split; [by destruct db|]. split; [done|]. left. eauto. }
  assert (∀ r, r ∈ idem db → ikey r ≠ (p, r_key inp)) as Hfresh.
  { intros r Hin Hk. apply Hno. exists r. by rewrite has_key_iff. }
  set (db1 := with_idem (idem db ++ [new_row p now inp]) db).
  pose proof (reserveBody_owner p inp db1 (acc_schema _ Hacc) (acc_usage_unique _ Hacc)) as Hb.
  destruct (reserveBody p inp db1) as [[|n|e]|[[db2 count] hooks]]; [left..| ].
  - split_and!; auto.
  - split_and!; eauto.
  - done.
  - right. destruct Hb as (t' & -> & Hu & Hr & Hw & Hl & Hct & Hlim).
    exists t', count. split_and!; try done. by apply accounted_charge.
Qed.

Lemma accounted_reserve p now inp db :
  accounted db → clean_ids (r_ext inp) (r_date inp) = true →
  accounted (reserveFreeFormSlotInTransaction p now inp db).1.1.
Proof.
  intros Ha Hc. pose proof (reserve_cases p now inp db Ha Hc) as H.
  destruct (reserveFreeFormSlotInTransaction p now inp db) as [[db' res] hooks]. simpl.
  destruct H as [[-> _]|(t' & count & _ & _ & H & _)]; done.
Qed.

(** *** Text keys: encoding a bucket and decoding it again *)

Lemma split_no_colon s : no_colon s = true → split_colon s = [s].
Proof.
  induction s as [|a s IH]; simpl; [done|]. intros [Ha Hs]%andb_true_iff.
  apply negb_true_iff in Ha. rewrite Ha, IH by done. done.
Qed.

Lemma split_app s t : no_colon s = true → split_colon (s +:+ ":" +:+ t) = s :: split_colon t.
Proof.
  induction s as [|a s IH]; simpl; intros Hs.
  - done.
  - apply andb_true_iff in Hs as [Ha Hs]. apply negb_true_iff in Ha.
    rewrite Ha. specialize (IH Hs). simpl in IH. by rewrite IH.
Qed.

Lemma to_int_nonnil z : Z.to_int z ≠ Decimal.Pos Decimal.Nil
                        ∧ Z.to_int z ≠ Decimal.Neg Decimal.Nil.
Proof.
  destruct z as [|p|p]; simpl; split; try done; intros [= Hn];
    by apply (DecimalPos.Unsigned.to_uint_nonnil p).
Qed.

Lemma parse_print z : parse_int (print_int z) = Some z.
Proof.
  unfold parse_int, print_int. destruct (to_int_nonnil z).
  rewrite NilZero.isi by done. simpl. by rewrite DecimalZ.of_to.
Qed.

Lemma no_colon_uint d : no_colon (NilEmpty.string_of_uint d) = true.
Proof. induction d; simpl; rewrite ?IHd; done. Qed.

Lemma print_no_colon z : no_colon (print_int z) = true.
Proof.
  unfold print_int. destruct (Z.to_int z) as [d|d]; simpl; unfold NilZero.string_of_uint;
    destruct d; try done; apply no_colon_uint.
Qed.

(** *** Tallies *)

Definition tally (ks : list string) : list (string * Z) := foldl (λ m k, bump k m) [] ks.

Definition get (k : string) (m : list (string * Z)) : Z :=
  sum_by (λ e, if decide (e.1 = k) then e.2 else 0) m.

Lemma get_bump k key m : get k (bump key m) = get k m + (if decide (key = k) then 1 else 0).
Proof.
  unfold get. induction m as [|[k' n] m IH]; simpl; [case_decide; lia|].
  case_bool_decide; simpl; [subst; case_decide; lia|]. rewrite IH. lia.
Qed.

Lemma elem_of_bump_keys k key m : k ∈ (bump key m).*1 ↔ k = key ∨ k ∈ m.*1.
Proof.
  induction m as [|[k' n] m IH]; csimpl; [set_solver|].
  case_bool_decide; csimpl; rewrite ?elem_of_cons, ?IH; set_solver.
Qed.

Lemma unique_bump key m : unique_on fst m → unique_on fst (bump key m).
Proof.
  unfold unique_on. induction m as [|[k' n] m IH]; csimpl; intros Hu.
  - apply NoDup_singleton.
  - apply NoDup_cons in Hu as [Hn Hu]. case_bool_decide; csimpl; apply NoDup_cons; [done|].
    split; [|by apply IH]. rewrite elem_of_bump_keys. naive_solver.
Qed.

Lemma tally_spec ks :
  unique_on fst (tally ks)
  ∧ (∀ k, get k (tally ks) = sum_by (λ k', if decide (k' = k) then 1 else 0) ks)
  ∧ (∀ k, k ∈ (tally ks).*1 ↔ k ∈ ks).
Proof.
  unfold tally.
  assert (∀ m, unique_on fst m →
    unique_on fst (foldl (λ m k, bump k m) m ks)
    ∧ (∀ k, get k (foldl (λ m k, bump k m) m ks)
            = get k m + sum_by (λ k', if decide (k' = k) then 1 else 0) ks)
    ∧ (∀ k, k ∈ (foldl (λ m k, bump k m) m ks).*1 ↔ k ∈ m.*1 ∨ k ∈ ks)) as Hgen.
  { induction ks as [|key ks IH]; intros m Hu; simpl.
    { split_and!; [done|intros; lia|set_solver]. }
    destruct (IH (bump key m) (unique_bump key m Hu)) as (H1 & H2 & H3). split_and!; [done| |].
    - intros k. rewrite H2, get_bump. lia.
    - intros k. rewrite H3, elem_of_bump_keys. set_solver. }
  destruct (Hgen [] ltac:(constructor)) as (H1 & H2 & H3). split_and!; [done|apply H2|].
  intros k. rewrite H3. set_solver.
Qed.

Lemma pageDecrements_tally page :
  pageDecrements page
  = (tally (omap (λ r, match i_user r with None => Some (anonymousKey r) | Some _ => None end) page),
     tally (omap (λ r, match i_user r with Some u => Some (learnerKey u r) | None => None end) page)).
Proof.
  unfold pageDecrements, tally.
  assert (∀ a l, foldl (λ '(anon, learner) r,
      match i_user r with
      | Some uid => (anon, bump (learnerKey uid r) learner)
      | None => (bump (anonymousKey r) anon, learner)
      end) (a, l) page
    = (foldl (λ m k, bump k m) a
         (omap (λ r, match i_user r with None => Some (anonymousKey r) | Some _ => None end) page),
       foldl (λ m k, bump k m) l
         (omap (λ r, match i_user r with Some u => Some (learnerKey u r) | None => None end) page)))
    as Hgen; [|apply Hgen].
  induction page as [|r page IH]; intros a l; csimpl; [done|].
  destruct (i_user r); apply IH.
Qed.

(** Lowering every counter by a per-bucket amount, never below zero. *)
Definition lower (n : Bucket → Z) (r : UsageRow) : UsageRow :=
  set_count (λ c, Z.max 0 (c - n (ubucket r))) r.

Lemma lower_lower n m (t : list UsageRow) :
  (∀ b, 0 ≤ n b) → (∀ b, 0 ≤ m b) →
  lower m <$> (lower n <$> t) = lower (λ b, n b + m b) <$> t.
Proof.
  intros Hn Hm. rewrite <-list_fmap_compose. apply list_fmap_ext. intros i r _; simpl.
  specialize (Hn (ubucket r)). specialize (Hm (ubucket r)).
  unfold lower, set_count, ubucket in *; simpl. f_equal. lia.
Qed.

Lemma lower_ext n m (t : list UsageRow) : (∀ b, n b = m b) → lower n <$> t = lower m <$> t.
Proof.
  intros H. apply list_fmap_ext. intros i r _. unfold lower, set_count. by rewrite H.
Qed.

Lemma lower_zero (t : list UsageRow) : (∀ r, r ∈ t → 0 ≤ u_count r) → lower (λ _, 0) <$> t = t.
Proof.
  intros Hpos. rewrite <-(list_fmap_id t) at 2. apply list_fmap_ext. intros i r Hr.
  apply list_elem_of_lookup_2 in Hr. specialize (Hpos r Hr).
  destruct r; unfold lower, set_count; simpl in *. f_equal. lia.
Qed.

(** A keying of the rows of a page that decodes back to the row's bucket. *)
Section Decode.
Context (p : string) (keyOf : IdempotencyRow → option string)
        (decode : string * Z → option Decrement) (page : list IdempotencyRow).
Hypothesis decode_key : ∀ x k n, x ∈ page → keyOf x = Some k →
  decode (k, n) = Some {| d_date := i_date x; d_user := i_user x; d_ext := i_ext x; d_delta := n |}.
Hypothesis page_platform : ∀ x, x ∈ page → i_platform x = p.
Hypothesis key_bucket : ∀ x y, ibucket x = ibucket y → keyOf x = keyOf y.

Definition keyed_in (b : Bucket) (x : IdempotencyRow) : bool :=
  match keyOf x with Some _ => bool_decide (ibucket x = b) | None => false end.

Lemma key_count x k : x ∈ page → keyOf x = Some k →
  ∀ l, (∀ y, y ∈ l → y ∈ page) →
  sum_by (λ k', if decide (k' = k) then 1 else 0) (omap keyOf l)
  = count_by (keyed_in (ibucket x)) l.
Proof.
  intros Hx Hk l. unfold count_by, keyed_in. induction l as [|y l IH]; intros Hl; csimpl; [done|].
  assert (y ∈ page) as Hy by (apply Hl; left).
  rewrite <-IH by (intros z Hz; apply Hl; by right).
  destruct (keyOf y) as [k'|] eqn:Hky; csimpl; [|lia].
  destruct (decide (k' = k)) as [->|Hne].
  - rewrite bool_decide_true; [done|].
    pose proof (decode_key x k 0 Hx Hk) as D1. pose proof (decode_key y k 0 Hy Hky) as D2.
    rewrite D1 in D2. injection D2 as E1 E2 E3. unfold ibucket.
    rewrite (page_platform x Hx), (page_platform y Hy). congruence.
  - rewrite bool_decide_false; [done|]. intros Hb. apply Hne.
    apply key_bucket in Hb. congruence.
Qed.

(** The VALUES row joined with a usage row carries the number of rows of the
    page in that usage row's bucket; without one there is no such row. *)
Lemma joined_delta r :
  match head (tbl_select (matches p r) (omap decode (tally (omap keyOf page)))) with
  | Some d => d_delta d = count_by (keyed_in (ubucket r)) page
  | None => count_by (keyed_in (ubucket r)) page = 0
  end.
Proof.
  destruct (tally_spec (omap keyOf page)) as (Hu & Hg & Hk).
  destruct (head _) as [d|] eqn:Hh.
  - apply tbl_select_head in Hh as [Hin Hm].
    apply list_elem_of_omap in Hin as ([k n] & Hin & Hd).
    assert (k ∈ omap keyOf page) as Hko by (apply Hk; by apply (list_elem_of_fmap_2 fst) in Hin).
    apply list_elem_of_omap in Hko as (x & Hx & Hkx).
    rewrite (decode_key x k n Hx Hkx) in Hd. injection Hd as <-. simpl.
    apply in_bucket_iff in Hm; simpl in Hm. rewrite Hm.
    replace (p, i_ext x, i_date x, i_user x) with (ibucket x)
      by (unfold ibucket; by rewrite (page_platform x Hx)).
    rewrite <-(key_count x k Hx Hkx page) by done. rewrite <-Hg. symmetry.
    exact (sum_by_unique fst snd (tally (omap keyOf page)) (k, n) Hu Hin).
  - apply count_by_zero. intros x Hx. unfold keyed_in.
    destruct (keyOf x) as [k|] eqn:Hkx; [|done]. apply bool_decide_false. intros Hb.
    assert (k ∈ (tally (omap keyOf page)).*1) as Hin.
    { apply Hk. apply list_elem_of_omap. eauto. }
    apply list_elem_of_fmap in Hin as ([k' n] & Heq & Hin). simpl in Heq; subst k'.
    pose proof (decode_key x k n Hx Hkx) as Hd.
    assert (matches p r _ = false) as Hm
      by (eapply tbl_select_head_None; [exact Hh|apply list_elem_of_omap; eauto]).
    apply in_bucket_false in Hm. apply Hm. simpl. rewrite <-Hb. unfold ibucket.
    by rewrite (page_platform x Hx).
Qed.

Lemma applyDecrements_spec t :
  (∀ r, r ∈ t → 0 ≤ u_count r) →
  applyDecrements p (omap decode (tally (omap keyOf page))) t
  = lower (λ b, count_by (keyed_in b) page) <$> t.
Proof.
  intros Hpos. unfold applyDecrements, lower. apply list_fmap_ext. intros i r Hr.
  apply list_elem_of_lookup_2 in Hr. specialize (Hpos r Hr).
  pose proof (joined_delta r) as Hj. destruct (head _) as [d|].
  - by rewrite Hj.
  - rewrite Hj. destruct r; unfold set_count; simpl in *. f_equal. lia.
Qed.
End Decode.

Lemma anonymous_decodes x n :
  clean_ids (i_ext x) (i_date x) = true → i_user x = None →
  decodeAnonymous (anonymousKey x, n)
  = Some {| d_date := i_date x; d_user := i_user x; d_ext := i_ext x; d_delta := n |}.
Proof.
  unfold clean_ids. intros Hc Hu. bool_to_prop. unfold decodeAnonymous, anonymousKey; simpl.
  match goal with E : date10 _ = _ |- _ => rewrite E end.
  rewrite split_app, split_no_colon by done. 
  match goal with E : date10 _ = _ |- _ => rewrite E end. by rewrite Hu.
Qed.

Lemma learner_decodes x uid n :
  clean_ids (i_ext x) (i_date x) = true → i_user x = Some uid →
  decodeLearner (learnerKey uid x, n)
  = Some {| d_date := i_date x; d_user := i_user x; d_ext := i_ext x; d_delta := n |}.
Proof.
  unfold clean_ids. intros Hc Hu. bool_to_prop. unfold decodeLearner, learnerKey; simpl.
  match goal with E : date10 _ = _ |- _ => rewrite E end.
  rewrite split_app by done. rewrite split_app by apply print_no_colon.
  rewrite split_no_colon, parse_print by done.
  match goal with E : date10 _ = _ |- _ => rewrite E end. by rewrite Hu.
Qed.

(** The requests of a list that belong to a bucket. *)
Definition in_page (b : Bucket) (page : list IdempotencyRow) : Z :=
  count_by (λ x, bool_decide (ibucket x = b)) page.

(** One page of the bulk recovery lowers every counter of the platform by the
    number of the page's rows in its bucket. *)
Lemma recoverPage_spec p mode db hooks page :
  (∀ x, x ∈ page → i_platform x = p ∧ clean_ids (i_ext x) (i_date x) = true) →
  (∀ r, r ∈ usage db → 0 ≤ u_count r) →
  (recoverPage p mode (db, hooks) page).1
  = with_usage (lower (λ b, in_page b page) <$> usage db) db.
Proof.
  intros Hp Hpos. unfold recoverPage. rewrite pageDecrements_tally. cbn [fst]. f_equal.
  assert (∀ r, r ∈ page → i_platform r = p) as Hpl by (intros r Hr; by apply Hp).
  rewrite (applyDecrements_spec p _ decodeAnonymous page); try done.
  3:{ intros x y Hb. unfold ibucket in Hb. injection Hb as E1 E2 E3 E4.
      unfold anonymousKey. by rewrite E2, E3, E4. }
  2:{ intros x k n Hx. destruct (i_user x) eqn:Hu; intros [= <-].
      rewrite <-Hu. apply anonymous_decodes; [by apply Hp|done]. }
  rewrite (applyDecrements_spec p _ decodeLearner page); try done.
  4:{ intros r Hr. apply list_elem_of_fmap in Hr as (r0 & -> & _). simpl. lia. }
  3:{ intros x y Hb. unfold ibucket in Hb. injection Hb as E1 E2 E3 E4.
      unfold learnerKey. by rewrite E2, E3, E4. }
  2:{ intros x k n Hx. destruct (i_user x) eqn:Hu; intros [= <-].
      rewrite <-Hu. apply learner_decodes; [by apply Hp|done]. }
  rewrite lower_lower by (intros; apply count_by_nonneg). apply lower_ext. intros b.
  unfold in_page, count_by, keyed_in. rewrite <-sum_by_plus. apply sum_by_ext.
  intros x _. destruct (i_user x); destruct (bool_decide _); lia.
Qed.

Lemma in_page_nonneg b page : 0 ≤ in_page b page.
Proof. apply count_by_nonneg. Qed.

Lemma pages_concat {A} fuel (rows : list A) :
  (length rows ≤ fuel)%nat → concat (pages fuel rows) = rows.
Proof.
  revert rows. induction fuel as [|f IH]; intros [|x rows] Hl; try done; [simpl in Hl; lia|].
  cbn [pages concat]. rewrite IH; [apply take_drop|].
  rewrite length_drop. unfold PAGE_SIZE. simpl in *. lia.
Qed.

(** All the pages together: page boundaries do not matter. *)
Lemma recoverPages_spec p mode pgs db hooks :
  (∀ x, x ∈ concat pgs → i_platform x = p ∧ clean_ids (i_ext x) (i_date x) = true) →
  (∀ r, r ∈ usage db → 0 ≤ u_count r) →
  (foldl (recoverPage p mode) (db, hooks) pgs).1
  = with_usage (lower (λ b, in_page b (concat pgs)) <$> usage db) db.
Proof.
  revert db hooks. induction pgs as [|page pgs IH]; intros db hooks Hp Hpos.
  - simpl. rewrite (lower_ext _ (λ _, 0)) by done. rewrite lower_zero by done. by destruct db.
  - cbn [foldl concat]. pose proof (recoverPage_spec p mode db hooks page) as Hpage.
    destruct (recoverPage p mode (db, hooks) page) as [db1 h1].
    simpl in Hpage. rewrite Hpage by (done || (intros x Hx; apply Hp; set_solver)).
    rewrite IH; simpl.
    + unfold with_usage; simpl. f_equal. rewrite lower_lower by (intros; apply in_page_nonneg).
      apply lower_ext. intros b. unfold in_page. by rewrite count_by_app.
    + intros x Hx. apply Hp. set_solver.
    + intros r Hr. apply list_elem_of_fmap in Hr as (r0 & -> & _). simpl. lia.
Qed.

Lemma sum_by_select {A} (p : A → bool) (g : A → Z) t :
  sum_by g (tbl_select p t) = sum_by (λ r, if p r then g r else 0) t.
Proof.
  unfold tbl_select. induction t as [|r t IH]; [done|]. rewrite filter_cons.
  case_decide as Hp; simpl; rewrite IH.
  - by rewrite Hp.
  - by destruct (p r).
Qed.

Lemma recorded_lower n t b :
  unique_on ubucket t → 0 ≤ n b ≤ recorded b t →
  recorded b (lower n <$> t) = recorded b t - n b.
Proof.
  intros Hu Hn.
  assert (recorded b (lower n <$> t)
    = sum_by (λ r, if decide (ubucket r = b) then Z.max 0 (u_count r - n b) else 0) t) as ->.
  { unfold recorded. clear. induction t as [|r t IH]; csimpl; [done|]. rewrite IH. f_equal.
    change (ubucket (lower n r)) with (ubucket r). case_decide as Hb; [|done].
    unfold lower; simpl. by rewrite Hb. }
  destruct (tbl_exists_spec (λ r, bool_decide (ubucket r = b)) t) as [(r & Hin & Hr)|Hno].
  - bool_to_prop. subst b.
    rewrite (sum_by_unique ubucket (λ r', Z.max 0 (u_count r' - n (ubucket r))) t r) by done.
    rewrite recorded_row in * by done. lia.
  - assert (∀ r, r ∈ t → ubucket r ≠ b) as Habs.
    { intros r Hin Hr. apply Hno. exists r. by rewrite bool_decide_true. }
    rewrite recorded_absent in Hn by done. rewrite recorded_absent by done.
    rewrite (sum_by_absent ubucket (λ r, Z.max 0 (u_count r - n b))) by done. lia.
Qed.

Lemma usage_nonneg db r : accounted db → r ∈ usage db → 0 ≤ u_count r.
Proof.
  intros [U1 U2 B C S] Hin. rewrite <-(recorded_row _ r U2 Hin), B. apply charges_nonneg.
Qed.

(** The full effect of the bulk recovery on a balanced database. *)
Lemma recoverAll_spec p before db :
  accounted db →
  let rows := listStuckReserved p before db in
  let '(db', res, hooks) := recoverAllStuckReserved p before db in
  accounted db'
  ∧ res = Ok ((i_key <$> tbl_select (stuck p delivered before) (idem db)) ++ (i_key <$> rows))
  ∧ (∀ b, recorded b (usage db') = recorded b (usage db) - in_page b rows)
  ∧ usage db' = lower (λ b, in_page b rows) <$> usage db
  ∧ idem db' = tbl_update (stuck p reserved before) (set_status refunded)
                 (tbl_update (stuck p delivered before) (set_status completed) (idem db)).
Proof.
  intros Hacc rows. unfold recoverAllStuckReserved. rewrite (acc_schema _ Hacc).
  set (db1 := with_idem (tbl_update (stuck p delivered before) (set_status completed) (idem db)) db).
  assert (accounted db1) as [U1 U2 B C S].
  { apply accounted_restatus; [done|]. intros r Hr. unfold stuck in Hr. bool_to_prop. by_status. }
  assert (listStuckReserved p before db1 = rows) as Hrows.
  { unfold rows, listStuckReserved, db1; simpl. clear.
    induction (idem db) as [|r t IH]; [done|]. unfold tbl_select, tbl_update in *. csimpl.
    rewrite !filter_cons, IH. destruct (stuck p delivered before r) eqn:E; [|done].
    rewrite !decide_False; [done| |]; unfold stuck in *; bool_to_prop; simpl;
      [|by rewrite andb_false_r].
    match goal with E : i_status r = _ |- _ => rewrite E end. simpl. by rewrite andb_false_r. }
  rewrite Hrows. set (db2 := with_idem _ db1).
  pose proof (recoverPages_spec p OwnerAware (pages (length rows) rows) db2 []) as Hpg.
  rewrite pages_concat in Hpg by done.
  destruct (foldl _ _ _) as [db3 hooks]. simpl in Hpg. rewrite Hpg; clear Hpg.
  2:{ intros x Hx. rewrite <-Hrows in Hx. apply elem_of_tbl_select in Hx as [Hs Hx].
      split; [unfold stuck in Hs; by bool_to_prop|by apply C]. }
  2:{ intros r Hr. by apply (usage_nonneg db). }
  assert (∀ b, charges b (idem db2) = charges b (idem db1) - in_page b rows) as Hch.
  { intros b. unfold db2, charges; simpl. rewrite tbl_update_sum. rewrite <-Hrows.
    unfold in_page, listStuckReserved, count_by. rewrite sum_by_select, <-Z.add_opp_r.
    rewrite <-sum_by_opp. f_equal. apply sum_by_ext. intros r _.
    destruct (stuck p reserved before r) eqn:E; [|done]. unfold stuck in E. bool_to_prop.
    unfold charge. change (ibucket (set_status refunded r)) with (ibucket r). simpl.
    match goal with E : i_status r = _ |- _ => rewrite E end.
    case_bool_decide; case_decide; done. }
  assert (∀ b, recorded b (lower (λ b, in_page b rows) <$> usage db)
               = recorded b (usage db) - in_page b rows) as Hrec.
  { intros b. apply recorded_lower; [done|]. split; [apply in_page_nonneg|].
    pose proof (charges_nonneg b (idem db2)) as Hnn. rewrite Hch in Hnn.
    pose proof (B b) as HB. change (usage db1) with (usage db) in HB. lia. }
  split_and!; try done. split; simpl; try done.
  - by apply unique_on_update.
  - unfold unique_on. rewrite <-list_fmap_compose.
    rewrite (list_fmap_ext (ubucket ∘ lower _) ubucket) by done. apply Hacc.
  - intros b. rewrite Hrec. pose proof (B b) as HB. change (usage db1) with (usage db) in HB.
    specialize (Hch b). unfold db2 in Hch. simpl in Hch, HB. lia.
  - intros r. rewrite elem_of_tbl_update. intros (r0 & Hr0 & ->).
    destruct (stuck _ _ _ r0); simpl; by apply C.
Qed.

(** ** Runs of the repository *)

(** One committed transaction of one platform's repository. *)
Inductive QuotaOp :=
| OpReserve (platform : string) (now : Z) (inp : ReserveFreeFormSlotInput)
| OpRefund (platform key : string)
| OpComplete (platform key : string)
| OpDeliver (platform key : string)
| OpRecover (platform key : string) (before : Z)
| OpRecoverAll (platform : string) (before : Z).

Definition exec (op : QuotaOp) (db : Db) : Db :=
  match op with
  | OpReserve p now inp => (reserveFreeFormSlotInTransaction p now inp db).1.1
  | OpRefund p k => (refundReservedSlot p k send_failed db).1.1
  | OpComplete p k => (completeReservedSlot p k db).1
  | OpDeliver p k => (markDeliveredSlot p k db).1
  | OpRecover p k t => (recoverIdempotencyForRetry p k t db).1.1
  | OpRecoverAll p t => (recoverAllStuckReserved p t db).1.1
  end.

Definition run (ops : list QuotaOp) (db : Db) : Db := foldl (λ db op, exec op db) db ops.

(** Channel ids carry no colon and dates are ISO dates. *)
Definition op_clean (op : QuotaOp) : bool :=
  match op with
  | OpReserve _ _ inp => clean_ids (r_ext inp) (r_date inp)
  | _ => true
  end.

(** The migrated schema with empty tables. *)
Definition empty_db (ls : list ActiveLink) : Db :=
  mkDb [] [] ls {| legacy_index := false; linked_index := true; anonymous_index := true |}.

Lemma accounted_empty ls : accounted (empty_db ls).
Proof. split; simpl; try done; try constructor. intros r ?%not_elem_of_nil. done. Qed.

Lemma accounted_recoverAll p before db :
  accounted db → accounted (recoverAllStuckReserved p before db).1.1.
Proof.
  intros Ha. pose proof (recoverAll_spec p before db Ha) as H.
  destruct (recoverAllStuckReserved p before db) as [[db' res] hooks]. apply H.
Qed.

Lemma accounted_exec op db : accounted db → op_clean op = true → accounted (exec op db).
Proof.
  intros Ha Hc. destruct op; simpl.
  - by apply accounted_reserve.
  - by apply accounted_refund.
  - by apply accounted_completed.
  - by apply accounted_delivered.
  - by apply accounted_recover.
  - by apply accounted_recoverAll.
Qed.

Lemma accounted_run ops db :
  accounted db → Forall (λ op, op_clean op = true) ops → accounted (run ops db).
Proof.
  intros Ha Hc. revert db Ha. induction Hc as [|op ops Hop Hc IH]; intros db Ha; [done|].
  simpl. by apply IH, accounted_exec.
Qed.


(** *** The daily limit *)

(** With the limit [L]: every learner has used at most [L], and every anonymous
    channel at most [L], except that a first message is always let through. *)
Definition within_limit (L : Z) (db : Db) : Prop :=
  (∀ date uid, learnerUsage date uid db ≤ L)
  ∧ ∀ p e d, recorded (p, e, d, None) (usage db) ≤ Z.max 1 L.

Definition op_limit (L : Z) (op : QuotaOp) : bool :=
  match op with OpReserve _ _ inp => r_dailyLimit inp =? L | _ => true end.

Lemma recorded_total b t : recorded b t = total (λ b', bool_decide (b' = b)) t.
Proof. apply sum_by_ext. intros r _. case_decide; by case_bool_decide. Qed.

(** Transactions that only lower counters keep the limits. *)
Lemma within_limit_lowered L (f : UsageRow → UsageRow) db db' :
  usage db' = f <$> usage db →
  (∀ r, r ∈ usage db → ubucket (f r) = ubucket r ∧ u_count (f r) ≤ u_count r) →
  within_limit L db → within_limit L db'.
Proof.
  intros Hu Hf [H1 H2]. split.
  - intros date uid. rewrite learnerUsage_total, Hu.
    pose proof (total_lowered (owned date uid) f (usage db) Hf) as Ht.
    specialize (H1 date uid). rewrite learnerUsage_total in H1. lia.
  - intros p e d. rewrite recorded_total, Hu.
    pose proof (total_lowered (λ b', bool_decide (b' = (p, e, d, None))) f (usage db) Hf) as Ht.
    specialize (H2 p e d). rewrite recorded_total in H2. lia.
Qed.

Lemma within_limit_same L db db' :
  usage db' = usage db → within_limit L db → within_limit L db'.
Proof.
  intros Hu H. apply (within_limit_lowered L id db); [by rewrite list_fmap_id|by split|done].
Qed.

Lemma within_limit_reserve L p now inp db :
  accounted db → clean_ids (r_ext inp) (r_date inp) = true → r_dailyLimit inp = L →
  within_limit L db → within_limit L (reserveFreeFormSlotInTransaction p now inp db).1.1.
Proof.
  intros Ha Hc HL [H1 H2]. pose proof (reserve_cases p now inp db Ha Hc) as H.
  destruct (reserveFreeFormSlotInTransaction p now inp db) as [[db' res] hooks]. simpl.
  destruct H as [[-> _]|(t' & count & _ & -> & _ & _ & Hr & Hw & Hl & _ & Hlim)]; [done|].
  split.
  - intros date uid. rewrite learnerUsage_total; simpl. rewrite Hw.
    specialize (H1 date uid). rewrite learnerUsage_total in H1.
    unfold owned at 2, same_user. case_bool_decide; simpl; [|lia]. case_bool_decide as Hus; [|lia].
    unfold learnerOverLimit in Hl. rewrite Hus in Hl. bool_to_prop. simpl in Hl.
    rewrite learnerUsage_total in Hl. subst date. lia.
  - intros p' e d. simpl. rewrite Hr. specialize (H2 p' e d). case_decide as Hd; [|lia].
    injection Hd as -> -> -> Hus. symmetry in Hus. rewrite Hus in *.
    destruct (Hlim eq_refl); lia.
Qed.

Lemma within_limit_refund L p k reason db :
  accounted db → within_limit L db → within_limit L (refundReservedSlot p k reason db).1.1.
Proof.
  intros Ha H. destruct (refund_cases p k reason db Ha) as [[-> _]|Hr]; [done|].
  destruct Hr as (row & used & db' & _ & _ & _ & _ & _ & Hu & ->). simpl.
  eapply within_limit_lowered; [exact Hu| |done]. intros r Hr.
  cbv beta. destruct (in_bucket _ _ _ _ r); [|by split]. split; [done|]. simpl.
  pose proof (usage_nonneg db r Ha Hr). lia.
Qed.

Lemma within_limit_exec L op db :
  accounted db → op_clean op = true → op_limit L op = true →
  within_limit L db → within_limit L (exec op db).
Proof.
  intros Ha Hc Hl H. destruct op; simpl in *.
  - apply within_limit_reserve; try done. by bool_to_prop.
  - by apply within_limit_refund.
  - by eapply within_limit_same.
  - by eapply within_limit_same.
  - unfold recoverIdempotencyForRetry. destruct (head _) as [row|]; [|done].
    destruct (i_status row); try done.
    destruct (before <=? i_reserved_at row); [done|].
    pose proof (within_limit_refund L platform key stuck_recover db Ha H) as Hr.
    destruct (refundReservedSlot _ _ _ _) as [[db' [[]|]] hooks]; simpl in *; try done.
  - pose proof (recoverAll_spec platform before db Ha) as Hs.
    destruct (recoverAllStuckReserved _ _ _) as [[db' res] hooks]. simpl.
    destruct Hs as (_ & _ & _ & Hu & _). eapply within_limit_lowered; [exact Hu| |done].
    intros r Hr. split; [done|]. unfold lower; simpl.
    pose proof (in_page_nonneg (ubucket r) (listStuckReserved platform before db)).
    pose proof (usage_nonneg db r Ha Hr). lia.
Qed.

(** *** The lifecycle of a request *)

Inductive status_step : ChatIdempotencyStatus → ChatIdempotencyStatus → Prop :=
| st_deliver : status_step reserved delivered
| st_complete_direct : status_step reserved completed
| st_complete : status_step delivered completed
| st_refund : status_step reserved refunded.

(** [r'] is what one transaction makes of [r]. *)
Definition row_step (r r' : IdempotencyRow) : Prop :=
  r' = r ∨ ∃ s, status_step (i_status r) s ∧ r' = set_status s r.

Lemma row_step_same db r r' :
  accounted db → r ∈ idem db → r' ∈ idem db → ikey r' = ikey r → row_step r r'.
Proof.
  intros Ha H1 H2 Hk. left. eapply (unique_on_eq ikey); [apply Ha|done..].
Qed.

Lemma row_step_update p s db r r' :
  accounted db → (∀ x, p x = true → status_step (i_status x) s) →
  r ∈ idem db → r' ∈ tbl_update p (set_status s) (idem db) → ikey r' = ikey r → row_step r r'.
Proof.
  intros Ha Hp H1 H2 Hk. apply elem_of_tbl_update in H2 as (r0 & Hin & Heq).
  assert (r0 = r) as ->.
  { eapply (unique_on_eq ikey); [apply Ha|done..|]. rewrite <-Hk, Heq. by destruct (p r0). }
  destruct (p r) eqn:E; subst; [|by left]. right. exists s. auto.
Qed.

Lemma row_step_refund p k reason db r r' :
  accounted db → r ∈ idem db → r' ∈ idem (refundReservedSlot p k reason db).1.1 →
  ikey r' = ikey r → row_step r r'.
Proof.
  intros Ha H1 H2 Hk. destruct (refund_cases p k reason db Ha) as [[E _]|Hr].
  { rewrite E in H2. by eapply row_step_same. }
  destruct Hr as (row & used & db' & Hin & Hkr & Hst & _ & Hi & _ & E).
  rewrite E in H2; simpl in H2. rewrite Hi in H2.
  destruct (decide (ikey r = (p, k))) as [Hkk|Hne].
  - assert (r = row) as -> by (eapply (unique_on_eq ikey); [apply Ha|done..|congruence]).
    apply elem_of_tbl_update in H2 as (r0 & Hin0 & ->). right. exists refunded.
    rewrite Hst. split; [constructor|].
    assert (r0 = row) as ->.
    { eapply (unique_on_eq ikey); [apply Ha|done..|]. rewrite <-Hk. by destruct (has_key p k r0). }
    by rewrite (proj2 (has_key_iff _ _ _) Hkk).
  - left. apply elem_of_tbl_update in H2 as (r0 & Hin0 & ->).
    destruct (has_key p k r0) eqn:E0; [apply has_key_iff in E0; simpl in Hk|].
    + exfalso. apply Hne. by rewrite <-Hk.
    + eapply (unique_on_eq ikey); [apply Ha|done..].
Qed.

Lemma ikey_if (b : bool) s x : ikey (if b then set_status s x else x) = ikey x.
Proof. by destruct b. Qed.

Lemma row_step_exec op db r r' :
  accounted db → op_clean op = true → r ∈ idem db → r' ∈ idem (exec op db) →
  ikey r' = ikey r → row_step r r'.
Proof.
  intros Ha Hc H1 H2 Hk. destruct op; simpl in *.
  - pose proof (reserve_cases platform now inp db Ha Hc) as H.
    destruct (reserveFreeFormSlotInTransaction platform now inp db) as [[db' res] hooks].
    simpl in H2. destruct H as [[-> _]|(t' & count & _ & -> & _ & Hn & _)];
      [by eapply row_step_same|].
    simpl in H2. apply elem_of_app in H2 as [H2|H2]; [by eapply row_step_same|].
    apply list_elem_of_singleton in H2 as ->. by destruct (Hn r H1).
  - by eapply row_step_refund.
  - eapply row_step_update; [done| |done..]. intros x [_ Hx]%andb_true_iff.
    apply orb_true_iff in Hx as [?|?]; bool_to_prop;
      match goal with E : i_status _ = _ |- _ => rewrite E end; constructor.
  - eapply row_step_update; [done| |done..]. intros x [_ Hx]%andb_true_iff. bool_to_prop.
    rewrite Hx. constructor.
  - unfold recoverIdempotencyForRetry in H2. pose proof (select_key platform key db) as Hsel.
    destruct (head _) as [row|]; [|by eapply row_step_same].
    destruct (i_status row); try by eapply row_step_same.
    + destruct (before <=? i_reserved_at row); [by eapply row_step_same|].
      pose proof (row_step_refund platform key stuck_recover db r r' Ha H1) as Hr.
      destruct (refundReservedSlot _ _ _ _) as [[db' [[]|]] hooks]; simpl in *;
        try by eapply row_step_same.
      apply elem_of_tbl_delete in H2 as [_ H2]. by apply Hr.
    + simpl in H2. apply elem_of_tbl_delete in H2 as [_ H2]. by eapply row_step_same.
  - pose proof (recoverAll_spec platform before db Ha) as Hs.
    destruct (recoverAllStuckReserved _ _ _) as [[db' res] hooks]. simpl in H2.
    destruct Hs as (_ & _ & _ & _ & Hi). rewrite Hi in H2.
    apply elem_of_tbl_update in H2 as (r1 & Hin1 & E1).
    apply elem_of_tbl_update in Hin1 as (r0 & Hin0 & E0).
    assert (r0 = r) as ->.
    { eapply (unique_on_eq ikey); [apply Ha|done..|].
      by rewrite <-Hk, E1, ikey_if, E0, ikey_if. }
    unfold row_step. subst r1 r'.
    destruct (stuck platform delivered before r) eqn:Ed.
    + right. exists completed. unfold stuck in Ed. bool_to_prop.
      match goal with E : i_status r = _ |- _ => rewrite E end. split; [constructor|].
      unfold stuck at 1; simpl. by rewrite andb_false_r.
    + destruct (stuck platform reserved before r) eqn:Er; [|by left].
      right. exists refunded. unfold stuck in Er. bool_to_prop.
      match goal with E : i_status r = _ |- _ => rewrite E end. split; [constructor|done].
Qed.

(** *** One-by-one recovery, the reference for the bulk statement *)

Definition refundEach (p : string) (keys : list string) (db : Db) : Db :=
  foldl (λ db k, (refundReservedSlot p k stuck_recover db).1.1) db keys.

Lemma refundEach_recorded p rows db b :
  accounted db → NoDup (ikey <$> rows) →
  (∀ r, r ∈ rows → r ∈ idem db ∧ i_platform r = p ∧ i_status r = reserved) →
  recorded b (usage (refundEach p (i_key <$> rows) db))
  = recorded b (usage db) - in_page b rows.
Proof.
  revert db. induction rows as [|r rows IH]; intros db Ha Hn Hr; simpl.
  { unfold in_page, count_by; simpl. lia. }
  apply NoDup_cons in Hn as [Hnot Hn].
  destruct (Hr r ltac:(left)) as (Hin & Hp & Hst).
  destruct (refund_cases p (i_key r) stuck_recover db Ha) as [[_ Hno]|Hx].
  { exfalso. eapply Hno; [done| |done]. unfold ikey. by rewrite Hp. }
  destruct Hx as (row & used & db' & Hinr & Hkr & _ & Ha' & Hi & Hu & E).
  rewrite E; simpl.
  assert (row = r) as ->.
  { eapply (unique_on_eq ikey); [apply Ha|done..|]. unfold ikey at 2. by rewrite Hp. }
  rewrite IH; [|done..|].
  - rewrite Hu, recorded_release; [|apply Ha|].
    + unfold in_page, count_by; simpl. rewrite <-Hp.
      change (i_platform r, i_ext r, i_date r, i_user r) with (ibucket r).
      case_decide; case_bool_decide; try congruence; lia.
    + rewrite <-Hp. change (i_platform r, i_ext r, i_date r, i_user r) with (ibucket r).
      rewrite (acc_balance _ Ha).
      pose proof (charges_pos r (idem db) Hin ltac:(by rewrite Hst)). lia.
  - intros r' Hr'. destruct (Hr r' ltac:(by right)) as (Hin' & Hp' & Hst').
    split; [|done]. rewrite Hi. apply elem_of_tbl_update. exists r'. split; [done|].
    destruct (has_key p (i_key r) r') eqn:Ek; [|done]. exfalso. apply has_key_iff in Ek.
    apply Hnot. rewrite Hkr, <-Ek. by apply list_elem_of_fmap_2.
Qed.

(** ** Main properties *)

(** C1. The books balance. Starting from empty tables with the owner-aware indexes
    of the migrated schema, after any sequence of committed transactions of any
    platform whose channel ids hold no colon and whose dates are ISO dates, the
    daily counter of every bucket is the number of requests charged to it, i.e. of
    its idempotency rows that are not refunded. *)
Theorem quota_books_balance (ls : list ActiveLink) (ops : list QuotaOp)
    (Hclean : Forall (λ op, op_clean op = true) ops) (b : Bucket) :
  recorded b (usage (run ops (empty_db ls))) = charges b (idem (run ops (empty_db ls))).
Proof. apply accounted_run; [apply accounted_empty|done]. Qed.

(** C10. The daily limit: when every reservation is made with the limit [L], no
    learner ever exceeds [L] across all platforms, and no anonymous channel
    exceeds [L] (a first message of the day is always admitted). *)
Theorem quota_daily_limit (L : Z) (ls : list ActiveLink) (ops : list QuotaOp)
    (HL : 0 ≤ L)
    (Hclean : Forall (λ op, op_clean op = true) ops)
    (Hlim : Forall (λ op, op_limit L op = true) ops) :
  let db := run ops (empty_db ls) in
  (∀ date uid, learnerUsage date uid db ≤ L)
  ∧ ∀ p e d, recorded (p, e, d, None) (usage db) ≤ Z.max 1 L.
Proof.
  assert (∀ db, accounted db → within_limit L db → within_limit L (run ops db)) as Hgen.
  { induction Hclean as [|op ops Hop Hc IH]; intros db Ha Hw; [done|].
    apply Forall_cons in Hlim as [Hl Hlim]. simpl.
    apply IH; [done|by apply accounted_exec|by apply within_limit_exec]. }
  apply Hgen; [apply accounted_empty|]. split.
  - intros date uid. done.
  - intros p e d. unfold recorded; simpl. lia.
Qed.

(** Refund is the exact inverse of reserve, once: on a balanced database a
    refund that follows a successful reservation of the same key succeeds,
    brings every counter back to its value before the reservation, and a second
    refund of the key changes nothing. *)
Theorem reserve_refund_roundtrip (p : string) (now : Z) (inp : ReserveFreeFormSlotInput)
    (db db1 : Db) (n : Z) (hooks : list HookEvent)
    (Hacc : accounted db) (Hclean : clean_ids (r_ext inp) (r_date inp) = true)
    (Hres : reserveFreeFormSlotInTransaction p now inp db = (db1, Ok (Reserved n), hooks)) :
  let '(db2, r2, _) := refundReservedSlot p (r_key inp) send_failed db1 in
  r2 = Ok true
  ∧ (∀ b, recorded b (usage db2) = recorded b (usage db))
  ∧ refundReservedSlot p (r_key inp) send_failed db2 = (db2, Ok false, []).
Proof.
  pose proof (reserve_cases p now inp db Hacc Hclean) as H. rewrite Hres in H.
  destruct H as [(_ & _ & [[? _]|[?|[? ?]]])|(t' & c & _ & -> & Ha1 & Hn & Hr & _)]; try done.
  set (db1 := with_usage t' (with_idem (idem db ++ [new_row p now inp]) db)) in *.
  assert (new_row p now inp ∈ idem db1) as Hin by (simpl; set_solver).
  destruct (refund_cases p (r_key inp) send_failed db1 Ha1) as [[_ Hno]|Hx].
  { by destruct (Hno _ Hin). }
  destruct Hx as (row & used & db2 & Hinr & Hkr & Hst & Ha2 & Hi & Hu & ->).
  assert (row = new_row p now inp) as ->.
  { eapply (unique_on_eq ikey); [apply Ha1|done..]. }
  simpl in *. split; [done|]. split.
  - intros b. rewrite Hu, recorded_release; [rewrite Hr; case_decide; lia|apply Ha1|].
    rewrite Hr, decide_True by done. rewrite (acc_balance _ Hacc).
    pose proof (charges_nonneg (p, r_ext inp, r_date inp, r_user inp) (idem db)). lia.
  - destruct (refund_cases p (r_key inp) send_failed db2 Ha2) as [[-> _]|Hx]; [done|].
    destruct Hx as (row' & ? & ? & Hin' & Hk' & Hst' & _). rewrite Hi in Hin'.
    apply elem_of_tbl_update in Hin' as (r0 & _ & ->).
    destruct (has_key p (r_key inp) r0) eqn:E; [done|]. apply has_key_iff in Hk'. congruence.
Qed.

(** A delivered answer is charged for good: for a key whose row is
    [delivered] or [completed], a refund, a retry recovery and a second
    reservation all leave the database as it is, and report it. *)
Theorem delivered_charge_is_final (p k : string) (row : IdempotencyRow) (db : Db)
    (now before : Z) (inp : ReserveFreeFormSlotInput)
    (Hacc : accounted db) (Hin : row ∈ idem db) (Hkey : ikey row = (p, k))
    (Hst : i_status row = delivered ∨ i_status row = completed) (Hk : r_key inp = k) :
  refundReservedSlot p k send_failed db = (db, Ok false, [])
  ∧ recoverIdempotencyForRetry p k before db
    = (db, Ok (match i_status row with completed => Completed | _ => Delivered end), [])
  ∧ reserveFreeFormSlotInTransaction p now inp db = (db, Ok IdempotencyConflict, []).
Proof.
  split_and!.
  - destruct (refund_cases p k send_failed db Hacc) as [[-> _]|Hx]; [done|].
    destruct Hx as (r & ? & ? & Hin' & Hk' & Hst' & _).
    assert (r = row) as -> by (eapply (unique_on_eq ikey); [apply Hacc|done..|congruence]).
    destruct Hst; congruence.
  - unfold recoverIdempotencyForRetry. pose proof (select_key p k db) as Hsel.
    destruct (head _) as [r|]; [|by destruct (Hsel row Hin)]. destruct Hsel as [Hin' Hk'].
    assert (r = row) as -> by (eapply (unique_on_eq ikey); [apply Hacc|done..|congruence]).
    by destruct Hst as [->| ->].
  - unfold reserveFreeFormSlotInTransaction, tryReserveIdempotency, tbl_insert_nothing.
    rewrite Hk. destruct (tbl_exists_spec (has_key p k) (idem db)) as [_|Hno].
    + by destruct db.
    + destruct Hno. exists row. by rewrite has_key_iff.
Qed.

(** The paged bulk recovery, which groups rows through text keys, has the
    same effect on every counter as refunding the stuck rows one at a time. *)
Theorem bulk_recovery_equals_sequential (p : string) (before : Z) (db : Db) (b : Bucket)
    (Hacc : accounted db) :
  recorded b (usage (recoverAllStuckReserved p before db).1.1)
  = recorded b (usage (refundEach p (i_key <$> listStuckReserved p before db) db)).
Proof.
  rewrite refundEach_recorded; [|done| |].
  - pose proof (recoverAll_spec p before db Hacc) as H.
    destruct (recoverAllStuckReserved p before db) as [[db' res] hooks].
    by destruct H as (_ & _ & Hr & _).
  - apply (unique_on_filter ikey). apply Hacc.
  - intros r Hr. apply elem_of_tbl_select in Hr as [Hs Hr]. unfold stuck in Hs.
    by bool_to_prop.
Qed.

(** Lifecycle: a transaction changes a surviving request row only along
    reserved -> delivered -> completed, reserved -> completed or
    reserved -> refunded, and never its key, owner, date or reservation time. *)
Theorem quota_lifecycle (ls : list ActiveLink) (ops : list QuotaOp) (op : QuotaOp)
    (r r' : IdempotencyRow)
    (Hclean : Forall (λ op, op_clean op = true) (op :: ops))
    (Hin : r ∈ idem (run ops (empty_db ls)))
    (Hin' : r' ∈ idem (exec op (run ops (empty_db ls))))
    (Hkey : ikey r' = ikey r) :
  r' = r ∨ ∃ s, status_step (i_status r) s ∧ r' = set_status s r.
Proof.
  apply Forall_cons in Hclean as [Hop Hc].
  eapply row_step_exec; [|done..]. apply accounted_run; [apply accounted_empty|done].
Qed.

(** The burst window: a successful reservation leaves at most [limit]
    requests of the channel in its sliding window, whatever the schema mode. *)
Theorem reserve_respects_burst (p : string) (now limit since : Z)
    (inp : ReserveFreeFormSlotInput) (db db1 : Db) (n : Z) (hooks : list HookEvent)
    (Hlim : r_burstLimit inp = Some limit) (Hsince : r_burstSince inp = Some since)
    (Hres : reserveFreeFormSlotInTransaction p now inp db = (db1, Ok (Reserved n), hooks)) :
  countRecentReservations p (r_ext inp) since (r_burstCountsRefunded inp) db1 ≤ limit.
Proof.
  unfold reserveFreeFormSlotInTransaction in Hres.
  destruct (tryReserveIdempotency p now inp db) as [dbx ins] eqn:Et.
  destruct ins; [|done]. unfold reserveBody, burstCheck in Hres. rewrite Hlim, Hsince in Hres.
  destruct (limit <? _) eqn:Hb; [done|]. bool_to_prop.
  destruct (readUsageSchemaMode dbx); [|done].
  destruct (learnerOverLimit _ _ _ _); [done|].
  destruct (chargeUsage _ _ _ _) as [t' [row|]]; [|done]. by simplify_eq/=.
Qed.

(** ** Witnesses *)

Definition demo_input (key : string) (user : option Z) (limit : Z) : ReserveFreeFormSlotInput :=
  {| r_ext := "psid-1"; r_user := user; r_date := "2026-01-31"; r_key := key;
     r_dailyLimit := limit; r_burstLimit := Some 3; r_burstSince := Some 0;
     r_burstCountsRefunded := false |}.

(** A learner on two channels, an anonymous request, a delivery, a refund and a
    bulk recovery. *)
Definition demo_ops : list QuotaOp :=
  [OpReserve "zalo" 10 (demo_input "k1" (Some 7) 2);
   OpReserve "discord" 20 (demo_input "k2" (Some 7) 2);
   OpReserve "discord" 25 (demo_input "k3" (Some 7) 2);
   OpReserve "zalo" 30 (demo_input "k4" None 2);
   OpDeliver "zalo" "k1"; OpRefund "discord" "k2"; OpRecoverAll "zalo" 100].

Definition demo_db : Db := run demo_ops (empty_db []).

Lemma demo_accounted : accounted demo_db.
Proof. apply accounted_run; [apply accounted_empty|repeat constructor]. Qed.

Lemma quota_books_balance_witness :
  recorded ("zalo", "psid-1", "2026-01-31", Some 7) (usage demo_db) = 1
  ∧ charges ("zalo", "psid-1", "2026-01-31", Some 7) (idem demo_db) = 1.
Proof.
  rewrite <-(quota_books_balance [] demo_ops ltac:(repeat constructor)).
  split; vm_compute; reflexivity.
Defined.

Lemma quota_daily_limit_witness :
  learnerUsage "2026-01-31" 7 (run (take 3 demo_ops) (empty_db [])) = 2
  ∧ learnerUsage "2026-01-31" 7 (run (take 3 demo_ops) (empty_db [])) ≤ 2.
Proof.
  split; [vm_compute; reflexivity|].
  apply (quota_daily_limit 2 [] (take 3 demo_ops)); [lia|repeat constructor..].
Defined.

Lemma reserve_refund_roundtrip_witness :
  let r := reserveFreeFormSlotInTransaction "zalo" 200 (demo_input "k9" (Some 7) 5) demo_db in
  recorded ("zalo", "psid-1", "2026-01-31", Some 7)
    (usage (refundReservedSlot "zalo" "k9" send_failed r.1.1).1.1) = 1.
Proof.
  intros r.
  assert (r = (r.1.1, Ok (Reserved 2), r.2)) as Hr by (vm_compute; reflexivity).
  pose proof (reserve_refund_roundtrip "zalo" 200 (demo_input "k9" (Some 7) 5) demo_db
    r.1.1 2 r.2 demo_accounted eq_refl Hr) as H.
  change (r_key (demo_input "k9" (Some 7) 5)) with "k9" in H.
  destruct (refundReservedSlot "zalo" "k9" send_failed r.1.1) as [[db2 r2] h2].
  destruct H as (_ & H & _). simpl. rewrite H. vm_compute. reflexivity.
Defined.

Lemma delivered_charge_is_final_witness :
  refundReservedSlot "zalo" "k1" send_failed demo_db = (demo_db, Ok false, []).
Proof.
  apply (delivered_charge_is_final "zalo" "k1"
    (mkIdem "k1" "zalo" "psid-1" (Some 7) "2026-01-31" completed 10) demo_db 0 0
    (demo_input "k1" None 2)); [apply demo_accounted| |reflexivity|right; reflexivity|reflexivity].
  vm_compute. left.
Defined.

Lemma bulk_recovery_equals_sequential_witness :
  let db := run (take 4 demo_ops) (empty_db []) in
  length (listStuckReserved "zalo" 100 db) = 2%nat
  ∧ recorded ("zalo", "psid-1", "2026-01-31", Some 7)
      (usage (recoverAllStuckReserved "zalo" 100 db).1.1) = 0.
Proof.
  intros db. split; [vm_compute; reflexivity|].
  rewrite (bulk_recovery_equals_sequential "zalo" 100 db).
  - vm_compute. reflexivity.
  - apply accounted_run; [apply accounted_empty|repeat constructor].
Defined.

Lemma quota_lifecycle_witness :
  let r := mkIdem "k1" "zalo" "psid-1" (Some 7) "2026-01-31" delivered 10 in
  row_step r (mkIdem "k1" "zalo" "psid-1" (Some 7) "2026-01-31" completed 10).
Proof.
  intros r.
  apply (quota_lifecycle [] (take 6 demo_ops) (OpRecoverAll "zalo" 100) r
    (mkIdem "k1" "zalo" "psid-1" (Some 7) "2026-01-31" completed 10)).
  - repeat constructor.
  - vm_compute. left.
  - vm_compute. left.
  - reflexivity.
Defined.

Lemma reserve_respects_burst_witness :
  let r := reserveFreeFormSlotInTransaction "zalo" 200 (demo_input "k9" (Some 7) 5) demo_db in
  countRecentReservations "zalo" "psid-1" 0 false r.1.1 = 2
  ∧ countRecentReservations "zalo" "psid-1" 0 false r.1.1 ≤ 3.
Proof.
  intros r. split; [vm_compute; reflexivity|].
  apply (reserve_respects_burst "zalo" 200 3 0 (demo_input "k9" (Some 7) 5) demo_db r.1.1 2 r.2);
    vm_compute; reflexivity.
Defined.

(** A daily limit of zero (which the non-strict configuration accepts) denies a
    learner but admits the first message of an anonymous channel: the INSERT
    branch of the anonymous upsert is not guarded by the limit. *)
Lemma zero_limit_admits_first_anonymous :
  (reserveFreeFormSlotInTransaction "zalo" 0 (demo_input "k" None 0) (empty_db [])).1.2
    = Ok (Reserved 1)
  ∧ (reserveFreeFormSlotInTransaction "zalo" 0 (demo_input "k" (Some 7) 0) (empty_db [])).1.2
    = Ok DailyLimitExceeded.
Proof. split; vm_compute; reflexivity. Qed.

(** With a colon in the external id the bulk recovery releases no counter: the
    text key decodes to a different channel. *)
Lemma colon_id_not_released :
  let inp := {| r_ext := "a:b"; r_user := None; r_date := "2026-01-31"; r_key := "k";
                r_dailyLimit := 5; r_burstLimit := None; r_burstSince := None;
                r_burstCountsRefunded := false |} in
  let db := exec (OpReserve "zalo" 0 inp) (empty_db []) in
  recorded ("zalo", "a:b", "2026-01-31", None)
    (usage (recoverAllStuckReserved "zalo" 100 db).1.1) = 1
  ∧ charges ("zalo", "a:b", "2026-01-31", None)
      (idem (recoverAllStuckReserved "zalo" 100 db).1.1) = 0.
Proof. split; vm_compute; reflexivity. Qed.

End Quota.
