(* ===== verification/RateLimit.v ===== *)
(** * The quota engine (packages/chat-metering, chat-rate-limit)

    [ChatRateLimitCore] reserves a slot in two stages: an advisory burst counter
    behind the [BurstCounterPort] interface (Redis, or a read of PostgreSQL),
    then the authoritative transaction of the quota repository.  The interface
    is the type class [BurstCounter]; what the engine relies on is
    [BurstCounterLaws], which both implementations satisfy. *)

From S2P Require Import Prelude Table QuotaRepository.
Import Quota.

Module RateLimit.

Definition CHAT_BURST_WINDOW_MS : Z := 60000.
Definition DEFAULT_STUCK_RESERVED_MS : Z := 600000.

(** ** The burst counter port *)

Record BurstReservationResult := {
  b_allowed : bool;
  b_count : Z;
  b_transactional : bool
}.

Class BurstCounter (S : Type) := {
  tryReserveBurst : Z → string → Z → Db → S → S * BurstReservationResult;
  releaseReservation : Z → string → S → S;
  getBurstCount : Z → string → Db → S → Z
}.

(** What a working counter promises for well-formed ids: a refused attempt
    leaves every count as it was, and a release in the same window takes exactly
    the admitted attempt back.  The database [d] the count is read against is
    the same on both sides: the laws are about the counter's own state. *)
Class BurstCounterLaws (S : Type) `{BurstCounter S} (working : S → Prop) := {
  try_refused_neutral now u v limit db d s :
    working s → no_colon u = true → no_colon v = true →
    b_allowed (tryReserveBurst now u limit db s).2 = false →
    getBurstCount now v d (tryReserveBurst now u limit db s).1 = getBurstCount now v d s;
  release_undoes now now' u v limit db d s :
    working s → no_colon u = true → no_colon v = true →
    now / CHAT_BURST_WINDOW_MS = now' / CHAT_BURST_WINDOW_MS →
    b_allowed (tryReserveBurst now u limit db s).2 = true →
    getBurstCount now v d (releaseReservation now' u (tryReserveBurst now u limit db s).1)
    = getBurstCount now v d s
}.

(** ** The PostgreSQL counter (postgres-burst-counter.ts)

    It keeps no state of its own. *)

Section Postgres.
Context (platform : string) (includeRefunded : bool).

Definition pgCount (now : Z) (u : string) (db : Db) : Z :=
  countRecentReservations platform u (now - CHAT_BURST_WINDOW_MS) includeRefunded db.

Definition pgTryReserve (now : Z) (u : string) (limit : Z) (db : Db) (s : unit)
  : unit * BurstReservationResult :=
  let count := pgCount now u db in
  (s, {| b_allowed := count <? limit; b_count := count; b_transactional := true |}).

#[local] Instance PostgresBurstCounter : BurstCounter unit := {|
  tryReserveBurst := pgTryReserve;
  releaseReservation := λ _ _ s, s;
  getBurstCount := λ now u db _, pgCount now u db
|}.

#[local] Instance postgres_laws : BurstCounterLaws unit (λ _, True).
Proof. by split. Qed.
End Postgres.

(** ** The Redis counter (redis-burst-counter.ts)

    The keys carry the bucket number, and a key lives longer (120 s) than the
    window it counts (60 s), so expiry only reclaims keys that are never read
    again; the store is the plain map of the live integer keys.  [client] is
    whether [getNativeClient()] returns one, [evalOk] whether its calls
    succeed rather than throw. *)

Record RedisState := mkRedis {
  client : bool;
  evalOk : bool;
  store : gmap string Z
}.

Section Redis.
Context (platform : string) (legacyRead : bool).

Definition currentBucket (now : Z) : Z := now / CHAT_BURST_WINDOW_MS.

Definition buildRedisBurstKey (u : string) (bucket : Z) : string :=
  "burst:" +:+ platform +:+ ":" +:+ u +:+ ":" +:+ print_int bucket.

Definition buildLegacyRedisBurstKey (u : string) (bucket : Z) : string :=
  "burst:" +:+ u +:+ ":" +:+ print_int bucket.

Definition incr (k : string) (m : gmap string Z) : gmap string Z * Z :=
  let n := default 0 (m !! k) + 1 in (<[k := n]> m, n).

Definition decr (k : string) (m : gmap string Z) : gmap string Z * Z :=
  let n := default 0 (m !! k) - 1 in (<[k := n]> m, n).

(** The legacy-key migration at the head of the reserve script. *)
Definition migrate (k1 k2 : string) (m : gmap string Z) : gmap string Z :=
  if bool_decide (k1 = k2) then m
  else match m !! k1, m !! k2 with
       | None, Some legacy => delete k2 (<[k1 := legacy]> m)
       | _, _ => m
       end.

(** The reserve script: increment, and undo when over the limit. *)
Definition reserveScript (k1 k2 : string) (limit : Z) (m : gmap string Z)
  : gmap string Z * (bool * Z) :=
  let '(m1, count) := incr k1 (migrate k1 k2 m) in
  if limit <? count then ((decr k1 m1).1, (false, count - 1)) else (m1, (true, count)).

(** The release script. *)
Definition releaseScript (k : string) (m : gmap string Z) : gmap string Z :=
  let '(m1, remaining) := decr k m in
  if remaining <=? 0 then delete k m1 else m1.

Definition withStore (m : gmap string Z) (s : RedisState) : RedisState :=
  mkRedis (client s) (evalOk s) m.

(** [safeCount]; stored values are integers. *)
Definition safeCount (n : Z) : Z := if 0 <=? n then n else 0.

Definition redisCount (now : Z) (u : string) (s : RedisState) : Z :=
  if client s && evalOk s then
    match store s !! buildRedisBurstKey u (currentBucket now) with
    | Some n => safeCount n
    | None => if legacyRead
              then safeCount (default 0 (store s !! buildLegacyRedisBurstKey u (currentBucket now)))
              else 0
    end
  else 0.

Definition unavailable : BurstReservationResult :=
  {| b_allowed := true; b_count := 0; b_transactional := true |}.

Definition redisTryReserve (now : Z) (u : string) (limit : Z) (db : Db) (s : RedisState)
  : RedisState * BurstReservationResult :=
  if client s && evalOk s then
    let bucket := currentBucket now in
    let key := buildRedisBurstKey u bucket in
    let legacyKey := if legacyRead then buildLegacyRedisBurstKey u bucket else key in
    let '(m, (ok, count)) := reserveScript key legacyKey limit (store s) in
    (withStore m s, {| b_allowed := ok; b_count := count; b_transactional := false |})
  else (s, unavailable).

Definition redisRelease (now : Z) (u : string) (s : RedisState) : RedisState :=
  if client s && evalOk s
  then withStore (releaseScript (buildRedisBurstKey u (currentBucket now)) (store s)) s
  else s.

#[local] Instance RedisBurstCounter : BurstCounter RedisState := {|
  tryReserveBurst := redisTryReserve;
  releaseReservation := redisRelease;
  getBurstCount := λ now u _ s, redisCount now u s
|}.

(** Redis answers, and a migrated user has no legacy key left. *)
Definition redis_working (s : RedisState) : Prop :=
  client s = true ∧ evalOk s = true ∧
  (legacyRead = true → ∀ u b, no_colon u = true →
     is_Some (store s !! buildRedisBurstKey u b) →
     store s !! buildLegacyRedisBurstKey u b = None).

(** Keys of different users or kinds never collide. *)
Hypothesis platform_clean : no_colon platform = true.

Lemma split_redis_key u b :
  no_colon u = true →
  split_colon (buildRedisBurstKey u b) = ["burst"; platform; u; print_int b].
Proof.
  intros Hu. unfold buildRedisBurstKey.
  change ("burst:" +:+ ?x) with ("burst" +:+ ":" +:+ x).
  rewrite !split_app by done. by rewrite split_no_colon by apply print_no_colon.
Qed.

Lemma split_legacy_key u b :
  no_colon u = true → split_colon (buildLegacyRedisBurstKey u b) = ["burst"; u; print_int b].
Proof.
  intros Hu. unfold buildLegacyRedisBurstKey.
  change ("burst:" +:+ ?x) with ("burst" +:+ ":" +:+ x).
  rewrite !split_app by done. by rewrite split_no_colon by apply print_no_colon.
Qed.

Lemma redis_key_inj u v b :
  no_colon u = true → no_colon v = true →
  buildRedisBurstKey u b = buildRedisBurstKey v b → u = v.
Proof.
  intros Hu Hv Hk. apply (f_equal split_colon) in Hk.
  rewrite !split_redis_key in Hk by done. by injection Hk.
Qed.

Lemma legacy_key_inj u v b :
  no_colon u = true → no_colon v = true →
  buildLegacyRedisBurstKey u b = buildLegacyRedisBurstKey v b → u = v.
Proof.
  intros Hu Hv Hk. apply (f_equal split_colon) in Hk.
  rewrite !split_legacy_key in Hk by done. by injection Hk.
Qed.

Lemma redis_legacy_ne u v b :
  no_colon u = true → no_colon v = true →
  buildRedisBurstKey u b ≠ buildLegacyRedisBurstKey v b.
Proof.
  intros Hu Hv Hk. apply (f_equal split_colon) in Hk.
  by rewrite split_redis_key, split_legacy_key in Hk by done.
Qed.

(** The stored count of a user, before clamping. *)
Definition view (b : Z) (v : string) (m : gmap string Z) : Z :=
  match m !! buildRedisBurstKey v b with
  | Some n => n
  | None => if legacyRead then default 0 (m !! buildLegacyRedisBurstKey v b) else 0
  end.

Lemma redisCount_view now v s :
  client s = true → evalOk s = true →
  redisCount now v s = safeCount (view (currentBucket now) v (store s)).
Proof.
  intros Hc He. unfold redisCount, view. rewrite Hc, He. simpl.
  destruct (store s !! _); [done|]. by destruct legacyRead.
Qed.

Definition legacyOf (u : string) (b : Z) : string :=
  if legacyRead then buildLegacyRedisBurstKey u b else buildRedisBurstKey u b.

(** After the migration the user's own key holds the count, or neither does. *)
Lemma migrate_spec u b m (Hu : no_colon u = true) :
  let m' := migrate (buildRedisBurstKey u b) (legacyOf u b) m in
  default 0 (m' !! buildRedisBurstKey u b) = view b u m
  ∧ ((legacyRead = true → is_Some (m !! buildRedisBurstKey u b) →
      m !! buildLegacyRedisBurstKey u b = None) →
     legacyRead = true → m' !! buildLegacyRedisBurstKey u b = None)
  ∧ ∀ v, v ≠ u → no_colon v = true →
      m' !! buildRedisBurstKey v b = m !! buildRedisBurstKey v b
      ∧ m' !! buildLegacyRedisBurstKey v b = m !! buildLegacyRedisBurstKey v b.
Proof.
  unfold migrate, legacyOf, view. destruct legacyRead; simpl.
  2:{ rewrite bool_decide_true by done. split; [by destruct (m !! _)|]. by split. }
  rewrite bool_decide_false by by apply redis_legacy_ne.
  destruct (m !! buildRedisBurstKey u b) as [n|] eqn:E1.
  { rewrite E1. split; [done|]. split; [|done]. intros Hl _. by apply Hl. }
  destruct (m !! buildLegacyRedisBurstKey u b) as [l|] eqn:E2; simpl.
  2:{ by rewrite E1. }
  split; [|split].
  - rewrite lookup_delete_ne by (symmetry; by apply redis_legacy_ne). by rewrite lookup_insert_eq.
  - intros _ _. by rewrite lookup_delete_eq.
  - intros v Hne Hv. split.
    + rewrite lookup_delete_ne by (symmetry; by apply redis_legacy_ne).
      rewrite lookup_insert_ne; [done|]. intros Hk. by apply redis_key_inj in Hk.
    + rewrite lookup_delete_ne; [|intros Hk; by apply legacy_key_inj in Hk].
      rewrite lookup_insert_ne; [done|]. by apply redis_legacy_ne.
Qed.

(** Writing or deleting the user's own key is invisible to the others. *)
Lemma view_other u v b m m' :
  no_colon u = true → no_colon v = true → v ≠ u →
  (∀ k, k ≠ buildRedisBurstKey u b → m' !! k = m !! k) → view b v m' = view b v m.
Proof.
  intros Hu Hv Hne Hk. unfold view. rewrite !Hk; [done| |].
  - intros E. symmetry in E. by apply redis_legacy_ne in E.
  - intros E. by apply redis_key_inj in E.
Qed.

Lemma view_migrate_other u v b m :
  no_colon u = true → no_colon v = true → v ≠ u →
  view b v (migrate (buildRedisBurstKey u b) (legacyOf u b) m) = view b v m.
Proof.
  intros Hu Hv Hne. destruct (migrate_spec u b m Hu) as (_ & _ & Ho).
  destruct (Ho v Hne Hv) as [E1 E2]. unfold view. by rewrite E1, E2.
Qed.

Lemma safeCount_nonpos n : n ≤ 0 → safeCount n = 0.
Proof. intros. unfold safeCount. case_match; bool_to_prop; lia. Qed.

#[local] Instance redis_laws : BurstCounterLaws RedisState redis_working.
Proof.
  split.
  - intros now u v limit db d s (Hc & He & _) Hu Hv. simpl. unfold redisTryReserve.
    rewrite Hc, He. simpl. fold (legacyOf u (currentBucket now)). unfold reserveScript, incr, decr.
    set (b := currentBucket now). set (m := migrate _ _ _).
    destruct (limit <? _) eqn:Hl; [|done]. intros _. simpl.
    rewrite !redisCount_view by done. simpl. fold b. f_equal.
    destruct (migrate_spec u b (store s) Hu) as (Hd & _ & _). fold m in Hd.
    destruct (decide (v = u)) as [->|Hne].
    + unfold view at 1. rewrite lookup_insert_eq, lookup_insert_eq. simpl. lia.
    + rewrite (view_other u v b m); [by apply view_migrate_other|done..|].
      intros k Hk. by rewrite !lookup_insert_ne by done.
  - intros now now' u v limit db d s (Hc & He & Hno) Hu Hv Hb. simpl. unfold redisTryReserve.
    rewrite Hc, He. simpl. fold (legacyOf u (currentBucket now)). unfold reserveScript, incr.
    assert (currentBucket now' = currentBucket now) as Hb' by done.
    set (b := currentBucket now). set (m := migrate _ _ _).
    destruct (limit <? _) eqn:Hl; [done|]. intros _. simpl. unfold redisRelease. simpl.
    rewrite Hc, He. simpl. rewrite !redisCount_view by done. simpl. rewrite Hb'. fold b.
    unfold releaseScript, decr. rewrite lookup_insert_eq. simpl.
    destruct (migrate_spec u b (store s) Hu) as (Hd & Hleg & _). fold m in Hd, Hleg.
    rewrite Hd. replace (view b u (store s) + 1 - 1) with (view b u (store s)) by lia.
    destruct (decide (v = u)) as [->|Hne].
    + destruct (view b u (store s) <=? 0) eqn:Hz; bool_to_prop.
      * rewrite (safeCount_nonpos (view b u (store s))) by done. apply safeCount_nonpos.
        unfold view at 1. rewrite lookup_delete_eq. destruct legacyRead eqn:Hlr; [|lia].
        rewrite lookup_delete_ne by by apply redis_legacy_ne.
        rewrite !lookup_insert_ne by by apply redis_legacy_ne.
        rewrite Hleg by (done || (intros ? ?; by apply Hno)). done.
      * f_equal. unfold view at 1. by rewrite lookup_insert_eq.
    + f_equal. rewrite <-(view_migrate_other u v b (store s)) by done. fold m.
      apply (view_other u v b m); try done. intros k Hk.
      destruct (_ <=? 0); rewrite ?lookup_delete_ne by done; by rewrite !lookup_insert_ne by done.
Qed.
End Redis.

(** ** The engine (chat-rate-limit-core.service.ts) *)

Record ChatRateLimitSettings := {
  freeFormDailyLimit : Z;
  burstPerMinute : Z;
  burstCountsRefunded : option bool
}.

Inductive ChatQuotaDenyReason := DAILY_LIMIT | BURST_LIMIT | IDEMPOTENCY_CONFLICT.

Record ChatQuotaCheckResult := {
  q_allowed : bool;
  q_used : Z;
  q_limit : Z;
  q_remaining : Z;
  q_reason : option ChatQuotaDenyReason;
  q_usageDate : string;
  q_quotaReserved : bool
}.

Section Core.
Context {S : Type} `{BurstCounter S}.
Context (platform : string) (settings : ChatRateLimitSettings) (stuckReservedMs : Z).
(** [todayInTimezone(timezone)] at a time. *)
Context (today : Z → string).

Definition buildQuotaResult (used limit : Z) (date : string) : ChatQuotaCheckResult :=
  {| q_allowed := used <? limit; q_used := used; q_limit := limit;
     q_remaining := Z.max (limit - used) 0;
     q_reason := if limit <=? used then Some DAILY_LIMIT else None;
     q_usageDate := date; q_quotaReserved := false |}.

Definition checkQuota (now : Z) (ext : string) (user : option Z) (db : Db)
  : Result ChatQuotaCheckResult :=
  match getDailyUsageCount platform ext (today now) user db with
  | Ok used => Ok (buildQuotaResult used (freeFormDailyLimit settings) (today now))
  | Throw e => Throw e
  end.

Definition stuckReservedCutoff (now : Z) : Z := now - stuckReservedMs.

(** [reserveSlotOrRecoverOnConflict]: one retry when the conflicting key can be
    reopened. *)
Definition reserveSlotOrRecoverOnConflict (now : Z) (inp : ReserveFreeFormSlotInput) (db : Db)
  : Db * Result ReserveFreeFormSlotOutcome * list HookEvent :=
  match reserveFreeFormSlotInTransaction platform now inp db with
  | (db1, Ok IdempotencyConflict, h1) =>
    match recoverIdempotencyForRetry platform (r_key inp) (stuckReservedCutoff now) db1 with
    | (db2, Ok Reopened, h2) =>
        let '(db3, r, h3) := reserveFreeFormSlotInTransaction platform now inp db2 in
        (db3, r, h1 ++ h2 ++ h3)
    | (db2, Ok _, h2) => (db2, Ok IdempotencyConflict, h1 ++ h2)
    | (db2, Throw e, h2) => (db2, Throw e, h1 ++ h2)
    end
  | r => r
  end.

Definition slotInput (now : Z) (ext : string) (user : option Z) (key : string)
  : ReserveFreeFormSlotInput :=
  {| r_ext := ext; r_user := user; r_date := today now; r_key := key;
     r_dailyLimit := freeFormDailyLimit settings;
     r_burstLimit := Some (burstPerMinute settings);
     r_burstSince := Some (now - CHAT_BURST_WINDOW_MS);
     r_burstCountsRefunded := nullish (burstCountsRefunded settings) false |}.

Definition denied (used limit remaining : Z) (reason : ChatQuotaDenyReason) (date : string)
  : ChatQuotaCheckResult :=
  {| q_allowed := false; q_used := used; q_limit := limit; q_remaining := remaining;
     q_reason := Some reason; q_usageDate := date; q_quotaReserved := false |}.

(** The result a repository outcome is turned into. *)
Definition outcomeResult (o : ReserveFreeFormSlotOutcome) (date : string)
  : ChatQuotaCheckResult :=
  let limit := freeFormDailyLimit settings in
  match o with
  | BurstLimitExceeded n => denied n (burstPerMinute settings) 0 BURST_LIMIT date
  | DailyLimitExceeded => denied limit limit 0 DAILY_LIMIT date
  | IdempotencyConflict => denied 0 limit limit IDEMPOTENCY_CONFLICT date
  | Reserved n =>
      {| q_allowed := true; q_used := n; q_limit := limit;
         q_remaining := Z.max (limit - n) 0; q_reason := None;
         q_usageDate := date; q_quotaReserved := true |}
  end.

(** [reserveFreeFormSlot] with [reserveAndRollbackBurstOnFailure]; [now'] is
    the time of the rollback. *)
Definition reserveFreeFormSlot (now now' : Z) (ext : string) (user : option Z) (key : string)
    (db : Db) (s : S) : Db * S * Result ChatQuotaCheckResult :=
  let '(s1, burst) := tryReserveBurst now ext (burstPerMinute settings) db s in
  match reserveSlotOrRecoverOnConflict now (slotInput now ext user key) db with
  | (db1, Throw e, _) => (db1, s1, Throw e)
  | (db1, Ok o, _) =>
      let s2 := match o with
                | Reserved _ => s1
                | _ => if b_allowed burst then releaseReservation now' ext s1 else s1
                end in
      (db1, s2, Ok (outcomeResult o (today now)))
  end.

(** [refundFreeFormSlot]: the advisory counter is left alone. *)
Definition refundFreeFormSlot (key : string) (db : Db) : Db * Result bool :=
  let '(db1, r, _) := refundReservedSlot platform key send_failed db in (db1, r).

Definition markCompleted (key : string) (db : Db) : Db := (completeReservedSlot platform key db).1.
Definition markDelivered (key : string) (db : Db) : Db := (markDeliveredSlot platform key db).1.

Definition recoverStuckReservedSlots (now : Z) (db : Db) : Db * Result (list string) :=
  let '(db1, r, _) := recoverAllStuckReserved platform (stuckReservedCutoff now) db in (db1, r).

(** *** Lemmas *)

Lemma recover_recorded_le p k before db b :
  accounted db →
  recorded b (usage (recoverIdempotencyForRetry p k before db).1.1) ≤ recorded b (usage db).
Proof.
  intros Ha. unfold recoverIdempotencyForRetry. destruct (head _) as [row|]; [|simpl; lia].
  destruct (i_status row); simpl; try lia.
  destruct (before <=? i_reserved_at row); simpl; [lia|].
  destruct (refund_cases p k stuck_recover db Ha) as [[-> _]|Hx]; simpl; [lia|].
  destruct Hx as (row' & used & db' & Hin & Hk & Hst & _ & _ & Hu & ->). simpl. rewrite Hu.
  assert (p = i_platform row') as -> by (by injection Hk).
  rewrite recorded_release; [case_decide; lia|apply Ha|].
  change (i_platform row', i_ext row', i_date row', i_user row') with (ibucket row').
  rewrite (acc_balance _ Ha).
  pose proof (charges_pos row' (idem db) Hin ltac:(by rewrite Hst)). lia.
Qed.

(** The recovery never throws on a supported schema. *)
Lemma recover_ok p k before db :
  accounted db → ∃ o, (recoverIdempotencyForRetry p k before db).1.2 = Ok o.
Proof.
  intros Ha. unfold recoverIdempotencyForRetry. destruct (head _) as [row|]; [|eauto].
  destruct (i_status row); simpl; eauto.
  destruct (before <=? i_reserved_at row); simpl; [eauto|].
  destruct (refund_cases p k stuck_recover db Ha) as [[-> _]|Hx]; simpl; [eauto|].
  destruct Hx as (row' & used & db' & _ & _ & _ & _ & _ & _ & ->). simpl. eauto.
Qed.

(** What the caller has used today. *)
Definition usedToday (date ext : string) (user : option Z) (db : Db) : Z :=
  match user with
  | Some uid => learnerUsage date uid db
  | None => recorded (platform, ext, date, None) (usage db)
  end.

(** What one reservation attempt guarantees on a balanced database. *)
Definition attempt_ok (inp : ReserveFreeFormSlotInput) (db db' : Db)
    (o : ReserveFreeFormSlotOutcome) : Prop :=
  accounted db' ∧
  match o with
  | Reserved n =>
      (∃ row, row ∈ idem db' ∧ ikey row = (platform, r_key inp) ∧ i_status row = reserved
              ∧ i_user row = r_user inp)
      ∧ n = usedToday (r_date inp) (r_ext inp) (r_user inp) db'
      ∧ 1 ≤ n ≤ Z.max 1 (r_dailyLimit inp)
      ∧ (is_Some (r_user inp) → n ≤ r_dailyLimit inp)
  | _ => ∀ b, recorded b (usage db') ≤ recorded b (usage db)
  end.

Lemma learnerUsage_nonneg date uid db : accounted db → 0 ≤ learnerUsage date uid db.
Proof.
  intros Ha. apply sum_by_nonneg. intros r Hr. case_match; [|lia]. by apply (usage_nonneg db).
Qed.

Lemma reserve_attempt_ok now inp db :
  accounted db → clean_ids (r_ext inp) (r_date inp) = true →
  ∃ o, (reserveFreeFormSlotInTransaction platform now inp db).1.2 = Ok o
       ∧ attempt_ok inp db (reserveFreeFormSlotInTransaction platform now inp db).1.1 o.
Proof.
  intros Ha Hc. pose proof (reserve_cases platform now inp db Ha Hc) as Hx.
  destruct (reserveFreeFormSlotInTransaction platform now inp db) as [[db' res] hooks]. simpl.
  destruct Hx as [(-> & _ & Hres)|(t' & n & -> & Hdb & Ha' & Hf & Hr & Hw & Hl & Hn & Hlim)].
  { destruct Hres as [[-> _]|[-> |[k ->]]]; eexists; (split; [done|]); split; try done;
      intros b; lia. }
  exists (Reserved n). split; [done|]. split; [done|]. split.
  { exists (new_row platform now inp). rewrite Hdb. simpl. split_and!; try done. set_solver. }
  split.
  { rewrite Hn. unfold usedToday. destruct (r_user inp) as [uid|] eqn:Hu; [done|].
    rewrite Hdb. cbn [usage with_usage with_idem]. by rewrite Hr, decide_True. }
  rewrite Hn. destruct (r_user inp) as [uid|] eqn:Hu.
  - assert (learnerUsage (r_date inp) uid db' = learnerUsage (r_date inp) uid db + 1) as ->.
    { rewrite !learnerUsage_total, Hdb. simpl. rewrite Hw. unfold owned at 2, same_user.
      by rewrite !bool_decide_true. }
    unfold learnerOverLimit in Hl. rewrite Hu in Hl. simpl in Hl. bool_to_prop.
    pose proof (learnerUsage_nonneg (r_date inp) uid db Ha). split; [lia|]. intros _. lia.
  - pose proof (charges_nonneg (platform, r_ext inp, r_date inp, None) (idem db)) as Hp.
    rewrite <-(acc_balance _ Ha) in Hp. split; [destruct (Hlim eq_refl); lia|].
    by intros [? ?].
Qed.

Lemma slot_attempt_ok now inp db :
  accounted db → clean_ids (r_ext inp) (r_date inp) = true →
  ∃ o, (reserveSlotOrRecoverOnConflict now inp db).1.2 = Ok o
       ∧ attempt_ok inp db (reserveSlotOrRecoverOnConflict now inp db).1.1 o.
Proof.
  intros Ha Hc. unfold reserveSlotOrRecoverOnConflict.
  destruct (reserve_attempt_ok now inp db Ha Hc) as (o & Ho & Hok).
  destruct (reserveFreeFormSlotInTransaction platform now inp db) as [[db1 r1] h1].
  simpl in Ho, Hok. subst r1.
  destruct o; try by eexists.
  destruct Hok as [Ha1 Hle].
  pose proof (accounted_recover platform (r_key inp) (stuckReservedCutoff now) db1 Ha1) as Ha2.
  pose proof (λ b, recover_recorded_le platform (r_key inp) (stuckReservedCutoff now) db1 b Ha1)
    as Hle2.
  destruct (recover_ok platform (r_key inp) (stuckReservedCutoff now) db1 Ha1) as [ro Hro].
  destruct (recoverIdempotencyForRetry _ _ _ _) as [[db2 r2] h2]. simpl in Hro, Ha2, Hle2.
  subst r2.
  assert (∀ b, recorded b (usage db2) ≤ recorded b (usage db)) as Hle3.
  { intros b. specialize (Hle b). specialize (Hle2 b). lia. }
  destruct ro; try by (eexists; split; [done|split]).
  destruct (reserve_attempt_ok now inp db2 Ha2 Hc) as (o & Ho & Hok).
  destruct (reserveFreeFormSlotInTransaction platform now inp db2) as [[db3 r3] h3].
  simpl in Ho, Hok. subst r3. exists o. split; [done|]. destruct Hok as [Ha3 Hok].
  split; [done|]. destruct o; try done; intros b; specialize (Hok b); specialize (Hle3 b); simpl; lia.
Qed.

(** A fresh key within the limits is admitted. *)
Lemma reserve_admits now inp db limit since :
  accounted db → clean_ids (r_ext inp) (r_date inp) = true →
  (∀ r, r ∈ idem db → ikey r ≠ (platform, r_key inp)) →
  r_burstLimit inp = Some limit → r_burstSince inp = Some since →
  countRecentReservations platform (r_ext inp) since (r_burstCountsRefunded inp)
    (with_idem (idem db ++ [new_row platform now inp]) db) ≤ limit →
  match r_user inp with
  | Some uid => learnerUsage (r_date inp) uid db
  | None => recorded (platform, r_ext inp, r_date inp, None) (usage db)
  end < r_dailyLimit inp →
  ∃ n, (reserveFreeFormSlotInTransaction platform now inp db).1.2 = Ok (Reserved n).
Proof.
  intros Ha Hc Hf Hbl Hbs Hb Hu.
  unfold reserveFreeFormSlotInTransaction, tryReserveIdempotency, tbl_insert_nothing.
  fold (new_row platform now inp).
  destruct (tbl_exists_spec (has_key platform (r_key inp)) (idem db)) as [(r & Hin & Hk)|_]; simpl.
  { apply has_key_iff in Hk. by destruct (Hf r Hin). }
  unfold reserveBody, burstCheck. rewrite Hbl, Hbs.
  destruct (limit <? _) eqn:Hlt; [bool_to_prop; lia|].
  change (readUsageSchemaMode _) with (readUsageSchemaMode db).
  rewrite (acc_schema _ Ha). unfold learnerOverLimit, chargeUsage.
  destruct (r_user inp) as [uid|] eqn:Hus; simpl.
  - change (learnerUsage _ _ (with_idem _ _)) with (learnerUsage (r_date inp) uid db).
    destruct (_ <=? _) eqn:Hle; [bool_to_prop; lia|].
    unfold tbl_upsert. destruct (head _); simpl; eauto.
  - unfold tbl_upsert. destruct (head _) as [old|] eqn:Hh; simpl; [|eauto].
    apply tbl_select_head in Hh as [Hin Hbk]. apply in_bucket_iff in Hbk.
    rewrite <-Hbk, recorded_row in Hu by (done || apply Ha).
    destruct (u_count old <? _) eqn:Hlt'; [simpl; eauto|bool_to_prop; lia].
Qed.

(** A key the engine will not run again. *)
Definition settled (now : Z) (row : IdempotencyRow) : Prop :=
  i_status row = completed ∨ i_status row = delivered
  ∨ (i_status row = reserved ∧ stuckReservedCutoff now ≤ i_reserved_at row).

(** A conflict is reported for every key already in the table, without a write. *)
Lemma reserve_conflict now inp db row :
  row ∈ idem db → ikey row = (platform, r_key inp) →
  reserveFreeFormSlotInTransaction platform now inp db = (db, Ok IdempotencyConflict, []).
Proof.
  intros Hin Hk. unfold reserveFreeFormSlotInTransaction, tryReserveIdempotency,
    tbl_insert_nothing.
  destruct (tbl_exists_spec (has_key platform (r_key inp)) (idem db)) as [_|Hno]; simpl.
  { by destruct db. }
  destruct Hno. exists row. by rewrite has_key_iff.
Qed.

Lemma select_unique db row k :
  accounted db → row ∈ idem db → ikey row = (platform, k) →
  head (tbl_select (has_key platform k) (idem db)) = Some row.
Proof.
  intros Ha Hin Hk. pose proof (select_key platform k db) as Hs.
  destruct (head _) as [row'|]; [|by destruct (Hs row)]. destruct Hs as [Hin' Hk'].
  f_equal. eapply unique_on_eq; [apply (acc_idem_unique _ Ha)|done..|]. congruence.
Qed.

Lemma count_delete (p q : IdempotencyRow → bool) t :
  count_by q (tbl_delete p t) ≤ count_by q t.
Proof.
  unfold count_by. rewrite tbl_delete_sum.
  assert (0 ≤ sum_by (λ r, if p r then if q r then 1 else 0 else 0) t); [|lia].
  apply sum_by_nonneg. intros x _. by destruct (p x), (q x).
Qed.

(** ** Theorems *)

(** A request the engine refuses (burst limit, daily limit or duplicate)
    leaves the advisory burst count of every user as it found it, for every
    counter that keeps the port's laws, when the rollback runs in the window
    of the attempt. *)
Theorem refused_slot_leaves_burst `{!BurstCounterLaws S working}
    now now' ext v user key db d s db' s' r
    (Hw : working s) (Hext : no_colon ext = true) (Hv : no_colon v = true)
    (Hsame : now / CHAT_BURST_WINDOW_MS = now' / CHAT_BURST_WINDOW_MS)
    (Hrun : reserveFreeFormSlot now now' ext user key db s = (db', s', Ok r))
    (Hdenied : q_allowed r = false) :
  getBurstCount now v d s' = getBurstCount now v d s.
Proof.
  unfold reserveFreeFormSlot in Hrun.
  pose proof (release_undoes now now' ext v (burstPerMinute settings) db d s Hw Hext Hv Hsame) as Hun.
  pose proof (try_refused_neutral now ext v (burstPerMinute settings) db d s Hw Hext Hv) as Hno.
  destruct (tryReserveBurst _ _ _ _ _) as [s1 burst]. simpl in Hun, Hno.
  destruct (reserveSlotOrRecoverOnConflict _ _ _) as [[db1 [o|e]] h]; [|done].
  destruct o; simplify_eq/=; destruct (b_allowed burst); auto.
Qed.

(** C22. On a balanced database and for ids without a colon, the engine never throws,
    keeps the books balanced and reports truthfully: an admitted request owns a
    reserved row, its reported use is what the counters of the learner over all
    platforms, or of the account without one, hold for the day after the reservation,
    at least one and within the limit of a linked learner, and [remaining] is what is
    left of the limit; a refused one carries a reason and raises no counter. *)
Theorem reserveFreeFormSlot_outcome now now' ext user key db s
    (Hacc : accounted db) (Hclean : clean_ids ext (today now) = true) :
  ∃ db' s' r, reserveFreeFormSlot now now' ext user key db s = (db', s', Ok r)
    ∧ accounted db' ∧ q_quotaReserved r = q_allowed r
    ∧ (q_allowed r = true →
         (∃ row, row ∈ idem db' ∧ ikey row = (platform, key) ∧ i_status row = reserved
                 ∧ i_user row = user)
         ∧ q_used r = usedToday (today now) ext user db'
         ∧ 1 ≤ q_used r ∧ (is_Some user → q_used r ≤ q_limit r)
         ∧ q_limit r = freeFormDailyLimit settings
         ∧ q_remaining r = Z.max (q_limit r - q_used r) 0 ∧ q_reason r = None)
    ∧ (q_allowed r = false →
         is_Some (q_reason r) ∧ ∀ b, recorded b (usage db') ≤ recorded b (usage db)).
Proof.
  unfold reserveFreeFormSlot. destruct (tryReserveBurst _ _ _ _ _) as [s1 burst].
  destruct (slot_attempt_ok now (slotInput now ext user key) db Hacc Hclean) as (o & Ho & Ha & Hok).
  destruct (reserveSlotOrRecoverOnConflict _ _ _) as [[db1 r1] h]. simpl in *. subst r1.
  destruct o; do 3 eexists; split_and!; try done; simpl in *; try done.
  intros _. destruct Hok as (Hrow & Hused & Hn & Hlim). split_and!; try done. lia.
Qed.

(** A duplicate of a message that is completed, delivered or still in
    flight is answered [IDEMPOTENCY_CONFLICT] and writes nothing: the learner
    is never charged twice for one key. *)
Theorem duplicate_never_charged now now' ext user key db s row
    (Hacc : accounted db) (Hin : row ∈ idem db) (Hk : ikey row = (platform, key))
    (Hset : settled now row) :
  let '(db', _, r) := reserveFreeFormSlot now now' ext user key db s in
  db' = db ∧ ∃ q, r = Ok q ∧ q_allowed q = false ∧ q_reason q = Some IDEMPOTENCY_CONFLICT.
Proof.
  unfold reserveFreeFormSlot. destruct (tryReserveBurst _ _ _ _ _) as [s1 burst].
  unfold reserveSlotOrRecoverOnConflict.
  rewrite (reserve_conflict now (slotInput now ext user key) db row Hin Hk). simpl.
  unfold recoverIdempotencyForRetry. rewrite (select_unique db row key Hacc Hin Hk).
  destruct Hset as [->|[->|[-> Hle]]]; [eauto..|].
  rewrite (proj2 (Z.leb_le _ _) Hle). eauto.
Qed.

(** A message whose reservation was refunded can be sent again: within the
    daily and the burst limit the retry is admitted and charged once. *)
Theorem refunded_message_can_retry now now' ext user key db s row
    (Hacc : accounted db) (Hclean : clean_ids ext (today now) = true)
    (Hin : row ∈ idem db) (Hk : ikey row = (platform, key)) (Hst : i_status row = refunded)
    (Hburst : countRecentReservations platform ext (now - CHAT_BURST_WINDOW_MS)
                (nullish (burstCountsRefunded settings) false) db < burstPerMinute settings)
    (Hused : usedToday (today now) ext user db < freeFormDailyLimit settings) :
  ∃ db' s' r, reserveFreeFormSlot now now' ext user key db s = (db', s', Ok r)
    ∧ q_allowed r = true ∧ q_used r = usedToday (today now) ext user db + 1.
Proof.
  unfold reserveFreeFormSlot. destruct (tryReserveBurst _ _ _ _ _) as [s1 burst].
  set (inp := slotInput now ext user key). set (db2 := deleteKey platform key db).
  assert (accounted db2) as Hacc2.
  { apply accounted_deleteKey; [done|]. intros r Hr Hkr. rewrite <-Hst. f_equal.
    eapply unique_on_eq; [apply (acc_idem_unique _ Hacc)|done..|]. congruence. }
  destruct (reserve_admits now inp db2 (burstPerMinute settings) (now - CHAT_BURST_WINDOW_MS))
    as [n Hn]; try done.
  { intros r. simpl. rewrite elem_of_tbl_delete. intros [Hf _] Hkr.
    apply has_key_iff in Hkr. simpl in Hkr. congruence. }
  { unfold countRecentReservations in *. simpl. rewrite count_by_app.
    pose proof (count_delete (has_key platform key)
      (in_burst platform ext (now - CHAT_BURST_WINDOW_MS)
         (nullish (burstCountsRefunded settings) false)) (idem db)).
    unfold count_by at 2. simpl. case_match; lia. }
  pose proof (reserve_cases platform now inp db2 Hacc2 Hclean) as Hx.
  unfold reserveSlotOrRecoverOnConflict. rewrite (reserve_conflict now inp db row Hin Hk).
  unfold recoverIdempotencyForRetry.
  rewrite (select_unique db row (r_key inp) Hacc Hin Hk), Hst. change (deleteKey platform (r_key inp) db) with db2.
  destruct (reserveFreeFormSlotInTransaction platform now inp db2) as [[db3 r3] h3].
  simpl in Hn. subst r3.
  do 3 eexists. split; [done|]. split; [done|]. simpl.
  destruct Hx as [(_ & _ & [[? _]|[?|[? ?]]])|(t & c & ? & Hdb & _ & _ & _ & Hw & _ & Hc & _)];
    simplify_eq.
  unfold usedToday. destruct user as [uid|]; [|done]. simpl.
  rewrite !learnerUsage_total. simpl. rewrite Hw. unfold owned at 2, same_user.
  by rewrite !bool_decide_true.
Qed.
End Core.

(** ** Witnesses *)

Definition demo_settings (daily burst : Z) : ChatRateLimitSettings :=
  {| freeFormDailyLimit := daily; burstPerMinute := burst; burstCountsRefunded := None |}.

Definition demo_today (_ : Z) : string := "2026-01-31".

Definition demo_redis : RedisState := mkRedis true true {["burst:zalo:psid-1:0" := 1]}.

Definition demo_reserve (daily burst : Z) (user : option Z) (key : string) (now : Z) :=
  @reserveFreeFormSlot RedisState (RedisBurstCounter "zalo" false) "zalo"
    (demo_settings daily burst) 50 demo_today now now "psid-1" user key demo_db demo_redis.

(** A refused request takes its Redis increment back: 1 before, 1 after. *)
Lemma refused_slot_leaves_burst_witness :
  redisCount "zalo" false 200 "psid-1" (demo_reserve 1 5 (Some 7) "k9" 200).1.2 = 1.
Proof.
  pose proof (@refused_slot_leaves_burst RedisState (RedisBurstCounter "zalo" false) "zalo"
    (demo_settings 1 5) 50 demo_today (redis_working "zalo" false)
    (redis_laws "zalo" false eq_refl) 200 200 "psid-1" "psid-1" (Some 7) "k9" demo_db demo_db
    demo_redis
    (demo_reserve 1 5 (Some 7) "k9" 200).1.1 (demo_reserve 1 5 (Some 7) "k9" 200).1.2
    (denied 1 1 0 DAILY_LIMIT "2026-01-31")) as H.
  transitivity (redisCount "zalo" false 200 "psid-1" demo_redis); [|vm_compute; reflexivity].
  apply H; [split; [reflexivity|split; [reflexivity|discriminate]]
           |reflexivity|reflexivity|reflexivity|vm_compute; reflexivity|reflexivity].
Defined.

Lemma reserveFreeFormSlot_outcome_witness :
  ∃ db' s' r, demo_reserve 5 5 (Some 7) "k9" 200 = (db', s', Ok r) ∧ q_allowed r = true
    ∧ q_used r = usedToday "zalo" "2026-01-31" "psid-1" (Some 7) db' ∧ q_used r ≤ 5.
Proof.
  destruct (@reserveFreeFormSlot_outcome RedisState (RedisBurstCounter "zalo" false) "zalo"
    (demo_settings 5 5) 50 demo_today 200 200 "psid-1" (Some 7) "k9" demo_db demo_redis
    demo_accounted eq_refl) as (db' & s' & r & Hrun & _ & _ & Hok & _).
  exists db', s', r. split; [exact Hrun|].
  assert (q_allowed r = true) as Ha.
  { assert ((demo_reserve 5 5 (Some 7) "k9" 200).2 = Ok r) as E
      by (unfold demo_reserve; by rewrite Hrun).
    revert E. vm_compute. intros E. by injection E as <-. }
  split; [done|]. destruct (Hok Ha) as (_ & Hused & _ & Hle & Hl & _). split; [exact Hused|]. rewrite Hl in Hle.
  by apply Hle; eexists.
Defined.

Lemma duplicate_never_charged_witness :
  (demo_reserve 5 5 (Some 7) "k1" 200).1.1 = demo_db.
Proof.
  pose proof (@duplicate_never_charged RedisState (RedisBurstCounter "zalo" false) "zalo"
    (demo_settings 5 5) 50 demo_today 200 200 "psid-1" (Some 7) "k1" demo_db demo_redis
    (mkIdem "k1" "zalo" "psid-1" (Some 7) "2026-01-31" completed 10) demo_accounted) as H.
  unfold demo_reserve. destruct (reserveFreeFormSlot _ _ _ _ _ _ _ _ _ _ _) as [[db' s'] r].
  simpl. apply H; [|reflexivity|by left].
  assert (idem demo_db = idem demo_db) as _ by done.
  vm_compute. repeat (left || right).
Defined.

(** Anonymous message "k4" was refunded by the bulk recovery; it is retried. *)
Lemma refunded_message_can_retry_witness :
  ∃ db' s' r, demo_reserve 5 5 None "k4" 200 = (db', s', Ok r) ∧ q_allowed r = true
    ∧ q_used r = 1.
Proof.
  apply (@refunded_message_can_retry RedisState (RedisBurstCounter "zalo" false) "zalo"
    (demo_settings 5 5) 50 demo_today 200 200 "psid-1" None "k4" demo_db demo_redis
    (mkIdem "k4" "zalo" "psid-1" None "2026-01-31" refunded 30) demo_accounted);
    [reflexivity| |reflexivity|reflexivity|vm_compute; reflexivity|vm_compute; reflexivity].
  vm_compute. repeat (left || right).
Defined.

(** ** Findings *)

(** When Redis is down the attempt counts as held although nothing was
    incremented; if Redis is back when the request is refused, the rollback
    takes away an increment of an earlier request. *)
Lemma unheld_reservation_released :
  let down := mkRedis true false {["burst:zalo:psid-1:0" := 2]} in
  let r := redisTryReserve "zalo" false 200 "psid-1" 5 demo_db down in
  b_allowed r.2 = true
  ∧ redisCount "zalo" false 300 "psid-1" (mkRedis true true (store r.1)) = 2
  ∧ redisCount "zalo" false 300 "psid-1"
      (redisRelease "zalo" 300 "psid-1" (mkRedis true true (store r.1))) = 1.
Proof. split; [reflexivity|]. split; vm_compute; reflexivity. Qed.

End RateLimit.
