(* ===== verification/WriteBudget.v ===== *)
(** * The daily budget of mutating tools (packages/chat-metering, write-tool-budget)

    [WriteToolBudgetRepository] counts the uses of a tool per platform, learner
    and day in one table; [WriteToolBudgetCore] decides whom the cap applies to.
    Each repository call is one SQL statement, so any interleaving of processes
    is a sequence of the operations below. *)

From S2P Require Import Prelude Table.

Module WriteBudget.

(** A row of [chat_tool_daily_usage]. *)
Record ToolUsageRow := mkToolUsage {
  t_platform : string;
  t_ext : string;
  t_user : Z;
  t_date : string;
  t_tool : string;
  t_count : Z
}.

Record WriteToolBudgetSettings := {
  enabled : bool;
  dailyCaps : gmap string Z;
  perMessageCaps : gmap string Z;
  whitelist : gset string
}.

Record WriteToolBudgetConsumeResult := { ok : bool; count : Z }.

(** [positiveIntOr]; [value] is [Number(raw)]. *)
Definition positiveIntOr (value : jsnum) (fallback : Z) : Z :=
  if js_is_finite value && js_pos value then default fallback (js_floor value) else fallback.

(** The flag: unset or empty means enabled. *)
Definition enabledFlag (raw : option string) : bool :=
  match raw with
  | Some s => if bool_decide (s = "") then true else negb (bool_decide (s ∈ ["false"; "0"; "no"]))
  | None => true
  end.

(** The caps of [readWriteToolBudgetConfig]; the four arguments are the parsed
    environment values. *)
Definition readCaps (reschedule precreate : jsnum) (dReschedule dPrecreate : Z) : gmap string Z :=
  {["reschedule_study_session" := positiveIntOr reschedule dReschedule;
    "precreate_next_exercise" := positiveIntOr precreate dPrecreate]}.

Section Repository.
Context (platform : string).

(** The rows of the unique index key. *)
Definition at_key (user : Z) (date tool : string) (r : ToolUsageRow) : bool :=
  bool_decide (t_platform r = platform) && bool_decide (t_user r = user)
  && bool_decide (t_date r = date) && bool_decide (t_tool r = tool).

Definition getDailyCount (user : Z) (date tool : string) (t : list ToolUsageRow) : Z :=
  match head (tbl_select (at_key user date tool) t) with Some r => t_count r | None => 0 end.

Definition bumpRow (ext : string) (r : ToolUsageRow) : ToolUsageRow :=
  mkToolUsage (t_platform r) ext (t_user r) (t_date r) (t_tool r) (t_count r + 1).

Definition lowerRow (r : ToolUsageRow) : ToolUsageRow :=
  mkToolUsage (t_platform r) (t_ext r) (t_user r) (t_date r) (t_tool r) (Z.max (t_count r - 1) 0).

Definition tryConsumeDaily (ext : string) (user : Z) (date tool : string) (dailyCap : Z)
    (t : list ToolUsageRow) : list ToolUsageRow * WriteToolBudgetConsumeResult :=
  match tbl_upsert (at_key user date tool) (λ r, t_count r <? dailyCap) (bumpRow ext)
          (mkToolUsage platform ext user date tool 1) t with
  | (t', Some row) => (t', {| ok := true; count := t_count row |})
  | (t', None) => (t', {| ok := false; count := getDailyCount user date tool t' |})
  end.

Definition repoRefundDaily (user : Z) (date tool : string) (t : list ToolUsageRow)
  : list ToolUsageRow :=
  tbl_update (at_key user date tool) lowerRow t.

(** ** The engine *)

Context (settings : WriteToolBudgetSettings) (today : Z → string).

Definition capFor (ext tool : string) : option Z :=
  if negb (enabled settings) then None
  else if bool_decide (ext ∈ whitelist settings) then None
  else dailyCaps settings !! tool.

Definition getPerMessageCap (tool : string) : option Z := perMessageCaps settings !! tool.

Definition checkDailyAllowed (now : Z) (ext : string) (user : Z) (tool : string)
    (t : list ToolUsageRow) : bool :=
  match capFor ext tool with
  | None => true
  | Some cap => negb (cap <=? getDailyCount user (today now) tool t)
  end.

Definition consumeDaily (now : Z) (ext : string) (user : Z) (tool : string)
    (t : list ToolUsageRow) : list ToolUsageRow * bool :=
  match capFor ext tool with
  | None => (t, true)
  | Some cap => let '(t', r) := tryConsumeDaily ext user (today now) tool cap t in (t', ok r)
  end.

(** [refundDaily] does not know the external id, hence not the whitelist. *)
Definition refundDaily (now : Z) (user : Z) (tool : string) (t : list ToolUsageRow)
  : list ToolUsageRow :=
  if negb (enabled settings) then t
  else match dailyCaps settings !! tool with
       | None => t
       | Some _ => repoRefundDaily user (today now) tool t
       end.

(** *** Lemmas *)

Lemma at_key_bump u d tool ext r : at_key u d tool (bumpRow ext r) = at_key u d tool r.
Proof. done. Qed.
Lemma at_key_lower u d tool r : at_key u d tool (lowerRow r) = at_key u d tool r.
Proof. done. Qed.

Lemma at_key_iff u d tool r :
  at_key u d tool r = true
  ↔ (t_platform r, t_user r, t_date r, t_tool r) = (platform, u, d, tool).
Proof.
  unfold at_key. rewrite !andb_true_iff, !bool_decide_eq_true. split; [intros; naive_solver|].
  intros [= -> -> -> ->]. done.
Qed.

Lemma count_update f u d tool u' d' tool' t :
  (∀ x y z r, at_key x y z (f r) = at_key x y z r) →
  getDailyCount u' d' tool' (tbl_update (at_key u d tool) f t)
  = if decide ((u', d', tool') = (u, d, tool))
    then match head (tbl_select (at_key u d tool) t) with
         | Some r => t_count (f r) | None => 0 end
    else getDailyCount u' d' tool' t.
Proof.
  intros Hf. unfold getDailyCount. case_decide as E.
  - injection E as -> -> ->. rewrite tbl_select_update_same by (intros; apply Hf).
    by destruct (tbl_select _ t).
  - rewrite tbl_select_update_other; [done|intros; apply Hf|].
    intros r H1. apply not_true_is_false. intros H2. apply at_key_iff in H1, H2.
    apply E. congruence.
Qed.

Lemma count_insert u d tool u' d' tool' ext t :
  head (tbl_select (at_key u d tool) t) = None →
  getDailyCount u' d' tool' (t ++ [mkToolUsage platform ext u d tool 1])
  = if decide ((u', d', tool') = (u, d, tool)) then 1 else getDailyCount u' d' tool' t.
Proof.
  intros Hn. unfold getDailyCount, tbl_select in *. rewrite filter_app. case_decide as E.
  - injection E as -> -> ->. destruct (filter _ t); [|done]. simpl.
    rewrite filter_cons_True by by apply at_key_iff. done.
  - rewrite filter_cons_False, filter_nil, app_nil_r; [done|].
    intros H. apply at_key_iff in H. simpl in H. apply E. congruence.
Qed.

(** What a consume does to the counts. *)
Lemma tryConsume_spec ext u d tool cap t :
  1 ≤ cap →
  let '(t', r) := tryConsumeDaily ext u d tool cap t in
  ok r = (getDailyCount u d tool t <? cap)
  ∧ count r = getDailyCount u d tool t'
  ∧ ∀ u' d' tool', getDailyCount u' d' tool' t'
      = getDailyCount u' d' tool' t
        + (if decide ((u', d', tool') = (u, d, tool)) then if ok r then 1 else 0 else 0).
Proof.
  intros Hcap. unfold tryConsumeDaily, tbl_upsert.
  destruct (head (tbl_select (at_key u d tool) t)) as [old|] eqn:Hh.
  - assert (getDailyCount u d tool t = t_count old) as Hg by (unfold getDailyCount; by rewrite Hh).
    destruct (t_count old <? cap) eqn:Hlt; simpl; rewrite Hg, Hlt.
    + split; [done|]. split.
      * rewrite count_update by done. by rewrite decide_True, Hh.
      * intros u' d' tool'. rewrite count_update by done. case_decide as E; [|lia].
        injection E as -> -> ->. rewrite Hh, Hg. done.
    + split; [done|]. split; [done|]. intros. case_decide; lia.
  - assert (getDailyCount u d tool t = 0) as Hg by (unfold getDailyCount; by rewrite Hh).
    simpl. rewrite Hg, (proj2 (Z.ltb_lt 0 cap)) by lia.
    split; [done|]. split; [by rewrite count_insert, decide_True|].
    intros u' d' tool'. rewrite count_insert by done. case_decide as E; [|lia].
    injection E as -> -> ->. lia.
Qed.

Lemma refund_spec u d tool u' d' tool' t :
  getDailyCount u' d' tool' (repoRefundDaily u d tool t)
  = if decide ((u', d', tool') = (u, d, tool))
    then Z.max (getDailyCount u d tool t - 1) 0 else getDailyCount u' d' tool' t.
Proof.
  unfold repoRefundDaily. rewrite count_update by done. case_decide; [|done].
  unfold getDailyCount. by destruct (head _).
Qed.

Inductive BudgetOp :=
| OConsume (now : Z) (ext : string) (user : Z) (tool : string)
| ORefund (now : Z) (user : Z) (tool : string).

Definition exec (o : BudgetOp) (t : list ToolUsageRow) : list ToolUsageRow :=
  match o with
  | OConsume now ext user tool => (consumeDaily now ext user tool t).1
  | ORefund now user tool => refundDaily now user tool t
  end.

Definition execAll (ops : list BudgetOp) (t : list ToolUsageRow) : list ToolUsageRow :=
  foldl (λ t o, exec o t) t ops.

Definition caps_positive : Prop := map_Forall (λ _ cap, 1 ≤ cap) (dailyCaps settings).

Definition within_caps (t : list ToolUsageRow) : Prop :=
  ∀ u d tool, 0 ≤ getDailyCount u d tool t
    ∧ ∀ cap, dailyCaps settings !! tool = Some cap → getDailyCount u d tool t ≤ cap.

Lemma capFor_cap ext tool cap : capFor ext tool = Some cap → dailyCaps settings !! tool = Some cap.
Proof. unfold capFor. intros. by split_matches. Qed.

Lemma within_exec o t : caps_positive → within_caps t → within_caps (exec o t).
Proof.
  intros Hc Ht. destruct o as [now ext u tool|now u tool]; simpl.
  - unfold consumeDaily. destruct (capFor ext tool) as [cap|] eqn:Hcap; [|done].
    apply capFor_cap in Hcap. pose proof (Hc _ _ Hcap) as H1. simpl in H1.
    pose proof (tryConsume_spec ext u (today now) tool cap t H1) as Hs.
    destruct (tryConsumeDaily _ _ _ _ _ _) as [t' r]. destruct Hs as (Hok & _ & Hn). simpl.
    intros u' d' tool'. rewrite Hn. destruct (Ht u' d' tool') as [H0 Hle].
    case_decide as E; [|split; [lia|]; intros c Hcc; specialize (Hle c Hcc); lia].
    injection E as -> -> ->. destruct (ok r); [|split; [lia|]; intros c Hcc; specialize (Hle c Hcc); lia].
    symmetry in Hok. bool_to_prop. split; [lia|]. intros c Hcc. simplify_eq. lia.
  - unfold refundDaily. destruct (negb _); [done|]. destruct (dailyCaps settings !! tool); [|done].
    intros u' d' tool'. rewrite refund_spec. destruct (Ht u' d' tool') as [H0 Hle].
    case_decide as E; [|done]. injection E as -> -> ->. split; [lia|].
    intros c Hcc. specialize (Hle c Hcc). lia.
Qed.

Lemma within_execAll ops t : caps_positive → within_caps t → within_caps (execAll ops t).
Proof.
  intros Hc. unfold execAll. revert t. induction ops as [|o ops IH]; intros t Ht; simpl; [done|].
  apply IH. by apply within_exec.
Qed.

(** The daily cap holds under any interleaving: after any sequence of consume
    and refund calls of any processes, no learner's count of a budgeted tool
    exceeds its cap; at every such state [checkDailyAllowed] predicts exactly
    whether [consumeDaily] grants; a grant raises only that learner's count, by
    one, and a refund on the same day takes it back. *)
Theorem write_budget_exact ops now ext u tool cap
    (Hcaps : caps_positive) (Hcap : capFor ext tool = Some cap) :
  let t := execAll ops [] in
  let '(t1, granted) := consumeDaily now ext u tool t in
  getDailyCount u (today now) tool t ≤ cap
  ∧ granted = checkDailyAllowed now ext u tool t
  ∧ (∀ u' d' tool', getDailyCount u' d' tool' t1 = getDailyCount u' d' tool' t
       + (if decide ((u', d', tool') = (u, today now, tool)) then if granted then 1 else 0 else 0))
  ∧ (granted = true → ∀ u' d' tool',
       getDailyCount u' d' tool' (refundDaily now u tool t1) = getDailyCount u' d' tool' t).
Proof.
  assert (within_caps (execAll ops [])) as Ht.
  { apply within_execAll; [done|]. intros u' d' tool'. split; [done|]. intros c Hc.
    specialize (Hcaps _ _ Hc). unfold getDailyCount. simpl in *. lia. }
  set (t := execAll ops []) in *. pose proof (capFor_cap _ _ _ Hcap) as Hd.
  unfold consumeDaily, checkDailyAllowed. rewrite Hcap.
  pose proof (tryConsume_spec ext u (today now) tool cap t (Hcaps _ _ Hd)) as Hs.
  destruct (tryConsumeDaily _ _ _ _ _ _) as [t1 r]. destruct Hs as (Hok & _ & Hn).
  split; [by apply Ht|]. split; [by rewrite Hok, <-Z.ltb_antisym|]. split; [done|].
  intros Hg u' d' tool'. unfold refundDaily. rewrite Hd.
  assert (enabled settings = true) as ->.
  { unfold capFor in Hcap. by destruct (enabled settings). }
  simpl. rewrite refund_spec. destruct (Ht u (today now) tool) as [H0 _]. rewrite !Hn, Hg.
  case_decide as E; [|lia]. injection E as -> -> ->. rewrite decide_True by done. lia.
Qed.
End Repository.

(** ** Witness and findings *)

Definition demo_settings (cap : Z) : WriteToolBudgetSettings :=
  {| enabled := true; dailyCaps := {["reschedule_study_session" := cap]};
     perMessageCaps := ∅; whitelist := ∅ |}.

Definition demo_use : BudgetOp := OConsume 0 "psid" 7 "reschedule_study_session".

Lemma write_budget_exact_witness :
  let t := execAll "zalo" (demo_settings 2) (λ _, "2026-01-31") [demo_use; demo_use; demo_use] [] in
  getDailyCount "zalo" 7 "2026-01-31" "reschedule_study_session" t ≤ 2
  ∧ (consumeDaily "zalo" (demo_settings 2) (λ _, "2026-01-31") 5 "psid" 7
       "reschedule_study_session" t).2 = false.
Proof.
  pose proof (write_budget_exact "zalo" (demo_settings 2) (λ _, "2026-01-31")
    [demo_use; demo_use; demo_use] 5 "psid" 7 "reschedule_study_session" 2) as H.
  cbv zeta in H |- *. destruct (consumeDaily _ _ _ _ _ _ _ _) as [t1 granted] eqn:E.
  destruct H as (Hle & Hg & _).
  - unfold caps_positive. simpl. rewrite map_Forall_singleton. lia.
  - reflexivity.
  - split; [exact Hle|]. rewrite Hg. vm_compute. reflexivity.
Defined.

(** A cap configured between 0 and 1 becomes 0: then the check refuses every use
    while the consume still grants the first one of a day. *)
Lemma zero_cap_check_and_consume_disagree :
  positiveIntOr (JFin (1 # 2)) 8 = 0
  ∧ checkDailyAllowed "zalo" (demo_settings 0) (λ _, "2026-01-31") 0 "psid" 7
      "reschedule_study_session" [] = false
  ∧ (consumeDaily "zalo" (demo_settings 0) (λ _, "2026-01-31") 0 "psid" 7
       "reschedule_study_session" []).2 = true.
Proof. vm_compute. done. Qed.

End WriteBudget.
