(* ===== verification/Admission.v ===== *)
(** * Admission control of LLM calls (packages/llm-agent, execution)

    Every call to a provider passes a local gate ([BoundedAdmissionQueue],
    bounded-admission.ts), optionally a distributed one (redis-slot-limiter.ts),
    composed by [LlmAdmissionCoordinator] (llm-admission-coordinator.ts), and
    spends one unit of a per-generation budget (attempt-budget.ts).

    The local gate is an event-driven state machine: [acquire] and [release]
    calls, the timers it arms and the abort listeners it registers are events,
    each handled to the end before the next one.  Timers may fire at any time
    while armed, so the theorems do not depend on timing. *)

From S2P Require Import Prelude.

Module Admission.

Inductive LlmOverloadReason := queue_full | wait_timeout | global_saturated | redis_unavailable.

Definition INTERACTIVE_LLM_FEATURES : list string := ["FREE_FORM_CHAT"].

Record AdmissionBudgetConfig := {
  chatAdmissionWaitMs : Z;
  backgroundAdmissionWaitMs : Z
}.

(** The empty string is falsy. *)
Definition admissionWaitBudgetMs (config : AdmissionBudgetConfig) (feature : option string) : Z :=
  match feature with
  | Some f => if negb (bool_decide (f = "")) && bool_decide (f ∈ INTERACTIVE_LLM_FEATURES)
              then chatAdmissionWaitMs config else backgroundAdmissionWaitMs config
  | None => backgroundAdmissionWaitMs config
  end.

(** ** The bounded queue *)

Record BoundedAcquireOptions := {
  o_signal : option nat;
  o_waitBudgetMs : option Z;
  o_delayMs : jsnum
}.

Record Waiter := mkWaiter {
  w_id : nat;
  w_enqueuedAt : Z;
  w_ready : bool
}.

(** What can call back into the queue: the two timers of a waiter and its
    listener on an abort signal. *)
Inductive Callback :=
| CbReady (id : nat)
| CbTimeout (id : nat)
| CbAbort (signal id : nat).

#[global] Instance callback_eq_dec : EqDecision Callback.
Proof. solve_decision. Defined.

Definition cb_id (c : Callback) : nat :=
  match c with CbReady i | CbTimeout i | CbAbort _ i => i end.

(** Why a request was turned away. *)
Inductive Rejection :=
| Overload (r : LlmOverloadReason)
| Aborted
| BadDelay.

Inductive Answer :=
| ATicket (id : nat)
| AReject (id : nat) (r : Rejection).

Definition answer_id (a : Answer) : nat := match a with ATicket i | AReject i _ => i end.

(** The state of the gate: [active] and [waiters] are the fields of the class;
    [callbacks] the timers and listeners it has registered, in registration
    order; [live] the tickets whose [released] flag is still false; [nextId]
    numbers the requests; [aborted] the signals that have fired. *)
Record Gate := mkGate {
  active : Z;
  waiters : list Waiter;
  callbacks : list Callback;
  live : list nat;
  nextId : nat;
  aborted : list nat
}.

Inductive Event :=
| EvAcquire (now : Z) (o : BoundedAcquireOptions)
| EvRelease (ticket : nat)
| EvFire (c : Callback)
| EvAbort (signal : nat).

Definition setWaiters (ws : list Waiter) (g : Gate) : Gate :=
  mkGate (active g) ws (callbacks g) (live g) (nextId g) (aborted g).

Definition setCallbacks (cs : list Callback) (g : Gate) : Gate :=
  mkGate (active g) (waiters g) cs (live g) (nextId g) (aborted g).

Definition clearWaiter (id : nat) (g : Gate) : Gate :=
  setCallbacks (filter (λ c, cb_id c ≠ id) (callbacks g)) g.

(** [this.active += 1] and [makeTicket()]. *)
Definition makeTicket (id : nat) (g : Gate) : Gate :=
  mkGate (active g + 1) (waiters g) (callbacks g) (live g ++ [id]) (nextId g) (aborted g).

Definition freshId (g : Gate) : Gate :=
  mkGate (active g) (waiters g) (callbacks g) (live g) (S (nextId g)) (aborted g).

Definition js_zero (x : jsnum) : bool :=
  match x with JFin q => Qnum q =? 0 | _ => false end.

(** The callbacks [acquire] registers for a new waiter. *)
Definition newCallbacks (id : nat) (o : BoundedAcquireOptions) : list Callback :=
  (if js_pos (o_delayMs o) then [CbReady id] else [])
  ++ (match o_waitBudgetMs o with Some _ => [CbTimeout id] | None => [] end)
  ++ (match o_signal o with Some s => [CbAbort s id] | None => [] end).

(** The age reported by [oldestWaitingAgeMs]. *)
Definition oldestWaitingAgeMs (now : Z) (g : Gate) : Z :=
  match waiters g with [] => 0 | w :: _ => Z.max 0 (now - w_enqueuedAt w) end.

Section Queue.
Context (concurrency maxQueueDepth : Z).

(** [pump]; [ws] is what is left of [this.waiters]. *)
Fixpoint pumpWaiters (ws : list Waiter) (g : Gate) : Gate * list Answer :=
  match ws with
  | [] => (setWaiters [] g, [])
  | next :: ws' =>
      if active g <? concurrency then
        if w_ready next then
          let g1 := makeTicket (w_id next) (clearWaiter (w_id next) g) in
          let '(g2, outs) := pumpWaiters ws' g1 in (g2, ATicket (w_id next) :: outs)
        else (setWaiters ws g, [])
      else (setWaiters ws g, [])
  end.

Definition pump (g : Gate) : Gate * list Answer := pumpWaiters (waiters g) g.

(** [remove]. *)
Definition remove (id : nat) (g : Gate) : Gate * list Answer :=
  pump (clearWaiter id (setWaiters (filter (λ w, w_id w ≠ id) (waiters g)) g)).

Definition acquire (now : Z) (o : BoundedAcquireOptions) (g : Gate) : Gate * list Answer :=
  let id := nextId g in
  let g0 := freshId g in
  if match o_signal o with Some s => bool_decide (s ∈ aborted g) | None => false end
  then (g0, [AReject id Aborted])
  else if js_neg (o_delayMs o) || negb (js_is_finite (o_delayMs o))
  then (g0, [AReject id BadDelay])
  else if js_zero (o_delayMs o) && (active g <? concurrency) && bool_decide (waiters g = [])
  then (makeTicket id g0, [ATicket id])
  else if maxQueueDepth <=? Z.of_nat (length (waiters g))
  then (g0, [AReject id (Overload queue_full)])
  else
    pump (setWaiters (waiters g ++ [mkWaiter id now (js_zero (o_delayMs o))])
            (setCallbacks (callbacks g ++ newCallbacks id o) g0)).

(** [ticket.release()]. *)
Definition release (ticket : nat) (g : Gate) : Gate * list Answer :=
  if bool_decide (ticket ∈ live g) then
    pump (mkGate (active g - 1) (waiters g) (callbacks g)
            (filter (λ i, i ≠ ticket) (live g)) (nextId g) (aborted g))
  else (g, []).

(** The ready timer of a delayed waiter. *)
Definition fireReady (id : nat) (g : Gate) : Gate * list Answer :=
  pump (setWaiters ((λ w, if bool_decide (w_id w = id)
                          then mkWaiter (w_id w) (w_enqueuedAt w) true else w) <$> waiters g)
          (setCallbacks (filter (λ c, c ≠ CbReady id) (callbacks g)) g)).

(** The wait-budget timer. *)
Definition fireTimeout (id : nat) (g : Gate) : Gate * list Answer :=
  let '(g1, outs) := remove id g in (g1, outs ++ [AReject id (Overload wait_timeout)]).

(** The listener of one waiter; it runs only while it is still registered. *)
Definition fireAbort (signal id : nat) (g : Gate) : Gate * list Answer :=
  if bool_decide (CbAbort signal id ∈ callbacks g) then
    let '(g1, outs) := remove id g in (g1, outs ++ [AReject id Aborted])
  else (g, []).

Fixpoint dispatchAbort (signal : nat) (ids : list nat) (g : Gate) : Gate * list Answer :=
  match ids with
  | [] => (g, [])
  | id :: ids' =>
      let '(g1, o1) := fireAbort signal id g in
      let '(g2, o2) := dispatchAbort signal ids' g1 in (g2, o1 ++ o2)
  end.

(** A signal fires once and calls its listeners in registration order. *)
Definition abortSignal (signal : nat) (g : Gate) : Gate * list Answer :=
  if bool_decide (signal ∈ aborted g) then (g, [])
  else
    let ids := omap (λ c, match c with
                          | CbAbort s id => if bool_decide (s = signal) then Some id else None
                          | _ => None
                          end) (callbacks g) in
    dispatchAbort signal ids
      (mkGate (active g) (waiters g) (callbacks g) (live g) (nextId g) (signal :: aborted g)).

Definition step (e : Event) (g : Gate) : Gate * list Answer :=
  match e with
  | EvAcquire now o => acquire now o g
  | EvRelease t => release t g
  | EvFire (CbReady id) =>
      if bool_decide (CbReady id ∈ callbacks g) then fireReady id g else (g, [])
  | EvFire (CbTimeout id) =>
      if bool_decide (CbTimeout id ∈ callbacks g) then fireTimeout id g else (g, [])
  | EvFire (CbAbort _ _) => (g, [])
  | EvAbort s => abortSignal s g
  end.

Definition gate0 : Gate := mkGate 0 [] [] [] 0 [].

Fixpoint run (es : list Event) (g : Gate) : Gate * list Answer :=
  match es with
  | [] => (g, [])
  | e :: es' =>
      let '(g1, o1) := step e g in
      let '(g2, o2) := run es' g1 in (g2, o1 ++ o2)
  end.

(** *** The invariant *)

Definition wids (g : Gate) : list nat := w_id <$> waiters g.

Record pre (g : Gate) : Prop := {
  i_active : active g = Z.of_nat (length (live g));
  i_live : NoDup (live g);
  i_cap : active g ≤ Z.max 0 concurrency;
  i_depth : Z.of_nat (length (waiters g)) ≤ Z.max 0 maxQueueDepth;
  i_sorted : StronglySorted Nat.lt (wids g);
  i_before : ∀ i j, i ∈ live g → j ∈ wids g → (i < j)%nat;
  i_next : ∀ i, i ∈ live g ∨ i ∈ wids g → (i < nextId g)%nat;
  i_callbacks : ∀ c, c ∈ callbacks g → cb_id c ∈ wids g;
  i_ready : ∀ w, w ∈ waiters g → w_ready w = false → CbReady (w_id w) ∈ callbacks g
}.

(** Work conservation: a ready waiter at the head means that every slot is taken. *)
Definition conserving (g : Gate) : Prop :=
  match waiters g with w :: _ => w_ready w = true → concurrency ≤ active g | [] => True end.

Definition inv (g : Gate) : Prop := pre g ∧ conserving g.

Lemma sorted_app l1 l2 :
  StronglySorted Nat.lt (l1 ++ l2)
  ↔ StronglySorted Nat.lt l1 ∧ StronglySorted Nat.lt l2
    ∧ ∀ x y, x ∈ l1 → y ∈ l2 → (x < y)%nat.
Proof.
  induction l1 as [|a l1 IH]; simpl.
  { split; [|tauto]. intros H. split; [constructor|]. split; [done|]. set_solver. }
  split.
  - intros [Hs Hf]%StronglySorted_inv. apply IH in Hs as (H1 & H2 & H3).
    rewrite Forall_app, !Forall_forall in Hf. destruct Hf as [Hf1 Hf2].
    split; [constructor; [done|by apply Forall_forall]|]. split; [done|].
    intros x y [->|Hx]%elem_of_cons Hy; [by apply Hf2|by apply H3].
  - intros (H1 & H2 & H3). apply StronglySorted_inv in H1 as [H1 Hf].
    constructor; [apply IH; split; [done|split; [done|]]|].
    + intros x y Hx Hy. apply H3; [by right|done].
    + rewrite Forall_app. split; [done|]. apply Forall_forall. intros y Hy.
      apply H3; [left|done].
Qed.

Lemma sorted_filter (P : nat → Prop) `{∀ x, Decision (P x)} l :
  StronglySorted Nat.lt l → StronglySorted Nat.lt (filter P l).
Proof.
  induction 1 as [|a l Hs IH Hf]; [constructor|]. rewrite filter_cons.
  case_decide; [|done]. constructor; [done|]. rewrite Forall_forall in *.
  intros x [_ Hx]%list_elem_of_filter. auto.
Qed.

Lemma sorted_nodup l : StronglySorted Nat.lt l → NoDup l.
Proof.
  induction 1 as [|a l Hs IH Hf]; constructor; [|done].
  intros Ha. rewrite Forall_forall in Hf. specialize (Hf a Ha). lia.
Qed.

(** Granting the head of the queue. *)
Lemma pre_grant w ws g :
  pre (setWaiters (w :: ws) g) → active g < concurrency →
  pre (setWaiters ws (makeTicket (w_id w) (clearWaiter (w_id w) g))).
Proof.
  intros [A L C D S B N K R] Hlt. simpl in *. unfold wids in *. simpl in *.
  pose proof (sorted_nodup _ S) as Hnd. apply NoDup_cons in Hnd as [Hw Hnd].
  apply StronglySorted_inv in S as [S Hf]. rewrite Forall_forall in Hf.
  split; unfold wids; simpl in *.
  - rewrite length_app. simpl. lia.
  - apply NoDup_app. split; [done|]. split; [|apply NoDup_singleton].
    intros i Hi ->%list_elem_of_singleton. specialize (B (w_id w) (w_id w) Hi ltac:(left)). lia.
  - lia.
  - lia.
  - done.
  - intros i j [Hi| ->%list_elem_of_singleton]%elem_of_app Hj; [apply B; [done|by right]|].
    by apply Hf.
  - intros i [[Hi| ->%list_elem_of_singleton]%elem_of_app|Hi]; apply N; [by left|right; left|].
    right. by right.
  - intros c [Hne Hc]%list_elem_of_filter. specialize (K c Hc). set_solver.
  - intros w' Hw' Hr. apply list_elem_of_filter. split; [|apply R; [by right|done]].
    simpl. intros E. apply Hw. rewrite <-E. by apply list_elem_of_fmap_2.
Qed.

Lemma pumpWaiters_spec ws g :
  pre (setWaiters ws g) →
  ∃ k, (pumpWaiters ws g).2 = ATicket <$> take k (w_id <$> ws)
       ∧ waiters (pumpWaiters ws g).1 = drop k ws
       ∧ nextId (pumpWaiters ws g).1 = nextId g
       ∧ inv (pumpWaiters ws g).1.
Proof.
  revert g. induction ws as [|w ws IH]; intros g Hp; simpl.
  { exists 0%nat. split_and!; try done; by split. }
  destruct (active g <? concurrency) eqn:Ha; bool_to_prop.
  2:{ exists 0%nat. split_and!; try done. split; [done|]. by intros _. }
  destruct (w_ready w) eqn:Hr.
  2:{ exists 0%nat. split_and!; try done. split; [done|]. unfold conserving. simpl. congruence. }
  destruct (IH _ (pre_grant w ws g Hp Ha)) as (k & Ho & Hw & Hn & Hi).
  destruct (pumpWaiters ws _) as [g2 outs]. simpl in *. exists (S k). subst outs.
  split_and!; try done. 
Qed.

(** The part of an operation's contract that concerns the requests: every request is
    either still waiting or answered exactly once, and tickets go out in the
    order of arrival, before anything that still waits. *)
Definition grants (outs : list Answer) : list nat :=
  omap (λ a, match a with ATicket i => Some i | AReject _ _ => None end) outs.

Record good (g g' : Gate) (outs : list Answer) : Prop := {
  g_inv : inv g';
  g_next : (nextId g ≤ nextId g')%nat;
  g_once : (answer_id <$> outs) ++ wids g'
           ≡ₚ wids g ++ seq (nextId g) (nextId g' - nextId g);
  g_fifo : StronglySorted Nat.lt (grants outs ++ wids g')
}.

Lemma grants_app o1 o2 : grants (o1 ++ o2) = grants o1 ++ grants o2.
Proof. apply omap_app. Qed.

Lemma grants_tickets l : grants (ATicket <$> l) = l.
Proof. induction l as [|i l IH]; [done|]. cbn. by f_equal. Qed.

Lemma grants_ids i outs : i ∈ grants outs → i ∈ answer_id <$> outs.
Proof.
  intros (a & Ha & Hi)%list_elem_of_omap. destruct a; simplify_eq.
  apply list_elem_of_fmap. by exists (ATicket i).
Qed.

Lemma good_refl g : inv g → good g g [].
Proof.
  intros Hi. split; [done|lia| |apply Hi].
  simpl. rewrite Nat.sub_diag. simpl. by rewrite app_nil_r.
Qed.

Lemma good_trans g g1 g2 o1 o2 :
  inv g → good g g1 o1 → good g1 g2 o2 → good g g2 (o1 ++ o2).
Proof.
  intros Hi [I1 N1 O1 F1] [I2 N2 O2 F2]. split; [done|lia| |].
  - rewrite fmap_app, <-app_assoc, O2, app_assoc, O1, <-app_assoc.
    replace (nextId g2 - nextId g)%nat
      with ((nextId g1 - nextId g) + (nextId g2 - nextId g1))%nat by lia.
    rewrite seq_app. by replace (nextId g + (nextId g1 - nextId g))%nat with (nextId g1) by lia.
  - rewrite grants_app, <-app_assoc. apply sorted_app in F1 as (G1 & _ & G12).
    apply sorted_app. split_and!; try done. intros x y Hx Hy.
    assert (y ∈ wids g1 ++ seq (nextId g1) (nextId g2 - nextId g1)) as Hy'.
    { rewrite <-O2. apply elem_of_app in Hy as [Hy|Hy]; apply elem_of_app;
        [left; by apply grants_ids|by right]. }
    apply elem_of_app in Hy' as [Hy'|Hy']; [by apply G12|].
    apply elem_of_seq in Hy'.
    assert (x ∈ wids g ++ seq (nextId g) (nextId g1 - nextId g)) as Hx'.
    { rewrite <-O1. apply elem_of_app. left. by apply grants_ids. }
    apply elem_of_app in Hx' as [Hx'|Hx'%elem_of_seq]; [|lia].
    pose proof (i_next _ (proj1 Hi) x (or_intror Hx')). lia.
Qed.

Lemma pump_spec g :
  pre g →
  inv (pump g).1 ∧ nextId (pump g).1 = nextId g
  ∧ (answer_id <$> (pump g).2) ++ wids (pump g).1 = wids g
  ∧ grants (pump g).2 = answer_id <$> (pump g).2.
Proof.
  intros Hp. unfold pump. destruct (pumpWaiters_spec (waiters g) g) as (k & Ho & Hw & Hn & Hi).
  { by destruct g. }
  split_and!; try done.
  - rewrite Ho. unfold wids. rewrite Hw, <-list_fmap_compose, fmap_drop.
    rewrite (list_fmap_ext (answer_id ∘ ATicket) id) by done. rewrite list_fmap_id.
    by rewrite take_drop.
  - rewrite Ho, grants_tickets, <-list_fmap_compose.
    rewrite (list_fmap_ext (answer_id ∘ ATicket) id) by done. by rewrite list_fmap_id.
Qed.

(** An operation that prepares a state with the same requests and pumps. *)
Lemma pump_good g0 g :
  pre g → wids g = wids g0 → nextId g = nextId g0 → good g0 (pump g).1 (pump g).2.
Proof.
  intros Hp Hw Hn. destruct (pump_spec g Hp) as (Hi & Hn' & Ho & Hg).
  split; [done|lia| |].
  - rewrite Ho, Hw, Hn', Hn, Nat.sub_diag. simpl. by rewrite app_nil_r.
  - rewrite Hg, Ho. apply Hp.
Qed.

Lemma pre_aborted s g :
  pre g → pre (mkGate (active g) (waiters g) (callbacks g) (live g) (nextId g) s).
Proof. by intros []. Qed.

Lemma release_good t g : inv g → good g (release t g).1 (release t g).2.
Proof.
  intros Hi. unfold release. case_bool_decide as Ht; [|by apply good_refl].
  apply pump_good; [|done..]. destruct Hi as [[A L C D S B N K R] _].
  split; simpl; try done.
  - pose proof (Permutation_length (nodup_take_out t _ L Ht)) as Hl. simpl in Hl. lia.
  - by apply NoDup_filter.
  - lia.
  - intros i j [_ Hi]%list_elem_of_filter. by apply B.
  - intros i [[_ Hi]%list_elem_of_filter|Hi]; apply N; auto.
Qed.

Lemma pumpWaiters_live ws g t :
  t ∈ live (pumpWaiters ws g).1 → t ∈ live g ∨ t ∈ w_id <$> ws.
Proof.
  revert g. induction ws as [|w ws IH]; intros g; simpl; [by left|].
  destruct (active g <? concurrency); [|by left]. destruct (w_ready w); [|by left].
  specialize (IH (makeTicket (w_id w) (clearWaiter (w_id w) g))).
  destruct (pumpWaiters ws _) as [g2 outs]. simpl in *. intros Ht.
  destruct (IH Ht) as [[?| ->%list_elem_of_singleton]%elem_of_app|?];
    [by left|right; left|right; by right].
Qed.

(** A released ticket is not live afterwards. *)
Lemma release_live t g : pre g → t ∉ live (release t g).1.
Proof.
  intros Hp. unfold release. case_bool_decide as Hin; [|done]. simpl.
  intros [[? _]%list_elem_of_filter|Hw]%pumpWaiters_live; [done|].
  pose proof (i_before _ Hp t t Hin Hw). lia.
Qed.

Lemma wids_filter id (g : Gate) :
  w_id <$> filter (λ w, w_id w ≠ id) (waiters g) = filter (λ i, i ≠ id) (wids g).
Proof.
  unfold wids. induction (waiters g) as [|w ws IH]; [done|]. rewrite fmap_cons, !filter_cons.
  destruct (decide (w_id w ≠ id)); [|done]. rewrite fmap_cons. by f_equal.
Qed.

Lemma pre_removed id g :
  pre g → pre (clearWaiter id (setWaiters (filter (λ w, w_id w ≠ id) (waiters g)) g)).
Proof.
  intros [A L C D S B N K R]. split; unfold wids; simpl; rewrite ?wids_filter; try done.
  - pose proof (length_filter (λ w, w_id w ≠ id) (waiters g)). lia.
  - by apply sorted_filter.
  - intros i j Hi [_ Hj]%list_elem_of_filter. by apply B.
  - intros i [Hi|[_ Hi]%list_elem_of_filter]; apply N; auto.
  - intros c [Hne Hc]%list_elem_of_filter. apply list_elem_of_filter. auto.
  - intros w [Hne Hw]%list_elem_of_filter Hr. apply list_elem_of_filter. auto.
Qed.

(** Removing a queued request and answering it with a rejection. *)
Lemma remove_good id r g :
  inv g → id ∈ wids g →
  good g (remove id g).1 ((remove id g).2 ++ [AReject id r]).
Proof.
  intros Hi Hin. destruct (pump_spec _ (pre_removed id g (proj1 Hi))) as (Hi' & Hn & Ho & Hg).
  fold (remove id g) in *.
  assert (wids (clearWaiter id (setWaiters (filter (λ w, w_id w ≠ id) (waiters g)) g))
          = filter (λ i, i ≠ id) (wids g)) as Hw by apply wids_filter.
  rewrite Hw in Ho. pose proof (i_sorted _ (proj1 Hi)) as HS.
  split; [done|rewrite Hn; simpl; lia| |].
  - rewrite fmap_app, <-app_assoc. simpl. rewrite Hn. simpl. rewrite Nat.sub_diag. simpl.
    rewrite app_nil_r, <-Permutation_middle, Ho.
    symmetry. by apply nodup_take_out; [apply sorted_nodup|].
  - rewrite grants_app. simpl. rewrite app_nil_r, Hg, Ho. by apply sorted_filter.
Qed.

(** A request answered on the spot. *)
Lemma answered_good g g' a :
  inv g → inv g' → nextId g' = S (nextId g) → wids g' = wids g →
  answer_id a = nextId g → (grants [a] = [] ∨ wids g = []) → good g g' [a].
Proof.
  intros Hi Hi' Hn Hw Ha Hg. split; [done|lia| |].
  - simpl. rewrite Hn, Hw, Ha. replace (S (nextId g) - nextId g)%nat with 1%nat by lia.
    simpl. apply Permutation_cons_append.
  - rewrite Hw. destruct Hg as [->|Hg]; [apply Hi|]. rewrite Hg, app_nil_r.
    destruct a; cbn; repeat constructor.
Qed.

Lemma inv_freshId g : inv g → inv (freshId g).
Proof.
  intros [[A L C D S B N K R] Hc]. split; [|done]. split; try done.
  intros i Hi. simpl. specialize (N i Hi). lia.
Qed.

Lemma newCallbacks_id c id o : c ∈ newCallbacks id o → cb_id c = id.
Proof.
  unfold newCallbacks. intros Hc. repeat (apply elem_of_app in Hc as [Hc|Hc]);
    repeat case_match; set_solver.
Qed.

Lemma pre_enqueued now o g :
  inv g → maxQueueDepth <=? Z.of_nat (length (waiters g)) = false →
  js_neg (o_delayMs o) || negb (js_is_finite (o_delayMs o)) = false →
  pre (setWaiters (waiters g ++ [mkWaiter (nextId g) now (js_zero (o_delayMs o))])
         (setCallbacks (callbacks g ++ newCallbacks (nextId g) o) (freshId g))).
Proof.
  intros [[A L C D S B N K R] _] Hd Hdel. bool_to_prop.
  split; unfold wids; simpl; try rewrite fmap_app; simpl; try done.
  - rewrite length_app. simpl. lia.
  - apply sorted_app. split_and!; [done|repeat constructor|].
    intros x y Hx ->%list_elem_of_singleton. apply N. by right.
  - intros i j Hi [Hj| ->%list_elem_of_singleton]%elem_of_app; [by apply B|]. apply N. by left.
  - intros i [Hi|[Hi| ->%list_elem_of_singleton]%elem_of_app]; [|fold (wids g) in Hi|]; try lia.
    + specialize (N i (or_introl Hi)). lia.
    + specialize (N i (or_intror Hi)). lia.
  - intros c [Hc|Hc]%elem_of_app; apply elem_of_app; [left; by apply K|right].
    apply newCallbacks_id in Hc as ->. by left.
  - intros w [Hw| ->%list_elem_of_singleton]%elem_of_app Hr; apply elem_of_app; [left; by apply R|].
    right. simpl in *. unfold newCallbacks.
    assert (js_pos (o_delayMs o) = true) as ->; [|by left].
    destruct (o_delayMs o) as [|?|q]; try done. simpl in *. bool_to_prop.
    apply bool_decide_eq_true. lia.
Qed.

Lemma acquire_good now o g : inv g → good g (acquire now o g).1 (acquire now o g).2.
Proof.
  intros Hi. pose proof (inv_freshId g Hi) as Hf. unfold acquire.
  destruct (match o_signal o with Some _ => _ | None => _ end).
  { apply answered_good; try done. by left. }
  destruct (js_neg _ || _) eqn:Hd; [apply answered_good; try done; by left|].
  destruct (js_zero _ && _ && _) eqn:Hq.
  { bool_to_prop. assert (wids g = []) as Hw by (unfold wids; by rewrite H0).
    apply answered_good; try done; [|by right].
    split; [|unfold conserving; simpl; by rewrite H0].
    destruct Hi as [[A L C D S B N K R] _].
    split; simpl; try done; unfold wids; simpl; rewrite ?H0; simpl.
    - rewrite length_app. simpl. lia.
    - apply NoDup_app. split; [done|]. split; [|apply NoDup_singleton].
      intros i Hin ->%list_elem_of_singleton. specialize (N _ (or_introl Hin)). lia.
    - lia.
    - intros i j _ Hj. by apply not_elem_of_nil in Hj.
    - intros i [[Hin| ->%list_elem_of_singleton]%elem_of_app|Hj]; [|lia|by apply not_elem_of_nil in Hj].
      specialize (N _ (or_introl Hin)). lia. }
  destruct (maxQueueDepth <=? _) eqn:Hm; [apply answered_good; try done; by left|].
  destruct (pump_spec _ (pre_enqueued now o g Hi Hm Hd)) as (Hi' & Hn & Ho & Hg).
  simpl in Hn. unfold wids at 2 in Ho. simpl in Ho. rewrite fmap_app in Ho. simpl in Ho.
  split; [done|lia| |].
  - rewrite Ho, Hn. by replace (S (nextId g) - nextId g)%nat with 1%nat by lia.
  - rewrite Hg, Ho. pose proof (i_sorted _ (pre_enqueued now o g Hi Hm Hd)) as HS.
    unfold wids in HS. simpl in HS. by rewrite fmap_app in HS.
Qed.

Lemma fireReady_good id g : inv g → good g (fireReady id g).1 (fireReady id g).2.
Proof.
  intros [[A L C D S B N K R] _].
  assert (w_id <$> ((λ w, if bool_decide (w_id w = id)
            then mkWaiter (w_id w) (w_enqueuedAt w) true else w) <$> waiters g) = wids g) as Hw.
  { rewrite <-list_fmap_compose. apply list_fmap_ext. intros i w _. simpl.
    by destruct (bool_decide _). }
  apply pump_good; [|done..]. split; unfold wids; simpl; rewrite ?Hw; try done.
  - by rewrite length_fmap.
  - intros c [_ Hc]%list_elem_of_filter. by apply K.
  - intros w (w0 & -> & Hw0)%list_elem_of_fmap Hr.
    case_bool_decide as Hid; simpl in *; [done|]. apply list_elem_of_filter.
    split; [congruence|]. by apply R.
Qed.

Lemma dispatchAbort_good s ids g :
  inv g → good g (dispatchAbort s ids g).1 (dispatchAbort s ids g).2.
Proof.
  revert g. induction ids as [|id ids IH]; intros g Hi; simpl; [by apply good_refl|].
  assert (good g (fireAbort s id g).1 (fireAbort s id g).2) as Hf.
  { unfold fireAbort. case_bool_decide as Hc; [|by apply good_refl].
    pose proof (remove_good id Aborted g Hi (i_callbacks _ (proj1 Hi) _ Hc)) as Hr.
    by destruct (remove id g). }
  destruct (fireAbort s id g) as [g1 o1]. simpl in Hf. specialize (IH g1 (g_inv _ _ _ Hf)).
  destruct (dispatchAbort s ids g1) as [g2 o2]. simpl in *. by eapply good_trans.
Qed.

Lemma step_good e g : inv g → good g (step e g).1 (step e g).2.
Proof.
  intros Hi. destruct e as [now o|t|[id|id|s id]|s]; simpl.
  - by apply acquire_good.
  - by apply release_good.
  - case_bool_decide; [by apply fireReady_good|by apply good_refl].
  - case_bool_decide as Hc; [|by apply good_refl]. unfold fireTimeout.
    pose proof (remove_good id (Overload wait_timeout) g Hi (i_callbacks _ (proj1 Hi) _ Hc)) as Hr.
    by destruct (remove id g).
  - by apply good_refl.
  - unfold abortSignal. case_bool_decide; [by apply good_refl|].
    set (ga := mkGate _ _ _ _ _ _). set (ids := omap _ _).
    assert (inv ga) as Hga by (destruct Hi as [Hp Hc]; split; [by apply pre_aborted|done]).
    pose proof (dispatchAbort_good s ids ga Hga) as [I N O F]. by split.
Qed.

Lemma run_good es g : inv g → good g (run es g).1 (run es g).2.
Proof.
  revert g. induction es as [|e es IH]; intros g Hi; simpl; [by apply good_refl|].
  pose proof (step_good e g Hi) as Hs. destruct (step e g) as [g1 o1]. simpl in Hs.
  specialize (IH g1 (g_inv _ _ _ Hs)). destruct (run es g1) as [g2 o2]. simpl in *.
  by eapply good_trans.
Qed.

Lemma inv_gate0 : inv gate0.
Proof.
  split; [|done]. split; simpl; try done; try lia; try constructor; set_solver.
Qed.

(** ** Theorems about the gate *)

(** C23. Capacity: in every reachable state the number of tickets that are out
    and not released is [active] and at most the configured concurrency, and at
    most [maxQueueDepth] requests wait; releasing a ticket twice counts once. *)
Theorem admission_within_capacity es :
  let g := (run es gate0).1 in
  active g = Z.of_nat (length (live g)) ∧ NoDup (live g)
  ∧ active g ≤ Z.max 0 concurrency
  ∧ Z.of_nat (length (waiters g)) ≤ Z.max 0 maxQueueDepth
  ∧ ∀ t, release t (release t g).1 = ((release t g).1, []).
Proof.
  pose proof (g_inv _ _ _ (run_good es gate0 inv_gate0)) as [Hp Hc].
  set (g := (run es gate0).1) in *. split_and!; try apply Hp.
  intros t. pose proof (release_live t g Hp) as Hn. unfold release at 1.
  by rewrite bool_decide_false.
Qed.

(** C24. Every request is answered exactly once: after any events, the answers
    given so far and the requests still waiting are together exactly the
    requests made, without repetition. *)
Theorem admission_answers_once es :
  (answer_id <$> (run es gate0).2) ++ wids (run es gate0).1 ≡ₚ seq 0 (nextId (run es gate0).1).
Proof.
  pose proof (g_once _ _ _ (run_good es gate0 inv_gate0)) as H. simpl in H.
  by rewrite Nat.sub_0_r in H.
Qed.

(** First come, first served: tickets are granted in the order of arrival,
    and every request that still waits arrived after all that were granted. *)
Theorem admission_fifo es :
  StronglySorted Nat.lt (grants (run es gate0).2 ++ wids (run es gate0).1).
Proof. apply (run_good es gate0 inv_gate0). Qed.

(** No idle slot: in every reachable state a free slot means that nobody
    waits or that the head of the queue is inside its requested delay, whose
    timer is armed and, when it fires, admits it. *)
Theorem admission_work_conserving es w ws
    (Hw : waiters (run es gate0).1 = w :: ws)
    (Hfree : active (run es gate0).1 < concurrency) :
  CbReady (w_id w) ∈ callbacks (run es gate0).1
  ∧ ATicket (w_id w) ∈ (step (EvFire (CbReady (w_id w))) (run es gate0).1).2.
Proof.
  pose proof (g_inv _ _ _ (run_good es gate0 inv_gate0)) as [Hp Hc].
  set (g := (run es gate0).1) in *. unfold conserving in Hc. rewrite Hw in Hc.
  assert (w_ready w = false) as Hr by (destruct (w_ready w); [specialize (Hc eq_refl); lia|done]).
  assert (CbReady (w_id w) ∈ callbacks g) as Hcb by (apply Hp; [rewrite Hw; left|done]).
  split; [done|]. simpl. rewrite bool_decide_true by done. unfold fireReady, pump. simpl.
  rewrite Hw. simpl. rewrite (proj2 (Z.ltb_lt _ _) Hfree), bool_decide_true by done. simpl.
  destruct (pumpWaiters _ _). left.
Qed.

End Queue.

(** ** The provider attempt budget (attempt-budget.ts) *)

Definition DEFAULT_LLM_MAX_TOTAL_PROVIDER_ATTEMPTS : Z := 6.
Definition MAX_LLM_MAX_TOTAL_PROVIDER_ATTEMPTS : Z := 8.

Definition attempts_in_range (z : Z) : bool :=
  (1 <=? z) && (z <=? MAX_LLM_MAX_TOTAL_PROVIDER_ATTEMPTS).

Definition normalizeMaxTotalProviderAttempts (value : option jsnum) : Z :=
  match value ≫= js_integer with
  | Some z => if attempts_in_range z then z else DEFAULT_LLM_MAX_TOTAL_PROVIDER_ATTEMPTS
  | None => DEFAULT_LLM_MAX_TOTAL_PROVIDER_ATTEMPTS
  end.

(** [readMaxTotalProviderAttempts]; [parsed] is [Number(value)]. *)
Definition readMaxTotalProviderAttempts (value : option (jsstring * jsnum)) : option Z :=
  match value with
  | None => Some DEFAULT_LLM_MAX_TOTAL_PROVIDER_ATTEMPTS
  | Some (raw, parsed) =>
      if js_blank raw then Some DEFAULT_LLM_MAX_TOTAL_PROVIDER_ATTEMPTS
      else match js_integer parsed with
           | Some z => if attempts_in_range z then Some z else None
           | None => None
           end
  end.

Section AttemptBudget.
(** The error values a caller records. *)
Context {E : Type}.

Inductive BudgetError := BudgetExhausted | LastFailure (e : E).

Record LlmAttemptBudget := mkBudget {
  maxAttempts : Z;
  used : Z;
  lastFailure : option E;
  observers : list nat
}.

(** The constructor throws outside [1..8]. *)
Definition newBudget (n : jsnum) : option LlmAttemptBudget :=
  match js_integer n with
  | Some z => if attempts_in_range z then Some (mkBudget z 0 None []) else None
  | None => None
  end.

Definition exhausted (b : LlmAttemptBudget) : bool := maxAttempts b <=? used b.
Definition remaining (b : LlmAttemptBudget) : Z := maxAttempts b - used b.

Definition throwIfExhausted (b : LlmAttemptBudget) : option BudgetError :=
  if exhausted b
  then Some (match lastFailure b with Some e => LastFailure e | None => BudgetExhausted end)
  else None.

(** [consume]; on success the observers are called with [true], in order. *)
Definition consume (b : LlmAttemptBudget) : LlmAttemptBudget * (BudgetError + list nat) :=
  match throwIfExhausted b with
  | Some e => (b, inl e)
  | None => (mkBudget (maxAttempts b) (used b + 1) (lastFailure b) (observers b),
             inr (observers b))
  end.

Definition recordFailure (e : E) (b : LlmAttemptBudget) : LlmAttemptBudget :=
  mkBudget (maxAttempts b) (used b) (Some e) (observers b).

(** [Set.add] and the returned unsubscribe. *)
Definition observeProviderAttempt (o : nat) (b : LlmAttemptBudget) : LlmAttemptBudget :=
  mkBudget (maxAttempts b) (used b) (lastFailure b)
    (if bool_decide (o ∈ observers b) then observers b else observers b ++ [o]).

Definition unobserve (o : nat) (b : LlmAttemptBudget) : LlmAttemptBudget :=
  mkBudget (maxAttempts b) (used b) (lastFailure b) (filter (λ x, x ≠ o) (observers b)).

Inductive BudgetOp := OpConsume | OpFailure (e : E) | OpObserve (o : nat) | OpUnobserve (o : nat).

Definition budgetStep (op : BudgetOp) (b : LlmAttemptBudget)
  : LlmAttemptBudget * option (BudgetError + list nat) :=
  match op with
  | OpConsume => let '(b', r) := consume b in (b', Some r)
  | OpFailure e => (recordFailure e b, None)
  | OpObserve o => (observeProviderAttempt o b, None)
  | OpUnobserve o => (unobserve o b, None)
  end.

(** The provider requests issued by a run, and its last state. *)
Fixpoint budgetRun (ops : list BudgetOp) (b : LlmAttemptBudget) : LlmAttemptBudget * Z :=
  match ops with
  | [] => (b, 0)
  | op :: ops' =>
      let '(b1, r) := budgetStep op b in
      let '(b2, n) := budgetRun ops' b1 in
      (b2, n + match r with Some (inr _) => 1 | _ => 0 end)
  end.

Lemma budgetRun_spec ops b :
  used b ≤ maxAttempts b →
  maxAttempts (budgetRun ops b).1 = maxAttempts b
  ∧ used (budgetRun ops b).1 = used b + (budgetRun ops b).2
  ∧ used (budgetRun ops b).1 ≤ maxAttempts b ∧ 0 ≤ (budgetRun ops b).2.
Proof.
  revert b. induction ops as [|op ops IH]; intros b Hb; simpl; [lia|].
  destruct op as [|e|o|o]; simpl.
  - unfold consume, throwIfExhausted. destruct (exhausted b) eqn:He; simpl.
    + specialize (IH b Hb). destruct (budgetRun ops b) as [b2 n]. simpl in *. lia.
    + unfold exhausted in He. bool_to_prop.
      specialize (IH (mkBudget (maxAttempts b) (used b + 1) (lastFailure b) (observers b))
                    ltac:(simpl; lia)).
      destruct (budgetRun ops _) as [b2 n]. simpl in *. lia.
  - specialize (IH (recordFailure e b) Hb).
    destruct (budgetRun ops _) as [b2 n]. simpl in *. lia.
  - specialize (IH (observeProviderAttempt o b) Hb).
    destruct (budgetRun ops _) as [b2 n]. simpl in *. lia.
  - specialize (IH (unobserve o b) Hb).
    destruct (budgetRun ops _) as [b2 n]. simpl in *. lia.
Qed.

(** The shared allowance: a constructed budget issues at most [maxAttempts]
    (never more than eight) provider requests however its users interleave, its
    counter is the number issued, and once it is spent every further attempt is
    refused with the last recorded failure. *)
Theorem attempt_budget_bounds n b ops (Hnew : newBudget n = Some b) :
  let '(b', issued) := budgetRun ops b in
  used b' = issued ∧ issued ≤ maxAttempts b ≤ MAX_LLM_MAX_TOTAL_PROVIDER_ATTEMPTS
  ∧ (remaining b' = 0 ↔ exhausted b' = true)
  ∧ (exhausted b' = true →
     consume b' = (b', inl (match lastFailure b' with
                            | Some e => LastFailure e | None => BudgetExhausted end)))
  ∧ (exhausted b' = false → ∃ b'', consume b' = (b'', inr (observers b')) ∧ used b'' = issued + 1).
Proof.
  unfold newBudget in Hnew. destruct (js_integer n) as [z|]; [|done].
  destruct (attempts_in_range z) eqn:Hr; [|done]. injection Hnew as <-.
  unfold attempts_in_range in Hr. bool_to_prop.
  destruct (budgetRun_spec ops (mkBudget z 0 None [])) as (Hm & Hu & Hle & Hn); [simpl; lia|].
  destruct (budgetRun ops _) as [b' issued]. simpl in *.
  split_and!; try lia.
  - unfold remaining, exhausted. rewrite Hm. split; intros; bool_to_prop; [apply Z.leb_le|]; lia.
  - intros He. unfold consume, throwIfExhausted. by rewrite He.
  - intros He. unfold consume, throwIfExhausted. rewrite He. eexists. split; [done|]. simpl. lia.
Qed.
End AttemptBudget.

Arguments LlmAttemptBudget : clear implicits.
Arguments BudgetOp : clear implicits.

(** ** Background producer capacity (background-admission-capacity.ts)

    The quotient is computed on doubles; below 2^53 the floor of the rounded
    quotient of two integers is the integer quotient. *)

Record BackgroundAdmissionCapacityConfig := {
  c_maxConcurrent : jsnum;
  c_maxQueueDepth : jsnum;
  c_backgroundAdmissionWaitMs : jsnum;
  c_requestTimeoutMs : jsnum
}.

(** [None] stands for the thrown [Error]. *)
Definition positiveInteger (value : jsnum) : option Z :=
  match js_integer value with Some z => if 0 <? z then Some z else None | None => None end.

Definition nonNegativeInteger (value : jsnum) : option Z :=
  match js_integer value with Some z => if 0 <=? z then Some z else None | None => None end.

Definition calculateBackgroundAdmissionCapacity (config : BackgroundAdmissionCapacityConfig)
  : option Z :=
  slots ← positiveInteger (c_maxConcurrent config);
  queueDepth ← nonNegativeInteger (c_maxQueueDepth config);
  waitMs ← nonNegativeInteger (c_backgroundAdmissionWaitMs config);
  requestTimeoutMs ← positiveInteger (c_requestTimeoutMs config);
  let usableQueueDepth := (waitMs * slots) / requestTimeoutMs in
  Some (slots + Z.min queueDepth (Z.max 0 usableQueueDepth)).

(** The cap, and whether the warning is emitted. *)
Definition resolveBackgroundProducerConcurrency (config : BackgroundAdmissionCapacityConfig)
    (enabled : bool) (configuredConcurrency : option jsnum) : option (Z * bool) :=
  capacity ← calculateBackgroundAdmissionCapacity config;
  configured ← match configuredConcurrency with
               | None => Some capacity
               | Some c => positiveInteger c
               end;
  if negb enabled then Some (configured, true)
  else if capacity <? configured then None
  else Some (configured, false).

Lemma positiveInteger_Some v z : positiveInteger v = Some z → js_integer v = Some z ∧ 0 < z.
Proof. unfold positiveInteger. intros. split_matches. by bool_to_prop. Qed.

Lemma nonNegativeInteger_Some v z : nonNegativeInteger v = Some z → js_integer v = Some z ∧ 0 ≤ z.
Proof. unfold nonNegativeInteger. intros. split_matches. by bool_to_prop. Qed.

(** An enforced producer cap is positive and its queued part can drain in the
    wait budget: with [slots] calls of at most [requestTimeoutMs] each in
    parallel, the work queued beyond the active slots is at most
    [waitMs * slots], and it fits in the queue; a larger configured value is
    refused. *)
Theorem background_cap_drains config configured n warned slots depth waitMs timeout
    (Hslots : js_integer (c_maxConcurrent config) = Some slots)
    (Hdepth : js_integer (c_maxQueueDepth config) = Some depth)
    (Hwait : js_integer (c_backgroundAdmissionWaitMs config) = Some waitMs)
    (Htimeout : js_integer (c_requestTimeoutMs config) = Some timeout)
    (Hres : resolveBackgroundProducerConcurrency config true configured = Some (n, warned)) :
  0 < n ∧ warned = false ∧ (n - slots) * timeout ≤ waitMs * slots ∧ n - slots ≤ depth
  ∧ ∀ m, js_integer m = Some (slots + depth + 1) →
         resolveBackgroundProducerConcurrency config true (Some m) = None.
Proof.
  unfold resolveBackgroundProducerConcurrency in *.
  destruct (calculateBackgroundAdmissionCapacity config) as [cap|] eqn:Hcap; [|done].
  assert (0 < slots ∧ cap = slots + Z.min depth (Z.max 0 (waitMs * slots / timeout))
          ∧ 0 ≤ depth ∧ 0 ≤ waitMs ∧ 0 < timeout) as (Hs & -> & Hd & Hw & Ht).
  { unfold calculateBackgroundAdmissionCapacity, positiveInteger, nonNegativeInteger in Hcap.
    rewrite Hslots, Hdepth, Hwait, Htimeout in Hcap. clear Hres.
    destruct (0 <? slots) eqn:?, (0 <=? depth) eqn:?, (0 <=? waitMs) eqn:?, (0 <? timeout) eqn:?;
      simplify_eq/=. bool_to_prop. lia. }
  simpl in *.
  assert (∀ z, z ≤ Z.min depth (Z.max 0 (waitMs * slots / timeout)) → z * timeout ≤ waitMs * slots
               ∧ z ≤ depth) as Hq.
  { intros z Hz. pose proof (Z.mul_div_le (waitMs * slots) timeout Ht).
    assert (0 ≤ waitMs * slots / timeout) by (apply Z.div_pos; nia). split; [nia|lia]. }
  destruct (match configured with Some _ => _ | None => _ end) as [k|] eqn:Hk; [|done].
  simpl in Hres. destruct (_ <? k) eqn:Hlt; [done|]. injection Hres as <- <-. bool_to_prop.
  assert (0 < k).
  { destruct configured; [by apply positiveInteger_Some in Hk as [_ ?]|]. injection Hk as <-. lia. }
  destruct (Hq (k - slots)) as [H1 H2]; [lia|]. split_and!; try done; try lia.
  intros m Hm. unfold positiveInteger. rewrite Hm. rewrite (proj2 (Z.ltb_lt _ _)) by lia. simpl.
  rewrite (proj2 (Z.ltb_lt _ _)) by lia. done.
Qed.

(** ** Witnesses *)

Definition demo_options (signal : option nat) (budget : option Z) (delay : Z)
  : BoundedAcquireOptions :=
  {| o_signal := signal; o_waitBudgetMs := budget; o_delayMs := js_of_Z delay |}.

(** One slot: a holder, a delayed request behind it, and the release. *)
Definition demo_events : list Event :=
  [EvAcquire 0 (demo_options None None 0); EvAcquire 5 (demo_options (Some 1%nat) (Some 100) 50);
   EvAcquire 6 (demo_options None (Some 100) 0); EvRelease 0].

Lemma admission_work_conserving_witness :
  CbReady 1 ∈ callbacks (run 1 2 demo_events gate0).1
  ∧ ATicket 1 ∈ (step 1 2 (EvFire (CbReady 1)) (run 1 2 demo_events gate0).1).2.
Proof.
  apply (admission_work_conserving 1 2 demo_events (mkWaiter 1 5 false) [mkWaiter 2 6 true]);
    vm_compute; reflexivity.
Defined.

Definition demo_budget_ops : list (BudgetOp string) :=
  [OpConsume; OpFailure "timeout"; OpConsume; OpConsume].

Lemma attempt_budget_bounds_witness :
  (budgetRun demo_budget_ops (mkBudget 2 0 None [])).2 = 2
  ∧ consume (budgetRun demo_budget_ops (mkBudget 2 0 None [])).1
    = ((budgetRun demo_budget_ops (mkBudget 2 0 None [])).1, inl (LastFailure "timeout")).
Proof.
  pose proof (attempt_budget_bounds (js_of_Z 2) (mkBudget 2 0 None []) demo_budget_ops eq_refl) as H.
  split; [reflexivity|].
  change (budgetRun demo_budget_ops (mkBudget 2 0 None []))
    with (mkBudget 2 2 (Some "timeout") [], 2) in *.
  destruct H as (_ & _ & _ & H & _). apply H. reflexivity.
Defined.

Definition demo_capacity : BackgroundAdmissionCapacityConfig :=
  {| c_maxConcurrent := js_of_Z 4; c_maxQueueDepth := js_of_Z 20;
     c_backgroundAdmissionWaitMs := js_of_Z 10000; c_requestTimeoutMs := js_of_Z 8000 |}.

Lemma background_cap_drains_witness :
  resolveBackgroundProducerConcurrency demo_capacity true None = Some (9, false)
  ∧ (9 - 4) * 8000 ≤ 10000 * 4.
Proof.
  split; [reflexivity|].
  apply (background_cap_drains demo_capacity None 9 false 4 20 10000 8000); reflexivity.
Defined.

End Admission.
