(* ===== verification/SlotLimiter.v ===== *)
(** * The distributed LLM slot (packages/llm-agent, redis-slot-limiter.ts)

    A Redis counter bounds the calls of all processes together; every slot has
    a lease key with the caller's UUID, so that only its owner releases it and a
    crashed owner's lease ends by expiry.  The two Lua scripts are atomic steps
    on the store; [acquireRedisSlot] is the retry loop around them. *)

From S2P Require Import Prelude Admission.
Import Admission(LlmOverloadReason(..)).

Module Slots.

Definition RETRY_MAX_DELAY_MS : Z := 1000.
Definition MAX_RETRIES : nat := 200.
Definition DEFAULT_MAX_CONSECUTIVE_REDIS_ERRORS : Z := 3.
Definition DEFAULT_LEASE_MS : Z := 60000.

(** ** The store

    [counter] is the key of the counter with its expiry time ([None]: no TTL),
    [leases] the lease keys, by UUID, with their expiry times.  A key is gone
    from its expiry time on. *)
Record SlotStore := mkStore {
  counter : option (Z * option Z);
  leases : list (string * Z)
}.

Definition alive (now : Z) (l : string * Z) : bool := now <? l.2.

(** The counter as Redis reads it at a time. *)
Definition counterAt (now : Z) (s : SlotStore) : option (Z * option Z) :=
  match counter s with
  | Some (v, Some e) => if now <? e then Some (v, Some e) else None
  | c => c
  end.

Definition valueAt (now : Z) (s : SlotStore) : Z :=
  match counterAt now s with Some (v, _) => v | None => 0 end.

(** [ACQUIRE_SCRIPT], for a positive TTL. *)
Definition acquireScript (now limit ttl : Z) (uuid : string) (s : SlotStore) : SlotStore * Z :=
  let current := valueAt now s + 1 in
  if current <=? limit
  then (mkStore (Some (current, Some (now + ttl)))
          ((uuid, now + ttl) :: filter (λ l, l.1 ≠ uuid) (leases s)), 1)
  else (mkStore (Some (current - 1, Some (now + ttl))) (leases s), 0).

(** [RELEASE_SCRIPT]. *)
Definition releaseScript (now : Z) (uuid : string) (s : SlotStore) : SlotStore * Z :=
  if existsb (λ l, bool_decide (l.1 = uuid) && alive now l) (leases s) then
    let val := valueAt now s - 1 in
    let ttl := match counterAt now s with Some (_, e) => e | None => None end in
    (mkStore (if val <? 0 then Some (0, None) else Some (val, ttl))
       (filter (λ l, l.1 ≠ uuid) (leases s)), 1)
  else (s, 0).

Inductive SlotOp :=
| SAcquire (now : Z) (uuid : string)
| SRelease (now : Z) (uuid : string).

Definition op_time (o : SlotOp) : Z := match o with SAcquire t _ | SRelease t _ => t end.

(** The live leases at a time. *)
Definition liveLeases (now : Z) (s : SlotStore) : Z := count_by (alive now) (leases s).

Section Store.
Context (limit ttl : Z).

Definition slotStep (o : SlotOp) (s : SlotStore) : SlotStore :=
  match o with
  | SAcquire now uuid => (acquireScript now limit ttl uuid s).1
  | SRelease now uuid => (releaseScript now uuid s).1
  end.

(** Operations in the order Redis executes them, with a clock that does not go
    back. *)
Fixpoint slotRun (clock : Z) (ops : list SlotOp) (s : SlotStore) : SlotStore :=
  match ops with [] => s | o :: ops' => slotRun (op_time o) ops' (slotStep o s) end.

Fixpoint timely (clock : Z) (ops : list SlotOp) : Prop :=
  match ops with [] => True | o :: ops' => clock ≤ op_time o ∧ timely (op_time o) ops' end.

(** Every lease ends within a TTL and no later than the counter, and the counter
    is at least the number of live leases and at most the limit. *)
Definition covered (clock : Z) (s : SlotStore) : Prop :=
  match counter s with
  | Some (v, Some e) => (∀ l, l ∈ leases s → l.2 ≤ e ∧ l.2 ≤ clock + ttl)
                        ∧ liveLeases clock s ≤ v ∧ 0 ≤ v ≤ Z.max 0 limit
  | Some (_, None) => False
  | None => leases s = []
  end.

Lemma live_mono t t' s : t ≤ t' → liveLeases t' s ≤ liveLeases t s.
Proof.
  intros Ht. apply count_by_le. intros l _. unfold alive. intros H.
  apply Z.ltb_lt in H. apply Z.ltb_lt. lia.
Qed.

Lemma live_filter t u (ls : list (string * Z)) :
  count_by (alive t) (filter (λ l, l.1 ≠ u) ls)
  = count_by (alive t) ls - count_by (λ l, bool_decide (l.1 = u) && alive t l) ls.
Proof.
  unfold count_by. induction ls as [|l ls IH]; [done|].
  rewrite filter_cons. simpl. destruct (decide (l.1 = u)) as [E|E].
  - rewrite decide_False by tauto. rewrite IH, bool_decide_true by done. simpl. lia.
  - rewrite decide_True by done. simpl. rewrite IH, bool_decide_false by done. simpl. lia.
Qed.

Lemma covered_value t s :
  covered t s → liveLeases t s ≤ valueAt t s ∧ 0 ≤ valueAt t s ≤ Z.max 0 limit.
Proof.
  unfold covered, valueAt, counterAt. intros H. destruct (counter s) as [[v [e|]]|]; [|done|].
  - destruct H as (He & Hl & Hv). destruct (t <? e) eqn:E; [lia|]. bool_to_prop.
    assert (liveLeases t s = 0) as ->; [|lia]. apply count_by_zero. intros l Hin.
    specialize (He l Hin). unfold alive. apply Z.ltb_ge. lia.
  - unfold liveLeases. rewrite H. unfold count_by. simpl. lia.
Qed.

Lemma covered_later t t' s : t ≤ t' → covered t s → covered t' s.
Proof.
  intros Ht H. unfold covered in *. destruct (counter s) as [[v [e|]]|]; try done.
  destruct H as (He & Hl & Hv). pose proof (live_mono t t' s Ht). split_and!; try lia.
  intros l Hin. specialize (He l Hin). lia.
Qed.

Lemma covered_ends t s l : covered t s → l ∈ leases s → l.2 ≤ t + ttl.
Proof.
  unfold covered. intros H Hin. destruct (counter s) as [[v [e|]]|]; [|done|].
  - destruct H as [He _]. by destruct (He l Hin).
  - rewrite H in Hin. by apply not_elem_of_nil in Hin.
Qed.

Lemma count_by_own t u (ls : list (string * Z)) :
  0 ≤ count_by (λ l, bool_decide (l.1 = u) && alive t l) ls.
Proof. apply count_by_nonneg. Qed.

Lemma covered_acquire now u s :
  0 < ttl → covered now s → covered now (acquireScript now limit ttl u s).1.
Proof.
  intros Httl Hc. pose proof (covered_value now s Hc) as [Hl Hv].
  unfold acquireScript. destruct (_ <=? limit) eqn:E; bool_to_prop; unfold covered; simpl.
  - split_and!; try lia.
    + intros l [->|[_ Hin]%list_elem_of_filter]%elem_of_cons; simpl; [lia|].
      pose proof (covered_ends now s l Hc Hin). lia.
    + unfold liveLeases. simpl. unfold count_by. simpl. fold (count_by (alive now)).
      change (sum_by _ (filter _ _)) with (count_by (alive now) (filter (λ l, l.1 ≠ u) (leases s))).
      rewrite live_filter. pose proof (count_by_own now u (leases s)).
      unfold liveLeases in Hl. case_match; lia.
  - split_and!; try lia.
    + intros l Hin. pose proof (covered_ends now s l Hc Hin). lia.
    + unfold liveLeases in *. simpl. lia.
Qed.

Lemma covered_release now u s : covered now s → covered now (releaseScript now u s).1.
Proof.
  intros Hc. pose proof (covered_value now s Hc) as [Hl Hv].
  unfold releaseScript. destruct (existsb _ _) eqn:E; [|done].
  apply existsb_exists in E as ([u' e'] & Hin & Hu). apply list_elem_of_In in Hin.
  assert (1 ≤ count_by (λ l, bool_decide (l.1 = u) && alive now l) (leases s)) as Hone.
  { pose proof (count_by_pos (λ l, bool_decide (l.1 = u) && alive now l) _ _ Hin Hu). lia. }
  bool_to_prop. unfold alive in *. simpl in *. bool_to_prop.
  unfold covered in Hc. unfold valueAt, counterAt in *.
  destruct (counter s) as [[v [e|]]|]; [|done|rewrite Hc in Hin; by apply not_elem_of_nil in Hin].
  destruct Hc as (He & Hlv & Hvl). pose proof (He _ Hin) as [Hle _]. simpl in Hle.
  rewrite (proj2 (Z.ltb_lt now e)) in * by lia.
  assert (count_by (alive now) (filter (λ l, l.1 ≠ u) (leases s)) ≤ v - 1) as Hf.
  { rewrite live_filter. unfold liveLeases in Hlv. unfold alive in *. lia. }
  pose proof (count_by_nonneg (alive now) (filter (λ l, l.1 ≠ u) (leases s))).
  rewrite (proj2 (Z.ltb_ge (v - 1) 0)) by lia. unfold covered. simpl. split_and!; try lia.
  - intros l [_ Hl']%list_elem_of_filter. by apply He.
  - done.
Qed.

(** ** Theorems about the store *)

Definition emptyStore : SlotStore := mkStore None [].

Fixpoint lastTime (clock : Z) (ops : list SlotOp) : Z :=
  match ops with [] => clock | o :: ops' => lastTime (op_time o) ops' end.

Lemma covered_reach clock ops s :
  0 < ttl → covered clock s → timely clock ops →
  covered (lastTime clock ops) (slotRun clock ops s).
Proof.
  intros Httl. revert clock s. induction ops as [|o ops IH]; intros clock s Hc Ht; simpl; [done|].
  destruct Ht as [Hle Ht]. apply (covered_later _ (op_time o)) in Hc; [|done].
  apply IH; [|done]. destruct o; simpl in *; [by apply covered_acquire|by apply covered_release].
Qed.

Lemma release_absent now u s :
  existsb (λ l, bool_decide (l.1 = u) && alive now l) (leases s) = false →
  releaseScript now u s = (s, 0).
Proof. unfold releaseScript. by intros ->. Qed.

Lemma release_own now u v e ls :
  0 ≤ v → now < e → filter (λ l : string * Z, l.1 ≠ u) ls = ls →
  releaseScript now u (mkStore (Some (v + 1, Some e)) ((u, e) :: ls))
  = (mkStore (Some (v, Some e)) ls, 1).
Proof.
  intros Hv He Hf. unfold releaseScript, valueAt, counterAt, alive. cbn [existsb leases counter fst snd].
  rewrite bool_decide_true by done. rewrite (proj2 (Z.ltb_lt now e)) by done. cbn [andb orb].
  rewrite (proj2 (Z.ltb_ge (v + 1 - 1) 0)) by lia.
  rewrite filter_cons_False by (simpl; tauto). rewrite Hf. by replace (v + 1 - 1) with v by lia.
Qed.

(** The global limit: when all processes use one lease time, at no time do
    more than [limit] unexpired leases exist, whatever the interleaving of
    acquire and release scripts, including releases after expiry and owners
    that never release. *)
Theorem slots_within_limit clock ops (Httl : 0 < ttl) (Ht : timely clock ops)
    now (Hnow : lastTime clock ops ≤ now) :
  liveLeases now (slotRun clock ops emptyStore) ≤ Z.max 0 limit.
Proof.
  pose proof (covered_reach clock ops emptyStore Httl eq_refl Ht) as Hc.
  apply (covered_later _ now) in Hc; [|done]. pose proof (covered_value _ _ Hc). lia.
Qed.

(** A release takes back exactly the caller's own slot: on a reachable store
    releasing an acquired UUID before its lease ends restores the counter and
    the live leases, and releasing again, or after the lease ended, changes
    nothing. *)
Theorem slot_release_exact clock ops (Httl : 0 < ttl) (Ht : timely clock ops)
    now now' u (Hnow : lastTime clock ops ≤ now ≤ now') (Hlease : now' < now + ttl)
    (Hfresh : u ∉ (slotRun clock ops emptyStore).(leases).*1)
    (Hok : (acquireScript now limit ttl u (slotRun clock ops emptyStore)).2 = 1) :
  let s := slotRun clock ops emptyStore in
  let s1 := (acquireScript now limit ttl u s).1 in
  let s2 := (releaseScript now' u s1).1 in
  (releaseScript now' u s1).2 = 1 ∧ valueAt now' s2 = valueAt now s ∧ leases s2 = leases s
  ∧ releaseScript now' u s2 = (s2, 0)
  ∧ ∀ late, now + ttl ≤ late → releaseScript late u s1 = (s1, 0).
Proof.
  pose proof (covered_reach clock ops emptyStore Httl eq_refl Ht) as Hc.
  set (s := slotRun clock ops emptyStore) in *.
  apply (covered_later _ now) in Hc; [|lia]. pose proof (covered_value _ _ Hc) as [_ Hv].
  assert (filter (λ l, l.1 ≠ u) (leases s) = leases s) as Hf.
  { apply filter_all. intros l Hl E. apply Hfresh. rewrite <-E. by apply list_elem_of_fmap_2. }
  assert (∀ t, existsb (λ l, bool_decide (l.1 = u) && alive t l) (leases s) = false) as Hnone.
  { intros t. apply not_true_is_false. intros (l & Hl & Hu)%existsb_exists. bool_to_prop. subst.
    apply Hfresh, list_elem_of_fmap_2. by apply list_elem_of_In. }
  unfold acquireScript in *. destruct (_ <=? limit); [|done]. rewrite Hf. simpl.
  rewrite release_own by (done || lia). simpl. split_and!; try done.
  - unfold valueAt at 1, counterAt. simpl. by rewrite (proj2 (Z.ltb_lt now' (now + ttl))) by lia.
  - apply release_absent. apply Hnone.
  - intros late Hlate. apply release_absent. simpl. rewrite Hnone. unfold alive. simpl.
    by rewrite (proj2 (Z.ltb_ge late (now + ttl))), andb_false_r by lia.
Qed.

(** Probes by fresh callers at the given times. *)
Fixpoint probes (times : list (Z * string)) (s : SlotStore) : SlotStore * list Z :=
  match times with
  | [] => (s, [])
  | (now, u) :: times' =>
      let '(s1, r) := acquireScript now limit ttl u s in
      let '(s2, rs) := probes times' s1 in (s2, r :: rs)
  end.

(** Each probe within a TTL of the one before. *)
Fixpoint steady (expiry : Z) (times : list (Z * string)) : Prop :=
  match times with [] => True | (now, _) :: times' => now < expiry ∧ steady (now + ttl) times' end.

(** Slots of crashed owners are not reclaimed under load: a refused probe
    still renews the counter's expiry, so while probes keep arriving within a
    TTL of each other a full counter refuses every one of them, also after all
    leases have expired. *)
Theorem full_counter_starves times e ls (Hsteady : steady e times) :
  let '(s, rs) := probes times (mkStore (Some (limit, Some e)) ls) in
  rs = replicate (length times) 0 ∧ leases s = ls ∧ ∃ e', counter s = Some (limit, Some e').
Proof.
  revert e Hsteady. induction times as [|[now u] times IH]; intros e Hs; simpl; [eauto|].
  destruct Hs as [Hlt Hs]. unfold acquireScript, valueAt, counterAt. cbn [counter leases].
  rewrite (proj2 (Z.ltb_lt now e)) by done. rewrite (proj2 (Z.leb_gt (limit + 1) limit)) by lia.
  replace (limit + 1 - 1) with limit by lia. specialize (IH (now + ttl) Hs).
  destruct (probes times _) as [s rs]. destruct IH as (-> & ? & ?). done.
Qed.
End Store.

(** ** The acquire loop ([acquireRedisSlot])

    What the loop sees during one attempt. *)

Inductive EvalReply :=
| Reply (result : Z)
| ReplyError.

Record Attempt := {
  at_aborted : bool;       (* the signal has fired when the attempt starts *)
  at_spent : Z;            (* Date.now() - startedAt before the EVAL *)
  at_reply : EvalReply;    (* what the EVAL settles to *)
  at_abortedInEval : bool; (* the signal fires before the EVAL settles *)
  at_spentAfter : Z;       (* Date.now() - startedAt after the EVAL *)
  at_abortedInSleep : bool
}.

Inductive SlotResult :=
| SlotAcquired
| SlotAborted (lateRelease : bool)
| SlotOverload (reason : LlmOverloadReason).

(** The result, the number of EVALs issued, and whether the caller's lease was
    ever taken by one of them. *)
Record SlotTrace := mkTrace { t_result : SlotResult; t_evals : nat; t_taken : bool }.

Section Loop.
Context (waitBudgetMs : option Z) (maxConsecutiveRedisErrors : Z) (oracle : nat → Attempt).

Definition overloadOf (sawRedisError : bool) : SlotResult :=
  SlotOverload (if sawRedisError then redis_unavailable else global_saturated).

Definition budgetSpent (spent : Z) : bool :=
  match waitBudgetMs with Some b => b <=? spent | None => false end.

(** [left] attempts remain; [attempt] is the loop variable. *)
Fixpoint slotLoop (left attempt : nat) (sawErr : bool) (consec : Z) (evals : nat) : SlotTrace :=
  match left with
  | O => mkTrace (overloadOf sawErr) evals false
  | S left' =>
      let a := oracle attempt in
      if at_aborted a then mkTrace (SlotAborted false) evals false
      else if budgetSpent (at_spent a) then mkTrace (overloadOf sawErr) evals false
      else
        let evals' := S evals in
        let next saw c :=
          if bool_decide (left' ≠ 0%nat) && negb (budgetSpent (at_spentAfter a))
             && at_abortedInSleep a
          then mkTrace (SlotAborted false) evals' false
          else slotLoop left' (S attempt) saw c evals' in
        if at_abortedInEval a then
          let taken := match at_reply a with Reply r => r =? 1 | ReplyError => false end in
          mkTrace (SlotAborted taken) evals' taken
        else
          match at_reply a with
          | Reply r => if r =? 1 then mkTrace SlotAcquired evals' true else next sawErr 0
          | ReplyError =>
              if maxConsecutiveRedisErrors <=? consec + 1
              then mkTrace (overloadOf true) evals' false
              else next true (consec + 1)
          end
  end.

Definition acquireRedisSlot (maxRetries : nat) (abortedAtStart : bool) : SlotTrace :=
  if abortedAtStart then mkTrace (SlotAborted false) 0 false
  else slotLoop maxRetries 0 false 0 0.

Lemma slotLoop_spec left attempt saw consec evals :
  let t := slotLoop left attempt saw consec evals in
  (t_evals t ≤ evals + left)%nat
  ∧ (t_taken t = true ↔ t_result t = SlotAcquired ∨ t_result t = SlotAborted true)
  ∧ (t_result t = SlotOverload redis_unavailable →
     saw = true ∨ ∃ i, (attempt ≤ i < attempt + left)%nat ∧ at_reply (oracle i) = ReplyError)
  ∧ (t_result t = SlotOverload global_saturated → saw = false)
  ∧ t_result t ≠ SlotOverload queue_full ∧ t_result t ≠ SlotOverload wait_timeout.
Proof.
  revert attempt saw consec evals. induction left as [|left IH]; intros attempt saw consec evals;
    simpl.
  { split_and!; try (unfold overloadOf; destruct saw); naive_solver lia. }
  destruct (at_aborted (oracle attempt)); [simpl; naive_solver lia|].
  destruct (budgetSpent _).
  { simpl. split_and!; try (unfold overloadOf; destruct saw); naive_solver lia. }
  destruct (at_abortedInEval _).
  { destruct (at_reply _) as [r|]; [destruct (r =? 1)|]; simpl; naive_solver lia. }
  destruct (at_reply (oracle attempt)) as [r|] eqn:Hr.
  - destruct (r =? 1); [simpl; naive_solver lia|].
    destruct (_ && _); [simpl; naive_solver lia|].
    specialize (IH (S attempt) saw 0 (S evals)).
    destruct IH as (H1 & H2 & H3 & H4 & H5 & H6). split_and!; try done; [lia|].
    intros H. destruct (H3 H) as [?|(i & ? & ?)]; [by left|right; exists i; split; [lia|done]].
  - destruct (_ <=? consec + 1).
    { simpl. naive_solver lia. }
    destruct (_ && _); [simpl; naive_solver lia|].
    specialize (IH (S attempt) true (consec + 1) (S evals)).
    destruct IH as (H1 & H2 & H3 & H4 & H5 & H6). split_and!; try done; [lia| |].
    + intros _. right. exists attempt. split; [lia|done].
    + intros H. by specialize (H4 H).
Qed.

(** The acquire loop is bounded and leaks nothing: it issues at most
    [maxRetries] scripts; the caller's lease is taken only when the call
    returns the slot, or when it was aborted during the script, and then the
    late release is scheduled; and the overload reason tells a Redis failure
    from saturation. *)
Theorem acquireRedisSlot_bounded maxRetries abortedAtStart :
  let t := acquireRedisSlot maxRetries abortedAtStart in
  (t_evals t ≤ maxRetries)%nat
  ∧ (t_taken t = true ↔ t_result t = SlotAcquired ∨ t_result t = SlotAborted true)
  ∧ (t_result t = SlotOverload redis_unavailable →
     ∃ i, (i < maxRetries)%nat ∧ at_reply (oracle i) = ReplyError)
  ∧ (∀ r, t_result t = SlotOverload r → r = redis_unavailable ∨ r = global_saturated).
Proof.
  unfold acquireRedisSlot. destruct abortedAtStart; [simpl; naive_solver lia|].
  destruct (slotLoop_spec maxRetries 0 false 0 0) as (H1 & H2 & H3 & H4 & H5 & H6).
  split_and!; try done.
  - intros H. destruct (H3 H) as [?|(i & ? & ?)]; [done|]. exists i. split; [lia|done].
  - intros r Hr. rewrite Hr in *. destruct r; auto; done.
Qed.
End Loop.

(** ** Witnesses *)

(** Two owners fill a limit of two; the first crashes; a third is refused until
    the leases end. *)
Definition demo_slot_ops : list SlotOp :=
  [SAcquire 0 "a"; SAcquire 10 "b"; SAcquire 20 "c"; SRelease 30 "b"].

Lemma slots_within_limit_witness :
  liveLeases 15 (slotRun 2 100 0 (take 2 demo_slot_ops) emptyStore) = 2
  ∧ liveLeases 15 (slotRun 2 100 0 (take 2 demo_slot_ops) emptyStore) ≤ 2.
Proof.
  split; [vm_compute; reflexivity|].
  apply (slots_within_limit 2 100 0 (take 2 demo_slot_ops)); simpl; lia.
Defined.

Lemma slot_release_exact_witness :
  valueAt 60 (releaseScript 60 "d"
    (acquireScript 40 2 100 "d" (slotRun 2 100 0 demo_slot_ops emptyStore)).1).1 = 1.
Proof.
  pose proof (slot_release_exact 2 100 0 demo_slot_ops ltac:(lia) ltac:(simpl; lia) 40 60 "d"
    ltac:(simpl; lia) ltac:(lia)) as H. simpl in H.
  destruct H as (_ & Hv & _); [vm_compute; set_solver|reflexivity|].
  exact Hv.
Defined.

(** Owner "a" crashed at time 0; at time 190 no lease is alive and the probes of
    others are still refused. *)
Lemma full_counter_starves_witness :
  let s := (acquireScript 0 1 100 "a" emptyStore).1 in
  liveLeases 190 s = 0
  ∧ (probes 1 100 [(50, "b"); (120, "b"); (190, "b")] s).2 = [0; 0; 0].
Proof.
  split; [vm_compute; reflexivity|].
  pose proof (full_counter_starves 1 100 [(50, "b"); (120, "b"); (190, "b")] 100
    [("a", 100)]) as H.
  destruct (probes _ _ _ (mkStore _ _)) as [s rs] eqn:E. vm_compute in E.
  destruct H as [Hrs _]; [simpl; lia|]. injection E as <- <-. exact Hrs.
Defined.

End Slots.
