(* ===== verification/Coordinator.v ===== *)
(** * The admission coordinator (packages/llm-agent, llm-admission-coordinator.ts)

    [acquire] combines the local gate with the optional global slot: a local
    ticket is held during one global probe and given back before the caller
    backs off and queues again.  The two resources are behind interfaces, so the
    loop is modelled against an arbitrary environment: everything it observes
    in one round (the clock, the abort signal, the answers of the queue and of
    the global port) is a [Round], and what it does to the two resources is the
    list of its [Action]s.  Wait-time accounting and metrics are left out. *)

From S2P Require Import Prelude Admission SlotLimiter.
Import Admission(LlmOverloadReason(..), Rejection(..), AdmissionBudgetConfig(..),
  admissionWaitBudgetMs).

Module Coordinator.

Definition DEFAULT_GLOBAL_PROBE_ATTEMPTS : Z := 200.
Definition DEFAULT_GLOBAL_PROBE_DELAY_MS : Z := 50.
Definition MAX_GLOBAL_PROBE_DELAY_MS : Z := 1000.

Record LlmAdmissionCoordinatorConfig := {
  budgets : AdmissionBudgetConfig;
  globalConcurrencyEnabled : bool;
  globalAcquireMaxRetries : option Z;
  globalAcquireRetryDelayMs : option Z
}.

(** The constructor refuses a global limit without a global port. *)
Definition newCoordinator (config : LlmAdmissionCoordinatorConfig) (globalPort : bool)
  : option LlmAdmissionCoordinatorConfig :=
  if globalConcurrencyEnabled config && negb globalPort then None else Some config.

(** How [queue.acquire] and [globalPort.acquire] settle. *)
Inductive LocalAnswer := LTicket | LReject (r : Rejection).
Inductive GlobalAnswer := GSlot | GOverload (r : LlmOverloadReason) | GOther.

Record Round := {
  rd_aborted : bool;        (* signal.aborted at the head of the loop *)
  rd_elapsed : Z;           (* Date.now() - startedAtMs at the head *)
  rd_local : LocalAnswer;
  rd_localAborted : bool;   (* signal.aborted when the queue rejected *)
  rd_global : GlobalAnswer;
  rd_deadline : bool;       (* probeDeadline.aborted when the probe failed *)
  rd_abortedAfter : bool;   (* signal.aborted when the probe failed *)
  rd_elapsedAfter : Z;
  rd_jitter : Q;            (* 0.5 + rng() * 0.5 *)
  rd_requeue : LocalAnswer;
  rd_requeueAborted : bool
}.

Inductive CoordError :=
| CAborted
| COverload (r : LlmOverloadReason)
| CRejected (r : Rejection)
| COther.

Inductive Action :=
| TakeLocal
| GiveLocal
| TakeGlobal
| GiveGlobal
| Requeue (delayMs : Q).

(** A lease, or the error that is thrown. *)
Inductive Outcome := Lease (withGlobal : bool) | Thrown (e : CoordError).

Section Acquire.
Context (config : LlmAdmissionCoordinatorConfig) (feature : option string).
Context (rounds : nat → Round).

Definition waitBudget : Z := admissionWaitBudgetMs (budgets config) feature.
Definition maxProbeAttempts : Z :=
  nullish (globalAcquireMaxRetries config) DEFAULT_GLOBAL_PROBE_ATTEMPTS.
Definition retryDelayMs : Z :=
  nullish (globalAcquireRetryDelayMs config) DEFAULT_GLOBAL_PROBE_DELAY_MS.

Definition giveBack (ticket : bool) : list Action := if ticket then [GiveLocal] else [].

(** [delayMs] of the re-queue. *)
Definition requeueDelay (probeAttempts : Z) (jitter : Q) (remainingMs : Z) : Q :=
  let nominal := Z.min MAX_GLOBAL_PROBE_DELAY_MS (retryDelayMs * 2 ^ (probeAttempts - 1)) in
  let d := Qmult (inject_Z nominal) jitter in
  if Qle_bool d (inject_Z remainingMs) then d else inject_Z remainingMs.

(** What a failed probe is turned into ([admissionError]). *)
Definition probeError (r : Round) : CoordError :=
  if rd_deadline r && negb (rd_abortedAfter r) then COverload global_saturated
  else match rd_global r with GOverload o => COverload o | _ => COther end.

(** One pass of [while (true)]; [None] when the fuel runs out. *)
Fixpoint loop (fuel : nat) (round : nat) (ticket : bool) (probeAttempts consecutive : Z)
  : option (Outcome * list Action) :=
  match fuel with
  | O => None
  | S fuel' =>
    let r := rounds round in
    if rd_aborted r then Some (Thrown CAborted, giveBack ticket)
    else if waitBudget - rd_elapsed r <=? 0 then
      Some (Thrown (COverload (if globalConcurrencyEnabled config
                               then global_saturated else wait_timeout)), giveBack ticket)
    else
      match (if ticket then LTicket else rd_local r) with
      | LReject e =>
          Some (Thrown (if rd_localAborted r then CAborted else CRejected e), [])
      | LTicket =>
        let took := if ticket then [] else [TakeLocal] in
        if negb (globalConcurrencyEnabled config) then Some (Lease false, took)
        else
          match rd_global r with
          | GSlot => Some (Lease true, took ++ [TakeGlobal])
          | _ =>
            let acts := took ++ [GiveLocal] in
            if rd_abortedAfter r then Some (Thrown CAborted, acts)
            else
              match probeError r with
              | COverload reason =>
                let classified :=
                  match reason with
                  | redis_unavailable => Some (consecutive + 1)
                  | global_saturated => Some 0
                  | _ => None
                  end in
                match classified with
                | None => Some (Thrown (COverload reason), acts)
                | Some consecutive' =>
                  let probes := probeAttempts + 1 in
                  let left := waitBudget - rd_elapsedAfter r in
                  if (Slots.DEFAULT_MAX_CONSECUTIVE_REDIS_ERRORS <=? consecutive')
                     || (maxProbeAttempts <=? probes) || (left <=? 0)
                  then Some (Thrown (COverload reason), acts)
                  else
                    let acts' := acts ++ [Requeue (requeueDelay probes (rd_jitter r) left)] in
                    match rd_requeue r with
                    | LReject e =>
                        Some (Thrown (if rd_requeueAborted r then CAborted else CRejected e), acts')
                    | LTicket =>
                        match loop fuel' (S round) true probes consecutive' with
                        | Some (o, more) => Some (o, acts' ++ [TakeLocal] ++ more)
                        | None => None
                        end
                    end
                end
              | e => Some (Thrown e, acts)
              end
          end
      end
  end.

Definition acquire (fuel : nat) : option (Outcome * list Action) := loop fuel 0 false 0 0.

(** [lease.release()]: the global slot first; the local ticket whether or not
    that call throws; a second call does nothing. *)
Definition releaseLease (withGlobal released : bool) : bool * list Action :=
  if released then (true, [])
  else (true, (if withGlobal then [GiveGlobal] else []) ++ [GiveLocal]).

(** *** What the caller holds *)

Definition local_delta (a : Action) : Z :=
  match a with TakeLocal => 1 | GiveLocal => -1 | _ => 0 end.
Definition global_delta (a : Action) : Z :=
  match a with TakeGlobal => 1 | GiveGlobal => -1 | _ => 0 end.

(** Never more than one ticket, never a release of a ticket that is not held. *)
Fixpoint disciplined (held : Z) (acts : list Action) : bool :=
  match acts with
  | [] => true
  | a :: acts' =>
      let held' := held + local_delta a in
      (0 <=? held') && (held' <=? 1)
      && match a with TakeGlobal => held =? 1 | Requeue _ => held =? 0 | _ => true end
      && disciplined held' acts'
  end.

Definition is_requeue (a : Action) : bool := match a with Requeue _ => true | _ => false end.

Lemma disciplined_app held a b :
  disciplined held (a ++ b) = disciplined held a && disciplined (held + sum_by local_delta a) b.
Proof.
  revert held. induction a as [|x a IH]; intros held; simpl.
  - by rewrite Z.add_0_r.
  - rewrite IH, Z.add_assoc. by rewrite !andb_assoc.
Qed.

Definition holds (o : Outcome) : Z := match o with Lease _ => 1 | Thrown _ => 0 end.
Definition holdsGlobal (o : Outcome) : Z := match o with Lease true => 1 | _ => 0 end.

(** The contract of a pass that starts holding a ticket or not. *)
Definition contract (ticket : bool) (probeAttempts : Z) (res : Outcome * list Action) : Prop :=
  let held := if ticket then 1 else 0 in
  disciplined held res.2 = true
  ∧ held + sum_by local_delta res.2 = holds res.1
  ∧ sum_by global_delta res.2 = holdsGlobal res.1
  ∧ probeAttempts + count_by is_requeue res.2 ≤ Z.max probeAttempts (maxProbeAttempts - 1)
  ∧ (∀ g, res.1 = Lease g → g = globalConcurrencyEnabled config).

Lemma contract_stop (ticket : bool) probeAttempts (o : Outcome) acts :
  disciplined (if ticket then 1 else 0) acts = true →
  (if ticket then 1 else 0) + sum_by local_delta acts = holds o →
  sum_by global_delta acts = holdsGlobal o →
  count_by is_requeue acts = 0 →
  (∀ g, o = Lease g → g = globalConcurrencyEnabled config) →
  contract ticket probeAttempts (o, acts).
Proof. intros H1 H2 H3 H4 H5. split_and!; simpl; try done. lia. Qed.

Lemma contract_requeue (ticket : bool) probeAttempts e d :
  probeAttempts + 1 < maxProbeAttempts →
  contract ticket probeAttempts
    (Thrown e, ((if ticket then [] else [TakeLocal]) ++ [GiveLocal]) ++ [Requeue d]).
Proof. intros H. destruct ticket; split_and!; try done; unfold count_by; simpl; lia. Qed.

(** Giving the ticket back, queueing again and holding it for the next pass. *)
Lemma contract_again (ticket : bool) probeAttempts d (o : Outcome) more :
  probeAttempts + 1 < maxProbeAttempts → contract true (probeAttempts + 1) (o, more) →
  contract ticket probeAttempts
    (o, (((if ticket then [] else [TakeLocal]) ++ [GiveLocal]) ++ [Requeue d]) ++ TakeLocal :: more).
Proof.
  intros Hlt (Hd & Hh & Hg & Hp & Hw). simpl in *. unfold count_by in *.
  destruct ticket; split_and!; simpl; try done; unfold count_by; simpl; lia.
Qed.

Lemma loop_contract fuel round ticket probeAttempts consecutive :
  Z.max 0 (maxProbeAttempts - 1 - probeAttempts) < Z.of_nat fuel →
  ∃ res, loop fuel round ticket probeAttempts consecutive = Some res
         ∧ contract ticket probeAttempts res.
Proof.
  revert round ticket probeAttempts consecutive.
  induction fuel as [|fuel IH]; intros round ticket probeAttempts consecutive Hf; [lia|].
  cbn [loop]. set (r := rounds round).
  destruct (rd_aborted r).
  { eexists; split; [done|]. by destruct ticket; apply contract_stop. }
  destruct (waitBudget - rd_elapsed r <=? 0).
  { eexists; split; [done|]. by destruct ticket; apply contract_stop. }
  destruct (if ticket then LTicket else rd_local r) as [|e] eqn:Hl.
  2:{ destruct ticket; [done|]. eexists; split; [done|]. by apply contract_stop. }
  destruct (globalConcurrencyEnabled config) eqn:Hg; simpl.
  2:{ eexists; split; [done|]. destruct ticket; apply contract_stop; try done; congruence. }
  destruct (rd_global r) eqn:Hgl.
  { eexists; split; [done|]. destruct ticket; apply contract_stop; try done; congruence. }
  all: destruct (rd_abortedAfter r);
    [eexists; split; [done|]; by destruct ticket; apply contract_stop|].
  all: destruct (probeError r) as [|reason|rj|];
    try (eexists; split; [done|]; by destruct ticket; apply contract_stop).
  all: destruct (match reason with global_saturated => Some 0 | _ => _ end) as [c'|];
    [|eexists; split; [done|]; by destruct ticket; apply contract_stop].
  all: destruct (_ || _ || _) eqn:Hstop;
    [eexists; split; [done|]; by destruct ticket; apply contract_stop|].
  all: bool_to_prop; destruct (rd_requeue r) as [|e];
    [|eexists; split; [done|]; by apply contract_requeue].
  all: destruct (IH (S round) true (probeAttempts + 1) c' ltac:(lia)) as ([o more] & -> & Hc).
  all: eexists; split; [done|]; by apply contract_again.
Qed.

(** C25. No leak and no endless probing: whatever the queue, the global port, the
    clock and the signal do, [acquire] settles within [maxProbeAttempts] rounds;
    it re-queues at most [maxProbeAttempts - 1] times, never with a ticket in
    hand, holds at most one local ticket at any moment and probes only while
    holding it; a lease holds exactly one ticket and, with the global limit on,
    exactly one slot, and every thrown error holds neither. *)
Theorem coordinator_leak_free fuel (Hfuel : Z.max 1 maxProbeAttempts ≤ Z.of_nat fuel) :
  ∃ o acts, acquire fuel = Some (o, acts)
    ∧ disciplined 0 acts = true
    ∧ sum_by local_delta acts = (match o with Lease _ => 1 | Thrown _ => 0 end)
    ∧ sum_by global_delta acts
      = (match o with
         | Lease _ => if globalConcurrencyEnabled config then 1 else 0
         | Thrown _ => 0
         end)
    ∧ count_by is_requeue acts ≤ Z.max 0 (maxProbeAttempts - 1).
Proof.
  destruct (loop_contract fuel 0 false 0 0) as ([o acts] & Hl & Hd & Hh & Hg & Hp & Hw); [lia|].
  exists o, acts. cbn [fst snd] in *. split_and!; [done|done| | |lia].
  - rewrite Z.add_0_l in Hh. rewrite Hh. by destruct o.
  - rewrite Hg. destruct o as [g|]; [|done]. rewrite <-(Hw g eq_refl). by destruct g.
Qed.

(** Releasing a lease gives back everything it holds, once. *)
Theorem lease_release_complete fuel g acts
    (Hacq : acquire fuel = Some (Lease g, acts))
    (Hfuel : Z.max 1 maxProbeAttempts ≤ Z.of_nat fuel) :
  let '(released, gave) := releaseLease g false in
  sum_by local_delta (acts ++ gave) = 0 ∧ sum_by global_delta (acts ++ gave) = 0
  ∧ disciplined 0 (acts ++ gave) = true ∧ releaseLease g released = (true, []).
Proof.
  destruct (loop_contract fuel 0 false 0 0) as ([o a] & Hl & Hd & Hh & Hg & _ & Hw); [lia|].
  unfold acquire in Hacq. rewrite Hl in Hacq. injection Hacq as -> ->. simpl in *.
  rewrite !sum_by_app, disciplined_app, Hd, Hg. rewrite Z.add_0_l in *. rewrite Hh.
  by destruct g.
Qed.
End Acquire.

(** ** Witnesses *)

Definition demo_config : LlmAdmissionCoordinatorConfig :=
  {| budgets := {| Admission.chatAdmissionWaitMs := 5000;
                Admission.backgroundAdmissionWaitMs := 500 |};
     globalConcurrencyEnabled := true;
     globalAcquireMaxRetries := Some 4; globalAcquireRetryDelayMs := None |}.

(** Saturated twice, then admitted. *)
Definition demo_rounds (n : nat) : Round :=
  {| rd_aborted := false; rd_elapsed := 100 * Z.of_nat n; rd_local := LTicket;
     rd_localAborted := false;
     rd_global := if bool_decide (n = 2%nat) then GSlot else GOverload global_saturated;
     rd_deadline := false; rd_abortedAfter := false; rd_elapsedAfter := 100 * Z.of_nat n + 20;
     rd_jitter := 1 # 2; rd_requeue := LTicket; rd_requeueAborted := false |}.

Lemma coordinator_leak_free_witness :
  ∃ acts, acquire demo_config (Some "FREE_FORM_CHAT") demo_rounds 4 = Some (Lease true, acts)
    ∧ sum_by local_delta acts = 1 ∧ count_by is_requeue acts ≤ 3.
Proof.
  destruct (coordinator_leak_free demo_config (Some "FREE_FORM_CHAT") demo_rounds 4)
    as (o & acts & Ha & _ & Hl & _ & Hq); [vm_compute; discriminate|].
  assert (o = Lease true) as ->.
  { revert Ha. vm_compute. intros Ha. by injection Ha as <-. }
  exists acts. split; [exact Ha|]. split; [exact Hl|exact Hq].
Defined.

Lemma lease_release_complete_witness :
  let acts := match acquire demo_config None demo_rounds 4 with
              | Some (_, acts) => acts | None => [] end in
  sum_by local_delta (acts ++ [GiveGlobal; GiveLocal]) = 0.
Proof.
  pose proof (lease_release_complete demo_config None demo_rounds 4 true
    (match acquire demo_config None demo_rounds 4 with
     | Some (_, acts) => acts | None => [] end)) as H.
  apply H; [vm_compute; reflexivity|vm_compute; discriminate].
Defined.

End Coordinator.
