(* ===== verification/Failover.v ===== *)
(** * Provider failover (packages/llm-agent, failover-adapter.ts)

    The adapter keeps a circuit per provider and walks through the candidates of
    a request.  Requests run concurrently: each is a [Run] that advances between
    its awaits (the provider call and the quick-retry sleep), all on one circuit
    map.  [World] has the map, the requests and, as history, the outcomes recorded
    for each provider.  The provider's answer, the abort signal, the shared attempt
    budget and the clock are inputs of the steps.  The metric and event callbacks
    are left out. *)

From S2P Require Import Prelude.

Module Failover.

(** [LlmProviderError.reason]. *)
Inductive Reason :=
| rate_limit | timeout | server_error | network | auth | bad_request | quota_exceeded | unknown.

#[global] Instance Reason_eq_dec : EqDecision Reason.
Proof. solve_decision. Defined.

(** A point in time or [Number.POSITIVE_INFINITY]. *)
Inductive Time := At (t : Z) | Infinity.

Definition reached (t : Time) (now : Z) : bool :=
  match t with At t => t <=? now | Infinity => false end.

Record CircuitState := mkCircuit {
  healthyAgainAt : Time;
  opened : bool;
  successCount : Z;
  consecutiveLongCooldowns : Z;
  consecutiveAuthFailures : Z;
  neverServedAlerted : bool;
  quarantined : bool
}.

Abbreviation Circuit := (gmap string CircuitState).

(** The state [getState] creates. *)
Definition freshState : CircuitState := mkCircuit (At 0) false 0 0 0 false false.

Definition getState (p : string) (c : Circuit) : CircuitState := default freshState (c !! p).

(** ** Planning *)

Definition healthy (now : Z) (c : Circuit) (p : string) : bool :=
  match c !! p with
  | Some s => negb (quarantined s) && reached (healthyAgainAt s) now
  | None => 0 <=? now
  end.

Definition eligible (c : Circuit) (p : string) : bool :=
  match c !! p with Some s => negb (quarantined s) | None => true end.

Record Plan := mkPlan {
  ordered : list string;
  suppressed : list string;
  degraded : bool
}.

Definition pickOrdered (candidates : list string) (now : Z) (c : Circuit) : Plan :=
  let h := filter (λ p, healthy now c p = true) candidates in
  if bool_decide (h = []) then
    let e := filter (λ p, eligible c p = true) candidates in
    if bool_decide (e = []) then mkPlan [] candidates false
    else mkPlan e (filter (λ p, eligible c p = false) candidates) true
  else mkPlan h (filter (λ p, healthy now c p = false) candidates) false.

(** ** The circuit of one provider *)

Definition isLongCooldown (r : Reason) : bool :=
  bool_decide (r ∈ [quota_exceeded; auth; rate_limit]).

Definition success (s : CircuitState) : CircuitState :=
  mkCircuit (At 0) false (successCount s + 1) 0 0 false (quarantined s).

Definition failure (r : Reason) (s : CircuitState) : CircuitState :=
  let long := isLongCooldown r in
  let streak := if long then consecutiveLongCooldowns s + 1 else 0 in
  let authStreak := if decide (r = auth) then consecutiveAuthFailures s + 1 else 0 in
  let quarantine := bool_decide (r = auth) && (3 <=? authStreak) && negb (quarantined s) in
  mkCircuit (if quarantine then Infinity else healthyAgainAt s) (opened s) (successCount s)
    streak authStreak
    (if long then neverServedAlerted s || (3 <=? streak) else false)
    (quarantined s || quarantine).

Definition recordSuccess (p : string) (c : Circuit) : Circuit := <[p := success (getState p c)]> c.

Definition recordFailure (p : string) (r : Reason) (c : Circuit) : Circuit :=
  <[p := failure r (getState p c)]> c.

Record Config := mkConfig {
  cooldownLongMs : Z;
  cooldownShortMs : Z;
  maxAttempts : Z
}.

(** The constructor's normalisation of the configured number of attempts. *)
Definition normalizeMaxAttempts (configured : jsnum) : Z :=
  Z.max 1 (default 2 (js_floor configured)).

(** The timed cooldown after the last attempt; a quarantine is left alone. *)
Definition openCircuit (cfg : Config) (now : Z) (p : string) (r : Reason) (c : Circuit) : Circuit :=
  let s := getState p c in
  if quarantined s then c
  else <[p := mkCircuit
                (At (now + (if isLongCooldown r then cooldownLongMs cfg else cooldownShortMs cfg)))
                true (successCount s) (consecutiveLongCooldowns s) (consecutiveAuthFailures s)
                (neverServedAlerted s) (quarantined s)]> c.

(** ** One request *)

Inductive Outcome :=
| Succeeded (p : string)
| ModelOverrideRejected
| AbortThrown                       (** the signal's reason, or the abort error *)
| BudgetThrown                      (** [throwIfExhausted] *)
| AllExhausted (providers : list string) (reasons : list Reason).

Inductive Control :=
| Calling (p : string) (attempt : Z) (rest : list string)
| Sleeping (p : string) (attempt : Z) (rest : list string)
| Done (o : Outcome).

(** [called] is the history of the provider calls of the request. *)
Record Run := mkRun {
  plan : Plan;
  control : Control;
  failureReasons : list Reason;
  called : list string
}.

Section Failover.
Context (cfg : Config) (candidates : list string).

Definition attemptsOf (pl : Plan) : Z := if degraded pl then 1 else maxAttempts cfg.

(** Before a call: the abort signal, then the budget. *)
Definition tryCall (aborted exhausted : bool) (p : string) (attempt : Z) (rest : list string) (r : Run)
  : Run :=
  if aborted then mkRun (plan r) (Done AbortThrown) (failureReasons r) (called r)
  else if exhausted then mkRun (plan r) (Done BudgetThrown) (failureReasons r) (called r)
  else mkRun (plan r) (Calling p attempt rest) (failureReasons r) (called r ++ [p]).

Definition finish (r : Run) : Run :=
  let providers := if bool_decide (ordered (plan r) = []) then candidates else ordered (plan r) in
  mkRun (plan r) (Done (AllExhausted providers (failureReasons r))) (failureReasons r) (called r).

(** The head of the outer loop. *)
Definition nextCandidate (aborted exhausted : bool) (rest : list string) (r : Run) : Run :=
  match rest with
  | [] => finish r
  | p :: rest' => tryCall aborted exhausted p 1 rest' r
  end.

Definition begin (now : Z) (badOverride aborted exhausted : bool) (c : Circuit) : Run :=
  let pl := pickOrdered candidates now c in
  if badOverride then mkRun (mkPlan [] [] false) (Done ModelOverrideRejected) [] []
  else nextCandidate aborted exhausted (ordered pl) (mkRun pl (Calling "" 0 []) [] []).

(** The provider answered. *)
Inductive Answer := Result | Error (r : Reason) (isAbortError : bool).

(** The state of the signal and of the budget at a resumption. *)
Record Input := mkInput { i_now : Z; i_aborted : bool; i_exhausted : bool }.

(** After a failed call that is not an abort. *)
Definition afterFailure (i : Input) (p : string) (attempt : Z) (rest : list string) (rs : Reason)
    (c : Circuit) (r : Run) : Circuit * Run :=
  let c1 := recordFailure p rs c in
  let r1 := mkRun (plan r) (control r) (failureReasons r ++ [rs]) (called r) in
  if isLongCooldown rs || (attemptsOf (plan r) <=? attempt) || i_exhausted i then
    (openCircuit cfg (i_now i) p rs c1,
     if i_exhausted i then finish r1 else nextCandidate (i_aborted i) (i_exhausted i) rest r1)
  else (c1, mkRun (plan r) (Sleeping p attempt rest) (failureReasons r1) (called r)).

Definition onAnswer (i : Input) (a : Answer) (c : Circuit) (r : Run) : Circuit * Run :=
  match control r with
  | Calling p attempt rest =>
      match a with
      | Result => (recordSuccess p c, mkRun (plan r) (Done (Succeeded p)) (failureReasons r) (called r))
      | Error rs isAbort =>
          if i_aborted i || isAbort
          then (c, mkRun (plan r) (Done AbortThrown) (failureReasons r) (called r))
          else afterFailure i p attempt rest rs c r
      end
  | _ => (c, r)
  end.

(** The sleep ended; an abort during it rejects. *)
Definition onWake (i : Input) (r : Run) : Run :=
  match control r with
  | Sleeping p attempt rest => tryCall (i_aborted i) (i_exhausted i) p (attempt + 1) rest r
  | _ => r
  end.

(** ** All requests *)

Inductive Recorded := Served | Failed (r : Reason).

#[global] Instance Recorded_eq_dec : EqDecision Recorded.
Proof. solve_decision. Defined.

Record World := mkWorld {
  circuit : Circuit;
  runs : gmap nat Run;
  recorded : gmap string (list Recorded)   (** history: outcomes per provider *)
}.

Definition initWorld : World := mkWorld ∅ ∅ ∅.

Inductive Event :=
| EBegin (id : nat) (now : Z) (badOverride aborted exhausted : bool)
| EAnswer (id : nat) (i : Input) (a : Answer)
| EWake (id : nat) (i : Input).

Definition note (r : Run) (i : Input) (a : Answer) (h : gmap string (list Recorded))
  : gmap string (list Recorded) :=
  match control r, a with
  | Calling p _ _, Result => <[p := default [] (h !! p) ++ [Served]]> h
  | Calling p _ _, Error rs isAbort =>
      if i_aborted i || isAbort then h else <[p := default [] (h !! p) ++ [Failed rs]]> h
  | _, _ => h
  end.

Definition step (e : Event) (w : World) : World :=
  match e with
  | EBegin id now bad ab ex =>
      match runs w !! id with
      | Some _ => w
      | None => mkWorld (circuit w) (<[id := begin now bad ab ex (circuit w)]> (runs w)) (recorded w)
      end
  | EAnswer id i a =>
      match runs w !! id with
      | None => w
      | Some r => let '(c', r') := onAnswer i a (circuit w) r in
                  mkWorld c' (<[id := r']> (runs w)) (note r i a (recorded w))
      end
  | EWake id i =>
      match runs w !! id with
      | None => w
      | Some r => mkWorld (circuit w) (<[id := onWake i r]> (runs w)) (recorded w)
      end
  end.

Definition exec (es : list Event) : World := foldl (λ w e, step e w) initWorld es.

(** ** Planning: who is called *)

(** With a healthy provider only healthy ones are planned, each with the full
    number of attempts; otherwise all that are not quarantined, once each. *)
Lemma pickOrdered_spec now c :
  let pl := pickOrdered candidates now c in
  (∀ p, p ∈ ordered pl → p ∈ candidates ∧ eligible c p = true)
  ∧ ((∃ p, p ∈ candidates ∧ healthy now c p = true) →
       degraded pl = false ∧ ordered pl = filter (λ p, healthy now c p = true) candidates)
  ∧ ((∀ p, p ∈ candidates → healthy now c p = false) →
       ordered pl = filter (λ p, eligible c p = true) candidates).
Proof.
  unfold pickOrdered. assert (∀ p, healthy now c p = true → eligible c p = true) as Hhe.
  { intros p. unfold healthy, eligible. destruct (c !! p) as [st|]; [|done]. intros. by bool_to_prop; apply negb_true_iff. }
  case_bool_decide as Hh; [case_bool_decide as He|]; simpl; (split_and!; [| |]).
  - set_solver.
  - intros (p & Hp & Hph). assert (p ∈ filter (λ p, healthy now c p = true) candidates) as Hin
      by by apply list_elem_of_filter. rewrite Hh in Hin. set_solver.
  - done.
  - intros p [? ?]%list_elem_of_filter. done.
  - intros (p & Hp & Hph). assert (p ∈ filter (λ p, healthy now c p = true) candidates) as Hin
      by by apply list_elem_of_filter. rewrite Hh in Hin. set_solver.
  - done.
  - intros p [? ?]%list_elem_of_filter. auto.
  - done.
  - intros Hall. destruct (filter _ candidates) as [|p l] eqn:E; [done|].
    assert (p ∈ filter (λ p, healthy now c p = true) candidates) as [Hp Hc]%list_elem_of_filter
      by (rewrite E; left). by rewrite Hall in Hp.
Qed.

(** ** The calls of a request *)

(** [ks] attempts at the first planned providers, in order. *)
Definition calls (ks : list nat) (ps : list string) : list string :=
  concat (zip_with (λ k p, replicate k p) ks ps).

Lemma calls_at_snoc ks k l p rest :
  length ks = length l → calls (ks ++ [k]) (l ++ p :: rest) = calls ks l ++ replicate k p.
Proof.
  intros Hl. unfold calls. rewrite zip_with_app by done. simpl.
  rewrite concat_app. simpl. by rewrite app_nil_r.
Qed.

Lemma calls_app_r ks l l' : length ks = length l → calls ks (l ++ l') = calls ks l.
Proof.
  intros Hl. unfold calls. rewrite <-(app_nil_r ks) at 1. rewrite zip_with_app by done.
  by rewrite app_nil_r.
Qed.

Definition within (pl : Plan) (k : nat) : Prop := 1 ≤ Z.of_nat k ≤ attemptsOf pl.

(** Where a request stands: some providers are done with, [k] calls went to the
    current one. *)
Definition at_provider (r : Run) (p : string) (attempt : Z) (rest : list string) : Prop :=
  ∃ ks l k, ordered (plan r) = l ++ p :: rest ∧ length ks = length l ∧ Z.of_nat k = attempt
            ∧ Forall (within (plan r)) (ks ++ [k]) ∧ called r = calls ks l ++ replicate k p.

Definition follows_plan (r : Run) (all : bool) : Prop :=
  ∃ ks, Forall (within (plan r)) ks ∧ (length ks ≤ length (ordered (plan r)))%nat
        ∧ called r = calls ks (ordered (plan r))
        ∧ (all = true → length ks = length (ordered (plan r))).

(** [tight]: the budget never ran out. *)
Definition run_ok (tight : bool) (r : Run) : Prop :=
  match control r with
  | Calling p a rest => at_provider r p a rest ∧ length (called r) = S (length (failureReasons r))
  | Sleeping p a rest => at_provider r p a rest ∧ a < attemptsOf (plan r)
                         ∧ length (called r) = length (failureReasons r)
  | Done (Succeeded p) => follows_plan r false ∧ last (called r) = Some p
  | Done (AllExhausted ps rs) =>
      follows_plan r tight ∧ rs = failureReasons r ∧ length (called r) = length rs
  | Done _ => follows_plan r false
  end.

Lemma at_provider_follows r p a rest :
  at_provider r p a rest → follows_plan r (bool_decide (rest = [])) ∧ last (called r) = Some p.
Proof.
  intros (ks & l & k & Hp & Hl & Hk & Hf & Hc). split.
  - exists (ks ++ [k]). rewrite Hp, calls_at_snoc, !length_app by done. simpl.
    split_and!; [done|lia|done|]. intros Hr%bool_decide_eq_true. subst rest. simpl. lia.
  - rewrite Hc. apply Forall_app in Hf as [_ Hk1]. rewrite Forall_singleton in Hk1.
    unfold within in Hk1. destruct k as [|k]; [lia|].
    rewrite replicate_S_end, (assoc_L (++)). apply last_snoc.
Qed.

Lemma follows_weaken r b : follows_plan r b → follows_plan r false.
Proof. intros (ks & ? & ? & ? & _). by exists ks. Qed.

Hypothesis attempts_pos : 1 ≤ maxAttempts cfg.

Lemma attemptsOf_pos pl : 1 ≤ attemptsOf pl.
Proof. unfold attemptsOf. destruct (degraded pl); lia. Qed.

(** A call at the next provider, or at the same one again. *)
Lemma tryCall_ok tight ab ex p a rest r :
  at_provider (mkRun (plan r) (control r) (failureReasons r) (called r ++ [p])) p a rest →
  follows_plan r false → length (called r) = length (failureReasons r) →
  run_ok tight (tryCall ab ex p a rest r).
Proof.
  intros Ha Hf Hl. unfold tryCall. destruct ab; [done|]. destruct ex; [done|].
  split; [done|]. simpl. rewrite length_app. simpl. lia.
Qed.

Lemma next_ok tight ab ex l rest r ks :
  ordered (plan r) = l ++ rest → length ks = length l → Forall (within (plan r)) ks →
  called r = calls ks l → length (called r) = length (failureReasons r) →
  run_ok tight (nextCandidate ab ex rest r).
Proof.
  intros Hp Hl Hf Hc Hn. destruct rest as [|p rest]; simpl.
  - rewrite app_nil_r in Hp. unfold run_ok. simpl. split_and!; [|done|done].
    exists ks. simpl. rewrite Hp, Hc. split_and!; try done. lia.
  - apply tryCall_ok; [| |done].
    + exists ks, l, 1%nat. simpl. rewrite Hc. split_and!; try done.
      apply Forall_app. split; [done|]. apply Forall_singleton. unfold within.
      pose proof (attemptsOf_pos (plan r)). lia.
    + exists ks. rewrite Hp, calls_app_r, length_app by done. split_and!; try done. lia.
Qed.

Lemma begin_ok tight now bad ab ex c : run_ok tight (begin now bad ab ex c).
Proof.
  unfold begin. destruct bad; [exists []; by split_and!|].
  by apply (next_ok _ _ _ [] _ _ []).
Qed.

Lemma afterFailure_ok tight i p a rest rs c r :
  (tight = true → i_exhausted i = false) →
  at_provider r p a rest → length (called r) = S (length (failureReasons r)) →
  run_ok tight (afterFailure i p a rest rs c r).2.
Proof.
  intros Ht Ha Hn. pose proof (at_provider_follows _ _ _ _ Ha) as [Hf _].
  destruct Ha as (ks & l & k & Hp & Hl & Hk & Hw & Hc). unfold afterFailure.
  set (r1 := mkRun _ _ _ _).
  assert (length (called r1) = length (failureReasons r1)) as Hn1.
  { simpl. rewrite length_app. simpl. lia. }
  destruct (isLongCooldown rs || (attemptsOf (plan r) <=? a) || i_exhausted i) eqn:E; simpl.
  - destruct (i_exhausted i) eqn:Ex.
    + unfold run_ok. simpl. destruct tight; [by specialize (Ht eq_refl)|]. by eauto using follows_weaken.
    + apply (next_ok _ _ _ (l ++ [p]) _ _ (ks ++ [k])); simpl; try done.
      * by rewrite <-(assoc_L (++)).
      * rewrite !length_app. simpl. lia.
      * by rewrite Hc, calls_at_snoc.
  - bool_to_prop. unfold run_ok. simpl. rewrite length_app. simpl. split_and!; [|done|lia].
    by exists ks, l, k.
Qed.

Lemma onAnswer_ok tight i a c r :
  (tight = true → i_exhausted i = false) → run_ok tight r → run_ok tight (onAnswer i a c r).2.
Proof.
  intros Ht Hr. unfold onAnswer. destruct (control r) as [p at_ rest| |] eqn:Ec; try done.
  unfold run_ok in Hr. rewrite Ec in Hr. destruct Hr as [Ha Hn].
  pose proof (at_provider_follows _ _ _ _ Ha) as [Hf Hlast].
  destruct a as [|rs ab]; simpl; [split; [by eapply follows_weaken|done]|].
  destruct (i_aborted i || ab); [by eapply follows_weaken|]. by apply afterFailure_ok.
Qed.

Lemma onWake_ok tight i r : run_ok tight r → run_ok tight (onWake i r).
Proof.
  intros Hr. unfold onWake. destruct (control r) as [|p a rest|] eqn:Ec; try done.
  unfold run_ok in Hr. rewrite Ec in Hr. destruct Hr as (Ha & Hlt & Hn).
  pose proof (at_provider_follows _ _ _ _ Ha) as [Hf _].
  apply tryCall_ok; [|by eapply follows_weaken|done].
  destruct Ha as (ks & l & k & Hp & Hl & Hk & Hw & Hc).
  exists ks, l, (S k). simpl. rewrite Hc. split_and!; try done; [lia| |].
  - apply Forall_app in Hw as [Hw [Hk1 _]%Forall_cons]. apply Forall_app. split; [done|].
    apply Forall_singleton. unfold within in *. lia.
  - rewrite <-(assoc_L (++)). f_equal. symmetry. apply (replicate_S_end (A:=string)).
Qed.

(** ** Reachable worlds *)

Definition unbudgeted (es : list Event) : bool :=
  forallb (λ e, match e with
                | EBegin _ _ _ _ ex => negb ex
                | EAnswer _ i _ | EWake _ i => negb (i_exhausted i)
                end) es.

Lemma exec_snoc es e : exec (es ++ [e]) = step e (exec es).
Proof. unfold exec. by rewrite foldl_app. Qed.

Lemma run_ok_weaken b r : run_ok b r → run_ok false r.
Proof.
  unfold run_ok. destruct (control r) as [| |[]]; try done.
  intros (? & ? & ?). eauto using follows_weaken.
Qed.

Lemma exec_runs_ok es id r : runs (exec es) !! id = Some r → run_ok (unbudgeted es) r.
Proof.
  revert id r. induction es as [|e es IH] using rev_ind; [done|]. intros id r.
  rewrite exec_snoc. unfold unbudgeted. rewrite forallb_app. fold (unbudgeted es). simpl. rewrite andb_true_r.
  assert (∀ b id r, runs (exec es) !! id = Some r → run_ok (unbudgeted es && b) r) as IH'.
  { intros b id' r' Hr'%IH. destruct b; rewrite ?andb_true_r, ?andb_false_r; [done|by eapply run_ok_weaken]. }
  destruct e as [id' now bad ab ex|id' i a|id' i]; simpl; destruct (runs (exec es) !! id') as [r0|] eqn:E0;
    try by apply IH'.
  - simpl. destruct (decide (id = id')) as [->|Hne]; rewrite ?lookup_insert_eq, ?lookup_insert_ne by done;
      [|by apply IH']. intros [= <-]. apply begin_ok.
  - pose proof (onAnswer_ok (unbudgeted es && negb (i_exhausted i)) i a (circuit (exec es)) r0) as Hok.
    destruct (onAnswer i a (circuit (exec es)) r0) as [c' r']. simpl.
    destruct (decide (id = id')) as [->|Hne]; rewrite ?lookup_insert_eq, ?lookup_insert_ne by done;
      [|by apply IH']. intros [= <-]. apply Hok; [|by eapply IH'].
    intros Ht. by bool_to_prop.
  - simpl. destruct (decide (id = id')) as [->|Hne]; rewrite ?lookup_insert_eq, ?lookup_insert_ne by done;
      [|by apply IH']. intros [= <-]. apply onWake_ok. by eapply IH'.
Qed.

(** C31. Every request works through its plan in order.  Under any interleaving of
    concurrent requests, answers, aborts and budgets, the calls a request has made
    are, for a prefix of its planned providers and in their order, between one and
    the allowed number of consecutive attempts each (one in degraded mode); a
    success is the answer of the last call; an exhausted request reports one reason
    for each call it made and, if the budget did not cut it short, has tried every
    planned provider. *)
Theorem failover_follows_plan es id r :
  runs (exec es) !! id = Some r →
  ∃ ks, Forall (λ k, 1 ≤ Z.of_nat k ≤ attemptsOf (plan r)) ks
    ∧ (length ks ≤ length (ordered (plan r)))%nat
    ∧ called r = concat (zip_with (λ k p, replicate k p) ks (ordered (plan r)))
    ∧ match control r with
      | Done (Succeeded p) => last (called r) = Some p
      | Done (AllExhausted _ reasons) =>
          length reasons = length (called r)
          ∧ (unbudgeted es = true → length ks = length (ordered (plan r)))
      | _ => True
      end.
Proof.
  intros Hr%exec_runs_ok. unfold run_ok in Hr.
  destruct (control r) as [p a rest|p a rest|[p| | | |ps rs]].
  - destruct Hr as [Ha _]. apply at_provider_follows in Ha as [(ks & ? & ? & ? & _) _]. by exists ks.
  - destruct Hr as [Ha _]. apply at_provider_follows in Ha as [(ks & ? & ? & ? & _) _]. by exists ks.
  - destruct Hr as [(ks & ? & ? & ? & _) Hl]. by exists ks.
  - destruct Hr as (ks & ? & ? & ? & _). by exists ks.
  - destruct Hr as (ks & ? & ? & ? & _). by exists ks.
  - destruct Hr as (ks & ? & ? & ? & _). by exists ks.
  - destruct Hr as ((ks & ? & ? & ? & Hall) & -> & Hn). by exists ks.
Qed.

(** ** Quarantine *)

(** Failures in a row that were authentication failures, up to the latest. *)
Definition authStreak (h : list Recorded) : Z :=
  foldl (λ n o, match o with Failed auth => n + 1 | _ => 0 end) 0 h.

Definition threeAuth : list Recorded := [Failed auth; Failed auth; Failed auth].

Definition rejected (h : list Recorded) : Prop := ∃ pre post, h = pre ++ threeAuth ++ post.

Lemma authStreak_snoc h o :
  authStreak (h ++ [o]) = match o with Failed auth => authStreak h + 1 | _ => 0 end.
Proof. unfold authStreak. by rewrite foldl_app. Qed.

Lemma authStreak_suffix h :
  ∃ pre n, h = pre ++ replicate n (Failed auth) ∧ authStreak h = Z.of_nat n
           ∧ last pre ≠ Some (Failed auth).
Proof.
  induction h as [|o h (pre & n & Hh & Hs & Hl)] using rev_ind; [by exists [], 0%nat|].
  rewrite authStreak_snoc. destruct (decide (o = Failed auth)) as [->|Ho].
  - exists pre, (S n). split_and!; [by rewrite Hh, replicate_S_end, (assoc_L (++))|lia|done].
  - exists (h ++ [o]), 0%nat. rewrite app_nil_r. split_and!; [done|by destruct o as [|[]]|].
    rewrite last_snoc. congruence.
Qed.

Lemma rejected_snoc h o :
  rejected (h ++ [o]) ↔ rejected h ∨ (o = Failed auth ∧ 2 ≤ authStreak h).
Proof.
  split.
  - intros (pre & post & H). destruct post as [|x post _] using rev_ind.
    + right. unfold threeAuth in H. rewrite app_nil_r in H.
      change ([Failed auth; Failed auth; Failed auth]) with ([Failed auth; Failed auth] ++ [Failed auth]) in H.
      rewrite (assoc_L (++)) in H. apply app_inj_tail in H as [-> ->]. split; [done|].
      change [Failed auth; Failed auth] with ([Failed auth] ++ [Failed auth]).
      rewrite (assoc_L (++)), !authStreak_snoc.
      destruct (authStreak_suffix pre) as (? & n & _ & -> & _). lia.
    + rewrite !(assoc_L (++)) in H. apply app_inj_tail in H as [-> ->]. left.
      exists pre, post. by rewrite <-!(assoc_L (++)).
  - intros [(pre & post & ->)|[-> Hs]].
    + exists pre, (post ++ [o]). by rewrite <-!(assoc_L (++)).
    + destruct (authStreak_suffix h) as (pre & n & -> & Hn & _). rewrite Hn in Hs.
      destruct n as [|[|n]]; [lia|lia|]. exists (pre ++ replicate n (Failed auth)), [].
      rewrite app_nil_r, !replicate_S_end. unfold threeAuth. by rewrite <-!(assoc_L (++)).
Qed.

Definition history (p : string) (w : World) : list Recorded := default [] (recorded w !! p).

(** The circuit of every provider agrees with the outcomes recorded for it. *)
Definition agrees (c : Circuit) (h : gmap string (list Recorded)) : Prop :=
  ∀ p, consecutiveAuthFailures (getState p c) = authStreak (default [] (h !! p))
       ∧ (quarantined (getState p c) = true ↔ rejected (default [] (h !! p))).

Lemma agrees_insert c h p s' o :
  agrees c h →
  consecutiveAuthFailures s' = authStreak (default [] (h !! p) ++ [o]) →
  (quarantined s' = true ↔ rejected (default [] (h !! p) ++ [o])) →
  agrees (<[p := s']> c) (<[p := default [] (h !! p) ++ [o]]> h).
Proof.
  intros Ha H1 H2 q. unfold getState. destruct (decide (q = p)) as [->|Hne].
  - by rewrite !lookup_insert_eq.
  - rewrite !lookup_insert_ne by done. apply Ha.
Qed.

Lemma agrees_success c h p :
  agrees c h → agrees (recordSuccess p c) (<[p := default [] (h !! p) ++ [Served]]> h).
Proof.
  intros Ha. destruct (Ha p) as [H1 H2]. apply agrees_insert; [done| |].
  - by rewrite authStreak_snoc.
  - rewrite rejected_snoc. simpl. rewrite H2. naive_solver.
Qed.

Lemma agrees_failure c h p rs :
  agrees c h → agrees (recordFailure p rs c) (<[p := default [] (h !! p) ++ [Failed rs]]> h).
Proof.
  intros Ha. destruct (Ha p) as [H1 H2]. apply agrees_insert; [done| |].
  - rewrite authStreak_snoc, <-H1. simpl. by destruct rs.
  - rewrite rejected_snoc, <-H1, <-H2. simpl.
    destruct (quarantined (getState p c)); simpl; [tauto|].
    rewrite andb_true_r. destruct (decide (rs = auth)) as [->|Hne].
    + rewrite bool_decide_true by done. simpl. rewrite Z.leb_le. split; [|naive_solver lia]. right. split; [done|lia].
    + rewrite bool_decide_false by done. simpl. naive_solver.
Qed.

Lemma agrees_open c h now p rs : agrees c h → agrees (openCircuit cfg now p rs c) h.
Proof.
  intros Ha. unfold openCircuit. destruct (quarantined (getState p c)) eqn:Eq; [done|].
  intros q. destruct (Ha q) as [H1 H2]. destruct (decide (q = p)) as [->|Hne].
  - rewrite Eq in H2. set (s' := mkCircuit _ _ _ _ _ _ _).
    assert (getState p (<[p := s']> c) = s') as -> by (unfold getState; by rewrite lookup_insert_eq).
    by split.
  - set (s' := mkCircuit _ _ _ _ _ _ _).
    assert (getState q (<[p := s']> c) = getState q c) as -> by (unfold getState; by rewrite lookup_insert_ne).
    by split.
Qed.

Lemma agrees_step e w :
  agrees (circuit w) (recorded w) → agrees (circuit (step e w)) (recorded (step e w)).
Proof.
  intros Ha. destruct e as [id now bad ab ex|id i a|id i]; simpl; destruct (runs w !! id) as [r|]; try done.
  unfold onAnswer, note. destruct (control r) as [p at_ rest| |]; try done.
  destruct a as [|rs ab]; simpl; [by apply agrees_success|].
  destruct (i_aborted i || ab); simpl; [done|]. unfold afterFailure.
  destruct (_ || i_exhausted i); simpl; [apply agrees_open|]; by apply agrees_failure.
Qed.

Lemma agrees_exec es : agrees (circuit (exec es)) (recorded (exec es)).
Proof.
  induction es as [|e es IH] using rev_ind; [|rewrite exec_snoc; by apply agrees_step].
  intros p. unfold getState. simpl. rewrite !lookup_empty. simpl. split; [done|].
  split; [done|]. intros (pre & post & H). by destruct pre.
Qed.

Lemma history_grows es e p : ∃ l, history p (exec (es ++ [e])) = history p (exec es) ++ l.
Proof.
  rewrite exec_snoc. unfold history.
  assert (∀ (h : gmap string (list Recorded)) q x, ∃ l, default [] (<[q := default [] (h !! q) ++ [x]]> h !! p)
    = default [] (h !! p) ++ l) as Hins.
  { intros h q x. destruct (decide (q = p)) as [->|Hne].
    - exists [x]. by rewrite lookup_insert_eq.
    - exists []. by rewrite lookup_insert_ne, app_nil_r. }
  assert (∃ l, default [] (recorded (exec es) !! p) = default [] (recorded (exec es) !! p) ++ l) as Hsame
    by (exists []; by rewrite app_nil_r).
  destruct e as [id now bad ab ex|id i a|id i]; simpl; destruct (runs (exec es) !! id) as [r|]; try done.
  destruct (onAnswer _ _ _ _) as [c' r']. simpl. unfold note.
  destruct (control r), a as [|rs ab]; try done. by destruct (i_aborted i || ab).
Qed.

Lemma rejected_grows h l : rejected h → rejected (h ++ l).
Proof. intros (pre & post & ->). exists pre, (post ++ l). by rewrite <-!(assoc_L (++)). Qed.

(** Authentication quarantine is exact and permanent.  Under any interleaving of
    requests, a provider is quarantined exactly when three authentication failures
    in a row were recorded for it; it stays so whatever happens later, even if a
    call that was already in flight succeeds, and no request that starts afterwards
    plans to call it. *)
Theorem quarantine_exact es es' p :
  (quarantined (getState p (circuit (exec es))) = true ↔ rejected (history p (exec es)))
  ∧ (quarantined (getState p (circuit (exec es))) = true →
     quarantined (getState p (circuit (exec (es ++ es')))) = true
     ∧ ∀ now ab ex, p ∉ ordered (plan (begin now false ab ex (circuit (exec (es ++ es')))))).
Proof.
  split; [apply agrees_exec|]. intros Hq.
  assert (quarantined (getState p (circuit (exec (es ++ es')))) = true) as Hq'.
  { apply agrees_exec. apply agrees_exec in Hq. fold (history p (exec es)) in Hq.
    fold (history p (exec (es ++ es'))). induction es' as [|e es' IH] using rev_ind.
    - by rewrite app_nil_r.
    - rewrite (assoc_L (++)). destruct (history_grows (es ++ es') e p) as [l ->]. by apply rejected_grows. }
  split; [done|]. intros now ab ex Hin.
  assert (plan (begin now false ab ex (circuit (exec (es ++ es'))))
    = pickOrdered candidates now (circuit (exec (es ++ es')))) as Hp.
  { unfold begin, nextCandidate. destruct (ordered (pickOrdered _ _ _)); [done|].
    unfold tryCall. by destruct ab, ex. }
  rewrite Hp in Hin. apply pickOrdered_spec in Hin as [_ He]. unfold eligible in He.
  unfold getState in Hq'. destruct (circuit (exec (es ++ es')) !! p) as [st|]; simpl in Hq'; [|done].
  by rewrite Hq' in He.
Qed.

End Failover.

(** Two providers; the first answers 401 three times, in three requests. *)
Definition demoConfig : Config := mkConfig 600000 5000 2.

Definition demoEvents : list Event :=
  let i t := mkInput t false false in
  [EBegin 1 0 false false false; EAnswer 1 (i 10) (Error auth false); EAnswer 1 (i 20) Result;
   EBegin 2 700000 false false false; EAnswer 2 (i 700010) (Error auth false); EAnswer 2 (i 700020) Result;
   EBegin 3 1400000 false false false; EAnswer 3 (i 1400010) (Error auth false);
   EAnswer 3 (i 1400020) (Error server_error false); EWake 3 (i 1400170);
   EAnswer 3 (i 1400180) (Error server_error false)].

Lemma failover_follows_plan_witness :
  ∃ r, runs (exec demoConfig ["a"; "b"]%string demoEvents) !! 3%nat = Some r
       ∧ called r = ["a"; "b"; "b"]%string
       ∧ control r = Done (AllExhausted ["a"; "b"]%string [auth; server_error; server_error])
       ∧ ∃ ks : list nat, length ks = length (ordered (plan r)).
Proof.
  eexists. split; [vm_compute; reflexivity|]. split; [reflexivity|]. split; [reflexivity|].
  destruct (failover_follows_plan demoConfig ["a"; "b"]%string ltac:(simpl; lia) demoEvents 3%nat
    _ ltac:(vm_compute; reflexivity)) as (ks & _ & _ & _ & _ & Hall).
  exists ks. apply Hall. reflexivity.
Defined.

Lemma quarantine_exact_witness :
  quarantined (getState "a" (circuit (exec demoConfig ["a"; "b"]%string demoEvents))) = true
  ∧ rejected (history "a" (exec demoConfig ["a"; "b"]%string demoEvents)).
Proof.
  split; [vm_compute; reflexivity|].
  apply (quarantine_exact demoConfig ["a"; "b"]%string demoEvents []). vm_compute. reflexivity.
Defined.

(** ** Corner case *)

(** A request planned before the quarantine may still call the provider; its
    success resets the streak and the cooldown but not the quarantine, which
    nothing in the process lifts. *)
Lemma late_success_keeps_quarantine :
  let i t := mkInput t false false in
  let es := [EBegin 0 0 false false false] ++ demoEvents ++ [EAnswer 0 (i 1500000) Result] in
  let s := getState "a" (circuit (exec demoConfig ["a"; "b"]%string es)) in
  successCount s = 1 ∧ healthyAgainAt s = At 0 ∧ consecutiveAuthFailures s = 0 ∧ quarantined s = true.
Proof. vm_compute. by split_and!. Qed.

End Failover.
