(* ===== verification/LlmExecution.v ===== *)
(** * LLM execution control (packages/llm-agent)

    The retry loop of retry.ts, the attribution of failures of
    execution/failure-attribution.ts, and the execution circuit of
    execution/env-llm-execution.port.ts, shared by all concurrent generations.
    A generation checks the circuit, waits for admission (see [Coordinator]), runs
    the retry loop, records its outcome and clears the half-open flag in its
    finally block.  Metrics are left out. *)

From S2P Require Import Prelude Failover.
Import Failover.

Module Execution.

(** ** retryWithBackoff *)

(** One attempt: the signal and the budget before it, the call, and, when it
    fails, what the catch block looks at. *)
Record Attempt := mkAttempt {
  a_aborted : bool;             (** [signal.aborted] at the head *)
  a_exhausted : bool;           (** [throwIfExhausted] throws at the head *)
  a_ok : bool;                  (** the call resolves *)
  a_abortedAfter : bool;
  a_attemptTimedOut : bool;     (** [attemptSignal.aborted] *)
  a_isAbortError : bool;
  a_retryable : bool;
  a_exhaustedAfter : bool;
  a_sleepAborted : bool         (** the backoff sleep rejects *)
}.

Inductive RetryResult := Ok | ThrewAbort | ThrewBudget | ThrewError | ThrewUndefined.

(** Does the catch block rethrow instead of going on? *)
Definition gives_up (maxAttempts attempt : Z) (a : Attempt) : bool :=
  a_abortedAfter a
  || a_isAbortError a && negb (a_attemptTimedOut a && negb (a_abortedAfter a))
  || negb (a_retryable a)
  || (maxAttempts <=? attempt)
  || a_exhaustedAfter a.

(** The loop from [attempt] on, with [left] passes to go; the second component
    counts the calls of [fn]. *)
Fixpoint retryLoop (maxAttempts attempt : Z) (left : nat) (replies : Z → Attempt) : RetryResult * Z :=
  match left with
  | O => (ThrewError, 0)
  | S left' =>
      let a := replies attempt in
      if a_aborted a then (ThrewAbort, 0)
      else if a_exhausted a then (ThrewBudget, 0)
      else if a_ok a then (Ok, 1)
      else if gives_up maxAttempts attempt a then (ThrewError, 1)
      else if a_sleepAborted a then (ThrewAbort, 1)
      else let '(r, n) := retryLoop maxAttempts (attempt + 1) left' replies in (r, n + 1)
  end.

Definition retryWithBackoff (maxAttempts : Z) (replies : Z → Attempt) : RetryResult * Z :=
  if maxAttempts <? 1 then (ThrewUndefined, 0)
  else retryLoop maxAttempts 1 (Z.to_nat maxAttempts) replies.

(** [cappedExponentialBackoff], for an attempt that counts from 1. *)
Definition cappedExponentialBackoff (baseDelayMs maxDelayMs attempt : Z) : Z :=
  Z.min (baseDelayMs * 2 ^ (attempt - 1)) maxDelayMs.

(** ** Attribution of a failure *)

Inductive Kind := provider | caller_cancellation | non_provider.

Record Classification := mkClass { kind : Kind; countsForCircuit : bool }.

(** The flags the tracker keeps and the signals it reads. *)
Record Tracker := mkTracker {
  callerAborted : bool;
  providerFailure : bool;
  deadlineAborted : bool;
  deadlineExpiredDuringProvider : bool
}.

(** [reasons]: the failure reasons of an exhausted failover, or the one reason of
    the error. *)
Definition classifyProviderFailure (reasons : list Reason) : Classification :=
  mkClass provider (existsb (λ r, bool_decide (r ≠ bad_request)) reasons).

Definition classify (t : Tracker) (reasons : list Reason) : Classification :=
  if callerAborted t then mkClass caller_cancellation false
  else if providerFailure t then classifyProviderFailure reasons
  else if deadlineAborted t && negb (deadlineExpiredDuringProvider t) then mkClass non_provider false
  else if deadlineExpiredDuringProvider t then classifyProviderFailure reasons
  else mkClass non_provider false.

(** ** The execution circuit *)

Definition EXECUTION_CIRCUIT_FAILURE_THRESHOLD : Z := 3.
Definition EXECUTION_CIRCUIT_RESET_MS : Z := 60000.

Record Circuit := mkCircuit {
  consecutiveFailures : Z;
  circuitOpenedAt : Z;          (** 0: closed *)
  halfOpenInFlight : bool
}.

Inductive Gate := Pass | Probe | RejectOpen | RejectHalfOpen.

(** [assertCircuitAvailable]: [Probe] sets the half-open flag. *)
Definition assertCircuitAvailable (now : Z) (c : Circuit) : Circuit * Gate :=
  if circuitOpenedAt c =? 0 then (c, Pass)
  else if now - circuitOpenedAt c <? EXECUTION_CIRCUIT_RESET_MS then (c, RejectOpen)
  else if halfOpenInFlight c then (c, RejectHalfOpen)
  else (mkCircuit (consecutiveFailures c) (circuitOpenedAt c) true, Probe).

Definition recordSuccess (c : Circuit) : Circuit := mkCircuit 0 0 false.

Definition recordFailure (now : Z) (cl : Classification) (c : Circuit) : Circuit :=
  match kind cl, countsForCircuit cl with
  | provider, true =>
      let n := consecutiveFailures c + 1 in
      if EXECUTION_CIRCUIT_FAILURE_THRESHOLD <=? n then mkCircuit n now false
      else mkCircuit n (circuitOpenedAt c) (halfOpenInFlight c)
  | _, _ => mkCircuit (consecutiveFailures c) (circuitOpenedAt c) false
  end.

(** The finally block. *)
Definition clearHalfOpen (c : Circuit) : Circuit :=
  mkCircuit (consecutiveFailures c) (circuitOpenedAt c) false.

(** ** Concurrent generations *)

Record Generation := mkGen { g_classifier : bool; g_probe : bool }.

(** Outcomes in the order they were recorded, latest last; [Counted] has the
    time. *)
Inductive Recorded := Success | Counted (now : Z) | Uncounted.

Record World := mkWorld {
  circuit : Circuit;
  inFlight : gmap nat Generation;
  outcomes : list Recorded
}.

Definition initWorld : World := mkWorld (mkCircuit 0 0 false) ∅ [].

Inductive Event :=
| EStart (id : nat) (now : Z) (classifier : bool)
| EAdmissionFails (id : nat)
| EReturns (id : nat)
| EThrows (id : nat) (now : Z) (t : Tracker) (reasons : list Reason).

Definition step (e : Event) (w : World) : World :=
  match e with
  | EStart id now classifier =>
      match inFlight w !! id with
      | Some _ => w
      | None =>
          if classifier
          then mkWorld (circuit w) (<[id := mkGen true false]> (inFlight w)) (outcomes w)
          else let '(c, g) := assertCircuitAvailable now (circuit w) in
               match g with
               | Pass => mkWorld c (<[id := mkGen false false]> (inFlight w)) (outcomes w)
               | Probe => mkWorld c (<[id := mkGen false true]> (inFlight w)) (outcomes w)
               | _ => mkWorld c (inFlight w) (outcomes w)
               end
      end
  | EAdmissionFails id =>
      match inFlight w !! id with
      | Some g => mkWorld (if g_classifier g then circuit w else clearHalfOpen (circuit w))
                    (delete id (inFlight w)) (outcomes w)
      | None => w
      end
  | EReturns id =>
      match inFlight w !! id with
      | Some g => if g_classifier g then mkWorld (circuit w) (delete id (inFlight w)) (outcomes w)
                  else mkWorld (clearHalfOpen (recordSuccess (circuit w)))
                         (delete id (inFlight w)) (outcomes w ++ [Success])
      | None => w
      end
  | EThrows id now t reasons =>
      match inFlight w !! id with
      | Some g => if g_classifier g then mkWorld (circuit w) (delete id (inFlight w)) (outcomes w)
                  else let cl := classify t reasons in
                       mkWorld (clearHalfOpen (recordFailure now cl (circuit w)))
                         (delete id (inFlight w))
                         (outcomes w ++ [match kind cl, countsForCircuit cl with
                                         | provider, true => Counted now
                                         | _, _ => Uncounted
                                         end])
      | None => w
      end
  end.

Definition exec (es : list Event) : World := foldl (λ w e, step e w) initWorld es.

Lemma exec_last es e : exec (es ++ [e]) = step e (exec es).
Proof. unfold exec. by rewrite foldl_app. Qed.

(** ** The retry loop *)

Record retry_ok (maxAttempts attempt : Z) (replies : Z → Attempt) (r : RetryResult) (n : Z) : Prop := {
  ro_bound : 0 ≤ n ≤ maxAttempts - attempt + 1;
  ro_failed k : attempt ≤ k < attempt + n - 1 →
    a_ok (replies k) = false ∧ gives_up maxAttempts k (replies k) = false;
  ro_ok : r = Ok → 0 < n ∧ a_ok (replies (attempt + n - 1)) = true;
  ro_error : r = ThrewError →
    0 < n ∧ a_ok (replies (attempt + n - 1)) = false
    ∧ gives_up maxAttempts (attempt + n - 1) (replies (attempt + n - 1)) = true
}.

Lemma retryLoop_ok maxAttempts left attempt replies :
  Z.of_nat left = maxAttempts - attempt + 1 → (0 < left)%nat →
  retry_ok maxAttempts attempt replies
    (retryLoop maxAttempts attempt left replies).1 (retryLoop maxAttempts attempt left replies).2.
Proof.
  revert attempt. induction left as [|left IH]; intros attempt Hl Hpos; [lia|]. simpl.
  set (a := replies attempt).
  destruct (a_aborted a); [split; simpl; [lia|lia|done|done]|].
  destruct (a_exhausted a); [split; simpl; [lia|lia|done|done]|].
  destruct (a_ok a) eqn:Eok.
  { split; simpl; [lia|lia| |done]. intros _. by replace (attempt + 1 - 1) with attempt by lia. }
  destruct (gives_up maxAttempts attempt a) eqn:Eg.
  { split; simpl; [lia|lia|done|]. intros _. by replace (attempt + 1 - 1) with attempt by lia. }
  destruct (a_sleepAborted a); [split; simpl; [lia|lia|done|done]|].
  assert (attempt < maxAttempts) as Hlt.
  { unfold gives_up in Eg. bool_to_prop. lia. }
  destruct (IH (attempt + 1)) as [Hb Hf Ho He]; [lia|lia|].
  destruct (retryLoop maxAttempts (attempt + 1) left replies) as [r n]. simpl in *.
  replace (attempt + 1 + n - 1) with (attempt + (n + 1) - 1) in * by lia.
  split; [lia| | |].
  - intros k Hk. destruct (decide (k = attempt)) as [->|Hne]; [done|]. apply Hf. lia.
  - intros Hr. destruct (Ho Hr). split; [lia|done].
  - intros Hr. destruct (He Hr). split; [lia|done].
Qed.

(** The retry loop calls at most [maxAttempts] times, goes on only after failures
    that allow it, and answers with the last call. *)
Lemma retry_spec maxAttempts replies :
  1 ≤ maxAttempts →
  retry_ok maxAttempts 1 replies
    (retryWithBackoff maxAttempts replies).1 (retryWithBackoff maxAttempts replies).2.
Proof.
  intros Hm. unfold retryWithBackoff. rewrite (proj2 (Z.ltb_ge _ _)) by lia.
  apply retryLoop_ok; lia.
Qed.

(** The backoff never exceeds its ceiling and never shrinks with the attempts. *)
Lemma backoff_monotone base maxDelay a b :
  0 ≤ base → 1 ≤ a ≤ b →
  cappedExponentialBackoff base maxDelay a ≤ cappedExponentialBackoff base maxDelay b ≤ maxDelay.
Proof.
  intros Hb Hab. unfold cappedExponentialBackoff.
  assert (base * 2 ^ (a - 1) ≤ base * 2 ^ (b - 1)); [|lia].
  apply Z.mul_le_mono_nonneg_l; [done|]. apply Z.pow_le_mono_r; lia.
Qed.

(** ** The circuit against the recorded outcomes *)

(** Counted failures since the latest success, and the time of the latest. *)
Fixpoint streakOf (rev_outcomes : list Recorded) : Z :=
  match rev_outcomes with
  | [] | Success :: _ => 0
  | Counted _ :: l => 1 + streakOf l
  | Uncounted :: l => streakOf l
  end.
Definition streak (outs : list Recorded) : Z := streakOf (rev outs).

Fixpoint lastCountedOf (rev_outcomes : list Recorded) : Z :=
  match rev_outcomes with
  | Counted t :: _ => t
  | Uncounted :: l => lastCountedOf l
  | [] | Success :: _ => 0
  end.
Definition lastCounted (outs : list Recorded) : Z := lastCountedOf (rev outs).

Lemma streak_snoc outs o :
  streak (outs ++ [o]) = match o with Success => 0 | Counted _ => 1 + streak outs | Uncounted => streak outs end.
Proof. unfold streak. rewrite rev_app_distr. by destruct o. Qed.

Lemma lastCounted_snoc outs o :
  lastCounted (outs ++ [o]) = match o with Success => 0 | Counted t => t | Uncounted => lastCounted outs end.
Proof. unfold lastCounted. rewrite rev_app_distr. by destruct o. Qed.

Lemma streak_nonneg outs : 0 ≤ streak outs.
Proof. unfold streak. induction (rev outs) as [|[| |]]; simpl; lia. Qed.

(** Clocks are positive. *)
Definition sane (e : Event) : Prop :=
  match e with EStart _ now _ | EThrows _ now _ _ => 0 < now | _ => True end.

Record Inv (w : World) : Prop := {
  inv_streak : consecutiveFailures (circuit w) = streak (outcomes w);
  inv_opened : circuitOpenedAt (circuit w)
               = if 3 <=? streak (outcomes w) then lastCounted (outcomes w) else 0;
  inv_time : 3 ≤ streak (outcomes w) → 0 < lastCounted (outcomes w);
  inv_probe : halfOpenInFlight (circuit w) = true →
              ∃ id, inFlight w !! id = Some (mkGen false true)
}.

Lemma inv_init : Inv initWorld.
Proof. by split. Qed.

Lemma inv_record w id fl c o :
  Inv w →
  consecutiveFailures c = streak (outcomes w ++ [o]) →
  circuitOpenedAt c = (if 3 <=? streak (outcomes w ++ [o]) then lastCounted (outcomes w ++ [o]) else 0) →
  (∀ t, o = Counted t → 0 < t) →
  Inv (mkWorld (clearHalfOpen c) (delete id fl) (outcomes w ++ [o])).
Proof.
  intros [Hs Ho Ht Hp] H1 H2 H3. split; simpl; try done.
  rewrite streak_snoc, lastCounted_snoc. destruct o; [lia|intros; by apply H3|done].
Qed.

(** A classifier call never touches the circuit. *)
Lemma inv_classifier w id g :
  Inv w → inFlight w !! id = Some g → g_classifier g = true →
  Inv (mkWorld (circuit w) (delete id (inFlight w)) (outcomes w)).
Proof.
  intros [Hs Ho Ht Hp] Eg Ec. split; simpl; try done. intros Hh.
  destruct (Hp Hh) as [id' Hid']. exists id'. rewrite lookup_delete_ne; [done|].
  intros ->. rewrite Eg in Hid'. by simplify_eq.
Qed.

Lemma recordFailure_spec now cl w :
  Inv w →
  let o := match kind cl, countsForCircuit cl with provider, true => Counted now | _, _ => Uncounted end in
  let c := recordFailure now cl (circuit w) in
  consecutiveFailures c = streak (outcomes w ++ [o])
  ∧ circuitOpenedAt c = (if 3 <=? streak (outcomes w ++ [o]) then lastCounted (outcomes w ++ [o]) else 0).
Proof.
  intros [Hs Ho _ _]. unfold recordFailure, EXECUTION_CIRCUIT_FAILURE_THRESHOLD.
  rewrite streak_snoc, lastCounted_snoc.
  destruct (kind cl), (countsForCircuit cl); simpl; try done.
  rewrite Hs, (Z.add_comm 1). destruct (3 <=? streak (outcomes w) + 1) eqn:E; simpl; [done|].
  split; [done|]. bool_to_prop. rewrite Ho. by rewrite (proj2 (Z.leb_gt _ _)) by lia.
Qed.

Lemma circuit_inv_step e w : sane e → Inv w → Inv (step e w).
Proof.
  intros Hsane Hi. pose proof Hi as [Hs Ho Ht Hp].
  destruct e as [id now cls|id|id|id now t reasons]; simpl in *; destruct (inFlight w !! id) as [g|] eqn:Eg; try done.
  - assert (∀ g h, (h = true → halfOpenInFlight (circuit w) = true ∨ g = mkGen false true) →
      Inv (mkWorld (mkCircuit (consecutiveFailures (circuit w)) (circuitOpenedAt (circuit w)) h)
             (<[id := g]> (inFlight w)) (outcomes w))) as Hnew.
    { intros g h Hh. split; simpl; try done. intros [Hp'| ->]%Hh; [|exists id; apply lookup_insert_eq].
      destruct (Hp Hp') as [id' Hid']. exists id'. rewrite lookup_insert_ne; [done|]. congruence. }
    assert (mkCircuit (consecutiveFailures (circuit w)) (circuitOpenedAt (circuit w))
      (halfOpenInFlight (circuit w)) = circuit w) as Heta by by destruct (circuit w).
    destruct cls; [rewrite <-Heta; apply Hnew; tauto|]. unfold assertCircuitAvailable.
    destruct (circuitOpenedAt (circuit w) =? 0); [rewrite <-Heta; apply Hnew; tauto|].
    destruct (_ <? _); [by destruct w|].
    destruct (halfOpenInFlight (circuit w)); [by destruct w|]. apply Hnew. tauto.
  - destruct (g_classifier g) eqn:Ec; [by eapply inv_classifier|by split].
  - destruct (g_classifier g) eqn:Ec; [by eapply inv_classifier|].
    apply inv_record; simpl; [done|by rewrite streak_snoc|by rewrite streak_snoc|done].
  - destruct (g_classifier g) eqn:Ec; [by eapply inv_classifier|].
    destruct (recordFailure_spec now (classify t reasons) w Hi) as [H1 H2].
    apply inv_record; try done. intros t' Ht'.
    destruct (kind (classify t reasons)), (countsForCircuit (classify t reasons)); by simplify_eq.
Qed.

Lemma inv_exec es : Forall sane es → Inv (exec es).
Proof.
  induction es as [|e es IH] using rev_ind; intros Hs; [apply inv_init|].
  apply Forall_app in Hs as [Hs [He _]%Forall_cons]. rewrite exec_last. apply circuit_inv_step; auto.
Qed.

(** *** The half-open probe *)

(** The event ends a chat generation. *)
Definition endsChat (e : Event) (w : World) : Prop :=
  match e with
  | EStart _ _ _ => False
  | EAdmissionFails id | EReturns id | EThrows id _ _ _ => ∃ probe, inFlight w !! id = Some (mkGen false probe)
  end.

(** The event lets a chat generation through as the probe. *)
Definition startsProbe (e : Event) (w : World) : Prop :=
  match e with
  | EStart id _ false => inFlight w !! id = None ∧ inFlight (step e w) !! id = Some (mkGen false true)
  | _ => False
  end.

(** A probe was let through, and no chat generation has ended since. *)
Definition probing (es : list Event) : Prop :=
  ∃ es1 e es2, es = es1 ++ e :: es2 ∧ startsProbe e (exec es1)
    ∧ ∀ es3 e' es4, es2 = es3 ++ e' :: es4 → ¬ endsChat e' (exec (es1 ++ e :: es3)).

Lemma probing_snoc es e :
  probing (es ++ [e]) ↔ startsProbe e (exec es) ∨ probing es ∧ ¬ endsChat e (exec es).
Proof.
  split.
  - intros (es1 & e0 & es2 & E & Hp & Hn). destruct es2 as [|x es2 _] using rev_ind.
    + apply app_inj_tail in E as [-> ->]. by left.
    + rewrite app_comm_cons, app_assoc in E. apply app_inj_tail in E as [-> ->]. right. split.
      * exists es1, e0, es2. split_and!; [done..|]. intros es3 e' es4 ->. apply (Hn es3 e' (es4 ++ [x])).
        by rewrite <-app_assoc.
      * by apply (Hn es2 x []).
  - intros [Hp|[(es1 & e0 & es2 & -> & Hp & Hn) He]].
    + exists es, e, []. split_and!; [done..|]. intros [|] ? ? E; discriminate E.
    + exists es1, e0, (es2 ++ [e]). rewrite <-app_assoc. split_and!; [done..|]. intros es3 e' es4 E.
      destruct es4 as [|x es4 _] using rev_ind.
      * by apply app_inj_tail in E as [-> ->].
      * rewrite app_comm_cons, app_assoc in E. apply app_inj_tail in E as [-> _]. by apply (Hn es3 e' es4).
Qed.

(** The half-open flag after an event. *)
Lemma halfOpen_step e w :
  halfOpenInFlight (circuit (step e w)) = true
  ↔ startsProbe e w ∨ halfOpenInFlight (circuit w) = true ∧ ¬ endsChat e w.
Proof.
  destruct e as [id now cls|id|id|id now t reasons]; simpl; destruct (inFlight w !! id) as [[cl pr]|] eqn:Eg; cbn;
    try (destruct cl; cbn; naive_solver).
  - destruct cls; naive_solver.
  - destruct cls; cbn; [naive_solver|]. unfold assertCircuitAvailable.
    destruct (circuitOpenedAt (circuit w) =? 0); cbn; [rewrite lookup_insert_eq; naive_solver|].
    destruct (_ <? _); cbn; [rewrite Eg; naive_solver|].
    destruct (halfOpenInFlight (circuit w)) eqn:Eh; cbn; [rewrite Eg, Eh; naive_solver|].
    rewrite lookup_insert_eq. naive_solver.
  - naive_solver.
  - naive_solver.
  - naive_solver.
Qed.

Lemma halfOpen_probing es : halfOpenInFlight (circuit (exec es)) = true ↔ probing es.
Proof.
  induction es as [|e es IH] using rev_ind.
  - split; [done|]. intros ([|? ?] & ? & ? & E & _); discriminate E.
  - by rewrite exec_last, halfOpen_step, probing_snoc, IH.
Qed.

(** C30. The execution circuit refuses a chat generation exactly as the recorded
    outcomes say, under any interleaving of generations.  With fewer than three
    counted provider failures since the latest success it is let through.  With
    three or more it is refused, and nothing changes, while fewer than 60 seconds
    passed since the latest; from then on it is let through as the half-open probe,
    unless a probe was already let through and no chat generation has ended since:
    then it is refused.  Which failures count is [classify_counts].  Classifier
    calls are never refused. *)
Theorem execution_circuit_exact es id now :
  Forall sane es → 0 < now → inFlight (exec es) !! id = None →
  let outs := outcomes (exec es) in
  let w' := step (EStart id now false) (exec es) in
  (streak outs < 3 → inFlight w' !! id = Some (mkGen false false))
  ∧ (3 ≤ streak outs →
       (now - lastCounted outs < EXECUTION_CIRCUIT_RESET_MS → w' = exec es)
       ∧ (EXECUTION_CIRCUIT_RESET_MS ≤ now - lastCounted outs →
            (probing es → w' = exec es)
            ∧ (¬ probing es → inFlight w' !! id = Some (mkGen false true))))
  ∧ inFlight (step (EStart id now true) (exec es)) !! id = Some (mkGen true false).
Proof.
  intros Hs Hnow Hid outs w'. destruct (inv_exec es Hs) as [Hst Ho Ht _]. fold outs in Hst, Ho, Ht. subst w'.
  simpl. rewrite Hid. unfold assertCircuitAvailable. rewrite Ho. split_and!.
  - intros Hlt. rewrite (proj2 (Z.leb_gt _ _)) by lia. simpl. apply lookup_insert_eq.
  - intros Hge. rewrite (proj2 (Z.leb_le _ _)) by lia.
    rewrite (proj2 (Z.eqb_neq _ _)) by (specialize (Ht Hge); lia). rewrite <-halfOpen_probing. split_and!.
    + intros Hr. rewrite (proj2 (Z.ltb_lt _ _)) by lia. by destruct (exec es).
    + intros Hr. rewrite (proj2 (Z.ltb_ge _ _)) by lia.
      split; [intros ->; by destruct (exec es)|intros ->%not_true_iff_false; apply lookup_insert_eq].
  - apply lookup_insert_eq.
Qed.

(** What counts: the provider was called and failed (or the deadline struck during
    its call), the caller had not cancelled, and some reason is the provider's. *)
Lemma classify_counts t reasons :
  kind (classify t reasons) = provider ∧ countsForCircuit (classify t reasons) = true
  ↔ callerAborted t = false ∧ (providerFailure t = true ∨ deadlineExpiredDuringProvider t = true)
    ∧ ∃ r, r ∈ reasons ∧ r ≠ bad_request.
Proof.
  assert (existsb (λ r, bool_decide (r ≠ bad_request)) reasons = true ↔ ∃ r, r ∈ reasons ∧ r ≠ bad_request) as He.
  { rewrite existsb_exists. setoid_rewrite bool_decide_eq_true. by setoid_rewrite list_elem_of_In. }
  unfold classify, classifyProviderFailure. rewrite <-He.
  destruct t as [[] [] [] []]; simpl; naive_solver.
Qed.

(** The execution circuit is never wedged.  Under any interleaving, whenever no
    half-open probe is in flight, a generation that starts at least 60 seconds after
    the latest counted failure is let through, whatever was rejected, cancelled or
    failed before. *)
Theorem circuit_never_wedges es id now :
  Forall sane es → inFlight (exec es) !! id = None →
  (∀ id', inFlight (exec es) !! id' ≠ Some (mkGen false true)) →
  EXECUTION_CIRCUIT_RESET_MS ≤ now - lastCounted (outcomes (exec es)) →
  is_Some (inFlight (step (EStart id now false) (exec es)) !! id).
Proof.
  intros Hs Hid Hno Hr. destruct (inv_exec es Hs) as [Hst Ho Ht Hp]. simpl. rewrite Hid.
  unfold assertCircuitAvailable.
  destruct (circuitOpenedAt (circuit (exec es)) =? 0) eqn:E0; [simpl; rewrite lookup_insert_eq; eauto|].
  rewrite Ho. destruct (3 <=? streak (outcomes (exec es))) eqn:E3; [|by rewrite Ho in E0].
  rewrite (proj2 (Z.ltb_ge _ _)) by lia.
  destruct (halfOpenInFlight (circuit (exec es))); [|simpl; rewrite lookup_insert_eq; eauto].
  destruct (Hp eq_refl) as [id' Hid']. by destruct (Hno id').
Qed.

(** Three failures at 1000, 2000 and 3000. *)
Definition failed : Tracker := mkTracker false true false false.
Definition demoEvents : list Event :=
  [EStart 1 500 false; EThrows 1 1000 failed [server_error];
   EStart 2 1500 false; EThrows 2 2000 failed [timeout];
   EStart 3 2500 false; EThrows 3 3000 failed [bad_request; network]].

Lemma demo_sane : Forall sane demoEvents.
Proof. repeat constructor. Qed.

(** Refused within the minute; then a probe, and a second generation while it runs. *)
Lemma execution_circuit_exact_witness :
  streak (outcomes (exec demoEvents)) = 3
  ∧ step (EStart 4 62999 false) (exec demoEvents) = exec demoEvents
  ∧ inFlight (step (EStart 4 63000 false) (exec demoEvents)) !! 4%nat = Some (mkGen false true)
  ∧ (let es := demoEvents ++ [EStart 4 63000 false] in step (EStart 5 63001 false) (exec es) = exec es).
Proof.
  split; [reflexivity|]. split_and!.
  - destruct (execution_circuit_exact demoEvents 4 62999 demo_sane eq_refl eq_refl) as (_ & H & _).
    destruct H as [H _]; [vm_compute; discriminate|]. by apply H.
  - destruct (execution_circuit_exact demoEvents 4 63000 demo_sane eq_refl eq_refl) as (_ & H & _).
    destruct H as [_ H]; [vm_compute; discriminate|]. destruct H as [_ H]; [vm_compute; discriminate|].
    apply H. rewrite <-halfOpen_probing. vm_compute. discriminate.
  - intros es. destruct (execution_circuit_exact es 5 63001) as (_ & H & _).
    + apply Forall_app. split; [exact demo_sane|by repeat constructor].
    + reflexivity.
    + reflexivity.
    + destruct H as [_ H]; [vm_compute; discriminate|]. destruct H as [H _]; [vm_compute; discriminate|].
      apply H. by rewrite <-halfOpen_probing.
Defined.

Lemma circuit_never_wedges_witness :
  is_Some (inFlight (step (EStart 4 63000 false) (exec demoEvents)) !! 4%nat).
Proof.
  apply (circuit_never_wedges demoEvents 4 63000 demo_sane).
  - reflexivity.
  - intros id' H. vm_compute in H. destruct id'; discriminate H.
  - vm_compute. discriminate.
Defined.

(** ** Corner case *)

(** A generation that was already running when the circuit opened clears the
    half-open flag when it ends, so a second probe is let through while the first
    is still in flight. *)
Lemma late_generation_admits_second_probe :
  let es := [EStart 0 100 false] ++ demoEvents
            ++ [EStart 4 63000 false; EThrows 0 63500 (mkTracker true false false false) [];
                EStart 5 64000 false] in
  inFlight (exec es) !! 4%nat = Some (mkGen false true)
  ∧ inFlight (exec es) !! 5%nat = Some (mkGen false true).
Proof. by vm_compute. Qed.

End Execution.
