(* ===== verification/ChatHistory.v ===== *)
(** * Chat history stores (packages/chat-history)

    [ChatHistoryStorePort] (ports.ts) is the type class [ChatHistoryStore]; what
    a conversation relies on is [ChatHistoryLaws].  The in-process store
    (memory-chat-history-store.ts) and the Redis store
    (redis-chat-history-store.ts) are two instances.  The client theorem, proved
    from the laws alone, says that a user always sees the last messages of the
    current session; each store's theorem discharges the laws.  Tool summaries, which
    the two stores keep differently, and the in-process sweep are outside the laws:
    [history_is_session] is about both stores under all their operations. *)

From S2P Require Import Prelude.

Module ChatHistory.

Inductive Role := user | assistant | tool_summary.

Record ChatHistoryMessage := mkMsg { role : Role; content : jsstring }.

(** Both stores compute the two messages of a turn alike; [None] when a trimmed
    text is empty. *)
Definition turnMessages (userText assistantText : jsstring) : option (list ChatHistoryMessage) :=
  let u := js_trim userText in
  let a := js_trim assistantText in
  if bool_decide (u = []) || bool_decide (a = []) then None
  else Some [mkMsg user u; mkMsg assistant a].

(** ** The port *)

Class ChatHistoryStore (S : Type) := {
  getHistory : Z → string → S → S * list ChatHistoryMessage;
  appendTurn : Z → string → jsstring → jsstring → S → S;
  clear : string → S → S
}.

(** What a conversation without tool summaries relies on.  [fresh] is the idle
    window, [max] the message cap, [ok] the states in question. *)
Class ChatHistoryLaws (S : Type) `{ChatHistoryStore S} (ok : S → Prop)
    (fresh : Z → bool) (max : nat) := {
  get_ok now u s : ok s → ok (getHistory now u s).1;
  turn_ok now u x y s : ok s → ok (appendTurn now u x y s);
  clear_ok u s : ok s → ok (clear u s);
  get_get now now' u v s :
    ok s → now ≤ now' →
    (getHistory now' v (getHistory now u s).1).2 = (getHistory now' v s).2;
  get_turn now now' u v x y s :
    ok s → now ≤ now' →
    (getHistory now' v (appendTurn now u x y s)).2 =
      match turnMessages x y with
      | None => (getHistory now' v s).2
      | Some ms => if decide (v = u)
                   then if fresh (now' - now)
                        then keep_last max ((getHistory now u s).2 ++ ms) else []
                   else (getHistory now' v s).2
      end;
  get_clear now u v s :
    ok s → (getHistory now v (clear u s)).2 = if decide (v = u) then [] else (getHistory now v s).2
}.

(** ** Conversations *)

Inductive HistoryOp :=
| HGet (now : Z) (u : string)
| HTurn (now : Z) (u : string) (userText assistantText : jsstring)
| HClear (now : Z) (u : string).

Definition h_time (o : HistoryOp) : Z :=
  match o with HGet t _ | HTurn t _ _ _ | HClear t _ => t end.

Fixpoint timely (clock : Z) (ops : list HistoryOp) : Prop :=
  match ops with [] => True | o :: ops' => clock ≤ h_time o ∧ timely (h_time o) ops' end.

Fixpoint lastTime (clock : Z) (ops : list HistoryOp) : Z :=
  match ops with [] => clock | o :: ops' => lastTime (h_time o) ops' end.

(** The specification: the unbounded session of a user, with the time of its
    last turn.  A turn after an idle period longer than the window opens a new
    session. *)
Definition Session : Type := option (list ChatHistoryMessage * Z).

Definition sessionView (fresh : Z → bool) (max : nat) (now : Z) (s : Session)
  : list ChatHistoryMessage :=
  match s with
  | Some (ms, t) => if fresh (now - t) then keep_last max ms else []
  | None => []
  end.

Definition sessionStep (fresh : Z → bool) (u : string) (o : HistoryOp) (s : Session) : Session :=
  match o with
  | HGet _ _ => s
  | HClear _ v => if decide (v = u) then None else s
  | HTurn now v x y =>
      if decide (v = u) then
        match turnMessages x y with
        | None => s
        | Some new => match s with
                      | Some (ms, t) => Some (if fresh (now - t) then ms ++ new else new, now)
                      | None => Some (new, now)
                      end
        end
      else s
  end.

Fixpoint session (fresh : Z → bool) (u : string) (ops : list HistoryOp) (s : Session) : Session :=
  match ops with [] => s | o :: ops' => session fresh u ops' (sessionStep fresh u o s) end.

Lemma keep_last_app {A} n (a b : list A) : keep_last n (keep_last n a ++ b) = keep_last n (a ++ b).
Proof.
  unfold keep_last. rewrite !length_app, length_drop, !drop_app, !drop_drop, length_drop.
  f_equal; f_equal; lia.
Qed.

Section Client.
Context {S : Type} `{ChatHistoryStore S} {ok : S → Prop} {fresh : Z → bool} {max : nat}.
Context `{!ChatHistoryLaws S ok fresh max}.

Definition historyStep (o : HistoryOp) (s : S) : S :=
  match o with
  | HGet now u => (getHistory now u s).1
  | HTurn now u x y => appendTurn now u x y s
  | HClear _ u => clear u s
  end.

Fixpoint historyRun (ops : list HistoryOp) (s : S) : S :=
  match ops with [] => s | o :: ops' => historyRun ops' (historyStep o s) end.

(** The store shows the session of [u] at every later time. *)
Definition shows (clock : Z) (u : string) (s : S) (a : Session) : Prop :=
  ∀ now, clock ≤ now → (getHistory now u s).2 = sessionView fresh max now a.

Lemma shows_step clock u s a o :
  ok s → clock ≤ h_time o → shows clock u s a →
  shows (h_time o) u (historyStep o s) (sessionStep fresh u o a).
Proof.
  intros Hok Hle Hs now Hnow. destruct o as [t v|t v x y|t v]; simpl in *.
  - rewrite get_get by done. apply Hs. lia.
  - rewrite get_turn by done. destruct (turnMessages x y) as [new|].
    2:{ rewrite Hs by lia. by destruct (decide (v = u)). }
    destruct (decide (v = u)) as [->|Hne]; [rewrite decide_True by done|].
    2:{ rewrite decide_False by done. apply Hs. lia. }
    rewrite Hs by lia. destruct a as [[ms t']|]; simpl; destruct (fresh (now - t)) eqn:Hf; try done.
    destruct (fresh (t - t')); [by rewrite keep_last_app|done].
  - rewrite get_clear by done. destruct (decide (v = u)) as [->|Hne].
    + by rewrite decide_True.
    + rewrite decide_False by done. apply Hs. lia.
Qed.

Lemma shows_run clock u s a ops :
  ok s → timely clock ops → shows clock u s a →
  shows (lastTime clock ops) u (historyRun ops s) (session fresh u ops a).
Proof.
  revert clock s a. induction ops as [|o ops IH]; intros clock s a Hok Ht Hs; simpl; [done|].
  destruct Ht as [Hle Ht]. apply IH; [|done|by eapply shows_step].
  destruct o; simpl; [by apply get_ok|by apply turn_ok|by apply clear_ok].
Qed.
End Client.

(** ** The in-process store *)

Record MemoryChatHistoryStoreConfig := {
  ttlMs : Z;
  maxMessages : Z;
  cfgMaxUsers : option Z;
  cfgPendingSummariesPerUser : option Z
}.

Record ChatHistoryState := mkState { messages : list ChatHistoryMessage; updatedAt : Z }.
Record PendingSummary := mkSummary { s_content : jsstring; s_updatedAt : Z }.

Record MemoryStore := mkMemory {
  store : list (string * ChatHistoryState);
  pendingSummaries : list (string * list PendingSummary)
}.

Section Memory.
Context (config : MemoryChatHistoryStoreConfig).

Definition maxUsers : Z := nullish (cfgMaxUsers config) 10000.
Definition pendingSummariesPerUser : Z := nullish (cfgPendingSummariesPerUser config) 10.

(** [Date.now() - updatedAt <= ttlMs]. *)
Definition mfresh (idle : Z) : bool := idle <=? ttlMs config.

Definition m_getHistory (now : Z) (u : string) (s : MemoryStore)
  : MemoryStore * list ChatHistoryMessage :=
  match jm_get u (store s) with
  | None => (s, [])
  | Some st =>
      if negb (mfresh (now - updatedAt st))
      then (mkMemory (jm_del u (store s)) (pendingSummaries s), [])
      else
        let summaries :=
          (λ p, mkMsg tool_summary (s_content p))
          <$> filter (λ p, mfresh (now - s_updatedAt p) = true)
                (default [] (jm_get u (pendingSummaries s))) in
        (s, messages st ++ summaries)
  end.

Definition m_appendTurn (now : Z) (u : string) (userText assistantText : jsstring)
    (s : MemoryStore) : MemoryStore :=
  match turnMessages userText assistantText with
  | None => s
  | Some turn =>
      let existing := match jm_get u (store s) with
                      | Some st => if mfresh (now - updatedAt st) then messages st else []
                      | None => []
                      end in
      mkMemory (jm_set u (mkState (slice_neg (maxMessages config) (existing ++ turn)) now) (store s))
        (jm_del u (pendingSummaries s))
  end.

(** [appendToolSummary]; [push] extends the stored array before [slice] copies it. *)
Definition m_appendToolSummary (now : Z) (u : string) (summary : jsstring) (s : MemoryStore)
  : MemoryStore :=
  let list := default [] (jm_get u (pendingSummaries s)) ++ [mkSummary summary now] in
  mkMemory (store s) (jm_set u (slice_neg pendingSummariesPerUser list) (pendingSummaries s)).

Definition m_clear (u : string) (s : MemoryStore) : MemoryStore :=
  mkMemory (jm_del u (store s)) (jm_del u (pendingSummaries s)).

Definition m_dispose (s : MemoryStore) : MemoryStore := mkMemory [] [].

Definition sortByAge : list (string * ChatHistoryState) → list (string * ChatHistoryState) :=
  sortBy (λ e e', updatedAt e.2 <=? updatedAt e'.2).

(** The cap loop over the sorted entries. *)
Fixpoint evictOldest (byAge : list (string * ChatHistoryState)) (s : MemoryStore) : MemoryStore :=
  match byAge with
  | [] => s
  | (u, _) :: rest =>
      if Z.of_nat (length (store s)) <=? maxUsers then s
      else evictOldest rest (m_clear u s)
  end.

(** The summaries that have not expired; a user without any is forgotten. *)
Definition sweepSummaries (now : Z) (pending : list (string * list PendingSummary)) : list (string * list PendingSummary) :=
  omap (λ e, let aliveOnes := filter (λ p, mfresh (now - s_updatedAt p) = true) e.2 in
             if bool_decide (aliveOnes = []) then None else Some (e.1, aliveOnes)) pending.

Definition evictStale (now : Z) (s : MemoryStore) : MemoryStore :=
  let store1 := filter (λ e, mfresh (now - updatedAt e.2) = true) (store s) in
  let pending1 := sweepSummaries now (pendingSummaries s) in
  let s1 := mkMemory store1 pending1 in
  if maxUsers <? Z.of_nat (length store1) then evictOldest (sortByAge store1) s1 else s1.

#[local] Instance MemoryChatHistoryStore : ChatHistoryStore MemoryStore := {|
  getHistory := m_getHistory;
  appendTurn := m_appendTurn;
  clear := m_clear
|}.

(** No tool summary is pending. *)
Definition no_summaries (s : MemoryStore) : Prop := pendingSummaries s = [].

Lemma m_get_plain now u s :
  no_summaries s →
  (m_getHistory now u s).2 = match jm_get u (store s) with
                             | Some st => if mfresh (now - updatedAt st) then messages st else []
                             | None => []
                             end.
Proof.
  intros Hn. unfold m_getHistory. rewrite Hn. simpl. destruct (jm_get u (store s)) as [st|]; [|done].
  destruct (mfresh _); simpl; [by rewrite app_nil_r|done].
Qed.

#[local] Instance memory_laws :
  0 < maxMessages config →
  ChatHistoryLaws MemoryStore no_summaries mfresh (Z.to_nat (maxMessages config)).
Proof.
  intros Hmax. split; simpl.
  - intros now u s Hok. unfold m_getHistory. destruct (jm_get u _); [|done]. by destruct (mfresh _).
  - intros now u x y s Hok. unfold m_appendTurn. destruct (turnMessages x y); [|done].
    unfold no_summaries in *. simpl. by rewrite Hok.
  - intros u s Hok. unfold no_summaries in *. simpl. by rewrite Hok.
  - intros now now' u v s Hok Hle. unfold m_getHistory at 2.
    destruct (jm_get u (store s)) as [st|] eqn:E; [|done].
    destruct (mfresh (now - updatedAt st)) eqn:Hf; [done|]. simpl.
    rewrite !m_get_plain by done. simpl. rewrite jm_get_del.
    destruct (decide (v = u)) as [->|]; [|done]. rewrite E.
    destruct (mfresh (now' - updatedAt st)) eqn:Hf'; [|done].
    unfold mfresh in *. bool_to_prop. lia.
  - intros now now' u v x y s Hok Hle. unfold m_appendTurn.
    destruct (turnMessages x y) as [ms|]; [|done].
    rewrite !m_get_plain by (done || (unfold no_summaries in *; simpl; by rewrite Hok)). simpl.
    rewrite jm_get_set. destruct (decide (v = u)) as [->|]; [|done]. simpl.
    by rewrite slice_neg_pos.
  - intros now u v s Hok.
    rewrite !m_get_plain by (done || (unfold no_summaries in *; simpl; by rewrite Hok)). simpl.
    rewrite jm_get_del. by destruct (decide (v = u)).
Qed.

(** *** The sweep *)

Definition older (e e' : string * ChatHistoryState) : Prop := updatedAt e.2 ≤ updatedAt e'.2.

Lemma sortByAge_perm l : sortByAge l ≡ₚ l.
Proof. apply sortBy_perm. Qed.

Lemma sortByAge_sorted l : StronglySorted older (sortByAge l).
Proof. apply (sortBy_key_sorted (λ e, updatedAt e.2)). Qed.

Lemma jm_del_head u st (rest m : list (string * ChatHistoryState)) :
  NoDup ((u, st) :: rest).*1 → m ≡ₚ (u, st) :: rest → jm_del u m ≡ₚ rest.
Proof.
  rewrite fmap_cons, NoDup_cons. intros [Hn Hnd] Hp. unfold jm_del. rewrite Hp.
  rewrite filter_cons_False by (simpl; tauto). rewrite filter_all; [done|].
  intros e He E. apply Hn. simpl. rewrite <-E. by apply list_elem_of_fmap_2.
Qed.

(** The loop removes a prefix of the sorted entries, and their summaries. *)
Lemma evictOldest_spec byAge s :
  0 ≤ maxUsers → NoDup byAge.*1 → store s ≡ₚ byAge →
  ∃ k, store (evictOldest byAge s) ≡ₚ drop k byAge
       ∧ Z.of_nat (length (store (evictOldest byAge s))) ≤ maxUsers
       ∧ (∀ u, u ∈ (take k byAge).*1 → jm_get u (pendingSummaries (evictOldest byAge s)) = None)
       ∧ (∀ u, jm_get u (pendingSummaries s) = None →
               jm_get u (pendingSummaries (evictOldest byAge s)) = None)
       ∧ (∀ u, u ∉ (take k byAge).*1 →
               jm_get u (pendingSummaries (evictOldest byAge s)) = jm_get u (pendingSummaries s))
       ∧ (NoDup (pendingSummaries s).*1 → NoDup (pendingSummaries (evictOldest byAge s)).*1).
Proof.
  intros H0. revert s. induction byAge as [|[u st] rest IH]; intros s Hnd Hp; simpl.
  { exists 0%nat. rewrite Hp. split_and!; try done. set_solver. }
  destruct (Z.of_nat (length (store s)) <=? maxUsers) eqn:Hle; bool_to_prop.
  { exists 0%nat. rewrite Hp in *. split_and!; try done. set_solver. }
  assert (NoDup rest.*1) as Hnd' by (rewrite fmap_cons in Hnd; by apply NoDup_cons in Hnd as [_ ?]).
  destruct (IH (m_clear u s) Hnd' (jm_del_head u st rest _ Hnd Hp)) as (k & H1 & H2 & H3 & H4 & H5 & H6).
  exists (S k). split_and!; try done.
  - intros v. simpl. intros [->|Hv]%elem_of_cons; [|by apply H3]. apply H4. simpl.
    by rewrite jm_get_del, decide_True.
  - intros v Hv. apply H4. simpl. rewrite jm_get_del. by destruct (decide (v = u)).
  - intros v. rewrite firstn_cons, fmap_cons. cbn [fst]. intros [Hne Hv]%not_elem_of_cons. rewrite H5 by done. simpl.
    by rewrite jm_get_del, decide_False.
  - intros Hk. apply H6. simpl. by apply jm_keys_filter.
Qed.

(** What the sweep leaves of the histories. *)
Lemma evictStale_store now s :
  0 ≤ maxUsers → NoDup (store s).*1 →
  ∃ gone kept,
    filter (λ e, mfresh (now - updatedAt e.2) = true) (store s) ≡ₚ gone ++ kept
    ∧ store (evictStale now s) ≡ₚ kept
    ∧ Z.of_nat (length kept) ≤ maxUsers
    ∧ (∀ e e', e ∈ gone → e' ∈ kept → older e e')
    ∧ (∀ e, e ∈ gone → jm_get e.1 (pendingSummaries (evictStale now s)) = None)
    ∧ (gone ≠ [] → maxUsers < Z.of_nat (length (gone ++ kept)))
    ∧ (∀ u, u ∉ gone.*1 →
         jm_get u (pendingSummaries (evictStale now s)) = jm_get u (sweepSummaries now (pendingSummaries s)))
    ∧ (NoDup (sweepSummaries now (pendingSummaries s)).*1 → NoDup (pendingSummaries (evictStale now s)).*1).
Proof.
  intros H0 Hnd. unfold evictStale. set (fr := filter _ (store s)).
  assert (NoDup fr.*1) as Hnf by by apply jm_keys_filter.
  destruct (maxUsers <? Z.of_nat (length fr)) eqn:Hlt; bool_to_prop.
  2:{ exists [], fr. split_and!; try done; set_solver. }
  set (s1 := mkMemory fr _).
  destruct (evictOldest_spec (sortByAge fr) s1) as (k & H1 & H2 & H3 & _ & H5 & H6); [done| | |].
  { by rewrite sortByAge_perm. }
  { by rewrite sortByAge_perm. }
  exists (take k (sortByAge fr)), (drop k (sortByAge fr)). rewrite take_drop.
  split_and!; try done.
  - by rewrite sortByAge_perm.
  - by rewrite <-(Permutation_length H1).
  - pose proof (sortByAge_sorted fr) as Hs. rewrite <-(take_drop k (sortByAge fr)) in Hs.
    intros e e' He He'. clear -Hs He He'. induction (take k (sortByAge fr)) as [|x l IH]; [set_solver|].
    simpl in Hs. apply StronglySorted_inv in Hs as [Hs Hf]. rewrite Forall_app, !Forall_forall in Hf.
    apply elem_of_cons in He as [->|He]; [by apply Hf|by apply IH].
  - intros e He. apply H3. by apply list_elem_of_fmap_2.
  - by rewrite (Permutation_length (sortByAge_perm fr)).
Qed.
End Memory.

(** ** The Redis store

    The value of a key is the JSON array of messages ([None]: some other JSON
    value); a key set with [EX ttl] is gone [ttl] seconds later. *)

Record RedisEntry := mkEntry { e_value : option (list ChatHistoryMessage); e_expires : Z }.

Abbreviation RedisStore := (gmap string RedisEntry).

Record RedisChatHistoryStoreConfig := {
  ttlSec : Z;
  r_maxMessages : Z;
  keyPrefix : string
}.

Section Redis.
Context (config : RedisChatHistoryStoreConfig).

Definition key (u : string) : string := keyPrefix config +:+ u.

Definition redisGet (now : Z) (k : string) (s : RedisStore) : option (option (list ChatHistoryMessage)) :=
  match s !! k with
  | Some e => if now <? e_expires e then Some (e_value e) else None
  | None => None
  end.

Definition r_getHistory (now : Z) (u : string) (s : RedisStore)
  : RedisStore * list ChatHistoryMessage :=
  (s, match redisGet now (key u) s with Some (Some ms) => ms | _ => [] end).

(** [APPEND_HISTORY_SCRIPT]. *)
Definition appendScript (now : Z) (k : string) (max ttl : Z) (new : list ChatHistoryMessage)
    (s : RedisStore) : RedisStore :=
  let existing := match redisGet now k s with Some (Some ms) => ms | _ => [] end ++ new in
  let trimmed := if max <? Z.of_nat (length existing)
                 then keep_last (Z.to_nat max) existing else existing in
  <[k := mkEntry (Some trimmed) (now + ttl * 1000)]> s.

Definition r_appendTurn (now : Z) (u : string) (userText assistantText : jsstring)
    (s : RedisStore) : RedisStore :=
  match turnMessages userText assistantText with
  | None => s
  | Some ms => appendScript now (key u) (r_maxMessages config) (ttlSec config) ms s
  end.

Definition r_appendToolSummary (now : Z) (u : string) (summary : jsstring) (s : RedisStore)
  : RedisStore :=
  appendScript now (key u) (r_maxMessages config) (ttlSec config) [mkMsg tool_summary summary] s.

Definition r_clear (u : string) (s : RedisStore) : RedisStore := delete (key u) s.

(** The key has not expired. *)
Definition rfresh (idle : Z) : bool := idle <? ttlSec config * 1000.

#[local] Instance RedisChatHistoryStore : ChatHistoryStore RedisStore := {|
  getHistory := r_getHistory;
  appendTurn := r_appendTurn;
  clear := r_clear
|}.

Lemma key_inj u v : key u = key v → u = v.
Proof. unfold key. intros E. by apply (inj (String.append (keyPrefix config))) in E. Qed.

#[local] Instance redis_history_laws :
  0 ≤ r_maxMessages config →
  ChatHistoryLaws RedisStore (λ _, True) rfresh (Z.to_nat (r_maxMessages config)).
Proof.
  intros Hmax. split; simpl; try done.
  - intros now now' u v x y s _ Hle. unfold r_appendTurn.
    destruct (turnMessages x y) as [ms|]; [|done]. unfold appendScript, redisGet.
    destruct (decide (v = u)) as [->|Hne].
    2:{ rewrite lookup_insert_ne; [done|]. intros E. by apply key_inj in E. }
    rewrite lookup_insert_eq. simpl. unfold rfresh.
    replace (now' <? now + ttlSec config * 1000) with (now' - now <? ttlSec config * 1000)
      by (apply eq_true_iff_eq; rewrite !Z.ltb_lt; lia).
    destruct (now' - now <? _); [|done].
    destruct (_ <? Z.of_nat _) eqn:Hlt; [done|]. bool_to_prop. rewrite keep_last_short; [done|].
    rewrite length_app in *. lia.
  - intros now u v s _. unfold redisGet, r_clear. destruct (decide (v = u)) as [->|Hne].
    + by rewrite lookup_delete_eq.
    + rewrite lookup_delete_ne; [done|]. intros E. by apply key_inj in E.
Qed.
End Redis.

(** The laws depend on the idle window only pointwise. *)
Lemma laws_fresh_ext {S} `{ChatHistoryStore S} ok f g max :
  (∀ i, f i = g i) → ChatHistoryLaws S ok f max → ChatHistoryLaws S ok g max.
Proof.
  intros Hfg L. split; try apply L. intros. rewrite get_turn by done.
  destruct (turnMessages x y); [|done]. by rewrite Hfg.
Qed.

(** ** The stores against what a user said

    Both stores under everything their callers do, tool summaries and the sweep
    included.  What a user said since the last clear is a [Talk]: the session with
    the time of its last message, and for the in-process store the summaries since
    its last turn. *)

Inductive StoreOp :=
| OGet (now : Z) (u : string)
| OTurn (now : Z) (u : string) (userText assistantText : jsstring)
| OSummary (now : Z) (u : string) (summary : jsstring)
| OClear (now : Z) (u : string)
| OSweep (now : Z).

Definition o_time (o : StoreOp) : Z :=
  match o with OGet t _ | OTurn t _ _ _ | OSummary t _ _ | OClear t _ | OSweep t => t end.

(** The clock does not go back. *)
Definition ordered (clock : Z) (ops : list StoreOp) : Prop := StronglySorted Z.le (clock :: (o_time <$> ops)).

Record Talk := mkTalk { t_session : Session; t_pending : list PendingSummary }.

(** Messages after an idle period longer than the window open a new session. *)
Definition say (fresh : Z → bool) (now : Z) (new : list ChatHistoryMessage) (s : Session) : Session :=
  Some (match s with Some (ms, t) => if fresh (now - t) then ms ++ new else new | None => new end, now).

Section MemoryTalk.
Variable config : MemoryChatHistoryStoreConfig.

Definition m_step (s : MemoryStore) (o : StoreOp) : MemoryStore :=
  match o with
  | OGet now u => (m_getHistory config now u s).1
  | OTurn now u x y => m_appendTurn config now u x y s
  | OSummary now u x => m_appendToolSummary config now u x s
  | OClear _ u => m_clear u s
  | OSweep now => evictStale config now s
  end.

Definition m_run (ops : list StoreOp) : MemoryStore := foldl m_step (mkMemory [] []) ops.

(** A turn commits the session and ends the summaries; a summary is kept beside it. *)
Definition m_said (u : string) (t : Talk) (o : StoreOp) : Talk :=
  match o with
  | OTurn now v x y =>
      if decide (v = u) then
        match turnMessages x y with
        | Some new => mkTalk (say (mfresh config) now new (t_session t)) []
        | None => t
        end
      else t
  | OSummary now v x =>
      if decide (v = u)
      then mkTalk (t_session t) (keep_last (Z.to_nat (pendingSummariesPerUser config)) (t_pending t ++ [mkSummary x now]))
      else t
  | OClear _ v => if decide (v = u) then mkTalk None [] else t
  | OGet _ _ | OSweep _ => t
  end.

Definition m_talk (u : string) (ops : list StoreOp) : Talk := foldl (m_said u) (mkTalk None []) ops.

Definition unexpired (now : Z) (ps : list PendingSummary) : list PendingSummary :=
  filter (λ p, mfresh config (now - s_updatedAt p) = true) ps.

(** The last messages of a session that is not idle, and its unexpired summaries. *)
Definition m_view (now : Z) (t : Talk) : list ChatHistoryMessage :=
  match t_session t with
  | Some (ms, at_) =>
      if mfresh config (now - at_)
      then keep_last (Z.to_nat (maxMessages config)) ms
           ++ ((λ p, mkMsg tool_summary (s_content p)) <$> unexpired now (t_pending t))
      else []
  | None => []
  end.

Lemma mfresh_later now now' t : now ≤ now' → mfresh config (now - t) = false → mfresh config (now' - t) = false.
Proof. unfold mfresh. rewrite !Z.leb_gt. lia. Qed.

Definition expiredAt (clock : Z) (p : PendingSummary) : Prop := mfresh config (clock - s_updatedAt p) = false.

Lemma unexpired_expired clock now ps : clock ≤ now → Forall (expiredAt clock) ps → unexpired now ps = [].
Proof.
  intros Hle. induction 1 as [|p ps Hp _ IH]; [done|]. unfold unexpired. rewrite filter_cons_False; [exact IH|].
  by rewrite (mfresh_later clock now) by done.
Qed.

Definition byTime (p q : PendingSummary) : Prop := s_updatedAt p ≤ s_updatedAt q.

(** What expires first was pushed first. *)
Lemma unexpired_suffix now ps :
  StronglySorted byTime ps → ∃ gone, ps = gone ++ unexpired now ps ∧ Forall (expiredAt now) gone.
Proof.
  induction 1 as [|p ps Hs IH Hp]; [by exists []|]. unfold unexpired. destruct (mfresh config (now - s_updatedAt p)) eqn:E.
  - exists []. split; [|done]. cbn [app]. symmetry. apply filter_all. intros q [->|Hq]%elem_of_cons; [done|].
    rewrite Forall_forall in Hp. specialize (Hp q Hq). unfold byTime, mfresh in *. rewrite Z.leb_le in *. lia.
  - destruct IH as (gone & Eg & Hg). exists (p :: gone). rewrite filter_cons_False by (by rewrite E).
    split; [by rewrite Eg at 1|by constructor].
Qed.

(** The store holds what [u] said: the session unless it expired, and the summaries
    but for some expired ones. *)
Record holds (clock : Z) (u : string) (s : MemoryStore) (t : Talk) : Prop := {
  h_keys : NoDup (store s).*1;
  h_pendingKeys : NoDup (pendingSummaries s).*1;
  h_session :
    match t_session t with
    | None => jm_get u (store s) = None
    | Some (ms, at_) =>
        jm_get u (store s) = Some (mkState (keep_last (Z.to_nat (maxMessages config)) ms) at_)
        ∨ jm_get u (store s) = None ∧ mfresh config (clock - at_) = false
    end;
  h_pending : ∃ gone, t_pending t = gone ++ default [] (jm_get u (pendingSummaries s)) ∧ Forall (expiredAt clock) gone;
  h_sorted : StronglySorted byTime (default [] (jm_get u (pendingSummaries s)));
  h_past : Forall (λ p, s_updatedAt p ≤ clock) (default [] (jm_get u (pendingSummaries s)))
}.

Lemma holds_view clock now u s t : holds clock u s t → clock ≤ now → (m_getHistory config now u s).2 = m_view now t.
Proof.
  intros [_ _ Hs (gone & Eg & Hg) _ _] Hle. unfold m_view, m_getHistory.
  destruct (t_session t) as [[ms at_]|]; [|by rewrite Hs].
  destruct Hs as [->|[-> Hf]]; [|by rewrite (mfresh_later clock now) by done].
  cbn [updatedAt]. destruct (mfresh config (now - at_)); [|done]. cbn [negb snd messages]. f_equal. f_equal.
  rewrite Eg. unfold unexpired. rewrite filter_app. fold (unexpired now gone).
  by rewrite (unexpired_expired clock now gone).
Qed.

Lemma holds_later clock now u s t : holds clock u s t → clock ≤ now → holds now u s t.
Proof.
  intros [H1 H2 H3 (gone & Eg & Hg) H5 H6] Hle. split; [done|done| | |done|].
  - destruct (t_session t) as [[ms at_]|]; [|done]. destruct H3 as [?|[? ?]]; [by left|right].
    split; [done|]. by eapply mfresh_later.
  - exists gone. split; [done|]. eapply Forall_impl; [exact Hg|]. intros p Hp. by eapply mfresh_later.
  - eapply Forall_impl; [exact H6|]. simpl. lia.
Qed.

(** What is done for another user. *)
Lemma holds_same clock u s s' t :
  holds clock u s t → NoDup (store s').*1 → NoDup (pendingSummaries s').*1 →
  jm_get u (store s') = jm_get u (store s) → jm_get u (pendingSummaries s') = jm_get u (pendingSummaries s) →
  holds clock u s' t.
Proof. intros [? ? ? ? ? ?] ? ? E1 E2. split; rewrite ?E1, ?E2; done. Qed.

Lemma said_get clock now v u s t : holds clock u s t → clock ≤ now → holds now u (m_step s (OGet now v)) t.
Proof.
  intros Hh Hle. apply (holds_later clock now) in Hh; [|done]. unfold m_step, m_getHistory.
  destruct (jm_get v (store s)) as [st|] eqn:E; [|done]. destruct (mfresh config (now - updatedAt st)) eqn:Ef; [done|].
  destruct Hh as [H1 H2 H3 H4 H5 H6]. cbn [negb fst]. split; cbn [store pendingSummaries]; try done; [by apply jm_keys_filter|].
  destruct (t_session t) as [[ms at_]|]; rewrite jm_get_del; destruct (decide (u = v)) as [->|]; try done.
  right. split; [done|]. destruct H3 as [H3|[? ?]]; [|done]. rewrite E in H3. by injection H3 as ->.
Qed.

Lemma said_turn clock now v x y u s t :
  0 < maxMessages config → holds clock u s t → clock ≤ now →
  holds now u (m_step s (OTurn now v x y)) (m_said u t (OTurn now v x y)).
Proof.
  intros Hmax Hh Hle. apply (holds_later clock now) in Hh; [|done]. unfold m_step, m_said, m_appendTurn.
  destruct (turnMessages x y) as [new|]; [|by case_decide]. pose proof Hh as [H1 H2 H3 H4 H5 H6].
  case_decide as Hv.
  - subst v. split; cbn [store pendingSummaries t_session t_pending say]; rewrite ?jm_get_set, ?jm_get_del, ?decide_True by done.
    + by apply jm_keys_set.
    + by apply jm_keys_filter.
    + left. f_equal. f_equal. rewrite slice_neg_pos by done.
      destruct (t_session t) as [[ms at_]|]; [|by rewrite H3].
      destruct H3 as [->|[-> Hf]]; [|by rewrite Hf]. cbn [updatedAt messages].
      destruct (mfresh config (now - at_)); [by rewrite keep_last_app|done].
    + exists []. done.
    + constructor.
    + constructor.
  - apply (holds_same _ _ s); cbn [store pendingSummaries]; [done|by apply jm_keys_set|by apply jm_keys_filter| |].
    + by rewrite jm_get_set, decide_False by congruence.
    + by rewrite jm_get_del, decide_False by congruence.
Qed.

Lemma sorted_app_r {A} (R : A → A → Prop) l l' : StronglySorted R (l ++ l') → StronglySorted R l'.
Proof. induction l as [|x l IH]; [done|]. cbn [app]. by intros [? _]%StronglySorted_inv; apply IH. Qed.

Lemma sorted_snoc {A} (R : A → A → Prop) l x : StronglySorted R l → Forall (λ y, R y x) l → StronglySorted R (l ++ [x]).
Proof.
  induction 1 as [|y l Hs IH Hy]; intros Hx; cbn [app]; [by repeat constructor|].
  apply Forall_cons in Hx as [Hyx Hx]. constructor; [by apply IH|]. apply Forall_app. split; [done|by constructor].
Qed.

(** The last of a longer list. *)
Lemma keep_last_more {A} n (g l : list A) : ∃ g', keep_last n (g ++ l) = g' ++ keep_last n l ∧ ∀ x, x ∈ g' → x ∈ g.
Proof.
  unfold keep_last. rewrite length_app, drop_app.
  exists (drop (length g + length l - n) g). split; [|intros x; apply subseteq_drop]. f_equal. f_equal. lia.
Qed.

Lemma said_summary clock now v x u s t :
  0 < pendingSummariesPerUser config → holds clock u s t → clock ≤ now →
  holds now u (m_step s (OSummary now v x)) (m_said u t (OSummary now v x)).
Proof.
  intros Hcap Hh Hle. apply (holds_later clock now) in Hh; [|done]. unfold m_step, m_said, m_appendToolSummary.
  pose proof Hh as [H1 H2 H3 (gone & Eg & Hg) H5 H6]. case_decide as Hv.
  - subst v. set (C := default [] (jm_get u (pendingSummaries s))) in *. rewrite slice_neg_pos by done.
    set (n := Z.to_nat (pendingSummariesPerUser config)).
    destruct (keep_last_suffix n (C ++ [mkSummary x now])) as (d & Ed & _).
    assert (Forall (λ p, s_updatedAt p ≤ now) (C ++ [mkSummary x now])) as Hpast
      by (apply Forall_app; split; [done|by repeat constructor]).
    assert (StronglySorted byTime (C ++ [mkSummary x now])) as Hsort by (by apply sorted_snoc).
    rewrite Ed in Hsort, Hpast. apply sorted_app_r in Hsort. apply Forall_app in Hpast as [_ Hpast].
    split; cbn [store pendingSummaries t_session t_pending]; rewrite ?jm_get_set, ?decide_True by done; cbn [default]; try done.
    + by apply jm_keys_set.
    + rewrite Eg, <-app_assoc. destruct (keep_last_more n gone (C ++ [mkSummary x now])) as (g' & -> & Hin).
      exists g'. split; [done|]. rewrite Forall_forall in *. auto.
  - apply (holds_same _ _ s); cbn [store pendingSummaries]; [done|done|by apply jm_keys_set|done|].
    by rewrite jm_get_set, decide_False by congruence.
Qed.

Lemma said_clear clock now v u s t :
  holds clock u s t → clock ≤ now → holds now u (m_step s (OClear now v)) (m_said u t (OClear now v)).
Proof.
  intros Hh Hle. apply (holds_later clock now) in Hh; [|done]. unfold m_step, m_said, m_clear. pose proof Hh as [H1 H2 H3 H4 H5 H6].
  case_decide as Hv.
  - subst v. split; cbn [store pendingSummaries t_session t_pending]; rewrite ?jm_get_del, ?decide_True by done;
      [by apply jm_keys_filter..|done|by exists []|constructor|constructor].
  - apply (holds_same _ _ s); cbn [store pendingSummaries]; [done|by apply jm_keys_filter..| |];
      by rewrite jm_get_del, decide_False by congruence.
Qed.

(** *** The sweep *)

Lemma sweepSummaries_keys now ps : NoDup ps.*1 → NoDup (sweepSummaries config now ps).*1.
Proof.
  assert (∀ ps x, x ∈ (sweepSummaries config now ps).*1 → x ∈ ps.*1) as Hin.
  { clear ps. intros ps x (e & -> & He)%list_elem_of_fmap. apply list_elem_of_omap in He as (e' & He' & Hx).
    cbv zeta in Hx. destruct (bool_decide _); [done|]. injection Hx as <-. by apply (list_elem_of_fmap_2 fst) in He'. }
  induction ps as [|[k l] ps IH]; [done|]. rewrite fmap_cons. intros [Hn Hnd]%NoDup_cons.
  unfold sweepSummaries. cbn [omap list_omap]. cbv zeta. destruct (bool_decide _); [by apply IH|].
  rewrite fmap_cons. constructor; [|by apply IH]. intros Hx. apply Hn. by apply Hin in Hx.
Qed.

Lemma sweepSummaries_get now u ps :
  NoDup ps.*1 → default [] (jm_get u (sweepSummaries config now ps)) = unexpired now (default [] (jm_get u ps)).
Proof.
  induction ps as [|[k l] ps IH]; [done|]. rewrite fmap_cons. intros [Hn Hnd]%NoDup_cons. cbn [jm_get fst] in *.
  unfold sweepSummaries. cbn [omap list_omap fst snd]. cbv zeta. fold (sweepSummaries config now ps).
  fold (unexpired now l). destruct (decide (k = u)) as [->|Hne].
  - case_bool_decide as He; cbn [jm_get]; [|by rewrite decide_True].
    rewrite IH by done. rewrite (jm_get_none u ps) by done. cbn [default from_option id]. by rewrite He.
  - case_bool_decide; cbn [jm_get]; [by apply IH|]. rewrite decide_False by done. by apply IH.
Qed.

(** The users whose history has not expired. *)
Definition remembered (now : Z) (s : MemoryStore) : list (string * ChatHistoryState) :=
  filter (λ e, mfresh config (now - updatedAt e.2) = true) (store s).

(** A sweep keeps what [u] said, or evicts it because of the cap. *)
Lemma said_sweep clock now u s t :
  0 ≤ maxUsers config → holds clock u s t → clock ≤ now →
  holds now u (evictStale config now s) t
  ∨ maxUsers config < Z.of_nat (length (remembered now s)) ∧ holds now u (evictStale config now s) (mkTalk None []).
Proof.
  intros Hmax Hh Hle. apply (holds_later clock now) in Hh; [|done]. destruct Hh as [H1 H2 H3 (old & Eg & Hg) H5 H6].
  destruct (evictStale_store config now s Hmax H1) as (gone & kept & Hp & Hk & _ & _ & Hgone & Hover & Hpend & Hkeys).
  set (fr := filter _ (store s)) in *. specialize (Hkeys (sweepSummaries_keys now _ H2)).
  assert (NoDup fr.*1) as Hfr by (by apply jm_keys_filter).
  assert (NoDup (gone ++ kept).*1) as Hnd by (by rewrite <-Hp).
  assert (NoDup kept.*1) as Hkept by (rewrite fmap_app in Hnd; by apply NoDup_app in Hnd as (_ & _ & ?)).
  assert (NoDup (store (evictStale config now s)).*1) as Hnd' by (by rewrite Hk).
  assert (jm_get u (store (evictStale config now s)) = jm_get u kept) as Eget by (by apply jm_get_keyperm).
  destruct (decide (u ∈ gone.*1)) as [Hu|Hu].
  - right. split.
    + eapply Z.lt_le_trans; [apply Hover; intros ->; by apply not_elem_of_nil in Hu|].
      by rewrite <-(Permutation_length Hp).
    + apply list_elem_of_fmap in Hu as ([k st] & -> & Hin). pose proof (Hgone _ Hin) as Hnone. cbn [fst] in *.
      split; rewrite ?Hnone; cbn [t_session t_pending default]; [done|done| |by exists []|constructor|constructor].
      rewrite Eget. apply jm_get_none. intros Hin'. rewrite fmap_app in Hnd. apply NoDup_app in Hnd as (_ & Hd & _).
      apply (Hd k); [by apply (list_elem_of_fmap_2 fst) in Hin|done].
  - left. assert (jm_get u kept = jm_get u fr) as Efr
      by (rewrite (jm_get_keyperm u _ _ Hfr Hp); symmetry; by apply jm_get_app_r).
    assert (jm_get u fr = match jm_get u (store s) with
      | Some st => if mfresh config (now - updatedAt st) then Some st else None | None => None end) as Efilter.
    { unfold fr. rewrite jm_get_filter by done. destruct (jm_get u (store s)) as [st|]; [|done]. cbn [snd].
      destruct (mfresh config (now - updatedAt st)); [by rewrite decide_True|by rewrite decide_False]. }
    pose proof (sweepSummaries_get now u _ H2) as Esw.
    destruct (unexpired_suffix now _ H5) as (more & Em & Hm).
    set (C := default [] (jm_get u (pendingSummaries s))) in *.
    rewrite Em in H5, H6. apply sorted_app_r in H5. apply Forall_app in H6 as [_ H6].
    split; rewrite ?Hpend, ?Esw by done; [done|done| | |done|done].
    + rewrite Eget, Efr, Efilter. destruct (t_session t) as [[ms at_]|]; [|by rewrite H3].
      destruct H3 as [->|[-> ?]]; [|by right]. cbn [updatedAt].
      destruct (mfresh config (now - at_)) eqn:Ef; [by left|by right].
    + exists (old ++ more). rewrite Eg, Em at 1. split; [by rewrite app_assoc|by apply Forall_app].
Qed.

(** *** Every run *)

Lemma m_run_snoc ops o : m_run (ops ++ [o]) = m_step (m_run ops) o.
Proof. unfold m_run. by rewrite foldl_app. Qed.

Lemma m_talk_snoc u ops o : m_talk u (ops ++ [o]) = m_said u (m_talk u ops) o.
Proof. unfold m_talk. by rewrite foldl_app. Qed.

(** The call number [j] is a sweep that found more unexpired users than the store may keep. *)
Definition crowded (ops : list StoreOp) (j : nat) : Prop :=
  ∃ t, ops !! j = Some (OSweep t) ∧ maxUsers config < Z.of_nat (length (remembered t (m_run (take j ops)))).

Lemma crowded_snoc ops o j : crowded ops j → crowded (ops ++ [o]) j.
Proof.
  intros (t & Hj & Hlt). pose proof (lookup_lt_Some _ _ _ Hj) as Hl. exists t. split; [by apply lookup_app_l_Some|].
  by rewrite take_app_le by lia.
Qed.

Definition endTime (clock : Z) (ops : list StoreOp) : Z := default clock (o_time <$> last ops).

Lemma ordered_snoc clock ops o : ordered clock (ops ++ [o]) → ordered clock ops ∧ endTime clock ops ≤ o_time o ∧ clock ≤ o_time o.
Proof.
  unfold ordered, endTime. rewrite fmap_app. change (o_time <$> [o]) with [o_time o]. intros Hs.
  rewrite app_comm_cons in Hs.
  assert (StronglySorted Z.le (clock :: (o_time <$> ops)) ∧ Forall (λ x, x ≤ o_time o) (clock :: (o_time <$> ops))) as [Hs' Hf].
  { revert Hs. generalize (clock :: (o_time <$> ops)). clear. induction l as [|x l IH]; cbn [app]; [by repeat constructor|].
    intros [Hs Hx]%StronglySorted_inv. destruct (IH Hs) as [H1 H2]. apply Forall_app in Hx as [Hx Hxo].
    apply Forall_cons in Hxo as [Hxo _]. split; by constructor. }
  apply Forall_cons in Hf as [Hc Hf]. split_and!; [done| |done].
  destruct (last ops) as [p|] eqn:E; [|done]. cbn. rewrite Forall_forall in Hf. apply Hf.
  apply last_Some_elem_of in E. by apply (list_elem_of_fmap_2 o_time) in E.
Qed.

Lemma memory_holds clock u ops :
  0 < maxMessages config → 0 < pendingSummariesPerUser config → 0 ≤ maxUsers config → ordered clock ops →
  ∃ k, (k = 0%nat ∨ ∃ j, k = S j ∧ crowded ops j) ∧ (k ≤ length ops)%nat
       ∧ holds (endTime clock ops) u (m_run ops) (m_talk u (drop k ops)).
Proof.
  intros Hmax Hcap Husers. induction ops as [|o ops IH] using rev_ind.
  { intros _. exists 0%nat. split_and!; [by left|done|]. split; [apply NoDup_nil_2|apply NoDup_nil_2|done|by exists []|apply SSorted_nil|apply Forall_nil_2]. }
  intros Ho. apply ordered_snoc in Ho as (Ho & Hle & _). destruct (IH Ho) as (k & Hk & Hlen & Hh).
  assert (endTime clock (ops ++ [o]) = o_time o) as -> by (unfold endTime; by rewrite last_snoc).
  rewrite m_run_snoc. set (h := endTime clock ops) in *.
  assert (holds (o_time o) u (m_step (m_run ops) o) (m_said u (m_talk u (drop k ops)) o)
    ∨ (∃ t, o = OSweep t ∧ maxUsers config < Z.of_nat (length (remembered t (m_run ops))))
      ∧ holds (o_time o) u (m_step (m_run ops) o) (mkTalk None [])) as [Hs|((t & -> & Hover) & Hs)].
  { destruct o as [now v|now v x y|now v x|now v|now]; cbn [o_time] in *.
    - left. by apply (said_get h).
    - left. by apply (said_turn h).
    - left. by apply (said_summary h).
    - left. by apply (said_clear h).
    - destruct (said_sweep h now u (m_run ops) (m_talk u (drop k ops))) as [?|[? ?]]; [done..|by left|right].
      split; [by exists now|done]. }
  - exists k. split_and!.
    + destruct Hk as [->|(j & -> & Hj)]; [by left|right]. exists j. split; [done|by apply crowded_snoc].
    + rewrite length_app. lia.
    + by rewrite drop_app_le, m_talk_snoc by done.
  - exists (S (length ops)). split_and!.
    + right. exists (length ops). split; [done|]. exists t. rewrite list_lookup_middle by done. by rewrite take_app_length.
    + rewrite length_app. simpl. lia.
    + rewrite drop_ge by (rewrite length_app; simpl; lia). exact Hs.
Qed.

(** What [u] said is what the in-process store shows: since the last clear, and
    since the last sweep that evicted [u] if one did, which takes more unexpired
    users than the store may keep. *)
Lemma memory_shows clock u now ops :
  0 < maxMessages config → 0 < pendingSummariesPerUser config → 0 ≤ maxUsers config →
  ordered clock ops → endTime clock ops ≤ now →
  ∃ k, (k = 0%nat ∨ ∃ j, k = S j ∧ crowded ops j)
       ∧ (m_getHistory config now u (m_run ops)).2 = m_view now (m_talk u (drop k ops)).
Proof.
  intros H1 H2 H3 Ho Hnow. destruct (memory_holds clock u ops H1 H2 H3 Ho) as (k & Hk & _ & Hh).
  exists k. split; [done|]. by eapply holds_view.
Qed.
End MemoryTalk.

Section RedisTalk.
Variable config : RedisChatHistoryStoreConfig.

(** The sweep is the in-process store's alone: here keys expire. *)
Definition r_step (s : RedisStore) (o : StoreOp) : RedisStore :=
  match o with
  | OGet now u => (r_getHistory config now u s).1
  | OTurn now u x y => r_appendTurn config now u x y s
  | OSummary now u x => r_appendToolSummary config now u x s
  | OClear _ u => r_clear config u s
  | OSweep _ => s
  end.

Definition r_run (ops : list StoreOp) : RedisStore := foldl r_step ∅ ops.

(** A turn and a summary both commit. *)
Definition r_said (u : string) (t : Session) (o : StoreOp) : Session :=
  match o with
  | OTurn now v x y =>
      if decide (v = u) then
        match turnMessages x y with Some new => say (rfresh config) now new t | None => t end
      else t
  | OSummary now v x => if decide (v = u) then say (rfresh config) now [mkMsg tool_summary x] t else t
  | OClear _ v => if decide (v = u) then None else t
  | OGet _ _ | OSweep _ => t
  end.

Definition r_talk (u : string) (ops : list StoreOp) : Session := foldl (r_said u) None ops.

(** The key of [u] holds the last messages of the session, with its expiry. *)
Definition r_holds (u : string) (s : RedisStore) (t : Session) : Prop :=
  s !! key config u = (λ '(ms, at_), mkEntry (Some (keep_last (Z.to_nat (r_maxMessages config)) ms)) (at_ + ttlSec config * 1000)) <$> t.

Lemma ttl_rfresh now at_ : (now <? at_ + ttlSec config * 1000) = rfresh config (now - at_).
Proof. unfold rfresh. apply eq_true_iff_eq. rewrite !Z.ltb_lt. lia. Qed.

Lemma r_holds_view u s t now :
  r_holds u s t → (r_getHistory config now u s).2 = sessionView (rfresh config) (Z.to_nat (r_maxMessages config)) now t.
Proof.
  unfold r_holds, r_getHistory, redisGet. intros ->. destruct t as [[ms at_]|]; [|done].
  cbn. rewrite ttl_rfresh. by destruct (rfresh config (now - at_)).
Qed.

Lemma r_holds_script now v new u s t :
  0 ≤ r_maxMessages config → r_holds u s t →
  r_holds u (appendScript now (key config v) (r_maxMessages config) (ttlSec config) new s)
    (if decide (v = u) then say (rfresh config) now new t else t).
Proof.
  intros Hmax Hh. pose proof (r_holds_view u s t now Hh) as Hv. unfold r_holds, appendScript in *.
  case_decide as Hvu.
  - subst v. rewrite lookup_insert_eq. cbn. f_equal. f_equal. f_equal.
    unfold r_getHistory in Hv. cbn [snd] in Hv. rewrite Hv. set (n := Z.to_nat (r_maxMessages config)).
    transitivity (keep_last n (sessionView (rfresh config) n now t ++ new)).
    + destruct (_ <? Z.of_nat _) eqn:Hlt; [done|]. bool_to_prop. rewrite keep_last_short; [done|]. lia.
    + destruct t as [[ms at_]|]; [|done]. cbn [say sessionView]. destruct (rfresh config (now - at_)); [by rewrite keep_last_app|done].
  - rewrite lookup_insert_ne; [done|]. intros E. by apply key_inj in E.
Qed.

Lemma redis_holds u ops : 0 ≤ r_maxMessages config → r_holds u (r_run ops) (r_talk u ops).
Proof.
  intros Hmax. induction ops as [|o ops IH] using rev_ind; [done|].
  unfold r_run, r_talk. rewrite !foldl_app. fold (r_run ops) (r_talk u ops). cbn [foldl].
  destruct o as [now v|now v x y|now v x|now v|now]; cbn [r_step r_said]; [done| |by apply r_holds_script| |done].
  - unfold r_appendTurn. destruct (turnMessages x y) as [new|]; [by apply r_holds_script|by case_decide].
  - unfold r_clear, r_holds in *. case_decide as Hv.
    + subst v. by rewrite lookup_delete_eq.
    + rewrite lookup_delete_ne; [done|]. intros E. by apply key_inj in E.
Qed.
End RedisTalk.

(** ** Theorems *)


(** For every store that keeps the port's laws and every interleaved conversation
    without summaries, the history of a user is the last [max] messages of the user's
    session. *)
Theorem laws_show_session {S} `{ChatHistoryStore S} (ok : S → Prop) (fresh : Z → bool) (max : nat)
    (L : ChatHistoryLaws S ok fresh max) (s : S) (clock : Z) (ops : list HistoryOp)
    (Hok : ok s) (Hempty : ∀ now u, (getHistory now u s).2 = []) (Ht : timely clock ops)
    (u : string) (now : Z) (Hnow : lastTime clock ops ≤ now) :
  (getHistory now u (historyRun ops s)).2 = sessionView fresh max now (session fresh u ops None).
Proof. apply (shows_run clock u s None ops Hok Ht); [|done]. intros t _. apply Hempty. Qed.

(** The in-process and the Redis store are interchangeable for conversations:
    with the same positive message cap and the same window (the in-process one
    includes its last millisecond), they return the same history to every user
    at every time. *)
Theorem stores_agree (m : MemoryChatHistoryStoreConfig) (r : RedisChatHistoryStoreConfig)
    (Hcap : maxMessages m = r_maxMessages r) (Hpos : 0 < maxMessages m)
    (Hwindow : ttlMs m = ttlSec r * 1000 - 1)
    (clock : Z) (ops : list HistoryOp) (Ht : timely clock ops)
    (u : string) (now : Z) (Hnow : lastTime clock ops ≤ now) :
  (m_getHistory m now u (@historyRun _ (MemoryChatHistoryStore m) ops (mkMemory [] []))).2
  = (r_getHistory r now u (@historyRun _ (RedisChatHistoryStore r) ops ∅)).2.
Proof.
  pose proof (memory_laws m Hpos) as Lm.
  apply (laws_fresh_ext _ _ (rfresh r)) in Lm.
  2:{ intros i. unfold mfresh, rfresh. apply eq_true_iff_eq. rewrite Z.leb_le, Z.ltb_lt. lia. }
  pose proof (redis_history_laws r ltac:(lia)) as Lr. rewrite <-Hcap in Lr.
  pose proof (shows_run (ChatHistoryLaws0 := Lm) clock u (mkMemory [] []) None ops eq_refl Ht
    (λ _ _, eq_refl) now Hnow) as Em.
  pose proof (shows_run (ChatHistoryLaws0 := Lr) clock u ∅ None ops I Ht
    (λ _ _, eq_refl) now Hnow) as Er.
  transitivity (sessionView (rfresh r) (Z.to_nat (maxMessages m)) now
                  (session (rfresh r) u ops None)); [exact Em|symmetry; exact Er].
Qed.

(** The sweep bounds memory and is fair: afterwards no expired history is
    left and at most [maxUsers] users are; every unexpired history is either
    kept unchanged or was evicted because the cap was exceeded, and then it is
    at least as old as every kept one and its pending tool summaries are gone
    too. *)
Theorem sweep_bounds (config : MemoryChatHistoryStoreConfig) (now : Z) (s : MemoryStore)
    (Hcap : 0 ≤ maxUsers config) (Hkeys : NoDup (store s).*1) :
  let s' := evictStale config now s in
  Z.of_nat (length (store s')) ≤ maxUsers config
  ∧ (∀ e, e ∈ store s' → e ∈ store s ∧ mfresh config (now - updatedAt e.2) = true)
  ∧ (∀ e, e ∈ store s → mfresh config (now - updatedAt e.2) = true →
       e ∈ store s'
       ∨ (∀ e', e' ∈ store s' → updatedAt e.2 ≤ updatedAt e'.2)
         ∧ jm_get e.1 (pendingSummaries s') = None
         ∧ maxUsers config < Z.of_nat (length (store s))).
Proof.
  destruct (evictStale_store config now s Hcap Hkeys)
    as (gone & kept & Hp & Hk & Hl & Ho & Hs & Hover & _ & _). cbv zeta.
  split_and!.
  - by rewrite (Permutation_length Hk).
  - intros e. rewrite Hk. intros He.
    assert (e ∈ gone ++ kept) as He' by (apply elem_of_app; by right).
    rewrite <-Hp in He'. by apply list_elem_of_filter in He' as [? ?].
  - intros e Hin Hf. assert (e ∈ gone ++ kept) as He'.
    { rewrite <-Hp. by apply list_elem_of_filter. }
    apply elem_of_app in He' as [Hg|Hg]; [right|left; by rewrite Hk].
    split_and!; [intros e'; rewrite Hk; by apply Ho|by apply Hs|].
    rewrite <-(Permutation_length Hp) in Hover.
    pose proof (length_filter (λ e, mfresh config (now - updatedAt e.2) = true) (store s)).
    enough (gone ≠ []) as Hne by (specialize (Hover Hne); lia). by intros ->; apply not_elem_of_nil in Hg.
Qed.

(** ** Witnesses *)

Definition demo_memory : MemoryChatHistoryStoreConfig :=
  {| ttlMs := 999; maxMessages := 3; cfgMaxUsers := Some 1; cfgPendingSummariesPerUser := None |}.
Definition demo_redis : RedisChatHistoryStoreConfig :=
  {| ttlSec := 1; r_maxMessages := 3; keyPrefix := "chat-history:" |}.

(** A pause of more than a second, then two turns; another user in between. *)
Definition demo_talk : list HistoryOp :=
  [HTurn 0 "u" (js "old") (js "old answer"); HTurn 2000 "u" (js " a ") (js "b");
   HTurn 2100 "v" (js "x") (js "y"); HTurn 2500 "u" (js "c") (js "d"); HGet 2600 "u"].

(** The first session is over after a pause; then two turns with a tool summary each,
    another user, and a sweep that keeps the only user whose history is unexpired. *)
Definition demo_calls : list StoreOp :=
  [OTurn 0 "v" (js "x") (js "y"); OTurn 0 "u" (js "old") (js "old answer"); OTurn 2000 "u" (js " a ") (js "b");
   OSummary 2100 "u" (js "looked up"); OTurn 2500 "u" (js "c") (js "d"); OSummary 2550 "u" (js "scored"); OSweep 2600].

Lemma demo_not_crowded j : ¬ crowded demo_memory demo_calls j.
Proof.
  intros (t & Hj & Hlt).
  do 6 (destruct j as [|j]; [discriminate Hj|]). destruct j as [|j]; [|vm_compute in Hj; discriminate Hj].
  injection Hj as <-. vm_compute in Hlt. discriminate Hlt.
Qed.


Lemma stores_agree_witness :
  (r_getHistory demo_redis 2700 "u"
     (@historyRun _ (RedisChatHistoryStore demo_redis) demo_talk ∅)).2
  = [mkMsg assistant (js "b"); mkMsg user (js "c"); mkMsg assistant (js "d")].
Proof.
  rewrite <-(stores_agree demo_memory demo_redis eq_refl eq_refl eq_refl 0 demo_talk
    ltac:(simpl; lia) "u" 2700 ltac:(simpl; lia)).
  vm_compute. reflexivity.
Defined.

Lemma sweep_bounds_witness :
  let s := mkMemory [("u", mkState [] 10); ("v", mkState [] 20)] [] in
  Z.of_nat (length (store (evictStale demo_memory 100 s))) ≤ 1.
Proof.
  apply (sweep_bounds demo_memory 100); [vm_compute; discriminate|].
  repeat constructor; set_solver.
Defined.

(** ** Findings *)

(** A tool summary of a user without a committed turn is stored but not shown,
    although the field's comment says it is visible until the next turn. *)
Lemma summary_hidden_before_first_turn now u x :
  let s := m_appendToolSummary demo_memory now u x (mkMemory [] []) in
  jm_get u (pendingSummaries s) = Some [mkSummary x now]
  ∧ (m_getHistory demo_memory now u s).2 = [].
Proof. simpl. by rewrite decide_True. Qed.

(** The Redis store commits the summary instead: it survives the next turn and
    takes one of the message slots. *)
Lemma summary_committed_in_redis :
  let s := r_appendTurn demo_redis 10 "u" (js "a") (js "b")
             (r_appendToolSummary demo_redis 5 "u" (js "looked up") ∅) in
  (r_getHistory demo_redis 20 "u" s).2
  = [mkMsg tool_summary (js "looked up"); mkMsg user (js "a"); mkMsg assistant (js "b")].
Proof. vm_compute. reflexivity. Qed.

(** A cap of zero keeps everything: [slice(-0)] is [slice(0)]. *)
Lemma zero_cap_is_unbounded ttl now x y s u :
  turnMessages x y ≠ None →
  let c := {| ttlMs := ttl; maxMessages := 0; cfgMaxUsers := None;
              cfgPendingSummariesPerUser := None |} in
  0 ≤ ttl → no_summaries s →
  (2 ≤ length (m_getHistory c now u (m_appendTurn c now u x y s)).2)%nat.
Proof.
  intros Hne c Httl Hs. unfold m_appendTurn. destruct (turnMessages x y) as [ms|] eqn:E; [|done].
  rewrite m_get_plain by (unfold no_summaries in *; simpl; by rewrite Hs). simpl.
  rewrite jm_get_set, decide_True by done. simpl. rewrite Z.sub_diag.
  unfold mfresh at 1. simpl. rewrite (proj2 (Z.leb_le 0 ttl)) by done.
  unfold slice_neg. simpl. rewrite drop_0, length_app.
  unfold turnMessages in E. destruct (_ || _); [done|]. injection E as <-. simpl. lia.
Qed.

End ChatHistory.
