(* ===== verification/WebhookInbox.v ===== *)
(** * The durable webhook inbox (packages/webhook-inbound)

    Inbound platform events are stored in [webhook_inbound_events] before they
    are acknowledged, then processed by the inline dispatcher or the retry cron.
    The operations of [PlatformWebhookInboundEventService] are functions on the
    table; [processRow] and [processClaimedInboundRow] compose them; the system
    at the end interleaves any number of workers, with crashes, one SQL
    statement or one call of [processEvent] at a time.  Error texts, log lines
    and metrics are left out. *)

From S2P Require Import Prelude Table.

Module Inbox.

Inductive WebhookInboundEventStatus := pending | processing | completed | failed | abandoned.

#[global] Instance status_eq_dec : EqDecision WebhookInboundEventStatus.
Proof. solve_decision. Defined.

Record InboundRow := mkRow {
  id : Z;
  rplatform : string;
  eventId : string;
  externalUserId : option string;
  eventType : option string;
  rawPayload : string;
  status : WebhookInboundEventStatus;
  retryCount : Z;
  nextRetryAt : option Z;
  leaseToken : option nat;
  processedAt : option Z;
  createdAt : Z;
  updatedAt : Z
}.

Record IngestInboundEventInput := {
  in_eventId : string;
  in_externalUserId : option string;
  in_eventType : option string;
  in_rawPayload : string
}.

Record InboundRetryConfig := {
  maxRetries : Z;
  baseRetryMs : Z;
  capRetryMs : Z
}.

Definition DEFAULT_MAX_RETRIES : Z := 5.
Definition DEFAULT_BASE_RETRY_MS : Z := 60000.
Definition DEFAULT_CAP_RETRY_MS : Z := 480000.

(** [readPositiveInt]; the argument is [Number(raw)], [None] when unset or empty. *)
Definition readPositiveInt (parsed : option jsnum) (fallback : Z) : Z :=
  let v := default JNaN parsed in
  if js_is_finite v && js_pos v then default fallback (js_floor v) else fallback.

Definition readInboundRetryConfig (retries base cap : option jsnum) : InboundRetryConfig :=
  {| maxRetries := readPositiveInt retries DEFAULT_MAX_RETRIES;
     baseRetryMs := readPositiveInt base DEFAULT_BASE_RETRY_MS;
     capRetryMs := readPositiveInt cap DEFAULT_CAP_RETRY_MS |}.

(** ** The repository *)

(** A row with new status, retry data and lease; [updated_at] is maintained by
    the database layer. *)
Definition patch (st : WebhookInboundEventStatus) (rc : Z) (next : option Z)
    (lease : option nat) (processed : option Z) (now : Z) (r : InboundRow) : InboundRow :=
  mkRow (id r) (rplatform r) (eventId r) (externalUserId r) (eventType r) (rawPayload r)
    st rc next lease processed (createdAt r) now.

Section Repository.
Context (platform : string).

(** [ingest]; [rowId] is the generated key. *)
Definition ingest (now rowId : Z) (input : IngestInboundEventInput) (t : list InboundRow)
  : list InboundRow * bool :=
  tbl_insert_nothing
    (λ r, bool_decide (rplatform r = platform) && bool_decide (eventId r = in_eventId input))
    (mkRow rowId platform (in_eventId input) (in_externalUserId input) (in_eventType input)
       (in_rawPayload input) pending 0 None None None now now) t.

(** [claim]; the token is returned when a row is affected. *)
Definition claimable (rowId : Z) (r : InboundRow) : bool :=
  (id r =? rowId) && bool_decide (status r ∈ [pending; failed]).

Definition claim (now rowId : Z) (token : nat) (t : list InboundRow)
  : list InboundRow * option nat :=
  (tbl_update (claimable rowId)
     (λ r, patch processing (retryCount r) (nextRetryAt r) (Some token) (processedAt r) now r) t,
   if tbl_exists (claimable rowId) t then Some token else None).

(** The guard of [updateOwnedProcessing]. *)
Definition owned (rowId : Z) (token : nat) (r : InboundRow) : bool :=
  (id r =? rowId) && bool_decide (leaseToken r = Some token) && bool_decide (status r = processing).

Definition updateOwnedProcessing (rowId : Z) (token : nat) (f : InboundRow → InboundRow)
    (t : list InboundRow) : list InboundRow * bool :=
  (tbl_update (owned rowId token) f t, tbl_exists (owned rowId token) t).

Definition markCompleted (now rowId : Z) (token : nat) (t : list InboundRow)
  : list InboundRow * bool :=
  updateOwnedProcessing rowId token
    (λ r, patch completed (retryCount r) None (leaseToken r) (Some now) now r) t.

(** The first statement of [markFailed]: the next retry count. *)
Definition nextRetryCount (rowId : Z) (t : list InboundRow) : Z :=
  match head (tbl_select (λ r, id r =? rowId) t) with Some r => retryCount r | None => 0 end + 1.

(** [min(base * 2^(n-1), cap)] with equal jitter; a [Date] is whole milliseconds. *)
Definition retryDelay (opts : InboundRetryConfig) (n : Z) (jitter : Q) : Z :=
  Qfloor (inject_Z (Z.min (baseRetryMs opts * 2 ^ (n - 1)) (capRetryMs opts)) * jitter).

(** Its second statement, with the count [n] read by the first. *)
Definition markFailedWrite (opts : InboundRetryConfig) (now rowId : Z) (token : nat) (n : Z)
    (jitter : Q) (t : list InboundRow) : list InboundRow * bool :=
  updateOwnedProcessing rowId token
    (λ r, patch (if maxRetries opts <=? n then abandoned else failed) n
            (if maxRetries opts <=? n then None else Some (now + retryDelay opts n jitter))
            (leaseToken r) (Some now) now r) t.

Definition markFailed (opts : InboundRetryConfig) (now rowId : Z) (token : nat) (jitter : Q)
    (t : list InboundRow) : list InboundRow * bool :=
  markFailedWrite opts now rowId token (nextRetryCount rowId t) jitter t.

(** [terminalizeProcessing]. *)
Definition terminalizeProcessing (now rowId : Z) (condition : InboundRow → bool)
    (t : list InboundRow) : list InboundRow * bool :=
  let p r := (id r =? rowId) && condition r in
  (tbl_update p (λ r, patch abandoned (retryCount r) None (leaseToken r) (Some now) now r) t,
   tbl_exists p t).

Definition abandonStaleProcessing (now rowId staleBefore : Z) (t : list InboundRow)
  : list InboundRow * bool :=
  terminalizeProcessing now rowId
    (λ r, bool_decide (status r = processing) && (updatedAt r <? staleBefore)) t.

Definition markProcessingAbandoned (now rowId : Z) (token : nat) (t : list InboundRow)
  : list InboundRow * bool :=
  terminalizeProcessing now rowId
    (λ r, bool_decide (status r = processing) && bool_decide (leaseToken r = Some token)) t.

(** [deleteTerminalOlderThan]: batches of 1000 until a batch is not full. *)
Definition BATCH_SIZE : nat := 1000.

Definition terminal_before (cutoff : Z) (r : InboundRow) : bool :=
  bool_decide (rplatform r = platform) && bool_decide (status r ∈ [completed; abandoned])
  && (createdAt r <? cutoff).

Fixpoint deleteLoop (fuel : nat) (cutoff : Z) (t : list InboundRow) (totalDeleted : Z)
  : option (list InboundRow * Z) :=
  match fuel with
  | O => None
  | S fuel' =>
      let ids := id <$> take BATCH_SIZE (tbl_select (terminal_before cutoff) t) in
      if bool_decide (ids = []) then Some (t, totalDeleted)
      else
        let p r := bool_decide (id r ∈ ids) in
        let t' := tbl_delete p t in
        let n := totalDeleted + count_by p t in
        if bool_decide (length ids < BATCH_SIZE)%nat then Some (t', n)
        else deleteLoop fuel' cutoff t' n
  end.

Definition deleteTerminalOlderThan (cutoff : Z) (t : list InboundRow) : option (list InboundRow * Z) :=
  deleteLoop (S (length t)) cutoff t 0.

(** The predicate of [listDue] and [countDue]. *)
Definition due (now stuckMs : Z) (r : InboundRow) : bool :=
  bool_decide (rplatform r = platform)
  && (bool_decide (status r ∈ [pending; failed])
        && match nextRetryAt r with None => true | Some x => x <=? now end
      || bool_decide (status r = processing) && (updatedAt r <? now - stuckMs)).

(** [ORDER BY id LIMIT limit]; the table is kept in the order of its serial key. *)
Definition listDue (now stuckMs : Z) (limit : nat) (t : list InboundRow) : list InboundRow :=
  take limit (tbl_select (due now stuckMs) t).

Definition countDue (now stuckMs : Z) (t : list InboundRow) : Z :=
  Z.min 10001 (count_by (due now stuckMs) t).

(** ** Processing one row *)

Inductive Detail := Dcompleted | Dfailed | Dabandoned | Dskipped.

(** How [processEvent] and the completion write behave for one row. *)
Record RowRun := {
  processOk : bool;
  completionWriteOk : bool;
  jitterOf : Q
}.

(** [processRow] of the retry cron; [token] is the fresh lease token. *)
Definition processRow (opts : InboundRetryConfig) (now staleBefore : Z) (token : nat) (env : RowRun)
    (row : InboundRow) (t : list InboundRow) : list InboundRow * Detail :=
  if bool_decide (status row = processing) then
    let '(t1, terminalized) := abandonStaleProcessing now (id row) staleBefore t in
    (t1, if terminalized then Dabandoned else Dskipped)
  else
    match claim now (id row) token t with
    | (t1, None) => (t1, Dskipped)
    | (t1, Some lease) =>
        if processOk env then
          if completionWriteOk env then
            let '(t2, done) := markCompleted now (id row) lease t1 in
            (t2, if done then Dcompleted else Dskipped)
          else
            let '(t2, terminalized) := markProcessingAbandoned now (id row) lease t1 in
            (t2, if terminalized then Dabandoned else Dskipped)
        else
          let '(t2, marked) := markFailed opts now (id row) lease (jitterOf env) t1 in
          (t2, if negb marked then Dskipped
               else if maxRetries opts <=? retryCount row + 1 then Dabandoned else Dfailed)
    end.

Inductive InboundDispatchOutcome := Ocompleted | Ofailed | Oabandoned | Olost.

(** [processClaimedInboundRow] of the inline dispatcher. *)
Definition processClaimedInboundRow (opts : InboundRetryConfig) (now rowId : Z) (lease : nat)
    (env : RowRun) (t : list InboundRow) : list InboundRow * InboundDispatchOutcome :=
  if processOk env then
    if completionWriteOk env then
      let '(t1, done) := markCompleted now rowId lease t in (t1, if done then Ocompleted else Olost)
    else ((markProcessingAbandoned now rowId lease t).1, Oabandoned)
  else
    let '(t1, marked) := markFailed opts now rowId lease (jitterOf env) t in
    (t1, if marked then Ofailed else Olost).

(** The body of [tryInline] once it has a slot. *)
Definition inlineBody (opts : InboundRetryConfig) (now rowId : Z) (token : nat) (env : RowRun)
    (t : list InboundRow) : list InboundRow * InboundDispatchOutcome :=
  match claim now rowId token t with
  | (t1, None) => (t1, Olost)
  | (t1, Some lease) => processClaimedInboundRow opts now rowId lease env t1
  end.
End Repository.

(** ** The system

    A worker has claimed a row and is in one of the phases of [processRow] or
    [processClaimedInboundRow].  [started] and [succeeded] record, per call of
    [processEvent], the row it was called for. *)

Inductive Phase :=
| Running                   (* processEvent is pending *)
| FailureRead (n : Z)       (* it threw; the next retry count has been read *)
| Succeeded                 (* it resolved; the completion write is next *)
| CompletionFailed.         (* the completion write threw *)

Record Worker := mkWorker { w_row : Z; w_lease : nat; w_phase : Phase }.

Record Sys := mkSys {
  rows : list InboundRow;
  workers : list Worker;
  nextRow : Z;
  nextLease : nat;
  started : list Z;
  succeeded : list Z
}.

Inductive SysEvent :=
| EIngest (now : Z) (input : IngestInboundEventInput)
| EClaim (now rowId : Z)
| EResolve (lease : nat)
| EThrow (lease : nat)
| EWriteFailed (now : Z) (lease : nat) (jitter : Q)
| EWriteCompleted (now : Z) (lease : nat)
(* the write throws, whether or not the database applied it *)
| ECompletionThrows (now : Z) (lease : nat) (applied : bool)
| EWriteAbandoned (now : Z) (lease : nat)
| EStale (now rowId staleBefore : Z)
| ECleanup (cutoff : Z)
| ECrash (lease : nat).

Section System.
Context (platform : string) (opts : InboundRetryConfig).

Definition setRows (t : list InboundRow) (s : Sys) : Sys :=
  mkSys t (workers s) (nextRow s) (nextLease s) (started s) (succeeded s).

Definition setWorkers (ws : list Worker) (s : Sys) : Sys :=
  mkSys (rows s) ws (nextRow s) (nextLease s) (started s) (succeeded s).

Definition dropWorker (lease : nat) (s : Sys) : Sys :=
  setWorkers (filter (λ w, w_lease w ≠ lease) (workers s)) s.

Definition setPhase (lease : nat) (ph : Phase) (s : Sys) : Sys :=
  setWorkers ((λ w, if bool_decide (w_lease w = lease) then mkWorker (w_row w) (w_lease w) ph else w)
              <$> workers s) s.

Definition findWorker (lease : nat) (s : Sys) : option Worker :=
  head (filter (λ w, w_lease w = lease) (workers s)).

Definition sysStep (e : SysEvent) (s : Sys) : Sys :=
  match e with
  | EIngest now input =>
      let '(t, inserted) := ingest platform now (nextRow s) input (rows s) in
      mkSys t (workers s) (if inserted then nextRow s + 1 else nextRow s) (nextLease s)
        (started s) (succeeded s)
  | EClaim now rowId =>
      match claim now rowId (nextLease s) (rows s) with
      | (t, Some lease) =>
          mkSys t (workers s ++ [mkWorker rowId lease Running]) (nextRow s) (S (nextLease s))
            (started s ++ [rowId]) (succeeded s)
      | (t, None) =>
          mkSys t (workers s) (nextRow s) (S (nextLease s)) (started s) (succeeded s)
      end
  | EResolve lease =>
      match findWorker lease s with
      | Some (mkWorker row _ Running) =>
          let s1 := setPhase lease Succeeded s in
          mkSys (rows s1) (workers s1) (nextRow s1) (nextLease s1) (started s1)
            (succeeded s1 ++ [row])
      | _ => s
      end
  | EThrow lease =>
      match findWorker lease s with
      | Some (mkWorker row _ Running) =>
          setPhase lease (FailureRead (nextRetryCount row (rows s))) s
      | _ => s
      end
  | EWriteFailed now lease jitter =>
      match findWorker lease s with
      | Some (mkWorker row _ (FailureRead n)) =>
          dropWorker lease (setRows (markFailedWrite opts now row lease n jitter (rows s)).1 s)
      | _ => s
      end
  | EWriteCompleted now lease =>
      match findWorker lease s with
      | Some (mkWorker row _ Succeeded) =>
          dropWorker lease (setRows (markCompleted now row lease (rows s)).1 s)
      | _ => s
      end
  | ECompletionThrows now lease applied =>
      match findWorker lease s with
      | Some (mkWorker row _ Succeeded) =>
          setPhase lease CompletionFailed
            (if applied then setRows (markCompleted now row lease (rows s)).1 s else s)
      | _ => s
      end
  | EWriteAbandoned now lease =>
      match findWorker lease s with
      | Some (mkWorker row _ CompletionFailed) =>
          dropWorker lease (setRows (markProcessingAbandoned now row lease (rows s)).1 s)
      | _ => s
      end
  | EStale now rowId staleBefore =>
      setRows (abandonStaleProcessing now rowId staleBefore (rows s)).1 s
  | ECleanup cutoff => setRows (tbl_delete (terminal_before platform cutoff) (rows s)) s
  | ECrash lease => dropWorker lease s
  end.

Definition sys0 : Sys := mkSys [] [] 1 0 [] [].

Definition sysRun (es : list SysEvent) : Sys := foldl (λ s e, sysStep e s) sys0 es.

(** *** The invariant *)

Definition calls (rowId : Z) (l : list Z) : Z := count_by (λ i, i =? rowId) l.
Definition workersOf (rowId : Z) (s : Sys) : Z := count_by (λ w, w_row w =? rowId) (workers s).

Definition open (st : WebhookInboundEventStatus) : bool :=
  match st with pending | failed => true | _ => false end.

(** A worker that may still report success. *)
Definition undecided (ph : Phase) : bool :=
  match ph with Running | FailureRead _ => true | _ => false end.

Record row_ok (s : Sys) (r : InboundRow) : Prop := {
  ro_id : id r < nextRow s;
  ro_open : open (status r) = true →
            workersOf (id r) s = 0 ∧ calls (id r) (succeeded s) = 0
            ∧ calls (id r) (started s) = retryCount r ∧ retryCount r < maxRetries opts;
  ro_processing : status r = processing →
            calls (id r) (started s) = retryCount r + 1 ∧ retryCount r < maxRetries opts;
  ro_count : 0 ≤ retryCount r
}.

Record worker_ok (s : Sys) (w : Worker) : Prop := {
  wo_row : w_row w < nextRow s;
  wo_lease : (w_lease w < nextLease s)%nat;
  wo_undecided : undecided (w_phase w) = true → calls (w_row w) (succeeded s) = 0;
  wo_read : ∀ n r, w_phase w = FailureRead n → r ∈ rows s → id r = w_row w →
            status r = processing → n = retryCount r + 1
}.

Record sys_ok (s : Sys) : Prop := {
  so_ids : unique_on id (rows s);
  so_events : unique_on (λ r, (rplatform r, eventId r)) (rows s);
  so_rows : ∀ r, r ∈ rows s → row_ok s r;
  so_leases : unique_on w_lease (workers s);
  so_workers : ∀ w, w ∈ workers s → worker_ok s w;
  so_one : ∀ i, workersOf i s ≤ 1;
  so_calls : ∀ i, calls i (started s) ≤ maxRetries opts ∧ calls i (succeeded s) ≤ 1;
  so_fresh : ∀ i, nextRow s ≤ i → workersOf i s = 0 ∧ calls i (started s) = 0
                                  ∧ calls i (succeeded s) = 0
}.

Lemma calls_snoc i l j : calls i (l ++ [j]) = calls i l + (if j =? i then 1 else 0).
Proof. unfold calls. rewrite count_by_app. unfold count_by at 2. simpl. by destruct (j =? i). Qed.

Lemma count_filter_le {A} (q : A → bool) (P : A → Prop) `{∀ x, Decision (P x)} (l : list A) :
  count_by q (filter P l) ≤ count_by q l.
Proof.
  unfold count_by. induction l as [|x l IH]; [done|]. rewrite filter_cons. simpl.
  case_decide; simpl; destruct (q x); lia.
Qed.

(** An update of some rows that keeps their keys, as seen by the invariant. *)
Lemma sys_ok_update (p : InboundRow → bool) f s :
  sys_ok s →
  (∀ r, id (f r) = id r ∧ rplatform (f r) = rplatform r ∧ eventId (f r) = eventId r) →
  (∀ r, r ∈ rows s → p r = true → row_ok s (f r)) →
  (∀ r, r ∈ rows s → p r = true → status (f r) = processing →
        status r = processing ∧ retryCount (f r) = retryCount r) →
  sys_ok (setRows (tbl_update p f (rows s)) s).
Proof.
  intros Hs Hk Hrow Hrd. split; try apply Hs.
  - apply unique_on_update; [apply Hk|apply Hs].
  - apply unique_on_update; [|apply Hs]. intros r. destruct (Hk r) as (_ & -> & ->). done.
  - intros r' (r & Hin & ->)%elem_of_tbl_update.
    destruct (p r) eqn:Hp; [by destruct (Hrow r Hin Hp)|by destruct (so_rows _ Hs r Hin)].
  - intros w Hw. pose proof (so_workers _ Hs w Hw) as [W1 W2 W3 W4]. split; try done.
    intros n r' Hph (r & Hin & ->)%elem_of_tbl_update Hid Hst. destruct (p r) eqn:Hp.
    + destruct (Hrd r Hin Hp Hst) as [Hst' ->]. apply (W4 n r); try done.
      by rewrite <-Hid, (proj1 (Hk r)).
    + by apply (W4 n r).
Qed.

Lemma row_ok_terminal s r r' :
  row_ok s r → id r' = id r → retryCount r' = retryCount r →
  open (status r') = false → status r' ≠ processing → row_ok s r'.
Proof. intros [A B C D] Hi Hc Ho Hp. split; rewrite ?Hi, ?Hc; try done. congruence. Qed.

(** The terminal updates: a row becomes completed or abandoned. *)
Lemma sys_ok_terminal p st now s :
  sys_ok s → open st = false → st ≠ processing →
  sys_ok (setRows (tbl_update p
    (λ r, patch st (retryCount r) None (leaseToken r) (Some now) now r) (rows s)) s).
Proof.
  intros Hs Ho Hp. apply sys_ok_update; try done.
  intros r Hin _. eapply row_ok_terminal; [by apply (so_rows _ Hs)|done..].
Qed.

Lemma sys_ok_drop lease s : sys_ok s → sys_ok (dropWorker lease s).
Proof.
  intros Hs. assert (∀ i, workersOf i (dropWorker lease s) ≤ workersOf i s) as Hle.
  { intros i. apply count_filter_le. }
  assert (∀ i, 0 ≤ workersOf i (dropWorker lease s)) as H0 by (intros; apply count_by_nonneg).
  split; try apply Hs.
  - intros r Hin. destruct (so_rows _ Hs r Hin) as [A B C D]. split; try done.
    intros Ho. destruct (B Ho) as (B1 & B2). split; [|done]. specialize (Hle (id r)).
    specialize (H0 (id r)). lia.
  - by apply unique_on_filter, Hs.
  - intros w [_ Hw]%list_elem_of_filter. by destruct (so_workers _ Hs w Hw).
  - intros i. pose proof (so_one _ Hs i). specialize (Hle i). lia.
  - intros i Hi. destruct (so_fresh _ Hs i Hi) as (F1 & F2). split; [|done].
    specialize (Hle i). specialize (H0 i). lia.
Qed.

Lemma findWorker_spec lease s w :
  findWorker lease s = Some w → w ∈ workers s ∧ w_lease w = lease.
Proof.
  unfold findWorker. destruct (filter _ _) as [|w' l] eqn:E; [done|]. intros [= ->].
  assert (w ∈ w :: l) as Hin by left. rewrite <-E in Hin.
  by apply list_elem_of_filter in Hin as [? ?].
Qed.

(** Once its only worker is gone, a row has none. *)
Lemma dropped_alone lease s w :
  sys_ok s → findWorker lease s = Some w → workersOf (w_row w) (dropWorker lease s) = 0.
Proof.
  intros Hs Hf. apply findWorker_spec in Hf as [Hin <-].
  pose proof (so_one _ Hs (w_row w)) as H1. unfold workersOf in *. simpl.
  destruct (list_elem_of_split _ _ Hin) as (l1 & l2 & Hl). rewrite Hl in *.
  rewrite filter_app, filter_cons_False by tauto. rewrite !count_by_app in *.
  assert (∀ l, count_by (λ w' : Worker, w_row w' =? w_row w) (w :: l)
               = 1 + count_by (λ w' : Worker, w_row w' =? w_row w) l) as Hc.
  { intros l. unfold count_by. simpl. by rewrite Z.eqb_refl. }
  rewrite Hc in H1.
  pose proof (count_filter_le (λ w', w_row w' =? w_row w) (λ w', w_lease w' ≠ w_lease w) l1).
  pose proof (count_filter_le (λ w', w_row w' =? w_row w) (λ w', w_lease w' ≠ w_lease w) l2).
  pose proof (count_by_nonneg (λ w', w_row w' =? w_row w) (filter (λ w', w_lease w' ≠ w_lease w) l1)).
  pose proof (count_by_nonneg (λ w', w_row w' =? w_row w) (filter (λ w', w_lease w' ≠ w_lease w) l2)).
  lia.
Qed.

Lemma setPhase_rows lease ph s i : workersOf i (setPhase lease ph s) = workersOf i s.
Proof.
  unfold workersOf, count_by. simpl. induction (workers s) as [|w ws IH]; [done|]. cbn.
  f_equal; [by destruct (bool_decide _)|exact IH].
Qed.

(** A worker's change of phase. *)
Lemma sys_ok_phase lease ph s w :
  sys_ok s → findWorker lease s = Some w →
  (undecided ph = true → undecided (w_phase w) = true) →
  (∀ n r, ph = FailureRead n → r ∈ rows s → id r = w_row w → status r = processing →
          n = retryCount r + 1) →
  sys_ok (setPhase lease ph s).
Proof.
  intros Hs Hf Hu Hr. pose proof (findWorker_spec _ _ _ Hf) as [Hin Hl].
  split; try apply Hs.
  - intros r Hrin. destruct (so_rows _ Hs r Hrin) as [A B C D]. split; try done.
    by rewrite setPhase_rows.
  - unfold unique_on. simpl. rewrite <-list_fmap_compose.
    rewrite (list_fmap_ext _ w_lease); [apply Hs|]. intros i x _. simpl. by destruct (bool_decide _).
  - intros w' (w0 & -> & Hw0)%list_elem_of_fmap.
    destruct (so_workers _ Hs w0 Hw0) as [W1 W2 W3 W4].
    case_bool_decide as Hl0; [|done].
    assert (w0 = w) as -> by (eapply unique_on_eq; [apply (so_leases _ Hs)|done..|congruence]).
    split; simpl; try done; auto.
  - intros i. rewrite setPhase_rows. apply Hs.
  - intros i Hi. rewrite setPhase_rows. by apply Hs.
Qed.

Lemma elem_worker_pos w s : w ∈ workers s → 1 ≤ workersOf (w_row w) s.
Proof.
  intros Hw. pose proof (count_by_pos (λ w', w_row w' =? w_row w) _ _ Hw (Z.eqb_refl _)).
  unfold workersOf. lia.
Qed.

Lemma sys_ok_ingest now input s :
  1 ≤ maxRetries opts → sys_ok s → sys_ok (sysStep (EIngest now input) s).
Proof.
  intros Hmr Hs. simpl. unfold ingest, tbl_insert_nothing.
  destruct (tbl_exists_spec (λ r, bool_decide (rplatform r = platform)
              && bool_decide (eventId r = in_eventId input)) (rows s)) as [_|Hno]; [by destruct s|].
  set (row := mkRow _ _ _ _ _ _ _ _ _ _ _ _ _).
  destruct (so_fresh _ Hs (nextRow s) ltac:(lia)) as (F1 & F2 & F3).
  split; simpl; try apply Hs.
  - apply unique_on_snoc; [|apply Hs]. intros r Hr. pose proof (ro_id _ _ (so_rows _ Hs r Hr)).
    simpl. lia.
  - apply unique_on_snoc; [|apply Hs]. intros r Hr E. simpl in E. injection E as E1 E2.
    apply Hno. exists r. split; [done|]. by rewrite !bool_decide_true.
  - intros r [Hr| ->%list_elem_of_singleton]%elem_of_app.
    + destruct (so_rows _ Hs r Hr) as [A B C D]. split; simpl; try done. lia.
    + split; simpl; try done; [lia|]. intros _. split_and!; try done; lia.
  - intros w Hw. destruct (so_workers _ Hs w Hw) as [W1 W2 W3 W4]. split; simpl; try done; [lia|].
    intros n r Hph [Hr| ->%list_elem_of_singleton]%elem_of_app; [by apply W4|]. simpl. done.
  - intros i Hi. apply Hs. lia.
Qed.

Lemma sys_ok_claim now rowId s : sys_ok s → sys_ok (sysStep (EClaim now rowId) s).
Proof.
  intros Hs. simpl. unfold claim.
  destruct (tbl_exists_spec (claimable rowId) (rows s)) as [(r0 & Hin0 & Hc0)|Hno].
  2:{ rewrite tbl_update_none.
      - destruct Hs as [A B C D E F G H]. split; try done.
        + intros r Hr. by destruct (C r Hr).
        + intros w Hw. destruct (E w Hw). split; simpl; try done. lia.
      - intros r Hr. apply not_true_is_false. intros Hc. apply Hno. eauto. }
  pose proof Hc0 as Hc0'. unfold claimable in Hc0. bool_to_prop. subst rowId.
  pose proof (so_rows _ Hs r0 Hin0) as [R1 R2 R3 R4].
  destruct R2 as (N1 & N2 & N3 & N4).
  { destruct (status r0); try done; set_solver. }
  assert (∀ w, w ∈ workers s → w_row w ≠ id r0) as Hnow.
  { intros w Hw E. pose proof (elem_worker_pos w s Hw) as Hp. rewrite E in Hp. lia. }
  assert (∀ r, r ∈ rows s → claimable (id r0) r = true → r = r0) as Honly.
  { intros r Hr Hc. unfold claimable in Hc. bool_to_prop.
    by eapply unique_on_eq; [apply (so_ids _ Hs)|..]. }
  assert (∀ i, workersOf i (setWorkers (workers s ++ [mkWorker (id r0) (nextLease s) Running]) s)
               = workersOf i s + (if id r0 =? i then 1 else 0)) as Hwk.
  { intros i. unfold workersOf. simpl. rewrite count_by_app. unfold count_by at 2. simpl.
    by destruct (id r0 =? i). }
  unfold workersOf in Hwk. simpl in Hwk.
  split; simpl; try apply Hs; unfold workersOf; simpl.
  - apply unique_on_update; [done|apply Hs].
  - apply unique_on_update; [done|apply Hs].
  - intros r' (r & Hr & ->)%elem_of_tbl_update.
    destruct (claimable (id r0) r) eqn:Hc.
    + apply Honly in Hc as ->; [|done]. split; simpl; try done; intros _.
      rewrite calls_snoc, Z.eqb_refl. lia.
    + assert (id r ≠ id r0) as Hne.
      { intros E. assert (r = r0) as -> by (by eapply unique_on_eq; [apply (so_ids _ Hs)|..]).
        congruence. }
      destruct (so_rows _ Hs r Hr) as [A B C D].
      split; unfold workersOf; simpl; try done; rewrite ?calls_snoc, ?Hwk;
        rewrite (proj2 (Z.eqb_neq (id r0) (id r))) by congruence; rewrite ?Z.add_0_r; done.
  - apply unique_on_snoc; [|apply Hs]. intros w Hw. simpl.
    pose proof (wo_lease _ _ (so_workers _ Hs w Hw)). lia.
  - intros w [Hw| ->%list_elem_of_singleton]%elem_of_app.
    + destruct (so_workers _ Hs w Hw) as [W1 W2 W3 W4]. split; simpl; try done; [lia|].
      intros n r' Hph (r & Hr & ->)%elem_of_tbl_update Hid Hst.
      destruct (claimable (id r0) r) eqn:Hc; [|by apply (W4 n r)].
      apply Honly in Hc as ->; [|done]. simpl in Hid. by destruct (Hnow w Hw).
    + split; simpl; try done. lia.
  - intros i. rewrite Hwk. pose proof (so_one _ Hs i). unfold workersOf in *.
    destruct (id r0 =? i) eqn:E; bool_to_prop; [subst; lia|lia].
  - intros i. rewrite calls_snoc. destruct (so_calls _ Hs i).
    destruct (id r0 =? i) eqn:E; bool_to_prop; [subst; lia|lia].
  - intros i Hi. rewrite calls_snoc, Hwk. destruct (so_fresh _ Hs i Hi) as (F1 & F2 & F3).
    unfold workersOf in *. rewrite (proj2 (Z.eqb_neq (id r0) i)) by lia. lia.
Qed.

Lemma sys_ok_resolve lease s : sys_ok s → sys_ok (sysStep (EResolve lease) s).
Proof.
  intros Hs. simpl. destruct (findWorker lease s) as [[row l ph]|] eqn:Hf; [|done].
  destruct ph; try done.
  pose proof (sys_ok_phase lease Succeeded s _ Hs Hf ltac:(done) ltac:(done)) as Hp.
  pose proof (findWorker_spec _ _ _ Hf) as [Hin Hl]. simpl in Hl. subst l.
  pose proof (so_workers _ Hs _ Hin) as [W1 W2 W3 _]. simpl in *.
  pose proof (elem_worker_pos _ s Hin) as Hpos. simpl in Hpos.
  destruct Hp as [A B C D E F G H].
  split; simpl in *; try done.
  - intros r Hr. destruct (C r Hr) as [R1 R2 R3 R4]. split; try done. intros Ho. simpl.
    destruct (R2 Ho) as (Z1 & Z2 & Z3 & Z4). rewrite setPhase_rows in Z1.
    assert (row ≠ id r) as Hne by (intros ->; lia).
    split_and!; try done.
    { etransitivity; [apply (setPhase_rows lease Succeeded s)|done]. }
    rewrite calls_snoc, (proj2 (Z.eqb_neq row (id r))) by done. simpl in Z2. lia.
  - intros w Hw. destruct (E w Hw) as [X1 X2 X3 X4]. split; simpl; try done. intros Hu.
    rewrite calls_snoc. destruct (row =? w_row w) eqn:Er; [|specialize (X3 Hu); simpl in X3; lia].
    bool_to_prop. exfalso. apply list_elem_of_fmap in Hw as (w0 & -> & Hw0).
    case_bool_decide as Hl0; [done|]. simpl in *. subst row.
    apply Hl0. pose proof (count_by_one (λ w', w_row w' =? w_row w0) (workers s) w0
      (mkWorker (w_row w0) lease Running) (so_one _ Hs _) Hw0 Hin (Z.eqb_refl _) (Z.eqb_refl _)) as ->.
    done.
  - intros i. destruct (G i) as [G1 G2]. split; [done|]. rewrite calls_snoc.
    destruct (row =? i) eqn:Er; bool_to_prop; [subst; rewrite W3 by done; lia|simpl in G2; lia].
  - intros i Hi. destruct (H i Hi) as (H1 & H2 & H3). split_and!; try done.
    rewrite calls_snoc, (proj2 (Z.eqb_neq row i)) by lia. simpl in H3. lia.
Qed.

Lemma nextRetryCount_row r t : unique_on id t → r ∈ t → nextRetryCount (id r) t = retryCount r + 1.
Proof.
  intros Hu Hr. unfold nextRetryCount.
  destruct (head (tbl_select (λ r', id r' =? id r) t)) as [r'|] eqn:Hh.
  - apply tbl_select_head in Hh as [Hin Hid]. bool_to_prop.
    by assert (r' = r) as -> by (by eapply unique_on_eq).
  - pose proof (tbl_select_head_None _ _ r Hh Hr) as Hn. simpl in Hn. by rewrite Z.eqb_refl in Hn.
Qed.

Lemma sys_ok_write_failed now lease jitter s :
  sys_ok s → sys_ok (sysStep (EWriteFailed now lease jitter) s).
Proof.
  intros Hs. simpl. destruct (findWorker lease s) as [[row l ph]|] eqn:Hf; [|done].
  destruct ph as [|n| |]; try done.
  pose proof (sys_ok_drop lease s Hs) as Hd. pose proof (dropped_alone lease s _ Hs Hf) as H0.
  pose proof (findWorker_spec _ _ _ Hf) as [Hin Hl]. simpl in Hl, H0. subst l.
  pose proof (so_workers _ Hs _ Hin) as [W1 W2 W3 W4]. simpl in *.
  apply (sys_ok_update (owned row lease) _ (dropWorker lease s)); [done|done| |].
  - intros r Hr Ho. unfold owned in Ho. bool_to_prop. simpl in Hr. subst row.
    destruct (so_rows _ Hs r Hr) as [R1 R2 R3 R4]. destruct (R3 ltac:(done)) as [R5 R6].
    assert (n = retryCount r + 1) as -> by by apply W4.
    destruct (_ <=? retryCount r + 1) eqn:Hm; bool_to_prop; split; simpl; try done; try lia.
  - intros r _ _ Hst. simpl in Hst. by destruct (_ <=? n).
Qed.

Lemma sys_ok_step e s : 1 ≤ maxRetries opts → sys_ok s → sys_ok (sysStep e s).
Proof.
  intros Hmr Hs. destruct e as [now input|now i|l|l|now l j|now l|now l ap|now l|now i sb|c|l].
  - by apply sys_ok_ingest.
  - by apply sys_ok_claim.
  - by apply sys_ok_resolve.
  - simpl. destruct (findWorker l s) as [[row l' ph]|] eqn:Hf; [|done]. destruct ph; try done.
    eapply sys_ok_phase; [done|done|done|]. simpl. intros n r [= <-] Hr <- _.
    apply nextRetryCount_row; [apply Hs|done].
  - by apply sys_ok_write_failed.
  - simpl. destruct (findWorker l s) as [[row l' ph]|]; [|done]. destruct ph; try done.
    apply sys_ok_drop. by apply sys_ok_terminal.
  - simpl. destruct (findWorker l s) as [[row l' ph]|] eqn:Hf; [|done]. destruct ph; try done.
    destruct ap; [|by eapply sys_ok_phase].
    eapply (sys_ok_phase _ _ (setRows _ s)); [by apply sys_ok_terminal|exact Hf|done|done].
  - simpl. destruct (findWorker l s) as [[row l' ph]|]; [|done]. destruct ph; try done.
    apply sys_ok_drop. by apply sys_ok_terminal.
  - by apply sys_ok_terminal.
  - simpl. destruct Hs as [A B C D E F G H]. split; simpl; try done.
    + by apply unique_on_filter.
    + by apply unique_on_filter.
    + intros r [_ Hr]%list_elem_of_filter. by destruct (C r Hr).
    + intros w Hw. destruct (E w Hw) as [W1 W2 W3 W4]. split; try done.
      intros n r Hph [_ Hr]%list_elem_of_filter. by apply W4.
  - by apply sys_ok_drop.
Qed.

Lemma sys_ok_run es : 1 ≤ maxRetries opts → sys_ok (sysRun es).
Proof.
  intros Hmr. unfold sysRun.
  assert (sys_ok sys0) as H0.
  { split; simpl.
    1,2,4: constructor.
    1,2: by intros ? ?%not_elem_of_nil.
    all: intros; unfold workersOf, calls, count_by; simpl; lia. }
  revert H0. generalize sys0. induction es as [|e es IH]; intros s Hs; simpl; [done|].
  apply IH. by apply sys_ok_step.
Qed.

(** Only a claim of an open row starts a call. *)
Lemma started_step e s i :
  sys_ok s → calls i (succeeded s) = 1 → calls i (started (sysStep e s)) = calls i (started s).
Proof.
  intros Hs Hsucc. destruct e; simpl;
    try (destruct (findWorker _ _) as [[? ? []]|]; simpl; done); try done.
  - by destruct (ingest _ _ _ _ _).
  - unfold claim. destruct (tbl_exists_spec (claimable rowId) (rows s)) as [(r & Hr & Hc)|_]; [|done].
    simpl. rewrite calls_snoc. destruct (rowId =? i) eqn:E; [|lia]. bool_to_prop. subst i.
    unfold claimable in Hc. bool_to_prop. subst rowId.
    destruct (ro_open _ _ (so_rows _ Hs r Hr)) as (_ & H2 & _); [|lia].
    destruct (status r); try done; set_solver.
  - by destruct (findWorker _ _) as [[? ? []]|]; try destruct applied.
Qed.

(** ** Theorems *)

(** C6. At most once: however ingests, claims, crashes, stale recovery, failed
    completion writes and cleanup interleave, a platform event is stored once;
    for every row at most one worker is active, [processEvent] is called at
    most [maxRetries] times, it succeeds at most once, and after a success it
    is never called again. *)
Theorem inbox_at_most_once es (Hmr : 1 ≤ maxRetries opts) :
  let s := sysRun es in
  NoDup ((λ r, (rplatform r, eventId r)) <$> rows s)
  ∧ ∀ i, workersOf i s ≤ 1
         ∧ calls i (started s) ≤ maxRetries opts
         ∧ calls i (succeeded s) ≤ 1
         ∧ (calls i (succeeded s) = 1 →
            ∀ e, calls i (started (sysStep e s)) = calls i (started s)).
Proof.
  pose proof (sys_ok_run es Hmr) as Hs. split; [apply Hs|]. intros i.
  split_and!; [apply Hs|apply Hs|apply Hs|]. intros H1 e. by apply started_step.
Qed.

Lemma update_keeps (p : InboundRow → bool) f (r : InboundRow) t :
  (∀ x, id (f x) = id x) → r ∈ t → ∃ r', r' ∈ tbl_update p f t ∧ id r' = id r.
Proof.
  intros Hf Hr. exists (if p r then f r else r). split; [|by destruct (p r)].
  apply elem_of_tbl_update. eauto.
Qed.

(** Nothing is lost: a row that is pending, being processed or waiting for a
    retry stays in the inbox through every event, and a pending or failed one
    can always be claimed. *)
Theorem inbox_durable es e r (Hr : r ∈ rows (sysRun es))
    (Hst : status r ≠ completed ∧ status r ≠ abandoned) :
  (∃ r', r' ∈ rows (sysStep e (sysRun es)) ∧ id r' = id r)
  ∧ (open (status r) = true →
     ∀ now token, (claim now (id r) token (rows (sysRun es))).2 = Some token).
Proof.
  set (s := sysRun es) in *. split.
  - destruct e; simpl; try (destruct (findWorker _ _) as [[? ? []]|]; simpl; eauto);
      try by (eauto || apply update_keeps).
    + unfold ingest, tbl_insert_nothing. destruct (tbl_exists _ _); simpl; [eauto|].
      exists r. split; [apply elem_of_app; by left|done].
    + unfold claim. destruct (tbl_exists _ _); simpl; by apply update_keeps.
    + destruct applied; simpl; [by apply update_keeps|eauto].
    + exists r. split; [|done]. apply elem_of_tbl_delete. split; [|done].
      unfold terminal_before. rewrite (bool_decide_false (status r ∈ _)); [by rewrite andb_false_r|].
      set_solver.
  - intros Ho now token. unfold claim. simpl.
    destruct (tbl_exists_spec (claimable (id r)) (rows s)) as [_|Hno]; [done|]. destruct Hno.
    exists r. split; [done|]. unfold claimable. rewrite Z.eqb_refl. simpl.
    apply bool_decide_eq_true. destruct (status r); try done; set_solver.
Qed.
End System.

Lemma count_delete_split {A} (p q : A → bool) t :
  (∀ r, r ∈ t → p r = true → q r = true) →
  count_by q t = count_by p t + count_by q (tbl_delete p t).
Proof.
  intros H. unfold count_by. rewrite tbl_delete_sum.
  rewrite (sum_by_ext (λ x, if p x then if q x then 1 else 0 else 0)
             (λ x, if p x then 1 else 0)); [lia|].
  intros r Hr. destruct (p r) eqn:E; [by rewrite (H r Hr E)|done].
Qed.

Lemma tbl_delete_absorb {A} (p q : A → bool) t :
  (∀ r, r ∈ t → p r = true → q r = true) → tbl_delete q (tbl_delete p t) = tbl_delete q t.
Proof.
  intros H. unfold tbl_delete. induction t as [|r t IH]; [done|]. rewrite !filter_cons.
  rewrite <-IH by (intros; apply H; [by right|done]).
  destruct (p r) eqn:E.
  - rewrite decide_False by done.
    rewrite (decide_False (P := q r = false)); [done|]. rewrite (H r); [done|left|done].
  - rewrite decide_True by done. by rewrite filter_cons.
Qed.

Section Cleanup.
Context (platform : string) (cutoff : Z).

(** The rows one batch deletes. *)
Definition batch (t : list InboundRow) : list Z :=
  id <$> take BATCH_SIZE (tbl_select (terminal_before platform cutoff) t).

Lemma batch_terminal t r :
  unique_on id t → r ∈ t → id r ∈ batch t → terminal_before platform cutoff r = true.
Proof.
  intros Hu Hr (r' & Hid & Hr')%list_elem_of_fmap. apply elem_of_take in Hr' as (i & Hl & _).
  apply list_elem_of_lookup_2, list_elem_of_filter in Hl as [Ht Hin].
  by assert (r = r') as -> by (by eapply unique_on_eq).
Qed.

Lemma batch_full t r :
  (length (batch t) < BATCH_SIZE)%nat → r ∈ t → terminal_before platform cutoff r = true →
  id r ∈ batch t.
Proof.
  unfold batch. rewrite length_fmap, length_take. intros Hlen Hr Ht.
  rewrite take_ge by lia. apply list_elem_of_fmap_2. by apply list_elem_of_filter.
Qed.

Lemma deleteLoop_spec fuel t n :
  unique_on id t → count_by (terminal_before platform cutoff) t < Z.of_nat fuel →
  deleteLoop platform fuel cutoff t n
  = Some (tbl_delete (terminal_before platform cutoff) t,
          n + count_by (terminal_before platform cutoff) t).
Proof.
  revert t n. induction fuel as [|fuel IH]; intros t n Hu Hf.
  { pose proof (count_by_nonneg (terminal_before platform cutoff) t). lia. }
  cbn [deleteLoop]. fold (batch t). set (p := λ r, bool_decide (id r ∈ batch t)).
  assert (∀ r, r ∈ t → p r = true → terminal_before platform cutoff r = true) as Hp.
  { intros r Hr Hb. apply bool_decide_eq_true in Hb. by eapply batch_terminal. }
  case_bool_decide as Hnil.
  { unfold batch in Hnil. apply fmap_nil_inv in Hnil.
    destruct (tbl_select _ t) as [|r l] eqn:Hsel; [|done].
    assert (∀ r, r ∈ t → terminal_before platform cutoff r = false) as Hno.
    { intros r Hr. apply not_true_is_false. intros Ht.
      assert (r ∈ tbl_select (terminal_before platform cutoff) t) as Hin
        by (by apply list_elem_of_filter).
      rewrite Hsel in Hin. by apply not_elem_of_nil in Hin. }
    rewrite tbl_delete_none, count_by_zero by done. by rewrite Z.add_0_r. }
  pose proof (count_delete_split p _ t Hp) as Hc.
  case_bool_decide as Hlen.
  - assert (∀ r, r ∈ t → p r = terminal_before platform cutoff r) as Heq.
    { intros r Hr. apply eq_true_iff_eq. split; [by apply Hp|]. intros Ht.
      apply bool_decide_eq_true. by apply batch_full. }
    rewrite (count_by_ext p _ t Heq). f_equal. f_equal.
    by apply tbl_delete_ext.
  - rewrite IH.
    + rewrite tbl_delete_absorb by done. f_equal. f_equal. lia.
    + by apply unique_on_filter.
    + destruct (batch t) as [|i l] eqn:Hb; [done|].
      assert (i ∈ batch t) as Hi by (rewrite Hb; left).
      apply list_elem_of_fmap in Hi as (r & -> & Hr). apply elem_of_take in Hr as (j & Hl & _).
      apply list_elem_of_lookup_2, list_elem_of_filter in Hl as [_ Hin].
      assert (p r = true) as Hpr by (apply bool_decide_eq_true; left).
      pose proof (count_by_pos p t r Hin Hpr). lia.
Qed.

(** Retention cleanup ends and is exact: the batched loop deletes precisely the
    completed and abandoned rows of the platform created before the cutoff, and
    reports how many there were. *)
Theorem cleanup_exact t (Hu : NoDup (id <$> t)) :
  deleteTerminalOlderThan platform cutoff t
  = Some (tbl_delete (terminal_before platform cutoff) t,
          count_by (terminal_before platform cutoff) t).
Proof.
  unfold deleteTerminalOlderThan. rewrite deleteLoop_spec; [done|done|].
  assert (count_by (terminal_before platform cutoff) t ≤ Z.of_nat (length t)); [|lia].
  clear. induction t as [|r t IH]; [done|]. rewrite count_by_cons. simpl. case_match; lia.
Qed.
End Cleanup.

(** ** Progress of the retry cron *)

Section Progress.
Context (platform : string) (opts : InboundRetryConfig).

(** An update confined to one row. *)
Lemma update_at p f (row : InboundRow) t :
  (∀ r, p r = true → id r = id row) → row ∈ t → p row = true →
  f row ∈ tbl_update p f t ∧ tbl_exists p t = true
  ∧ ∀ r, id r ≠ id row → (∀ x, id (f x) = id x) → (r ∈ tbl_update p f t ↔ r ∈ t).
Proof.
  intros Hp Hin Hrow. split_and!.
  - apply elem_of_tbl_update. exists row. by rewrite Hrow.
  - destruct (tbl_exists_spec p t) as [_|Hno]; [done|]. destruct Hno. eauto.
  - intros r Hne Hf. rewrite elem_of_tbl_update. split.
    + intros (r0 & Hr0 & ->). destruct (p r0) eqn:E; [|done].
      apply Hp in E. by rewrite Hf in Hne.
    + intros Hr. exists r. split; [done|]. destruct (p r) eqn:E; [by apply Hp in E|done].
Qed.

Lemma retryDelay_pos n jitter :
  2 ≤ baseRetryMs opts → 2 ≤ capRetryMs opts → 1 ≤ n → (1 # 2 <= jitter)%Q →
  1 ≤ retryDelay opts n jitter.
Proof.
  intros Hb Hc Hn Hj. unfold retryDelay. set (m := Z.min _ _).
  assert (2 ≤ m) as Hm.
  { unfold m. pose proof (Z.pow_pos_nonneg 2 (n - 1) ltac:(lia) ltac:(lia)). nia. }
  change 1 with (Qfloor (inject_Z 1)). apply Qfloor_resp_le.
  apply (Qle_trans _ (inject_Z m * (1 # 2))).
  - unfold Qle, Qmult, inject_Z. simpl. lia.
  - apply Qmult_le_l; [|done]. unfold Qlt, inject_Z. simpl. lia.
Qed.

Definition statusOf (d : Detail) : option WebhookInboundEventStatus :=
  match d with
  | Dcompleted => Some completed | Dfailed => Some failed | Dabandoned => Some abandoned
  | Dskipped => None
  end.

(** Every due row makes progress: a row handled by the cron without
    interference is never skipped, ends up completed, failed with a later retry
    time, or abandoned, exactly as the tick's statistics say, is no longer due,
    and no other row is touched. *)
Theorem processRow_progress now stuckMs token env row t
    (Hu : NoDup (id <$> t)) (Hin : row ∈ t) (Hdue : due platform now stuckMs row = true)
    (Hstuck : 0 ≤ stuckMs) (Hcount : 0 ≤ retryCount row)
    (Hbase : 2 ≤ baseRetryMs opts) (Hcap : 2 ≤ capRetryMs opts)
    (Hjit : (1 # 2 <= jitterOf env)%Q) :
  let '(t', d) := processRow opts now (now - stuckMs) token env row t in
  (∃ r', r' ∈ t' ∧ id r' = id row ∧ statusOf d = Some (status r')
         ∧ due platform now stuckMs r' = false)
  ∧ ∀ r, id r ≠ id row → (r ∈ t' ↔ r ∈ t).
Proof.
  unfold due in Hdue. apply andb_true_iff in Hdue as [Hpl Hdue].
  unfold processRow. destruct (decide (status row = processing)) as [Hproc|Hproc];
    [rewrite (bool_decide_true (status row = processing)) by done
    |rewrite (bool_decide_false (status row = processing)) by done].
  - (* stale processing *)
    rewrite Hproc in Hdue. simpl in Hdue.
    unfold abandonStaleProcessing, terminalizeProcessing.
    set (p := λ r, (id r =? id row) && _). set (f := λ r, patch _ _ _ _ _ _ r).
    destruct (update_at p f row t) as (Hnew & -> & Hoth); [intros r Hr; unfold p in Hr; by bool_to_prop|done| |].
    { unfold p. rewrite Z.eqb_refl, Hproc. done. }
    split; [|intros r Hne; by apply Hoth]. exists (f row). split_and!; try done.
    unfold due. simpl. by rewrite andb_false_r.
  - (* claimed *)
    assert (claimable (id row) row = true) as Hcl.
    { unfold claimable. rewrite Z.eqb_refl. rewrite (bool_decide_false (status row = processing)) in Hdue
        by done. simpl in Hdue. rewrite orb_false_r in Hdue. by apply andb_true_iff in Hdue as [-> _]. }
    unfold claim. set (f := λ r, patch processing _ _ _ _ _ r).
    destruct (update_at (claimable (id row)) f row t) as (Hnew & -> & Hoth);
      [by intros r Hc; unfold claimable in Hc; bool_to_prop|done|done|].
    set (t1 := tbl_update _ f t) in *.
    assert (NoDup (id <$> t1)) as Hu1 by by apply (unique_on_update id).
    assert (owned (id row) token (f row) = true) as Hown.
    { unfold owned. simpl. by rewrite Z.eqb_refl, !bool_decide_true. }
    assert (∀ r, owned (id row) token r = true → id r = id (f row)) as Hownid
      by (intros r Ho; unfold owned in Ho; by bool_to_prop).
    destruct (processOk env); [destruct (completionWriteOk env)|].
    + unfold markCompleted, updateOwnedProcessing. set (g := λ r, patch completed _ _ _ _ _ r).
      destruct (update_at _ g (f row) t1 Hownid Hnew Hown) as (Hnew2 & -> & Hoth2).
      split; [|intros r Hne; rewrite Hoth2 by done; by apply Hoth].
      exists (g (f row)). split_and!; try done. unfold due. simpl. by rewrite andb_false_r.
    + unfold markProcessingAbandoned, terminalizeProcessing. set (p := λ r, (id r =? id row) && _).
      set (g := λ r, patch abandoned _ _ _ _ _ r).
      destruct (update_at p g (f row) t1) as (Hnew2 & -> & Hoth2);
        [intros r Hr; unfold p in Hr; by bool_to_prop|done| |].
      { unfold p. simpl. by rewrite Z.eqb_refl, !bool_decide_true. }
      split; [|intros r Hne; rewrite Hoth2 by done; by apply Hoth].
      exists (g (f row)). split_and!; try done. unfold due. simpl. by rewrite andb_false_r.
    + unfold markFailed, markFailedWrite, updateOwnedProcessing.
      change (nextRetryCount (id row) t1) with (nextRetryCount (id (f row)) t1).
      rewrite (nextRetryCount_row (f row) t1 Hu1 Hnew). simpl retryCount.
      set (g := λ r, patch (if maxRetries opts <=? retryCount row + 1 then abandoned else failed)
                       _ _ _ _ _ r).
      destruct (update_at _ g (f row) t1 Hownid Hnew Hown) as (Hnew2 & -> & Hoth2).
      split; [|intros r Hne; rewrite Hoth2 by done; by apply Hoth].
      pose proof (retryDelay_pos (retryCount row + 1) (jitterOf env) Hbase Hcap ltac:(lia) Hjit).
      exists (g (f row)). split_and!; try done.
      * simpl. by destruct (maxRetries opts <=? _).
      * unfold due. simpl. destruct (maxRetries opts <=? _); simpl; [by rewrite andb_false_r|].
        rewrite (proj2 (Z.leb_gt _ _)) by lia. by rewrite andb_false_r.
Qed.
End Progress.

(** ** The inline dispatcher's limiter

    [running] and the queue of waiting attempts; both operations are
    synchronous. *)

Record Limiter := mkLimiter { running : Z; waiting : list nat }.

(** [acquire] of attempt [a]: does it start now? *)
Definition inlineAcquire (max : Z) (a : nat) (l : Limiter) : Limiter * bool :=
  if running l <? max then (mkLimiter (running l + 1) (waiting l), true)
  else (mkLimiter (running l) (waiting l ++ [a]), false).

(** [release]: the attempt that starts, if any. *)
Definition inlineRelease (l : Limiter) : Limiter * option nat :=
  match waiting l with
  | [] => (mkLimiter (running l - 1) [], None)
  | a :: rest => (mkLimiter (running l - 1 + 1) rest, Some a)
  end.

Definition limiter_ok (max : Z) (l : Limiter) : Prop :=
  0 ≤ running l ≤ Z.max 0 max ∧ (waiting l ≠ [] → max ≤ running l).

Lemma limiter_acquire_ok max a l : limiter_ok max l → limiter_ok max (inlineAcquire max a l).1.
Proof.
  unfold limiter_ok, inlineAcquire. intros [H1 H2]. destruct (_ <? max) eqn:E; bool_to_prop; simpl.
  - split; [lia|]. intros Hw. specialize (H2 Hw). lia.
  - split; [lia|]. intros _. lia.
Qed.

Lemma limiter_release_ok max l : 0 < running l → limiter_ok max l → limiter_ok max (inlineRelease l).1.
Proof.
  unfold limiter_ok, inlineRelease. intros Hp [H1 H2]. destruct (waiting l) as [|a rest]; simpl.
  - split; [lia|]. by intros [].
  - split; [lia|]. intros _. specialize (H2 ltac:(done)). lia.
Qed.

(** ** Witnesses *)

Definition demo_opts : InboundRetryConfig :=
  {| maxRetries := 2; baseRetryMs := 60000; capRetryMs := 480000 |}.

Definition demo_input (e : string) : IngestInboundEventInput :=
  {| in_eventId := e; in_externalUserId := Some "psid"; in_eventType := None;
     in_rawPayload := "payload" |}.

(** A duplicate delivery, a first failing attempt, a second one that succeeds
    while the lease is declared stale. *)
Definition demo_events : list SysEvent :=
  [EIngest 0 (demo_input "m1"); EIngest 1 (demo_input "m1"); EClaim 2 1; EClaim 3 1;
   EThrow 0; EWriteFailed 10 0 (1 # 2); EClaim 70000 1; EStale 500000 1 400000; EResolve 2;
   EWriteCompleted 500001 2; EClaim 500002 1].

Lemma inbox_at_most_once_witness :
  calls 1 (started (sysRun "zalo" demo_opts demo_events)) = 2
  ∧ calls 1 (succeeded (sysRun "zalo" demo_opts demo_events)) = 1
  ∧ calls 1 (started (sysStep "zalo" demo_opts (EClaim 600000 1)
                        (sysRun "zalo" demo_opts demo_events))) = 2.
Proof.
  destruct (inbox_at_most_once "zalo" demo_opts demo_events) as [_ H]; [simpl; lia|].
  destruct (H 1) as (_ & _ & _ & Hafter).
  assert (calls 1 (started (sysRun "zalo" demo_opts demo_events)) = 2) as Hs
    by (vm_compute; reflexivity).
  assert (calls 1 (succeeded (sysRun "zalo" demo_opts demo_events)) = 1) as Hk
    by (vm_compute; reflexivity).
  split; [exact Hs|]. split; [exact Hk|]. rewrite (Hafter Hk). exact Hs.
Defined.

Definition demo_row : InboundRow :=
  mkRow 1 "zalo" "m1" (Some "psid") None "payload" pending 0 None None None 0 0.

Lemma inbox_durable_witness :
  ∃ r', r' ∈ rows (sysStep "zalo" demo_opts (ECleanup 1000)
                     (sysRun "zalo" demo_opts (take 1 demo_events))) ∧ id r' = 1.
Proof.
  destruct (inbox_durable "zalo" demo_opts (take 1 demo_events) (ECleanup 1000) demo_row)
    as [H _]; [vm_compute; left|split; discriminate|].
  exact H.
Defined.

Lemma cleanup_exact_witness :
  deleteTerminalOlderThan "zalo" 100
    [demo_row; patch completed 0 None None None 0 (mkRow 2 "zalo" "m2" None None "" pending 0 None None None 5 5)]
  = Some ([demo_row], 1).
Proof.
  rewrite cleanup_exact.
  - vm_compute. reflexivity.
  - repeat constructor; set_solver.
Defined.

Lemma processRow_progress_witness :
  let r := processRow demo_opts 1000 (1000 - 300) 0
             {| processOk := false; completionWriteOk := true; jitterOf := 1 # 2 |} demo_row [demo_row] in
  r.2 = Dfailed ∧ ∃ r', r' ∈ r.1 ∧ status r' = failed ∧ due "zalo" 1000 300 r' = false.
Proof.
  pose proof (processRow_progress "zalo" demo_opts 1000 300 0
    {| processOk := false; completionWriteOk := true; jitterOf := 1 # 2 |} demo_row [demo_row]) as H.
  destruct (processRow _ _ _ _ _ _ _) as [t' d] eqn:E.
  assert (d = Dfailed) as Hd.
  { vm_compute in E. by injection E as _ <-. }
  destruct H as [(r' & Hin & _ & Hst & Hdue) _];
    [repeat constructor; set_solver|left|reflexivity|lia|simpl; lia|simpl; lia|simpl; lia|
     vm_compute; discriminate|].
  split; [exact Hd|]. exists r'. rewrite Hd in Hst. simpl in Hst. injection Hst as Hst.
  split; [exact Hin|]. split; [by rewrite Hst|exact Hdue].
Defined.

End Inbox.
