(* ===== verification/ChatPipeline.v ===== *)
(** * The chat pipeline (packages/chat-pipeline, chat-pipeline.ts)

    [flush] turns one debounced batch into a reply: reserve a quota slot, load
    the history, ask the agent, send, record the delivery, remember the turn,
    complete the slot; on failure refund.  The quota behind it is the port
    [RateLimiterPort] (types.ts), a type class whose laws the quota engine
    satisfies through the adapter of packages/chat-agent,
    chat-pipeline-adapters.ts.  Every other port, every hook and every quota
    call may throw; a quota call may throw before or after it took effect. *)

From S2P Require Import Prelude Table QuotaRepository RateLimit.

Module Pipeline.

Abbreviation SlotStatus := Quota.ChatIdempotencyStatus.
Abbreviation DenyReason := RateLimit.ChatQuotaDenyReason.

(** ** Merging the texts *)

Definition DEFAULT_MERGED_TEXT_MAX_CHARS : Z := 4000.

(** The constructor's [config.mergedTextMaxChars ?? DEFAULT]. *)
Definition mergedTextMaxCharsOf (config : option Z) : Z :=
  nullish config DEFAULT_MERGED_TEXT_MAX_CHARS.

Definition newline : Z := 10.

(** [parts.join('\n')]. *)
Fixpoint join (parts : list jsstring) : jsstring :=
  match parts with
  | [] => []
  | [p] => p
  | p :: rest => p ++ [newline] ++ join rest
  end.

(** [s.slice(0, n)]; a negative [n] counts from the end. *)
Definition slice0 (n : Z) (s : jsstring) : jsstring :=
  if 0 <=? n then take (Z.to_nat n) s else take (length s - Z.to_nat (- n)) s.

(** The loop of [capUserTextParts]; [first] is [index === 0]. *)
Fixpoint capLoop (first : bool) (remaining : Z) (parts : list jsstring) : list jsstring :=
  match parts with
  | [] => []
  | part :: rest =>
      let separatorLength := if first then 0 else 1 in
      let available := remaining - separatorLength in
      if available <? 0 then []
      else
        let clipped := slice0 available part in
        let remaining' := remaining - (separatorLength + Z.of_nat (length clipped)) in
        if (length clipped <? length part)%nat then [clipped]
        else clipped :: capLoop false remaining' rest
  end.

Definition capUserTextParts (parts : list jsstring) (maxChars : Z) : list jsstring :=
  if Z.of_nat (length (join parts)) <=? maxChars then parts else capLoop true maxChars parts.

(** ** Ports *)

Inductive ReserveResult :=
| RAllowed (usageDate : option string)
| RDenied (reason : option DenyReason) (limit : Z).

(** [None]: the call throws. *)
Class RateLimiterPort (S : Type) := {
  reserve : string → string → option Z → S → S * option ReserveResult;
  refund : string → string → string → S → S;
  markDelivered : string → S → S;
  markCompleted : string → S → S
}.

(** What the pipeline relies on, in an [ok] state and for a [good] learner id:
    [slot] reads the state of a key's reservation; only a reserved slot can be
    refunded or delivered. *)
Class RateLimiterLaws (S : Type) `{RateLimiterPort S} (ok : S → Prop) (good : string → Prop)
    (slot : string → S → option SlotStatus) := {
  reserve_ok ext k u s : ok s → good ext → ok (reserve ext k u s).1;
  refund_ok ext d k s : ok s → ok (refund ext d k s);
  delivered_ok k s : ok s → ok (markDelivered k s);
  completed_ok k s : ok s → ok (markCompleted k s);
  reserve_slot ext k u s d :
    ok s → good ext → (reserve ext k u s).2 = Some (RAllowed (Some d)) →
    slot k (reserve ext k u s).1 = Some Quota.reserved;
  refund_slot ext d k s :
    ok s → slot k (refund ext d k s)
           = match slot k s with Some Quota.reserved => Some Quota.refunded | st => st end;
  delivered_slot k s :
    ok s → slot k (markDelivered k s)
           = match slot k s with Some Quota.reserved => Some Quota.delivered | st => st end;
  completed_slot k s :
    ok s → slot k (markCompleted k s)
           = match slot k s with
             | Some Quota.reserved | Some Quota.delivered => Some Quota.completed | st => st end
}.

Record AgentReply := {
  replyText : jsstring;
  toolSummary : option string;
  skipHistory : bool;
  clarification : bool;
  skipDelivery : bool
}.

Record SendResult := {
  sr_delivered : bool;
  sr_partial : bool;
  sr_rateLimited : bool
}.

(** A quota call succeeds, throws without effect, or throws after its effect. *)
Inductive Fate := Done | FailBefore | FailAfter.

(** The environment of one flush: [None] and [true] stand for an exception. *)
Record Env := {
  e_stepThrows : string → bool;
  e_reserve : Fate;
  e_historyThrows : bool;
  e_reply : option AgentReply;
  e_beforeSendThrows : bool;
  e_send : option SendResult;
  e_refund : Fate;
  e_markDelivered : Fate;
  e_appendThrows : bool;
  e_markCompleted : Fate;
  e_afterSendThrows : bool;
  e_ambiguousThrows : bool
}.

Record ChatPipelineInput := {
  p_ext : string;
  p_user : option Z;
  p_texts : list jsstring;
  p_userTextParts : option (list jsstring);
  p_key : option string
}.

Inductive ChatPipelineResult :=
| Delivered
| Denied (reason : option DenyReason) (limit : Z)
| Duplicate
| FailedRateLimited
| FailedNotConfirmed.

Definition isTerminalFlush (r : ChatPipelineResult) : bool :=
  match r with FailedNotConfirmed => false | _ => true end.

(** The calls [flush] makes, in order. *)
Inductive Act :=
| AReserve
| AHistory
| AAgent (userText : jsstring) (parts : list jsstring)
| ASend (text : jsstring)
| ARefund
| AMarkDelivered
| AAppend (userText reply : jsstring) (toolSummary : option string)
| AMarkCompleted
| AErrorHook
| ARateLimitedHook
| ADenyHook
| AAfterSend.

(** ** The monad of [flush]: its local variables, the quota and the log, with
    exceptions *)

Record PState (S : Type) := mkP {
  quota : S;
  delivered : bool;
  partial : bool;
  usageDate : option string;
  refundAttempted : bool;
  errorHookCalled : bool;
  log : list Act
}.
Arguments mkP {_}.
Arguments quota {_}.
Arguments delivered {_}.
Arguments partial {_}.
Arguments usageDate {_}.
Arguments refundAttempted {_}.
Arguments errorHookCalled {_}.
Arguments log {_}.

Section Flush.
Context {S : Type} `{RateLimiterPort S} (mergedTextMaxChars : Z) (env : Env).
Context (input : ChatPipelineInput).

(** Exceptions are [None]; stdpp's monad notations are used for sequencing. *)
Definition M (A : Type) : Type := PState S → PState S * option A.

#[local] Instance M_ret : MRet M := λ A a s, (s, Some a).
#[local] Instance M_bind : MBind M :=
  λ A B f m s, match m s with (s', Some a) => f a s' | (s', None) => (s', None) end.

(** Reading a local variable. *)
Definition gets {A} (f : PState S → A) : M A := λ s, (s, Some (f s)).
Definition throwIf (b : bool) : M unit := λ s, (s, if b then None else Some tt).
Definition note (a : Act) : M unit :=
  λ s, (mkP (quota s) (delivered s) (partial s) (usageDate s) (refundAttempted s)
          (errorHookCalled s) (log s ++ [a]), Some tt).
Definition setDelivered (d p : bool) : M unit :=
  λ s, (mkP (quota s) d p (usageDate s) (refundAttempted s) (errorHookCalled s) (log s), Some tt).
Definition setUsageDate (d : option string) : M unit :=
  λ s, (mkP (quota s) (delivered s) (partial s) d (refundAttempted s) (errorHookCalled s) (log s),
        Some tt).
Definition setRefundAttempted : M unit :=
  λ s, (mkP (quota s) (delivered s) (partial s) (usageDate s) true (errorHookCalled s) (log s),
        Some tt).
Definition setErrorHookCalled : M unit :=
  λ s, (mkP (quota s) (delivered s) (partial s) (usageDate s) (refundAttempted s) true (log s),
        Some tt).

(** A quota call with its fate. *)
Definition quotaCall (f : Fate) (g : S → S) : M unit :=
  λ s, let s' := mkP (g (quota s)) (delivered s) (partial s) (usageDate s) (refundAttempted s)
                   (errorHookCalled s) (log s) in
       match f with Done => (s', Some tt) | FailBefore => (s, None) | FailAfter => (s', None) end.

Definition reserveCall (k : string) : M ReserveResult :=
  λ s, let '(q, r) := reserve (p_ext input) k (p_user input) (quota s) in
       let s' := mkP q (delivered s) (partial s) (usageDate s) (refundAttempted s)
                   (errorHookCalled s) (log s) in
       match e_reserve env with Done => (s', r) | FailBefore => (s, None) | FailAfter => (s', None) end.

(** [try { m } catch {}]. *)
Definition swallow (m : M unit) : M unit := λ s, ((m s).1, Some tt).

Definition step (name : string) : M unit := throwIf (e_stepThrows env name).

Definition mergedText : jsstring := slice0 mergedTextMaxChars (join (p_texts input)).
Definition userTextParts : list jsstring :=
  capUserTextParts (nullish (p_userTextParts input) (p_texts input))
    (Z.of_nat (length mergedText)).

(** An empty key is falsy. *)
Definition inputKey : option string :=
  match p_key input with Some k => if bool_decide (k = "") then None else Some k | None => None end.

(** The refund blocks: an exception is recorded and swallowed; an empty date
    is falsy. *)
Definition tryRefund : M unit :=
  date ← gets usageDate;
  match inputKey, date with
  | Some k, Some d =>
      if bool_decide (d = "") then mret tt
      else setRefundAttempted ;; note ARefund ;;
           swallow (quotaCall (e_refund env) (refund (p_ext input) d k))
  | _, _ => mret tt
  end.

Definition reserveStage : M (option ChatPipelineResult) :=
  step "before_reserve" ;;
  match inputKey with
  | None => mret None
  | Some k =>
      note AReserve ;;
      r ← reserveCall k;
      match r with
      | RDenied (Some RateLimit.IDEMPOTENCY_CONFLICT) _ => mret (Some Duplicate)
      | RDenied reason limit => note ADenyHook ;; mret (Some (Denied reason limit))
      | RAllowed d => setUsageDate d ;; mret None
      end
  end.

Definition sendStage (reply : AgentReply) : M bool :=
  if skipDelivery reply then setDelivered true false ;; mret false
  else if js_blank (replyText reply) then mret false
  else
    throwIf (e_beforeSendThrows env) ;;
    step "before_send" ;;
    note (ASend (replyText reply)) ;;
    match e_send env with
    | None => throwIf true ;; mret false
    | Some r => setDelivered (sr_delivered r) (sr_partial r) ;; mret (sr_rateLimited r)
    end.

(** From the delivery bookkeeping to the end of the [try] block. *)
Definition finishStage (reply : AgentReply) : M ChatPipelineResult :=
  match inputKey with
  | Some k => note AMarkDelivered ;; quotaCall (e_markDelivered env) (markDelivered k)
  | None => mret tt
  end ;;
  (if skipHistory reply then mret tt
   else note (AAppend mergedText (replyText reply) (toolSummary reply)) ;; throwIf (e_appendThrows env)) ;;
  match inputKey with
  | Some k => note AMarkCompleted ;; swallow (quotaCall (e_markCompleted env) (markCompleted k))
  | None => mret tt
  end ;;
  d ← gets delivered;
  (if (d : bool) then step "after_send" ;; note AAfterSend ;; throwIf (e_afterSendThrows env)
   else mret tt) ;;
  mret Delivered.

Definition settleStage (reply : AgentReply) (rateLimited : bool) : M ChatPipelineResult :=
  if rateLimited then tryRefund ;; note ARateLimitedHook ;; mret FailedRateLimited
  else
    d ← gets delivered;
    p ← gets partial;
    if negb d && negb p
    then tryRefund ;; setErrorHookCalled ;; note AErrorHook ;; mret FailedNotConfirmed
    else if clarification reply
    then attempted ← gets refundAttempted;
         (if (attempted : bool) then mret tt else tryRefund) ;;
         step "after_send" ;; mret Delivered
    else finishStage reply.

(** The [try] block. *)
Definition body : M ChatPipelineResult :=
  early ← reserveStage;
  match early with
  | Some r => mret r
  | None =>
      step "before_history" ;;
      note AHistory ;; throwIf (e_historyThrows env) ;;
      step "before_agent" ;;
      note (AAgent mergedText userTextParts) ;;
      match e_reply env with
      | None => throwIf true ;; mret Delivered
      | Some reply => rl ← sendStage reply; settleStage reply rl
      end
  end.

(** The [catch] block; it always rethrows, and is left early when
    [isAmbiguousDeliveryError] itself throws. *)
Definition catchBlock : M unit :=
  throwIf (e_ambiguousThrows env) ;;
  d ← gets delivered;
  attempted ← gets refundAttempted;
  (if negb d && negb attempted then tryRefund else mret tt) ;;
  hooked ← gets errorHookCalled;
  if negb d && negb hooked then setErrorHookCalled ;; note AErrorHook else mret tt.

Definition start (q : S) : PState S := mkP q false false None false false [].

(** [flush]: the final state, and the result or an exception. *)
Definition flush (q : S) : PState S * option ChatPipelineResult :=
  match body (start q) with
  | (s, Some r) => (s, Some r)
  | (s, None) => ((catchBlock s).1, None)
  end.
End Flush.

(** ** Lemmas on the merged text *)

(** The parts after the first, each behind its separator. *)
Definition rest_of (parts : list jsstring) : jsstring := parts ≫= (λ p, newline :: p).

Lemma join_cons p rest : join (p :: rest) = p ++ rest_of rest.
Proof.
  revert p. induction rest as [|q rest IH]; intros p; [by rewrite app_nil_r|].
  change (join (p :: q :: rest)) with (p ++ [newline] ++ join (q :: rest)). by rewrite IH.
Qed.

Lemma slice0_nonneg n s : 0 ≤ n → slice0 n s = take (Z.to_nat n) s.
Proof. intros. unfold slice0. by rewrite (proj2 (Z.leb_le _ _)). Qed.

Lemma take_self {A} n (s : list A) : take (length (take n s)) s = take n s.
Proof.
  rewrite length_take. destruct (decide (n ≤ length s)%nat).
  - by rewrite Nat.min_l.
  - by rewrite Nat.min_r, firstn_all, take_ge by lia.
Qed.

Lemma slice0_self n s : take (length (slice0 n s)) s = slice0 n s.
Proof. unfold slice0. destruct (0 <=? n); apply take_self. Qed.

(** The loop keeps exactly the characters that fit, separators counted. *)
Lemma capLoop_rest parts : ∀ n : nat,
  rest_of (capLoop false (Z.of_nat n) parts) = take n (rest_of parts).
Proof.
  induction parts as [|p rest IH]; intros n; simpl; [by rewrite take_nil|].
  destruct n as [|n]; [done|]. destruct (_ <? 0) eqn:E; bool_to_prop; [lia|].
  rewrite slice0_nonneg by lia. replace (Z.to_nat _) with n by lia.
  destruct (_ <? _)%nat eqn:E2.
  - apply Nat.ltb_lt in E2. rewrite length_take in E2. simpl. rewrite app_nil_r.
    f_equal. by rewrite take_app_le by lia.
  - apply Nat.ltb_ge in E2. rewrite length_take in E2. rewrite (take_ge p) by lia. simpl.
    replace (Z.of_nat (S n) - (1 + Z.of_nat (length p))) with (Z.of_nat (n - length p)) by lia.
    f_equal. fold (rest_of rest). rewrite <-(app_nil_r (p ++ _)).
    unfold rest_of at 1. simpl. fold (rest_of (capLoop false (Z.of_nat (n - length p)) rest)).
    rewrite IH, app_nil_r. by rewrite take_app, (take_ge p) by lia.
Qed.

Lemma capUserTextParts_join parts (m : nat) :
  join (capUserTextParts parts (Z.of_nat m)) = take m (join parts).
Proof.
  unfold capUserTextParts. destruct (_ <=? _) eqn:E; bool_to_prop; [by rewrite take_ge by lia|].
  destruct parts as [|p rest]; [by destruct m|]. simpl capLoop.
  rewrite Z.sub_0_r. destruct (_ <? 0) eqn:E1; bool_to_prop; [lia|].
  rewrite slice0_nonneg by lia. rewrite Nat2Z.id, join_cons.
  destruct (_ <? _)%nat eqn:E2.
  - apply Nat.ltb_lt in E2. rewrite length_take in E2. simpl. by rewrite take_app_le by lia.
  - apply Nat.ltb_ge in E2. rewrite length_take in E2. rewrite (take_ge p) by lia.
    replace (Z.of_nat m - _) with (Z.of_nat (m - length p)) by lia.
    rewrite join_cons, capLoop_rest. by rewrite take_app, (take_ge p) by lia.
Qed.

(** Every part but the last is kept verbatim and in place. *)
Lemma capLoop_verbatim parts : ∀ first n i p,
  capLoop first n parts !! i = Some p → (S i < length (capLoop first n parts))%nat →
  parts !! i = Some p.
Proof.
  induction parts as [|q rest IH]; intros first n i p; simpl; [done|].
  set (sep := if first then 0 else 1). destruct (_ <? 0); [done|].
  destruct (_ <? length q)%nat eqn:E; simpl; [lia|].
  assert (slice0 (n - sep) q = q) as ->.
  { rewrite <-slice0_self. apply take_ge. by apply Nat.ltb_ge. }
  destruct i as [|i]; simpl; [done|]. intros Hi Hl. eapply IH; [done|lia].
Qed.

(** The agent never sees two different questions: the separate parts it is
    given, joined, are exactly the merged text that is stored in the history
    (or, when the caller supplies raw parts, the raw text cut to the same
    length); every part but the last is verbatim, and the merged text respects
    a non-negative limit. *)
Theorem agent_sees_merged_text (maxc : Z) (input : ChatPipelineInput) :
  let parts := nullish (p_userTextParts input) (p_texts input) in
  let seen := userTextParts maxc input in
  join seen = take (length (mergedText maxc input)) (join parts)
  ∧ (p_userTextParts input = None → join seen = mergedText maxc input)
  ∧ (∀ i p, seen !! i = Some p → (S i < length seen)%nat → parts !! i = Some p)
  ∧ (0 ≤ maxc → Z.of_nat (length (mergedText maxc input)) ≤ maxc).
Proof.
  simpl. unfold userTextParts. rewrite capUserTextParts_join. split_and!; [done| | |].
  - intros ->. simpl. apply slice0_self.
  - intros i p. unfold capUserTextParts. destruct (_ <=? _); [done|]. apply capLoop_verbatim.
  - intros Hm. unfold mergedText. rewrite slice0_nonneg, length_take by done. lia.
Qed.

(** ** Lemmas on [flush] *)

(** The place of a call in the order the class comment documents. *)
Definition stage (a : Act) : nat :=
  match a with
  | AReserve => 0 | ADenyHook => 1 | AHistory => 2 | AAgent _ _ => 3 | ASend _ => 4
  | AMarkDelivered => 5 | AAppend _ _ _ => 6 | AMarkCompleted => 7 | AAfterSend => 8
  | ARefund => 9 | ARateLimitedHook => 10 | AErrorHook => 11
  end.

Ltac case_next :=
  match goal with
  | |- context [match ?x with _ => _ end] =>
      lazymatch x with
      | context [match _ with _ => _ end] => fail
      | context [negb ?b] => destruct b eqn:?
      | _ => match goal with E : x = _ |- _ => rewrite E | _ => destruct x eqn:? end
      end
  end; simpl; try discriminate.

Ltac open_flush :=
  unfold flush, body, reserveStage, sendStage, settleStage, finishStage, catchBlock, tryRefund,
    reserveCall, quotaCall, swallow, step, throwIf, note, setDelivered, setUsageDate,
    setRefundAttempted, setErrorHookCalled, gets, start, mbind, M_bind, mret, M_ret; simpl.

(** Closes one run: its quota calls are known, its hypotheses concrete. *)
Ltac close_run :=
  split_and!; intros; split_and?; intros; simplify_eq/=; try done; try congruence;
  try (rewrite ?not_elem_of_cons; split_and!; (done || apply not_elem_of_nil)).

Ltac close_order :=
  repeat first [apply Sorted_nil | apply Sorted_cons | apply HdRel_nil
               | apply HdRel_cons; simpl; lia].

(** Membership in a list of calls, or an impossible key. *)
Ltac solve_in :=
  try congruence; repeat (rewrite elem_of_cons; first [by left | right]).

Ltac close_trace :=
  split; [close_order|split; [|split]];
  [let Hin := fresh in intros ??? Hin; rewrite ?elem_of_cons, ?elem_of_nil in Hin; destruct_or?; simplify_eq/=;
   (split; [done|split; [done|intros []; solve_in]])
  |intros; destruct_or!; try discriminate; set_solver
  |done].

Section Order.
Context {S : Type} `{RateLimiterPort S}.
Context (maxc : Z) (env : Env) (input : ChatPipelineInput).

(** C26. The calls of a flush follow the documented order (reserve, history,
    agent, send, mark delivered, append, mark completed, then refund and error
    hooks), each at most once; the turn is remembered only after a delivery
    that was recorded; a denied or duplicate batch reaches neither the agent
    nor the learner; [delivered] is reported only for a confirmed or partial
    delivery. *)
Theorem flush_order (q : S) :
  let '(s, r) := flush maxc env input q in
  Sorted lt (stage <$> log s)
  ∧ (∀ t a tools, AAppend t a tools ∈ log s →
       t = mergedText maxc input ∧ delivered s || partial s = true
       ∧ (is_Some (inputKey input) → AMarkDelivered ∈ log s))
  ∧ (∀ x, r = Some Duplicate ∨ r = Some (Denied x.1 x.2) → log s ⊆ [AReserve; ADenyHook])
  ∧ (r = Some Delivered → delivered s || partial s = true).
Proof.
  open_flush. repeat case_next.
  all: close_trace.
Qed.
End Order.

Section Properties.
Context {S : Type} `{RateLimiterLaws S ok good slot}.
Context (maxc : Z) (env : Env) (input : ChatPipelineInput).

(** The reply answers the learner rather than asking back. *)
Definition answers : bool :=
  match e_reply env with Some reply => negb (clarification reply) | None => false end.

(** What each sequence of calls [flush] makes does to a reserved slot. *)
Lemma reserved_slot_cases ext d k q :
  ok q → slot k q = Some Quota.reserved →
  (ok (refund ext d k q) ∧ slot k (refund ext d k q) = Some Quota.refunded)
  ∧ (ok (markDelivered k q) ∧ slot k (markDelivered k q) = Some Quota.delivered)
  ∧ (ok (markCompleted k (markDelivered k q))
     ∧ slot k (markCompleted k (markDelivered k q)) = Some Quota.completed)
  ∧ (ok (refund ext d k (markDelivered k q))
     ∧ slot k (refund ext d k (markDelivered k q)) = Some Quota.delivered).
Proof.
  intros Hok Hs. assert (ok (markDelivered k q)) as Hd by by apply delivered_ok.
  assert (slot k (markDelivered k q) = Some Quota.delivered) as Hsd
    by by rewrite delivered_slot, Hs.
  split_and!; try done; try by (apply refund_ok || apply completed_ok).
  - by rewrite refund_slot, Hs.
  - by rewrite completed_slot, Hsd.
  - by rewrite refund_slot, Hsd.
Qed.

(** The state a successful reservation leaves. *)
Lemma reserved_state ext k u q q1 d :
  ok q → good ext → reserve ext k u q = (q1, Some (RAllowed (Some d))) →
  ok q1 ∧ slot k q1 = Some Quota.reserved.
Proof.
  intros Hok Hg Hr. pose proof (reserve_ok ext k u q Hok Hg) as Hok1.
  pose proof (reserve_slot ext k u q d Hok Hg) as Hs. rewrite Hr in Hok1, Hs. auto.
Qed.

(** C3. What becomes of the slot that a flush reserved, for every quota behind the
    port that keeps its laws (colon-free keys) and whatever the other ports and
    hooks throw. The reservation was answered and its hook did not throw. An
    answer that the learner was sent is never refunded, and one that is reported
    delivered has its slot completed, or left delivered for the recovery job when
    completion failed. Provided the refund call took effect: a reply that reached
    nobody, not even in part, is refunded unless the test for an ambiguous
    delivery itself threw; so are a clarification that is reported delivered, a
    rate-limited reply, and every batch that the caller is told to retry. A sent
    answer whose slot could not be marked delivered is not reported delivered, and
    its slot may stay reserved. *)
Theorem flush_settles_quota (q q1 : S) (k d : string)
    (Hok : ok q) (Hgood : good (p_ext input)) (Hkey : inputKey input = Some k)
    (Hres : reserve (p_ext input) k (p_user input) q = (q1, Some (RAllowed (Some d))))
    (Hdate : d ≠ "") (Hdone : e_reserve env = Done)
    (Hstep : e_stepThrows env "before_reserve" = false) :
  let '(s, r) := flush maxc env input q in
  ok (quota s)
  ∧ (delivered s = true → answers = true → r ≠ Some FailedRateLimited →
       slot k (quota s) ≠ Some Quota.refunded ∧ ARefund ∉ log s)
  ∧ (r = Some Delivered → answers = true → e_markDelivered env = Done ∧ 
       slot k (quota s)
       = Some match e_markCompleted env with FailBefore => Quota.delivered | _ => Quota.completed end)
  ∧ (e_refund env ≠ FailBefore →
       (delivered s = false → partial s = false → e_ambiguousThrows env = false →
          slot k (quota s) = Some Quota.refunded)
       ∧ (r = Some Delivered → answers = false → slot k (quota s) = Some Quota.refunded)
       ∧ (r = Some FailedRateLimited → slot k (quota s) = Some Quota.refunded)
       ∧ (∀ res, r = Some res → isTerminalFlush res = false →
            slot k (quota s) = Some Quota.refunded)).
Proof.
  destruct (reserved_state _ _ _ _ _ _ Hok Hgood Hres) as [Hok1 Hsl].
  destruct (reserved_slot_cases (p_ext input) d k q1 Hok1 Hsl)
    as ([? ?] & [? ?] & [? ?] & [? ?]).
  apply (bool_decide_eq_false_2 (d = "")) in Hdate.
  unfold answers. open_flush. repeat case_next.
  all: close_run.
Qed.

End Properties.

(** ** The adapter (chat-pipeline-adapters.ts) over the platform quota service *)

Section Adapter.
Context (platform : string) (settings : RateLimit.ChatRateLimitSettings) (stuckReservedMs : Z).
Context (today : Z → string) (now now' : Z).

(** [PlatformChatRateLimitService.reserve]: the engine over the PostgreSQL
    burst counter. *)
Definition serviceReserve (ext key : string) (user : option Z) (db : Quota.Db)
  : Quota.Db * Quota.Result RateLimit.ChatQuotaCheckResult :=
  let '(db', _, r) :=
    @RateLimit.reserveFreeFormSlot unit
      (RateLimit.PostgresBurstCounter platform
         (nullish (RateLimit.burstCountsRefunded settings) false))
      platform settings stuckReservedMs today now now' ext user key db tt in
  (db', r).

(** [rateLimiter.reserve]. *)
Definition adapterReserve (ext key : string) (user : option Z) (db : Quota.Db)
  : Quota.Db * option ReserveResult :=
  match serviceReserve ext key user db with
  | (db', Quota.Throw _) => (db', None)
  | (db', Quota.Ok r) =>
      (db', Some (if RateLimit.q_allowed r
                  then RAllowed (if RateLimit.q_quotaReserved r
                                 then Some (RateLimit.q_usageDate r) else None)
                  else RDenied (RateLimit.q_reason r) (RateLimit.q_limit r)))
  end.

#[local] Instance PlatformRateLimiter : RateLimiterPort Quota.Db := {|
  reserve := λ ext key user db, adapterReserve ext key user db;
  refund := λ _ _ key db, (RateLimit.refundFreeFormSlot platform key db).1;
  markDelivered := RateLimit.markDelivered platform;
  markCompleted := RateLimit.markCompleted platform
|}.

(** The status of the row that holds a key. *)
Definition slotStatus (key : string) (db : Quota.Db) : option SlotStatus :=
  Quota.i_status <$> head (tbl_select (Quota.has_key platform key) (Quota.idem db)).

Definition good_id (ext : string) : Prop := Quota.clean_ids ext (today now) = true.

Lemma slotStatus_row db row key :
  Quota.accounted db → row ∈ Quota.idem db → Quota.ikey row = (platform, key) →
  slotStatus key db = Some (Quota.i_status row).
Proof. intros Ha Hin Hk. unfold slotStatus. by rewrite (RateLimit.select_unique platform db row). Qed.

Lemma slotStatus_none db key :
  (∀ r, r ∈ Quota.idem db → Quota.ikey r ≠ (platform, key)) → slotStatus key db = None.
Proof.
  intros Hn. unfold slotStatus. pose proof (Quota.select_key platform key db) as Hs.
  destruct (head _) as [row|]; [|done]. destruct Hs as [Hin Hk]. by destruct (Hn row).
Qed.

Lemma slotStatus_cases key db :
  Quota.accounted db →
  (∃ row, row ∈ Quota.idem db ∧ Quota.ikey row = (platform, key)
          ∧ slotStatus key db = Some (Quota.i_status row))
  ∨ ((∀ r, r ∈ Quota.idem db → Quota.ikey r ≠ (platform, key)) ∧ slotStatus key db = None).
Proof.
  intros Ha. pose proof (Quota.select_key platform key db) as Hs. unfold slotStatus.
  destruct (head _) as [row|]; [left|by right]. exists row. naive_solver.
Qed.

(** A guarded status update of a key's row, read back. *)
Lemma slotStatus_update (sel : Quota.IdempotencyRow → bool) st key db :
  Quota.accounted db →
  Quota.accounted (Quota.with_idem (tbl_update sel (Quota.set_status st) (Quota.idem db)) db) →
  slotStatus key (Quota.with_idem (tbl_update sel (Quota.set_status st) (Quota.idem db)) db)
  = match head (tbl_select (Quota.has_key platform key) (Quota.idem db)) with
    | Some row => Some (if sel row then st else Quota.i_status row)
    | None => None
    end.
Proof.
  intros Ha Ha'. pose proof (Quota.select_key platform key db) as Hs.
  destruct (head _) as [row|].
  - destruct Hs as [Hin Hk].
    rewrite (slotStatus_row _ (if sel row then Quota.set_status st row else row)); [|done| |].
    + by destruct (sel row).
    + simpl. apply elem_of_tbl_update. by exists row.
    + by rewrite Quota.ikey_if.
  - apply slotStatus_none. simpl. intros r. rewrite elem_of_tbl_update.
    intros (r0 & Hin & ->). rewrite Quota.ikey_if. by apply Hs.
Qed.

Lemma refund_status k db :
  Quota.accounted db →
  slotStatus k (RateLimit.refundFreeFormSlot platform k db).1
  = match slotStatus k db with Some Quota.reserved => Some Quota.refunded | st => st end.
Proof.
  intros Ha. unfold RateLimit.refundFreeFormSlot.
  destruct (Quota.refund_cases platform k Quota.send_failed db Ha) as [[-> Hno]|Hx]; simpl.
  - destruct (slotStatus_cases k db Ha) as [(row & Hin & Hk & ->)|[_ ->]]; [|done].
    specialize (Hno row Hin Hk). by destruct (Quota.i_status row).
  - destruct Hx as (row & used & db' & Hin & Hk & Hst & Ha' & Hi & _ & ->). simpl.
    rewrite (slotStatus_row db row), Hst by done.
    rewrite (slotStatus_row db' (Quota.set_status Quota.refunded row)); [done|done| |done].
    rewrite Hi. apply elem_of_tbl_update. exists row.
    by rewrite (proj2 (Quota.has_key_iff _ _ _) Hk).
Qed.

(** The adapter never throws on a balanced database, and an admitted request
    holds a reserved slot dated today. *)
Lemma adapterReserve_spec ext k u db :
  Quota.accounted db → good_id ext →
  Quota.accounted (adapterReserve ext k u db).1
  ∧ match (adapterReserve ext k u db).2 with
    | Some (RAllowed d) =>
        d = Some (today now)
        ∧ slotStatus k (adapterReserve ext k u db).1 = Some Quota.reserved
    | Some (RDenied reason _) => is_Some reason
    | None => False
    end.
Proof.
  intros Ha Hg. unfold adapterReserve, serviceReserve, RateLimit.reserveFreeFormSlot. simpl.
  destruct (RateLimit.slot_attempt_ok platform stuckReservedMs today now
    (RateLimit.slotInput settings today now ext u k) db Ha Hg) as (o & Ho & Ha' & Hok).
  destruct (RateLimit.reserveSlotOrRecoverOnConflict _ _ _ _ _) as [[db1 r] h].
  simpl in Ho, Ha', Hok. subst r. destruct o; simpl; try by split.
  destruct Hok as [(row & Hin & Hk & Hst & _) _]. split; [done|]. split; [done|].
  by rewrite (slotStatus_row _ row), Hst.
Qed.

#[local] Instance platform_laws :
  RateLimiterLaws Quota.Db Quota.accounted good_id slotStatus.
Proof.
  split; simpl.
  - intros. by apply adapterReserve_spec.
  - intros _ _ k db Ha. unfold RateLimit.refundFreeFormSlot.
    pose proof (Quota.accounted_refund platform k Quota.send_failed db Ha).
    by destruct (Quota.refundReservedSlot _ _ _ _) as [[? ?] ?].
  - intros. by apply Quota.accounted_delivered.
  - intros. by apply Quota.accounted_completed.
  - intros ext k u db d Ha Hg Hr. pose proof (adapterReserve_spec ext k u db Ha Hg) as [_ Hs].
    rewrite Hr in Hs. apply Hs.
  - intros _ _ k db Ha. apply refund_status, Ha.
  - intros k db Ha. unfold RateLimit.markDelivered, Quota.markDeliveredSlot. simpl.
    rewrite slotStatus_update; [|done|by apply Quota.accounted_delivered].
    unfold slotStatus. pose proof (Quota.select_key platform k db) as Hs.
    destruct (head _) as [row|]; [|done]. simpl. destruct Hs as [_ Hk%Quota.has_key_iff].
    rewrite Hk. by destruct (Quota.i_status row).
  - intros k db Ha. unfold RateLimit.markCompleted, Quota.completeReservedSlot. simpl.
    rewrite slotStatus_update; [|done|by apply Quota.accounted_completed].
    unfold slotStatus. pose proof (Quota.select_key platform k db) as Hs.
    destruct (head _) as [row|]; [|done]. simpl. destruct Hs as [_ Hk%Quota.has_key_iff].
    rewrite Hk. by destruct (Quota.i_status row).
Qed.
End Adapter.

(** ** Witnesses *)

Definition demo_reply (clar : bool) : AgentReply :=
  {| replyText := [72; 105]; toolSummary := None; skipHistory := false; clarification := clar;
     skipDelivery := false |}.

(** An environment in which the outcomes of the send and of the completion are given. *)
Definition demo_env (clar sent : bool) (complete : Fate) : Env :=
  {| e_stepThrows := λ _, false; e_reserve := Done; e_historyThrows := false;
     e_reply := Some (demo_reply clar); e_beforeSendThrows := false;
     e_send := Some {| sr_delivered := sent; sr_partial := false; sr_rateLimited := false |};
     e_refund := Done; e_markDelivered := Done; e_appendThrows := false;
     e_markCompleted := complete; e_afterSendThrows := false; e_ambiguousThrows := false |}.

Definition demo_batch : ChatPipelineInput :=
  {| p_ext := "psid-1"; p_user := Some 7; p_texts := [[72]; [73]]; p_userTextParts := None;
     p_key := Some "k9" |}.

#[local] Instance demo_port : RateLimiterPort Quota.Db :=
  PlatformRateLimiter "zalo" (RateLimit.demo_settings 5 5) 50 RateLimit.demo_today 200 200.

#[local] Instance demo_laws :
  RateLimiterLaws Quota.Db Quota.accounted (good_id RateLimit.demo_today 200) (slotStatus "zalo") :=
  platform_laws "zalo" (RateLimit.demo_settings 5 5) 50 RateLimit.demo_today 200 200.

Abbreviation demo_flush env := (flush (mergedTextMaxCharsOf None) env demo_batch Quota.demo_db).

Definition demo_q1 : Quota.Db :=
  (reserve (p_ext demo_batch) "k9" (p_user demo_batch) Quota.demo_db).1.

Lemma demo_reserved :
  reserve (p_ext demo_batch) "k9" (p_user demo_batch) Quota.demo_db
  = (demo_q1, Some (RAllowed (Some "2026-01-31"))).
Proof. vm_compute. reflexivity. Qed.

Lemma demo_sent : (demo_flush (demo_env false true FailBefore)).2 = Some Delivered.
Proof. vm_compute. reflexivity. Qed.

Lemma demo_unsent :
  delivered (demo_flush (demo_env false false Done)).1 = false
  ∧ partial (demo_flush (demo_env false false Done)).1 = false.
Proof. vm_compute. by split. Qed.

(** On the real quota engine: an answer whose completion failed stays charged
    as delivered, an unconfirmed reply is refunded. *)
Lemma flush_settles_quota_witness :
  slotStatus "zalo" "k9" (quota (demo_flush (demo_env false true FailBefore)).1)
  = Some Quota.delivered
  ∧ slotStatus "zalo" "k9" (quota (demo_flush (demo_env false false Done)).1)
    = Some Quota.refunded.
Proof.
  assert ("2026-01-31" ≠ "") as Hdate by discriminate.
  assert (good_id RateLimit.demo_today 200 (p_ext demo_batch)) as Hg by reflexivity.
  pose proof demo_sent as Hs. pose proof demo_unsent as [Hd Hp].
  pose proof (flush_settles_quota (mergedTextMaxCharsOf None) (demo_env false true FailBefore) demo_batch Quota.demo_db
    demo_q1 "k9" "2026-01-31" Quota.demo_accounted Hg eq_refl demo_reserved
    Hdate eq_refl eq_refl) as H1.
  pose proof (flush_settles_quota (mergedTextMaxCharsOf None) (demo_env false false Done) demo_batch Quota.demo_db
    demo_q1 "k9" "2026-01-31" Quota.demo_accounted Hg eq_refl demo_reserved
    Hdate eq_refl eq_refl) as H2.
  destruct (demo_flush (demo_env false true FailBefore)) as [s1 r1].
  destruct (demo_flush (demo_env false false Done)) as [s2 r2].
  destruct H1 as (_ & _ & H1 & _), H2 as (_ & _ & _ & H2).
  split; [exact (proj2 (H1 Hs eq_refl))|].
  destruct H2 as [H2 _]; [discriminate|]. exact (H2 Hd Hp eq_refl).
Defined.

End Pipeline.
