(* ===== verification/RedisQueueState.v ===== *)
(** * The buffer documents of the shared chat queue

    packages/chat-agent, redis-chat-queue.store.ts keeps one JSON document per
    user.  This file has the document's state record, [parseState] with every
    validation it makes and the error of each, and [printState], the value
    [JSON.stringify] writes; the two are inverse on the states the store can
    hold.  A document is the value [JSON.parse] returns for it, [None] when it is
    not JSON. *)

From S2P Require Import Prelude.

Module RQState.

(** A parsed JSON value.  Numbers may be infinite (1e999 parses). *)
Inductive json :=
| JNull
| JBool (b : bool)
| JNum (x : jsnum)
| JStr (s : string)
| JArr (l : list json)
| JObj (m : gmap string json).

Abbreviation jobject := (gmap string json).
Abbreviation raw := (option json).

(** The interface [RedisChatQueueBufferState].  Fields that [parseState] does not
    check keep whatever JSON value was stored; [None] of an optional field is
    [undefined] (null for the timestamps and the context); [linkContext] tells
    undefined and null apart.  The spread of the parsed object keeps properties
    the code does not know, in [extra]. *)
Record BufferState := mkState {
  texts : list string;
  pendingTexts : list string;
  processingTexts : list string;
  userId : option json;
  context : option jobject;
  linkContext : option (option jobject);
  lastIdempotencyKey : json;
  lastPendingIdempotencyKey : json;
  idempotencyKeys : list string;
  processing : bool;
  processingStartedAt : option Q;
  processingLeaseToken : json;
  processingIdempotencyKey : json;
  retryCount : Z;
  abandoned : bool;
  flushAfterAt : option Q;
  droppedNoticePending : json;
  updatedAt : option Q;
  extra : jobject
}.

Definition knownKeys : list string :=
  ["texts"; "pendingTexts"; "processingTexts"; "userId"; "context"; "linkContext";
   "lastIdempotencyKey"; "lastPendingIdempotencyKey"; "idempotencyKeys"; "processing";
   "processingStartedAt"; "processingLeaseToken"; "processingIdempotencyKey"; "retryCount";
   "abandoned"; "flushAfterAt"; "droppedNoticePending"; "updatedAt"]%string.

(** [emptyState()], at the time [now]. *)
Definition emptyState (now : Z) : BufferState := {|
  texts := []; pendingTexts := []; processingTexts := [];
  userId := None; context := None; linkContext := None;
  lastIdempotencyKey := JNull; lastPendingIdempotencyKey := JNull; idempotencyKeys := [];
  processing := false; processingStartedAt := None; processingLeaseToken := JNull;
  processingIdempotencyKey := JNull; retryCount := 0; abandoned := false;
  flushAfterAt := None; droppedNoticePending := JNull; updatedAt := Some (inject_Z now);
  extra := ∅ |}.

(** ** Parsing *)

Inductive ParseError :=
| InvalidJson | InvalidState | InvalidArray | InvalidProcessingFlag
| ProcessingTextsWithoutProcessing | InvalidRetryCount | InvalidAbandonedFlag
| InvalidTimestamp | InvalidContext.

Definition as_string (v : json) : option string :=
  match v with JStr s => Some s | _ => None end.

(** [isStringArray]: the elements when every item is a string. *)
Definition as_strings (v : json) : option (list string) :=
  match v with JArr l => mapM as_string l | _ => None end.

(** [value !== undefined && !isStringArray(value)]. *)
Definition badArray (v : option json) : bool :=
  match v with None => false | Some v => negb (bool_decide (is_Some (as_strings v))) end.

(** [parsed.xs ?? fallback], for a value that passed the check. *)
Definition stringsOr (fallback : list string) (v : option json) : list string :=
  default fallback (v ≫= as_strings).

Definition badBool (v : option json) : bool :=
  match v with None | Some (JBool _) => false | Some _ => true end.

Definition isTrue (v : option json) : bool :=
  match v with Some (JBool true) => true | _ => false end.

Definition badRetryCount (v : option json) : bool :=
  match v with
  | None => false
  | Some (JNum x) => negb (js_is_finite x) || js_neg x
  | Some _ => true
  end.

Definition badAbandoned (v : option json) : bool :=
  match v with None | Some JNull | Some (JBool _) => false | Some _ => true end.

Definition badTimestamp (v : option json) : bool :=
  match v with
  | None | Some JNull => false
  | Some (JNum x) => negb (js_is_finite x)
  | Some _ => true
  end.

(** A timestamp after the check: null or a finite number. *)
Definition timestamp (v : option json) : option Q :=
  match v with Some (JNum (JFin q)) => Some q | _ => None end.

Definition badContext (v : option json) : bool :=
  match v with None | Some JNull | Some (JObj _) => false | Some _ => true end.

Definition contextOf (v : option json) : option jobject :=
  match v with Some (JObj m) => Some m | _ => None end.

(** [v ?? null] for a field that is not checked. *)
Definition unchecked (v : option json) : json := default JNull v.

(** [[lastIdempotencyKey, lastPendingIdempotencyKey].filter(isString)]. *)
Definition legacyIdempotencyKeys (p : jobject) : list string :=
  omap (λ v, v ≫= as_string) [p !! "lastIdempotencyKey"%string; p !! "lastPendingIdempotencyKey"%string].

Definition parseState (now : Z) (r : raw) : ParseError + BufferState :=
  match r with
  | None => inl InvalidJson
  | Some (JObj p) =>
      if existsb badArray [p !! "texts"; p !! "pendingTexts"; p !! "processingTexts";
                           p !! "idempotencyKeys"]%string then inl InvalidArray
      else if badBool (p !! "processing"%string) then inl InvalidProcessingFlag
      else if negb (isTrue (p !! "processing"%string))
              && negb (bool_decide (stringsOr [] (p !! "processingTexts"%string) = []))
      then inl ProcessingTextsWithoutProcessing
      else if badRetryCount (p !! "retryCount"%string) then inl InvalidRetryCount
      else if badAbandoned (p !! "abandoned"%string) then inl InvalidAbandonedFlag
      else if existsb badTimestamp [p !! "processingStartedAt"; p !! "flushAfterAt";
                                    p !! "updatedAt"]%string then inl InvalidTimestamp
      else if existsb badContext [p !! "context"; p !! "linkContext"]%string
      then inl InvalidContext
      else inr {|
        texts := stringsOr [] (p !! "texts"%string);
        pendingTexts := stringsOr [] (p !! "pendingTexts"%string);
        processingTexts := stringsOr [] (p !! "processingTexts"%string);
        userId := p !! "userId"%string;
        context := match contextOf (p !! "context"%string) with
                   | Some m => Some m
                   | None => contextOf (p !! "linkContext"%string)
                   end;
        linkContext := (λ v, contextOf (Some v)) <$> p !! "linkContext"%string;
        lastIdempotencyKey := unchecked (p !! "lastIdempotencyKey"%string);
        lastPendingIdempotencyKey := unchecked (p !! "lastPendingIdempotencyKey"%string);
        idempotencyKeys := stringsOr (legacyIdempotencyKeys p) (p !! "idempotencyKeys"%string);
        processing := isTrue (p !! "processing"%string);
        processingStartedAt := timestamp (p !! "processingStartedAt"%string);
        processingLeaseToken := unchecked (p !! "processingLeaseToken"%string);
        processingIdempotencyKey := unchecked (p !! "processingIdempotencyKey"%string);
        retryCount := match p !! "retryCount"%string with
                      | Some (JNum x) => default 0 (js_floor x)
                      | _ => 0
                      end;
        abandoned := isTrue (p !! "abandoned"%string);
        flushAfterAt := timestamp (p !! "flushAfterAt"%string);
        droppedNoticePending := unchecked (p !! "droppedNoticePending"%string);
        updatedAt := match p !! "updatedAt"%string with
                     | None => Some (inject_Z now)
                     | Some v => timestamp (Some v)
                     end;
        extra := filter (λ kv, kv.1 ∉ knownKeys) p |}
  | Some _ => inl InvalidState
  end.

(** ** Printing *)

Definition jstrings (l : list string) : json := JArr (JStr <$> l).
Definition jtime (t : option Q) : json := match t with Some q => JNum (JFin q) | None => JNull end.
Definition jcontext (m : option jobject) : json :=
  match m with Some m => JObj m | None => JNull end.

(** [JSON.stringify(state)]: properties that are undefined are left out. *)
Definition setOptional (k : string) (v : option json) (m : jobject) : jobject :=
  match v with Some v => <[k := v]> m | None => m end.

Definition stateObject (s : BufferState) : jobject :=
  <["texts" := jstrings (texts s)]>
  (<["pendingTexts" := jstrings (pendingTexts s)]>
  (<["processingTexts" := jstrings (processingTexts s)]>
  (<["context" := jcontext (context s)]>
  (<["lastIdempotencyKey" := lastIdempotencyKey s]>
  (<["lastPendingIdempotencyKey" := lastPendingIdempotencyKey s]>
  (<["idempotencyKeys" := jstrings (idempotencyKeys s)]>
  (<["processing" := JBool (processing s)]>
  (<["processingStartedAt" := jtime (processingStartedAt s)]>
  (<["processingLeaseToken" := processingLeaseToken s]>
  (<["processingIdempotencyKey" := processingIdempotencyKey s]>
  (<["retryCount" := JNum (js_of_Z (retryCount s))]>
  (<["abandoned" := JBool (abandoned s)]>
  (<["flushAfterAt" := jtime (flushAfterAt s)]>
  (<["droppedNoticePending" := droppedNoticePending s]>
  (<["updatedAt" := jtime (updatedAt s)]>
  (setOptional "userId" (userId s)
  (setOptional "linkContext" (jcontext <$> linkContext s) (extra s))))))))))))))))))%string.

Definition printState (s : BufferState) : raw := Some (JObj (stateObject s)).

(** What the code's own states satisfy: a batch in flight belongs to a
    processing buffer, the legacy context does not outlive the context, and
    [extra] holds no property of the interface. *)
Record wf (s : BufferState) : Prop := {
  wf_processing : processing s = false → processingTexts s = [];
  wf_retry : 0 ≤ retryCount s;
  wf_context : context s = None → ∀ m, linkContext s ≠ Some (Some m);
  wf_extra : ∀ k, k ∈ knownKeys → extra s !! k = None
}.

(** ** Round trip *)

Lemma mapM_jstrings l : mapM as_string (JStr <$> l) = Some l.
Proof. apply mapM_fmap_Some. by intros []. Qed.

Lemma as_strings_jstrings l : as_strings (jstrings l) = Some l.
Proof. apply mapM_jstrings. Qed.

Lemma badArray_jstrings l : badArray (Some (jstrings l)) = false.
Proof. unfold badArray. by rewrite as_strings_jstrings. Qed.

Lemma stringsOr_jstrings d l : stringsOr d (Some (jstrings l)) = l.
Proof. unfold stringsOr. cbn [mbind option_bind]. by rewrite as_strings_jstrings. Qed.

Lemma badTimestamp_jtime t : badTimestamp (Some (jtime t)) = false.
Proof. by destruct t. Qed.

Lemma timestamp_jtime t : timestamp (Some (jtime t)) = t.
Proof. by destruct t. Qed.

Lemma badContext_jcontext m : badContext (Some (jcontext m)) = false.
Proof. by destruct m. Qed.

Lemma contextOf_jcontext m : contextOf (Some (jcontext m)) = m.
Proof. by destruct m. Qed.

Lemma js_neg_of_Z z : js_neg (js_of_Z z) = bool_decide (z < 0).
Proof. done. Qed.

#[global] Hint Rewrite badArray_jstrings stringsOr_jstrings badTimestamp_jtime timestamp_jtime
  badContext_jcontext contextOf_jcontext js_floor_of_Z js_neg_of_Z : rqstate.

(** Reading one property of a printed state. *)
Lemma setOptional_eq k v m : m !! k = None → setOptional k v m !! k = v.
Proof. intros Hm. destruct v; simpl; by simplify_map_eq. Qed.

Lemma setOptional_ne k k' v m : k ≠ k' → setOptional k v m !! k' = m !! k'.
Proof. intros Hne. destruct v; simpl; by simplify_map_eq. Qed.

Ltac read_property :=
  repeat first
    [ rewrite lookup_insert_eq
    | rewrite lookup_insert_ne by done
    | rewrite setOptional_ne by done
    | rewrite setOptional_eq ].

(** Properties outside the interface come from [extra]. *)
Lemma stateObject_unknown s k : k ∉ knownKeys → stateObject s !! k = extra s !! k.
Proof.
  intros Hk. unfold stateObject, knownKeys in *.
  repeat (rewrite lookup_insert_ne by set_solver). by rewrite !setOptional_ne by set_solver.
Qed.

Lemma stateObject_extra s :
  (∀ k, k ∈ knownKeys → extra s !! k = None) →
  filter (λ kv, kv.1 ∉ knownKeys) (stateObject s) = extra s.
Proof.
  intros Hx. apply map_eq. intros k. destruct (decide (k ∈ knownKeys)) as [Hk|Hk].
  - rewrite Hx by done. apply map_lookup_filter_None_2. right. intros v _ Hn. by apply Hn.
  - rewrite <-(stateObject_unknown s) by done. rewrite map_lookup_filter.
    destruct (stateObject s !! k) as [v|]; [|done]. simpl. by rewrite option_guard_True.
Qed.

(** Every property of a printed state, read back. *)
Lemma stateObject_lookup s :
  (∀ k, k ∈ knownKeys → extra s !! k = None) →
  let m := stateObject s in
  (m !! "texts" = Some (jstrings (texts s))
  ∧ m !! "pendingTexts" = Some (jstrings (pendingTexts s))
  ∧ m !! "processingTexts" = Some (jstrings (processingTexts s))
  ∧ m !! "context" = Some (jcontext (context s))
  ∧ m !! "lastIdempotencyKey" = Some (lastIdempotencyKey s)
  ∧ m !! "lastPendingIdempotencyKey" = Some (lastPendingIdempotencyKey s)
  ∧ m !! "idempotencyKeys" = Some (jstrings (idempotencyKeys s))
  ∧ m !! "processing" = Some (JBool (processing s))
  ∧ m !! "processingStartedAt" = Some (jtime (processingStartedAt s))
  ∧ m !! "processingLeaseToken" = Some (processingLeaseToken s)
  ∧ m !! "processingIdempotencyKey" = Some (processingIdempotencyKey s)
  ∧ m !! "retryCount" = Some (JNum (js_of_Z (retryCount s)))
  ∧ m !! "abandoned" = Some (JBool (abandoned s))
  ∧ m !! "flushAfterAt" = Some (jtime (flushAfterAt s))
  ∧ m !! "droppedNoticePending" = Some (droppedNoticePending s)
  ∧ m !! "updatedAt" = Some (jtime (updatedAt s))
  ∧ m !! "userId" = userId s
  ∧ m !! "linkContext" = jcontext <$> linkContext s)%string.
Proof.
  intros Hx. unfold stateObject. cbv zeta.
  split_and!; read_property; try done; apply Hx; set_solver.
Qed.

(** The context read back: the legacy context stands in only for a missing one. *)
Lemma context_back s :
  wf s →
  match context s with Some m => Some m | None => contextOf (jcontext <$> linkContext s) end
  = context s.
Proof.
  intros [_ _ Hc _]. destruct (context s) as [m|]; [done|].
  destruct (linkContext s) as [[m|]|] eqn:El; [|done|done]. by destruct (Hc eq_refl m).
Qed.

Lemma linkContext_back (l : option (option jobject)) :
  (λ v, contextOf (Some v)) <$> (jcontext <$> l) = l.
Proof. by destruct l as [[]|]. Qed.

Lemma badContext_opt (l : option (option jobject)) : badContext (jcontext <$> l) = false.
Proof. by destruct l as [[]|]. Qed.

(** Parsing what was printed gives the state back, at whatever time. *)
Lemma parse_printState now s : wf s → parseState now (printState s) = inr s.
Proof.
  intros Hwf. pose proof Hwf as [Hp Hr Hc Hx]. unfold parseState, printState.
  rewrite stateObject_extra by done.
  destruct (stateObject_lookup s Hx) as (-> & -> & -> & -> & -> & -> & -> & -> & -> & -> & -> & ->
    & -> & -> & -> & -> & -> & ->).
  cbn [existsb badRetryCount badBool badAbandoned js_is_finite isTrue].
  autorewrite with rqstate.
  rewrite (bool_decide_false (retryCount s < 0)), badContext_opt, linkContext_back, context_back by (done || lia).
  assert ((if processing s then true else false) = processing s) as -> by by destruct (processing s).
  assert ((if abandoned s then true else false) = abandoned s) as -> by by destruct (abandoned s).
  destruct (processing s) eqn:Epr; [|rewrite Hp by done]; cbn;
    destruct s; simpl in *; subst; f_equal. f_equal. by rewrite Hp.
Qed.

(** ** What parsing guarantees *)

Lemma retryCount_nonneg v :
  badRetryCount v = false →
  0 ≤ match v with Some (JNum x) => default 0 (js_floor x) | _ => 0 end.
Proof.
  destruct v as [[| | [|neg|q] | | |]|]; simpl; try lia. intros H. bool_to_prop.
  unfold Qfloor. destruct q as [n d]; simpl in *. apply Z.div_pos; lia.
Qed.

(** Whatever document is accepted, the state is well-formed. *)
Lemma parse_wf now r s : parseState now r = inr s → wf s.
Proof.
  destruct r as [[| | | | |p]|]; try done. unfold parseState.
  repeat (case_match; [done|]). intros [= <-]. split; simpl.
  - intros Hp. rewrite Hp in *. simpl in *. bool_to_prop. done.
  - by apply retryCount_nonneg.
  - intros Hc m. destruct (p !! "linkContext"%string) as [v|]; [|done].
    destruct (contextOf (p !! "context"%string)); [done|]. destruct v; simpl in *; congruence.
  - intros k Hk. apply map_lookup_filter_None_2. right. simpl. tauto.
Qed.

Lemma emptyState_wf now : wf (emptyState now).
Proof. split; simpl; try done. Qed.

(** Documents survive a read and a write.  Whatever document [parseState]
    accepts, old formats and unknown properties included, the state it yields is
    well-formed, and what [JSON.stringify] then writes parses, at any later time, to
    the same state; in particular every property outside the interface is kept. *)
Theorem buffer_document_roundtrip now now' p s :
  parseState now (Some (JObj p)) = inr s →
  wf s ∧ parseState now' (printState s) = inr s
  ∧ ∀ k, k ∉ knownKeys → stateObject s !! k = p !! k.
Proof.
  intros H. pose proof (parse_wf _ _ _ H) as Hwf. split_and!; [done|by apply parse_printState|].
  intros k Hk. rewrite stateObject_unknown by done. unfold parseState in H.
  repeat (case_match; [done|]). simplify_eq. simpl. rewrite map_lookup_filter.
  destruct (p !! k) as [v|]; [|done]. simpl. by rewrite option_guard_True.
Qed.

(** A document of the format before leases, with the legacy context and a
    property of its own. *)
Definition legacyDocument : jobject :=
  {["texts" := JArr [JStr "hi"]; "lastIdempotencyKey" := JStr "k0";
    "linkContext" := JObj ∅; "shard" := JNum (js_of_Z 3)]}%string.

Lemma buffer_document_roundtrip_witness :
  ∃ s, parseState 5 (Some (JObj legacyDocument)) = inr s ∧ idempotencyKeys s = ["k0"%string]
       ∧ parseState 9 (printState s) = inr s.
Proof.
  eexists. split; [vm_compute; reflexivity|]. split; [reflexivity|].
  eapply (buffer_document_roundtrip 5 9 legacyDocument). vm_compute. reflexivity.
Defined.

End RQState.
