(* ===== verification/RedisQueue.v ===== *)
(** * The shared chat queue (packages/chat-agent, redis-chat-queue.store.ts)

    [Redis] is what the store keeps: one buffer document per user, the set of
    active users, the two sorted sets that say when a user is to be looked at, and
    the quarantined documents.  Each method runs under a per-user lock
    ([withExternalUserIdLock]); the lock makes the calls on one user follow each
    other (a call is assumed to end before its lock's lifetime does), so a call is
    one step.  [Env] has the replies of the server to one call: the client may be
    absent, the lock busy, a command may fail, and a failed transaction may or may
    not have been applied.  Recovery telemetry is left out.

    The abstract specification is [Queue]: a first-in first-out buffer with one
    batch in flight, fenced by a lease.  Every run of the store, with any
    faults, is a run of it. *)

From S2P Require Import Prelude RedisQueueState.
Import RQState.

Module RQ.

(** What the constructor reads from the configuration. *)
Record Config := mkConfig {
  maxPendingSize : Z;
  stuckMs : Z;
  maxFlushRetries : Z
}.

Definition MAX_IDEMPOTENCY_KEYS : Z := 40.

(** chat-queue-retry.config.ts, on the value [Number(raw)] of the environment. *)
Definition readPositiveNumber (parsed : jsnum) (fallback : Z) : Z :=
  if js_is_finite parsed && js_pos parsed then default fallback (js_floor parsed) else fallback.

Record ChatFlushRetrySettings := mkRetrySettings {
  enabled : bool;
  delayMs : Z;
  maxRetries : Z
}.

(** [flag] is the trimmed lower-case CHAT_FLUSH_RETRY_ENABLED. *)
Definition readChatFlushRetrySettings (flag : option string) (delay retries : jsnum)
  : ChatFlushRetrySettings :=
  mkRetrySettings (bool_decide (flag = Some "true"%string)) (readPositiveNumber delay 5000)
    (Z.min (readPositiveNumber retries 3) 100).

(** The retry budget is always between 0 and 100, the delay never negative. *)
Lemma retry_settings_bounds flag delay retries :
  let r := readChatFlushRetrySettings flag delay retries in
  0 ≤ maxRetries r ≤ 100 ∧ 0 ≤ delayMs r.
Proof.
  assert (∀ x d, 0 ≤ d → 0 ≤ readPositiveNumber x d) as H.
  { intros x d Hd. unfold readPositiveNumber. case_match eqn:E; [|done].
    bool_to_prop. destruct (js_floor x) as [z|] eqn:Ez; simpl; [|done]. by eapply js_floor_pos. }
  simpl. pose proof (H retries 3). pose proof (H delay 5000). lia.
Qed.

Record Redis := mkRedis {
  buffers : gmap string raw;
  active : gset string;
  flush : gmap string Q;
  stuck : gmap string Q;
  quarantined : list (string * raw)
}.

Definition emptyRedis : Redis := mkRedis ∅ ∅ ∅ ∅ [].

(** ** One call's replies *)

Inductive LockReply := LockOk | LockBusy | LockError.
(** [exec]: applied, aborted, or applied with the reply lost. *)
Inductive ExecReply := Applied | Aborted | ReplyLost.

Record Env := mkEnv {
  clientUp : bool;
  lockReply : LockReply;
  readOk : bool;
  execReply : ExecReply;
  commandsOk : option nat;  (** single commands that succeed before one fails *)
  releaseOk : bool
}.

Definition goodEnv : Env := mkEnv true LockOk true Applied None true.

(** The value of a call: resolved, null because it could not run, or thrown. *)
Inductive Reply (A : Type) := Resolve (a : A) | Null | Throw.
Arguments Resolve {A} a.
Arguments Null {A}.
Arguments Throw {A}.

(** [withExternalUserIdLock]; the body answers [None] when it throws. *)
Definition withExternalUserIdLock {A} (env : Env) (failOnError : bool)
    (fn : Redis → Redis * option A) (w : Redis) : Redis * Reply A :=
  let failed := if failOnError then Throw else Null in
  if negb (clientUp env) then (w, failed)
  else match lockReply env with
       | LockError => (w, Throw)
       | LockBusy => (w, failed)
       | LockOk =>
           let '(w', r) := fn w in
           (w', match r with
                | Some a => if releaseOk env then Resolve a else Throw
                | None => failed
                end)
       end.

(** [x ?? fallback] on the value of a call. *)
Definition orElse {A} (fallback : A) (r : Reply A) : Reply A :=
  match r with Null => Resolve fallback | r => r end.

(** Single commands in order, up to the first that fails. *)
Definition runCommands (env : Env) (cmds : list (Redis → Redis)) (w : Redis) : Redis * bool :=
  match commandsOk env with
  | None => (foldl (λ w c, c w) w cmds, true)
  | Some n => (foldl (λ w c, c w) w (take n cmds), bool_decide (length cmds ≤ n)%nat)
  end.

(** ** Commands *)

Definition delBuffer (u : string) (w : Redis) : Redis :=
  mkRedis (delete u (buffers w)) (active w) (flush w) (stuck w) (quarantined w).
Definition sremActive (u : string) (w : Redis) : Redis :=
  mkRedis (buffers w) (active w ∖ {[u]}) (flush w) (stuck w) (quarantined w).
Definition saddActive (u : string) (w : Redis) : Redis :=
  mkRedis (buffers w) ({[u]} ∪ active w) (flush w) (stuck w) (quarantined w).
Definition zremFlush (u : string) (w : Redis) : Redis :=
  mkRedis (buffers w) (active w) (delete u (flush w)) (stuck w) (quarantined w).
Definition zremStuck (u : string) (w : Redis) : Redis :=
  mkRedis (buffers w) (active w) (flush w) (delete u (stuck w)) (quarantined w).
Definition zaddFlush (u : string) (q : Q) (w : Redis) : Redis :=
  mkRedis (buffers w) (active w) (<[u := q]> (flush w)) (stuck w) (quarantined w).
Definition zaddStuck (u : string) (q : Q) (w : Redis) : Redis :=
  mkRedis (buffers w) (active w) (flush w) (<[u := q]> (stuck w)) (quarantined w).
Definition setBuffer (u : string) (r : raw) (w : Redis) : Redis :=
  mkRedis (<[u := r]> (buffers w)) (active w) (flush w) (stuck w) (quarantined w).

(** RENAME of the buffer to its quarantine key; an error without a buffer. *)
Definition renameToQuarantine (u : string) (w : Redis) : option Redis :=
  r ← buffers w !! u;
  Some (mkRedis (delete u (buffers w)) (active w) (flush w) (stuck w) (quarantined w ++ [(u, r)])).

(** ** Reading and writing a buffer *)

Definition nonEmpty {A} (l : list A) : bool := match l with [] => false | _ => true end.

Definition hasBufferedWork (s : BufferState) : bool :=
  nonEmpty (texts s) || nonEmpty (pendingTexts s) || nonEmpty (processingTexts s) || processing s.

Definition readState (now : Z) (u : string) (w : Redis) : ParseError + BufferState :=
  match buffers w !! u with
  | None => inr (emptyState now)
  | Some r => parseState now r
  end.

Section Store.
Context (cfg : Config).

(** The commands of the transaction [writeState] builds. *)
Definition writeCommands (now : Z) (u : string) (s : BufferState) : list (Redis → Redis) :=
  if negb (hasBufferedWork s)
  then [delBuffer u; sremActive u; zremFlush u; zremStuck u]
  else [setBuffer u (printState s); saddActive u] ++
       (if abandoned s then [zremFlush u; zremStuck u]
        else if processing s
        then [zremFlush u;
              zaddStuck u (default (inject_Z now) (processingStartedAt s) + inject_Z (stuckMs cfg))%Q]
        else [zaddFlush u (default (inject_Z now) (flushAfterAt s)); zremStuck u]).

Definition applyWrite (now : Z) (u : string) (s : BufferState) (w : Redis) : Redis :=
  foldl (λ w c, c w) w (writeCommands now u s).

(** [writeState] with [assertTransactionSucceeded]: the boolean is false when it
    throws. *)
Definition writeState (env : Env) (now : Z) (u : string) (s : BufferState) (w : Redis)
  : Redis * bool :=
  match execReply env with
  | Applied => (applyWrite now u s w, true)
  | Aborted => (w, false)
  | ReplyLost => (applyWrite now u s w, false)
  end.

(** A body that reads the state, decides, and perhaps writes. *)
Definition readThen {A} (env : Env) (now : Z) (u : string)
    (k : BufferState → Redis → Redis * option A) (w : Redis) : Redis * option A :=
  if readOk env then
    match readState now u w with
    | inr s => k s w
    | inl _ => (w, None)
    end
  else (w, None).

Definition writeAndReturn {A} (env : Env) (now : Z) (u : string) (s : BufferState) (a : A)
    (w : Redis) : Redis * option A :=
  let '(w', ok) := writeState env now u s w in (w', if ok then Some a else None).

(** ** appendChatBuffer *)

Record AppendChatBufferInput := mkAppend {
  i_externalUserId : string;
  i_userText : string;
  i_userId : option Z;
  i_context : option jobject;
  i_idempotencyKey : option string;
  i_debounceMs : Z
}.

Definition capMessages (messages : list string) : list string :=
  slice_neg (maxPendingSize cfg) messages.

(** [push] and the cap; the boolean says that something was dropped. *)
Definition pushCapped (l : list string) (t : string) : list string * bool :=
  let l' := l ++ [t] in
  if (0 <? maxPendingSize cfg) && (maxPendingSize cfg <? Z.of_nat (length l'))
  then (capMessages l', true) else (l', false).

(** The empty string is falsy. *)
Definition truthyKey (k : option string) : option string :=
  match k with Some ""%string => None | k => k end.

(** What the append makes of the state; [None] for a duplicate. *)
Definition appendTo (now : Z) (i : AppendChatBufferInput) (s : BufferState) : option BufferState :=
  let key := truthyKey (i_idempotencyKey i) in
  if match key with Some k => bool_decide (k ∈ idempotencyKeys s) | None => false end then None
  else
    let keyOr old := match key with Some k => JStr k | None => old end in
    let '(t, droppedT) := pushCapped (texts s) (i_userText i) in
    let '(p, droppedP) := pushCapped (pendingTexts s) (i_userText i) in
    Some {|
      texts := if processing s then texts s else t;
      pendingTexts := if processing s then p else pendingTexts s;
      processingTexts := processingTexts s;
      userId := match i_userId i with Some n => Some (JNum (js_of_Z n)) | None => userId s end;
      context := match i_context i with Some c => Some c | None => context s end;
      linkContext := linkContext s;
      lastIdempotencyKey := if processing s then lastIdempotencyKey s else keyOr (lastIdempotencyKey s);
      lastPendingIdempotencyKey :=
        if processing s then keyOr (lastPendingIdempotencyKey s) else lastPendingIdempotencyKey s;
      idempotencyKeys := match key with
                         | Some k => slice_neg MAX_IDEMPOTENCY_KEYS (idempotencyKeys s ++ [k])
                         | None => idempotencyKeys s
                         end;
      processing := processing s;
      processingStartedAt := processingStartedAt s;
      processingLeaseToken := processingLeaseToken s;
      processingIdempotencyKey := processingIdempotencyKey s;
      retryCount := if abandoned s then 0 else retryCount s;
      abandoned := false;
      flushAfterAt := if processing s then flushAfterAt s else Some (inject_Z (now + i_debounceMs i));
      droppedNoticePending :=
        if (if processing s then droppedP else droppedT) then JBool true else droppedNoticePending s;
      updatedAt := Some (inject_Z now);
      extra := extra s |}.

Definition appendChatBuffer (env : Env) (now : Z) (i : AppendChatBufferInput) (w : Redis)
  : Redis * Reply unit :=
  let u := i_externalUserId i in
  withExternalUserIdLock env true
    (readThen env now u (λ s w,
       match appendTo now i s with
       | None => let '(w', ok) := runCommands env [saddActive u] w in
                 (w', if ok then Some tt else None)
       | Some s' => writeAndReturn env now u s' tt w
       end)) w.

(** ** claimReadyBuffer *)

Record ChatQueueBufferSnapshot := mkSnapshot {
  sn_externalUserId : string;
  sn_texts : list string;
  sn_leaseToken : string;
  sn_lastIdempotencyKey : option json;
  sn_retryCount : Z;
  sn_userId : option json;
  sn_context : option jobject;
  sn_droppedNoticePending : bool
}.

(** [a ?? b] on JSON values. *)
Definition orJson (a b : json) : json := match a with JNull => b | _ => a end.
Definition notNull (a : json) : option json := match a with JNull => None | _ => Some a end.

Definition isStuck (now processingStuckMs : Z) (s : BufferState) : bool :=
  let startedAt := default 0%Q (processingStartedAt s) in
  negb (Qle_bool startedAt 0)
  && Qle_bool (inject_Z processingStuckMs) (inject_Z now - startedAt).

Definition replayKey (s : BufferState) : json :=
  orJson (lastPendingIdempotencyKey s) (orJson (processingIdempotencyKey s) (lastIdempotencyKey s)).

(** The stuck batch taken back: the claimed texts first, then the ones that came
    in since. *)
Definition takeBack (s : BufferState) : list string := processingTexts s ++ pendingTexts s.

(** The state after a replay: [flushAt] and [dead] are what the two branches set. *)
Definition replayed (s : BufferState) (flushAt : option Q) (dead : bool) : BufferState := {|
  texts := takeBack s; pendingTexts := []; processingTexts := [];
  userId := userId s; context := context s; linkContext := linkContext s;
  lastIdempotencyKey := replayKey s; lastPendingIdempotencyKey := JNull;
  idempotencyKeys := idempotencyKeys s;
  processing := false; processingStartedAt := None; processingLeaseToken := JNull;
  processingIdempotencyKey := JNull;
  retryCount := retryCount s + 1; abandoned := dead; flushAfterAt := flushAt;
  droppedNoticePending := droppedNoticePending s; updatedAt := updatedAt s; extra := extra s |}.

(** A stuck buffer with nothing to replay is only reset. *)
Definition unwedged (s : BufferState) : BufferState := {|
  texts := texts s; pendingTexts := []; processingTexts := [];
  userId := userId s; context := context s; linkContext := linkContext s;
  lastIdempotencyKey := lastIdempotencyKey s;
  lastPendingIdempotencyKey := lastPendingIdempotencyKey s;
  idempotencyKeys := idempotencyKeys s;
  processing := false; processingStartedAt := None; processingLeaseToken := JNull;
  processingIdempotencyKey := JNull;
  retryCount := retryCount s; abandoned := abandoned s; flushAfterAt := flushAfterAt s;
  droppedNoticePending := droppedNoticePending s; updatedAt := updatedAt s; extra := extra s |}.

(** The batch in flight under the new lease. *)
Definition inFlight (now : Z) (leaseToken : string) (s : BufferState) : BufferState := {|
  texts := []; pendingTexts := pendingTexts s; processingTexts := texts s;
  userId := userId s; context := context s; linkContext := linkContext s;
  lastIdempotencyKey := JNull; lastPendingIdempotencyKey := lastPendingIdempotencyKey s;
  idempotencyKeys := idempotencyKeys s;
  processing := true; processingStartedAt := Some (inject_Z now);
  processingLeaseToken := JStr leaseToken; processingIdempotencyKey := lastIdempotencyKey s;
  retryCount := retryCount s; abandoned := abandoned s; flushAfterAt := flushAfterAt s;
  droppedNoticePending := droppedNoticePending s; updatedAt := Some (inject_Z now);
  extra := extra s |}.

Definition snapshotOf (u leaseToken : string) (s : BufferState) : ChatQueueBufferSnapshot := {|
  sn_externalUserId := u; sn_texts := texts s; sn_leaseToken := leaseToken;
  sn_lastIdempotencyKey := notNull (lastIdempotencyKey s); sn_retryCount := retryCount s;
  sn_userId := userId s; sn_context := context s;
  sn_droppedNoticePending := match droppedNoticePending s with JBool true => true | _ => false end |}.

Inductive ClaimResult :=
| CNothing                       (** null, nothing written *)
| CPersist (s : BufferState)     (** written, null *)
| CGrant (s' : BufferState) (snapshot : ChatQueueBufferSnapshot).

Definition claimReady (now : Z) (u leaseToken : string) (s : BufferState) : ClaimResult :=
  if negb (nonEmpty (texts s)) then CNothing
  else if match flushAfterAt s with Some f => negb (Qle_bool f (inject_Z now)) | None => false end
  then CNothing
  else CGrant (inFlight now leaseToken s) (snapshotOf u leaseToken s).

Definition claimFrom (now processingStuckMs : Z) (u leaseToken : string) (s : BufferState)
  : ClaimResult :=
  if processing s then
    if negb (isStuck now processingStuckMs s) then CNothing
    else if nonEmpty (takeBack s) then
      if maxFlushRetries cfg <? retryCount s + 1 then CPersist (replayed s None true)
      else claimReady now u leaseToken (replayed s (Some (inject_Z now)) false)
    else CPersist (unwedged s)
  else claimReady now u leaseToken s.

Definition claimReadyBuffer (env : Env) (now : Z) (u : string) (processingStuckMs : Z)
    (leaseToken : string) (w : Redis) : Redis * Reply (option ChatQueueBufferSnapshot) :=
  let '(w', r) :=
    withExternalUserIdLock env false
      (readThen env now u (λ s w,
         match claimFrom now processingStuckMs u leaseToken s with
         | CNothing => (w, Some None)
         | CPersist s' => writeAndReturn env now u s' None w
         | CGrant s' sn => writeAndReturn env now u s' (Some sn) w
         end)) w in
  (w', orElse None r).

(** ** scheduleRetryFlush, completeChatBuffer, clearChatBuffer *)

Definition resetToReady (now : Z) (s : BufferState) (ts : list string) (flushAt : option Q)
    (key : json) (retries : Z) (dead : bool) (notice : json) : BufferState := {|
  texts := ts; pendingTexts := []; processingTexts := [];
  userId := userId s; context := context s; linkContext := linkContext s;
  lastIdempotencyKey := key; lastPendingIdempotencyKey := JNull;
  idempotencyKeys := idempotencyKeys s;
  processing := false; processingStartedAt := None; processingLeaseToken := JNull;
  processingIdempotencyKey := JNull;
  retryCount := retries; abandoned := dead; flushAfterAt := flushAt;
  droppedNoticePending := notice; updatedAt := Some (inject_Z now); extra := extra s |}.

(** [state.processing && state.processingLeaseToken === leaseToken]. *)
Definition holdsLease (leaseToken : string) (s : BufferState) : bool :=
  processing s && match processingLeaseToken s with
                  | JStr t => bool_decide (t = leaseToken)
                  | _ => false
                  end.

(** The state to write, [None] when the call is fenced or has nothing to retry,
    and the answer. *)
Definition retryFrom (now retryDelayMs : Z) (leaseToken : string) (s : BufferState)
  : option BufferState * bool :=
  if negb (holdsLease leaseToken s) then (None, false)
  else if negb (nonEmpty (takeBack s)) then (None, false)
  else if maxFlushRetries cfg <? retryCount s + 1
  then (Some (resetToReady now s (takeBack s) None (replayKey s) (retryCount s + 1) true
                (droppedNoticePending s)), false)
  else (Some (resetToReady now s (takeBack s) (Some (inject_Z (now + retryDelayMs))) (replayKey s)
                (retryCount s + 1) false (droppedNoticePending s)), true).

Definition completeFrom (now debounceMs : Z) (leaseToken : string) (s : BufferState)
  : option BufferState * bool :=
  if negb (holdsLease leaseToken s) then (None, false)
  else (Some (resetToReady now s (pendingTexts s)
                (if nonEmpty (pendingTexts s) then Some (inject_Z (now + debounceMs)) else None)
                (lastPendingIdempotencyKey s) 0 false JNull),
        nonEmpty (pendingTexts s)).

(** The two methods, from the decision [k]. *)
Definition settleLease (env : Env) (now : Z) (u : string)
    (k : BufferState → option BufferState * bool) (w : Redis) : Redis * Reply bool :=
  let '(w', r) :=
    withExternalUserIdLock env false
      (readThen env now u (λ s w,
         match k s with
         | (None, b) => (w, Some b)
         | (Some s', b) => writeAndReturn env now u s' b w
         end)) w in
  (w', orElse false r).

Definition scheduleRetryFlush (env : Env) (now : Z) (u : string) (retryDelayMs : Z)
    (leaseToken : string) : Redis → Redis * Reply bool :=
  settleLease env now u (retryFrom now retryDelayMs leaseToken).

Definition completeChatBuffer (env : Env) (now : Z) (u : string) (debounceMs : Z)
    (leaseToken : string) : Redis → Redis * Reply bool :=
  settleLease env now u (completeFrom now debounceMs leaseToken).

Definition clearChatBuffer (env : Env) (u : string) (w : Redis) : Redis * Reply bool :=
  let '(w', r) :=
    withExternalUserIdLock env false (λ w,
      let deleted := bool_decide (is_Some (buffers w !! u)) in
      let '(w', ok) := runCommands env [delBuffer u; sremActive u; zremFlush u; zremStuck u] w in
      (w', if ok then Some deleted else None)) w in
  (w', orElse false r).

(** ** Repair: quarantineState, removeStaleActiveMember, reconcile *)

(** The commands after RENAME; EXPIRE on the quarantine key leaves the modelled
    state alone. *)
Definition quarantineState (env : Env) (u : string) (w : Redis) : Redis * bool :=
  match renameToQuarantine u w with
  | None => (w, false)
  | Some w1 =>
      match commandsOk env with
      | Some O => (w, false)
      | Some (S n) =>
          runCommands (mkEnv (clientUp env) (lockReply env) (readOk env) (execReply env)
                         (Some n) (releaseOk env))
            [id; sremActive u; zremFlush u; zremStuck u] w1
      | None => runCommands env [id; sremActive u; zremFlush u; zremStuck u] w1
      end
  end.

(** The Lua script: only without a buffer. *)
Definition removeStaleActiveMember (u : string) (w : Redis) : Redis :=
  match buffers w !! u with
  | None => zremStuck u (zremFlush u (sremActive u w))
  | Some _ => w
  end.

Record UserOutcome := mkOutcome {
  mismatch : bool;
  repaired : bool;
  wasQuarantined : bool;
  unresolved : bool
}.

(** The indexes [reconcileUser] expects for a state. *)
Definition expectedFlush (s : BufferState) : bool :=
  negb (processing s) && negb (abandoned s) && nonEmpty (texts s).

Definition indexMismatch (u : string) (s : BufferState) (w : Redis) : bool :=
  negb (eqb (bool_decide (u ∈ active w)) (hasBufferedWork s))
  || negb (eqb (bool_decide (is_Some (flush w !! u))) (expectedFlush s))
  || negb (eqb (bool_decide (is_Some (stuck w !! u))) (processing s)).

Definition hasIndexes (u : string) (w : Redis) : bool :=
  bool_decide (u ∈ active w) || bool_decide (is_Some (flush w !! u))
  || bool_decide (is_Some (stuck w !! u)).

Definition reconcileUser (env : Env) (now : Z) (u : string) (w : Redis) : Redis * UserOutcome :=
  let '(w', r) :=
    withExternalUserIdLock env true (λ w,
      if negb (readOk env) then (w, None)
      else match buffers w !! u with
           | None =>
               if hasIndexes u w then
                 let '(w', ok) := runCommands env [sremActive u; zremFlush u; zremStuck u] w in
                 (w', if ok then Some (mkOutcome true true false false) else None)
               else (w, Some (mkOutcome false false false false))
           | Some r =>
               match parseState now r with
               | inl _ => let '(w', q) := quarantineState env u w in
                          (w', Some (mkOutcome true false q true))
               | inr s =>
                   if indexMismatch u s w
                   then writeAndReturn env now u s (mkOutcome true true false false) w
                   else (w, Some (mkOutcome false false false false))
               end
           end) w in
  (w', match r with Resolve o => o | _ => mkOutcome false false false true end).

(** The replies to the four reads of [reconcile]. *)
Record ScanReply := mkScan {
  scanDone : bool;              (** the SCAN cursor came back as 0 *)
  bufferIds : list string;      (** the keys found, without the prefix *)
  activeDone : bool;
  activeIds : list string;
  flushIds : list string;
  stuckIds : list string
}.

Inductive ReconcileStatus := clean | drift | partial | unavailable | locked.

Record ReconciliationResult := mkReconciliation {
  status : ReconcileStatus;
  scanned : Z;
  mismatches : Z;
  repairedCount : Z;
  quarantinedCount : Z;
  unresolvedCount : Z;
  truncated : bool;
  sampleIds : list string       (** before masking *)
}.

Definition emptyResult (st : ReconcileStatus) (unresolved : Z) : ReconciliationResult :=
  mkReconciliation st 0 0 0 0 unresolved false [].

Definition maxCandidates : nat := 100.

(** [new Set(xs)]: first occurrences, in order. *)
Fixpoint js_set (seen : list string) (l : list string) : list string :=
  match l with
  | [] => []
  | x :: l' => if bool_decide (x ∈ seen) then js_set seen l' else x :: js_set (x :: seen) l'
  end.

Definition candidates (sc : ScanReply) : list string :=
  js_set []
    (filter (λ x, x ≠ ""%string) (take (S maxCandidates) (bufferIds sc))
     ++ take (S maxCandidates) (activeIds sc)
     ++ take (S maxCandidates) (flushIds sc)
     ++ take (S maxCandidates) (stuckIds sc)).

Definition isTruncated (sc : ScanReply) : bool :=
  negb (scanDone sc) || negb (activeDone sc)
  || existsb (λ l, (maxCandidates <? length l)%nat)
       [bufferIds sc; activeIds sc; flushIds sc; stuckIds sc; candidates sc].

Definition tally (u : string) (o : UserOutcome) (r : ReconciliationResult) : ReconciliationResult :=
  {| status := status r;
     scanned := scanned r;
     mismatches := mismatches r + Z.b2z (mismatch o);
     repairedCount := repairedCount r + Z.b2z (repaired o);
     quarantinedCount := quarantinedCount r + Z.b2z (wasQuarantined o);
     unresolvedCount := unresolvedCount r + Z.b2z (unresolved o);
     truncated := truncated r;
     sampleIds := if (mismatch o || wasQuarantined o || unresolved o)
                     && (length (sampleIds r) <? 5)%nat
                  then sampleIds r ++ [u] else sampleIds r |}.

(** The loop over the candidates; the [n]-th call has the replies [envs n]. *)
Fixpoint reconcileLoop (envs : nat → Env) (now : Z) (us : list string)
    (acc : Redis * ReconciliationResult) : Redis * ReconciliationResult :=
  match us with
  | [] => acc
  | u :: us' =>
      let '(w', o) := reconcileUser (envs O) now u acc.1 in
      reconcileLoop (λ n, envs (S n)) now us' (w', tally u o acc.2)
  end.

(** [scan] is the reply of the four reads, [None] when one of them throws. *)
Definition reconcile (env : Env) (envs : nat → Env) (now : Z) (scan : option ScanReply) (w : Redis)
  : Redis * ReconciliationResult :=
  if negb (clientUp env) then (w, emptyResult unavailable 0)
  else match lockReply env with
       | LockError => (w, emptyResult unavailable 1)
       | LockBusy => (w, emptyResult locked 0)
       | LockOk =>
           match scan with
           | None => (w, emptyResult drift 1)
           | Some sc =>
               let '(w', r) := reconcileLoop envs now (take maxCandidates (candidates sc))
                                 (w, emptyResult clean 0) in
               (w', {| status := if 0 <? unresolvedCount r then drift
                                 else if isTruncated sc then partial else clean;
                       scanned := Z.min (Z.of_nat (length (candidates sc))) (Z.of_nat maxCandidates);
                       mismatches := mismatches r; repairedCount := repairedCount r;
                       quarantinedCount := quarantinedCount r;
                       unresolvedCount := unresolvedCount r;
                       truncated := isTruncated sc; sampleIds := sampleIds r |})
           end
       end.

(** ** Polling: maybeRehydrate, mergeCandidates, listReadyExternalUserIds *)

(** The loop body of [maybeRehydrate] for one member of the active set; a read
    that fails is caught together with a document that does not parse. *)
Definition rehydrateOne (env : Env) (now : Z) (u : string) (w : Redis) : Redis :=
  match (if readOk env then Some (readState now u w) else None) with
  | None | Some (inl _) => (quarantineState env u w).1
  | Some (inr s) =>
      if abandoned s then w
      else if processing s
      then zaddStuck u (default (inject_Z now) (processingStartedAt s) + inject_Z (stuckMs cfg))%Q w
      else match flushAfterAt s with
           | Some f => if nonEmpty (texts s) then zaddFlush u f w else removeStaleActiveMember u w
           | None => removeStaleActiveMember u w
           end
  end.

Fixpoint rehydrateLoop (envs : nat → Env) (now : Z) (us : list string) (w : Redis) : Redis :=
  match us with
  | [] => w
  | u :: us' => rehydrateLoop (λ n, envs (S n)) now us' (rehydrateOne (envs O) now u w)
  end.

(** [None] when taking the lock throws. *)
Definition maybeRehydrate (env : Env) (envs : nat → Env) (now : Z) (w : Redis) : option Redis :=
  if negb (bool_decide (flush w = ∅ ∧ stuck w = ∅)) then Some w
  else if bool_decide (active w = ∅) then Some w
  else match lockReply env with
       | LockOk => Some (rehydrateLoop envs now (elements (active w)) w)
       | LockBusy => Some w
       | LockError => None
       end.

Abbreviation entry := (string * Q)%type.

Definition scoreLe (a b : entry) : bool := Qle_bool a.2 b.2.
Definition memberLe (a b : entry) : bool :=
  if Qeq_bool a.2 b.2 then String.leb a.1 b.1 else Qle_bool a.2 b.2.

(** [ZRANGEBYSCORE set 0 now WITHSCORES LIMIT 0 limit]. *)
Definition zrangebyscore (z : gmap string Q) (now : Z) (limit : nat) : list entry :=
  take limit (sortBy memberLe
    (filter (λ e, Qle_bool 0 e.2 && Qle_bool e.2 (inject_Z now) = true) (map_to_list z))).

(** The first entry of each user, flush entries first. *)
Fixpoint dedupe (seen : list string) (l : list entry) : list entry :=
  match l with
  | [] => []
  | e :: l' => if bool_decide (e.1 ∈ seen) then dedupe seen l' else e :: dedupe (e.1 :: seen) l'
  end.

Definition mergeCandidates (flushEntries stuckEntries : list entry) (limit : nat) : list string :=
  (take limit (sortBy scoreLe (dedupe [] (flushEntries ++ stuckEntries)))).*1.

(** The loop over the candidates: dead members are dropped on the way. *)
Fixpoint pickReady (limit : nat) (us : list string) (ready : list string) (w : Redis)
  : Redis * list string :=
  match us with
  | [] => (w, ready)
  | u :: us' =>
      match buffers w !! u with
      | None => pickReady limit us' ready (removeStaleActiveMember u w)
      | Some _ =>
          let ready' := ready ++ [u] in
          if (limit <=? length ready')%nat then (w, ready') else pickReady limit us' ready' w
      end
  end.

Definition listReadyExternalUserIds (env : Env) (envs : nat → Env) (now : Z) (limit : nat)
    (w : Redis) : Redis * Reply (list string) :=
  if negb (clientUp env) then (w, Resolve [])
  else match maybeRehydrate env envs now w with
       | None => (w, Throw)
       | Some w1 =>
           if negb (readOk env) then (w1, Throw)
           else
             let us := mergeCandidates (zrangebyscore (flush w1) now limit)
                         (zrangebyscore (stuck w1) now limit) limit in
             let '(w', ready) := pickReady limit us [] w1 in
             (w', Resolve ready)
       end.

End Store.
End RQ.
