(* ===== verification/RedisQueueSpec.v ===== *)
(** * What the shared chat queue promises

    The abstract queue of one user, the proof that every run of the store of
    [RedisQueue] is a run of it, and what follows: conservation of the texts in
    order, fencing by leases, and that no buffered work is forgotten. *)

From S2P Require Import Prelude RedisQueueState RedisQueue.
Import RQState RQ.

Module RQSpec.

#[local] Opaque printState parseState.

(** ** The system: calls, repair steps and key expiry, in any order *)

Inductive Event :=
| EAppend (env : Env) (now : Z) (i : AppendChatBufferInput)
| EClaim (env : Env) (now : Z) (u : string) (processingStuckMs : Z) (leaseToken : string)
| ERetry (env : Env) (now : Z) (u : string) (retryDelayMs : Z) (leaseToken : string)
| EComplete (env : Env) (now : Z) (u : string) (debounceMs : Z) (leaseToken : string)
| EClear (env : Env) (u : string)
| EReconcile (env : Env) (now : Z) (u : string)
| EStale (u : string)                   (** the script of a poll *)
| EReindexFlush (u : string) (q : Q)    (** the ZADDs of a rehydration, *)
| EReindexStuck (u : string) (q : Q)    (** perhaps from an outdated read *)
| EQuarantine (env : Env) (u : string)  (** its quarantine *)
| EExpire (u : string).                 (** the buffer key's lifetime ends *)

Definition userOf (e : Event) : string :=
  match e with
  | EAppend _ _ i => i_externalUserId i
  | EClaim _ _ u _ _ | ERetry _ _ u _ _ | EComplete _ _ u _ _ | EClear _ u | EReconcile _ _ u
  | EStale u | EReindexFlush u _ | EReindexStuck u _ | EQuarantine _ u | EExpire u => u
  end.

Inductive Answer :=
| AAppend (r : Reply unit)
| AClaim (r : Reply (option ChatQueueBufferSnapshot))
| ABool (r : Reply bool)
| ANone.

Section Spec.
Context (cfg : Config).

Definition step (e : Event) (w : Redis) : Redis * Answer :=
  match e with
  | EAppend env now i => prod_map id AAppend (appendChatBuffer cfg env now i w)
  | EClaim env now u sm tok => prod_map id AClaim (claimReadyBuffer cfg env now u sm tok w)
  | ERetry env now u d tok => prod_map id ABool (scheduleRetryFlush cfg env now u d tok w)
  | EComplete env now u d tok => prod_map id ABool (completeChatBuffer cfg env now u d tok w)
  | EClear env u => prod_map id ABool (clearChatBuffer env u w)
  | EReconcile env now u => ((reconcileUser cfg env now u w).1, ANone)
  | EStale u => (removeStaleActiveMember u w, ANone)
  | EReindexFlush u q => (zaddFlush u q w, ANone)
  | EReindexStuck u q => (zaddStuck u q w, ANone)
  | EQuarantine env u => ((quarantineState env u w).1, ANone)
  | EExpire u => (delBuffer u w, ANone)
  end.

(** Clocks are positive, delays and scores not negative. *)
Definition sane (e : Event) : Prop :=
  match e with
  | EAppend _ now i => 0 < now ∧ 0 ≤ i_debounceMs i
  | EClaim _ now _ _ _ => 0 < now
  | ERetry _ now _ d _ | EComplete _ now _ d _ => 0 < now ∧ 0 ≤ d
  | EReconcile _ now _ => 0 < now
  | EReindexFlush _ q | EReindexStuck _ q => (0 <= q)%Q
  | _ => True
  end.

Fixpoint run (es : list Event) (w : Redis) : Redis :=
  match es with [] => w | e :: es' => run es' (step e w).1 end.

(** Each call with the store it found and the answer it gave. *)
Fixpoint history (es : list Event) (w : Redis) : list (Redis * Event * Answer) :=
  match es with
  | [] => []
  | e :: es' => (w, e, (step e w).2) :: history es' (step e w).1
  end.

(** ** The abstract queue of one user *)

Record Queue := mkQueue {
  waiting : list string;
  flying : option (string * list string);   (** the lease and its batch *)
  accepted : list string;
  delivered : list string;
  dropped : list string;
  discarded : list string
}.

Definition initQueue : Queue := mkQueue [] None [] [] [] [].

Inductive Label :=
| LAccept (t : string)
| LClaim (lease : string) (batch : list string)
| LTakeBack (lease : string)
| LDeliver (lease : string)
| LDiscard.

Definition flight (q : Queue) : list string := match flying q with Some (_, b) => b | None => [] end.

(** The oldest texts that a push beyond the cap drops. *)
Definition overflow (l : list string) (t : string) : list string :=
  take (length (l ++ [t]) - length (pushCapped cfg l t).1) (l ++ [t]).

Inductive qstep : Label → Queue → Queue → Prop :=
| q_accept t q :
    qstep (LAccept t) q
      (mkQueue (pushCapped cfg (waiting q) t).1 (flying q) (accepted q ++ [t]) (delivered q)
         (dropped q ++ overflow (waiting q) t) (discarded q))
| q_claim lease q :
    flying q = None → waiting q ≠ [] →
    qstep (LClaim lease (waiting q)) q
      (mkQueue [] (Some (lease, waiting q)) (accepted q) (delivered q) (dropped q) (discarded q))
| q_takeback lease b q :
    flying q = Some (lease, b) →
    qstep (LTakeBack lease) q
      (mkQueue (b ++ waiting q) None (accepted q) (delivered q) (dropped q) (discarded q))
| q_deliver lease b q :
    flying q = Some (lease, b) →
    qstep (LDeliver lease) q
      (mkQueue (waiting q) None (accepted q) (delivered q ++ b) (dropped q) (discarded q))
| q_discard q :
    qstep LDiscard q
      (mkQueue [] None (accepted q) (delivered q) (dropped q)
         (discarded q ++ flight q ++ waiting q)).

Inductive qsteps : list Label → Queue → Queue → Prop :=
| qs_nil q : qsteps [] q q
| qs_cons l ls q q1 q2 : qstep l q q1 → qsteps ls q1 q2 → qsteps (l :: ls) q q2.

Lemma qsteps_app ls1 ls2 q q1 q2 : qsteps ls1 q q1 → qsteps ls2 q1 q2 → qsteps (ls1 ++ ls2) q q2.
Proof. induction 1; simpl; [done|]. intros. econstructor; eauto. Qed.

Lemma qsteps_one l q q1 : qstep l q q1 → qsteps [l] q q1.
Proof. intros. econstructor; [done|constructor]. Qed.

(** *** Its invariant: nothing is lost or duplicated, and order is kept *)

Lemma pushCapped_split l t : l ++ [t] = overflow l t ++ (pushCapped cfg l t).1.
Proof.
  unfold overflow, pushCapped, capMessages. case_match eqn:E; simpl.
  - bool_to_prop. rewrite slice_neg_pos by done. destruct (keep_last_suffix (Z.to_nat (maxPendingSize cfg)) (l ++ [t])) as (d & Hd & Hl).
    rewrite keep_last_length. unfold keep_last.
    replace (length (l ++ [t]) - Nat.min (Z.to_nat (maxPendingSize cfg)) (length (l ++ [t])))%nat
      with (length (l ++ [t]) - Z.to_nat (maxPendingSize cfg))%nat by lia.
    by rewrite take_drop.
  - by rewrite Nat.sub_diag.
Qed.

Lemma pushCapped_sublist l t : (pushCapped cfg l t).1 `sublist_of` l ++ [t].
Proof. rewrite (pushCapped_split l t). by apply sublist_inserts_l. Qed.

Record conserves (q : Queue) : Prop := {
  cons_perm : accepted q ≡ₚ delivered q ++ dropped q ++ discarded q ++ flight q ++ waiting q;
  cons_order : delivered q ++ flight q ++ waiting q `sublist_of` accepted q;
  cons_drop : maxPendingSize cfg ≤ 0 → dropped q = []
}.

Lemma conserves_init : conserves initQueue.
Proof. split; done. Qed.

Lemma overflow_uncapped l t : maxPendingSize cfg ≤ 0 → overflow l t = [].
Proof.
  intros Hm. unfold overflow, pushCapped. rewrite (proj2 (Z.ltb_ge 0 _)) by lia. simpl.
  by rewrite Nat.sub_diag.
Qed.

(** Permutations of concatenations, by counting. *)
Lemma perm_count (l1 l2 : list string) :
  (∀ x, count_occ String.string_dec l1 x = count_occ String.string_dec l2 x) ↔ l1 ≡ₚ l2.
Proof. by rewrite (Permutation_count_occ String.string_dec). Qed.

Ltac by_count :=
  apply perm_count; intros x;
  repeat match goal with
         | H : Permutation _ _ |- _ => apply (λ H, proj2 (perm_count _ _) H x) in H
         end;
  rewrite ?count_occ_app in *; simpl in *; lia.

Lemma conserves_step l q q' : qstep l q q' → conserves q → conserves q'.
Proof.
  intros Hs [Hp Ho Hd]. unfold flight in *.
  destruct Hs as [t q|lease q Hf Hw|lease b q Hf|lease b q Hf|q]; split; unfold flight; simpl in *;
    try (rewrite Hf in *; simpl in *); try done.
  - assert (waiting q ++ [t] ≡ₚ overflow (waiting q) t ++ (pushCapped cfg (waiting q) t).1) as Hpc
      by by rewrite <-pushCapped_split.
    by_count.
  - etrans; [|apply sublist_app; [exact Ho|reflexivity]]. rewrite <-!(assoc_L (++)).
    do 2 (apply sublist_app; [done|]). apply pushCapped_sublist.
  - intros Hm. by rewrite Hd, overflow_uncapped.
  - by rewrite app_nil_r.
  - by rewrite app_nil_r.
  - by_count.
  - by rewrite <-(assoc_L (++)).
  - by_count.
  - rewrite app_nil_r. etrans; [|exact Ho]. by apply sublist_inserts_r.
Qed.

Lemma conserves_steps ls q q' : qsteps ls q q' → conserves q → conserves q'.
Proof. induction 1; eauto using conserves_step. Qed.

(** ** The store's invariant *)

(** The states the store writes: texts wait in one place, a batch in flight has
    its lease and its start. *)
Record shaped (s : BufferState) : Prop := {
  sh_wf : wf s;
  sh_idle : processing s = false → pendingTexts s = [];
  sh_busy : processing s = true →
            texts s = [] ∧ processingTexts s ≠ []
            ∧ (∃ t, processingStartedAt s = Some t ∧ (0 < t)%Q)
            ∧ ∃ lease, processingLeaseToken s = JStr lease;
  sh_time : ∀ f, flushAfterAt s = Some f → (0 <= f)%Q
}.

(** A user with work that is not abandoned has a place in the sorted sets. *)
Definition scheduled (u : string) (s : BufferState) (w : Redis) : Prop :=
  u ∈ active w ∧ if processing s then is_Some (stuck w !! u) else is_Some (flush w !! u).

Record scores_ok (u : string) (w : Redis) : Prop := {
  so_flush : ∀ q, flush w !! u = Some q → (0 <= q)%Q;
  so_stuck : ∀ q, stuck w !! u = Some q → (0 <= q)%Q
}.

Definition doc_ok (u : string) (w : Redis) : Prop :=
  ∀ r, buffers w !! u = Some r →
  ∃ s, r = printState s ∧ shaped s ∧ hasBufferedWork s = true ∧ (abandoned s = false → scheduled u s w).

Definition Inv (w : Redis) : Prop := ∀ u, doc_ok u w ∧ scores_ok u w.

(** A call on one user leaves the others alone. *)
Record frame (u : string) (w w' : Redis) : Prop := {
  fr_buffers v : v ≠ u → buffers w' !! v = buffers w !! v;
  fr_active v : v ≠ u → v ∈ active w' ↔ v ∈ active w;
  fr_flush v : v ≠ u → flush w' !! v = flush w !! v;
  fr_stuck v : v ≠ u → stuck w' !! v = stuck w !! v
}.

#[local] Instance frame_refl u : Reflexive (frame u).
Proof. done. Qed.

#[local] Instance frame_trans u : Transitive (frame u).
Proof.
  intros w1 w2 w3 [B1 A1 F1 S1] [B2 A2 F2 S2]. split; intros v Hv.
  - by rewrite B2, B1.
  - by rewrite A2, A1.
  - by rewrite F2, F1.
  - by rewrite S2, S1.
Qed.

Lemma frame_inv u w w' : frame u w w' → doc_ok u w' → scores_ok u w' → Inv w → Inv w'.
Proof.
  intros [B A F S] Hd Hs Hi v. destruct (decide (v = u)) as [->|Hv]; [done|].
  destruct (Hi v) as [Hdv [Hf Hst]]. split; [|split; rewrite ?F, ?S by done; done].
  unfold doc_ok, scheduled in *. intros r. rewrite B by done. intros Hr.
  destruct (Hdv r Hr) as (s & -> & Hsh & Hw & Hsc). exists s. split_and!; try done.
  rewrite A, F, S by done. done.
Qed.

Definition local_cmd (u : string) (c : Redis → Redis) : Prop := ∀ w, frame u w (c w).

Lemma local_commands u :
  local_cmd u (delBuffer u) ∧ local_cmd u (sremActive u) ∧ local_cmd u (saddActive u)
  ∧ local_cmd u (zremFlush u) ∧ local_cmd u (zremStuck u)
  ∧ (∀ q, local_cmd u (zaddFlush u q)) ∧ (∀ q, local_cmd u (zaddStuck u q))
  ∧ (∀ r, local_cmd u (setBuffer u r)) ∧ local_cmd u id.
Proof.
  split_and!; repeat intro; split; intros v Hv; simpl;
    rewrite ?lookup_delete_ne, ?lookup_insert_ne by done; set_solver.
Qed.

Lemma frame_foldl u cmds w : Forall (local_cmd u) cmds → frame u w (foldl (λ w c, c w) w cmds).
Proof.
  intros H. revert w. induction H as [|c cmds Hc _ IH]; intros w; simpl; [done|].
  etrans; [apply Hc|apply IH].
Qed.

Lemma frame_runCommands env u cmds w :
  Forall (local_cmd u) cmds → frame u w (runCommands env cmds w).1.
Proof.
  intros H. unfold runCommands. destruct (commandsOk env) as [n|]; apply frame_foldl; [|done].
  by apply Forall_take.
Qed.

Lemma writeCommands_local now u s : Forall (local_cmd u) (writeCommands cfg now u s).
Proof.
  pose proof (local_commands u) as (H1 & H2 & H3 & H4 & H5 & H6 & H7 & H8 & _).
  unfold writeCommands. repeat case_match; simpl; eauto 10 using Forall_cons, Forall_nil.
Qed.

(** What the user sees of a buffer. *)
Definition viewOf (s : BufferState) : list string * option (string * list string) :=
  if processing s
  then (pendingTexts s,
        match processingLeaseToken s with JStr l => Some (l, processingTexts s) | _ => None end)
  else (texts s, None).

Definition buffered (u : string) (w : Redis) : list string * option (string * list string) :=
  match buffers w !! u with
  | None => ([], None)
  | Some r => match parseState 0 r with inr s => viewOf s | inl _ => ([], None) end
  end.

Lemma frame_buffered u v w w' : frame u w w' → v ≠ u → buffered v w' = buffered v w.
Proof. intros [B _ _ _] Hv. unfold buffered. by rewrite B. Qed.

Lemma nonEmpty_false {A} (l : list A) : nonEmpty l = false ↔ l = [].
Proof. by destruct l. Qed.

Lemma nonEmpty_true {A} (l : list A) : nonEmpty l = true ↔ l ≠ [].
Proof. by destruct l. Qed.

(** Reading a buffer of a sound store. *)
Lemma readState_ok now u w :
  Inv w → 0 < now →
  ∃ s, readState now u w = inr s ∧ shaped s ∧ viewOf s = buffered u w.
Proof.
  intros Hi Hnow. unfold readState, buffered. destruct (buffers w !! u) as [r|] eqn:E.
  - destruct (Hi u) as [Hd _]. destruct (Hd r E) as (s & -> & Hs & _).
    exists s. rewrite !parse_printState by apply Hs. done.
  - exists (emptyState now). split_and!; [done| |done]. by split.
Qed.

Lemma inject_nonneg z : 0 ≤ z → (0 <= inject_Z z)%Q.
Proof. intros. change 0%Q with (inject_Z 0). by rewrite <-Zle_Qle. Qed.

Lemma inject_pos z : 0 < z → (0 < inject_Z z)%Q.
Proof. intros. change 0%Q with (inject_Z 0). by rewrite <-Zlt_Qlt. Qed.

Lemma Qplus_nonneg a b : (0 <= a → 0 <= b → 0 <= a + b)%Q.
Proof. intros Ha Hb. rewrite <-(Qplus_0_l 0). by apply Qplus_le_compat. Qed.

Lemma applyWrite_idle now u s w :
  hasBufferedWork s = false →
  applyWrite cfg now u s w
  = mkRedis (delete u (buffers w)) (active w ∖ {[u]}) (delete u (flush w)) (delete u (stuck w))
      (quarantined w).
Proof. intros H. unfold applyWrite, writeCommands. by rewrite H. Qed.

Lemma applyWrite_busy now u s w :
  hasBufferedWork s = true →
  applyWrite cfg now u s w
  = mkRedis (<[u := printState s]> (buffers w)) ({[u]} ∪ active w)
      (if abandoned s || processing s then delete u (flush w)
       else <[u := default (inject_Z now) (flushAfterAt s)]> (flush w))
      (if abandoned s then delete u (stuck w)
       else if processing s
       then <[u := (default (inject_Z now) (processingStartedAt s) + inject_Z (stuckMs cfg))%Q]> (stuck w)
       else delete u (stuck w))
      (quarantined w).
Proof.
  intros H. unfold applyWrite, writeCommands. rewrite H.
  by destruct (abandoned s), (processing s).
Qed.

Lemma no_work_view s : shaped s → hasBufferedWork s = false → viewOf s = ([], None).
Proof.
  intros Hs H. unfold hasBufferedWork in H. bool_to_prop. unfold viewOf.
  destruct (processing s); [done|]. by destruct (texts s).
Qed.

Hypothesis stuckMs_nonneg : 0 ≤ stuckMs cfg.

Lemma applyWrite_scores now u s w :
  0 < now → shaped s → scores_ok u (applyWrite cfg now u s w).
Proof.
  intros Hnow Hs. destruct (hasBufferedWork s) eqn:Hw;
    [rewrite applyWrite_busy by done|rewrite applyWrite_idle by done]; split; simpl; intros q.
  - destruct (abandoned s || processing s); simplify_map_eq; [done|]. intros [= <-].
    destruct (flushAfterAt s) as [f|] eqn:Ef; simpl; [by eapply sh_time|].
    apply inject_nonneg. lia.
  - destruct (abandoned s); [by simplify_map_eq|]. destruct (processing s) eqn:Ep; simplify_map_eq; [|done].
    destruct (sh_busy s Hs Ep) as (_ & _ & (t & -> & Ht) & _). intros [= <-]. simpl.
    apply Qplus_nonneg; [by apply Qlt_le_weak|by apply inject_nonneg].
  - by simplify_map_eq.
  - by simplify_map_eq.
Qed.

(** Writing a shaped state keeps the invariant and shows that state. *)
Lemma applyWrite_ok now u s w :
  0 < now → shaped s → Inv w →
  Inv (applyWrite cfg now u s w) ∧ frame u w (applyWrite cfg now u s w)
  ∧ buffered u (applyWrite cfg now u s w) = viewOf s.
Proof.
  intros Hnow Hs Hi.
  assert (frame u w (applyWrite cfg now u s w)) as Hf by apply frame_foldl, writeCommands_local.
  pose proof (applyWrite_scores now u s w Hnow Hs) as Hsc.
  split_and!; [|done|].
  - apply (frame_inv u w); try done. destruct (hasBufferedWork s) eqn:Hw; intros r;
      [rewrite applyWrite_busy by done|rewrite applyWrite_idle by done]; simpl;
      [rewrite lookup_insert_eq|by rewrite lookup_delete_eq].
    intros [= <-]. exists s. split_and!; try done. intros Ha. unfold scheduled. simpl.
    rewrite Ha. simpl. split; [set_solver|]. destruct (processing s); simplify_map_eq; eauto.
  - unfold buffered. destruct (hasBufferedWork s) eqn:Hw;
      [rewrite applyWrite_busy by done|rewrite applyWrite_idle by done]; simpl; simplify_map_eq.
    + by rewrite parse_printState by apply Hs.
    + by rewrite no_work_view.
Qed.

(** ** Transitions of one buffer, against the abstract queue *)

Definition viewQ (q : Queue) : list string * option (string * list string) := (waiting q, flying q).

(** The labels [ls] lead from one view to the other, whatever the history. *)
Definition trans (ls : list Label) (v v' : list string * option (string * list string)) : Prop :=
  ∀ q, viewQ q = v → ∃ q', qsteps ls q q' ∧ viewQ q' = v'.

Lemma trans_nil v : trans [] v v.
Proof. intros q Hq. exists q. split; [constructor|done]. Qed.

Lemma trans_app ls1 ls2 v1 v2 v3 : trans ls1 v1 v2 → trans ls2 v2 v3 → trans (ls1 ++ ls2) v1 v3.
Proof.
  intros H1 H2 q Hq. destruct (H1 q Hq) as (q1 & Hs1 & Hq1). destruct (H2 q1 Hq1) as (q2 & Hs2 & ?).
  exists q2. split; [by eapply qsteps_app|done].
Qed.

Lemma trans_accept t wt fl : trans [LAccept t] (wt, fl) ((pushCapped cfg wt t).1, fl).
Proof. intros q [= <- <-]. eexists. split; [apply qsteps_one, q_accept|done]. Qed.

Lemma trans_claim lease wt : wt ≠ [] → trans [LClaim lease wt] (wt, None) ([], Some (lease, wt)).
Proof. intros Hw q [= <- Hf]. eexists. split; [by apply qsteps_one, q_claim|done]. Qed.

Lemma trans_takeback lease b wt :
  trans [LTakeBack lease] (wt, Some (lease, b)) (b ++ wt, None).
Proof. intros q [= <- Hf]. eexists. split; [by eapply qsteps_one, q_takeback|done]. Qed.

Lemma trans_deliver lease b wt : trans [LDeliver lease] (wt, Some (lease, b)) (wt, None).
Proof. intros q [= <- Hf]. eexists. split; [by eapply qsteps_one, q_deliver|done]. Qed.

Lemma trans_discard v : trans [LDiscard] v ([], None).
Proof. intros q Hq. eexists. split; [by apply qsteps_one, q_discard|done]. Qed.

Lemma appendTo_shaped now i s s' :
  0 < now → 0 ≤ i_debounceMs i → shaped s → appendTo cfg now i s = Some s' → shaped s'.
Proof.
  intros Hnow Hd [[W1 W2 W3 W4] Hi Hb Ht]. unfold appendTo. case_match eqn:Ek; [done|].
  destruct (pushCapped cfg (texts s) _) as [t dt], (pushCapped cfg (pendingTexts s) _) as [p dp].
  intros [= <-]. split; [split| | |]; simpl; try done.
  - destruct (abandoned s); [done|]. done.
  - destruct (i_context i); [done|]. done.
  - intros Hp. rewrite Hp. by apply Hi.
  - intros Hp. rewrite Hp. by destruct (Hb Hp).
  - destruct (processing s); [done|]. intros f [= <-]. apply inject_nonneg. lia.
Qed.

Lemma appendTo_trans now i s s' :
  appendTo cfg now i s = Some s' → trans [LAccept (i_userText i)] (viewOf s) (viewOf s').
Proof.
  unfold appendTo. case_match; [done|].
  destruct (pushCapped cfg (texts s) _) as [t dt] eqn:Et, (pushCapped cfg (pendingTexts s) _) as [p dp] eqn:Ep.
  intros [= <-]. unfold viewOf. simpl. destruct (processing s).
  - replace p with (pushCapped cfg (pendingTexts s) (i_userText i)).1 by by rewrite Ep.
    apply trans_accept.
  - replace t with (pushCapped cfg (texts s) (i_userText i)).1 by by rewrite Et. apply trans_accept.
Qed.

(** The states that take a batch back, and the ones that finish one, are
    idle; [idle_shaped] is what they need. *)
Lemma idle_shaped s s' :
  shaped s → processing s' = false → pendingTexts s' = [] → processingTexts s' = [] →
  0 ≤ retryCount s' → context s' = context s → linkContext s' = linkContext s → extra s' = extra s →
  (∀ f, flushAfterAt s' = Some f → (0 <= f)%Q) → shaped s'.
Proof.
  intros [[W1 W2 W3 W4] Hi Hb Ht] Hp Hpe Hpt Hr Hc Hl Hx Hf.
  split; [split| | |]; rewrite ?Hc, ?Hl, ?Hx; try done. by rewrite Hp.
Qed.

Lemma replayed_shaped s f dead :
  shaped s → (∀ x, f = Some x → (0 <= x)%Q) → shaped (replayed s f dead).
Proof.
  intros Hs Hf. apply (idle_shaped s); try done. simpl. pose proof (wf_retry _ (sh_wf s Hs)). lia.
Qed.

Lemma resetToReady_shaped now s ts f key r dead notice :
  shaped s → 0 ≤ r → (∀ x, f = Some x → (0 <= x)%Q) →
  shaped (resetToReady now s ts f key r dead notice).
Proof. intros Hs Hr Hf. by apply (idle_shaped s). Qed.

Lemma inFlight_shaped now tok s :
  0 < now → shaped s → processing s = false → texts s ≠ [] → shaped (inFlight now tok s).
Proof.
  intros Hnow [[W1 W2 W3 W4] Hi Hb Ht] Hp Hne. split; [by split| | |]; simpl; try done.
  intros _. split_and!; [done|done| |by eexists]. eexists. split; [done|by apply inject_pos].
Qed.

(** What a shaped busy buffer shows. *)
Lemma busy_view s :
  shaped s → processing s = true →
  ∃ lease, processingLeaseToken s = JStr lease
           ∧ viewOf s = (pendingTexts s, Some (lease, processingTexts s)).
Proof.
  intros Hs Hp. destruct (sh_busy s Hs Hp) as (_ & _ & _ & lease & Hl). exists lease. split; [done|].
  unfold viewOf. by rewrite Hp, Hl.
Qed.

Lemma claimReady_grant now u tok s s' sn :
  0 < now → shaped s → processing s = false → claimReady now u tok s = CGrant s' sn →
  shaped s' ∧ sn_leaseToken sn = tok ∧ trans [LClaim tok (sn_texts sn)] (viewOf s) (viewOf s').
Proof.
  intros Hnow Hs Hp. unfold claimReady. destruct (nonEmpty (texts s)) eqn:Et; [|done]. simpl.
  apply nonEmpty_true in Et.
  case_match; [done|]; case_match; try done; intros [= <- <-];
    (split_and!; [by apply inFlight_shaped|done|]);
    unfold viewOf; rewrite Hp; simpl; rewrite (sh_idle s Hs Hp); by apply trans_claim.
Qed.

(** A stuck batch is taken back before it is claimed anew. *)
Definition takeBacks (ls : list Label) : Prop := ls = [] ∨ ∃ lease, ls = [LTakeBack lease].

Definition claim_ok (tok : string) (s : BufferState) (r : ClaimResult) : Prop :=
  match r with
  | CNothing => True
  | CPersist s' => shaped s' ∧ ∃ lease, trans [LTakeBack lease] (viewOf s) (viewOf s')
  | CGrant s' sn =>
      shaped s' ∧ sn_leaseToken sn = tok
      ∧ ∃ ls0, takeBacks ls0 ∧ trans (ls0 ++ [LClaim tok (sn_texts sn)]) (viewOf s) (viewOf s')
  end.

Lemma replayed_trans s f dead lease :
  viewOf s = (pendingTexts s, Some (lease, processingTexts s)) →
  trans [LTakeBack lease] (viewOf s) (viewOf (replayed s f dead)).
Proof. intros ->. apply trans_takeback. Qed.

Lemma claimReady_ok now u tok s :
  0 < now → shaped s → processing s = false → claim_ok tok s (claimReady now u tok s).
Proof.
  intros Hnow Hs Hp. destruct (claimReady now u tok s) as [|s'|s' sn] eqn:E; simpl; [done| |].
  - unfold claimReady in E. by repeat case_match.
  - destruct (claimReady_grant _ _ _ _ _ _ Hnow Hs Hp E) as (? & ? & ?). split_and!; try done.
    exists []. by split; [left|].
Qed.

Lemma claimFrom_ok now sm u tok s :
  0 < now → shaped s → claim_ok tok s (claimFrom cfg now sm u tok s).
Proof.
  intros Hnow Hs. unfold claimFrom. destruct (processing s) eqn:Ep; [|by apply claimReady_ok].
  destruct (busy_view s Hs Ep) as (lease & Hl & Hv). destruct (isStuck now sm s); [|done]. simpl.
  destruct (nonEmpty (takeBack s)) eqn:En.
  - case_match; simpl.
    + split; [by apply replayed_shaped|]. exists lease. by apply replayed_trans.
    + set (s1 := replayed s (Some (inject_Z now)) false).
      assert (shaped s1) as Hs1.
      { apply replayed_shaped; [done|]. intros x [= <-]. apply inject_nonneg. lia. }
      destruct (claimReady now u tok s1) as [|s'|s' sn] eqn:E; simpl; [done| |].
      * unfold claimReady in E. by repeat case_match.
      * destruct (claimReady_grant _ _ _ _ _ _ Hnow Hs1 eq_refl E) as (? & ? & Ht). split_and!; try done.
        exists [LTakeBack lease]. split; [by right; eexists|].
        eapply trans_app; [|exact Ht]. by apply replayed_trans.
  - apply nonEmpty_false, app_eq_nil in En as [En _]. by destruct (sh_busy s Hs Ep) as (_ & ? & _).
Qed.

(** A call with the lease either takes the batch back or delivers it; without
    it, nothing is written. *)
Definition settle_ok (lab : Label) (s : BufferState) (r : option BufferState * bool) : Prop :=
  match r with
  | (None, b) => b = false
  | (Some s', _) => shaped s' ∧ trans [lab] (viewOf s) (viewOf s')
  end.

Lemma holdsLease_true tok s :
  holdsLease tok s = true → processing s = true ∧ processingLeaseToken s = JStr tok.
Proof.
  unfold holdsLease. intros H. bool_to_prop. destruct (processingLeaseToken s); try done.
  by bool_to_prop; subst.
Qed.

Lemma holdsLease_view tok s :
  shaped s → holdsLease tok s = true →
  viewOf s = (pendingTexts s, Some (tok, processingTexts s)).
Proof. intros Hs [Hp Hl]%holdsLease_true. unfold viewOf. by rewrite Hp, Hl. Qed.

Lemma retryFrom_ok now d tok s :
  0 < now → 0 ≤ d → shaped s → settle_ok (LTakeBack tok) s (retryFrom cfg now d tok s).
Proof.
  intros Hnow Hd Hs. unfold retryFrom. destruct (holdsLease tok s) eqn:Eh; [|done]. simpl.
  pose proof (wf_retry _ (sh_wf s Hs)) as Hr.
  destruct (nonEmpty (takeBack s)); [|done]. simpl.
  case_match; simpl; (split; [apply resetToReady_shaped; [done|lia|]|rewrite (holdsLease_view tok s Hs Eh); apply trans_takeback]).
  - done.
  - intros x [= <-]. apply inject_nonneg. lia.
Qed.

Lemma completeFrom_ok now d tok s :
  0 < now → 0 ≤ d → shaped s → settle_ok (LDeliver tok) s (completeFrom now d tok s).
Proof.
  intros Hnow Hd Hs. unfold completeFrom. destruct (holdsLease tok s) eqn:Eh; [|done]. simpl.
  split; [apply resetToReady_shaped; [done|lia|]|rewrite (holdsLease_view tok s Hs Eh); apply trans_deliver].
  intros x. case_match; [|done]. intros [= <-]. apply inject_nonneg. lia.
Qed.

(** ** Every call is a run of labels that its answer explains *)

Definition duplicateKey (w : Redis) (now : Z) (i : AppendChatBufferInput) : Prop :=
  ∃ s k, readState now (i_externalUserId i) w = inr s
         ∧ i_idempotencyKey i = Some k ∧ k ∈ idempotencyKeys s.

(** What the answer of a call says about its effect on the user's queue. *)
Definition explains (w : Redis) (e : Event) (a : Answer) (ls : list Label) : Prop :=
  match e, a with
  | EAppend _ now i, AAppend (Resolve _) =>
      ls = [LAccept (i_userText i)] ∨ ls = [] ∧ duplicateKey w now i
  | EAppend _ _ i, AAppend _ => ls = [] ∨ ls = [LAccept (i_userText i)]
  | EClaim _ _ _ _ tok, AClaim (Resolve (Some sn)) =>
      sn_leaseToken sn = tok ∧ ∃ ls0, takeBacks ls0 ∧ ls = ls0 ++ [LClaim tok (sn_texts sn)]
  | EClaim _ _ _ _ tok, AClaim _ =>
      takeBacks ls ∨ ∃ ls0 b, takeBacks ls0 ∧ ls = ls0 ++ [LClaim tok b]
  | ERetry _ _ _ _ tok, ABool (Resolve true) => ls = [LTakeBack tok]
  | ERetry _ _ _ _ tok, ABool _ => ls = [] ∨ ls = [LTakeBack tok]
  | EComplete _ _ _ _ tok, ABool (Resolve true) => ls = [LDeliver tok]
  | EComplete _ _ _ _ tok, ABool _ => ls = [] ∨ ls = [LDeliver tok]
  | EClear _ _, ABool (Resolve true) => ls = [LDiscard]
  | EClear _ _, ABool _ => ls = [] ∨ ls = [LDiscard]
  | (EQuarantine _ _ | EExpire _), ANone => ls = [] ∨ ls = [LDiscard]
  | (EReconcile _ _ _ | EStale _ | EReindexFlush _ _ | EReindexStuck _ _), ANone => ls = []
  | _, _ => False
  end.

Record op_ok (u : string) (w w' : Redis) (ls : list Label) : Prop := {
  op_inv : Inv w';
  op_frame : frame u w w';
  op_trans : trans ls (buffered u w) (buffered u w')
}.

Lemma op_ok_refl u w : Inv w → op_ok u w w [].
Proof. intros. split; [done|done|apply trans_nil]. Qed.

Lemma op_ok_write now u s s' w ls :
  0 < now → Inv w → viewOf s = buffered u w → shaped s' → trans ls (viewOf s) (viewOf s') →
  op_ok u w (applyWrite cfg now u s' w) ls.
Proof.
  intros Hnow Hi Hr Hs' Ht. destruct (applyWrite_ok now u s' w Hnow Hs' Hi) as (? & ? & Hb).
  split; [done|done|]. by rewrite Hb, <-Hr.
Qed.

Lemma withLock_cases {A} env f (fn : Redis → Redis * option A) w w' r :
  withExternalUserIdLock env f fn w = (w', r) →
  (w' = w ∧ ∀ a, r ≠ Resolve a) ∨ (∃ o, fn w = (w', o) ∧ ∀ a, r = Resolve a → o = Some a).
Proof.
  unfold withExternalUserIdLock. intros H.
  destruct (clientUp env); simpl in *; [|simplify_eq; left; split; [done|by destruct f]].
  destruct (lockReply env); [|simplify_eq; left; split; [done|by destruct f]|by simplify_eq; left].
  destruct (fn w) as [w1 o]. simplify_eq. right. exists o. split; [done|].
  destruct o as [a|]; [|by destruct f]. destruct (releaseOk env); [|done]. by intros b [= <-].
Qed.

Lemma writeAndReturn_cases {A} env now u s' (a : A) w w' o :
  writeAndReturn cfg env now u s' a w = (w', o) →
  (w' = w ∧ o = None) ∨ (w' = applyWrite cfg now u s' w ∧ (o = None ∨ o = Some a)).
Proof.
  unfold writeAndReturn, writeState. destruct (execReply env); intros [= <- <-]; auto.
Qed.

Lemma readThen_cases {A} env now u (k : BufferState → Redis → Redis * option A) w w' o :
  0 < now → Inv w → readThen env now u k w = (w', o) →
  (w' = w ∧ o = None)
  ∨ ∃ s, readState now u w = inr s ∧ shaped s ∧ viewOf s = buffered u w ∧ k s w = (w', o).
Proof.
  intros Hnow Hi. unfold readThen. destruct (readOk env); [|intros [= <- <-]; by left].
  destruct (readState_ok now u w Hi Hnow) as (s & Hr & Hs & Hv). rewrite Hr. intros Hk.
  right. by exists s.
Qed.

Lemma settle_step env now u k lab w w' r :
  0 < now → Inv w → (∀ s, shaped s → settle_ok lab s (k s)) →
  settleLease cfg env now u k w = (w', r) →
  ∃ ls, (r = Resolve true → ls = [lab]) ∧ (ls = [] ∨ ls = [lab]) ∧ op_ok u w w' ls.
Proof.
  intros Hnow Hi Hk. unfold settleLease.
  destruct (withExternalUserIdLock env false _ w) as [w1 r1] eqn:E. intros [= <- <-].
  apply withLock_cases in E as [[-> Hn]|(o & Ho & Hres)].
  { exists []. split_and!; [|by left|by apply op_ok_refl]. destruct r1; simpl; intros [=]. by destruct (Hn a). }
  apply (readThen_cases _ _ _ _ _ _ _ Hnow Hi) in Ho as [[-> ->]|(s & _ & Hs & Hv & Hks)].
  { exists []. split_and!; [|by left|by apply op_ok_refl]. destruct r1; simpl; intros [=]. by specialize (Hres a eq_refl). }
  specialize (Hk s Hs). destruct (k s) as [[s'|] b]; simpl in Hk.
  - destruct Hk as [Hs' Ht]. apply writeAndReturn_cases in Hks as [[-> ->]|[-> Ho]].
    + exists []. split_and!; [|by left|by apply op_ok_refl]. destruct r1; simpl; intros [=].
      by specialize (Hres a eq_refl).
    + exists [lab]. split_and!; [done|by right|by eapply op_ok_write].
  - subst b. simplify_eq. exists []. split_and!; [|by left|by apply op_ok_refl].
    destruct r1 as [a| |]; simpl; intros [=]. by specialize (Hres a eq_refl) as [= <-].
Qed.

(** *** Calls that remove a buffer *)

Definition unindexing (u : string) (c : Redis → Redis) : Prop :=
  c = sremActive u ∨ c = zremFlush u ∨ c = zremStuck u ∨ c = id.

Lemma unindexing_local u c : unindexing u c → local_cmd u c.
Proof.
  pose proof (local_commands u) as (_ & H2 & _ & H4 & H5 & _ & _ & _ & H9).
  by intros [->|[->|[->| ->]]].
Qed.

(** Without a buffer, taking index entries away is sound and unobservable. *)
Lemma unindex_ok u cmds w :
  Forall (unindexing u) cmds → buffers w !! u = None → Inv w →
  op_ok u w (foldl (λ w c, c w) w cmds) [].
Proof.
  intros Hc Hn Hi. assert (buffers (foldl (λ w c, c w) w cmds) !! u = None
    ∧ scores_ok u (foldl (λ w c, c w) w cmds)) as [Hb Hs].
  { assert (scores_ok u w) as Hs by apply Hi. clear Hi. revert w Hn Hs.
    induction Hc as [|c cmds Hu _ IH]; intros w Hn [Hf Hst]; [done|]. simpl. apply IH.
    - by destruct Hu as [->|[->|[->| ->]]].
    - split; intros q; destruct Hu as [->|[->|[->| ->]]]; simpl;
        rewrite ?lookup_delete_eq; eauto || done. }
  assert (frame u w (foldl (λ w c, c w) w cmds)) as Hf.
  { apply frame_foldl. eapply Forall_impl; [done|]. apply unindexing_local. }
  split; [|done|].
  - apply (frame_inv u w); try done. intros r Hr. by rewrite Hb in Hr.
  - unfold buffered. rewrite Hb, Hn. apply trans_nil.
Qed.

(** The index commands of clear, quarantine and repair. *)
Lemma unindexing_list u : Forall (unindexing u) [id; sremActive u; zremFlush u; zremStuck u].
Proof. unfold unindexing. repeat (apply Forall_cons; split; [tauto|]). done. Qed.

Lemma unindexing_tail u : Forall (unindexing u) [sremActive u; zremFlush u; zremStuck u].
Proof. apply (Forall_cons_1 _ _ _ (unindexing_list u)). Qed.

Lemma op_ok_trans u w1 w2 w3 ls1 ls2 :
  op_ok u w1 w2 ls1 → op_ok u w2 w3 ls2 → op_ok u w1 w3 (ls1 ++ ls2).
Proof.
  intros [I1 F1 T1] [I2 F2 T2]. split; [done|by etrans|]. by eapply trans_app.
Qed.

(** Deleting or renaming the buffer discards what it holds. *)
Lemma remove_ok u w w' :
  buffers w' = delete u (buffers w) → active w' = active w → flush w' = flush w →
  stuck w' = stuck w → Inv w → op_ok u w w' [LDiscard].
Proof.
  intros Hb Ha Hf Hs Hi. assert (frame u w w') as Hfr.
  { split; intros v Hv; rewrite ?Hb, ?Ha, ?Hf, ?Hs; [by rewrite lookup_delete_ne|done..]. }
  split; [|done|].
  - apply (frame_inv u w); try done.
    + intros r. by rewrite Hb, lookup_delete_eq.
    + destruct (Hi u) as [_ [? ?]]. split; by rewrite ?Hf, ?Hs.
  - unfold buffered at 2. rewrite Hb, lookup_delete_eq. apply trans_discard.
Qed.

Lemma remove_then_unindex u w w1 cmds :
  op_ok u w w1 [LDiscard] → buffers w1 !! u = None → Forall (unindexing u) cmds → Inv w →
  op_ok u w (foldl (λ w c, c w) w1 cmds) [LDiscard].
Proof.
  intros H1 Hn Hc Hi. apply (op_ok_trans u w w1 _ [LDiscard] []); [done|].
  apply unindex_ok; [done|done|apply H1].
Qed.

Lemma clear_commands_ok env u w w' ok :
  Inv w → runCommands env [delBuffer u; sremActive u; zremFlush u; zremStuck u] w = (w', ok) →
  (w' = w ∧ ok = false) ∨ op_ok u w w' [LDiscard].
Proof.
  intros Hi. assert (∀ cmds, Forall (unindexing u) cmds →
    op_ok u w (foldl (λ w c, c w) (delBuffer u w) cmds) [LDiscard]) as Hd.
  { intros cmds Hc. apply remove_then_unindex; try done; [by apply remove_ok|apply lookup_delete_eq]. }
  unfold runCommands. destruct (commandsOk env) as [[|n]|]; intros [= <- <-]; [by left| |].
  - right. apply Hd, Forall_take, unindexing_tail.
  - right. apply (Hd [sremActive u; zremFlush u; zremStuck u]), unindexing_tail.
Qed.

Lemma quarantine_ok env u w :
  Inv w → ∃ ls, (ls = [] ∨ ls = [LDiscard]) ∧ op_ok u w (quarantineState env u w).1 ls.
Proof.
  intros Hi. unfold quarantineState, renameToQuarantine.
  destruct (buffers w !! u) as [r|] eqn:Er; simpl; [|exists []; eauto using op_ok_refl].
  set (w1 := mkRedis _ _ _ _ _).
  assert (∀ cmds, Forall (unindexing u) cmds → op_ok u w (foldl (λ w c, c w) w1 cmds) [LDiscard]) as Hd.
  { intros cmds Hc. apply remove_then_unindex; try done; [by apply remove_ok|apply lookup_delete_eq]. }
  unfold runCommands. destruct (commandsOk env) as [[|n]|]; simpl commandsOk; [exists []; eauto using op_ok_refl| |];
    exists [LDiscard]; (split; [by right|]).
  - apply Hd, Forall_take, unindexing_list.
  - apply Hd, unindexing_list.
Qed.

(** Adding index entries is sound and unobservable. *)
Lemma reindex_ok u w w' :
  frame u w w' → buffers w' = buffers w → (u ∈ active w → u ∈ active w') →
  (is_Some (flush w !! u) → is_Some (flush w' !! u)) →
  (is_Some (stuck w !! u) → is_Some (stuck w' !! u)) →
  scores_ok u w' → Inv w → op_ok u w w' [].
Proof.
  intros Hfr Hb Ha Hfu Hsu Hsc Hi.
  split; [|done|unfold buffered; rewrite Hb; apply trans_nil].
  apply (frame_inv u w); try done. intros r. rewrite Hb. intros Hr.
  destruct (Hi u) as [Hd _]. destruct (Hd r Hr) as (s & -> & Hsh & Hw & Hsch). exists s.
  split_and!; try done. intros [Hact Hin]%Hsch. split; [by apply Ha|].
  destruct (processing s); eauto.
Qed.

Lemma sadd_ok u w : Inv w → op_ok u w (saddActive u w) [].
Proof.
  intros Hi. apply reindex_ok; try done; [apply local_commands|simpl; set_solver|].
  by destruct (Hi u) as [_ [? ?]].
Qed.

Lemma zadd_ok u q w :
  (0 <= q)%Q → Inv w → op_ok u w (zaddFlush u q w) [] ∧ op_ok u w (zaddStuck u q w) [].
Proof.
  intros Hq Hi. destruct (Hi u) as [_ [Hf Hs]].
  split; apply reindex_ok; simpl; try done; try apply local_commands; intros;
    rewrite ?lookup_insert_eq by done; eauto;
    split; simpl; try done; intros x; rewrite lookup_insert_eq; by intros [= <-].
Qed.

Lemma stale_ok u w : Inv w → op_ok u w (removeStaleActiveMember u w) [].
Proof.
  intros Hi. unfold removeStaleActiveMember.
  destruct (buffers w !! u) eqn:E; [by apply op_ok_refl|].
  apply (unindex_ok u [sremActive u; zremFlush u; zremStuck u]); auto using unindexing_tail.
Qed.

Lemma reconcile_ok env now u w :
  0 < now → Inv w → op_ok u w (reconcileUser cfg env now u w).1 [].
Proof.
  intros Hnow Hi. unfold reconcileUser.
  destruct (withExternalUserIdLock env true _ w) as [w' r] eqn:E. simpl.
  apply withLock_cases in E as [[-> _]|(o & Ho & _)]; [by apply op_ok_refl|].
  destruct (readOk env); simpl in Ho; [|simplify_eq; by apply op_ok_refl].
  destruct (buffers w !! u) as [r0|] eqn:Er.
  - destruct (Hi u) as [Hd _]. destruct (Hd r0 Er) as (s & -> & Hs & Hw & _).
    rewrite parse_printState in Ho by apply Hs.
    destruct (indexMismatch u s w); [|simplify_eq; by apply op_ok_refl].
    apply writeAndReturn_cases in Ho as [[-> _]|[-> _]]; [by apply op_ok_refl|].
    eapply op_ok_write; try done; [|apply trans_nil].
    unfold buffered. by rewrite Er, parse_printState by apply Hs.
  - destruct (hasIndexes u w); [|simplify_eq; by apply op_ok_refl].
    unfold runCommands in Ho. destruct (commandsOk env) as [n|]; simplify_eq.
    + apply unindex_ok; [apply Forall_take, unindexing_tail|done..].
    + apply (unindex_ok u [sremActive u; zremFlush u; zremStuck u]); auto using unindexing_tail.
Qed.

Lemma appendTo_None now i s w :
  readState now (i_externalUserId i) w = inr s → appendTo cfg now i s = None → duplicateKey w now i.
Proof.
  intros Hr Ea. unfold appendTo in Ea.
  destruct (truthyKey (i_idempotencyKey i)) as [k|] eqn:Ek;
    [case_bool_decide as Hin|]; last first.
  1-2: by destruct (pushCapped cfg (texts s) _), (pushCapped cfg (pendingTexts s) _).
  exists s, k. split_and!; try done. unfold truthyKey in Ek. by repeat case_match; simplify_eq.
Qed.

Lemma append_ok env now i w :
  0 < now → 0 ≤ i_debounceMs i → Inv w →
  ∃ ls, explains w (EAppend env now i) (AAppend (appendChatBuffer cfg env now i w).2) ls
        ∧ op_ok (i_externalUserId i) w (appendChatBuffer cfg env now i w).1 ls.
Proof.
  intros Hnow Hd Hi. unfold appendChatBuffer. set (u := i_externalUserId i).
  destruct (withExternalUserIdLock env true _ w) as [w' r] eqn:E. simpl.
  apply withLock_cases in E as [[-> Hn]|(o & Ho & Hres)].
  { exists []. split; [|by apply op_ok_refl]. destruct r as [a| |]; [by destruct (Hn a)|by left..]. }
  apply (readThen_cases _ _ _ _ _ _ _ Hnow Hi) in Ho as [[-> ->]|(s & Hr & Hs & Hv & Hk)].
  { exists []. split; [|by apply op_ok_refl]. destruct r as [a| |]; [|by left..]. by specialize (Hres a eq_refl). }
  destruct (appendTo cfg now i s) as [s'|] eqn:Ea.
  - assert (shaped s') as Hs' by by eapply appendTo_shaped.
    apply writeAndReturn_cases in Hk as [[-> ->]|[-> Ho]].
    + exists []. split; [|by apply op_ok_refl]. destruct r as [a| |]; [|by left..].
      by specialize (Hres a eq_refl).
    + exists [LAccept (i_userText i)]. split; [destruct r; auto|].
      eapply op_ok_write; try done. by eapply appendTo_trans.
  - exists []. split; [destruct r; [|by left..]; right; split; eauto using appendTo_None|].
    unfold runCommands in Hk. destruct (commandsOk env) as [[|n]|]; simpl in Hk; simplify_eq.
    + by apply op_ok_refl.
    + rewrite take_nil. by apply sadd_ok.
    + by apply sadd_ok.
Qed.

Lemma claim_step_ok env now u sm tok w :
  0 < now → Inv w →
  ∃ ls, explains w (EClaim env now u sm tok) (AClaim (claimReadyBuffer cfg env now u sm tok w).2) ls
        ∧ op_ok u w (claimReadyBuffer cfg env now u sm tok w).1 ls.
Proof.
  intros Hnow Hi. unfold claimReadyBuffer.
  destruct (withExternalUserIdLock env false _ w) as [w' r] eqn:E. simpl.
  assert (∀ o : option (option ChatQueueBufferSnapshot), (∀ a, r = Resolve a → o = Some a) →
    (o = None ∨ o = Some None) →
    ∀ ls, takeBacks ls ∨ (∃ ls0 b, takeBacks ls0 ∧ ls = ls0 ++ [LClaim tok b]) →
    explains w (EClaim env now u sm tok) (AClaim (orElse None r)) ls) as Hnull.
  { intros o Hres Ho ls Hls. destruct r as [[sn|]| |]; simpl; try done.
    specialize (Hres _ eq_refl). destruct Ho; congruence. }
  apply withLock_cases in E as [[-> Hn]|(o & Ho & Hres)].
  { exists []. split; [|by apply op_ok_refl]. apply (Hnull None); [|by left|by left; left].
    intros a Ha. by destruct (Hn a). }
  apply (readThen_cases _ _ _ _ _ _ _ Hnow Hi) in Ho as [[-> ->]|(s & Hr & Hs & Hv & Hk)].
  { exists []. split; [|by apply op_ok_refl]. apply (Hnull None); [done|by left|by left; left]. }
  pose proof (claimFrom_ok now sm u tok s Hnow Hs) as Hc.
  destruct (claimFrom cfg now sm u tok s) as [|s'|s' sn]; simpl in Hc.
  - simplify_eq. exists []. split; [|by apply op_ok_refl].
    apply (Hnull (Some None)); [done|by right|by left; left].
  - destruct Hc as (Hs' & lease & Ht). apply writeAndReturn_cases in Hk as [[-> ->]|[-> Ho]].
    + exists []. split; [|by apply op_ok_refl]. apply (Hnull None); [done|by left|by left; left].
    + exists [LTakeBack lease]. split; [|by eapply op_ok_write].
      apply (Hnull o); [done|done|]. left. right. eauto.
  - destruct Hc as (Hs' & Htok & ls0 & Htb & Ht).
    apply writeAndReturn_cases in Hk as [[-> ->]|[-> Ho]].
    + exists []. split; [|by apply op_ok_refl]. apply (Hnull None); [done|by left|by left; left].
    + exists (ls0 ++ [LClaim tok (sn_texts sn)]). split; [|by eapply op_ok_write].
      destruct Ho as [->| ->]; [apply (Hnull None); [done|by left|]; right; eauto|].
      destruct r as [a| |]; simpl; [|right; eauto..].
      specialize (Hres a eq_refl) as [= <-]. split; [done|]. eauto.
Qed.

Lemma clear_ok env u w :
  Inv w →
  ∃ ls, explains w (EClear env u) (ABool (clearChatBuffer env u w).2) ls
        ∧ op_ok u w (clearChatBuffer env u w).1 ls.
Proof.
  intros Hi. unfold clearChatBuffer.
  destruct (withExternalUserIdLock env false _ w) as [w' r] eqn:E. simpl.
  assert (∀ o : option bool, (∀ a, r = Resolve a → o = Some a) → o = None →
    explains w (EClear env u) (ABool (orElse false r)) []) as Hnone.
  { intros o Hres ->. destruct r as [a| |]; simpl; [by specialize (Hres a eq_refl)|by left..]. }
  apply withLock_cases in E as [[-> Hn]|(o & Ho & Hres)].
  { exists []. split; [|by apply op_ok_refl]. apply (Hnone None); [|done]. intros a Ha. by destruct (Hn a). }
  destruct (runCommands env _ w) as [w1 ok] eqn:Er. simplify_eq.
  apply (clear_commands_ok _ _ _ _ _ Hi) in Er as [[-> ->]|Hok].
  - exists []. split; [by eapply Hnone|by apply op_ok_refl].
  - exists [LDiscard]. split; [|done]. destruct r as [[]| |]; simpl; auto.
Qed.

(** ** Runs *)

Lemma step_ok e w :
  Inv w → sane e →
  ∃ ls, explains w e (step e w).2 ls ∧ op_ok (userOf e) w (step e w).1 ls.
Proof.
  intros Hi Hs. destruct e as [env now i|env now u sm tok|env now u d tok|env now u d tok|env u
    |env now u|u|u q|u q|env u|u]; simpl in Hs; cbn [step userOf].
  - destruct Hs as [Hnow Hd]. destruct (append_ok env now i w Hnow Hd Hi) as (ls & ? & ?).
    exists ls. by destruct (appendChatBuffer cfg env now i w).
  - destruct (claim_step_ok env now u sm tok w Hs Hi) as (ls & ? & ?).
    exists ls. by destruct (claimReadyBuffer cfg env now u sm tok w).
  - destruct Hs as [Hnow Hd]. destruct (scheduleRetryFlush cfg env now u d tok w) as [w' r] eqn:E.
    eapply settle_step in E as (ls & Ht & Hls & Hok); try done; [|intros; by apply retryFrom_ok].
    exists ls. split; [|done]. simpl. destruct r as [[]| |]; auto.
  - destruct Hs as [Hnow Hd]. destruct (completeChatBuffer cfg env now u d tok w) as [w' r] eqn:E.
    eapply settle_step in E as (ls & Ht & Hls & Hok); try done; [|intros; by apply completeFrom_ok].
    exists ls. split; [|done]. simpl. destruct r as [[]| |]; auto.
  - destruct (clear_ok env u w Hi) as (ls & ? & ?). exists ls. by destruct (clearChatBuffer env u w).
  - exists []. split; [done|by apply reconcile_ok].
  - exists []. split; [done|by apply stale_ok].
  - exists []. split; [done|by apply zadd_ok].
  - exists []. split; [done|by apply zadd_ok].
  - destruct (quarantine_ok env u w Hi) as (ls & ? & ?). exists ls. by split.
  - exists [LDiscard]. split; [by right|]. by apply remove_ok.
Qed.

Lemma Inv_empty : Inv emptyRedis.
Proof. intros u. split; [intros r Hr|split; intros q Hq]; simpl in *; by rewrite lookup_empty in *. Qed.

Lemma run_inv es w : Forall sane es → Inv w → Inv (run es w).
Proof.
  intros Hs. revert w. induction Hs as [|e es He _ IH]; intros w Hi; [done|]. simpl. apply IH.
  by destruct (step_ok e w Hi He) as (ls & _ & [Hi' _ _]).
Qed.

(** The labels of one user, call by call. *)
Definition explained (u : string) (h : Redis * Event * Answer) (ls : list Label) : Prop :=
  if decide (userOf h.1.2 = u) then explains h.1.1 h.1.2 h.2 ls else ls = [].

Lemma step_explained u e w :
  Inv w → sane e →
  ∃ ls, explained u (w, e, (step e w).2) ls ∧ trans ls (buffered u w) (buffered u (step e w).1).
Proof.
  intros Hi He. destruct (step_ok e w Hi He) as (ls & Hx & [_ Hf Ht]). unfold explained. simpl.
  case_decide as Hu; [subst; eauto|]. exists []. split; [done|].
  rewrite (frame_buffered (userOf e) u w (step e w).1) by done. apply trans_nil.
Qed.

Lemma run_explained u es w :
  Forall sane es → Inv w →
  ∃ lss, Forall2 (explained u) (history es w) lss
         ∧ trans (concat lss) (buffered u w) (buffered u (run es w)).
Proof.
  intros Hs. revert w. induction Hs as [|e es He Hes IH]; intros w Hi; simpl.
  { exists []. split; [constructor|apply trans_nil]. }
  destruct (step_explained u e w Hi He) as (ls & Hx & Ht).
  destruct (IH (step e w).1) as (lss & Hxs & Hts); [by apply (run_inv [e]); [constructor|]|].
  exists (ls :: lss). split; [by constructor|]. simpl. by eapply trans_app.
Qed.

(** C5. The shared store implements the abstract queue.  For every sequence of
    appends, claims, retries, completions, clears, repairs, rehydrations and key
    expiries on any users, with any faults of the server, the calls on one user
    have effects on an abstract first-in first-out queue with one leased batch in
    flight that explain every answer given (a resolved append accepted its text or
    was a duplicate, a granted claim took exactly the texts of its snapshot, a
    completion that answers true delivered the batch of its own lease), and the
    buffer in the store is the queue at the end. *)
Theorem store_refines_queue es u :
  Forall sane es →
  ∃ lss q, Forall2 (explained u) (history es emptyRedis) lss
           ∧ qsteps (concat lss) initQueue q
           ∧ viewQ q = buffered u (run es emptyRedis).
Proof.
  intros Hs. destruct (run_explained u es emptyRedis Hs Inv_empty) as (lss & Hx & Ht).
  destruct (Ht initQueue eq_refl) as (q & Hq & Hv). by exists lss, q.
Qed.

(** Nothing accepted is lost, duplicated or reordered.  For every such run
    there is a history of the user that explains every answer, in which the
    accepted texts are exactly the delivered ones, the ones dropped by the cap
    (none without a cap), the ones discarded with a cleared, expired or quarantined
    buffer, and the ones still in the store; and the delivered texts, followed by
    the batch in flight and the waiting texts of the store, stand in the order in
    which they were accepted. *)
Theorem texts_conserved es u :
  Forall sane es →
  ∃ lss q, Forall2 (explained u) (history es emptyRedis) lss
    ∧ qsteps (concat lss) initQueue q
    ∧ accepted q ≡ₚ delivered q ++ dropped q ++ discarded q
        ++ (default ("", []) (buffered u (run es emptyRedis)).2).2 ++ (buffered u (run es emptyRedis)).1
    ∧ delivered q ++ (default ("", []) (buffered u (run es emptyRedis)).2).2
        ++ (buffered u (run es emptyRedis)).1 `sublist_of` accepted q
    ∧ (maxPendingSize cfg ≤ 0 → dropped q = []).
Proof.
  intros Hs. destruct (run_explained u es emptyRedis Hs Inv_empty) as (lss & Hx & Ht).
  destruct (Ht initQueue eq_refl) as (q & Hq & Hv). exists lss, q.
  destruct (conserves_steps _ _ _ Hq conserves_init) as [Hp Ho Hd].
  rewrite <-Hv. unfold viewQ, flight in *. simpl.
  assert ((default ("", []) (flying q)).2 = match flying q with Some (_, b) => b | None => [] end) as ->
    by by destruct (flying q) as [[]|].
  done.
Qed.

(** ** Fencing *)

Definition leased (u : string) (tok : string) (w : Redis) : Prop :=
  ∃ b, (buffered u w).2 = Some (tok, b).

Lemma qsteps_lease tok ls q q' :
  qsteps ls q q' → (∀ b, LClaim tok b ∉ ls) → (∀ b, flying q ≠ Some (tok, b)) →
  ∀ b, flying q' ≠ Some (tok, b).
Proof.
  induction 1 as [|l ls q q1 q2 Hs Hr IH]; intros Hn Hf; [done|].
  apply IH; [intros b Hb; apply (Hn b); by right|].
  destruct Hs as [| lease q Hfl Hw | | |]; simpl; try done.
  intros b [= -> <-]. apply (Hn (waiting q)). left.
Qed.

Lemma takeBacks_claim ls tok b : takeBacks ls → LClaim tok b ∉ ls.
Proof. intros [->|(l & ->)]; set_solver. Qed.

(** A call other than a claim with the token does not give the lease back. *)
Lemma explains_no_claim w e a ls tok b :
  explains w e a ls →
  (∀ env now sm, e ≠ EClaim env now (userOf e) sm tok) → LClaim tok b ∉ ls.
Proof.
  intros Hx Hn Hin. destruct e as [env now i|env now u sm t|env now u d t|env now u d t|env u|env now u|u|u q|u q|env u|u];
    simpl in *; destruct a as [r|r|r|]; try done;
    repeat match goal with
           | H : _ ∨ _ |- _ => destruct H
           | H : _ ∧ _ |- _ => destruct H
           | H : ∃ _, _ |- _ => destruct H
           | H : match ?r with _ => _ end |- _ => destruct r
           | H : if ?b then _ else _ |- _ => destruct b
           end; subst;
    rewrite ?elem_of_app, ?list_elem_of_singleton in Hin;
    try (set_solver); try (by eapply takeBacks_claim);
    destruct Hin as [Hin|Hin]; try (by eapply takeBacks_claim); simplify_eq; by eapply Hn.
Qed.

Lemma run_not_leased u tok es w :
  Forall sane es → Inv w →
  (∀ e, e ∈ es → ∀ env now sm, e ≠ EClaim env now u sm tok) →
  ¬ leased u tok w → ¬ leased u tok (run es w).
Proof.
  intros Hs. revert w. induction Hs as [|e es He Hes IH]; intros w Hi Hn Hl; [done|]. simpl.
  apply IH; [by apply (run_inv [e]); [by constructor|]|intros; apply Hn; by right|].
  destruct (step_explained u e w Hi He) as (ls & Hx & Ht). intros [b Hb].
  destruct (Ht (mkQueue (buffered u w).1 (buffered u w).2 [] [] [] [])) as (q' & Hq & Hv);
    [by destruct (buffered u w)|].
  apply (qsteps_lease tok _ _ _ Hq) with b.
  - intros b'. unfold explained in Hx. simpl in Hx. case_decide as Hu; [|subst; set_solver].
    eapply explains_no_claim; [done|]. intros env now sm. rewrite Hu. apply Hn. left.
  - intros b' Hb'. apply Hl. by exists b'.
  - by rewrite <-Hv in Hb.
Qed.

Lemma fenced u tok w now env k :
  0 < now → Inv w → ¬ leased u tok w → (∀ s, holdsLease tok s = false → k s = (None, false)) →
  (settleLease cfg env now u k w).1 = w ∧ (settleLease cfg env now u k w).2 ≠ Resolve true.
Proof.
  intros Hnow Hi Hl Hk. unfold settleLease.
  destruct (withExternalUserIdLock env false _ w) as [w' r] eqn:E. simpl.
  apply withLock_cases in E as [[-> Hn]|(o & Ho & Hres)].
  { split; [done|]. intros Hr. destruct r as [a| |]; simplify_eq/=. by destruct (Hn true). }
  apply (readThen_cases _ _ _ _ _ _ _ Hnow Hi) in Ho as [[-> ->]|(s & _ & Hs & Hv & Hks)].
  { split; [done|]. intros Hr. destruct r as [a| |]; simplify_eq/=. by specialize (Hres true eq_refl). }
  rewrite Hk in Hks; [|].
  - simplify_eq. split; [done|]. intros Hr. destruct r as [a| |]; simplify_eq/=.
    by specialize (Hres true eq_refl).
  - destruct (holdsLease tok s) eqn:Eh; [|done]. destruct Hl. exists (processingTexts s).
    by rewrite <-Hv, (holdsLease_view tok).
Qed.

(** A worker whose claim was superseded cannot touch the batch.  Once a later
    claim was granted with another token, then, as long as nobody claims with the
    first token again, completing or retrying with the first token changes nothing
    in the store and never answers true, whatever happened in between. *)
Theorem superseded_lease_is_fenced es1 es2 env now u sm sn t1 t2 env' now' d :
  Forall sane es1 → Forall sane es2 → 0 < now → 0 < now' → t1 ≠ t2 →
  (step (EClaim env now u sm t2) (run es1 emptyRedis)).2 = AClaim (Resolve (Some sn)) →
  (∀ e, e ∈ es2 → ∀ env now sm, e ≠ EClaim env now u sm t1) →
  let w := run es2 (step (EClaim env now u sm t2) (run es1 emptyRedis)).1 in
  (completeChatBuffer cfg env' now' u d t1 w).1 = w
  ∧ (completeChatBuffer cfg env' now' u d t1 w).2 ≠ Resolve true
  ∧ (scheduleRetryFlush cfg env' now' u d t1 w).1 = w
  ∧ (scheduleRetryFlush cfg env' now' u d t1 w).2 ≠ Resolve true.
Proof.
  intros Hs1 Hs2 Hnow Hnow' Hne Hgrant Hn w.
  set (w1 := run es1 emptyRedis) in *. assert (Inv w1) as Hi1 by by apply run_inv, Inv_empty.
  destruct (step_ok (EClaim env now u sm t2) w1 Hi1 Hnow) as (ls & Hx & [Hi2 _ Ht]).
  rewrite Hgrant in Hx. destruct Hx as (_ & ls0 & Htb & ->).
  assert (¬ leased u t1 (step (EClaim env now u sm t2) w1).1) as Hl.
  { intros [b Hb].
    destruct (Ht (mkQueue (buffered u w1).1 (buffered u w1).2 [] [] [] [])) as (q' & Hq & Hv);
      [by cbn [userOf]; destruct (buffered u w1)|].
    simpl userOf in Hv. rewrite <-Hv in Hb. simpl in Hb. clear -Hq Hb Hne Htb.
    assert (∃ q1, qsteps [LClaim t2 (sn_texts sn)] q1 q') as [q1 Hq1].
    { destruct Htb as [->|(l & ->)]; [by eexists|]. inv Hq. by eexists. }
    inversion Hq1 as [|? ? ? ? ? Hc Hnil]; subst. inversion Hnil; subst. inversion Hc; subst.
    simpl in Hb. by simplify_eq. }
  assert (¬ leased u t1 w) as Hlw by by apply run_not_leased.
  assert (Inv w) as Hiw by by apply run_inv.
  split_and!; eapply fenced; try done; intros s Hh; unfold completeFrom, retryFrom; by rewrite Hh.
Qed.

End Spec.

(** *** The theorems at a concrete run *)

Definition demoConfig : Config := mkConfig 20 120000 3.

Definition demoAppend : AppendChatBufferInput := mkAppend "u" "hello" None None (Some "k1"%string) 1500.

Definition demoRun : list Event :=
  [EAppend goodEnv 1000 demoAppend; EClaim goodEnv 3000 "u" 120000 "t1";
   EAppend goodEnv 3500 (mkAppend "u" "again" None None (Some "k2"%string) 1500);
   EClaim goodEnv 200000 "u" 120000 "t2"].

Lemma demoRun_sane : Forall sane demoRun.
Proof. repeat constructor; done. Qed.

Lemma store_refines_queue_witness :
  buffered "u" (run demoConfig demoRun emptyRedis) = ([], Some ("t2", ["hello"; "again"]))%string
  ∧ ∃ lss q, Forall2 (explained "u") (history demoConfig demoRun emptyRedis) lss
             ∧ qsteps demoConfig (concat lss) initQueue q
             ∧ viewQ q = buffered "u" (run demoConfig demoRun emptyRedis).
Proof.
  split; [vm_compute; reflexivity|].
  apply (store_refines_queue demoConfig); [simpl; lia|apply demoRun_sane].
Defined.

Lemma texts_conserved_witness :
  ∃ lss q, Forall2 (explained "u") (history demoConfig demoRun emptyRedis) lss
    ∧ qsteps demoConfig (concat lss) initQueue q
    ∧ accepted q ≡ₚ delivered q ++ dropped q ++ discarded q ++ ["hello"; "again"]%string.
Proof.
  destruct (texts_conserved demoConfig ltac:(simpl; lia) demoRun "u" demoRun_sane)
    as (lss & q & Hx & Hq & Hp & _).
  exists lss, q. split; [exact Hx|]. split; [exact Hq|]. exact Hp.
Defined.

Definition demoSnapshot : ChatQueueBufferSnapshot :=
  mkSnapshot "u" ["hello"%string] "t2" (Some (JStr "k1")) 1 None None false.

Lemma superseded_lease_is_fenced_witness :
  let es := [EAppend goodEnv 1000 demoAppend; EClaim goodEnv 3000 "u" 120000 "t1"] in
  let w := run demoConfig [] (step demoConfig (EClaim goodEnv 200000 "u" 120000 "t2")
                                (run demoConfig es emptyRedis)).1 in
  (completeChatBuffer demoConfig goodEnv 200001 "u" 1500 "t1" w).1 = w.
Proof.
  intros es w.
  refine (proj1 (superseded_lease_is_fenced demoConfig ltac:(simpl; lia) es []
            goodEnv 200000 "u" 120000 demoSnapshot "t1" "t2" goodEnv 200001 1500 _ _ _ _ _ _ _)).
  - repeat constructor; done.
  - constructor.
  - done.
  - done.
  - done.
  - vm_compute. reflexivity.
  - intros e He. inversion He.
Defined.

End RQSpec.
