(* ===== verification/RedisQueuePoll.v ===== *)
(** * Polling and repair of the shared chat queue

    That the bounded poll of redis-chat-queue.store.ts finds every buffer that
    has work, that what it finds can be claimed, and what reconciliation repairs. *)

From S2P Require Import Prelude RedisQueueState RedisQueue RedisQueueSpec.
Import RQState RQ RQSpec.

Module RQPoll.

#[local] Opaque printState parseState.

(** ** Deduplication *)

Lemma dedupe_keys seen l u : u ∈ (dedupe seen l).*1 ↔ u ∈ l.*1 ∧ u ∉ seen.
Proof.
  revert seen. induction l as [|e l IH]; intros seen; simpl; [set_solver|].
  case_bool_decide as He; [rewrite IH; set_solver|]. rewrite fmap_cons, elem_of_cons, IH.
  destruct (decide (u = e.1)); set_solver.
Qed.

Lemma dedupe_sublist seen l : dedupe seen l `sublist_of` l.
Proof.
  revert seen. induction l as [|e l IH]; intros seen; simpl; [done|].
  case_bool_decide; [by apply sublist_cons|by apply sublist_skip].
Qed.

Lemma dedupe_nodup seen l : NoDup (dedupe seen l).*1.
Proof.
  revert seen. induction l as [|e l IH]; intros seen; simpl; [constructor|].
  case_bool_decide; [done|]. rewrite fmap_cons. constructor; [|done].
  rewrite dedupe_keys. set_solver.
Qed.

(** ** What a poll returns *)

Definition due (now : Z) (z : gmap string Q) (u : string) : Prop :=
  ∃ q, z !! u = Some q ∧ (0 <= q)%Q ∧ (q <= inject_Z now)%Q.

Lemma zrange_elem z now limit e :
  e ∈ zrangebyscore z now limit → z !! e.1 = Some e.2 ∧ due now z e.1.
Proof.
  unfold zrangebyscore. intros (i & He & _)%elem_of_take. apply list_elem_of_lookup_2 in He.
  revert He. rewrite sortBy_perm, list_elem_of_filter.
  destruct e as [u q]. intros [Hq Hm]. apply elem_of_map_to_list in Hm. bool_to_prop.
  split; [done|]. exists q. split_and!; [done|by apply Qle_bool_iff..].
Qed.

(** Within the limit nothing due is left out. *)
Lemma zrange_complete z now limit u :
  (size z ≤ limit)%nat → due now z u → u ∈ (zrangebyscore z now limit).*1.
Proof.
  intros Hl (q & Hz & H0 & Hn). apply list_elem_of_fmap. exists (u, q). split; [done|].
  unfold zrangebyscore. rewrite take_ge.
  - rewrite sortBy_perm, list_elem_of_filter, elem_of_map_to_list. split; [|done]. simpl.
    apply Qle_bool_iff in H0, Hn. by rewrite H0, Hn.
  - rewrite sortBy_perm. etrans; [apply sublist_length, sublist_filter|].
    by rewrite length_map_to_list.
Qed.

Lemma zrange_length z now limit : (length (zrangebyscore z now limit) ≤ Nat.min limit (size z))%nat.
Proof.
  unfold zrangebyscore. rewrite length_take, sortBy_perm. apply Nat.min_le_compat_l.
  etrans; [apply sublist_length, sublist_filter|]. by rewrite length_map_to_list.
Qed.

Lemma merge_elem F S limit u : u ∈ mergeCandidates F S limit → u ∈ F.*1 ∨ u ∈ S.*1.
Proof.
  unfold mergeCandidates. rewrite fmap_take. intros (i & Hi & _)%elem_of_take.
  apply list_elem_of_lookup_2 in Hi. revert Hi. rewrite sortBy_perm, dedupe_keys, fmap_app, elem_of_app. tauto.
Qed.

Lemma merge_complete F S limit u :
  (length F + length S ≤ limit)%nat → u ∈ F.*1 ∨ u ∈ S.*1 → u ∈ mergeCandidates F S limit.
Proof.
  intros Hl Hu. unfold mergeCandidates. rewrite take_ge.
  - rewrite sortBy_perm, dedupe_keys, fmap_app, elem_of_app. set_solver.
  - rewrite sortBy_perm. etrans; [apply sublist_length, dedupe_sublist|]. by rewrite length_app.
Qed.

Lemma merge_nodup F S limit : NoDup (mergeCandidates F S limit).
Proof.
  unfold mergeCandidates. rewrite fmap_take. eapply sublist_NoDup; [|apply sublist_take].
  rewrite sortBy_perm. apply dedupe_nodup.
Qed.

Lemma removeStale_buffers u w : buffers (removeStaleActiveMember u w) = buffers w.
Proof. unfold removeStaleActiveMember. by destruct (buffers w !! u). Qed.

(** The loop keeps the candidates that have a buffer, up to the limit, and
    leaves every buffer alone. *)
Lemma pickReady_spec limit us ready w :
  (length ready + length us ≤ limit)%nat →
  buffers (pickReady limit us ready w).1 = buffers w
  ∧ (pickReady limit us ready w).2 = ready ++ filter (λ u, is_Some (buffers w !! u)) us.
Proof.
  revert ready w. induction us as [|u us IH]; intros ready w Hl; simpl in *.
  { by rewrite app_nil_r. }
  rewrite filter_cons. destruct (buffers w !! u) as [r|] eqn:E.
  - rewrite decide_True by eauto. rewrite length_app. simpl.
    destruct (Nat.leb_spec limit (length ready + 1)) as [Hb|Hb]; simpl.
    + destruct us; [done|]. simpl in *. lia.
    + destruct (IH (ready ++ [u]) w) as [Hb1 Hr1]; [rewrite length_app; simpl; lia|].
      rewrite Hb1, Hr1. split; [done|]. by rewrite <-(assoc_L (++)).
  - rewrite decide_False by (intros [? ?]; congruence).
    destruct (IH ready (removeStaleActiveMember u w)) as [Hb1 Hr1]; [lia|].
    by rewrite Hb1, Hr1, removeStale_buffers.
Qed.

Lemma mergeCandidates_length F S limit : (length (mergeCandidates F S limit) ≤ limit)%nat.
Proof. unfold mergeCandidates. rewrite length_fmap, length_take. lia. Qed.

(** The poll of a store whose sorted sets are not both empty, in full. *)
Lemma poll_spec cfg envs now limit w :
  flush w ≠ ∅ ∨ stuck w ≠ ∅ →
  let us := mergeCandidates (zrangebyscore (flush w) now limit) (zrangebyscore (stuck w) now limit) limit in
  buffers (listReadyExternalUserIds cfg goodEnv envs now limit w).1 = buffers w
  ∧ (listReadyExternalUserIds cfg goodEnv envs now limit w).2
    = Resolve (filter (λ u, is_Some (buffers w !! u)) us).
Proof.
  intros Hne us. unfold listReadyExternalUserIds, maybeRehydrate. simpl.
  rewrite bool_decide_false by tauto. simpl. fold us.
  destruct (pickReady_spec limit us [] w) as [Hb Hr]; [simpl; apply mergeCandidates_length|].
  destruct (pickReady limit us [] w) as [w' ready]. simpl in *. by rewrite Hr, Hb.
Qed.

(** ** Buffered work is found and can be claimed *)

Lemma Q_below_Z q : ∃ z, (q <= inject_Z z)%Q.
Proof. exists (Qceiling q). apply Qle_ceiling. Qed.

Lemma Q_below_le q z z' : (q <= inject_Z z)%Q → z ≤ z' → (q <= inject_Z z')%Q.
Proof. intros Hq Hz. eapply Qle_trans; [done|]. by rewrite <-Zle_Qle. Qed.

(** From some time on, the claim of a shaped buffer takes everything it holds, or
    gives the batch up when the retries are used up. *)
Lemma claim_eventually cfg sm s :
  shaped s → hasBufferedWork s = true →
  ∃ T, ∀ now u tok, T ≤ now →
    match claimFrom cfg now sm u tok s with
    | CGrant _ sn => sn_texts sn = takeBack s ++ texts s
    | CPersist s' => abandoned s' = true ∧ maxFlushRetries cfg < retryCount s + 1
                     ∧ texts s' = takeBack s ∧ nonEmpty (texts s') = true
    | CNothing => False
    end.
Proof.
  intros Hs Hw. unfold claimFrom. destruct (processing s) eqn:Ep.
  - destruct (sh_busy s Hs Ep) as (Ht & Hne & (t0 & Hst & Hpos) & _).
    destruct (Q_below_Z (t0 + inject_Z sm)) as [T HT]. exists T. intros now u tok Hnow.
    assert (isStuck now sm s = true) as ->.
    { unfold isStuck. rewrite Hst. simpl. apply andb_true_iff. split.
      - apply negb_true_iff, not_true_is_false. rewrite Qle_bool_iff. by apply Qlt_not_le.
      - apply Qle_bool_iff. pose proof (Q_below_le _ _ _ HT Hnow) as Hle.
        apply (Qplus_le_l _ _ t0). rewrite Qplus_comm. eapply Qle_trans; [exact Hle|].
        unfold Qminus. rewrite <-Qplus_assoc, (Qplus_comm (- t0)), Qplus_opp_r, Qplus_0_r. apply Qle_refl. }
    simpl. destruct (nonEmpty (takeBack s)) eqn:En.
    + destruct (maxFlushRetries cfg <? retryCount s + 1) eqn:Er; bool_to_prop; [by split_and!|].
      unfold claimReady. simpl. rewrite En. simpl.
      assert (Qle_bool (inject_Z now) (inject_Z now) = true) as -> by (apply Qle_bool_iff, Qle_refl).
      simpl. by rewrite Ht, app_nil_r.
    + apply nonEmpty_false, app_eq_nil in En as [En _]. done.
  - pose proof (wf_processing s (sh_wf s Hs) Ep) as Hpt. pose proof (sh_idle s Hs Ep) as Hpe.
    assert (nonEmpty (texts s) = true) as Hn.
    { unfold hasBufferedWork in Hw. rewrite Hpt, Hpe, Ep in Hw. simpl in Hw. by rewrite !orb_false_r in Hw. }
    destruct (Q_below_Z (default 0%Q (flushAfterAt s))) as [T HT]. exists T. intros now u tok Hnow.
    unfold claimReady, takeBack. rewrite Hn, Hpt, Hpe. simpl.
    destruct (flushAfterAt s) as [f|]; simpl in *; [|done].
    pose proof (Q_below_le _ _ _ HT Hnow) as Hle. apply Qle_bool_iff in Hle. by rewrite Hle.
Qed.

(** What a claim answers for a buffer that [claim_eventually] is about. *)
Lemma claim_answer cfg now u tok s w :
  0 < now → shaped s → buffers w !! u = Some (printState s) →
  match claimFrom cfg now (stuckMs cfg) u tok s with
  | CGrant _ sn => sn_texts sn = takeBack s ++ texts s
  | CPersist s' => abandoned s' = true ∧ texts s' = takeBack s ∧ nonEmpty (texts s') = true
  | CNothing => False
  end →
  match claimReadyBuffer cfg goodEnv now u (stuckMs cfg) tok w with
  | (_, Resolve (Some sn)) => sn_texts sn = takeBack s ++ texts s
  | (w', Resolve None) => ∃ s', readState now u w' = inr s' ∧ abandoned s' = true ∧ texts s' = takeBack s
  | _ => False
  end.
Proof.
  intros Hnow Hsh Er HT.
  unfold claimReadyBuffer, withExternalUserIdLock, readThen, readState.
  cbn [goodEnv clientUp lockReply readOk negb]. rewrite Er, parse_printState by apply Hsh.
  destruct (claimFrom cfg now (stuckMs cfg) u tok s) as [|s'|s' sn] eqn:Ec; [done| |done].
  destruct HT as (Ha' & Ht' & Hn'). cbn. exists s'. split; [|done].
  pose proof (claimFrom_ok cfg now (stuckMs cfg) u tok s Hnow Hsh) as Hc. rewrite Ec in Hc.
  destruct Hc as [Hs' _]. rewrite applyWrite_busy by (unfold hasBufferedWork; by rewrite Hn'). simpl.
  rewrite lookup_insert_eq. by apply parse_printState, Hs'.
Qed.

(** C28. No buffered work is forgotten.  After any run of calls with positive clocks,
    with any faults and a stuck time that is not negative, a user whose buffer holds
    work that is not abandoned is in the active set.  If nothing else happens then,
    from some time on every poll without faults whose limit is at least the number of
    entries of the two sorted sets lists that user, and the claim that follows takes
    every text of the buffer, the interrupted batch first, or, when the retries are
    used up, retains them as abandoned.  A poll with a smaller limit (the caller's is
    25) returns the earliest entries only and is not covered. *)
Theorem buffered_work_is_found cfg es u :
  0 ≤ stuckMs cfg → Forall sane es →
  let w := run cfg es emptyRedis in
  ∀ s, readState 1 u w = inr s → hasBufferedWork s = true → abandoned s = false →
  u ∈ active w
  ∧ ∃ T, ∀ now limit envs tok, T ≤ now → (size (flush w) + size (stuck w) ≤ limit)%nat →
      ∃ us, (listReadyExternalUserIds cfg goodEnv envs now limit w).2 = Resolve us ∧ u ∈ us
      ∧ let w' := (listReadyExternalUserIds cfg goodEnv envs now limit w).1 in
        match claimReadyBuffer cfg goodEnv now u (stuckMs cfg) tok w' with
        | (_, Resolve (Some sn)) => sn_texts sn = takeBack s ++ texts s
        | (w'', Resolve None) => ∃ s', readState now u w'' = inr s' ∧ abandoned s' = true
                                       ∧ texts s' = takeBack s
        | _ => False
        end.
Proof.
  intros Hst Hs w s Hr Hw Ha.
  assert (Inv w) as Hi by by apply run_inv, Inv_empty. destruct (Hi u) as [Hd [Hfl Hsk]].
  unfold readState in Hr. destruct (buffers w !! u) as [r|] eqn:Er; [|by simplify_eq].
  destruct (Hd r Er) as (s0 & -> & Hsh & _ & Hsc). rewrite parse_printState in Hr by apply Hsh.
  simplify_eq. destruct (Hsc Ha) as [Hact Hidx]. split; [done|].
  assert (∃ q, (flush w !! u = Some q ∨ stuck w !! u = Some q) ∧ (0 <= q)%Q) as (q & Hq & Hq0).
  { destruct (processing s); destruct Hidx as [q Hq]; exists q; eauto. }
  destruct (Q_below_Z q) as [T1 HT1].
  destruct (claim_eventually cfg (stuckMs cfg) s Hsh Hw) as [T2 HT2].
  exists (Z.max 1 (Z.max T1 T2)). intros now limit envs tok Hnow Hlim.
  destruct (poll_spec cfg envs now limit w) as [Hb Hres].
  { destruct Hq as [Hq|Hq]; [left|right]; intros He; by rewrite He, lookup_empty in Hq. }
  eexists. split; [exact Hres|]. split.
  - apply list_elem_of_filter. split; [by rewrite Er|]. apply merge_complete.
    + pose proof (zrange_length (flush w) now limit). pose proof (zrange_length (stuck w) now limit). lia.
    + assert (∀ z, z !! u = Some q → (size z ≤ limit)%nat → u ∈ (zrangebyscore z now limit).*1) as Hz.
      { intros z Hz Hl. apply zrange_complete; [done|]. exists q. split_and!; try done.
        eapply Q_below_le; [done|lia]. }
      destruct Hq; [left|right]; apply Hz; (done || lia).
  - intros w'. apply claim_answer; [lia|done|subst w'; by rewrite Hb|].
    specialize (HT2 now u tok ltac:(lia)).
    by destruct (claimFrom cfg now (stuckMs cfg) u tok s); destruct_and?; split_and?.
Qed.

(** The worker stops with a batch in flight and a text behind it: the poll of the
    production limit lists the user, and the claim takes both
    texts in order, or gives them up when the retries are used up. *)
Lemma buffered_work_is_found_witness :
  let cfg := mkConfig 20 120000 3 in
  let i x k := mkAppend "u" x None None (Some k) 1500 in
  let es := [EAppend goodEnv 1000 (i "hello" "k1"); EClaim goodEnv 3000 "u" 120000 "t1";
             EAppend goodEnv 4000 (i "more" "k2")]%string in
  let w := run cfg es emptyRedis in
  "u"%string ∈ active w ∧ (size (flush w) + size (stuck w))%nat = 1%nat
  ∧ ∃ T, ∀ now envs, T ≤ now →
      ∃ us, (listReadyExternalUserIds cfg goodEnv envs now 25 w).2 = Resolve us ∧ "u"%string ∈ us
      ∧ let w' := (listReadyExternalUserIds cfg goodEnv envs now 25 w).1 in
        match claimReadyBuffer cfg goodEnv now "u" (stuckMs cfg) "t2" w' with
        | (_, Resolve (Some sn)) => sn_texts sn = ["hello"; "more"]%string
        | (w'', Resolve None) => ∃ s', readState now "u" w'' = inr s' ∧ abandoned s' = true ∧ texts s' = ["hello"; "more"]%string
        | _ => False
        end.
Proof.
  intros cfg i es w.
  destruct (readState 1 "u" w) as [e|s] eqn:Er; [vm_compute in Er; discriminate Er|].
  assert (takeBack s = ["hello"; "more"]%string ∧ texts s = []) as [E1 E2].
  { vm_compute in Er. injection Er as <-. split; reflexivity. }
  destruct (buffered_work_is_found cfg es "u" ltac:(done) ltac:(by repeat constructor) s Er) as [Ha [T HT]];
    [vm_compute in Er; by injection Er as <-..|].
  split_and!; [exact Ha|vm_compute; reflexivity|]. exists T. intros now envs Hnow.
  destruct (HT now 25%nat envs "t2"%string Hnow) as (us & E & Hu & Hc); [vm_compute; lia|].
  exists us. split_and!; [exact E|exact Hu|].
  rewrite E1, E2 in Hc. exact Hc.
Defined.

(** ** Repair *)

Lemma write_matches cfg now u s w :
  shaped s → hasBufferedWork s = true → abandoned s && processing s = false →
  indexMismatch u s (applyWrite cfg now u s w) = false.
Proof.
  intros Hs Hw Hap. rewrite applyWrite_busy by done. unfold indexMismatch, expectedFlush. simpl.
  rewrite (bool_decide_true (u ∈ _)) by set_solver. rewrite Hw. simpl.
  destruct (abandoned s) eqn:Ea, (processing s) eqn:Ep; simpl in *;
    rewrite ?lookup_insert_eq, ?lookup_delete_eq; simpl; try done.
  unfold hasBufferedWork in Hw. rewrite (wf_processing s (sh_wf s Hs) Ep), (sh_idle s Hs Ep), Ep in Hw.
  simpl in Hw. rewrite !orb_false_r in Hw. by rewrite Hw.
Qed.

(** The call without faults, in full. *)
Lemma reconcile_good cfg now u w :
  reconcileUser cfg goodEnv now u w
  = match buffers w !! u with
    | None => if hasIndexes u w
              then (zremStuck u (zremFlush u (sremActive u w)), mkOutcome true true false false)
              else (w, mkOutcome false false false false)
    | Some r => match parseState now r with
                | inl _ => (zremStuck u (zremFlush u (sremActive u
                              (mkRedis (delete u (buffers w)) (active w) (flush w) (stuck w)
                                 (quarantined w ++ [(u, r)])))), mkOutcome true false true true)
                | inr s => if indexMismatch u s w
                           then (applyWrite cfg now u s w, mkOutcome true true false false)
                           else (w, mkOutcome false false false false)
                end
    end.
Proof.
  unfold reconcileUser, withExternalUserIdLock, quarantineState, renameToQuarantine. simpl.
  destruct (buffers w !! u) as [r|]; simpl; [|by destruct (hasIndexes u w)].
  destruct (parseState now r) as [e|s]; simpl; [done|]. by destruct (indexMismatch u s w).
Qed.

(** Reconciliation repairs the indexes and loses no text.  Whatever the index
    sets hold: for a buffer the store wrote, that is not both abandoned and in
    flight, the call leaves every buffer as it is, makes the indexes what the
    buffer asks for, and the next call finds nothing to do; without a buffer it
    removes the dead entries; and a document that does not parse is moved, as it
    is, to quarantine and leaves the indexes. *)
Theorem reconcile_repairs cfg now now' u w :
  let w' := (reconcileUser cfg goodEnv now u w).1 in
  match buffers w !! u with
  | None => buffers w' = buffers w ∧ hasIndexes u w' = false
  | Some r =>
      match parseState now r with
      | inl _ => buffers w' = delete u (buffers w) ∧ hasIndexes u w' = false
                 ∧ quarantined w' = quarantined w ++ [(u, r)]
      | inr s => r = printState s → shaped s → hasBufferedWork s = true →
                 abandoned s && processing s = false →
                 buffers w' = buffers w ∧ indexMismatch u s w' = false
                 ∧ reconcileUser cfg goodEnv now' u w' = (w', mkOutcome false false false false)
      end
  end.
Proof.
  cbv zeta. rewrite (reconcile_good cfg now u w). destruct (buffers w !! u) as [r|] eqn:Er.
  - destruct (parseState now r) as [e|s] eqn:Ep.
    + split_and!; [done| |done]. unfold hasIndexes. simpl. rewrite !lookup_delete_eq.
      by rewrite (bool_decide_false (u ∈ _)) by set_solver.
    + intros -> Hs Hw Hap.
      assert (∀ w1, buffers w1 !! u = Some (printState s) → indexMismatch u s w1 = false →
        reconcileUser cfg goodEnv now' u w1 = (w1, mkOutcome false false false false)) as Hnext.
      { intros w1 Hb Hm. by rewrite reconcile_good, Hb, parse_printState, Hm by apply Hs. }
      destruct (indexMismatch u s w) eqn:Em; simpl; [|by auto].
      assert (buffers (applyWrite cfg now u s w) = buffers w) as Hb.
      { rewrite applyWrite_busy by done. by apply insert_id. }
      split_and!; [done|by apply write_matches|]. apply Hnext; [by rewrite Hb|by apply write_matches].
  - destruct (hasIndexes u w) eqn:Eh; simpl; [|done]. split; [done|].
    unfold hasIndexes. simpl. rewrite !lookup_delete_eq.
    by rewrite (bool_decide_false (u ∈ _)) by set_solver.
Qed.

(** A buffer whose batch is in flight, with its entries in the wrong sets. *)
Lemma reconcile_repairs_witness :
  let w := run demoConfig demoRun emptyRedis in
  let broken := mkRedis (buffers w) ∅ {["u"%string := 7%Q]} ∅ [] in
  (reconcileUser demoConfig goodEnv 300000 "u" broken).2 = mkOutcome true true false false
  ∧ buffers (reconcileUser demoConfig goodEnv 300000 "u" broken).1 = buffers w.
Proof.
  intros w broken. split; [vm_compute; reflexivity|].
  assert (∀ w0, Inv w0 →
    match readState 1 "u" w0 with inr s => abandoned s && processing s | inl _ => true end = false →
    buffers (reconcileUser demoConfig goodEnv 300000 "u"
               (mkRedis (buffers w0) ∅ {["u"%string := 7%Q]} ∅ [])).1 = buffers w0) as Hrep.
  { intros w0 Hi Hap. unfold readState in Hap.
    pose proof (reconcile_repairs demoConfig 300000 300001 "u"
      (mkRedis (buffers w0) ∅ {["u"%string := 7%Q]} ∅ [])) as H. cbv zeta in H. cbn [buffers] in H.
    destruct (buffers w0 !! "u"%string) as [r|] eqn:Er; [|exact (proj1 H)].
    destruct (Hi "u"%string) as [Hd _]. destruct (Hd r Er) as (s & -> & Hsh & Hw & _).
    rewrite parse_printState in H, Hap by apply Hsh. by apply H. }
  apply Hrep; [|vm_compute; reflexivity].
  apply (run_inv demoConfig); [simpl; lia|apply demoRun_sane|apply Inv_empty].
Defined.

(** ** Corner cases *)

(** [claimReadyBuffer] does not look at the abandoned flag: when two pods found
    the same stuck user, the second claim takes the batch the first one has just
    given up. *)
Definition twoPods : list Event :=
  [EAppend goodEnv 1000 (mkAppend "u" "hello" None None None 1500);
   EClaim goodEnv 3000 "u" 100 "t1"; EClaim goodEnv 4000 "u" 100 "t2";
   EClaim goodEnv 5000 "u" 100 "t3";      (* gives the batch up *)
   EClaim goodEnv 5001 "u" 100 "t4"].     (* takes it again *)

(** The batch is then in flight, marked abandoned, in neither sorted set: if that
    pod stops, no poll finds it, and reconciliation reports a repair each time
    without changing anything. *)
Lemma abandoned_batch_is_claimed_and_stranded :
  let cfg := mkConfig 20 100 1 in
  let w := run cfg twoPods emptyRedis in
  (buffered "u" w) = ([], Some ("t4", ["hello"]))%string
  ∧ flush w = ∅ ∧ stuck w = ∅
  ∧ (reconcileUser cfg goodEnv 9000 "u" w).2 = mkOutcome true true false false
  ∧ (let w' := (reconcileUser cfg goodEnv 9000 "u" w).1 in flush w' = ∅ ∧ stuck w' = ∅)
  ∧ (listReadyExternalUserIds cfg goodEnv (λ _, goodEnv) 900000 25 w).2 = Resolve [].
Proof. vm_compute. by split_and!. Qed.

(** A read that fails during rehydration quarantines a buffer that is sound. *)
Lemma failed_read_quarantines :
  let cfg := mkConfig 20 100 3 in
  let w := run cfg [EAppend goodEnv 1000 (mkAppend "u" "hello" None None None 1500)] emptyRedis in
  let w' := rehydrateOne cfg (mkEnv true LockOk false Applied None true) 2000 "u" w in
  buffered "u" w = (["hello"], None)%string ∧ buffers w' = ∅ ∧ length (quarantined w') = 1%nat.
Proof. vm_compute. by split_and!. Qed.

End RQPoll.
