(* ===== verification/RedisQueueFlush.v ===== *)
(** * Flushing a shared batch (packages/chat-agent, platform-chat-queue.service.ts)

    One [flushReady] of the queue service on the store: claim, revalidation of
    the account mapping, the pipeline, and what becomes of the batch.  The mapping
    provider, the pipeline and the fallback message are replies ([FlushReplies]);
    every call of the store has its own environment.  The store calls of the flush
    follow each other; what other pods do in between is the subject of the
    theorems on runs in [RedisQueueSpec]. *)

From S2P Require Import Prelude ChatPipeline RedisQueueState RedisQueue RedisQueueSpec.
Import RQState RQ RQSpec.

Module RQFlush.

Inductive MappingState := active_ | temporarily_unknown | confirmed_revoked | locally_unlinked.

(** What the provider resolves to: a number, undefined, or a state. *)
Inductive MappingReply :=
| MNumber (n : Z)
| MUndefined
| MState (st : MappingState) (userId : option Z).

Record Mapping := mkMapping { m_state : MappingState; m_userId : option Z }.

Definition normalizeFreshMapping (r : MappingReply) : Mapping :=
  match r with
  | MNumber n => mkMapping active_ (Some n)
  | MUndefined => mkMapping locally_unlinked None
  | MState st u => mkMapping st u
  end.

Inductive FlushOutcome := completed | retry_scheduled | deferred.

Record ServiceConfig := mkService {
  sv_debounceMs : Z;
  sv_processingStuckMs : Z;
  sv_retryEnabled : bool;
  sv_retryDelayMs : Z;
  sv_freshMapping : bool          (** [options.freshMappingProvider] is set *)
}.

(** [None] of a reply: the provider or the pipeline throws.  [r_fallback]: the error hook
    delivered the fallback message during this flush. *)
Record FlushReplies := mkReplies {
  r_mapping : option MappingReply;
  r_mapping2 : option MappingReply;
  r_pipeline : option Pipeline.ChatPipelineResult;
  r_fallback : bool
}.

(** Environment and clock of each store call in the body. *)
Abbreviation call := (Env * Z)%type.
Record Calls := mkCalls {
  c_claim : call;
  c_drop : call;       (** completion of a batch without mapping *)
  c_drop2 : call;      (** the same, at the second lookup *)
  c_defer : call;      (** retry at the first lookup *)
  c_defer2 : call;     (** retry after the second lookup *)
  c_retry : call;      (** retry in [handleFlush] *)
  c_complete : call
}.

Section Flush.
Context (cfg : Config) (sv : ServiceConfig).

(** [scheduleRetryForFailedBatch] for a claimed batch; errors are caught. *)
Definition scheduleRetryForFailedBatch (c : call) (u tok : string) (w : Redis)
  : Redis * FlushOutcome :=
  if negb (sv_retryEnabled sv) then (w, deferred)
  else match scheduleRetryFlush cfg c.1 c.2 u (sv_retryDelayMs sv) tok w with
       | (w', Resolve true) => (w', retry_scheduled)
       | (w', _) => (w', deferred)
       end.

(** The completion of this service; [false] when it throws. *)
Definition completeBatch (c : call) (u tok : string) (w : Redis) : Redis * bool :=
  match completeChatBuffer cfg c.1 c.2 u (sv_debounceMs sv) tok w with
  | (w', Throw) => (w', false)
  | (w', _) => (w', true)
  end.

Inductive MappingDecision := continue_ | deferred_ | dropped_ | throws_.

Definition applyFreshMapping (cDrop cDefer : call) (u tok : string) (m : Mapping) (w : Redis)
  : Redis * MappingDecision :=
  match m_state m, m_userId m with
  | temporarily_unknown, _ =>
      ((scheduleRetryForFailedBatch cDefer u tok w).1, deferred_)
  | active_, Some _ => (w, continue_)
  | _, _ => let '(w', ok) := completeBatch cDrop u tok w in (w', if ok then dropped_ else throws_)
  end.

(** One lookup with what follows; a lookup that throws leaves the store alone. *)
Definition revalidate (cDrop cDefer : call) (u tok : string) (r : option MappingReply) (w : Redis)
  : Redis * MappingDecision :=
  match r with
  | None => (w, throws_)
  | Some r => applyFreshMapping cDrop cDefer u tok (normalizeFreshMapping r) w
  end.

(** The revalidation: one retry, then the batch is deferred.  The boolean says
    whether the flush goes on. *)
Definition freshMapping (cs : Calls) (u tok : string) (rs : FlushReplies) (w : Redis) : Redis * bool :=
  if negb (sv_freshMapping sv) then (w, true)
  else match revalidate (c_drop cs) (c_defer cs) u tok (r_mapping rs) w with
       | (w1, continue_) => (w1, true)
       | (w1, throws_) =>
           match revalidate (c_drop2 cs) (c_defer2 cs) u tok (r_mapping2 rs) w1 with
           | (w2, continue_) => (w2, true)
           | (w2, throws_) => ((scheduleRetryForFailedBatch (c_defer2 cs) u tok w2).1, false)
           | (w2, _) => (w2, false)
           end
       | (w1, _) => (w1, false)
       end.

Definition handleFlush (c : call) (u tok : string) (rs : FlushReplies) (w : Redis)
  : Redis * FlushOutcome :=
  let retry := if r_fallback rs then (w, completed) else scheduleRetryForFailedBatch c u tok w in
  match r_pipeline rs with
  | Some Pipeline.Delivered | Some (Pipeline.Denied _ _) | Some Pipeline.Duplicate => (w, completed)
  | Some r => if Pipeline.isTerminalFlush r then (w, completed) else retry
  | None => retry
  end.

(** [flushReady]; [token] is the lease the claim would use.  The answer is the
    snapshot that was claimed. *)
Definition flushReady (cs : Calls) (u token : string) (rs : FlushReplies) (w : Redis)
  : Redis * option ChatQueueBufferSnapshot :=
  match claimReadyBuffer cfg (c_claim cs).1 (c_claim cs).2 u (sv_processingStuckMs sv) token w with
  | (w1, Resolve (Some sn)) =>
      let tok := sn_leaseToken sn in
      let '(w2, go) := freshMapping cs u tok rs w1 in
      if go then
        let '(w3, o) := handleFlush (c_retry cs) u tok rs w2 in
        (match o with completed => (completeBatch (c_complete cs) u tok w3).1 | _ => w3 end, Some sn)
      else (w2, Some sn)
  | (w1, _) => (w1, None)
  end.

(** ** A batch leaves the queue only when it was answered or has no account *)

(** The pipeline handled the batch, or the user got the fallback message. *)
Definition answered (rs : FlushReplies) : bool :=
  match r_pipeline rs with
  | Some r => Pipeline.isTerminalFlush r || r_fallback rs
  | None => r_fallback rs
  end.

(** A lookup found the account unlinked or revoked. *)
Definition noAccount (r : option MappingReply) : bool :=
  match r with
  | None => false
  | Some r => match m_state (normalizeFreshMapping r), m_userId (normalizeFreshMapping r) with
              | temporarily_unknown, _ | active_, Some _ => false
              | _, _ => true
              end
  end.

Definition mayDeliver (rs : FlushReplies) : bool :=
  answered rs || sv_freshMapping sv && (noAccount (r_mapping rs) || noAccount (r_mapping2 rs)).

Hypothesis stuckMs_nonneg : 0 ≤ stuckMs cfg.
Hypothesis delays_nonneg : 0 ≤ sv_debounceMs sv ∧ 0 ≤ sv_retryDelayMs sv.

(** The ways a claimed batch may be settled. *)
Definition settled (tok : string) (may : bool) (ls : list Label) : Prop :=
  ls = [] ∨ ls = [LTakeBack tok] ∨ ls = [LDeliver tok] ∧ may = true.

Lemma retry_op c u tok w may :
  0 < c.2 → Inv w →
  ∃ ls, settled tok may ls ∧ op_ok cfg u w (scheduleRetryForFailedBatch c u tok w).1 ls.
Proof.
  intros Hc Hi. unfold scheduleRetryForFailedBatch.
  destruct (sv_retryEnabled sv); simpl; [|exists []; split; [by left|by apply op_ok_refl]].
  destruct (scheduleRetryFlush cfg c.1 c.2 u (sv_retryDelayMs sv) tok w) as [w' r] eqn:E.
  eapply (settle_step cfg stuckMs_nonneg _ _ _ _ (LTakeBack tok)) in E as (ls & _ & Hls & Hok); try done;
    [|intros; apply retryFrom_ok; try done; apply delays_nonneg].
  exists ls. split; [unfold settled; tauto|]. by destruct r as [[]| |].
Qed.

Lemma complete_op c u tok w :
  0 < c.2 → Inv w →
  ∃ ls, settled tok true ls ∧ op_ok cfg u w (completeBatch c u tok w).1 ls.
Proof.
  intros Hc Hi. unfold completeBatch.
  destruct (completeChatBuffer cfg c.1 c.2 u (sv_debounceMs sv) tok w) as [w' r] eqn:E.
  eapply (settle_step cfg stuckMs_nonneg _ _ _ _ (LDeliver tok)) in E as (ls & _ & Hls & Hok); try done;
    [|intros; apply completeFrom_ok; try done; apply delays_nonneg].
  exists ls. split; [unfold settled; tauto|]. by destruct r.
Qed.

(** A batch is settled once: after that its lease is gone. *)
Lemma settled_twice u tok may w1 w2 w3 ls1 ls2 :
  settled tok may ls1 → settled tok may ls2 → op_ok cfg u w1 w2 ls1 → op_ok cfg u w2 w3 ls2 →
  ∃ ls, settled tok may ls ∧ op_ok cfg u w1 w3 ls.
Proof.
  intros [->|H1] H2 O1 O2; pose proof (op_ok_trans _ _ _ _ _ _ _ O1 O2) as O.
  { by exists ls2. }
  destruct H2 as [->|H2]; [exists ls1; rewrite app_nil_r in O; split; [by right|done]|].
  exfalso. destruct O as [_ _ Ht].
  destruct (Ht (mkQueue (buffered u w1).1 (buffered u w1).2 [] [] [] [])) as (q & Hq & _);
    [by destruct (buffered u w1)|].
  assert (∃ l1 l2, ls1 = [l1] ∧ ls2 = [l2] ∧ (l1 = LTakeBack tok ∨ l1 = LDeliver tok)
    ∧ (l2 = LTakeBack tok ∨ l2 = LDeliver tok)) as (l1 & l2 & -> & -> & E1 & E2).
  { destruct H1 as [->|[-> _]], H2 as [->|[-> _]]; eauto 10. }
  inversion Hq as [|? ? ? q1 ? Hs1 Hq1]; subst. inversion Hq1 as [|? ? ? q2 ? Hs2 _]; subst.
  destruct E1 as [-> | ->], E2 as [-> | ->]; inversion Hs1; subst; inversion Hs2; subst; simpl in *; done.
Qed.

Definition calls_ok (cs : Calls) : Prop :=
  0 < (c_claim cs).2 ∧ 0 < (c_drop cs).2 ∧ 0 < (c_drop2 cs).2 ∧ 0 < (c_defer cs).2
  ∧ 0 < (c_defer2 cs).2 ∧ 0 < (c_retry cs).2 ∧ 0 < (c_complete cs).2.

Lemma settled_weaken tok b b' ls : settled tok b ls → (b = true → b' = true) → settled tok b' ls.
Proof. unfold settled. tauto. Qed.

Lemma revalidate_op c1 c2 u tok r w :
  0 < c1.2 → 0 < c2.2 → Inv w →
  ∃ ls, settled tok (noAccount r) ls ∧ op_ok cfg u w (revalidate c1 c2 u tok r w).1 ls.
Proof.
  intros H1 H2 Hi. destruct r as [r|]; simpl; [|exists []; split; [by left|by apply op_ok_refl]].
  destruct (complete_op c1 u tok w H1 Hi) as (ls & Hs & Ho).
  unfold applyFreshMapping. destruct (completeBatch c1 u tok w) as [w' ok]. simpl in Ho.
  destruct (m_state (normalizeFreshMapping r)), (m_userId (normalizeFreshMapping r)); simpl; try by eauto.
  - exists []. split; [by left|by apply op_ok_refl].
  - by apply retry_op.
  - by apply retry_op.
Qed.

Lemma freshMapping_op cs u tok rs w :
  calls_ok cs → Inv w →
  ∃ ls, settled tok (sv_freshMapping sv && (noAccount (r_mapping rs) || noAccount (r_mapping2 rs))) ls
        ∧ op_ok cfg u w (freshMapping cs u tok rs w).1 ls.
Proof.
  intros (_ & C2 & C3 & C4 & C5 & _) Hi. unfold freshMapping.
  destruct (sv_freshMapping sv); simpl; [|exists []; split; [by left|by apply op_ok_refl]].
  destruct (revalidate_op (c_drop cs) (c_defer cs) u tok (r_mapping rs) w C2 C4 Hi) as (ls1 & S1 & O1).
  destruct (revalidate _ _ u tok (r_mapping rs) w) as [w1 d1]. simpl in O1.
  apply (settled_weaken _ _ (noAccount (r_mapping rs) || noAccount (r_mapping2 rs))) in S1;
    [|by intros ->].
  assert (Inv w1) as Hi1 by apply O1. destruct d1; simpl; try by eauto.
  destruct (revalidate_op (c_drop2 cs) (c_defer2 cs) u tok (r_mapping2 rs) w1 C3 C5 Hi1) as (ls2 & S2 & O2).
  destruct (revalidate _ _ u tok (r_mapping2 rs) w1) as [w2 d2]. simpl in O2.
  apply (settled_weaken _ _ (noAccount (r_mapping rs) || noAccount (r_mapping2 rs))) in S2;
    [|intros ->; apply orb_true_r].
  destruct (settled_twice _ _ _ _ _ _ _ _ S1 S2 O1 O2) as (ls & S12 & O12).
  destruct d2; simpl; try by eauto.
  destruct (retry_op (c_defer2 cs) u tok w2 (noAccount (r_mapping rs) || noAccount (r_mapping2 rs)) C5)
    as (ls3 & S3 & O3); [apply O12|]. eapply (settled_twice _ _ _ _ _ _ _ _ S12 S3 O12 O3).
Qed.

Lemma handleFlush_op c u tok rs w :
  0 < c.2 → Inv w →
  ∃ ls, settled tok false ls ∧ op_ok cfg u w (handleFlush c u tok rs w).1 ls
        ∧ ((handleFlush c u tok rs w).2 = completed → answered rs = true).
Proof.
  intros Hc Hi. destruct (retry_op c u tok w false Hc Hi) as (ls & Hs & Ho).
  assert ((scheduleRetryForFailedBatch c u tok w).2 ≠ completed) as Hn.
  { unfold scheduleRetryForFailedBatch. by repeat case_match. }
  unfold handleFlush, answered.
  destruct (r_pipeline rs) as [[]|], (r_fallback rs); simpl;
    (exists ls; split_and!; [done..|by intros]) || (exists []; split_and!; [by left|by apply op_ok_refl|done]).
Qed.

(** What one flush does to the queue of its user. *)
Lemma flushReady_op cs u tok rs w :
  calls_ok cs → Inv w →
  match flushReady cs u tok rs w with
  | (w', Some sn) =>
      sn_leaseToken sn = tok
      ∧ ∃ ls0 ls, takeBacks ls0 ∧ settled tok (mayDeliver rs) ls
                  ∧ op_ok cfg u w w' ((ls0 ++ [LClaim tok (sn_texts sn)]) ++ ls)
  | (w', None) => ∃ ls, (∀ l, LDeliver l ∉ ls) ∧ op_ok cfg u w w' ls
  end.
Proof.
  intros Hcs Hi. pose proof Hcs as (C1 & _ & _ & _ & _ & C6 & C7). unfold flushReady.
  destruct (claim_step_ok cfg stuckMs_nonneg (c_claim cs).1 (c_claim cs).2 u (sv_processingStuckMs sv) tok w C1 Hi)
    as (ls1 & Hx & O1).
  destruct (claimReadyBuffer cfg _ _ u _ tok w) as [w1 [[sn|]| |]]; simpl in Hx, O1;
    try (exists ls1; split; [|done]; intros l; destruct Hx as [[->|(? & ->)]|(ls0 & b & [->|(? & ->)] & ->)]; set_solver).
  destruct Hx as (Htok & ls0 & Htb & ->). rewrite Htok.
  destruct (freshMapping_op cs u tok rs w1 Hcs) as (ls2 & S2 & O2); [apply O1|].
  destruct (freshMapping cs u tok rs w1) as [w2 go]. simpl in O2.
  apply (settled_weaken _ _ (mayDeliver rs)) in S2; [|unfold mayDeliver; intros ->; apply orb_true_r].
  destruct go; [|split; [done|]; exists ls0, ls2; split_and!; [done|done|]; by eapply op_ok_trans].
  destruct (handleFlush_op (c_retry cs) u tok rs w2 C6) as (ls3 & S3 & O3 & Hans); [apply O2|].
  destruct (handleFlush (c_retry cs) u tok rs w2) as [w3 o]. simpl in O3, Hans.
  apply (settled_weaken _ _ (mayDeliver rs)) in S3; [|done].
  destruct (settled_twice _ _ _ _ _ _ _ _ S2 S3 O2 O3) as (ls & S & O).
  split; [done|].
  destruct o; try (exists ls0, ls; split_and!; [done|done|]; by eapply op_ok_trans).
  destruct (complete_op (c_complete cs) u tok w3 C7) as (ls4 & S4 & O4); [apply O3|].
  apply (settled_weaken _ _ (mayDeliver rs)) in S4; [|unfold mayDeliver; by rewrite Hans].
  destruct (settled_twice _ _ _ _ _ _ _ _ S S4 O O4) as (ls5 & S5 & O5).
  exists ls0, ls5. split_and!; [done|done|]. by eapply op_ok_trans.
Qed.

(** A flush takes a batch out of the shared queue only when it was answered.
    After any run of the store, one flush of a user, whatever the mapping
    provider, the pipeline and the server reply: if it claimed a batch, the batch is
    then delivered, put back, or still in flight under this flush's lease; it is
    delivered at most once, and only if the pipeline handled it, or the fallback
    message reached the user, or a lookup found that the account is no longer
    linked.  A flush that claims nothing delivers nothing. *)
Theorem flush_delivers_only_answered es cs u tok rs :
  Forall sane es → calls_ok cs →
  let w := run cfg es emptyRedis in
  match flushReady cs u tok rs w with
  | (w', Some sn) =>
      sn_leaseToken sn = tok
      ∧ ∃ ls0 ls, takeBacks ls0
          ∧ (ls = [] ∨ ls = [LTakeBack tok] ∨ ls = [LDeliver tok] ∧ mayDeliver rs = true)
          ∧ trans cfg ((ls0 ++ [LClaim tok (sn_texts sn)]) ++ ls) (buffered u w) (buffered u w')
  | (w', None) => ∃ ls, (∀ l, LDeliver l ∉ ls) ∧ trans cfg ls (buffered u w) (buffered u w')
  end.
Proof.
  intros Hs Hcs w. assert (Inv w) as Hi by by apply run_inv, Inv_empty.
  pose proof (flushReady_op cs u tok rs w Hcs Hi) as H.
  destruct (flushReady cs u tok rs w) as [w' [sn|]].
  - destruct H as (Ht & ls0 & ls & Htb & Hset & [_ _ Ho]). split; [done|]. by exists ls0, ls.
  - destruct H as (ls & Hn & [_ _ Ho]). by exists ls.
Qed.

(** With its lease and a server that answers, a completion takes the batch out. *)
Lemma complete_delivers u tok b wt w now :
  0 < now → Inv w → buffered u w = (wt, Some (tok, b)) →
  buffered u (completeBatch (goodEnv, now) u tok w).1 = (wt, None).
Proof.
  intros Hnow Hi Hb. unfold completeBatch, completeChatBuffer, settleLease, withExternalUserIdLock, readThen.
  cbn [goodEnv clientUp lockReply readOk negb fst snd].
  destruct (readState_ok now u w Hi Hnow) as (s & -> & Hs & Hv). rewrite Hb in Hv. unfold viewOf in Hv.
  destruct (processing s) eqn:Ep; [|done].
  destruct (processingLeaseToken s) as [| | |l| |] eqn:El; simplify_eq.
  unfold completeFrom. assert (holdsLease tok s = true) as ->.
  { unfold holdsLease. rewrite Ep, El. by rewrite bool_decide_true. }
  cbn. apply applyWrite_ok; try done. apply resetToReady_shaped; [done|lia|].
  intros x. case_match; [|done]. intros [= <-]. apply inject_nonneg.
  pose proof delays_nonneg. lia.
Qed.

(** An answered batch is taken out.  When the claim is granted, the pipeline's
    result counts as handled (or the fallback message went out), the account is
    active or not looked up, and the server answers, then after the flush the
    batch is gone. *)
Theorem flush_completes_answered es cs u tok rs sn w1 :
  Forall sane es → calls_ok cs →
  let w := run cfg es emptyRedis in
  claimReadyBuffer cfg (c_claim cs).1 (c_claim cs).2 u (sv_processingStuckMs sv) tok w
    = (w1, Resolve (Some sn)) →
  answered rs = true → (c_complete cs).1 = goodEnv →
  (sv_freshMapping sv = true → ∃ n, r_mapping rs = Some (MNumber n)) →
  buffered u w1 = ([], Some (tok, sn_texts sn))
  ∧ buffered u (flushReady cs u tok rs w).1 = ([], None).
Proof.
  intros Hs (C1 & _ & _ & _ & _ & C6 & C7) w Hclaim Hans Hgood Hmap.
  assert (Inv w) as Hi by by apply run_inv, Inv_empty.
  destruct (claim_step_ok cfg stuckMs_nonneg (c_claim cs).1 (c_claim cs).2 u (sv_processingStuckMs sv) tok w C1 Hi)
    as (ls1 & Hx & [Hi1 _ Ht]). rewrite Hclaim in Hx, Hi1, Ht. simpl in Hx, Hi1, Ht.
  destruct Hx as (Htok & ls0 & Htb & ->).
  assert (buffered u w1 = ([], Some (tok, sn_texts sn))) as Hb.
  { destruct (Ht (mkQueue (buffered u w).1 (buffered u w).2 [] [] [] [])) as (q & Hq & <-);
      [by destruct (buffered u w)|].
    assert (∃ q1, qsteps cfg [LClaim tok (sn_texts sn)] q1 q) as [q1 Hq1].
    { destruct Htb as [->|(l & ->)]; [by eexists|]. inv Hq. by eexists. }
    inversion Hq1 as [|? ? ? ? ? Hc Hnil]; subst. inversion Hnil; subst. by inversion Hc; subst. }
  split; [done|]. unfold flushReady. rewrite Hclaim, Htok.
  assert (freshMapping cs u tok rs w1 = (w1, true)) as ->.
  { unfold freshMapping. destruct (sv_freshMapping sv); [|done]. simpl.
    by destruct (Hmap eq_refl) as [n ->]. }
  assert (handleFlush (c_retry cs) u tok rs w1 = (w1, completed)) as ->.
  { unfold handleFlush, answered in *. destruct (r_pipeline rs) as [[]|]; simpl in *; by rewrite ?Hans. }
  simpl. destruct (c_complete cs) as [env now]. simpl in *. subst env.
  by eapply complete_delivers.
Qed.

End Flush.

Definition demoService : ServiceConfig := mkService 1500 120000 true 5000 true.
Definition demoCalls : Calls :=
  let c := (goodEnv, 3000) in mkCalls c c c c c c c.

(** The pipeline throws and no fallback reaches the user: the batch is put back. *)
Lemma flush_delivers_only_answered_witness :
  let rs := mkReplies (Some (MNumber 7)) None None false in
  let w := run demoConfig [EAppend goodEnv 1000 demoAppend] emptyRedis in
  let w' := (flushReady demoConfig demoService demoCalls "u" "t1" rs w).1 in
  buffered "u" w' = (["hello"%string], None)
  ∧ ∃ sn, (flushReady demoConfig demoService demoCalls "u" "t1" rs w).2 = Some sn
          ∧ sn_leaseToken sn = "t1"%string.
Proof.
  cbv zeta. split; [vm_compute; reflexivity|].
  assert (is_Some (flushReady demoConfig demoService demoCalls "u" "t1"
    (mkReplies (Some (MNumber 7)) None None false)
    (run demoConfig [EAppend goodEnv 1000 demoAppend] emptyRedis)).2) as Hsome
    by (vm_compute; eauto).
  pose proof (flush_delivers_only_answered demoConfig demoService ltac:(simpl; lia) ltac:(simpl; lia)
    [EAppend goodEnv 1000 demoAppend] demoCalls "u" "t1" (mkReplies (Some (MNumber 7)) None None false)
    ltac:(by repeat constructor) ltac:(unfold calls_ok; simpl; lia)) as H.
  cbv zeta in H.
  destruct (flushReady _ _ _ _ _ _ _) as [w' [sn|]].
  - exists sn. split; [reflexivity|exact (proj1 H)].
  - destruct Hsome as [? ?]. discriminate.
Defined.

Lemma flush_completes_answered_witness :
  let rs := mkReplies (Some (MNumber 7)) None (Some Pipeline.Delivered) false in
  let w := run demoConfig [EAppend goodEnv 1000 demoAppend] emptyRedis in
  buffered "u" (flushReady demoConfig demoService demoCalls "u" "t1" rs w).1 = ([], None).
Proof.
  intros rs w.
  refine (proj2 (flush_completes_answered demoConfig demoService ltac:(simpl; lia) ltac:(simpl; lia)
    [EAppend goodEnv 1000 demoAppend] demoCalls "u" "t1" rs
    (snapshotOf "u" "t1" (match readState 1 "u" w with inr s => s | inl _ => emptyState 0 end))
    (claimReadyBuffer demoConfig goodEnv 3000 "u" 120000 "t1" w).1 _ _ _ _ _ _)).
  - by repeat constructor.
  - unfold calls_ok; simpl; lia.
  - vm_compute. reflexivity.
  - reflexivity.
  - reflexivity.
  - intros _. by exists 7.
Defined.

End RQFlush.
