(* ===== verification/RescheduleStore.v ===== *)
(** * The stores of the reschedule confirmation (packages/reschedule-confirm)

    A learner's request to move a study session is staged, confirmed by an
    approval token and written to the calendar.  Two tables carry the state: one
    slot per learner with the staged request (typeorm-reschedule-store.ts) and
    one record per approval token of an attempted write
    (typeorm-reschedule-attempt-store.ts).  This file models the statements of
    both stores, the in-process stores of reschedule-store.port.ts and
    reschedule-attempt.port.ts, and the transitions of a confirmation's
    notification, which are shared by both attempt stores through the type
    class [AttemptStore]. *)

From S2P Require Import Prelude Table QuotaRepository.

Module RStore.

Inductive SchedulingMode := default_next_day_same_time | explicit.

#[export] Instance mode_eq_dec : EqDecision SchedulingMode.
Proof. solve_decision. Defined.

(** [PendingRescheduleRecord]; the external id is the platform's own id. *)
Record Pending := mkPending {
  pr_ext : string;
  pr_user : Z;
  pr_calendar : Z;
  pr_mode : SchedulingMode;
  pr_date : option string;
  pr_time : option string;
  pr_label : string;
  pr_expires : Z;
  pr_lease : option string;
  pr_tool : option string;
  pr_platform : option string;
  pr_mapping : option string;
  pr_intent : option string;
  pr_args : option string;
  pr_nonce : option string
}.

(** [RescheduleApprovalBinding]. *)
Record Binding := mkBinding {
  b_platform : option string;
  b_mapping : option string;
  b_intent : option string;
  b_args : option string;
  b_nonce : option string
}.

Inductive CancellationOutcome := cancelled_outcome | none_outcome | processing_outcome
                               | expired_outcome.

Inductive PendingState := st_pending | st_processing | st_expired | st_none.

#[export] Instance state_eq_dec : EqDecision PendingState.
Proof. solve_decision. Defined.

(** ** The table of staged requests (RescheduleConfirmationEntity) *)

Inductive RowStatus := pending | processing | confirmed | cancelled.

#[export] Instance row_status_eq_dec : EqDecision RowStatus.
Proof. solve_decision. Defined.

Record Row := mkRow {
  id : Z;
  key : string;
  tool : string;
  platform : string;
  user : Z;
  mapping : string;
  intent : string;
  args : string;
  nonce : string;
  calendar : Z;
  mode : SchedulingMode;
  date : option string;
  time : option string;
  label : string;
  status : RowStatus;
  expires : Z;
  lease : option string;
  started : option Z
}.

Definition TOOL_NAME : string := "reschedule_study_session".
Definition PENDING_TTL_MS : Z := 600000.

(** [key]: the platform-scoped storage key. *)
Definition keyOf (p ext : string) : string := p +:+ ":" +:+ ext.

Definition at_key (k : string) (r : Row) : bool := bool_decide (key r = k).
Definition has_status (s : RowStatus) (r : Row) : bool := bool_decide (status r = s).

(** The values [save] inserts; [uuid] is the fallback [randomUUID()]. *)
Definition newRow (p uuid : string) (rowId : Z) (x : Pending) : Row :=
  {| id := rowId; key := keyOf p (pr_ext x);
     tool := nullish (pr_tool x) TOOL_NAME;
     platform := nullish (pr_platform x) p;
     user := pr_user x;
     mapping := nullish (pr_mapping x) ("legacy:" +:+ Quota.print_int (pr_user x));
     intent := nullish (pr_intent x) "";
     args := nullish (pr_args x) "";
     nonce := nullish (pr_nonce x) uuid;
     calendar := pr_calendar x; mode := pr_mode x; date := pr_date x; time := pr_time x;
     label := pr_label x; status := pending; expires := pr_expires x;
     lease := None; started := None |}.

(** [ON CONFLICT DO UPDATE SET]: the id, the lease and the start time stay. *)
Definition overwrite (new old : Row) : Row :=
  {| id := id old; key := key old; tool := tool new; platform := platform new;
     user := user new; mapping := mapping new; intent := intent new; args := args new;
     nonce := nonce new; calendar := calendar new; mode := mode new; date := date new;
     time := time new; label := label new; status := pending; expires := expires new;
     lease := lease old; started := started old |}.

(** [save]: true when the row was written; a row in flight is not replaced. *)
Definition save (p uuid : string) (rowId : Z) (x : Pending) (t : list Row) : list Row * bool :=
  let new := newRow p uuid rowId x in
  let '(t', r) := tbl_upsert (at_key (key new)) (λ r, negb (has_status processing r))
                    (overwrite new) new t in
  (t', bool_decide (is_Some r)).

Definition opt_match (v : option string) (c : string) : bool :=
  match v with Some x => bool_decide (c = x) | None => true end.

(** The WHERE clause of [takeValid]. *)
Definition takeable (p ext : string) (u : option Z) (b : Binding) (now : Z) (r : Row) : bool :=
  at_key (keyOf p ext) r && has_status pending r && (now <? expires r)
  && match u with Some x => user r =? x | None => true end
  && opt_match (b_platform b) (platform r) && opt_match (b_mapping b) (mapping r)
  && opt_match (b_intent b) (intent r) && opt_match (b_args b) (args r)
  && opt_match (b_nonce b) (nonce r).

Definition set_state (s : RowStatus) (l : option string) (st : option Z) (e : Z) (r : Row) : Row :=
  {| id := id r; key := key r; tool := tool r; platform := platform r; user := user r;
     mapping := mapping r; intent := intent r; args := args r; nonce := nonce r;
     calendar := calendar r; mode := mode r; date := date r; time := time r; label := label r;
     status := s; expires := e; lease := l; started := st |}.

Definition claimRow (token : string) (now : Z) (r : Row) : Row :=
  set_state processing (Some token) (Some now) (expires r) r.

(** [stripKeyPrefix]. *)
Definition stripKeyPrefix (p k : string) : string :=
  let prefix := p +:+ ":" in
  if String.prefix prefix k
  then String.substring (String.length prefix) (String.length k - String.length prefix) k
  else k.

(** [mapRow]; the columns it reads are not null. *)
Definition mapRow (p : string) (r : Row) : Pending :=
  {| pr_ext := stripKeyPrefix p (key r); pr_user := user r; pr_calendar := calendar r;
     pr_mode := mode r; pr_date := date r; pr_time := time r; pr_label := label r;
     pr_expires := expires r; pr_lease := lease r; pr_tool := Some (tool r);
     pr_platform := Some (platform r); pr_mapping := Some (mapping r);
     pr_intent := Some (intent r); pr_args := Some (args r); pr_nonce := Some (nonce r) |}.

(** [takeValid]; [token] is the fresh lease. *)
Definition takeValid (p ext : string) (u : option Z) (b : Binding) (token : string) (now : Z)
    (t : list Row) : list Row * option Pending :=
  let sel := takeable p ext u b now in
  (tbl_update sel (claimRow token now) t,
   (λ r, mapRow p (claimRow token now r)) <$> head (tbl_select sel t)).

(** Rows a lease owns. *)
Definition leased (k token : string) (r : Row) : bool :=
  at_key k r && has_status processing r && bool_decide (lease r = Some token).

Definition rearm (now : Z) (r : Row) : Row :=
  set_state pending None None (now + PENDING_TTL_MS) r.

Definition revertToPending (p ext token : string) (now : Z) (t : list Row) : list Row :=
  tbl_update (leased (keyOf p ext) token) (rearm now) t.

Definition nonce_is (n : option string) (r : Row) : bool := opt_match n (nonce r).

Definition cancelPending (p ext : string) (n : option string) (t : list Row)
  : list Row * CancellationOutcome :=
  let sel r := at_key (keyOf p ext) r && negb (has_status processing r) && nonce_is n r in
  if tbl_exists sel t then (tbl_delete sel t, cancelled_outcome)
  else (t, if tbl_exists (λ r, at_key (keyOf p ext) r && has_status processing r && nonce_is n r) t
           then processing_outcome else none_outcome).

Definition cancelClaimed (p ext token : string) (t : list Row) : list Row :=
  tbl_delete (leased (keyOf p ext) token) t.

(** [listStaleProcessing]: the oldest 200 rows; ids are assigned in insertion
    order, so the table is in id order.  The external id it returns is the
    stored key. *)
Definition stale (staleAfterMs now : Z) (r : Row) : bool :=
  has_status processing r && bool_decide (is_Some (lease r))
  && match started r with Some s => s <? now - staleAfterMs | None => false end.

Definition listStaleProcessing (staleAfterMs now : Z) (t : list Row) : list (Z * string * string) :=
  take 200 ((λ r, (id r, key r, nonce r)) <$> tbl_select (stale staleAfterMs now) t).

Definition in_flight (rowId : Z) (r : Row) : bool := (id r =? rowId) && has_status processing r.

Definition revertStaleRow (rowId now : Z) (t : list Row) : list Row :=
  tbl_update (in_flight rowId) (rearm now) t.

Definition cancelStaleRow (rowId : Z) (t : list Row) : list Row :=
  tbl_update (in_flight rowId) (λ r, set_state cancelled None None (expires r) r) t.

(** [getPendingState]: the read, and the guarded delete it issues for an expired
    row; in a bot the two statements may be apart. *)
Definition readPendingState (p ext : string) (now : Z) (t : list Row) : PendingState :=
  match head (tbl_select (at_key (keyOf p ext)) t) with
  | None => st_none
  | Some r =>
      match status r with
      | processing => st_processing
      | pending => if expires r <=? now then st_expired else st_pending
      | _ => st_none
      end
  end.

Definition deleteExpired (k : string) (now : Z) (t : list Row) : list Row :=
  tbl_delete (λ r, at_key k r && has_status pending r && (expires r <=? now)) t.

Definition getPendingState (p ext : string) (now : Z) (t : list Row) : list Row * PendingState :=
  match readPendingState p ext now t with
  | st_expired => (deleteExpired (keyOf p ext) now t, st_expired)
  | s => (t, s)
  end.

Definition hasPending (p ext : string) (now : Z) (t : list Row) : list Row * bool :=
  let '(t', s) := getPendingState p ext now t in (t', bool_decide (s = st_pending)).

(** ** The in-process store (MemoryRescheduleStore) *)

Definition MAX_PENDING : Z := 10000.

Record MemoryEntry := mkEntry { record : Pending; claimed : bool }.

Definition Memory : Type := list (string * MemoryEntry).

Definition live (now : Z) (e : string * MemoryEntry) : bool :=
  claimed e.2 || negb (pr_expires (record e.2) <=? now).

Definition prune (now : Z) (m : Memory) : Memory := filter (λ e, live now e = true) m.

(** The oldest entry that is not claimed. *)
Definition oldestEvictable (m : Memory) : option string :=
  fst <$> head (filter (λ e, claimed e.2 = false) m).

Definition memSave (now : Z) (x : Pending) (m : Memory) : Memory * bool :=
  let k := pr_ext x in
  match jm_get k m with
  | Some e => if claimed e then (m, false) else (jm_set k (mkEntry x false) m, true)
  | None =>
      let m1 := prune now m in
      if MAX_PENDING <=? Z.of_nat (length m1) then
        match oldestEvictable m1 with
        | None => (m1, false)
        | Some k' => (jm_set k (mkEntry x false) (jm_del k' m1), true)
        end
      else (jm_set k (mkEntry x false) m1, true)
  end.

(** A truthy binding field must match. *)
Definition memMatch (v c : option string) : bool :=
  match v with
  | Some x => bool_decide (x = "") || bool_decide (c = Some x)
  | None => true
  end.

Definition with_lease (token : string) (x : Pending) : Pending :=
  {| pr_ext := pr_ext x; pr_user := pr_user x; pr_calendar := pr_calendar x; pr_mode := pr_mode x;
     pr_date := pr_date x; pr_time := pr_time x; pr_label := pr_label x;
     pr_expires := pr_expires x; pr_lease := Some token; pr_tool := pr_tool x;
     pr_platform := pr_platform x; pr_mapping := pr_mapping x; pr_intent := pr_intent x;
     pr_args := pr_args x; pr_nonce := pr_nonce x |}.

Definition with_expiry (t : Z) (x : Pending) : Pending :=
  {| pr_ext := pr_ext x; pr_user := pr_user x; pr_calendar := pr_calendar x; pr_mode := pr_mode x;
     pr_date := pr_date x; pr_time := pr_time x; pr_label := pr_label x;
     pr_expires := t; pr_lease := pr_lease x; pr_tool := pr_tool x;
     pr_platform := pr_platform x; pr_mapping := pr_mapping x; pr_intent := pr_intent x;
     pr_args := pr_args x; pr_nonce := pr_nonce x |}.

Definition memTakeValid (now : Z) (ext : string) (u : option Z) (b : option Binding)
    (token : string) (m : Memory) : Memory * option Pending :=
  match jm_get ext m with
  | None => (m, None)
  | Some e =>
      if claimed e then (m, None)
      else if pr_expires (record e) <=? now then (jm_del ext m, None)
      else if match u with Some x => negb (pr_user (record e) =? x) | None => false end
      then (m, None)
      else if match b with
              | Some b =>
                  memMatch (b_platform b) (pr_platform (record e))
                  && memMatch (b_mapping b) (pr_mapping (record e))
                  && memMatch (b_intent b) (pr_intent (record e))
                  && memMatch (b_args b) (pr_args (record e))
                  && memMatch (b_nonce b) (pr_nonce (record e))
              | None => true
              end
      then let x := with_lease token (record e) in (jm_set ext (mkEntry x true) m, Some x)
      else (m, None)
  end.

Definition owns (token : string) (e : MemoryEntry) : bool :=
  claimed e && bool_decide (pr_lease (record e) = Some token).

Definition memRevertToPending (now : Z) (ext token : string) (m : Memory) : Memory :=
  match jm_get ext m with
  | Some e => if owns token e
              then jm_set ext (mkEntry (with_expiry (now + PENDING_TTL_MS) (record e)) false) m
              else m
  | None => m
  end.

Definition memCancelPending (now : Z) (ext : string) (n : option string) (m : Memory)
  : Memory * CancellationOutcome :=
  match jm_get ext m with
  | None => (m, none_outcome)
  | Some e =>
      if claimed e then (m, processing_outcome)
      else if match n with Some x => negb (bool_decide (pr_nonce (record e) = Some x)) | None => false end
      then (m, none_outcome)
      else (jm_del ext m,
            if pr_expires (record e) <=? now then none_outcome else cancelled_outcome)
  end.

Definition memCancelClaimed (ext token : string) (m : Memory) : Memory :=
  match jm_get ext m with
  | Some e => if owns token e then jm_del ext m else m
  | None => m
  end.

Definition memGetPendingState (now : Z) (ext : string) (m : Memory) : Memory * PendingState :=
  match jm_get ext m with
  | None => (m, st_none)
  | Some e =>
      if claimed e then (m, st_processing)
      else if pr_expires (record e) <=? now then (jm_del ext m, st_expired) else (m, st_pending)
  end.

Definition memHasPending (now : Z) (ext : string) (m : Memory) : Memory * bool :=
  let '(m', s) := memGetPendingState now ext m in (m', bool_decide (s = st_pending)).

(** ** The record of attempted writes (reschedule-attempt.port.ts) *)

Inductive AttemptStatus := attempting | attempt_confirmed.

Inductive NotificationStatus := n_pending | n_deferred | n_delivered | n_ambiguous | n_abandoned.

#[export] Instance attempt_status_eq_dec : EqDecision AttemptStatus.
Proof. solve_decision. Defined.

#[export] Instance notification_eq_dec : EqDecision NotificationStatus.
Proof. solve_decision. Defined.

(** [OutboundDeliveryOutcome] (packages/contracts). *)
Inductive DeliveryOutcome := sent | ambiguous | not_sent | rate_limited.

Record Attempt := mkAttempt {
  a_ext : string;
  a_nonce : string;
  a_platform : string;
  a_user : Z;
  a_status : AttemptStatus;
  a_label : option string;
  a_notif : NotificationStatus;
  a_count : Z;
  a_next : option Z
}.

Definition MAX_NOTIFICATION_ATTEMPTS : Z := 5.
Definition NOTIFICATION_RETRY_MS : Z := 300000.

Definition notificationIsDue (a : Attempt) (now : Z) : bool :=
  bool_decide (a_notif a = n_deferred) && (a_count a <? MAX_NOTIFICATION_ATTEMPTS)
  && match a_next a with Some t => t <=? now | None => true end.

Definition with_notif (s : NotificationStatus) (n : Z) (next : option Z) (a : Attempt) : Attempt :=
  {| a_ext := a_ext a; a_nonce := a_nonce a; a_platform := a_platform a; a_user := a_user a;
     a_status := a_status a; a_label := a_label a; a_notif := s; a_count := n; a_next := next |}.

Definition with_confirmed (lbl : string) (a : Attempt) : Attempt :=
  {| a_ext := a_ext a; a_nonce := a_nonce a; a_platform := a_platform a; a_user := a_user a;
     a_status := attempt_confirmed; a_label := Some lbl; a_notif := a_notif a;
     a_count := a_count a; a_next := a_next a |}.

(** The values of a fresh attempt. *)
Definition newAttempt (p ext n : string) (u : Z) : Attempt :=
  {| a_ext := ext; a_nonce := n; a_platform := p; a_user := u; a_status := attempting;
     a_label := None; a_notif := n_pending; a_count := 0; a_next := None |}.

(** The operations of [RescheduleAttemptStorePort] that the notification
    transitions use. *)
Class AttemptStore (S : Type) := {
  findAttempt : string → string → S → option Attempt;
  markNotificationDelivered : string → string → S → S;
  markNotificationAmbiguous : string → string → S → S;
  deferNotification : string → string → Z → S → S;
  markNotificationAbandoned : string → string → S → S
}.

(** What the transitions rely on: a mark changes the notification of the record
    with that identity and counts the attempt (the count after giving up is the
    store's own). *)
Class AttemptStoreLaws (S : Type) `{AttemptStore S} := {
  find_delivered e n s :
    findAttempt e n (markNotificationDelivered e n s)
    = (λ a, with_notif n_delivered (a_count a + 1) None a) <$> findAttempt e n s;
  find_ambiguous e n s :
    findAttempt e n (markNotificationAmbiguous e n s)
    = (λ a, with_notif n_ambiguous (a_count a + 1) None a) <$> findAttempt e n s;
  find_deferred e n t s :
    findAttempt e n (deferNotification e n t s)
    = (λ a, with_notif n_deferred (a_count a + 1) (Some t) a) <$> findAttempt e n s;
  find_abandoned e n s :
    a_notif <$> findAttempt e n (markNotificationAbandoned e n s)
    = (λ _, n_abandoned) <$> findAttempt e n s
}.

Section Notification.
Context {S : Type} `{AttemptStore S}.

Definition applyNotificationOutcome (e n : string) (o : DeliveryOutcome) (now : Z) (s : S) : S :=
  match findAttempt e n s with
  | Some a =>
      match a_status a with
      | attempting => s
      | attempt_confirmed =>
          match o with
          | sent => markNotificationDelivered e n s
          | ambiguous => markNotificationAmbiguous e n s
          | _ => if MAX_NOTIFICATION_ATTEMPTS <=? a_count a
                 then markNotificationAbandoned e n s
                 else deferNotification e n (now + NOTIFICATION_RETRY_MS) s
          end
      end
  | None => s
  end.

(** One pass of [replayDeferredConfirmations] over a single record: delivered
    again only when due; the outcome is the transport's. *)
Definition replayOne (e n : string) (o : DeliveryOutcome) (now : Z) (s : S) : S * nat :=
  match findAttempt e n s with
  | Some a =>
      if bool_decide (a_status a = attempt_confirmed) && notificationIsDue a now
      then (applyNotificationOutcome e n o now s, 1%nat) else (s, 0%nat)
  | None => (s, 0%nat)
  end.

(** Successive ticks, with the number of messages sent. *)
Fixpoint replays (e n : string) (ticks : list (DeliveryOutcome * Z)) (s : S) : S * nat :=
  match ticks with
  | [] => (s, 0%nat)
  | (o, now) :: rest =>
      let '(s1, k) := replayOne e n o now s in
      let '(s2, k') := replays e n rest s1 in (s2, (k + k')%nat)
  end.
End Notification.

(** *** The PostgreSQL attempt store *)

Section TypeormAttempts.
Context (p : string).

Definition at_attempt (ext n : string) (a : Attempt) : bool :=
  bool_decide (a_ext a = ext) && bool_decide (a_nonce a = n) && bool_decide (a_platform a = p).

(** [beginAttempt]: on a conflict only status and notification are reset. *)
Definition resetAttempt (a : Attempt) : Attempt :=
  {| a_ext := a_ext a; a_nonce := a_nonce a; a_platform := a_platform a; a_user := a_user a;
     a_status := attempting; a_label := a_label a; a_notif := n_pending; a_count := 0;
     a_next := a_next a |}.

Definition beginAttempt (ext n : string) (u : Z) (t : list Attempt) : list Attempt :=
  (tbl_upsert (at_attempt ext n) (λ _, true) resetAttempt (newAttempt p ext n u) t).1.

Definition confirmAttempt (ext n lbl : string) (t : list Attempt) : list Attempt * bool :=
  let sel a := at_attempt ext n a && bool_decide (a_status a = attempting) in
  (tbl_update sel (with_confirmed lbl) t, tbl_exists sel t).

Definition clearAttempt (ext n : string) (t : list Attempt) : list Attempt :=
  tbl_delete (at_attempt ext n) t.

Definition pgFindAttempt (ext n : string) (t : list Attempt) : option Attempt :=
  head (tbl_select (at_attempt ext n) t).

(** [bumpNotification]. *)
Definition bumpNotification (ext n : string) (s : NotificationStatus) (next : option Z)
    (t : list Attempt) : list Attempt :=
  match pgFindAttempt ext n t with
  | Some a => tbl_update (at_attempt ext n) (with_notif s (a_count a + 1) next) t
  | None => t
  end.

#[local] Instance TypeormAttempts : AttemptStore (list Attempt) := {|
  findAttempt := pgFindAttempt;
  markNotificationDelivered := λ e n, bumpNotification e n n_delivered None;
  markNotificationAmbiguous := λ e n, bumpNotification e n n_ambiguous None;
  deferNotification := λ e n t, bumpNotification e n n_deferred (Some t);
  markNotificationAbandoned := λ e n, bumpNotification e n n_abandoned None
|}.

(** [ORDER BY next_notification_attempt_at ASC]; NULL sorts last. *)
Definition next_le (a b : Attempt) : Prop :=
  match a_next a, a_next b with
  | Some x, Some y => x ≤ y
  | Some _, None => True
  | None, Some _ => False
  | None, None => True
  end.

#[local] Instance next_le_dec : RelDecision next_le.
Proof. intros a b. unfold next_le. destruct (a_next a), (a_next b); apply _. Defined.

Definition listDueNotificationAttempts (limit : nat) (now : Z) (t : list Attempt) : list Attempt :=
  let rows := tbl_select (λ a, bool_decide (a_platform a = p)
                 && bool_decide (a_status a = attempt_confirmed) && notificationIsDue a now) t in
  filter (λ a, notificationIsDue a now = true) (take limit (merge_sort next_le rows)).
End TypeormAttempts.

(** *** The in-process attempt store *)

Definition AttemptMap : Type := list (string * Attempt).

Section MemoryAttempts.
Context (p : string).

Definition attemptKey (ext n : string) : string := ext +:+ ":" +:+ n.

Definition memBeginAttempt (ext n : string) (u : Z) (m : AttemptMap) : AttemptMap :=
  jm_set (attemptKey ext n) (newAttempt p ext n u) m.

Definition memConfirmAttempt (ext n lbl : string) (m : AttemptMap) : AttemptMap * bool :=
  match jm_get (attemptKey ext n) m with
  | None => (m, false)
  | Some a => (jm_set (attemptKey ext n) (with_confirmed lbl a) m, true)
  end.

Definition memClearAttempt (ext n : string) (m : AttemptMap) : AttemptMap :=
  jm_del (attemptKey ext n) m.

Definition memMark (ext n : string) (f : Attempt → Attempt) (m : AttemptMap) : AttemptMap :=
  match jm_get (attemptKey ext n) m with
  | Some a => jm_set (attemptKey ext n) (f a) m
  | None => m
  end.

#[local] Instance MemoryAttempts : AttemptStore AttemptMap := {|
  findAttempt := λ e n m, jm_get (attemptKey e n) m;
  markNotificationDelivered := λ e n, memMark e n (λ a, with_notif n_delivered (a_count a + 1) None a);
  markNotificationAmbiguous := λ e n, memMark e n (λ a, with_notif n_ambiguous (a_count a + 1) None a);
  deferNotification := λ e n t,
    memMark e n (λ a, with_notif n_deferred (a_count a + 1) (Some t) a);
  markNotificationAbandoned := λ e n, memMark e n (λ a, with_notif n_abandoned (a_count a) None a)
|}.

Definition memListDue (limit : nat) (now : Z) (m : AttemptMap) : list Attempt :=
  take limit (filter (λ a, (bool_decide (a_platform a = p)
    && bool_decide (a_status a = attempt_confirmed) && notificationIsDue a now) = true) m.*2).

Lemma memMark_find e n f m :
  jm_get (attemptKey e n) (memMark e n f m) = f <$> jm_get (attemptKey e n) m.
Proof.
  unfold memMark. destruct (jm_get _ m) eqn:E; [by rewrite jm_get_set, decide_True|by rewrite E].
Qed.

#[local] Instance memory_attempt_laws : AttemptStoreLaws AttemptMap.
Proof.
  split; simpl; intros; rewrite memMark_find; try done. by destruct (jm_get _ s).
Qed.
End MemoryAttempts.

Section TypeormLaws.
Context (p : string).

Lemma bump_find e n s next t :
  pgFindAttempt p e n (bumpNotification p e n s next t)
  = (λ a, with_notif s (a_count a + 1) next a) <$> pgFindAttempt p e n t.
Proof.
  unfold bumpNotification. destruct (pgFindAttempt p e n t) as [a|] eqn:E; [|done].
  unfold pgFindAttempt. rewrite tbl_select_update_same by done.
  unfold pgFindAttempt in E. simpl. destruct (tbl_select _ t); [done|]. simpl in *. by simplify_eq.
Qed.

#[local] Instance typeorm_attempt_laws : @AttemptStoreLaws _ (TypeormAttempts p).
Proof.
  split; simpl; intros; rewrite bump_find; try done. by destruct (pgFindAttempt p e n s).
Qed.
End TypeormLaws.

(** ** Theorems: notifications *)

Section NotificationTheorems.
Context {S : Type} `{AttemptStoreLaws S}.

(** A replay that sends counts itself; one that does not leaves the store. *)
Lemma replayOne_cases e n o now (s : S) a :
  findAttempt e n s = Some a →
  (replayOne e n o now s = (s, 0%nat))
  ∨ (a_notif a = n_deferred ∧ a_count a < MAX_NOTIFICATION_ATTEMPTS
     ∧ ∃ s' a', replayOne e n o now s = (s', 1%nat) ∧ findAttempt e n s' = Some a'
         ∧ a_count a' = a_count a + 1
         ∧ a_notif a' = match o with sent => n_delivered | ambiguous => n_ambiguous
                                   | _ => n_deferred end).
Proof.
  intros Hf. unfold replayOne, applyNotificationOutcome. rewrite Hf.
  destruct (a_status a) eqn:Hst; simpl; [by left|].
  unfold notificationIsDue. destruct (bool_decide (a_notif a = n_deferred)) eqn:Hn; [|by left].
  destruct (a_count a <? MAX_NOTIFICATION_ATTEMPTS) eqn:Hc; [|by left]. simpl.
  destruct (match a_next a with Some t => t <=? now | None => true end); [|by left].
  bool_to_prop. right. split; [done|]. split; [done|].
  rewrite (proj2 (Z.leb_gt _ _) Hc).
  destruct o; do 2 eexists; (split; [done|]);
    rewrite ?find_delivered, ?find_ambiguous, ?find_deferred, Hf; by split.
Qed.

Lemma replays_quiet e n ticks (s : S) a :
  findAttempt e n s = Some a → a_notif a ≠ n_deferred → replays e n ticks s = (s, 0%nat).
Proof.
  intros Hf Hn. induction ticks as [|[o now] ticks IH]; [done|]. simpl.
  destruct (replayOne_cases e n o now s a Hf) as [->|[? _]]; [|done]. by rewrite IH.
Qed.

(** The confirmation of a committed reschedule is replayed a bounded number
    of times whatever the transport answers, in every attempt store: at most
    [MAX_NOTIFICATION_ATTEMPTS] sends in all, none once a send succeeded or had
    an ambiguous outcome. *)
Theorem notification_bounded e n ticks (s : S) a (Hf : findAttempt e n s = Some a) :
  let '(s', k) := replays e n ticks s in
  Z.of_nat k ≤ Z.max 0 (MAX_NOTIFICATION_ATTEMPTS - a_count a)
  ∧ (a_notif a ≠ n_deferred → k = 0%nat)
  ∧ ∃ a', findAttempt e n s' = Some a' ∧ a_count a' = a_count a + Z.of_nat k.
Proof.
  revert s a Hf. induction ticks as [|[o now] ticks IH]; intros s a Hf; simpl.
  { split; [lia|]. split; [done|]. exists a. split; [done|lia]. }
  destruct (replayOne_cases e n o now s a Hf)
    as [->|(Hn & Hc & s1 & a1 & -> & Hf1 & Hc1 & Hn1)].
  - specialize (IH s a Hf). by destruct (replays e n ticks s) as [s2 k'].
  - specialize (IH s1 a1 Hf1). destruct (replays e n ticks s1) as [s2 k'].
    destruct IH as (Hb & _ & a' & Ha' & Hk). split; [lia|]. split; [done|].
    exists a'. split; [done|lia].
Qed.

(** A record whose replays are used up is left deferred: no tick ever marks it
    abandoned. *)
Lemma replays_never_abandon e n ticks (s : S) a :
  findAttempt e n s = Some a → a_notif a ≠ n_abandoned →
  ∃ a', findAttempt e n (replays e n ticks s).1 = Some a' ∧ a_notif a' ≠ n_abandoned.
Proof.
  revert s a. induction ticks as [|[o now] ticks IH]; intros s a Hf Hn; simpl; [eauto|].
  destruct (replayOne_cases e n o now s a Hf)
    as [->|(_ & _ & s1 & a1 & -> & Hf1 & _ & Hn1)].
  - specialize (IH s a Hf Hn). by destruct (replays e n ticks s).
  - specialize (IH s1 a1 Hf1). destruct (replays e n ticks s1). apply IH.
    rewrite Hn1. by destruct o.
Qed.
End NotificationTheorems.

(** ** Theorems: the in-process store *)

Inductive MemOp :=
| MSave (now : Z) (x : Pending)
| MTake (now : Z) (ext : string) (u : option Z) (b : option Binding) (token : string)
| MRevert (now : Z) (ext token : string)
| MCancel (now : Z) (ext : string) (n : option string)
| MCancelClaimed (ext token : string)
| MState (now : Z) (ext : string).

Definition memExec (op : MemOp) (m : Memory) : Memory :=
  match op with
  | MSave now x => (memSave now x m).1
  | MTake now ext u b token => (memTakeValid now ext u b token m).1
  | MRevert now ext token => memRevertToPending now ext token m
  | MCancel now ext n => (memCancelPending now ext n m).1
  | MCancelClaimed ext token => memCancelClaimed ext token m
  | MState now ext => (memGetPendingState now ext m).1
  end.

Definition memRun (ops : list MemOp) (m : Memory) : Memory := foldl (λ m op, memExec op m) m ops.

(** An operation that does not present the lease [l]. *)
Definition foreign (l : string) (op : MemOp) : bool :=
  match op with
  | MRevert _ _ t | MCancelClaimed _ t => negb (bool_decide (t = l))
  | _ => true
  end.

Record mem_ok (m : Memory) : Prop := {
  mem_keys : NoDup m.*1;
  mem_size : Z.of_nat (length m) ≤ MAX_PENDING
}.

Lemma jm_set_length (k : string) (v : MemoryEntry) m :
  length (jm_set k v m) = match jm_get k m with Some _ => length m | None => S (length m) end.
Proof.
  induction m as [|[k0 v0] m IH]; simpl; [done|]. destruct (decide (k0 = k)); simpl; [done|].
  rewrite IH. by destruct (jm_get k m).
Qed.

Lemma jm_del_shorter (k : string) (m : Memory) (e : MemoryEntry) :
  (k, e) ∈ m → (length (jm_del k m) < length m)%nat.
Proof.
  intros Hin. apply (length_filter_lt _ m (k, e)); [done|]. simpl. tauto.
Qed.

Lemma oldestEvictable_spec m k :
  oldestEvictable m = Some k → ∃ e, (k, e) ∈ m ∧ claimed e = false.
Proof.
  unfold oldestEvictable. destruct (filter _ m) as [|[k' e] l] eqn:E; [done|].
  intros [= ->]. exists e. assert ((k, e) ∈ filter (λ e, claimed e.2 = false) m) as H
    by (rewrite E; left). by apply list_elem_of_filter in H as [? ?].
Qed.

Lemma mem_ok_set k e m : mem_ok m → is_Some (jm_get k m) → mem_ok (jm_set k e m).
Proof.
  intros [Hk Hs] [v Hv]. split; [by apply jm_keys_set|]. by rewrite jm_set_length, Hv.
Qed.

Lemma mem_ok_filter (P : string * MemoryEntry → Prop) `{∀ e, Decision (P e)} m :
  mem_ok m → mem_ok (filter P m).
Proof.
  intros [Hk Hs]. split; [by apply jm_keys_filter|]. etrans; [|exact Hs]. apply inj_le, length_filter.
Qed.

Lemma mem_ok_save now x m : mem_ok m → mem_ok (memSave now x m).1.
Proof.
  intros Hok. unfold memSave. destruct (jm_get (pr_ext x) m) as [e|] eqn:Hg.
  { destruct (claimed e); simpl; [done|]. apply mem_ok_set; eauto. }
  pose proof (mem_ok_filter (λ e, live now e = true) m Hok) as Hp.
  assert (∀ m', mem_ok m' → (Z.of_nat (length m') < MAX_PENDING) →
                mem_ok (jm_set (pr_ext x) (mkEntry x false) m')) as Hset.
  { intros m' [Hk' Hs'] Hl. split; [by apply jm_keys_set|]. rewrite jm_set_length.
    destruct (jm_get _ m'); lia. }
  fold (prune now m) in Hp.
  destruct (MAX_PENDING <=? _) eqn:Hle; [|apply Hset; [done|bool_to_prop; lia]].
  destruct (oldestEvictable (prune now m)) as [k'|] eqn:Ho; [|done]. simpl.
  apply oldestEvictable_spec in Ho as (e & Hin & _).
  pose proof (jm_del_shorter _ _ _ Hin). pose proof (mem_size _ Hp).
  apply Hset; [by apply mem_ok_filter|lia].
Qed.

Lemma mem_ok_exec op m : mem_ok m → mem_ok (memExec op m).
Proof.
  intros Hok. destruct op as [now x|now ext u b token|now ext token|now ext n|ext token|now ext];
    simpl; [by apply mem_ok_save|..];
    unfold memTakeValid, memRevertToPending, memCancelPending, memCancelClaimed, memGetPendingState;
    destruct (jm_get ext m) eqn:Hg; try done;
    repeat case_match; simpl; try done; try (by apply mem_ok_filter); apply mem_ok_set; eauto.
Qed.

(** A claimed entry, its key and its lease. *)
Definition claim_of (k l : string) (m : Memory) : Prop :=
  ∃ e, jm_get k m = Some e ∧ claimed e = true ∧ pr_lease (record e) = Some l.

Lemma claim_kept_filter k l (P : string * MemoryEntry → Prop) `{∀ e, Decision (P e)} m :
  NoDup m.*1 → claim_of k l m → (∀ e, claimed e = true → P (k, e)) → claim_of k l (filter P m).
Proof.
  intros Hnd (e & Hg & Hc & Hl) HP. exists e. rewrite jm_get_filter, Hg by done.
  by rewrite decide_True by by apply HP.
Qed.

Lemma claim_kept_set k l k' v m : k' ≠ k → claim_of k l m → claim_of k l (jm_set k' v m).
Proof.
  intros Hne (e & Hg & He). exists e. rewrite jm_get_set, decide_False by congruence. by split.
Qed.

Lemma claim_kept_del k l k' m : k' ≠ k → claim_of k l m → claim_of k l (jm_del k' m).
Proof.
  intros Hne (e & Hg & He). exists e. rewrite jm_get_del, decide_False by congruence. by split.
Qed.

(** The stored entry of a claimed key is the claimed one. *)
Ltac at_claim Hcl :=
  match type of Hcl with
  | claim_of ?k _ ?m =>
      match goal with
      | E : jm_get ?x m = _ |- _ =>
          destruct (decide (x = k)) as [?|?];
          [subst; destruct Hcl as (? & ? & ? & ?); simplify_eq/=; try congruence|]
      end
  end.

Lemma claim_kept_save k l now x m :
  NoDup m.*1 → claim_of k l m → claim_of k l (memSave now x m).1.
Proof.
  intros Hnd Hcl. unfold memSave. destruct (jm_get (pr_ext x) m) as [e|] eqn:Hg.
  { destruct (claimed e) eqn:He; [done|]. at_claim Hcl. by apply claim_kept_set. }
  assert (pr_ext x ≠ k) as Hne by (intros <-; destruct Hcl as (? & ? & _); congruence).
  assert (claim_of k l (prune now m)) as Hp.
  { apply claim_kept_filter; [done..|]. intros e He. unfold live. simpl. by rewrite He. }
  destruct (_ <=? _); [|by apply claim_kept_set].
  destruct (oldestEvictable (prune now m)) as [k'|] eqn:Ho; [|done]. simpl.
  apply claim_kept_set; [done|]. apply claim_kept_del; [|done]. intros ->.
  apply oldestEvictable_spec in Ho as (e & Hin & He).
  destruct Hp as (e' & Hg' & He' & _).
  assert (NoDup (prune now m).*1) as Hnd' by by apply jm_keys_filter.
  apply jm_get_elem in Hg'.
  assert (e = e') as ->; [|congruence].
  enough ((k, e) = (k, e')) as He2 by congruence.
  by apply (unique_on_eq fst (prune now m)).
Qed.

Lemma claim_kept_exec k l op m :
  mem_ok m → foreign l op = true → claim_of k l m → claim_of k l (memExec op m).
Proof.
  intros Hok Hf Hcl. pose proof (mem_keys _ Hok) as Hnd.
  destruct op as [now x|now ext u b token|now ext token|now ext n|ext token|now ext]; simpl;
    [by apply claim_kept_save|..];
    unfold memTakeValid, memRevertToPending, memCancelPending, memCancelClaimed,
      memGetPendingState, owns;
    destruct (jm_get ext m) as [e|] eqn:Hg; try done; simpl in Hf; bool_to_prop.
  all: at_claim Hcl.
  all: repeat case_match; bool_to_prop; simpl in *; try done; try congruence;
    try (by apply claim_kept_set); try (by apply claim_kept_del).
  all: eexists; split; [eassumption|by split].
Qed.

(** In the in-process store a claim belongs to its lease: whatever other
    requests are staged, confirmed, cancelled or expire, an entry claimed under
    a lease is neither evicted nor replaced nor released until an operation
    presents that lease; and the store never exceeds its capacity. *)
Theorem memory_claim_is_owned (ops : list MemOp) (k l : string) (m : Memory)
    (Hok : mem_ok m) (Hforeign : forallb (foreign l) ops = true) (Hclaim : claim_of k l m) :
  claim_of k l (memRun ops m) ∧ Z.of_nat (length (memRun ops m)) ≤ MAX_PENDING.
Proof.
  revert m Hok Hclaim. induction ops as [|op ops IH]; intros m Hok Hcl; simpl in *.
  { split; [done|apply Hok]. }
  apply andb_true_iff in Hforeign as [Hf Hfs].
  apply IH; [done|by apply mem_ok_exec|by apply claim_kept_exec].
Qed.

(** ** Witnesses *)

Definition demo_attempt : Attempt :=
  with_notif n_deferred 3 None (with_confirmed "Tue 9:00" (newAttempt "zalo" "u1" "n1" 7)).

(** Three sends are used; a transport that never delivers is asked twice more. *)
Lemma notification_bounded_witness :
  let ticks := (λ t, (not_sent, t)) <$> [0; 400000; 800000; 1200000] in
  (@replays _ (TypeormAttempts "zalo") "u1" "n1" ticks [demo_attempt]).2 = 2%nat
  ∧ Z.of_nat (@replays _ (TypeormAttempts "zalo") "u1" "n1" ticks [demo_attempt]).2 ≤ 2.
Proof.
  split; [vm_compute; reflexivity|].
  pose proof (@notification_bounded _ (TypeormAttempts "zalo") (typeorm_attempt_laws "zalo")
    "u1" "n1" ((λ t, (not_sent, t)) <$> [0; 400000; 800000; 1200000]) [demo_attempt] demo_attempt
    eq_refl) as H.
  destruct (replays _ _ _ _) as [s k]. destruct H as [H _]. exact H.
Defined.

Definition demo_pending (ext : string) : Pending :=
  mkPending ext 7 40 default_next_day_same_time None None "Mon 9:00" 1000 None (Some TOOL_NAME)
    (Some "zalo") (Some "v1") (Some "i") (Some "a") (Some "n1").

Lemma memory_claim_is_owned_witness :
  claim_of "u1" "lease"
    (memRun [MSave 5 (demo_pending "u1"); MSave 5 (demo_pending "u2"); MCancel 6 "u1" None;
             MState 5000 "u1"; MRevert 7 "u1" "other"; MTake 8 "u1" None None "lease2"]
       (memRun [MSave 0 (demo_pending "u1"); MTake 1 "u1" (Some 7) None "lease"] [])).
Proof.
  apply memory_claim_is_owned; [|reflexivity|].
  - vm_compute. split; [repeat constructor; apply not_elem_of_nil|discriminate].
  - vm_compute. eexists. split; [reflexivity|]. split; reflexivity.
Defined.

End RStore.
