(* ===== verification/RescheduleConfirm.v ===== *)
(** * Confirming a reschedule (packages/reschedule-confirm)

    The service (reschedule-confirm.service.ts) stages, confirms and cancels a
    request; the recovery cron (adapters/reschedule-recovery-cron.service.ts)
    tidies what crashed pods leave.  Each method is a program: a tree of the
    statements and external calls it awaits, with what it does on every reply,
    exceptions included.  A world holds the two tables, the running programs of
    all pods and the calendar writes that were committed; an event runs one
    awaited call of one program, starts a program or crashes one, so every
    interleaving of pods is a list of events. *)

From Stdlib Require Import Ascii.
From S2P Require Import Prelude Table QuotaRepository RescheduleStore.
Import RStore.

Module Confirm.

(** ** Data of the service *)

Inductive ScopeFailure := scope_mismatch | scope_unverified.

Inductive Err := EScope (r : ScopeFailure) | EAbort | EOther.

Inductive Res (A : Type) := Got (a : A) | Raised (e : Err).
Arguments Got {_}.
Arguments Raised {_}.

(** The replies to the learner. *)
Inductive Message :=
| MInvalid | MExpired | MInProgress | MNone | MBudget | MScope | MUnavailable.

Record CalendarEntry := { ce_id : Z; ce_label : string; ce_owner : option Z }.

Inductive Outcome :=
| Confirmed (label : string) (replayed : bool)
| Refused (m : Message)
| UnknownOutcome
| Staged (label token : string)
| StageError (m : Message)
| CancelOutcome (o : CancellationOutcome)
| Recovered (rearmed escalated : nat).

(** [Number.isSafeInteger] and positive. *)
Definition safe_id (z : Z) : bool := (0 <? z) && (z <=? 9007199254740991).

Definition getRescheduleScopeFailureReason (owner : option Z) (expected : Z)
  : option ScopeFailure :=
  match owner with
  | Some o => if safe_id o && safe_id expected
              then if o =? expected then None else Some scope_mismatch
              else Some scope_unverified
  | None => Some scope_unverified
  end.

(** [APPROVAL_TOKEN_RE]: a version 4 UUID, in either case. *)
Definition hex_digit (c : Ascii.ascii) : bool :=
  let n := Ascii.nat_of_ascii c in
  ((48 <=? n) && (n <=? 57) || (97 <=? n) && (n <=? 102) || (65 <=? n) && (n <=? 70))%nat.

Definition variant_digit (c : Ascii.ascii) : bool :=
  bool_decide (c ∈ ["8"; "9"; "a"; "b"; "A"; "B"]%char).

Definition is_char (d c : Ascii.ascii) : bool := bool_decide (c = d).

Definition token_pattern : list (Ascii.ascii → bool) :=
  let hex (n : Z) := replicate (Z.to_nat n) hex_digit in
  let dash := [is_char "-"%char] in
  hex 8 ++ dash ++ hex 4 ++ dash ++ [is_char "4"%char] ++ hex 3 ++ dash
  ++ [variant_digit] ++ hex 3 ++ dash ++ hex 12.

Fixpoint matches (pat : list (Ascii.ascii → bool)) (s : string) : bool :=
  match pat, s with
  | [], EmptyString => true
  | p :: pat', String c s' => p c && matches pat' s'
  | _, _ => false
  end.

Definition isValidApprovalToken (s : string) : bool := matches token_pattern s.

(** A truthy optional string. *)
Definition truthy (s : option string) : bool :=
  match s with Some x => negb (bool_decide (x = "")) | None => false end.

Definition ascii_space (c : Ascii.ascii) : bool :=
  let n := Ascii.nat_of_ascii c in ((9 <=? n) && (n <=? 13) || (n =? 32))%nat.

(** [!s?.trim()]. *)
Definition blank (s : option string) : bool :=
  match s with Some x => forallb ascii_space (String.list_ascii_of_string x) | None => true end.

Definition trim (s : string) : string :=
  let drop_spaces :=
    fix drop l := match l with c :: l' => if ascii_space c then drop l' else l | [] => [] end in
  String.string_of_list_ascii
    (rev (drop_spaces (rev (drop_spaces (String.list_ascii_of_string s))))).

(** [JSON.stringify] of the four fields of the default arguments. *)
Definition quote_char : ascii := ascii_of_nat 34.

Definition hex_of (n : nat) : string :=
  String (ascii_of_nat (if (n <? 10)%nat then 48 + n else 87 + n)%nat) EmptyString.

Definition json_escape (c : ascii) : string :=
  match nat_of_ascii c with
  | 8%nat => "\b" | 9%nat => "\t" | 10%nat => "\n" | 12%nat => "\f" | 13%nat => "\r"
  | 34%nat => String "\"%char (String quote_char EmptyString)
  | 92%nat => "\\"
  | n => if (n <? 32)%nat then "\u00" +:+ hex_of (n / 16)%nat +:+ hex_of (n mod 16)%nat
         else String c EmptyString
  end.

Definition json_string (s : string) : string :=
  String quote_char EmptyString
  +:+ foldr (λ c r, json_escape c +:+ r) "" (String.list_ascii_of_string s)
  +:+ String quote_char EmptyString.

Definition json_nullable (s : option string) : string :=
  match s with Some x => json_string x | None => "null" end.

Definition mode_name (m : SchedulingMode) : string :=
  match m with default_next_day_same_time => "default_next_day_same_time"
             | explicit => "explicit" end.

Definition canonicalJson (calendarId : Z) (m : SchedulingMode) (d t : option string) : string :=
  "{" +:+ json_string "calendarId" +:+ ":" +:+ Quota.print_int calendarId
  +:+ "," +:+ json_string "schedulingMode" +:+ ":" +:+ json_string (mode_name m)
  +:+ "," +:+ json_string "newLocalDate" +:+ ":" +:+ json_nullable d
  +:+ "," +:+ json_string "newTime" +:+ ":" +:+ json_nullable t +:+ "}".

(** ** Programs *)

Inductive Prog :=
| PRet (o : Outcome)
| PThrow (e : Err)
| PRead (ext : string) (k : Res PendingState → Prog)
| PDeleteExpired (ext : string) (k : Res unit → Prog)
| PTake (ext : string) (u : option Z) (b : Binding) (k : Res (option Pending) → Prog)
| PRevert (ext token : string) (k : Res unit → Prog)
| PCancelPending (ext : string) (n : option string) (k : Res CancellationOutcome → Prog)
| PCancelClaimed (ext token : string) (k : Res unit → Prog)
| PFind (ext n : string) (k : Res (option Attempt) → Prog)
| PBegin (ext n : string) (u : Z) (k : Res unit → Prog)
| PConfirmAttempt (ext n label : string) (k : Res bool → Prog)
| PClear (ext n : string) (k : Res unit → Prog)
| PConsume (u : Z) (ext : string) (k : Res bool → Prog)
| PRefund (u : Z) (ext : string) (k : Res unit → Prog)
| PWrite (x : Pending) (k : Res string → Prog)
| PInvalidate (ext : string) (k : Res unit → Prog)
| PEntries (ext : string) (u : Z) (k : Res (list CalendarEntry) → Prog)
| PAborted (k : bool → Prog)
| PSave (x : Pending) (k : Res bool → Prog)
| PListStale (ms : Z) (k : Res (list (Z * string * string)) → Prog)
| PRevertStale (rowId : Z) (k : Res unit → Prog)
| PCancelStale (rowId : Z) (k : Res unit → Prog).

(** [await op]: an exception ends the method. *)
Notation "x '<<-' op ';;;' k" :=
  (op (λ r, match r with Got x => k | Raised e => PThrow e end))
  (at level 100, op at next level, k at level 200, right associativity).

(** [RescheduleConfirmationOptions] and [requiresApprovalToken]: which optional
    collaborators are wired. *)
Record Config := {
  requiresApprovalToken : bool;
  attemptStore : bool;
  consumeBudget : bool;
  refundBudget : bool;
  cacheInvalidation : bool
}.

Section Service.
Context (cfg : Config).

(** [getPendingState] with what follows it. *)
Definition getPendingState (ext : string) (k : Res PendingState → Prog) : Prog :=
  PRead ext (λ r,
    match r with
    | Got st_expired =>
        PDeleteExpired ext (λ d,
          match d with Got _ => k (Got st_expired) | Raised e => k (Raised e) end)
    | _ => k r
    end).

(** *** confirm *)

(** After the calendar write returned: nothing below undoes it. *)
Definition writeCommitted (ext token label : string) (n : option string) : Prog :=
  let cleanup :=
    PCancelClaimed ext token (λ _,
      if cacheInvalidation cfg
      then PInvalidate ext (λ _, PRet (Confirmed label false))
      else PRet (Confirmed label false)) in
  match n with
  | Some n =>
      if attemptStore cfg
      then PConfirmAttempt ext n label (λ r,
             match r with
             | Got true => cleanup
             | Got false => PRet UnknownOutcome
             | Raised _ => PRet UnknownOutcome
             end)
      else cleanup
  | None => cleanup
  end.

(** The [catch] block when the write itself threw. *)
Definition writeFailed (ext token : string) (n : option string) (p : Pending) (e : Err) : Prog :=
  let finish :=
    match e with
    | EScope _ => _ <<- PCancelClaimed ext token ;;; PRet (Refused MScope)
    | _ => _ <<- PRevert ext token ;;; PRet (Refused MUnavailable)
    end in
  let refund :=
    if refundBudget cfg then _ <<- PRefund (pr_user p) (pr_ext p) ;;; finish else finish in
  match n with
  | Some n => if attemptStore cfg then PClear ext n (λ _, refund) else refund
  | None => refund
  end.

Definition writeStage (ext token : string) (n : option string) (p : Pending) : Prog :=
  PWrite p (λ r,
    match r with
    | Got label => writeCommitted ext token label n
    | Raised e => writeFailed ext token n p e
    end).

(** The attempt is recorded before the write; a token whose earlier attempt never
    reported is refused. *)
Definition attemptStage (ext token : string) (approval : option string) (p : Pending) : Prog :=
  let n := match pr_nonce p with Some x => Some x | None => approval end in
  match (if truthy n then n else None) with
  | Some n =>
      if attemptStore cfg
      then existing <<- PFind ext n ;;;
           match existing with
           | Some a =>
               match a_status a with
               | attempting => _ <<- PRevert ext token ;;; PRet UnknownOutcome
               | attempt_confirmed =>
                   _ <<- PBegin ext n (pr_user p) ;;; writeStage ext token (Some n) p
               end
           | None => _ <<- PBegin ext n (pr_user p) ;;; writeStage ext token (Some n) p
           end
      else writeStage ext token (Some n) p
  | None => writeStage ext token None p
  end.

Definition budgetStage (ext token : string) (approval : option string) (p : Pending) : Prog :=
  if consumeBudget cfg
  then ok <<- PConsume (pr_user p) (pr_ext p) ;;;
       if (ok : bool) then attemptStage ext token approval p
       else _ <<- PRevert ext token ;;; PRet (Refused MBudget)
  else attemptStage ext token approval p.

Definition confirmClaimed (ext : string) (approval : option string) (p : Pending) : Prog :=
  match (if truthy (pr_lease p) then pr_lease p else None) with
  | None => PRet (Refused MInvalid)
  | Some token =>
      if requiresApprovalToken cfg
         && (negb (bool_decide (pr_tool p = Some TOOL_NAME)) || negb (truthy (pr_intent p))
             || negb (truthy (pr_args p)) || negb (truthy (pr_nonce p)))
      then _ <<- PRevert ext token ;;; PRet (Refused MInvalid)
      else budgetStage ext token approval p
  end.

(** Nothing could be claimed: was this token already committed? *)
Definition confirmMissing (ext : string) (approval : option string) : Prog :=
  let none :=
    s <<- getPendingState ext ;;;
    match s with
    | st_expired => PRet (Refused MExpired)
    | st_processing => PRet (Refused MInProgress)
    | _ => PRet (Refused MNone)
    end in
  match (if truthy approval && attemptStore cfg then approval else None) with
  | Some t =>
      recorded <<- PFind ext t ;;;
      match recorded with
      | Some a =>
          match a_status a with
          | attempt_confirmed => PRet (Confirmed (nullish (a_label a) "") true)
          | attempting => PRet UnknownOutcome
          end
      | None => none
      end
  | None => none
  end.

Definition withNonce (approval : option string) (b : option Binding) : Binding :=
  let b := nullish b (mkBinding None None None None None) in
  mkBinding (b_platform b) (b_mapping b) (b_intent b) (b_args b)
    (if truthy approval then approval else b_nonce b).

Definition confirm (ext : string) (u : option Z) (approval : option string) (b : option Binding)
  : Prog :=
  if requiresApprovalToken cfg
     && (negb (truthy approval)
         || negb (match approval with Some t => isValidApprovalToken t | None => false end)
         || match u with None => true | Some _ => false end
         || negb (truthy (b ≫= b_platform)) || negb (truthy (b ≫= b_mapping)))
  then PRet (Refused MInvalid)
  else
    s <<- getPendingState ext ;;;
    if bool_decide (s = st_expired) then PRet (Refused MExpired)
    else
      p <<- PTake ext u (withNonce approval b) ;;;
      match p with
      | None => confirmMissing ext approval
      | Some p => confirmClaimed ext approval p
      end.

(** *** stage *)

Record StageInput := {
  s_ext : string;
  s_user : Z;
  s_calendar : Z;
  s_mode : SchedulingMode;
  s_date : option string;
  s_time : option string;
  s_platform : option string;
  s_mapping : option string;
  s_intent : option string;
  s_args : option string;
  s_signal : bool
}.

(** The hash is node's. *)
Context (sha256 : string → string).

(** [signal?.aborted]. *)
Definition ifAborted (i : StageInput) (yes no : Prog) : Prog :=
  if s_signal i then PAborted (λ a, if a then yes else no) else no.

(** [cancelPending]: tried twice, failures swallowed. *)
Definition cancelQuietly (ext n : string) (k : Prog) : Prog :=
  PCancelPending ext (Some n) (λ r,
    match r with Got _ => k | Raised _ => PCancelPending ext (Some n) (λ _, k) end).

Definition stagedRecord (i : StageInput) (nonce : string) (now : Z) (label : string) : Pending :=
  {| pr_ext := s_ext i; pr_user := s_user i; pr_calendar := s_calendar i; pr_mode := s_mode i;
     pr_date := s_date i; pr_time := s_time i; pr_label := label;
     pr_expires := now + PENDING_TTL_MS; pr_lease := None; pr_tool := Some TOOL_NAME;
     pr_platform := s_platform i; pr_mapping := s_mapping i;
     pr_intent := Some (sha256 (trim (nullish (s_intent i) "")));
     pr_args := Some (sha256 (nullish (s_args i)
                  (canonicalJson (s_calendar i) (s_mode i) (s_date i) (s_time i))));
     pr_nonce := Some nonce |}.

Definition stageSave (i : StageInput) (nonce : string) (now : Z) (label : string) : Prog :=
  PSave (stagedRecord i nonce now label) (λ r,
    match r with
    | Raised e =>
        let aborted := cancelQuietly (s_ext i) nonce (PThrow EAbort) in
        ifAborted i aborted (match e with EAbort => aborted | _ => PThrow e end)
    | Got saved =>
        ifAborted i (cancelQuietly (s_ext i) nonce (PThrow EAbort))
          (if (saved : bool) then PRet (Staged label nonce) else PRet (StageError MInProgress))
    end).

(** [nonce] and [now] are the values of [randomUUID()] and [Date.now()]. *)
Definition stage (i : StageInput) (nonce : string) (now : Z) : Prog :=
  ifAborted i (PThrow EAbort)
    (if requiresApprovalToken cfg
        && (blank (s_platform i) || blank (s_mapping i) || blank (s_intent i) || blank (s_args i))
     then PRet (StageError MInvalid)
     else
       PEntries (s_ext i) (s_user i) (λ r,
         match r with
         | Raised e =>
             ifAborted i (PThrow EAbort) (match e with EAbort => PThrow EAbort | _ => PThrow e end)
         | Got upcoming =>
             ifAborted i (PThrow EAbort)
               match head (filter (λ c, ce_id c = s_calendar i) upcoming) with
               | None => PRet (StageError MScope)
               | Some c =>
                   match getRescheduleScopeFailureReason (ce_owner c) (s_user i) with
                   | Some _ => PRet (StageError MScope)
                   | None =>
                       ifAborted i (PThrow EAbort) (stageSave i nonce now (ce_label c))
                   end
               end
         end)).

(** *** cancelForUser *)

Definition cancelForUser (ext : string) (approval : option string) : Prog :=
  if requiresApprovalToken cfg
     && match approval with Some t => negb (isValidApprovalToken t) | None => false end
  then PRet (CancelOutcome none_outcome)
  else
    s <<- getPendingState ext ;;;
    if bool_decide (s = st_expired) then PRet (CancelOutcome expired_outcome)
    else o <<- PCancelPending ext approval ;;; PRet (CancelOutcome o).

(** *** The recovery cron *)

Definition STALE_AFTER_MS : Z := 300000.

(** The loop of [runRecovery]; a failed lookup counts as no attempt.  The external
    id of a stale row is its stored key. *)
Fixpoint recoverRows (rows : list (Z * string * string)) (rearmed escalated : nat) : Prog :=
  match rows with
  | [] => PRet (Recovered rearmed escalated)
  | (rowId, ext, n) :: rest =>
      let reset := _ <<- PRevertStale rowId ;;; recoverRows rest (S rearmed) escalated in
      if negb (bool_decide (n = "")) && attemptStore cfg
      then PFind ext n (λ r,
             match r with
             | Got (Some a) =>
                 match a_status a with
                 | attempting =>
                     _ <<- PCancelStale rowId ;;; recoverRows rest rearmed (S escalated)
                 | attempt_confirmed =>
                     _ <<- PCancelStale rowId ;;; recoverRows rest rearmed escalated
                 end
             | _ => reset
             end)
      else reset
  end.

Definition runRecovery : Prog :=
  rows <<- PListStale STALE_AFTER_MS ;;; recoverRows rows 0 0.
End Service.

(** ** Running programs *)

(** Outcome of a call to the database: done, failed without effect, or failed
    after its effect. *)
Inductive Fate := Done | FailBefore (e : Err) | FailAfter (e : Err).

(** What the environment answers to one call; [x_uuid] is a fresh
    [randomUUID()], [x_committed] whether the calendar changed. *)
Record Reply := mkReply {
  x_now : Z;
  x_fate : Fate;
  x_uuid : string;
  x_flag : Res bool;
  x_entries : Res (list CalendarEntry);
  x_write : Res string;
  x_committed : bool
}.

(** [writes] lists the approval tokens whose calendar write was committed;
    [held] the lease each running program was given; [used] the identifiers
    drawn so far. *)
Record World := mkWorld {
  rows : list Row;
  attempts : list Attempt;
  nextId : Z;
  used : list string;
  procs : gmap nat (string * Prog);
  held : gmap nat string;
  writes : list string
}.

Definition with_rows (t : list Row) (w : World) : World :=
  mkWorld t (attempts w) (nextId w) (used w) (procs w) (held w) (writes w).
Definition with_attempts (t : list Attempt) (w : World) : World :=
  mkWorld (rows w) t (nextId w) (used w) (procs w) (held w) (writes w).

(** A call that replaces the world by [w'] and answers [a]. *)
Definition call {A} (f : Fate) (w w' : World) (a : A) (k : Res A → Prog) : World * Prog :=
  match f with
  | Done => (w', k (Got a))
  | FailBefore e => (w, k (Raised e))
  | FailAfter e => (w', k (Raised e))
  end.

(** The token of a write, as the attempt is recorded under it. *)
Definition write_token (x : Pending) : list string := option_list (pr_nonce x).

(** One awaited call of program [P] of a bot for platform [p]. *)
Definition exec (pid : nat) (p : string) (x : Reply) (w : World) (P : Prog) : World * Prog :=
  let f := x_fate x in
  let now := x_now x in
  match P with
  | PRet _ | PThrow _ => (w, P)
  | PRead ext k => call f w w (readPendingState p ext now (rows w)) k
  | PDeleteExpired ext k =>
      call f w (with_rows (deleteExpired (keyOf p ext) now (rows w)) w) tt k
  | PTake ext u b k =>
      let '(t, r) := takeValid p ext u b (x_uuid x) now (rows w) in
      let h := match f, r with Done, Some _ => <[pid := x_uuid x]> (held w) | _, _ => held w end in
      call f w (mkWorld t (attempts w) (nextId w) (x_uuid x :: used w) (procs w) h (writes w)) r k
  | PRevert ext token k => call f w (with_rows (revertToPending p ext token now (rows w)) w) tt k
  | PCancelPending ext n k =>
      let '(t, o) := cancelPending p ext n (rows w) in call f w (with_rows t w) o k
  | PCancelClaimed ext token k => call f w (with_rows (cancelClaimed p ext token (rows w)) w) tt k
  | PFind ext n k => call f w w (pgFindAttempt p ext n (attempts w)) k
  | PBegin ext n u k => call f w (with_attempts (beginAttempt p ext n u (attempts w)) w) tt k
  | PConfirmAttempt ext n label k =>
      let '(t, b) := confirmAttempt p ext n label (attempts w) in
      call f w (with_attempts t w) b k
  | PClear ext n k => call f w (with_attempts (clearAttempt p ext n (attempts w)) w) tt k
  | PConsume _ _ k => (w, k (x_flag x))
  | PRefund _ _ k => call f w w tt k
  | PWrite y k =>
      (mkWorld (rows w) (attempts w) (nextId w) (used w) (procs w) (held w)
         (if x_committed x then write_token y ++ writes w else writes w),
       k (x_write x))
  | PInvalidate _ k => call f w w tt k
  | PEntries _ _ k => (w, k (x_entries x))
  | PAborted k => (w, k (match x_flag x with Got b => b | Raised _ => false end))
  | PSave y k =>
      let '(t, b) := save p (x_uuid x) (nextId w) y (rows w) in
      call f w (mkWorld t (attempts w) (nextId w + 1) (x_uuid x :: used w) (procs w) (held w)
                  (writes w)) b k
  | PListStale ms k => call f w w (listStaleProcessing ms now (rows w)) k
  | PRevertStale rowId k => call f w (with_rows (revertStaleRow rowId now (rows w)) w) tt k
  | PCancelStale rowId k => call f w (with_rows (cancelStaleRow rowId (rows w)) w) tt k
  end.

(** Whether a call draws a fresh identifier. *)
Definition draws (P : Prog) : bool :=
  match P with PTake _ _ _ _ | PSave _ _ => true | _ => false end.

Definition finished (P : Prog) : bool :=
  match P with PRet _ | PThrow _ => true | _ => false end.

Definition drop_proc (pid : nat) (w : World) : World :=
  mkWorld (rows w) (attempts w) (nextId w) (used w) (delete pid (procs w)) (delete pid (held w))
    (writes w).

Definition set_proc (pid : nat) (p : string) (P : Prog) (w : World) : World :=
  mkWorld (rows w) (attempts w) (nextId w) (used w) (<[pid := (p, P)]> (procs w)) (held w)
    (writes w).

Section System.
(** All bots run the same wiring; node's hash is an argument. *)
Context (cfg : Config) (sha256 : string → string).

Inductive Event :=
| EConfirm (pid : nat) (p ext : string) (u : option Z) (t : option string) (b : option Binding)
| EStage (pid : nat) (p : string) (i : StageInput) (nonce : string) (now : Z)
| ECancel (pid : nat) (p ext : string) (t : option string)
| ERecover (pid : nat) (p : string)
| ERun (pid : nat) (x : Reply)
| ECrash (pid : nat).

(** [None]: the event is not possible here.  A program that is done leaves. *)
Definition step (e : Event) (w : World) : option World :=
  let start pid p P w :=
    match procs w !! pid with Some _ => None | None => Some (set_proc pid p P w) end in
  match e with
  | EConfirm pid p ext u t b => start pid p (confirm cfg ext u t b) w
  | EStage pid p i nonce now =>
      if bool_decide (nonce ∈ used w) then None
      else start pid p (stage cfg sha256 i nonce now)
             (mkWorld (rows w) (attempts w) (nextId w) (nonce :: used w) (procs w) (held w)
                (writes w))
  | ECancel pid p ext t => start pid p (cancelForUser cfg ext t) w
  | ERecover pid p => start pid p (runRecovery cfg) w
  | ERun pid x =>
      match procs w !! pid with
      | None => None
      | Some (p, P) =>
          if draws P && bool_decide (x_uuid x ∈ used w) then None
          else
            let '(w', P') := exec pid p x w P in
            Some (if finished P' then drop_proc pid w' else set_proc pid p P' w')
      end
  | ECrash pid =>
      match procs w !! pid with None => None | Some _ => Some (drop_proc pid w) end
  end.

Fixpoint run (es : list Event) (w : World) : option World :=
  match es with
  | [] => Some w
  | e :: es => match step e w with Some w' => run es w' | None => None end
  end.
End System.

Definition empty_world : World := mkWorld [] [] 1 [] ∅ ∅ [].

(** ** The protocol of a program

    What a program may still do depends on what it holds: nothing, a fresh token
    to stage, a claimed request ([HClaimed]: lease and token), or a claimed
    request whose attempt is recorded ([HBegun]).  Only [HBegun] may write;
    after a commit the program holds nothing, so it can never re-arm the row. *)

Inductive Hold :=
| HFree
| HFresh (n : string)
| HClaimed (e l n : string)
| HBegun (e l n : string).

Inductive follows : Hold → Prog → Prop :=
| F_ret h o : follows h (PRet o)
| F_throw h e : follows h (PThrow e)
| F_read h ext k : (∀ r, follows h (k r)) → follows h (PRead ext k)
| F_deleteExpired h ext k : (∀ r, follows h (k r)) → follows h (PDeleteExpired ext k)
| F_cancelPending h ext n k : (∀ r, follows h (k r)) → follows h (PCancelPending ext n k)
| F_cancelClaimed h ext t k : (∀ r, follows h (k r)) → follows h (PCancelClaimed ext t k)
| F_find h ext n k : (∀ r, follows h (k r)) → follows h (PFind ext n k)
| F_confirmAttempt h ext n l k : (∀ r, follows h (k r)) → follows h (PConfirmAttempt ext n l k)
| F_consume h u ext k : (∀ r, follows h (k r)) → follows h (PConsume u ext k)
| F_refund h u ext k : (∀ r, follows h (k r)) → follows h (PRefund u ext k)
| F_invalidate h ext k : (∀ r, follows h (k r)) → follows h (PInvalidate ext k)
| F_entries h ext u k : (∀ r, follows h (k r)) → follows h (PEntries ext u k)
| F_aborted h k : (∀ r, follows h (k r)) → follows h (PAborted k)
| F_listStale h ms k : (∀ r, follows h (k r)) → follows h (PListStale ms k)
| F_cancelStale h i k : (∀ r, follows h (k r)) → follows h (PCancelStale i k)
| F_revertStale i k : (∀ r, follows HFree (k r)) → follows HFree (PRevertStale i k)
| F_take ext u b k :
    (∀ e, follows HFree (k (Raised e))) → follows HFree (k (Got None)) →
    (∀ p l n, pr_lease p = Some l → pr_nonce p = Some n →
       follows (HClaimed ext l n) (k (Got (Some p)))) →
    follows HFree (PTake ext u b k)
| F_revert e l n k : (∀ r, follows HFree (k r)) → follows (HClaimed e l n) (PRevert e l k)
| F_begin e l n u k :
    (∀ x, follows HFree (k (Raised x))) → follows (HBegun e l n) (k (Got tt)) →
    follows (HClaimed e l n) (PBegin e n u k)
| F_write e l n x k :
    pr_nonce x = Some n →
    (∀ lbl, follows HFree (k (Got lbl))) → (∀ r, follows (HClaimed e l n) (k (Raised r))) →
    follows (HBegun e l n) (PWrite x k)
| F_clear e l n k : (∀ r, follows (HClaimed e l n) (k r)) → follows (HClaimed e l n) (PClear e n k)
| F_save n x k :
    pr_nonce x = Some n → (∀ r, follows HFree (k r)) → follows (HFresh n) (PSave x k).

#[local] Hint Constructors follows : wispace.

(** Case analysis on replies and tests, one protocol rule per call. *)
Ltac follow :=
  repeat first
    [ progress intros
    | case_match; simplify_eq/=
    | by constructor
    | solve [auto 3]
    | constructor ].

Section Protocol.
Context (cfg : Config) (sha256 : string → string).
(** The production wiring: tokens are required and attempts recorded. *)
Hypothesis (Htoken : requiresApprovalToken cfg = true) (Hstore : attemptStore cfg = true).

Lemma getPendingState_follows h ext k :
  (∀ r, follows h (k r)) → follows h (getPendingState ext k).
Proof. intros Hk. unfold getPendingState. constructor. intros r. follow. Qed.

Lemma writeStage_follows e l n p :
  pr_nonce p = Some n → follows (HBegun e l n) (writeStage cfg e l (Some n) p).
Proof.
  intros Hn. unfold writeStage, writeCommitted, writeFailed. rewrite Hstore.
  constructor; [done|..]; follow.
Qed.

Lemma confirmClaimed_follows e t p l n :
  pr_lease p = Some l → pr_nonce p = Some n →
  follows (HClaimed e l n) (confirmClaimed cfg e t p).
Proof.
  intros Hl Hn. unfold confirmClaimed. rewrite Hl. destruct (truthy (Some l)); [|constructor].
  rewrite Htoken, Hn. destruct (negb (truthy (Some n))) eqn:Ht.
  { rewrite orb_true_r. follow. }
  destruct (_ && _); [follow|]. apply negb_false_iff in Ht.
  assert (follows (HClaimed e l n) (attemptStage cfg e l t p)) as Ha.
  { unfold attemptStage. rewrite Hn, Ht, Hstore. constructor. intros [a|]; [|constructor].
    repeat case_match; try (by follow);
      (constructor; [intros; constructor|by apply writeStage_follows]). }
  unfold budgetStage. destruct (consumeBudget cfg); [|done]. constructor.
  intros [[]|]; [done|follow|constructor].
Qed.

Lemma confirmMissing_follows e t : follows HFree (confirmMissing cfg e t).
Proof.
  unfold confirmMissing.
  assert (follows HFree (getPendingState e (λ r, match r with
    | Got st_expired => PRet (Refused MExpired) | Got st_processing => PRet (Refused MInProgress)
    | Got _ => PRet (Refused MNone) | Raised x => PThrow x end))) as Hn.
  { apply getPendingState_follows. intros r. follow. }
  destruct (if truthy t && attemptStore cfg then t else None); [|exact Hn].
  constructor. intros [[a|]|]; [|exact Hn|constructor]. follow.
Qed.

Lemma confirm_follows ext u t b : follows HFree (confirm cfg ext u t b).
Proof.
  unfold confirm. destruct (requiresApprovalToken cfg && _); [constructor|].
  apply getPendingState_follows. intros [s|]; [|constructor].
  case_match; [constructor|]. constructor; [constructor| |].
  - apply confirmMissing_follows.
  - intros. by apply confirmClaimed_follows.
Qed.

Lemma cancelQuietly_follows h e n k : follows h k → follows h (cancelQuietly e n k).
Proof. intros. unfold cancelQuietly. follow. Qed.

Lemma ifAborted_follows h i y n : follows h y → follows h n → follows h (ifAborted i y n).
Proof. intros. unfold ifAborted. follow. Qed.

Lemma stage_follows i n now : follows (HFresh n) (stage cfg sha256 i n now).
Proof.
  unfold stage. apply ifAborted_follows; [constructor|]. case_match; [constructor|].
  constructor. intros [es|]; apply ifAborted_follows; try by follow.
  destruct (head _); [|constructor]. destruct (getRescheduleScopeFailureReason _ _); [constructor|].
  apply ifAborted_follows; [constructor|]. unfold stageSave. constructor; [done|].
  intros [s|]; apply ifAborted_follows; try (by apply cancelQuietly_follows; constructor); follow.
Qed.

Lemma cancelForUser_follows e t : follows HFree (cancelForUser cfg e t).
Proof.
  unfold cancelForUser. case_match; [constructor|]. apply getPendingState_follows. intros r. follow.
Qed.

Lemma recoverRows_follows rs i j : follows HFree (recoverRows cfg rs i j).
Proof.
  revert i j. induction rs as [|[[rowId e] n] rs IH]; intros i j; simpl; [constructor|]. follow.
Qed.

Lemma runRecovery_follows : follows HFree (runRecovery cfg).
Proof. constructor. intros [rs|]; [apply recoverRows_follows|constructor]. Qed.
(** Every method of the service and the cron follow the protocol, on every
    path and for every reply or exception: the calendar is written only with a
    claimed request and a recorded attempt for its token, a program whose write
    committed can neither write again nor put the request back, only a staging
    program stores a request, once and under its fresh token, and only the cron
    re-arms a request it did not claim. *)
Theorem service_follows_protocol ext u t b i n now :
  follows HFree (confirm cfg ext u t b)
  ∧ follows (HFresh n) (stage cfg sha256 i n now)
  ∧ follows HFree (cancelForUser cfg ext t)
  ∧ follows HFree (runRecovery cfg).
Proof.
  split_and!; [by apply confirm_follows|apply stage_follows|apply cancelForUser_follows
              |apply runRecovery_follows].
Qed.
End Protocol.

(** ** The invariant *)

(** The request a program holds: its lease and its token. *)
Definition claims (h : Hold) : option (string * string) :=
  match h with HClaimed _ l n | HBegun _ l n => Some (l, n) | _ => None end.

(** The identifiers a hold mentions. *)
Definition hold_ids (h : Hold) : list string :=
  match h with
  | HFree => []
  | HFresh n => [n]
  | HClaimed _ l n | HBegun _ l n => [l; n]
  end.

Definition recorded (n : string) (t : list Attempt) : Prop := ∃ a, a ∈ t ∧ a_nonce a = n.

(** A token that is claimed or written is never open for another claim. *)
Definition closed (n : string) (t : list Row) : Prop :=
  ∀ r, r ∈ t → nonce r = n → status r ≠ pending.

Record tables_ok (w : World) : Prop := {
  t_keys : unique_on key (rows w);
  t_nonces : unique_on nonce (rows w);
  t_leases r : r ∈ rows w → status r ≠ processing → lease r = None;
  t_used r : r ∈ rows w → nonce r ∈ used w;
  t_lused r l : r ∈ rows w → lease r = Some l → l ∈ used w
}.

Record claim_ok (w : World) (pid : nat) (l n : string) : Prop := {
  c_held : held w !! pid = Some l;
  c_closed : closed n (rows w);
  c_lease r : r ∈ rows w → nonce r = n → status r = processing → lease r = Some l;
  c_token r : r ∈ rows w → lease r = Some l → nonce r = n;
  c_unwritten : n ∉ writes w
}.

(** [H] gives what each running program holds. *)
Record core (w : World) (H : gmap nat Hold) : Prop := {
  i_tables : tables_ok w;
  i_used pid h x : H !! pid = Some h → x ∈ hold_ids h → x ∈ used w;
  i_fresh pid n : H !! pid = Some (HFresh n) →
    (∀ r, r ∈ rows w → nonce r ≠ n) ∧ n ∉ writes w
    ∧ ∀ pid' h, H !! pid' = Some h → n ∈ hold_ids h → pid' = pid;
  i_claims pid h l n : H !! pid = Some h → claims h = Some (l, n) → claim_ok w pid l n;
  i_unique pid pid' h h' l l' n : H !! pid = Some h → H !! pid' = Some h' →
    claims h = Some (l, n) → claims h' = Some (l', n) → pid = pid';
  i_begun pid e l n : H !! pid = Some (HBegun e l n) → recorded n (attempts w);
  i_written n : n ∈ writes w → closed n (rows w) ∧ recorded n (attempts w) ∧ n ∈ used w;
  i_once : NoDup (writes w)
}.

Definition typed (w : World) (H : gmap nat Hold) : Prop :=
  ∀ pid p P, procs w !! pid = Some (p, P) → ∃ h, H !! pid = Some h ∧ follows h P.

Lemma claims_ids h l n : claims h = Some (l, n) → l ∈ hold_ids h ∧ n ∈ hold_ids h.
Proof. destruct h; intros [=]; subst; simpl; set_solver. Qed.

(** Holding less is always fine. *)
Lemma core_sub w H H' :
  core w H → (∀ pid h, H' !! pid = Some h → H !! pid = Some h ∨ h = HFree) → core w H'.
Proof.
  intros [] Hsub. split; try done.
  - intros pid h x Hp Hx. destruct (Hsub _ _ Hp) as [?| ->]; [eauto|]. by apply not_elem_of_nil in Hx.
  - intros pid n Hp. destruct (Hsub _ _ Hp) as [Hp'|]; [|done].
    destruct (i_fresh0 pid n Hp') as (? & ? & Hu). split_and!; try done.
    intros pid' h Hh Hn. destruct (Hsub _ _ Hh) as [?| ->]; [eauto|].
    by apply not_elem_of_nil in Hn.
  - intros pid h l n Hp Hc. destruct (Hsub _ _ Hp) as [?| ->]; [eauto|done].
  - intros pid pid' h h' l l' n Hp Hp' Hc Hc'.
    destruct (Hsub _ _ Hp) as [?| ->]; [|done]. destruct (Hsub _ _ Hp') as [?| ->]; [eauto|done].
  - intros pid e l n Hp. destruct (Hsub _ _ Hp) as [?|]; [eauto|done].
Qed.

Lemma core_free w H pid : core w H → core w (<[pid := HFree]> H).
Proof.
  intros Hc. eapply core_sub; [done|]. intros q h [[_ <-]|[_ ?]]%lookup_insert_Some; auto.
Qed.

(** Rows removed, or taken out of circulation. *)
Lemma core_shrink w H t' :
  core w H → unique_on key t' → unique_on nonce t' →
  (∀ r', r' ∈ t' → ∃ r, r ∈ rows w ∧ nonce r' = nonce r
     ∧ (status r' = pending → status r = pending)
     ∧ (status r' = processing → status r = processing ∧ lease r' = lease r)
     ∧ (status r' ≠ processing → lease r' = None)) →
  core (with_rows t' w) H.
Proof.
  intros [[U1 U2 L Us Ul] ] Hk Hn Hs.
  assert (∀ r' l, r' ∈ t' → lease r' = Some l →
    ∃ r, r ∈ rows w ∧ nonce r' = nonce r ∧ lease r = Some l) as Hlease.
  { intros r' l Hin Hl. destruct (Hs r' Hin) as (r & Hr & Hnn & _ & Hp & Hnp).
    destruct (decide (status r' = processing)) as [Hst|Hst].
    - destruct (Hp Hst) as [_ E]. exists r. by rewrite <-E.
    - by rewrite (Hnp Hst) in Hl. }
  assert (∀ n, closed n (rows w) → closed n t') as Hcl.
  { intros n Hc r' Hin Hnn Hst. destruct (Hs r' Hin) as (r & Hr & E & Hpd & _).
    apply (Hc r Hr); [congruence|auto]. }
  split; try done; simpl.
  - split; simpl; try done.
    + intros r' Hin. destruct (Hs r' Hin) as (r & _ & _ & _ & _ & ?). done.
    + intros r' Hin. destruct (Hs r' Hin) as (r & Hr & -> & _). by apply Us.
    + intros r' l Hin Hl. destruct (Hlease r' l Hin Hl) as (r & Hr & _ & ?). eauto.
  - intros pid n Hp. destruct (i_fresh0 pid n Hp) as (Hf & ? & ?). split_and!; try done.
    intros r' Hin. destruct (Hs r' Hin) as (r & Hr & -> & _). by apply Hf.
  - intros pid h l n Hp Hc. destruct (i_claims0 pid h l n Hp Hc) as [C1 C2 C3 C4 C5].
    split; simpl; try done; [by apply Hcl| |].
    + intros r' Hin Hnn Hst. destruct (Hs r' Hin) as (r & Hr & E & _ & Hpr & _).
      destruct (Hpr Hst) as [Hst' ->]. apply C3; [done|congruence|done].
    + intros r' Hin Hl. destruct (Hlease r' l Hin Hl) as (r & Hr & -> & ?). eauto.
  - intros n Hw. destruct (i_written0 n Hw) as (? & ? & ?). split_and!; auto.
Qed.

Lemma core_delete w H sel : core w H → core (with_rows (tbl_delete sel (rows w)) w) H.
Proof.
  intros Hc. pose proof (i_tables _ _ Hc) as T. apply core_shrink; [done|by apply unique_on_filter, T..|].
  intros r [_ Hin]%elem_of_tbl_delete. exists r. split_and!; try done. by apply T.
Qed.

Lemma core_cancelStale w H i : core w H → core (with_rows (cancelStaleRow i (rows w)) w) H.
Proof.
  intros Hc. pose proof (i_tables _ _ Hc) as T. apply core_shrink; [done|..].
  1,2: by apply unique_on_update, T.
  intros r' (r & Hin & ->)%elem_of_tbl_update. exists r. destruct (in_flight i r); simpl.
  - split_and!; done.
  - split_and!; try done. by apply T.
Qed.

(** Rows in flight whose token nobody holds or has written are re-armed. *)
Lemma core_rearm w H sel now :
  core w H →
  (∀ r, r ∈ rows w → sel r = true →
     nonce r ∉ writes w ∧ ∀ pid h l, H !! pid = Some h → claims h ≠ Some (l, nonce r)) →
  core (with_rows (tbl_update sel (rearm now) (rows w)) w) H.
Proof.
  intros [[U1 U2 L Us Ul] ] Hsel.
  assert (∀ n, closed n (rows w) → (∀ r, r ∈ rows w → sel r = true → nonce r ≠ n) →
            closed n (tbl_update sel (rearm now) (rows w))) as Hcl.
  { intros n Hc Hno r' (r & Hin & ->)%elem_of_tbl_update. destruct (sel r) eqn:E; simpl; [|by apply Hc].
    intros Hn. by destruct (Hno r Hin E). }
  split; try done; simpl.
  - split; simpl; [by apply unique_on_update..| | |].
    + intros r' (r & Hin & ->)%elem_of_tbl_update. destruct (sel r); simpl; [done|by apply L].
    + intros r' (r & Hin & ->)%elem_of_tbl_update. destruct (sel r); simpl; by apply Us.
    + intros r' l (r & Hin & ->)%elem_of_tbl_update. destruct (sel r); simpl; [done|by apply Ul].
  - intros pid n Hp. destruct (i_fresh0 pid n Hp) as (Hf & ? & ?). split_and!; try done.
    intros r' (r & Hin & ->)%elem_of_tbl_update. destruct (sel r); simpl; by apply Hf.
  - intros pid h l n Hp Hc. destruct (i_claims0 pid h l n Hp Hc) as [C1 C2 C3 C4 C5].
    split; simpl; try done.
    + apply Hcl; [done|]. intros r Hin Hs E. destruct (Hsel r Hin Hs) as [_ Hno].
      apply (Hno pid h l Hp). by rewrite E.
    + intros r' (r & Hin & ->)%elem_of_tbl_update. destruct (sel r); simpl; [done|by apply C3].
    + intros r' (r & Hin & ->)%elem_of_tbl_update. destruct (sel r); simpl; [done|by apply C4].
  - intros n Hw. destruct (i_written0 n Hw) as (? & ? & ?). split_and!; try done.
    apply Hcl; [done|]. intros r Hin Hs E. destruct (Hsel r Hin Hs) as [Hno _]. by rewrite E in Hno.
Qed.

(** Attempts recorded are kept, except those of a token nobody needs. *)
Lemma core_attempts w H t' :
  core w H →
  (∀ n, recorded n (attempts w) →
     n ∈ writes w ∨ (∃ pid e l, H !! pid = Some (HBegun e l n)) → recorded n t') →
  core (with_attempts t' w) H.
Proof.
  intros [] Hr. split; try done; simpl.
  - by destruct i_tables0.
  - intros pid h l n Hp Hc. by destruct (i_claims0 pid h l n Hp Hc).
  - intros pid e l n Hp. apply Hr; eauto 6.
  - intros n Hw. destruct (i_written0 n Hw) as (? & ? & ?). auto.
Qed.

(** A program that claims gets the row: the lease is new, so nobody else's. *)
Lemma core_claim w H p ext u b l now r :
  core w H → l ∉ used w → r ∈ rows w → takeable p ext u b now r = true →
  core (mkWorld (tbl_update (takeable p ext u b now) (claimRow l now) (rows w)) (attempts w)
          (nextId w) (l :: used w) (procs w) (held w) (writes w)) H.
Proof.
  intros [[U1 U2 L Us Ul] ] Hl Hin Htake.
  assert (∀ r, takeable p ext u b now r = true → status r = pending) as Hpend.
  { intros r0 H0. unfold takeable, has_status in H0. bool_to_prop. done. }
  assert (∀ n, closed n (rows w) →
    closed n (tbl_update (takeable p ext u b now) (claimRow l now) (rows w))) as Hcl.
  { intros n Hc r' (r0 & Hr0 & ->)%elem_of_tbl_update. destruct (takeable _ _ _ _ _ r0); [done|by apply Hc]. }
  split; try done; simpl.
  - split; simpl; [by apply unique_on_update..| | |].
    + intros r' (r0 & Hr0 & ->)%elem_of_tbl_update. destruct (takeable _ _ _ _ _ r0); [done|by apply L].
    + intros r' (r0 & Hr0 & ->)%elem_of_tbl_update. right.
      destruct (takeable _ _ _ _ _ r0); simpl; by apply Us.
    + intros r' l' (r0 & Hr0 & ->)%elem_of_tbl_update.
      destruct (takeable _ _ _ _ _ r0); simpl; [intros [= ->]; left|right; eauto].
  - intros pid h x Hp Hx. right. eauto.
  - intros pid n Hp. destruct (i_fresh0 pid n Hp) as (Hf & ? & ?). split_and!; try done.
    intros r' (r0 & Hr0 & ->)%elem_of_tbl_update. destruct (takeable _ _ _ _ _ r0); simpl; by apply Hf.
  - intros pid h l' n Hp Hc. destruct (i_claims0 pid h l' n Hp Hc) as [C1 C2 C3 C4 C5].
    split; simpl; try done; [by apply Hcl| |].
    + intros r' (r0 & Hr0 & ->)%elem_of_tbl_update. destruct (takeable _ _ _ _ _ r0) eqn:E; simpl.
      * intros Hn _. by destruct (C2 r0 Hr0 Hn (Hpend _ E)).
      * by apply C3.
    + intros r' (r0 & Hr0 & ->)%elem_of_tbl_update. destruct (takeable _ _ _ _ _ r0) eqn:E; simpl.
      * intros [= ->]. destruct Hl. apply (i_used0 pid h); [done|]. by apply (claims_ids h l' n).
      * by apply C4.
  - intros n Hw. destruct (i_written0 n Hw) as (? & ? & ?). split_and!; auto. by right.
Qed.

(** Only one row can match the key of a claim. *)
Lemma takeable_unique w H p ext u b now r r' :
  core w H → r ∈ rows w → r' ∈ rows w → takeable p ext u b now r = true →
  takeable p ext u b now r' = true → r' = r.
Proof.
  intros Hc Hin Hin' Ht Ht'. unfold takeable, at_key in Ht, Ht'. bool_to_prop.
  eapply (unique_on_eq key); [apply Hc|done..|congruence].
Qed.

Lemma core_hold_claim w H pid p e u b l now r :
  core w H → l ∉ used w → r ∈ rows w → takeable p e u b now r = true →
  core (mkWorld (tbl_update (takeable p e u b now) (claimRow l now) (rows w)) (attempts w)
          (nextId w) (l :: used w) (procs w) (<[pid := l]> (held w)) (writes w))
    (<[pid := HClaimed e l (nonce r)]> H).
Proof.
  intros Hc Hl Hin Htake.
  pose proof (core_claim w H p e u b l now r Hc Hl Hin Htake) as Hc'.
  assert (status r = pending) as Hst by (unfold takeable, has_status in Htake; bool_to_prop; done).
  assert (nonce r ∉ writes w) as Hnw.
  { intros Hw. destruct (i_written _ _ Hc _ Hw) as (Hcl & _). by apply (Hcl r). }
  assert (∀ q h l', H !! q = Some h → claims h ≠ Some (l', nonce r)) as Hnone.
  { intros q h l' Hq Hcl. destruct (i_claims _ _ Hc _ _ _ _ Hq Hcl) as [_ C _ _ _]. by apply (C r). }
  destruct Hc' as [T]. split; try done; simpl.
  - by destruct T.
  - intros q h x [[<- <-]|[_ Hq]]%lookup_insert_Some Hx; simpl in *; [|eauto].
    apply elem_of_cons in Hx as [->|[->|[]%not_elem_of_nil]%elem_of_cons]; [left|right].
    by apply (i_tables _ _ Hc).
  - intros q n [[<- [=]]|[Hne Hq]]%lookup_insert_Some. destruct (i_fresh0 q n Hq) as (Hf & ? & Hu).
    split_and!; try done. intros q' h [[<- <-]|[_ Hq']]%lookup_insert_Some Hx; simpl in *; [|eauto].
    exfalso. apply elem_of_cons in Hx as [->|[->|[]%not_elem_of_nil]%elem_of_cons].
    + apply Hl. eapply (i_used _ _ Hc); [exact Hq|left].
    + destruct (i_fresh _ _ Hc _ _ Hq) as (Hf' & _). by apply (Hf' r).
  - intros q h l' n [[<- <-]|[Hne Hq]]%lookup_insert_Some Hcl; simpl in *.
    + simplify_eq. split; simpl; [by rewrite lookup_insert_eq| | | |done].
      * intros r' (r0 & Hr0 & ->)%elem_of_tbl_update Hn Hp.
        assert (r0 = r) as ->.
        { eapply (unique_on_eq nonce); [apply Hc|done..|]. by destruct (takeable _ _ _ _ _ r0). }
        by rewrite Htake in Hp.
      * intros r' (r0 & Hr0 & ->)%elem_of_tbl_update Hn Hp.
        assert (r0 = r) as ->.
        { eapply (unique_on_eq nonce); [apply Hc|done..|]. by destruct (takeable _ _ _ _ _ r0). }
        by rewrite Htake.
      * intros r' (r0 & Hr0 & ->)%elem_of_tbl_update. destruct (takeable _ _ _ _ _ r0) eqn:E; simpl.
        -- intros _. f_equal. by eapply takeable_unique.
        -- intros Hl0. destruct Hl. by eapply (t_lused _ (i_tables _ _ Hc)).
    + destruct (i_claims0 q h l' n Hq Hcl) as [C1 C2 C3 C4 C5]. split; simpl; try done.
      by rewrite lookup_insert_ne.
  - intros q q' h h' l1 l2 n [[<- <-]|[Hne Hq]]%lookup_insert_Some
      [[<- <-]|[Hne' Hq']]%lookup_insert_Some Hcl Hcl'; simpl in *; [done|..]; simplify_eq.
    + by destruct (Hnone q' h' l2 Hq').
    + by destruct (Hnone q h l1 Hq).
    + eauto.
  - intros q e' l' n [[_ [=]]|[_ Hq]]%lookup_insert_Some. eauto.
Qed.

(** Changing what one program holds on the same request. *)
Lemma core_rehold w H pid h h' :
  core w H → H !! pid = Some h → claims h' = claims h → is_Some (claims h) →
  (∀ e l n, h' = HBegun e l n → recorded n (attempts w)) →
  core w (<[pid := h']> H).
Proof.
  intros [] Hp Hcl [[l0 n0] Hs] Hb.
  assert (hold_ids h' = hold_ids h) as Hids.
  { rewrite Hs in Hcl. destruct h; simplify_eq/=; destruct h'; simplify_eq/=; done. }
  split; try done.
  - intros q x y [[<- <-]|[_ Hq]]%lookup_insert_Some Hy; [|eauto]. rewrite Hids in Hy. eauto.
  - intros q n [[<- ->]|[Hne Hq]]%lookup_insert_Some; [by rewrite Hs in Hcl|].
    destruct (i_fresh0 q n Hq) as (? & ? & Hu). split_and!; try done.
    intros q' x [[<- <-]|[_ Hq']]%lookup_insert_Some Hx; [|eauto]. rewrite Hids in Hx. eauto.
  - intros q x l n [[<- <-]|[_ Hq]]%lookup_insert_Some Hc; [|eauto]. rewrite Hcl in Hc. eauto.
  - intros q q' x x' l l' n [[<- <-]|[_ Hq]]%lookup_insert_Some
      [[<- <-]|[_ Hq']]%lookup_insert_Some; rewrite ?Hcl; eauto.
  - intros q e l n [[<- ->]|[_ Hq]]%lookup_insert_Some; eauto.
Qed.

(** A committed write retires its token. *)
Lemma core_commit w H pid e l n :
  core w H → H !! pid = Some (HBegun e l n) →
  core (mkWorld (rows w) (attempts w) (nextId w) (used w) (procs w) (held w) (n :: writes w))
    (<[pid := HFree]> H).
Proof.
  intros Hc Hp. destruct (i_claims _ _ Hc _ _ l n Hp eq_refl) as [C1 C2 C3 C4 C5].
  assert (∀ q h l', q ≠ pid → H !! q = Some h → claims h ≠ Some (l', n)) as Hnone.
  { intros q h l' Hne Hq Hcl. apply Hne. by eapply (i_unique _ _ Hc). }
  pose proof (i_begun _ _ Hc _ _ _ _ Hp) as Hr.
  assert (n ∈ used w) as Hu by (eapply (i_used _ _ Hc); [exact Hp|right; left]).
  pose proof (i_unique _ _ Hc) as Huniq.
  destruct (core_free w H pid Hc) as [T]. split; simpl; try done.
  - by destruct T.
  - intros q m Hq. destruct (i_fresh0 q m Hq) as (? & Hm & Hu'). split_and!; try done.
    intros [->|?]%elem_of_cons; [|done].
    apply lookup_insert_Some in Hq as [[_ [=]]|[Hne Hq]]. apply Hne.
    destruct (i_fresh _ _ Hc q n Hq) as (_ & _ & Hx). apply (Hx pid (HBegun e l n)); [done|].
    right. left.
  - intros q h l' m Hq Hcl. destruct (i_claims0 q h l' m Hq Hcl) as [D1 D2 D3 D4 D5].
    split; simpl; try done. intros [->|?]%elem_of_cons; [|done].
    apply lookup_insert_Some in Hq as [[_ <-]|[Hne Hq]]; [done|]. by apply (Hnone q h l').
  - intros m [->|Hm]%elem_of_cons; [done|eauto].
  - by constructor.
Qed.

(** Replacing the row of a key by one with a new token keeps tokens unique. *)
Lemma unique_nonce_replace k n (f : Row → Row) t :
  unique_on key t → unique_on nonce t → (∀ r, r ∈ t → nonce r ≠ n) →
  (∀ r, nonce (f r) = n) → unique_on nonce (tbl_update (at_key k) f t).
Proof.
  unfold unique_on, tbl_update. intros Hk Hn Hno Hf.
  induction t as [|r t IH]; [constructor|]. rewrite !fmap_cons in *.
  apply NoDup_cons in Hk as [Hk1 Hk2]. apply NoDup_cons in Hn as [Hn1 Hn2].
  specialize (IH Hk2 Hn2 (λ r' Hr', Hno r' ltac:(by right))). constructor; [|done].
  intros (y & Hy & (r' & -> & Hr')%list_elem_of_fmap)%list_elem_of_fmap.
  destruct (at_key k r) eqn:E1, (at_key k r') eqn:E2; unfold at_key in *; bool_to_prop.
  - apply Hk1. rewrite E1, <-E2. by apply list_elem_of_fmap_2.
  - apply (Hno r'); [by right|]. by rewrite <-Hy, Hf.
  - apply (Hno r); [left|]. by rewrite Hy, Hf.
  - apply Hn1. rewrite Hy. by apply list_elem_of_fmap_2.
Qed.

(** What [save] leaves: the old rows, and at most the new token, open. *)
Lemma save_rows p uuid i y n t :
  unique_on key t → unique_on nonce t → (∀ r, r ∈ t → nonce r ≠ n) →
  (∀ r, r ∈ t → status r ≠ processing → lease r = None) → pr_nonce y = Some n →
  unique_on key (save p uuid i y t).1 ∧ unique_on nonce (save p uuid i y t).1
  ∧ ∀ r', r' ∈ (save p uuid i y t).1 →
      r' ∈ t ∨ (nonce r' = n ∧ status r' = pending ∧ lease r' = None).
Proof.
  intros Uk Un Hno Hl Hy. unfold save, tbl_upsert.
  assert (nonce (newRow p uuid i y) = n) as Hnew by (simpl; by rewrite Hy).
  destruct (head _) as [old|] eqn:Hh.
  - apply tbl_select_head in Hh as [Hin Hk]. unfold at_key in Hk. simpl in Hk.
    destruct (has_status processing old) eqn:Hst; simpl; [by auto|].
    split_and!; [by apply unique_on_update|by apply (unique_nonce_replace _ n)|].
    intros r' (r & Hr & ->)%elem_of_tbl_update. destruct (at_key _ r) eqn:E; [|by left].
    right. split_and!; [done..|]. simpl. apply Hl; [done|].
    assert (r = old) as ->; [|by unfold has_status in Hst; bool_to_prop].
    unfold at_key in E. bool_to_prop. eapply (unique_on_eq key); [done..|congruence].
  - simpl. pose proof (λ r, tbl_select_head_None _ t r Hh) as Hnone.
    split_and!.
    + apply unique_on_snoc; [|done]. intros r Hr Hk. specialize (Hnone r Hr).
      unfold at_key in Hnone. bool_to_prop. by apply Hnone.
    + apply unique_on_snoc; [|done]. intros r Hr. rewrite Hnew. by apply Hno.
    + intros r' [?|Hx%list_elem_of_singleton]%elem_of_app; [by left|]. subst. right. by split_and!.
Qed.

Lemma core_save w H pid p uuid n y :
  core w H → H !! pid = Some (HFresh n) → pr_nonce y = Some n →
  core (mkWorld (save p uuid (nextId w) y (rows w)).1 (attempts w) (nextId w + 1) (uuid :: used w)
          (procs w) (held w) (writes w)) (<[pid := HFree]> H).
Proof.
  intros Hc Hp Hy. destruct (i_fresh _ _ Hc _ _ Hp) as (Hno & Hw & Hu).
  assert (n ∈ used w) as Hnu by (eapply (i_used _ _ Hc); [exact Hp|left]).
  pose proof (i_tables _ _ Hc) as [U1 U2 L Us Ul].
  destruct (save_rows p uuid (nextId w) y n (rows w) U1 U2 Hno L Hy) as (V1 & V2 & Hr).
  assert (∀ q h, <[pid := HFree]> H !! q = Some h → n ∉ hold_ids h) as Hnone.
  { intros q h [[_ <-]|[Hne Hq]]%lookup_insert_Some; [apply not_elem_of_nil|].
    intros Hx. apply Hne. symmetry. by eapply Hu. }
  assert (∀ m, m ≠ n → closed m (rows w) → closed m (save p uuid (nextId w) y (rows w)).1) as Hcl.
  { intros m Hm Hcm r' Hr'. destruct (Hr r' Hr') as [?|(E & _)]; [by apply Hcm|]. congruence. }
  destruct (core_free w H pid Hc) as [T]. split; simpl; try done.
  - split; simpl; try done.
    + intros r' Hr'. destruct (Hr r' Hr') as [?|(_ & _ & ->)]; [by apply L|done].
    + intros r' Hr'. right. destruct (Hr r' Hr') as [?|(-> & _)]; [by apply Us|done].
    + intros r' l Hr' Hl. right. destruct (Hr r' Hr') as [?|(_ & _ & E)]; [eauto|congruence].
  - intros q h x Hq Hx. right. eauto.
  - intros q m Hq. destruct (i_fresh0 q m Hq) as (Hf & ? & ?). split_and!; try done.
    intros r' Hr' <-. destruct (Hr r' Hr') as [?|(E & _)]; [by apply (Hf r')|].
    apply (Hnone q _ Hq). rewrite <-E. left.
  - intros q h l m Hq Hclm. destruct (i_claims0 q h l m Hq Hclm) as [D1 D2 D3 D4 D5].
    assert (m ≠ n) as Hm by (intros ->; apply (Hnone q h Hq); by apply (claims_ids h l n)).
    split; simpl; try done; [by apply Hcl| |].
    + intros r' Hr'. destruct (Hr r' Hr') as [?|(E & _)]; [by apply D3|]. congruence.
    + intros r' Hr' Hl. destruct (Hr r' Hr') as [?|(_ & _ & E)]; [eauto|congruence].
  - intros m Hm. destruct (i_written0 m Hm) as (? & ? & ?). split_and!; try done; [|by right].
    apply Hcl; [|done]. by intros ->.
Qed.

(** ** One call *)

(** The cron re-arms only what its comment allows: a request without a recorded
    attempt, whose claim no running program has. *)
Definition sound_recovery (rowId : Z) (w : World) : Prop :=
  ∀ r, r ∈ rows w → in_flight rowId r = true →
    ¬ recorded (nonce r) (attempts w) ∧ ∀ pid l, held w !! pid = Some l → lease r ≠ Some l.

(** A calendar write that throws did not change the calendar. *)
Definition honest_write (x : Reply) : Prop :=
  match x_write x with Raised _ => x_committed x = false | Got _ => True end.

Definition sound_call (x : Reply) (w : World) (P : Prog) : Prop :=
  honest_write x ∧ match P with PRevertStale i _ => sound_recovery i w | _ => True end.

(** The next state of a program and what it holds then. *)
Definition goes_on (H : gmap nat Hold) (pid : nat) (s : World * Prog) : Prop :=
  ∃ h, core s.1 (<[pid := h]> H) ∧ follows h s.2.

Lemma call_goes_on {A} H pid f w w' (a : A) k h1 h2 :
  core w (<[pid := h2]> H) → core w' (<[pid := h2]> H) → core w' (<[pid := h1]> H) →
  follows h1 (k (Got a)) → (∀ e, follows h2 (k (Raised e))) →
  goes_on H pid (call f w w' a k).
Proof. intros Hw Hw' Hw1 Hg Hr. destruct f; simpl; [exists h1|exists h2..]; simpl; auto. Qed.

(** A call that keeps the hold. *)
Lemma call_keeps {A} H pid f w w' (a : A) k h :
  H !! pid = Some h → core w H → core w' H → (∀ r, follows h (k r)) →
  goes_on H pid (call f w w' a k).
Proof.
  intros Hp Hw Hw' Hk. apply (call_goes_on _ _ _ _ _ _ _ h h); rewrite ?insert_id; auto.
Qed.

Lemma attempt_kept sel f m t :
  (∀ a, a_nonce (f a) = a_nonce a) → recorded m t → recorded m (tbl_update sel f t).
Proof.
  intros Hf (a & Hin & Ha). exists (if sel a then f a else a). split.
  - apply elem_of_tbl_update. by exists a.
  - destruct (sel a); by rewrite ?Hf.
Qed.

Lemma recorded_begin p e n u m t : recorded m t → recorded m (beginAttempt p e n u t).
Proof.
  intros Hr. unfold beginAttempt, tbl_upsert. destruct (head _); simpl.
  - by apply attempt_kept.
  - destruct Hr as (a & Hin & Ha). exists a. split; [|done]. apply elem_of_app. by left.
Qed.

Lemma recorded_begun p e n u t : recorded n (beginAttempt p e n u t).
Proof.
  unfold beginAttempt, tbl_upsert. destruct (head _) as [a|] eqn:Hh; simpl.
  - apply tbl_select_head in Hh as [Hin Ha]. apply attempt_kept; [done|]. exists a.
    unfold at_attempt in Ha. by bool_to_prop.
  - exists (newAttempt p e n u). split; [|done]. apply elem_of_app. right. left.
Qed.

Lemma recorded_clear p e n m t : m ≠ n → recorded m t → recorded m (clearAttempt p e n t).
Proof.
  intros Hne (a & Hin & Ha). exists a. split; [|done]. apply elem_of_tbl_delete. split; [|done].
  unfold at_attempt. rewrite (bool_decide_false (a_nonce a = n)) by congruence.
  by rewrite andb_false_r.
Qed.

Lemma core_used w H y :
  core w H →
  core (mkWorld (rows w) (attempts w) (nextId w) (y :: used w) (procs w) (held w) (writes w)) H.
Proof.
  intros [[] ]. split; try done; simpl.
  - split; simpl; try done; intros; right; eauto.
  - intros; right; eauto.
  - intros q h l n Hq Hcl. by destruct (i_claims0 q h l n Hq Hcl).
  - intros n Hw. destruct (i_written0 n Hw) as (? & ? & ?). split_and!; try done. by right.
Qed.

Lemma exec_take w H pid p x ext u b k :
  core w H → H !! pid = Some HFree → follows HFree (PTake ext u b k) → x_uuid x ∉ used w →
  goes_on H pid (exec pid p x w (PTake ext u b k)).
Proof.
  intros Hc Hp Hf Hfresh. inversion Hf as [| | | | | | | | | | | | | | | |? ? ? ? Hr Hn Hs| | | | |].
  subst. simpl. unfold takeValid.
  destruct (tbl_select _ (rows w)) as [|r rest] eqn:Hsel; simpl.
  - assert (∀ r, r ∈ rows w → takeable p ext u b (x_now x) r = false) as Hno.
    { intros r Hr0. apply not_true_iff_false. intros Ht. eapply not_elem_of_nil.
      rewrite <-Hsel. by apply elem_of_tbl_select. }
    rewrite tbl_update_none by done. pose proof (core_used w H (x_uuid x) Hc) as Hu.
    destruct (x_fate x); simpl; exists HFree; rewrite (insert_id H) by done; (split; first [exact Hu | exact Hc | exact Hn | apply Hr]).
  - assert (r ∈ rows w ∧ takeable p ext u b (x_now x) r = true) as [Hin Ht].
    { assert (r ∈ tbl_select (takeable p ext u b (x_now x)) (rows w)) as Hr0
        by (rewrite Hsel; left). by apply elem_of_tbl_select in Hr0 as [? ?]. }
    pose proof (core_claim w H p ext u b (x_uuid x) (x_now x) r Hc Hfresh Hin Ht) as Hclaim.
    destruct (x_fate x) as [|e|e]; simpl.
    + exists (HClaimed ext (x_uuid x) (nonce r)). simpl. split; [by apply core_hold_claim|].
      exact (Hs (mapRow p (claimRow (x_uuid x) (x_now x) r)) _ _ eq_refl eq_refl).
    + exists HFree. rewrite (insert_id H) by done. split; [exact Hc|apply Hr].
    + exists HFree. rewrite (insert_id H) by done. split; [exact Hclaim|apply Hr].
Qed.

Lemma exec_keeps w H pid p x P h :
  core w H → H !! pid = Some h → follows h P → (draws P = true → x_uuid x ∉ used w) →
  sound_call x w P → goes_on H pid (exec pid p x w P).
Proof.
  intros Hc Hp Hf Hfresh [Hhon Hsound]. pose proof Hf as Hf0.
  destruct Hf as [| | | | | | | | | | | | | | |i k Hk|ext u b k Hk1 Hk2 Hk3|e l n k Hk
    |e l n u k Hk1 Hk2|e l n y k Hy Hk1 Hk2|e l n k Hk|n y k Hy Hk];
    try (by (exists h; rewrite insert_id; eauto using follows)).
  all: try (by apply exec_take; [..|apply Hfresh]).
  all: simpl; try (exists h; rewrite (insert_id H) by done; split; [exact Hc|simpl; by auto]).
  all: try (eapply call_keeps; [done|done| |done]; first [done|by apply core_delete]).
  - unfold cancelPending. destruct (tbl_exists _ _).
    + eapply call_keeps; [done|done|by apply core_delete|done].
    + eapply call_keeps; [done|done| |done]. by destruct w.
  - eapply call_keeps; [done|done| |done]. apply core_attempts; [done|]. intros m Hm _.
    by apply attempt_kept.
  - eapply call_keeps; [done|done|by apply core_cancelStale|done].
  - eapply call_keeps; [done|done| |done]. apply core_rearm; [done|]. intros r Hr Hin.
    destruct (Hsound r Hr Hin) as [Hrec Hheld]. split.
    + intros Hw. apply Hrec. by apply (i_written _ _ Hc).
    + intros q h l Hq Hcl. destruct (i_claims _ _ Hc _ _ _ _ Hq Hcl) as [C1 _ C3 _ _].
      apply (Hheld q l C1). apply C3; [done..|]. unfold in_flight, has_status in Hin.
      by bool_to_prop.
  - pose proof (core_free w H pid Hc) as Hc'.
    eapply (call_goes_on _ _ _ _ _ _ _ HFree HFree); auto; apply core_rearm; try done;
      intros r Hr Hl; unfold leased in Hl; bool_to_prop;
      destruct (i_claims _ _ Hc _ _ l n Hp eq_refl) as [C1 C2 C3 C4 C5];
      (rewrite (C4 r) by done); (split; [done|]);
      intros q h l' [[_ <-]|[Hne Hq]]%lookup_insert_Some Hcl; try done;
      apply Hne; by apply (i_unique _ _ Hc pid q (HClaimed e l n) h l l' n).
  - assert (core (with_attempts (beginAttempt p e n u (attempts w)) w) H) as Hc'.
    { apply core_attempts; [done|]. intros m Hm _. by apply recorded_begin. }
    eapply (call_goes_on _ _ _ _ _ _ _ (HBegun e l n) HFree); auto using core_free.
    eapply core_rehold; [done..|by eexists|]. intros ??? [= <- <- <-]. apply recorded_begun.
  - unfold goes_on. simpl. unfold honest_write in Hhon. destruct (x_write x) as [lbl|er].
    + exists HFree. split; [|done]. destruct (x_committed x); [|by destruct w; apply core_free].
      unfold write_token. rewrite Hy. by eapply core_commit.
    + rewrite Hhon. exists (HClaimed e l n). split; [|done].
      eapply core_rehold; [by destruct w|done..|by eexists|]. done.
  - eapply call_keeps; [done|done| |done]. apply core_attempts; [done|]. intros m Hm Hneed.
    apply recorded_clear; [|done]. intros ->. destruct Hneed as [Hw|(q & e' & l' & Hq)].
    + by destruct (i_claims _ _ Hc _ _ l n Hp eq_refl).
    + assert (q = pid) as -> by by eapply (i_unique _ _ Hc q pid). congruence.
  - pose proof (core_free w H pid Hc). pose proof (core_save w H pid p (x_uuid x) n y Hc Hp Hy) as Hs.
    destruct (save _ _ _ _ _) as [t b]. by apply (call_goes_on _ _ _ _ _ _ _ HFree HFree).
Qed.

(** ** The system *)

Section AtMostOnce.
Context (cfg : Config) (sha256 : string → string).
Hypothesis (Htoken : requiresApprovalToken cfg = true) (Hstore : attemptStore cfg = true).

Definition inv (w : World) : Prop := ∃ H, core w H ∧ typed w H.

Definition sound_event (e : Event) (w : World) : Prop :=
  match e with
  | ERun pid x => match procs w !! pid with Some (_, P) => sound_call x w P | None => True end
  | _ => True
  end.

(** The running programs are not part of the tables. *)
Lemma core_procs w H ps :
  core w H →
  core (mkWorld (rows w) (attempts w) (nextId w) (used w) ps (held w) (writes w)) H.
Proof.
  intros [[] ]. split; try done. intros q h l n Hq Hcl. by destruct (i_claims0 q h l n Hq Hcl).
Qed.

(** Starting or continuing a program. *)
Lemma inv_set w H pid p P h :
  core w (<[pid := h]> H) → typed w H → follows h P → inv (set_proc pid p P w).
Proof.
  intros Hc Ht Hf. exists (<[pid := h]> H). split; [by apply core_procs|].
  intros q p' P'. simpl. rewrite lookup_insert_Some. intros [[<- [= <- <-]]|[Hne Hq]].
  - exists h. by rewrite lookup_insert_eq.
  - rewrite lookup_insert_ne by done. by apply (Ht q p').
Qed.

Lemma inv_drop w H pid h :
  core w (<[pid := h]> H) → typed w H → inv (drop_proc pid w).
Proof.
  intros Hc Ht. exists (delete pid H). split.
  - assert (core w (delete pid H)) as [[] ].
    { eapply core_sub; [exact Hc|]. intros q h' [Hne Hq]%lookup_delete_Some. left.
      by rewrite lookup_insert_ne. }
    split; try done. intros q h' l n Hq Hcl.
    destruct (i_claims0 q h' l n Hq Hcl) as [C1]. split; try done. simpl.
    apply lookup_delete_Some in Hq as [Hne _]. by rewrite lookup_delete_ne.
  - intros q p' P'. simpl. rewrite lookup_delete_Some. intros [Hne Hq].
    rewrite lookup_delete_ne by done. by apply (Ht q p').
Qed.

(** Drawing the token of a new request. *)
Lemma core_fresh w H pid n :
  core w H → n ∉ used w →
  core (mkWorld (rows w) (attempts w) (nextId w) (n :: used w) (procs w) (held w) (writes w))
    (<[pid := HFresh n]> H).
Proof.
  intros Hc Hn. pose proof (core_used w _ n (core_free w H pid Hc)) as Hu.
  assert (∀ q h, <[pid := HFree]> H !! q = Some h → n ∉ hold_ids h) as Hno.
  { intros q h Hq Hx. apply Hn. by eapply (i_used _ _ (core_free w H pid Hc)). }
  destruct Hu. split; try done.
  - intros q h y [[<- <-]|[Hne Hq]]%lookup_insert_Some Hy; simpl in *.
    + apply list_elem_of_singleton in Hy as ->. left.
    + eapply i_used0; [by rewrite lookup_insert_ne|done].
  - intros q m [[<- [= <-]]|[Hne Hq]]%lookup_insert_Some.
    + split_and!.
      * intros r Hr E. apply Hn. rewrite <-E. by apply (i_tables _ _ Hc).
      * intros Hw. apply Hn. by apply (i_written _ _ Hc).
      * intros q h [[<- _]|[Hne Hq]]%lookup_insert_Some Hx; [done|].
        destruct (Hno q h); [by rewrite lookup_insert_ne|done].
    + destruct (i_fresh0 q m) as (? & ? & Hx); [by rewrite lookup_insert_ne|]. split_and!; try done.
      intros q' h [[<- <-]|[Hne' Hq']]%lookup_insert_Some Hm.
      * apply list_elem_of_singleton in Hm as ->. destruct (Hno q (HFresh n)); [|left].
        by rewrite lookup_insert_ne.
      * apply (Hx q' h); [by rewrite lookup_insert_ne|done].
  - intros q h l m [[<- <-]|[Hne Hq]]%lookup_insert_Some Hcl; [done|].
    eapply i_claims0; [by rewrite lookup_insert_ne|done].
  - intros q q' h h' l l' m [[<- <-]|[Hne Hq]]%lookup_insert_Some
      [[<- <-]|[Hne' Hq']]%lookup_insert_Some Hcl Hcl'; try done.
    eapply (i_unique0 q q'); [by rewrite lookup_insert_ne..|done|done].
  - intros q e l m [[_ [=]]|[Hne Hq]]%lookup_insert_Some.
    eapply (i_begun0 q); by rewrite lookup_insert_ne.
Qed.

Lemma exec_procs pid p x w P : procs (exec pid p x w P).1 = procs w.
Proof.
  unfold exec, takeValid, cancelPending, confirmAttempt, save, tbl_upsert, call.
  destruct P; simpl; repeat case_match; simplify_eq/=; done.
Qed.

Lemma inv_step e w w' :
  inv w → sound_event e w → step cfg sha256 e w = Some w' → inv w'.
Proof.
  intros (H & Hc & Ht) Hs Hstep.
  destruct e as [pid p ext u t b|pid p i n now|pid p ext t|pid p|pid x|pid]; simpl in *.
  - destruct (procs w !! pid); simplify_eq. eapply inv_set; [by apply core_free|done|].
    by apply confirm_follows.
  - case_bool_decide as Hn; [done|]. destruct (procs w !! pid); simplify_eq.
    eapply inv_set; [by apply core_fresh|done|apply stage_follows].
  - destruct (procs w !! pid); simplify_eq. eapply inv_set; [by apply core_free|done|].
    apply cancelForUser_follows.
  - destruct (procs w !! pid); simplify_eq. eapply inv_set; [by apply core_free|done|].
    apply runRecovery_follows.
  - destruct (procs w !! pid) as [[p P]|] eqn:Hp; [|done].
    destruct (draws P && bool_decide (x_uuid x ∈ used w)) eqn:Hd; [done|].
    destruct (Ht pid p P Hp) as (h & Hh & Hf).
    assert (draws P = true → x_uuid x ∉ used w) as Hfresh.
    { intros Hdr. rewrite Hdr in Hd. simpl in Hd. by bool_to_prop. }
    destruct (exec_keeps w H pid p x P h Hc Hh Hf Hfresh Hs) as (h' & Hc' & Hf').
    pose proof (exec_procs pid p x w P) as Hpr.
    destruct (exec pid p x w P) as [w1 P1]. simpl in *.
    assert (typed w1 H) as Ht1 by (unfold typed; by rewrite Hpr).
    destruct (finished P1); simplify_eq; [by eapply inv_drop|by eapply inv_set].
  - destruct (procs w !! pid) as [[p P]|] eqn:Hp; simplify_eq.
    destruct (Ht pid p P Hp) as (h & Hh & Hf). eapply (inv_drop _ _ _ h); [|done].
    by rewrite insert_id.
Qed.

Fixpoint sound_run (es : list Event) (w : World) : Prop :=
  match es with
  | [] => True
  | e :: es =>
      sound_event e w
      ∧ match step cfg sha256 e w with Some w' => sound_run es w' | None => True end
  end.

Lemma inv_run es w w' :
  inv w → sound_run es w → run cfg sha256 es w = Some w' → inv w'.
Proof.
  revert w. induction es as [|e es IH]; intros w Hi Hs Hr; simpl in *; [by simplify_eq|].
  destruct Hs as [Hse Hs]. destruct (step cfg sha256 e w) as [w1|] eqn:E; [|done].
  by eapply IH; [eapply inv_step|..].
Qed.

Lemma inv_empty : inv empty_world.
Proof.
  exists ∅. split; [|done]. split; try done.
  - split; simpl; try (by constructor); intros; by apply not_elem_of_nil in H.
  - intros n []%not_elem_of_nil.
  - constructor.
Qed.

(** C9. The calendar write behind one approval token is committed at most once,
    for any number of pods, taps, crashes, lost database replies and cron runs in
    any interleaving, with the production wiring, under two assumptions
    ([sound_run]): a calendar write that throws did not commit, and the cron
    re-arms only requests without a recorded attempt whose claim no running
    program holds. *)
Theorem confirmation_at_most_once (es : list Event) (w : World)
    (Hsound : sound_run es empty_world)
    (Hrun : run cfg sha256 es empty_world = Some w) :
  NoDup (writes w).
Proof. destruct (inv_run es _ w inv_empty Hsound Hrun) as (H & Hc & _). apply Hc. Qed.
End AtMostOnce.

(** ** Witnesses *)

Definition demo_cfg : Config :=
  {| requiresApprovalToken := true; attemptStore := true; consumeBudget := true;
     refundBudget := true; cacheInvalidation := true |}.

Definition demo_token : string := "6f1c2d3e-0a1b-4c2d-8e3f-5a6b7c8d9e0f".

Definition demo_binding : option Binding :=
  Some (mkBinding (Some "zalo") (Some "v1") None None None).

Definition demo_stage : StageInput :=
  {| s_ext := "u1"; s_user := 7; s_calendar := 40; s_mode := default_next_day_same_time;
     s_date := None; s_time := None; s_platform := Some "zalo"; s_mapping := Some "v1";
     s_intent := Some "move"; s_args := Some "args"; s_signal := false |}.

(** A reply at a time: the calendar has the learner's entry, budgets allow and the
    write is committed. *)
Definition demo_reply (now : Z) (uuid : string) : Reply :=
  mkReply now Done uuid (Got true)
    (Got [{| ce_id := 40; ce_label := "Mon 9:00"; ce_owner := Some 7 |}]) (Got "Tue 9:00") true.

Definition demo_run (es : list Event) : option World :=
  run demo_cfg (λ s, s) es empty_world.

Definition times (n : nat) (pid : nat) (now : Z) (uuid : string) : list Event :=
  replicate n (ERun pid (demo_reply now uuid)).

(** Executable forms of the side conditions. *)
Definition sound_recoveryb (rowId : Z) (w : World) : bool :=
  forallb (λ r, negb (in_flight rowId r)
    || forallb (λ a, negb (bool_decide (a_nonce a = nonce r))) (attempts w)
       && forallb (λ e, negb (bool_decide (lease r = Some e.2))) (map_to_list (held w))) (rows w).

Definition sound_eventb (e : Event) (w : World) : bool :=
  match e with
  | ERun pid x =>
      match procs w !! pid with
      | Some (_, P) =>
          match x_write x with Raised _ => negb (x_committed x) | Got _ => true end
          && match P with PRevertStale i _ => sound_recoveryb i w | _ => true end
      | None => true
      end
  | _ => true
  end.

Fixpoint sound_runb (es : list Event) (w : World) : bool :=
  match es with
  | [] => true
  | e :: es =>
      sound_eventb e w
      && match step demo_cfg (λ s, s) e w with
         | Some w' => sound_runb es w' | None => true end
  end.

Lemma sound_recoveryb_ok i w : sound_recoveryb i w = true → sound_recovery i w.
Proof.
  intros Hb r Hr Hin. unfold sound_recoveryb in Hb. rewrite forallb_forall in Hb.
  specialize (Hb r (proj1 (list_elem_of_In _ _) Hr)). rewrite Hin in Hb. simpl in Hb.
  apply andb_true_iff in Hb as [Ha Hh]. rewrite forallb_forall in Ha, Hh. split.
  - intros (a & Hina & Hn). specialize (Ha a (proj1 (list_elem_of_In _ _) Hina)). by bool_to_prop.
  - intros pid l Hl He. assert ((pid, l) ∈ map_to_list (held w)) as Hx by by apply elem_of_map_to_list.
    specialize (Hh _ (proj1 (list_elem_of_In _ _) Hx)). simpl in Hh. by bool_to_prop.
Qed.

Lemma sound_runb_ok es w :
  sound_runb es w = true → sound_run demo_cfg (λ s, s) es w.
Proof.
  revert w. induction es as [|e es IH]; intros w; simpl; [done|].
  intros [He Hs]%andb_true_iff. split.
  - destruct e as [| | | |pid x|]; simpl in *; try done. destruct (procs w !! pid) as [[p P]|]; [|done].
    apply andb_true_iff in He as [Hw Hr]. split.
    + unfold honest_write. destruct (x_write x); [done|]. by bool_to_prop.
    + destruct P; try done. by apply sound_recoveryb_ok.
  - destruct (step _ _ e w); [by apply IH|done].
Qed.

Definition demo_tap (pid : nat) : list Event :=
  [EConfirm pid "zalo" "u1" (Some 7) (Some demo_token) demo_binding].

(** A pod crashes between the claim and the attempt; the cron re-arms the request;
    the learner's next tap writes the calendar and a further one is replayed. *)
Definition demo_recovered : list Event :=
  [EStage 1 "zalo" demo_stage demo_token 0] ++ times 1 1 0 "s1" ++ times 1 1 0 "s2"
  ++ demo_tap 2 ++ times 2 2 1000 "lease1" ++ [ECrash 2]
  ++ [ERecover 3 "zalo"] ++ times 3 3 600000 "none"
  ++ demo_tap 4 ++ times 2 4 601000 "lease2" ++ times 7 4 601000 "none"
  ++ demo_tap 5 ++ times 3 5 602000 "lease3".

Lemma confirmation_at_most_once_witness :
  ∃ w, demo_run demo_recovered = Some w ∧ writes w = [demo_token] ∧ NoDup (writes w).
Proof.
  assert (writes <$> demo_run demo_recovered = Some [demo_token]) as Ew
    by (vm_compute; reflexivity).
  destruct (demo_run demo_recovered) as [w|] eqn:E; [|discriminate Ew].
  exists w. split; [reflexivity|]. split.
  - by injection Ew.
  - apply (confirmation_at_most_once demo_cfg (λ s, s)
      eq_refl eq_refl demo_recovered); [|exact E].
    apply sound_runb_ok. vm_compute. reflexivity.
Defined.

Lemma service_follows_protocol_witness :
  follows HFree (confirm demo_cfg "u1" (Some 7) (Some demo_token) demo_binding).
Proof.
  apply (service_follows_protocol demo_cfg (λ s, s) eq_refl eq_refl
    "u1" (Some 7) (Some demo_token) demo_binding demo_stage "n" 0).
Defined.

(** ** Findings *)

(** Staging and confirming up to the recorded commit; the pod then crashes before
    it deletes the staged row. *)
Definition demo_commit_and_crash : list Event :=
  [EStage 1 "zalo" demo_stage demo_token 0] ++ times 1 1 0 "s1" ++ times 1 1 0 "s2"
  ++ [EConfirm 2 "zalo" "u1" (Some 7) (Some demo_token) demo_binding]
  ++ times 2 2 1000 "lease1" ++ times 5 2 1000 "none" ++ [ECrash 2].

(** The cron looks the attempt up under the stored key, the platform prefix
    included, while the attempt was recorded under the bare id; it finds nothing
    and re-arms the row.  The learner's second tap on the same token then writes
    the calendar again. *)
Lemma recovery_rearms_committed_request :
  writes <$> demo_run
    (demo_commit_and_crash
     ++ [ERecover 3 "zalo"] ++ times 3 3 600000 "none"
     ++ [EConfirm 4 "zalo" "u1" (Some 7) (Some demo_token) demo_binding]
     ++ times 2 4 601000 "lease2" ++ times 4 4 601000 "none")
  = Some [demo_token; demo_token].
Proof. vm_compute. reflexivity. Qed.

End Confirm.
