(* ===== verification/Paging.v ===== *)
(** * Keyset-paged scans (packages/bot-common, paging.utils.ts)

    [iterateMappingPages] walks a table page by page: the cursor of a page is the
    identifier of its last row, and a page shorter than the limit declares no
    continuation.  The handler is a state transformer that may stop the scan. *)

From S2P Require Import Prelude.

Module Paging.

Record MappingPage (A : Type) := mkPage { items : list A; nextId : option Z }.
Arguments mkPage {_} _ _.
Arguments items {_} _.
Arguments nextId {_} _.

Section Scan.
Context {A : Type} (id : A → Z).

(** Wraps the rows of a [LIMIT limit] read. *)
Definition fullPageAsMappingPage (rows : list A) (limit : nat) : MappingPage A :=
  if (length rows =? limit)%nat then mkPage rows (id <$> last rows) else mkPage rows None.

(** [WHERE id > cursor ORDER BY id ASC LIMIT limit], the table being kept in the
    order of its identifiers. *)
Definition after (cursor : option Z) (a : A) : bool :=
  match cursor with Some c => c <? id a | None => true end.

Definition findPage (table : list A) (cursor : option Z) (limit : nat) : list A :=
  take limit (filter (λ a, after cursor a = true) table).

Section Iterate.
Context {S : Type} (fetch : option Z → nat → MappingPage A) (limit : nat)
  (onPage : list A → S → S * bool).

(** The loop, one unit of fuel per fetch; [None] when the fuel runs out. *)
Fixpoint iterateMappingPages (fuel : nat) (cursor : option Z) (s : S) : option S :=
  match fuel with
  | O => None
  | Datatypes.S fuel' =>
      let page := fetch cursor limit in
      match items page with
      | [] => Some s
      | _ =>
          let '(s', stop) := onPage (items page) s in
          if stop then Some s'
          else match nextId page with
               | None => Some s'
               | Some c => iterateMappingPages fuel' (Some c) s'
               end
      end
  end.
End Iterate.

(** The pages a scan without stopping sees. *)
Definition collect (rows : list A) (pages : list (list A)) : list (list A) * bool := (pages ++ [rows], false).

Definition scan (table : list A) (limit fuel : nat) : option (list (list A)) :=
  iterateMappingPages (λ cursor n, fullPageAsMappingPage (findPage table cursor n) n) limit collect
    fuel None [].

(** *** The rows after the cursor *)

Abbreviation sorted := (StronglySorted (λ x y, id x < id y)).

Lemma sorted_app_inv l1 l2 x y : sorted (l1 ++ l2) → x ∈ l1 → y ∈ l2 → id x < id y.
Proof.
  induction l1 as [|z l1 IH]; simpl; intros Hs Hx Hy; [by apply not_elem_of_nil in Hx|].
  apply StronglySorted_inv in Hs as [Hs Hz]. apply elem_of_cons in Hx as [->|Hx]; [|by apply IH].
  rewrite Forall_forall in Hz. apply Hz, elem_of_app. by right.
Qed.

Lemma filter_seen seen rest :
  sorted (seen ++ rest) → filter (λ a, after (id <$> last seen) a = true) (seen ++ rest) = rest.
Proof.
  intros Hs. destruct seen as [|x seen _] using rev_ind; simpl; [by apply filter_all|].
  rewrite last_snoc, filter_app. simpl. rewrite filter_none, filter_all; [done|..].
  - intros a Ha. apply Z.ltb_lt, (sorted_app_inv (seen ++ [x]) rest); set_solver.
  - intros a Ha Hlt%Z.ltb_lt. apply elem_of_app in Ha as [Ha|Ha].
    + rewrite <- app_assoc in Hs. assert (id a < id x); [|lia].
      apply (sorted_app_inv seen ([x] ++ rest)); [done..|]. set_solver.
    + apply list_elem_of_singleton in Ha as ->. lia.
Qed.

(** One fetch returns the next rows, with a continuation exactly when they fill the page. *)
Lemma fetch_rest limit seen rest :
  sorted (seen ++ rest) →
  fullPageAsMappingPage (findPage (seen ++ rest) (id <$> last seen) limit) limit
  = mkPage (take limit rest)
      (if (limit <=? length rest)%nat then id <$> last (take limit rest) else None).
Proof.
  intros Hs. unfold fullPageAsMappingPage, findPage. rewrite filter_seen, length_take by done.
  destruct (Nat.leb_spec limit (length rest)).
  - by rewrite Nat.min_l, Nat.eqb_refl.
  - rewrite Nat.min_r by lia. by destruct (Nat.eqb_spec (length rest) limit); [lia|].
Qed.

(** A handler that never stops sees consecutive pages that make up the rest of the table. *)
Lemma iterate_rest {S} (g : list A → S → S) limit fuel seen rest s :
  (0 < limit)%nat → sorted (seen ++ rest) → (length rest / limit < fuel)%nat →
  ∃ pages, iterateMappingPages
      (λ cursor n, fullPageAsMappingPage (findPage (seen ++ rest) cursor n) n) limit
      (λ rows s, (g rows s, false)) fuel (id <$> last seen) s = Some (foldl (λ s page, g page s) s pages)
    ∧ concat pages = rest ∧ Forall (λ page, 0 < length page <= limit)%nat pages.
Proof.
  intros Hl. revert seen rest s. induction fuel as [|fuel IH]; intros seen rest s Hs Hf; [lia|].
  simpl. rewrite fetch_rest by done. simpl. destruct (take limit rest) as [|a page] eqn:Ht.
  { exists []. destruct rest; [done|]. by destruct limit; [lia|]. }
  assert (0 < length (a :: page) <= limit)%nat as Hlen.
  { rewrite <- Ht at 2. rewrite length_take. simpl. lia. }
  destruct (Nat.leb_spec limit (length rest)) as [Hfull|Hshort].
  - assert (∃ c, last (a :: page) = Some c) as [c Hc] by apply last_is_Some, not_eq_sym, nil_cons.
    assert (seen ++ rest = (seen ++ a :: page) ++ drop limit rest) as Heq.
    { by rewrite <- app_assoc, <- Ht, take_drop. }
    rewrite Hc. simpl. rewrite Heq in Hs |- *.
    destruct (IH (seen ++ a :: page) (drop limit rest) (g (a :: page) s) Hs) as (pages & Hit & Hcat & Hall).
    { rewrite length_drop. replace (length rest) with (1 * limit + (length rest - limit))%nat in Hf by lia.
      rewrite Nat.div_add_l in Hf by lia. lia. }
    exists ((a :: page) :: pages). rewrite last_app, Hc in Hit. split_and!; [done| |by constructor].
    simpl. rewrite Hcat. change (a :: page ++ drop limit rest) with ((a :: page) ++ drop limit rest).
    by rewrite <- Ht, take_drop.
  - exists [a :: page]. split_and!; [done| |by apply Forall_singleton]. simpl.
    rewrite app_nil_r, <- Ht. apply take_ge. lia.
Qed.

Lemma foldl_snoc {B} (l : list B) acc : foldl (λ acc b, acc ++ [b]) acc l = acc ++ l.
Proof. revert acc. induction l; intros acc; simpl; [by rewrite app_nil_r|]. by rewrite IHl, <- app_assoc. Qed.

Lemma foldl_concat {B} (f : B → A → B) (pages : list (list A)) b :
  foldl (λ b page, foldl f b page) b pages = foldl f b (concat pages).
Proof. revert b. induction pages; intros b; simpl; [done|]. by rewrite foldl_app. Qed.

(** Handling row by row is a fold over the table. *)
Lemma iterate_fold {S} (f : S → A → S) table limit s :
  (0 < limit)%nat → sorted table →
  iterateMappingPages (λ cursor n, fullPageAsMappingPage (findPage table cursor n) n) limit
    (λ rows s, (foldl f s rows, false)) (length table / limit + 1) None s = Some (foldl f s table).
Proof.
  intros Hl Hs.
  destruct (iterate_rest (λ page s, foldl f s page) limit (length table / limit + 1) [] table s Hl Hs)
    as (pages & Hit & Hcat & _); [lia|]. simpl in Hit. by rewrite Hit, foldl_concat, Hcat.
Qed.

Lemma iterate_ext {S} (f g : option Z → nat → MappingPage A) limit (h : list A → S → S * bool) fuel cursor s :
  (∀ c n, f c n = g c n) →
  iterateMappingPages f limit h fuel cursor s = iterateMappingPages g limit h fuel cursor s.
Proof.
  intros Hfg. revert cursor s. induction fuel as [|fuel IH]; intros cursor s; simpl; [done|].
  rewrite Hfg. repeat case_match; auto.
Qed.

(** A cursor below every identifier is no cursor. *)
Lemma findPage_floor table c limit :
  Forall (λ a, c < id a) table → findPage table (Some c) limit = findPage table None limit.
Proof.
  intros Hall. unfold findPage. rewrite !filter_all; [done..|].
  intros a Ha. rewrite Forall_forall in Hall. by apply Z.ltb_lt, Hall.
Qed.

(** A keyset-paged scan ends and misses nobody: over a table kept in the order
    of its identifiers, [iterateMappingPages] needs [length / limit + 1] fetches,
    hands out every row exactly once in order, and never a page that is empty or
    longer than the limit. *)
Theorem scan_visits_all table limit :
  (0 < limit)%nat → sorted table →
  ∃ pages, scan table limit (length table / limit + 1) = Some pages
    ∧ concat pages = table ∧ Forall (λ page, 0 < length page <= limit)%nat pages.
Proof.
  intros Hl Hs.
  destruct (iterate_rest (λ rows pages, pages ++ [rows]) limit (length table / limit + 1) [] table [] Hl Hs)
    as (pages & Hit & ? & ?); [lia|]. exists pages. by rewrite foldl_snoc in Hit.
Qed.

End Scan.

Lemma scan_visits_all_witness :
  scan (λ x, x) [3; 5; 8; 13] 2 (4 / 2 + 1) = Some [[3; 5]; [8; 13]]
  ∧ ∃ pages, scan (λ x, x) [3; 5; 8; 13] 2 (4 / 2 + 1) = Some pages ∧ concat pages = [3; 5; 8; 13]
      ∧ Forall (λ page, 0 < length page <= 2)%nat pages.
Proof.
  split; [vm_compute; reflexivity|]. apply (scan_visits_all (λ x, x) [3; 5; 8; 13] 2); [lia|].
  repeat constructor; lia.
Defined.
End Paging.
