(* ===== verification/ReminderJobs.v ===== *)
(** * Study reminder jobs (packages/study-reminder-shared)

    The repository typeorm-study-reminder-job.repository.ts with the predicates
    of utils/job-predicates.ts and the ownership cancellation of
    study-reminder-ownership.ts, on the table study_reminder_jobs.  Each method is
    one statement or one transaction.  Generations are the integers behind the
    decimal strings; stored error texts are not truncated here.  A row carries,
    as history, how often it was opened ([epoch]): a new epoch is a new reminder
    for the learner. *)

From S2P Require Import Prelude Table.

Module RJobs.

Inductive JobStatus := pending | processing | sent | failed | cancelled.

Inductive Outcome := o_sent | o_ambiguous | o_not_sent | o_rate_limited.

#[global] Instance JobStatus_eq_dec : EqDecision JobStatus.
Proof. solve_decision. Defined.
#[global] Instance Outcome_eq_dec : EqDecision Outcome.
Proof. solve_decision. Defined.

Record Job := mkJob {
  id : Z;
  platform : string;
  externalUserId : string;
  userId : option Z;
  mappingGeneration : option Z;
  sessionKey : string;
  scheduledAt : Z;
  remindAt : Z;
  topic : option string;
  status : JobStatus;
  retryCount : Z;
  maxRetries : Z;
  nextRetryAt : option Z;
  lastError : option string;
  sentAt : option Z;
  leaseToken : option string;
  leaseExpiresAt : option Z;
  deliveryRecord : option string;
  deliveryKey : option string;
  deliveryStatus : option Outcome;
  processingStartedAt : option Z;
  updatedAt : Z;
  epoch : Z
}.

(** ** Predicates (job-predicates.ts) *)

Definition has_status (s : JobStatus) (j : Job) : bool := bool_decide (status j = s).

Definition studyReminderDispatchPredicate (j : Job) : bool :=
  (has_status pending j || has_status failed j && (retryCount j <? maxRetries j))
  && match deliveryStatus j with
     | None => true
     | Some o => bool_decide (o = o_not_sent) && (retryCount j <? maxRetries j)
     end
  && bool_decide (deliveryRecord j = None).

Definition terminalOutcome (j : Job) : bool :=
  bool_decide (status j ∈ [pending; failed])
  && bool_decide (deliveryStatus j = Some o_ambiguous ∨ deliveryStatus j = Some o_rate_limited).

Definition studyReminderTerminalFailurePredicate (j : Job) : bool :=
  has_status failed j && (maxRetries j <=? retryCount j) || terminalOutcome j.

Definition studyReminderTerminalRetentionPredicate (j : Job) : bool :=
  bool_decide (status j ∈ [cancelled; failed]) && (maxRetries j <=? retryCount j) || terminalOutcome j.

(** [isTerminalStoredFailure]. *)
Definition isTerminalStoredFailure (j : Job) : bool :=
  match deliveryStatus j with
  | Some o_sent | Some o_ambiguous | Some o_rate_limited => true
  | Some o_not_sent => maxRetries j <=? retryCount j
  | None => false
  end.

(** ** Upsert *)

Record UpsertInput := mkUpsert {
  u_platform : string;
  u_externalUserId : string;
  u_userId : option Z;
  u_mappingGeneration : option Z;
  u_sessionKey : string;
  u_scheduledAt : Z;
  u_remindAt : Z;
  u_topic : option string;
  u_maxRetries : Z
}.

Definition entityKey (j : Job) : string * string * string := (platform j, externalUserId j, sessionKey j).
Definition inputKey (i : UpsertInput) : string * string * string :=
  (u_platform i, u_externalUserId i, u_sessionKey i).

Definition buildNewEntity (newId now : Z) (i : UpsertInput) : Job := {|
  id := newId; platform := u_platform i; externalUserId := u_externalUserId i;
  userId := u_userId i; mappingGeneration := u_mappingGeneration i; sessionKey := u_sessionKey i;
  scheduledAt := u_scheduledAt i; remindAt := u_remindAt i; topic := u_topic i;
  status := pending; retryCount := 0; maxRetries := u_maxRetries i; nextRetryAt := None;
  lastError := None; sentAt := None; leaseToken := None; leaseExpiresAt := None;
  deliveryRecord := None; deliveryKey := None; deliveryStatus := None;
  processingStartedAt := None; updatedAt := now; epoch := 0 |}.

(** [a ?? b] for optional values. *)
Definition orOld {A} (a b : option A) : option A := match a with Some _ => a | None => b end.

Definition hasScheduleChanged (j : Job) (i : UpsertInput) : bool :=
  negb (scheduledAt j =? u_scheduledAt i) || negb (remindAt j =? u_remindAt i)
  || negb (bool_decide (u_topic i = topic j)).

Definition isOlderGeneration (existing incoming : option Z) : bool :=
  match existing, incoming with Some e, Some n => n <? e | _, _ => false end.

Definition reopenToPending (j : Job) (i : UpsertInput) : Job := {|
  id := id j; platform := platform j; externalUserId := externalUserId j;
  userId := orOld (u_userId i) (userId j);
  mappingGeneration := orOld (u_mappingGeneration i) (mappingGeneration j);
  sessionKey := sessionKey j; scheduledAt := u_scheduledAt i; remindAt := u_remindAt i;
  topic := orOld (u_topic i) (topic j);
  status := pending; retryCount := 0; maxRetries := u_maxRetries i; nextRetryAt := None;
  lastError := None; sentAt := None; leaseToken := None; leaseExpiresAt := None;
  deliveryRecord := None; deliveryKey := None; deliveryStatus := None;
  processingStartedAt := None; updatedAt := updatedAt j; epoch := epoch j + 1 |}.

(** The branch for a terminal outcome: owner and retry limit only. *)
Definition touchTerminal (j : Job) (i : UpsertInput) : Job := {|
  id := id j; platform := platform j; externalUserId := externalUserId j;
  userId := orOld (u_userId i) (userId j); mappingGeneration := mappingGeneration j;
  sessionKey := sessionKey j; scheduledAt := scheduledAt j; remindAt := remindAt j; topic := topic j;
  status := if bool_decide (deliveryStatus j = Some o_not_sent) then failed else status j;
  retryCount := retryCount j; maxRetries := u_maxRetries i; nextRetryAt := nextRetryAt j;
  lastError := lastError j; sentAt := sentAt j; leaseToken := leaseToken j;
  leaseExpiresAt := leaseExpiresAt j; deliveryRecord := deliveryRecord j;
  deliveryKey := deliveryKey j; deliveryStatus := deliveryStatus j;
  processingStartedAt := processingStartedAt j; updatedAt := updatedAt j; epoch := epoch j |}.

(** Pending and failed rows on an unchanged schedule. *)
Definition updateInPlace (keepRetries : bool) (j : Job) (i : UpsertInput) : Job :=
  let reset := negb keepRetries || has_status failed j in {|
  id := id j; platform := platform j; externalUserId := externalUserId j;
  userId := orOld (u_userId i) (userId j);
  mappingGeneration := orOld (u_mappingGeneration i) (mappingGeneration j);
  sessionKey := sessionKey j; scheduledAt := u_scheduledAt i; remindAt := u_remindAt i;
  topic := orOld (u_topic i) (topic j);
  status := if reset then pending else status j;
  retryCount := if keepRetries then retryCount j else 0;
  maxRetries := u_maxRetries i;
  nextRetryAt := if reset then None else nextRetryAt j;
  lastError := if reset then None else lastError j;
  sentAt := sentAt j; leaseToken := leaseToken j; leaseExpiresAt := leaseExpiresAt j;
  deliveryRecord := deliveryRecord j; deliveryKey := deliveryKey j;
  deliveryStatus := deliveryStatus j; processingStartedAt := processingStartedAt j;
  updatedAt := updatedAt j; epoch := epoch j |}.

Definition ownerChanged (j : Job) (i : UpsertInput) : bool :=
  match u_mappingGeneration i with Some _ => negb (bool_decide (mappingGeneration j = u_mappingGeneration i)) | None => false end
  || match u_userId i with Some _ => negb (bool_decide (userId j = u_userId i)) | None => false end.

Definition applyExisting (reopenOnlyOnScheduleChange : bool) (i : UpsertInput) (j : Job) : Job :=
  let changed := hasScheduleChanged j i in
  if isOlderGeneration (mappingGeneration j) (u_mappingGeneration i) then j
  else match status j with
       | sent => if changed then reopenToPending j i else j
       | processing =>
           if ownerChanged j i then j
           else if reopenOnlyOnScheduleChange && negb changed then j
           else reopenToPending j i
       | cancelled => reopenToPending j i
       | pending | failed =>
           if changed then reopenToPending j i
           else if isTerminalStoredFailure j then touchTerminal j i
           else updateInPlace reopenOnlyOnScheduleChange j i
       end.

#[global] Instance Job_eq_dec : EqDecision Job.
Proof. solve_decision. Defined.

Definition withUpdatedAt (now : Z) (j : Job) : Job := {|
  id := id j; platform := platform j; externalUserId := externalUserId j; userId := userId j;
  mappingGeneration := mappingGeneration j; sessionKey := sessionKey j;
  scheduledAt := scheduledAt j; remindAt := remindAt j; topic := topic j;
  status := status j; retryCount := retryCount j; maxRetries := maxRetries j;
  nextRetryAt := nextRetryAt j; lastError := lastError j; sentAt := sentAt j;
  leaseToken := leaseToken j; leaseExpiresAt := leaseExpiresAt j;
  deliveryRecord := deliveryRecord j; deliveryKey := deliveryKey j;
  deliveryStatus := deliveryStatus j; processingStartedAt := processingStartedAt j;
  updatedAt := now; epoch := epoch j |}.

(** [manager.save] of a loaded entity writes, and moves [updated_at], only when a
    column changed. *)
Definition save (now : Z) (old new : Job) : Job :=
  if bool_decide (new = old) then old else withUpdatedAt now new.

Record Db := mkDb { jobs : list Job; nextId : Z }.

Definition keyed (i : UpsertInput) (j : Job) : bool := bool_decide (entityKey j = inputKey i).

(** One input: rows that existed when the transaction began are updated, others
    inserted; an insert that meets the unique index throws. *)
Definition upsertOne (now : Z) (reopenOnly : bool) (existing : list Job) (i : UpsertInput) (db : Db)
  : option Db :=
  if tbl_exists (keyed i) existing
  then Some (mkDb (tbl_update (keyed i) (λ j, save now j (applyExisting reopenOnly i j)) (jobs db)) (nextId db))
  else if tbl_exists (keyed i) (jobs db) then None
  else Some (mkDb (jobs db ++ [buildNewEntity (nextId db) now i]) (nextId db + 1)).

Fixpoint upsertAll (now : Z) (reopenOnly : bool) (existing : list Job) (is_ : list UpsertInput) (db : Db)
  : option Db :=
  match is_ with
  | [] => Some db
  | i :: is' => upsertOne now reopenOnly existing i db ≫= upsertAll now reopenOnly existing is'
  end.

(** The transaction rolls back when it throws. *)
Definition upsertPendingJobs (now : Z) (reopenOnly : bool) (inputs : list UpsertInput) (db : Db)
  : Db * bool :=
  match upsertAll now reopenOnly (jobs db) inputs db with
  | Some db' => (db', true)
  | None => (db, false)
  end.

(** ** Dispatch *)

Definition isDue (p : string) (now minLeadMs : Z) (j : Job) : bool :=
  studyReminderDispatchPredicate j && bool_decide (platform j = p)
  && (remindAt j <=? now) && (now + minLeadMs <? scheduledAt j)
  && match nextRetryAt j with Some t => t <=? now | None => true end.

Definition orderByRemindAt : list Job → list Job := sortBy (λ j k, remindAt j <=? remindAt k).

Definition findDueJobs (p : string) (now minLeadMs : Z) (db : Db) : list Job :=
  take 50 (orderByRemindAt (tbl_select (isDue p now minLeadMs) (jobs db))).

Definition claimed (now leaseMs : Z) (token : string) (j : Job) : Job := {|
  id := id j; platform := platform j; externalUserId := externalUserId j; userId := userId j;
  mappingGeneration := mappingGeneration j; sessionKey := sessionKey j;
  scheduledAt := scheduledAt j; remindAt := remindAt j; topic := topic j;
  status := processing; retryCount := retryCount j; maxRetries := maxRetries j;
  nextRetryAt := nextRetryAt j; lastError := lastError j; sentAt := sentAt j;
  leaseToken := Some token; leaseExpiresAt := Some (now + leaseMs);
  deliveryRecord := deliveryRecord j; deliveryKey := deliveryKey j; deliveryStatus := None;
  processingStartedAt := Some now; updatedAt := updatedAt j; epoch := epoch j |}.

Definition claimable (p : string) (jobId : Z) (j : Job) : bool :=
  (id j =? jobId) && bool_decide (platform j = p) && studyReminderDispatchPredicate j.

Definition claimJob (p : string) (jobId leaseMs now : Z) (token : string) (db : Db) : Db * option Job :=
  (mkDb (tbl_update (claimable p jobId) (claimed now leaseMs token) (jobs db)) (nextId db),
   claimed now leaseMs token <$> head (tbl_select (claimable p jobId) (jobs db))).

(** [id = ? AND lease_token = ? AND status = 'processing']. *)
Definition owned (jobId : Z) (token : string) (j : Job) : bool :=
  (id j =? jobId) && bool_decide (leaseToken j = Some token) && has_status processing j.

(** The columns every settling statement clears. *)
Definition settle (now : Z) (st : JobStatus) (retries : Z) (next : option Z) (err : option string)
    (sentTime : option Z) (record key : option string) (o : option Outcome) (j : Job) : Job := {|
  id := id j; platform := platform j; externalUserId := externalUserId j; userId := userId j;
  mappingGeneration := mappingGeneration j; sessionKey := sessionKey j;
  scheduledAt := scheduledAt j; remindAt := remindAt j; topic := topic j;
  status := st; retryCount := retries; maxRetries := maxRetries j; nextRetryAt := next;
  lastError := err; sentAt := sentTime; leaseToken := None; leaseExpiresAt := None;
  deliveryRecord := record; deliveryKey := key; deliveryStatus := o;
  processingStartedAt := None; updatedAt := now; epoch := epoch j |}.

Definition updateOwned (jobId : Z) (token : string) (f : Job → Job) (db : Db) : Db * bool :=
  (mkDb (tbl_update (owned jobId token) f (jobs db)) (nextId db),
   tbl_exists (owned jobId token) (jobs db)).

Definition markSent (now jobId : Z) (token : string) (record key : option string) : Db → Db * bool :=
  updateOwned jobId token (λ j,
    settle now sent (retryCount j) None None (Some now) (orOld record (deliveryRecord j))
      (orOld key (deliveryKey j)) (Some o_sent) j).

Record FailParams := mkFail {
  f_error : string;
  f_retryCount : Z;
  f_nextRetryAt : option Z;
  f_terminal : bool;
  f_outcome : Outcome
}.

Definition markFailed (now jobId : Z) (token : string) (f : FailParams) : Db → Db * bool :=
  updateOwned jobId token (λ j,
    settle now failed (f_retryCount f) (if f_terminal f then None else f_nextRetryAt f)
      (Some (f_error f)) (sentAt j) (deliveryRecord j) (deliveryKey j) (Some (f_outcome f)) j).

Definition markCancelled (now jobId : Z) (token : string) (reason : option string) : Db → Db * bool :=
  updateOwned jobId token (λ j,
    settle now cancelled (retryCount j) None (orOld reason (lastError j)) (sentAt j) None None None j).

(** The key of the attempt; [COALESCE] keeps an earlier one. *)
Definition setKey (now : Z) (key : option string) (j : Job) : Job := {|
  id := id j; platform := platform j; externalUserId := externalUserId j; userId := userId j;
  mappingGeneration := mappingGeneration j; sessionKey := sessionKey j;
  scheduledAt := scheduledAt j; remindAt := remindAt j; topic := topic j;
  status := status j; retryCount := retryCount j; maxRetries := maxRetries j;
  nextRetryAt := nextRetryAt j; lastError := lastError j; sentAt := sentAt j;
  leaseToken := leaseToken j; leaseExpiresAt := leaseExpiresAt j;
  deliveryRecord := deliveryRecord j; deliveryKey := key; deliveryStatus := deliveryStatus j;
  processingStartedAt := processingStartedAt j; updatedAt := now; epoch := epoch j |}.

Definition markDeliveryKey (now jobId : Z) (token key : string) : Db → Db * bool :=
  updateOwned jobId token (setKey now (Some key)).

(** ** The ownership fence *)

Inductive LinkState := ls_active | ls_unknown | ls_revoked | ls_unlinked.

#[global] Instance LinkState_eq_dec : EqDecision LinkState.
Proof. solve_decision. Defined.

(** The newest mapping row of the user; [mp_enabled] is the ACTIVE status, true
    where the platform has no status column. *)
Record MappingRow := mkMapping {
  mp_userId : option Z;
  mp_state : LinkState;
  mp_generation : option Z;
  mp_enabled : bool
}.

Inductive FenceFailure :=
| lease_lost | mapping_ownership_changed | link_revoked | locally_unlinked
| mapping_generation_missing | link_status_unknown | ownership_lock_timeout.

(** The checks of [withOwnedDelivery] on the locked mapping row; [None] when the
    delivery may go on to the lease. *)
Definition fence (mapping : option MappingRow) (tombstone : bool) (user generation : Z)
  : option FenceFailure :=
  match mapping with
  | None => Some (if tombstone then locally_unlinked else link_status_unknown)
  | Some m =>
      if negb (mp_enabled m) then Some locally_unlinked
      else match mp_state m with
           | ls_revoked => Some link_revoked
           | ls_unlinked => Some locally_unlinked
           | ls_unknown => Some link_status_unknown
           | ls_active =>
               match mp_generation m with
               | None => Some mapping_generation_missing
               | Some g =>
                   if negb (default 0 (mp_userId m) =? user) || negb (g =? generation)
                   then Some mapping_ownership_changed else None
               end
           end
  end.

Definition ownedOn (p : string) (jobId : Z) (token : string) (j : Job) : bool :=
  owned jobId token j && bool_decide (platform j = p).

(** The transaction up to the call of [send]: refused, or the row with its key. *)
Definition authorizeDelivery (now : Z) (p : string) (jobId : Z) (token key : string)
    (mapping : option MappingRow) (tombstone : bool) (user generation : Z) (db : Db)
  : FenceFailure + Db :=
  match fence mapping tombstone user generation with
  | Some r => inl r
  | None =>
      if tbl_exists (ownedOn p jobId token) (jobs db)
      then inr (mkDb (tbl_update (ownedOn p jobId token)
                        (λ j, setKey now (orOld (deliveryKey j) (Some key)) j) (jobs db)) (nextId db))
      else inl lease_lost
  end.

(** ** Cancellation, recovery, retention *)

Definition cancel (now : Z) (reason : option string) (j : Job) : Job :=
  settle now cancelled (retryCount j) None (orOld reason (lastError j)) (sentAt j) None None None j.

Definition cancelWhere (now : Z) (reason : option string) (p : Job → bool) (db : Db) : Db * Z :=
  (mkDb (tbl_update p (cancel now reason) (jobs db)) (nextId db),
   Z.of_nat (length (tbl_select p (jobs db)))).

Definition cancelStaleJobsForExternalUserId (now : Z) (p ext : string) (keys : list string)
    (horizonEnd : option Z) (statuses : list JobStatus) : Db → Db * Z :=
  cancelWhere now None (λ j,
    bool_decide (platform j = p) && bool_decide (externalUserId j = ext)
    && bool_decide (status j ∈ statuses)
    && (bool_decide (keys = []) || bool_decide (sessionKey j ∉ keys))
    && match horizonEnd with Some h => scheduledAt j <=? h | None => true end).

Definition cancelPendingJobsForExternalUser (now : Z) (p ext reason : string) : Db → Db * Z :=
  cancelWhere now (Some reason) (λ j,
    bool_decide (platform j = p) && bool_decide (externalUserId j = ext)
    && bool_decide (status j ∈ [pending; processing; failed])).

Definition cancelJobsFromOtherPlatforms (now user : Z) (current : string) (statuses : list JobStatus)
    (db : Db) : Db * Z :=
  if user =? 0 then (db, 0)
  else cancelWhere now None (λ j,
         bool_decide (userId j = Some user) && negb (bool_decide (platform j = current))
         && bool_decide (status j ∈ statuses)) db.

Definition cancelStudyReminderJobsForOwnershipChange (now : Z) (p ext : string)
    (generation : option Z) (reason : string) : Db → Db * Z :=
  cancelWhere now (Some reason) (λ j,
    bool_decide (platform j = p) && bool_decide (externalUserId j = ext)
    && bool_decide (status j ∈ [pending; processing; failed])
    && match generation with
       | Some g => match mappingGeneration j with Some e => e <? g | None => true end
       | None => true
       end).

Definition isStuckJob (p : string) (now olderThan : Z) (j : Job) : bool :=
  has_status processing j && bool_decide (platform j = p)
  && match leaseExpiresAt j with
     | Some t => t <? now
     | None => default (updatedAt j) (processingStartedAt j) <=? olderThan
     end.

Definition stuckReset (now : Z) (target : JobStatus) (j : Job) : Job :=
  settle now target (retryCount j) None (lastError j) (sentAt j) (deliveryRecord j) (deliveryKey j)
    (Some o_ambiguous) j.

Definition resetStuckProcessingJobs (p : string) (now olderThan : Z) (target : JobStatus) (db : Db)
  : Db * Z :=
  (mkDb (tbl_update (isStuckJob p now olderThan) (stuckReset now target) (jobs db)) (nextId db),
   Z.of_nat (length (tbl_select (isStuckJob p now olderThan) (jobs db)))).

Definition deleteWhere (p : Job → bool) (db : Db) : Db * Z :=
  (mkDb (tbl_delete p (jobs db)) (nextId db), Z.of_nat (length (tbl_select p (jobs db)))).

Definition deleteSentJobs (p : string) (olderThan : option Z) : Db → Db * Z :=
  deleteWhere (λ j, has_status sent j && bool_decide (platform j = p)
                    && match olderThan, sentAt j with
                       | Some t, Some s => s <? t
                       | Some _, None => false
                       | None, _ => true
                       end).

Definition deleteTerminalJobsOlderThan (p : string) (olderThan : Z) : Db → Db * Z :=
  deleteWhere (λ j, studyReminderTerminalRetentionPredicate j && (updatedAt j <? olderThan)
                    && bool_decide (platform j = p)).

(** [MIN(CASE ...)] over the dispatchable rows. *)
Definition nextDueOf (now : Z) (j : Job) : option Z :=
  match nextRetryAt j with
  | Some t => if now <? t then Some t else if now <? remindAt j then Some (remindAt j) else None
  | None => if now <? remindAt j then Some (remindAt j) else None
  end.

Definition minOpt (a b : option Z) : option Z :=
  match a, b with Some x, Some y => Some (Z.min x y) | Some x, None => Some x | None, b => b end.

Definition findNextDueTime (now : Z) (p : option string) (db : Db) : option Z :=
  foldr (λ j acc, minOpt (nextDueOf now j) acc) None
    (tbl_select (λ j, studyReminderDispatchPredicate j
                      && match p with Some p => bool_decide (platform j = p) | None => true end) (jobs db)).

Definition countTerminalFailedSince (since : Z) (db : Db) : Z :=
  Z.of_nat (length (tbl_select (λ j, studyReminderTerminalFailurePredicate j && (since <=? updatedAt j)) (jobs db))).

Definition countStuckProcessing (olderThan : Z) (db : Db) : Z :=
  Z.of_nat (length (tbl_select (λ j, has_status processing j && (updatedAt j <=? olderThan)) (jobs db))).

End RJobs.
