(* ===== verification/ReminderDispatch.v ===== *)
(** * Dispatch of study reminders (packages/study-reminder-shared,
    study-reminder-dispatch.service.ts)

    [processJob] is a program tree: what the worker does between two calls of a
    port is a node, the answer of the port selects the continuation.  Workers of
    several processes interleave with the sync, with cancellations, recovery and
    retention, and may crash anywhere.  A delivery is one step: the transaction
    of [withOwnedDelivery] locks the job row until the provider has answered.
    The metering hooks do not throw. *)

From S2P Require Import Prelude Table ReminderJobs.

Module RDispatch.
Import RJobs.

(** ** Settings *)

Record Settings := mkSettings {
  minLeadMinutes : Z;
  retryBackoffMinutes : Z;
  flatBackoff : bool;
  hasMappingState : bool;
  classifyFailure : string → Job → option (bool * string);
  isTerminalError : string → option bool
}.

Definition isSessionStarted (minLead scheduled now : Z) : bool :=
  scheduled - now <=? minLead * 60000.

(** [nominalMs * (0.5 + rng() * 0.5)]; the draw of [rng] is [u / 2^53]. *)
Definition jitteredDelayMs (nominalMs u : Z) : Z := nominalMs * (2 ^ 53 + u) / 2 ^ 54.

(** ** The program of a worker *)

(** What [getMappingState] answers. *)
Inductive MappingView :=
| view_state (s : LinkState)
| view_row (s : LinkState) (user generation : option Z).

Inductive DeliverResult :=
| refused (r : FenceFailure)
| delivered (o : Outcome) (error : option string)
| deliver_threw (providerOutcome : option Outcome) (e : string).

Record Tally := mkTally {
  t_sent : Z; t_cancelled : Z; t_retried : Z; t_failed : Z; t_failures : list string
}.

Definition nothing : Tally := mkTally 0 0 0 0 [].
Definition oneSent : Tally := mkTally 1 0 0 0 [].
Definition oneCancelled : Tally := mkTally 0 1 0 0 [].
Definition oneRetried (e : string) : Tally := mkTally 0 0 1 0 [e].
Definition oneFailed (e : string) : Tally := mkTally 0 0 0 1 [e].

Inductive Prog :=
| GetMapping (k : option MappingView + string → Prog)
| GenText (k : string + string → Prog)
| Deliver (user generation : Z) (key text : string) (k : DeliverResult → Prog)
| MarkSent (record key : option string) (k : bool + string → Prog)
| MarkFailed (f : FailParams) (k : unit + string → Prog)
| MarkCancelled (reason : string) (k : unit + string → Prog)
| Done (t : Tally).

Section ProcessJob.
Context (s : Settings) (now u : Z) (dormant : list Z) (freshKey : string) (job : Job).

Definition nominalBackoffMs : Z :=
  let backoffMs := retryBackoffMinutes s * 60000 in
  if flatBackoff s then backoffMs else backoffMs * 2 ^ retryCount job.

(** The outer [catch]; a throwing [markFailed] rejects the whole job. *)
Definition failPath (error : string) : Prog :=
  let '(terminal, message) :=
    match classifyFailure s error job with
    | Some (terminal, message) => (terminal, message)
    | None => (default (maxRetries job <=? retryCount job + 1) (isTerminalError s error), error)
    end in
  let nextRetryCount := retryCount job + 1 in
  MarkFailed
    {| f_error := message;
       f_retryCount := if terminal then Z.max nextRetryCount (maxRetries job) else nextRetryCount;
       f_nextRetryAt := if terminal then None else Some (now + jitteredDelayMs nominalBackoffMs u);
       f_terminal := terminal;
       f_outcome := o_not_sent |}
    (λ r, match r with
          | inl _ => Done (if terminal then oneFailed message else oneRetried message)
          | inr _ => Done nothing
          end).

(** [cancelForFence], and the other cancellations of the [try] block. *)
Definition cancelWith (reason : string) : Prog :=
  MarkCancelled reason (λ r, match r with inl _ => Done oneCancelled | inr e => failPath e end).

Definition stateName (st : LinkState) : string :=
  match st with
  | ls_active => "active" | ls_unknown => "temporarily-unknown"
  | ls_revoked => "confirmed-revoked" | ls_unlinked => "locally-unlinked"
  end.

(** A truthy number. *)
Definition truthy (n : option Z) : bool := match n with Some n => negb (n =? 0) | None => false end.

Definition checkView (view : option MappingView) (next : Prog) : Prog :=
  let active user generation :=
    if bool_decide (userId job = None) || bool_decide (mappingGeneration job = None)
       || negb (truthy user) || bool_decide (generation = None)
    then cancelWith "mapping_generation_missing"
    else if bool_decide (user = userId job) && bool_decide (generation = mappingGeneration job)
    then next
    else cancelWith "mapping_ownership_changed" in
  let other st :=
    match st with
    | ls_revoked => cancelWith "link_revoked"
    | ls_unlinked => cancelWith "locally_unlinked"
    | _ => failPath ("link status unavailable (" +:+ stateName st +:+ ")")
    end in
  match view with
  | Some (view_row ls_active user generation) => active user generation
  | Some (view_state ls_active) => active None None
  | Some (view_row st _ _) => other st
  | Some (view_state st) => other st
  | None => next
  end.

Definition checkMappingBeforeSend (next : Prog) : Prog :=
  if negb (hasMappingState s) then next
  else GetMapping (λ r, match r with inl view => checkView view next | inr e => failPath e end).

(** Terminal outcomes are closed even when that fails. *)
Definition closeFailed (error : string) (retries : Z) (o : Outcome) : Prog :=
  MarkFailed {| f_error := error; f_retryCount := retries; f_nextRetryAt := None;
                f_terminal := true; f_outcome := o |}
    (λ _, Done (oneFailed error)).

Definition finalizationError (o : Outcome) (e : string) : string :=
  match o with
  | o_ambiguous => "ambiguous delivery - ownership finalization failed"
  | o_rate_limited => "outbound_rate_limited"
  | _ => "delivery acknowledged but ownership finalization failed: " +:+ e
  end.

Definition afterDelivery (key : string) (r : DeliverResult) : Prog :=
  match r with
  | deliver_threw (Some o_not_sent) e | deliver_threw None e => failPath e
  | deliver_threw (Some o) e =>
      closeFailed (finalizationError o e) (Z.max (retryCount job + 1) (maxRetries job)) o
  | refused mapping_ownership_changed => cancelWith "mapping_ownership_changed"
  | refused mapping_generation_missing => cancelWith "mapping_generation_missing"
  | refused link_revoked => cancelWith "link_revoked"
  | refused locally_unlinked => cancelWith "locally_unlinked"
  | refused lease_lost => Done nothing
  | refused link_status_unknown => failPath "mapping fence unavailable (link_status_unknown)"
  | refused ownership_lock_timeout => failPath "mapping fence unavailable (ownership_lock_timeout)"
  | delivered o_sent _ =>
      MarkSent (Some "sent") (Some key)
        (λ r, match r with
              | inl true => Done oneSent
              | inl false => Done nothing
              | inr e => closeFailed ("delivery acknowledged but finalization failed: " +:+ e)
                           (retryCount job + 1) o_ambiguous
              end)
  | delivered o_ambiguous _ =>
      closeFailed "ambiguous delivery - not auto-retried" (retryCount job + 1) o_ambiguous
  | delivered o_rate_limited _ =>
      closeFailed "outbound_rate_limited" (retryCount job + 1) o_rate_limited
  | delivered o_not_sent e => failPath (default "outbound not_sent" e)
  end.

Definition deliver (text : string) : Prog :=
  let key := default freshKey (deliveryKey job) in
  match userId job, mappingGeneration job with
  | Some user, Some generation => Deliver user generation key text (afterDelivery key)
  | _, _ => cancelWith "mapping_generation_missing"
  end.

Definition isDormant : bool :=
  match userId job with Some user => bool_decide (user ∈ dormant) | None => false end.

(** [processJob] from the claimed row on. *)
Definition processJob : Prog :=
  match deliveryStatus job with
  | Some o_ambiguous =>
      closeFailed "ambiguous delivery - not auto-retried"
        (Z.max (retryCount job + 1) (maxRetries job)) o_ambiguous
  | Some o_rate_limited =>
      closeFailed "outbound_rate_limited" (Z.max (retryCount job + 1) (maxRetries job)) o_rate_limited
  | st =>
      if bool_decide (st = Some o_sent) || negb (bool_decide (default "" (deliveryRecord job) = "")) then
        MarkSent None None
          (λ r, match r with inl true => Done oneSent | _ => Done nothing end)
      else
        checkMappingBeforeSend
          (if isDormant then cancelWith "recipient dormant (web inactivity)"
           else if isSessionStarted (minLeadMinutes s) (scheduledAt job) now
           then cancelWith "session already started"
           else GenText (λ r, match r with
                              | inl text => checkMappingBeforeSend (deliver text)
                              | inr e => failPath e
                              end))
  end.

End ProcessJob.

(** ** The system *)

Record Worker := mkWorker { wk_job : Job; wk_token : string; wk_prog : Prog }.

(** A call of the provider, with the mapping row it was made under. *)
Record Call := mkCall {
  c_job : Z; c_epoch : Z; c_external : string; c_user : Z; c_generation : Z;
  c_key : string; c_text : string; c_mapping : option MappingRow; c_outcome : option Outcome
}.

Record World := mkWorld {
  w_db : Db;
  w_mappings : gmap (string * string) MappingRow;
  w_tombstones : gset (string * string);
  w_workers : list Worker;
  w_calls : list Call;
  w_tokens : list string
}.

Definition init : World := mkWorld (mkDb [] 1) ∅ ∅ [] [] [].

(** A statement succeeds, or throws before or after it took effect. *)
Inductive DbAnswer := db_ok | db_threw (applied : bool) (e : string).

(** The delivery transaction: it waits too long for the lock, fails before the
    call, or calls the provider, which answers or throws, and then commits or not. *)
Inductive DeliverAnswer :=
| dv_lock_timeout
| dv_error (e : string)
| dv_send (answer : Outcome + string) (commitError : option string).

Inductive Event :=
| EClaim (s : Settings) (now u : Z) (dormant : list Z) (freshKey : string)
    (p : string) (jobId leaseMs : Z) (token : string)
| EMapping (n : nat) (r : option MappingView + string)
| EText (n : nat) (r : string + string)
| EDeliver (n : nat) (now : Z) (d : DeliverAnswer)
| EMark (n : nat) (now : Z) (r : DbAnswer)
| ECrash (n : nat)
| ECrashSending (n : nat) (now : Z) (answer : Outcome + string)
| ESync (now : Z) (reopenOnly : bool) (inputs : list UpsertInput)
| ECancelStale (now : Z) (p ext : string) (keys : list string) (horizonEnd : option Z) (statuses : list JobStatus)
| ECancelPending (now : Z) (p ext reason : string)
| ECancelOther (now user : Z) (current : string) (statuses : list JobStatus)
| ECancelOwner (now : Z) (p ext : string) (generation : option Z) (reason : string)
| EReset (p : string) (now olderThan : Z) (toFailed : bool)
| EDeleteSent (p : string) (olderThan : option Z)
| EDeleteTerminal (p : string) (olderThan : Z)
| EMapRow (key : string * string) (row : option MappingRow)
| ETombstone (key : string * string).

Definition setDb (db : Db) (w : World) : World :=
  mkWorld db (w_mappings w) (w_tombstones w) (w_workers w) (w_calls w) (w_tokens w).

Definition continue_ (n : nat) (wk : Worker) (p : Prog) (w : World) : World :=
  mkWorld (w_db w) (w_mappings w) (w_tombstones w)
    (<[n := mkWorker (wk_job wk) (wk_token wk) p]> (w_workers w)) (w_calls w) (w_tokens w).

Definition addCall (c : Call) (w : World) : World :=
  mkWorld (w_db w) (w_mappings w) (w_tombstones w) (w_workers w) (c :: w_calls w) (w_tokens w).

Definition answered (answer : Outcome + string) : option Outcome :=
  match answer with inl o => Some o | inr _ => None end.

Definition ownedEpoch (jobId : Z) (token : string) (db : Db) : Z :=
  default 0 (epoch <$> head (tbl_select (owned jobId token) (jobs db))).

Definition callOf (wk : Worker) (user generation : Z) (key text : string) (answer : Outcome + string)
    (w : World) : Call := {|
  c_job := id (wk_job wk);
  c_epoch := ownedEpoch (id (wk_job wk)) (wk_token wk) (w_db w);
  c_external := externalUserId (wk_job wk); c_user := user; c_generation := generation;
  c_key := key; c_text := text;
  c_mapping := w_mappings w !! (platform (wk_job wk), externalUserId (wk_job wk));
  c_outcome := answered answer |}.

Definition deliveredAs (answer : Outcome + string) : DeliverResult :=
  match answer with inl o => delivered o None | inr e => delivered o_not_sent (Some e) end.

(** [withOwnedDelivery] with the provider's answer. *)
Definition withOwnedDelivery (now : Z) (wk : Worker) (user generation : Z) (key text : string)
    (answer : Outcome + string) (commitError : option string) (w : World) : World * DeliverResult :=
  let job := wk_job wk in
  let who := (platform job, externalUserId job) in
  let mapping := w_mappings w !! who in
  match authorizeDelivery now (platform job) (id job) (wk_token wk) key mapping
          (bool_decide (who ∈ w_tombstones w)) user generation (w_db w) with
  | inl r => (w, refused r)
  | inr db' =>
      let w' := addCall (callOf wk user generation key text answer w) w in
      match commitError with
      | None => (setDb db' w', deliveredAs answer)
      | Some e => (w', deliver_threw (answered answer) e)
      end
  end.

(** A settling statement of worker [wk], and what its caller sees. *)
Definition runMark {A} (op : Db → Db * A) (r : DbAnswer) (w : World) : World * (A + string) :=
  match r with
  | db_ok => (setDb (op (w_db w)).1 w, inl (op (w_db w)).2)
  | db_threw applied e => ((if applied then setDb (op (w_db w)).1 w else w), inr e)
  end.

Definition toUnit (r : bool + string) : unit + string := match r with inl _ => inl tt | inr e => inr e end.

Definition execMark (n : nat) (now : Z) (r : DbAnswer) (wk : Worker) (w : World) : World :=
  let jid := id (wk_job wk) in
  match wk_prog wk with
  | MarkSent record key k =>
      let '(w', a) := runMark (markSent now jid (wk_token wk) record key) r w in continue_ n wk (k a) w'
  | MarkFailed f k =>
      let '(w', a) := runMark (markFailed now jid (wk_token wk) f) r w in continue_ n wk (k (toUnit a)) w'
  | MarkCancelled reason k =>
      let '(w', a) := runMark (markCancelled now jid (wk_token wk) (Some reason)) r w in
      continue_ n wk (k (toUnit a)) w'
  | _ => w
  end.

Definition execDeliver (n : nat) (now : Z) (d : DeliverAnswer) (wk : Worker) (w : World) : World :=
  match wk_prog wk with
  | Deliver user generation key text k =>
      match d with
      | dv_lock_timeout => continue_ n wk (k (refused ownership_lock_timeout)) w
      | dv_error e => continue_ n wk (k (deliver_threw None e)) w
      | dv_send answer commitError =>
          let '(w', r) := withOwnedDelivery now wk user generation key text answer commitError w in
          continue_ n wk (k r) w'
      end
  | _ => w
  end.

(** The process dies between the provider's answer and the commit. *)
Definition execCrashSending (n : nat) (now : Z) (answer : Outcome + string) (wk : Worker) (w : World) : World :=
  match wk_prog wk with
  | Deliver user generation key text k =>
      continue_ n wk (Done nothing)
        (withOwnedDelivery now wk user generation key text answer (Some "crash") w).1
  | _ => w
  end.

Definition onWorker (n : nat) (f : Worker → World → World) (w : World) : World :=
  match w_workers w !! n with Some wk => f wk w | None => w end.

Definition execClaim (s : Settings) (now u : Z) (dormant : list Z) (freshKey p : string)
    (jobId leaseMs : Z) (token : string) (w : World) : World :=
  if bool_decide (token ∈ w_tokens w) then w
  else
    let '(db', row) := claimJob p jobId leaseMs now token (w_db w) in
    mkWorld db' (w_mappings w) (w_tombstones w)
      (w_workers w ++ match row with
                      | Some job => [mkWorker job token (processJob s now u dormant freshKey job)]
                      | None => []
                      end)
      (w_calls w) (token :: w_tokens w).

Definition exec (e : Event) (w : World) : World :=
  match e with
  | EClaim s now u dormant freshKey p jobId leaseMs token =>
      execClaim s now u dormant freshKey p jobId leaseMs token w
  | EMapping n r =>
      onWorker n (λ wk w, match wk_prog wk with GetMapping k => continue_ n wk (k r) w | _ => w end) w
  | EText n r =>
      onWorker n (λ wk w, match wk_prog wk with GenText k => continue_ n wk (k r) w | _ => w end) w
  | EDeliver n now d => onWorker n (execDeliver n now d) w
  | EMark n now r => onWorker n (execMark n now r) w
  | ECrash n => onWorker n (λ wk, continue_ n wk (Done nothing)) w
  | ECrashSending n now answer => onWorker n (execCrashSending n now answer) w
  | ESync now reopenOnly inputs => setDb (upsertPendingJobs now reopenOnly inputs (w_db w)).1 w
  | ECancelStale now p ext keys horizonEnd statuses =>
      setDb (cancelStaleJobsForExternalUserId now p ext keys horizonEnd statuses (w_db w)).1 w
  | ECancelPending now p ext reason => setDb (cancelPendingJobsForExternalUser now p ext reason (w_db w)).1 w
  | ECancelOther now user current statuses =>
      setDb (cancelJobsFromOtherPlatforms now user current statuses (w_db w)).1 w
  | ECancelOwner now p ext generation reason =>
      setDb (cancelStudyReminderJobsForOwnershipChange now p ext generation reason (w_db w)).1 w
  | EReset p now olderThan toFailed =>
      setDb (resetStuckProcessingJobs p now olderThan (if toFailed then failed else pending) (w_db w)).1 w
  | EDeleteSent p olderThan => setDb (deleteSentJobs p olderThan (w_db w)).1 w
  | EDeleteTerminal p olderThan => setDb (deleteTerminalJobsOlderThan p olderThan (w_db w)).1 w
  | EMapRow key row =>
      mkWorld (w_db w) (partial_alter (λ _, row) key (w_mappings w)) (w_tombstones w)
        (w_workers w) (w_calls w) (w_tokens w)
  | ETombstone key =>
      mkWorld (w_db w) (w_mappings w) ({[key]} ∪ w_tombstones w) (w_workers w) (w_calls w) (w_tokens w)
  end.

Fixpoint run (es : list Event) (w : World) : World :=
  match es with [] => w | e :: es' => run es' (exec e w) end.

(** ** At most once

    A call is accepted when the provider reported anything but [not_sent]. *)

Definition accepted (c : Call) : Prop :=
  match c_outcome c with Some o_not_sent | None => False | Some _ => True end.

Definition is_call (i e : Z) (c : Call) : Prop := c_job c = i ∧ c_epoch c = e.

Definition none_accepted (i e : Z) (cs : list Call) : Prop :=
  ∀ c, c ∈ cs → is_call i e c → ¬ accepted c.

(** A row the dispatch may pick up again in its epoch. *)
Definition retryable (j : Job) : Prop :=
  (status j = pending ∨ status j = failed)
  ∧ (deliveryStatus j = None ∨ deliveryStatus j = Some o_not_sent).

Definition held (t : string) (j : Job) : Prop := status j = processing ∧ leaseToken j = Some t.

(** What is left to a worker that has had its answer: it calls nobody and never
    reopens the row. *)
Fixpoint settled (p : Prog) : Prop :=
  match p with
  | GetMapping _ | GenText _ | Deliver _ _ _ _ _ => False
  | MarkSent _ _ k => ∀ r, settled (k r)
  | MarkFailed f k => f_outcome f ≠ o_not_sent ∧ ∀ r, settled (k r)
  | MarkCancelled _ k => ∀ r, settled (k r)
  | Done _ => True
  end.

(** Programs whose deliveries continue with [afterDelivery]. *)
Fixpoint dispatches (p : Prog) : Prop :=
  match p with
  | GetMapping k => ∀ r, dispatches (k r)
  | GenText k => ∀ r, dispatches (k r)
  | Deliver _ _ _ _ k =>
      (∀ r, dispatches (k r))
      ∧ ∀ o err, o ≠ o_not_sent →
          settled (k (delivered o err)) ∧ ∀ e, settled (k (deliver_threw (Some o) e))
  | MarkSent _ _ k => ∀ r, dispatches (k r)
  | MarkFailed _ k | MarkCancelled _ k => ∀ r, dispatches (k r)
  | Done _ => True
  end.

(** How a statement may change a row, given the calls so far. *)
Definition row_step (cs : list Call) (j j' : Job) : Prop :=
  id j' = id j
  ∧ ((epoch j' = epoch j ∧ (retryable j' → retryable j ∨ none_accepted (id j) (epoch j) cs)
      ∧ ∀ t, held t j' → held t j)
     ∨ (epoch j < epoch j' ∧ ∀ t, ¬ held t j')).

Record db_inv (db : Db) (cs : list Call) (ts : list string) : Prop := {
  di_unique : NoDup (id <$> jobs db);
  di_ids : ∀ j, j ∈ jobs db → id j < nextId db;
  di_calls : ∀ c, c ∈ cs → c_job c < nextId db;
  di_epochs : ∀ c j, c ∈ cs → j ∈ jobs db → c_job c = id j → c_epoch c <= epoch j;
  di_retry : ∀ j, j ∈ jobs db → retryable j → none_accepted (id j) (epoch j) cs;
  di_tokens : ∀ j t, j ∈ jobs db → held t j → t ∈ ts
}.

Definition workers_inv (db : Db) (wks : list Worker) (cs : list Call) : Prop :=
  ∀ n wk j, wks !! n = Some wk → j ∈ jobs db → id j = id (wk_job wk) → held (wk_token wk) j →
    settled (wk_prog wk) ∨ none_accepted (id j) (epoch j) cs.

(** All calls of one opening but the newest were refused. *)
Definition once (cs : list Call) : Prop :=
  ∀ older c newer, cs = newer ++ c :: older → none_accepted (c_job c) (c_epoch c) older.

Definition fenced (c : Call) : Prop :=
  ∃ m, c_mapping c = Some m ∧ mp_enabled m = true ∧ mp_state m = ls_active
       ∧ mp_generation m = Some (c_generation c) ∧ default 0 (mp_userId m) = c_user c.

Record world_inv (w : World) : Prop := {
  wi_db : db_inv (w_db w) (w_calls w) (w_tokens w);
  wi_workers : workers_inv (w_db w) (w_workers w) (w_calls w);
  wi_tokens : NoDup (wk_token <$> w_workers w);
  wi_used : Forall (λ wk, wk_token wk ∈ w_tokens w) (w_workers w);
  wi_progs : Forall (λ wk, dispatches (wk_prog wk)) (w_workers w);
  wi_once : once (w_calls w);
  wi_fenced : Forall fenced (w_calls w)
}.

(** *** Rows *)

Lemma row_step_refl cs j : row_step cs j j.
Proof. split; [done|]. left. auto. Qed.
Hint Resolve row_step_refl : core.

Lemma db_inv_update cs ts db p f :
  db_inv db cs ts →
  (∀ j, j ∈ jobs db → p j = true → row_step cs j (f j)) →
  db_inv (mkDb (tbl_update p f (jobs db)) (nextId db)) cs ts.
Proof.
  intros [Hu Hi Hc He Hr Ht] Hf.
  assert (∀ j', j' ∈ tbl_update p f (jobs db) → ∃ j, j ∈ jobs db ∧ row_step cs j j') as Hstep.
  { intros j' (j & Hj & ->)%elem_of_tbl_update. exists j. split; [done|].
    destruct (p j) eqn:?; auto. }
  split; simpl.
  - unfold tbl_update. rewrite <- list_fmap_compose.
    replace ((id ∘ _) <$> jobs db) with (id <$> jobs db); [done|].
    apply list_fmap_ext. intros i j Hj%list_elem_of_lookup_2. simpl.
    destruct (p j) eqn:E; [|done]. by destruct (Hf j Hj E).
  - intros j' (j & Hj & Hid & _)%Hstep. rewrite Hid. auto.
  - done.
  - intros c j' Hc' (j & Hj & Hid & [[Hep _]|[Hep _]])%Hstep Hcj; specialize (He c j Hc' Hj); lia.
  - intros j' (j & Hj & Hid & [(Hep & Hret & _)|(Hep & _)])%Hstep Hr'; rewrite Hid.
    + rewrite Hep. destruct (Hret Hr'); auto.
    + intros c Hin [Hc1 Hc2]. specialize (He c j Hin Hj). lia.
  - intros j' t (j & Hj & Hid & [(_ & _ & Hh)|(_ & Hh)])%Hstep Hheld; [eauto|by apply Hh in Hheld].
Qed.

Lemma workers_inv_update cs db p f wks :
  workers_inv db wks cs →
  (∀ j, j ∈ jobs db → p j = true → row_step cs j (f j)) →
  workers_inv (mkDb (tbl_update p f (jobs db)) (nextId db)) wks cs.
Proof.
  intros Hw Hf n wk j' Hn (j & Hj & ->)%elem_of_tbl_update Hid Hh.
  destruct (p j) eqn:E; [|eauto].
  destruct (Hf j Hj E) as (Hid' & [(Hep & _ & Hheld)|(_ & Hno)]); [|by apply Hno in Hh].
  rewrite Hid', Hep. apply (Hw n wk j); auto. congruence.
Qed.

(** The table under the workers. *)
Definition table_inv (db : Db) (w : World) : Prop :=
  db_inv db (w_calls w) (w_tokens w) ∧ workers_inv db (w_workers w) (w_calls w).

Lemma world_inv_setDb w db : world_inv w → table_inv db w → world_inv (setDb db w).
Proof. intros [? ? ? ? ? ? ?] [? ?]. by split. Qed.

Lemma table_inv_update w db p f :
  table_inv db w → (∀ j, j ∈ jobs db → p j = true → row_step (w_calls w) j (f j)) →
  table_inv (mkDb (tbl_update p f (jobs db)) (nextId db)) w.
Proof. intros [? ?] ?. split; [by apply db_inv_update|by apply workers_inv_update]. Qed.

Lemma table_inv_delete w db p :
  table_inv db w → table_inv (mkDb (tbl_delete p (jobs db)) (nextId db)) w.
Proof.
  intros [[Hu Hi Hc He Hr Ht] Hw]. split.
  - split; simpl; [by apply unique_on_filter|..]; try done;
      intros *; rewrite ?elem_of_tbl_delete; naive_solver.
  - intros n wk j Hn Hj. simpl in Hj. apply elem_of_tbl_delete in Hj as [_ Hj]. by apply (Hw n wk j).
Qed.

Lemma settle_row_step cs now st retries next err sentTime record key o j :
  st ≠ processing → (st = sent ∨ st = cancelled ∨ (o ≠ None ∧ o ≠ Some o_not_sent)
                     ∨ none_accepted (id j) (epoch j) cs) →
  row_step cs j (settle now st retries next err sentTime record key o j).
Proof.
  intros Hst Hso. split; [done|]. left. split; [done|]. split.
  - intros [? ?]. simpl in *. right. destruct Hso as [->|[->|[[? ?]|?]]]; naive_solver.
  - intros t [? ?]. simpl in *. congruence.
Qed.

Lemma setKey_step cs now key j : row_step cs j (setKey now key j).
Proof. split; [done|]. left. split; [done|]. split; [by left|done]. Qed.

Lemma save_step cs now j j' : row_step cs j j' → row_step cs j (save now j j').
Proof. intros H. unfold save. case_bool_decide; auto. Qed.

Lemma reopen_step cs j i : row_step cs j (reopenToPending j i).
Proof. split; [done|]. right. split; simpl; [lia|]. by intros t [? ?]. Qed.

Lemma in_place_step cs j i :
  status j = pending ∨ status j = failed → row_step cs j (touchTerminal j i).
Proof.
  intros Hs. split; [done|]. left. split; [done|]. split.
  - intros [H1 H2]. simpl in *. left. by split.
  - intros t [H1 H2]. simpl in *. case_bool_decide; [done|]. by split.
Qed.

Lemma updateInPlace_step cs keep j i :
  status j = pending ∨ status j = failed → row_step cs j (updateInPlace keep j i).
Proof.
  intros Hs. split; [done|]. left. split; [done|]. split.
  - intros [H1 H2]. simpl in *. left. by split.
  - intros t [H1 H2]. simpl in *. case_match; [done|]. by split.
Qed.

Lemma applyExisting_step cs reopenOnly i j : row_step cs j (applyExisting reopenOnly i j).
Proof.
  unfold applyExisting. repeat case_match; auto using reopen_step, in_place_step, updateInPlace_step.
Qed.

Lemma table_inv_insert w db now i :
  table_inv db w →
  table_inv (mkDb (jobs db ++ [buildNewEntity (nextId db) now i]) (nextId db + 1)) w.
Proof.
  intros [[Hu Hi Hc He Hr Ht] Hw].
  assert (∀ j, j ∈ jobs db ++ [buildNewEntity (nextId db) now i] →
               j ∈ jobs db ∨ j = buildNewEntity (nextId db) now i) as Hin.
  { intros j. rewrite elem_of_app, list_elem_of_singleton. done. }
  split; [split|]; simpl.
  - apply unique_on_snoc; [|done]. intros j Hj. apply Hi in Hj. simpl. lia.
  - intros j [Hj| ->]%Hin; [apply Hi in Hj; lia|simpl; lia].
  - intros c Hc'. apply Hc in Hc'. lia.
  - intros c j Hc' [Hj| ->]%Hin; [by auto|]. apply Hc in Hc'. simpl. lia.
  - intros j [Hj| ->]%Hin; [auto|]. intros _ c Hc' [Hcj _]. apply Hc in Hc'. simpl in *. lia.
  - intros j t [Hj| ->]%Hin; [eauto|]. by intros [? ?].
  - intros n wk j Hn [Hj| ->]%Hin; [by apply (Hw n wk j)|]. by intros _ [? ?].
Qed.

Lemma table_inv_upsertAll w now reopenOnly existing is_ db db' :
  table_inv db w → upsertAll now reopenOnly existing is_ db = Some db' → table_inv db' w.
Proof.
  revert db. induction is_ as [|i is_ IH]; intros db Hinv Heq; simpl in *; [by simplify_eq|].
  unfold upsertOne in Heq. repeat case_match; simplify_option_eq.
  - eapply IH; [|done]. apply table_inv_update; [done|]. auto using save_step, applyExisting_step.
  - eapply IH; [|done]. by apply table_inv_insert.
Qed.

Lemma table_inv_upsert w now reopenOnly inputs :
  world_inv w → table_inv (upsertPendingJobs now reopenOnly inputs (w_db w)).1 w.
Proof.
  intros Hw. unfold upsertPendingJobs. case_match eqn:E; simpl; [|by destruct Hw].
  eapply table_inv_upsertAll; [|done]. by destruct Hw.
Qed.

Lemma table_inv_cancel w now reason p : world_inv w → table_inv (cancelWhere now reason p (w_db w)).1 w.
Proof.
  intros Hw. apply table_inv_update; [by destruct Hw|]. intros. apply settle_row_step; naive_solver.
Qed.

(** *** Workers *)

Lemma afterDelivery_settled s now u job key o err :
  o ≠ o_not_sent →
  settled (afterDelivery s now u job key (delivered o err))
  ∧ ∀ e, settled (afterDelivery s now u job key (deliver_threw (Some o) e)).
Proof.
  intros Ho. assert (∀ e n o, o ≠ o_not_sent → settled (closeFailed e n o)) as Hc by done.
  split; [|intros e]; destruct o; simpl; auto; try done; try (by apply Hc).
  intros [[]|]; simpl; auto.
Qed.

Lemma failPath_dispatches s now u job e : dispatches (failPath s now u job e).
Proof. unfold failPath. repeat case_match; intros [|]; done. Qed.
Hint Resolve failPath_dispatches : core.

Lemma cancelWith_dispatches s now u job reason : dispatches (cancelWith s now u job reason).
Proof. intros [|]; simpl; auto. Qed.
Hint Resolve cancelWith_dispatches : core.

Lemma checkMapping_dispatches s now u job next :
  dispatches next → dispatches (checkMappingBeforeSend s now u job next).
Proof.
  intros ?. unfold checkMappingBeforeSend. case_match; [done|].
  intros [view|]; [|auto]. unfold checkView. repeat case_match; auto.
Qed.

Lemma deliver_dispatches s now u freshKey job text : dispatches (deliver s now u freshKey job text).
Proof.
  unfold deliver. repeat case_match; auto. split.
  - intros r. destruct r as [[]|[]|[[]|]]; simpl; auto; intros [[]|]; simpl; auto.
  - intros o err Ho. by apply afterDelivery_settled.
Qed.

Lemma processJob_dispatches s now u dormant freshKey job :
  dispatches (processJob s now u dormant freshKey job).
Proof.
  unfold processJob.
  repeat case_match; simpl; try (by intros [[]|]); try done;
    apply checkMapping_dispatches; auto; intros [|]; auto using checkMapping_dispatches, deliver_dispatches.
Qed.

Lemma continue_inv w n wk p :
  world_inv w → w_workers w !! n = Some wk → dispatches p →
  (∀ j, j ∈ jobs (w_db w) → id j = id (wk_job wk) → held (wk_token wk) j →
     settled p ∨ none_accepted (id j) (epoch j) (w_calls w)) →
  world_inv (continue_ n wk p w).
Proof.
  intros [Hdb Hw Ht Hu Hp Ho Hf] Hn Hd Hs. split; simpl; try done.
  - intros m wk' j [(<- & <- & ?)|(Hne & Hm)]%list_lookup_insert_Some; [by auto|by apply (Hw m wk' j)].
  - rewrite list_fmap_insert. simpl. rewrite list_insert_id; [done|]. by rewrite list_lookup_fmap, Hn.
  - apply Forall_insert; [done|]. by eapply (Forall_lookup_1 _ _ n wk) in Hu.
  - by apply Forall_insert.
Qed.

Lemma owned_held jobId token j : owned jobId token j = true ↔ id j = jobId ∧ held token j.
Proof.
  unfold owned, held, has_status. rewrite !andb_true_iff, !bool_decide_eq_true, Z.eqb_eq. naive_solver.
Qed.

Lemma worker_at w n wk j :
  world_inv w → w_workers w !! n = Some wk → j ∈ jobs (w_db w) →
  owned (id (wk_job wk)) (wk_token wk) j = true →
  settled (wk_prog wk) ∨ none_accepted (id j) (epoch j) (w_calls w).
Proof. intros Hw Hn Hj [? ?]%owned_held. by apply (wi_workers _ Hw n wk j). Qed.

Lemma worker_dispatches w n wk : world_inv w → w_workers w !! n = Some wk → dispatches (wk_prog wk).
Proof. intros Hw Hn. exact (Forall_lookup_1 _ _ _ _ (wi_progs _ Hw) Hn). Qed.

(** A continuation that keeps what was settled. *)
Lemma continue_from w n wk p :
  world_inv w → w_workers w !! n = Some wk → dispatches p → (settled (wk_prog wk) → settled p) →
  world_inv (continue_ n wk p w).
Proof.
  intros Hw Hn Hd Hs. apply continue_inv; [done..|]. intros j Hj Hid Hh.
  destruct (wi_workers _ Hw n wk j); auto.
Qed.

Lemma job_unique w j j' :
  world_inv w → j ∈ jobs (w_db w) → j' ∈ jobs (w_db w) → id j = id j' → j = j'.
Proof. intros Hw Hj Hj' Hid. eapply (unique_on_eq id); try done. by apply Hw. Qed.

Lemma token_unique w n m wk wk' :
  world_inv w → w_workers w !! n = Some wk → w_workers w !! m = Some wk' →
  wk_token wk = wk_token wk' → n = m.
Proof.
  intros Hw Hn Hm Heq. eapply NoDup_lookup; [apply (wi_tokens _ Hw)|..];
    rewrite list_lookup_fmap; [by rewrite Hn|rewrite Hm; simpl; congruence].
Qed.

Lemma none_accepted_cons c i e cs :
  none_accepted i e cs → (is_call i e c → ¬ accepted c) → none_accepted i e (c :: cs).
Proof. intros H Hc c' [->|Hin]%elem_of_cons; auto. Qed.

Lemma call_inv w n wk user generation key text k p c j :
  world_inv w → w_workers w !! n = Some wk → wk_prog wk = Deliver user generation key text k →
  j ∈ jobs (w_db w) → owned (id (wk_job wk)) (wk_token wk) j = true →
  c_job c = id j → c_epoch c = epoch j → fenced c →
  dispatches p → (accepted c → settled p) →
  world_inv (continue_ n wk p (addCall c w)).
Proof.
  intros Hw Hn Hprog Hj Hown Hcj Hce Hcf Hd Hs.
  assert (none_accepted (id j) (epoch j) (w_calls w)) as Hna.
  { destruct (worker_at w n wk j) as [Hset|]; try done. by rewrite Hprog in Hset. }
  apply owned_held in Hown as [Hid Hheld].
  pose proof (λ j j', job_unique w j j' Hw) as Hju.
  pose proof (λ m wk wk', token_unique w n m wk wk' Hw) as Htu.
  assert (∀ j', j' ∈ jobs (w_db w) → is_call (id j') (epoch j') c → j' = j) as Hsame.
  { intros j' Hj' [? ?]. apply Hju; [done..|congruence]. }
  destruct Hw as [[? Hids Hcs Heps Hret ?] Hwk ? Hused Hprogs Honce Hfen].
  split; simpl; try done.
  - split; try done.
    + intros c' [->|]%elem_of_cons; [rewrite Hcj|]; auto.
    + intros c' j' [->|]%elem_of_cons Hj' Heq; [|auto].
      assert (j' = j) as -> by (apply Hju; [done..|congruence]). lia.
    + intros j' Hj' Hr. apply none_accepted_cons; [auto|]. intros ->%Hsame; [|done].
      destruct Hr as [[Hr|Hr] _], Hheld; congruence.
  - intros m wk' j' Hm Hj' Hid' Hh'. apply list_lookup_insert_Some in Hm as [(<- & <- & ?)|(Hne & Hm)].
    + assert (j' = j) as -> by (apply Hju; [done..|simpl in *; congruence]).
      destruct (c_outcome c) as [[]|] eqn:E; unfold accepted in Hs; rewrite E in Hs; auto;
        right; (apply none_accepted_cons; [done|]); intros _; unfold accepted; rewrite E; tauto.
    + destruct (Hwk m wk' j') as [|Hn']; auto. right. apply none_accepted_cons; [done|].
      intros ->%Hsame; [|done]. destruct Hne. apply (Htu m wk wk'); auto.
      destruct Hheld, Hh'. congruence.
  - rewrite list_fmap_insert. simpl. rewrite list_insert_id; [done|]. by rewrite list_lookup_fmap, Hn.
  - apply Forall_insert; [done|]. by eapply (Forall_lookup_1 _ _ n wk) in Hused.
  - by apply Forall_insert.
  - intros older c' newer Heq. destruct newer as [|c0 newer]; simplify_eq/=; [|by eauto].
    by rewrite Hcj, Hce.
  - by constructor.
Qed.

(** *** Steps *)

Lemma fence_fenced mapping tombstone user generation :
  fence mapping tombstone user generation = None →
  ∃ m, mapping = Some m ∧ mp_enabled m = true ∧ mp_state m = ls_active
       ∧ mp_generation m = Some generation ∧ default 0 (mp_userId m) = user.
Proof.
  unfold fence. intros H. repeat case_match; simplify_eq. bool_to_prop.
  subst. by eexists.
Qed.

Lemma authorize_inv now p jid token key mapping tombstone user generation db db' :
  authorizeDelivery now p jid token key mapping tombstone user generation db = inr db' →
  fence mapping tombstone user generation = None
  ∧ (∃ j, j ∈ jobs db ∧ owned jid token j = true)
  ∧ db' = mkDb (tbl_update (ownedOn p jid token)
                  (λ j, setKey now (orOld (deliveryKey j) (Some key)) j) (jobs db)) (nextId db).
Proof.
  unfold authorizeDelivery. intros H. repeat case_match; simplify_eq.
  destruct (tbl_exists_spec (ownedOn p jid token) (jobs db)) as [(j & Hj & Hown)|]; [|done].
  unfold ownedOn in Hown. bool_to_prop. eauto.
Qed.

Lemma ownedEpoch_of w jid token j :
  world_inv w → j ∈ jobs (w_db w) → owned jid token j = true → ownedEpoch jid token (w_db w) = epoch j.
Proof.
  intros Hw Hj Hown. unfold ownedEpoch.
  destruct (head _) as [j'|] eqn:E; simpl.
  - apply tbl_select_head in E as [Hj' Hown']. f_equal. apply (job_unique w); try done.
    apply owned_held in Hown as [? _], Hown' as [? _]. congruence.
  - by rewrite (tbl_select_head_None _ _ j E Hj) in Hown.
Qed.

Lemma delivery_inv w n wk user generation key text k now answer commitError p :
  world_inv w → w_workers w !! n = Some wk → wk_prog wk = Deliver user generation key text k →
  (∀ r, (withOwnedDelivery now wk user generation key text answer commitError w).2 = r →
     dispatches (p r)
     ∧ ∀ o, answer = inl o → o ≠ o_not_sent → (∀ f, r ≠ refused f) → settled (p r)) →
  world_inv (let '(w', r) := withOwnedDelivery now wk user generation key text answer commitError w in
             continue_ n wk (p r) w').
Proof.
  intros Hw Hn Hprog. unfold withOwnedDelivery.
  destruct (authorizeDelivery _ _ _ _ _ _ _ _ _ _) as [f|db'] eqn:Ha; intros Hp.
  { simpl. apply continue_from; try done; [by apply Hp|by rewrite Hprog]. }
  apply authorize_inv in Ha as (Hf & (j & Hj & Hown) & ->).
  pose proof (ownedEpoch_of w _ _ j Hw Hj Hown) as Hep.
  set (c := callOf wk user generation key text answer w).
  assert (∀ p', dispatches p' → (∀ o, answer = inl o → o ≠ o_not_sent → settled p') →
    world_inv (continue_ n wk p' (addCall c w))) as Hcall.
  { intros p' Hd Hs. eapply call_inv; try done.
    - by apply owned_held in Hown as [? _].
    - by eapply fence_fenced.
    - unfold accepted. simpl. destruct answer as [[]|]; simpl; try done; intros _; by eapply Hs. }
  destruct (Hp _ eq_refl) as [Hd Hs]. destruct commitError as [e|]; simpl in *.
  - apply Hcall; [done|]. intros o ? ?. by eapply Hs.
  - assert (world_inv (continue_ n wk (p (deliveredAs answer)) (addCall c w))) as Hw'.
    { apply Hcall; [done|]. intros o -> ?. by eapply Hs. }
    eapply (world_inv_setDb _ _ Hw'), (table_inv_update _ (w_db w)).
    + split; [apply (wi_db _ Hw')|apply (wi_workers _ Hw')].
    + intros. apply setKey_step.
Qed.

Lemma claimable_retryable p jobId j :
  claimable p jobId j = true → id j = jobId ∧ retryable j.
Proof.
  unfold claimable, studyReminderDispatchPredicate, has_status, retryable. intros H. bool_to_prop.
  split; [done|]. split.
  - rewrite orb_true_iff, andb_true_iff, !bool_decide_eq_true in *. naive_solver.
  - repeat case_match; bool_to_prop; naive_solver.
Qed.

Lemma claim_db_inv db cs ts p jobId leaseMs now token :
  db_inv db cs ts →
  db_inv (claimJob p jobId leaseMs now token db).1 cs (token :: ts).
Proof.
  intros [Hu Hi Hc He Hr Ht].
  assert (∀ j', j' ∈ jobs (claimJob p jobId leaseMs now token db).1 →
    ∃ j, j ∈ jobs db ∧ id j' = id j ∧ epoch j' = epoch j
         ∧ (j' = j ∨ status j' = processing ∧ leaseToken j' = Some token)) as Hrow.
  { intros j' (j & Hj & ->)%elem_of_tbl_update. exists j. case_match; auto 10. }
  split; simpl.
  - by apply (unique_on_update id).
  - intros j' (j & Hj & -> & _)%Hrow. auto.
  - done.
  - intros c j' Hc' (j & Hj & -> & -> & _)%Hrow. auto.
  - intros j' (j & Hj & Hid & Hep & [->|[Hst _]])%Hrow; [auto|]. intros [[?|?] _]; congruence.
  - intros j' t (j & Hj & _ & _ & [->|[_ Htok]])%Hrow [? ?]; [right; by eapply Ht|].
    simplify_eq. left.
Qed.

Lemma claim_inv w s now u dormant freshKey p jobId leaseMs token :
  world_inv w → world_inv (execClaim s now u dormant freshKey p jobId leaseMs token w).
Proof.
  intros Hw. unfold execClaim. case_bool_decide as Hfresh; [done|].
  pose proof (claim_db_inv _ _ _ p jobId leaseMs now token (wi_db _ Hw)) as Hdb.
  destruct Hw as [Hdb0 Hwk Htok Hused Hprogs Honce Hfen]. unfold claimJob in *. simpl in Hdb.
  set (row := claimed now leaseMs token <$> _).
  assert (∀ wk, wk ∈ w_workers w → wk_token wk ≠ token) as Hold.
  { intros wk Hin Heq. apply Hfresh. rewrite <- Heq. by eapply Forall_forall in Hused. }
  split; simpl; try done.
  - intros n wk j Hn (j0 & Hj0 & ->)%elem_of_tbl_update Hid Hheld.
    destruct (claimable p jobId j0) eqn:Hcl.
    + right. apply claimable_retryable in Hcl as [_ Hr]. by apply (di_retry _ _ _ Hdb0 j0).
    + apply lookup_app_Some in Hn as [Hn|[_ Hn]]; [by apply (Hwk n wk j0)|].
      destruct Hfresh. apply (di_tokens _ _ _ Hdb0 j0); [done|].
      destruct row; apply list_elem_of_lookup_2 in Hn;
        [apply list_elem_of_singleton in Hn as ->; done|by apply not_elem_of_nil in Hn].
  - rewrite fmap_app. apply NoDup_app. split; [done|]. split.
    + intros t (wk & -> & Hin)%list_elem_of_fmap Ht. destruct row; simpl in Ht;
        [apply list_elem_of_singleton in Ht|by apply not_elem_of_nil in Ht]. by apply (Hold wk).
    + destruct row; simpl; [apply NoDup_singleton|apply NoDup_nil_2].
  - apply Forall_app. split; [eapply Forall_impl; [exact Hused|]; intros wk Hin; by right|].
    destruct row; repeat constructor.
  - apply Forall_app. split; [done|]. destruct row; repeat constructor. apply processJob_dispatches.
Qed.

(** A settling statement keeps the table when it may act on the worker's row. *)
Lemma mark_inv {A} w n wk (op : Db → Db * A) (r : DbAnswer) (p : A + string → Prog) f :
  world_inv w → w_workers w !! n = Some wk →
  (∀ db, (op db).1 = mkDb (tbl_update (owned (id (wk_job wk)) (wk_token wk)) f (jobs db)) (nextId db)) →
  (∀ j, j ∈ jobs (w_db w) → owned (id (wk_job wk)) (wk_token wk) j = true → row_step (w_calls w) j (f j)) →
  (∀ a, dispatches (p a) ∧ (settled (wk_prog wk) → settled (p a))) →
  world_inv (let '(w', a) := runMark op r w in continue_ n wk (p a) w').
Proof.
  intros Hw Hn Hop Hstep Hp.
  assert (world_inv (setDb (op (w_db w)).1 w)) as Hw'.
  { apply world_inv_setDb; [done|]. rewrite Hop. apply table_inv_update; [by destruct Hw|done]. }
  destruct r as [|[] e]; simpl; apply continue_from; try done; by apply Hp.
Qed.

Lemma execMark_inv w n wk now r :
  world_inv w → w_workers w !! n = Some wk → world_inv (execMark n now r wk w).
Proof.
  intros Hw Hn. unfold execMark.
  pose proof (worker_dispatches w n wk Hw Hn) as Hd.
  destruct (wk_prog wk) as [| | |record key k|f k|reason k|] eqn:Hprog; try done.
  - apply (mark_inv w n wk _ r k (λ j, settle now sent (retryCount j) None None (Some now)
      (orOld record (deliveryRecord j)) (orOld key (deliveryKey j)) (Some o_sent) j)); try done.
    + intros. apply settle_row_step; naive_solver.
    + intros a. rewrite Hprog. split; [apply Hd|intros Hs; apply Hs].
  - apply (mark_inv w n wk _ r (λ a, k (toUnit a)) (λ j, settle now failed (f_retryCount f)
      (if f_terminal f then None else f_nextRetryAt f) (Some (f_error f)) (sentAt j)
      (deliveryRecord j) (deliveryKey j) (Some (f_outcome f)) j)); try done.
    + intros j Hj Hown. apply settle_row_step; [done|].
      destruct (worker_at w n wk j) as [Hs|]; try done; [|auto].
      rewrite Hprog in Hs. destruct Hs as [Ho _]. right; right; left. split; congruence.
    + intros a. rewrite Hprog. split; [apply Hd|intros [_ Hs]; apply Hs].
  - apply (mark_inv w n wk _ r (λ a, k (toUnit a)) (λ j, settle now cancelled (retryCount j) None
      (orOld (Some reason) (lastError j)) (sentAt j) None None None j)); try done.
    + intros. apply settle_row_step; naive_solver.
    + intros a. rewrite Hprog. split; [apply Hd|intros Hs; apply Hs].
Qed.

Lemma execDeliver_inv w n wk now d :
  world_inv w → w_workers w !! n = Some wk → world_inv (execDeliver n now d wk w).
Proof.
  intros Hw Hn. unfold execDeliver.
  pose proof (worker_dispatches w n wk Hw Hn) as Hd.
  destruct (wk_prog wk) as [| |user generation key text k| | | |] eqn:Hprog; try done.
  destruct Hd as [Hd Hk]. destruct d as [|e|answer commitError];
    [apply continue_from; try done; by rewrite Hprog..|].
  eapply (delivery_inv w n wk); try done. unfold withOwnedDelivery. intros r Hr. split; [done|].
  intros o -> Ho Hnr. destruct (authorizeDelivery _ _ _ _ _ _ _ _ _ _) as [f|];
    [by destruct (Hnr f)|]. destruct commitError as [e|]; simplify_eq/=; by apply (Hk o None).
Qed.

Lemma execCrashSending_inv w n wk now answer :
  world_inv w → w_workers w !! n = Some wk → world_inv (execCrashSending n now answer wk w).
Proof.
  intros Hw Hn. unfold execCrashSending.
  destruct (wk_prog wk) as [| |user generation key text k| | | |] eqn:Hprog; try done.
  pose proof (delivery_inv w n wk user generation key text k now answer (Some "crash")
    (λ _, Done nothing) Hw Hn Hprog (λ _ _, conj I (λ _ _ _ _, I))) as H.
  by destruct (withOwnedDelivery _ _ _ _ _ _ _ _ _).
Qed.

Lemma exec_inv e w : world_inv w → world_inv (exec e w).
Proof.
  intros Hw. destruct e; cbn [exec]; unfold onWorker;
    try (destruct (w_workers w !! n) as [wk|] eqn:Hn; [|done]);
    try (pose proof (worker_dispatches w _ wk Hw Hn) as Hd);
    auto using claim_inv, execMark_inv, execDeliver_inv, execCrashSending_inv,
      world_inv_setDb, table_inv_upsert, table_inv_cancel.
  - case_match eqn:Hp; try done. apply continue_from; try done. by rewrite Hp.
  - case_match eqn:Hp; try done. apply continue_from; try done. by rewrite Hp.
  - by apply continue_from.
  - apply world_inv_setDb; [done|by apply table_inv_cancel].
  - apply world_inv_setDb; [done|by apply table_inv_cancel].
  - apply world_inv_setDb; [done|]. unfold cancelJobsFromOtherPlatforms.
    case_match; [by destruct Hw; split|by apply table_inv_cancel].
  - apply world_inv_setDb; [done|by apply table_inv_cancel].
  - apply world_inv_setDb; [done|]. apply table_inv_update; [by destruct Hw|].
    intros. apply settle_row_step; [by destruct toFailed|naive_solver].
  - apply world_inv_setDb; [done|]. apply table_inv_delete. by destruct Hw.
  - apply world_inv_setDb; [done|]. apply table_inv_delete. by destruct Hw.
  - by destruct Hw; split.
  - by destruct Hw; split.
Qed.

Lemma init_inv : world_inv init.
Proof.
  split; simpl; try constructor; simpl; try done; try (intros * H; by apply not_elem_of_nil in H).
  - constructor.
  - intros older c newer H. by destruct newer.
Qed.

Lemma world_run_inv es w : world_inv w → world_inv (run es w).
Proof. revert w. induction es; simpl; auto using exec_inv. Qed.

#[local] Instance is_call_dec i e c : Decision (is_call i e c).
Proof. apply and_dec; apply _. Defined.

(** The provider calls for opening [e] of job [i], newest first. *)
Definition attempts (i e : Z) (cs : list Call) : list Call := filter (is_call i e) cs.

Lemma once_attempts cs i e : once cs → Forall (λ c, ¬ accepted c) (tail (attempts i e cs)).
Proof.
  induction cs as [|c cs IH]; intros Ho; [constructor|].
  assert (once cs) as Ho' by (intros older c' newer ->; by apply (Ho older c' (c :: newer))).
  unfold attempts. rewrite filter_cons. case_decide as Hc; [|by apply IH]. simpl.
  apply Forall_forall. intros c' [Hc' Hin]%list_elem_of_filter. destruct Hc as [<- <-].
  by apply (Ho cs c []).
Qed.

(** C7. A study reminder is delivered at most once.  Workers of any number of
    processes claim, deliver, settle, fail and crash in any order, between syncs,
    cancellations, lease recovery, retention and changes of the account mapping.
    For every opening of a job, all provider calls but the last were answered with
    [not_sent]; a row the dispatch may still pick up has had no accepted call; and
    every call was made while the newest mapping row of the recipient was active
    and named the user and generation the job was scheduled for. *)
Theorem reminder_at_most_once es i e :
  let w := run es init in
  Forall (λ c, ¬ accepted c) (tail (attempts i e (w_calls w)))
  ∧ (∀ j, j ∈ jobs (w_db w) → studyReminderDispatchPredicate j = true →
       Forall (λ c, ¬ accepted c) (attempts (id j) (epoch j) (w_calls w)))
  ∧ Forall fenced (w_calls w).
Proof.
  intros w. assert (world_inv w) as Hw by apply world_run_inv, init_inv. split_and!.
  - by apply once_attempts, Hw.
  - intros j Hj Hd. apply Forall_forall. intros c [Hc Hin]%list_elem_of_filter.
    assert (retryable j) as Hr.
    { eapply (claimable_retryable (platform j) (id j)). unfold claimable.
      by rewrite Z.eqb_refl, bool_decide_eq_true_2, Hd. }
    by apply (di_retry _ _ _ (wi_db _ Hw) j Hj Hr).
  - apply Hw.
Qed.

(** ** Attempts are bounded

    The sync service upserts with [reopenOnlyOnScheduleChange] and the configured
    [maxRetries]. *)

Section Bound.
Context (M : Z).

Definition service_event (e : Event) : Prop :=
  match e with
  | ESync _ reopenOnly inputs => reopenOnly = true ∧ Forall (λ i, u_maxRetries i = M) inputs
  | _ => True
  end.

Definition tries (i e : Z) (cs : list Call) : Z := Z.of_nat (length (attempts i e cs)).

Definition limit : Z := Z.max 1 M.

(** Every failure it may write counts one more than [r]. *)
Fixpoint counts_up (r : Z) (p : Prog) : Prop :=
  match p with
  | GetMapping k => ∀ a, counts_up r (k a)
  | GenText k => ∀ a, counts_up r (k a)
  | Deliver _ _ _ _ k => ∀ a, counts_up r (k a)
  | MarkSent _ _ k => ∀ a, counts_up r (k a)
  | MarkFailed f k => r < f_retryCount f ∧ ∀ a, counts_up r (k a)
  | MarkCancelled _ k => ∀ a, counts_up r (k a)
  | Done _ => True
  end.

Fixpoint quiet (p : Prog) : Prop :=
  match p with
  | GetMapping k => ∀ a, quiet (k a)
  | GenText k => ∀ a, quiet (k a)
  | Deliver _ _ _ _ _ => False
  | MarkSent _ _ k => ∀ a, quiet (k a)
  | MarkFailed _ k | MarkCancelled _ k => ∀ a, quiet (k a)
  | Done _ => True
  end.

Fixpoint one_shot (p : Prog) : Prop :=
  match p with
  | GetMapping k => ∀ a, one_shot (k a)
  | GenText k => ∀ a, one_shot (k a)
  | Deliver _ _ _ _ k => ∀ a, one_shot (k a) ∧ quiet (k a)
  | MarkSent _ _ k => ∀ a, one_shot (k a)
  | MarkFailed _ k | MarkCancelled _ k => ∀ a, one_shot (k a)
  | Done _ => True
  end.

(** One more call is allowed to the holder of the row. *)
Definition room (cs : list Call) (j : Job) : Prop :=
  tries (id j) (epoch j) cs <= retryCount j ∧ (retryCount j = 0 ∨ retryCount j < M).

Record row_bound (cs : list Call) (j : Job) : Prop := {
  rb_max : maxRetries j = M;
  rb_pos : 0 <= retryCount j;
  rb_tries : tries (id j) (epoch j) cs <= limit;
  rb_retry : retryable j → tries (id j) (epoch j) cs <= retryCount j
                           ∧ (deliveryStatus j = None → retryCount j = 0)
}.

Definition worker_bound (cs : list Call) (wk : Worker) (j : Job) : Prop :=
  retryCount (wk_job wk) = retryCount j
  ∧ (room cs j ∨ tries (id j) (epoch j) cs <= retryCount j + 1 ∧ quiet (wk_prog wk)).

Definition table_bound (db : Db) (w : World) : Prop :=
  (∀ j, j ∈ jobs db → row_bound (w_calls w) j)
  ∧ ∀ n wk j, w_workers w !! n = Some wk → j ∈ jobs db → id j = id (wk_job wk) →
      held (wk_token wk) j → worker_bound (w_calls w) wk j.

Definition prog_bound (wk : Worker) : Prop :=
  one_shot (wk_prog wk) ∧ counts_up (retryCount (wk_job wk)) (wk_prog wk).

Definition bound_inv (w : World) : Prop :=
  table_bound (w_db w) w ∧ Forall prog_bound (w_workers w).

(** *** Programs *)

Section Programs.
Context (s : Settings) (now u : Z) (job : Job).

(** No delivery, and failures count up. *)
Definition closing (p : Prog) : Prop := quiet p ∧ one_shot p ∧ counts_up (retryCount job) p.
Definition opening (p : Prog) : Prop := one_shot p ∧ counts_up (retryCount job) p.

Lemma failPath_closing e : closing (failPath s now u job e).
Proof.
  unfold failPath. case_match. unfold closing; simpl. split_and!; try (by intros [|]).
  match goal with |- context [if ?b then _ else _] => destruct b end; lia.
Qed.

Lemma cancelWith_closing e : closing (cancelWith s now u job e).
Proof. split_and!; intros [|]; try done; apply failPath_closing. Qed.

Lemma closeFailed_closing e r o : retryCount job < r → closing (closeFailed e r o).
Proof. by repeat split. Qed.

Lemma checkMapping_opening next :
  opening next → opening (checkMappingBeforeSend s now u job next).
Proof.
  intros ?. unfold checkMappingBeforeSend. case_match; [done|].
  split; intros [view|]; try apply failPath_closing; unfold checkView;
    repeat case_match; try done; first [apply cancelWith_closing|apply failPath_closing|apply H].
Qed.

Lemma afterDelivery_closing key r : closing (afterDelivery s now u job key r).
Proof.
  destruct r as [[]|[]|[[]|]]; cbn [afterDelivery];
    try apply cancelWith_closing; try apply failPath_closing; try (apply closeFailed_closing; lia);
    try (by repeat split).
  split_and!; intros [[]|]; try done; apply closeFailed_closing; lia.
Qed.

Lemma deliver_opening freshKey text : opening (deliver s now u freshKey job text).
Proof.
  unfold deliver. repeat case_match; try apply cancelWith_closing.
  split; simpl; [intros a; split|intros a]; apply afterDelivery_closing.
Qed.

Lemma processJob_opening dormant freshKey : opening (processJob s now u dormant freshKey job).
Proof.
  unfold processJob.
  repeat case_match; try (by split; intros [[]|]); try (apply closeFailed_closing; lia);
    apply checkMapping_opening; try apply cancelWith_closing;
    split; intros [|]; try apply failPath_closing; apply checkMapping_opening, deliver_opening.
Qed.

End Programs.

(** *** Rows *)

Definition bound_step (cs : list Call) (j j' : Job) : Prop :=
  id j' = id j ∧ maxRetries j' = M ∧ 0 <= retryCount j'
  ∧ ((epoch j' = epoch j
      ∧ (retryable j' →
           (retryable j ∧ retryCount j' = retryCount j ∧ (deliveryStatus j' = None → deliveryStatus j = None))
           ∨ (tries (id j) (epoch j) cs <= retryCount j' ∧ deliveryStatus j' ≠ None))
      ∧ ∀ t, held t j' → held t j ∧ retryCount j' = retryCount j)
     ∨ (epoch j < epoch j' ∧ retryCount j' = 0 ∧ ∀ t, ¬ held t j')).

Lemma tries_zero cs i e : (∀ c, c ∈ cs → ¬ is_call i e c) → tries i e cs = 0.
Proof.
  intros H. unfold tries, attempts. destruct (filter _ cs) as [|c l] eqn:E; [done|].
  assert (c ∈ filter (is_call i e) cs) as [Hc Hin]%list_elem_of_filter by (rewrite E; left).
  by apply H in Hin.
Qed.

Lemma row_bound_step cs ts db j j' :
  db_inv db cs ts → j ∈ jobs db → row_bound cs j → bound_step cs j j' → row_bound cs j'.
Proof.
  intros Hdb Hj [Hm Hp Ht Hr] (Hid & Hm' & Hp' & [(He & Hret & _)|(He & Hr0 & _)]);
    split; try done; rewrite Hid.
  - by rewrite He.
  - rewrite He. intros [(Hrj & -> & Hds)|[? ?]]%Hret; [|naive_solver].
    destruct (Hr Hrj). naive_solver.
  - rewrite tries_zero; [unfold limit; lia|]. intros c Hc [Hc1 Hc2].
    pose proof (di_epochs _ _ _ Hdb c j Hc Hj Hc1). lia.
  - intros _. rewrite tries_zero; [lia|]. intros c Hc [Hc1 Hc2].
    pose proof (di_epochs _ _ _ Hdb c j Hc Hj Hc1). lia.
Qed.

Lemma table_bound_update db w p f :
  db_inv db (w_calls w) (w_tokens w) → table_bound db w →
  (∀ j, j ∈ jobs db → p j = true → bound_step (w_calls w) j (f j)) →
  table_bound (mkDb (tbl_update p f (jobs db)) (nextId db)) w.
Proof.
  intros Hdb [Hr Hw] Hf. split; simpl.
  - intros j' (j & Hj & ->)%elem_of_tbl_update. destruct (p j) eqn:E; [|auto].
    eapply row_bound_step; eauto.
  - intros n wk j' Hn (j & Hj & ->)%elem_of_tbl_update Hid Hh. destruct (p j) eqn:E; [|by apply (Hw n wk j)].
    destruct (Hf j Hj E) as (Hid' & _ & _ & [(He & _ & Hheld)|(_ & _ & Hno)]); [|by apply Hno in Hh].
    apply Hheld in Hh as [Hh Hrc]. destruct (Hw n wk j) as [? Hroom]; [done..|congruence|done|].
    unfold worker_bound, room. rewrite Hid', He, Hrc. done.
Qed.

Lemma table_bound_delete db w p :
  table_bound db w → table_bound (mkDb (tbl_delete p (jobs db)) (nextId db)) w.
Proof.
  intros [Hr Hw]. split; simpl.
  - intros j [_ Hj]%elem_of_tbl_delete. auto.
  - intros n wk j Hn [_ Hj]%elem_of_tbl_delete. by apply (Hw n wk j).
Qed.

Lemma settle_bound cs now st retries next err sentTime record key o j :
  row_bound cs j → st ≠ processing → 0 <= retries →
  (st = sent ∨ st = cancelled ∨ o ≠ None ∧ (o ≠ Some o_not_sent ∨ tries (id j) (epoch j) cs <= retries)) →
  bound_step cs j (settle now st retries next err sentTime record key o j).
Proof.
  intros [Hm _ _ _] Hst Hret Hso. split_and!; try done. left. split; [done|]. split.
  - intros [H1 H2]. simpl in *. right. destruct Hso as [->|[->|[? [?|?]]]]; naive_solver.
  - intros t [? ?]. simpl in *. congruence.
Qed.

Lemma applyExisting_bound cs i j :
  u_maxRetries i = M → row_bound cs j → bound_step cs j (applyExisting true i j).
Proof.
  intros Hi [Hm Hp _ _].
  assert (bound_step cs j j) as Hid by (split_and!; try done; left; naive_solver).
  assert (bound_step cs j (reopenToPending j i)) as Hre.
  { split_and!; try done. right. simpl. split_and!; try lia. by intros t [? ?]. }
  assert (status j = pending ∨ status j = failed →
    bound_step cs j (touchTerminal j i) ∧ bound_step cs j (updateInPlace true j i)) as Hin.
  { intros Hs. split; (split_and!; [done..|]; left; split; [done|]); split; simpl.
    - intros [? ?]. left. done.
    - intros t [H1 H2]. simpl in *. case_bool_decide; [done|]. done.
    - intros [? ?]. left. done.
    - intros t [H1 H2]. simpl in *. case_match; [done|]. done. }
  unfold applyExisting. repeat case_match; try done; apply Hin; auto.
Qed.

Lemma save_bound cs now j j' : row_bound cs j → bound_step cs j j' → bound_step cs j (save now j j').
Proof.
  intros [? ? _ _] H. unfold save. case_bool_decide; [|done].
  split_and!; try done. left. naive_solver.
Qed.

Lemma table_bound_insert db w now i :
  u_maxRetries i = M → table_inv db w → table_bound db w →
  table_bound (mkDb (jobs db ++ [buildNewEntity (nextId db) now i]) (nextId db + 1)) w.
Proof.
  intros Hi [Hdb _] [Hr Hw]. split; simpl.
  - intros j [Hj|Hj%list_elem_of_singleton]%elem_of_app; [auto|]. subst j.
    assert (tries (nextId db) 0 (w_calls w) = 0) as H0.
    { apply tries_zero. intros c Hc [Heq _]. apply (di_calls _ _ _ Hdb) in Hc. lia. }
    split; simpl; try done; rewrite H0; [unfold limit|]; lia.
  - intros n wk j Hn [Hj|Hj%list_elem_of_singleton]%elem_of_app Hid Hh; [by apply (Hw n wk j)|].
    subst j. by destruct Hh.
Qed.

Lemma table_bound_upsertAll w now existing is_ db db' :
  Forall (λ i, u_maxRetries i = M) is_ →
  table_inv db w → table_bound db w → upsertAll now true existing is_ db = Some db' → table_bound db' w.
Proof.
  revert db. induction is_ as [|i is_ IH]; intros db HM Hinv Hb Heq; simpl in *; [by simplify_eq|].
  apply Forall_cons in HM as [Hi HM]. unfold upsertOne in Heq. repeat case_match; simplify_option_eq.
  - eapply IH; [done|..|done].
    + apply table_inv_update; [done|]. auto using save_step, applyExisting_step.
    + apply table_bound_update; [apply Hinv|done|]. intros j Hj _. destruct Hb as [Hrows _].
      auto using save_bound, applyExisting_bound.
  - eapply IH; [done|..|done]; [by apply table_inv_insert|by apply table_bound_insert].
Qed.

Lemma bound_inv_setDb w db : bound_inv w → table_bound db w → bound_inv (setDb db w).
Proof. intros [_ ?] ?. by split. Qed.

Lemma table_bound_cancel w now reason p :
  world_inv w → bound_inv w → table_bound (cancelWhere now reason p (w_db w)).1 w.
Proof.
  intros Hw [Hb _]. apply table_bound_update; [apply Hw|done|].
  intros j Hj _. destruct Hb as [Hrows _]. apply settle_bound; auto. by apply Hrows.
Qed.

(** *** Workers *)

Lemma bound_continue w n wk p :
  bound_inv w → w_workers w !! n = Some wk →
  one_shot p → counts_up (retryCount (wk_job wk)) p → (quiet (wk_prog wk) → quiet p) →
  bound_inv (continue_ n wk p w).
Proof.
  intros [[Hr Hw] Hp] Hn Ho Hc Hq. split; [split|]; simpl; [done| |by apply Forall_insert].
  intros m wk' j [(<- & <- & ?)|(_ & Hm)]%list_lookup_insert_Some Hj Hid Hh; [|by apply (Hw m wk' j)].
  destruct (Hw n wk j) as [? [?|[? ?]]]; try done; split; auto.
Qed.

Lemma tries_cons c i e cs :
  tries i e (c :: cs) = tries i e cs + if decide (is_call i e c) then 1 else 0.
Proof. unfold tries, attempts. rewrite filter_cons. case_decide; simpl; lia. Qed.

Lemma bound_call w n wk user generation key text k p c j :
  world_inv w → bound_inv w → w_workers w !! n = Some wk →
  wk_prog wk = Deliver user generation key text k →
  j ∈ jobs (w_db w) → owned (id (wk_job wk)) (wk_token wk) j = true →
  c_job c = id j → c_epoch c = epoch j →
  one_shot p → counts_up (retryCount (wk_job wk)) p → quiet p →
  bound_inv (continue_ n wk p (addCall c w)).
Proof.
  intros Hw [[Hr Hwk] Hp] Hn Hprog Hj [Hid Hh]%owned_held Hcj Hce Ho Hc Hq.
  destruct (Hwk n wk j Hn Hj Hid Hh) as [Hrc [[Ht Hlim]|[_ Hquiet]]]; [|by rewrite Hprog in Hquiet].
  assert (∀ j', j' ∈ jobs (w_db w) → j' ≠ j →
    tries (id j') (epoch j') (c :: w_calls w) = tries (id j') (epoch j') (w_calls w)) as Hother.
  { intros j' Hj' Hne. rewrite tries_cons, decide_False; [lia|]. intros [Heq _]. apply Hne.
    apply (job_unique w); try done. congruence. }
  assert (tries (id j) (epoch j) (c :: w_calls w) = tries (id j) (epoch j) (w_calls w) + 1) as Hsame.
  { by rewrite tries_cons, decide_True. }
  split; [split|]; simpl; [| |by apply Forall_insert].
  - intros j' Hj'. destruct (decide (j' = j)) as [->|Hne].
    + destruct (Hr j Hj) as [? ? _ _]. split; try done; [rewrite Hsame; unfold limit; lia|].
      intros [[?|?] _]; destruct Hh; congruence.
    + destruct (Hr j' Hj'). by split; rewrite ?Hother.
  - intros m wk' j' Hm Hj' Hid' Hh'. unfold worker_bound, room.
    apply list_lookup_insert_Some in Hm as [(<- & <- & _)|(Hne & Hm)].
    + assert (j' = j) as -> by (apply (job_unique w); try done; simpl in *; congruence).
      split; [done|]. right. split; [lia|done].
    + destruct (decide (j' = j)) as [->|Hnej]; [|rewrite Hother by done; by apply (Hwk m wk' j')].
      destruct Hne. apply (token_unique w n m wk wk'); try done. destruct Hh, Hh'. congruence.
Qed.

Lemma worker_prog w n wk : bound_inv w → w_workers w !! n = Some wk → prog_bound wk.
Proof. intros [_ Hp] Hn. exact (Forall_lookup_1 _ _ _ _ Hp Hn). Qed.

Lemma bound_setKey cs now key j : row_bound cs j → bound_step cs j (setKey now key j).
Proof. intros [? ? _ _]. split_and!; try done. left. split; [done|]. split; [by left|done]. Qed.

Lemma bound_delivery w n wk user generation key text k now answer commitError p :
  world_inv w → bound_inv w → w_workers w !! n = Some wk →
  wk_prog wk = Deliver user generation key text k →
  (∀ r, one_shot (p r) ∧ counts_up (retryCount (wk_job wk)) (p r) ∧ quiet (p r)) →
  bound_inv (let '(w', r) := withOwnedDelivery now wk user generation key text answer commitError w in
             continue_ n wk (p r) w').
Proof.
  intros Hw Hb Hn Hprog Hp. unfold withOwnedDelivery.
  destruct (authorizeDelivery _ _ _ _ _ _ _ _ _ _) as [f|db'] eqn:Ha.
  { apply bound_continue; try done; try apply Hp. by rewrite Hprog. }
  apply authorize_inv in Ha as (Hf & (j & Hj & Hown) & ->).
  set (c := callOf wk user generation key text answer w).
  assert (c_job c = id j ∧ c_epoch c = epoch j) as [Hcj Hce].
  { split; [by apply owned_held in Hown as [? _]|by apply (ownedEpoch_of w)]. }
  destruct commitError as [e|]; [eapply bound_call; try done; apply Hp|].
  assert (bound_inv (continue_ n wk (p (deliveredAs answer)) (addCall c w))) as Hb'
    by (eapply bound_call; try done; apply Hp).
  apply (bound_inv_setDb _ _ Hb'), (table_bound_update (w_db w)); [|apply Hb'|].
  - assert (world_inv (continue_ n wk (Done nothing) (addCall c w))) as Hw'; [|apply Hw'].
    eapply call_inv; try done. by eapply fence_fenced.
  - intros j' Hj' _. apply bound_setKey. by apply Hb'.
Qed.

Lemma bound_mark {A} w n wk (op : Db → Db * A) (r : DbAnswer) (p : A + string → Prog) f :
  world_inv w → bound_inv w → w_workers w !! n = Some wk →
  (∀ db, (op db).1 = mkDb (tbl_update (owned (id (wk_job wk)) (wk_token wk)) f (jobs db)) (nextId db)) →
  (∀ j, j ∈ jobs (w_db w) → owned (id (wk_job wk)) (wk_token wk) j = true → bound_step (w_calls w) j (f j)) →
  (∀ a, one_shot (p a) ∧ counts_up (retryCount (wk_job wk)) (p a) ∧ (quiet (wk_prog wk) → quiet (p a))) →
  bound_inv (let '(w', a) := runMark op r w in continue_ n wk (p a) w').
Proof.
  intros Hw Hb Hn Hop Hstep Hp.
  assert (bound_inv (setDb (op (w_db w)).1 w)) as Hw'.
  { apply bound_inv_setDb; [done|]. rewrite Hop. apply table_bound_update; [apply Hw|apply Hb|done]. }
  destruct r as [|[] e]; simpl; apply bound_continue; try done; by apply Hp.
Qed.

Lemma bound_execMark w n wk now r :
  world_inv w → bound_inv w → w_workers w !! n = Some wk → bound_inv (execMark n now r wk w).
Proof.
  intros Hw Hb Hn. unfold execMark. pose proof (worker_prog w n wk Hb Hn) as [Ho Hc].
  assert (∀ j, j ∈ jobs (w_db w) → row_bound (w_calls w) j) as Hrows by apply Hb.
  destruct (wk_prog wk) as [| | |record key k|f k|reason k|] eqn:Hprog; try done.
  - apply (bound_mark w n wk _ r k (λ j, settle now sent (retryCount j) None None (Some now)
      (orOld record (deliveryRecord j)) (orOld key (deliveryKey j)) (Some o_sent) j)); try done.
    + intros j Hj _. apply settle_bound; auto. by apply Hrows.
    + intros a. rewrite Hprog. split_and!; [apply Ho|apply Hc|intros Hq; apply Hq].
  - apply (bound_mark w n wk _ r (λ a, k (toUnit a)) (λ j, settle now failed (f_retryCount f)
      (if f_terminal f then None else f_nextRetryAt f) (Some (f_error f)) (sentAt j)
      (deliveryRecord j) (deliveryKey j) (Some (f_outcome f)) j)); try done.
    + intros j Hj [Hid Hh]%owned_held. destruct Hc as [Hc _].
      destruct (proj2 (proj1 Hb) n wk j Hn Hj Hid Hh) as [Hrc Ht].
      pose proof (rb_pos _ _ (Hrows j Hj)). apply settle_bound; auto; [lia|].
      right; right. split; [done|]. right. destruct Ht as [[? _]|[? _]]; lia.
    + intros a. rewrite Hprog. split_and!; [apply Ho|apply Hc|intros Hq; apply Hq].
  - apply (bound_mark w n wk _ r (λ a, k (toUnit a)) (λ j, settle now cancelled (retryCount j) None
      (orOld (Some reason) (lastError j)) (sentAt j) None None None j)); try done.
    + intros j Hj _. apply settle_bound; auto. by apply Hrows.
    + intros a. rewrite Hprog. split_and!; [apply Ho|apply Hc|intros Hq; apply Hq].
Qed.

Lemma bound_execDeliver w n wk now d :
  world_inv w → bound_inv w → w_workers w !! n = Some wk → bound_inv (execDeliver n now d wk w).
Proof.
  intros Hw Hb Hn. unfold execDeliver. pose proof (worker_prog w n wk Hb Hn) as [Ho Hc].
  destruct (wk_prog wk) as [| |user generation key text k| | | |] eqn:Hprog; try done.
  destruct d as [|e|answer commitError];
    [apply bound_continue; try done; [apply Ho|by rewrite Hprog]..|].
  eapply bound_delivery; try done. intros r. split_and!; [apply Ho|apply Hc|apply Ho].
Qed.

Lemma bound_execCrashSending w n wk now answer :
  world_inv w → bound_inv w → w_workers w !! n = Some wk → bound_inv (execCrashSending n now answer wk w).
Proof.
  intros Hw Hb Hn. unfold execCrashSending.
  destruct (wk_prog wk) as [| |user generation key text k| | | |] eqn:Hprog; try done.
  pose proof (bound_delivery w n wk user generation key text k now answer (Some "crash")
    (λ _, Done nothing) Hw Hb Hn Hprog (λ _, conj I (conj I I))) as H.
  by destruct (withOwnedDelivery _ _ _ _ _ _ _ _ _).
Qed.

Lemma claim_room cs p jobId j :
  claimable p jobId j = true → row_bound cs j → room cs j.
Proof.
  intros Hcl [Hm _ _ Hr]. pose proof (claimable_retryable _ _ _ Hcl) as [_ Hret].
  destruct (Hr Hret) as [Ht Hnone]. split; [done|].
  unfold claimable, studyReminderDispatchPredicate in Hcl. bool_to_prop.
  destruct (deliveryStatus j); [|auto]. bool_to_prop. right. lia.
Qed.

Lemma bound_claim w s now u dormant freshKey p jobId leaseMs token :
  world_inv w → bound_inv w → bound_inv (execClaim s now u dormant freshKey p jobId leaseMs token w).
Proof.
  intros Hw [[Hr Hwk] Hp]. unfold execClaim. case_bool_decide as Hfresh; [done|]. unfold claimJob.
  destruct (head (tbl_select (claimable p jobId) (jobs (w_db w)))) as [j0|] eqn:Hhead; simpl.
  - apply tbl_select_head in Hhead as [Hj0 Hcl0].
    split; [split|]; simpl.
    + intros j (j1 & Hj1 & ->)%elem_of_tbl_update. destruct (claimable p jobId j1); [|auto].
      destruct (Hr j1 Hj1). split; try done. by intros [[?|?] _].
    + intros n wk j Hn (j1 & Hj1 & ->)%elem_of_tbl_update Hid Hh.
      destruct (claimable p jobId j1) eqn:Hcl.
      * pose proof (claim_room _ _ _ _ Hcl (Hr j1 Hj1)) as Hroom.
        apply lookup_app_Some in Hn as [Hn|[_ Hn]].
        { destruct Hh as [_ Htok]. simpl in Htok. destruct Hfresh. injection Htok as ->.
          exact (Forall_lookup_1 _ _ _ _ (wi_used _ Hw) Hn). }
        apply list_elem_of_lookup_2, list_elem_of_singleton in Hn. subst wk. simpl in Hid.
        assert (j1 = j0) as -> by (by apply (job_unique w)). split; [done|]. by left.
      * apply lookup_app_Some in Hn as [Hn|[_ Hn]]; [by apply (Hwk n wk j1)|].
        apply list_elem_of_lookup_2, list_elem_of_singleton in Hn. subst wk. simpl in *.
        destruct Hfresh. by apply (di_tokens _ _ _ (wi_db _ Hw) j1).
    + apply Forall_app. split; [done|]. constructor; [|constructor]. apply processJob_opening.
  - rewrite app_nil_r, tbl_update_none; [|intros; by eapply tbl_select_head_None].
    by split; [split|].
Qed.

Lemma bound_exec e w : service_event e → world_inv w → bound_inv w → bound_inv (exec e w).
Proof.
  intros He Hw Hb.
  assert (∀ j, j ∈ jobs (w_db w) → row_bound (w_calls w) j) as Hrows by apply Hb.
  destruct e; cbn [exec]; unfold onWorker;
    try (destruct (w_workers w !! n) as [wk|] eqn:Hn; [|done]);
    try (pose proof (worker_prog w _ wk Hb Hn) as [Ho Hc]);
    auto using bound_claim, bound_execMark, bound_execDeliver, bound_execCrashSending;
    try (apply bound_inv_setDb; [done|]);
    try (by apply table_bound_cancel);
    try (by apply table_bound_delete, Hb).
  - case_match eqn:Hp; try done. apply bound_continue; try done. rewrite Hp. intros Hq. apply Hq.
  - case_match eqn:Hp; try done. apply bound_continue; try done. rewrite Hp. intros Hq. apply Hq.
  - by apply bound_continue.
  - destruct He as [-> HM]. unfold upsertPendingJobs. case_match eqn:E; simpl; [|apply Hb].
    eapply table_bound_upsertAll; [done| |apply Hb|done]. by destruct Hw.
  - unfold cancelJobsFromOtherPlatforms. case_match; [apply Hb|by apply table_bound_cancel].
  - apply table_bound_update; [apply Hw|apply Hb|]. intros j Hj _. apply settle_bound; auto.
    + by destruct toFailed.
    + by apply Hrows.
Qed.

Lemma bound_run es w : Forall service_event es → world_inv w → bound_inv w → bound_inv (run es w).
Proof.
  revert w. induction es; simpl; intros w Hes Hw Hb; [done|].
  apply Forall_cons in Hes as [? ?]. auto using exec_inv, bound_exec.
Qed.

(** A step adds at most one call, for a row of the table. *)
Definition one_call (w w' : World) : Prop :=
  w_calls w' = w_calls w
  ∨ ∃ c j, w_calls w' = c :: w_calls w ∧ j ∈ jobs (w_db w') ∧ c_job c = id j ∧ c_epoch c = epoch j.

Lemma delivery_one_call w n wk p now user generation key text answer commitError :
  world_inv w →
  one_call w (let '(w', r) := withOwnedDelivery now wk user generation key text answer commitError w in
              continue_ n wk (p r) w').
Proof.
  intros Hw. unfold withOwnedDelivery.
  destruct (authorizeDelivery _ _ _ _ _ _ _ _ _ _) as [f|db'] eqn:Ha; [by left|right].
  apply authorize_inv in Ha as (_ & (j & Hj & Hown) & ->).
  exists (callOf wk user generation key text answer w).
  pose proof (ownedEpoch_of w _ _ j Hw Hj Hown) as He. apply owned_held in Hown as Hid.
  destruct Hid as [Hid _]. destruct commitError as [e|]; simpl; [by exists j|].
  eexists. split; [done|]. split; [apply elem_of_tbl_update; by exists j|]. by case_match.
Qed.

Lemma runMark_calls {A} (op : Db → Db * A) r w n wk (p : A + string → Prog) :
  w_calls (let '(w', a) := runMark op r w in continue_ n wk (p a) w') = w_calls w.
Proof. by destruct r as [|[]]. Qed.

Lemma exec_one_call e w : world_inv w → one_call w (exec e w).
Proof.
  intros Hw. destruct e; cbn [exec]; unfold onWorker; try (by left);
    try (destruct (w_workers w !! n) as [wk|]; [|by left]); try (by left; repeat case_match).
  - left. unfold execClaim. by repeat case_match.
  - unfold execDeliver. destruct (wk_prog wk); try (by left). destruct d; try (by left).
    by apply delivery_one_call.
  - left. unfold execMark. destruct (wk_prog wk); try done; apply (runMark_calls _ r w n wk).
  - unfold execCrashSending. destruct (wk_prog wk); try (by left).
    pose proof (delivery_one_call w n wk (λ _, Done nothing) now user generation key text answer
      (Some "crash") Hw) as Hd.
    by destruct (withOwnedDelivery _ _ _ _ _ _ _ _ _).
Qed.

Lemma calls_bound_run es w :
  Forall service_event es → world_inv w → bound_inv w →
  (∀ i e, tries i e (w_calls w) <= limit) → ∀ i e, tries i e (w_calls (run es w)) <= limit.
Proof.
  revert w. induction es as [|ev es IH]; simpl; intros w Hes Hw Hb Hall; [done|].
  apply Forall_cons in Hes as [Hev Hes]. pose proof (bound_exec ev w Hev Hw Hb) as Hb'.
  apply IH; auto using exec_inv. intros i e.
  destruct (exec_one_call ev w Hw) as [->|(c & j & Hc & Hj & Hcj & Hce)]; [done|].
  pose proof (rb_tries _ _ (proj1 (proj1 Hb') j Hj)) as Hlim.
  rewrite Hc in *. rewrite tries_cons in *. specialize (Hall i e).
  destruct (decide (is_call i e c)) as [[<- <-]|]; [|lia]. rewrite Hcj, Hce in *.
  rewrite decide_True in Hlim by done. lia.
Qed.

End Bound.

(** The attempts of a reminder are bounded: when the sync upserts as its
    service does, with one configured limit [M], no opening of a job is sent to
    the provider more than [max 1 M] times, whatever the interleaving of workers,
    crashes, lost answers, recovery and repeated syncs. *)
Theorem reminder_attempts_bounded M es i e :
  Forall (service_event M) es →
  Z.of_nat (length (attempts i e (w_calls (run es init)))) <= Z.max 1 M.
Proof.
  intros Hes. apply (calls_bound_run M es init Hes init_inv).
  - split; [split|constructor]; simpl; intros *; [by intros ?%not_elem_of_nil|done].
  - intros. unfold tries, limit. simpl. lia.
Qed.

(** ** Runs *)

Definition ex_settings : Settings := mkSettings 5 2 true true (λ _ _, None) (λ _, None).

Definition ex_input (topic : option string) : UpsertInput := {|
  u_platform := "zalo"; u_externalUserId := "u1"; u_userId := Some 7; u_mappingGeneration := Some 1;
  u_sessionKey := "s1"; u_scheduledAt := 2000000; u_remindAt := 200000; u_topic := topic;
  u_maxRetries := 2 |}.

Definition ex_link : Event := EMapRow ("zalo", "u1") (Some (mkMapping (Some 7) ls_active (Some 1) true)).
Definition ex_sync (topic : option string) : Event := ESync 1000 true [ex_input topic].

(** Worker [n] claims job 1 under [token] and gets [answer] from the provider. *)
Definition ex_attempt (n : nat) (token : string) (answer : Outcome + string) : list Event :=
  [EClaim ex_settings 300000 0 [] "k" "zalo" 1 600000 token;
   EMapping n (inl (Some (view_row ls_active (Some 7) (Some 1)))); EText n (inl "text");
   EMapping n (inl (Some (view_row ls_active (Some 7) (Some 1))));
   EDeliver n 301000 (dv_send answer None)].

Definition ex_settle (n : nat) : Event := EMark n 302000 db_ok.

Definition ex_cancel (keys : list string) : Event :=
  ECancelStale 400000 "zalo" "u1" keys None [pending; failed].

(** The first attempt is refused, the second accepted by the provider and then
    the worker dies; recovery closes the row. *)
Definition ex_run : list Event :=
  [ex_link; ex_sync None] ++ ex_attempt 0 "t0" (inl o_not_sent) ++ [ex_settle 0]
  ++ ex_attempt 1 "t1" (inl o_sent) ++ [ECrash 1; EReset "zalo" 2000000 0 false]
  ++ ex_attempt 2 "t2" (inl o_sent).

Lemma reminder_attempts_bounded_witness :
  Forall (service_event 2) ex_run
  ∧ length (attempts 1 0 (w_calls (run ex_run init))) = 2%nat
  ∧ Z.of_nat (length (attempts 1 0 (w_calls (run ex_run init)))) <= Z.max 1 2.
Proof.
  assert (Forall (service_event 2) ex_run) as H by (repeat constructor).
  split; [exact H|]. split; [vm_compute; reflexivity|exact (reminder_attempts_bounded 2 ex_run 1 0 H)].
Defined.

Definition accepted_attempts (es : list Event) (i e : Z) : nat :=
  length (filter (λ c, c_outcome c = Some o_sent) (attempts i e (w_calls (run es init)))).

(** A session whose topic disappears upstream is sent again at every sync: the
    comparison sees the missing topic as a change, the reopening keeps the old
    one. *)
Lemma topic_removal_reopens reopenOnly i j t :
  status j = sent → topic j = Some t → u_topic i = None →
  isOlderGeneration (mappingGeneration j) (u_mappingGeneration i) = false →
  let j' := applyExisting reopenOnly i j in
  studyReminderDispatchPredicate j' = true ∧ epoch j' = epoch j + 1 ∧ topic j' = Some t.
Proof.
  intros Hs Ht Hi Ho. unfold applyExisting, hasScheduleChanged. rewrite Ho, Hs, Hi, Ht.
  rewrite (bool_decide_eq_false_2 (None = Some t)) by done. rewrite orb_true_r.
  unfold reopenToPending. simpl. by rewrite Hi, Ht.
Qed.

Lemma topic_removal_resends :
  let es := [ex_link; ex_sync (Some "IELTS")] ++ ex_attempt 0 "t0" (inl o_sent) ++ [ex_settle 0]
    ++ [ex_sync None] ++ ex_attempt 1 "t1" (inl o_sent) ++ [ex_settle 1]
    ++ [ex_sync None] ++ ex_attempt 2 "t2" (inl o_sent) in
  (accepted_attempts es 1 0, accepted_attempts es 1 1, accepted_attempts es 1 2) = (1%nat, 1%nat, 1%nat).
Proof. vm_compute. reflexivity. Qed.

(** A delivery of unknown outcome is sent again once its session was missing from
    one sync: the cancellation clears the outcome and the next sync reopens the
    row on the same schedule. *)
Lemma missing_session_resends :
  let es := [ex_link; ex_sync None] ++ ex_attempt 0 "t0" (inl o_ambiguous) ++ [ex_settle 0]
    ++ [ex_cancel []; ex_sync None] ++ ex_attempt 1 "t1" (inl o_sent) in
  c_outcome <$> w_calls (run es init) = [Some o_sent; Some o_ambiguous].
Proof. vm_compute. reflexivity. Qed.

End RDispatch.
