(* ===== verification/ReminderSync.v ===== *)
(** * Synchronisation of study reminders (packages/study-reminder-shared)

    study-reminder-sync.service.ts with the mapping pages of
    typeorm-mapping-reader.ts, the schedule arithmetic of schedule.ts and the
    crons and dispatch timer of study-reminder-worker.service.ts.  What the
    upstream calendar, the canonical-platform resolver and the database answer
    is an argument of the sync of each mapping.  Mappings of one page are synced
    five at a time; their statements touch disjoint rows, and the model runs them
    one mapping after the other. *)

From S2P Require Import Prelude Table Paging ReminderJobs ReminderDispatch.

Module RSync.
Import RJobs RDispatch.

Record UserLink := mkLink { l_external : string; l_user : option Z; l_generation : option Z }.

Record StudySession := mkSession { s_key : string; s_scheduledAt : Z; s_topic : option string }.

(** What the ports answer while one mapping is synced. *)
Record Answers := mkAnswers {
  a_canonical : option string + string;
  a_sessions : list StudySession + string;
  a_hook : DbAnswer;
  a_upsert : DbAnswer;
  a_cancel : DbAnswer
}.

Record PerMappingOutcome := mkOutcome {
  o_upserted : Z; o_cancelled : Z; o_skipped : Z; o_otherPlatforms : Z; o_failure : option string
}.

Definition failure (e : string) : PerMappingOutcome := mkOutcome 0 0 0 0 (Some e).

Record SyncCounters := mkCounters {
  mappings : Z; skipped : Z; upserted : Z; cancelledCount : Z; failedCount : Z;
  cancelledOtherPlatforms : Z; failures : list (string * string)
}.

Definition zeroCounters : SyncCounters := mkCounters 0 0 0 0 0 0 [].

Definition accumulate (ext : string) (o : PerMappingOutcome) (c : SyncCounters) : SyncCounters := {|
  mappings := mappings c;
  skipped := skipped c + o_skipped o;
  upserted := upserted c + o_upserted o;
  cancelledCount := cancelledCount c + o_cancelled o;
  failedCount := failedCount c + (if o_failure o then 1 else 0);
  cancelledOtherPlatforms := cancelledOtherPlatforms c + o_otherPlatforms o;
  failures := failures c ++ match o_failure o with Some e => [(ext, e)] | None => [] end
|}.

(** A statement and what its caller sees. *)
Definition runStmt {A} (op : Db → Db * A) (r : DbAnswer) (db : Db) : Db * (A + string) :=
  match r with
  | db_ok => ((op db).1, inl (op db).2)
  | db_threw applied e => ((if applied then (op db).1 else db), inr e)
  end.

Definition DEFAULT_STALE_CANCEL_STATUSES : list JobStatus := [pending; failed].

Section Sync.
Context (now : Z) (thePlatform : string) (horizonEnd minutesBefore maxRetriesCfg : Z)
  (staleCancelStatuses : option (list JobStatus)) (hook : option (list JobStatus)) (scoped : bool).

Definition computeRemindAt (scheduled : Z) : Z := scheduled - minutesBefore * 60000.

Definition inHorizon (s : StudySession) : bool := s_scheduledAt s <=? horizonEnd.

Definition inputOf (m : UserLink) (s : StudySession) : UpsertInput := {|
  u_platform := thePlatform; u_externalUserId := l_external m; u_userId := l_user m;
  u_mappingGeneration := l_generation m; u_sessionKey := s_key s; u_scheduledAt := s_scheduledAt s;
  u_remindAt := computeRemindAt (s_scheduledAt s); u_topic := s_topic s; u_maxRetries := maxRetriesCfg |}.

(** The batch: an empty one is not sent. *)
Definition upsertBatch (batch : list UpsertInput) (r : DbAnswer) (db : Db) : Db * (unit + string) :=
  if bool_decide (batch = []) then (db, inl tt)
  else match runStmt (upsertPendingJobs now true batch) r db with
       | (db', inl true) => (db', inl tt)
       | (db', inl false) => (db', inr "duplicate key value violates unique constraint")
       | (db', inr e) => (db', inr e)
       end.

Definition cancelStale (m : UserLink) (keys : list string) (statuses : list JobStatus) : Db → Db * Z :=
  cancelStaleJobsForExternalUserId now thePlatform (l_external m) keys (Some horizonEnd) statuses.

(** The cross-platform hook of a sync of one user. *)
Definition runHook (user : Z) (r : DbAnswer) (db : Db) : Db * (Z + string) :=
  match hook with
  | Some statuses =>
      if scoped && negb (user =? 0)
      then runStmt (cancelJobsFromOtherPlatforms now user thePlatform statuses) r db
      else (db, inl 0)
  | None => (db, inl 0)
  end.

(** The calendar answered: upsert its sessions, cancel what it no longer has. *)
Definition applySessions (m : UserLink) (sessions : list StudySession) (others : Z) (a : Answers) (db : Db)
  : Db * PerMappingOutcome :=
  let kept := filter (λ s, inHorizon s = true) sessions in
  match upsertBatch (inputOf m <$> kept) (a_upsert a) db with
  | (db1, inr e) => (db1, failure e)
  | (db1, inl _) =>
      match runStmt (cancelStale m (s_key <$> kept)
                       (default DEFAULT_STALE_CANCEL_STATUSES staleCancelStatuses)) (a_cancel a) db1 with
      | (db2, inr e) => (db2, failure e)
      | (db2, inl n) =>
          (db2, mkOutcome (Z.of_nat (length kept)) n
                  (Z.of_nat (length sessions) - Z.of_nat (length kept)) others None)
      end
  end.

Definition syncOneMapping (m : UserLink) (a : Answers) (db : Db) : Db * PerMappingOutcome :=
  if bool_decide (l_external m = "") then (db, mkOutcome 0 0 1 0 None)
  else match l_user m with
       | None => (db, failure "Missing WISPACE userId for study reminder mapping")
       | Some user =>
           match a_canonical a with
           | inr e => (db, failure e)
           | inl canonical =>
               if negb (bool_decide (canonical = Some thePlatform)) then
                 match runStmt (cancelStale m [] [pending; failed]) (a_cancel a) db with
                 | (db', inl n) => (db', mkOutcome 0 n 1 0 None)
                 | (db', inr e) => (db', failure e)
                 end
               else match runHook user (a_hook a) db with
                    | (db', inr e) => (db', failure e)
                    | (db', inl others) =>
                        match a_sessions a with
                        | inr e => (db', failure e)
                        | inl sessions => applySessions m sessions others a db'
                        end
                    end
           end
       end.

End Sync.

(** ** The full sync: pages of active, opted-in mappings *)

Record LinkRow := mkLinkRow {
  r_id : Z; r_platform : string; r_external : string; r_user : option Z; r_generation : option Z;
  r_state : option LinkState; r_reminderEnabled : option bool
}.

Definition activeRow (p : string) (r : LinkRow) : bool :=
  bool_decide (r_platform r = p)
  && bool_decide (default ls_active (r_state r) = ls_active) && default true (r_reminderEnabled r).

Definition toLink (r : LinkRow) : UserLink := mkLink (r_external r) (r_user r) (r_generation r).

Definition DEFAULT_PAGE_SIZE : nat := 100.

Definition findActiveMappingsPage (table : list LinkRow) (p : string) (afterId : option Z) (limit : nat)
  : Paging.MappingPage LinkRow :=
  Paging.fullPageAsMappingPage r_id
    (Paging.findPage r_id (filter (λ r, activeRow p r = true) table) (Some (default 0 afterId)) limit) limit.

Section FullSync.
Context (now : Z) (thePlatform : string) (horizonEnd minutesBefore maxRetriesCfg : Z)
  (staleCancelStatuses : option (list JobStatus)) (hook : option (list JobStatus))
  (answers : UserLink → Answers).

Definition syncRow (st : Db * SyncCounters) (r : LinkRow) : Db * SyncCounters :=
  let '(db', o) := syncOneMapping now thePlatform horizonEnd minutesBefore maxRetriesCfg
                     staleCancelStatuses hook false (toLink r) (answers (toLink r)) st.1 in
  let c := st.2 in
  (db', accumulate (r_external r) o
          (mkCounters (mappings c + 1) (skipped c) (upserted c) (cancelledCount c) (failedCount c)
             (cancelledOtherPlatforms c) (failures c))).

Definition syncUpcomingSessions (table : list LinkRow) (fuel : nat) (db : Db) : option (Db * SyncCounters) :=
  Paging.iterateMappingPages (findActiveMappingsPage table thePlatform) DEFAULT_PAGE_SIZE
    (λ rows st, (foldl syncRow st rows, false)) fuel None (db, zeroCounters).
End FullSync.

(** ** The worker *)

(** [runEveningRollover]: every sent row of the platform goes, then a full sync. *)
Definition runEveningRollover (thePlatform : string) (sync : Db → option (Db * SyncCounters)) (db : Db)
  : option (Db * SyncCounters) :=
  sync (deleteSentJobs thePlatform None db).1.

(** [handleCleanupCron]. *)
Definition cleanup (thePlatform : string) (now retentionDays : Z) (db : Db) : Db * Z :=
  deleteTerminalJobsOlderThan thePlatform (now - retentionDays * 86400000) db.

(** The delay [runDispatchTick] arms after a run; [None] when the run threw. *)
Definition nextDispatchDelay (pollMin pollMax pollLead now : Z) (nextDue : option (option Z)) : Z :=
  match nextDue with
  | Some (Some due) =>
      if now <? due then Z.min (Z.max (due - now - pollLead) pollMin) pollMax else pollMin
  | _ => pollMin
  end.

(** ** What a sync leaves alone *)

Definition belongs (p ext : string) (j : Job) : bool :=
  bool_decide (platform j = p) && bool_decide (externalUserId j = ext).

Definition rowsOf (p ext : string) (db : Db) : list Job := filter (λ j, belongs p ext j = true) (jobs db).

Lemma belongs_spec p ext j : belongs p ext j = true ↔ platform j = p ∧ externalUserId j = ext.
Proof. unfold belongs. by rewrite andb_true_iff, !bool_decide_eq_true. Qed.

(** Statements that keep the owner of the rows they change, and change rows of
    [ext'] only. *)
Lemma rowsOf_update p ext q f db :
  (∀ j, q j = true → belongs p ext j = false ∧ belongs p ext (f j) = false) →
  rowsOf p ext (mkDb (tbl_update q f (jobs db)) (nextId db)) = rowsOf p ext db.
Proof.
  intros Hq. unfold rowsOf, tbl_update. simpl. induction (jobs db) as [|j l IH]; [done|].
  rewrite fmap_cons, !filter_cons, IH. destruct (q j) eqn:E; [|done].
  destruct (Hq j E) as [H1 H2]. by rewrite !decide_False by congruence.
Qed.

Lemma applyExisting_owner reopenOnly i now j p ext :
  belongs p ext (save now j (applyExisting reopenOnly i j)) = belongs p ext j.
Proof. unfold save, applyExisting. by repeat case_match. Qed.

Lemma rowsOf_upsertAll p ext now reopenOnly existing is_ db db' :
  Forall (λ i, u_platform i = p ∧ u_externalUserId i ≠ ext) is_ →
  upsertAll now reopenOnly existing is_ db = Some db' → rowsOf p ext db' = rowsOf p ext db.
Proof.
  revert db. induction is_ as [|i is_ IH]; intros db Hall Heq; simpl in *; [by simplify_eq|].
  apply Forall_cons in Hall as [[Hp Hne] Hall]. unfold upsertOne in Heq.
  repeat case_match; simplify_option_eq; rewrite (IH _ Hall Heq).
  - apply rowsOf_update. intros j Hk. rewrite applyExisting_owner. unfold keyed in Hk. bool_to_prop.
    unfold entityKey, inputKey in Hk. simplify_eq. unfold belongs.
    rewrite (bool_decide_eq_false_2 (externalUserId j = ext)) by congruence. by rewrite andb_false_r.
  - unfold rowsOf. simpl. rewrite filter_app, filter_cons_False; [by rewrite app_nil_r|].
    rewrite belongs_spec. simpl. naive_solver.
Qed.

Lemma rowsOf_upsert p ext now reopenOnly inputs db :
  Forall (λ i, u_platform i = p ∧ u_externalUserId i ≠ ext) inputs →
  rowsOf p ext (upsertPendingJobs now reopenOnly inputs db).1 = rowsOf p ext db.
Proof.
  intros Hall. unfold upsertPendingJobs. case_match eqn:E; simpl; [|done]. by eapply rowsOf_upsertAll.
Qed.

Lemma rowsOf_cancelStale p ext now horizonEnd m keys statuses db :
  l_external m ≠ ext → rowsOf p ext (cancelStale now p horizonEnd m keys statuses db).1 = rowsOf p ext db.
Proof.
  intros Hne. apply rowsOf_update. intros j Hj. bool_to_prop. unfold belongs. simpl.
  rewrite (bool_decide_eq_false_2 (externalUserId j = ext)) by congruence. by rewrite andb_false_r.
Qed.

Lemma runStmt_rows {A} p ext (op : Db → Db * A) r db :
  rowsOf p ext (op db).1 = rowsOf p ext db → rowsOf p ext (runStmt op r db).1 = rowsOf p ext db.
Proof. intros H. by destruct r as [|[]]. Qed.

Section Isolation.
Context (now : Z) (p : string) (horizonEnd minutesBefore maxRetriesCfg : Z)
  (staleCancelStatuses : option (list JobStatus)) (hook : option (list JobStatus)).
Abbreviation syncOne := (syncOneMapping now p horizonEnd minutesBefore maxRetriesCfg staleCancelStatuses hook false).

Lemma upsertBatch_rows ext m sessions r db :
  l_external m ≠ ext →
  rowsOf p ext (upsertBatch now (inputOf p minutesBefore maxRetriesCfg m <$> sessions) r db).1 = rowsOf p ext db.
Proof.
  intros Hne. unfold upsertBatch. case_bool_decide; [done|].
  pose proof (runStmt_rows p ext (upsertPendingJobs now true (inputOf p minutesBefore maxRetriesCfg m <$> sessions))
    r db) as Hs.
  destruct (runStmt _ r db) as [db' [[]|]]; apply Hs, rowsOf_upsert, Forall_fmap, Forall_true; done.
Qed.

(** The sync of another mapping does not touch the rows of [ext]. *)
Lemma syncOne_other ext m a db :
  l_external m ≠ ext → rowsOf p ext (syncOne m a db).1 = rowsOf p ext db.
Proof.
  intros Hne. unfold syncOneMapping. case_bool_decide; [done|]. destruct (l_user m) as [user|]; [|done].
  destruct (a_canonical a) as [canonical|]; [|done].
  assert (∀ keys sts db, rowsOf p ext (runStmt (cancelStale now p horizonEnd m keys sts) (a_cancel a) db).1
    = rowsOf p ext db) as Hc by (intros; by apply runStmt_rows, rowsOf_cancelStale).
  case_match.
  { specialize (Hc [] [pending; failed] db). by destruct (runStmt _ _ _) as [db' []]. }
  assert (runHook now p hook false user (a_hook a) db = (db, inl 0)) as -> by (by unfold runHook; destruct hook).
  destruct (a_sessions a) as [sessions|]; [|done]. unfold applySessions.
  pose proof (upsertBatch_rows ext m (filter (λ s, inHorizon horizonEnd s = true) sessions) (a_upsert a) db Hne) as Hu.
  destruct (upsertBatch _ _ _ _) as [db1 []]; [|done]. simpl in Hu.
  specialize (Hc (s_key <$> filter (λ s, inHorizon horizonEnd s = true) sessions)
    (default DEFAULT_STALE_CANCEL_STATUSES staleCancelStatuses) db1).
  destruct (runStmt _ _ db1) as [db2 []]; simpl in *; congruence.
Qed.

(** No list of sessions was obtained for the mapping. *)
Definition no_sessions (m : UserLink) (a : Answers) : Prop :=
  l_external m ≠ ""
  ∧ (l_user m = None ∨ (∃ e, a_canonical a = inr e)
     ∨ (a_canonical a = inl (Some p) ∧ ∃ e, a_sessions a = inr e)).

Lemma syncOne_closed m a db :
  no_sessions m a → (syncOne m a db).1 = db ∧ ∃ e, o_failure (syncOne m a db).2 = Some e.
Proof.
  intros [Hext Hno]. unfold syncOneMapping. rewrite bool_decide_eq_false_2 by done.
  destruct (l_user m) as [user|] eqn:Hu; [|by eauto].
  destruct Hno as [?|[[e ->]|(-> & e & ->)]]; [done|by eauto|].
  rewrite bool_decide_eq_true_2 by done. simpl.
  assert (runHook now p hook false user (a_hook a) db = (db, inl 0)) as -> by (by unfold runHook; destruct hook).
  by eauto.
Qed.

Context (answers : UserLink → Answers).
Abbreviation step := (syncRow now p horizonEnd minutesBefore maxRetriesCfg staleCancelStatuses hook answers).
Abbreviation sorted := (StronglySorted (λ x y, r_id x < r_id y)).

(** The paged sync is a fold over the active mappings. *)
Lemma sync_is_fold table db :
  sorted (filter (λ r, activeRow p r = true) table) → Forall (λ r, 0 < r_id r) table →
  syncUpcomingSessions now p horizonEnd minutesBefore maxRetriesCfg staleCancelStatuses hook answers table
    (length (filter (λ r, activeRow p r = true) table) / DEFAULT_PAGE_SIZE + 1) db
  = Some (foldl step (db, zeroCounters) (filter (λ r, activeRow p r = true) table)).
Proof.
  intros Hs Hpos. unfold syncUpcomingSessions.
  rewrite <- (Paging.iterate_fold r_id step (filter (λ r, activeRow p r = true) table) DEFAULT_PAGE_SIZE)
    by (done || unfold DEFAULT_PAGE_SIZE; lia).
  apply Paging.iterate_ext. intros [c|] n; [done|]. unfold findActiveMappingsPage. simpl.
  rewrite Paging.findPage_floor; [done|]. apply Forall_forall. intros r [_ Hr]%list_elem_of_filter.
  rewrite Forall_forall in Hpos. auto.
Qed.

Lemma syncRow_rows ext r st :
  (r_external r = ext → no_sessions (toLink r) (answers (toLink r))) →
  rowsOf p ext (step st r).1 = rowsOf p ext st.1.
Proof.
  intros Hr. unfold syncRow. destruct (decide (r_external r = ext)) as [Heq|Hne].
  - destruct (syncOne_closed (toLink r) (answers (toLink r)) st.1 (Hr Heq)) as [Hdb _].
    destruct (syncOneMapping _ _ _ _ _ _ _ _ _ _ _). simpl in *. congruence.
  - pose proof (syncOne_other ext (toLink r) (answers (toLink r)) st.1 Hne) as H.
    by destruct (syncOneMapping _ _ _ _ _ _ _ _ _ _ _).
Qed.

Lemma syncRow_counters r st :
  mappings (step st r).2 = mappings st.2 + 1
  ∧ (∀ f, f ∈ failures st.2 → f ∈ failures (step st r).2)
  ∧ (no_sessions (toLink r) (answers (toLink r)) → ∃ e, (r_external r, e) ∈ failures (step st r).2).
Proof.
  unfold syncRow. split_and!.
  - by destruct (syncOneMapping _ _ _ _ _ _ _ _ _ _ _).
  - intros f Hf. destruct (syncOneMapping _ _ _ _ _ _ _ _ _ _ _). simpl. apply elem_of_app. by left.
  - intros Hno. destruct (syncOne_closed (toLink r) (answers (toLink r)) st.1 Hno) as [_ [e He]].
    destruct (syncOneMapping _ _ _ _ _ _ _ _ _ _ _). simpl in *. exists e. rewrite He.
    apply elem_of_app. right. left.
Qed.

Lemma fold_closed ext rows st :
  (∀ r, r ∈ rows → r_external r = ext → no_sessions (toLink r) (answers (toLink r))) →
  let st' := foldl step st rows in
  rowsOf p ext st'.1 = rowsOf p ext st.1
  ∧ mappings st'.2 = mappings st.2 + Z.of_nat (length rows)
  ∧ (∀ f, f ∈ failures st.2 → f ∈ failures st'.2)
  ∧ (∀ r, r ∈ rows → r_external r = ext → ∃ e, (ext, e) ∈ failures st'.2).
Proof.
  revert st. induction rows as [|r rows IH]; intros st Hno; simpl.
  { split_and!; [done|lia|done|]. intros r Hr. by apply not_elem_of_nil in Hr. }
  destruct (syncRow_counters r st) as (Hm & Hf & Hfail).
  destruct (IH (step st r)) as (Hrows & Hms & Hfs & Hrep); [by intros; apply Hno; [right|]|].
  split_and!.
  - rewrite Hrows. apply syncRow_rows. intros. apply Hno; [left|done].
  - lia.
  - auto.
  - intros r' [->|Hr']%elem_of_cons Hext; [|by eauto].
    destruct Hfail as [e He]; [apply Hno; [left|done]|]. exists e. apply Hfs. by rewrite <- Hext.
Qed.

(** The sync fails closed.  Over any number of pages of mappings, a learner
    for whom no list of sessions was obtained (the canonical platform or the
    calendar could not be read, or the mapping names no user) keeps every reminder
    row unchanged, and is reported as a failure; the scan still reaches every
    active mapping. *)
Theorem sync_fails_closed table ext db :
  let active := filter (λ r, activeRow p r = true) table in
  sorted active → Forall (λ r, 0 < r_id r) table →
  (∀ r, r ∈ active → r_external r = ext → no_sessions (toLink r) (answers (toLink r))) →
  ∃ db' c,
    syncUpcomingSessions now p horizonEnd minutesBefore maxRetriesCfg staleCancelStatuses hook answers table
      (length active / DEFAULT_PAGE_SIZE + 1) db = Some (db', c)
    ∧ rowsOf p ext db' = rowsOf p ext db
    ∧ mappings c = Z.of_nat (length active)
    ∧ ∀ r, r ∈ active → r_external r = ext → ∃ e, (ext, e) ∈ failures c.
Proof.
  intros active Hs Hpos Hno. unfold active. rewrite sync_is_fold by done.
  destruct (fold_closed ext active (db, zeroCounters) Hno) as (Hr & Hm & _ & Hf).
  destruct (foldl step (db, zeroCounters) active) as [db' c] eqn:E. exists db', c.
  split; [exact (f_equal Some E)|done].
Qed.

(** *** What an answered sync establishes *)

Abbreviation input := (inputOf p minutesBefore maxRetriesCfg).

(** The row stands for session [s] on its present schedule. *)
Definition current (s : StudySession) (j : Job) : Prop :=
  scheduledAt j = s_scheduledAt s ∧ remindAt j = computeRemindAt minutesBefore (s_scheduledAt s)
  ∧ status j ≠ cancelled.

(** The sync leaves a row alone that a newer link owns, and one that a worker
    processes for another owner: another generation of the link or another learner. *)
Definition spared (m : UserLink) (s : StudySession) (j : Job) : Prop :=
  isOlderGeneration (mappingGeneration j) (l_generation m) = true
  ∨ status j = processing ∧ ownerChanged j (input m s) = true.

(** The row of the session is on its present schedule, or was spared as it is in [js]. *)
Definition covered (js : list Job) (m : UserLink) (s : StudySession) (j : Job) : Prop :=
  platform j = p ∧ externalUserId j = l_external m ∧ sessionKey j = s_key s
  ∧ (current s j ∨ j ∈ js ∧ spared m s j).

Lemma unchanged_schedule j i :
  hasScheduleChanged j i = false → scheduledAt j = u_scheduledAt i ∧ remindAt j = u_remindAt i.
Proof. unfold hasScheduleChanged. intros H. by bool_to_prop. Qed.

Lemma applyExisting_covered js m s j :
  j ∈ js → entityKey j = inputKey (input m s) → covered js m s (save now j (applyExisting true (input m s) j)).
Proof.
  intros Hin Hk. injection Hk as Hk1 Hk2 Hk3.
  assert (∀ j', platform j' = platform j → externalUserId j' = externalUserId j →
    sessionKey j' = sessionKey j →
    (current s j' ∨ j' = j ∧ spared m s j) → covered js m s (save now j j')) as Hsave.
  { intros j' ? ? ? Hj'. unfold save. case_bool_decide as E.
    - subst j'. split_and!; try congruence. destruct Hj' as [?|[_ ?]]; [by left|by right].
    - destruct Hj' as [?|[? _]]; [|done]. split_and!; simpl; try congruence. by left. }
  apply Hsave; unfold applyExisting.
  1-3: by repeat case_match.
  destruct (isOlderGeneration (mappingGeneration j) (u_mappingGeneration (input m s))) eqn:Ho; [by right; split; [|left]|].
  destruct (ownerChanged j (input m s)) eqn:Hown;
    (destruct (hasScheduleChanged j _) eqn:Hc; [|apply unchanged_schedule in Hc as [Hc1 Hc2]]); simpl in *;
    destruct (status j) eqn:Hst; rewrite ?andb_false_r, ?andb_true_r; repeat case_match;
    simpl; first [by right; split; [|right]|left; (split; [done|split; [done|]]); simpl; repeat case_match; congruence].
Qed.

(** [j] is the row an upsert of [i] leaves. *)
Definition upserted_row (js : list Job) (i : UpsertInput) (j' : Job) : Prop :=
  (∃ j, j ∈ js ∧ entityKey j = inputKey i ∧ j' = save now j (applyExisting true i j))
  ∨ ∃ n, j' = buildNewEntity n now i.

Lemma save_entityKey j i : entityKey (save now j (applyExisting true i j)) = entityKey j.
Proof. unfold save, applyExisting. by repeat case_match. Qed.

Lemma upserted_row_key js i j : upserted_row js i j → entityKey j = inputKey i.
Proof. intros [(j0 & _ & <- & ->)|[n ->]]; [apply save_entityKey|done]. Qed.

Lemma keyed_spec i j : keyed i j = true ↔ entityKey j = inputKey i.
Proof. apply bool_decide_eq_true. Qed.

Lemma upsertOne_spec existing i db :
  tbl_exists (keyed i) existing = tbl_exists (keyed i) (jobs db) →
  ∃ db', upsertOne now true existing i db = Some db'
    ∧ (∃ j', j' ∈ jobs db' ∧ upserted_row (jobs db) i j')
    ∧ (∀ j, j ∈ jobs db → entityKey j ≠ inputKey i → j ∈ jobs db')
    ∧ (∀ j', j' ∈ jobs db' → entityKey j' ≠ inputKey i → j' ∈ jobs db).
Proof.
  intros He. unfold upsertOne. rewrite He.
  destruct (tbl_exists_spec (keyed i) (jobs db)) as [(j0 & Hj0 & Hk0)|Hno]; eexists; (split; [done|]); simpl.
  - split_and!.
    + exists (save now j0 (applyExisting true i j0)). split.
      * apply elem_of_tbl_update. exists j0. by rewrite Hk0.
      * left. exists j0. by apply keyed_spec in Hk0.
    + intros j Hj Hne. apply elem_of_tbl_update. exists j. split; [done|].
      destruct (keyed i j) eqn:E; [by apply keyed_spec in E|done].
    + intros j' (j & Hj & ->)%elem_of_tbl_update Hne.
      destruct (keyed i j) eqn:E; [|done]. destruct Hne. rewrite save_entityKey. by apply keyed_spec.
  - split_and!.
    + exists (buildNewEntity (nextId db) now i). split; [apply elem_of_app; right; left|by right; exists (nextId db)].
    + intros j Hj _. apply elem_of_app. by left.
    + intros j' [Hj| ->%list_elem_of_singleton]%elem_of_app Hne; done.
Qed.

Lemma upsertAll_spec existing is_ db :
  NoDup (inputKey <$> is_) →
  (∀ i, i ∈ is_ → tbl_exists (keyed i) existing = tbl_exists (keyed i) (jobs db)) →
  ∃ db', upsertAll now true existing is_ db = Some db'
    ∧ (∀ i, i ∈ is_ → ∃ j, j ∈ jobs db' ∧ upserted_row (jobs db) i j)
    ∧ (∀ j, j ∈ jobs db → entityKey j ∉ (inputKey <$> is_) → j ∈ jobs db').
Proof.
  revert db. induction is_ as [|i is_ IH]; intros db Hnd He.
  { exists db. split_and!; [done|intros i Hi; by apply not_elem_of_nil in Hi|done]. }
  rewrite fmap_cons, NoDup_cons in Hnd. destruct Hnd as [Hni Hnd].
  destruct (upsertOne_spec existing i db (He i ltac:(left))) as (db1 & Hone & (j1 & Hj1 & Hup) & Hkeep & Hback).
  assert (∀ i', i' ∈ is_ → inputKey i' ≠ inputKey i) as Hother.
  { intros i' Hi' Heq. apply Hni. rewrite <- Heq. by apply list_elem_of_fmap_2. }
  destruct (IH db1 Hnd) as (db' & Hall & Hcov & Hfr).
  { intros i' Hi'. rewrite (He i') by (by right). specialize (Hother i' Hi').
    destruct (tbl_exists_spec (keyed i') (jobs db)) as [(j & Hj & Hk)|Hno],
      (tbl_exists_spec (keyed i') (jobs db1)) as [(j' & Hj' & Hk')|Hno']; try done.
    - destruct Hno'. exists j. split; [|done]. apply Hkeep; [done|]. apply keyed_spec in Hk. congruence.
    - destruct Hno. exists j'. split; [|done]. apply Hback; [done|]. apply keyed_spec in Hk'. congruence. }
  exists db'. simpl. rewrite Hone. split_and!; [done| |].
  - intros i' [->|Hi']%elem_of_cons.
    + exists j1. split; [|done]. apply Hfr; [done|]. by rewrite (upserted_row_key _ _ _ Hup).
    + destruct (Hcov i' Hi') as (j & Hj & [(j0 & Hj0 & Hk & ->)|Hnew]); (eexists; split; [exact Hj|]); [left|by right].
      exists j0. split_and!; [|done..]. apply Hback; [done|]. rewrite Hk. by apply Hother.
  - intros j Hj Hkj. apply Hfr; [apply Hkeep; [done|]|]; set_solver.
Qed.

Lemma upserted_row_covered js m s j : upserted_row js (input m s) j → covered js m s j.
Proof.
  intros [(j0 & Hj0 & Hk & ->)|[n ->]]; [by apply applyExisting_covered|].
  split_and!; try done. left. done.
Qed.

Lemma upsertBatch_covers m kept db :
  NoDup (s_key <$> kept) →
  ∃ db1, upsertBatch now (input m <$> kept) db_ok db = (db1, inl tt)
    ∧ ∀ s, s ∈ kept → ∃ j, j ∈ jobs db1 ∧ covered (jobs db) m s j.
Proof.
  intros Hnd. unfold upsertBatch. case_bool_decide as He.
  { exists db. split; [done|]. apply fmap_nil_inv in He as ->. intros s Hs. by apply not_elem_of_nil in Hs. }
  destruct (upsertAll_spec (jobs db) (input m <$> kept) db) as (db1 & Hall & Hcov & _); [|done|].
  { rewrite <- list_fmap_compose. apply (NoDup_fmap_1 (λ k : string * string * string, k.2)).
    rewrite <- list_fmap_compose. exact Hnd. }
  exists db1. unfold runStmt, upsertPendingJobs. rewrite Hall. split; [done|].
  intros s Hs. destruct (Hcov (input m s)) as (j & Hj & Hup); [by apply list_elem_of_fmap_2|].
  exists j. split; [done|by apply upserted_row_covered].
Qed.

Lemma cancelStale_keeps m keys statuses db j :
  j ∈ jobs db → sessionKey j ∈ keys → j ∈ jobs (cancelStale now p horizonEnd m keys statuses db).1.
Proof.
  intros Hj Hk. apply elem_of_tbl_update. exists j. split; [done|].
  rewrite (bool_decide_eq_false_2 (keys = [])) by (intros ->; by apply not_elem_of_nil in Hk).
  rewrite (bool_decide_eq_false_2 (sessionKey j ∉ keys)) by (intros H; by apply H).
  by rewrite andb_false_r.
Qed.

Lemma cancelStale_clears m keys statuses db j :
  cancelled ∉ statuses → j ∈ jobs (cancelStale now p horizonEnd m keys statuses db).1 →
  belongs p (l_external m) j = true → status j ∈ statuses → scheduledAt j <= horizonEnd → sessionKey j ∈ keys.
Proof.
  intros Hst (j0 & Hj & ->)%elem_of_tbl_update. case_match eqn:E; [done|].
  intros [Hp He]%belongs_spec Hs Hsch.
  rewrite (bool_decide_eq_true_2 (platform j0 = p)), (bool_decide_eq_true_2 (externalUserId j0 = l_external m)),
    (bool_decide_eq_true_2 (status j0 ∈ statuses)), (proj2 (Z.leb_le _ _) Hsch) in E by done. simpl in E.
  rewrite andb_true_r, orb_false_iff, !bool_decide_eq_false in E. destruct E as [_ E]. by apply dec_stable in E.
Qed.


End Isolation.

(** The dispatch timer stays within its bounds and, for a due time within reach,
    fires [pollLead] before it. *)
Lemma nextDispatchDelay_bounds pollMin pollMax pollLead now nextDue :
  pollMin <= pollMax →
  let d := nextDispatchDelay pollMin pollMax pollLead now nextDue in
  pollMin <= d <= pollMax
  ∧ ∀ due, nextDue = Some (Some due) → pollMin <= due - now - pollLead → 0 <= pollLead → now + d <= due.
Proof.
  intros Hle. unfold nextDispatchDelay. destruct nextDue as [[due|]|]; simpl; try (split; [lia|done]).
  destruct (Z.ltb_spec now due); (split; [lia|]); intros due' [= <-]; lia.
Qed.

(** ** Runs *)

Definition ex_link1 : UserLink := mkLink "u1" (Some 7) (Some 1).
Definition ex_sessions : list StudySession :=
  [mkSession "s1" 2000000 (Some "IELTS"); mkSession "s2" 9000000 None].
Definition ex_ok (sessions : list StudySession + string) : Answers :=
  mkAnswers (inl (Some "zalo")) sessions db_ok db_ok db_ok.

(** The table after a first sync, and a stale row of a session that is gone. *)
Definition ex_db : Db :=
  (syncOneMapping 1000 "zalo" 3000000 30 3 None None false ex_link1
     (ex_ok (inl [mkSession "s0" 1000000 None])) (mkDb [] 1)).1.


Definition ex_table : list LinkRow :=
  [mkLinkRow 1 "zalo" "u1" (Some 7) (Some 1) None None; mkLinkRow 2 "zalo" "u2" (Some 8) (Some 1) None None].

Definition ex_answers (m : UserLink) : Answers :=
  if bool_decide (l_external m = "u1") then ex_ok (inr "calendar unavailable") else ex_ok (inl ex_sessions).

Lemma sync_fails_closed_witness :
  ∃ db' c, syncUpcomingSessions 2000 "zalo" 3000000 30 3 None None ex_answers ex_table 1 ex_db = Some (db', c)
    ∧ rowsOf "zalo" "u1" db' = rowsOf "zalo" "u1" ex_db
    ∧ length (jobs db') = 2%nat ∧ failures c = [("u1", "calendar unavailable")].
Proof.
  destruct (sync_fails_closed 2000 "zalo" 3000000 30 3 None None ex_answers ex_table "u1" ex_db)
    as (db' & c & Hrun & Hrows & _).
  - repeat constructor.
  - repeat constructor.
  - intros r Hr Hext. assert (toLink r = ex_link1) as ->.
    { apply list_elem_of_filter in Hr as [_ Hr].
      repeat (apply elem_of_cons in Hr as [->|Hr]; [done|]). by apply not_elem_of_nil in Hr. }
    split; [done|]. right. right. split; [done|]. by exists "calendar unavailable".
  - exists db', c. split; [exact Hrun|]. split; [exact Hrows|].
    vm_compute in Hrun. by injection Hrun as <- <-.
Defined.

(** The evening rollover sends a reminder again when its session has not begun:
    the purge takes the sent row, the sync that follows inserts a fresh one that
    is due at once. *)
Lemma rollover_resends :
  let es := [ex_link; ex_sync None] ++ ex_attempt 0 "t0" (inl o_sent) ++ [ex_settle 0] in
  let w := run es init in
  let rolled := runEveningRollover "zalo"
    (syncUpcomingSessions 400000 "zalo" 3000000 30 3 None None
       (λ _, ex_ok (inl [mkSession "s1" 2000000 None])) [mkLinkRow 1 "zalo" "u1" (Some 7) (Some 1) None None] 1)
    (w_db w) in
  status <$> jobs (w_db w) = [sent]
  ∧ (λ r, (λ j, (sessionKey j, scheduledAt j)) <$> findDueJobs "zalo" 400000 300000 r.1) <$> rolled
    = Some [("s1", 2000000)].
Proof. split; vm_compute; reflexivity. Qed.

End RSync.
