(* ===== verification/ReportClaims.v ===== *)
(** * Report claims and send jobs (packages/scheduler-core/src/adapters)

    platform-report-claim.repository.ts on the tables scheduled_report_claims (one
    row per platform account and date) and learner_scheduled_report_claims (one row
    per learner and date; report_type is always 'scheduled'), and
    platform-report-send-job.repository.ts on report_send_jobs.  Each definition is
    one statement, except [markScheduledReportClaimSent] and
    [releaseScheduledReportClaim], which run the second statement only when the
    first changed nothing. *)

From S2P Require Import Prelude Table.

Module Claims.

Inductive ClaimStatus := claimed | sent | released | cancelled.
Inductive Outcome := o_sent | o_ambiguous | o_not_sent | o_rate_limited.

#[global] Instance ClaimStatus_eq_dec : EqDecision ClaimStatus.
Proof. solve_decision. Defined.
#[global] Instance Outcome_eq_dec : EqDecision Outcome.
Proof. solve_decision. Defined.

Record Claim := mkClaim {
  platform : string;
  externalUserId : string;
  reportDate : string;
  userId : option Z;
  status : ClaimStatus;
  leaseToken : option string;
  leaseExpiresAt : option Z;
  deliveryRecord : option string;
  deliveryKey : option string;
  deliveryStatus : option Outcome;
  updatedAt : Z
}.

Record Tables := mkTables { legacy : list Claim; learner : list Claim }.

Record ClaimParams := mkParams { p_external : string; p_user : option Z; p_date : string }.

Definition has_status (s : ClaimStatus) (c : Claim) : bool := bool_decide (status c = s).

Definition for_user (u : Z) (date : string) (c : Claim) : bool :=
  bool_decide (userId c = Some u) && bool_decide (reportDate c = date).

Definition for_account (p ext date : string) (c : Claim) : bool :=
  bool_decide (platform c = p) && bool_decide (externalUserId c = ext) && bool_decide (reportDate c = date).

Section Repository.
Context (thePlatform : string) (hasLearner : bool).

(** ** Reads *)

Definition hasSentScheduledReportOn (ps : ClaimParams) (t : Tables) : bool :=
  let learnerSent :=
    hasLearner && tbl_exists (λ c, match p_user ps with
                                   | Some u => for_user u (p_date ps) c
                                   | None => for_account thePlatform (p_external ps) (p_date ps) c
                                   end && has_status sent c) (learner t) in
  learnerSent
  || tbl_exists (λ c, for_account thePlatform (p_external ps) (p_date ps) c && has_status sent c
                      && match p_user ps with
                         | None => true
                         | Some u => bool_decide (userId c = Some u) || bool_decide (userId c = None)
                         end) (legacy t).

Definition hasAnyPlatformSentReportOn (u : Z) (date : string) (t : Tables) : bool :=
  tbl_exists (λ c, for_user u date c && has_status sent c) (legacy t)
  || hasLearner && tbl_exists (λ c, for_user u date c && has_status sent c) (learner t).

(** ** Claiming *)

Definition freshClaim (ps : ClaimParams) (leaseMs now : Z) (token : string) : Claim := {|
  platform := thePlatform; externalUserId := p_external ps; reportDate := p_date ps;
  userId := p_user ps; status := claimed; leaseToken := Some token;
  leaseExpiresAt := Some (now + leaseMs); deliveryRecord := None; deliveryKey := None;
  deliveryStatus := None; updatedAt := now |}.

(** [DO UPDATE SET] of both statements: the excluded row's owner and lease, the
    delivery columns of the existing row. *)
Definition reclaim (ps : ClaimParams) (leaseMs now : Z) (token : string) (learnerRow : bool) (c : Claim) : Claim := {|
  platform := if learnerRow then thePlatform else platform c;
  externalUserId := if learnerRow then p_external ps else externalUserId c;
  reportDate := reportDate c;
  userId := if learnerRow then userId c else p_user ps;
  status := claimed; leaseToken := Some token; leaseExpiresAt := Some (now + leaseMs);
  deliveryRecord := deliveryRecord c; deliveryKey := deliveryKey c;
  deliveryStatus := deliveryStatus c; updatedAt := now |}.

(** The legacy rows that keep a learner claim from being inserted. *)
Definition legacyBlocks (ps : ClaimParams) (u : Z) (c : Claim) : bool :=
  for_account thePlatform (p_external ps) (p_date ps) c
  && (bool_decide (userId c = Some u) || bool_decide (userId c = None))
  && (has_status claimed c || has_status sent c).

Definition activeOther (u : Z) (date : string) (now : Z) (c : Claim) : bool :=
  for_user u date c && negb (bool_decide (platform c = thePlatform))
  && (has_status sent c
      || has_status claimed c && match leaseExpiresAt c with Some t => now <? t | None => true end).

Definition claimLearner (ps : ClaimParams) (u leaseMs now : Z) (token : string) (t : Tables)
  : Tables * option Claim :=
  if tbl_exists (legacyBlocks ps u) (legacy t) then (t, None)
  else
    let '(l, r) := tbl_upsert (for_user u (p_date ps)) (has_status released)
                     (reclaim ps leaseMs now token true) (freshClaim ps leaseMs now token) (learner t) in
    (mkTables (legacy t) l, r).

Definition claimLegacy (ps : ClaimParams) (leaseMs now : Z) (token : string) (t : Tables)
  : Tables * option Claim :=
  let blocked := match p_user ps with
                 | Some u => negb (u =? 0) && tbl_exists (activeOther u (p_date ps) now) (legacy t)
                 | None => false
                 end in
  if blocked then (t, None)
  else
    let '(l, r) := tbl_upsert (for_account thePlatform (p_external ps) (p_date ps)) (has_status released)
                     (reclaim ps leaseMs now token false) (freshClaim ps leaseMs now token) (legacy t) in
    (mkTables l (learner t), r).

Definition tryClaimScheduledReport (ps : ClaimParams) (leaseMs now : Z) (token : string) (t : Tables)
  : Tables * option Claim :=
  match p_user ps with
  | Some u => if hasLearner then claimLearner ps u leaseMs now token t else claimLegacy ps leaseMs now token t
  | None => claimLegacy ps leaseMs now token t
  end.

(** ** Settling *)

Definition heldBy (token : string) (c : Claim) : bool :=
  has_status claimed c && bool_decide (leaseToken c = Some token).

Definition heldLearner (u : Z) (ps : ClaimParams) (token : string) (c : Claim) : bool :=
  for_user u (p_date ps) c && heldBy token c.

Definition heldLegacy (ps : ClaimParams) (token : string) (c : Claim) : bool :=
  for_account thePlatform (p_external ps) (p_date ps) c
  && match p_user ps with Some u => bool_decide (userId c = Some u) | None => true end
  && heldBy token c.

(** The learner row if it is held, the legacy row otherwise. *)
Definition settleClaim (ps : ClaimParams) (token : string) (f : Claim → Claim) (t : Tables) : Tables * bool :=
  match p_user ps with
  | Some u =>
      if hasLearner && tbl_exists (heldLearner u ps token) (learner t)
      then (mkTables (legacy t) (tbl_update (heldLearner u ps token) f (learner t)), true)
      else (mkTables (tbl_update (heldLegacy ps token) f (legacy t)) (learner t),
            tbl_exists (heldLegacy ps token) (legacy t))
  | None => (mkTables (tbl_update (heldLegacy ps token) f (legacy t)) (learner t),
             tbl_exists (heldLegacy ps token) (legacy t))
  end.

Definition orOld {A} (a b : option A) : option A := match a with Some _ => a | None => b end.

Definition sentClaim (now : Z) (record key : option string) (o : option Outcome) (c : Claim) : Claim := {|
  platform := platform c; externalUserId := externalUserId c; reportDate := reportDate c;
  userId := userId c; status := sent; leaseToken := leaseToken c; leaseExpiresAt := leaseExpiresAt c;
  deliveryRecord := orOld record (deliveryRecord c); deliveryKey := orOld key (deliveryKey c);
  deliveryStatus := orOld o (deliveryStatus c); updatedAt := now |}.

Definition releasedClaim (now : Z) (c : Claim) : Claim := {|
  platform := platform c; externalUserId := externalUserId c; reportDate := reportDate c;
  userId := userId c; status := released; leaseToken := leaseToken c; leaseExpiresAt := leaseExpiresAt c;
  deliveryRecord := deliveryRecord c; deliveryKey := deliveryKey c;
  deliveryStatus := deliveryStatus c; updatedAt := now |}.

Definition markScheduledReportClaimSent (now : Z) (ps : ClaimParams) (token : string)
    (record key : option string) (o : option Outcome) : Tables → Tables * bool :=
  settleClaim ps token (sentClaim now record key o).

Definition releaseScheduledReportClaim (now : Z) (ps : ClaimParams) (token : string) : Tables → Tables * bool :=
  settleClaim ps token (releasedClaim now).

Definition expired (now olderThan : Z) (c : Claim) : bool :=
  has_status claimed c
  && match leaseExpiresAt c with Some t => t <? now | None => updatedAt c <? olderThan end.

(** The learner table is released whatever the platform. *)
Definition releaseExpiredScheduledReportClaims (now olderThan : Z) (t : Tables) : Tables * Z :=
  let p c := bool_decide (platform c = thePlatform) && expired now olderThan c in
  let n1 := length (tbl_select p (legacy t)) in
  if hasLearner then
    (mkTables (tbl_update p (releasedClaim now) (legacy t))
       (tbl_update (expired now olderThan) (releasedClaim now) (learner t)),
     Z.of_nat (n1 + length (tbl_select (expired now olderThan) (learner t))))
  else (mkTables (tbl_update p (releasedClaim now) (legacy t)) (learner t), Z.of_nat n1).

End Repository.

(** [listUserIdsWithSentReportOn]. *)
Definition listUserIdsWithSentReport (date : string) (cs : list Claim) : list Z :=
  omap userId (tbl_select (λ c, bool_decide (reportDate c = date) && has_status sent c) cs).

Definition listUserIdsWithSentReportOn (hasLearner : bool) (date : string) (t : Tables) : list Z :=
  let ids := listUserIdsWithSentReport date (legacy t) in
  if hasLearner then remove_dups (ids ++ listUserIdsWithSentReport date (learner t)) else ids.

End Claims.

(** ** The outbox of report sends *)

Module SendJobs.

Inductive JobStatus := pending | processing | sent | failed | cancelled.
#[global] Instance JobStatus_eq_dec : EqDecision JobStatus.
Proof. solve_decision. Defined.

Inductive RetryCause := capacity_overload.

Record Job := mkJob {
  id : Z; platform : string; externalUserId : string; userId : option Z; examDate : string;
  firstAttemptDate : string; status : JobStatus; retryCount : Z; maxRetries : Z;
  nextRetryAt : option Z; lastError : option string; retryCause : option RetryCause;
  sentAt : option Z; leaseToken : option string; leaseExpiresAt : option Z; updatedAt : Z
}.

Record Db := mkDb { jobs : list Job; nextId : Z }.

Definition has_status (s : JobStatus) (j : Job) : bool := bool_decide (status j = s).

Record CreateParams := mkCreate {
  c_external : string; c_user : option Z; c_examDate : string; c_firstAttemptDate : string;
  c_maxRetries : Z; c_nextRetryAt : Z; c_error : string; c_cause : option RetryCause
}.

Section Repository.
Context (thePlatform : string).

Definition keyOf (ext exam : string) (j : Job) : bool :=
  bool_decide (platform j = thePlatform) && bool_decide (externalUserId j = ext)
  && bool_decide (examDate j = exam).

(** The two halves of [recordRetryableFailure]: the row it reads, and the row it
    saves after reading [existing]; [None] when nothing is written. *)
Definition findExisting (ps : CreateParams) (db : Db) : option Job :=
  head (tbl_select (keyOf (c_external ps) (c_examDate ps)) (jobs db)).

Definition failureRow (ps : CreateParams) (existing : option Job) (newId now : Z) : option Job :=
  let count := match existing with Some j => retryCount j | None => 0 end + 1 in
  let terminal := c_maxRetries ps <=? count in
  match existing with
  | Some j =>
      if has_status sent j then None
      else Some {| id := id j; platform := platform j; externalUserId := externalUserId j;
                   userId := match c_user ps with Some u => Some u | None => userId j end;
                   examDate := examDate j; firstAttemptDate := firstAttemptDate j; status := failed;
                   retryCount := count; maxRetries := c_maxRetries ps;
                   nextRetryAt := if terminal then None else Some (c_nextRetryAt ps);
                   lastError := Some (c_error ps); retryCause := c_cause ps; sentAt := sentAt j;
                   leaseToken := leaseToken j; leaseExpiresAt := leaseExpiresAt j; updatedAt := now |}
  | None =>
      Some {| id := newId; platform := thePlatform; externalUserId := c_external ps;
              userId := c_user ps; examDate := c_examDate ps; firstAttemptDate := c_firstAttemptDate ps;
              status := failed; retryCount := count; maxRetries := c_maxRetries ps;
              nextRetryAt := if terminal then None else Some (c_nextRetryAt ps);
              lastError := Some (c_error ps); retryCause := c_cause ps; sentAt := None;
              leaseToken := None; leaseExpiresAt := None; updatedAt := now |}
  end.

(** [save]: an existing entity overwrites its row, a new one is inserted unless it
    meets the unique index. *)
Definition saveFailure (ps : CreateParams) (existing : option Job) (now : Z) (db : Db) : Db * bool :=
  match failureRow ps existing (nextId db) now with
  | None => (db, true)
  | Some row =>
      match existing with
      | Some j => (mkDb (tbl_update (λ r, id r =? id j) (λ _, row) (jobs db)) (nextId db), true)
      | None =>
          if tbl_exists (keyOf (c_external ps) (c_examDate ps)) (jobs db) then (db, false)
          else (mkDb (jobs db ++ [row]) (nextId db + 1), true)
      end
  end.

Definition isDue (now : Z) (j : Job) : bool :=
  bool_decide (platform j = thePlatform) && has_status failed j && (retryCount j <? maxRetries j)
  && match nextRetryAt j with Some t => t <=? now | None => false end.

Definition findDueJobs (now : Z) (limit : nat) (db : Db) : list Job :=
  take limit (sortBy (λ j k, default 0 (nextRetryAt j) <=? default 0 (nextRetryAt k))
    (tbl_select (isDue now) (jobs db))).

Definition leased (now leaseMs : Z) (token : string) (j : Job) : Job := {|
  id := id j; platform := platform j; externalUserId := externalUserId j; userId := userId j;
  examDate := examDate j; firstAttemptDate := firstAttemptDate j; status := processing;
  retryCount := retryCount j; maxRetries := maxRetries j; nextRetryAt := nextRetryAt j;
  lastError := lastError j; retryCause := retryCause j; sentAt := sentAt j;
  leaseToken := Some token; leaseExpiresAt := Some (now + leaseMs); updatedAt := updatedAt j |}.

Definition claimable (jobId : Z) (j : Job) : bool :=
  (id j =? jobId) && bool_decide (platform j = thePlatform) && has_status failed j.

Definition claimJob (jobId leaseMs now : Z) (token : string) (db : Db) : Db * option Job :=
  (mkDb (tbl_update (claimable jobId) (leased now leaseMs token) (jobs db)) (nextId db),
   leased now leaseMs token <$> head (tbl_select (claimable jobId) (jobs db))).

Definition sentJob (now : Z) (j : Job) : Job := {|
  id := id j; platform := platform j; externalUserId := externalUserId j; userId := userId j;
  examDate := examDate j; firstAttemptDate := firstAttemptDate j; status := sent;
  retryCount := retryCount j; maxRetries := maxRetries j; nextRetryAt := None; lastError := None;
  retryCause := None; sentAt := Some now; leaseToken := leaseToken j;
  leaseExpiresAt := leaseExpiresAt j; updatedAt := now |}.

(** [id], platform and lease token; the status is not compared. *)
Definition tokenOwned (jobId : Z) (token : string) (j : Job) : bool :=
  (id j =? jobId) && bool_decide (platform j = thePlatform) && bool_decide (leaseToken j = Some token).

Definition markSent (now jobId : Z) (token : string) (db : Db) : Db * bool :=
  (mkDb (tbl_update (tokenOwned jobId token) (sentJob now) (jobs db)) (nextId db),
   tbl_exists (tokenOwned jobId token) (jobs db)).

Record UpdateParams := mkUpdate {
  u_jobId : Z; u_token : option string; u_error : string; u_retryCount : Z;
  u_nextRetryAt : option Z; u_terminal : bool; u_cause : option RetryCause
}.

Definition failedJob (now : Z) (u : UpdateParams) (j : Job) : Job := {|
  id := id j; platform := platform j; externalUserId := externalUserId j; userId := userId j;
  examDate := examDate j; firstAttemptDate := firstAttemptDate j; status := failed;
  retryCount := u_retryCount u; maxRetries := maxRetries j;
  nextRetryAt := if u_terminal u then None else u_nextRetryAt u; lastError := Some (u_error u);
  retryCause := u_cause u; sentAt := sentAt j; leaseToken := leaseToken j;
  leaseExpiresAt := leaseExpiresAt j; updatedAt := now |}.

Definition failTarget (u : UpdateParams) (j : Job) : bool :=
  (id j =? u_jobId u) && bool_decide (platform j = thePlatform)
  && match u_token u with
     | Some t => bool_decide (t = "") || bool_decide (leaseToken j = Some t)
     | None => true
     end.

Definition markFailed (now : Z) (u : UpdateParams) (db : Db) : Db * bool :=
  (mkDb (tbl_update (failTarget u) (failedJob now u) (jobs db)) (nextId db),
   tbl_exists (failTarget u) (jobs db)).

Definition markSentByExternalUserExamDate (now : Z) (ext exam : string) (db : Db) : Db :=
  mkDb (tbl_update (λ j, keyOf ext exam j && bool_decide (status j ∈ [failed; processing; pending]))
          (sentJob now) (jobs db)) (nextId db).

Definition stuck (now olderThan : Z) (j : Job) : bool :=
  bool_decide (platform j = thePlatform) && has_status processing j
  && match leaseExpiresAt j with Some t => t <? now | None => updatedAt j <? olderThan end.

Definition reset (now : Z) (j : Job) : Job := {|
  id := id j; platform := platform j; externalUserId := externalUserId j; userId := userId j;
  examDate := examDate j; firstAttemptDate := firstAttemptDate j; status := failed;
  retryCount := retryCount j; maxRetries := maxRetries j; nextRetryAt := nextRetryAt j;
  lastError := lastError j; retryCause := retryCause j; sentAt := sentAt j;
  leaseToken := leaseToken j; leaseExpiresAt := leaseExpiresAt j; updatedAt := now |}.

Definition resetStuckProcessingJobs (now olderThan : Z) (db : Db) : Db * Z :=
  (mkDb (tbl_update (stuck now olderThan) (reset now) (jobs db)) (nextId db),
   Z.of_nat (length (tbl_select (stuck now olderThan) (jobs db)))).

Definition countTerminalFailedSince (since : Z) (db : Db) : Z :=
  Z.of_nat (length (tbl_select (λ j, bool_decide (platform j = thePlatform) && has_status failed j
    && (maxRetries j <=? retryCount j) && (since <=? updatedAt j)) (jobs db))).

End Repository.
End SendJobs.
