(* ===== verification/ReportSend.v ===== *)
(** * Sending scheduled reports

    [claimAndSend] of packages/scheduler-core, report-orchestration.service.ts, in
    continuation-passing style over the awaited calls, and the retry dispatcher of
    apps/discord-bot, discord-report-retry-dispatch.service.ts, which runs it for
    the jobs of the outbox.  Every call may throw; a statement may throw before or
    after it took effect.  Workers of any platform interleave with the cron that
    releases expired claims, and may crash anywhere. *)

From S2P Require Import Prelude Table ReportClaims.

Module Reports.
Import Claims.
Abbreviation Job := SendJobs.Job.
Abbreviation Jobs := SendJobs.Db.

(** ** Results *)

Inductive Reason := WINDOW_CLOSED | DELIVERY_FAILED | RETRYABLE | NOT_LINKED | RATE_LIMITED.

Inductive DeliveryResult :=
| delivered (outcome : option Outcome)
| undelivered (reason : option Reason).

Inductive ErrorKind := k_retryable | k_window_closed | k_skipped | k_failure.

Record ClassifiedError := mkClassified {
  ce_kind : ErrorKind; ce_message : string; ce_cause : option SendJobs.RetryCause
}.

Record Result := mkResult {
  sentCount : Z; skippedCount : Z; deferred : Z; windowClosed : Z; claimSkipped : Z;
  retryQueued : Z; resultCause : option SendJobs.RetryCause; failures : list (string * string)
}.

Definition ZERO : Result := mkResult 0 0 0 0 0 0 None [].
Definition aSent : Result := mkResult 1 0 0 0 0 0 None [].
Definition aSkip : Result := mkResult 0 1 0 0 0 0 None [].
Definition aWindowClosed : Result := mkResult 0 0 0 1 0 0 None [].
Definition aClaimSkip : Result := mkResult 0 0 0 0 1 0 None [].
Definition aDeferred (c : option SendJobs.RetryCause) : Result := mkResult 0 0 1 0 0 1 c [].
Definition aFailure (ext e : string) : Result := mkResult 0 0 0 0 0 0 None [(ext, e)].

Definition reasonText (r : Reason) : string :=
  match r with
  | WINDOW_CLOSED => "WINDOW_CLOSED" | DELIVERY_FAILED => "DELIVERY_FAILED"
  | RETRYABLE => "RETRYABLE" | NOT_LINKED => "NOT_LINKED" | RATE_LIMITED => "RATE_LIMITED"
  end.

(** ** Programs *)

Record LinkState := mkLinkState { ls_user : option Z; ls_state : option string }.

(** [MarkClaim] and [Release] carry the lease token; [Send] whether a claim is
    held, under which token. *)
Inductive Prog :=
| HasSent (ps : ClaimParams) (k : bool + string → Prog)
| HasAny (user : Z) (date : string) (k : bool + string → Prog)
| TryClaim (ps : ClaimParams) (leaseMs : Z) (k : option Claim + string → Prog)
| MarkClaim (ps : ClaimParams) (token : string) (record key : option string) (o : option Outcome)
    (k : bool + string → Prog)
| Release (ps : ClaimParams) (token : string) (k : bool + string → Prog)
| Generate (k : string + string → Prog)
| Send (ps : ClaimParams) (token : option string) (key text : string) (k : DeliveryResult + string → Prog)
| JobSentByExam (ext exam : string) (k : unit + string → Prog)
| FindFailure (cp : SendJobs.CreateParams) (k : option Job + string → Prog)
| SaveFailure (cp : SendJobs.CreateParams) (existing : option Job) (k : unit + string → Prog)
| ClaimJob (jobId leaseMs : Z) (k : option Job + string → Prog)
| FindLink (ext : string) (k : option LinkState + string → Prog)
| JobSent (jobId : Z) (token : string) (k : unit + string → Prog)
| JobFailed (u : SendJobs.UpdateParams) (k : unit + string → Prog)
| Done.

Record Settings := mkSettings { maxRetries : Z; retryBackoffMinutes : Z; claimLeaseMs : Z }.

Record Mapping := mkMapping { m_platform : string; m_external : string; m_user : option Z }.

Record Options := mkOptions {
  o_reportDate : string;
  o_skipAlreadySentToday : bool;
  o_reportText : string;
  o_examDateForOutbox : option string;
  o_generates : bool;
  o_classifies : bool;
  o_allowUserIdLess : bool
}.

Section ClaimAndSend.
Context (s : Settings) (now : Z) (hasJobs : bool) (classify : string → ClassifiedError)
  (m : Mapping) (o : Options) (k : Result + string → Prog).

Definition deliveryKeyOf : string :=
  m_platform m +:+ "-report:" +:+ m_external m +:+ ":" +:+ o_reportDate o.

Definition claimParams : ClaimParams := mkParams (m_external m) (m_user m) (o_reportDate o).

Definition finish (r : Result) : Prog := k (inl r).
Definition throw (e : string) : Prog := k (inr e).

(** [recordRetryableFailure], then [next]; throws go to [handler]. *)
Definition recordRetry (message : string) (cause : option SendJobs.RetryCause) (next : Prog)
    (handler : string → Prog) : Prog :=
  let cp := {| SendJobs.c_external := m_external m; SendJobs.c_user := m_user m;
               SendJobs.c_examDate := default "" (o_examDateForOutbox o);
               SendJobs.c_firstAttemptDate := o_reportDate o; SendJobs.c_maxRetries := maxRetries s;
               SendJobs.c_nextRetryAt := now + retryBackoffMinutes s * 60 * 1000;
               SendJobs.c_error := message; SendJobs.c_cause := cause |} in
  FindFailure cp (λ r,
    match r with
    | inr e => handler e
    | inl existing => SaveFailure cp existing (λ r, match r with inl _ => next | inr e => handler e end)
    end).

(** [claimedForSend] with its token is [held]. *)
Definition releaseIf (held : option string) (next : Prog) (handler : string → Prog) : Prog :=
  match held with
  | None => next
  | Some token => Release claimParams token (λ r, match r with inl _ => next | inr e => handler e end)
  end.

Definition markIf (held : option string) (record key : option string) (outcome : option Outcome)
    (next : Prog) (handler : string → Prog) : Prog :=
  match held with
  | None => next
  | Some token =>
      MarkClaim claimParams token record key outcome
        (λ r, match r with inl _ => next | inr e => handler e end)
  end.

Definition finishKind (c : ClassifiedError) : Prog :=
  match ce_kind c with
  | k_window_closed => finish aWindowClosed
  | k_skipped => finish aSkip
  | _ => finish (aFailure (m_external m) (ce_message c))
  end.

(** Step 7, the [catch] around the delivery. *)
Definition caught (held : option string) (e : string) : Prog :=
  releaseIf held
    (let c := classify e in
     match ce_kind c with
     | k_retryable =>
         if hasJobs then recordRetry (ce_message c) (ce_cause c) (finish (aDeferred (ce_cause c))) throw
         else finishKind c
     | _ => finishKind c
     end) throw.

(** Step 6. *)
Definition notDelivered (held : option string) (reason : option Reason) : Prog :=
  releaseIf held
    (match reason with
     | Some RETRYABLE =>
         if hasJobs then recordRetry "Delivery failed: RETRYABLE" None (finish (aDeferred None)) (caught held)
         else finish (aFailure (m_external m) "RETRYABLE")
     | Some WINDOW_CLOSED => finish aWindowClosed
     | Some NOT_LINKED => finish aSkip
     | r => finish (aFailure (m_external m) (match r with Some r => reasonText r | None => "DELIVERY_FAILED" end))
     end) (caught held).

Definition jobSentIf (next : Prog) (handler : string → Prog) : Prog :=
  match o_examDateForOutbox o with
  | Some exam =>
      if hasJobs && negb (bool_decide (exam = ""))
      then JobSentByExam (m_external m) exam (λ r, match r with inl _ => next | inr e => handler e end)
      else next
  | None => next
  end.

(** Step 5. *)
Definition sendReport (held : option string) (text : string) : Prog :=
  Send claimParams held deliveryKeyOf text (λ r,
    match r with
    | inr e => caught held e
    | inl (delivered outcome) =>
        markIf held (Some "sent") (Some deliveryKeyOf) (Some (default o_sent outcome))
          (jobSentIf (finish aSent) (caught held)) (caught held)
    | inl (undelivered (Some RATE_LIMITED)) =>
        markIf held None (Some deliveryKeyOf) (Some o_rate_limited)
          (finish (aFailure (m_external m) "outbound_rate_limited")) (caught held)
    | inl (undelivered reason) => notDelivered held reason
    end).

(** Step 4's failure. *)
Definition generationFailed (held : option string) (e : string) : Prog :=
  releaseIf held
    (let c := classify e in
     let queue := match ce_kind c with
                  | k_retryable => true
                  | k_failure => negb (o_classifies o)
                  | _ => false
                  end in
     if queue && hasJobs
     then recordRetry ("Generation failed: " +:+ ce_message c) (ce_cause c)
            (finish (aDeferred (ce_cause c))) throw
     else finishKind c) throw.

Definition generateAndSend (held : option string) : Prog :=
  if o_generates o
  then Generate (λ r, match r with inl text => sendReport held text | inr e => generationFailed held e end)
  else sendReport held (o_reportText o).

(** Steps 2 and 3. *)
Definition tryClaim : Prog :=
  TryClaim claimParams (claimLeaseMs s) (λ r,
    match r with
    | inr e => throw e
    | inl None => finish aClaimSkip
    | inl (Some c) =>
        match leaseToken c with
        | None => finish aClaimSkip
        | Some token =>
            if bool_decide (token = "") then finish aClaimSkip
            else match deliveryRecord c with
                 | Some rec =>
                     if bool_decide (rec = "") then generateAndSend (Some token)
                     else MarkClaim claimParams token None None None
                            (λ r, match r with inl _ => finish aSent | inr e => throw e end)
                 | None => generateAndSend (Some token)
                 end
        end
    end).

Definition truthy (u : option Z) : option Z :=
  match u with Some u => if u =? 0 then None else Some u | None => None end.

Definition claimAndSend : Prog :=
  if o_skipAlreadySentToday o && bool_decide (m_user m = None) && negb (o_allowUserIdLess o)
  then finish aSkip
  else if negb (o_skipAlreadySentToday o) then generateAndSend None
  else
    HasSent claimParams (λ r,
      match r with
      | inr e => throw e
      | inl true => jobSentIf (finish aSkip) throw
      | inl false =>
          match truthy (m_user m) with
          | None => tryClaim
          | Some u => HasAny u (o_reportDate o) (λ r,
              match r with
              | inr e => throw e
              | inl true => finish aSkip
              | inl false => tryClaim
              end)
          end
      end).
End ClaimAndSend.

(** ** The retry dispatcher *)

Definition DEFERRED_ERROR : string := "Report generation deferred (upstream retryable)".

Section Dispatch.
Context (s : Settings) (now retryAt leaseMs : Z) (classify : string → ClassifiedError)
  (p : string) (job : Job).

Definition update (token error : string) (count : Z) (next : option Z) (terminal : bool)
    (cause : option SendJobs.RetryCause) : SendJobs.UpdateParams :=
  SendJobs.mkUpdate (SendJobs.id job) (Some token) error count next terminal cause.

(** The [catch]: the counts are those of the claimed row. *)
Definition dispatchCaught (claimedJob : option Job) (e : string) : Prog :=
  match claimedJob with
  | Some c =>
      let token := default "" (SendJobs.leaseToken c) in
      if bool_decide (token = "") then Done
      else
        let next := SendJobs.retryCount c + 1 in
        let terminal := SendJobs.maxRetries c <=? next in
        JobFailed (SendJobs.mkUpdate (SendJobs.id c) (Some token) e next
                     (if terminal then None else Some retryAt) terminal None) (λ _, Done)
  | None => Done
  end.

Definition settled (c : Job) (r : unit + string) : Prog :=
  match r with inl _ => Done | inr e => dispatchCaught (Some c) e end.

(** The branch on the result of [claimAndSend]. *)
Definition afterSend (c : Job) (token : string) (r : Result + string) : Prog :=
  let next := SendJobs.retryCount job + 1 in
  let exhausted := SendJobs.maxRetries job <=? next in
  match r with
  | inr e => dispatchCaught (Some c) e
  | inl r =>
      if (0 <? sentCount r) || (0 <? skippedCount r) then JobSent (SendJobs.id job) token (settled c)
      else if 0 <? claimSkipped r then
        JobFailed (update token "Report claim exists for today" (SendJobs.retryCount job) (Some retryAt) false None)
          (settled c)
      else if 0 <? deferred r then
        JobFailed (update token DEFERRED_ERROR next (if exhausted then None else Some retryAt) exhausted
                     (resultCause r)) (settled c)
      else if 0 <? windowClosed r then
        JobFailed (update token "Exam window closed" (SendJobs.maxRetries job) None true None) (settled c)
      else match failures r with
           | (_, error) :: _ =>
               let limited := bool_decide (error = "outbound_rate_limited") in
               JobFailed (update token error next (if limited then None else Some retryAt) (limited || exhausted) None)
                 (settled c)
           | [] => Done
           end
  end.

Definition dispatchJob : Prog :=
  ClaimJob (SendJobs.id job) leaseMs (λ r,
    match r with
    | inr e => dispatchCaught None e
    | inl None => Done
    | inl (Some c) =>
        let token := default "" (SendJobs.leaseToken c) in
        let next := SendJobs.retryCount job + 1 in
        FindLink (SendJobs.externalUserId job) (λ r,
          match r with
          | inr e => dispatchCaught (Some c) e
          | inl link =>
              let active := match link with
                            | Some l => match ls_state l with
                                        | Some st => bool_decide (st = "") || bool_decide (st = "active")
                                        | None => true
                                        end
                            | None => false
                            end in
              if negb active then
                if bool_decide (link ≫= ls_state = Some "temporarily-unknown")
                then JobFailed (update token "WISPACE link status temporarily unknown" next (Some retryAt)
                                  (SendJobs.maxRetries job <=? next) None) (settled c)
                else JobFailed (update token "No active Discord account link" next None true None) (settled c)
              else
                claimAndSend s now true classify
                  (mkMapping p (SendJobs.externalUserId job) (link ≫= ls_user))
                  (mkOptions (SendJobs.firstAttemptDate c) true "" (Some (SendJobs.examDate job)) true true false)
                  (afterSend c token)
          end)
    end).
End Dispatch.

(** ** The system *)

(** What a worker still owes to the claim it took: nothing yet or no more
    ([ph_free]), everything ([ph_armed]), the record of a delivery
    ([ph_delivered]), or only the release ([ph_failed]). *)
Inductive Phase := ph_free | ph_armed | ph_delivered | ph_failed.

Record Worker := mkWorker { wk_platform : string; wk_prog : Prog; wk_phase : Phase; wk_claim : option (Z * string * string) }.

(** A report the provider accepted, sent under a claim or not. *)
Record Delivery := mkDelivery { d_user : option Z; d_date : string; d_external : string; d_claimed : bool }.

Record World := mkWorld {
  w_claims : Tables;
  w_jobs : Jobs;
  w_workers : list Worker;
  w_deliveries : list Delivery;
  w_faults : list (Z * string);
  w_tokens : list string
}.

Definition init : World := mkWorld (mkTables [] []) (SendJobs.mkDb [] 1) [] [] [] [].

Inductive DbAnswer := db_ok | db_threw (applied : bool) (e : string).

Inductive Event :=
| EStart (p : string) (s : Settings) (now : Z) (hasJobs : bool) (classify : string → ClassifiedError)
    (m : Mapping) (o : Options)
| EDispatch (p : string) (s : Settings) (now retryAt leaseMs : Z) (classify : string → ClassifiedError) (job : Job)
| EDb (n : nat) (now : Z) (token : string) (r : DbAnswer)
| EGenerate (n : nat) (r : string + string)
| ELink (n : nat) (r : option LinkState + string)
| ESend (n : nat) (r : DeliveryResult + string)
| ECrash (n : nat)
| EReleaseExpired (p : string) (now olderThan : Z)
| EResetStuck (p : string) (now olderThan : Z).

Definition setWorker (n : nat) (wk : Worker) (w : World) : World :=
  mkWorld (w_claims w) (w_jobs w) (<[n := wk]> (w_workers w)) (w_deliveries w) (w_faults w) (w_tokens w).

Definition setClaims (t : Tables) (w : World) : World :=
  mkWorld t (w_jobs w) (w_workers w) (w_deliveries w) (w_faults w) (w_tokens w).

Definition setJobs (j : Jobs) (w : World) : World :=
  mkWorld (w_claims w) j (w_workers w) (w_deliveries w) (w_faults w) (w_tokens w).

Definition addFaults (fs : list (Z * string)) (w : World) : World :=
  mkWorld (w_claims w) (w_jobs w) (w_workers w) (w_deliveries w) (fs ++ w_faults w) (w_tokens w).

Definition useToken (t : string) (w : World) : World :=
  mkWorld (w_claims w) (w_jobs w) (w_workers w) (w_deliveries w) (w_faults w) (t :: w_tokens w).

Definition goto (wk : Worker) (p : Prog) : Worker := mkWorker (wk_platform wk) p (wk_phase wk) (wk_claim wk).
Definition goto_phase (wk : Worker) (p : Prog) (ph : Phase) : Worker :=
  mkWorker (wk_platform wk) p ph (wk_claim wk).

(** A statement: the state, and what its caller sees. *)
Definition stmt {S A} (op : S → S * A) (r : DbAnswer) (st : S) : S * (A + string) :=
  match r with
  | db_ok => ((op st).1, inl (op st).2)
  | db_threw applied e => ((if applied then (op st).1 else st), inr e)
  end.

Definition discard {A} (r : A + string) : unit + string := match r with inl _ => inl tt | inr e => inr e end.

Definition faultOf (ps : ClaimParams) (r : DbAnswer) : list (Z * string) :=
  match p_user ps, r with Some u, db_threw _ _ => [(u, p_date ps)] | _, _ => [] end.

(** A release that did not happen leaves the release to do. *)
Definition afterRelease (r : DbAnswer) (ph : Phase) : Phase :=
  match r with
  | db_threw false _ => match ph with ph_armed => ph_failed | ph => ph end
  | _ => ph_free
  end.

(** A read answers from the table or throws. *)
Definition readAnswer {A} (a : A) (r : DbAnswer) : A + string :=
  match r with db_ok => inl a | db_threw _ e => inr e end.

(** The worker's claim of a learner row; other claims are not tracked. *)
Definition armWith (ps : ClaimParams) (token : string) (r : option Claim + string) (wk : Worker) (p : Prog) : Worker :=
  match p_user ps, r with
  | Some u, inl (Some _) => mkWorker (wk_platform wk) p ph_armed (Some (u, p_date ps, token))
  | _, _ => goto wk p
  end.

Definition execDb (n : nat) (now : Z) (token : string) (r : DbAnswer) (wk : Worker) (w : World) : World :=
  let p := wk_platform wk in
  match wk_prog wk with
  | HasSent ps k => setWorker n (goto wk (k (readAnswer (hasSentScheduledReportOn p true ps (w_claims w)) r))) w
  | HasAny u d k => setWorker n (goto wk (k (readAnswer (hasAnyPlatformSentReportOn true u d (w_claims w)) r))) w
  | TryClaim ps leaseMs k =>
      if bool_decide (token ∈ w_tokens w) then w
      else
        let '(t, a) := stmt (tryClaimScheduledReport p true ps leaseMs now token) r (w_claims w) in
        setWorker n (armWith ps token a wk (k a)) (setClaims t (useToken token w))
  | MarkClaim ps tok record key o k =>
      let '(t, a) := stmt (markScheduledReportClaimSent p true now ps tok record key o) r (w_claims w) in
      setWorker n (goto_phase wk (k a) (match r with db_ok => ph_free | db_threw _ _ => ph_failed end))
        (addFaults (faultOf ps r) (setClaims t w))
  | Release ps tok k =>
      let '(t, a) := stmt (releaseScheduledReportClaim p true now ps tok) r (w_claims w) in
      setWorker n (goto_phase wk (k a) (afterRelease r (wk_phase wk)))
        (setClaims t w)
  | JobSentByExam ext exam k =>
      let '(j, a) := stmt (λ db, (SendJobs.markSentByExternalUserExamDate p now ext exam db, tt)) r (w_jobs w) in
      setWorker n (goto wk (k a)) (setJobs j w)
  | FindFailure cp k => setWorker n (goto wk (k (readAnswer (SendJobs.findExisting p cp (w_jobs w)) r))) w
  | SaveFailure cp existing k =>
      let '(j, a) := stmt (SendJobs.saveFailure p cp existing now) r (w_jobs w) in
      let a' := match a with inl true => inl tt | inl false => inr "duplicate key" | inr e => inr e end in
      setWorker n (goto wk (k a')) (setJobs j w)
  | ClaimJob jobId leaseMs k =>
      let '(j, a) := stmt (SendJobs.claimJob p jobId leaseMs now token) r (w_jobs w) in
      setWorker n (goto wk (k a)) (setJobs j w)
  | JobSent jobId tok k =>
      let '(j, a) := stmt (SendJobs.markSent p now jobId tok) r (w_jobs w) in
      setWorker n (goto wk (k (discard a))) (setJobs j w)
  | JobFailed u k =>
      let '(j, a) := stmt (SendJobs.markFailed p now u) r (w_jobs w) in
      setWorker n (goto wk (k (discard a))) (setJobs j w)
  | _ => w
  end.

Definition execSend (n : nat) (r : DeliveryResult + string) (wk : Worker) (w : World) : World :=
  match wk_prog wk with
  | Send ps held key text k =>
      let ok := match r with inl (delivered _) => true | _ => false end in
      let wk' := match held, p_user ps with
                 | Some _, Some _ => goto_phase wk (k r) (if ok then ph_delivered else ph_failed)
                 | _, _ => goto wk (k r)
                 end in
      let ds := if ok then [mkDelivery (p_user ps) (p_date ps) (p_external ps) (bool_decide (held ≠ None))] else [] in
      mkWorld (w_claims w) (w_jobs w) (<[n := wk']> (w_workers w)) (ds ++ w_deliveries w) (w_faults w) (w_tokens w)
  | _ => w
  end.

Definition onWorker (n : nat) (f : Worker → World → World) (w : World) : World :=
  match w_workers w !! n with Some wk => f wk w | None => w end.

Definition start (p : string) (prog : Prog) (w : World) : World :=
  mkWorld (w_claims w) (w_jobs w) (w_workers w ++ [mkWorker p prog ph_free None])
    (w_deliveries w) (w_faults w) (w_tokens w).

(** The learners whose claims a release of expired claims takes away. *)
Definition expiredLearners (now olderThan : Z) (t : Tables) : list (Z * string) :=
  omap (λ c, (λ u, (u, reportDate c)) <$> userId c) (tbl_select (expired now olderThan) (learner t)).

Definition exec (e : Event) (w : World) : World :=
  match e with
  | EStart p s now hasJobs classify m o => start p (claimAndSend s now hasJobs classify m o (λ _, Done)) w
  | EDispatch p s now retryAt leaseMs classify job => start p (dispatchJob s now retryAt leaseMs classify p job) w
  | EDb n now token r => onWorker n (execDb n now token r) w
  | EGenerate n r =>
      onWorker n (λ wk w, match wk_prog wk with Generate k => setWorker n (goto wk (k r)) w | _ => w end) w
  | ELink n r =>
      onWorker n (λ wk w, match wk_prog wk with FindLink _ k => setWorker n (goto wk (k r)) w | _ => w end) w
  | ESend n r => onWorker n (execSend n r) w
  | ECrash n => onWorker n (λ wk, setWorker n (mkWorker (wk_platform wk) Done ph_free None)) w
  | EReleaseExpired p now olderThan =>
      addFaults (expiredLearners now olderThan (w_claims w))
        (setClaims (releaseExpiredScheduledReportClaims p true now olderThan (w_claims w)).1 w)
  | EResetStuck p now olderThan => setJobs (SendJobs.resetStuckProcessingJobs p now olderThan (w_jobs w)).1 w
  end.

Fixpoint run (es : list Event) (w : World) : World :=
  match es with [] => w | e :: es' => run es' (exec e w) end.

(** ** Deliveries are paid by faults *)

Abbreviation Ticket := (Z * string * string)%type.

Definition matches (c : option Ticket) (ps : ClaimParams) (token : string) : Prop :=
  match c with
  | Some (u, d, t) => p_user ps = Some u ∧ p_date ps = d ∧ token = t
  | None => p_user ps = None
  end.

(** A program that takes no claim and sends nothing under a learner's claim; what
    it settles is the claim [c]. *)
Fixpoint closed (c : option Ticket) (p : Prog) : Prop :=
  match p with
  | HasSent _ k | HasAny _ _ k => ∀ r, closed c (k r)
  | TryClaim _ _ _ => False
  | MarkClaim ps t _ _ _ k => matches c ps t ∧ ∀ r, closed c (k r)
  | Release ps t k => matches c ps t ∧ ∀ r, closed c (k r)
  | Generate k => ∀ r, closed c (k r)
  | Send ps held _ _ k => (held = None ∨ p_user ps = None) ∧ ∀ r, closed c (k r)
  | JobSentByExam _ _ k => ∀ r, closed c (k r)
  | FindFailure _ k => ∀ r, closed c (k r)
  | SaveFailure _ _ k => ∀ r, closed c (k r)
  | ClaimJob _ _ k => ∀ r, closed c (k r)
  | FindLink _ k => ∀ r, closed c (k r)
  | JobSent _ _ k => ∀ r, closed c (k r)
  | JobFailed _ k => ∀ r, closed c (k r)
  | Done => True
  end.

(** After the provider accepted the report: the delivery is recorded next. *)
Definition owing (c : option Ticket) (p : Prog) : Prop :=
  match p with
  | MarkClaim ps t _ _ _ k => matches c ps t ∧ ∀ r, closed c (k r)
  | _ => False
  end.

Definition accepted (r : DeliveryResult + string) : bool :=
  match r with inl (delivered _) => true | _ => false end.

(** A program that holds the claim [c] and may send under it once. *)
Fixpoint armed (c : option Ticket) (p : Prog) : Prop :=
  match p with
  | HasSent _ k | HasAny _ _ k => ∀ r, armed c (k r)
  | TryClaim _ _ _ => False
  | MarkClaim ps t _ _ _ k => matches c ps t ∧ ∀ r, closed c (k r)
  | Release ps t k => matches c ps t ∧ ∀ r, closed c (k r)
  | Generate k => ∀ r, armed c (k r)
  | Send ps held _ _ k =>
      (∃ t, held = Some t ∧ matches c ps t) ∧ ∀ r, if accepted r then owing c (k r) else closed c (k r)
  | JobSentByExam _ _ k => ∀ r, armed c (k r)
  | FindFailure _ k => ∀ r, armed c (k r)
  | SaveFailure _ _ k => ∀ r, armed c (k r)
  | ClaimJob _ _ k => ∀ r, armed c (k r)
  | FindLink _ k => ∀ r, armed c (k r)
  | JobSent _ _ k => ∀ r, armed c (k r)
  | JobFailed _ k => ∀ r, armed c (k r)
  | Done => True
  end.

(** A program that holds no claim and takes at most one. *)
Fixpoint free (p : Prog) : Prop :=
  match p with
  | HasSent _ k | HasAny _ _ k => ∀ r, free (k r)
  | TryClaim ps _ k =>
      ∀ r, match p_user ps, r with
           | Some u, inl (Some c) =>
               ∀ t, leaseToken c = Some t → armed (Some (u, p_date ps, t)) (k r)
           | _, _ => closed None (k r)
           end
  | MarkClaim _ _ _ _ _ _ | Release _ _ _ => False
  | Generate k => ∀ r, free (k r)
  | Send _ held _ _ k => held = None ∧ ∀ r, free (k r)
  | JobSentByExam _ _ k => ∀ r, free (k r)
  | FindFailure _ k => ∀ r, free (k r)
  | SaveFailure _ _ k => ∀ r, free (k r)
  | ClaimJob _ _ k => ∀ r, free (k r)
  | FindLink _ k => ∀ r, free (k r)
  | JobSent _ _ k => ∀ r, free (k r)
  | JobFailed _ k => ∀ r, free (k r)
  | Done => True
  end.

(** *** The programs of the service *)

Section Programs.
Context (s : Settings) (now : Z) (hasJobs : bool) (classify : string → ClassifiedError)
  (m : Mapping) (o : Options) (k : Result + string → Prog) (c : option Ticket).
Context (Hk : ∀ r, closed c (k r)).

Lemma if_closed (b : bool) p q : closed c p → closed c q → closed c (if b then p else q).
Proof. by destruct b. Qed.

Lemma recordRetry_closed message cause next handler :
  closed c next → (∀ e, closed c (handler e)) →
  closed c (recordRetry s now m o message cause next handler).
Proof. intros ? ? [existing|]; simpl; auto. intros [|]; auto. Qed.

Lemma releaseIf_closed held next handler :
  (∀ t, held = Some t → matches c (claimParams m o) t) → closed c next → (∀ e, closed c (handler e)) →
  closed c (releaseIf m o held next handler).
Proof. intros Hm ? ?. destruct held as [t|]; simpl; [|done]. split; [by apply Hm|]. intros [|]; auto. Qed.

Lemma markIf_closed held rec key out next handler :
  (∀ t, held = Some t → matches c (claimParams m o) t) → closed c next → (∀ e, closed c (handler e)) →
  closed c (markIf m o held rec key out next handler).
Proof. intros Hm ? ?. destruct held as [t|]; simpl; [|done]. split; [by apply Hm|]. intros [|]; auto. Qed.

Lemma finishKind_closed ce : closed c (finishKind m k ce).
Proof. unfold finishKind, finish. case_match; auto. Qed.

Lemma caught_closed held e :
  (∀ t, held = Some t → matches c (claimParams m o) t) → closed c (caught s now hasJobs classify m o k held e).
Proof.
  intros Hm. apply releaseIf_closed; [done| |intros; apply Hk].
  simpl. destruct (ce_kind _); try apply finishKind_closed.
  apply if_closed; [|apply finishKind_closed]. apply recordRetry_closed; intros; apply Hk.
Qed.

Lemma notDelivered_closed held r :
  (∀ t, held = Some t → matches c (claimParams m o) t) →
  closed c (notDelivered s now hasJobs classify m o k held r).
Proof.
  intros Hm. apply releaseIf_closed; [done| |intros; by apply caught_closed].
  destruct r as [[]|]; try apply Hk. apply if_closed; [|apply Hk].
  apply recordRetry_closed; intros; [apply Hk|by apply caught_closed].
Qed.

Lemma jobSentIf_closed next handler :
  closed c next → (∀ e, closed c (handler e)) → closed c (jobSentIf hasJobs m o next handler).
Proof. intros ? ?. unfold jobSentIf. repeat case_match; auto. intros [|]; auto. Qed.

Lemma generationFailed_closed held e :
  (∀ t, held = Some t → matches c (claimParams m o) t) →
  closed c (generationFailed s now hasJobs classify m o k held e).
Proof.
  intros Hm. apply releaseIf_closed; [done| |intros; apply Hk].
  apply if_closed; [|apply finishKind_closed]. apply recordRetry_closed; intros; apply Hk.
Qed.

(** The continuations of a send. *)
Lemma sent_owing token outcome :
  matches c (claimParams m o) token →
  owing c (markIf m o (Some token) (Some "sent") (Some (deliveryKeyOf m o)) outcome
    (jobSentIf hasJobs m o (finish k aSent) (caught s now hasJobs classify m o k (Some token)))
    (caught s now hasJobs classify m o k (Some token))).
Proof.
  intros Hm. split; [done|]. intros [|]; [apply jobSentIf_closed|]; intros;
    first [apply Hk|apply caught_closed; by intros ? [= <-]].
Qed.

Lemma sendReport_armed token text :
  matches c (claimParams m o) token →
  armed c (sendReport s now hasJobs classify m o k (Some token) text).
Proof.
  intros Hm. split; [by exists token|].
  assert (∀ t, Some token = Some t → matches c (claimParams m o) t) as Hm' by (by intros ? [= <-]).
  intros [[outcome|[[]|]]|e]; cbn [accepted]; try by apply notDelivered_closed.
  - by apply sent_owing.
  - split; [done|]. intros [|]; [apply Hk|by apply caught_closed].
  - by apply caught_closed.
Qed.

Lemma armed_of_closed_release held next handler :
  (∀ t, held = Some t → matches c (claimParams m o) t) → held ≠ None → closed c next →
  (∀ e, closed c (handler e)) → armed c (releaseIf m o held next handler).
Proof. intros Hm ? ? ?. destruct held as [t|]; [|done]. split; [by apply Hm|]. intros [|]; auto. Qed.

Lemma generateAndSend_armed token :
  matches c (claimParams m o) token →
  armed c (generateAndSend s now hasJobs classify m o k (Some token)).
Proof.
  intros Hm. unfold generateAndSend. case_match; [|by apply sendReport_armed].
  intros [text|e]; [by apply sendReport_armed|].
  apply armed_of_closed_release; [by intros ? [= <-]|done| |intros; apply Hk].
  apply if_closed; [|apply finishKind_closed]. apply recordRetry_closed; intros; apply Hk.
Qed.

(** Under a claim of the legacy table the whole program is closed. *)
Lemma sendReport_closed held text :
  (held = None ∨ m_user m = None) → (∀ t, held = Some t → matches c (claimParams m o) t) →
  closed c (sendReport s now hasJobs classify m o k held text).
Proof.
  intros Hu Hm. split; [done|].
  intros [[outcome|[[]|]]|e]; try (by apply notDelivered_closed); try (by apply caught_closed);
    (apply markIf_closed; [done| |intros; by apply caught_closed]); [|apply Hk].
  apply jobSentIf_closed; intros; [apply Hk|by apply caught_closed].
Qed.

Lemma generateAndSend_closed held :
  (held = None ∨ m_user m = None) → (∀ t, held = Some t → matches c (claimParams m o) t) →
  closed c (generateAndSend s now hasJobs classify m o k held).
Proof.
  intros ? ?. unfold generateAndSend. case_match; [|by apply sendReport_closed].
  intros [text|e]; [by apply sendReport_closed|by apply generationFailed_closed].
Qed.

End Programs.

Section Start.
Context (s : Settings) (now : Z) (hasJobs : bool) (classify : string → ClassifiedError)
  (m : Mapping) (o : Options) (k : Result + string → Prog).
Context (Hk : ∀ c r, closed c (k r)) (Ha : ∀ c r, armed c (k r)) (Hf : ∀ r, free (k r)).

Lemma tryClaim_free : free (tryClaim s now hasJobs classify m o k).
Proof.
  intros r. simpl. destruct (m_user m) as [u|] eqn:Hu; destruct r as [[row|]|e]; try apply Hk.
  - intros t ->. assert (matches (Some (u, o_reportDate o, t)) (claimParams m o) t) as Hm
      by (unfold matches; simpl; by rewrite Hu).
    case_bool_decide; [apply Ha|].
    destruct (deliveryRecord row); [case_bool_decide|]; try (by apply generateAndSend_armed).
    split; [done|]. intros [|]; apply Hk.
  - destruct (leaseToken row) as [t|]; [|apply Hk]. case_bool_decide; [apply Hk|].
    assert (∀ t', Some t = Some t' → matches None (claimParams m o) t') as Hm
      by (intros; unfold matches; simpl; by rewrite Hu).
    destruct (deliveryRecord row); [case_bool_decide|]; try (by apply generateAndSend_closed; auto).
    split; [by apply Hm|]. intros [|]; apply Hk.
Qed.

Lemma claimAndSend_free : o_skipAlreadySentToday o = true → free (claimAndSend s now hasJobs classify m o k).
Proof.
  intros Hskip. unfold claimAndSend. case_match; [apply Hf|]. rewrite Hskip.
  intros [[]|]; [| |apply Hf].
  - unfold jobSentIf. repeat case_match; try apply Hf. intros [|]; apply Hf.
  - destruct (truthy (m_user m)) as [u|]; [|apply tryClaim_free].
    intros [[]|]; [apply Hf|apply tryClaim_free|apply Hf].
Qed.

Lemma claimAndSend_start :
  free (claimAndSend s now hasJobs classify m o k) ∨ closed None (claimAndSend s now hasJobs classify m o k).
Proof.
  destruct (o_skipAlreadySentToday o) eqn:Hskip; [left; by apply claimAndSend_free|right].
  unfold claimAndSend. rewrite Hskip. simpl. apply generateAndSend_closed; auto. by intros ? [=].
Qed.

End Start.

(** Programs that only write the outbox. *)
Definition neutral (p : Prog) : Prop := (∀ c, closed c p) ∧ (∀ c, armed c p) ∧ free p.

Lemma neutral_write u k : (∀ r, neutral (k r)) → neutral (JobFailed u k).
Proof. intros Hk. split_and!; intros; try intros r; apply (Hk r). Qed.

Lemma dispatchCaught_neutral retryAt c e : neutral (dispatchCaught retryAt c e).
Proof.
  unfold dispatchCaught. destruct c; [|by repeat split]. case_bool_decide; [by repeat split|].
  apply neutral_write. by repeat split.
Qed.

Lemma settled_neutral retryAt c r : neutral (settled retryAt c r).
Proof. destruct r; [by repeat split|apply dispatchCaught_neutral]. Qed.

Lemma afterSend_neutral retryAt job c token r : neutral (afterSend retryAt job c token r).
Proof.
  unfold afterSend. destruct r as [r|e]; [|apply dispatchCaught_neutral].
  repeat case_match; try (apply neutral_write; intros; apply settled_neutral); [|by repeat split].
  split_and!; intros; try intros a; apply settled_neutral.
Qed.

Lemma free_if (b : bool) p q : free p → free q → free (if b then p else q).
Proof. by destruct b. Qed.

Lemma dispatchJob_free s now retryAt leaseMs classify p job :
  free (dispatchJob s now retryAt leaseMs classify p job).
Proof.
  intros [[c|]|e]; [|done|apply dispatchCaught_neutral]. intros [link|e]; [|apply dispatchCaught_neutral].
  cbv zeta. apply free_if; [apply free_if; apply neutral_write; intros; apply settled_neutral|].
  apply claimAndSend_free; try done; intros; apply afterSend_neutral.
Qed.

(** *** The account *)

Definition holds_ticket (u : Z) (d : string) (wk : Worker) : bool :=
  match wk_claim wk, wk_phase wk with
  | Some (u', d', _), ph_armed | Some (u', d', _), ph_failed => bool_decide ((u', d') = (u, d))
  | _, _ => false
  end.

Definition deliveredTo (u : Z) (d : string) (x : Delivery) : bool :=
  d_claimed x && bool_decide (d_user x = Some u) && bool_decide (d_date x = d).

Definition faultAt (u : Z) (d : string) (x : Z * string) : bool := bool_decide (x = (u, d)).

Definition taken (u : Z) (d : string) (c : Claim) : bool := for_user u d c && negb (has_status released c).

Definition worker_ok (cs : list Claim) (ts : list string) (wk : Worker) : Prop :=
  match wk_claim wk with
  | None => free (wk_prog wk) ∨ closed None (wk_prog wk)
  | Some (u, d, t) =>
      t ∈ ts
      ∧ (∀ c, c ∈ cs → heldBy t c = true → for_user u d c = true)
      ∧ match wk_phase wk with
        | ph_armed => armed (Some (u, d, t)) (wk_prog wk)
        | ph_delivered => owing (Some (u, d, t)) (wk_prog wk)
        | ph_failed => closed (Some (u, d, t)) (wk_prog wk)
        | ph_free => closed (Some (u, d, t)) (wk_prog wk) ∧ ∀ c, c ∈ cs → heldBy t c = false
        end
  end.

Abbreviation learnerKey := (λ c : Claim, (userId c, reportDate c)).

Definition balance (u : Z) (d : string) (w : World) : Z :=
  count_by (deliveredTo u d) (w_deliveries w) + count_by (holds_ticket u d) (w_workers w)
  - count_by (faultAt u d) (w_faults w) - count_by (taken u d) (learner (w_claims w)).

Record world_inv (w : World) : Prop := {
  wi_unique : unique_on learnerKey (learner (w_claims w));
  wi_tokens : ∀ c t, c ∈ learner (w_claims w) → heldBy t c = true → t ∈ w_tokens w;
  wi_workers : ∀ n wk, w_workers w !! n = Some wk → worker_ok (learner (w_claims w)) (w_tokens w) wk;
  wi_balance : ∀ u d, balance u d w <= 0
}.

Lemma for_user_spec u d c : for_user u d c = true ↔ learnerKey c = (Some u, d).
Proof. unfold for_user. rewrite andb_true_iff, !bool_decide_eq_true. split; [by intros [-> ->]|by intros [= -> ->]]. Qed.

(** One row per learner and date. *)
Lemma count_unique (q : Claim → bool) u d cs :
  unique_on learnerKey cs → (∀ c, q c = true → for_user u d c = true) → count_by q cs <= 1.
Proof.
  intros Hu Hq. unfold count_by, unique_on in *. induction cs as [|c cs IH]; simpl; [lia|].
  rewrite fmap_cons, NoDup_cons in Hu. destruct Hu as [Hn Hu].
  destruct (q c) eqn:E; [|specialize (IH Hu); lia].
  rewrite sum_by_zero; [lia|]. intros c' Hc'. destruct (q c') eqn:E'; [|done].
  destruct Hn. apply list_elem_of_fmap. exists c'.
  split; [|done]. apply Hq, for_user_spec in E, E'. congruence.
Qed.

Lemma count_by_insert {A} (q : A → bool) (l : list A) n x y :
  l !! n = Some x → count_by q (<[n:=y]> l) = count_by q l - (if q x then 1 else 0) + (if q y then 1 else 0).
Proof.
  unfold count_by. revert n. induction l as [|a l IH]; intros [|n]; simpl; intros H; simplify_eq; [lia|].
  rewrite (IH n H). lia.
Qed.

Lemma count_nil {A} (q : A → bool) : count_by q [] = 0.
Proof. done. Qed.

Lemma count_single {A} (q : A → bool) x : count_by q [x] = if q x then 1 else 0.
Proof. unfold count_by. simpl. lia. Qed.

(** A statement on the learner table: how many rows of (u, d) it takes or frees. *)
Lemma count_by_update (q p : Claim → bool) f cs :
  count_by q (tbl_update p f cs)
  = count_by q cs + sum_by (λ c, if p c then (if q (f c) then 1 else 0) - (if q c then 1 else 0) else 0) cs.
Proof. unfold count_by. by rewrite tbl_update_sum. Qed.

(** The step keeps what the worker still has to do. *)
Definition follows (p p' : Prog) : Prop :=
  (free p → free p') ∧ (∀ c, closed c p → closed c p') ∧ (∀ c, armed c p → armed c p') ∧ ∀ c, ¬ owing c p.

Lemma worker_goto cs ts wk p' : worker_ok cs ts wk → follows (wk_prog wk) p' → worker_ok cs ts (goto wk p').
Proof.
  intros Hw (Hf & Hc & Ha & Ho). unfold worker_ok, goto in *. simpl in *.
  destruct (wk_claim wk) as [[[u d] t]|]; [|naive_solver].
  destruct Hw as (? & ? & Hw). split_and!; [done..|]. destruct (wk_phase wk); auto.
  - destruct Hw; auto.
  - by apply Ho in Hw.
Qed.

Lemma goto_inv w n wk p' :
  world_inv w → w_workers w !! n = Some wk → follows (wk_prog wk) p' → world_inv (setWorker n (goto wk p') w).
Proof.
  intros [Hu Ht Hw Hb] Hn Hf. split; simpl; try done.
  - intros m wk' [(_ & <- & _)|[_ Hm]]%list_lookup_insert_Some; [|by eauto]. apply worker_goto; eauto.
  - intros u d. unfold balance. simpl. rewrite (count_by_insert _ _ _ wk) by done. specialize (Hb u d).
    unfold balance in Hb. change (holds_ticket u d (goto wk p')) with (holds_ticket u d wk). lia.
Qed.

Lemma setJobs_inv w j : world_inv w → world_inv (setJobs j w).
Proof. intros [? ? ? ?]. by split. Qed.

(** *** Statements on the claims *)

Abbreviation rows w := (learner (w_claims w)).

(** Settling reaches only rows of the learner's date held under the token. *)
Definition settle_filter (ps : ClaimParams) (token : string) (c : Claim) : bool :=
  match p_user ps with Some u => heldLearner u ps token c | None => false end.

Lemma settle_learner p ps token f t :
  learner (settleClaim p true ps token f t).1 = tbl_update (settle_filter ps token) f (learner t).
Proof.
  unfold settleClaim, settle_filter. destruct (p_user ps) as [u|]; simpl.
  - destruct (tbl_exists_spec (heldLearner u ps token) (learner t)) as [|Hn]; simpl; [done|].
    rewrite tbl_update_none; [done|]. intros c Hc. destruct (heldLearner u ps token c) eqn:E; [|done].
    destruct Hn. eauto.
  - by rewrite tbl_update_none.
Qed.

Lemma heldBy_spec t c : heldBy t c = true ↔ status c = claimed ∧ leaseToken c = Some t.
Proof. unfold heldBy, has_status. by rewrite andb_true_iff, !bool_decide_eq_true. Qed.

Lemma settle_filter_spec ps token c :
  settle_filter ps token c = true →
  ∃ u, p_user ps = Some u ∧ for_user u (p_date ps) c = true ∧ heldBy token c = true.
Proof.
  unfold settle_filter, heldLearner. destruct (p_user ps) as [u|]; [|done]. intros H. bool_to_prop. eauto.
Qed.

(** Settling statements keep the key and leave the row unclaimed. *)
Definition settles (f : Claim → Claim) : Prop :=
  ∀ c, learnerKey (f c) = learnerKey c ∧ status (f c) ≠ claimed.

Lemma sentClaim_settles now record key o : settles (sentClaim now record key o).
Proof. done. Qed.
Lemma releasedClaim_settles now : settles (releasedClaim now).
Proof. done. Qed.

Lemma settles_held f t c : settles f → heldBy t (f c) = false.
Proof. intros Hf. destruct (heldBy t (f c)) eqn:E; [|done]. apply heldBy_spec in E as [E _]. by destruct (Hf c). Qed.

(** An update by a settling function keeps what workers may rely on. *)
Lemma worker_ok_update cs ts wk q f :
  settles f → worker_ok cs ts wk → worker_ok (tbl_update q f cs) ts wk.
Proof.
  intros Hf. unfold worker_ok. destruct (wk_claim wk) as [[[u d] t]|]; [|done].
  intros (? & Hh & Hp).
  assert (∀ c, c ∈ tbl_update q f cs → heldBy t c = true → c ∈ cs) as Hback.
  { intros c (c0 & Hc0 & ->)%elem_of_tbl_update. destruct (q c0); [by rewrite settles_held|by intros _]. }
  split_and!; [done|eauto|]. destruct (wk_phase wk); try done. destruct Hp as [? Hno].
  split; [done|]. intros c Hc. destruct (heldBy t c) eqn:E; [|done]. rewrite <- E. eauto.
Qed.

Lemma unique_settle q f cs : settles f → unique_on learnerKey cs → unique_on learnerKey (tbl_update q f cs).
Proof. intros Hf. apply unique_on_update. intros c. apply Hf. Qed.

(** The bookkeeping of a statement that settles rows by [f]. *)
Lemma settled_world w q f wks fs :
  settles f → world_inv w →
  (∀ n wk, wks !! n = Some wk → worker_ok (tbl_update q f (rows w)) (w_tokens w) wk) →
  (∀ u d, count_by (holds_ticket u d) wks - count_by (faultAt u d) fs
          - count_by (taken u d) (tbl_update q f (rows w))
          <= count_by (holds_ticket u d) (w_workers w) - count_by (faultAt u d) (w_faults w)
             - count_by (taken u d) (rows w)) →
  ∀ t j, learner t = tbl_update q f (rows w) →
  world_inv (mkWorld t j wks (w_deliveries w) fs (w_tokens w)).
Proof.
  intros Hf [Hu Ht Hw Hb] Hwk Hbal t j Hl. split; simpl; rewrite ?Hl; try done.
  - by apply unique_settle.
  - intros c tok (c0 & Hc0 & ->)%elem_of_tbl_update. case_match; [by rewrite settles_held|eauto].
  - intros u d. unfold balance. simpl. rewrite Hl. specialize (Hb u d). specialize (Hbal u d).
    unfold balance in Hb. lia.
Qed.

(** What settling does to the count of taken rows: at most one row is freed, and
    only one held under the token. *)
Lemma taken_sent now record key o ps token cs u d :
  count_by (taken u d) (tbl_update (settle_filter ps token) (sentClaim now record key o) cs)
  = count_by (taken u d) cs.
Proof.
  rewrite count_by_update, sum_by_zero; [lia|]. intros c Hc.
  destruct (settle_filter ps token c) eqn:E; [|done]. apply settle_filter_spec in E as (u' & _ & _ & Hh).
  apply heldBy_spec in Hh as [Hst _]. unfold taken, for_user, has_status. simpl. rewrite Hst.
  repeat case_bool_decide; simpl; congruence || lia.
Qed.

Lemma taken_released now ps token cs u d :
  unique_on learnerKey cs →
  let n := count_by (taken u d) (tbl_update (settle_filter ps token) (releasedClaim now) cs) in
  count_by (taken u d) cs - 1 <= n
  ∧ ((p_user ps ≠ Some u ∨ p_date ps ≠ d ∨ ∀ c, c ∈ cs → heldBy token c = false) →
     n = count_by (taken u d) cs).
Proof.
  intros Hu. simpl. rewrite count_by_update.
  set (q := λ c, settle_filter ps token c && for_user u d c).
  assert (sum_by (λ c, if settle_filter ps token c
      then (if taken u d (releasedClaim now c) then 1 else 0) - (if taken u d c then 1 else 0) else 0) cs
    = - count_by q cs) as ->.
  { unfold count_by. rewrite <- sum_by_opp. apply sum_by_ext. intros c _. unfold q, taken.
    change (for_user u d (releasedClaim now c)) with (for_user u d c).
    destruct (settle_filter ps token c) eqn:E; [|done]. apply settle_filter_spec in E as (u' & _ & _ & Hh).
    apply heldBy_spec in Hh as [Hst _]. unfold has_status. simpl. rewrite Hst.
    by destruct (for_user u d c). }
  split.
  - assert (count_by q cs <= 1); [|lia]. apply (count_unique q u d); [done|].
    unfold q. intros c H. by bool_to_prop.
  - intros Hne. assert (count_by q cs = 0); [|lia]. unfold count_by. apply sum_by_zero. intros c Hc.
    destruct (q c) eqn:E; [|done]. unfold q in E. apply andb_true_iff in E as [E Hfor].
    apply settle_filter_spec in E as (u' & Hu' & Hfor' & Hh).
    apply for_user_spec in Hfor, Hfor'. destruct Hne as [Hne|[Hne|Hne]]; [congruence..|].
    by rewrite Hne in Hh.
Qed.

(** After an applied settling no row is held under the worker's token. *)
Lemma settled_unheld cs u d t ps token f :
  settles f → matches (Some (u, d, t)) ps token →
  (∀ c, c ∈ cs → heldBy t c = true → for_user u d c = true) →
  ∀ c, c ∈ tbl_update (settle_filter ps token) f cs → heldBy t c = false.
Proof.
  intros Hf (Hu & <- & ->) Hh c (c0 & Hc0 & ->)%elem_of_tbl_update.
  destruct (settle_filter ps t c0) eqn:E; [by apply settles_held|].
  destruct (heldBy t c0) eqn:E'; [|done]. unfold settle_filter, heldLearner in E.
  by rewrite Hu, (Hh c0 Hc0 E'), E' in E.
Qed.

(** The claim a settling node of a well-behaved worker names, and what follows. *)
Lemma settling_node cs ts wk ps token k :
  worker_ok cs ts wk →
  (∃ record key o, wk_prog wk = MarkClaim ps token record key o k) ∨ wk_prog wk = Release ps token k →
  matches (wk_claim wk) ps token ∧ (∀ a, closed (wk_claim wk) (k a))
  ∧ (wk_prog wk = Release ps token k → wk_phase wk ≠ ph_delivered ∨ wk_claim wk = None).
Proof.
  unfold worker_ok. destruct wk as [wp prog ph cl]; simpl.
  intros Hw [(record & key & o & ->)| ->]; destruct cl as [[[u d] t]|]; simpl in *;
    [destruct Hw as (_ & _ & Hw); destruct ph|destruct Hw as [[]|[? ?]]|
     destruct Hw as (_ & _ & Hw); destruct ph|destruct Hw as [[]|[? ?]]]; naive_solver.
Qed.

(** Every worker after a settling statement, the settling one excepted. *)
Lemma others_ok w n wk' q f :
  world_inv w → settles f →
  worker_ok (tbl_update q f (rows w)) (w_tokens w) wk' →
  ∀ m wk, <[n:=wk']> (w_workers w) !! m = Some wk → worker_ok (tbl_update q f (rows w)) (w_tokens w) wk.
Proof.
  intros Hw Hf Hok m wk [(_ & <- & _)|[_ Hm]]%list_lookup_insert_Some; [done|].
  apply worker_ok_update; [done|]. by apply (wi_workers _ Hw m).
Qed.

Lemma update_never (f : Claim → Claim) cs : tbl_update (λ _, false) f cs = cs.
Proof. by apply tbl_update_none. Qed.

Lemma mark_step_inv w n wk now fresh ps token record key o k r :
  world_inv w → w_workers w !! n = Some wk → wk_prog wk = MarkClaim ps token record key o k →
  world_inv (execDb n now fresh r wk w).
Proof.
  intros Hw Hn Hp. unfold execDb. rewrite Hp.
  pose proof (wi_workers _ Hw n wk Hn) as Hok.
  destruct (settling_node _ _ _ ps token k Hok) as (Hm & Hc & _); [eauto|].
  set (f := sentClaim now record key o).
  set (q := match r with db_threw false _ => λ _, false | _ => settle_filter ps token end).
  destruct (stmt _ r (w_claims w)) as [t a] eqn:Hstmt.
  assert (learner t = tbl_update q f (rows w)) as Hl.
  { unfold stmt in Hstmt. destruct r as [|[] e]; simplify_eq; unfold q;
      [apply settle_learner..|by rewrite update_never]. }
  assert (∀ u d, count_by (taken u d) (tbl_update q f (rows w)) = count_by (taken u d) (rows w)) as Htaken.
  { intros u d. unfold q. destruct r as [|[] e]; [apply taken_sent..|by rewrite update_never]. }
  set (ph := match r with db_ok => ph_free | db_threw _ _ => ph_failed end).
  apply (settled_world w q f (<[n:=goto_phase wk (k a) ph]> (w_workers w)) (faultOf ps r ++ w_faults w));
    try done.
  - apply others_ok; [done..|]. unfold worker_ok in *. simpl in *.
    destruct (wk_claim wk) as [[[u d] tk]|]; [|by right].
    destruct Hok as (Htk & Hh & _). split_and!; [done| |].
    + intros c (c0 & Hc0 & ->)%elem_of_tbl_update. destruct (q c0); [by rewrite settles_held|auto].
    + destruct r; [|apply Hc]. split; [apply Hc|]. by apply (settled_unheld _ u d tk).
  - intros u d. rewrite Htaken, (count_by_insert _ _ _ wk), count_by_app by done.
    unfold holds_ticket at 3. simpl. unfold faultOf.
    destruct (wk_claim wk) as [[[u' d'] tk]|] eqn:Hcl; simpl in Hm.
    + destruct Hm as (Hpu & <- & _). rewrite Hpu. destruct r; subst ph; simpl.
      * rewrite count_nil. destruct (holds_ticket u d wk); lia.
      * rewrite count_single. unfold faultAt at 1. case_bool_decide; destruct (holds_ticket u d wk); lia.
    + rewrite Hm, count_nil. destruct (holds_ticket u d wk); lia.
Qed.

Lemma holds_ticket_of u d wk u' d' t :
  wk_claim wk = Some (u', d', t) →
  holds_ticket u d wk = match wk_phase wk with
                        | ph_armed | ph_failed => bool_decide ((u', d') = (u, d))
                        | _ => false
                        end.
Proof. intros H. unfold holds_ticket. rewrite H. by destruct (wk_phase wk). Qed.

Lemma release_step_inv w n wk now fresh ps token k r :
  world_inv w → w_workers w !! n = Some wk → wk_prog wk = Release ps token k →
  world_inv (execDb n now fresh r wk w).
Proof.
  intros Hw Hn Hp. unfold execDb. rewrite Hp.
  pose proof (wi_workers _ Hw n wk Hn) as Hok.
  destruct (settling_node _ _ _ ps token k Hok) as (Hm & Hc & Hph); [eauto|].
  specialize (Hph Hp). set (f := releasedClaim now).
  set (q := match r with db_threw false _ => λ _, false | _ => settle_filter ps token end).
  destruct (stmt _ r (w_claims w)) as [t a] eqn:Hstmt.
  assert (learner t = tbl_update q f (rows w)) as Hl.
  { unfold stmt in Hstmt. destruct r as [|[] e]; simplify_eq; unfold q;
      [apply settle_learner..|by rewrite update_never]. }
  apply (settled_world w q f (<[n:=goto_phase wk (k a) (afterRelease r (wk_phase wk))]> (w_workers w)) (w_faults w));
    try done.
  - apply others_ok; [done..|]. unfold worker_ok in *. simpl in *.
    destruct (wk_claim wk) as [[[u d] tk]|]; [|by right].
    destruct Hok as (Htk & Hh & Hkeep). split_and!; [done| |].
    + intros c (c0 & Hc0 & ->)%elem_of_tbl_update. destruct (q c0); [by rewrite settles_held|auto].
    + assert (∀ c, c ∈ tbl_update (settle_filter ps token) f (rows w) → heldBy tk c = false) as Hun
        by (by apply (settled_unheld _ u d tk)).
      unfold q. destruct r as [|[] e]; simpl; [split; [apply Hc|done]..|]. rewrite update_never.
      destruct Hph as [Hph|?]; [|done]. destruct (wk_phase wk); simpl; try apply Hc; try done.
      split; [apply Hc|apply Hkeep].
  - intros u d. rewrite (count_by_insert _ _ _ wk) by done. unfold worker_ok in Hok.
    destruct (wk_claim wk) as [[[u' d'] tk]|] eqn:Hcl.
    + rewrite !(holds_ticket_of u d _ u' d' tk) by done. destruct Hok as (_ & _ & Hkeep).
      destruct Hm as (Hpu & Hpd & ->). unfold q. destruct r as [|[] e]; simpl.
      3: { rewrite update_never. destruct (wk_phase wk); simpl; lia. }
      all: destruct (taken_released now ps tk (rows w) u d (wi_unique _ Hw)) as [Hge Hsame]; fold f in Hge, Hsame;
        (destruct Hph as [Hph|?]; [|done]);
        (assert ((u', d') ≠ (u, d) → p_user ps ≠ Some u ∨ p_date ps ≠ d ∨ ∀ c, c ∈ rows w → heldBy tk c = false) as Hne
          by (intros ?; destruct (decide (u = u')) as [->|]; [right; left|left]; congruence)).
      all: destruct (wk_phase wk); try done; try (destruct Hkeep; rewrite Hsame by auto; lia);
        case_bool_decide as Heq; try lia; rewrite Hsame by auto; lia.
    + assert (∀ wk', wk_claim wk' = None → holds_ticket u d wk' = false) as Hnone
        by (intros wk' H; unfold holds_ticket; by rewrite H).
      rewrite !Hnone by done. simpl in Hm. unfold q, settle_filter. rewrite Hm.
      destruct r as [|[] e]; rewrite update_never; lia.
Qed.

(** What a claim of the learner [u] for the date [d] makes of the learner table. *)
Record claims_row (u : Z) (d token : string) (cs cs' : list Claim) : Prop := {
  cr_unique : unique_on learnerKey cs → unique_on learnerKey cs';
  cr_rows : ∀ c, c ∈ cs' → c ∈ cs ∨ for_user u d c = true ∧ leaseToken c = Some token;
  cr_taken : unique_on learnerKey cs →
    ∀ u' d', count_by (taken u' d') cs' = count_by (taken u' d') cs + (if bool_decide ((u, d) = (u', d')) then 1 else 0)
}.

Lemma for_user_iff u d u' d' c : for_user u d c = true → for_user u' d' c = bool_decide ((u, d) = (u', d')).
Proof.
  intros H%for_user_spec. destruct (for_user u' d' c) eqn:E.
  - apply for_user_spec in E. symmetry. apply bool_decide_eq_true. congruence.
  - case_bool_decide; [|done]. apply for_user_spec in H. simplify_eq. congruence.
Qed.

Lemma upsert_claims_row p u ext d leaseMs now token cs cs' c :
  let ps := mkParams ext (Some u) d in
  tbl_upsert (for_user u d) (has_status released) (reclaim p ps leaseMs now token true)
    (freshClaim p ps leaseMs now token) cs = (cs', Some c) →
  claims_row u d token cs cs' ∧ leaseToken c = Some token.
Proof.
  intros ps. unfold tbl_upsert. destruct (head (tbl_select (for_user u d) cs)) as [old|] eqn:Hold.
  - apply tbl_select_head in Hold as [Hin Hq]. case_match eqn:Hrel; [|done]. intros [= <- <-].
    split; [|done]. split.
    + intros Hu. by apply unique_on_update.
    + intros c (c0 & Hc0 & ->)%elem_of_tbl_update. destruct (for_user u d c0) eqn:E; [by right|by left].
    + intros Hu u' d'. rewrite count_by_update. f_equal.
      rewrite (sum_by_ext _ (λ c, if decide (learnerKey c = learnerKey old)
                                  then if bool_decide ((u, d) = (u', d')) then 1 else 0 else 0)).
      * by rewrite (sum_by_unique learnerKey).
      * intros c Hc. pose proof Hq as Hk%for_user_spec. destruct (for_user u d c) eqn:E.
        -- pose proof E as Hk'%for_user_spec. assert (c = old) as -> by (by apply (unique_on_eq learnerKey cs); congruence).
           rewrite decide_True by done. unfold taken.
           change (for_user u' d' (reclaim p ps leaseMs now token true old)) with (for_user u' d' old).
           rewrite (for_user_iff u d) by done. rewrite Hrel. unfold has_status. simpl. by case_bool_decide.
        -- rewrite decide_False; [done|]. intros Heq. rewrite Hk in Heq. apply for_user_spec in Heq. congruence.
  - intros [= <- <-]. pose proof (λ r, tbl_select_head_None _ _ r Hold) as Hnone. split; [|done]. split.
    + intros Hu. apply unique_on_snoc; [|done]. intros c Hc Heq. specialize (Hnone c Hc).
      assert (for_user u d c = true) by (apply for_user_spec; rewrite Heq; done). congruence.
    + intros c [?| ->%list_elem_of_singleton]%elem_of_app; [by left|right]. split; [by apply for_user_spec|done].
    + intros Hu u' d'. rewrite count_by_app, count_single. f_equal. unfold taken.
      rewrite (for_user_iff u d) by (by apply for_user_spec). unfold has_status. simpl. by case_bool_decide.
Qed.

Lemma tryClaim_rows p ps leaseMs now token t t' r :
  tryClaimScheduledReport p true ps leaseMs now token t = (t', r) →
  match p_user ps, r with
  | Some u, Some c => claims_row u (p_date ps) token (learner t) (learner t') ∧ leaseToken c = Some token
  | _, _ => learner t' = learner t
  end.
Proof.
  unfold tryClaimScheduledReport. destruct ps as [ext [u|] d]; simpl.
  - unfold claimLearner. destruct (tbl_exists _ _); [by intros [= <- <-]|].
    destruct (tbl_upsert _ _ _ _ (learner t)) as [l [c|]] eqn:E; intros [= <- <-]; simpl.
    + by eapply upsert_claims_row.
    + unfold tbl_upsert in E. by repeat case_match; simplify_eq.
  - unfold claimLegacy. simpl. destruct (tbl_upsert _ _ _ _ _). by intros [= <- <-].
Qed.

(** Other workers after a claim under a token never used before. *)
Lemma worker_ok_claimed cs cs' ts u d token wk :
  claims_row u d token cs cs' → token ∉ ts → worker_ok cs ts wk → worker_ok cs' (token :: ts) wk.
Proof.
  intros [_ Hrows _] Hfresh. unfold worker_ok. destruct (wk_claim wk) as [[[u0 d0] t]|]; [|done].
  intros (Ht & Hh & Hp).
  assert (∀ c, c ∈ cs' → heldBy t c = true → c ∈ cs) as Hback.
  { intros c Hc Hheld. destruct (Hrows c Hc) as [|[_ Htok]]; [done|].
    apply heldBy_spec in Hheld as [_ Htok2]. rewrite Htok in Htok2. by injection Htok2 as ->. }
  split_and!; [by right|eauto|]. destruct (wk_phase wk); try done. destruct Hp as [? Hno].
  split; [done|]. intros c Hc. destruct (heldBy t c) eqn:E; [|done]. rewrite <- E. eauto.
Qed.

Lemma worker_ok_token cs ts token wk : worker_ok cs ts wk → worker_ok cs (token :: ts) wk.
Proof.
  unfold worker_ok. destruct (wk_claim wk) as [[[u d] t]|]; [|done]. intros (? & ? & ?). split_and!; [by right|done..].
Qed.

(** A claim that changed no learner row. *)
Lemma unclaimed_world w n wk p' t token :
  world_inv w → w_workers w !! n = Some wk → wk_claim wk = None → closed None p' → learner t = rows w →
  world_inv (setWorker n (goto wk p') (setClaims t (useToken token w))).
Proof.
  intros [Hu Ht Hw Hb] Hn Hcl Hp' Hl. split; simpl; rewrite ?Hl; try done.
  - intros c tok ??. right. by eapply Ht.
  - intros m wk' [(_ & <- & _)|[_ Hm]]%list_lookup_insert_Some.
    + unfold worker_ok, goto. simpl. rewrite Hcl. by right.
    + apply worker_ok_token. eauto.
  - intros u d. unfold balance. simpl. rewrite Hl, (count_by_insert _ _ _ wk) by done. specialize (Hb u d).
    unfold balance in Hb. change (holds_ticket u d (goto wk p')) with (holds_ticket u d wk). lia.
Qed.

(** A claim of the row of the learner [u] and the date [d], known to the worker or not. *)
Lemma claimed_world w n wk wk' u d token t :
  world_inv w → w_workers w !! n = Some wk → wk_claim wk = None → token ∉ w_tokens w →
  claims_row u d token (rows w) (learner t) →
  worker_ok (learner t) (token :: w_tokens w) wk' →
  (∀ u' d', holds_ticket u' d' wk' = true → (u', d') = (u, d)) →
  world_inv (setWorker n wk' (setClaims t (useToken token w))).
Proof.
  intros [Hu Ht Hw Hb] Hn Hcl Hfresh Hc Hok Hhold. split; simpl.
  - by apply (cr_unique _ _ _ _ _ Hc).
  - intros c tok Hin Hheld. destruct (cr_rows _ _ _ _ _ Hc c Hin) as [?|[_ Htok]]; [right; eauto|].
    apply heldBy_spec in Hheld as [_ Heq]. rewrite Htok in Heq. injection Heq as ->. by left.
  - intros m wk1 [(_ & <- & _)|[_ Hm]]%list_lookup_insert_Some; [done|].
    eapply worker_ok_claimed; eauto.
  - intros u' d'. unfold balance. simpl. rewrite (count_by_insert _ _ _ wk), (cr_taken _ _ _ _ _ Hc) by done.
    specialize (Hb u' d'). unfold balance in Hb. specialize (Hhold u' d').
    assert (holds_ticket u' d' wk = false) as -> by (unfold holds_ticket; by rewrite Hcl).
    destruct (holds_ticket u' d' wk'); [rewrite bool_decide_true by naive_solver; lia|].
    case_bool_decide; lia.
Qed.

(** A worker at a claim holds none. *)
Lemma claiming_node cs ts wk ps leaseMs k :
  worker_ok cs ts wk → wk_prog wk = TryClaim ps leaseMs k → wk_claim wk = None ∧ free (TryClaim ps leaseMs k).
Proof.
  unfold worker_ok. intros Hok Hp. rewrite Hp in Hok. destruct (wk_claim wk) as [[[u d] t]|].
  - destruct Hok as (_ & _ & Hok). destruct (wk_phase wk); simpl in Hok; naive_solver.
  - split; [done|]. by destruct Hok.
Qed.

Lemma claim_step_inv w n wk now ps leaseMs token k r :
  world_inv w → w_workers w !! n = Some wk → wk_prog wk = TryClaim ps leaseMs k →
  world_inv (execDb n now token r wk w).
Proof.
  intros Hw Hn Hp. unfold execDb. rewrite Hp. case_bool_decide as Hfresh; [done|].
  destruct (claiming_node _ _ _ ps leaseMs k (wi_workers _ Hw n wk Hn) Hp) as [Hcl Hfree].
  destruct (tryClaimScheduledReport (wk_platform wk) true ps leaseMs now token (w_claims w)) as [t' res] eqn:Hres.
  pose proof (tryClaim_rows _ _ _ _ _ _ _ _ Hres) as Hrows.
  destruct (stmt _ r (w_claims w)) as [t a] eqn:Hstmt. unfold stmt in Hstmt. rewrite Hres in Hstmt. simpl in Hstmt.
  simpl in Hfree. pose proof (Hfree a) as Ha. unfold armWith.
  destruct (p_user ps) as [u|] eqn:Hu.
  - destruct r as [|[] e]; simplify_eq.
    + destruct res as [c|]; [|by apply unclaimed_world].
      destruct Hrows as [Hrows Htok]. apply (claimed_world w n wk _ u (p_date ps) token); try done.
      * split_and!; [by left| |by apply Ha]. intros c' Hc' Hheld.
        destruct (cr_rows _ _ _ _ _ Hrows c' Hc') as [Hin|[? _]]; [|done].
        destruct Hfresh. by eapply (wi_tokens _ Hw).
      * intros u' d'. unfold holds_ticket. simpl. by intros ->%bool_decide_eq_true.
    + destruct res as [c|]; [|by apply unclaimed_world]. destruct Hrows as [Hrows _].
      apply (claimed_world w n wk _ u (p_date ps) token); try done.
      * unfold worker_ok, goto. simpl. rewrite Hcl. by right.
      * intros u' d'. unfold holds_ticket, goto. simpl. by rewrite Hcl.
    + by apply unclaimed_world.
  - apply unclaimed_world; try done. by destruct r as [|[] e]; simplify_eq.
Qed.

(** *** Steps that leave the claims alone *)

(** The world with the worker [n] replaced and the report [ds] delivered. *)
Lemma sent_world w n wk wk' ds :
  world_inv w → w_workers w !! n = Some wk → worker_ok (rows w) (w_tokens w) wk' →
  (∀ u d, count_by (deliveredTo u d) ds + (if holds_ticket u d wk' then 1 else 0)
          <= (if holds_ticket u d wk then 1 else 0)) →
  world_inv (mkWorld (w_claims w) (w_jobs w) (<[n := wk']> (w_workers w)) (ds ++ w_deliveries w)
    (w_faults w) (w_tokens w)).
Proof.
  intros [Hu Ht Hw Hb] Hn Hok Hle. split; simpl; try done.
  - intros m wk1 [(_ & <- & _)|[_ Hm]]%list_lookup_insert_Some; eauto.
  - intros u d. unfold balance. simpl. rewrite (count_by_insert _ _ _ wk), count_by_app by done.
    specialize (Hb u d). specialize (Hle u d). unfold balance in Hb. lia.
Qed.

(** A report sent without a claim, or for an account without a learner. *)
Lemma unclaimed_send_inv w n wk ps (held : option string) p' ds :
  world_inv w → w_workers w !! n = Some wk → held = None ∨ p_user ps = None →
  worker_ok (rows w) (w_tokens w) (goto wk p') →
  (∀ x, x ∈ ds → d_claimed x = bool_decide (held ≠ None) ∧ d_user x = p_user ps) →
  world_inv (mkWorld (w_claims w) (w_jobs w) (<[n := goto wk p']> (w_workers w))
    (ds ++ w_deliveries w) (w_faults w) (w_tokens w)).
Proof.
  intros Hw Hn Hheld Hok Hds. apply (sent_world w n wk); [done..|]. intros u d.
  change (holds_ticket u d (goto wk p')) with (holds_ticket u d wk).
  rewrite count_by_zero; [lia|]. intros x Hx. destruct (Hds x Hx) as [Hc Hu]. unfold deliveredTo.
  rewrite Hc, Hu. destruct Hheld as [-> | ->]; [done|]. by rewrite (bool_decide_false (@None Z = Some u)), andb_false_r.
Qed.

(** Only an armed worker sends under a learner's claim. *)
Lemma send_inv w n wk ps held key text k r :
  world_inv w → w_workers w !! n = Some wk → wk_prog wk = Send ps held key text k →
  world_inv (execSend n r wk w).
Proof.
  intros Hw Hn Hp. unfold execSend. rewrite Hp.
  pose proof (wi_workers _ Hw n wk Hn) as Hok. unfold worker_ok in Hok. rewrite Hp in Hok.
  change (match r with inl (delivered _) => true | _ => false end) with (accepted r).
  set (ds := if accepted r then [mkDelivery (p_user ps) (p_date ps) (p_external ps) (bool_decide (held ≠ None))] else []).
  assert (∀ x, x ∈ ds → d_claimed x = bool_decide (held ≠ None) ∧ d_user x = p_user ps) as Hds.
  { intros x. unfold ds. destruct (accepted r); [|by intros ?%not_elem_of_nil].
    by intros ->%list_elem_of_singleton. }
  destruct (decide (held = None ∨ p_user ps = None)) as [Hno|Hsome].
  { replace (match held with Some _ => _ | None => _ end) with (goto wk (k r))
      by (destruct Hno as [-> | ->]; [done|by destruct held]).
    apply (unclaimed_send_inv w n wk ps held); [done..| |done]. unfold worker_ok. simpl.
    destruct (wk_claim wk) as [[[u0 d0] t]|].
    - destruct Hok as (Htk & Hh & Hok). split_and!; [done..|].
      destruct (wk_phase wk); simpl in Hok; [|destruct Hok as [(t' & -> & Hm & _) _]; naive_solver|done|]; naive_solver.
    - simpl in Hok. naive_solver. }
  destruct held as [t|]; [|naive_solver]. destruct (p_user ps) as [u|] eqn:Hu; [|naive_solver].
  destruct (wk_claim wk) as [[[u0 d0] t0]|] eqn:Hcl; [|simpl in Hok; naive_solver].
  destruct Hok as (Htk & Hh & Hok).
  destruct (wk_phase wk) eqn:Hph; simpl in Hok; [naive_solver| |done|naive_solver].
  destruct Hok as [(t' & [= <-] & Hm) Hk]. apply (sent_world w n wk); try done.
  - unfold worker_ok. simpl. rewrite Hcl. split_and!; [done..|]. specialize (Hk r). by destruct (accepted r).
  - intros u' d'. rewrite (holds_ticket_of u' d' wk u0 d0 t0), Hph by done. destruct Hm as (Hu0 & Hd0 & _).
    rewrite (holds_ticket_of u' d' _ u0 d0 t0) by done. simpl. unfold ds. destruct (accepted r); simpl.
    + rewrite count_single. unfold deliveredTo. simpl. repeat case_bool_decide; simpl; try lia; congruence.
    + rewrite count_nil. case_bool_decide; lia.
Qed.

(** A statement on the outbox, or a read. *)
Lemma plain_step w n wk p' j :
  world_inv w → w_workers w !! n = Some wk → follows (wk_prog wk) p' →
  world_inv (setWorker n (goto wk p') (setJobs j w)).
Proof. intros Hw Hn Hf. apply goto_inv; [by apply setJobs_inv|done|done]. Qed.

Ltac follows_next := split_and!; simpl; naive_solver.

Lemma db_inv n wk now token r w :
  world_inv w → w_workers w !! n = Some wk → world_inv (execDb n now token r wk w).
Proof.
  intros Hw Hn. destruct (wk_prog wk) eqn:Hp; try (by unfold execDb; rewrite Hp); cycle 2;
    try (first [by eapply claim_step_inv|by eapply mark_step_inv|by eapply release_step_inv]);
    unfold execDb; rewrite Hp;
    try (destruct (stmt _ r (w_jobs w)) as [j a]); (apply plain_step || apply goto_inv); try done;
    rewrite Hp; follows_next.
Qed.

Lemma crash_inv w n wk :
  world_inv w → w_workers w !! n = Some wk →
  world_inv (setWorker n (mkWorker (wk_platform wk) Done ph_free None) w).
Proof.
  intros Hw Hn. apply (sent_world w n wk _ []); [done..|by left|]. intros u d. rewrite count_nil.
  unfold holds_ticket at 1. simpl. destruct (holds_ticket u d wk); lia.
Qed.

Lemma start_inv w p prog : world_inv w → free prog ∨ closed None prog → world_inv (start p prog w).
Proof.
  intros [Hu Ht Hw Hb] Hp. split; simpl; try done.
  - intros n wk [?|[_ Hn]]%lookup_app_Some; [by eapply Hw|].
    apply list_lookup_singleton_Some in Hn as [_ <-]. done.
  - intros u d. unfold balance. simpl. rewrite count_by_app, count_single. specialize (Hb u d).
    unfold balance in Hb. unfold holds_ticket at 2. simpl. lia.
Qed.

(** Every row the cron frees is a fault of its learner and date. *)
Lemma count_expired now olderThan u d cs j :
  count_by (faultAt u d) (expiredLearners now olderThan (mkTables j cs))
  = count_by (λ c, expired now olderThan c && for_user u d c) cs.
Proof.
  unfold expiredLearners, tbl_select. simpl. induction cs as [|c cs IH]; [done|].
  rewrite count_by_cons, filter_cons, <- IH. destruct (expired now olderThan c) eqn:E.
  - rewrite decide_True by done. simpl. unfold for_user. destruct (userId c) as [u'|] eqn:Hu; simpl.
    + rewrite count_by_cons. f_equal. unfold faultAt. repeat case_bool_decide; simpl; congruence || naive_solver.
    + by destruct (decide (@None Z = Some u)).
  - rewrite decide_False by congruence. done.
Qed.

Lemma taken_expired now now' olderThan u d cs :
  count_by (taken u d) (tbl_update (expired now olderThan) (releasedClaim now') cs)
  = count_by (taken u d) cs - count_by (λ c, expired now olderThan c && for_user u d c) cs.
Proof.
  rewrite count_by_update. unfold Z.sub. f_equal. unfold count_by. rewrite <- sum_by_opp. apply sum_by_ext. intros c _.
  unfold taken. change (for_user u d (releasedClaim now' c)) with (for_user u d c).
  destruct (expired now olderThan c) eqn:E; [|done]. unfold expired in E. apply andb_true_iff in E as [E _].
  apply bool_decide_eq_true in E. unfold has_status. rewrite E. simpl. by destruct (for_user u d c).
Qed.

Lemma expire_inv w p now olderThan : world_inv w → world_inv (exec (EReleaseExpired p now olderThan) w).
Proof.
  intros Hw. simpl.
  apply (settled_world w (expired now olderThan) (releasedClaim now) (w_workers w)
           (expiredLearners now olderThan (w_claims w) ++ w_faults w)); try done.
  - intros n wk Hn. apply worker_ok_update; [done|]. by eapply (wi_workers _ Hw).
  - intros u d. rewrite count_by_app, taken_expired.
    destruct (w_claims w) as [leg cs] eqn:E. rewrite count_expired. simpl. lia.
Qed.

Lemma reports_exec_inv e w : world_inv w → world_inv (exec e w).
Proof.
  intros Hw. destruct e; simpl exec.
  - apply start_inv; [done|]. apply claimAndSend_start; by repeat split.
  - apply start_inv; [done|]. left. apply dispatchJob_free.
  - unfold onWorker. case_match; [by apply db_inv|done].
  - unfold onWorker. destruct (w_workers w !! n) as [wk|] eqn:Hn; [|done]. destruct (wk_prog wk) eqn:Hp; try done.
    apply goto_inv; try done. rewrite Hp. follows_next.
  - unfold onWorker. destruct (w_workers w !! n) as [wk|] eqn:Hn; [|done]. destruct (wk_prog wk) eqn:Hp; try done.
    apply goto_inv; try done. rewrite Hp. follows_next.
  - unfold onWorker. destruct (w_workers w !! n) as [wk|] eqn:Hn; [|done]. destruct (wk_prog wk) eqn:Hp; try (by unfold execSend; rewrite Hp).
    by eapply send_inv.
  - unfold onWorker. case_match; [by apply crash_inv|done].
  - by apply expire_inv.
  - by apply setJobs_inv.
Qed.

Lemma reports_run_inv es w : world_inv w → world_inv (run es w).
Proof. revert w. induction es as [|e es IH]; simpl; intros w Hw; [done|]. by apply IH, reports_exec_inv. Qed.

Lemma reports_init_inv : world_inv init.
Proof. split; simpl; try done; [apply NoDup_nil_2|intros ??; by intros ?%not_elem_of_nil]. Qed.

Definition history (es : list Event) : World := run es init.

(** C8. A report is delivered under a learner's claim for a date at most once,
    plus once for every fault: whatever the workers of both platforms and the
    retry dispatcher interleave, whatever the provider, the database and the
    generator answer, and wherever workers crash, the provider reports at most one
    delivery under the claim more than there were statements recording a delivery
    of that date that threw and claims of that date released after their lease
    expired. Sends without the learner's claim (an operator's forced send, a
    learner who is not linked to a user) and sends that threw are not counted. *)
Theorem report_deliveries_bounded es u d :
  count_by (deliveredTo u d) (w_deliveries (history es))
  <= 1 + count_by (faultAt u d) (w_faults (history es)).
Proof.
  destruct (reports_run_inv es init reports_init_inv) as [Hu _ _ Hb]. fold (history es) in *.
  specialize (Hb u d). unfold balance in Hb.
  assert (count_by (taken u d) (learner (w_claims (history es))) <= 1).
  { apply (count_unique _ u d); [done|]. unfold taken. intros c H. by bool_to_prop. }
  pose proof (count_by_nonneg (holds_ticket u d) (w_workers (history es))). lia.
Qed.

(** ** The delivery record of a claim *)

(** A row keeps a delivery record only while it is sent, so a claim never returns
    one: the branch of step 3 that records a delivery of a crashed worker is dead. *)
Definition record_ok (c : Claim) : Prop := status c ≠ sent → deliveryRecord c = None.
Definition records_ok (cs : list Claim) : Prop := ∀ c, c ∈ cs → record_ok c.

Abbreviation legacyKey := (λ c : Claim, (platform c, externalUserId c, reportDate c)).

Record tables_ok (t : Tables) : Prop := {
  to_legacy : records_ok (legacy t);
  to_learner : records_ok (learner t);
  to_legacy_unique : unique_on legacyKey (legacy t);
  to_learner_unique : unique_on learnerKey (learner t)
}.

Lemma records_update q f cs :
  records_ok cs → (∀ c, c ∈ cs → q c = true → record_ok c → record_ok (f c)) → records_ok (tbl_update q f cs).
Proof.
  intros Hcs Hf c (c0 & Hc0 & ->)%elem_of_tbl_update. destruct (q c0) eqn:E; [apply Hf; auto|auto].
Qed.

(** The upsert of a claim on a table with a unique key. *)
Lemma records_upsert {K} `{EqDecision K} (key : Claim → K) q upd r cs cs' res :
  records_ok cs → unique_on key cs → (∀ c, q c = true ↔ key c = key r) →
  (∀ c, key (upd c) = key c) →
  deliveryRecord r = None → (∀ c, deliveryRecord (upd c) = deliveryRecord c) →
  tbl_upsert q (has_status released) upd r cs = (cs', res) →
  records_ok cs' ∧ unique_on key cs' ∧ ∀ c, res = Some c → deliveryRecord c = None.
Proof.
  intros Hcs Hu Hq Hkey Hr Hupd. unfold tbl_upsert. destruct (head _) as [old|] eqn:Hh.
  - apply tbl_select_head in Hh as [Hin Hold]. case_match eqn:Hrel; intros [= <- <-]; [|done].
    apply bool_decide_eq_true in Hrel. assert (deliveryRecord old = None) as Hnone by (apply Hcs; [done|by rewrite Hrel]).
    split_and!.
    + apply records_update; [done|]. intros c Hc Hqc _ _. rewrite Hupd.
      apply Hq in Hqc, Hold. by rewrite (unique_on_eq key cs c old) by congruence.
    + by apply unique_on_update.
    + intros c [= <-]. by rewrite Hupd.
  - intros [= <- <-]. pose proof (λ c, tbl_select_head_None _ _ c Hh) as Hno. split_and!.
    + intros c [?| ->%list_elem_of_singleton]%elem_of_app; [auto|by intros _].
    + apply unique_on_snoc; [|done]. intros c Hc Heq%Hq. specialize (Hno c Hc). congruence.
    + by intros c [= <-].
Qed.

Lemma claimLegacy_record p ps leaseMs now token t t' res :
  tables_ok t → claimLegacy p ps leaseMs now token t = (t', res) →
  tables_ok t' ∧ ∀ c, res = Some c → deliveryRecord c = None.
Proof.
  intros Ht. pose proof Ht as [Hl Hr Hul Hur]. unfold claimLegacy. cbv zeta.
  lazymatch goal with |- context [if ?b then (t, None) else _] => destruct b; [by intros [= <- <-]|] end.
  destruct (tbl_upsert _ _ _ _ _) as [l r] eqn:E. intros [= <- <-].
  apply (records_upsert legacyKey) in E as (? & ? & ?); try done. intros c. unfold for_account. simpl.
  rewrite !andb_true_iff, !bool_decide_eq_true. split; [by intros [[-> ->] ->]|by intros [= -> -> ->]].
Qed.

Lemma tryClaim_record p ps leaseMs now token t t' res :
  tables_ok t → tryClaimScheduledReport p true ps leaseMs now token t = (t', res) →
  tables_ok t' ∧ ∀ c, res = Some c → deliveryRecord c = None.
Proof.
  intros Ht. pose proof Ht as [Hl Hr Hul Hur]. unfold tryClaimScheduledReport.
  destruct (p_user ps) as [u|] eqn:Hu; [|by apply claimLegacy_record].
  unfold claimLearner. destruct (tbl_exists _ _); [by intros [= <- <-]|].
  destruct (tbl_upsert _ _ _ _ _) as [l r] eqn:E. intros [= <- <-].
  apply (records_upsert learnerKey) in E as (? & ? & ?); try done. intros c. rewrite for_user_spec. simpl.
  by rewrite Hu.
Qed.

Lemma tables_settle p ps token f t :
  tables_ok t → (∀ c, status c = claimed → record_ok c → record_ok (f c)) →
  (∀ c, legacyKey (f c) = legacyKey c) → (∀ c, learnerKey (f c) = learnerKey c) →
  tables_ok (settleClaim p true ps token f t).1.
Proof.
  intros Ht Hf Hk1 Hk2. pose proof Ht as [Hl Hr Hul Hur].
  assert (∀ q, (∀ c, q c = true → heldBy token c = true) → ∀ cs, records_ok cs → records_ok (tbl_update q f cs)) as Hup.
  { intros q Hq cs Hcs. apply records_update; [done|]. intros c _ [Hc _]%Hq%heldBy_spec. auto. }
  unfold settleClaim. destruct (p_user ps) as [u|] eqn:Hu; [destruct (_ && _)|]; split; simpl; try done;
    try (by apply unique_on_update); apply Hup; try done; unfold heldLearner, heldLegacy; intros c ?; by bool_to_prop.
Qed.

Lemma tables_expire p now olderThan t :
  tables_ok t → tables_ok (releaseExpiredScheduledReportClaims p true now olderThan t).1.
Proof.
  intros [Hl Hr Hul Hur]. unfold releaseExpiredScheduledReportClaims. split; simpl; try (by apply unique_on_update);
    (apply records_update; [done|]); intros c _ Hq Hc _; apply Hc; unfold expired, has_status in Hq; bool_to_prop;
    congruence.
Qed.

Lemma released_record now c : status c = claimed → record_ok c → record_ok (releasedClaim now c).
Proof. intros Hst Hc _. apply Hc. by rewrite Hst. Qed.

Lemma tables_stmt {A} (op : Tables → Tables * A) r t t' a :
  tables_ok t → (∀ t, tables_ok t → tables_ok (op t).1) → stmt op r t = (t', a) → tables_ok t'.
Proof. intros Ht Hop. unfold stmt. destruct r as [|[] e]; intros [= <- <-]; auto. Qed.

Lemma exec_tables e w : tables_ok (w_claims w) → tables_ok (w_claims (exec e w)).
Proof.
  intros Hw. destruct e; try done; simpl;
    try (unfold onWorker; destruct (w_workers w !! n) as [wk|]; [|done]; try by destruct (wk_prog wk)).
  - unfold execDb. destruct (wk_prog wk) as [| |ps ms k|ps tk rec key o k|ps tk k| | | | | | | | | |]; simpl; try done.
    + case_bool_decide; [done|]. destruct (stmt _ r _) as [t a] eqn:E. simpl. eapply tables_stmt; [done| |exact E].
      intros t0 Ht0. destruct (tryClaimScheduledReport _ _ _ _ _ _ t0) eqn:Et. by eapply tryClaim_record in Et as [? _].
    + destruct (stmt _ r _) as [t a] eqn:E. simpl. eapply tables_stmt; [done| |exact E].
      intros t0 Ht0. apply tables_settle; try done. intros c0 _ _ Hne. by destruct Hne.
    + destruct (stmt _ r _) as [t a] eqn:E. simpl. eapply tables_stmt; [done| |exact E].
      intros t0 Ht0. apply tables_settle; try done. by apply released_record.
    + by destruct (stmt _ r _).
    + by destruct (stmt _ r _).
    + by destruct (stmt _ r _).
    + by destruct (stmt _ r _).
    + by destruct (stmt _ r _).
  - unfold execSend. by destruct (wk_prog wk).
  - by apply tables_expire.
Qed.

(** No claim ever returns a delivery record. *)
Theorem claim_returns_no_record es p ps leaseMs now token c :
  (tryClaimScheduledReport p true ps leaseMs now token (w_claims (history es))).2 = Some c →
  deliveryRecord c = None.
Proof.
  assert (∀ w, tables_ok (w_claims w) → tables_ok (w_claims (run es w))) as Hrun.
  { induction es as [|e es' IH]; simpl; [done|]. intros w Hw. by apply IH, exec_tables. }
  destruct (tryClaimScheduledReport _ _ _ _ _ _ _) as [t r] eqn:E. simpl.
  apply tryClaim_record in E as [_ Hres]; [apply Hres|]. apply Hrun.
  split; simpl; try (by intros ? ?%not_elem_of_nil); apply NoDup_nil_2.
Qed.

(** ** A delivery that could not be recorded is sent again *)

Definition exampleSettings : Settings := mkSettings 3 30 60000.
Definition exampleMapping : Mapping := mkMapping "discord" "u1" (Some 7).
Definition exampleOptions : Options := mkOptions "2026-01-05" true "report" None false false false.
Definition exampleClassify (e : string) : ClassifiedError := mkClassified k_failure e None.
Definition attempt (n : nat) (token : string) (mark : DbAnswer) : list Event :=
  [EStart "discord" exampleSettings 0 false exampleClassify exampleMapping exampleOptions;
   EDb n 0 "" db_ok; EDb n 0 "" db_ok; EDb n 0 token db_ok;
   ESend n (inl (delivered None)); EDb n 0 "" mark; EDb n 0 "" db_ok].

Theorem unrecorded_delivery_resent :
  length (w_deliveries (history (attempt 0 "t1" (db_threw false "timeout") ++ attempt 1 "t2" db_ok))) = 2%nat.
Proof. vm_compute. reflexivity. Qed.

Theorem recorded_delivery_not_resent :
  length (w_deliveries (history (attempt 0 "t1" db_ok ++ attempt 1 "t2" db_ok))) = 1%nat.
Proof. vm_compute. reflexivity. Qed.

End Reports.
