(* ===== verification/AccountLinks.v ===== *)
(** * Account links (packages/database, packages/account-link-core, the Discord and Zalo adapters)

    The mapping tables discord_account_links and zalo_account_links with the audit
    table platform_link_audit_events, and every transaction that writes a mapping:
    platform-link-state.service.ts, [upsertLink] of
    typeorm-discord-account-link.repository.ts (zalo-account-link.service.ts is the
    same text on its own table), and the mapping parts of unlink and delete of
    privacy-data.service.ts.  A transaction is one step: it holds the advisory lock
    of the account.  Generations are the integers behind the decimal strings; the
    stored reasons are not truncated. *)

From S2P Require Import Prelude Table ReminderJobs ReportClaims.

Module Links.

Abbreviation LinkState := RJobs.LinkState.

(** ** Tables *)

Record Link := mkLink {
  l_id : Z;
  l_platform : string;
  l_ext : string;
  l_user : Z;
  l_linkedAt : Z;
  l_updatedAt : Z;
  l_state : LinkState;
  l_generation : Z;
  l_lastVerifiedAt : option Z;
  l_lastUnknownAt : option Z;
  l_revokedAt : option Z;
  l_reason : option string;
  l_version : option string;
  l_promptSentAt : option Z;
  l_noticeSentAt : option Z
}.

Inductive AuditEventType := ev_revoked | ev_unknown | ev_recovered | ev_stale_writer | ev_locally_unlinked.

#[global] Instance AuditEventType_eq_dec : EqDecision AuditEventType.
Proof. solve_decision. Defined.

Record Audit := mkAudit {
  a_platform : string;
  a_hash : string;
  a_generation : option Z;
  a_type : AuditEventType;
  a_reason : option string;
  a_version : option string;
  a_createdAt : Z
}.

(** What a learner's link looked like when its token was verified. *)
Inductive MappingObservation := absent (g : option Z) | present (g : Z).

#[global] Instance MappingObservation_eq_dec : EqDecision MappingObservation.
Proof. solve_decision. Defined.

Record Intent := mkIntent {
  v_platform : string;
  v_ext : string;
  v_user : Z;
  v_verifiedAt : Z;
  v_generation : Z;
  v_observation : MappingObservation
}.

(** A row of a learner's data in the tables of [PrivacyScopedEntities] that are
    only ever erased here: the columns the erasure reads. *)
Inductive ScopedTable :=
| learnerProfile | chatDailyUsage | llmUsageEvent | chatIdempotency | webActivity
| notificationPreference | rescheduleConfirmationAttempt.

#[global] Instance ScopedTable_eq_dec : EqDecision ScopedTable.
Proof. solve_decision. Defined.

Record Scoped := mkScoped {
  s_table : ScopedTable;
  s_platform : option string;
  s_ext : option string;
  s_user : option Z
}.

(** [audits] and [links] are in the order of their ids. *)
Record Store := mkStore {
  links : list Link;
  nextLinkId : Z;
  audits : list Audit;
  intents : list Intent;
  reminders : RJobs.Db;
  reportJobs : SendJobs.Db;
  claims : Claims.Tables;
  scoped : list Scoped
}.

Definition setLinks (ls : list Link) (st : Store) : Store :=
  mkStore ls (nextLinkId st) (audits st) (intents st) (reminders st) (reportJobs st) (claims st) (scoped st).
Definition setAudits (a : list Audit) (st : Store) : Store :=
  mkStore (links st) (nextLinkId st) a (intents st) (reminders st) (reportJobs st) (claims st) (scoped st).
Definition setIntents (i : list Intent) (st : Store) : Store :=
  mkStore (links st) (nextLinkId st) (audits st) i (reminders st) (reportJobs st) (claims st) (scoped st).
Definition setReminders (r : RJobs.Db) (st : Store) : Store :=
  mkStore (links st) (nextLinkId st) (audits st) (intents st) r (reportJobs st) (claims st) (scoped st).
Definition setReportJobs (r : SendJobs.Db) (st : Store) : Store :=
  mkStore (links st) (nextLinkId st) (audits st) (intents st) (reminders st) r (claims st) (scoped st).
Definition setClaims (c : Claims.Tables) (st : Store) : Store :=
  mkStore (links st) (nextLinkId st) (audits st) (intents st) (reminders st) (reportJobs st) c (scoped st).
Definition setScoped (s : list Scoped) (st : Store) : Store :=
  mkStore (links st) (nextLinkId st) (audits st) (intents st) (reminders st) (reportJobs st) (claims st) s.

Definition keyed (p ext : string) (l : Link) : bool :=
  bool_decide (l_platform l = p) && bool_decide (l_ext l = ext).

Definition rowOf (p ext : string) (st : Store) : option Link := last (tbl_select (keyed p ext) (links st)).

(** The hash of the audit table (SHA-256) and the locale's order of strings. *)
Class Runtime := { hash : string → string; localeLe : string → string → bool }.

Section Service.
Context `{Runtime}.

(** ** Tombstones *)

(** ORDER BY created_at DESC, id DESC LIMIT 1. *)
Fixpoint latest (l : list Audit) : option Audit :=
  match l with
  | [] => None
  | a :: l' => match latest l' with
               | Some b => if a_createdAt b <? a_createdAt a then Some a else Some b
               | None => Some a
               end
  end.

Definition isTombstone (p ext : string) (a : Audit) : bool :=
  bool_decide (a_platform a = p) && bool_decide (a_hash a = hash ext)
  && bool_decide (a_type a = ev_locally_unlinked).

Definition tombstone (p ext : string) (st : Store) : option Audit :=
  latest (tbl_select (isTombstone p ext) (audits st)).

Definition tombstoneGeneration (p ext : string) (st : Store) : option Z := tombstone p ext st ≫= a_generation.

Definition nextMappingGenerationAfterTombstone (p ext : string) (st : Store) : Z :=
  match tombstoneGeneration p ext st with Some g => g + 1 | None => 1 end.

Definition currentLocalUnlinkGeneration (p ext : string) (st : Store) : Z :=
  match tombstoneGeneration p ext st with Some g => g | None => 1 end.

Definition writeAudit (now : Z) (p ext : string) (g : option Z) (t : AuditEventType)
    (reason version : option string) (st : Store) : Store :=
  setAudits (audits st ++ [mkAudit p (hash ext) g t reason version now]) st.

Definition writeLocalUnlinkAudit (now : Z) (p ext : string) (g : option Z) : Store → Store :=
  writeAudit now p ext (Some (default 1 g)) ev_locally_unlinked (Some "privacy_unlink") None.

(** ** Reads *)

Record PlatformLinkRow := mkRow {
  r_id : Z + string;
  r_ext : string;
  r_user : option Z;
  r_state : LinkState;
  r_generation : Z;
  r_version : option string;
  r_lastVerifiedAt : option Z;
  r_revokedAt : option Z
}.

Definition toRow (l : Link) : PlatformLinkRow := {|
  r_id := inl (l_id l); r_ext := l_ext l; r_user := Some (l_user l); r_state := l_state l;
  r_generation := l_generation l; r_version := l_version l; r_lastVerifiedAt := l_lastVerifiedAt l;
  r_revokedAt := l_revokedAt l |}.

Definition getLink (p ext : string) (st : Store) : option PlatformLinkRow :=
  match rowOf p ext st with
  | Some l => Some (toRow l)
  | None =>
      (λ t, {| r_id := inr ("tombstone:" +:+ hash ext); r_ext := ext; r_user := None;
               r_state := RJobs.ls_unlinked; r_generation := default 1 (a_generation t); r_version := None;
               r_lastVerifiedAt := None; r_revokedAt := Some (a_createdAt t) |}) <$> tombstone p ext st
  end.

(** The adapters typeorm-link-state-observation.adapter.ts and zalo-link-state.adapter.ts. *)
Definition getMappingObservation (p ext : string) (st : Store) : MappingObservation :=
  match getLink p ext st with
  | None => absent None
  | Some r =>
      if bool_decide (r_state r = RJobs.ls_unlinked) && bool_decide (r_user r = None)
      then absent (Some (r_generation r)) else present (r_generation r)
  end.

Definition listLinks (p : string) (afterId : option Z) (limit : Z) (st : Store) : list PlatformLinkRow :=
  map toRow (take (Z.to_nat (Z.max 1 (Z.min limit 500)))
    (tbl_select (λ l, bool_decide (l_platform l = p) && (default 0 afterId <? l_id l)) (links st))).

(** [findOne] with [select: { userId: true }]: the state is not loaded, so the test
    of the state is of an undefined field. *)
Definition findUserId (p ext : string) (st : Store) : option Z := l_user <$> rowOf p ext st.

Definition findMappingState (p ext : string) (st : Store) : LinkState * option Z :=
  match rowOf p ext st with Some l => (l_state l, Some (l_user l)) | None => (RJobs.ls_unlinked, None) end.

(** [mappingVersion] is the triple it prints. *)
Definition findCurrentIdentity (p ext : string) (st : Store) : option (Z * (Z * Z * Z)) :=
  match rowOf p ext st with
  | Some l => if bool_decide (l_state l = RJobs.ls_active)
              then Some (l_user l, (l_id l, l_linkedAt l, l_generation l)) else None
  | None => None
  end.

(** [findDiscordIdByUserId], which does load the state. *)
Definition findExternalIdByUserId (p : string) (user : Z) (st : Store) : option string :=
  match last (tbl_select (λ l, bool_decide (l_platform l = p) && (l_user l =? user)) (links st)) with
  | Some l => if bool_decide (l_state l = RJobs.ls_active) then Some (l_ext l) else None
  | None => None
  end.

(** ** Work that depends on a link *)

Definition isWork (s : RJobs.JobStatus) : bool := bool_decide (s ∈ [RJobs.pending; RJobs.processing; RJobs.failed]).

Definition cancelReminder (now : Z) (reason : string) (j : RJobs.Job) : RJobs.Job :=
  {| RJobs.id := RJobs.id j; RJobs.platform := RJobs.platform j; RJobs.externalUserId := RJobs.externalUserId j;
     RJobs.userId := RJobs.userId j; RJobs.mappingGeneration := RJobs.mappingGeneration j;
     RJobs.sessionKey := RJobs.sessionKey j; RJobs.scheduledAt := RJobs.scheduledAt j;
     RJobs.remindAt := RJobs.remindAt j; RJobs.topic := RJobs.topic j; RJobs.status := RJobs.cancelled;
     RJobs.retryCount := RJobs.retryCount j; RJobs.maxRetries := RJobs.maxRetries j;
     RJobs.nextRetryAt := RJobs.nextRetryAt j; RJobs.lastError := Some reason; RJobs.sentAt := RJobs.sentAt j;
     RJobs.leaseToken := None; RJobs.leaseExpiresAt := None; RJobs.deliveryRecord := RJobs.deliveryRecord j;
     RJobs.deliveryKey := RJobs.deliveryKey j; RJobs.deliveryStatus := RJobs.deliveryStatus j;
     RJobs.processingStartedAt := RJobs.processingStartedAt j; RJobs.updatedAt := now; RJobs.epoch := RJobs.epoch j |}.

Definition cancelReportJob (now : Z) (reason : string) (j : SendJobs.Job) : SendJobs.Job :=
  {| SendJobs.id := SendJobs.id j; SendJobs.platform := SendJobs.platform j;
     SendJobs.externalUserId := SendJobs.externalUserId j; SendJobs.userId := SendJobs.userId j;
     SendJobs.examDate := SendJobs.examDate j; SendJobs.firstAttemptDate := SendJobs.firstAttemptDate j;
     SendJobs.status := SendJobs.cancelled; SendJobs.retryCount := SendJobs.retryCount j;
     SendJobs.maxRetries := SendJobs.maxRetries j; SendJobs.nextRetryAt := SendJobs.nextRetryAt j;
     SendJobs.lastError := Some reason; SendJobs.retryCause := SendJobs.retryCause j;
     SendJobs.sentAt := SendJobs.sentAt j; SendJobs.leaseToken := None; SendJobs.leaseExpiresAt := None;
     SendJobs.updatedAt := now |}.

Definition cancelClaim (now : Z) (c : Claims.Claim) : Claims.Claim :=
  {| Claims.platform := Claims.platform c; Claims.externalUserId := Claims.externalUserId c;
     Claims.reportDate := Claims.reportDate c; Claims.userId := Claims.userId c;
     Claims.status := Claims.cancelled; Claims.leaseToken := None; Claims.leaseExpiresAt := None;
     Claims.deliveryRecord := Claims.deliveryRecord c; Claims.deliveryKey := Claims.deliveryKey c;
     Claims.deliveryStatus := Claims.deliveryStatus c; Claims.updatedAt := now |}.

Definition reminderOf (p ext : string) (j : RJobs.Job) : bool :=
  bool_decide (RJobs.platform j = p) && bool_decide (RJobs.externalUserId j = ext).
Definition reportJobOf (p ext : string) (j : SendJobs.Job) : bool :=
  bool_decide (SendJobs.platform j = p) && bool_decide (SendJobs.externalUserId j = ext).
Definition claimOf (p ext : string) (c : Claims.Claim) : bool :=
  bool_decide (Claims.platform c = p) && bool_decide (Claims.externalUserId c = ext).

(** The three statements of [suspendPendingWork] and of [cancelLocalUnlinkWork]. *)
Definition suspendWork (now : Z) (p ext reason : string) (st : Store) : Store :=
  let rem := RJobs.mkDb (tbl_update (λ j, reminderOf p ext j && isWork (RJobs.status j))
                           (cancelReminder now reason) (RJobs.jobs (reminders st))) (RJobs.nextId (reminders st)) in
  let rep := SendJobs.mkDb (tbl_update (λ j, reportJobOf p ext j
                              && bool_decide (SendJobs.status j ∈ [SendJobs.pending; SendJobs.processing; SendJobs.failed]))
                              (cancelReportJob now reason) (SendJobs.jobs (reportJobs st)))
               (SendJobs.nextId (reportJobs st)) in
  let leg := tbl_update (λ c, claimOf p ext c && Claims.has_status Claims.claimed c) (cancelClaim now)
               (Claims.legacy (claims st)) in
  setClaims (Claims.mkTables leg (Claims.learner (claims st))) (setReportJobs rep (setReminders rem st)).

Definition cancelForOwnershipChange (now : Z) (p ext : string) (g : option Z) (reason : string) (st : Store) : Store :=
  setReminders (RJobs.cancelStudyReminderJobsForOwnershipChange now p ext g reason (reminders st)).1 st.

Definition deleteProfiles (p ext : string) (st : Store) : Store :=
  setScoped (tbl_delete (λ r, bool_decide (s_table r = learnerProfile) && bool_decide (s_platform r = Some p)
                              && bool_decide (s_ext r = Some ext)) (scoped st)) st.

Definition deleteVerifyIntent (p ext : string) (st : Store) : Store :=
  setIntents (tbl_delete (λ v, bool_decide (v_platform v = p) && bool_decide (v_ext v = ext)) (intents st)) st.

(** ** Observations of the upstream link *)

Inductive Observation :=
| seen_active (user : Z) (version : option string)
| seen_revoked (reason : string) (version : option string)
| seen_unknown (reason : string).

Inductive TransitionOutcome := t_active | t_recovered | t_revoked | t_unknown | t_stale_writer | t_locally_unlinked.

#[global] Instance TransitionOutcome_eq_dec : EqDecision TransitionOutcome.
Proof. solve_decision. Defined.

Record Transition := mkTransition {
  t_outcome : TransitionOutcome; t_generation : option Z; t_user : option Z; t_changed : option bool
}.

Definition by_id (l : Link) (m : Link) : bool :=
  (l_id m =? l_id l) && bool_decide (l_platform m = l_platform l).

Definition updateRow (l : Link) (f : Link → Link) (st : Store) : Store :=
  setLinks (tbl_update (by_id l) f (links st)) st.

Definition revokedRow (now generation : Z) (reason : string) (version : option string) (l : Link) : Link := {|
  l_id := l_id l; l_platform := l_platform l; l_ext := l_ext l; l_user := l_user l;
  l_linkedAt := l_linkedAt l; l_updatedAt := now; l_state := RJobs.ls_revoked; l_generation := generation;
  l_lastVerifiedAt := l_lastVerifiedAt l; l_lastUnknownAt := l_lastUnknownAt l; l_revokedAt := Some now;
  l_reason := Some reason; l_version := version; l_promptSentAt := l_promptSentAt l;
  l_noticeSentAt := l_noticeSentAt l |}.

Definition verifiedRow (now : Z) (version : option string) (l : Link) : Link := {|
  l_id := l_id l; l_platform := l_platform l; l_ext := l_ext l; l_user := l_user l;
  l_linkedAt := l_linkedAt l; l_updatedAt := now; l_state := RJobs.ls_active; l_generation := l_generation l;
  l_lastVerifiedAt := Some now; l_lastUnknownAt := None; l_revokedAt := None; l_reason := None;
  l_version := version; l_promptSentAt := l_promptSentAt l; l_noticeSentAt := l_noticeSentAt l |}.

Definition unknownRow (now : Z) (l : Link) : Link := {|
  l_id := l_id l; l_platform := l_platform l; l_ext := l_ext l; l_user := l_user l;
  l_linkedAt := l_linkedAt l; l_updatedAt := now; l_state := RJobs.ls_unknown; l_generation := l_generation l;
  l_lastVerifiedAt := l_lastVerifiedAt l; l_lastUnknownAt := Some now; l_revokedAt := l_revokedAt l;
  l_reason := l_reason l; l_version := l_version l; l_promptSentAt := l_promptSentAt l;
  l_noticeSentAt := l_noticeSentAt l |}.

Definition revoke (now : Z) (current : Link) (reason : string) (version : option string) (st : Store)
  : Store * Transition :=
  let p := l_platform current in
  let ext := l_ext current in
  let g := l_generation current + 1 in
  let st := updateRow current (revokedRow now g reason version) st in
  let st := suspendWork now p ext "link_revoked" st in
  let st := deleteProfiles p ext st in
  let st := writeAudit now p ext (Some g) ev_revoked (Some reason) version st in
  (st, mkTransition t_revoked (Some g) (Some (l_user current)) None).

Definition transitionOf (o : TransitionOutcome) (l : Link) (changed : option bool) : Transition :=
  mkTransition o (Some (l_generation l)) (Some (l_user l)) changed.

Definition versionOf (o : Observation) : option string :=
  match o with seen_active _ v | seen_revoked _ v => v | seen_unknown _ => None end.

Definition applyObservation (now : Z) (p ext : string) (o : Observation) (expected : option Z) (st : Store)
  : Store * Transition :=
  match rowOf p ext st with
  | None => (st, mkTransition t_locally_unlinked None None None)
  | Some current =>
      let g := l_generation current in
      let isState s := bool_decide (l_state current = s) in
      if match expected with Some e => negb (g =? e) | None => false end then
        (writeAudit now p ext (Some g) ev_stale_writer
           (Some "mapping_generation_changed_during_status_check") (versionOf o) st,
         transitionOf t_stale_writer current None)
      else if isState RJobs.ls_unlinked then (st, transitionOf t_locally_unlinked current (Some false))
      else match o with
           | seen_active user version =>
               if negb (user =? l_user current) then revoke now current "upstream_user_mismatch" version st
               else if isState RJobs.ls_revoked then
                 (writeAudit now p ext (Some g) ev_stale_writer
                    (Some "active_observation_cannot_resurrect_revoked_mapping") version st,
                  transitionOf t_stale_writer current None)
               else
                 let st := updateRow current (verifiedRow now version) st in
                 if isState RJobs.ls_unknown then
                   (writeAudit now p ext (Some g) ev_recovered None version st, transitionOf t_recovered current None)
                 else (st, transitionOf t_active current None)
           | seen_unknown reason =>
               if isState RJobs.ls_revoked then (st, transitionOf t_revoked current (Some false))
               else
                 let st := updateRow current (unknownRow now) st in
                 let known := negb (isState RJobs.ls_unknown) in
                 ((if known then writeAudit now p ext (Some g) ev_unknown (Some reason) None st else st),
                  transitionOf t_unknown current (Some known))
           | seen_revoked reason version =>
               if isState RJobs.ls_revoked then (st, transitionOf t_revoked current (Some false))
               else revoke now current reason version st
           end
  end.

(** ** Linking *)

Record LinkUpsertResult := mkUpsert {
  relinked : bool; previousUserId : option Z; mappingGeneration : option Z; displacedExternalUserIds : list string
}.

(** [uniqueViolation] is what the index on platform and user id would raise. *)
Inductive UpsertOutcome := linked (r : LinkUpsertResult) | ownershipConflict | uniqueViolation.

Definition newLink (id now : Z) (p ext : string) (user g : Z) : Link := {|
  l_id := id; l_platform := p; l_ext := ext; l_user := user; l_linkedAt := now; l_updatedAt := now;
  l_state := RJobs.ls_active; l_generation := g; l_lastVerifiedAt := None; l_lastUnknownAt := None;
  l_revokedAt := None; l_reason := None; l_version := None; l_promptSentAt := None; l_noticeSentAt := None |}.

Definition relinkedRow (now user : Z) (l : Link) : Link := {|
  l_id := l_id l; l_platform := l_platform l; l_ext := l_ext l; l_user := user; l_linkedAt := now;
  l_updatedAt := now; l_state := RJobs.ls_active;
  l_generation := if negb (bool_decide (l_state l = RJobs.ls_active)) || negb (l_user l =? user)
                  then l_generation l + 1 else l_generation l;
  l_lastVerifiedAt := l_lastVerifiedAt l; l_lastUnknownAt := l_lastUnknownAt l; l_revokedAt := None;
  l_reason := None; l_version := l_version l; l_promptSentAt := l_promptSentAt l;
  l_noticeSentAt := l_noticeSentAt l |}.

Definition displaces (p : string) (user : Z) (ext : string) (l : Link) : bool :=
  bool_decide (l_platform l = p) && (l_user l =? user) && negb (bool_decide (l_ext l = ext)).

(** The statement [INSERT ... ON CONFLICT (platform, external_user_id) DO UPDATE]:
    [None] when the index on the user id is violated, the rows it returns otherwise. *)
Definition insertLink (now : Z) (p ext : string) (user : Z) (o : MappingObservation) (g : Z) (st : Store)
  : option (Store * option Link) :=
  let taken := displaces p user ext in
  match rowOf p ext st with
  | None =>
      if tbl_exists taken (links st) then None
      else let l := newLink (nextLinkId st) now p ext user g in
           Some (mkStore (links st ++ [l]) (nextLinkId st + 1) (audits st) (intents st) (reminders st)
                   (reportJobs st) (claims st) (scoped st), Some l)
  | Some old =>
      if match o with absent _ => true | present e => negb (l_generation old =? e) end then Some (st, None)
      else if tbl_exists taken (links st) then None
      else Some (setLinks (tbl_update (keyed p ext) (relinkedRow now user) (links st)) st,
                 Some (relinkedRow now user old))
  end.

Definition observedConflict (p ext : string) (existing : option Link) (o : MappingObservation) (st : Store) : bool :=
  match o, existing with
  | present g, Some l => negb (l_generation l =? g)
  | present _, None => true
  | absent _, Some _ => true
  | absent g, None =>
      let previous := nextMappingGenerationAfterTombstone p ext st - 1 in
      match g with Some g => negb (previous =? g) | None => 0 <? previous end
  end.

Definition upsertLink (now : Z) (p : string) (user : Z) (ext : string) (o : MappingObservation) (st : Store)
  : Store * UpsertOutcome :=
  let existing := rowOf p ext st in
  let committed := match existing with
                   | Some l => (l_user l =? user) && bool_decide (l_state l = RJobs.ls_active)
                   | None => false
                   end in
  if committed then (st, linked (mkUpsert false None None []))
  else if observedConflict p ext existing o st then (st, ownershipConflict)
  else
    let previous := match existing with
                    | Some l => if l_user l =? user then None else Some (l_user l)
                    | None => None
                    end in
    let g := match existing with Some _ => 1 | None => nextMappingGenerationAfterTombstone p ext st end in
    let displaced := l_ext <$> tbl_select (displaces p user ext) (links st) in
    let st1 := setLinks (tbl_delete (displaces p user ext) (links st)) st in
    let st2 := foldl (λ st e, cancelForOwnershipChange now p e None "mapping_ownership_changed" st) st1 displaced in
    match insertLink now p ext user o g st2 with
    | None => (st, uniqueViolation)
    | Some (_, None) => (st, ownershipConflict)
    | Some (st3, Some l) =>
        (cancelForOwnershipChange now p ext (Some (l_generation l)) "mapping_ownership_changed" st3,
         linked (mkUpsert (bool_decide (previous ≠ None)) previous (Some (l_generation l)) displaced))
    end.

(** ** Consent prompts *)

Definition setPrompt (now : Z) (sentAt : option Z) (l : Link) : Link := {|
  l_id := l_id l; l_platform := l_platform l; l_ext := l_ext l; l_user := l_user l;
  l_linkedAt := l_linkedAt l; l_updatedAt := now; l_state := l_state l; l_generation := l_generation l;
  l_lastVerifiedAt := l_lastVerifiedAt l; l_lastUnknownAt := l_lastUnknownAt l; l_revokedAt := l_revokedAt l;
  l_reason := l_reason l; l_version := l_version l; l_promptSentAt := sentAt;
  l_noticeSentAt := l_noticeSentAt l |}.

Definition claimConsentPrompt (now : Z) (p ext : string) (st : Store) : Store * bool :=
  let due l := keyed p ext l && bool_decide (l_promptSentAt l = None) in
  (setLinks (tbl_update due (setPrompt now (Some now)) (links st)) st, tbl_exists due (links st)).

Definition releaseConsentPrompt (p ext : string) (st : Store) : Store :=
  setLinks (tbl_update (keyed p ext) (λ l, setPrompt (l_updatedAt l) None l) (links st)) st.

Definition markOptOutNoticeSent (now : Z) (p ext : string) (st : Store) : Store :=
  setLinks (tbl_update (keyed p ext) (λ l, {|
    l_id := l_id l; l_platform := l_platform l; l_ext := l_ext l; l_user := l_user l;
    l_linkedAt := l_linkedAt l; l_updatedAt := l_updatedAt l; l_state := l_state l;
    l_generation := l_generation l; l_lastVerifiedAt := l_lastVerifiedAt l;
    l_lastUnknownAt := l_lastUnknownAt l; l_revokedAt := l_revokedAt l; l_reason := l_reason l;
    l_version := l_version l; l_promptSentAt := l_promptSentAt l; l_noticeSentAt := Some now |}) (links st)) st.

(** ** Privacy: the transactions of unlink and delete *)

Record ExpectedMapping := mkExpected { e_exists : bool; e_user : option Z; e_generation : option Z }.

Definition mappingMatchesExpected (m : option Link) (e : ExpectedMapping) : bool :=
  match m with
  | None => negb (e_exists e)
  | Some l => e_exists e && bool_decide (e_user e = Some (l_user l))
              && (l_generation l =? default 1 (e_generation e))
  end.

Definition mismatch (m : option Link) (e : option ExpectedMapping) : bool :=
  match e with Some e => negb (mappingMatchesExpected m e) | None => false end.

Definition isTerminal (s : LinkState) : bool := bool_decide (s = RJobs.ls_unlinked) || bool_decide (s = RJobs.ls_revoked).

Definition unlinkedRow (now g : Z) (l : Link) : Link := {|
  l_id := l_id l; l_platform := l_platform l; l_ext := l_ext l; l_user := l_user l;
  l_linkedAt := l_linkedAt l; l_updatedAt := now; l_state := RJobs.ls_unlinked; l_generation := g;
  l_lastVerifiedAt := l_lastVerifiedAt l; l_lastUnknownAt := l_lastUnknownAt l; l_revokedAt := Some now;
  l_reason := Some "privacy_unlink"; l_version := l_version l; l_promptSentAt := l_promptSentAt l;
  l_noticeSentAt := l_noticeSentAt l |}.

(** What the transaction leaves to its caller: whether it unlinked (or deleted), the
    learner, and the generation that its cleanup jobs carry; [None] on a conflict. *)
Record PrivacyOutcome := mkOutcome { p_done : bool; p_user : option Z; p_generation : Z }.

Definition unlinkTx (now : Z) (p ext : string) (expected : option ExpectedMapping) (st : Store)
  : Store * option PrivacyOutcome :=
  let mapping := rowOf p ext st in
  if mismatch mapping expected then (st, None)
  else match mapping with
       | None =>
           let g := currentLocalUnlinkGeneration p ext st in
           let st := writeLocalUnlinkAudit now p ext (Some g) st in
           let st := suspendWork now p ext "link_locally_unlinked" st in
           (deleteVerifyIntent p ext (deleteProfiles p ext st), Some (mkOutcome false None g))
       | Some l =>
           if isTerminal (l_state l) then (st, Some (mkOutcome false (Some (l_user l)) (l_generation l)))
           else
             let g := l_generation l + 1 in
             let st := writeLocalUnlinkAudit now p ext (Some g) st in
             let st := suspendWork now p ext "link_locally_unlinked" st in
             let st := setLinks (tbl_update (λ m, keyed p ext m && (l_generation m <? g)) (unlinkedRow now g) (links st)) st in
             (deleteVerifyIntent p ext (deleteProfiles p ext st), Some (mkOutcome true (Some (l_user l)) g))
       end.

Definition PLATFORMS : list string := ["messenger"; "discord"; "zalo"].

Definition keyText (l : Link) : string := l_platform l +:+ ":" +:+ l_ext l.

Definition otherMappings (p : string) (user : Z) (st : Store) : list Link :=
  sortBy (λ l m, localeLe (keyText l) (keyText m))
    (flat_map (λ q, if bool_decide (q = p) then []
                    else tbl_select (λ l, bool_decide (l_platform l = q) && (l_user l =? user)) (links st)) PLATFORMS).

Definition unlinkOther (now : Z) (l : Link) (st : Store) : Store :=
  let st := writeLocalUnlinkAudit now (l_platform l) (l_ext l) (Some (l_generation l)) st in
  deleteVerifyIntent (l_platform l) (l_ext l)
    (suspendWork now (l_platform l) (l_ext l) "link_locally_unlinked" st).

(** [deleteByUser] on one table. *)
Definition eraseScoped (t : ScopedTable) (p ext : string) (user : option Z) (anonymousOnly : bool) (st : Store) : Store :=
  setScoped (tbl_delete (λ r, bool_decide (s_table r = t)
    && match user with
       | Some u => bool_decide (s_user r = Some u)
       | None => bool_decide (s_platform r = Some p) && bool_decide (s_ext r = Some ext)
                 && (negb anonymousOnly || bool_decide (s_user r = None))
       end) (scoped st)) st.

Definition eraseWork (p ext : string) (user : option Z) (st : Store) : Store :=
  let st := setReminders (RJobs.mkDb (tbl_delete (λ j,
    match user with Some u => bool_decide (RJobs.userId j = Some u) | None => reminderOf p ext j end)
    (RJobs.jobs (reminders st))) (RJobs.nextId (reminders st))) st in
  let ofClaim c := match user with Some u => bool_decide (Claims.userId c = Some u) | None => claimOf p ext c end in
  let st := setClaims (Claims.mkTables (tbl_delete ofClaim (Claims.legacy (claims st)))
                         (tbl_delete ofClaim (Claims.learner (claims st)))) st in
  setReportJobs (SendJobs.mkDb (tbl_delete (λ j,
    match user with Some u => bool_decide (SendJobs.userId j = Some u) | None => reportJobOf p ext j end)
    (SendJobs.jobs (reportJobs st))) (SendJobs.nextId (reportJobs st))) st.

(** Tables keyed by the learner alone; a falsy id erases nothing there. *)
Definition eraseOfUser (t : ScopedTable) (user : option Z) (st : Store) : Store :=
  match user with
  | Some u => setScoped (tbl_delete (λ r, bool_decide (s_table r = t) && bool_decide (s_user r = Some u)) (scoped st)) st
  | None => st
  end.

Definition truthyUser (u : option Z) : option Z :=
  match u with Some u => if u =? 0 then None else Some u | None => None end.

Definition eraseLearner (p ext : string) (user : option Z) (st : Store) : Store :=
  let st := eraseScoped learnerProfile p ext user false st in
  let st := eraseWork p ext user st in
  let st := eraseOfUser webActivity user st in
  let st := eraseScoped chatDailyUsage p ext user true st in
  let st := eraseScoped llmUsageEvent p ext user true st in
  let st := eraseScoped chatIdempotency p ext user true st in
  deleteVerifyIntent p ext (eraseOfUser notificationPreference user st).

Definition deleteTx (now : Z) (p ext : string) (durable : bool) (expected : option ExpectedMapping) (st : Store)
  : Store * option PrivacyOutcome :=
  let mapping := rowOf p ext st in
  if mismatch mapping expected then (st, None)
  else
    let userId := l_user <$> mapping in
    let g := match mapping with
             | Some l => l_generation l
             | None => if durable then currentLocalUnlinkGeneration p ext st else 1
             end in
    let st1 := match mapping with
               | Some l =>
                   let st := writeLocalUnlinkAudit now p ext (Some (l_generation l)) st in
                   let st := suspendWork now p ext "link_locally_unlinked" st in
                   setLinks (tbl_delete (by_id l) (links st)) st
               | None => st
               end in
    let user := truthyUser userId in
    let st2 := match user with
               | Some u =>
                   let st := foldl (λ st l, unlinkOther now l st) st1 (otherMappings p u st1) in
                   setLinks (tbl_delete (λ l, negb (bool_decide (l_platform l = p))
                     && bool_decide (l_platform l ∈ PLATFORMS) && (l_user l =? u)) (links st)) st
               | None => st1
               end in
    (eraseLearner p ext user st2, Some (mkOutcome (bool_decide (mapping ≠ None)) userId g)).

(** platform-link-audit-cleanup.service.ts: the batches up to the cutoff. *)
Definition deleteAuditsBefore (cutoff : Z) (st : Store) : Store :=
  setAudits (tbl_delete (λ a, a_createdAt a <? cutoff) (audits st)) st.

(** ** Histories *)

Inductive Event :=
| EUpsert (now : Z) (p : string) (user : Z) (ext : string) (o : MappingObservation)
| EObserve (now : Z) (p ext : string) (o : Observation) (expected : option Z)
| EUnlink (now : Z) (p ext : string) (expected : option ExpectedMapping)
| EDelete (now : Z) (p ext : string) (durable : bool) (expected : option ExpectedMapping)
| EClaimPrompt (now : Z) (p ext : string)
| EReleasePrompt (p ext : string)
| ENotice (now : Z) (p ext : string)
| EDeleteAudits (cutoff : Z).

Definition exec (e : Event) (st : Store) : Store :=
  match e with
  | EUpsert now p user ext o => (upsertLink now p user ext o st).1
  | EObserve now p ext o expected => (applyObservation now p ext o expected st).1
  | EUnlink now p ext expected => (unlinkTx now p ext expected st).1
  | EDelete now p ext durable expected => (deleteTx now p ext durable expected st).1
  | EClaimPrompt now p ext => (claimConsentPrompt now p ext st).1
  | EReleasePrompt p ext => releaseConsentPrompt p ext st
  | ENotice now p ext => markOptOutNoticeSent now p ext st
  | EDeleteAudits cutoff => deleteAuditsBefore cutoff st
  end.

Fixpoint run (es : list Event) (st : Store) : Store :=
  match es with [] => st | e :: es' => run es' (exec e st) end.

Definition init : Store :=
  mkStore [] 1 [] [] (RJobs.mkDb [] 1) (SendJobs.mkDb [] 1) (Claims.mkTables [] []) [].

End Service.
End Links.
