(* ===== verification/LinkFence.v ===== *)
(** * The ownership fence of account links

    Invariants of the tables of [AccountLinks], and what a link that was verified
    against an earlier state of the mapping may still do. *)

From S2P Require Import Prelude Table ReminderJobs ReportClaims AccountLinks.

Module Fence.
Import Links.

(** ** Rows *)

Abbreviation linkKey := (λ l : Link, (l_platform l, l_ext l)).
Abbreviation ownerKey := (λ l : Link, (l_platform l, l_user l)).

Definition row_in (p ext : string) (ls : list Link) : option Link := last (tbl_select (keyed p ext) ls).

Lemma rowOf_in p ext st : rowOf p ext st = row_in p ext (links st).
Proof. done. Qed.

Lemma link_keyed_spec p ext l : keyed p ext l = true ↔ linkKey l = (p, ext).
Proof. unfold keyed. rewrite andb_true_iff, !bool_decide_eq_true. split; [by intros [-> ->]|by intros [= -> ->]]. Qed.

Lemma row_in_Some p ext ls l : row_in p ext ls = Some l → l ∈ ls ∧ keyed p ext l = true.
Proof. intros H%last_Some_elem_of. by apply elem_of_tbl_select in H as [? ?]. Qed.

Lemma row_in_None p ext ls l : row_in p ext ls = None → l ∈ ls → keyed p ext l = false.
Proof.
  intros H%last_None Hin. destruct (keyed p ext l) eqn:E; [|done].
  assert (l ∈ tbl_select (keyed p ext) ls) as Hs by by apply elem_of_tbl_select.
  rewrite H in Hs. by apply not_elem_of_nil in Hs.
Qed.

Lemma row_in_unique p ext ls l :
  unique_on linkKey ls → l ∈ ls → keyed p ext l = true → row_in p ext ls = Some l.
Proof.
  intros Hu Hin Hk. destruct (row_in p ext ls) as [m|] eqn:E.
  - apply row_in_Some in E as [Hm Hkm]. apply link_keyed_spec in Hk, Hkm. f_equal.
    by apply (unique_on_eq linkKey ls); [..|congruence].
  - by rewrite (row_in_None p ext ls l) in Hk.
Qed.

Lemma row_in_update p ext q f ls :
  (∀ l, linkKey (f l) = linkKey l) →
  row_in p ext (tbl_update q f ls) = (λ l, if q l then f l else l) <$> row_in p ext ls.
Proof.
  intros Hf. unfold row_in. rewrite <- fmap_last. f_equal. unfold tbl_select.
  induction ls as [|l ls IH]; [done|]. change (tbl_update q f (l :: ls)) with ((if q l then f l else l) :: tbl_update q f ls).
  rewrite !filter_cons. assert (keyed p ext (if q l then f l else l) = keyed p ext l) as ->.
  { destruct (q l); [|done]. unfold keyed. by injection (Hf l) as -> ->. }
  destruct (decide _); [|done]. rewrite fmap_cons. by f_equal.
Qed.

Lemma row_in_app p ext ls l :
  row_in p ext (ls ++ [l]) = if keyed p ext l then Some l else row_in p ext ls.
Proof.
  unfold row_in, tbl_select. rewrite filter_app, filter_cons, filter_nil.
  destruct (keyed p ext l) eqn:E.
  - rewrite decide_True by done. apply last_snoc.
  - rewrite decide_False by congruence. by rewrite app_nil_r.
Qed.

Lemma row_in_delete p ext q ls :
  unique_on linkKey ls →
  row_in p ext (tbl_delete q ls) = match row_in p ext ls with Some l => if q l then None else Some l | None => None end.
Proof.
  intros Hu. assert (unique_on linkKey (tbl_delete q ls)) as Hu' by (by apply unique_on_filter).
  destruct (row_in p ext ls) as [l|] eqn:E.
  - pose proof (row_in_Some _ _ _ _ E) as [Hin Hk]. destruct (q l) eqn:Hq.
    + destruct (row_in p ext (tbl_delete q ls)) as [m|] eqn:E'; [|done].
      apply row_in_Some in E' as [Hm Hkm]. apply elem_of_tbl_delete in Hm as [Hqm Hm].
      apply link_keyed_spec in Hk, Hkm. assert (m = l) as -> by (apply (unique_on_eq linkKey ls); [done..|congruence]).
      congruence.
    + apply row_in_unique; [done| |done]. by apply elem_of_tbl_delete.
  - destruct (row_in p ext (tbl_delete q ls)) as [m|] eqn:E'; [|done].
    apply row_in_Some in E' as [Hm Hkm]. apply elem_of_tbl_delete in Hm as [_ Hm].
    by rewrite (row_in_None _ _ _ _ E Hm) in Hkm.
Qed.

(** An update of one row keeps a unique index when the new key is free. *)
Lemma unique_on_update_one {R K} (key : R → K) q (f : R → R) t :
  NoDup t → (∀ a b, a ∈ t → b ∈ t → q a = true → q b = true → a = b) →
  (∀ a b, a ∈ t → b ∈ t → q a = true → q b = false → key (f a) ≠ key b) →
  unique_on key t → unique_on key (tbl_update q f t).
Proof.
  unfold unique_on. induction t as [|r t IH]; [done|]. intros Hnd Hone Hfree.
  rewrite fmap_cons. intros [Hn Hd]%NoDup_cons. apply NoDup_cons in Hnd as [Hr Hnd].
  change (tbl_update q f (r :: t)) with ((if q r then f r else r) :: tbl_update q f t).
  rewrite fmap_cons. apply NoDup_cons. destruct (q r) eqn:E.
  - assert (∀ a, a ∈ t → q a = false) as Hno.
    { intros a Ha. destruct (q a) eqn:Ea; [|done].
      assert (a = r) as -> by (apply Hone; [by right|by left|done..]). done. }
    rewrite tbl_update_none by done. split; [|done]. intros (a & Heq & Ha)%list_elem_of_fmap.
    apply (Hfree r a); [by left|by right|done|by apply Hno|done].
  - split; [|apply IH; [done|intros; apply Hone|intros; apply Hfree|done]; (done || by right)].
    intros (a' & Heq & (a & Ha & ->)%elem_of_tbl_update)%list_elem_of_fmap. destruct (q a) eqn:Ea.
    + apply (Hfree a r); [by right|by left|done..].
    + apply Hn. rewrite Heq. by apply list_elem_of_fmap_2.
Qed.

Section Proofs.
Context `{Runtime}.
Context {Hinj : Inj (=) (=) hash}.

(** ** The invariant of the tables *)

(** The two unique indexes, the ids, and positive generations. *)
Record store_inv (st : Store) : Prop := {
  si_key : unique_on linkKey (links st);
  si_owner : unique_on ownerKey (links st);
  si_id : unique_on l_id (links st);
  si_next : ∀ l, l ∈ links st → l_id l < nextLinkId st;
  si_generation : ∀ l, l ∈ links st → 1 <= l_generation l;
  si_tombstone : ∀ a, a ∈ audits st → a_type a = ev_locally_unlinked → ∃ g, a_generation a = Some g ∧ 1 <= g
}.

(** Only these three fields matter. *)
Lemma store_inv_same st st' :
  links st' = links st → nextLinkId st' = nextLinkId st → audits st' = audits st → store_inv st → store_inv st'.
Proof. intros H1 H2 H3 [? ? ? ? ? ?]. split; by rewrite ?H1, ?H2, ?H3. Qed.

Lemma store_inv_update st q f :
  (∀ l, l_id (f l) = l_id l ∧ linkKey (f l) = linkKey l ∧ l_user (f l) = l_user l) →
  (∀ l, l ∈ links st → q l = true → 1 <= l_generation l → 1 <= l_generation (f l)) →
  store_inv st → store_inv (setLinks (tbl_update q f (links st)) st).
Proof.
  intros Hf Hg [H1 H2 H3 H4 H5 H6]. split; simpl; try done.
  - apply unique_on_update; [|done]. intros l. apply Hf.
  - apply unique_on_update; [|done]. intros l. destruct (Hf l) as (_ & [= -> _] & ->). done.
  - apply unique_on_update; [|done]. intros l. apply Hf.
  - intros l (l0 & Hl0 & ->)%elem_of_tbl_update. destruct (q l0); [|auto]. destruct (Hf l0) as (-> & _). auto.
  - intros l (l0 & Hl0 & ->)%elem_of_tbl_update. destruct (q l0) eqn:E; auto.
Qed.

Lemma store_inv_delete st q : store_inv st → store_inv (setLinks (tbl_delete q (links st)) st).
Proof.
  intros [H1 H2 H3 H4 H5 H6]. split; simpl; try done; try (by apply unique_on_filter);
    intros l [_ ?]%elem_of_tbl_delete; auto.
Qed.

Lemma store_inv_audits st news :
  (∀ a, a ∈ news → a_type a = ev_locally_unlinked → ∃ g, a_generation a = Some g ∧ 1 <= g) →
  store_inv st → store_inv (setAudits (audits st ++ news) st).
Proof.
  intros Hn [H1 H2 H3 H4 H5 H6]. split; simpl; try done.
  intros a [Ha|Ha]%elem_of_app; auto.
Qed.

Lemma store_inv_audit st now p ext g t reason version :
  (t = ev_locally_unlinked → ∃ g', g = Some g' ∧ 1 <= g') →
  store_inv st → store_inv (writeAudit now p ext g t reason version st).
Proof.
  intros Hg. apply store_inv_audits. intros a ->%list_elem_of_singleton. apply Hg.
Qed.

Lemma store_inv_tombstone st now p ext g :
  1 <= g → store_inv st → store_inv (writeLocalUnlinkAudit now p ext (Some g) st).
Proof. intros Hg. apply store_inv_audit. eauto. Qed.

Lemma store_inv_row p ext st l : store_inv st → rowOf p ext st = Some l → l ∈ links st ∧ linkKey l = (p, ext) ∧ 1 <= l_generation l.
Proof.
  intros Hst Hr. apply row_in_Some in Hr as [Hin Hk]. apply link_keyed_spec in Hk. split_and!; [done..|].
  by apply (si_generation _ Hst).
Qed.

(** A statement on one row by its id is a statement by its key. *)
Lemma by_id_spec st l m : store_inv st → l ∈ links st → m ∈ links st → by_id l m = true ↔ m = l.
Proof.
  intros Hst Hl Hm. unfold by_id. rewrite andb_true_iff, bool_decide_eq_true, Z.eqb_eq.
  split; [|by intros ->]. intros [Hid _]. by apply (unique_on_eq l_id (links st)); [apply si_id|..].
Qed.

Lemma store_inv_updateRow st l f :
  (∀ m, l_id (f m) = l_id m ∧ linkKey (f m) = linkKey m ∧ l_user (f m) = l_user m) →
  l ∈ links st → 1 <= l_generation (f l) → store_inv st → store_inv (updateRow l f st).
Proof.
  intros Hf Hl Hg Hst. apply store_inv_update; [done| |done].
  intros m Hm Hid _. by rewrite (proj1 (by_id_spec st l m Hst Hl Hm) Hid).
Qed.

Lemma rowOf_updateRow st l f p ext :
  (∀ m, linkKey (f m) = linkKey m) → store_inv st → l ∈ links st →
  rowOf p ext (updateRow l f st) = if keyed p ext l then Some (f l) else rowOf p ext st.
Proof.
  intros Hf Hst Hl. rewrite !rowOf_in. unfold updateRow. simpl. rewrite row_in_update by done.
  destruct (row_in p ext (links st)) as [m|] eqn:E; simpl.
  - apply row_in_Some in E as [Hm Hk]. destruct (by_id l m) eqn:Hid.
    + apply (by_id_spec st l m) in Hid as ->; [|done..]. by rewrite Hk.
    + destruct (keyed p ext l) eqn:Hkl; [|done]. apply link_keyed_spec in Hk, Hkl.
      assert (m = l) as -> by (apply (unique_on_eq linkKey (links st)); [apply si_key| | |congruence]; done).
      by rewrite (proj2 (by_id_spec st l l Hst Hl Hl) eq_refl) in Hid.
  - destruct (keyed p ext l) eqn:Hkl; [|done]. by rewrite (row_in_None _ _ _ _ E Hl) in Hkl.
Qed.

(** ** Tombstones *)

Lemma latest_in l a : latest l = Some a → a ∈ l.
Proof.
  revert a. induction l as [|b l IH]; simpl; [done|]. intros a.
  destruct (latest l) as [c|]; [destruct (_ <? _)|]; intros [= <-]; [by left|right; by apply IH|by left].
Qed.

Lemma latest_None l : latest l = None → l = [].
Proof. destruct l as [|a l]; simpl; [done|]. destruct (latest l); [by destruct (_ <? _)|done]. Qed.

(** Rows written no earlier than all others are the latest. *)
Lemma latest_app old news now :
  (∀ a, a ∈ old → a_createdAt a <= now) → (∀ a, a ∈ news → a_createdAt a = now) → news ≠ [] →
  ∃ a, a ∈ news ∧ latest (old ++ news) = Some a.
Proof.
  intros Hold Hnews Hne.
  assert (∃ a, a ∈ news ∧ latest news = Some a) as (a & Ha & Hl).
  { destruct (latest news) as [a|] eqn:E; [exists a; by split; [apply latest_in|]|by apply latest_None in E]. }
  exists a. split; [done|]. induction old as [|b old IH]; [done|]. simpl.
  rewrite IH by (intros; apply Hold; by right). assert (a_createdAt b <= now) by (apply Hold; by left).
  rewrite (Hnews a Ha). by destruct (Z.ltb_spec now (a_createdAt b)); [lia|].
Qed.

Lemma tombstone_app p ext st news now g :
  (∀ a, a ∈ audits st → a_createdAt a <= now) → (∀ a, a ∈ news → a_createdAt a = now) →
  (∀ a, a ∈ news → isTombstone p ext a = true → a_generation a = Some g) →
  tombstoneGeneration p ext (setAudits (audits st ++ news) st)
  = if tbl_exists (isTombstone p ext) news then Some g else tombstoneGeneration p ext st.
Proof.
  intros Hold Hnews Hg. unfold tombstoneGeneration, tombstone. simpl. unfold tbl_select. rewrite filter_app.
  destruct (tbl_exists_spec (isTombstone p ext) news) as [(a & Ha & Hta)|Hno].
  - edestruct (latest_app (filter (λ r, isTombstone p ext r = true) (audits st))
                 (filter (λ r, isTombstone p ext r = true) news) now) as (b & Hb & ->).
    + intros b [_ Hb]%list_elem_of_filter. auto.
    + intros b [_ Hb]%list_elem_of_filter. auto.
    + intros E. assert (a ∈ filter (λ r, isTombstone p ext r = true) news) as Hin by by apply list_elem_of_filter.
      rewrite E in Hin. by apply not_elem_of_nil in Hin.
    + apply list_elem_of_filter in Hb as [Htb Hb]. simpl. auto.
  - assert (filter (λ r, isTombstone p ext r = true) news = []) as ->; [|by rewrite app_nil_r].
    destruct (filter _ news) as [|b l] eqn:E; [done|]. destruct Hno.
    assert (b ∈ filter (λ r, isTombstone p ext r = true) news) as Hb by (rewrite E; left).
    apply list_elem_of_filter in Hb as [? ?]. by exists b.
Qed.

Lemma isTombstone_new p ext p' ext' now g t reason version :
  isTombstone p ext (mkAudit p' (hash ext') g t reason version now)
  = bool_decide ((p', ext') = (p, ext)) && bool_decide (t = ev_locally_unlinked).
Proof.
  unfold isTombstone. simpl. f_equal. repeat case_bool_decide; simpl; try done; exfalso; naive_solver.
Qed.

Lemma tombstone_write p ext now p' ext' g reason version t st :
  (∀ a, a ∈ audits st → a_createdAt a <= now) →
  tombstoneGeneration p ext (writeAudit now p' ext' (Some g) t reason version st)
  = if bool_decide ((p', ext') = (p, ext)) && bool_decide (t = ev_locally_unlinked) then Some g
    else tombstoneGeneration p ext st.
Proof.
  intros Hold. unfold writeAudit. rewrite (tombstone_app p ext st _ now g); [|done|..].
  - unfold tbl_exists. simpl. by rewrite isTombstone_new, orb_false_r.
  - by intros a ->%list_elem_of_singleton.
  - by intros a ->%list_elem_of_singleton.
Qed.

Lemma tombstone_positive p ext st g : store_inv st → tombstoneGeneration p ext st = Some g → 1 <= g.
Proof.
  intros Hst. unfold tombstoneGeneration, tombstone. destruct (latest _) as [a|] eqn:E; [simpl|done].
  apply latest_in, elem_of_tbl_select in E as [Ht Ha]. unfold isTombstone in Ht.
  apply andb_true_iff in Ht as [_ Ht]. apply bool_decide_eq_true in Ht. intros Hg.
  destruct (si_tombstone _ Hst a Ha Ht) as (g' & Hg' & ?). congruence.
Qed.

(** ** The stamp of an account

    It grows whenever the account changes hands: with the generation of the row,
    and between rows with the generation of the tombstone. *)

Definition stamp (p ext : string) (st : Store) : Z :=
  match rowOf p ext st with
  | Some l => 2 * l_generation l
  | None => match tombstoneGeneration p ext st with Some g => 2 * g + 1 | None => 1 end
  end.

(** Who owns the account, and whether the link is ended. *)
Definition owned (p ext : string) (st : Store) : option (Z * bool) :=
  (λ l, (l_user l, isTerminal (l_state l))) <$> rowOf p ext st.

Definition moves (p ext : string) (st st' : Store) : Prop :=
  stamp p ext st < stamp p ext st' ∨ stamp p ext st = stamp p ext st' ∧ owned p ext st = owned p ext st'.

Lemma moves_same p ext st st' :
  rowOf p ext st' = rowOf p ext st → tombstoneGeneration p ext st' = tombstoneGeneration p ext st →
  moves p ext st st'.
Proof. intros H1 H2. right. unfold stamp, owned. by rewrite H1, H2. Qed.

Lemma moves_present p ext st st' l l' :
  rowOf p ext st = Some l → rowOf p ext st' = Some l' →
  l_generation l < l_generation l' ∨ l_generation l = l_generation l' ∧ l_user l = l_user l'
                                     ∧ isTerminal (l_state l) = isTerminal (l_state l') →
  moves p ext st st'.
Proof.
  unfold moves, stamp, owned. intros -> -> [?|(Hg & Hu & Ht)]; [left; lia|right; simpl]. by rewrite Hg, Hu, Ht.
Qed.

Lemma moves_removed p ext st st' l :
  rowOf p ext st = Some l → rowOf p ext st' = None → tombstoneGeneration p ext st' = Some (l_generation l) →
  moves p ext st st'.
Proof. unfold moves, stamp. intros -> -> ->. left. lia. Qed.

Lemma moves_created p ext st st' l' :
  store_inv st → rowOf p ext st = None → rowOf p ext st' = Some l' →
  l_generation l' = nextMappingGenerationAfterTombstone p ext st → moves p ext st st'.
Proof.
  unfold moves, stamp, nextMappingGenerationAfterTombstone. intros Hst -> -> ->. left.
  destruct (tombstoneGeneration p ext st); lia.
Qed.

(** An observation is the stamp it was made at. *)
Definition stampOf (o : MappingObservation) : Z :=
  match o with present g => 2 * g | absent (Some g) => 2 * g + 1 | absent None => 1 end.

Lemma observation_stamp p ext st : store_inv st → stampOf (getMappingObservation p ext st) = stamp p ext st.
Proof.
  intros Hst. unfold getMappingObservation, getLink, stamp, tombstoneGeneration.
  destruct (rowOf p ext st) as [l|]; simpl.
  - by rewrite andb_false_r.
  - destruct (tombstone p ext st) as [a|] eqn:E; simpl; [|done].
    assert (∃ g, a_generation a = Some g) as [g ->]; [|done].
    unfold tombstone in E. apply latest_in, elem_of_tbl_select in E as [Ht Ha].
    apply andb_true_iff in Ht as [_ Ht]. apply bool_decide_eq_true in Ht.
    destruct (si_tombstone _ Hst a Ha Ht) as (g & ? & _). by exists g.
Qed.

(** The conflict test compares stamps. *)
Lemma conflict_stamp p ext st o :
  store_inv st → observedConflict p ext (rowOf p ext st) o st = negb (stamp p ext st =? stampOf o).
Proof.
  intros Hst. unfold observedConflict, stamp, nextMappingGenerationAfterTombstone.
  destruct (rowOf p ext st) as [l|] eqn:Hr.
  - destruct (store_inv_row _ _ _ _ Hst Hr) as (_ & _ & Hg). destruct o as [[g|]|g]; simpl.
    + symmetry. apply negb_true_iff, Z.eqb_neq. lia.
    + symmetry. apply negb_true_iff, Z.eqb_neq. lia.
    + f_equal. destruct (Z.eqb_spec (l_generation l) g), (Z.eqb_spec (2 * l_generation l) (2 * g)); lia || done.
  - pose proof (tombstone_positive p ext st) as Hpos.
    destruct (tombstoneGeneration p ext st) as [t|]; [specialize (Hpos t Hst eq_refl)|]; destruct o as [[g|]|g];
      cbn [stampOf]; try (symmetry; apply negb_true_iff, Z.eqb_neq; lia).
    + f_equal. destruct (Z.eqb_spec (t + 1 - 1) g), (Z.eqb_spec (2 * t + 1) (2 * g + 1)); lia || done.
    + destruct (Z.ltb_spec 0 (t + 1 - 1)), (Z.eqb_spec (2 * t + 1) 1); lia || done.
    + f_equal. destruct (Z.eqb_spec (1 - 1) g), (Z.eqb_spec 1 (2 * g + 1)); lia || done.
    + done.
Qed.

(** ** upsertLink *)

Definition isCommitted (p : string) (user : Z) (ext : string) (st : Store) : Prop :=
  ∃ l, rowOf p ext st = Some l ∧ l_user l = user ∧ l_state l = RJobs.ls_active.

(** The cancellations of a link's jobs touch only the reminders. *)
Lemma cancel_links now p ext g reason st : links (cancelForOwnershipChange now p ext g reason st) = links st.
Proof. done. Qed.

Lemma cancel_all now p reason es st :
  let st' := foldl (λ st e, cancelForOwnershipChange now p e None reason st) st es in
  links st' = links st ∧ nextLinkId st' = nextLinkId st ∧ audits st' = audits st.
Proof. revert st. induction es as [|e es IH]; intros st; simpl; [done|]. by destruct (IH (cancelForOwnershipChange now p e None reason st)) as (-> & -> & ->). Qed.

Lemma tombstone_audits p ext st st' :
  audits st' = audits st → tombstoneGeneration p ext st' = tombstoneGeneration p ext st.
Proof. intros Ha. unfold tombstoneGeneration, tombstone. by rewrite Ha. Qed.

Lemma displaces_ext p user ext l : displaces p user ext l = true → keyed p ext l = false.
Proof.
  unfold displaces, keyed. rewrite !andb_true_iff, negb_true_iff. intros [_ Hne]. by rewrite Hne, andb_false_r.
Qed.

(** What a link that is not refused leaves in the mapping table. *)
Record upserted (now : Z) (p : string) (user : Z) (ext : string) (st st' : Store) (l : Link) : Prop := {
  up_audits : audits st' = audits st;
  up_row : rowOf p ext st' = Some l;
  up_link : match rowOf p ext st with
            | Some old => l = relinkedRow now user old
                          ∧ links st' = tbl_update (keyed p ext) (relinkedRow now user)
                                          (tbl_delete (displaces p user ext) (links st))
                          ∧ nextLinkId st' = nextLinkId st
            | None => l = newLink (nextLinkId st) now p ext user (nextMappingGenerationAfterTombstone p ext st)
                      ∧ links st' = tbl_delete (displaces p user ext) (links st) ++ [l]
                      ∧ nextLinkId st' = nextLinkId st + 1
            end
}.

Inductive upsert_case (now : Z) (p : string) (user : Z) (ext : string) (o : MappingObservation) (st : Store)
  : Store → UpsertOutcome → Prop :=
| upsert_committed :
    isCommitted p user ext st → upsert_case now p user ext o st st (linked (mkUpsert false None None []))
| upsert_refused :
    ¬ isCommitted p user ext st → stamp p ext st ≠ stampOf o →
    upsert_case now p user ext o st st ownershipConflict
| upsert_wrote st' l previous :
    ¬ isCommitted p user ext st → stamp p ext st = stampOf o → upserted now p user ext st st' l →
    upsert_case now p user ext o st st'
      (linked (mkUpsert (bool_decide (previous ≠ None)) previous (Some (l_generation l))
                 (l_ext <$> tbl_select (displaces p user ext) (links st)))).

Lemma committed_spec p user ext st :
  (match rowOf p ext st with
   | Some l => (l_user l =? user) && bool_decide (l_state l = RJobs.ls_active)
   | None => false
   end) = true ↔ isCommitted p user ext st.
Proof.
  unfold isCommitted. destruct (rowOf p ext st) as [l|]; [|naive_solver].
  rewrite andb_true_iff, Z.eqb_eq, bool_decide_eq_true. naive_solver.
Qed.

Lemma relinked_key now user l : linkKey (relinkedRow now user l) = linkKey l.
Proof. done. Qed.

(** The insertion, on a table without the displaced rows. *)
Lemma insertLink_spec now p user ext o st st2 :
  store_inv st → stamp p ext st = stampOf o →
  links st2 = tbl_delete (displaces p user ext) (links st) → nextLinkId st2 = nextLinkId st →
  audits st2 = audits st →
  let g := match rowOf p ext st with Some _ => 1 | None => nextMappingGenerationAfterTombstone p ext st end in
  ∃ st3 l, insertLink now p ext user o g st2 = Some (st3, Some l) ∧ upserted now p user ext st st3 l.
Proof.
  intros Hst Hstamp Hl Hn Ha g.
  assert (rowOf p ext st2 = rowOf p ext st) as Hrow.
  { rewrite !rowOf_in, Hl, row_in_delete by apply si_key, Hst.
    destruct (row_in p ext (links st)) as [l|] eqn:E; [|done]. apply row_in_Some in E as [_ Hk].
    destruct (displaces p user ext l) eqn:Hd; [|done]. apply displaces_ext in Hd. congruence. }
  assert (tbl_exists (displaces p user ext) (links st2) = false) as Hno.
  { destruct (tbl_exists_spec (displaces p user ext) (links st2)) as [(l & Hin & Hd)|]; [|done].
    rewrite Hl in Hin. apply elem_of_tbl_delete in Hin as [Hd' _]. congruence. }
  pose proof (conflict_stamp p ext st o Hst) as Hconf. rewrite Hstamp, Z.eqb_refl in Hconf.
  unfold insertLink. cbv zeta. rewrite Hrow, Hno. subst g. destruct (rowOf p ext st) as [old|] eqn:E.
  - unfold observedConflict in Hconf. destruct o as [|e]; [done|]. simpl in Hconf. rewrite Hconf.
    eexists _, _. split; [done|]. split; [done|..].
    + rewrite rowOf_in in *. simpl. rewrite row_in_update by done. rewrite Hrow. simpl.
      by rewrite (proj2 (row_in_Some _ _ _ _ E)).
    + rewrite E. split_and!; [done| |done]. simpl. by rewrite Hl.
  - eexists _, _. split; [done|]. rewrite Hn. split; [done|..].
    + rewrite rowOf_in. simpl. rewrite row_in_app. by rewrite (proj2 (link_keyed_spec p ext _)).
    + rewrite E. split_and!; [done| |done]. simpl. by rewrite Hl.
Qed.

Lemma upsertLink_cases now p user ext o st :
  store_inv st →
  upsert_case now p user ext o st (upsertLink now p user ext o st).1 (upsertLink now p user ext o st).2.
Proof.
  intros Hst. unfold upsertLink. cbv zeta. pose proof (committed_spec p user ext st) as Hc.
  destruct (match rowOf p ext st with Some l => _ | None => false end) eqn:Ecom.
  { apply upsert_committed. by apply Hc. }
  assert (¬ isCommitted p user ext st) as Hnc by (intros ?%Hc; congruence). clear Hc.
  rewrite conflict_stamp by done. destruct (Z.eqb_spec (stamp p ext st) (stampOf o)) as [Hs|Hs]; simpl.
  2: by apply upsert_refused.
  destruct (cancel_all now p "mapping_ownership_changed" (l_ext <$> tbl_select (displaces p user ext) (links st))
              (setLinks (tbl_delete (displaces p user ext) (links st)) st)) as (H1 & H2 & H3).
  destruct (insertLink_spec now p user ext o st _ Hst Hs H1 H2 H3) as (st3 & l & -> & Hup).
  simpl. apply (upsert_wrote _ _ _ _ _ _ (cancelForOwnershipChange now p ext (Some (l_generation l)) "mapping_ownership_changed" st3)); [done..|].
  destruct Hup as [Ha Hr Hl]. by split.
Qed.

Lemma unique_NoDup {K} (key : Link → K) ls : unique_on key ls → NoDup ls.
Proof. apply NoDup_fmap_1. Qed.

Lemma displaces_owner p user ext l l' :
  l_platform l = p → l_user l = user → displaces p user ext l = false → linkKey l' = (p, ext) → linkKey l = linkKey l'.
Proof.
  unfold displaces. intros <- <- Hd ->. rewrite bool_decide_true, Z.eqb_refl in Hd by done. simpl in Hd.
  apply negb_false_iff, bool_decide_eq_true in Hd. by rewrite Hd.
Qed.

Lemma upserted_inv now p user ext st st' l : store_inv st → upserted now p user ext st st' l → store_inv st'.
Proof.
  intros Hst [Ha Hr Hl].
  assert (store_inv (setLinks (tbl_delete (displaces p user ext) (links st)) st)) as Hst1 by by apply store_inv_delete.
  set (ls := tbl_delete (displaces p user ext) (links st)) in *.
  destruct Hst1 as [H1 H2 H3 H4 H5 H6]. cbn [links nextLinkId audits setLinks] in *.
  destruct (rowOf p ext st) as [old|] eqn:E; destruct Hl as (Hll & Hlinks & Hnext).
  - pose proof (store_inv_row _ _ _ _ Hst E) as (Hin & Hk & Hg). split; rewrite ?Hlinks, ?Hnext, ?Ha; try done.
    + by apply unique_on_update.
    + apply unique_on_update_one; [by eapply unique_NoDup, H1|..|done].
      * intros a b Hia Hib Ka%link_keyed_spec Kb%link_keyed_spec. apply (unique_on_eq linkKey ls); [done..|congruence].
      * intros a b Hia Hib Ka Kb [= Hp Hu]. apply link_keyed_spec in Ka.
        apply elem_of_tbl_delete in Hib as [Hd _]. assert (keyed p ext b = true); [|congruence].
        injection Ka as Kp Ke. rewrite Kp in Hp. apply link_keyed_spec. rewrite (displaces_owner p user ext b a); congruence.
    + by apply unique_on_update.
    + intros m (m0 & Hm0 & ->)%elem_of_tbl_update. case_match; simpl; auto.
    + intros m (m0 & Hm0 & ->)%elem_of_tbl_update. specialize (H5 m0 Hm0). case_match; [simpl; case_match|]; lia.
  - split; rewrite ?Hlinks, ?Hnext, ?Ha; try done.
    + apply unique_on_snoc; [|done]. intros m Hm Hkm. apply elem_of_tbl_delete in Hm as [_ Hm].
      rewrite Hll in Hkm. apply (row_in_None _ _ _ m) in E; [|done]. by rewrite (proj2 (link_keyed_spec p ext m)) in E.
    + apply unique_on_snoc; [|done]. intros m Hm Hkm. rewrite Hll in Hkm. injection Hkm as Hp Hu.
      apply elem_of_tbl_delete in Hm as [Hd Hm]. apply (row_in_None _ _ _ m) in E; [|done].
      rewrite (proj2 (link_keyed_spec p ext m)) in E; [done|].
      rewrite (displaces_owner p user ext m l); [by rewrite Hll|done|done|done|by rewrite Hll].
    + apply unique_on_snoc; [|done]. intros m Hm Hid. specialize (H4 m Hm). rewrite Hll in Hid. simpl in Hid. lia.
    + intros m [Hm| ->%list_elem_of_singleton]%elem_of_app; [specialize (H4 m Hm); lia|rewrite Hll; simpl; lia].
    + intros m [Hm| ->%list_elem_of_singleton]%elem_of_app; [auto|rewrite Hll; simpl].
      unfold nextMappingGenerationAfterTombstone. pose proof (tombstone_positive p ext st) as Hpos.
      destruct (tombstoneGeneration p ext st) as [t|]; [|lia]. specialize (Hpos t Hst eq_refl). lia.
Qed.

(** A link leaves the rows of other accounts alone, but for those it displaces. *)
Lemma upserted_other now p user ext st st' l q e :
  store_inv st → upserted now p user ext st st' l → (q, e) ≠ (p, ext) →
  (∀ m, rowOf q e st = Some m → displaces p user ext m = false) → rowOf q e st' = rowOf q e st.
Proof.
  intros Hst [Ha Hr Hl] Hne Hkeep.
  assert (rowOf q e (setLinks (tbl_delete (displaces p user ext) (links st)) st) = rowOf q e st) as Hdel.
  { rewrite !rowOf_in. simpl. rewrite row_in_delete by apply si_key, Hst. rewrite <- rowOf_in.
    destruct (rowOf q e st) as [m|] eqn:E; [by rewrite Hkeep|done]. }
  rewrite <- Hdel, !rowOf_in. simpl.
  destruct (rowOf p ext st) as [old|] eqn:E; destruct Hl as (Hll & -> & _).
  - rewrite row_in_update by done. destruct (row_in q e _) as [m|] eqn:Em; simpl; [|done].
    apply row_in_Some in Em as [_ Hk%link_keyed_spec]. destruct (keyed p ext m) eqn:Hk'; [|done].
    apply link_keyed_spec in Hk'. congruence.
  - rewrite row_in_app. destruct (keyed q e l) eqn:Hk; [|done]. apply link_keyed_spec in Hk. rewrite Hll in Hk.
    simpl in Hk. congruence.
Qed.

Lemma upserted_moves now p user ext st st' l q e :
  store_inv st → upserted now p user ext st st' l → ¬ isCommitted p user ext st →
  (∀ m, rowOf q e st = Some m → displaces p user ext m = false) → moves q e st st'.
Proof.
  intros Hst Hup Hnc Hkeep. destruct (decide ((q, e) = (p, ext))) as [[= -> ->]|Hne].
  - destruct Hup as [Ha Hr Hl]. destruct (rowOf p ext st) as [old|] eqn:E; destruct Hl as (-> & _).
    + eapply moves_present; [done..|]. left. simpl.
      assert (negb (bool_decide (l_state old = RJobs.ls_active)) || negb (l_user old =? user) = true) as ->; [|lia].
      apply orb_true_iff. rewrite !negb_true_iff, bool_decide_eq_false, Z.eqb_neq.
      destruct (decide (l_state old = RJobs.ls_active)); [right|by left]. intros ?. apply Hnc. by exists old.
    + by eapply moves_created.
  - apply moves_same; [by eapply upserted_other|]. by apply tombstone_audits, Hup.
Qed.

(** ** The other transactions *)

(** Timestamps do not go back. *)
Definition after (now : Z) (st : Store) : Prop := ∀ a, a ∈ audits st → a_createdAt a <= now.

Lemma store_inv_core st st' :
  links st' = links st → nextLinkId st' = nextLinkId st → audits st' = audits st → store_inv st → store_inv st'.
Proof. exact (store_inv_same st st'). Qed.

(** An audit row that is no tombstone moves nothing. *)
Lemma moves_audit now p ext g t reason version q e st st' :
  after now st → t ≠ ev_locally_unlinked → moves q e st' st → 
  moves q e st' (writeAudit now p ext (Some g) t reason version st).
Proof.
  intros Hold Ht Hm.
  assert (tombstoneGeneration q e (writeAudit now p ext (Some g) t reason version st) = tombstoneGeneration q e st) as Hs.
  { rewrite tombstone_write by exact Hold. by rewrite (bool_decide_false (t = _)), andb_false_r. }
  unfold moves, stamp. rewrite Hs. exact Hm.
Qed.

Definition advances (l l' : Link) : Prop :=
  l_generation l < l_generation l'
  ∨ l_generation l = l_generation l' ∧ l_user l = l_user l' ∧ isTerminal (l_state l) = isTerminal (l_state l').

Lemma updateRow_moves st l f q e st' :
  (∀ m, linkKey (f m) = linkKey m) → store_inv st → l ∈ links st → advances l (f l) →
  links st' = links (updateRow l f st) → audits st' = audits st → moves q e st st'.
Proof.
  intros Hf Hst Hl Hadv Hlinks Haud.
  assert (rowOf q e st' = rowOf q e (updateRow l f st)) as Hr by (unfold rowOf; by rewrite Hlinks).
  rewrite rowOf_updateRow in Hr by done. destruct (keyed q e l) eqn:Hk.
  - eapply (moves_present q e); [|exact Hr|exact Hadv]. rewrite rowOf_in. by apply row_in_unique; [apply si_key|..].
  - apply moves_same; [done|by apply tombstone_audits].
Qed.

Lemma revoke_ok now current reason version q e st :
  store_inv st → after now st → current ∈ links st →
  store_inv (revoke now current reason version st).1 ∧ moves q e st (revoke now current reason version st).1.
Proof.
  intros Hst Hafter Hc. pose proof (si_generation _ Hst current Hc) as Hg. unfold revoke. simpl. split.
  - apply store_inv_audit; [done|].
    apply (store_inv_core (updateRow current (revokedRow now (l_generation current + 1) reason version) st)); try done.
    apply store_inv_updateRow; [done|done|simpl; lia|done].
  - apply moves_audit; [done|done|]. eapply updateRow_moves; [|done|done| |done|done]; [done|]. left. simpl. lia.
Qed.

Lemma applyObservation_ok now p ext o expected q e st :
  store_inv st → after now st →
  let st' := (applyObservation now p ext o expected st).1 in store_inv st' ∧ moves q e st st'.
Proof.
  intros Hst Hafter. unfold applyObservation.
  assert (moves q e st st) as Hrefl by by right.
  destruct (rowOf p ext st) as [current|] eqn:E; [|done].
  destruct (store_inv_row _ _ _ _ Hst E) as (Hin & Hk & Hg).
  assert (∀ f t reason version, (∀ m, l_id (f m) = l_id m ∧ linkKey (f m) = linkKey m ∧ l_user (f m) = l_user m) →
    l_generation (f current) = l_generation current → isTerminal (l_state (f current)) = isTerminal (l_state current) →
    t ≠ ev_locally_unlinked →
    (store_inv (updateRow current f st) ∧ moves q e st (updateRow current f st))
    ∧ store_inv (writeAudit now p ext (Some (l_generation current)) t reason version (updateRow current f st))
      ∧ moves q e st (writeAudit now p ext (Some (l_generation current)) t reason version (updateRow current f st)))
    as Hupd.
  { intros f t reason version Hf Hgen Hterm Ht.
    assert (store_inv (updateRow current f st)) by (apply store_inv_updateRow; [done|done|lia|done]).
    assert (moves q e st (updateRow current f st)).
    { eapply updateRow_moves; [|done|exact Hin| |done|done]; [intros m; apply Hf|]. right.
      split_and!; [done|symmetry; apply Hf|done]. }
    split_and!; [done|done|by apply store_inv_audit|by apply moves_audit]. }
  assert (∀ t reason version, t ≠ ev_locally_unlinked →
    store_inv (writeAudit now p ext (Some (l_generation current)) t reason version st)
    ∧ moves q e st (writeAudit now p ext (Some (l_generation current)) t reason version st)) as Haud.
  { intros. split; [by apply store_inv_audit|by apply moves_audit]. }
  cbv zeta. destruct (match expected with Some _ => _ | None => _ end); [by apply Haud|].
  case_bool_decide as Hun; [done|]. destruct o as [user version|reason version|reason].
  - destruct (negb (user =? l_user current)); [by apply revoke_ok|]. case_bool_decide as Hrev; [by apply Haud|].
    assert (isTerminal (l_state current) = false) as Hterm
      by (unfold isTerminal; rewrite !bool_decide_false by done; done).
    pose proof (Hupd (verifiedRow now version) ev_recovered None version) as Hv.
    case_bool_decide; simpl; by apply Hv.
  - case_bool_decide as Hrev; [done|by apply revoke_ok].
  - case_bool_decide as Hrev; [done|].
    assert (isTerminal (l_state current) = false) as Hterm
      by (unfold isTerminal; rewrite !bool_decide_false by done; done).
    pose proof (Hupd (unknownRow now) ev_unknown (Some reason) None) as Hv.
    case_bool_decide; simpl; by apply Hv.
Qed.

Lemma unlinkTx_other now p ext expected q e st :
  after now st → (q, e) ≠ (p, ext) →
  let st' := (unlinkTx now p ext expected st).1 in
  rowOf q e st' = rowOf q e st ∧ tombstoneGeneration q e st' = tombstoneGeneration q e st.
Proof.
  intros Hafter Hne. unfold unlinkTx. cbv zeta. destruct (mismatch _ _); [done|].
  assert (∀ g st', audits st' = audits (writeLocalUnlinkAudit now p ext (Some g) st) →
    tombstoneGeneration q e st' = tombstoneGeneration q e st) as Htomb.
  { intros g st' Ha. rewrite (tombstone_audits q e _ _ Ha). unfold writeLocalUnlinkAudit.
    rewrite tombstone_write by exact Hafter. by rewrite bool_decide_false by congruence. }
  destruct (rowOf p ext st) as [l|] eqn:E.
  - destruct (isTerminal (l_state l)); [done|]. simpl. split; [|by eapply Htomb].
    set (qu := λ m, keyed p ext m && (l_generation m <? l_generation l + 1)).
    transitivity ((λ m, if qu m then unlinkedRow now (l_generation l + 1) m else m) <$> rowOf q e st);
      [by apply row_in_update|].
    destruct (rowOf q e st) as [m|] eqn:Em; [|done]. simpl. unfold qu. destruct (keyed p ext m) eqn:Hkm; [|done].
    apply row_in_Some in Em as [_ Hkm']. apply link_keyed_spec in Hkm, Hkm'. congruence.
  - simpl. split; [done|]. by eapply Htomb.
Qed.

(** An unlink that is not refused leaves an ended link or a tombstone, at the
    generation it reports. *)
Lemma unlinkTx_ends now p ext expected st out :
  store_inv st → after now st → (unlinkTx now p ext expected st).2 = Some out →
  let st' := (unlinkTx now p ext expected st).1 in
  1 <= p_generation out
  ∧ match rowOf p ext st' with
    | Some l => isTerminal (l_state l) = true ∧ l_generation l = p_generation out
    | None => rowOf p ext st = None ∧ tombstoneGeneration p ext st' = Some (p_generation out)
              ∧ p_generation out = currentLocalUnlinkGeneration p ext st
    end.
Proof.
  intros Hst Hafter. unfold unlinkTx. cbv zeta. destruct (mismatch _ _); [done|].
  destruct (rowOf p ext st) as [l|] eqn:E.
  - destruct (store_inv_row _ _ _ _ Hst E) as (Hin & Hk & Hg).
    destruct (isTerminal (l_state l)) eqn:Ht; intros [= <-]; simpl; [by rewrite E|].
    set (g := l_generation l + 1). set (qu := λ m, keyed p ext m && (l_generation m <? g)). split; [lia|].
    match goal with |- context [rowOf p ext ?st'] => assert (rowOf p ext st' = Some (unlinkedRow now g l)) as -> end;
      [|done].
    transitivity ((λ m, if qu m then unlinkedRow now g m else m) <$> rowOf p ext st); [by apply row_in_update|].
    rewrite E. simpl. unfold qu. rewrite (proj2 (link_keyed_spec p ext l) Hk).
    by rewrite (proj2 (Z.ltb_lt (l_generation l) g)) by (unfold g; lia).
  - intros [= <-]. simpl. set (g := currentLocalUnlinkGeneration p ext st).
    change (rowOf p ext (deleteVerifyIntent _ _ _)) with (rowOf p ext st). rewrite E. split_and!; [|done| |done].
    + unfold g, currentLocalUnlinkGeneration. pose proof (tombstone_positive p ext st) as Hpos.
      destruct (tombstoneGeneration p ext st) as [t|]; [by apply Hpos|lia].
    + rewrite (tombstone_audits p ext (writeLocalUnlinkAudit now p ext (Some g) st)) by done.
      unfold writeLocalUnlinkAudit. rewrite tombstone_write by exact Hafter. by rewrite bool_decide_true by done.
Qed.

Lemma unlinkTx_ok now p ext expected q e st :
  store_inv st → after now st →
  let st' := (unlinkTx now p ext expected st).1 in store_inv st' ∧ moves q e st st'.
Proof.
  intros Hst Hafter. cbv zeta. split.
  - unfold unlinkTx. cbv zeta. destruct (mismatch _ _); [done|]. destruct (rowOf p ext st) as [l|] eqn:E.
    + destruct (isTerminal (l_state l)) eqn:Hterm; [done|].
      destruct (store_inv_row _ _ _ _ Hst E) as (Hin & Hk & Hg). simpl. set (g := l_generation l + 1).
      set (qu := λ m, keyed p ext m && (l_generation m <? g)). set (st1 := writeLocalUnlinkAudit now p ext (Some g) st).
      assert (store_inv st1) as Hst1 by (apply store_inv_tombstone; [unfold g; lia|done]).
      apply (store_inv_core (setLinks (tbl_update qu (unlinkedRow now g) (links st1)) st1)); try done.
      apply store_inv_update; [done| |done]. intros m _ _ _. simpl. unfold g. lia.
    + apply (store_inv_core (writeLocalUnlinkAudit now p ext (Some (currentLocalUnlinkGeneration p ext st)) st)); try done.
      apply store_inv_tombstone; [|done]. unfold currentLocalUnlinkGeneration.
      pose proof (tombstone_positive p ext st) as Hpos. destruct (tombstoneGeneration p ext st); [by apply Hpos|lia].
  - destruct (decide ((q, e) = (p, ext))) as [[= -> ->]|Hne].
    2: { destruct (unlinkTx_other now p ext expected q e st Hafter Hne) as [Hr Ht]. by apply moves_same. }
    pose proof (unlinkTx_ends now p ext expected st) as Hend. cbv zeta in Hend.
    unfold moves, stamp, owned. unfold unlinkTx in *. cbv zeta in *. destruct (mismatch _ _); [by right|].
    destruct (rowOf p ext st) as [l|] eqn:E.
    + destruct (isTerminal (l_state l)) eqn:Hterm; simpl in *; [right; by rewrite ?E|].
      destruct (Hend _ Hst Hafter eq_refl) as [_ Hm]. destruct (rowOf p ext (deleteVerifyIntent _ _ _)); [|naive_solver].
      destruct Hm as [_ ->]. simpl. left. lia.
    + simpl in *. destruct (Hend _ Hst Hafter eq_refl) as [Hp Hm].
      change (rowOf p ext (deleteVerifyIntent _ _ _)) with (rowOf p ext st) in *. rewrite E in Hm.
      destruct Hm as (_ & -> & _). simpl in *. unfold currentLocalUnlinkGeneration in *.
      rewrite E. destruct (tombstoneGeneration p ext st); [by right|left; lia].
Qed.

(** Rows that are removed with their tombstones. *)
Definition tomb (now : Z) (l : Link) : Audit :=
  mkAudit (l_platform l) (hash (l_ext l)) (Some (l_generation l)) ev_locally_unlinked (Some "privacy_unlink") None now.

(** The account is untouched, or its row leaves its generation as a tombstone. *)
Inductive fades (p ext : string) (st st' : Store) : Prop :=
| fades_same : rowOf p ext st' = rowOf p ext st →
    (rowOf p ext st = None → tombstoneGeneration p ext st' = tombstoneGeneration p ext st) → fades p ext st st'
| fades_removed l : rowOf p ext st = Some l → rowOf p ext st' = None →
    tombstoneGeneration p ext st' = Some (l_generation l) → fades p ext st st'.

Lemma fades_moves p ext st st' : fades p ext st st' → moves p ext st st'.
Proof.
  intros [Hr Ht|]; [|by eapply moves_removed]. right. unfold stamp, owned. rewrite Hr.
  destruct (rowOf p ext st); [done|]. by rewrite Ht.
Qed.

Lemma erased_ok now st st' qd removed :
  store_inv st → after now st →
  links st' = tbl_delete qd (links st) → nextLinkId st' = nextLinkId st →
  audits st' = audits st ++ map (tomb now) removed →
  (∀ m, m ∈ removed → m ∈ links st) → (∀ m, m ∈ links st → qd m = true → m ∈ removed) →
  store_inv st' ∧ ∀ q e, fades q e st st'.
Proof.
  intros Hst Hafter Hl Hn Ha Hin Hall. split.
  - apply (store_inv_core (setAudits (audits st ++ map (tomb now) removed) (setLinks (tbl_delete qd (links st)) st)));
      try done. apply (store_inv_audits (setLinks (tbl_delete qd (links st)) st)); [|by apply store_inv_delete].
    intros a (m & -> & Hm)%list_elem_of_fmap _. exists (l_generation m). split; [done|].
    by apply (si_generation _ Hst), Hin.
  - intros q e. assert (∀ m, m ∈ removed → isTombstone q e (tomb now m) = true → rowOf q e st = Some m) as Hmatch.
    { intros m Hm Ht. unfold tomb in Ht. rewrite isTombstone_new, andb_true_r in Ht. apply bool_decide_eq_true in Ht.
      rewrite rowOf_in. apply row_in_unique; [by apply si_key|by apply Hin|by apply link_keyed_spec]. }
    assert (rowOf q e st' = match rowOf q e st with Some l => if qd l then None else Some l | None => None end) as Hrow.
    { rewrite !rowOf_in, Hl. by apply row_in_delete, si_key. }
    assert (∀ g, (∀ m, rowOf q e st = Some m → l_generation m = g) →
      tombstoneGeneration q e st'
      = if tbl_exists (isTombstone q e) (map (tomb now) removed) then Some g else tombstoneGeneration q e st) as Htomb.
    { intros g Hg. rewrite <- (tombstone_app q e st _ now g); [by apply tombstone_audits|exact Hafter|..].
      - by intros a (m & -> & _)%list_elem_of_fmap.
      - intros a (m & -> & Hm)%list_elem_of_fmap Ht. simpl. f_equal. by apply Hg, Hmatch. }
    destruct (rowOf q e st) as [l|] eqn:E.
    + specialize (Htomb (l_generation l) ltac:(by intros m [= <-])). destruct (qd l) eqn:Hq.
      * eapply fades_removed; [done..|]. rewrite Htomb. pose proof (store_inv_row _ _ _ _ Hst E) as (Hlin & Hk & _).
        assert (isTombstone q e (tomb now l) = true) as Ht
          by (unfold tomb; rewrite isTombstone_new, andb_true_r; by apply bool_decide_eq_true).
        destruct (tbl_exists_spec (isTombstone q e) (map (tomb now) removed)) as [|Hno]; [done|].
        destruct Hno. exists (tomb now l). split; [|done]. apply list_elem_of_fmap_2. by apply Hall.
      * by apply fades_same; rewrite E.
    + apply fades_same; [by rewrite E|]. intros _. rewrite (Htomb 0) by done.
      destruct (tbl_exists_spec (isTombstone q e) (map (tomb now) removed)) as [(a & Ha' & Ht)|]; [|done].
      apply list_elem_of_fmap in Ha' as (m & -> & Hm). by specialize (Hmatch m Hm Ht).
Qed.

Lemma elem_of_others l p u st :
  l ∈ otherMappings p u st ↔ l ∈ links st ∧ l_platform l ≠ p ∧ l_platform l ∈ PLATFORMS ∧ l_user l = u.
Proof.
  unfold otherMappings. rewrite elem_of_sortBy.
  assert (∀ ps : list string,
    l ∈ flat_map (λ q, if bool_decide (q = p) then []
                       else tbl_select (λ l, bool_decide (l_platform l = q) && (l_user l =? u)) (links st)) ps
    ↔ l ∈ links st ∧ l_platform l ≠ p ∧ l_platform l ∈ ps ∧ l_user l = u) as Hall; [|apply Hall].
  induction ps as [|q ps IH]; simpl; [split; [by intros ?%not_elem_of_nil|intros (_ & _ & ?%not_elem_of_nil & _); done]|].
  rewrite elem_of_app, IH, elem_of_cons. case_bool_decide as Hq; [subst; rewrite elem_of_nil; naive_solver|].
  rewrite elem_of_tbl_select, andb_true_iff, bool_decide_eq_true, Z.eqb_eq. naive_solver.
Qed.

Lemma unlinkOthers_core now ls st :
  let st' := foldl (λ st l, unlinkOther now l st) st ls in
  links st' = links st ∧ nextLinkId st' = nextLinkId st ∧ audits st' = audits st ++ map (tomb now) ls.
Proof.
  revert st. induction ls as [|l ls IH]; intros st; simpl; [by rewrite app_nil_r|].
  destruct (IH (unlinkOther now l st)) as (-> & -> & ->). split_and!; [done..|]. simpl. by rewrite <- app_assoc.
Qed.

Lemma erase_core p ext user st :
  let st' := eraseLearner p ext user st in
  links st' = links st ∧ nextLinkId st' = nextLinkId st ∧ audits st' = audits st.
Proof. by destruct user. Qed.

Lemma tbl_delete_or (q1 q2 : Link → bool) ls : tbl_delete q2 (tbl_delete q1 ls) = tbl_delete (λ m, q1 m || q2 m) ls.
Proof.
  unfold tbl_delete. induction ls as [|l ls IH]; [done|]. rewrite !filter_cons. destruct (q1 l) eqn:E1; simpl; [done|].
  rewrite filter_cons. destruct (q2 l); simpl; [done|]. by rewrite IH.
Qed.

Lemma deleteTx_ok now p ext durable expected q e st :
  store_inv st → after now st →
  let st' := (deleteTx now p ext durable expected st).1 in store_inv st' ∧ fades q e st st'.
Proof.
  intros Hst Hafter. unfold deleteTx. cbv zeta. destruct (mismatch _ _); [split; [done|by apply fades_same]|].
  destruct (rowOf p ext st) as [l|] eqn:E.
  - destruct (store_inv_row _ _ _ _ Hst E) as (Hin & Hk & _). simpl fst.
    set (st1 := setLinks _ _). assert (audits st1 = audits st ++ [tomb now l]) as Ha1
      by (unfold tomb; injection Hk as -> ->; done).
    destruct (l_user l =? 0).
    2: set (u := l_user l). 2: set (st2 := foldl (λ st0 l0, unlinkOther now l0 st0) st1 (otherMappings p u st1)).
    2: set (qo := λ m, negb (bool_decide (l_platform m = p)) && bool_decide (l_platform m ∈ PLATFORMS) && (l_user m =? u)).
    2: set (st3 := setLinks (tbl_delete qo (links st2)) st2).
    + destruct (erase_core p ext None st1) as (H4 & H5 & H6).
      destruct (erased_ok now st (eraseLearner p ext None st1) (by_id l) [l]) as [Hi Hm]; [done|done|..|by split].
      * rewrite H4. reflexivity.
      * rewrite H5. reflexivity.
      * by rewrite H6.
      * by intros m ->%list_elem_of_singleton.
      * intros m Hm Hq. apply list_elem_of_singleton. by apply (by_id_spec st l m).
    + destruct (unlinkOthers_core now (otherMappings p u st1) st1) as (H1 & H2 & H3). fold st2 in H1, H2, H3.
      destruct (erase_core p ext (Some u) st3) as (H4 & H5 & H6).
      destruct (erased_ok now st (eraseLearner p ext (Some u) st3) (λ m, by_id l m || qo m)
                  (l :: otherMappings p u st1)) as [Hi Hm]; [done|done|..|by split].
      * rewrite H4. simpl. rewrite H1. apply tbl_delete_or.
      * rewrite H5. simpl. by rewrite H2.
      * rewrite H6. simpl. by rewrite H3, Ha1, <- app_assoc.
      * intros m [->|Hm]%elem_of_cons; [done|]. apply elem_of_others in Hm as [Hm _].
        by apply elem_of_tbl_delete in Hm as [_ Hm].
      * intros m Hm Hq. apply elem_of_cons. destruct (by_id l m) eqn:Hid; [left; by apply (by_id_spec st l m)|right].
        simpl in Hq. unfold qo in Hq. apply elem_of_others. bool_to_prop.
        split_and!; [by apply elem_of_tbl_delete|..];
          repeat match goal with H : bool_decide _ = _ |- _ => apply bool_decide_eq_true in H || apply bool_decide_eq_false in H end;
          try done; by apply Z.eqb_eq.
  - simpl. destruct (erase_core p ext None st) as (H4 & H5 & H6). split; [by apply (store_inv_core st)|].
    apply fades_same; [unfold rowOf; by rewrite H4|intros _; by apply tombstone_audits].
Qed.

(** An erasure only deletes rows, the account's among them. *)
Lemma deleteTx_links now p ext durable expected st :
  ∃ qd, links (deleteTx now p ext durable expected st).1 = tbl_delete qd (links st)
        ∧ ∀ l, rowOf p ext st = Some l → mismatch (Some l) expected = false → qd l = true.
Proof.
  unfold deleteTx. cbv zeta. destruct (mismatch (rowOf p ext st) expected) eqn:Em.
  { exists (λ _, false). split; [symmetry; by apply tbl_delete_none|]. intros l Hl. rewrite Hl in Em. congruence. }
  assert (∀ l, by_id l l = true) as Hself by (intros l; unfold by_id; by rewrite Z.eqb_refl, bool_decide_true).
  simpl fst. destruct (rowOf p ext st) as [l|]; cbn [fmap option_fmap option_map truthyUser].
  - set (st1 := setLinks _ _). destruct (l_user l =? 0).
    + exists (by_id l). destruct (erase_core p ext None st1) as (-> & _). split; [done|]. by intros l' [= <-].
    + set (st2 := setLinks _ _). eexists (λ m, by_id l m || _).
      destruct (erase_core p ext (Some (l_user l)) st2) as (-> & _). simpl.
      destruct (unlinkOthers_core now (otherMappings p (l_user l) st1) st1) as (-> & _).
      split; [apply tbl_delete_or|]. intros l' [= <-] _. by rewrite Hself.
  - exists (λ _, false). destruct (erase_core p ext None st) as (-> & _). split; [symmetry; by apply tbl_delete_none|done].
Qed.

(** An erasure that is not refused leaves no row, and a tombstone at most at the
    generation it reports. *)
Lemma deleteTx_ends now p ext expected st out :
  store_inv st → after now st → (deleteTx now p ext true expected st).2 = Some out →
  let st' := (deleteTx now p ext true expected st).1 in
  rowOf p ext st' = None ∧ 1 <= p_generation out
  ∧ ∀ t, tombstoneGeneration p ext st' = Some t → t = p_generation out.
Proof.
  intros Hst Hafter Hout. cbv zeta.
  assert (mismatch (rowOf p ext st) expected = false
          ∧ p_generation out = match rowOf p ext st with
                               | Some l => l_generation l
                               | None => currentLocalUnlinkGeneration p ext st
                               end) as [Hm Hg].
  { unfold deleteTx in Hout. cbv zeta in Hout. destruct (mismatch _ _); [done|]. by injection Hout as <-. }
  destruct (deleteTx_links now p ext true expected st) as (qd & Hl & Hq).
  assert (rowOf p ext (deleteTx now p ext true expected st).1 = None) as Hnone.
  { rewrite rowOf_in, Hl, row_in_delete by by apply si_key. rewrite <- rowOf_in.
    destruct (rowOf p ext st) as [l|]; [by rewrite Hq|done]. }
  split; [done|].
  pose proof (tombstone_positive p ext st) as Hpos. pose proof (store_inv_row p ext st) as Hrow.
  destruct (deleteTx_ok now p ext true expected p ext st Hst Hafter) as [_ [Hr Ht|l Hr _ Ht]].
  - rewrite Hnone in Hr. rewrite <- Hr in Hg, Ht. rewrite Ht by done. unfold currentLocalUnlinkGeneration in Hg.
    destruct (tombstoneGeneration p ext st) as [t|]; rewrite Hg; split; try lia; [by apply Hpos|congruence|done].
  - rewrite Hr in Hg. rewrite Ht, Hg. destruct (Hrow l Hst Hr) as (_ & _ & ?). split; [done|]. congruence.
Qed.

(** ** Histories *)

(** The clock does not go back behind the audit rows. *)
Definition ordered (e : Event) (st : Store) : Prop :=
  match e with
  | EUpsert now _ _ _ _ | EObserve now _ _ _ _ | EUnlink now _ _ _ | EDelete now _ _ _ _ => after now st
  | _ => True
  end.

(** The account's row is not displaced by a link of its learner to another account,
    and its tombstone is not purged. *)
Definition undisturbed (p ext : string) (e : Event) (st : Store) : Prop :=
  match e with
  | EUpsert _ q user e' _ => ∀ m, rowOf p ext st = Some m → displaces q user e' m = false
  | EDeleteAudits cutoff => tombstoneGeneration p ext (deleteAuditsBefore cutoff st) = tombstoneGeneration p ext st
  | _ => True
  end.

Fixpoint ordered_run (es : list Event) (st : Store) : Prop :=
  match es with [] => True | e :: es' => ordered e st ∧ ordered_run es' (exec e st) end.

Fixpoint calm (p ext : string) (es : list Event) (st : Store) : Prop :=
  match es with
  | [] => True
  | e :: es' => ordered e st ∧ undisturbed p ext e st ∧ calm p ext es' (exec e st)
  end.

Lemma prompts_ok st st' q f b e :
  store_inv st → (∀ l, l_id (f l) = l_id l ∧ linkKey (f l) = linkKey l ∧ l_user (f l) = l_user l) →
  (∀ l, l_generation (f l) = l_generation l ∧ l_state (f l) = l_state l) →
  st' = setLinks (tbl_update q f (links st)) st → store_inv st' ∧ moves b e st st'.
Proof.
  intros Hst Hf Hg ->. split.
  - apply store_inv_update; [done| |done]. intros l _ _ ?. by rewrite (proj1 (Hg l)).
  - assert (rowOf b e (setLinks (tbl_update q f (links st)) st) = (λ l, if q l then f l else l) <$> rowOf b e st) as Hr
      by (apply row_in_update; intros l; apply Hf).
    destruct (rowOf b e st) as [l|] eqn:E; [|by apply moves_same; rewrite ?Hr, ?E].
    eapply moves_present; [done|exact Hr|]. right. destruct (Hf l) as (_ & _ & Hu), (Hg l) as [Hgen Hs].
    destruct (q l); [by rewrite Hgen, Hu, Hs|done].
Qed.

Lemma link_exec_inv e st : store_inv st → ordered e st → store_inv (exec e st).
Proof.
  intros Hst Ho. destruct e; simpl in *.
  - destruct (upsertLink_cases now p user ext o st Hst); [done..|by eapply upserted_inv].
  - by apply (applyObservation_ok now p ext o expected p ext).
  - by apply (unlinkTx_ok now p ext expected p ext).
  - by apply (deleteTx_ok now p ext durable expected p ext).
  - eapply (prompts_ok st _ _ _ p ext); cycle 3; [reflexivity|done..].
  - eapply (prompts_ok st _ _ _ p ext); cycle 3; [reflexivity|done..].
  - eapply (prompts_ok st _ _ _ p ext); cycle 3; [reflexivity|done..].
  - destruct Hst as [? ? ? ? ? Ht]. split; try done. simpl. intros a [_ Ha]%elem_of_tbl_delete. auto.
Qed.

Lemma exec_moves e st q ext' :
  store_inv st → ordered e st → undisturbed q ext' e st → moves q ext' st (exec e st).
Proof.
  intros Hst Ho Hu. destruct e; simpl in *.
  - destruct (upsertLink_cases now p user ext o st Hst); [by right..|by eapply upserted_moves].
  - by apply applyObservation_ok.
  - by apply unlinkTx_ok.
  - by apply fades_moves, deleteTx_ok.
  - eapply prompts_ok; cycle 3; [reflexivity|done..].
  - eapply prompts_ok; cycle 3; [reflexivity|done..].
  - eapply prompts_ok; cycle 3; [reflexivity|done..].
  - by apply moves_same.
Qed.

Lemma link_init_inv : store_inv init.
Proof. split; simpl; try apply NoDup_nil_2; by intros ? ?%not_elem_of_nil. Qed.

Lemma link_run_inv es st : store_inv st → ordered_run es st → store_inv (run es st).
Proof. revert st. induction es as [|e es IH]; simpl; [done|]. intros st Hst [He Hes]. apply IH; [by apply link_exec_inv|done]. Qed.

Definition reachable (st : Store) : Prop := ∃ es, ordered_run es init ∧ st = run es init.

Lemma reachable_inv st : reachable st → store_inv st.
Proof. intros (es & Hes & ->). apply link_run_inv; [apply link_init_inv|done]. Qed.

Lemma calm_inv p ext es st : store_inv st → calm p ext es st → store_inv (run es st).
Proof.
  revert st. induction es as [|e es IH]; simpl; [done|]. intros st Hst (Ho & _ & Hes).
  apply IH; [by apply link_exec_inv|done].
Qed.

Lemma calm_grows p ext es st : store_inv st → calm p ext es st → stamp p ext st <= stamp p ext (run es st).
Proof.
  revert st. induction es as [|e es IH]; simpl; [lia|]. intros st Hst (Ho & Hu & Hes).
  specialize (IH _ (link_exec_inv _ _ Hst Ho) Hes). destruct (exec_moves e st p ext Hst Ho Hu); lia.
Qed.

(** If the stamp at the end is the stamp at the start, nothing changed hands. *)
Lemma calm_owned p ext es st k :
  store_inv st → calm p ext es st → stamp p ext (run es st) = stamp p ext st →
  owned p ext (run (take k es) st) = owned p ext st.
Proof.
  revert st k. induction es as [|e es IH]; intros st [|k]; simpl; try done. intros Hst (Ho & Hu & Hes) Hs.
  pose proof (link_exec_inv _ _ Hst Ho) as Hst'. pose proof (calm_grows p ext es _ Hst' Hes) as Hle.
  destruct (exec_moves e st p ext Hst Ho Hu) as [?|[Heq Hown]]; [lia|].
  rewrite IH by (done || lia). by rewrite Hown.
Qed.

(** C4. The ownership fence of account links. Let a token be verified against a
    state of the tables that was reached by any transactions, on a clock that does
    not go back, and let any other transactions follow that neither displace the
    account's row (a link of the same learner to another account does) nor purge
    its tombstone. Then linking never violates the unique index; it is refused
    exactly when the learner does not own the account already and the account's
    generation has moved since the token was verified; and when it writes, nobody
    took, lost or ended the account at any point in between, and the learner owns
    it afterwards under the generation that is returned. *)
Theorem link_fence_exact p ext user now es st :
  reachable st → calm p ext es st →
  let o := getMappingObservation p ext st in
  let st' := run es st in
  let '(st'', r) := upsertLink now p user ext o st' in
  r ≠ uniqueViolation
  ∧ (r = ownershipConflict ↔ ¬ isCommitted p user ext st' ∧ stamp p ext st' ≠ stamp p ext st)
  ∧ ∀ u g, r = linked u → mappingGeneration u = Some g →
      (∀ k, owned p ext (run (take k es) st) = owned p ext st)
      ∧ ∃ v, findCurrentIdentity p ext st'' = Some (user, (v.1, v.2, g)).
Proof.
  intros Hreach Hcalm. cbv zeta. pose proof (reachable_inv _ Hreach) as Hst. set (o := getMappingObservation p ext st).
  pose proof (calm_inv _ _ _ _ Hst Hcalm) as Hst'. pose proof (observation_stamp p ext st Hst) as Ho. fold o in Ho.
  pose proof (upsertLink_cases now p user ext o (run es st) Hst') as Hcase.
  destruct (upsertLink now p user ext o (run es st)) as [st'' r]. simpl in Hcase.
  destruct Hcase as [Hc|Hc Hs|st3 l previous Hc Hs [Ha Hrow Hl]].
  - split_and!; [done| |].
    + split; [done|]. by intros [Hn _].
    + intros u g [= <-]. done.
  - split_and!; [done| |done]. split; [|done]. intros _. split; [done|]. by rewrite <- Ho.
  - split_and!; [done| |].
    + split; [done|]. intros [_ Hne]. congruence.
    + intros u g [= <-] [= <-]. split.
      * intros k. apply calm_owned; [done|done|congruence].
      * exists (l_id l, l_linkedAt l). unfold findCurrentIdentity. rewrite Hrow.
        assert (l_user l = user ∧ l_state l = RJobs.ls_active) as [-> ->]
          by (destruct (rowOf p ext (run es st)); destruct Hl as (-> & _); done).
        done.
Qed.

(** ** Only a link gives an account to a learner *)

(** The account keeps its owner, or loses it. *)
Definition declines (p ext : string) (st st' : Store) : Prop :=
  owned p ext st' = owned p ext st ∨ owned p ext st' = None ∨ ∃ u, owned p ext st' = Some (u, true).

Lemma declines_row p ext st st' l l' :
  rowOf p ext st = Some l → rowOf p ext st' = Some l' →
  l_user l' = l_user l ∧ isTerminal (l_state l') = isTerminal (l_state l) ∨ isTerminal (l_state l') = true →
  declines p ext st st'.
Proof.
  unfold declines, owned. intros -> ->. simpl. intros [[-> ->]| ->]; [by left|right; right; by eexists].
Qed.

Lemma declines_rows p ext st st' : rowOf p ext st' = rowOf p ext st → declines p ext st st'.
Proof. intros Hr. left. unfold owned. by rewrite Hr. Qed.

Lemma updateRow_declines st st' l f q e :
  (∀ m, linkKey (f m) = linkKey m) → store_inv st → l ∈ links st →
  l_user (f l) = l_user l ∧ isTerminal (l_state (f l)) = isTerminal (l_state l) ∨ isTerminal (l_state (f l)) = true →
  links st' = links (updateRow l f st) → declines q e st st'.
Proof.
  intros Hf Hst Hl Hd Hlinks.
  assert (rowOf q e st' = rowOf q e (updateRow l f st)) as Hr by (unfold rowOf; by rewrite Hlinks).
  rewrite rowOf_updateRow in Hr by done. destruct (keyed q e l) eqn:Hk; [|by apply declines_rows].
  eapply declines_row; [|exact Hr|exact Hd]. rewrite rowOf_in. by apply row_in_unique; [apply si_key|..].
Qed.

Lemma applyObservation_declines now p ext o expected q e st :
  store_inv st → declines q e st (applyObservation now p ext o expected st).1.
Proof.
  intros Hst. assert (declines q e st st) as Hrefl by by left. unfold applyObservation.
  destruct (rowOf p ext st) as [current|] eqn:E; [|done].
  destruct (store_inv_row _ _ _ _ Hst E) as (Hin & _ & _).
  assert (∀ f st', (∀ m, linkKey (f m) = linkKey m) →
    l_user (f current) = l_user current ∧ isTerminal (l_state (f current)) = isTerminal (l_state current)
      ∨ isTerminal (l_state (f current)) = true →
    links st' = links (updateRow current f st) → declines q e st st') as Hupd
    by (intros; by eapply updateRow_declines).
  assert (∀ reason version, declines q e st (revoke now current reason version st).1) as Hrev
    by (intros; apply (Hupd (revokedRow now (l_generation current + 1) reason version)); [done|by right|done]).
  cbv zeta. destruct (match expected with Some _ => _ | None => _ end); [done|].
  case_bool_decide as Hun; [done|].
  assert (l_state current ≠ RJobs.ls_revoked → isTerminal (l_state current) = false) as Hterm
    by (intros; unfold isTerminal; by rewrite !bool_decide_false).
  destruct o as [user version|reason version|reason].
  - destruct (negb (user =? l_user current)); [done|]. case_bool_decide as Hr; [done|].
    assert (declines q e st (updateRow current (verifiedRow now version) st)) as Hd
      by (apply (Hupd (verifiedRow now version)); [done|left; split; [done|by rewrite Hterm]|done]).
    case_bool_decide; exact Hd.
  - case_bool_decide; [done|apply Hrev].
  - case_bool_decide as Hr; [done|].
    assert (declines q e st (updateRow current (unknownRow now) st)) as Hd
      by (apply (Hupd (unknownRow now)); [done|left; split; [done|by rewrite Hterm]|done]).
    case_bool_decide; exact Hd.
Qed.

Lemma unlinkTx_declines now p ext expected q e st :
  store_inv st → declines q e st (unlinkTx now p ext expected st).1.
Proof.
  intros Hst. assert (declines q e st st) as Hrefl by by left. unfold unlinkTx.
  cbv zeta. destruct (mismatch _ _); [done|]. destruct (rowOf p ext st) as [l|] eqn:E; [|by apply declines_rows].
  destruct (isTerminal (l_state l)); [done|]. simpl. set (g := l_generation l + 1).
  set (qu := λ m, keyed p ext m && (l_generation m <? g)).
  assert (rowOf q e (setLinks (tbl_update qu (unlinkedRow now g) (links st)) st)
          = (λ m, if qu m then unlinkedRow now g m else m) <$> rowOf q e st) as Hrow by by apply row_in_update.
  destruct (rowOf q e st) as [m|] eqn:Em; simpl in Hrow; [|left; unfold owned; rewrite Em; by rewrite <- Hrow].
  eapply declines_row; [done|exact Hrow|]. destruct (qu m); [by right|by left].
Qed.

Lemma deleteTx_declines now p ext durable expected q e st :
  store_inv st → declines q e st (deleteTx now p ext durable expected st).1.
Proof.
  intros Hst. destruct (deleteTx_links now p ext durable expected st) as (qd & Hl & _).
  assert (rowOf q e (deleteTx now p ext durable expected st).1
          = match rowOf q e st with Some l => if qd l then None else Some l | None => None end)
    as Hr by (rewrite !rowOf_in, Hl; by apply row_in_delete, si_key).
  unfold declines, owned. rewrite Hr. destruct (rowOf q e st) as [l|]; [destruct (qd l)|]; naive_solver.
Qed.

Lemma prompts_declines st st' q f p ext :
  (∀ l, linkKey (f l) = linkKey l ∧ l_user (f l) = l_user l ∧ l_state (f l) = l_state l) →
  st' = setLinks (tbl_update q f (links st)) st → declines p ext st st'.
Proof.
  intros Hf ->.
  assert (rowOf p ext (setLinks (tbl_update q f (links st)) st) = (λ l, if q l then f l else l) <$> rowOf p ext st) as Hr
    by (apply row_in_update; intros l; apply Hf).
  left. unfold owned. rewrite Hr. destruct (rowOf p ext st) as [l|]; [simpl|done].
  destruct (Hf l) as (_ & Hu & Hs). destruct (q l); [by rewrite Hu, Hs|done].
Qed.

(** C12. Whatever transaction runs on tables reached with a clock that does not go
    back, an account becomes a learner's only by a link whose observation carries
    the generation stamp that the account has at that moment: neither a status
    observation nor an unlink, an erasure or a prompt gives an account away or
    revives an ended link. The stamp is all that is compared; a displaced row's
    generation may come back. *)
Theorem ownership_only_by_link p ext user e st :
  reachable st → owned p ext st ≠ Some (user, false) → owned p ext (exec e st) = Some (user, false) →
  ∃ now o, e = EUpsert now p user ext o ∧ stampOf o = stamp p ext st.
Proof.
  intros Hreach Hbefore Hafter. pose proof (reachable_inv _ Hreach) as Hst.
  assert (declines p ext st (exec e st) → False) as Hno.
  { intros [Heq|[Heq|[u Heq]]]; rewrite Hafter in Heq; congruence. }
  destruct e as [now q u e o| | | | | | |cutoff]; simpl in *.
  - destruct (upsertLink_cases now q u e o st Hst) as [| |st' l prev Hnc Hs [Ha Hr Hl]]; [done..|].
    destruct (decide ((q, e) = (p, ext))) as [[= -> ->]|Hne].
    + exists now, o. split; [|done]. unfold owned in Hafter. rewrite Hr in Hafter.
      destruct (rowOf p ext st) as [old|]; destruct Hl as (-> & _); simpl in Hafter; by injection Hafter as ->.
    + destruct Hno. unfold declines, owned. rewrite !rowOf_in.
      assert (∀ x, row_in p ext (tbl_delete (displaces q u e) (links st)) = Some x → row_in p ext (links st) = Some x) as Hback.
      { intros x. rewrite row_in_delete by by apply si_key. destruct (row_in p ext (links st)) as [m|]; [|done].
        by destruct (displaces q u e m). }
      assert (row_in p ext (links st') = row_in p ext (tbl_delete (displaces q u e) (links st))) as ->.
      { destruct (rowOf q e st) as [old|] eqn:E; destruct Hl as (Hll & -> & _).
        - rewrite row_in_update by done. destruct (row_in p ext _) as [m|] eqn:Em; [|done]. simpl.
          apply row_in_Some in Em as [_ Hk%link_keyed_spec]. destruct (keyed q e m) eqn:Hk'; [|done].
          apply link_keyed_spec in Hk'. congruence.
        - rewrite row_in_app. destruct (keyed p ext l) eqn:Hk; [|done]. apply link_keyed_spec in Hk. rewrite Hll in Hk.
          simpl in Hk. congruence. }
      destruct (row_in p ext (tbl_delete _ _)) as [m|]; [|by right; left]. left. by rewrite (Hback m).
  - destruct Hno. by apply applyObservation_declines.
  - destruct Hno. by apply unlinkTx_declines.
  - destruct Hno. by apply deleteTx_declines.
  - destruct Hno. eapply prompts_declines; [|reflexivity]; done.
  - destruct Hno. eapply prompts_declines; [|reflexivity]; done.
  - destruct Hno. eapply prompts_declines; [|reflexivity]; done.
  - destruct Hno. by apply declines_rows.
Qed.

End Proofs.
(** ** Concrete histories *)

Definition plainRuntime : Runtime := {| hash := λ x, x; localeLe := String.leb |}.
#[local] Existing Instance plainRuntime.

Definition linkOnce : list Event := [EUpsert 1 "discord" 1 "a" (absent None)].
Definition checkOnce : list Event := [EObserve 2 "discord" "a" (seen_active 1 None) None].

Lemma linkOnce_reachable : reachable (run linkOnce init).
Proof. exists linkOnce. split; [|done]. split; [by intros ? ?%not_elem_of_nil|done]. Qed.

Lemma link_fence_exact_witness :
  reachable (run linkOnce init) ∧ calm "discord" "a" checkOnce (run linkOnce init)
  ∧ (upsertLink 3 "discord" 2 "a" (getMappingObservation "discord" "a" (run linkOnce init))
       (run checkOnce (run linkOnce init))).2
    = linked (mkUpsert true (Some 1) (Some 2) [])
  ∧ (∀ k, owned "discord" "a" (run (take k checkOnce) (run linkOnce init)) = owned "discord" "a" (run linkOnce init)).
Proof.
  assert (calm "discord" "a" checkOnce (run linkOnce init)) as Hcalm
    by (split; [by intros ? ?%not_elem_of_nil|done]).
  split; [exact linkOnce_reachable|]. split; [exact Hcalm|]. split; [vm_compute; reflexivity|].
  pose proof (link_fence_exact "discord" "a" 2 3 checkOnce (run linkOnce init) linkOnce_reachable Hcalm) as Hfence.
  cbv zeta in Hfence.
  destruct (upsertLink 3 "discord" 2 "a" (getMappingObservation "discord" "a" (run linkOnce init))
              (run checkOnce (run linkOnce init))) as [st r] eqn:E.
  destruct Hfence as (_ & _ & Hf).
  refine (proj1 (Hf (mkUpsert true (Some 1) (Some 2) []) 2 _ eq_refl)).
  assert ((upsertLink 3 "discord" 2 "a" (getMappingObservation "discord" "a" (run linkOnce init))
             (run checkOnce (run linkOnce init))).2 = linked (mkUpsert true (Some 1) (Some 2) [])) as H
    by (vm_compute; reflexivity).
  rewrite E in H. exact H.
Defined.

Lemma ownership_only_by_link_witness :
  reachable init ∧ owned "discord" "a" init ≠ Some (1, false)
  ∧ owned "discord" "a" (exec (EUpsert 1 "discord" 1 "a" (absent None)) init) = Some (1, false)
  ∧ ∃ now o, EUpsert 1 "discord" 1 "a" (absent None) = EUpsert now "discord" 1 "a" o
             ∧ stampOf o = stamp "discord" "a" init.
Proof.
  assert (reachable init) as Hr by (by exists []). split; [exact Hr|]. split; [done|].
  split; [reflexivity|]. by apply (ownership_only_by_link "discord" "a" 1 (EUpsert 1 "discord" 1 "a" (absent None)) init).
Defined.

(** ** Where the fence has gaps *)

(** Displacing a link deletes its row without a tombstone, so the account starts
    again at generation 1.  A token of learner 3 verified against the first link of
    the account passes the fence of the second, which belongs to learner 2. *)
Definition displacedOnce : list Event :=
  [EUpsert 1 "discord" 1 "a" (absent None);
   EUpsert 2 "discord" 1 "b" (absent None);
   EUpsert 3 "discord" 2 "a" (absent None)].

Theorem displaced_generation_is_reused :
  let o := getMappingObservation "discord" "a" (run (take 1 displacedOnce) init) in
  owned "discord" "a" (run displacedOnce init) = Some (2, false)
  ∧ (upsertLink 4 "discord" 3 "a" o (run displacedOnce init)).2 = linked (mkUpsert true (Some 2) (Some 2) []).
Proof. vm_compute. done. Qed.

(** [findUserId] answers for an ended link: it does not load the state it tests. *)
Definition revokedOnce : list Event :=
  [EUpsert 1 "discord" 1 "a" (absent None); EObserve 2 "discord" "a" (seen_revoked "unlinked upstream" None) None].

Theorem revoked_link_still_resolves :
  let st := run revokedOnce init in
  findUserId "discord" "a" st = Some 1
  ∧ findMappingState "discord" "a" st = (RJobs.ls_revoked, Some 1)
  ∧ findCurrentIdentity "discord" "a" st = None.
Proof. vm_compute. done. Qed.

(** The consent prompt of a row is not due again when another learner takes it. *)
Theorem relinked_learner_gets_no_prompt :
  let st := run [EUpsert 1 "discord" 1 "a" (absent None); EClaimPrompt 2 "discord" "a";
                 EUpsert 3 "discord" 2 "a" (present 1)] init in
  owned "discord" "a" st = Some (2, false) ∧ (claimConsentPrompt 4 "discord" "a" st).2 = false.
Proof. vm_compute. done. Qed.

(** A revocation cancels the account's reminders, outbox jobs and legacy claims, and
    leaves the claims of the learner table alone. *)
Theorem revoke_suspends now current reason version st :
  let st' := (revoke now current reason version st).1 in
  (∀ j, j ∈ RJobs.jobs (reminders st') → reminderOf (l_platform current) (l_ext current) j = true →
     isWork (RJobs.status j) = false)
  ∧ (∀ j, j ∈ SendJobs.jobs (reportJobs st') → reportJobOf (l_platform current) (l_ext current) j = true →
     SendJobs.status j ∉ [SendJobs.pending; SendJobs.processing; SendJobs.failed])
  ∧ (∀ c, c ∈ Claims.legacy (claims st') → claimOf (l_platform current) (l_ext current) c = true →
     Claims.status c ≠ Claims.claimed)
  ∧ Claims.learner (claims st') = Claims.learner (claims st).
Proof.
  set (p := l_platform current). set (ext := l_ext current). simpl. fold p ext. split_and!; [..|done].
  - intros j (j0 & Hj0 & ->)%elem_of_tbl_update. destruct (reminderOf p ext j0 && isWork (RJobs.status j0)) eqn:E; [done|].
    intros Hof. by rewrite Hof in E.
  - intros j (j0 & Hj0 & ->)%elem_of_tbl_update.
    destruct (reportJobOf p ext j0 && bool_decide (SendJobs.status j0 ∈ _)) eqn:E.
    + intros _. simpl. rewrite !not_elem_of_cons. by split_and!; [..|apply not_elem_of_nil].
    + intros Hof. rewrite Hof in E. by apply bool_decide_eq_false in E.
  - intros c (c0 & Hc0 & ->)%elem_of_tbl_update.
    destruct (claimOf p ext c0 && Claims.has_status Claims.claimed c0) eqn:E; [done|].
    intros Hof. rewrite Hof in E. by apply bool_decide_eq_false in E.
Qed.

End Fence.
