(* ===== verification/LinkFlow.v ===== *)
(** * The link flow (packages/account-link-core, account-link.core.ts)

    [LinkCompletionCore.complete] and [LinkReconcileCronCore.runBatch] as programs
    over their awaited calls, and the verify-intent tables of Discord and Zalo
    (typeorm-discord-link-verify-record.repository.ts and its Zalo twin).  Any
    number of callbacks and reconcile ticks run interleaved with every transaction
    of [AccountLinks], each call may throw before or after it took effect, and a
    process may die anywhere. *)

From S2P Require Import Prelude Table ReminderJobs AccountLinks LinkFence.

Module Flow.
Import Links Fence.

(** ** Verify intents *)

Section Intents.
Context (p : string).

Definition intentOf (ext : string) (v : Intent) : bool := bool_decide (v_platform v = p) && bool_decide (v_ext v = ext).

Record IntentId := mkId { i_ext : string; i_user : Z; i_generation : Z }.

Definition idOf (v : Intent) : IntentId := mkId (v_ext v) (v_user v) (v_generation v).

Definition renewed (now user : Z) (o : MappingObservation) (v : Intent) : Intent :=
  mkIntent (v_platform v) (v_ext v) user now (v_generation v + 1) o.

Definition recordVerify (now : Z) (ext : string) (user : Z) (o : MappingObservation) (st : Store) : Store * Z :=
  let '(vs, r) := tbl_upsert (intentOf ext) (λ _, true) (renewed now user o) (mkIntent p ext user now 1 o) (intents st) in
  (setIntents vs st, default 1 (v_generation <$> r)).

Definition matchesId (i : IntentId) (v : Intent) : bool :=
  intentOf (i_ext i) v && (v_user v =? i_user i) && (v_generation v =? i_generation i).

Definition consumeRecord (i : IntentId) (st : Store) : Store * bool :=
  (setIntents (tbl_delete (matchesId i) (intents st)) st, tbl_exists (matchesId i) (intents st)).

Definition discardRecord (ext : string) (st : Store) : Store :=
  setIntents (tbl_delete (intentOf ext) (intents st)) st.

Definition listStaleRecords (now olderThanMs : Z) (st : Store) : list Intent :=
  take 100 (sortBy (λ v w, v_verifiedAt v <=? v_verifiedAt w)
    (tbl_select (λ v, bool_decide (v_platform v = p) && (v_verifiedAt v <? now - olderThanMs)) (intents st))).

Definition findPending (ext : string) (st : Store) : option (Z * Z) :=
  (λ v, (v_user v, v_verifiedAt v)) <$> head (tbl_select (intentOf ext) (intents st)).
End Intents.

(** ** Programs *)

(** Errors by what [retry] and the handlers look at. *)
Inductive Err := conflictErr | abortErr | otherErr (message : string).

Definition isOwnershipConflict (e : Err) : bool := match e with conflictErr => true | _ => false end.

Definition defaultShouldRetry (e : Err) : bool := match e with otherErr _ => true | _ => false end.

Record LinkStateSnapshot := mkSnapshot { ls_state : LinkState; ls_generation : Z; ls_revokedAt : option Z }.

Record BatchResult := mkBatch {
  b_records : Z; b_reconciled : Z; b_alreadyCommitted : Z; b_dropped : Z; b_mismatched : Z; b_failed : Z
}.

Inductive Outcome :=
| linkedResult (joinCommunity : bool)
| tokenRejected
| persistenceExhausted (e : Err)
| linkConflict
| threw (e : Err)
| batchDone (b : BatchResult).

Inductive Prog :=
| Exchange (k : string + Err → Prog)
| Observe (ext : string) (k : MappingObservation + Err → Prog)
| Verify (ext : string) (k : option Z + Err → Prog)
| RecordIntent (ext : string) (user : Z) (o : MappingObservation) (k : Z + Err → Prog)
| Upsert (user : Z) (ext : string) (o : MappingObservation) (k : LinkUpsertResult + Err → Prog)
| Consume (i : IntentId) (k : bool + Err → Prog)
| Clear (ext : string) (k : unit + Err → Prog)
| AfterCommit (ext : string) (user : Z) (r : LinkUpsertResult) (k : bool + Err → Prog)
| ListStale (olderThanMs : Z) (k : list Intent + Err → Prog)
| FindUser (ext : string) (k : option Z + Err → Prog)
| GetState (ext : string) (k : option LinkStateSnapshot + Err → Prog)
| FreshRelink (ext : string) (user : Z) (k : bool + Err → Prog)
| OnReconciled (v : Intent) (r : LinkUpsertResult) (k : unit + Err → Prog)
| Clock (k : Z → Prog)
| Done (o : Outcome).

Section Programs.
Context (shouldRetry : Err → bool).

(** [retry] with [n + 1] attempts; the sleeps are no statements. *)
Fixpoint retry {A} (n : nat) (op : (A + Err → Prog) → Prog) (k : A + Err → Prog) : Prog :=
  op (λ r, match r, n with
           | inr e, S n' => if shouldRetry e then retry n' op k else k r
           | _, _ => k r
           end).

(** *** [LinkCompletionCore.complete] *)

Definition afterCommit (consumeAfter : bool) (i : IntentId) (ext : string) (user : Z) (res : LinkUpsertResult) : Prog :=
  Clear ext (λ _, AfterCommit ext user res (λ r,
    match r with
    | inl join => if consumeAfter then Consume i (λ _, Done (linkedResult join)) else Done (linkedResult join)
    | inr _ => Done (linkedResult false)
    end)).

Definition commit (attempts : nat) (consumeAfter : bool) (ext : string) (user : Z) (o : MappingObservation) (g : Z) : Prog :=
  let i := mkId ext user g in
  retry attempts (Upsert user ext o) (λ r,
    match r with
    | inr e => if isOwnershipConflict e then Consume i (λ _, Done linkConflict) else Done (persistenceExhausted e)
    | inl res =>
        if consumeAfter then afterCommit consumeAfter i ext user res
        else Consume i (λ _, afterCommit consumeAfter i ext user res)
    end).

Definition complete (attempts : nat) (consumeAfter : bool) : Prog :=
  Exchange (λ r, match r with
  | inr e => Done (threw e)
  | inl ext =>
      Observe ext (λ r, match r with
      | inr e => Done (threw e)
      | inl o =>
          Verify ext (λ r, match r with
          | inr e => Done (threw e)
          | inl None => Done tokenRejected
          | inl (Some user) =>
              retry attempts (RecordIntent ext user o) (λ r, match r with
              | inr e => Done (persistenceExhausted e)
              | inl g => commit attempts consumeAfter ext user o g
              end)
          end)
      end)
  end).

(** *** [LinkReconcileCronCore.runBatch] *)

Inductive RecordOutcome := o_reconciled | o_already_committed | o_dropped | o_mismatched | o_failed.

Definition tally (o : RecordOutcome) (b : BatchResult) : BatchResult :=
  match b with
  | mkBatch n r a d m f =>
      match o with
      | o_reconciled => mkBatch n (r + 1) a d m f
      | o_already_committed => mkBatch n r (a + 1) d m f
      | o_dropped => mkBatch n r a (d + 1) m f
      | o_mismatched => mkBatch n r a d (m + 1) f
      | o_failed => mkBatch n r a d m (f + 1)
      end
  end.

Section Record.
Context (attempts : nat) (consumeAfter : bool) (maxRecordAgeMs : Z) (v : Intent) (next : RecordOutcome → Prog).

Definition consumeThen (o : RecordOutcome) : Prog :=
  Consume (idOf v) (λ r, match r with inl _ => next o | inr _ => next o_failed end).

(** Consumption before the side effect unless [consumeVerifyIntentAfterReconciled];
    the side effect's failure counts only in that case. *)
Definition settle (o : RecordOutcome) (side : (unit + Err → Prog) → Prog) : Prog :=
  Clear (v_ext v) (λ _,
    if consumeAfter
    then side (λ r, match r with inl _ => consumeThen o | inr _ => next o_failed end)
    else Consume (idOf v) (λ r, match r with inl _ => side (λ _, next o) | inr _ => next o_failed end)).

Definition alreadyCommitted : Prog :=
  settle o_already_committed (λ k, GetState (v_ext v) (λ r, match r with
    | inr e => k (inr e)
    | inl st => OnReconciled v (mkUpsert false None (ls_generation <$> st) []) k
    end)).

Definition relink : Prog :=
  retry attempts (Upsert (v_user v) (v_ext v) (v_observation v)) (λ r, match r with
    | inr e => if isOwnershipConflict e then consumeThen o_mismatched else next o_failed
    | inl res => settle o_reconciled (OnReconciled v res)
    end).

(** [isBlocked]. *)
Definition unlessBlocked (st : option LinkStateSnapshot) : Prog :=
  match st with
  | None => relink
  | Some s =>
      if bool_decide (ls_state s = RJobs.ls_revoked) then consumeThen o_dropped
      else if bool_decide (ls_state s = RJobs.ls_active) then relink
      else if bool_decide (ls_state s = RJobs.ls_unlinked)
              && match ls_revokedAt s with Some t => v_verifiedAt v <=? t | None => false end
      then consumeThen o_dropped
      else FreshRelink (v_ext v) (v_user v) (λ r, match r with
             | inl true => relink
             | inl false => consumeThen o_dropped
             | inr _ => next o_failed
             end)
  end.

Definition reconcileRecord : Prog :=
  FindUser (v_ext v) (λ r, match r with
    | inr _ => next o_failed
    | inl existing =>
        if bool_decide (existing = Some (v_user v)) then alreadyCommitted
        else Clock (λ now,
          if maxRecordAgeMs <=? now - v_verifiedAt v then consumeThen o_dropped
          else GetState (v_ext v) (λ r, match r with inr _ => next o_failed | inl st => unlessBlocked st end))
    end).
End Record.

Fixpoint reconcileAll (attempts : nat) (consumeAfter : bool) (maxRecordAgeMs : Z) (vs : list Intent) (b : BatchResult) : Prog :=
  match vs with
  | [] => Done (batchDone b)
  | v :: vs' =>
      reconcileRecord attempts consumeAfter maxRecordAgeMs v
        (λ o, reconcileAll attempts consumeAfter maxRecordAgeMs vs' (tally o b))
  end.

Definition runBatch (attempts : nat) (consumeAfter : bool) (staleAgeMs maxRecordAgeMs : Z) (maxRecords : nat) : Prog :=
  ListStale staleAgeMs (λ r, match r with
    | inr e => Done (threw e)
    | inl vs =>
        let vs := take maxRecords vs in
        reconcileAll attempts consumeAfter maxRecordAgeMs vs (mkBatch (Z.of_nat (length vs)) 0 0 0 0 0)
    end).
End Programs.
(** ** The system on one platform *)

Section System.
Context `{Runtime}.
Context (p : string).

(** [w_verified]: the pairs of account and learner that the upstream verified. *)
Record World := mkWorld { w_store : Store; w_workers : list Prog; w_verified : list (string * Z) }.

Definition init : World := mkWorld Links.init [] [].

Inductive DbAnswer := db_ok | db_threw (applied : bool) (e : Err).

Inductive WEvent :=
| WComplete (shouldRetry : Err → bool) (attempts : nat) (consumeAfter : bool)
| WBatch (shouldRetry : Err → bool) (attempts : nat) (consumeAfter : bool) (staleAgeMs maxRecordAgeMs : Z) (maxRecords : nat)
| WExchange (n : nat) (r : string + Err)
| WVerify (n : nat) (r : option Z + Err)
| WDb (n : nat) (now : Z) (r : DbAnswer)
| WEffect (n : nat) (r : bool + Err)
| WClock (n : nat) (now : Z)
| WCrash (n : nat)
| WDiscard (ext : string)
| WOther (e : Event).

(** A transaction of another part of the program: it does not link on this platform. *)
Definition isOther (e : Event) : bool :=
  match e with EUpsert _ q _ _ _ => negb (bool_decide (q = p)) | _ => true end.

Definition setWorker (n : nat) (q : Prog) (w : World) : World :=
  mkWorld (w_store w) (<[n := q]> (w_workers w)) (w_verified w).

Definition setStore (st : Store) (w : World) : World := mkWorld st (w_workers w) (w_verified w).

Definition stmt {A} (op : Store → Store * A) (r : DbAnswer) (st : Store) : Store * (A + Err) :=
  match r with
  | db_ok => ((op st).1, inl (op st).2)
  | db_threw applied e => ((if applied then (op st).1 else st), inr e)
  end.

(** The transaction of [upsertLink] with its answer as the core sees it. *)
Definition answerUpsert (r : UpsertOutcome + Err) : LinkUpsertResult + Err :=
  match r with
  | inl (linked u) => inl u
  | inl ownershipConflict => inr conflictErr
  | inl uniqueViolation => inr (otherErr "duplicate key")
  | inr e => inr e
  end.

Definition snapshot (ext : string) (st : Store) : option LinkStateSnapshot :=
  (λ r, mkSnapshot (r_state r) (r_generation r) (r_revokedAt r)) <$> getLink p ext st.

Definition readOf {A} (a : A) (r : DbAnswer) : A + Err := match r with db_ok => inl a | db_threw _ e => inr e end.

Definition execDb (n : nat) (now : Z) (r : DbAnswer) (q : Prog) (w : World) : World :=
  let st := w_store w in
  match q with
  | Observe ext k => setWorker n (k (readOf (getMappingObservation p ext st) r)) w
  | RecordIntent ext user o k =>
      let '(st', a) := stmt (recordVerify p now ext user o) r st in setWorker n (k a) (setStore st' w)
  | Upsert user ext o k =>
      let '(st', a) := stmt (upsertLink now p user ext o) r st in
      setWorker n (k (answerUpsert a)) (setStore st' w)
  | Consume i k => let '(st', a) := stmt (consumeRecord p i) r st in setWorker n (k a) (setStore st' w)
  | ListStale ms k => setWorker n (k (readOf (listStaleRecords p now ms st) r)) w
  | FindUser ext k => setWorker n (k (readOf (findUserId p ext st) r)) w
  | GetState ext k => setWorker n (k (readOf (snapshot ext st) r)) w
  | _ => w
  end.

Definition execEffect (n : nat) (r : bool + Err) (q : Prog) (w : World) : World :=
  let u : unit + Err := match r with inl _ => inl tt | inr e => inr e end in
  match q with
  | Clear _ k => setWorker n (k u) w
  | AfterCommit _ _ _ k => setWorker n (k r) w
  | FreshRelink _ _ k => setWorker n (k r) w
  | OnReconciled _ _ k => setWorker n (k u) w
  | _ => w
  end.

Definition execVerify (n : nat) (r : option Z + Err) (q : Prog) (w : World) : World :=
  match q with
  | Verify ext k =>
      setWorker n (k r)
        (mkWorld (w_store w) (w_workers w)
           (match r with inl (Some u) => (ext, u) :: w_verified w | _ => w_verified w end))
  | _ => w
  end.

Definition onWorker (n : nat) (f : Prog → World → World) (w : World) : World :=
  match w_workers w !! n with Some q => f q w | None => w end.

Definition spawn (q : Prog) (w : World) : World := mkWorld (w_store w) (w_workers w ++ [q]) (w_verified w).

Definition execW (e : WEvent) (w : World) : World :=
  match e with
  | WComplete sr attempts ca => spawn (complete sr attempts ca) w
  | WBatch sr attempts ca stale maxAge maxRecords => spawn (runBatch sr attempts ca stale maxAge maxRecords) w
  | WExchange n r => onWorker n (λ q w, match q with Exchange k => setWorker n (k r) w | _ => w end) w
  | WVerify n r => onWorker n (execVerify n r) w
  | WDb n now r => onWorker n (execDb n now r) w
  | WEffect n r => onWorker n (execEffect n r) w
  | WClock n now => onWorker n (λ q w, match q with Clock k => setWorker n (k now) w | _ => w end) w
  | WCrash n => onWorker n (λ _, setWorker n (Done (threw abortErr))) w
  | WDiscard ext => setStore (discardRecord p ext (w_store w)) w
  | WOther e => if isOther e then setStore (exec e (w_store w)) w else w
  end.

Fixpoint runW (es : list WEvent) (w : World) : World :=
  match es with [] => w | e :: es' => runW es' (execW e w) end.

(** ** Links are verified *)

(** A program that records and links only verified pairs. *)
Fixpoint safe (vs : list (string * Z)) (q : Prog) : Prop :=
  match q with
  | Exchange k => ∀ r, safe vs (k r)
  | Observe _ k => ∀ r, safe vs (k r)
  | Verify ext k => ∀ r vs', vs ⊆ vs' → (∀ u, r = inl (Some u) → (ext, u) ∈ vs') → safe vs' (k r)
  | RecordIntent ext user _ k => (ext, user) ∈ vs ∧ ∀ r, safe vs (k r)
  | Upsert user ext _ k => (ext, user) ∈ vs ∧ ∀ r, safe vs (k r)
  | Consume _ k => ∀ r, safe vs (k r)
  | Clear _ k => ∀ r, safe vs (k r)
  | AfterCommit _ _ _ k => ∀ r, safe vs (k r)
  | ListStale _ k =>
      ∀ r vs', vs ⊆ vs' → (∀ l v, r = inl l → v ∈ l → (v_ext v, v_user v) ∈ vs') → safe vs' (k r)
  | FindUser _ k => ∀ r, safe vs (k r)
  | GetState _ k => ∀ r, safe vs (k r)
  | FreshRelink _ _ k => ∀ r, safe vs (k r)
  | OnReconciled _ _ k => ∀ r, safe vs (k r)
  | Clock k => ∀ now, safe vs (k now)
  | Done _ => True
  end.

Lemma safe_mono vs vs' q : vs ⊆ vs' → safe vs q → safe vs' q.
Proof.
  revert vs vs'. induction q as [k IH|? k IH|? k IH|? ? ? k IH|? ? ? k IH|? k IH|? k IH|? ? ? k IH|? k IH|? k IH|? k IH
                               |? ? k IH|? ? k IH|k IH|]; intros vs vs' Hsub Hq; simpl in *;
    first [done|intros a; exact (IH a vs vs' Hsub (Hq a))
          |destruct Hq as [Hin Hq]; split; [exact (Hsub _ Hin)|intros a; exact (IH a vs vs' Hsub (Hq a))]
          |intros r vs2 Hsub2 Hr; exact (Hq r vs2 (λ x Hx, Hsub2 x (Hsub x Hx)) Hr)].
Qed.

Section Safe.
Context (vs : list (string * Z)) (sr : Err → bool).

Lemma retry_safe {A} n (op : (A + Err → Prog) → Prog) k :
  (∀ k', (∀ r, safe vs (k' r)) → safe vs (op k')) → (∀ r, safe vs (k r)) → safe vs (retry sr n op k).
Proof.
  intros Hop Hk. induction n as [|n IH]; simpl; apply Hop; intros [a|e]; try apply Hk. by destruct (sr e).
Qed.

Lemma if_safe (b : bool) q1 q2 : safe vs q1 → safe vs q2 → safe vs (if b then q1 else q2).
Proof. by destruct b. Qed.

Lemma afterCommit_safe ca i ext user res : safe vs (afterCommit ca i ext user res).
Proof. intros _ [join|e]; [|done]. by apply if_safe. Qed.

Lemma commit_safe attempts ca ext user o g : (ext, user) ∈ vs → safe vs (commit sr attempts ca ext user o g).
Proof.
  intros Hin. apply retry_safe; [by intros k' Hk'; split|]. intros [res|e].
  - apply if_safe; [apply afterCommit_safe|intros r; apply afterCommit_safe].
  - by apply if_safe.
Qed.

Section Record.
Context (attempts : nat) (ca : bool) (maxAge : Z) (v : Intent) (next : RecordOutcome → Prog).
Context (Hv : (v_ext v, v_user v) ∈ vs) (Hnext : ∀ o, safe vs (next o)).

Lemma consumeThen_safe o : safe vs (consumeThen v next o).
Proof. intros [b|e]; apply Hnext. Qed.

Lemma settle_safe o side :
  (∀ k, (∀ r, safe vs (k r)) → safe vs (side k)) → safe vs (settle ca v next o side).
Proof.
  intros Hside r. apply if_safe; [apply Hside|]; intros [?|?]; try apply Hnext;
    [apply consumeThen_safe|by apply Hside].
Qed.

Lemma relink_safe : safe vs (relink sr attempts ca v next).
Proof.
  apply retry_safe; [by intros k' Hk'; split|]. intros [res|e].
  - apply settle_safe. by intros k Hk r.
  - apply if_safe; [apply consumeThen_safe|apply Hnext].
Qed.

Lemma reconcileRecord_safe : safe vs (reconcileRecord sr attempts ca maxAge v next).
Proof.
  intros [existing|e]; [|apply Hnext]. apply if_safe.
  - apply settle_safe. intros k Hk [st|e]; [intros r|]; apply Hk.
  - intros now. apply if_safe; [apply consumeThen_safe|]. intros [[s|]|e]; [|apply relink_safe|apply Hnext].
    unfold unlessBlocked. repeat apply if_safe; try apply consumeThen_safe; [apply relink_safe|].
    intros [[]|e]; [apply relink_safe|apply consumeThen_safe|apply Hnext].
Qed.
End Record.

Lemma reconcileAll_safe attempts ca maxAge l b :
  (∀ v, v ∈ l → (v_ext v, v_user v) ∈ vs) → safe vs (reconcileAll sr attempts ca maxAge l b).
Proof.
  revert b. induction l as [|v l IH]; intros b Hl; [done|]. apply reconcileRecord_safe; [apply Hl; left|].
  intros o. apply IH. intros w Hw. apply Hl. by right.
Qed.
End Safe.

Lemma complete_safe vs sr attempts ca : safe vs (complete sr attempts ca).
Proof.
  intros [ext|e]; [|done]. intros [o|e]; [|done]. intros [[user|]|e] vs' Hsub Hv; try done.
  assert ((ext, user) ∈ vs') as Hin by auto.
  apply retry_safe; [by intros k' Hk'; split|]. intros [g|e]; [by apply commit_safe|done].
Qed.

Lemma runBatch_safe vs sr attempts ca stale maxAge maxRecords : safe vs (runBatch sr attempts ca stale maxAge maxRecords).
Proof.
  intros [l|e] vs' Hsub Hl; [|done]. apply reconcileAll_safe. intros v Hv. apply (Hl l v eq_refl).
  by apply (subseteq_take maxRecords).
Qed.

(** *** What the transactions leave *)

(** No row of the platform and no intent is new. *)
Definition retains (st st' : Store) : Prop :=
  (∀ l', l' ∈ links st' → l_platform l' = p →
     ∃ l, l ∈ links st ∧ l_platform l = p ∧ (l_ext l, l_user l) = (l_ext l', l_user l'))
  ∧ (∀ v, v ∈ intents st' → v ∈ intents st).

Lemma retains_same st st' : links st' = links st → intents st' = intents st → retains st st'.
Proof. unfold retains. intros -> ->. split; [|done]. intros l Hl Hp. by exists l. Qed.

Lemma retains_trans st1 st2 st3 : retains st1 st2 → retains st2 st3 → retains st1 st3.
Proof.
  intros [L1 I1] [L2 I2]. split; [|by auto]. intros l3 H3 P3.
  destruct (L2 l3 H3 P3) as (l2 & H2 & P2 & <-). by apply L1.
Qed.

#[local] Instance retains_preorder : PreOrder retains.
Proof. split; [intros st; by apply retains_same|intros st1 st2 st3; apply retains_trans]. Qed.

Lemma retains_update st q f :
  (∀ l, q l = true → l_platform l = p →
     (l_platform (f l), l_ext (f l), l_user (f l)) = (l_platform l, l_ext l, l_user l)) →
  (∀ l, l_platform (f l) = l_platform l) → retains st (setLinks (tbl_update q f (links st)) st).
Proof.
  intros Hf Hp. split; [|done]. intros l' (l & Hl & ->)%elem_of_tbl_update. destruct (q l) eqn:E.
  - intros Hpl. rewrite Hp in Hpl. exists l. split_and!; [done..|]. by injection (Hf l E Hpl) as _ -> ->.
  - intros Hpl. by exists l.
Qed.

Lemma retains_delete st q : retains st (setLinks (tbl_delete q (links st)) st).
Proof. split; [|done]. intros l [_ Hl]%elem_of_tbl_delete Hp. by exists l. Qed.

Lemma retains_deleteIntent st q : retains st (setIntents (tbl_delete q (intents st)) st).
Proof. split; [intros l Hl Hp; by exists l|]. by intros v [_ Hv]%elem_of_tbl_delete. Qed.

Lemma retains_fold {A} (f : Store → A → Store) l st : (∀ st a, retains st (f st a)) → retains st (foldl f st l).
Proof. intros Hf. revert st. induction l as [|a l IH]; intros st; simpl; [done|]. by etransitivity; [apply Hf|]. Qed.

Lemma retains_observe now q ext o expected st : retains st (applyObservation now q ext o expected st).1.
Proof.
  unfold applyObservation. cbv zeta. destruct (rowOf q ext st) as [l|]; [|done].
  assert (∀ f st', (∀ m, (l_platform (f m), l_ext (f m), l_user (f m)) = (l_platform m, l_ext m, l_user m)) →
    links st' = links (updateRow l f st) → intents st' = intents st → retains st st') as Hupd.
  { intros f st' Hf Hl Hi. transitivity (updateRow l f st); [|by apply retains_same].
    apply retains_update; [by intros|]. intros m. by injection (Hf m). }
  assert (∀ reason version, retains st (revoke now l reason version st).1) as Hrev
    by (intros; by eapply (Hupd (revokedRow _ _ _ _))).
  destruct (match expected with Some _ => _ | None => _ end); [by apply retains_same|].
  case_bool_decide; [done|]. destruct o as [user version|reason version|reason].
  - destruct (negb _); [apply Hrev|]. case_bool_decide; [by apply retains_same|].
    case_bool_decide; by apply (Hupd (verifiedRow now version)).
  - case_bool_decide; [done|apply Hrev].
  - case_bool_decide; [done|]. destruct (negb _); by apply (Hupd (unknownRow now)).
Qed.

Lemma retains_unlink now q ext expected st : retains st (unlinkTx now q ext expected st).1.
Proof.
  unfold unlinkTx. cbv zeta. destruct (mismatch _ _); [done|]. destruct (rowOf q ext st) as [l|].
  - destruct (isTerminal (l_state l)); [done|]. simpl. etransitivity; [|apply retains_deleteIntent].
    set (st1 := suspendWork _ _ _ _ _).
    transitivity (setLinks (tbl_update (λ m, keyed q ext m && (l_generation m <? l_generation l + 1))
                              (unlinkedRow now (l_generation l + 1)) (links st1)) st1); [|by apply retains_same].
    by apply (retains_update st).
  - simpl. etransitivity; [|apply retains_deleteIntent]. by apply retains_same.
Qed.

Lemma retains_erase q ext user st : retains st (eraseLearner q ext user st).
Proof. etransitivity; [|apply retains_deleteIntent]. by destruct user; apply retains_same. Qed.

Lemma retains_delete_tx now q ext durable expected st : retains st (deleteTx now q ext durable expected st).1.
Proof.
  unfold deleteTx. cbv zeta. destruct (mismatch _ _); [done|]. simpl. etransitivity; [|apply retains_erase].
  set (st1 := match rowOf q ext st with Some _ => _ | None => st end).
  assert (retains st st1) as H1.
  { subst st1. destruct (rowOf q ext st) as [l|]; [|done]. set (st1 := suspendWork _ _ _ _ _).
    transitivity st1; [by apply retains_same|apply (retains_delete st1)]. }
  destruct (truthyUser _) as [u|]; [|done].
  etransitivity; [exact H1|]. etransitivity; [|apply retains_delete].
  apply retains_fold. intros st2 l. etransitivity; [|apply retains_deleteIntent]. by apply retains_same.
Qed.

(** A link adds at most its own pair. *)
Definition links_only (q ext : string) (user : Z) (st st' : Store) : Prop :=
  (∀ l', l' ∈ links st' →
     (l_platform l', l_ext l', l_user l') = (q, ext, user)
     ∨ ∃ l, l ∈ links st ∧ (l_platform l, l_ext l, l_user l) = (l_platform l', l_ext l', l_user l'))
  ∧ intents st' = intents st.

Lemma links_only_insert now q ext user o g st st' r :
  insertLink now q ext user o g st = Some (st', r) → links_only q ext user st st'.
Proof.
  unfold insertLink. cbv zeta. destruct (rowOf q ext st) as [old|]; [destruct (match o with absent _ => _ | present _ => _ end)|];
    try destruct (tbl_exists _ _); intros [= <- <-]; split; try done; simpl.
  - intros l Hl. right. by exists l.
  - intros l' (l & Hl & ->)%elem_of_tbl_update. destruct (keyed q ext l) eqn:E; [left|right; by exists l].
    apply link_keyed_spec in E. by injection E as <- <-.
  - intros l' [Hl| ->%list_elem_of_singleton]%elem_of_app; [right; by exists l'|by left].
Qed.

Lemma cancel_all_intents now q reason es st :
  intents (foldl (λ st e, cancelForOwnershipChange now q e None reason st) st es) = intents st.
Proof. revert st. induction es as [|e es IH]; intros st; simpl; [done|]. by rewrite IH. Qed.

Lemma links_only_upsert now q user ext o st : links_only q ext user st (upsertLink now q user ext o st).1.
Proof.
  assert (links_only q ext user st st) as Hrefl by (split; [intros l Hl; right; by exists l|done]).
  unfold upsertLink. cbv zeta. destruct (match rowOf q ext st with Some l => _ | None => false end); [done|].
  destruct (observedConflict _ _ _ _ _); [done|].
  set (st2 := foldl _ _ _). destruct (insertLink now q ext user o _ st2) as [[st3 [l|]]|] eqn:E; [|done..].
  apply links_only_insert in E as [Hl Hi]. subst st2. rewrite cancel_all_intents in Hi. split; [|exact Hi].
  intros l' Hl'. destruct (Hl l' Hl') as [?|(m & Hm & Heq)]; [by left|right]. exists m. split; [|done].
  destruct (cancel_all now q "mapping_ownership_changed" (l_ext <$> tbl_select (displaces q user ext) (links st))
              (setLinks (tbl_delete (displaces q user ext) (links st)) st)) as (Hc & _).
  rewrite Hc in Hm. by apply elem_of_tbl_delete in Hm as [_ ?].
Qed.

Lemma retains_other e st : isOther e = true → retains st (exec e st).
Proof.
  destruct e as [now q user ext o|now q ext o expected|now q ext expected|now q ext durable expected|now q ext|q ext|now q ext|c];
    intros Ho; simpl.
  - simpl in Ho. apply negb_true_iff, bool_decide_eq_false in Ho. destruct (links_only_upsert now q user ext o st) as [Hl Hi].
    split; [|by rewrite Hi]. intros l' Hl' Hp. destruct (Hl l' Hl') as [[= Hq _ _]|(l & Hin & [= Hpl ? ?])]; [congruence|].
    exists l. split_and!; congruence.
  - apply retains_observe.
  - apply retains_unlink.
  - apply retains_delete_tx.
  - by apply retains_update.
  - by apply retains_update.
  - by apply retains_update.
  - by apply retains_same.
Qed.

(** *** Every history *)

Record all_verified (w : World) : Prop := {
  av_links : ∀ l, l ∈ links (w_store w) → l_platform l = p → (l_ext l, l_user l) ∈ w_verified w;
  av_intents : ∀ v, v ∈ intents (w_store w) → v_platform v = p → (v_ext v, v_user v) ∈ w_verified w;
  av_workers : ∀ n q, w_workers w !! n = Some q → safe (w_verified w) q
}.

Lemma av_worker n q w : all_verified w → safe (w_verified w) q → all_verified (setWorker n q w).
Proof.
  intros [Hl Hi Hw] Hq. split; [done..|]. intros m q' Hm. simpl in Hm.
  apply list_lookup_insert_Some in Hm as [(_ & <- & _)|(_ & Hm)]; [done|]. by apply (Hw m).
Qed.

Lemma av_keeps st w : retains (w_store w) st → all_verified w → all_verified (setStore st w).
Proof.
  intros [Hkl Hki] [Hl Hi Hw]. split; [|by eauto|done]. intros l Hlin Hp.
  destruct (Hkl l Hlin Hp) as (l0 & Hl0 & Hp0 & <-). by apply Hl.
Qed.

Lemma av_stmt {A} (op : Store → Store * A) r w :
  (∀ st, all_verified w → st = w_store w → all_verified (setStore (op st).1 w)) →
  all_verified w → all_verified (setStore (stmt op r (w_store w)).1 w).
Proof.
  intros Hop Hw. assert (all_verified (setStore (w_store w) w)) by by destruct w.
  destruct r as [|[] e]; simpl; auto.
Qed.

Lemma av_record now ext user o w st :
  (ext, user) ∈ w_verified w → all_verified w → st = w_store w →
  all_verified (setStore (recordVerify p now ext user o st).1 w).
Proof.
  intros Hin [Hl Hi Hw] ->. unfold recordVerify.
  destruct (tbl_upsert _ _ _ _ _) as [vs r] eqn:E. simpl. split; [done| |done].
  intros v Hv Hp. simpl in Hv. unfold tbl_upsert in E. destruct (head _); injection E as <- _.
  - apply elem_of_tbl_update in Hv as (v0 & Hv0 & ->). destruct (intentOf p ext v0) eqn:Eo; [|by apply Hi].
    apply andb_true_iff in Eo as [_ Eo%bool_decide_eq_true]. simpl. by rewrite Eo.
  - apply elem_of_app in Hv as [Hv| ->%list_elem_of_singleton]; [by apply Hi|done].
Qed.

Lemma av_upsert now ext user o w st :
  (ext, user) ∈ w_verified w → all_verified w → st = w_store w →
  all_verified (setStore (upsertLink now p user ext o st).1 w).
Proof.
  intros Hin [Hl Hi Hw] ->. destruct (links_only_upsert now p user ext o (w_store w)) as [Hul Hui].
  split; [|intros v Hv; simpl in Hv; rewrite Hui in Hv; by apply Hi|done].
  intros l Hlin Hp. destruct (Hul l Hlin) as [[= _ -> ->]|(l0 & Hl0 & [= Hpl He Hu])]; [done|].
  rewrite <- He, <- Hu. apply Hl; congruence.
Qed.

Lemma av_consume i w st : all_verified w → st = w_store w → all_verified (setStore (consumeRecord p i st).1 w).
Proof. intros Hw ->. apply av_keeps; [apply retains_deleteIntent|done]. Qed.

Lemma listStale_spec now ms st v : v ∈ listStaleRecords p now ms st → v ∈ intents st ∧ v_platform v = p.
Proof.
  intros Hv%subseteq_take%elem_of_sortBy%elem_of_tbl_select. destruct Hv as [Hv ?].
  by apply andb_true_iff in Hv as [?%bool_decide_eq_true _].
Qed.

Lemma av_db n now r q w : w_workers w !! n = Some q → all_verified w → all_verified (execDb n now r q w).
Proof.
  intros Hn Hw. pose proof (av_workers _ Hw n q Hn) as Hq.
  destruct q; simpl in Hq |- *; try done.
  - by apply av_worker.
  - destruct Hq as [Hin Hq]. destruct (stmt _ r _) as [st a] eqn:E. apply av_worker; [|apply Hq].
    change st with ((st, a).1). rewrite <- E. apply av_stmt; [|done]. intros; by apply av_record.
  - destruct Hq as [Hin Hq]. destruct (stmt _ r _) as [st a] eqn:E. apply av_worker; [|apply Hq].
    change st with ((st, a).1). rewrite <- E. apply av_stmt; [|done]. intros; by apply av_upsert.
  - destruct (stmt _ r _) as [st a] eqn:E. apply av_worker; [|apply Hq].
    change st with ((st, a).1). rewrite <- E. apply av_stmt; [|done]. intros; by apply av_consume.
  - apply av_worker; [done|]. apply Hq; [done|]. intros l v Hl Hv. destruct r; [|done]. injection Hl as <-.
    apply listStale_spec in Hv as [Hv Hp]. by apply Hw.
  - by apply av_worker.
  - by apply av_worker.
Qed.

Lemma av_verify n r q w : w_workers w !! n = Some q → all_verified w → all_verified (execVerify n r q w).
Proof.
  intros Hn Hw. pose proof (av_workers _ Hw n q Hn) as Hq. destruct q; simpl in Hq |- *; try done.
  set (vs := match r with inl (Some u) => _ | _ => _ end).
  assert (w_verified w ⊆ vs) as Hsub by (subst vs; intros x Hx; destruct r as [[u|]|]; [by right|done..]).
  apply av_worker.
  - destruct Hw as [Hl Hi Hww]. split; simpl.
    + intros l Hlin Hp. by apply Hsub, Hl.
    + intros v Hv Hp. by apply Hsub, Hi.
    + intros m q' Hm. eapply safe_mono; [exact Hsub|by eapply Hww].
  - apply Hq; [done|]. subst vs. intros u ->. by left.
Qed.

Lemma av_exec e w : all_verified w → all_verified (execW e w).
Proof.
  intros Hw.
  assert (∀ n f, (∀ q, w_workers w !! n = Some q → all_verified (f q w)) → all_verified (onWorker n f w)) as Hon.
  { intros n f Hf. unfold onWorker. destruct (w_workers w !! n) as [q|] eqn:E; [by apply Hf|done]. }
  assert (∀ q, safe (w_verified w) q → all_verified (spawn q w)) as Hspawn.
  { intros q Hq. destruct Hw as [Hl Hi Hww]. split; [done..|]. intros n q' Hn. simpl in Hn.
    apply lookup_app_Some in Hn as [Hn|[_ Hn]]; [by eapply Hww|].
    by apply list_lookup_singleton_Some in Hn as [_ <-]. }
  destruct e; simpl; try apply Hon; intros; try (apply Hspawn).
  - apply complete_safe.
  - apply runBatch_safe.
  - pose proof (av_workers _ Hw _ _ H0) as Hq. destruct q; try done. by apply av_worker.
  - by apply av_verify.
  - by apply av_db.
  - pose proof (av_workers _ Hw _ _ H0) as Hq. destruct q; try done; by apply av_worker.
  - pose proof (av_workers _ Hw _ _ H0) as Hq. destruct q; try done. by apply av_worker.
  - by apply av_worker.
  - apply av_keeps; [apply retains_deleteIntent|done].
  - destruct (isOther e) eqn:E; [|done]. apply av_keeps; [by apply retains_other|done].
Qed.

Lemma av_run es w : all_verified w → all_verified (runW es w).
Proof. revert w. induction es as [|e es IH]; intros w Hw; simpl; [done|]. by apply IH, av_exec. Qed.

(** The accounts and learners of the platform's rows. *)
Definition linkedPairs (st : Store) : list (string * Z) :=
  (λ l, (l_ext l, l_user l)) <$> tbl_select (λ l, bool_decide (l_platform l = p)) (links st).

Definition pendingPairs (st : Store) : list (string * Z) :=
  (λ v, (v_ext v, v_user v)) <$> tbl_select (λ v, bool_decide (v_platform v = p)) (intents st).

(** C11. However callbacks, reconcile ticks, status checks, unlinks and erasures
    interleave, fail or die half-way, every mapping of the platform and every pending
    intent belongs to an account and a learner that the upstream verified together. *)
Theorem links_are_verified es :
  linkedPairs (w_store (runW es init)) ⊆ w_verified (runW es init)
  ∧ pendingPairs (w_store (runW es init)) ⊆ w_verified (runW es init).
Proof.
  assert (all_verified init) as Hinit by (split; [intros ? []%not_elem_of_nil|intros ? []%not_elem_of_nil|done]).
  destruct (av_run es init Hinit) as [Hl Hi _]. split.
  - intros x (l & -> & Hin)%list_elem_of_fmap. apply elem_of_tbl_select in Hin as [?%bool_decide_eq_true ?]. by apply Hl.
  - intros x (v & -> & Hin)%list_elem_of_fmap. apply elem_of_tbl_select in Hin as [?%bool_decide_eq_true ?]. by apply Hi.
Qed.

(** ** A link that was interrupted is finished by the reconcile tick *)

Section Recovery.
Context (n : nat).

(** The events of worker [n] alone, no call of which fails. *)
Definition undisturbedStep (e : WEvent) : bool :=
  match e with
  | WDb m _ db_ok => bool_decide (m = n)
  | WEffect m (inl _) => bool_decide (m = n)
  | WClock m _ => bool_decide (m = n)
  | _ => false
  end.

Definition runs (q : Prog) (st : Store) (w : World) : Prop := w_workers w !! n = Some q ∧ w_store w = st.

Definition leads (q : Prog) (st : Store) (q' : Prog) (st' : Store) : Prop :=
  ∀ w, runs q st w → ∃ es, forallb undisturbedStep es = true ∧ runs q' st' (runW es w).

Lemma leads_refl q st : leads q st q st.
Proof. intros w Hw. by exists []. Qed.

Lemma leads_step e q st q1 st1 q' st' :
  undisturbedStep e = true → (∀ w, runs q st w → runs q1 st1 (execW e w)) → leads q1 st1 q' st' → leads q st q' st'.
Proof.
  intros He Hstep Hl w Hw. destruct (Hl _ (Hstep w Hw)) as (es & Hes & Hr).
  exists (e :: es). simpl. by rewrite He, Hes.
Qed.

Lemma runs_set q q1 st st1 w : runs q st w → runs q1 st1 (setWorker n q1 (setStore st1 w)).
Proof. intros [Hn _]. split; [|done]. simpl. apply list_lookup_insert_eq. by apply lookup_lt_Some in Hn. Qed.

Ltac step e :=
  eapply (leads_step e); [simpl; by rewrite bool_decide_true|];
  let w := fresh in let Hn := fresh in let Hs := fresh in
  intros w [Hn Hs]; simpl; unfold onWorker; rewrite Hn; simpl; rewrite ?Hs;
  split; [simpl; apply list_lookup_insert_eq; by apply lookup_lt_Some in Hn|try exact Hs; reflexivity].

Lemma leads_find ext k st q' st' : leads (k (inl (findUserId p ext st))) st q' st' → leads (FindUser ext k) st q' st'.
Proof. step (WDb n 0 db_ok). Qed.

Lemma leads_state ext k st q' st' : leads (k (inl (snapshot ext st))) st q' st' → leads (GetState ext k) st q' st'.
Proof. step (WDb n 0 db_ok). Qed.

Lemma leads_clock now k st q' st' : leads (k now) st q' st' → leads (Clock k) st q' st'.
Proof. step (WClock n now). Qed.

Lemma leads_clear ext k st q' st' : leads (k (inl tt)) st q' st' → leads (Clear ext k) st q' st'.
Proof. step (WEffect n (inl true)). Qed.

Lemma leads_fresh ext user k st q' st' : leads (k (inl true)) st q' st' → leads (FreshRelink ext user k) st q' st'.
Proof. step (WEffect n (inl true)). Qed.

Lemma leads_reconciled v r k st q' st' : leads (k (inl tt)) st q' st' → leads (OnReconciled v r k) st q' st'.
Proof. step (WEffect n (inl true)). Qed.

Lemma leads_consume i k st q' st' :
  leads (k (inl (consumeRecord p i st).2)) (consumeRecord p i st).1 q' st' → leads (Consume i k) st q' st'.
Proof. step (WDb n 0 db_ok). Qed.

Lemma leads_upsert now user ext o k st st1 r q' st' :
  upsertLink now p user ext o st = (st1, linked r) → leads (k (inl r)) st1 q' st' → leads (Upsert user ext o k) st q' st'.
Proof.
  intros Hup. eapply (leads_step (WDb n now db_ok)); [simpl; by rewrite bool_decide_true|].
  intros w [Hn Hs]. simpl. unfold onWorker. rewrite Hn. simpl. rewrite Hs, Hup. simpl. by eapply runs_set.
Qed.

Section Record.
Context (sr : Err → bool) (attempts : nat) (ca : bool) (maxAge : Z) (v : Intent) (next : RecordOutcome → Prog).

Lemma leads_settle o side st q' st' :
  (∀ st k, leads (k (inl tt)) st q' st' → leads (side k) st q' st') →
  leads (next o) (consumeRecord p (idOf v) st).1 q' st' → leads (settle ca v next o side) st q' st'.
Proof.
  intros Hside Hnext. apply leads_clear. destruct ca.
  - apply Hside. by apply leads_consume.
  - apply leads_consume. by apply Hside.
Qed.

(** Neither revoked, nor unlinked by the learner after the token was verified. *)
Definition mayRelink (st : Store) : Prop :=
  match snapshot (v_ext v) st with
  | None => True
  | Some s => ls_state s ≠ RJobs.ls_revoked
              ∧ (ls_state s = RJobs.ls_unlinked → ∀ t, ls_revokedAt s = Some t → t < v_verifiedAt v)
  end.

Lemma leads_unblocked st q' st' :
  mayRelink st → leads (relink sr attempts ca v next) st q' st' →
  leads (unlessBlocked sr attempts ca v next (snapshot (v_ext v) st)) st q' st'.
Proof.
  unfold mayRelink, unlessBlocked. destruct (snapshot (v_ext v) st) as [s|]; [|done]. intros [Hr Hu] Hl.
  rewrite (bool_decide_false (ls_state s = _)) by done. case_bool_decide; [done|].
  destruct (bool_decide (ls_state s = RJobs.ls_unlinked) && _) eqn:E; [|by apply leads_fresh].
  apply andb_true_iff in E as [E%bool_decide_eq_true Et]. specialize (Hu E).
  destruct (ls_revokedAt s) as [t|]; [|done]. apply Z.leb_le in Et. specialize (Hu t eq_refl). lia.
Qed.

End Record.
End Recovery.

End System.

(** ** Concrete histories *)

#[local] Existing Instance plainRuntime.

Definition always : Err → bool := λ _, true.

(** A callback of [user] for account "a" up to its recorded intent. *)
Definition recorded (n : nat) (now user : Z) : list WEvent :=
  [WComplete defaultShouldRetry 2 false; WExchange n (inl "a"); WDb n now db_ok; WVerify n (inl (Some user)); WDb n now db_ok].

(** The whole callback. *)
Definition completed (n : nat) (now user : Z) : list WEvent :=
  recorded n now user ++ [WDb n now db_ok; WDb n now db_ok; WEffect n (inl true); WEffect n (inl true)].

Definition interrupted : Store := w_store (runW "discord" (recorded 0 5 1 ++ [WCrash 0]) init).

Definition interruptedIntent : Intent := mkIntent "discord" "a" 1 5 1 (absent None).

Lemma interrupted_inv : store_inv interrupted.
Proof. by split; try (intros ? []%not_elem_of_nil); try apply NoDup_nil_2. Qed.


(** The tick on its own: worker 1 lists the intent of the dead callback and links. *)
Definition ticked : list WEvent :=
  [WBatch defaultShouldRetry 2 false 50 1000 100; WDb 1 100 db_ok; WDb 1 100 db_ok; WClock 1 100; WDb 1 100 db_ok;
   WDb 1 100 db_ok; WEffect 1 (inl true); WDb 1 100 db_ok; WEffect 1 (inl true)].

Example tick_links :
  let w := runW "discord" (recorded 0 5 1 ++ WCrash 0 :: ticked) init in
  owned "discord" "a" (w_store w) = Some (1, false) ∧ intents (w_store w) = []
  ∧ w_workers w !! 1%nat = Some (Done (batchDone (mkBatch 1 1 0 0 0 0))).
Proof. vm_compute. done. Qed.

(** A learner whose link was revoked upstream links again, and the process dies
    before the link.  The tick asks [findUserId], which answers for the revoked row,
    reports the intent as committed and consumes it: the link stays revoked. *)
Definition relinkedAfterRevocation : list WEvent :=
  completed 0 5 1
  ++ [WOther (EObserve 6 "discord" "a" (seen_revoked "unlinked upstream" None) None)]
  ++ recorded 1 7 1 ++ [WCrash 1]
  ++ [WBatch defaultShouldRetry 2 false 50 1000 100; WDb 2 100 db_ok; WDb 2 100 db_ok; WEffect 2 (inl true);
      WDb 2 100 db_ok; WDb 2 100 db_ok; WEffect 2 (inl true)].

Theorem relink_after_revocation_lost :
  let w := runW "discord" relinkedAfterRevocation init in
  owned "discord" "a" (w_store w) = Some (1, true) ∧ intents (w_store w) = []
  ∧ w_workers w !! 2%nat = Some (Done (batchDone (mkBatch 1 0 1 0 0 0))).
Proof. vm_compute. done. Qed.

(** An intent that is recorded again after it was consumed starts at generation 1
    again: a callback of the same learner that is still running consumes it. *)
Theorem intent_generation_restarts :
  let st := w_store (runW "discord" (recorded 0 5 1 ++ [WDb 0 5 db_ok; WDb 0 5 db_ok]) init) in
  intents st = []
  ∧ (recordVerify "discord" 9 "a" 1 (absent None) st).2 = 1
  ∧ (consumeRecord "discord" (mkId "a" 1 1) (recordVerify "discord" 9 "a" 1 (absent None) st).1).2 = true.
Proof. vm_compute. done. Qed.

End Flow.
