(* ===== verification/PrivacyCleanup.v ===== *)
(** * Durable privacy cleanup (packages/database, metering-and-operations)

    [unlink] and [delete] of privacy-data.service.ts with a durable cleanup, the job
    table of privacy-cleanup-job.service.ts and the worker of
    privacy-cleanup-reconciler.service.ts, as programs over their awaited calls run
    by any number of requests and workers on one database.  The transactions on the
    mappings are those of [AccountLinks].  The adapters that clear a state store are
    answers of the environment. *)

From stdpp Require Import pretty.
From S2P Require Import Prelude Table ReminderJobs ReminderDispatch AccountLinks LinkFence.

Module Cleanup.
Import Links Fence.

(** ** The job table *)

Inductive Operation := op_unlink | op_delete.
Inductive StoreName := chat_history | chat_queue | clarification_state | display_name_cache.
Inductive JobStatus := pending | processing | completed | stale.

#[global] Instance StoreName_eq_dec : EqDecision StoreName.
Proof. solve_decision. Defined.
#[global] Instance JobStatus_eq_dec : EqDecision JobStatus.
Proof. solve_decision. Defined.

Record Job := mkJob {
  j_id : Z;
  j_cleanupId : string;
  j_key : string;
  j_operation : Operation;
  j_platform : string;
  j_ext : string;
  j_user : option Z;
  j_generation : Z;
  j_store : StoreName;
  j_status : JobStatus;
  j_attempts : Z;
  j_nextRetryAt : Z;
  j_leaseToken : option string;
  j_leaseExpiresAt : option Z;
  j_lastError : option string;
  j_createdAt : Z;
  j_updatedAt : Z;
  j_completedAt : option Z;
  j_staleAt : option Z
}.

Definition PRIVACY_CLEANUP_REQUEST_ATTEMPTS : nat := 3.
Definition PRIVACY_CLEANUP_WORKER_BATCH_SIZE : Z := 100.
Definition PRIVACY_CLEANUP_WORKER_LEASE_MS : Z := 60000.
Definition PRIVACY_CLEANUP_RETENTION_DAYS : Z := 7.
Definition PRIVACY_CLEANUP_MAX_BACKOFF_MS : Z := 15 * 60000.

Record Db := mkDb { d_store : Store; d_jobs : list Job; d_next : Z }.

Definition setJobs (js : list Job) (db : Db) : Db := mkDb (d_store db) js (d_next db).

Definition operationName (o : Operation) : string := match o with op_unlink => "unlink" | op_delete => "delete" end.

Definition storeName (s : StoreName) : string :=
  match s with
  | chat_history => "chat_history"
  | chat_queue => "chat_queue"
  | clarification_state => "clarification_state"
  | display_name_cache => "display_name_cache"
  end.

Record JobRef := mkRef { f_cleanupId : string; f_key : string; f_store : StoreName; f_attempts : Z }.

Record JobInput := mkInput {
  n_operation : Operation; n_platform : string; n_ext : string; n_user : option Z; n_generation : Z
}.

Definition isLive (s : JobStatus) : bool := bool_decide (s ∈ [pending; processing]).
Definition isSettled (s : JobStatus) : bool := bool_decide (s ∈ [completed; stale]).

Section Jobs.
Context `{Runtime}.

Definition nul : string := String (Ascii.ascii_of_nat 0) EmptyString.

Definition cleanupId (i : JobInput) : string :=
  String.substring 0 32 (hash (operationName (n_operation i) +:+ nul +:+ n_platform i +:+ nul
                                +:+ n_ext i +:+ nul +:+ pretty (n_generation i))).

Definition keyOf (i : JobInput) (s : StoreName) : string := cleanupId i +:+ ":" +:+ storeName s.

Definition newJob (id now : Z) (i : JobInput) (s : StoreName) : Job := {|
  j_id := id; j_cleanupId := cleanupId i; j_key := keyOf i s; j_operation := n_operation i;
  j_platform := n_platform i; j_ext := n_ext i; j_user := n_user i; j_generation := n_generation i;
  j_store := s; j_status := pending; j_attempts := 0; j_nextRetryAt := now; j_leaseToken := None;
  j_leaseExpiresAt := None; j_lastError := None; j_createdAt := now; j_updatedAt := now;
  j_completedAt := None; j_staleAt := None |}.

Definition hasKey (k : string) (j : Job) : bool := bool_decide (j_key j = k).

Fixpoint enqueue (now : Z) (i : JobInput) (stores : list StoreName) (db : Db) : Db * list JobRef :=
  match stores with
  | [] => (db, [])
  | s :: stores' =>
      let '(js, fresh) := tbl_insert_nothing (hasKey (keyOf i s)) (newJob (d_next db) now i s) (d_jobs db) in
      let db1 := mkDb (d_store db) js (if fresh then d_next db + 1 else d_next db) in
      let '(db2, refs) := enqueue now i stores' db1 in
      (db2, mkRef (cleanupId i) (keyOf i s) s 0 :: refs)
  end.

Definition getByCleanupId (id p : string) (db : Db) : list Job :=
  tbl_select (λ j, bool_decide (j_cleanupId j = id) && bool_decide (j_platform j = p)) (d_jobs db).

(** The predicate of a lease, absent for an empty token. *)
Definition leased (lease : option string) (j : Job) : bool :=
  match lease with
  | None => true
  | Some t => bool_decide (t = "") || bool_decide (j_leaseToken j = Some t)
  end.

Definition settleable (k : string) (lease : option string) (j : Job) : bool :=
  hasKey k j && isLive (j_status j) && leased lease j.

Definition setStatus (s : JobStatus) (now : Z) (completedAt staleAt : option Z) (j : Job) : Job := {|
  j_id := j_id j; j_cleanupId := j_cleanupId j; j_key := j_key j; j_operation := j_operation j;
  j_platform := j_platform j; j_ext := j_ext j; j_user := j_user j; j_generation := j_generation j;
  j_store := j_store j; j_status := s; j_attempts := j_attempts j; j_nextRetryAt := j_nextRetryAt j;
  j_leaseToken := None; j_leaseExpiresAt := None; j_lastError := j_lastError j; j_createdAt := j_createdAt j;
  j_updatedAt := now; j_completedAt := completedAt; j_staleAt := staleAt |}.

Definition markCompleted (now : Z) (k : string) (lease : option string) (db : Db) : Db :=
  setJobs (tbl_update (settleable k lease) (λ j, setStatus completed now (Some now) (j_staleAt j) j) (d_jobs db)) db.

Definition markStale (now : Z) (k : string) (lease : option string) (db : Db) : Db :=
  setJobs (tbl_update (settleable k lease) (λ j, setStatus stale now (j_completedAt j) (Some now) j) (d_jobs db)) db.

Definition backoff (attempts : Z) : Z :=
  Z.min PRIVACY_CLEANUP_MAX_BACKOFF_MS (30000 * 2 ^ Z.min (attempts - 1) 8).

(** [u / 2^53] is the draw of the jitter. *)
Definition retryAt (now attemptCount u : Z) : Z :=
  now + RDispatch.jitteredDelayMs (backoff (attemptCount + 1)) (u mod 2 ^ 53).

Definition failedJob (now nextRetryAt : Z) (error : string) (j : Job) : Job := {|
  j_id := j_id j; j_cleanupId := j_cleanupId j; j_key := j_key j; j_operation := j_operation j;
  j_platform := j_platform j; j_ext := j_ext j; j_user := j_user j; j_generation := j_generation j;
  j_store := j_store j; j_status := pending; j_attempts := j_attempts j + 1; j_nextRetryAt := nextRetryAt;
  j_leaseToken := None; j_leaseExpiresAt := None; j_lastError := Some (String.substring 0 160 error);
  j_createdAt := j_createdAt j; j_updatedAt := now; j_completedAt := j_completedAt j; j_staleAt := j_staleAt j |}.

Definition markFailure (now u : Z) (k : string) (attemptCount : Z) (error : string) (lease : option string) (db : Db) : Db :=
  setJobs (tbl_update (settleable k lease) (failedJob now (retryAt now attemptCount u) error) (d_jobs db)) db.

Definition expired (p : string) (now : Z) (j : Job) : bool :=
  bool_decide (j_platform j = p) && bool_decide (j_status j = processing)
  && match j_leaseExpiresAt j with None => true | Some e => e <=? now end.

Definition withLease (s : JobStatus) (nextRetryAt now : Z) (token : option string) (expires : option Z) (j : Job) : Job := {|
  j_id := j_id j; j_cleanupId := j_cleanupId j; j_key := j_key j; j_operation := j_operation j;
  j_platform := j_platform j; j_ext := j_ext j; j_user := j_user j; j_generation := j_generation j;
  j_store := j_store j; j_status := s; j_attempts := j_attempts j; j_nextRetryAt := nextRetryAt;
  j_leaseToken := token; j_leaseExpiresAt := expires; j_lastError := j_lastError j; j_createdAt := j_createdAt j;
  j_updatedAt := now; j_completedAt := j_completedAt j; j_staleAt := j_staleAt j |}.

Definition released (now : Z) (j : Job) : Job := withLease pending (Z.min (j_nextRetryAt j) now) now None None j.

Definition due (p : string) (now : Z) (j : Job) : bool :=
  bool_decide (j_platform j = p) && bool_decide (j_status j = pending) && (j_nextRetryAt j <=? now).

Definition dueOrder (j k : Job) : bool :=
  (j_nextRetryAt j <? j_nextRetryAt k) || ((j_nextRetryAt j =? j_nextRetryAt k) && (j_id j <=? j_id k)).

Definition claimed (now leaseMs : Z) (token : Z → string) (j : Job) : Job :=
  withLease processing (j_nextRetryAt j) now (Some (token (j_id j))) (Some (now + leaseMs)) j.

Definition claimDue (now : Z) (token : Z → string) (p : string) (limit leaseMs : Z) (db : Db) : Db * list Job :=
  let js := tbl_update (expired p now) (released now) (d_jobs db) in
  let ids := j_id <$> take (Z.to_nat (Z.max 1 (Z.min limit PRIVACY_CLEANUP_WORKER_BATCH_SIZE)))
                        (sortBy dueOrder (tbl_select (due p now) js)) in
  let picked j := bool_decide (j_id j ∈ ids) in
  (setJobs (tbl_update picked (claimed now leaseMs token) js) db,
   claimed now leaseMs token <$> tbl_select picked js).

Definition prunable (now : Z) (j : Job) : bool :=
  isSettled (j_status j)
  && (match j_completedAt j, j_staleAt j with
      | Some t, _ => t
      | None, Some t => t
      | None, None => j_updatedAt j
      end <? now - PRIVACY_CLEANUP_RETENTION_DAYS * 86400000).

Definition pruneRetention (now : Z) (db : Db) : Db := setJobs (tbl_delete (prunable now) (d_jobs db)) db.

Definition getSummary (p : string) (db : Db) : Z * Z * Z :=
  let mine := tbl_select (λ j, bool_decide (j_platform j = p)) (d_jobs db) in
  let count f := Z.of_nat (length (tbl_select f mine)) in
  (count (λ j, bool_decide (j_status j = pending)), count (λ j, bool_decide (j_status j = processing)),
   count (λ j, (0 <? j_attempts j) && isLive (j_status j))).

(** ** The ownership fence *)

(** The name says older, the test says newer. *)
Definition sameOrOlderGeneration (job : Z) (current : option Z) : bool :=
  match current with Some c => c <=? job | None => false end.

Definition isPrivacyCleanupGenerationCurrent (p ext : string) (g : Z) (st : Store) : bool :=
  match rowOf p ext st with
  | Some l => isTerminal (l_state l) && sameOrOlderGeneration g (Some (l_generation l))
  | None => match tombstone p ext st with
            | None => true
            | Some a => sameOrOlderGeneration g (a_generation a)
            end
  end.

(** ** Programs *)

Definition Err := string.

(** A call of an adapter, and the job on whose behalf it is made. *)
Record Call := mkCall { c_key : string; c_platform : string; c_ext : string; c_user : option Z; c_store : StoreName }.

Record Task := mkTask { t_ref : JobRef; t_attempts : Z; t_input : JobInput; t_settled : bool }.

Record RunResult := mkRun { rr_claimed : Z; rr_completed : Z; rr_failed : Z; rr_stale : Z }.

(** [outcome] carries the jobs it waited for and the stores still outstanding: the
    status is complete when there are none. *)
Inductive Answer :=
| conflict
| threw (e : Err)
| outcome (done : bool) (user : option Z) (refs : list JobRef) (outstanding : list StoreName)
| taskDone
| ticked (r : RunResult).

Inductive Prog :=
| ReadMapping (p ext : string) (k : option Link + Err → Prog)
| Transact (o : Operation) (p ext : string) (stores : list StoreName) (expected : option ExpectedMapping)
    (k : option (PrivacyOutcome * list JobRef) + Err → Prog)
| GetJobs (id p : string) (k : list Job + Err → Prog)
| CheckFence (key p ext : string) (g : Z) (k : bool + Err → Prog)
| Act (c : Call) (k : unit + Err → Prog)
| MarkCompleted (key : string) (lease : option string) (k : unit + Err → Prog)
| MarkStale (key : string) (lease : option string) (k : unit + Err → Prog)
| MarkFailure (key : string) (attempts : Z) (e : Err) (lease : option string) (k : unit + Err → Prog)
| ClaimDue (p : string) (k : list Job + Err → Prog)
| Prune (k : unit + Err → Prog)
| Summary (p : string) (k : unit + Err → Prog)
| Fork (ts : list Task) (k : Prog)
| Done (a : Answer).

(** *** [executeCleanup] *)

Definition callOf (key : string) (i : JobInput) (s : StoreName) : Call :=
  mkCall key (n_platform i) (n_ext i) (n_user i) s.

(** The attempts of one store. *)
Fixpoint attemptLoop (n : nat) (t : Task) (attempts : Z) : Prog :=
  match n with
  | O => Done taskDone
  | S n' =>
      let key := f_key (t_ref t) in
      let i := t_input t in
      let fail e := MarkFailure key attempts e None (λ _, attemptLoop n' t (attempts + 1)) in
      CheckFence key (n_platform i) (n_ext i) (n_generation i) (λ r, match r with
      | inr e => fail e
      | inl false => MarkStale key None (λ r, match r with inl _ => Done taskDone | inr e => fail e end)
      | inl true =>
          Act (callOf key i (f_store (t_ref t))) (λ r, match r with
          | inr e => fail e
          | inl _ => MarkCompleted key None (λ r, match r with inl _ => Done taskDone | inr e => fail e end)
          end)
      end)
  end.

Definition taskProg (t : Task) : Prog :=
  if t_settled t then Done taskDone else attemptLoop PRIVACY_CLEANUP_REQUEST_ATTEMPTS t (t_attempts t).

Definition statusOf (s : StoreName) (js : list Job) : option Job :=
  last (filter (λ j, j_store j = s) js).

Definition taskOf (i : JobInput) (existing : list Job) (f : JobRef) : Task :=
  match statusOf (f_store f) existing with
  | Some j => mkTask f (j_attempts j) i (isSettled (j_status j))
  | None => mkTask f (f_attempts f) i false
  end.

Definition isOutstanding (after : list Job) (f : JobRef) : bool :=
  match last (filter (λ j, j_key j = f_key f) after) with
  | Some j => negb (isSettled (j_status j))
  | None => true
  end.

Definition executeCleanup (i : JobInput) (refs : list JobRef) (k : list StoreName → Prog) : Prog :=
  match refs with
  | [] => k []
  | f :: _ =>
      GetJobs (f_cleanupId f) (n_platform i) (λ r, match r with
      | inr _ => k (f_store <$> refs)
      | inl existing =>
          Fork (taskOf i existing <$> refs)
            (GetJobs (f_cleanupId f) (n_platform i) (λ r, match r with
             | inr _ => k (f_store <$> refs)
             | inl after => k (f_store <$> filter (λ f, isOutstanding after f = true) refs)
             end))
      end)
  end.

(** *** [unlink] and [delete] with a durable cleanup *)

(** [configured] with an adapter each, or the request is refused before it starts. *)
Record Configuration := mkConfig { c_configured : list StoreName; c_adapter : StoreName → bool }.

(** [new Set(l)] in insertion order. *)
Fixpoint distinct (seen l : list StoreName) : list StoreName :=
  match l with
  | [] => []
  | s :: l' => if bool_decide (s ∈ seen) then distinct seen l' else s :: distinct (s :: seen) l'
  end.

Definition applicableCleanupStores (c : Configuration) (user : option Z) : list StoreName :=
  filter (λ s, s ≠ display_name_cache ∨ user ≠ None) (distinct [] (c_configured c)).

Definition afterTransaction (o : Operation) (p ext : string) (r : PrivacyOutcome * list JobRef) : Prog :=
  let '(out, refs) := r in
  executeCleanup (mkInput o p ext (p_user out) (p_generation out)) refs
    (λ outstanding, Done (outcome (p_done out) (p_user out) refs outstanding)).

Definition transact (c : Configuration) (o : Operation) (p ext : string) (expected : option ExpectedMapping) : Prog :=
  Transact o p ext (c_configured c) expected (λ r, match r with
  | inr e => Done (threw e)
  | inl None => Done conflict
  | inl (Some r) => afterTransaction o p ext r
  end).

Definition unlink (c : Configuration) (p ext : string) (expected : option ExpectedMapping) : Prog :=
  if forallb (c_adapter c) (c_configured c) then
    ReadMapping p ext (λ r, match r with
    | inr e => Done (threw e)
    | inl m => if mismatch m expected then Done conflict else transact c op_unlink p ext expected
    end)
  else Done (threw "Privacy cleanup adapter missing for configured store").

Definition delete (c : Configuration) (p ext : string) (expected : option ExpectedMapping) : Prog :=
  if forallb (c_adapter c) (c_configured c) then transact c op_delete p ext expected
  else Done (threw "Privacy cleanup adapter missing for configured store").

(** The transaction: the mapping's part, then the jobs. *)
Definition privacyTx (now : Z) (o : Operation) (p ext : string) (configured : list StoreName)
    (expected : option ExpectedMapping) (db : Db) : Db * option (PrivacyOutcome * list JobRef) :=
  let '(st, r) := match o with
                  | op_unlink => unlinkTx now p ext expected (d_store db)
                  | op_delete => deleteTx now p ext true expected (d_store db)
                  end in
  match r with
  | None => (db, None)
  | Some out =>
      let i := mkInput o p ext (p_user out) (p_generation out) in
      let '(db', refs) := enqueue now i (applicableCleanupStores (mkConfig configured (λ _, true)) (p_user out))
                            (mkDb st (d_jobs db) (d_next db)) in
      (db', Some (out, refs))
  end.

(** *** [PrivacyCleanupReconciler] *)

Inductive ItemDetail := d_completed | d_failed | d_stale.

Definition count (d : ItemDetail) (r : RunResult) : RunResult :=
  match r with
  | mkRun n c f s => match d with
                     | d_completed => mkRun n (c + 1) f s
                     | d_failed => mkRun n c (f + 1) s
                     | d_stale => mkRun n c f (s + 1)
                     end
  end.

Definition processJob (adapter : StoreName → bool) (p : string) (j : Job) (next : ItemDetail → Prog) : Prog :=
  let key := j_key j in
  let lease := j_leaseToken j in
  let fail e := MarkFailure key (j_attempts j) e lease (λ _, next d_failed) in
  let asStale := MarkStale key lease (λ r, match r with inl _ => next d_stale | inr e => fail e end) in
  if bool_decide (j_store j = display_name_cache) && bool_decide (j_user j = None) then asStale
  else if negb (adapter (j_store j)) then fail ("Privacy cleanup adapter missing for " +:+ storeName (j_store j))
  else CheckFence key p (j_ext j) (j_generation j) (λ r, match r with
       | inr e => fail e
       | inl false => asStale
       | inl true =>
           Act (mkCall key p (j_ext j) (j_user j) (j_store j)) (λ r, match r with
           | inr e => fail e
           | inl _ => MarkCompleted key lease (λ r, match r with inl _ => next d_completed | inr e => fail e end)
           end)
       end).

Fixpoint processAll (adapter : StoreName → bool) (p : string) (js : list Job) (acc : RunResult) : Prog :=
  match js with
  | [] => Prune (λ r, match r with inr e => Done (threw e) | inl _ => Summary p (λ _, Done (ticked acc)) end)
  | j :: js' => processJob adapter p j (λ d, processAll adapter p js' (count d acc))
  end.

Definition processWithItems (adapter : StoreName → bool) (p : string) : Prog :=
  ClaimDue p (λ r, match r with
  | inr e => Done (threw e)
  | inl js => processAll adapter p js (mkRun (Z.of_nat (length js)) 0 0 0)
  end).

(** ** The system *)

Inductive Worker := running (q : Prog) | joining (children : list nat) (k : Prog).

(** The calls that succeeded, the checks that passed with what they saw of the
    account, and the checks that failed with the generation of the job and the tables
    they saw. *)
Inductive Entry :=
| called (c : Call)
| checked (key p ext : string) (owner : option (Z * bool))
| superseded (key p ext : string) (g : Z) (st : Store).

Record World := mkWorld { w_db : Db; w_workers : list Worker; w_log : list Entry }.

Definition init : World := mkWorld (mkDb Links.init [] 1) [] [].

Inductive DbAnswer := db_ok | db_threw (applied : bool) (e : Err).

Inductive WEvent :=
| WUnlink (c : Configuration) (p ext : string) (expected : option ExpectedMapping)
| WDelete (c : Configuration) (p ext : string) (expected : option ExpectedMapping)
| WTick (adapter : StoreName → bool) (p : string)
| WDb (n : nat) (now u : Z) (token : Z → string) (r : DbAnswer)
| WAct (n : nat) (r : unit + Err)
| WFork (n : nat)
| WJoin (n : nat)
| WCrash (n : nat)
| WLinks (e : Event).

Definition setWorker (n : nat) (v : Worker) (w : World) : World := mkWorld (w_db w) (<[n := v]> (w_workers w)) (w_log w).
Definition setDb (db : Db) (w : World) : World := mkWorld db (w_workers w) (w_log w).
Definition addLog (l : list Entry) (w : World) : World := mkWorld (w_db w) (w_workers w) (l ++ w_log w).

Definition stmt {A} (op : Db → Db * A) (r : DbAnswer) (db : Db) : Db * (A + Err) :=
  match r with
  | db_ok => ((op db).1, inl (op db).2)
  | db_threw applied e => ((if applied then (op db).1 else db), inr e)
  end.

Definition write (op : Db → Db) (db : Db) : Db * unit := (op db, tt).

(** The statement of a program, what it appends to the log, and how the program goes on. *)
Definition answer (now u : Z) (token : Z → string) (r : DbAnswer) (q : Prog) (db : Db) : Db * list Entry * Prog :=
  let run {A} (op : Db → Db * A) (k : A + Err → Prog) (log : A + Err → list Entry) : Db * list Entry * Prog :=
    let '(db', a) := stmt op r db in (db', log a, k a) in
  match q with
  | ReadMapping p ext k => run (λ db, (db, rowOf p ext (d_store db))) k (λ _, [])
  | Transact o p ext stores expected k => run (privacyTx now o p ext stores expected) k (λ _, [])
  | GetJobs id p k => run (λ db, (db, getByCleanupId id p db)) k (λ _, [])
  | CheckFence key p ext g k =>
      run (λ db, (db, isPrivacyCleanupGenerationCurrent p ext g (d_store db))) k
        (λ a, match a with
              | inl true => [checked key p ext (owned p ext (d_store db))]
              | inl false => [superseded key p ext g (d_store db)]
              | inr _ => []
              end)
  | MarkCompleted key lease k => run (write (markCompleted now key lease)) k (λ _, [])
  | MarkStale key lease k => run (write (markStale now key lease)) k (λ _, [])
  | MarkFailure key attempts e lease k => run (write (markFailure now u key attempts e lease)) k (λ _, [])
  | ClaimDue p k =>
      run (claimDue now token p PRIVACY_CLEANUP_WORKER_BATCH_SIZE PRIVACY_CLEANUP_WORKER_LEASE_MS) k (λ _, [])
  | Prune k => run (write (pruneRetention now)) k (λ _, [])
  | Summary p k => run (λ db, (db, tt)) k (λ _, [])
  | _ => (db, [], q)
  end.

Definition onWorker (n : nat) (f : Prog → World → World) (w : World) : World :=
  match w_workers w !! n with Some (running q) => f q w | _ => w end.

Definition execDb (n : nat) (now u : Z) (token : Z → string) (r : DbAnswer) (q : Prog) (w : World) : World :=
  let '(db, log, q') := answer now u token r q (w_db w) in
  setWorker n (running q') (addLog log (setDb db w)).

Definition execAct (n : nat) (r : unit + Err) (q : Prog) (w : World) : World :=
  match q with
  | Act c k => setWorker n (running (k r)) (addLog (match r with inl _ => [called c] | inr _ => [] end) w)
  | _ => w
  end.

Definition execFork (n : nat) (q : Prog) (w : World) : World :=
  match q with
  | Fork ts k =>
      let first := length (w_workers w) in
      mkWorld (w_db w) (<[n := joining (seq first (length ts)) k]> (w_workers w) ++ (running ∘ taskProg <$> ts)) (w_log w)
  | _ => w
  end.

Definition isDone (w : World) (n : nat) : bool :=
  match w_workers w !! n with Some (running (Done _)) => true | _ => false end.

Definition execJoin (n : nat) (w : World) : World :=
  match w_workers w !! n with
  | Some (joining children k) => if forallb (isDone w) children then setWorker n (running k) w else w
  | _ => w
  end.

Definition spawn (q : Prog) (w : World) : World := mkWorld (w_db w) (w_workers w ++ [running q]) (w_log w).

Definition execW (e : WEvent) (w : World) : World :=
  match e with
  | WUnlink c p ext expected => spawn (unlink c p ext expected) w
  | WDelete c p ext expected => spawn (delete c p ext expected) w
  | WTick adapter p => spawn (processWithItems adapter p) w
  | WDb n now u token r => onWorker n (execDb n now u token r) w
  | WAct n r => onWorker n (execAct n r) w
  | WFork n => onWorker n (execFork n) w
  | WJoin n => execJoin n w
  | WCrash n => if bool_decide (n < length (w_workers w))%nat then setWorker n (running (Done (threw "crash"))) w else w
  | WLinks e => setDb (mkDb (exec e (d_store (w_db w))) (d_jobs (w_db w)) (d_next (w_db w))) w
  end.

Fixpoint runW (es : list WEvent) (w : World) : World :=
  match es with [] => w | e :: es' => runW es' (execW e w) end.

(** ** An answer of complete is true *)

(** The account moved on from the generation [g]: it has a live owner, or its row or
    tombstone is of a newer generation (or of none, in data from before them). *)
Definition movedOn (p ext : string) (g : Z) (st : Store) : Prop :=
  (∃ u, owned p ext st = Some (u, false))
  ∨ 2 * g + 1 < stamp p ext st
  ∨ (rowOf p ext st = None ∧ ∃ a, tombstone p ext st = Some a ∧ a_generation a = None).

Definition supersededBy (key : string) (log : list Entry) : Prop :=
  ∃ p ext g st, superseded key p ext g st ∈ log ∧ movedOn p ext g st.

(** The job's store was cleared, or the account had moved on from the job. *)
Definition settledBy (key : string) (store : StoreName) (log : list Entry) : Prop :=
  (∃ c, called c ∈ log ∧ c_key c = key ∧ c_store c = store) ∨ supersededBy key log.

(** The keys of jobs end in the name of their store. *)
Definition named (key : string) (s : StoreName) : Prop := ∃ id, key = id +:+ ":" +:+ storeName s.

(** The account had no owner, or an ended link, when the call was cleared. *)
Definition clearedBy (c : Call) (log : list Entry) : Prop :=
  ∃ owner, checked (c_key c) (c_platform c) (c_ext c) owner ∈ log ∧ ∀ u, owner ≠ Some (u, false).

(** A job for the display name has the learner it is cleared for. *)
Definition addressed (j : Job) : Prop :=
  named (j_key j) (j_store j) ∧ (j_store j = display_name_cache → j_user j ≠ None).

Definition refNamed (f : JobRef) : Prop := named (f_key f) (f_store f).

Definition rowsTrue (js : list Job) (log : list Entry) : Prop :=
  ∀ j, j ∈ js → named (j_key j) (j_store j)
                ∧ (isSettled (j_status j) = true → settledBy (j_key j) (j_store j) log).

Fixpoint safe (log : list Entry) (q : Prog) : Prop :=
  match q with
  | ReadMapping _ _ k => ∀ r, safe log (k r)
  | Transact _ _ _ _ _ k =>
      ∀ r, (∀ out refs, r = inl (Some (out, refs)) → ∀ f, f ∈ refs → refNamed f) → safe log (k r)
  | GetJobs _ _ k => ∀ r log', log ⊆ log' → (∀ js, r = inl js → rowsTrue js log') → safe log' (k r)
  | CheckFence key p ext _ k =>
      ∀ r log', log ⊆ log' →
        (r = inl true → ∃ owner, checked key p ext owner ∈ log' ∧ ∀ u, owner ≠ Some (u, false)) →
        (r = inl false → supersededBy key log') → safe log' (k r)
  | Act c k => clearedBy c log ∧ ∀ r log', log ⊆ log' → (∀ v, r = inl v → called c ∈ log') → safe log' (k r)
  | MarkCompleted key _ k => (∃ s, named key s ∧ settledBy key s log) ∧ ∀ r, safe log (k r)
  | MarkStale key _ k => supersededBy key log ∧ ∀ r, safe log (k r)
  | MarkFailure _ _ _ _ k => ∀ r, safe log (k r)
  | ClaimDue _ k => ∀ r, (∀ js, r = inl js → ∀ j, j ∈ js → addressed j) → safe log (k r)
  | Prune k => ∀ r, safe log (k r)
  | Summary _ k => ∀ r, safe log (k r)
  | Fork ts k => (∀ t, t ∈ ts → refNamed (t_ref t)) ∧ safe log k
  | Done (outcome _ _ refs outstanding) =>
      ∀ f, f ∈ refs → f_store f ∈ outstanding ∨ settledBy (f_key f) (f_store f) log
  | Done _ => True
  end.

(** A key names one store. *)
Lemma named_inj key s s' : named key s → named key s' → s = s'.
Proof.
  intros (id & ->) (id' & E). apply (f_equal (λ x, rev (String.list_ascii_of_string x))) in E.
  assert (∀ x y, String.list_ascii_of_string (x +:+ y) = String.list_ascii_of_string x ++ String.list_ascii_of_string y)
    as Happ by (induction x as [|c x IH]; intros y; [done|by simpl; f_equal]).
  rewrite !Happ, !rev_app_distr in E. by destruct s, s'.
Qed.

Lemma supersededBy_mono key log log' : log ⊆ log' → supersededBy key log → supersededBy key log'.
Proof. intros Hs (p & ext & g & st & Hk & Hm). exists p, ext, g, st. split; [by apply Hs|done]. Qed.

Lemma settledBy_mono key store log log' : log ⊆ log' → settledBy key store log → settledBy key store log'.
Proof.
  intros Hs [(c & Hc & Hk)|Hk]; [left; exists c; split; [by apply Hs|done]|right; by eapply supersededBy_mono].
Qed.

Lemma clearedBy_mono c log log' : log ⊆ log' → clearedBy c log → clearedBy c log'.
Proof. intros Hs (o & Ho & Hn). exists o. split; [by apply Hs|done]. Qed.

Lemma rowsTrue_mono js log log' : log ⊆ log' → rowsTrue js log → rowsTrue js log'.
Proof. intros Hs Hr j Hj. destruct (Hr j Hj) as [Hn Hk]. split; [done|]. intros Hst. eapply settledBy_mono; [exact Hs|auto]. Qed.

#[local] Hint Resolve supersededBy_mono settledBy_mono clearedBy_mono rowsTrue_mono : wispace.

Lemma cleanup_safe_mono log log' q : log ⊆ log' → safe log q → safe log' q.
Proof.
  assert (∀ l1 l2 l3 : list Entry, l1 ⊆ l2 → l2 ⊆ l3 → l1 ⊆ l3) as Htr by (intros l1 l2 l3 H1 H2 x Hx; auto).
  revert log log'.
  induction q as [? ? k IH|? ? ? ? ? k IH|? ? k IH|? ? ? ? k IH|? k IH|? ? k IH|? ? k IH|? ? ? ? k IH|? k IH|k IH|? k IH|? k IH|a];
    intros log log' Hs Hq; simpl in *.
  1,8,10,11: intros x; exact (IH x log log' Hs (Hq x)).
  - intros x Hx. exact (IH x log log' Hs (Hq x Hx)).
  - intros x log2 Hs2. exact (Hq x log2 (Htr _ _ _ Hs Hs2)).
  - intros x log2 Hs2. exact (Hq x log2 (Htr _ _ _ Hs Hs2)).
  - destruct Hq as [Hc Hq]. split; [by eauto with wispace|]. intros x log2 Hs2. exact (Hq x log2 (Htr _ _ _ Hs Hs2)).
  - destruct Hq as [(s & Hn & Hc) Hq]. split; [exists s; by eauto with wispace|]. intros x. exact (IH x log log' Hs (Hq x)).
  - destruct Hq as [Hc Hq]. split; [by eauto with wispace|]. intros x. exact (IH x log log' Hs (Hq x)).
  - intros x Hx. exact (IH x log log' Hs (Hq x Hx)).
  - destruct Hq as [Ht Hq]. split; [done|]. exact (IH log log' Hs Hq).
  - destruct a; try done. intros f Hf. destruct (Hq f Hf); [by left|right; by eauto with wispace].
Qed.

(** *** The programs are safe *)

Lemma attemptLoop_safe n t attempts log : refNamed (t_ref t) → safe log (attemptLoop n t attempts).
Proof.
  intros Hnm. revert attempts log. induction n as [|n IH]; intros attempts log; [done|].
  intros [[|]|e] log1 H1 Ht Hf; simpl; [| |by intros r; apply IH].
  - destruct (Ht eq_refl) as (owner & Ho & Hn). split; [by exists owner|].
    intros [v|e] log2 H2 Hc; simpl; [|by intros r; apply IH]. split.
    + exists (f_store (t_ref t)). split; [done|]. left. eexists. split; [by eapply Hc|done].
    + intros [v'|e]; [done|by intros r; apply IH].
  - split; [by apply Hf|]. intros [v|e]; [done|by intros r; apply IH].
Qed.

Lemma taskProg_safe t log : refNamed (t_ref t) → safe log (taskProg t).
Proof. unfold taskProg. destruct (t_settled t); [done|apply attemptLoop_safe]. Qed.

Lemma executeCleanup_safe i refs k log :
  (∀ f, f ∈ refs → refNamed f) →
  (∀ log' outstanding, log ⊆ log' → (∀ f, f ∈ refs → f_store f ∈ outstanding ∨ settledBy (f_key f) (f_store f) log') →
     safe log' (k outstanding)) →
  safe log (executeCleanup i refs k).
Proof.
  intros Hnm Hk. destruct refs as [|f refs]; [by apply Hk; [|intros f ?%not_elem_of_nil]|].
  assert (∀ log', log ⊆ log' → safe log' (k (f_store <$> f :: refs))) as Hall.
  { intros log' Hs. apply Hk; [done|]. intros g Hg. left. by apply list_elem_of_fmap_2. }
  intros [existing|e] log1 H1 _; [|by apply Hall]. split.
  { intros t (g & -> & Hg)%list_elem_of_fmap. unfold taskOf. destruct (statusOf _ _); by apply Hnm. }
  intros [after|e] log2 H2 Hrows; [|apply Hall; intros x Hx; by apply H2, H1].
  apply Hk; [intros x Hx; by apply H2, H1|]. intros g Hg. destruct (isOutstanding after g) eqn:E.
  - left. apply list_elem_of_fmap_2. by apply list_elem_of_filter.
  - right. unfold isOutstanding in E. destruct (last _) as [j|] eqn:El; [|done].
    apply last_Some_elem_of, list_elem_of_filter in El as [Hkey Hj]. apply negb_false_iff in E.
    destruct (Hrows after eq_refl j Hj) as [Hjn Hjs]. specialize (Hjs E). rewrite Hkey in *.
    by rewrite (named_inj _ _ _ (Hnm g Hg) Hjn).
Qed.

Lemma transact_safe c o p ext expected log : safe log (transact c o p ext expected).
Proof.
  intros [[[out refs]|]|e] Hr; [|done..]. apply executeCleanup_safe; [by eapply Hr|]. intros log' outstanding _ Hf. exact Hf.
Qed.

Lemma unlink_safe c p ext expected log : safe log (unlink c p ext expected).
Proof.
  unfold unlink. destruct (forallb _ _); [|done]. intros [m|e]; [|done].
  destruct (mismatch m expected); [done|apply transact_safe].
Qed.

Lemma delete_safe c p ext expected log : safe log (delete c p ext expected).
Proof. unfold delete. destruct (forallb _ _); [apply transact_safe|done]. Qed.

Lemma processJob_safe adapter p j next log :
  addressed j → (∀ d log', log ⊆ log' → safe log' (next d)) → safe log (processJob adapter p j next).
Proof.
  intros Ha Hn.
  assert (∀ log' e, log ⊆ log' → safe log' (MarkFailure (j_key j) (j_attempts j) e (j_leaseToken j) (λ _, next d_failed)))
    as Hfail by (intros log' e Hs r; by apply Hn).
  unfold processJob. destruct (bool_decide (j_store j = display_name_cache) && bool_decide (j_user j = None)) eqn:E.
  { apply andb_true_iff in E as [E1%bool_decide_eq_true E2%bool_decide_eq_true]. by destruct (proj2 Ha E1). }
  destruct (negb (adapter (j_store j))); [by apply Hfail|].
  intros [[|]|e] log1 H1 Ht Hf; [| |by apply Hfail].
  - destruct (Ht eq_refl) as (owner & Ho & Hnl). split; [by exists owner|].
    intros [v|e] log2 H2 Hc; [|by apply Hfail; intros x Hx; apply H2, H1]. split.
    + exists (j_store j). split; [by apply Ha|]. left. eexists. split; [by eapply Hc|done].
    + intros [v'|e]; [apply Hn|apply Hfail]; intros x Hx; by apply H2, H1.
  - split; [by apply Hf|]. intros [v|e]; [by apply Hn|by apply Hfail].
Qed.

Lemma processAll_safe adapter p js acc log : (∀ j, j ∈ js → addressed j) → safe log (processAll adapter p js acc).
Proof.
  revert acc log. induction js as [|j js IH]; intros acc log Ha; simpl.
  - intros [v|e]; [|done]. by intros r.
  - apply processJob_safe; [apply Ha; by left|]. intros d log' _. apply IH. intros j' Hj'. apply Ha. by right.
Qed.

Lemma processWithItems_safe adapter p log : safe log (processWithItems adapter p).
Proof. intros [js|e] Hjs; [|done]. apply processAll_safe. by apply Hjs. Qed.

(** *** The table tells the truth *)

Definition rowTrue (log : list Entry) (j : Job) : Prop :=
  addressed j ∧ (isSettled (j_status j) = true → settledBy (j_key j) (j_store j) log).

Definition tableTrue (log : list Entry) (js : list Job) : Prop := ∀ j, j ∈ js → rowTrue log j.

Lemma tableTrue_mono log log' js : log ⊆ log' → tableTrue log js → tableTrue log' js.
Proof. intros Hs Ht j Hj. destruct (Ht j Hj) as [Ha Hk]. split; [done|]. intros ?. eapply settledBy_mono; [exact Hs|auto]. Qed.

Lemma tableTrue_update log q f js :
  (∀ j, (j_store (f j), j_user (f j), j_key (f j)) = (j_store j, j_user j, j_key j)) →
  (∀ j, j ∈ js → q j = true → isSettled (j_status (f j)) = true → settledBy (j_key j) (j_store j) log) →
  tableTrue log js → tableTrue log (tbl_update q f js).
Proof.
  intros Hf Hs Ht j' (j & Hj & ->)%elem_of_tbl_update. destruct (Ht j Hj) as [Ha Hk].
  destruct (q j) eqn:E; [|done]. injection (Hf j) as H1 H2 H3. split.
  - unfold addressed. by rewrite H1, H2, H3.
  - rewrite H1, H3. by apply Hs.
Qed.

Lemma tableTrue_delete log q js : tableTrue log js → tableTrue log (tbl_delete q js).
Proof. intros Ht j [_ Hj]%elem_of_tbl_delete. by apply Ht. Qed.

Lemma settleable_key k lease j : settleable k lease j = true → j_key j = k.
Proof. unfold settleable, hasKey. rewrite !andb_true_iff. intros [[Hk%bool_decide_eq_true _] _]. done. Qed.

Lemma enqueue_true log now i stores db db' refs :
  (∀ s, s ∈ stores → s ≠ display_name_cache ∨ n_user i ≠ None) →
  enqueue now i stores db = (db', refs) → tableTrue log (d_jobs db) → tableTrue log (d_jobs db').
Proof.
  revert db db' refs. induction stores as [|s stores IH]; intros db db' refs Hs; simpl; [by intros [= <- <-]|].
  unfold tbl_insert_nothing.
  destruct (tbl_exists _ _); simpl; destruct (enqueue now i stores _) as [db2 refs2] eqn:E; intros [= <- <-] Ht;
    (eapply IH; [intros s' Hs'; apply Hs; by right|exact E|]); [done|].
  intros j [Hj| ->%list_elem_of_singleton]%elem_of_app; [by apply Ht|]. split; [|done].
  split; [by eexists|]. intros Heq. simpl in Heq. destruct (Hs s); [by left|done|done].
Qed.

Lemma enqueue_refs_named now i stores db db' refs :
  enqueue now i stores db = (db', refs) → ∀ f, f ∈ refs → refNamed f.
Proof.
  revert db db' refs. induction stores as [|s stores IH]; intros db db' refs; simpl; [intros [= <- <-] f; by intros ?%not_elem_of_nil|].
  unfold tbl_insert_nothing.
  destruct (tbl_exists _ _); simpl; destruct (enqueue now i stores _) as [db2 refs2] eqn:E; intros [= <- <-] f
    [->|Hf]%elem_of_cons; first [by eexists|by eapply IH].
Qed.

Lemma claimDue_true log now token p limit leaseMs db :
  tableTrue log (d_jobs db) →
  tableTrue log (d_jobs (claimDue now token p limit leaseMs db).1)
  ∧ ∀ j, j ∈ (claimDue now token p limit leaseMs db).2 → addressed j.
Proof.
  intros Ht. assert (tableTrue log (tbl_update (expired p now) (released now) (d_jobs db))) as H1
    by by apply tableTrue_update.
  unfold claimDue. cbv zeta. split; [by apply tableTrue_update|].
  intros j (j0 & -> & Hj0)%list_elem_of_fmap. apply elem_of_tbl_select in Hj0 as [_ Hj0].
  destruct (H1 _ Hj0) as [Ha _]. exact Ha.
Qed.

Lemma privacyTx_true log now o p ext configured expected db :
  tableTrue log (d_jobs db) → tableTrue log (d_jobs (privacyTx now o p ext configured expected db).1).
Proof.
  intros Ht. unfold privacyTx. cbv zeta. destruct (match o with op_unlink => _ | op_delete => _ end) as [st [out|]]; [|done].
  destruct (enqueue now _ _ _) as [db' refs] eqn:E. simpl. eapply enqueue_true; [|exact E|done].
  intros s Hs. unfold applicableCleanupStores in Hs. by apply list_elem_of_filter in Hs as [? _].
Qed.

Lemma privacyTx_refs_named now o p ext configured expected db out refs :
  (privacyTx now o p ext configured expected db).2 = Some (out, refs) → ∀ f, f ∈ refs → refNamed f.
Proof.
  unfold privacyTx. cbv zeta. destruct (match o with op_unlink => _ | op_delete => _ end) as [st [out'|]]; [|done].
  destruct (enqueue now _ _ _) as [db' refs'] eqn:E. simpl. intros [= -> ->]. by eapply enqueue_refs_named.
Qed.

(** *** Every history *)

Lemma fence_unowned p ext g st u : isPrivacyCleanupGenerationCurrent p ext g st = true → owned p ext st ≠ Some (u, false).
Proof.
  unfold isPrivacyCleanupGenerationCurrent, owned. destruct (rowOf p ext st) as [l|]; simpl; [|done].
  intros [Ht _]%andb_true_iff. by rewrite Ht.
Qed.

(** A check fails only when the account moved on. *)
Lemma fence_closed p ext g st : isPrivacyCleanupGenerationCurrent p ext g st = false → movedOn p ext g st.
Proof.
  unfold isPrivacyCleanupGenerationCurrent, movedOn, stamp, owned, tombstoneGeneration.
  destruct (rowOf p ext st) as [l|]; simpl.
  - destruct (isTerminal (l_state l)); simpl; [|intros _; left; by eexists]. intros ?%Z.leb_gt. right. left. lia.
  - destruct (tombstone p ext st) as [a|]; simpl; [|done]. destruct (a_generation a) as [c|] eqn:E; simpl.
    + intros ?%Z.leb_gt. right. left. lia.
    + intros _. right. right. split; [done|]. by exists a.
Qed.

(** Every call in the log, newest first, was cleared before it was made. *)
Fixpoint fencedLog (log : list Entry) : Prop :=
  match log with
  | [] => True
  | called c :: log' => clearedBy c log' ∧ fencedLog log'
  | _ :: log' => fencedLog log'
  end.

Definition workerSafe (log : list Entry) (v : Worker) : Prop :=
  match v with running q => safe log q | joining _ k => safe log k end.

Record honest (w : World) : Prop := {
  h_table : tableTrue (w_log w) (d_jobs (w_db w));
  h_workers : ∀ n v, w_workers w !! n = Some v → workerSafe (w_log w) v;
  h_log : fencedLog (w_log w)
}.

Lemma workerSafe_mono log log' v : log ⊆ log' → workerSafe log v → workerSafe log' v.
Proof. destruct v; apply cleanup_safe_mono. Qed.

(** One worker's step on the database and the log. *)
Lemma honest_step n v db log w :
  honest w → tableTrue (log ++ w_log w) (d_jobs db) → fencedLog (log ++ w_log w) → workerSafe (log ++ w_log w) v →
  honest (setWorker n v (addLog log (setDb db w))).
Proof.
  intros [Ht Hw Hl] Ht' Hl' Hv. split; [done| |done]. intros m v' Hm. simpl in *.
  apply list_lookup_insert_Some in Hm as [(_ & <- & _)|(_ & Hm)]; [done|].
  eapply workerSafe_mono; [|by apply (Hw m)]. intros x Hx. apply elem_of_app. by right.
Qed.

Lemma stmt_true {A} log (op : Db → Db * A) r db :
  tableTrue log (d_jobs db) → tableTrue log (d_jobs (op db).1) → tableTrue log (d_jobs (stmt op r db).1).
Proof. destruct r as [|[] e]; by simpl. Qed.

(** A statement that appends nothing to the log. *)
Lemma answer_plain {A} log (op : Db → Db * A) (k : A + Err → Prog) r db :
  tableTrue log (d_jobs db) → tableTrue log (d_jobs (op db).1) →
  (∀ a, a = (stmt op r db).2 → safe log (k a)) →
  let '(db', a) := stmt op r db in tableTrue log (d_jobs db') ∧ safe log (k a).
Proof.
  intros Ht Hop Hk. pose proof (stmt_true log op r db Ht Hop) as H1. specialize (Hk _ eq_refl).
  by destruct (stmt op r db).
Qed.

Lemma answer_true now u token r q db log :
  tableTrue log (d_jobs db) → fencedLog log → safe log q →
  let '(db', new, q') := answer now u token r q db in
  tableTrue (new ++ log) (d_jobs db') ∧ fencedLog (new ++ log) ∧ safe (new ++ log) q'.
Proof.
  intros Ht Hl Hq.
  assert (∀ A (op : Db → Db * A) (k : A + Err → Prog),
    tableTrue log (d_jobs (op db).1) → (∀ a, a = (stmt op r db).2 → safe log (k a)) →
    let '(db', new, q') := (let '(db', a) := stmt op r db in (db', [], k a)) in
    tableTrue (new ++ log) (d_jobs db') ∧ fencedLog (new ++ log) ∧ safe (new ++ log) q') as Hplain.
  { intros A op k Hop Hk. pose proof (answer_plain log op k r db Ht Hop Hk). destruct (stmt op r db). naive_solver. }
  destruct q as [p ext k|o p ext stores expected k|id p k|key p ext g k|c k|key lease k|key lease k|key attempts e lease k
                |p k|k|p k|ts k|a]; simpl in Hq |- *; try done.
  - apply (Hplain _ (λ db, (db, rowOf p ext (d_store db))) k); [done|]. intros; apply Hq.
  - apply (Hplain _ (privacyTx now o p ext stores expected) k); [by apply privacyTx_true|]. intros a ->. apply Hq.
    intros out refs Hr. destruct r; [|done]. injection Hr as Hr. by eapply privacyTx_refs_named.
  - apply (Hplain _ (λ db, (db, getByCleanupId id p db)) k); [done|]. intros a ->. apply Hq; [done|].
    intros js Hjs j Hj. destruct r; [|done]. injection Hjs as <-. apply elem_of_tbl_select in Hj as [_ Hj].
    destruct (Ht j Hj) as [[Hn _] Hs]. by split.
  - destruct r as [|applied e]; simpl.
    + destruct (isPrivacyCleanupGenerationCurrent p ext g (d_store db)) eqn:E; simpl.
      * split_and!; [eapply tableTrue_mono; [|done]; intros x Hx; by right|done|].
        apply Hq; [intros x Hx; by right| |done]. intros _. eexists. split; [by left|]. intros v. by eapply fence_unowned.
      * split_and!; [eapply tableTrue_mono; [|done]; intros x Hx; by right|done|].
        apply Hq; [intros x Hx; by right|done|]. intros _. do 4 eexists. split; [by left|]. by apply fence_closed.
    + destruct applied; split_and!; try done; by apply Hq.
  - destruct Hq as [(s & Hn & Hk) Hq].
    apply (Hplain _ (write (markCompleted now key lease)) k); [|by intros]. apply tableTrue_update; [done| |done].
    intros j Hin Hj _. destruct (Ht j Hin) as [[Hjn _] _]. rewrite (settleable_key _ _ _ Hj) in *.
    by rewrite (named_inj _ _ _ Hjn Hn).
  - destruct Hq as [Hk Hq].
    apply (Hplain _ (write (markStale now key lease)) k); [|by intros]. apply tableTrue_update; [done| |done].
    intros j _ Hj _. rewrite (settleable_key _ _ _ Hj). by right.
  - apply (Hplain _ (write (markFailure now u key attempts e lease)) k); [|by intros]. by apply tableTrue_update.
  - apply (Hplain _ (claimDue now token p PRIVACY_CLEANUP_WORKER_BATCH_SIZE PRIVACY_CLEANUP_WORKER_LEASE_MS) k).
    + by apply claimDue_true.
    + intros a ->. apply Hq. intros js Hjs. destruct r; [|done]. injection Hjs as <-. by eapply claimDue_true.
  - apply (Hplain _ (write (pruneRetention now)) k); [|by intros]. by apply tableTrue_delete.
  - apply (Hplain _ (λ db, (db, tt)) k); [done|by intros].
Qed.

Lemma honest_exec e w : honest w → honest (execW e w).
Proof.
  intros Hw. pose proof Hw as [Ht Hws Hl].
  assert (∀ n f, (∀ q, w_workers w !! n = Some (running q) → honest (f q w)) → honest (onWorker n f w)) as Hon.
  { intros n f Hf. unfold onWorker. destruct (w_workers w !! n) as [[q|]|] eqn:E; [by apply Hf|done..]. }
  assert (∀ q, safe (w_log w) q → honest (spawn q w)) as Hspawn.
  { intros q Hq. split; [done| |done]. intros n v Hn. simpl in Hn.
    apply lookup_app_Some in Hn as [Hn|[_ Hn]]; [by apply (Hws n)|]. by apply list_lookup_singleton_Some in Hn as [_ <-]. }
  assert (∀ n v, workerSafe (w_log w) v → honest (setWorker n v w)) as Hset.
  { intros n v Hv. split; [done| |done]. intros m v' Hm. simpl in Hm.
    apply list_lookup_insert_Some in Hm as [(_ & <- & _)|(_ & Hm)]; [done|by apply (Hws m)]. }
  destruct e; simpl.
  - apply Hspawn, unlink_safe.
  - apply Hspawn, delete_safe.
  - apply Hspawn, processWithItems_safe.
  - apply Hon. intros q Hq. unfold execDb. pose proof (answer_true now u token r q (w_db w) (w_log w) Ht Hl (Hws n _ Hq)) as Ha.
    destruct (answer now u token r q (w_db w)) as [[db new] q']. destruct Ha as (H1 & H2 & H3). by apply honest_step.
  - apply Hon. intros q Hq. pose proof (Hws n _ Hq) as Hs. destruct q; try done. destruct Hs as [Hc Hs]. simpl.
    destruct w as [db ws log]. apply (honest_step n _ db); [done|..]; destruct r as [v|er]; simpl in *; try done.
    + eapply tableTrue_mono; [|done]. intros x Hx. by right.
    + apply Hs; [intros x Hx; by right|]. intros _ _. by left.
    + by apply Hs.
  - apply Hon. intros q Hq. pose proof (Hws n _ Hq) as Hs. destruct q; try done. destruct Hs as [Hts Hs]. split; [done| |done].
    intros m v Hm. simpl in Hm |- *. apply lookup_app_Some in Hm as [Hm|[_ Hm]].
    + apply list_lookup_insert_Some in Hm as [(_ & <- & _)|(_ & Hm)]; [done|by apply (Hws m)].
    + apply list_elem_of_lookup_2, list_elem_of_fmap in Hm as (t & -> & Hin). by apply taskProg_safe, Hts.
  - unfold execJoin. destruct (w_workers w !! n) as [[|children k]|] eqn:E; [done| |done].
    destruct (forallb _ _); [|done]. apply Hset. by apply (Hws n _ E).
  - case_bool_decide; [by apply Hset|done].
  - split; [done..|]. done.
Qed.

Lemma honest_run es w : honest w → honest (runW es w).
Proof. revert w. induction es as [|e es IH]; intros w Hw; simpl; [done|]. by apply IH, honest_exec. Qed.

Lemma honest_init : honest init.
Proof. split; [by intros ? ?%not_elem_of_nil|done|done]. Qed.


End Jobs.
End Cleanup.
