(* ===== verification/PrivacyFence.v ===== *)
(** * The fence and the schedule of privacy cleanup jobs

    When a cleanup job of [PrivacyCleanup] may still run, in terms of the histories of
    the mappings, and that no job that has to run is lost. *)

From S2P Require Import Prelude Table ReminderJobs ReminderDispatch AccountLinks LinkFence PrivacyCleanup.

Module CleanupFence.
Import Links Fence Cleanup.

Section Proofs.
Context `{Runtime}.
Context {Hinj : Inj (=) (=) hash}.

(** ** The fence in terms of the account's stamp *)

Lemma fence_stamp p ext g st :
  store_inv st → 1 <= g →
  isPrivacyCleanupGenerationCurrent p ext g st = true
  ↔ (∀ u, owned p ext st ≠ Some (u, false)) ∧ stamp p ext st <= 2 * g + 1.
Proof.
  intros Hst Hg. unfold isPrivacyCleanupGenerationCurrent, owned, stamp, tombstoneGeneration.
  destruct (rowOf p ext st) as [l|]; simpl.
  - rewrite andb_true_iff, Z.leb_le. destruct (isTerminal (l_state l)).
    + split; [intros [_ ?]; split; [done|lia]|intros [_ ?]; split; [done|lia]].
    + split; [by intros [? _]|]. intros [Hn _]. by destruct (Hn (l_user l)).
  - destruct (tombstone p ext st) as [a|] eqn:Ea; simpl; [|split; [intros _; split; [done|lia]|done]].
    assert (∃ t, a_generation a = Some t) as [t ->].
    { unfold tombstone in Ea. apply latest_in, elem_of_tbl_select in Ea as [Ht Ha].
      apply andb_true_iff in Ht as [_ Ht%bool_decide_eq_true].
      destruct (si_tombstone _ Hst a Ha Ht) as (t & ? & _). by exists t. }
    simpl. rewrite Z.leb_le. split; [intros ?; split; [done|lia]|intros [_ ?]; lia].
Qed.

(** ** What closes the fence *)

(** A link of the account, or a check that revokes its link, again or for the first time. *)
Definition renews (p ext : string) (e : Event) (st : Store) : Prop :=
  match e with
  | EUpsert _ q _ x _ => (q, x) = (p, ext)
  | EObserve now q x o expected =>
      (q, x) = (p, ext) ∧ t_outcome (applyObservation now q x o expected st).2 = t_revoked
      ∧ t_changed (applyObservation now q x o expected st).2 = None
  | _ => False
  end.

Lemma stamp_audit now p ext g t reason version q e st :
  after now st → t ≠ ev_locally_unlinked → stamp q e (writeAudit now p ext (Some g) t reason version st) = stamp q e st.
Proof.
  intros Hold Ht. unfold stamp. rewrite tombstone_write by exact Hold.
  by rewrite (bool_decide_false (t = _)), andb_false_r.
Qed.

Lemma stamp_updateRow st l f q e :
  (∀ m, linkKey (f m) = linkKey m) → store_inv st → l ∈ links st →
  (keyed q e l = true → l_generation (f l) = l_generation l) → stamp q e (updateRow l f st) = stamp q e st.
Proof.
  intros Hf Hst Hl Hg. unfold stamp. rewrite rowOf_updateRow by done. destruct (keyed q e l) eqn:Hk; [|done].
  rewrite Hg by done. rewrite (rowOf_in q e st). by rewrite (row_in_unique q e (links st) l) by (done || by apply si_key).
Qed.

Lemma observe_stamp now p ext o expected q e st :
  store_inv st → after now st → ¬ renews q e (EObserve now p ext o expected) st →
  stamp q e (applyObservation now p ext o expected st).1 = stamp q e st.
Proof.
  intros Hst Hafter. simpl. unfold applyObservation. destruct (rowOf p ext st) as [l|] eqn:E; [|done].
  destruct (store_inv_row _ _ _ _ Hst E) as (Hin & Hk & _). cbv zeta.
  assert (∀ f, (∀ m, linkKey (f m) = linkKey m) → l_generation (f l) = l_generation l →
    stamp q e (updateRow l f st) = stamp q e st
    ∧ ∀ t reason version, t ≠ ev_locally_unlinked →
        stamp q e (writeAudit now p ext (Some (l_generation l)) t reason version (updateRow l f st)) = stamp q e st) as Hupd.
  { intros f Hf Hg. assert (stamp q e (updateRow l f st) = stamp q e st) as Hs by by apply stamp_updateRow.
    split; [done|]. intros t reason version Ht. by rewrite stamp_audit. }
  assert (∀ reason version,
    ¬ ((p, ext) = (q, e) ∧ t_outcome (revoke now l reason version st).2 = t_revoked
       ∧ t_changed (revoke now l reason version st).2 = None) →
    stamp q e (revoke now l reason version st).1 = stamp q e st) as Hrev.
  { intros reason version Hno. unfold revoke. simpl. rewrite stamp_audit by done.
    change (stamp q e (updateRow l (revokedRow now (l_generation l + 1) reason version) st) = stamp q e st).
    apply stamp_updateRow; [done..|]. intros Hkq%link_keyed_spec. destruct Hno. split; [congruence|done]. }
  destruct (match expected with Some _ => _ | None => _ end); [intros _; by apply stamp_audit|].
  case_bool_decide; [done|]. destruct o as [user version|reason version|reason].
  - destruct (negb (user =? l_user l)); [apply Hrev|]. case_bool_decide; [intros _; by apply stamp_audit|].
    destruct (Hupd (verifiedRow now version)) as [Hs1 Hs2]; [done..|].
    intros _. case_bool_decide; simpl; [by apply Hs2|done].
  - case_bool_decide; [done|apply Hrev].
  - case_bool_decide; [done|]. destruct (Hupd (unknownRow now)) as [Hs1 Hs2]; [done..|].
    intros _. destruct (negb _); simpl; [by apply Hs2|done].
Qed.

Lemma prompts_stamp st q f p ext :
  (∀ l, linkKey (f l) = linkKey l ∧ l_generation (f l) = l_generation l) →
  stamp p ext (setLinks (tbl_update q f (links st)) st) = stamp p ext st.
Proof.
  intros Hf. unfold stamp. rewrite !rowOf_in. simpl. rewrite row_in_update by (intros; apply Hf).
  destruct (row_in p ext (links st)) as [l|]; [|done]. simpl. destruct (Hf l) as [_ Hg].
  destruct (q l); [by rewrite Hg|done].
Qed.

(** *** One transaction *)

Lemma not_live p ext st st' :
  declines p ext st st' → (∀ u, owned p ext st ≠ Some (u, false)) → ∀ u, owned p ext st' ≠ Some (u, false).
Proof. intros [->|[->|[v ->]]] Hn u; [by apply Hn|done|congruence]. Qed.

Lemma unlinkTx_stamp now p ext expected q e g st :
  store_inv st → after now st → 1 <= g → (∀ u, owned q e st ≠ Some (u, false)) → stamp q e st <= 2 * g + 1 →
  stamp q e (unlinkTx now p ext expected st).1 <= 2 * g + 1.
Proof.
  intros Hst Hafter Hg Hlive Hs. destruct (decide ((q, e) = (p, ext))) as [[= -> ->]|Hne].
  - pose proof (unlinkTx_ends now p ext expected st) as Hend. unfold unlinkTx in *. cbv zeta in *.
    destruct (mismatch _ _); [done|]. unfold owned in Hlive. destruct (rowOf p ext st) as [l|] eqn:E; simpl in *.
    + destruct (isTerminal (l_state l)); [done|]. by destruct (Hlive (l_user l)).
    + destruct (Hend _ Hst Hafter eq_refl) as [Hp Hm]. unfold stamp in *. rewrite E in Hs.
      change (rowOf p ext (deleteVerifyIntent _ _ _)) with (rowOf p ext st) in *. rewrite E in Hm |- *.
      destruct Hm as (_ & -> & _). simpl in *. unfold currentLocalUnlinkGeneration in *.
      destruct (tombstoneGeneration p ext st); lia.
  - unfold stamp in *. destruct (unlinkTx_other now p ext expected q e st Hafter Hne) as [-> ->]. done.
Qed.

Lemma fades_stamp p ext st st' g : fades p ext st st' → stamp p ext st <= 2 * g + 1 → stamp p ext st' <= 2 * g + 1.
Proof.
  unfold stamp. intros [Hr Ht|l Hr Hr' Ht].
  - rewrite Hr. destruct (rowOf p ext st); [done|]. by rewrite Ht.
  - rewrite Hr, Hr', Ht. lia.
Qed.

Lemma fence_step p ext g e st :
  store_inv st → 1 <= g → ordered e st → undisturbed p ext e st → ¬ renews p ext e st →
  isPrivacyCleanupGenerationCurrent p ext g st = true → isPrivacyCleanupGenerationCurrent p ext g (exec e st) = true.
Proof.
  intros Hst Hg Ho Hu Hr. pose proof (link_exec_inv e st Hst Ho) as Hst'.
  rewrite !fence_stamp by done. intros [Hlive Hs].
  destruct e as [now q u x o|now q x o expected|now q x expected|now q x durable expected|now q x|q x|now q x|c]; simpl in *.
  - destruct (upsertLink_cases now q u x o st Hst) as [| |st' l prev Hnc Hso Hup]; [done..|].
    assert (rowOf p ext st' = rowOf p ext st) as Hrow by (eapply upserted_other; eauto; congruence).
    unfold owned, stamp in *. by rewrite Hrow, (tombstone_audits p ext st st') by apply Hup.
  - split; [by apply (not_live _ _ st); [apply applyObservation_declines|]|].
    by rewrite observe_stamp.
  - split; [by apply (not_live _ _ st); [apply unlinkTx_declines|]|]. by apply unlinkTx_stamp.
  - split; [by apply (not_live _ _ st); [apply deleteTx_declines|]|].
    apply (fades_stamp p ext st); [by apply deleteTx_ok|done].
  - split; [|by etransitivity; [apply Z.eq_le_incl, prompts_stamp|]]. apply (not_live _ _ st); [|done]. eapply prompts_declines; [|reflexivity]; done.
  - split; [|by etransitivity; [apply Z.eq_le_incl, prompts_stamp|]]. apply (not_live _ _ st); [|done]. eapply prompts_declines; [|reflexivity]; done.
  - split; [|by etransitivity; [apply Z.eq_le_incl, prompts_stamp|]]. apply (not_live _ _ st); [|done]. eapply prompts_declines; [|reflexivity]; done.
  - split; [done|]. unfold stamp in *. by rewrite Hu.
Qed.

(** *** From an erasure on *)

Definition erase (o : Operation) (now : Z) (p ext : string) (expected : option ExpectedMapping) (st : Store)
  : Store * option PrivacyOutcome :=
  match o with
  | op_unlink => unlinkTx now p ext expected st
  | op_delete => deleteTx now p ext true expected st
  end.

Fixpoint quiet (p ext : string) (es : list Event) (st : Store) : Prop :=
  match es with
  | [] => True
  | e :: es' => ordered e st ∧ undisturbed p ext e st ∧ ¬ renews p ext e st ∧ quiet p ext es' (exec e st)
  end.

Lemma erase_opens o now p ext expected st out :
  store_inv st → after now st → (erase o now p ext expected st).2 = Some out →
  let st' := (erase o now p ext expected st).1 in
  store_inv st' ∧ 1 <= p_generation out ∧ isPrivacyCleanupGenerationCurrent p ext (p_generation out) st' = true.
Proof.
  intros Hst Hafter Hout. cbv zeta.
  assert (store_inv (erase o now p ext expected st).1) as Hst'.
  { destruct o; [by apply (unlinkTx_ok now p ext expected p ext)|by apply (deleteTx_ok now p ext true expected p ext)]. }
  split; [done|]. unfold isPrivacyCleanupGenerationCurrent. destruct o; simpl in *.
  - destruct (unlinkTx_ends now p ext expected st out Hst Hafter Hout) as [Hg Hm]. split; [done|].
    destruct (rowOf p ext _) as [l|].
    + destruct Hm as [-> ->]. by apply Z.leb_le.
    + destruct Hm as (_ & Ht & _). unfold tombstoneGeneration in Ht. destruct (tombstone _ _ _) as [a|]; [|done].
      simpl in Ht |- *. rewrite Ht. by apply Z.leb_le.
  - destruct (deleteTx_ends now p ext expected st out Hst Hafter Hout) as (Hr & Hg & Ht). split; [done|]. rewrite Hr.
    pose proof (fence_stamp p ext (p_generation out) (deleteTx now p ext true expected st).1 Hst' Hg) as Hf.
    unfold isPrivacyCleanupGenerationCurrent, owned, stamp in Hf. rewrite Hr in Hf. apply Hf. split; [done|].
    destruct (tombstoneGeneration p ext _) as [t|]; [rewrite (Ht t); [lia|done]|lia].
Qed.

(** C15. The jobs of an erasure may run as long as the account is not linked
    again. On a clock that does not go back, from the moment an unlink or an
    erasure commits, through every transaction that neither links the account, nor
    revokes its link anew, nor displaces its row by a link of its learner to
    another account, nor purges its tombstone, the fence of its cleanup jobs stays
    open; and in any state an open fence means that the account has no live owner. *)
Theorem cleanup_fence_stays_open o now p ext expected out es st :
  reachable st → after now st → (erase o now p ext expected st).2 = Some out →
  quiet p ext es (erase o now p ext expected st).1 →
  let st' := run es (erase o now p ext expected st).1 in
  isPrivacyCleanupGenerationCurrent p ext (p_generation out) st' = true
  ∧ (∀ g s u, owned p ext s = Some (u, false) → isPrivacyCleanupGenerationCurrent p ext g s = false).
Proof.
  intros Hreach Hafter Hout Hq. cbv zeta. split.
  - destruct (erase_opens o now p ext expected st out (reachable_inv _ Hreach) Hafter Hout) as (Hst & Hg & Hf).
    revert Hst Hf Hq. generalize (erase o now p ext expected st).1. clear Hout Hafter Hreach st.
    induction es as [|e es IH]; intros st Hst Hf; simpl; [done|]. intros (Ho & Hu & Hr & Hq).
    apply IH; [by apply link_exec_inv|by apply fence_step|done].
  - intros g s u Hown. destruct (isPrivacyCleanupGenerationCurrent p ext g s) eqn:E; [|done].
    by destruct (fence_unowned p ext g s u E).
Qed.

(** ** No job is lost *)

Definition timely (j : Job) : Prop :=
  match j_status j with
  | pending => j_nextRetryAt j <= j_updatedAt j + PRIVACY_CLEANUP_MAX_BACKOFF_MS
  | processing => j_nextRetryAt j <= j_updatedAt j + PRIVACY_CLEANUP_MAX_BACKOFF_MS
                  ∧ ∃ e, j_leaseExpiresAt j = Some e ∧ e <= j_updatedAt j + PRIVACY_CLEANUP_WORKER_LEASE_MS
  | _ => True
  end.

Record scheduled (db : Db) : Prop := {
  sc_id : unique_on j_id (d_jobs db);
  sc_next : ∀ j, j ∈ d_jobs db → j_id j < d_next db;
  sc_timely : ∀ j, j ∈ d_jobs db → timely j
}.

Lemma retryAt_bounds now attempts u : now <= retryAt now attempts u <= now + PRIVACY_CLEANUP_MAX_BACKOFF_MS.
Proof.
  unfold retryAt, RDispatch.jitteredDelayMs. set (b := backoff (attempts + 1)).
  assert (0 <= b <= PRIVACY_CLEANUP_MAX_BACKOFF_MS) as Hb.
  { unfold b, backoff, PRIVACY_CLEANUP_MAX_BACKOFF_MS. pose proof (Z.pow_nonneg 2 (Z.min (attempts + 1 - 1) 8)). lia. }
  pose proof (Z.mod_pos_bound u (2 ^ 53) ltac:(lia)) as Hu. set (v := u mod 2 ^ 53) in *.
  assert (0 <= b * (2 ^ 53 + v) / 2 ^ 54 <= b); [|lia]. split.
  - apply Z.div_pos; [nia|lia].
  - apply Z.div_le_upper_bound; [lia|]. nia.
Qed.

Lemma scheduled_update db q f :
  (∀ j, j_id (f j) = j_id j) → (∀ j, j ∈ d_jobs db → q j = true → timely j → timely (f j)) →
  scheduled db → scheduled (setJobs (tbl_update q f (d_jobs db)) db).
Proof.
  intros Hid Hf [H1 H2 H3]. split; simpl.
  - by apply unique_on_update.
  - intros j (j0 & Hj0 & ->)%elem_of_tbl_update. destruct (q j0); [rewrite Hid|]; auto.
  - intros j (j0 & Hj0 & ->)%elem_of_tbl_update. destruct (q j0) eqn:E; auto.
Qed.

Lemma scheduled_enqueue now i stores db db' refs :
  enqueue now i stores db = (db', refs) → scheduled db → scheduled db'.
Proof.
  revert db db' refs. induction stores as [|s stores IH]; intros db db' refs; simpl; [by intros [= <- <-]|].
  unfold tbl_insert_nothing. destruct (tbl_exists _ _); simpl; destruct (enqueue now i stores _) as [db2 refs2] eqn:E;
    intros [= <- <-] [H1 H2 H3]; (eapply IH; [exact E|]); split; simpl; try done.
  - apply unique_on_snoc; [|done]. intros j Hj Heq. specialize (H2 j Hj). rewrite Heq in H2. simpl in H2. lia.
  - intros j [Hj| ->%list_elem_of_singleton]%elem_of_app; [specialize (H2 j Hj); lia|simpl; lia].
  - intros j [Hj| ->%list_elem_of_singleton]%elem_of_app; [by apply H3|]. unfold timely. simpl.
    unfold PRIVACY_CLEANUP_MAX_BACKOFF_MS. lia.
Qed.

Section Claim.
Context (now : Z) (token : Z → string) (p : string) (db : Db).
Let js := tbl_update (expired p now) (released now) (d_jobs db).
Let order := sortBy dueOrder (tbl_select (due p now) js).

Lemma released_scheduled : scheduled db → scheduled (setJobs js db).
Proof.
  apply scheduled_update; [done|]. intros j _ _ _. unfold timely. simpl. unfold PRIVACY_CLEANUP_MAX_BACKOFF_MS. lia.
Qed.

(** The picked rows are due. *)
Lemma picked_due limit j : scheduled db → j ∈ js → j_id j ∈ (j_id <$> take limit order) → due p now j = true.
Proof.
  intros Hdb Hj Hid. destruct (released_scheduled Hdb) as [H1 _ _]. apply list_elem_of_fmap in Hid as (j' & Hid & Hj').
  apply subseteq_take, elem_of_sortBy, elem_of_tbl_select in Hj' as [Hdue Hj'].
  by rewrite (unique_on_eq j_id js j j').
Qed.

Lemma claimDue_scheduled limit : scheduled db → scheduled (claimDue now token p limit PRIVACY_CLEANUP_WORKER_LEASE_MS db).1.
Proof.
  intros Hdb. unfold claimDue. cbv zeta.
  apply (scheduled_update (setJobs js db)); [done| |by apply released_scheduled].
  intros j Hj Hp _. apply bool_decide_eq_true, picked_due in Hp; [|done..].
  unfold due in Hp. rewrite !andb_true_iff, Z.leb_le in Hp. unfold timely. simpl.
  unfold PRIVACY_CLEANUP_MAX_BACKOFF_MS. split; [lia|]. eexists. split; [done|]. lia.
Qed.

(** A job whose time has come is handed out, when the batch has room. *)
Lemma claimDue_hands_out j :
  j ∈ d_jobs db → j_platform j = p → isLive (j_status j) = true → timely j →
  j_updatedAt j + PRIVACY_CLEANUP_MAX_BACKOFF_MS <= now →
  (length (tbl_select (due p now) js) <= Z.to_nat PRIVACY_CLEANUP_WORKER_BATCH_SIZE)%nat →
  ∃ j', j' ∈ (claimDue now token p PRIVACY_CLEANUP_WORKER_BATCH_SIZE PRIVACY_CLEANUP_WORKER_LEASE_MS db).2
        ∧ j_key j' = j_key j ∧ j_status j' = processing ∧ j_leaseExpiresAt j' = Some (now + PRIVACY_CLEANUP_WORKER_LEASE_MS).
Proof.
  intros Hj Hp Hlive Ht Hnow Hroom. set (j1 := if expired p now j then released now j else j).
  assert (j1 ∈ js) as Hj1 by (apply elem_of_tbl_update; by exists j).
  assert (j_key j1 = j_key j) as Hk by (unfold j1; by destruct (expired p now j)).
  assert (due p now j1 = true) as Hdue.
  { assert (j_platform j1 = p) as Hp1 by (unfold j1; by destruct (expired p now j)).
    assert (j_status j1 = pending ∧ j_nextRetryAt j1 <= now) as [Hs1 Hn1].
    { unfold j1, expired, isLive, timely in *. rewrite bool_decide_true by done.
      unfold PRIVACY_CLEANUP_MAX_BACKOFF_MS, PRIVACY_CLEANUP_WORKER_LEASE_MS in *.
      destruct (j_status j) eqn:Es; [|destruct Ht as [Hn (e & -> & He)]|done..].
      - rewrite bool_decide_false by done. simpl. split; [done|lia].
      - rewrite bool_decide_true by done. simpl. rewrite (proj2 (Z.leb_le e now)) by lia. simpl. split; [done|lia]. }
    unfold due. rewrite !bool_decide_true by done. simpl. by apply Z.leb_le. }
  exists (claimed now PRIVACY_CLEANUP_WORKER_LEASE_MS token j1). split_and!; [|done..].
  unfold claimDue. cbv zeta. simpl snd. apply list_elem_of_fmap_2, elem_of_tbl_select. split; [|exact Hj1].
  apply bool_decide_eq_true, list_elem_of_fmap_2. rewrite take_ge; [apply elem_of_sortBy, elem_of_tbl_select; by split|].
  rewrite sortBy_perm. fold js. rewrite Z.min_id, Z.max_r by (unfold PRIVACY_CLEANUP_WORKER_BATCH_SIZE; lia). exact Hroom.
Qed.
End Claim.

Lemma scheduled_store st db : scheduled db → scheduled (mkDb st (d_jobs db) (d_next db)).
Proof. by intros [? ? ?]. Qed.

Lemma settle_scheduled db q f :
  (∀ j, j_id (f j) = j_id j) → (∀ j, timely (f j)) → scheduled db → scheduled (setJobs (tbl_update q f (d_jobs db)) db).
Proof. intros Hid Hf. by apply scheduled_update. Qed.

Lemma answer_scheduled now u token r q db :
  scheduled db → scheduled (answer now u token r q db).1.1.
Proof.
  intros Hdb.
  assert (∀ A (op : Db → Db * A), scheduled (op db).1 → scheduled (stmt op r db).1) as Hstmt.
  { intros A op Hop. destruct r as [|[] e]; done. }
  destruct q as [p ext k|o p ext stores expected k|id p k|key p ext g k|c k|key lease k|key lease k|key attempts e lease k
                |p k|k|p k|ts k|a]; simpl; try done.
  - specialize (Hstmt _ (λ db, (db, rowOf p ext (d_store db))) Hdb). by destruct (stmt _ r db).
  - assert (scheduled (privacyTx now o p ext stores expected db).1) as Hop.
    { unfold privacyTx. cbv zeta. destruct (match o with op_unlink => _ | op_delete => _ end) as [st [out|]]; [|done].
      destruct (enqueue now _ _ _) as [db' refs] eqn:E. simpl. eapply scheduled_enqueue; [exact E|by apply scheduled_store]. }
    specialize (Hstmt _ (privacyTx now o p ext stores expected) Hop). by destruct (stmt _ r db).
  - specialize (Hstmt _ (λ db, (db, getByCleanupId id p db)) Hdb). by destruct (stmt _ r db).
  - specialize (Hstmt _ (λ db, (db, isPrivacyCleanupGenerationCurrent p ext g (d_store db))) Hdb). by destruct (stmt _ r db).
  - specialize (Hstmt _ (write (markCompleted now key lease)) ltac:(by apply settle_scheduled)). by destruct (stmt _ r db).
  - specialize (Hstmt _ (write (markStale now key lease)) ltac:(by apply settle_scheduled)). by destruct (stmt _ r db).
  - assert (scheduled (markFailure now u key attempts e lease db)) as Hop.
    { apply settle_scheduled; [done| |done]. intros j. unfold timely. simpl. apply retryAt_bounds. }
    specialize (Hstmt _ (write (markFailure now u key attempts e lease)) Hop). by destruct (stmt _ r db).
  - specialize (Hstmt _ _ (claimDue_scheduled now token p db PRIVACY_CLEANUP_WORKER_BATCH_SIZE Hdb)). by destruct (stmt _ r db).
  - assert (scheduled (pruneRetention now db)) as Hop.
    { destruct Hdb as [H1 H2 H3]. split; simpl; [by apply unique_on_filter|..]; intros j [_ Hj]%elem_of_tbl_delete; auto. }
    specialize (Hstmt _ (write (pruneRetention now)) Hop). by destruct (stmt _ r db).
  - specialize (Hstmt _ (λ db, (db, tt)) Hdb). by destruct (stmt _ r db).
Qed.

Lemma scheduled_exec e w : scheduled (w_db w) → scheduled (w_db (execW e w)).
Proof.
  intros Hw.
  assert (∀ n f, (∀ q, scheduled (w_db (f q w))) → scheduled (w_db (onWorker n f w))) as Hon.
  { intros n f Hf. unfold onWorker. destruct (w_workers w !! n) as [[q|]|]; auto. }
  destruct e as [c p ext ex|c p ext ex|ad p|n now u tok r|n r|n|n|n|e]; simpl; try done.
  - apply Hon. intros q. unfold execDb. pose proof (answer_scheduled now u tok r q (w_db w) Hw) as Ha.
    by destruct (answer now u tok r q (w_db w)) as [[db log] q'].
  - apply Hon. intros []; done.
  - apply Hon. intros []; done.
  - unfold execJoin. destruct (w_workers w !! n) as [[]|]; [done| |done]. by destruct (forallb _ _).
  - by case_bool_decide.
  - by apply scheduled_store.
Qed.

Lemma scheduled_run es w : scheduled (w_db w) → scheduled (w_db (runW es w)).
Proof. revert w. induction es as [|e es IH]; intros w Hw; simpl; [done|]. by apply IH, scheduled_exec. Qed.

(** No cleanup is lost.  Whatever requests, workers, failures and crashes did, a job
    that is neither completed nor superseded is handed out by the next claim at any
    time from fifteen minutes after its last change on, when the batch has room for
    the platform's due jobs. *)
Theorem cleanup_job_comes_back es j now token :
  let db := w_db (runW es Cleanup.init) in
  j ∈ d_jobs db → isLive (j_status j) = true → j_updatedAt j + PRIVACY_CLEANUP_MAX_BACKOFF_MS <= now →
  (length (tbl_select (due (j_platform j) now) (tbl_update (expired (j_platform j) now) (released now) (d_jobs db)))
   <= Z.to_nat PRIVACY_CLEANUP_WORKER_BATCH_SIZE)%nat →
  ∃ j', j' ∈ (claimDue now token (j_platform j) PRIVACY_CLEANUP_WORKER_BATCH_SIZE PRIVACY_CLEANUP_WORKER_LEASE_MS db).2
        ∧ j_key j' = j_key j ∧ j_status j' = processing ∧ j_leaseExpiresAt j' = Some (now + PRIVACY_CLEANUP_WORKER_LEASE_MS).
Proof.
  cbv zeta. intros Hj Hlive Hnow Hroom.
  assert (scheduled (w_db (runW es Cleanup.init))) as Hs.
  { apply scheduled_run. split; simpl; [apply NoDup_nil_2|by intros ? ?%not_elem_of_nil..]. }
  apply claimDue_hands_out; try done. by apply (sc_timely _ Hs).
Qed.

End Proofs.

(** ** Concrete histories *)

#[local] Existing Instance plainRuntime.

Definition clearsHistory : Configuration := mkConfig [chat_history] (λ _, true).

Definition ok (n : nat) (now : Z) : WEvent := WDb n now 0 (λ _, "lease") db_ok.

(** A request of worker [n] and its task, worker [n + 1], undisturbed. *)
Definition unlinkNow (n : nat) (now : Z) (ext : string) : list WEvent :=
  [WUnlink clearsHistory "discord" ext None; ok n now; ok n now; ok n now; WFork n].

Definition clearNow (n : nat) (now : Z) : list WEvent := [ok n now; WAct n (inl tt); ok n now].

Definition finishNow (n : nat) (now : Z) : list WEvent := [WJoin n; ok n now].

Definition unlinkedOnce : list WEvent := unlinkNow 0 5 "a" ++ clearNow 1 5 ++ finishNow 0 5.


Definition linkedThenUnlinked : Store := run linkOnce Links.init.

Lemma cleanup_fence_stays_open_witness :
  reachable linkedThenUnlinked ∧ after 2 linkedThenUnlinked
  ∧ (erase op_unlink 2 "discord" "a" None linkedThenUnlinked).2 = Some (mkOutcome true (Some 1) 2)
  ∧ quiet "discord" "a" checkOnce (erase op_unlink 2 "discord" "a" None linkedThenUnlinked).1
  ∧ isPrivacyCleanupGenerationCurrent "discord" "a" 2
      (run checkOnce (erase op_unlink 2 "discord" "a" None linkedThenUnlinked).1) = true.
Proof.
  assert (after 2 linkedThenUnlinked) as Hafter by (by intros ? ?%not_elem_of_nil).
  assert ((erase op_unlink 2 "discord" "a" None linkedThenUnlinked).2 = Some (mkOutcome true (Some 1) 2)) as Hout by reflexivity.
  assert (quiet "discord" "a" checkOnce (erase op_unlink 2 "discord" "a" None linkedThenUnlinked).1) as Hq.
  { split; [|split; [done|split; [by intros (_ & Ho & _)|done]]].
    intros a Ha. apply list_elem_of_singleton in Ha as ->. simpl. lia. }
  split_and!; [exact linkOnce_reachable|exact Hafter|exact Hout|exact Hq|].
  exact (proj1 (cleanup_fence_stays_open op_unlink 2 "discord" "a" None (mkOutcome true (Some 1) 2) checkOnce
                  linkedThenUnlinked linkOnce_reachable Hafter Hout Hq)).
Defined.

(** A request whose process died before it cleared anything. *)
Definition interruptedUnlink : list WEvent := unlinkNow 0 5 "a" ++ [WCrash 0; WCrash 1].

Lemma cleanup_job_comes_back_witness :
  ∃ j, d_jobs (w_db (runW interruptedUnlink Cleanup.init)) = [j]
       ∧ ∃ j', j' ∈ (claimDue 900005 (λ _, "lease") (j_platform j) PRIVACY_CLEANUP_WORKER_BATCH_SIZE
                       PRIVACY_CLEANUP_WORKER_LEASE_MS (w_db (runW interruptedUnlink Cleanup.init))).2
               ∧ j_key j' = j_key j ∧ j_status j' = processing ∧ j_leaseExpiresAt j' = Some 960005.
Proof.
  exists (newJob 1 5 (mkInput op_unlink "discord" "a" None 1) chat_history).
  assert (d_jobs (w_db (runW interruptedUnlink Cleanup.init))
          = [newJob 1 5 (mkInput op_unlink "discord" "a" None 1) chat_history]) as Hjobs by (vm_compute; reflexivity).
  split; [exact Hjobs|]. apply (cleanup_job_comes_back interruptedUnlink _ 900005 (λ _, "lease")).
  - rewrite Hjobs. left.
  - reflexivity.
  - vm_compute. discriminate.
  - vm_compute. lia.
Defined.

(** ** Where the cleanup has gaps *)

(** The account was never linked, so every unlink has generation 1 and the same jobs.
    The second request finds them completed, clears nothing, and answers complete,
    although the history may have grown since the first. *)
Definition unlinkedTwice : list WEvent :=
  unlinkedOnce ++ unlinkNow 2 3600000 "a" ++ finishNow 2 3600000.

Theorem repeated_unlink_clears_nothing :
  let w := runW unlinkedTwice Cleanup.init in
  (∃ refs, w_workers w !! 2%nat = Some (running (Done (outcome false None refs []))) ∧ refs ≠ [])
  ∧ length (tbl_select (λ e, match e with called _ => true | _ => false end) (w_log w)) = 1%nat.
Proof. vm_compute. split; [eexists; split; [reflexivity|done]|done]. Qed.

(** A status check that sees another learner on a link that is revoked already revokes
    it again: the generation grows with every poll, and the fence of the cleanup jobs
    of an unlink that came in between closes although nobody linked the account. *)
Definition revokedThenUnlinked : Store := run revokedOnce Links.init.

Theorem repeated_revocation_closes_fence :
  let '(st, out) := erase op_unlink 3 "discord" "a" None revokedThenUnlinked in
  let poll := EObserve 4 "discord" "a" (seen_active 9 None) None in
  let st1 := exec poll st in
  let st2 := exec poll st1 in
  (p_generation <$> out) = Some 2
  ∧ isPrivacyCleanupGenerationCurrent "discord" "a" 2 st = true
  ∧ isPrivacyCleanupGenerationCurrent "discord" "a" 2 st1 = false
  ∧ owned "discord" "a" st1 = Some (1, true)
  ∧ (l_generation <$> rowOf "discord" "a" st2) = Some 4
  ∧ length (audits st2) = (length (audits st) + 2)%nat.
Proof. vm_compute. done. Qed.

End CleanupFence.
