(* ===== verification/Json.v ===== *)
(** * JSON

    The agent exchanges JSON text with the model and with its own earlier steps,
    so the exact characters matter: they are counted against the context budget
    and compared to find repeated calls.  This file has the values, the text
    [JSON.stringify] writes for a value ([stringify]) and the value [JSON.parse]
    reads from a text ([parse]), after ECMAScript 2024, 25.5 and 6.1.6.1.20, and
    shows that reading undoes writing.

    A finite number is its shortest decimal representation, an integer [m] not
    divisible by ten times a power of ten; this is what Number::toString
    determines from a double.  [parse] does not round literals with more than 17
    digits to a double, and -0 is 0.

    A property list is in the order of the language: array indices ascending,
    then the others as created. *)

From S2P Require Import Prelude.

Module Json.

#[local] Unset Elimination Schemes.
Inductive json :=
| JNull
| JBool (b : bool)
| JNum (m e : Z)
| JStr (s : jsstring)
| JArr (l : list json)
| JObj (o : list (jsstring * json)).
#[local] Set Elimination Schemes.

Section Induction.
Variable P : json → Prop.
Hypothesis Hnull : P JNull.
Hypothesis Hbool : ∀ b, P (JBool b).
Hypothesis Hnum : ∀ m e, P (JNum m e).
Hypothesis Hstr : ∀ s, P (JStr s).
Hypothesis Harr : ∀ l, Forall P l → P (JArr l).
Hypothesis Hobj : ∀ o, Forall (λ kv, P kv.2) o → P (JObj o).

Fixpoint json_ind (v : json) : P v :=
  match v with
  | JNull => Hnull
  | JBool b => Hbool b
  | JNum m e => Hnum m e
  | JStr s => Hstr s
  | JArr l => Harr l ((fix go l : Forall P l :=
      match l with
      | [] => List.Forall_nil _
      | x :: l => List.Forall_cons _ _ _ (json_ind x) (go l)
      end) l)
  | JObj o => Hobj o ((fix go o : Forall (λ kv, P kv.2) o :=
      match o with
      | [] => List.Forall_nil _
      | kv :: o => List.Forall_cons _ _ _ (json_ind kv.2) (go o)
      end) o)
  end.
End Induction.

#[export] Instance json_eq_dec : EqDecision json.
Proof.
  refine (fix go (x y : json) : Decision (x = y) :=
    match x, y with
    | JNull, JNull => left _
    | JBool a, JBool b => cast_if (decide (a = b))
    | JNum m e, JNum m' e' => cast_if_and (decide (m = m')) (decide (e = e'))
    | JStr s, JStr s' => cast_if (decide (s = s'))
    | JArr l, JArr l' => cast_if (@list_eq_dec _ go l l')
    | JObj o, JObj o' => cast_if (@list_eq_dec _ (@prod_eq_dec _ _ _ go) o o')
    | _, _ => right _
    end); abstract congruence.
Defined.

(** ** Objects *)

(** An array index: the canonical decimal of an integer below 2^32 - 1. *)
Fixpoint digitsFuel (fuel : nat) (n : Z) : jsstring :=
  match fuel with
  | O => []
  | S f => if n <? 10 then [48 + n] else digitsFuel f (n / 10) ++ [48 + n mod 10]
  end.

Definition natStr (n : Z) : jsstring := digitsFuel (S (Z.to_nat (Z.log2 n))) n.

Definition isDigit (c : Z) : bool := (48 <=? c) && (c <=? 57).

Definition digitsVal (s : jsstring) : Z := foldl (λ v c, 10 * v + (c - 48)) 0 s.

Definition indexOf (k : jsstring) : option Z :=
  if negb (bool_decide (k = [])) && forallb isDigit k && bool_decide (natStr (digitsVal k) = k)
     && (digitsVal k <? 4294967295)
  then Some (digitsVal k) else None.

(** The own keys in enumeration order. *)
Definition ownOrder {A} (o : list (jsstring * A)) : list (jsstring * A) :=
  sortBy (λ a b, default 0 (indexOf a.1) <=? default 0 (indexOf b.1))
         (filter (λ kv, is_Some (indexOf kv.1)) o)
  ++ filter (λ kv, ¬ is_Some (indexOf kv.1)) o.

(** [o[k] = v] on an object without accessors. *)
Definition objSet {A} (k : jsstring) (v : A) (o : list (jsstring * A)) : list (jsstring * A) :=
  ownOrder (jm_set k v o).

(** An object built by assigning the given properties in turn. *)
Definition objOf {A} (l : list (jsstring * A)) : list (jsstring * A) :=
  ownOrder (foldl (λ o kv, jm_set kv.1 kv.2 o) [] l).

(** ** Printing *)

Definition hexDigit (n : Z) : Z := if n <? 10 then 48 + n else 87 + n.

Definition hex4 (c : Z) : jsstring :=
  [hexDigit (c / 4096); hexDigit (c / 256 mod 16); hexDigit (c / 16 mod 16); hexDigit (c mod 16)].

Definition isHigh (c : Z) : bool := (55296 <=? c) && (c <=? 56319).
Definition isLow (c : Z) : bool := (56320 <=? c) && (c <=? 57343).

(** A surrogate without its other half. *)
Definition lone (prev c : Z) (next : jsstring) : bool :=
  isHigh c && negb (match next with d :: _ => isLow d | [] => false end)
  || isLow c && negb (isHigh prev).

Definition shortEscape (c : Z) : option Z :=
  if c =? 8 then Some 98 else if c =? 9 then Some 116 else if c =? 10 then Some 110
  else if c =? 12 then Some 102 else if c =? 13 then Some 114
  else if c =? 34 then Some 34 else if c =? 92 then Some 92 else None.

Definition quoteUnit (prev c : Z) (next : jsstring) : jsstring :=
  match shortEscape c with
  | Some e => [92; e]
  | None => if (c <? 32) || lone prev c next then [92; 117] ++ hex4 c else [c]
  end.

Fixpoint quoteFrom (prev : Z) (s : jsstring) : jsstring :=
  match s with
  | [] => []
  | c :: s' => quoteUnit prev c s' ++ quoteFrom c s'
  end.

(** QuoteJSONString. *)
Definition quote (s : jsstring) : jsstring := 34 :: quoteFrom 0 s ++ [34].

Definition zeros (n : Z) : jsstring := replicate (Z.to_nat n) 48.

(** Number::toString. *)
Definition numStr (m e : Z) : jsstring :=
  if m =? 0 then [48] else
  let d := natStr (Z.abs m) in
  let k := Z.of_nat (length d) in
  let n := k + e in
  (if m <? 0 then [45] else []) ++
  (if (k <=? n) && (n <=? 21) then d ++ zeros (n - k)
   else if (0 <? n) && (n <=? 21) then take (Z.to_nat n) d ++ 46 :: drop (Z.to_nat n) d
   else if (-6 <? n) && (n <=? 0) then 48 :: 46 :: zeros (- n) ++ d
   else take 1 d ++ (if k =? 1 then [] else 46 :: drop 1 d)
        ++ 101 :: (if n - 1 <? 0 then 45 else 43) :: natStr (Z.abs (n - 1))).

Fixpoint commas (l : list jsstring) : jsstring :=
  match l with
  | [] => []
  | [x] => x
  | x :: l' => x ++ 44 :: commas l'
  end.

Fixpoint stringify (v : json) : jsstring :=
  match v with
  | JNull => js "null"
  | JBool b => if b then js "true" else js "false"
  | JNum m e => numStr m e
  | JStr s => quote s
  | JArr l => 91 :: commas (map stringify l) ++ [93]
  | JObj o => 123 :: commas (map (λ kv, quote kv.1 ++ 58 :: stringify kv.2) o) ++ [125]
  end.

(** ** Parsing *)

Definition isWs (c : Z) : bool := (c =? 32) || (c =? 9) || (c =? 10) || (c =? 13).

Fixpoint skipWs (s : jsstring) : jsstring :=
  match s with
  | c :: s' => if isWs c then skipWs s' else s
  | [] => []
  end.

Definition hexVal (c : Z) : option Z :=
  if isDigit c then Some (c - 48)
  else if (97 <=? c) && (c <=? 102) then Some (c - 87)
  else if (65 <=? c) && (c <=? 70) then Some (c - 55) else None.

Definition unhex4 (a b c d : Z) : option Z :=
  match hexVal a, hexVal b, hexVal c, hexVal d with
  | Some a, Some b, Some c, Some d => Some (4096 * a + 256 * b + 16 * c + d)
  | _, _, _, _ => None
  end.

Definition unescape (e : Z) : option Z :=
  if e =? 98 then Some 8 else if e =? 116 then Some 9 else if e =? 110 then Some 10
  else if e =? 102 then Some 12 else if e =? 114 then Some 13
  else if (e =? 34) || (e =? 92) || (e =? 47) then Some e else None.

(** The units after an opening quote, and the text after the closing one. *)
Fixpoint parseStr (s : jsstring) : option (jsstring * jsstring) :=
  match s with
  | [] => None
  | c :: s1 =>
      if c =? 34 then Some ([], s1)
      else if c =? 92 then
        match s1 with
        | [] => None
        | e :: s2 =>
            if e =? 117 then
              match s2 with
              | a :: b :: c :: d :: s3 =>
                  match unhex4 a b c d, parseStr s3 with
                  | Some u, Some (r, rest) => Some (u :: r, rest)
                  | _, _ => None
                  end
              | _ => None
              end
            else
              match unescape e, parseStr s2 with
              | Some u, Some (r, rest) => Some (u :: r, rest)
              | _, _ => None
              end
        end
      else if c <? 32 then None
      else match parseStr s1 with Some (r, rest) => Some (c :: r, rest) | None => None end
  end.

Fixpoint spanDigits (s : jsstring) : jsstring * jsstring :=
  match s with
  | c :: s' => if isDigit c then let '(d, r) := spanDigits s' in (c :: d, r) else ([], s)
  | [] => ([], [])
  end.

(** Shortest representation: no factor of ten is left in [m]. *)
Fixpoint normFuel (fuel : nat) (m e : Z) : Z * Z :=
  match fuel with
  | O => (m, e)
  | S f => if m mod 10 =? 0 then normFuel f (m / 10) (e + 1) else (m, e)
  end.

Definition norm (m e : Z) : Z * Z :=
  if m =? 0 then (0, 0) else normFuel (S (Z.to_nat (Z.log2 (Z.abs m)))) m e.

(** The text after a given unit or a given word. *)
Definition eat (c : Z) (s : jsstring) : option jsstring :=
  match s with d :: s' => if d =? c then Some s' else None | [] => None end.

Fixpoint eatWord (w s : jsstring) : option jsstring :=
  match w with [] => Some s | c :: w' => eat c s ≫= eatWord w' end.

Definition parseFrac (s : jsstring) : option (jsstring * jsstring) :=
  match eat 46 s with
  | Some s' => match spanDigits s' with ([], _) => None | r => Some r end
  | None => Some ([], s)
  end.

Definition eatSign (s : jsstring) : Z * jsstring :=
  match eat 45 s with
  | Some r => (-1, r)
  | None => (1, default s (eat 43 s))
  end.

Definition parseExp (s : jsstring) : option (Z * jsstring) :=
  match (match eat 101 s with Some r => Some r | None => eat 69 s end) with
  | Some s' =>
      let '(sign, s2) := eatSign s' in
      match spanDigits s2 with ([], _) => None | (d, r) => Some (sign * digitsVal d, r) end
  | None => Some (0, s)
  end.

Definition parseNum (s : jsstring) : option (Z * Z * jsstring) :=
  let '(sign, s1) := match eat 45 s with Some r => (-1, r) | None => (1, s) end in
  match spanDigits s1 with
  | ([], _) => None
  | (d, s2) =>
      if (1 <? Z.of_nat (length d)) && (default 0 (head d) =? 48) then None else
      match parseFrac s2 with
      | None => None
      | Some (f, s3) =>
          match parseExp s3 with
          | None => None
          | Some (x, s4) =>
              let '(m, e) := norm (sign * digitsVal (d ++ f)) (x - Z.of_nat (length f)) in
              Some (m, e, s4)
          end
      end
  end.

(** A value without brackets. *)
Definition parseScalar (s : jsstring) : option (json * jsstring) :=
  match eat 34 s with
  | Some s' => match parseStr s' with Some (r, rest) => Some (JStr r, rest) | None => None end
  | None =>
  match eatWord (js "null") s with Some rest => Some (JNull, rest) | None =>
  match eatWord (js "true") s with Some rest => Some (JBool true, rest) | None =>
  match eatWord (js "false") s with Some rest => Some (JBool false, rest) | None =>
  match parseNum s with Some (m, e, rest) => Some (JNum m e, rest) | None => None end
  end end end end.

Fixpoint parseVal (fuel : nat) (s : jsstring) {struct fuel} : option (json * jsstring) :=
  match fuel with
  | O => None
  | S f =>
      let t := skipWs s in
      match eat 91 t with
      | Some t1 =>
          match eat 93 (skipWs t1) with
          | Some rest => Some (JArr [], rest)
          | None => match parseElems f t1 with Some (l, rest) => Some (JArr l, rest) | None => None end
          end
      | None =>
      match eat 123 t with
      | Some t1 =>
          match eat 125 (skipWs t1) with
          | Some rest => Some (JObj [], rest)
          | None => match parseMembers f t1 with
                    | Some (l, rest) => Some (JObj (objOf l), rest) | None => None end
          end
      | None => parseScalar t
      end end
  end
with parseElems (fuel : nat) (s : jsstring) {struct fuel} : option (list json * jsstring) :=
  match fuel with
  | O => None
  | S f =>
      match parseVal f s with
      | None => None
      | Some (v, s1) =>
          match eat 44 (skipWs s1) with
          | Some s2 => match parseElems f s2 with Some (l, rest) => Some (v :: l, rest) | None => None end
          | None => match eat 93 (skipWs s1) with Some rest => Some ([v], rest) | None => None end
          end
      end
  end
with parseMembers (fuel : nat) (s : jsstring) {struct fuel} : option (list (jsstring * json) * jsstring) :=
  match fuel with
  | O => None
  | S f =>
      match eat 34 (skipWs s) ≫= parseStr with
      | None => None
      | Some (k, s1) =>
          match eat 58 (skipWs s1) ≫= parseVal f with
          | None => None
          | Some (v, s2) =>
              match eat 44 (skipWs s2) with
              | Some s3 => match parseMembers f s3 with
                           | Some (l, rest) => Some ((k, v) :: l, rest) | None => None end
              | None => match eat 125 (skipWs s2) with Some rest => Some ([(k, v)], rest) | None => None end
              end
          end
      end
  end.

(** [JSON.parse]; [None] is the SyntaxError. *)
Definition parse (s : jsstring) : option json :=
  match parseVal (S (length s)) s with
  | Some (v, rest) => if bool_decide (skipWs rest = []) then Some v else None
  | None => None
  end.

(** ** The values a program can hold *)

Definition isUnit (c : Z) : bool := (0 <=? c) && (c <? 65536).

Fixpoint wf (v : json) : bool :=
  match v with
  | JNull | JBool _ => true
  | JNum m e => (m =? 0) && (e =? 0) || negb (m mod 10 =? 0)
  | JStr s => forallb isUnit s
  | JArr l => forallb wf l
  | JObj o => bool_decide (NoDup o.*1) && bool_decide ((ownOrder o).*1 = o.*1)
              && forallb (λ kv, forallb isUnit kv.1 && wf kv.2) o
  end.

(** A literal with apostrophes for quotes. *)
Definition jq (s : string) : jsstring := (λ c, if c =? 39 then 34 else c) <$> js s.

Example parse_example :
  parse (jq " {'b': [1, -2.50e3, 'x\u0041\n'], '10': 5e-2, 'a' : null,'b': true}")
  = Some (JObj [(js "10", JNum 5 (-2)); (js "b", JBool true); (js "a", JNull)]).
Proof. vm_compute. reflexivity. Qed.

Example stringify_example :
  stringify (JArr [JNum 15 (-1); JNum (-12) 2; JNum 5 (-8); JNum 1 21; JStr [34; 7; 55357; 56832; 55357]])
  = jq "[1.5,-1200,5e-8,1e+21,'\" ++ jq "'\u0007" ++ [55357; 56832] ++ jq "\ud83d']".
Proof. vm_compute. reflexivity. Qed.

(** ** Decimal digits *)

Lemma digitsVal_snoc s c : digitsVal (s ++ [c]) = 10 * digitsVal s + (c - 48).
Proof. unfold digitsVal. by rewrite foldl_app. Qed.

Lemma digitsVal_app s t : digitsVal (s ++ t) = digitsVal s * 10 ^ Z.of_nat (length t) + digitsVal t.
Proof.
  induction t as [|c t IH] using rev_ind; [rewrite app_nil_r; unfold digitsVal; simpl; lia|].
  rewrite app_assoc, !digitsVal_snoc, IH, length_app, Nat2Z.inj_add, Z.pow_add_r by lia. simpl. lia.
Qed.

Lemma digitsVal_zeros n : digitsVal (replicate n 48) = 0.
Proof.
  induction n as [|n IH]; [done|].
  by rewrite replicate_S_end, digitsVal_snoc, IH.
Qed.

Lemma digitsFuel_ok fuel n :
  0 ≤ n < 2 ^ Z.of_nat fuel → (0 < fuel)%nat →
  digitsVal (digitsFuel fuel n) = n ∧ forallb isDigit (digitsFuel fuel n) = true
  ∧ digitsFuel fuel n ≠ [] ∧ (0 < n → head (digitsFuel fuel n) ≠ Some 48).
Proof.
  revert n. induction fuel as [|f IH]; [lia|]. intros n Hn _. simpl.
  destruct (Z.ltb_spec n 10) as [Hlt|Hge].
  - split; [unfold digitsVal; simpl; lia|]. split; [|split; [done|intros ? [= ?]; lia]].
    simpl. unfold isDigit. rewrite !(proj2 (Z.leb_le _ _)) by lia. done.
  - destruct (IH (n / 10)) as (Hv & Hd & Hne & Hh).
    + rewrite Nat2Z.inj_succ, Z.pow_succ_r in Hn by lia.
      split; [apply Z.div_pos; lia|apply Z.div_lt_upper_bound; lia].
    + destruct f; [simpl in Hn; lia|lia].
    + rewrite digitsVal_snoc, Hv, forallb_app, Hd. simpl. unfold isDigit.
      pose proof (Z.mod_pos_bound n 10). pose proof (Z.div_mod n 10).
      rewrite !(proj2 (Z.leb_le _ _)) by lia.
      split; [lia|]. split; [done|]. split; [by destruct (digitsFuel f (n / 10))|].
      intros _. destruct (digitsFuel f (n / 10)) eqn:E; [done|]. simpl. apply Hh. apply Z.div_str_pos. lia.
Qed.

Lemma natStr_ok n :
  0 ≤ n → digitsVal (natStr n) = n ∧ forallb isDigit (natStr n) = true
          ∧ natStr n ≠ [] ∧ (0 < n → head (natStr n) ≠ Some 48).
Proof.
  intros Hn. apply digitsFuel_ok; [|lia]. split; [done|].
  rewrite Nat2Z.inj_succ, Z2Nat.id by apply Z.log2_nonneg.
  destruct (Z.eq_dec n 0) as [->|]; [done|]. apply Z.log2_spec. lia.
Qed.

Lemma natStr_inj a b : 0 ≤ a → 0 ≤ b → natStr a = natStr b → a = b.
Proof. intros Ha Hb E. rewrite <-(proj1 (natStr_ok a Ha)), <-(proj1 (natStr_ok b Hb)). by rewrite E. Qed.

(** ** Numbers *)

Definition notDigit (s : jsstring) : Prop := match s with c :: _ => isDigit c = false | [] => True end.

Lemma spanDigits_app d r : forallb isDigit d = true → notDigit r → spanDigits (d ++ r) = (d, r).
Proof.
  induction d as [|c d IH]; simpl; intros Hd Hr.
  - destruct r as [|c r]; [done|]. simpl in *. by rewrite Hr.
  - apply andb_true_iff in Hd as [-> Hd]. by rewrite IH.
Qed.

(** What may follow a value. *)
Definition stop (s : jsstring) : bool :=
  match s with c :: _ => (c =? 44) || (c =? 93) || (c =? 125) | [] => true end.

Lemma stop_notDigit s : stop s = true → notDigit s.
Proof. destruct s as [|c s]; [done|]. simpl. unfold isDigit. intros H. apply andb_false_iff. lia. Qed.

Lemma stop_eat c s : stop s = true → c ≠ 44 → c ≠ 93 → c ≠ 125 → eat c s = None.
Proof. destruct s as [|d s]; [done|]. simpl. intros. destruct (Z.eqb_spec d c); [lia|done]. Qed.

Lemma eat_digit c d r : c < 48 ∨ 57 < c → d ≠ [] → forallb isDigit d = true → eat c (d ++ r) = None.
Proof.
  destruct d as [|x d]; [done|]. simpl. intros Hc _ [Hx _]%andb_true_iff. unfold isDigit in Hx.
  destruct (Z.eqb_spec x c); [lia|done].
Qed.

(** The parts of a numeric literal. *)
Definition fracPart (fr fd : jsstring) : Prop :=
  (fr = [] ∧ fd = []) ∨ (fr = 46 :: fd ∧ fd ≠ [] ∧ forallb isDigit fd = true).

Definition expPart (ex : jsstring) (x : Z) : Prop :=
  (ex = [] ∧ x = 0)
  ∨ ∃ d, d ≠ [] ∧ forallb isDigit d = true
         ∧ ((ex = 101 :: 45 :: d ∧ x = - digitsVal d) ∨ (ex = 101 :: 43 :: d ∧ x = digitsVal d)).

Lemma parseExp_ok ex x rest : expPart ex x → stop rest = true → parseExp (ex ++ rest) = Some (x, rest).
Proof.
  intros [[-> ->]|(d & Hne & Hd & Hx)] Hs; unfold parseExp.
  - simpl. by rewrite !stop_eat by (done || lia).
  - assert (∀ sg, (let '(d, r) := spanDigits (d ++ rest) in
                   match d with [] => None | _ => Some (sg * digitsVal d, r) end)
                  = Some (sg * digitsVal d, rest)) as Hspan.
    { intros sg. rewrite spanDigits_app by auto using stop_notDigit. by destruct d. }
    destruct Hx as [[-> ->]|[-> ->]]; simpl; unfold eatSign; simpl;
      rewrite spanDigits_app by auto using stop_notDigit; destruct d; [done| |done|]; do 2 f_equal; lia.
Qed.

Lemma expPart_notDigit ex x rest : expPart ex x → stop rest = true → notDigit (ex ++ rest).
Proof. intros [[-> _]|(d & _ & _ & [[-> _]|[-> _]])] Hs; [by apply stop_notDigit|done..]. Qed.

Lemma parseFrac_ok fr fd ex x rest :
  fracPart fr fd → expPart ex x → stop rest = true →
  parseFrac (fr ++ ex ++ rest) = Some (fd, ex ++ rest).
Proof.
  intros [[-> ->]|(-> & Hne & Hd)] He Hs; unfold parseFrac; simpl.
  - assert (eat 46 (ex ++ rest) = None) as ->; [|done].
    destruct He as [[-> _]|(d & _ & _ & [[-> _]|[-> _]])]; [|done..]. apply stop_eat; [done|lia..].
  - rewrite spanDigits_app; [by destruct fd|done|]. by apply (expPart_notDigit ex x).
Qed.

Lemma frac_exp_notDigit fr fd ex x rest :
  fracPart fr fd → expPart ex x → stop rest = true → notDigit (fr ++ ex ++ rest).
Proof. intros [[-> _]|(-> & _)] He Hs; [by apply (expPart_notDigit ex x)|done]. Qed.

Lemma parseNum_ok neg ip fr fd ex x rest :
  ip ≠ [] → forallb isDigit ip = true → (length ip = 1%nat ∨ head ip ≠ Some 48) →
  fracPart fr fd → expPart ex x → stop rest = true →
  parseNum ((if neg : bool then [45] else []) ++ ip ++ fr ++ ex ++ rest)
  = let '(m, e) := norm ((if neg then -1 else 1) * digitsVal (ip ++ fd)) (x - Z.of_nat (length fd)) in
    Some (m, e, rest).
Proof.
  intros Hne Hd Hz Hf He Hs. unfold parseNum.
  assert ((let '(sign, s1) := match eat 45 ((if neg : bool then [45] else []) ++ ip ++ fr ++ ex ++ rest) with
           | Some r => (-1, r) | None => (1, (if neg : bool then [45] else []) ++ ip ++ fr ++ ex ++ rest) end
           in (sign, s1)) = ((if neg then -1 else 1), ip ++ fr ++ ex ++ rest)) as Hsg.
  { destruct neg; [done|]. simpl. by rewrite eat_digit by (done || lia). }
  destruct (match eat 45 _ with Some r => _ | None => _ end) as [sign s1]. injection Hsg as -> ->.
  rewrite spanDigits_app by (done || by apply (frac_exp_notDigit fr fd ex x)).
  destruct ip as [|c ip]; [done|].
  replace ((1 <? Z.of_nat (length (c :: ip))) && (default 0 (head (c :: ip)) =? 48)) with false.
  2: { symmetry. apply andb_false_iff. destruct Hz as [Hl|Hh].
       - left. rewrite Hl. done.
       - right. simpl in *. apply Z.eqb_neq. congruence. }
  by rewrite (parseFrac_ok fr fd ex x), (parseExp_ok ex x) by done.
Qed.

Lemma normFuel_ok fuel m e j :
  m mod 10 ≠ 0 → (j < fuel)%nat → normFuel fuel (m * 10 ^ Z.of_nat j) e = (m, e + Z.of_nat j).
Proof.
  intros Hm. revert e fuel. induction j as [|j IH]; intros e fuel Hj; (destruct fuel as [|f]; [lia|]);
    cbn [normFuel].
  - rewrite Z.mul_1_r. rewrite (proj2 (Z.eqb_neq _ _)) by done. f_equal. lia.
  - rewrite Nat2Z.inj_succ, Z.pow_succ_r by lia.
    replace (m * (10 * 10 ^ Z.of_nat j)) with (m * 10 ^ Z.of_nat j * 10) by lia.
    rewrite Z.mod_mul, Z.div_mul by lia. simpl. rewrite IH by lia. f_equal. lia.
Qed.

Lemma norm_ok m e j :
  m mod 10 ≠ 0 → 0 ≤ j → norm (m * 10 ^ j) (e - j) = (m, e).
Proof.
  intros Hm Hj. unfold norm. assert (m ≠ 0) by (intros ->; done).
  assert (0 < 10 ^ j) by (apply Z.pow_pos_nonneg; lia).
  rewrite (proj2 (Z.eqb_neq _ _)) by nia.
  rewrite <-(Z2Nat.id j) at 2 by done. rewrite normFuel_ok; [f_equal; lia|done|].
  assert (j ≤ Z.log2 (Z.abs (m * 10 ^ j))); [|lia].
  assert (j = Z.log2 (2 ^ j)) as Ej by (symmetry; by apply Z.log2_pow2).
  rewrite Ej at 1. apply Z.log2_le_mono.
  rewrite Z.abs_mul, (Z.abs_eq (10 ^ j)) by lia.
  assert (2 ^ j ≤ 10 ^ j) by (apply Z.pow_le_mono_l; lia). nia.
Qed.

Lemma norm_id m e : m mod 10 ≠ 0 → norm m e = (m, e).
Proof. intros Hm. rewrite <-(norm_ok m e 0) by done. f_equal; lia. Qed.

Lemma zeros_digits n : forallb isDigit (zeros n) = true.
Proof. unfold zeros. induction (Z.to_nat n); done. Qed.

Lemma forallb_take {A} (f : A → bool) n l : forallb f l = true → forallb f (take n l) = true.
Proof. rewrite !forallb_forall. intros H x Hx. apply H. rewrite <-(take_drop n l). apply in_or_app. by left. Qed.

Lemma forallb_drop {A} (f : A → bool) n l : forallb f l = true → forallb f (drop n l) = true.
Proof. rewrite !forallb_forall. intros H x Hx. apply H. rewrite <-(take_drop n l). apply in_or_app. by right. Qed.

Lemma natStr_exp n :
  0 ≤ n → expPart (101 :: 43 :: natStr n) n ∧ expPart (101 :: 45 :: natStr n) (- n).
Proof.
  intros Hn. destruct (natStr_ok n Hn) as (Hv & Hd & Hne & _).
  split; right; exists (natStr n); rewrite Hv; auto.
Qed.

(** The digits [d] of a number with [j] zeros behind, or [i] zeros in front. *)
Lemma digitsVal_pad i d j :
  digitsVal (replicate i 48 ++ d ++ replicate j 48) = digitsVal d * 10 ^ Z.of_nat j.
Proof. by rewrite !digitsVal_app, !digitsVal_zeros, length_replicate, Z.mul_0_l, Z.add_0_r. Qed.

Lemma parseNum_numStr m e rest :
  wf (JNum m e) = true → stop rest = true → parseNum (numStr m e ++ rest) = Some (m, e, rest).
Proof.
  simpl. intros Hwf Hs. unfold numStr.
  destruct (Z.eqb_spec m 0) as [->|Hm].
  { assert (e = 0) as -> by (apply orb_true_iff in Hwf as [?|?]; [lia|done]).
    apply (parseNum_ok false [48] [] [] [] 0 rest); auto; by left. }
  assert (m mod 10 ≠ 0) as Hn by (apply orb_true_iff in Hwf as [?|?%negb_true_iff]; lia).
  destruct (natStr_ok (Z.abs m)) as (Hv & Hd & Hne & Hh); [lia|]. specialize (Hh ltac:(lia)).
  set (d := natStr (Z.abs m)) in *. set (k := Z.of_nat (length d)).
  assert (1 <= k) by (destruct d; [done|unfold k; simpl; lia]).
  assert ((if m <? 0 then -1 else 1) * Z.abs m = m) as Hsm by (destruct (Z.ltb_spec m 0); lia).
  destruct ((k <=? k + e) && (k + e <=? 21)) eqn:E1; [|destruct ((0 <? k + e) && (k + e <=? 21)) eqn:E2;
    [|destruct ((-6 <? k + e) && (k + e <=? 0)) eqn:E3]].
  - bool_to_prop. etrans; [|etrans; [apply (parseNum_ok (m <? 0) (d ++ zeros (k + e - k)) [] [] [] 0 rest)|]].
    + by rewrite <-!(assoc_L (++)).
    + by destruct d.
    + by rewrite forallb_app, Hd, zeros_digits.
    + right. by destruct d.
    + by left.
    + by left.
    + done.
    + unfold zeros. rewrite app_nil_r, digitsVal_app, digitsVal_zeros, length_replicate, Hv, Z.add_0_r, Z.mul_assoc, Hsm.
      rewrite Z2Nat.id by lia. replace (k + e - k) with e by lia.
      change (Z.of_nat (length [])) with 0. replace (0 - 0) with (e - e) by lia. by rewrite norm_ok by (done || lia).
  - bool_to_prop. assert (k + e < k) by (apply andb_false_iff in E1; lia).
    etrans; [|etrans; [apply (parseNum_ok (m <? 0) (take (Z.to_nat (k + e)) d) (46 :: drop (Z.to_nat (k + e)) d)
                                (drop (Z.to_nat (k + e)) d) [] 0 rest)|]].
    + by rewrite <-!(assoc_L (++)).
    + intros E%(f_equal length). rewrite length_take in E. simpl in E. lia.
    + by apply forallb_take.
    + right. destruct d as [|c d]; [done|]. destruct (Z.to_nat (k + e)) eqn:E; [lia|done].
    + right. split; [done|]. split; [|by apply forallb_drop].
      intros E%(f_equal length). rewrite length_drop in E. simpl in E. lia.
    + by left.
    + done.
    + rewrite take_drop, Hv, Hsm, length_drop.
      replace (0 - Z.of_nat (length d - Z.to_nat (k + e))) with (e - 0) by lia.
      by rewrite Z.sub_0_r, norm_id.
  - bool_to_prop. etrans; [|etrans; [apply (parseNum_ok (m <? 0) [48] (46 :: zeros (- (k + e)) ++ d)
                                (zeros (- (k + e)) ++ d) [] 0 rest)|]].
    + rewrite <-!(assoc_L (++)). simpl. by rewrite <-?(assoc_L (++)).
    + done.
    + done.
    + by left.
    + right. split; [done|]. split; [by intros [_ ?]%app_nil|].
      by rewrite forallb_app, Hd, zeros_digits.
    + by left.
    + done.
    + pose proof (digitsVal_pad (S (Z.to_nat (- (k + e)))) d 0) as Hp. rewrite app_nil_r, Z.mul_1_r in Hp.
      change ([48] ++ zeros (- (k + e)) ++ d) with (replicate (S (Z.to_nat (- (k + e)))) 48 ++ d).
      rewrite Hp, Hv, Hsm. unfold zeros. rewrite length_app, length_replicate.
      replace (0 - _) with (e - 0) by lia.
      by rewrite Z.sub_0_r, norm_id.
  - set (x := k + e - 1).
    assert (expPart (101 :: (if x <? 0 then 45 else 43) :: natStr (Z.abs x)) x) as He.
    { destruct (natStr_exp (Z.abs x)) as [Hp Hm']; [lia|].
      destruct (Z.ltb_spec x 0); [|by rewrite Z.abs_eq in Hp |- *]. rewrite Z.abs_neq in Hm' |- * by lia.
      by rewrite Z.opp_involutive in Hm'. }
    etrans; [|etrans; [apply (parseNum_ok (m <? 0) (take 1 d) (if k =? 1 then [] else 46 :: drop 1 d)
                                (drop 1 d) (101 :: (if x <? 0 then 45 else 43) :: natStr (Z.abs x)) x rest)|]].
    + rewrite <-!(assoc_L (++)). done.
    + by destruct d.
    + by apply forallb_take.
    + right. by destruct d.
    + destruct (Z.eqb_spec k 1).
      * left. split; [done|]. apply length_zero_iff_nil. rewrite length_drop. lia.
      * right. split; [done|]. split; [|by apply forallb_drop].
        intros E%(f_equal length). rewrite length_drop in E. simpl in E. lia.
    + done.
    + done.
    + rewrite take_drop, Hv, Hsm, length_drop.
      replace (x - Z.of_nat (length d - 1)) with (e - 0) by lia.
      by rewrite Z.sub_0_r, norm_id.
Qed.

(** ** Strings *)

Lemma hexVal_digit n : 0 ≤ n < 16 → hexVal (hexDigit n) = Some n.
Proof.
  intros Hn. unfold hexVal, hexDigit, isDigit.
  destruct (Z.ltb_spec n 10).
  - rewrite !(proj2 (Z.leb_le _ _)) by lia. simpl. f_equal. lia.
  - rewrite (proj2 (Z.leb_gt (87 + n) 57)), !(proj2 (Z.leb_le _ _)) by lia. simpl. f_equal. lia.
Qed.

Lemma unhex4_hex4 c :
  0 ≤ c < 65536 →
  unhex4 (hexDigit (c / 4096)) (hexDigit (c / 256 mod 16)) (hexDigit (c / 16 mod 16)) (hexDigit (c mod 16))
  = Some c.
Proof.
  intros Hc. unfold unhex4.
  assert (0 ≤ c / 4096 < 16) by (split; [apply Z.div_pos|apply Z.div_lt_upper_bound]; lia).
  pose proof (Z.mod_pos_bound (c / 256) 16). pose proof (Z.mod_pos_bound (c / 16) 16).
  pose proof (Z.mod_pos_bound c 16).
  rewrite !hexVal_digit by lia. f_equal.
  pose proof (Z.div_mod c 16). pose proof (Z.div_mod (c / 16) 16). pose proof (Z.div_mod (c / 256) 16).
  replace (c / 256) with (c / 16 / 16) in * by (rewrite Z.div_div by lia; done).
  replace (c / 4096) with (c / 16 / 16 / 16) by (rewrite !Z.div_div by lia; done). lia.
Qed.

Lemma parseStr_unit prev c next s :
  isUnit c = true →
  parseStr (quoteUnit prev c next ++ s)
  = match parseStr s with Some (r, rest) => Some (c :: r, rest) | None => None end.
Proof.
  intros Hc. unfold isUnit in Hc. bool_to_prop. unfold quoteUnit, shortEscape.
  repeat match goal with |- context [if ?c =? ?k then _ else _] => destruct (Z.eqb_spec c k) as [->|]; [done|] end.
  destruct ((c <? 32) || lone prev c next) eqn:E.
  - cbn [hex4 app parseStr]. rewrite (proj2 (Z.eqb_neq 92 34)), Z.eqb_refl, Z.eqb_refl by done.
    by rewrite unhex4_hex4 by lia.
  - bool_to_prop. cbn [app parseStr]. rewrite !(proj2 (Z.eqb_neq _ _)), (proj2 (Z.ltb_ge _ _)) by lia. done.
Qed.

Lemma parseStr_quote prev s rest :
  forallb isUnit s = true → parseStr (quoteFrom prev s ++ 34 :: rest) = Some (s, rest).
Proof.
  revert prev. induction s as [|c s IH]; intros prev Hs; [done|].
  simpl in Hs |- *. apply andb_true_iff in Hs as [Hc Hs]. by rewrite <-(assoc_L (++)), parseStr_unit, IH.
Qed.

(** ** Values *)

(** How a printed value starts. *)
Definition opens (s : jsstring) : bool :=
  match s with c :: _ => isDigit c || existsb (Z.eqb c) [34; 45; 91; 102; 110; 116; 123] | [] => false end.

Lemma numStr_head m e : ∃ c t, numStr m e = c :: t ∧ (c = 45 ∨ isDigit c = true).
Proof.
  unfold numStr. destruct (m =? 0); [by eauto|].
  destruct (natStr_ok (Z.abs m)) as (_ & Hd & Hne & _); [lia|].
  destruct (natStr (Z.abs m)) as [|c d]; [done|]. simpl in Hd. apply andb_true_iff in Hd as [Hc _].
  destruct (m <? 0); simpl; [by eauto|]. repeat case_match; simpl; eauto.
  destruct (Z.to_nat _) eqn:E; simpl; eauto. bool_to_prop. lia.
Qed.

Lemma opens_skipWs s rest : opens s = true → skipWs (s ++ rest) = s ++ rest.
Proof.
  destruct s as [|c s]; [done|]. simpl. intros H. unfold isWs.
  assert ((c =? 32) || (c =? 9) || (c =? 10) || (c =? 13) = false) as ->; [|done].
  unfold isDigit in H. rewrite !orb_false_iff, !Z.eqb_neq. lia.
Qed.

Lemma stringify_opens v : opens (stringify v) = true.
Proof.
  destruct v as [|[]|m e|s|l|o]; try done. simpl.
  destruct (numStr_head m e) as (c & t & -> & [->|Hc]); [done|]. simpl. by rewrite Hc.
Qed.

Lemma stop_skipWs s : stop s = true → skipWs s = s.
Proof.
  destruct s as [|c s]; [done|]. simpl. intros H. unfold isWs.
  assert ((c =? 32) || (c =? 9) || (c =? 10) || (c =? 13) = false) as ->; [|done].
  rewrite !orb_false_iff, !Z.eqb_neq. lia.
Qed.

Lemma eat_other c d s : c ≠ d → eat d (c :: s) = None.
Proof. intros. simpl. by rewrite (proj2 (Z.eqb_neq c d)). Qed.

Lemma parseScalar_num m e rest :
  wf (JNum m e) = true → stop rest = true →
  parseScalar (numStr m e ++ rest) = Some (JNum m e, rest).
Proof.
  intros Hwf Hs. unfold parseScalar. pose proof (parseNum_numStr m e rest Hwf Hs) as Hp.
  destruct (numStr_head m e) as (c & t & Ht & Hc). rewrite Ht in *.
  assert (c ≠ 34 ∧ c ≠ 110 ∧ c ≠ 116 ∧ c ≠ 102) as (? & ? & ? & ?) by (unfold isDigit in Hc; lia).
  change ((c :: t) ++ rest) with (c :: t ++ rest) in *.
  assert (∀ d w s, c ≠ d → eatWord (d :: w) (c :: s) = None) as Hw.
  { intros d w s Hd. change (eat d (c :: s) ≫= eatWord w = None). by rewrite eat_other. }
  rewrite eat_other by done. change (js "null") with (110 :: js "ull").
  change (js "true") with (116 :: js "rue"). change (js "false") with (102 :: js "alse").
  by rewrite !Hw, Hp by done.
Qed.

Lemma parseScalar_str s rest :
  forallb isUnit s = true → parseScalar (quote s ++ rest) = Some (JStr s, rest).
Proof.
  intros Hs. unfold parseScalar, quote.
  change ((34 :: quoteFrom 0 s ++ [34]) ++ rest) with (34 :: (quoteFrom 0 s ++ [34]) ++ rest). simpl eat.
  rewrite <-(assoc_L (++)). change ([34] ++ rest) with (34 :: rest). by rewrite parseStr_quote.
Qed.

(** Passes the parser makes over a value. *)
Fixpoint passes (v : json) : nat :=
  match v with
  | JArr l => S (foldr (λ v n, S (passes v + n)) 0%nat l)
  | JObj o => S (foldr (λ kv n, S (passes kv.2 + n)) 0%nat o)
  | _ => 1%nat
  end.

(** Assigning distinct keys in the language's order builds the list itself. *)
Lemma jm_set_new {A} (k : jsstring) (v : A) o : k ∉ o.*1 → jm_set k v o = o ++ [(k, v)].
Proof.
  induction o as [|[k' v'] o IH]; [done|]. simpl. rewrite not_elem_of_cons. intros [Hk Ho].
  rewrite decide_False by done. by rewrite IH.
Qed.

Lemma foldl_set_new {A} (acc o : list (jsstring * A)) :
  NoDup (acc ++ o).*1 → foldl (λ o kv, jm_set kv.1 kv.2 o) acc o = acc ++ o.
Proof.
  revert acc. induction o as [|[k v] o IH]; intros acc Hnd; [by rewrite app_nil_r|].
  simpl. rewrite jm_set_new.
  - rewrite IH; by rewrite <-(assoc_L (++)).
  - rewrite fmap_app in Hnd. apply NoDup_app in Hnd as (_ & Hd & _). intros Hin. apply (Hd k Hin). left.
Qed.

Lemma ownOrder_elem {A} (o : list (jsstring * A)) kv : kv ∈ ownOrder o ↔ kv ∈ o.
Proof.
  unfold ownOrder. rewrite elem_of_app, elem_of_sortBy, !list_elem_of_filter.
  destruct (decide (is_Some (indexOf kv.1))); tauto.
Qed.

Lemma ownOrder_perm {A} (o : list (jsstring * A)) : ownOrder o ≡ₚ o.
Proof.
  unfold ownOrder. rewrite sortBy_perm.
  induction o as [|x o IH]; [done|]. rewrite !filter_cons.
  destruct (decide (is_Some (indexOf x.1))) as [Hx|Hx].
  - rewrite decide_False by tauto. simpl. by rewrite IH.
  - rewrite decide_True by done. rewrite <-Permutation_middle. by rewrite IH.
Qed.

(** A property list is determined by its keys' order and its contents. *)
Lemma same_keys_perm {A} (a b : list (jsstring * A)) : NoDup a.*1 → a ≡ₚ b → a.*1 = b.*1 → a = b.
Proof.
  revert b. induction a as [|[k v] a IH]; intros b Hnd Hp Hk.
  - by apply Permutation_nil_l in Hp.
  - destruct b as [|[k' v'] b]; [done|]. simpl in *. injection Hk as <- Hk.
    apply NoDup_cons in Hnd as [Hn Hnd].
    assert ((k, v) ∈ (k, v') :: b) as Hin by (rewrite <-Hp; left).
    apply elem_of_cons in Hin as [[= <-]|Hin].
    + f_equal. apply IH; [done| |done]. by apply Permutation_cons_inv in Hp.
    + destruct Hn. rewrite Hk. by apply (list_elem_of_fmap_2 fst) in Hin.
Qed.

Lemma filter_split {A} (P : A → Prop) `{∀ x, Decision (P x)} (s r : list A) :
  (∀ x, x ∈ s → P x) → (∀ x, x ∈ r → ¬ P x) →
  filter P (s ++ r) = s ∧ filter (λ x, ¬ P x) (s ++ r) = r.
Proof.
  intros Hs Hr. rewrite !filter_app, (filter_all P s), (filter_all (λ x, ¬ P x) r) by done.
  assert (filter P r = []) as -> by (by apply filter_none).
  assert (filter (λ x, ¬ P x) s = []) as -> by (apply filter_none; intros x Hx Hn; by apply Hn, Hs).
  by rewrite app_nil_r.
Qed.

Lemma ownOrder_idem {A} (o : list (jsstring * A)) : ownOrder (ownOrder o) = ownOrder o.
Proof.
  unfold ownOrder. set (le := λ a b : jsstring * A, _).
  destruct (filter_split (λ kv : jsstring * A, is_Some (indexOf kv.1))
              (sortBy le (filter (λ kv, is_Some (indexOf kv.1)) o))
              (filter (λ kv, ¬ is_Some (indexOf kv.1)) o)) as [E1 E2].
  { by intros x [? _]%elem_of_sortBy%list_elem_of_filter. }
  { by intros x [? _]%list_elem_of_filter. }
  rewrite E1, E2, sortBy_id; [done|]. apply sortBy_sorted.
  intros x y. unfold le. destruct (Z.leb_spec (default 0 (indexOf x.1)) (default 0 (indexOf y.1)));
    [by left|right; lia].
Qed.

Lemma objOf_perm {A} (o : list (jsstring * A)) : NoDup o.*1 → objOf o ≡ₚ o.
Proof. intros Hnd. unfold objOf. rewrite foldl_set_new by done. apply ownOrder_perm. Qed.

Lemma objOf_id {A} (o : list (jsstring * A)) :
  NoDup o.*1 → (ownOrder o).*1 = o.*1 → objOf o = o.
Proof.
  intros Hnd Ho. unfold objOf. rewrite foldl_set_new by done. simpl.
  apply same_keys_perm; [by rewrite Ho|apply ownOrder_perm|done].
Qed.

Lemma opens_eat c s rest :
  opens s = true → c = 44 ∨ c = 93 ∨ c = 125 → eat c (s ++ rest) = None.
Proof.
  destruct s as [|d s]; [done|]. simpl. intros Ho Hc.
  destruct (Z.eqb_spec d c) as [->|]; [|done]. unfold isDigit in Ho. exfalso.
  destruct Hc as [->|[->| ->]]; done.
Qed.

Lemma commas_cons x l : l ≠ [] → commas (x :: l) = x ++ 44 :: commas l.
Proof. by destruct l. Qed.

Lemma commas_opens l : l ≠ [] → Forall (λ s, opens s = true) l → opens (commas l) = true.
Proof.
  destruct l as [|x [|y l]]; [done|..]; intros _ Hf; apply Forall_cons in Hf as [Hx Hf]; [done|].
  rewrite commas_cons by done. by destruct x.
Qed.

(** What [parseVal] does on a printed value. *)
Definition readable (v : json) : Prop :=
  wf v = true → ∀ fuel rest, (passes v ≤ fuel)%nat → stop rest = true →
  parseVal fuel (stringify v ++ rest) = Some (v, rest).

Lemma parseElems_ok l fuel rest :
  l ≠ [] → Forall readable l → forallb wf l = true →
  (foldr (λ v n, S (passes v + n)) 0%nat l ≤ fuel)%nat →
  parseElems fuel (commas (map stringify l) ++ 93 :: rest) = Some (l, rest).
Proof.
  revert fuel. induction l as [|v l IH]; intros fuel Hne Hr Hwf Hf; [done|].
  destruct fuel as [|f]; [simpl in Hf; lia|]. apply Forall_cons in Hr as [Hv Hr].
  simpl in Hwf. apply andb_true_iff in Hwf as [Hwv Hwl]. cbn [foldr] in Hf. cbn [parseElems map].
  destruct (decide (l = [])) as [->|Hl].
  - cbn [map commas]. rewrite (Hv Hwv) by (done || lia). done.
  - rewrite commas_cons by (by destruct l). rewrite <-(assoc_L (++)).
    change ((44 :: commas (map stringify l)) ++ 93 :: rest)
      with (44 :: commas (map stringify l) ++ 93 :: rest).
    rewrite (Hv Hwv) by (done || lia). simpl. rewrite IH by (done || lia). done.
Qed.

Lemma parseMembers_ok o fuel rest :
  o ≠ [] → Forall (λ kv, readable kv.2) o →
  forallb (λ kv, forallb isUnit kv.1 && wf kv.2) o = true →
  (foldr (λ kv n, S (passes kv.2 + n)) 0%nat o ≤ fuel)%nat →
  parseMembers fuel (commas (map (λ kv, quote kv.1 ++ 58 :: stringify kv.2) o) ++ 125 :: rest)
  = Some (o, rest).
Proof.
  revert fuel. induction o as [|[k v] o IH]; intros fuel Hne Hr Hwf Hf; [done|].
  destruct fuel as [|f]; [simpl in Hf; lia|]. apply Forall_cons in Hr as [Hv Hr].
  simpl in Hwf. apply andb_true_iff in Hwf as [[Hk Hwv]%andb_true_iff Hwl].
  cbn [foldr] in Hf. simpl in Hf, Hv. cbn [parseMembers map].
  assert (∀ r, eat 34 (skipWs ((quote k ++ 58 :: stringify v) ++ r)) ≫= parseStr
               = Some (k, 58 :: stringify v ++ r)) as Hkey.
  { intros r. unfold quote. cbn [app skipWs]. change (isWs 34) with false. cbn [eat mbind option_bind].
    rewrite Z.eqb_refl. cbn [mbind option_bind]. rewrite <-!(assoc_L (++)). by apply parseStr_quote. }
  destruct (decide (o = [])) as [->|Ho].
  - cbn [map commas fst snd]. rewrite Hkey. cbn [skipWs]. change (isWs 58) with false. cbn [eat].
    rewrite Z.eqb_refl. cbn [mbind option_bind]. rewrite (Hv Hwv) by (done || lia). done.
  - rewrite commas_cons by (by destruct o). rewrite <-(assoc_L (++)). cbn [fst snd]. rewrite Hkey.
    cbn [skipWs]. change (isWs 58) with false. cbn [eat].
    rewrite Z.eqb_refl. cbn [mbind option_bind app].
    rewrite (Hv Hwv) by (done || lia). simpl. rewrite IH by (done || lia). done.
Qed.

Lemma parseVal_scalar f s rest r :
  opens s = true → eat 91 s = None → eat 123 s = None → s ≠ [] →
  parseScalar (s ++ rest) = r → parseVal (S f) (s ++ rest) = r.
Proof.
  intros Ho H1 H2 Hne Hp. cbn [parseVal]. rewrite opens_skipWs by done.
  destruct s as [|c s]; [done|]. cbn [app eat] in *.
  destruct (c =? 91); [done|]. by destruct (c =? 123).
Qed.

Lemma parseVal_stringify v : readable v.
Proof.
  induction v as [|b|m e|s|l Hl|o Ho] using json_ind; intros Hwf fuel rest Hf Hs;
    (destruct fuel as [|f]; [simpl in Hf; lia|]).
  - by apply parseVal_scalar.
  - destruct b; by apply parseVal_scalar.
  - apply parseVal_scalar; [apply (stringify_opens (JNum m e))| | | |by apply parseScalar_num];
      destruct (numStr_head m e) as (c & t & E & Hc); simpl; rewrite E; [| |done];
      apply eat_other; unfold isDigit in Hc; lia.
  - apply parseVal_scalar; [done..|]. by apply parseScalar_str.
  - cbn [parseVal]. rewrite opens_skipWs by done. cbn [stringify app eat]. rewrite Z.eqb_refl.
    destruct (decide (l = [])) as [->|Hne]; [done|]. simpl in Hwf. cbn [passes] in Hf.
    rewrite <-(assoc_L (++)). change ([93] ++ rest) with (93 :: rest).
    rewrite opens_skipWs, opens_eat; [by rewrite parseElems_ok by (done || lia)|..]; auto.
    all: apply commas_opens; [by destruct l|]; apply Forall_forall; intros x (y & -> & _)%list_elem_of_fmap;
      apply stringify_opens.
  - cbn [parseVal]. rewrite opens_skipWs by done. cbn [stringify app eat].
    change (123 =? 91) with false. rewrite Z.eqb_refl.
    destruct (decide (o = [])) as [->|Hne]; [done|]. simpl in Hwf. cbn [passes] in Hf.
    apply andb_true_iff in Hwf as [[Hnd Hord]%andb_true_iff Hwf]. bool_to_prop.
    rewrite <-(assoc_L (++)). change ([125] ++ rest) with (125 :: rest).
    rewrite opens_skipWs, opens_eat;
      [by rewrite parseMembers_ok, objOf_id by (done || lia)|..]; auto.
    all: apply commas_opens; [by destruct o|]; apply Forall_forall; intros x (y & -> & _)%list_elem_of_fmap;
      done.
Qed.

Lemma passes_length v : (passes v ≤ length (stringify v))%nat.
Proof.
  assert (∀ v, (1 ≤ length (stringify v))%nat) as Hpos.
  { intros u. pose proof (stringify_opens u). by destruct (stringify u); simpl; [|lia]. }
  induction v as [|b|m e|s|l Hl|o Ho] using json_ind; try apply Hpos.
  - cbn [passes stringify length]. rewrite length_app. simpl.
    assert (foldr (λ v n, S (passes v + n)) 0%nat l ≤ S (length (commas (map stringify l))))%nat; [|lia].
    induction Hl as [|v l Hv Hl IH]; [simpl; lia|]. cbn [foldr map].
    destruct (decide (l = [])) as [->|Hne]; [simpl; lia|].
    rewrite commas_cons by (by destruct l). rewrite length_app. simpl. lia.
  - cbn [passes stringify length]. rewrite length_app. cbn [length].
    assert (foldr (λ kv n, S (passes kv.2 + n)) 0%nat o
            ≤ S (length (commas (map (λ kv, quote kv.1 ++ 58%Z :: stringify kv.2) o))))%nat; [|lia].
    induction Ho as [|[k v] o Hv Ho IH]; [simpl; lia|]. cbn [foldr map fst snd]. simpl in Hv.
    destruct (decide (o = [])) as [->|Hne]; [cbn [map commas foldr fst snd]; rewrite length_app; cbn [length]; lia|].
    rewrite commas_cons by (by destruct o). rewrite !length_app. cbn [length]. lia.
Qed.

(** Reading undoes writing. *)
Lemma parse_stringify v : wf v = true → parse (stringify v) = Some v.
Proof.
  intros Hwf. unfold parse. pose proof (passes_length v).
  pose proof (parseVal_stringify v Hwf (S (length (stringify v))) []) as Hp. rewrite app_nil_r in Hp.
  rewrite Hp by (done || lia). done.
Qed.

Lemma stringify_inj v w : wf v = true → wf w = true → stringify v = stringify w → v = w.
Proof.
  intros Hv Hw E. apply (f_equal parse) in E. rewrite !parse_stringify in E by done. by injection E.
Qed.

(** ** What is read is well-formed *)

Lemma normFuel_normal fuel m e :
  m ≠ 0 → Z.abs m < 2 ^ Z.of_nat fuel → (normFuel fuel m e).1 mod 10 ≠ 0.
Proof.
  revert m e. induction fuel as [|f IH]; intros m e Hm Hf; [simpl in Hf; lia|]. cbn [normFuel].
  destruct (Z.eqb_spec (m mod 10) 0) as [E|]; [|done].
  pose proof (Z.div_mod m 10). apply IH; [lia|]. rewrite Nat2Z.inj_succ, Z.pow_succ_r in Hf by lia. lia.
Qed.

Lemma norm_wf m e : wf (let '(m, e) := norm m e in JNum m e) = true.
Proof.
  unfold norm. destruct (Z.eqb_spec m 0) as [|Hm]; [done|].
  pose proof (normFuel_normal (S (Z.to_nat (Z.log2 (Z.abs m)))) m e Hm) as Hn.
  destruct (normFuel _ _ _) as [m' e']. cbn [fst wf] in *. apply orb_true_iff. right.
  apply negb_true_iff, Z.eqb_neq, Hn. rewrite Nat2Z.inj_succ, Z2Nat.id by apply Z.log2_nonneg.
  apply Z.log2_spec. lia.
Qed.

Lemma jm_set_elem {A} (k : jsstring) (v : A) o kv : kv ∈ jm_set k v o → kv = (k, v) ∨ kv ∈ o.
Proof.
  induction o as [|[k' v'] o IH]; simpl; [set_solver|].
  destruct (decide (k' = k)); rewrite !elem_of_cons; intros [->|Hin]; auto. destruct (IH Hin); auto.
Qed.

Lemma objOf_wf {A} (l : list (jsstring * A)) :
  NoDup (objOf l).*1 ∧ ownOrder (objOf l) = objOf l ∧ ∀ kv, kv ∈ objOf l → kv ∈ l.
Proof.
  unfold objOf. split; [|split; [apply ownOrder_idem|]].
  - rewrite ownOrder_perm.
    assert (∀ o : list (jsstring * A), NoDup o.*1 → NoDup (foldl (λ o kv, jm_set kv.1 kv.2 o) o l).*1) as H.
    { induction l as [|kv l IH]; intros o Ho; [done|]. simpl. apply IH. by apply jm_keys_set. }
    apply H. constructor.
  - intros kv Hin. rewrite ownOrder_elem in Hin.
    assert (∀ o : list (jsstring * A), kv ∈ foldl (λ o kv, jm_set kv.1 kv.2 o) o l → kv ∈ o ∨ kv ∈ l) as H.
    { clear Hin. induction l as [|x l IH]; intros o Ho; [by left|]. simpl in Ho.
      apply IH in Ho as [Ho|Ho]; [|right; by right]. destruct x as [k v]. simpl in Ho.
      apply jm_set_elem in Ho as [->|Ho]; [right; left|by left]. }
    apply H in Hin as [?%not_elem_of_nil|]; done.
Qed.

Lemma skipWs_units s : forallb isUnit s = true → forallb isUnit (skipWs s) = true.
Proof. induction s as [|c s IH]; [done|]. simpl. intros H. destruct (isWs c); [|done]. apply IH. by apply andb_true_iff in H as [_ ?]. Qed.

Lemma eat_units c s t : forallb isUnit s = true → eat c s = Some t → forallb isUnit t = true.
Proof. destruct s as [|d s]; [done|]. simpl. intros [_ H]%andb_true_iff. destruct (d =? c); congruence. Qed.

Lemma eatWord_units w s t : forallb isUnit s = true → eatWord w s = Some t → forallb isUnit t = true.
Proof.
  revert s. induction w as [|c w IH]; intros s Hs Ht; [by injection Ht as <-|]. cbn [eatWord] in Ht.
  destruct (eat c s) as [s'|] eqn:E; [|done]. apply (IH s'); [by apply (eat_units c s)|done].
Qed.

Lemma unhex4_unit a b c d u : unhex4 a b c d = Some u → isUnit u = true.
Proof.
  assert (∀ x v, hexVal x = Some v → 0 ≤ v < 16) as H.
  { intros x v. unfold hexVal, isDigit. repeat case_match; intros; simplify_eq; bool_to_prop; lia. }
  unfold unhex4. destruct (hexVal a) eqn:Ea, (hexVal b) eqn:Eb, (hexVal c) eqn:Ec, (hexVal d) eqn:Ed;
    try done. intros [= <-]. apply H in Ea, Eb, Ec, Ed. unfold isUnit. apply andb_true_iff. lia.
Qed.

Lemma unescape_unit e u : isUnit e = true → unescape e = Some u → isUnit u = true.
Proof. unfold unescape. intros He. repeat case_match; intros; by simplify_eq. Qed.

Lemma parseStr_units s r rest :
  forallb isUnit s = true → parseStr s = Some (r, rest) →
  forallb isUnit r = true ∧ forallb isUnit rest = true.
Proof.
  remember (length s) as n eqn:En. revert s En r rest.
  induction n as [n IH] using lt_wf_ind. intros s -> r rest Hs Hp.
  assert (∀ s', (length s' < length s)%nat → forallb isUnit s' = true → ∀ r rest,
    parseStr s' = Some (r, rest) → forallb isUnit r = true ∧ forallb isUnit rest = true) as IH'.
  { intros s' Hl Hs' r' rest' Hp'. by apply (IH (length s') Hl s'). }
  clear IH. destruct s as [|c s1]; [done|]. cbn [parseStr] in Hp. simpl in Hs. apply andb_true_iff in Hs as [Hc Hs].
  destruct (c =? 34); [by injection Hp as <- <-|].
  destruct (c =? 92).
  - destruct s1 as [|e s2]; [done|]. simpl in Hs. apply andb_true_iff in Hs as [He Hs].
    destruct (e =? 117).
    + destruct s2 as [|h1 [|h2 [|h3 [|h4 s3]]]]; try done.
      destruct (unhex4 h1 h2 h3 h4) as [u|] eqn:Eu; [|done]. apply unhex4_unit in Eu.
      destruct (parseStr s3) as [[r' rest']|] eqn:E; [|done]. injection Hp as <- <-.
      simpl in Hs. rewrite !andb_true_iff in Hs. destruct (IH' s3) with r' rest' as [H1 H2];
        [simpl; lia|tauto|done|]. simpl. by rewrite Eu.
    + destruct (unescape e) as [u|] eqn:Eu; [|done]. apply unescape_unit in Eu; [|done].
      destruct (parseStr s2) as [[r' rest']|] eqn:E; [|done]. injection Hp as <- <-.
      destruct (IH' s2) with r' rest' as [H1 H2]; [simpl; lia|done|done|]. simpl. by rewrite Eu.
  - destruct (c <? 32); [done|]. destruct (parseStr s1) as [[r' rest']|] eqn:E; [|done]. injection Hp as <- <-.
    destruct (IH' s1) with r' rest' as [H1 H2]; [simpl; lia|done|done|]. simpl. by rewrite Hc.
Qed.

Lemma spanDigits_units s d r : forallb isUnit s = true → spanDigits s = (d, r) → forallb isUnit r = true.
Proof.
  revert d r. induction s as [|c s IH]; simpl; intros d r Hs Hd; [by injection Hd as <- <-|].
  destruct (isDigit c); [|by injection Hd as <- <-]. destruct (spanDigits s) as [d' r'] eqn:E.
  injection Hd as <- <-. apply andb_true_iff in Hs as [_ Hs]. by apply (IH d').
Qed.

Lemma parseNum_wf s m e rest :
  forallb isUnit s = true → parseNum s = Some (m, e, rest) →
  wf (JNum m e) = true ∧ forallb isUnit rest = true.
Proof.
  unfold parseNum. intros Hs Hp.
  assert (∃ sign s1, (match eat 45 s with Some r => (-1, r) | None => (1, s) end) = (sign, s1)
                     ∧ forallb isUnit s1 = true) as (sign & s1 & E & Hs1).
  { destruct (eat 45 s) eqn:E; eauto using eat_units. }
  rewrite E in Hp. destruct (spanDigits s1) as [d s2] eqn:Ed. apply spanDigits_units in Ed; [|done].
  destruct d as [|c d]; [done|]. destruct ((1 <? _) && _); [done|].
  destruct (parseFrac s2) as [[f s3]|] eqn:Ef; [|done].
  assert (forallb isUnit s3 = true) as Hs3.
  { unfold parseFrac in Ef. destruct (eat 46 s2) as [s2'|] eqn:E2; [|by injection Ef as <- <-].
    apply eat_units in E2; [|done]. destruct (spanDigits s2') as [f' r] eqn:E3.
    apply spanDigits_units in E3; [|done]. destruct f'; [done|]. by injection Ef as <- <-. }
  destruct (parseExp s3) as [[x s4]|] eqn:Ex; [|done].
  assert (forallb isUnit s4 = true) as Hs4.
  { unfold parseExp in Ex. assert (∀ s', forallb isUnit s' = true →
      (let '(sign, s2) := eatSign s' in
       match spanDigits s2 with ([], _) => None | (d, r) => Some (sign * digitsVal d, r) end) = Some (x, s4) →
      forallb isUnit s4 = true) as H.
    { intros s' Hs'. unfold eatSign. destruct (eat 45 s') as [t|] eqn:E45; [apply eat_units in E45; [|done]|].
      - destruct (spanDigits t) as [dd r] eqn:E5. apply spanDigits_units in E5; [|done]. destruct dd; congruence.
      - assert (forallb isUnit (default s' (eat 43 s')) = true) as Hd
          by (destruct (eat 43 s') eqn:E43; simpl; eauto using eat_units).
        destruct (spanDigits (default s' (eat 43 s'))) as [dd r] eqn:E5.
        apply spanDigits_units in E5; [|done]. destruct dd; congruence. }
    destruct (eat 101 s3) as [s'|] eqn:E1; [apply (H s'); [by apply (eat_units 101 s3)|done]|].
    destruct (eat 69 s3) as [s'|] eqn:E2; [apply (H s'); [by apply (eat_units 69 s3)|done]|congruence]. }
  pose proof (norm_wf (sign * digitsVal ((c :: d) ++ f)) (x - Z.of_nat (length f))) as Hn.
  destruct (norm _ _) as [m' e']. injection Hp as <- <- <-. done.
Qed.

Lemma parseScalar_wf s v rest :
  forallb isUnit s = true → parseScalar s = Some (v, rest) → wf v = true ∧ forallb isUnit rest = true.
Proof.
  unfold parseScalar. intros Hs Hp. destruct (eat 34 s) as [t|] eqn:E.
  { apply eat_units in E; [|done]. destruct (parseStr t) as [[r rest']|] eqn:Er; [|done].
    injection Hp as <- <-. by apply parseStr_units in Er. }
  destruct (eatWord (js "null") s) eqn:E1; [apply eatWord_units in E1; [|done]; by injection Hp as <- <-|].
  destruct (eatWord (js "true") s) eqn:E2; [apply eatWord_units in E2; [|done]; by injection Hp as <- <-|].
  destruct (eatWord (js "false") s) eqn:E3; [apply eatWord_units in E3; [|done]; by injection Hp as <- <-|].
  destruct (parseNum s) as [[[m e] r]|] eqn:En; [|done]. injection Hp as <- <-. by apply (parseNum_wf s).
Qed.

Lemma wf_objOf l :
  forallb (λ kv, forallb isUnit kv.1 && wf kv.2) l = true → wf (JObj (objOf l)) = true.
Proof.
  intros Hl. destruct (objOf_wf l) as (Hnd & Hown & Hin). simpl.
  rewrite !andb_true_iff, !bool_decide_eq_true. split; [split; [done|by rewrite Hown]|].
  rewrite forallb_forall in Hl |- *. intros kv Hkv. apply Hl, list_elem_of_In, Hin. by apply list_elem_of_In.
Qed.

Lemma parse_wf_fuel fuel :
  (∀ s v rest, forallb isUnit s = true → parseVal fuel s = Some (v, rest) →
     wf v = true ∧ forallb isUnit rest = true)
  ∧ (∀ s l rest, forallb isUnit s = true → parseElems fuel s = Some (l, rest) →
     forallb wf l = true ∧ forallb isUnit rest = true)
  ∧ (∀ s l rest, forallb isUnit s = true → parseMembers fuel s = Some (l, rest) →
     forallb (λ kv, forallb isUnit kv.1 && wf kv.2) l = true ∧ forallb isUnit rest = true).
Proof.
  induction fuel as [|f (IHv & IHe & IHm)]; [done|]. split; [|split]; intros s v rest Hs Hp.
  - cbn [parseVal] in Hp. apply skipWs_units in Hs. revert Hs Hp. generalize (skipWs s). clear s. intros s Hs Hp.
    destruct (eat 91 s) as [t|] eqn:E1.
    { apply eat_units in E1; [|done]. destruct (eat 93 (skipWs t)) as [r|] eqn:E2.
      { apply eat_units in E2; [|by apply skipWs_units]. by injection Hp as <- <-. }
      destruct (parseElems f t) as [[l r]|] eqn:E3; [|done]. injection Hp as <- <-. by apply (IHe t). }
    destruct (eat 123 s) as [t|] eqn:E2; [|by apply (parseScalar_wf s)].
    apply eat_units in E2; [|done]. destruct (eat 125 (skipWs t)) as [r|] eqn:E3.
    { apply eat_units in E3; [|by apply skipWs_units]. by injection Hp as <- <-. }
    destruct (parseMembers f t) as [[l r]|] eqn:E4; [|done]. injection Hp as <- <-.
    apply IHm in E4 as [Hl Hr]; [|done]. split; [by apply wf_objOf|done].
  - cbn [parseElems] in Hp. destruct (parseVal f s) as [[x s1]|] eqn:E1; [|done].
    apply IHv in E1 as [Hx Hs1]; [|done]. apply skipWs_units in Hs1.
    destruct (eat 44 (skipWs s1)) as [s2|] eqn:E2.
    + apply eat_units in E2; [|done]. destruct (parseElems f s2) as [[l r]|] eqn:E3; [|done].
      injection Hp as <- <-. apply IHe in E3 as [Hl Hr]; [|done]. simpl. by rewrite Hx, Hl.
    + destruct (eat 93 (skipWs s1)) as [s2|] eqn:E3; [|done]. apply eat_units in E3; [|done].
      injection Hp as <- <-. simpl. by rewrite Hx.
  - cbn [parseMembers] in Hp. destruct (eat 34 (skipWs s)) as [s0|] eqn:E0; [|done]. cbn [mbind option_bind] in Hp.
    apply eat_units in E0; [|by apply skipWs_units].
    destruct (parseStr s0) as [[k s1]|] eqn:E1; [|done]. apply parseStr_units in E1 as [Hk Hs1]; [|done].
    destruct (eat 58 (skipWs s1)) as [s2|] eqn:E2; [|done]. cbn [mbind option_bind] in Hp.
    apply eat_units in E2; [|by apply skipWs_units].
    destruct (parseVal f s2) as [[x s3]|] eqn:E3; [|done]. apply IHv in E3 as [Hx Hs3]; [|done].
    apply skipWs_units in Hs3. destruct (eat 44 (skipWs s3)) as [s4|] eqn:E4.
    + apply eat_units in E4; [|done]. destruct (parseMembers f s4) as [[l r]|] eqn:E5; [|done].
      injection Hp as <- <-. apply IHm in E5 as [Hl Hr]; [|done]. simpl. by rewrite Hk, Hx, Hl.
    + destruct (eat 125 (skipWs s3)) as [s4|] eqn:E5; [|done]. apply eat_units in E5; [|done].
      injection Hp as <- <-. simpl. by rewrite Hk, Hx.
Qed.

Lemma parsed_wf s v : forallb isUnit s = true → parse s = Some v → wf v = true.
Proof.
  intros Hs. unfold parse. destruct (parseVal _ s) as [[w rest]|] eqn:E; [|done].
  case_bool_decide; [|done]. intros [= <-]. by apply (proj1 (parse_wf_fuel _)) in E as [? _].
Qed.

(** ** Lookups *)

Lemma jm_get_some {A} (k : jsstring) (v : A) o : NoDup o.*1 → jm_get k o = Some v ↔ (k, v) ∈ o.
Proof.
  intros Hnd. split; [apply jm_get_elem|]. induction o as [|[k' v'] o IH]; [by intros ?%not_elem_of_nil|].
  rewrite fmap_cons in Hnd. apply NoDup_cons in Hnd as [Hn Hnd]. simpl in *. intros Hin.
  destruct (decide (k' = k)) as [->|Hne].
  - apply elem_of_cons in Hin as [[= ->]|Hin]; [done|]. by apply (list_elem_of_fmap_2 fst) in Hin.
  - apply elem_of_cons in Hin as [[= -> ->]|Hin]; [done|]. by apply IH.
Qed.

Lemma jm_get_perm {A} (k : jsstring) (o o' : list (jsstring * A)) :
  NoDup o.*1 → o ≡ₚ o' → jm_get k o = jm_get k o'.
Proof.
  intros Hnd Hp. apply option_eq. intros v. rewrite !jm_get_some; [by rewrite Hp| |done]. by rewrite <-Hp.
Qed.

Lemma jm_get_objSet {A} (k k' : jsstring) (v : A) o :
  NoDup o.*1 → jm_get k' (objSet k v o) = if decide (k' = k) then Some v else jm_get k' o.
Proof.
  intros Hnd. unfold objSet. rewrite <-jm_get_set. symmetry. apply jm_get_perm; [by apply jm_keys_set|].
  by rewrite ownOrder_perm.
Qed.

Lemma jm_get_map {A B} (f : A → B) (k : jsstring) o :
  jm_get k (map (λ kv, (kv.1, f kv.2)) o) = f <$> jm_get k o.
Proof. induction o as [|[k' v] o IH]; simpl; [done|]. by destruct (decide (k' = k)). Qed.

(** The order of the keys does not depend on the values. *)
Lemma filter_map_keys {A B} (P : jsstring → Prop) `{∀ k, Decision (P k)} (f : A → B) l :
  filter (λ kv, P kv.1) (map (λ kv, (kv.1, f kv.2)) l) = map (λ kv, (kv.1, f kv.2)) (filter (λ kv, P kv.1) l).
Proof.
  induction l as [|x l IH]; [done|]. cbn [map]. rewrite !filter_cons. simpl.
  destruct (decide (P x.1)); simpl; by rewrite IH.
Qed.

Lemma sortBy_map_keys {A B} (le : jsstring → jsstring → bool) (f : A → B) l :
  sortBy (λ a b, le a.1 b.1) (map (λ kv, (kv.1, f kv.2)) l)
  = map (λ kv, (kv.1, f kv.2)) (sortBy (λ a b, le a.1 b.1) l).
Proof.
  induction l as [|x l IH]; [done|]. simpl. rewrite IH. clear IH.
  induction (sortBy (λ a b, le a.1 b.1) l) as [|y l' IH]; [done|]. simpl.
  destruct (le x.1 y.1); [done|]. simpl. by rewrite IH.
Qed.

Lemma ownOrder_map {A B} (f : A → B) l :
  ownOrder (map (λ kv, (kv.1, f kv.2)) l) = map (λ kv, (kv.1, f kv.2)) (ownOrder l).
Proof.
  unfold ownOrder. rewrite map_app. f_equal.
  - etrans; [|apply (sortBy_map_keys (λ a b, default 0 (indexOf a) <=? default 0 (indexOf b)))].
    cbv beta. f_equal. exact (@filter_map_keys A B (λ k, is_Some (indexOf k)) (λ k, is_Some_dec (indexOf k)) f l).
  - exact (@filter_map_keys A B (λ k, ¬ is_Some (indexOf k)) (λ k, @not_dec _ (is_Some_dec (indexOf k))) f l).
Qed.

Lemma map_keys {A B} (f : A → B) (l : list (jsstring * A)) : (map (λ kv, (kv.1, f kv.2)) l).*1 = l.*1.
Proof. rewrite <-list_fmap_compose. by apply list_fmap_ext. Qed.

Lemma wf_objSet k v o :
  wf (JObj o) = true → forallb isUnit k = true → wf v = true → wf (JObj (objSet k v o)) = true.
Proof.
  simpl. rewrite !andb_true_iff, !bool_decide_eq_true, !forallb_forall. intros [[Hnd Ho] Hf] Hk Hv.
  unfold objSet. split; [split|].
  - rewrite ownOrder_perm. by apply jm_keys_set.
  - by rewrite ownOrder_idem.
  - intros kv Hin%list_elem_of_In. rewrite ownOrder_elem in Hin. apply jm_set_elem in Hin as [->|Hin].
    + simpl. rewrite andb_true_iff. split; [by apply forallb_forall|done].
    + apply Hf. by apply list_elem_of_In.
Qed.

#[export] Hint Resolve parse_stringify : wispace.
End Json.
