(* ===== verification/JsText.v ===== *)
(** * String methods

    [includes], [indexOf], [startsWith], [slice], [split] and [join] of strings as
    lists of code units, and what replacing a text by a placeholder does to the
    other texts that can be found in the result. *)

From S2P Require Import Prelude.

Module JsText.

Definition len (s : jsstring) : Z := Z.of_nat (length s).

(** [s.startsWith(p)]. *)
Fixpoint isPrefix (p s : jsstring) : bool :=
  match p, s with
  | [], _ => true
  | a :: p', c :: s' => (a =? c) && isPrefix p' s'
  | _ :: _, [] => false
  end.

Definition includes (text part : jsstring) : bool :=
  existsb (λ n, isPrefix part (drop n text)) (seq 0 (S (length text))).

(** [s.indexOf(part)]. *)
Fixpoint indexOf (part s : jsstring) : option nat :=
  if isPrefix part s then Some 0%nat
  else match s with [] => None | _ :: s' => S <$> indexOf part s' end.

(** [s.slice(0, n)], and [s.slice(-n)] for [n] that is not negative. *)
Definition sliceTo (n : Z) (s : jsstring) : jsstring :=
  if 0 <=? n then take (Z.to_nat n) s else take (Z.to_nat (len s + n)) s.

Definition sliceLast (n : Z) (s : jsstring) : jsstring :=
  if n =? 0 then s else drop (Z.to_nat (len s - n)) s.

(** [s.trimEnd()]. *)
Definition trimEnd (s : jsstring) : jsstring := rev (drop_ws (rev s)).

(** [parts.join(sep)]. *)
Fixpoint joinWith (sep : jsstring) (parts : list jsstring) : jsstring :=
  match parts with
  | [] => []
  | [p] => p
  | p :: parts' => p ++ sep ++ joinWith sep parts'
  end.

(** [s.split(part)] for a part that is not empty. *)
Fixpoint splitFuel (fuel : nat) (part s : jsstring) : list jsstring :=
  match fuel with
  | O => [s]
  | S fuel' =>
      match indexOf part s with
      | None => [s]
      | Some n => take n s :: splitFuel fuel' part (drop (n + length part) s)
      end
  end.

Definition splitText (part s : jsstring) : list jsstring := splitFuel (S (length s)) part s.

(** [s.split(part).join(w)]. *)
Definition replaceText (part w s : jsstring) : jsstring := joinWith w (splitText part s).

(** [[...new Set(l)]]. *)
Definition dedup (l : list jsstring) : list jsstring :=
  foldl (λ acc n, if bool_decide (n ∈ acc) then acc else acc ++ [n]) [] l.

(** ** Lengths *)

Lemma len_app s t : len (s ++ t) = len s + len t.
Proof. unfold len. rewrite length_app. lia. Qed.

Lemma len_cons c s : len (c :: s) = 1 + len s.
Proof. unfold len. simpl. lia. Qed.

Lemma len_nonneg s : 0 ≤ len s.
Proof. unfold len. lia. Qed.

Lemma len_sliceTo n s : 0 ≤ n → len (sliceTo n s) = Z.min n (len s).
Proof.
  intros Hn. unfold sliceTo, len. rewrite (proj2 (Z.leb_le 0 n) Hn), length_take. lia.
Qed.

Lemma len_sliceLast n s : 0 < n → len (sliceLast n s) = Z.min n (len s).
Proof. intros Hn. unfold sliceLast, len. rewrite (proj2 (Z.eqb_neq n 0)), length_drop by lia. lia. Qed.

Lemma drop_ws_le s : (length (drop_ws s) ≤ length s)%nat.
Proof. induction s as [|c s IH]; simpl; [done|]. destruct (js_whitespace c); simpl; lia. Qed.

Lemma trimEnd_le s : len (trimEnd s) ≤ len s.
Proof. unfold trimEnd, len. rewrite length_rev. pose proof (drop_ws_le (rev s)) as H. rewrite length_rev in H. lia. Qed.

(** ** Occurrences *)

Definition infix (s t : list Z) : Prop := ∃ a b, t = a ++ s ++ b.

#[global] Instance infix_refl : Reflexive infix.
Proof. intros s. exists [], []. by rewrite app_nil_r. Qed.

#[global] Instance infix_trans : Transitive infix.
Proof.
  intros s t r (a & b & ->) (c & d & ->). exists (c ++ a), (b ++ d). by rewrite !app_assoc.
Qed.

Lemma infix_app_l s a t : infix s t → infix s (a ++ t).
Proof. intros (u & v & ->). exists (a ++ u), v. by rewrite !app_assoc. Qed.

Lemma infix_app_r s t b : infix s t → infix s (t ++ b).
Proof. intros (u & v & ->). exists u, (v ++ b). by rewrite !app_assoc. Qed.

Lemma infix_cons s c t : infix s t → infix s (c :: t).
Proof. apply (infix_app_l s [c] t). Qed.

Lemma infix_take s n t : infix s (take n t) → infix s t.
Proof. intros Hs. rewrite <-(take_drop n t). by apply infix_app_r. Qed.

Lemma infix_drop s n t : infix s (drop n t) → infix s t.
Proof. intros Hs. rewrite <-(take_drop n t). by apply infix_app_l. Qed.

#[export] Hint Resolve infix_app_l infix_app_r infix_cons infix_take infix_drop : wispace.

Lemma infix_elem s t c : infix s t → c ∈ s → c ∈ t.
Proof. intros (a & b & ->) Hc. rewrite !elem_of_app. auto. Qed.

Lemma infix_length s t : infix s t → (length s ≤ length t)%nat.
Proof. intros (a & b & ->). rewrite !length_app. lia. Qed.

(** A text without a character cannot reach over it. *)
Lemma infix_barrier s a c t : infix s (a ++ c :: t) → c ∉ s → infix s a ∨ infix s t.
Proof.
  intros (u & v & E) Hc. revert a E. induction u as [|d u IH]; intros a E; cbn [app] in E.
  - left. apply app_eq_app in E as (k & [[-> Ek]|[-> Ek]]); [exists [], k; done|].
    destruct k as [|d k]; [exists [], []; by rewrite !app_nil_r|]. injection Ek as <- _. destruct Hc.
    apply elem_of_app. right. by left.
  - destruct a as [|e a]; cbn [app] in E; [injection E as <- ->; right; by exists u, v|].
    injection E as <- E. apply IH in E as [E|E]; [left; by apply infix_cons|by right].
Qed.

(** ** Prefixes and first occurrences *)

Lemma isPrefix_spec p s : isPrefix p s = true ↔ ∃ b, s = p ++ b.
Proof.
  revert s. induction p as [|c p IH]; intros s; [by split; [exists s|]|].
  destruct s as [|d s]; cbn [isPrefix]; [by split; [|intros [b ?]]|].
  rewrite andb_true_iff, Z.eqb_eq, IH. split.
  - intros [-> [b ->]]. by exists b.
  - intros [b [= -> ->]]. split; [done|by exists b].
Qed.

Lemma includes_iff s p : includes s p = true ↔ infix p s.
Proof.
  unfold includes. rewrite existsb_exists. split.
  - intros (n & _ & [b E]%isPrefix_spec). exists (take n s), b. by rewrite <-E, take_drop.
  - intros (a & b & ->). exists (length a). split.
    + apply in_seq. rewrite length_app. lia.
    + rewrite drop_app_length. apply isPrefix_spec. by exists b.
Qed.

Lemma includes_part a p b : includes (a ++ p ++ b) p = true.
Proof. apply includes_iff. by exists a, b. Qed.

Lemma indexOf_some p s n :
  indexOf p s = Some n → ∃ b, s = take n s ++ p ++ b ∧ b = drop (n + length p) s.
Proof.
  revert n. induction s as [|c s IH]; intros n; cbn [indexOf].
  - destruct (isPrefix p []) eqn:E; [|done]. intros [= <-]. apply isPrefix_spec in E as [b E].
    exists b. cbn [take app Nat.add]. by rewrite E, drop_app_length.
  - destruct (isPrefix p (c :: s)) eqn:E.
    + intros [= <-]. apply isPrefix_spec in E as [b E]. exists b. cbn [take app Nat.add].
      by rewrite E, drop_app_length.
    + destruct (indexOf p s) as [k|]; [|done]. intros [= <-]. destruct (IH k eq_refl) as (b & Es & Eb).
      exists b. cbn [take Nat.add drop app]. by rewrite <-Es.
Qed.

(** No occurrence starts before the one that is found. *)
Lemma indexOf_first p s n a b :
  p ≠ [] → indexOf p s = Some n → s = a ++ p ++ b → (n ≤ length a)%nat.
Proof.
  intros Hp. revert n a. induction s as [|c s IH]; intros n a Hi E; cbn [indexOf] in Hi.
  - destruct a; [|done]. by destruct p.
  - destruct (isPrefix p (c :: s)) eqn:Ep; [injection Hi as <-; lia|].
    destruct (indexOf p s) as [k|] eqn:Ek; [|done]. injection Hi as <-.
    destruct a as [|d a]; cbn [app] in E.
    + assert (isPrefix p (c :: s) = true) as ?; [|congruence]. apply isPrefix_spec. by exists b.
    + injection E as <- E. simpl. apply le_n_S. by eapply IH.
Qed.

Lemma indexOf_none p s : indexOf p s = None → ¬ infix p s.
Proof.
  induction s as [|c s IH]; cbn [indexOf].
  - destruct (isPrefix p []) eqn:E; [done|]. intros _ (a & b & Eb). destruct a; [|done].
    assert (isPrefix p [] = true) as ?; [|congruence]. apply isPrefix_spec. by exists b.
  - destruct (isPrefix p (c :: s)) eqn:E; [done|]. destruct (indexOf p s); [done|]. intros _ (a & b & Eb).
    destruct a as [|d a]; cbn [app] in Eb.
    + assert (isPrefix p (c :: s) = true) as ?; [|congruence]. apply isPrefix_spec. by exists b.
    + injection Eb as _ Eb. apply IH; [done|]. by exists a, b.
Qed.

Lemma before_first p s n : p ≠ [] → indexOf p s = Some n → ¬ infix p (take n s).
Proof.
  intros Hp Hi (a & b & E). destruct (indexOf_some _ _ _ Hi) as (r & Es & _).
  pose proof (indexOf_first p s n a (b ++ p ++ r) Hp Hi) as Hl.
  assert (s = a ++ p ++ b ++ p ++ r) as Es' by (rewrite Es at 1; by rewrite E, <-!app_assoc). specialize (Hl Es').
  apply (f_equal length) in E. rewrite length_take, !length_app in E. destruct p; [done|]. simpl in E. lia.
Qed.

(** ** Cutting a text

    [cuts W s t]: parts of [s] were replaced by texts of [W]. *)
Inductive cuts (W : list Z → Prop) : list Z → list Z → Prop :=
| cuts_keep s : cuts W s s
| cuts_at a part s w t : W w → cuts W s t → cuts W (a ++ part ++ s) (a ++ w ++ t).

Lemma cuts_app W w s t : cuts W s t → cuts W (w ++ s) (w ++ t).
Proof.
  destruct 1 as [s|a part s x t Hx Ht]; [constructor|]. rewrite !(app_assoc w a). by constructor.
Qed.

(** A replacement that a text cannot overlap: it starts and ends with characters
    which the text does not have, and does not hold it. *)
Definition foreign (v w : list Z) : Prop :=
  (∃ b, w = [b] ∧ b ∉ v) ∨ ∃ b mid e, w = b :: mid ++ [e] ∧ b ∉ v ∧ e ∉ v ∧ ¬ infix v mid.

Lemma foreign_out v a w t : foreign v w → infix v (a ++ w ++ t) → infix v a ∨ infix v t.
Proof.
  intros [(b & -> & Hb)|(b & mid & e & -> & Hb & He & Hm)] Hi; cbn [app] in Hi; [by apply infix_barrier in Hi|]. apply infix_barrier in Hi as [Hi|Hi]; [by left| |done].
  rewrite <-app_assoc in Hi. cbn [app] in Hi. apply infix_barrier in Hi as [Hi|Hi]; [done|by right|done].
Qed.

Lemma cuts_out (W : list Z → Prop) v s t : cuts W s t → (∀ w, W w → foreign v w) → infix v t → infix v s.
Proof.
  intros Hc HW. induction Hc as [s|a part s w t Hw _ IH]; [done|]. intros Hi.
  apply foreign_out in Hi as [Hi|Hi]; [| |by apply HW].
  - by apply infix_app_r.
  - apply infix_app_l, infix_app_l, IH, Hi.
Qed.

Lemma cuts_Forall (W : list Z → Prop) (P : Z → Prop) s t :
  cuts W s t → (∀ w, W w → Forall P w) → Forall P s → Forall P t.
Proof.
  intros Hc HW. induction Hc as [s|a part s w t Hw _ IH]; [done|].
  intros [Ha [_ Hs]%Forall_app]%Forall_app. repeat apply Forall_app_2; auto.
Qed.

(** ** Split and join *)

Lemma split_ne fuel p s : splitFuel fuel p s ≠ [].
Proof. destruct fuel; [done|]. cbn [splitFuel]. by destruct (indexOf p s). Qed.

Lemma joinWith_cons sep p l : l ≠ [] → joinWith sep (p :: l) = p ++ sep ++ joinWith sep l.
Proof. by destruct l. Qed.

Lemma joinWith_snoc sep l x : l ≠ [] → joinWith sep (l ++ [x]) = joinWith sep l ++ sep ++ x.
Proof.
  induction l as [|p l IH]; [done|]. intros _. destruct l as [|q l]; [done|].
  cbn [app]. rewrite (joinWith_cons sep p (q :: l)) by done.
  change (joinWith sep (p :: ((q :: l) ++ [x])) = (p ++ sep ++ joinWith sep (q :: l)) ++ sep ++ x).
  rewrite joinWith_cons by done. rewrite IH by done. by rewrite <-!app_assoc.
Qed.

(** [split] and [join] with the part itself give the text back. *)
Lemma join_split p s : joinWith p (splitText p s) = s.
Proof.
  unfold splitText. generalize (S (length s)) as fuel. intros fuel. revert s.
  induction fuel as [|fuel IH]; intros s; [done|]. cbn [splitFuel].
  destruct (indexOf p s) as [n|] eqn:E; [|done]. rewrite joinWith_cons by apply split_ne. rewrite IH.
  destruct (indexOf_some _ _ _ E) as (b & Es & ->). by rewrite <-Es.
Qed.

Lemma replace_cuts p w s : cuts (λ x, x = w) s (replaceText p w s).
Proof.
  unfold replaceText, splitText. generalize (S (length s)) as fuel. intros fuel. revert s.
  induction fuel as [|fuel IH]; intros s; [constructor|]. cbn [splitFuel].
  destruct (indexOf p s) as [n|] eqn:E; [|constructor]. rewrite joinWith_cons by apply split_ne.
  destruct (indexOf_some _ _ _ E) as (b & Es & Eb). rewrite Es at 1. rewrite Eb. by constructor.
Qed.

(** The replaced text is gone. *)
Lemma replace_gone p w s : foreign p w → p ≠ [] → ¬ infix p (replaceText p w s).
Proof.
  intros Hf Hp. unfold replaceText, splitText.
  assert (length s < S (length s))%nat as Hl by lia. revert Hl. generalize (S (length s)) as fuel. intros fuel. revert s.
  induction fuel as [|fuel IH]; intros s Hl; [lia|]. cbn [splitFuel].
  destruct (indexOf p s) as [n|] eqn:E; [|by apply indexOf_none].
  rewrite joinWith_cons by apply split_ne. intros [Hi|Hi]%foreign_out; [| |done].
  - by eapply before_first.
  - revert Hi. apply IH. destruct (indexOf_some _ _ _ E) as (b & Es & Eb). rewrite <-Eb.
    apply (f_equal length) in Es. rewrite !length_app in Es. destruct p; [done|]. simpl in Es. lia.
Qed.

Lemma joinWith_Forall (P : Z → Prop) sep l : Forall P sep → Forall (Forall P) l → Forall P (joinWith sep l).
Proof.
  intros Hs Hl. induction Hl as [|p l Hp Hl IH]; [constructor|]. destruct l as [|q l]; [done|].
  rewrite joinWith_cons by done. by repeat apply Forall_app_2.
Qed.

Lemma split_Forall (P : Z → Prop) p s : Forall P s → Forall (Forall P) (splitText p s).
Proof.
  unfold splitText. generalize (S (length s)) as fuel. intros fuel. revert s.
  induction fuel as [|fuel IH]; intros s Hs; cbn [splitFuel]; [by constructor|].
  destruct (indexOf p s) as [n|]; [|by constructor]. constructor; [by apply Forall_take|]. by apply IH, Forall_drop.
Qed.

Lemma replace_absent p w s : ¬ infix p s → replaceText p w s = s.
Proof.
  intros Hn. unfold replaceText, splitText. cbn [splitFuel]. destruct (indexOf p s) as [n|] eqn:E; [|done].
  destruct Hn. destruct (indexOf_some _ _ _ E) as (b & Es & _). by exists (take n s), b.
Qed.

Lemma replace_Forall (P : Z → Prop) p w s : Forall P w → Forall P s → Forall P (replaceText p w s).
Proof. intros Hw Hs. by apply joinWith_Forall, split_Forall. Qed.

Lemma trim_Forall (P : Z → Prop) s : Forall P s → Forall P (js_trim s).
Proof.
  assert (∀ t, Forall P t → Forall P (drop_ws t)) as Hd.
  { induction t as [|c t IH]; [done|]. intros Ht. inversion Ht; subst. cbn [drop_ws]. destruct (js_whitespace c); auto. }
  intros Hs. unfold js_trim. by apply Forall_rev, Hd, Forall_rev, Hd.
Qed.

Lemma slice_Forall (P : Z → Prop) n s : Forall P s → Forall P (sliceTo n s).
Proof. intros Hs. unfold sliceTo. destruct (0 <=? n); by apply Forall_take. Qed.

Lemma dedup_elem l x : x ∈ dedup l ↔ x ∈ l.
Proof.
  unfold dedup. enough (∀ acc, x ∈ foldl (λ acc n, if bool_decide (n ∈ acc) then acc else acc ++ [n]) acc l
                               ↔ x ∈ acc ∨ x ∈ l) as H by (rewrite H; set_solver).
  induction l as [|y l IH]; intros acc; cbn [foldl]; [set_solver|]. rewrite IH.
  case_bool_decide; set_solver.
Qed.
(** ** Lines *)

Lemma indexOf_unit c a b : c ∉ a → indexOf [c] (a ++ c :: b) = Some (length a).
Proof.
  induction a as [|d a IH]; intros Hc; cbn; [by rewrite Z.eqb_refl|].
  apply not_elem_of_cons in Hc as [Hne Hc]. rewrite IH by done. by rewrite (proj2 (Z.eqb_neq c d) Hne).
Qed.

Lemma indexOf_unit_none c a : c ∉ a → indexOf [c] a = None.
Proof.
  induction a as [|d a IH]; intros Hc; [done|]. cbn. apply not_elem_of_cons in Hc as [Hne Hc].
  rewrite IH by done. by rewrite (proj2 (Z.eqb_neq c d) Hne).
Qed.

(** Lines that do not hold the separator are read back. *)
Lemma split_join c l : l ≠ [] → Forall (Forall (λ d, d ≠ c)) l → splitText [c] (joinWith [c] l) = l.
Proof.
  assert (∀ x, Forall (λ d, d ≠ c) x → c ∉ x) as Hout by (intros x Hx Hin; rewrite Forall_forall in Hx; by apply (Hx c)).
  intros Hne Hl. unfold splitText.
  assert (S (length (joinWith [c] l)) ≤ S (length (joinWith [c] l)))%nat as Hf by done. revert Hf.
  generalize (S (length (joinWith [c] l))) at 2 3 as fuel. intros fuel. revert fuel.
  induction Hl as [|x l Hx Hl IH]; intros fuel Hf; [done|]. destruct fuel as [|fuel]; [lia|].
  destruct l as [|y l]; cbn [splitFuel].
  - cbn [joinWith]. by rewrite indexOf_unit_none by auto.
  - rewrite joinWith_cons in Hf |- * by done. cbn [app] in *. rewrite indexOf_unit by auto. rewrite take_app_length.
    f_equal. rewrite <-(IH ltac:(done) fuel) at 2.
    + f_equal. rewrite Nat.add_comm. cbn [length Nat.add]. by rewrite <-(Nat.add_1_r (length x)), <-drop_drop, drop_app_length.
    + rewrite length_app in Hf. simpl in Hf |- *. lia.
Qed.

Lemma dedup_nodup l : NoDup (dedup l).
Proof.
  assert (∀ acc, NoDup acc → NoDup (foldl (λ acc n, if bool_decide (n ∈ acc) then acc else acc ++ [n]) acc l)) as Hd.
  { induction l as [|x l IH]; intros acc Ha; [done|]. cbn [foldl]. apply IH. case_bool_decide; [done|].
    apply NoDup_app. split_and!; [done|set_solver|by apply NoDup_singleton]. }
  apply Hd. constructor.
Qed.

(** The length of a joined text. *)
Lemma joinWith_len sep l : len (joinWith sep l) ≤ sum_by (λ x, len x + len sep) l.
Proof.
  induction l as [|x l IH]; [done|]. cbn [sum_by]. destruct l as [|y l].
  - cbn [joinWith sum_by]. pose proof (len_nonneg sep). lia.
  - rewrite joinWith_cons, !len_app by done. lia.
Qed.
End JsText.
