(* ===== verification/JsRegex.v ===== *)
(** * JavaScript regular expressions

    The guards on natural language are tables of regular expressions.  This file
    has the part of ECMAScript's pattern language they use: [parse] reads the
    source of a pattern, [m] is the backtracking matcher of the language
    definition (continuations, captures, lazy and greedy repetition, backward
    references, lookahead), and [exec], [matchAll] and [replace] are the string
    methods on it.  [run] is what a pattern matches, without any order of search;
    [match_iff] says that the matcher finds a match exactly when there is one.

    A string is a zipper of code units; with the flag u a character is a code
    point.  What the language takes from the Unicode database for characters
    outside ASCII is the class [Unicode]. *)

From S2P Require Import Prelude JsText.

Module JsRegex.
Import JsText.

(** ** Characters *)

Inductive property := Letter | Number | Format.

(** The Unicode data of the characters outside ASCII. *)
Class Unicode := {
  u_nfd : jsstring → jsstring;              (** canonical decomposition *)
  u_nfc : jsstring → jsstring;              (** canonical composition *)
  u_lower : jsstring → jsstring;            (** toLowerCase *)
  u_upper : Z → Z;                          (** toUpperCase of a unit that has one unit outside ASCII *)
  u_fold : Z → Z;                           (** simple case folding of a code point *)
  u_property : property → bool → Z → bool   (** the property, or with the flag i a character of its folding class *)
}.

Definition isAscii (c : Z) : bool := (0 <=? c) && (c <? 128).
Definition between (lo hi c : Z) : bool := (lo <=? c) && (c <=? hi).
Definition asciiUpper (c : Z) : Z := if between 97 122 c then c - 32 else c.
Definition asciiLower (c : Z) : Z := if between 65 90 c then c + 32 else c.

(** Lower case leaves the place of ASCII letters, whatever surrounds them. *)
Class UnicodeLaws `{Unicode} := {
  lower_ascii a s b : forallb isAscii s = true → ∃ a' b', u_lower (a ++ s ++ b) = a' ++ (asciiLower <$> s) ++ b'
}.

Section Strings.
Context `{Unicode}.

(** [normalize('NFD')], [normalize('NFC')] and [toLowerCase()]. *)
Definition nfd (s : jsstring) : jsstring := if forallb isAscii s then s else u_nfd s.
Definition nfc (s : jsstring) : jsstring := if forallb isAscii s then s else u_nfc s.
Definition toLowerCase (s : jsstring) : jsstring :=
  if forallb isAscii s then asciiLower <$> s else u_lower s.
End Strings.

(** ** Patterns *)

Inductive escape := ESpace | EDigit | EWord | EProp (p : property).
Inductive item := IRange (lo hi : Z) | IEsc (negated : bool) (e : escape).

Inductive re :=
| REmpty
| RClass (negated : bool) (l : list item)
| RDot
| RSeq (r1 r2 : re)
| RAlt (r1 r2 : re)
| RRep (greedy : bool) (lo : nat) (hi : option nat) (r : re)
| RGroup (i : nat) (r : re)
| RRef (i : nat)
| RStart
| REnd
| RWordBoundary
| RLook (negated : bool) (r : re)                          (** lookahead *)
| RBehind (negated : bool) (c : bool * list item).         (** lookbehind of one character *)

Record flags := mkFlags { f_i : bool; f_m : bool; f_u : bool }.

(** ** Parsing *)

Definition hexVal (c : Z) : option Z :=
  if between 48 57 c then Some (c - 48)
  else if between 97 102 c then Some (c - 87)
  else if between 65 70 c then Some (c - 55) else None.

Definition single (c : Z) : re := RClass false [IRange c c].

(** A class escape, a character escape, or a backward reference. *)
Inductive escaped := XClass (i : item) | XChar (c : Z) | XRef (i : nat) | XBoundary.

Definition pEscape (s : jsstring) : option (escaped * jsstring) :=
  match s with
  | 115 :: s' => Some (XClass (IEsc false ESpace), s')
  | 83 :: s' => Some (XClass (IEsc true ESpace), s')
  | 100 :: s' => Some (XClass (IEsc false EDigit), s')
  | 68 :: s' => Some (XClass (IEsc true EDigit), s')
  | 119 :: s' => Some (XClass (IEsc false EWord), s')
  | 87 :: s' => Some (XClass (IEsc true EWord), s')
  | 98 :: s' => Some (XBoundary, s')
  | 110 :: s' => Some (XChar 10, s')
  | 114 :: s' => Some (XChar 13, s')
  | 116 :: s' => Some (XChar 9, s')
  | 112 :: 123 :: 76 :: 125 :: s' => Some (XClass (IEsc false (EProp Letter)), s')
  | 112 :: 123 :: 78 :: 125 :: s' => Some (XClass (IEsc false (EProp Number)), s')
  | 112 :: 123 :: 67 :: 102 :: 125 :: s' => Some (XClass (IEsc false (EProp Format)), s')
  | 117 :: a :: b :: c :: d :: s' =>
      match hexVal a, hexVal b, hexVal c, hexVal d with
      | Some a, Some b, Some c, Some d => Some (XChar (((a * 16 + b) * 16 + c) * 16 + d), s')
      | _, _, _, _ => None
      end
  | c :: s' =>
      if between 49 57 c then Some (XRef (Z.to_nat (c - 48)), s')
      else if between 97 122 c || between 65 90 c || (c =? 48) then None
      else Some (XChar c, s')
  | [] => None
  end.

(** The items of a character class up to its closing bracket. *)
Fixpoint pItems (fuel : nat) (s : jsstring) : option (list item * jsstring) :=
  match fuel with
  | O => None
  | S fuel' =>
      let atom :=
        match s with
        | 92 :: s' =>
            match pEscape s' with
            | Some (XClass i, r) => Some (inr i, r)
            | Some (XChar c, r) => Some (inl c, r)
            | _ => None
            end
        | c :: s' => Some (inl c, s')
        | [] => None
        end in
      match s with
      | 93 :: s' => Some ([], s')
      | _ =>
          match atom with
          | Some (inr i, r) => (λ p, (i :: p.1, p.2)) <$> pItems fuel' r
          | Some (inl lo, 45 :: 93 :: r) => Some ([IRange lo lo; IRange 45 45], r)
          | Some (inl lo, 45 :: 92 :: r) =>
              match pEscape r with
              | Some (XChar hi, r') => (λ p, (IRange lo hi :: p.1, p.2)) <$> pItems fuel' r'
              | _ => None
              end
          | Some (inl lo, 45 :: hi :: r) => (λ p, (IRange lo hi :: p.1, p.2)) <$> pItems fuel' r
          | Some (inl c, r) => (λ p, (IRange c c :: p.1, p.2)) <$> pItems fuel' r
          | None => None
          end
      end
  end.

Definition pClass (s : jsstring) : option (bool * list item * jsstring) :=
  match s with
  | 94 :: s' => (λ p, (true, p.1, p.2)) <$> pItems (length s) s'
  | _ => (λ p, (false, p.1, p.2)) <$> pItems (S (length s)) s
  end.

(** Decimal digits. *)
Fixpoint pNat (acc : option nat) (s : jsstring) : option nat * jsstring :=
  match s with
  | c :: s' => if between 48 57 c then pNat (Some (10 * default 0 acc + Z.to_nat (c - 48))%nat) s' else (acc, s)
  | [] => (acc, s)
  end.

(** A quantifier, if there is one: its bounds and whether it is greedy. *)
Definition pQuantifier (s : jsstring) : option (option (nat * option nat * bool) * jsstring) :=
  let lazy b s := match s with 63 :: s' => (Some (b, false), s') | _ => (Some (b, true), s) end in
  match s with
  | 42 :: s' => Some (lazy (0%nat, None) s')
  | 43 :: s' => Some (lazy (1%nat, None) s')
  | 63 :: s' => Some (lazy (0%nat, Some 1%nat) s')
  | 123 :: s' =>
      match pNat None s' with
      | (Some lo, 125 :: r) => Some (lazy (lo, Some lo) r)
      | (Some lo, 44 :: 125 :: r) => Some (lazy (lo, None) r)
      | (Some lo, 44 :: r) =>
          match pNat None r with
          | (Some hi, 125 :: r') => if (lo <=? hi)%nat then Some (lazy (lo, Some hi) r') else None
          | _ => None
          end
      | _ => None
      end
  | _ => Some (None, s)
  end.

(** The pattern, the number of groups so far, and what is left of the source. *)
Fixpoint pAlt (fuel : nat) (n : nat) (s : jsstring) {struct fuel} : option (re * nat * jsstring) :=
  match fuel with
  | O => None
  | S fuel' =>
      match pSeq fuel' n s with
      | Some (r, n', 124 :: s') =>
          match pAlt fuel' n' s' with Some (r', n'', s'') => Some (RAlt r r', n'', s'') | None => None end
      | x => x
      end
  end
with pSeq (fuel : nat) (n : nat) (s : jsstring) {struct fuel} : option (re * nat * jsstring) :=
  match fuel with
  | O => None
  | S fuel' =>
      match s with
      | [] | 124 :: _ | 41 :: _ => Some (REmpty, n, s)
      | _ =>
          match pAtom fuel' n s with
          | Some (a, n', s') =>
              match pQuantifier s' with
              | Some (q, s'') =>
                  let a' := match q with Some (lo, hi, g) => RRep g lo hi a | None => a end in
                  match pSeq fuel' n' s'' with
                  | Some (REmpty, n'', rest) => Some (a', n'', rest)
                  | Some (r, n'', rest) => Some (RSeq a' r, n'', rest)
                  | None => None
                  end
              | None => None
              end
          | None => None
          end
      end
  end
with pAtom (fuel : nat) (n : nat) (s : jsstring) {struct fuel} : option (re * nat * jsstring) :=
  match fuel with
  | O => None
  | S fuel' =>
      let close (f : re → re) x :=
        match x with Some (r, n', 41 :: s') => Some (f r, n', s') | _ => None end in
      let behind neg x :=
        match x with Some (RClass b l, n', 41 :: s') => Some (RBehind neg (b, l), n', s') | _ => None end in
      match s with
      | 40 :: 63 :: 58 :: s' => close id (pAlt fuel' n s')
      | 40 :: 63 :: 61 :: s' => close (RLook false) (pAlt fuel' n s')
      | 40 :: 63 :: 33 :: s' => close (RLook true) (pAlt fuel' n s')
      | 40 :: 63 :: 60 :: 61 :: s' => behind false (pAlt fuel' n s')
      | 40 :: 63 :: 60 :: 33 :: s' => behind true (pAlt fuel' n s')
      | 40 :: 63 :: _ => None
      | 40 :: s' => close (RGroup (S n)) (pAlt fuel' (S n) s')
      | 91 :: s' => match pClass s' with Some (b, l, r) => Some (RClass b l, n, r) | None => None end
      | 92 :: s' =>
          match pEscape s' with
          | Some (XClass i, r) => Some (RClass false [i], n, r)
          | Some (XChar c, r) => Some (single c, n, r)
          | Some (XRef i, r) => Some (RRef i, n, r)
          | Some (XBoundary, r) => Some (RWordBoundary, n, r)
          | None => None
          end
      | 46 :: s' => Some (RDot, n, s')
      | 94 :: s' => Some (RStart, n, s')
      | 36 :: s' => Some (REnd, n, s')
      | c :: s' => if bool_decide (c ∈ [41; 42; 43; 63; 123; 124; 125; 93]) then None else Some (single c, n, s')
      | [] => None
      end
  end.

(** The pattern of a source; three calls at most for every character of it. *)
Definition parse (source : jsstring) : option re :=
  match pAlt (3 * length source + 3) 0 source with
  | Some (r, _, []) => Some r
  | _ => None
  end.

(** A pattern with its flags; a source that is none would throw when the module
    is loaded, and matches nothing here. *)
Record regex := mkRegex { r_flags : flags; r_source : jsstring; r_re : re }.

Definition RNever : re := RClass false [].

Definition mk (fl : flags) (source : jsstring) : regex := mkRegex fl source (default RNever (parse source)).

Definition F_ : flags := mkFlags false false false.
Definition Fi : flags := mkFlags true false false.
Definition Fu : flags := mkFlags false false true.
Definition Fiu : flags := mkFlags true false true.
Definition Fm : flags := mkFlags false true false.
Definition Fim : flags := mkFlags true true false.

Definition parses (r : regex) : bool := bool_decide (is_Some (parse (r_source r))).

(** ** Matching *)

(** What is before the position (nearest first), what is after it, and the
    captures that are set. *)
Record mstate := mkState { before : list Z; after : list Z; caps : list (nat * jsstring) }.

Definition start (s : jsstring) : mstate := mkState [] s [].

Definition isHigh (c : Z) : bool := between 55296 56319 c.
Definition isLow (c : Z) : bool := between 56320 57343 c.
Definition pairOf (h l : Z) : Z := (h - 55296) * 1024 + (l - 56320) + 65536.

(** The next character, its units and what follows; with u a surrogate pair is one. *)
Definition readChar (u : bool) (s : list Z) : option (Z * list Z * list Z) :=
  match s with
  | [] => None
  | h :: s' =>
      match s' with
      | l :: s'' => if u && isHigh h && isLow l then Some (pairOf h l, [h; l], s'') else Some (h, [h], s')
      | [] => Some (h, [h], s')
      end
  end.

(** The character before the position. *)
Definition readBack (u : bool) (b : list Z) : option Z :=
  match b with
  | [] => None
  | l :: h :: _ => Some (if u && isHigh h && isLow l then pairOf h l else l)
  | [c] => Some c
  end.

Definition isWordAscii (c : Z) : bool := between 48 57 c || between 65 90 c || between 97 122 c || (c =? 95).

Definition isLineTerminator (c : Z) : bool := (c =? 10) || (c =? 13) || (c =? 8232) || (c =? 8233).

(** The characters of a range. *)
Definition rangeOf (lo hi : Z) : list Z := (λ n, lo + Z.of_nat n) <$> seq 0 (Z.to_nat (hi - lo + 1)).

(** Advances over the next character. *)
Definition advance (u : bool) (x : mstate) : option mstate :=
  match readChar u (after x) with
  | Some (_, w, s) => Some (mkState (rev w ++ before x) s (caps x))
  | None => None
  end.

Definition setCaps (c : list (nat * jsstring)) (x : mstate) : mstate := mkState (before x) (after x) c.

(** The captures of these groups become undefined. *)
Definition clear (gs : list nat) (x : mstate) : mstate := setCaps (filter (λ c, c.1 ∉ gs) (caps x)) x.

(** The text between two positions. *)
Definition textBetween (x y : mstate) : jsstring := take (length (after x) - length (after y)) (after x).

Definition capture (i : nat) (x y : mstate) : mstate :=
  setCaps ((i, textBetween x y) :: filter (λ c, c.1 ≠ i) (caps y)) y.

Definition group (i : nat) (x : mstate) : option jsstring := snd <$> find (λ c, bool_decide (c.1 = i)) (caps x).

Fixpoint groups (r : re) : list nat :=
  match r with
  | RSeq r1 r2 | RAlt r1 r2 => groups r1 ++ groups r2
  | RRep _ _ _ r | RLook _ r => groups r
  | RGroup i r => i :: groups r
  | _ => []
  end.

Section Matcher.
Context `{Unicode}.
Variable fl : flags.

(** [Canonicalize] gives both characters one form. *)
Definition sameChar (a c : Z) : bool :=
  if negb (f_i fl) then a =? c
  else if isAscii a && isAscii c then asciiUpper a =? asciiUpper c
  else if f_u fl then
    (if isAscii a then asciiLower a else u_fold a) =? (if isAscii c then asciiLower c else u_fold c)
  else if isAscii a || isAscii c then false
  else u_upper a =? u_upper c.

Definition inProperty (p : property) (c : Z) : bool :=
  if isAscii c then
    match p with
    | Letter => between 65 90 c || between 97 122 c
    | Number => between 48 57 c
    | Format => false
    end
  else u_property p (f_i fl) c.

(** [\w], which with i and u has the characters that fold to one of it. *)
Definition isWord (c : Z) : bool :=
  isWordAscii c
  || (f_i fl && f_u fl && existsb (λ a, sameChar a c) (rangeOf 97 122)).

Definition inEscape (e : escape) (c : Z) : bool :=
  match e with
  | ESpace => js_whitespace c
  | EDigit => between 48 57 c
  | EWord => isWord c
  | EProp p => inProperty p c
  end.

Definition inItem (i : item) (c : Z) : bool :=
  match i with
  | IRange lo hi => if f_i fl then existsb (λ a, sameChar a c) (rangeOf lo hi) else between lo hi c
  | IEsc neg e => xorb neg (inEscape e c)
  end.

Definition inClass (neg : bool) (l : list item) (c : Z) : bool := xorb neg (existsb (λ i, inItem i c) l).

(** One character that satisfies [p]. *)
Definition oneChar (p : Z → bool) (x : mstate) : option mstate :=
  match readChar (f_u fl) (after x) with
  | Some (c, w, s) => if p c then Some (mkState (rev w ++ before x) s (caps x)) else None
  | None => None
  end.

Definition wordAt (o : option Z) : bool := match o with Some c => isWord c | None => false end.

(** The matches of a repetition with a given matcher of its body. *)
Fixpoint rep (body : (mstate → option mstate) → mstate → option mstate) (gs : list nat) (greedy : bool)
    (fuel lo : nat) (hi : option nat) (k : mstate → option mstate) (x : mstate) : option mstate :=
  match fuel with
  | O => None
  | S fuel' =>
      if bool_decide (hi = Some 0%nat) then k x else
      let next y :=
        if (lo =? 0)%nat && (length (after y) =? length (after x))%nat then None
        else rep body gs greedy fuel' (lo - 1) (pred <$> hi) k y in
      let more := body next (clear gs x) in
      if (0 <? lo)%nat then more
      else if greedy then match more with Some z => Some z | None => k x end
      else match k x with Some z => Some z | None => more end
  end.

(** Every pass reaches one of the required iterations or advances. *)
Definition repFuel (lo : nat) (x : mstate) : nat := S (lo + length (after x)).

Fixpoint sameText (w s : list Z) : option (list Z * list Z) :=
  match w, s with
  | [], _ => Some ([], s)
  | a :: w', c :: s' => if sameChar a c then (λ p, (c :: p.1, p.2)) <$> sameText w' s' else None
  | _, [] => None
  end.

Fixpoint m (r : re) (k : mstate → option mstate) (x : mstate) : option mstate :=
  match r with
  | REmpty => k x
  | RClass neg l => match oneChar (inClass neg l) x with Some y => k y | None => None end
  | RDot => match oneChar (λ c, negb (isLineTerminator c)) x with Some y => k y | None => None end
  | RSeq r1 r2 => m r1 (m r2 k) x
  | RAlt r1 r2 => match m r1 k x with Some z => Some z | None => m r2 k x end
  | RRep greedy lo hi r => rep (m r) (groups r) greedy (repFuel lo x) lo hi k x
  | RGroup i r => m r (λ y, k (capture i x y)) x
  | RRef i =>
      match group i x with
      | None => k x
      | Some w =>
          match sameText w (after x) with
          | Some (t, s) => k (mkState (rev t ++ before x) s (caps x))
          | None => None
          end
      end
  | RStart =>
      if bool_decide (before x = []) || f_m fl && match before x with c :: _ => isLineTerminator c | [] => true end
      then k x else None
  | REnd =>
      if bool_decide (after x = []) || f_m fl && match after x with c :: _ => isLineTerminator c | [] => true end
      then k x else None
  | RWordBoundary => if xorb (wordAt (head (before x))) (wordAt (head (after x))) then k x else None
  | RLook neg r =>
      match m r Some x with
      | Some y => if neg then None else k (setCaps (caps y) x)
      | None => if neg then k x else None
      end
  | RBehind neg (b, l) =>
      if xorb neg match readBack (f_u fl) (before x) with Some c => inClass b l c | None => false end
      then k x else None
  end.

(** What a pattern matches: from [x] to [y]. *)
Inductive reps (R : mstate → mstate → Prop) (gs : list nat) : nat → option nat → mstate → mstate → Prop :=
| reps_none lo hi x : lo = 0%nat ∨ hi = Some 0%nat → reps R gs lo hi x x
| reps_more lo hi x y z :
    hi ≠ Some 0%nat → R (clear gs x) y → (lo = 0%nat → length (after y) ≠ length (after x)) →
    reps R gs (lo - 1) (pred <$> hi) y z → reps R gs lo hi x z.

Fixpoint run (r : re) (x y : mstate) : Prop :=
  match r with
  | REmpty => y = x
  | RClass neg l => oneChar (inClass neg l) x = Some y
  | RDot => oneChar (λ c, negb (isLineTerminator c)) x = Some y
  | RSeq r1 r2 => ∃ z, run r1 x z ∧ run r2 z y
  | RAlt r1 r2 => run r1 x y ∨ run r2 x y
  | RRep _ lo hi r => reps (run r) (groups r) lo hi x y
  | RGroup i r => ∃ z, run r x z ∧ y = capture i x z
  | RRef i =>
      match group i x with
      | None => y = x
      | Some w => ∃ t s, sameText w (after x) = Some (t, s) ∧ y = mkState (rev t ++ before x) s (caps x)
      end
  | RStart => y = x ∧ (before x = [] ∨ f_m fl = true ∧ ∃ c, head (before x) = Some c ∧ isLineTerminator c = true)
  | REnd => y = x ∧ (after x = [] ∨ f_m fl = true ∧ ∃ c, head (after x) = Some c ∧ isLineTerminator c = true)
  | RWordBoundary => y = x ∧ wordAt (head (before x)) ≠ wordAt (head (after x))
  | RLook neg r =>
      if neg then y = x ∧ m r Some x = None else ∃ z, m r Some x = Some z ∧ y = setCaps (caps z) x
  | RBehind neg (b, l) =>
      y = x ∧ xorb neg match readBack (f_u fl) (before x) with Some c => inClass b l c | None => false end = true
  end.
End Matcher.

(** ** The methods of strings *)

Section Methods.
Context `{Unicode}.

(** The first match at or after the position: where it starts and where it ends. *)
Fixpoint search (fuel : nat) (r : regex) (x : mstate) : option (mstate * mstate) :=
  match fuel with
  | O => None
  | S fuel' =>
      let x0 := setCaps [] x in
      match m (r_flags r) (r_re r) Some x0 with
      | Some y => Some (x0, y)
      | None => match advance (f_u (r_flags r)) x0 with Some x' => search fuel' r x' | None => None end
      end
  end.

Definition find (r : regex) (x : mstate) : option (mstate * mstate) := search (S (length (after x))) r x.

Record match_ := mkMatch { m_index : Z; m_text : jsstring; m_end : mstate }.

Definition matchOf (p : mstate * mstate) : match_ :=
  mkMatch (Z.of_nat (length (before p.1))) (textBetween p.1 p.2) p.2.

Definition m_group (i : nat) (x : match_) : option jsstring := group i (m_end x).

(** [r.exec(s)] and [r.test(s)]. *)
Definition exec (r : regex) (s : jsstring) : option match_ := matchOf <$> find r (start s).
Definition test (r : regex) (s : jsstring) : bool := bool_decide (is_Some (find r (start s))).

(** The position from which the search goes on after a match. *)
Definition afterMatch (u : bool) (p : mstate * mstate) : option mstate :=
  if (length (after p.2) =? length (after p.1))%nat then advance u p.2 else Some p.2.

Fixpoint matches (fuel : nat) (r : regex) (x : mstate) : list match_ :=
  match fuel with
  | O => []
  | S fuel' =>
      match find r x with
      | None => []
      | Some p =>
          matchOf p :: match afterMatch (f_u (r_flags r)) p with
                       | Some x' => matches fuel' r x'
                       | None => []
                       end
      end
  end.

(** [s.matchAll(r)], with the flag g. *)
Definition matchAll (r : regex) (s : jsstring) : list match_ := matches (S (length s)) r (start s).

(** [s.replace(r, f)] with the flag g: what is before a match, its replacement,
    and the rest. *)
Fixpoint replaceFrom (fuel : nat) (r : regex) (f : match_ → jsstring) (x : mstate) : jsstring :=
  match fuel with
  | O => after x
  | S fuel' =>
      match find r x with
      | None => after x
      | Some p =>
          textBetween x p.1 ++ f (matchOf p)
          ++ match afterMatch (f_u (r_flags r)) p with
             | Some x' => textBetween p.2 x' ++ replaceFrom fuel' r f x'
             | None => []
             end
      end
  end.

Definition replaceAll (r : regex) (f : match_ → jsstring) (s : jsstring) : jsstring :=
  replaceFrom (S (length s)) r f (start s).

(** Without the flag g only the first match is replaced. *)
Definition replaceFirst (r : regex) (f : match_ → jsstring) (s : jsstring) : jsstring :=
  match find r (start s) with
  | None => s
  | Some p => textBetween (start s) p.1 ++ f (matchOf p) ++ after p.2
  end.

(** [s.split(r)] for a pattern without groups that matches no empty text. *)
Fixpoint splitFrom (fuel : nat) (r : regex) (x : mstate) : list jsstring :=
  match fuel with
  | O => [after x]
  | S fuel' =>
      match find r x with
      | None => [after x]
      | Some p => textBetween x p.1 :: splitFrom fuel' r p.2
      end
  end.

Definition split (r : regex) (s : jsstring) : list jsstring := splitFrom (S (length s)) r (start s).
End Methods.

(** ** The matcher finds a match exactly when there is one *)

Section Correct.
Context `{Unicode}.
Variable fl : flags.
Notation m := (m fl).
Notation run := (run fl).

Lemma readChar_app u s c w s' : readChar u s = Some (c, w, s') → s = w ++ s' ∧ w ≠ [].
Proof.
  unfold readChar. destruct s as [|h [|l s2]]; [done|by intros [= <- <- <-]|].
  destruct (_ && _); by intros [= <- <- <-].
Qed.

Lemma oneChar_app p x y :
  oneChar fl p x = Some y → ∃ c w, readChar (f_u fl) (after x) = Some (c, w, after y) ∧ p c = true
    ∧ y = mkState (rev w ++ before x) (after y) (caps x).
Proof.
  unfold oneChar. destruct (readChar _ _) as [[[c w] s]|] eqn:E; [|done].
  destruct (p c) eqn:Ep; [|done]. intros [= <-]. by exists c, w.
Qed.

Lemma sameText_app w s t s' : sameText fl w s = Some (t, s') → s = t ++ s' ∧ length t = length w.
Proof.
  revert s t s'. induction w as [|a w IH]; intros s t s'; cbn [sameText]; [by intros [= <- <-]|].
  destruct s as [|c s]; [done|]. destruct (sameChar fl a c); [|done].
  destruct (sameText fl w s) as [[t0 s0]|] eqn:E; [|done]. intros [= <- <-].
  destruct (IH _ _ _ E) as [-> Hl]. simpl. by rewrite Hl.
Qed.

(** ** What a run consumes *)

(** From [x] to [y] by reading forward. *)
Definition reads (x y : mstate) : Prop := ∃ w, after x = w ++ after y ∧ before y = rev w ++ before x.

#[global] Instance reads_po : PreOrder reads.
Proof.
  split; [intros x; by exists []|]. intros x y z (w & E & B) (w' & E' & B'). exists (w ++ w').
  by rewrite E, E', B', B, rev_app_distr, !app_assoc.
Qed.

Lemma reads_le x y : reads x y → (length (after y) ≤ length (after x))%nat.
Proof. intros (w & -> & _). rewrite length_app. lia. Qed.

Lemma oneChar_reads p x y : oneChar fl p x = Some y → reads x y.
Proof.
  intros (c & w & Hr & _ & E)%oneChar_app. exists w. apply readChar_app in Hr as [Hr _]. split; [done|]. by rewrite E.
Qed.

Lemma reps_reads R gs lo hi x y : (∀ x y, R x y → reads x y) → reps R gs lo hi x y → reads x y.
Proof.
  intros HR. induction 1 as [lo hi x Hs|lo hi x y z Hh Hxy _ _ IH]; [done|].
  etransitivity; [|exact IH]. exact (HR _ _ Hxy).
Qed.

Lemma run_reads r x y : run r x y → reads x y.
Proof.
  revert x y. induction r as [|b l| |r1 IH1 r2 IH2|r1 IH1 r2 IH2|g lo hi r IH|i r IH|i| | | |neg r IH|neg [b l]];
    intros x y; cbn [JsRegex.run].
  - by intros ->.
  - apply oneChar_reads.
  - apply oneChar_reads.
  - intros (z & ?%IH1 & ?%IH2). by etransitivity.
  - intros [?%IH1|?%IH2]; done.
  - by apply reps_reads.
  - intros (z & Hz%IH & ->). exact Hz.
  - destruct (group i x) as [w|]; [|by intros ->]. intros (t & s & [E _]%sameText_app & ->). by exists t.
  - by intros [-> _].
  - by intros [-> _].
  - by intros [-> _].
  - destruct neg; [by intros [-> _]|]. intros (z & _ & ->). by exists [].
  - by intros [-> _].
Qed.

(** ** Soundness and completeness *)

Definition sound (body : (mstate → option mstate) → mstate → option mstate) (R : mstate → mstate → Prop) : Prop :=
  ∀ k x z, body k x = Some z → ∃ y, R x y ∧ k y = Some z.

Definition complete (body : (mstate → option mstate) → mstate → option mstate) (R : mstate → mstate → Prop) : Prop :=
  ∀ k x y, R x y → is_Some (k y) → is_Some (body k x).

Lemma rep_sound body R gs g fuel lo hi :
  sound body R → sound (rep body gs g fuel lo hi) (reps R gs lo hi).
Proof.
  intros Hb. revert lo hi. induction fuel as [|fuel IH]; intros lo hi k x z; cbn [rep]; [done|].
  case_bool_decide as Hh; [intros Hk; exists x; split; [apply reps_none; by right|done]|].
  set (next := λ y, _). assert (∀ z, body next (clear gs x) = Some z → ∃ y, reps R gs lo hi x y ∧ k y = Some z) as Hmore.
  { intros z' (y & Hxy & Hn)%Hb. unfold next in Hn.
    destruct ((lo =? 0)%nat && (length (after y) =? length (after x))%nat) eqn:Ep; [done|].
    apply IH in Hn as (y' & Hy & Hk). exists y'. split; [|done]. eapply reps_more; [done|done| |done].
    intros El E. by rewrite El, E, !Nat.eqb_refl in Ep. }
  destruct (0 <? lo)%nat eqn:El; [apply Hmore|].
  assert (∀ z, k x = Some z → ∃ y, reps R gs lo hi x y ∧ k y = Some z) as Hstop.
  { intros z' Hk. exists x. split; [|done]. apply reps_none. left. apply Nat.ltb_ge in El. lia. }
  destruct g.
  - destruct (body next (clear gs x)) eqn:E; [intros [= <-]; by apply Hmore|apply Hstop].
  - destruct (k x) eqn:E; [intros [= <-]; by apply Hstop|apply Hmore].
Qed.

Lemma rep_complete body R gs g lo hi x y k fuel :
  complete body R → (∀ x y, R x y → reads x y) → reps R gs lo hi x y → is_Some (k y) →
  (lo + length (after x) < fuel)%nat → is_Some (rep body gs g fuel lo hi k x).
Proof.
  intros Hb HR Hr Hk. revert fuel. induction Hr as [lo hi x Hs|lo hi x y z Hh Hxy Hp Hyz IH]; intros fuel Hf;
    (destruct fuel as [|fuel]; [lia|]); cbn [rep].
  - case_bool_decide; [done|]. destruct Hs as [->|]; [|done]. cbn [Nat.ltb Nat.leb].
    destruct g; [by destruct (body _ _)|]. destruct Hk as [z ->]. done.
  - rewrite bool_decide_false by done.
    pose proof (reads_le _ _ (HR _ _ Hxy)) as Hle. cbn [clear setCaps after] in Hle.
    set (next := λ y, _). assert (is_Some (body next (clear gs x))) as [w Hw].
    { apply (Hb _ _ y); [done|]. unfold next.
      assert ((lo =? 0)%nat && (length (after y) =? length (after x))%nat = false) as ->.
      { apply andb_false_iff. destruct (Nat.eqb_spec lo 0) as [E0|E0]; [right|by left]. apply Nat.eqb_neq. auto. }
      apply IH; [done|]. destruct (Nat.eq_dec lo 0%nat) as [E0|E0]; [specialize (Hp E0)|]; lia. }
    destruct (0 <? lo)%nat; [by eexists|]. rewrite Hw. destruct g; [by eexists|]. destruct (k x); by eexists.
Qed.

Lemma xorb_neq a b : xorb a b = true ↔ a ≠ b.
Proof. by destruct a, b. Qed.

Lemma anchor_iff (l : list Z) :
  bool_decide (l = []) || f_m fl && match l with c :: _ => isLineTerminator c | [] => true end = true
  ↔ l = [] ∨ f_m fl = true ∧ ∃ c, head l = Some c ∧ isLineTerminator c = true.
Proof.
  rewrite orb_true_iff, bool_decide_eq_true, andb_true_iff. destruct l as [|c l]; [by split; left|].
  split; (intros [?|[Hm Hc]]; [done|right; split; [done|]]); [by exists c|]. by destruct Hc as (? & [= <-] & Hc).
Qed.

Lemma m_sound r : sound (m r) (run r).
Proof.
  induction r as [|b l| |r1 IH1 r2 IH2|r1 IH1 r2 IH2|g lo hi r IH|i r IH|i| | | |neg r IH|neg [b l]];
    intros k x z; cbn [JsRegex.m JsRegex.run].
  - intros Hk. by exists x.
  - destruct (oneChar _ _ _) as [y|]; [|done]. intros Hk. by exists y.
  - destruct (oneChar _ _ _) as [y|]; [|done]. intros Hk. by exists y.
  - intros (y & Hy & (y' & Hy' & Hk)%IH2)%IH1. exists y'. split; [|done]. by exists y.
  - destruct (m r1 k x) eqn:E.
    + intros [= <-]. apply IH1 in E as (y & Hy & Hk). exists y. by auto.
    + intros (y & Hy & Hk)%IH2. exists y. by auto.
  - by apply rep_sound.
  - intros (y & Hy & Hk)%IH. eexists. split; [by exists y|done].
  - destruct (group i x) as [w|]; [|intros Hk; by exists x].
    destruct (sameText fl w (after x)) as [[t s]|]; [|done]. intros Hk. eexists. split; [by exists t, s|done].
  - destruct (_ || _) eqn:E; [|done]. intros Hk. exists x. by rewrite <-anchor_iff.
  - destruct (_ || _) eqn:E; [|done]. intros Hk. exists x. by rewrite <-anchor_iff.
  - destruct (xorb _ _) eqn:E; [|done]. intros Hk. exists x. by rewrite <-xorb_neq.
  - destruct (m r Some x) as [y|] eqn:E, neg; try done; intros Hk; (eexists; split; [|exact Hk]); [by exists y|done].
  - destruct (xorb _ _); [|done]. intros Hk. by exists x.
Qed.

Lemma m_complete r : complete (m r) (run r).
Proof.
  induction r as [|b l| |r1 IH1 r2 IH2|r1 IH1 r2 IH2|g lo hi r IH|i r IH|i| | | |neg r IH|neg [b l]];
    intros k x y; cbn [JsRegex.m JsRegex.run].
  - by intros ->.
  - by intros ->.
  - by intros ->.
  - intros (z & Hz & Hy) Hk. by eapply IH1, IH2.
  - intros [Hy|Hy] Hk; [destruct (IH1 k _ _ Hy Hk) as [z ->]; by eexists|].
    destruct (m r1 k x); [by eexists|]. by eapply IH2.
  - intros Hr Hk. eapply rep_complete; [exact IH|apply run_reads|done|done|unfold repFuel; lia].
  - intros (z & Hz & ->) Hk. by eapply IH.
  - destruct (group i x) as [w|]; [|by intros ->]. by intros (t & s & -> & ->).
  - intros [-> Ha] Hk. by rewrite (proj2 (anchor_iff _)).
  - intros [-> Ha] Hk. by rewrite (proj2 (anchor_iff _)).
  - intros [-> Ha] Hk. by rewrite (proj2 (xorb_neq _ _)).
  - destruct neg; [by intros [-> ->]|]. by intros (z & -> & ->).
  - intros [-> ->]. done.
Qed.

Lemma match_iff r k x : is_Some (m r k x) ↔ ∃ y, run r x y ∧ is_Some (k y).
Proof.
  split.
  - intros [z (y & Hy & Hk)%m_sound]. exists y. split; [done|by eexists].
  - intros (y & Hy & Hk). by eapply m_complete.
Qed.
End Correct.

(** ** The string methods *)

Section MethodLemmas.
Context `{Unicode}.
Notation uOf r := (f_u (r_flags r)).

(** One character further. *)
Definition step (u : bool) (x y : mstate) : Prop := advance u x = Some y.

Lemma advance_reads u x y : advance u x = Some y → reads x y ∧ (length (after y) < length (after x))%nat ∧ caps y = caps x.
Proof.
  unfold advance. destruct (readChar u (after x)) as [[[c w] s]|] eqn:E; [|done]. intros [= <-].
  apply readChar_app in E as [E Hw]. split_and!; [by exists w| |done]. cbn [after]. rewrite E, length_app.
  destruct w; [done|]. simpl. lia.
Qed.

Lemma steps_reads u x y : rtc (step u) x y → reads x y ∧ caps y = caps x.
Proof.
  induction 1 as [x|x y z Hxy _ [IH Ec]]; [by split; [exists []|]|].
  apply advance_reads in Hxy as (Hr & _ & E). split; [by etransitivity|congruence].
Qed.

(** Some character position at or after [x] starts a match. *)
Definition occurs (r : regex) (x : mstate) : Prop :=
  ∃ x0 y, rtc (step (uOf r)) (setCaps [] x) x0 ∧ run (r_flags r) (r_re r) x0 y.

Lemma search_some fuel r x x0 y :
  search fuel r x = Some (x0, y) →
  rtc (step (uOf r)) (setCaps [] x) x0 ∧ m (r_flags r) (r_re r) Some x0 = Some y.
Proof.
  revert x. induction fuel as [|fuel IH]; intros x; cbn [search]; [done|].
  destruct (m _ _ _ (setCaps [] x)) as [y'|] eqn:E; [by intros [= <- <-]|].
  destruct (advance _ (setCaps [] x)) as [x'|] eqn:Ea; [|done]. intros [Hr Hm]%IH. split; [|done].
  eapply rtc_l; [exact Ea|]. apply advance_reads in Ea as (_ & _ & Ec). cbn [setCaps caps] in Ec.
  destruct x' as [b a c]. cbn [caps] in Ec. by subst c.
Qed.

Lemma search_none fuel r x :
  (length (after x) < fuel)%nat → search fuel r x = None → ¬ occurs r x.
Proof.
  revert x. induction fuel as [|fuel IH]; intros x Hf; cbn [search]; [lia|].
  destruct (m _ _ _ (setCaps [] x)) as [y'|] eqn:E; [done|].
  assert (∀ y, ¬ run (r_flags r) (r_re r) (setCaps [] x) y) as Hno.
  { intros y Hy. assert (is_Some (m (r_flags r) (r_re r) Some (setCaps [] x))) as [? ?]; [|congruence].
    apply match_iff. by exists y. }
  destruct (advance _ (setCaps [] x)) as [x'|] eqn:Ea.
  - pose proof (advance_reads _ _ _ Ea) as (_ & Hl & Ec). cbn [setCaps after caps] in *.
    intros Hs (x0 & y & Hst & Hr). apply IH in Hs; [|lia]. destruct Hs. exists x0, y. split; [|done].
    inversion Hst as [|? x1 ? H1]; subst; [by apply Hno in Hr|]. unfold step in H1. rewrite Ea in H1.
    injection H1 as <-. destruct x' as [b a c]. cbn [caps] in Ec. by subst c.
  - intros _ (x0 & y & Hst & Hr). inversion Hst as [|? x1 ? H1]; subst; [by apply Hno in Hr|].
    unfold step in H1. by rewrite Ea in H1.
Qed.

(** What [find] finds: the pattern, read forward from a position after [x]. *)
Lemma find_some r x x0 y :
  find r x = Some (x0, y) →
  reads x x0 ∧ reads x0 y ∧ caps x0 = [] ∧ run (r_flags r) (r_re r) x0 y.
Proof.
  intros [Hs Hm]%search_some. apply m_sound in Hm as (y' & Hr & [= <-]).
  apply steps_reads in Hs as [Hx Ec]. split_and!; [done|by eapply run_reads|done|done].
Qed.

Lemma find_iff r x : is_Some (find r x) ↔ occurs r x.
Proof.
  unfold find. split.
  - intros [[x0 y] Hs]. apply search_some in Hs as [Hs Hm]. apply m_sound in Hm as (y' & Hr & _). by exists x0, y'.
  - intros Ho. destruct (search _ r x) as [p|] eqn:E; [by eexists|]. by apply search_none in E; [|lia].
Qed.

(** [r.test(s)]. *)
Lemma test_iff r s : test r s = true ↔ occurs r (start s).
Proof. unfold test. rewrite bool_decide_eq_true. apply find_iff. Qed.

Lemma test_false r s : test r s = false ↔ ¬ occurs r (start s).
Proof. rewrite <-test_iff. by destruct (test r s). Qed.

Lemma textBetween_reads x y w : after x = w ++ after y → textBetween x y = w.
Proof.
  intros E. unfold textBetween. rewrite E, length_app.
  replace (length w + length (after y) - length (after y))%nat with (length w) by lia. apply take_app_length.
Qed.

(** An invariant of replacing all matches, between the text and the result. *)
Lemma replace_ind (P : list Z → list Z → Prop) r f s :
  (∀ t, P t t) →
  (∀ w t o, P t o → P (w ++ t) (w ++ o)) →
  (∀ x y t o, caps x = [] → run (r_flags r) (r_re r) x y → reads x y → after y = t →
     P t o → P (after x) (f (matchOf (x, y)) ++ o)) →
  P s (replaceAll r f s).
Proof.
  intros Hid Hcopy Hrep. unfold replaceAll. change s with (after (start s)) at 1.
  generalize (S (length s)) as fuel, (start s) as x. intros fuel. induction fuel as [|fuel IH]; intros x; cbn [replaceFrom]; [apply Hid|].
  destruct (find r x) as [[x0 y]|] eqn:E; [|apply Hid].
  apply find_some in E as ((w & Ew & _) & Hr & Hc & Hrun). cbn [fst snd]. rewrite (textBetween_reads _ _ w Ew), Ew.
  apply Hcopy. eapply Hrep; [done..|]. unfold afterMatch. cbn [fst snd].
  destruct (_ =? _)%nat.
  - destruct (advance _ y) as [x'|] eqn:Ea.
    + apply advance_reads in Ea as ((v & Ev & _) & _). rewrite (textBetween_reads _ _ v Ev), Ev. by apply Hcopy.
    + unfold advance in Ea. destruct (readChar _ _) as [[[? ?] ?]|] eqn:Er; [done|].
      unfold readChar in Er. destruct (after y) as [|h [|l t]]; [apply Hid|done|by destruct (_ && _)].
  - unfold textBetween. rewrite Nat.sub_diag. cbn [take app]. apply IH.
Qed.
End MethodLemmas.

(** ** Captures *)

Fixpoint lookFree (r : re) : bool :=
  match r with
  | RSeq r1 r2 | RAlt r1 r2 => lookFree r1 && lookFree r2
  | RRep _ _ _ r | RGroup _ r => lookFree r
  | RLook _ _ => false
  | _ => true
  end.

Section Captures.
Context `{Unicode}.
Variable fl : flags.

(** Every capture that a run sets is part of what it read. *)
Definition capsFrom (x y : mstate) : Prop :=
  ∃ w, after x = w ++ after y ∧ ∀ i c, (i, c) ∈ caps y → (i, c) ∈ caps x ∨ infix c w.

Lemma capsFrom_refl x y : after x = after y → caps y ⊆ caps x → capsFrom x y.
Proof. intros E Hs. exists []. split; [done|]. intros i c Hin. left. by apply Hs. Qed.

Lemma capsFrom_trans x y z : capsFrom x y → capsFrom y z → capsFrom x z.
Proof.
  intros (w & E & Hw) (v & E' & Hv). exists (w ++ v). rewrite E, E', app_assoc. split; [done|].
  intros i c [[Hin|Hin]%Hw|Hin]%Hv; [by left| |]; right.
  - by apply infix_app_r.
  - by apply infix_app_l.
Qed.

Lemma reads_capsFrom x y : reads x y → caps y = caps x → capsFrom x y.
Proof. intros (w & E & _) Ec. exists w. split; [done|]. intros i c. rewrite Ec. by left. Qed.

Lemma oneChar_caps p x y : oneChar fl p x = Some y → capsFrom x y.
Proof.
  intros Ho. apply reads_capsFrom; [by eapply oneChar_reads|]. apply oneChar_app in Ho as (? & ? & _ & _ & ->). done.
Qed.

Lemma run_caps r x y : lookFree r = true → run fl r x y → capsFrom x y.
Proof.
  revert x y. induction r as [|b l| |r1 IH1 r2 IH2|r1 IH1 r2 IH2|g lo hi r IH|i r IH|i| | | |neg r IH|neg [b l]];
    intros x y; cbn [JsRegex.run lookFree].
  - intros _ ->. by apply capsFrom_refl.
  - intros _. apply oneChar_caps.
  - intros _. apply oneChar_caps.
  - intros [? ?]%andb_true_iff (z & ?%IH1 & ?%IH2); [|done..]. by eapply capsFrom_trans.
  - intros [? ?]%andb_true_iff [?%IH1|?%IH2]; done.
  - intros Hl Hr. induction Hr as [lo hi x Hs|lo hi x y z Hh Hxy _ _ IHr]; [by apply capsFrom_refl|].
    eapply capsFrom_trans; [|exact IHr]. apply IH in Hxy as (w & E & Hw); [|done]. exists w. split; [done|].
    intros j c [Hin|Hin]%Hw; [left|by right]. cbn [clear setCaps caps] in Hin. by apply list_elem_of_filter in Hin as [_ ?].
  - intros Hl (z & Hz%IH & ->); [|done]. destruct Hz as (w & E & Hw). exists w. split; [done|].
    intros j c. cbn [capture setCaps caps]. rewrite elem_of_cons. intros [[= -> ->]|Hin].
    + right. by rewrite (textBetween_reads _ _ w E).
    + apply list_elem_of_filter in Hin as [_ Hin]. by apply Hw.
  - intros _. destruct (group i x) as [w|]; [|intros ->; by apply capsFrom_refl].
    intros (t & s & [E _]%sameText_app & ->). apply reads_capsFrom; [by exists t|done].
  - intros _ [-> _]. by apply capsFrom_refl.
  - intros _ [-> _]. by apply capsFrom_refl.
  - intros _ [-> _]. by apply capsFrom_refl.
  - done.
  - intros _ [-> _]. by apply capsFrom_refl.
Qed.

Lemma group_elem i x c : group i x = Some c → (i, c) ∈ caps x.
Proof.
  unfold group. destruct (List.find _ _) as [[j d]|] eqn:E; [|done]. cbn. intros [= <-].
  apply List.find_some in E as [Hin Hj]. apply bool_decide_eq_true in Hj. cbn in Hj. subst j. by apply list_elem_of_In.
Qed.
End Captures.

(** ** Replacing runs of characters

    [replace(/[...]+/g, w)] puts [w] for every longest run of characters of the
    class. *)

Fixpoint chars (u : bool) (s : list Z) : list (Z * list Z) :=
  match s with
  | [] => []
  | h :: s' =>
      match s' with
      | l :: s'' => if u && isHigh h && isLow l then (pairOf h l, [h; l]) :: chars u s'' else (h, [h]) :: chars u s'
      | [] => [(h, [h])]
      end
  end.

Definition unitsOf (l : list (Z * list Z)) : list Z := concat l.*2.

Fixpoint collapse (p : Z → bool) (w : list Z) (inRun : bool) (l : list (Z * list Z)) : list Z :=
  match l with
  | [] => []
  | (c, us) :: l' =>
      if p c then (if inRun then [] else w) ++ collapse p w true l' else us ++ collapse p w false l'
  end.

Definition runs (lo : nat) (neg : bool) (l : list item) : re := RRep true lo None (RClass neg l).

(** The longest run at the head. *)
Fixpoint takeRun (p : Z → bool) (l : list (Z * list Z)) : list (Z * list Z) :=
  match l with
  | [] => []
  | (c, w) :: l' => if p c then (c, w) :: takeRun p l' else []
  end.

Section Runs.
Context `{Unicode}.

Lemma chars_read u s :
  chars u s = match readChar u s with Some (c, w, s') => (c, w) :: chars u s' | None => [] end.
Proof. destruct s as [|h [|l s]]; [done|done|]. cbn [chars readChar]. by destruct (u && isHigh h && isLow l). Qed.

Lemma unitsOf_app l l' : unitsOf (l ++ l') = unitsOf l ++ unitsOf l'.
Proof. unfold unitsOf. by rewrite fmap_app, concat_app. Qed.

Lemma unitsOf_chars u s : unitsOf (chars u s) = s.
Proof.
  induction s as [s IH] using (induction_ltof1 _ length). rewrite chars_read.
  destruct (readChar u s) as [[[c w] s']|] eqn:E.
  - apply readChar_app in E as [-> Hw]. unfold unitsOf. cbn [fmap list_fmap concat snd]. f_equal. apply IH.
    unfold ltof. rewrite length_app. destruct w; [done|]. simpl. lia.
  - by destruct s as [|h [|l s]]; simpl in E; [|discriminate|destruct (_ && _)].
Qed.

(** From [x] to [y] by the characters [ds]. *)
Definition readsChars (u : bool) (ds : list (Z * list Z)) (x y : mstate) : Prop :=
  chars u (after x) = ds ++ chars u (after y) ∧ caps y = caps x.

Lemma readsChars_text u ds x y : readsChars u ds x y → after x = unitsOf ds ++ after y.
Proof. intros [E _]. rewrite <-(unitsOf_chars u (after x)), E, unitsOf_app. by rewrite unitsOf_chars. Qed.

Definition headNot (p : Z → bool) (l : list (Z * list Z)) : Prop := match l with (c, _) :: _ => p c = false | [] => True end.

Section Class.
Variable fl : flags.
Variable src : jsstring.
Variable neg : bool.
Variable items : list item.
Notation p := (inClass fl neg items).
Notation u := (f_u fl).
Notation body := (m fl (RClass neg items)).

Lemma oneChar_read x :
  oneChar fl p x = match readChar u (after x) with
                   | Some (c, w, s) => if p c then Some (mkState (rev w ++ before x) s (caps x)) else None
                   | None => None end.
Proof. done. Qed.

Lemma clear_none x : clear [] x = x.
Proof.
  destruct x as [b a c]. unfold clear, setCaps. cbn. f_equal.
  induction c as [|e c IH]; [done|]. rewrite filter_cons_True by set_solver. by f_equal.
Qed.

Lemma m_class k x : body k x = match oneChar fl p x with Some y => k y | None => None end.
Proof. done. Qed.

Lemma rep_S b gs g fuel lo hi k x :
  rep b gs g (S fuel) lo hi k x =
    (if bool_decide (hi = Some 0%nat) then k x else
     let next y := if (lo =? 0)%nat && (length (after y) =? length (after x))%nat then None
                   else rep b gs g fuel (lo - 1) (pred <$> hi) k y in
     let more := b next (clear gs x) in
     if (0 <? lo)%nat then more
     else if g then match more with Some z => Some z | None => k x end
     else match k x with Some z => Some z | None => more end).
Proof. done. Qed.

(** A greedy repetition reads the longest run, if it is long enough. *)
Lemma rep_longest fuel lo x :
  (lo + length (after x) < fuel)%nat →
  ∃ y, readsChars u (takeRun p (chars u (after x))) x y
    ∧ rep body [] true fuel lo None Some x
      = if (lo <=? length (takeRun p (chars u (after x))))%nat then Some y else None.
Proof.
  revert lo x. induction fuel as [|fuel IH]; intros lo x Hf; [lia|]. rewrite rep_S. cbv zeta.
  rewrite bool_decide_false, clear_none, m_class, oneChar_read by done. pose proof (chars_read u (after x)) as Hc.
  assert (readChar u (after x) = None ∨ (∃ c w s, readChar u (after x) = Some (c, w, s) ∧ p c = false) →
    ∃ y, readsChars u (takeRun p (chars u (after x))) x y
      ∧ (if (0 <? lo)%nat then None else Some x) =
        if (lo <=? length (takeRun p (chars u (after x))))%nat then Some y else None) as Hstop.
  { intros Hs. exists x. assert (takeRun p (chars u (after x)) = []) as ->.
    { rewrite Hc. destruct Hs as [->|(c & w & s & -> & Hp)]; [done|]. cbn [takeRun]. by rewrite Hp. }
    split; [done|]. by destruct lo. }
  destruct (readChar u (after x)) as [[[c w] s]|] eqn:E.
  2: { destruct (0 <? lo)%nat; apply Hstop; by left. }
  destruct (p c) eqn:Ep.
  2: { destruct (0 <? lo)%nat; apply Hstop; right; by exists c, w, s. }
  set (x' := mkState _ _ _). pose proof (readChar_app _ _ _ _ _ E) as [Ea Hw].
  assert (length (after x') < length (after x))%nat as Hl.
  { rewrite Ea. cbn [after x']. rewrite length_app. destruct w; [done|]. simpl. lia. }
  destruct (Nat.eqb_spec (length (after x')) (length (after x))) as [?|_]; [lia|]. rewrite andb_false_r.
  destruct (IH (lo - 1)%nat x') as (y & [Hy Hcaps] & Hr); [lia|]. cbn [fmap option_fmap option_map].
  exists y. rewrite Hr, Hc. cbn [takeRun]. rewrite Ep. cbn [length]. split.
  - split; [|done]. rewrite Hc. cbn [app]. f_equal. exact Hy.
  - change (after x') with s. destruct lo as [|lo]; cbn [Nat.sub Nat.leb Nat.ltb]; [done|]. by rewrite Nat.sub_0_r.
Qed.

Notation rx lo := (mkRegex fl src (runs lo neg items)).

Lemma runs_match lo x :
  ∃ y, readsChars u (takeRun p (chars u (after x))) x y
    ∧ m fl (runs lo neg items) Some x
      = if (lo <=? length (takeRun p (chars u (after x))))%nat then Some y else None.
Proof. apply rep_longest. unfold repFuel. lia. Qed.

(** The characters up to a run of [lo], where no run is as long. *)
Definition short (lo : nat) (cs l : list (Z * list Z)) : Prop :=
  ∀ a b, cs = a ++ b → b ≠ [] → (length (takeRun p (b ++ l)) < lo)%nat.

Lemma short_cons lo c cs l :
  short lo cs l → (length (takeRun p (c :: cs ++ l)) < lo)%nat → short lo (c :: cs) l.
Proof.
  intros Hs Hc [|a0 a] b E Hb; [by simpl in E; subst b|]. injection E as _ E. by apply (Hs a).
Qed.

Lemma search_runs lo fuel x :
  (length (after x) < fuel)%nat →
  match search fuel (rx lo) x with
  | Some (x0, y) => ∃ cs, after x = unitsOf cs ++ after x0
      ∧ chars u (after x) = cs ++ chars u (after x0)
      ∧ short lo cs (chars u (after x0))
      ∧ (lo <= length (takeRun p (chars u (after x0))))%nat
      ∧ readsChars u (takeRun p (chars u (after x0))) x0 y
  | None => short lo (chars u (after x)) []
  end.
Proof.
  revert x. induction fuel as [|fuel IH]; intros x Hf; [lia|]. cbn [search r_flags r_re].
  destruct (runs_match lo (setCaps [] x)) as (y & Hy & ->). cbn [setCaps after] in *.
  destruct (Nat.leb_spec lo (length (takeRun p (chars u (after x))))) as [Hlo|Hlo].
  { exists []. split_and!; [done..| |done|done]. intros a b E. by destruct a, b. }
  unfold advance. cbn [setCaps after before caps]. pose proof (chars_read u (after x)) as Hc.
  destruct (readChar u (after x)) as [[[c w] s]|] eqn:E.
  2: { rewrite Hc. intros a b E'. by destruct a, b. }
  pose proof (readChar_app _ _ _ _ _ E) as [Ea Hw].
  set (x' := mkState _ _ _). assert (length (after x') < fuel)%nat as Hl.
  { rewrite Ea, length_app in Hf. cbn [after x']. destruct w; [done|]. simpl in Hf. lia. }
  specialize (IH x' Hl). destruct (search fuel (rx lo) x') as [[x0 y0]|].
  - destruct IH as (cs & E1 & E2 & Hcs & Hlong & Hr). change (after x') with s in E1, E2.
    exists ((c, w) :: cs). split_and!; [| | |done|done].
    + rewrite Ea, E1. unfold unitsOf. cbn [fmap list_fmap concat snd]. by rewrite app_assoc.
    + rewrite Hc, E2. done.
    + apply short_cons; [done|]. by rewrite <-E2, <-Hc.
  - rewrite Hc in *. apply short_cons; [done|]. by rewrite app_nil_r.
Qed.

Lemma takeRun_all l : Forall (λ d, p d.1 = true) (takeRun p l).
Proof. induction l as [|[c w] l IH]; cbn [takeRun]; [constructor|]. destruct (p c) eqn:E; by constructor. Qed.

(** [takeRun] has no more of the class after it. *)
Lemma takeRun_next l l' : l = takeRun p l ++ l' → headNot p l'.
Proof.
  induction l as [|[c w] l IH]; cbn [takeRun app]; [by intros <-|]. destruct (p c) eqn:E; cbn [app].
  - intros [= El]. by apply IH.
  - by intros <-.
Qed.

Lemma short_one cs l : short 1 cs l → Forall (λ d, p d.1 = false) cs.
Proof.
  induction cs as [|[c w] cs IH]; intros Hs; constructor.
  - specialize (Hs [] ((c, w) :: cs) eq_refl ltac:(done)). cbn [app takeRun fst] in *. destruct (p c); [|done]. simpl in Hs. lia.
  - apply IH. intros a b -> Hb. by apply (Hs ((c, w) :: a) b).
Qed.

(** What the search for a run gives, in the characters of the text. *)
Lemma find_runs lo x :
  (0 < lo)%nat →
  match find (rx lo) x with
  | Some (x0, y) => ∃ cs ds, after x = unitsOf cs ++ after x0
      ∧ chars u (after x) = cs ++ ds ++ chars u (after y)
      ∧ short lo cs (ds ++ chars u (after y)) ∧ (lo <= length ds)%nat
      ∧ Forall (λ d, p d.1 = true) ds ∧ headNot p (chars u (after y))
      ∧ after x0 = unitsOf ds ++ after y ∧ (length (after y) < length (after x0))%nat
  | None => short lo (chars u (after x)) []
  end.
Proof.
  intros Hlo. unfold find. pose proof (search_runs lo (S (length (after x))) x ltac:(lia)) as Hs.
  destruct (search _ _ x) as [[x0 y]|]; [|done]. destruct Hs as (cs & E1 & E2 & Hcs & Hlong & Hr).
  exists cs, (takeRun p (chars u (after x0))). pose proof (readsChars_text _ _ _ _ Hr) as Et. destruct Hr as [Hr _].
  rewrite <-Hr. split_and!; [done..|apply takeRun_all| |done|].
  - by eapply takeRun_next.
  - rewrite Et, length_app. destruct (takeRun p (chars u (after x0))) as [|[c w] ds] eqn:Ed; [simpl in Hlong; lia|].
    rewrite chars_read in Ed. destruct (readChar u (after x0)) as [[[c' w'] s']|] eqn:Er; [|done].
    apply readChar_app in Er as [_ Hw]. cbn [takeRun] in Ed. destruct (p c'); [|done]. injection Ed as <- <- _.
    unfold unitsOf. cbn [fmap list_fmap concat snd]. rewrite length_app. destruct w'; [done|]. simpl. lia.
Qed.

(** What a run of a repeated class reads. *)
Lemma run_class lo hi x y :
  reps (run fl (RClass neg items)) [] lo hi x y → (∀ n, hi = Some n → (lo <= n)%nat) →
  ∃ ds, readsChars u ds x y ∧ (lo <= length ds)%nat ∧ Forall (λ d, p d.1 = true) ds.
Proof.
  induction 1 as [lo hi x Hs|lo hi x y z Hh Hxy _ _ IH]; intros Hb.
  - exists []. split_and!; [done| |constructor]. simpl. destruct Hs as [->|Hs]; [lia|]. by apply Hb in Hs.
  - rewrite clear_none in Hxy. cbn [run] in Hxy. rewrite oneChar_read in Hxy. pose proof (chars_read u (after x)) as Hc.
    destruct (readChar u (after x)) as [[[c w] s]|]; [|done]. destruct (p c) eqn:Ep; [|done]. injection Hxy as <-.
    destruct IH as (ds & [Hr Hcaps] & Hl & Hd).
    { intros n. destruct hi as [k|]; [|done]. intros [= <-]. specialize (Hb k eq_refl). lia. }
    exists ((c, w) :: ds). split_and!; [|simpl; lia|by constructor].
    split; [|done]. cbn [after] in Hr. by rewrite Hc, Hr.
Qed.

Lemma collapse_out w b cs l :
  Forall (λ d, p d.1 = false) cs → collapse p w b (cs ++ l) = unitsOf cs ++ collapse p w (if cs then b else false) l.
Proof.
  intros Hc. revert b. induction Hc as [|[c us] cs Hp _ IH]; intros b; [done|]. cbn [app collapse fst] in *.
  rewrite Hp, IH. unfold unitsOf. cbn [fmap list_fmap concat snd]. rewrite <-app_assoc. by destruct cs.
Qed.

Lemma collapse_in w ds l :
  Forall (λ d, p d.1 = true) ds → headNot p l → collapse p w true (ds ++ l) = collapse p w false l.
Proof.
  intros Hd Hl. induction Hd as [|[c us] ds Hp _ IH]; cbn [app collapse fst] in *; [|by rewrite Hp].
  destruct l as [|[c us] l]; [done|]. cbn [headNot collapse] in *. by rewrite Hl.
Qed.

Lemma replace_runs w s : replaceAll (rx 1) (λ _, w) s = collapse p w false (chars u s).
Proof.
  unfold replaceAll. change s with (after (start s)) at 3.
  assert (length (after (start s)) < S (length s))%nat as Hf by (cbn [start after]; lia). revert Hf.
  generalize (S (length s)) as fuel, (start s) as x. intros fuel.
  induction fuel as [|fuel IH]; intros x Hf; [lia|]. cbn [replaceFrom].
  pose proof (find_runs 1 x ltac:(lia)) as Hs. destruct (find (rx 1) x) as [[x0 y]|].
  - destruct Hs as (cs & ds & E1 & E2 & Hcs%short_one & Hlo & Hds & Hh & E3 & Hl).
    destruct ds as [|[d us] ds]; [simpl in Hlo; lia|]. apply Forall_cons in Hds as [Hd Hds].
    rewrite E2, collapse_out by done. cbn [app collapse fst] in *. rewrite Hd, collapse_in by done.
    cbn [fst snd]. rewrite (textBetween_reads _ _ _ E1). f_equal.
    replace (if cs then false else false) with false by (by destruct cs). f_equal.
    unfold afterMatch. cbn [fst snd]. destruct (Nat.eqb_spec (length (after y)) (length (after x0))) as [?|_]; [lia|].
    unfold textBetween. rewrite Nat.sub_diag. cbn [take app]. apply IH.
    apply (f_equal length) in E1. rewrite length_app in E1. lia.
  - apply short_one in Hs. by rewrite <-(app_nil_r (chars u (after x))), collapse_out, app_nil_r, unitsOf_chars.
Qed.
End Class.
End Runs.

(** ** Characters of a text *)

Section Characters.
Context `{Unicode}.

Lemma chars_app u a c s : isLow c = false → chars u (a ++ c :: s) = chars u a ++ chars u (c :: s).
Proof.
  intros Hc. induction a as [a IH] using (induction_ltof1 _ length). destruct a as [|h [|l a]]; [done| |].
  - cbn [app]. rewrite chars_read. cbn [readChar]. rewrite Hc, andb_false_r. done.
  - cbn [app]. rewrite (chars_read u (h :: l :: _)), (chars_read u (h :: l :: a)). cbn [readChar].
    destruct (u && isHigh h && isLow l); cbn [app]; f_equal; [apply IH|apply (IH (l :: a))]; unfold ltof; simpl; lia.
Qed.

(** A unit that is half of no pair. *)
Definition isPlain (c : Z) : bool := negb (isHigh c) && negb (isLow c).

Lemma chars_plain u b s : forallb isPlain b = true → chars u (b ++ s) = ((λ c, (c, [c])) <$> b) ++ chars u s.
Proof.
  induction b as [|c b IH]; [done|]. cbn [forallb app fmap list_fmap].
  intros [[Hh _]%andb_true_iff Hb]%andb_true_iff. rewrite negb_true_iff in Hh. rewrite <-(IH Hb), chars_read.
  unfold readChar. destruct (b ++ s) as [|d t]; [done|]. by rewrite Hh, andb_false_r.
Qed.

Lemma collapse_filter p b l : collapse p [] b l = unitsOf (filter (λ d, p d.1 = false) l).
Proof.
  revert b. induction l as [|[c us] l IH]; intros b; [done|]. cbn [collapse]. destruct (p c) eqn:E.
  - rewrite filter_cons_False by (cbn [fst]; congruence). rewrite IH. by destruct b.
  - rewrite filter_cons_True by done. unfold unitsOf. cbn [fmap list_fmap concat snd]. f_equal. apply IH.
Qed.

Lemma filter_units p (b : list Z) :
  unitsOf (filter (λ d : Z * list Z, p d.1 = false) ((λ c, (c, [c])) <$> b)) = filter (λ c, p c = false) b.
Proof.
  induction b as [|c b IH]; [done|]. cbn [fmap list_fmap]. destruct (decide (p c = false)) as [Hc|Hc].
  - rewrite !filter_cons_True by done. unfold unitsOf in *. cbn [fmap list_fmap concat snd app]. by f_equal.
  - by rewrite !filter_cons_False by done.
Qed.

Lemma lower_infix `{!UnicodeLaws} a s b :
  forallb isAscii s = true → infix (asciiLower <$> s) (toLowerCase (a ++ s ++ b)).
Proof.
  intros Hs. unfold toLowerCase. destruct (forallb isAscii (a ++ s ++ b)).
  - exists (asciiLower <$> a), (asciiLower <$> b). by rewrite !fmap_app.
  - destruct (lower_ascii a s b Hs) as (a' & b' & ->). by exists a', b'.
Qed.
End Characters.

(** ** Replacing single characters *)

Section Single.
Context `{Unicode}.

Lemma chars_units s : chars false s = (λ c, (c, [c])) <$> s.
Proof.
  induction s as [|c s IH]; [done|]. destruct s as [|d s]; [done|].
  change (chars false (c :: d :: s)) with ((c, [c]) :: chars false (d :: s)). by rewrite IH.
Qed.

Lemma unitsOf_units s : unitsOf ((λ c, (c, [c])) <$> s) = s.
Proof. rewrite <-chars_units. apply unitsOf_chars. Qed.

Lemma search_class fl src neg l fuel x :
  f_u fl = false → (length (after x) < fuel)%nat →
  match search fuel (mkRegex fl src (RClass neg l)) x with
  | Some (x0, y) => ∃ cs c, after x = cs ++ after x0 ∧ after x0 = c :: after y
      ∧ Forall (λ c, inClass fl neg l c = false) cs ∧ inClass fl neg l c = true
  | None => Forall (λ c, inClass fl neg l c = false) (after x)
  end.
Proof.
  intros Hu. revert x. induction fuel as [|fuel IH]; intros x Hf; [lia|]. cbn [search r_flags r_re m].
  unfold advance. rewrite oneChar_read, Hu.
  assert (readChar false (after (setCaps [] x)) = match after x with c :: s => Some (c, [c], s) | [] => None end) as ->.
  { cbn [setCaps after]. by destruct (after x) as [|c [|d s]]. }
  destruct (after x) as [|c s] eqn:E; [constructor|]. destruct (inClass fl neg l c) eqn:Ec.
  { exists [], c. cbn [setCaps after]. by rewrite E. }
  cbn [setCaps before caps rev app]. set (x' := mkState _ _ _). specialize (IH x'). cbn [after x' length] in IH.
  simpl in Hf. specialize (IH ltac:(lia)). destruct (search fuel _ x') as [[x0 y]|].
  - destruct IH as (cs & d & E1 & E2 & Hcs & Hd). exists (c :: cs), d. rewrite E1. split_and!; [done..|by constructor|done].
  - by constructor.
Qed.

Lemma replace_class fl src neg l w s :
  f_u fl = false →
  replaceAll (mkRegex fl src (RClass neg l)) (λ _, w) s
  = concat ((λ c, if inClass fl neg l c then w else [c]) <$> s).
Proof.
  intros Hu. unfold replaceAll. change s with (after (start s)) at 3.
  assert (length (after (start s)) < S (length s))%nat as Hf by (cbn [start after]; lia). revert Hf.
  generalize (S (length s)) as fuel, (start s) as x. intros fuel.
  induction fuel as [|fuel IH]; intros x Hf; [lia|]. cbn [replaceFrom]. unfold find.
  pose proof (search_class fl src neg l (S (length (after x))) x Hu ltac:(lia)) as Hs.
  assert (∀ cs : list Z, Forall (λ c, inClass fl neg l c = false) cs →
            concat ((λ c, if inClass fl neg l c then w else [c]) <$> cs) = cs) as Hkeep.
  { induction 1 as [|c cs Hc _ IHc]; [done|]. cbn [fmap list_fmap concat]. by rewrite Hc, IHc. }
  destruct (search _ _ x) as [[x0 y]|]; [|by rewrite Hkeep].
  destruct Hs as (cs & c & E1 & E2 & Hcs & Hc). rewrite E1, E2, fmap_app, concat_app, Hkeep by done.
  cbn [fst snd fmap list_fmap concat]. rewrite (textBetween_reads _ _ cs E1), Hc. do 2 f_equal.
  unfold afterMatch. cbn [fst snd]. rewrite E2. cbn [length].
  destruct (Nat.eqb_spec (length (after y)) (S (length (after y)))) as [?|_]; [lia|].
  unfold textBetween. rewrite Nat.sub_diag. cbn [take app]. apply IH.
  apply (f_equal length) in E1. rewrite length_app, E2 in E1. simpl in E1. lia.
Qed.

(** Replacing by a constant text cuts it in. *)
Lemma replaceAll_cuts r w s : cuts (λ x, x = w) s (replaceAll r (λ _, w) s).
Proof.
  apply replace_ind; [constructor|intros; by apply cuts_app|].
  intros x y t o _ _ (v & E & _) <- Hc. rewrite E. by apply (cuts_at _ []).
Qed.
End Single.

(** ** Examples *)

(** Unicode data that know no character outside ASCII. *)
Definition asciiOnly : Unicode :=
  {| u_nfd := λ s, s; u_nfc := λ s, s; u_lower := λ s, s; u_upper := λ c, c; u_fold := λ c, c;
     u_property := λ _ _ _, false |}.
End JsRegex.
