(* ===== verification/Masking.v ===== *)
(** * Redaction of secrets and identifiers

    packages/bot-common, masking/ and logging/redacted-logger.ts: the registry of
    runtime secrets, the shapes of credentials, what is redacted from a text on its
    way to the model ([redactCredentialText]), from an error's message
    ([errorMessage]) and from a log line ([redactLogLine]), and the masking of
    external identifiers.

    The registry is module state, passed here as an argument.  Patterns are the
    code's, read and matched by [JsRegex]. *)

From S2P Require Import Prelude Json JsText JsRegex.

Module Masking.
Import Json JsText JsRegex.

(** A source with [~] for the double quote. *)
Definition qtext (s : string) : jsstring := (λ c, if c =? 126 then 34 else c) <$> txt s.

(** ** Runtime secrets *)

Definition MIN_RUNTIME_SECRET_LENGTH : Z := 8.

Definition RUNTIME_SECRET_ENV_KEYS : list string :=
  ["OPENAI_API_KEY"; "OPENROUTER_API_KEY"; "MINIMAX_API_KEY"; "OPENAI_COMPATIBLE_API_KEY"; "INTERNAL_API_KEY";
   "WISPACE_INTERNAL_KEY"; "DB_PASSWORD"; "REDIS_PASSWORD"; "MESSENGER_PAGE_TOKEN"; "MESSENGER_APP_SECRET";
   "VERIFY_TOKEN"; "DISCORD_BOT_TOKEN"; "ZALO_APP_SECRET"; "ZALO_TOKEN_ENCRYPTION_KEY";
   "OAUTH_STATE_ENCRYPTION_KEY"; "DISCORD_OAUTH_STATE_ENCRYPTION_KEY"; "ZALO_OAUTH_STATE_ENCRYPTION_KEY"]%string.

(** The registry after [registerRuntimeSecrets(values)]. *)
Definition registerRuntimeSecrets (values : list (option jsstring)) : list jsstring :=
  dedup (filter (λ v, MIN_RUNTIME_SECRET_LENGTH ≤ len v) ((λ v, js_trim (default [] v)) <$> values)).

Definition collectRuntimeSecretValues (get : string → option jsstring) : list jsstring :=
  filter (λ v, MIN_RUNTIME_SECRET_LENGTH ≤ len v) ((λ k, default [] (get k)) <$> RUNTIME_SECRET_ENV_KEYS).

(** ** Credential shapes *)

Definition REDACTED_PLACEHOLDER : jsstring := js "[REDACTED]".

Definition PROVIDER_KEY_SHAPE : regex := mk Fi (js "\bsk-[A-Za-z0-9]{16,}\b").

Definition CREDENTIAL_SHAPES : list regex :=
  [PROVIDER_KEY_SHAPE;
   mk Fi (js "\bBearer\s+[A-Za-z0-9._~+/-]{20,}\b");
   mk Fi (js "\b(?:api[_-]?key|password|passwd|secret)\s*[:=]\s*\S{8,}\b");
   mk F_ (js "\beyJ[A-Za-z0-9_-]{6,}\.[A-Za-z0-9_-]{1,}\.[A-Za-z0-9_-]{10,}\b");
   mk Fi (js "\b(?:postgres(?:ql)?|redis|mongodb(?:\+srv)?):\/\/[^\s/@]*:[^\s/@]+@[^\s]+")].

Section Redaction.
Context `{Unicode}.

(** The first shape found, with its text. *)
Definition findCredentialShape (text : jsstring) : option match_ :=
  foldr (λ r acc, match exec r text with Some x => Some x | None => acc end) None CREDENTIAL_SHAPES.

Definition redactCredentialShape (text : jsstring) (pattern : regex) : jsstring :=
  if negb (test pattern text) then text else replaceAll pattern (λ _, REDACTED_PLACEHOLDER) text.

(** The loop over the registry, with the flag. *)
Definition redactRegisteredSecretValues (registered : list jsstring) (text : jsstring) : jsstring * bool :=
  foldl (λ acc value, if includes acc.1 value then (replaceText value REDACTED_PLACEHOLDER acc.1, true) else acc)
        (text, false) registered.

Definition redactCredentialText (registered : list jsstring) (text : jsstring) : jsstring * bool :=
  foldl (λ acc pattern,
    let next := redactCredentialShape acc.1 pattern in
    if bool_decide (next = acc.1) then acc else (next, true))
    (redactRegisteredSecretValues registered text) CREDENTIAL_SHAPES.

(** ** External identifiers *)

(** [maskExternalId] of a string. *)
Definition maskExternalId (value : jsstring) : jsstring :=
  if bool_decide (value = []) then js "???"
  else if len value <=? 10 then sliceTo 2 value ++ txt "…"
  else sliceTo 4 value ++ txt "…" ++ sliceLast 4 value.

Definition maskExternalIdInText (text value : jsstring) : jsstring :=
  if bool_decide (value = []) then text else replaceText value (maskExternalId value) text.

Definition maskEventId (eventId : jsstring) (externalUserId : jsstring) : jsstring :=
  if bool_decide (externalUserId = []) then eventId
  else if negb (includes eventId externalUserId) then eventId
  else replaceText externalUserId (maskExternalId externalUserId) eventId.

Definition CONTROL_CHAR_PATTERN : regex := mk F_ (js "[\u0000-\u001F\u007F]").

Definition sanitizeLogValue (value : jsstring) (maxChars : Z) : jsstring :=
  sliceTo maxChars (replaceAll CONTROL_CHAR_PATTERN (λ _, js "?") value).

(** ** Errors *)

Definition DEFAULT_MAX_ERROR_CHARS : Z := 500.

Definition NON_NEWLINE_CONTROL_CHARS_PATTERN : regex := mk F_ (js "[\u0000-\u0009\u000B-\u001F\u007F]").
Definition MULTI_SPACE_PATTERN : regex := mk F_ (js "\s+").

Definition SENSITIVE_KV_PATTERN : regex :=
  mk Fi (qtext "\b((?:bearer|token|pass(?:word|wd)?|secret|api[_-]?key|credential|private[_-]?key|access[_-]?token|refresh[_-]?token|auth(?:orization)?|internal[_-]?key)\s*[:=]\s*(?:Bearer\s+)?)(['~]?)[^\s,~'&]+(\2)").
Definition BEARER_TOKEN_PATTERN : regex := mk Fi (qtext "\bBearer\s+(?!\[REDACTED\])[^\s,~']+").
Definition QUERY_SECRET_PATTERN : regex :=
  mk Fi (qtext "([?&](?:token|key|api_key|apiKey|secret|password|auth|access_token|refresh_token|credential)=)[^\s&~'#]+").
Definition URI_CREDENTIALS_PATTERN : regex := mk F_ (js "([a-zA-Z][a-zA-Z0-9+.-]*:\/\/)[^:\s/@]*:[^@\s/]+@").
Definition JWT_PATTERN : regex := mk F_ (js "\beyJ[a-zA-Z0-9_-]{10,}\.[a-zA-Z0-9_-]{10,}\.[a-zA-Z0-9_.-]+\b").

(** [$i] in a replacement. *)
Definition dollar (i : nat) (x : match_) : jsstring := default [] (m_group i x).

Definition redactSecrets (registered : list jsstring) (text : jsstring) : jsstring :=
  let t0 := (redactRegisteredSecretValues registered text).1 in
  let t1 := replaceAll SENSITIVE_KV_PATTERN (λ x, dollar 1 x ++ dollar 2 x ++ REDACTED_PLACEHOLDER ++ dollar 2 x) t0 in
  let t2 := replaceAll BEARER_TOKEN_PATTERN (λ _, js "Bearer [REDACTED]") t1 in
  let t3 := replaceAll QUERY_SECRET_PATTERN (λ x, dollar 1 x ++ REDACTED_PLACEHOLDER) t2 in
  let t4 := replaceAll URI_CREDENTIALS_PATTERN (λ x, dollar 1 x ++ REDACTED_PLACEHOLDER ++ js "@") t3 in
  let t5 := replaceAll JWT_PATTERN (λ _, REDACTED_PLACEHOLDER) t4 in
  redactCredentialShape t5 PROVIDER_KEY_SHAPE.

(** What was thrown, as far as [errorMessage] looks at it. *)
Inductive Thrown :=
| TError (message name : jsstring)                              (** an Error *)
| TString (s : jsstring)
| TNothing                                                      (** null or undefined *)
| TObject (message : option jsstring) (asString : jsstring)     (** with a message that is a string, and [String(err)] *)
| TOther (asString : jsstring).

Definition rawMessage (err : Thrown) : jsstring :=
  match err with
  | TError [] [] => js "Error"
  | TError [] name => name
  | TError message _ => message
  | TString s => s
  | TNothing => js "Unknown error"
  | TObject (Some message) asString =>
      if negb (js_blank message) then message
      else if bool_decide (asString = js "[object Object]") then js "Unknown error" else asString
  | TObject None asString =>
      if bool_decide (asString = js "[object Object]") then js "Unknown error" else asString
  | TOther s => s
  end.

Definition errorMessage (registered : list jsstring) (err : Thrown) (externalUserId : option jsstring)
    (maxChars : option Z) : jsstring :=
  let cap := default DEFAULT_MAX_ERROR_CHARS maxChars in
  let m1 := replaceAll CONTROL_CHAR_PATTERN (λ _, js " ") (redactSecrets registered (rawMessage err)) in
  let m2 := js_trim (replaceAll MULTI_SPACE_PATTERN (λ _, js " ") m1) in
  if bool_decide (m2 = []) then js "Unknown error" else
  let m3 := match externalUserId with Some v => maskExternalIdInText m2 v | None => m2 end in
  if cap <? len m3 then sliceTo cap m3 else m3.

Definition sanitizeErrorStack (registered : list jsstring) (stack : option jsstring) (maxChars : Z) : option jsstring :=
  match stack with
  | None | Some [] => None
  | Some s =>
      let t := replaceAll NON_NEWLINE_CONTROL_CHARS_PATTERN (λ _, []) (redactSecrets registered s) in
      Some (if maxChars <? len t then sliceTo maxChars t ++ txt "…" else t)
  end.

(** ** Log lines *)

Definition RAW_ID_PATTERN : regex := mk F_ (js "\d{15,}").

Definition maskRun (x : match_) : jsstring :=
  sliceTo 2 (m_text x) ++ txt "…" ++ sliceLast 2 (m_text x) ++ js "(" ++ natStr (len (m_text x)) ++ js ")".

Definition redactLogLine (registered : list jsstring) (line : jsstring) : jsstring :=
  replaceAll RAW_ID_PATTERN maskRun (redactRegisteredSecretValues registered line).1.

(** The line that [emit] writes; a message that is no string comes as [inspect] renders it. *)
Definition emit (registered : list jsstring) (message : jsstring) (stack context : option jsstring) : jsstring :=
  match context with Some (c :: t) => js "[" ++ (c :: t) ++ js "] " | _ => [] end
  ++ redactLogLine registered message
  ++ match stack with Some (c :: t) => 10 :: redactLogLine registered (c :: t) | _ => [] end.

(** ** Persisted errors *)

Definition DEFAULT_PERSISTED_ERROR_MAX_CHARS : Z := 2000.

(** [number] is [Number(raw.trim())]. *)
Definition readPersistedErrorMaxChars (raw : option jsstring) (number : jsnum) : Z :=
  match raw with
  | None => DEFAULT_PERSISTED_ERROR_MAX_CHARS
  | Some r =>
      if js_blank r then DEFAULT_PERSISTED_ERROR_MAX_CHARS
      else match js_floor number with
           | Some n => if js_pos number then n else DEFAULT_PERSISTED_ERROR_MAX_CHARS
           | None => DEFAULT_PERSISTED_ERROR_MAX_CHARS
           end
  end.

Definition truncatePersistedError (text : option jsstring) (maxChars : option Z) (env : option jsstring) (number : jsnum)
    : option jsstring :=
  match text with
  | None | Some [] => None
  | Some t =>
      let cap := match maxChars with Some n => n | None => readPersistedErrorMaxChars env number end in
      Some (if cap <? len t then sliceTo cap t else t)
  end.
End Redaction.

(** Every pattern is one. *)
Lemma masking_patterns_parse :
  forallb parses (CREDENTIAL_SHAPES ++ [CONTROL_CHAR_PATTERN; NON_NEWLINE_CONTROL_CHARS_PATTERN; MULTI_SPACE_PATTERN;
    SENSITIVE_KV_PATTERN; BEARER_TOKEN_PATTERN; QUERY_SECRET_PATTERN; URI_CREDENTIALS_PATTERN; JWT_PATTERN;
    RAW_ID_PATTERN]) = true.
Proof. vm_compute. reflexivity. Qed.

(** ** Registered secrets *)

Section Secrets.
Context `{Unicode}.

(** A text that the placeholder can neither hold nor touch. *)
Definition opaque (v : jsstring) : Prop :=
  91 ∉ v ∧ 93 ∉ v ∧ v ≠ js "REDACTED" ∧ MIN_RUNTIME_SECRET_LENGTH ≤ len v.

Lemma placeholder_foreign v : opaque v → foreign v REDACTED_PLACEHOLDER.
Proof.
  intros (Hl & Hr & Hne & Hlen). right. exists 91, (js "REDACTED"), 93. split_and!; [done..|].
  intros (a & b & E). pose proof (f_equal length E) as El. rewrite !length_app in El.
  assert (length (js "REDACTED") = 8%nat) as E8 by done. unfold MIN_RUNTIME_SECRET_LENGTH, len in Hlen.
  destruct a; [|simpl in El; lia]. destruct b; [|simpl in El; lia]. by rewrite app_nil_r in E.
Qed.

Lemma registered_gone registered v t b :
  opaque v → v ∈ registered ∨ ¬ infix v t →
  ¬ infix v (foldl (λ acc value, if includes acc.1 value then (replaceText value REDACTED_PLACEHOLDER acc.1, true) else acc)
               (t, b) registered).1.
Proof.
  intros Hv. pose proof (placeholder_foreign v Hv) as Hf. revert t b.
  induction registered as [|x registered IH]; intros t b Hin; cbn [foldl fst]; [set_solver|].
  destruct (includes t x) eqn:Ei.
  - apply IH. destruct (decide (v = x)) as [->|Hne].
    + right. apply replace_gone; [done|]. intros ->. by destruct Hv as (_ & _ & _ & ?).
    + destruct Hin as [Hin|Hin]; [left; set_solver|right].
      intros Hi. apply Hin. eapply cuts_out; [apply replace_cuts| |exact Hi]. by intros w ->.
  - apply IH. destruct (decide (v = x)) as [->|Hne]; [right|set_solver].
    rewrite <-includes_iff, Ei. done.
Qed.

Lemma shape_keeps_out v t r : opaque v → ¬ infix v t → ¬ infix v (redactCredentialShape t r).
Proof.
  intros Hv Hn. unfold redactCredentialShape. destruct (negb (test r t)); [done|]. intros Hi. apply Hn.
  eapply cuts_out; [apply replaceAll_cuts| |exact Hi]. intros w ->. by apply placeholder_foreign.
Qed.

Lemma shapes_keep_out v l acc :
  opaque v → ¬ infix v acc.1 →
  ¬ infix v (foldl (λ acc pattern,
    let next := redactCredentialShape acc.1 pattern in
    if bool_decide (next = acc.1) then acc else (next, true)) acc l).1.
Proof.
  intros Hv. revert acc. induction l as [|r l IH]; intros acc Hn; cbn [foldl]; [done|]. apply IH.
  case_bool_decide; [done|]. by apply shape_keeps_out.
Qed.

(** ** Runs of digits in a log line *)

Lemma digits_length fuel n k :
  0 ≤ n < 10 ^ Z.of_nat k → (0 < k)%nat → (length (digitsFuel fuel n) ≤ k)%nat.
Proof.
  revert n k. induction fuel as [|fuel IH]; intros n k Hn Hk; cbn [digitsFuel]; [simpl; lia|].
  destruct (Z.ltb_spec n 10) as [?|?]; [simpl; lia|]. rewrite length_app. cbn [length].
  destruct k as [|[|k]]; [lia|change (10 ^ Z.of_nat 1) with 10 in Hn; lia|].
  assert (length (digitsFuel fuel (n / 10)) ≤ S k)%nat; [|lia]. apply IH; [|lia].
  replace (Z.of_nat (S (S k))) with (Z.of_nat (S k) + 1) in Hn by lia. rewrite Z.pow_add_r in Hn by lia.
  split; [apply Z.div_pos; lia|]. apply Z.div_lt_upper_bound; lia.
Qed.

(** The digits at the head. *)
Fixpoint digitRun (s : list Z) : nat :=
  match s with c :: s' => if isDigit c then S (digitRun s') else 0 | [] => 0 end.

(** In [cs ++ l] no run of fifteen digits starts in [cs]. *)
Definition noRun (cs l : list Z) : Prop := ∀ a b, cs = a ++ b → b ≠ [] → (digitRun (b ++ l) < 15)%nat.

(** What a log line is made of: texts without long runs of digits, and masked runs. *)
Inductive masked : list Z → list Z → Prop :=
| masked_end cs : noRun cs [] → masked cs cs
| masked_run cs ds s t :
    (15 <= length ds)%nat → forallb isDigit ds = true → digitRun s = 0%nat → noRun cs (ds ++ s) → masked s t →
    masked (cs ++ ds ++ s)
      (cs ++ (take 2 ds ++ 8230 :: drop (length ds - 2) ds ++ 40 :: natStr (len ds) ++ [41]) ++ t).

Lemma maskRun_text x :
  (15 <= length (m_text x))%nat →
  maskRun x = take 2 (m_text x) ++ 8230 :: drop (length (m_text x) - 2) (m_text x)
              ++ 40 :: natStr (len (m_text x)) ++ [41].
Proof.
  intros Hl. unfold maskRun, sliceTo, sliceLast, len. change (0 <=? 2) with true. change (2 =? 0) with false. cbv iota.
  replace (Z.to_nat (Z.of_nat (length (m_text x)) - 2)) with (length (m_text x) - 2)%nat by lia. done.
Qed.

Lemma id_pattern : RAW_ID_PATTERN = mkRegex F_ (js "\d{15,}") (runs 15 false [IEsc false EDigit]).
Proof. vm_compute. reflexivity. Qed.

Lemma in_digits c : inClass F_ false [IEsc false EDigit] c = isDigit c.
Proof. unfold inClass, isDigit. cbn. unfold between. by destruct (_ && _). Qed.

Lemma digitRun_take s : length (takeRun (inClass F_ false [IEsc false EDigit]) ((λ c, (c, [c])) <$> s)) = digitRun s.
Proof. induction s as [|c s IH]; [done|]. cbn [fmap list_fmap takeRun digitRun]. rewrite in_digits. destruct (isDigit c); simpl; lia. Qed.

Lemma short_noRun cs l :
  short F_ false [IEsc false EDigit] 15 ((λ c, (c, [c])) <$> cs) ((λ c, (c, [c])) <$> l) → noRun cs l.
Proof.
  intros Hs a b -> Hb. rewrite <-digitRun_take, fmap_app. apply (Hs ((λ c, (c, [c])) <$> a)); [by rewrite fmap_app|].
  by destruct b.
Qed.

Lemma log_masked fuel x :
  (length (after x) < fuel)%nat → masked (after x) (replaceFrom fuel RAW_ID_PATTERN maskRun x).
Proof.
  revert x. induction fuel as [|fuel IH]; intros x Hf; [lia|]. cbn [replaceFrom].
  pose proof (find_runs F_ (js "\d{15,}") false [IEsc false EDigit] 15 x ltac:(lia)) as Hs. rewrite <-id_pattern in Hs.
  change (f_u F_) with false in Hs. rewrite !chars_units in Hs.
  destruct (find RAW_ID_PATTERN x) as [[x0 y]|].
  - destruct Hs as (cs & ds & E1 & E2 & Hcs & Hlo & Hds & Hh & E3 & Hl). rewrite chars_units in *.
    apply fmap_app_inv in E2 as (cs' & r1 & -> & E2 & E4). symmetry in E2. apply fmap_app_inv in E2 as (ds' & r2 & -> & E2 & ->).
    apply list_fmap_eq_inj in E2 as <-; [|by intros ? ? [= ->]].
    rewrite unitsOf_units in E1, E3. rewrite E4. cbn [fst snd]. rewrite (textBetween_reads _ _ _ E1).
    rewrite <-fmap_app in Hcs. apply short_noRun in Hcs. rewrite length_fmap in Hlo.
    assert (textBetween x0 y = ds') as Et by (by apply textBetween_reads).
    unfold matchOf. cbn [fst snd m_text]. rewrite maskRun_text; cbn [m_text]; rewrite Et; [|done].
    unfold afterMatch. cbn [fst snd]. destruct (Nat.eqb_spec (length (after y)) (length (after x0))) as [?|_]; [lia|].
    unfold textBetween. rewrite Nat.sub_diag. cbn [take app]. apply masked_run; [done| | |done|].
    + apply forallb_forall. intros c Hc. rewrite Forall_forall in Hds. rewrite <-in_digits.
      apply (Hds (c, [c])). apply list_elem_of_fmap. exists c. split; [done|]. by apply list_elem_of_In.
    + destruct (after y) as [|c s]; [done|]. cbn [fmap list_fmap headNot] in Hh. rewrite in_digits in Hh. cbn [digitRun]. by rewrite Hh.
    + apply IH. apply (f_equal length) in E1. rewrite length_app in E1. lia.
  - apply masked_end. apply short_noRun. exact Hs.
Qed.

(** ** What a log line cannot hold *)

(** No run of fifteen digits. *)
Definition noId (s : jsstring) : Prop := ∀ d, infix d s → forallb isDigit d = true → (length d < 15)%nat.

Lemma noId_barrier a c b : isDigit c = false → noId a → noId b → noId (a ++ c :: b).
Proof.
  intros Hc Ha Hb d Hi Hd. apply infix_barrier in Hi as [Hi|Hi]; [by apply Ha|by apply Hb|].
  intros Hin. rewrite forallb_forall in Hd. apply list_elem_of_In, Hd in Hin. congruence.
Qed.

Lemma noId_short a : (length a < 15)%nat → noId a.
Proof. intros Hl d Hi%infix_length _. lia. Qed.

Lemma digitRun_app d s : forallb isDigit d = true → digitRun (d ++ s) = (length d + digitRun s)%nat.
Proof.
  induction d as [|c d IH]; [done|]. cbn [forallb app digitRun length]. intros [-> Hd]%andb_true_iff. by rewrite IH.
Qed.

Lemma noRun_noId cs l : noRun cs l → noId cs.
Proof.
  intros Hr d (a & b & ->) Hd. destruct d as [|c d]; [simpl; lia|].
  specialize (Hr a ((c :: d) ++ b) eq_refl ltac:(done)). rewrite <-app_assoc, digitRun_app in Hr by done. lia.
Qed.

(** Before a long run there is no digit. *)
Lemma noRun_last cs ds s c :
  noRun (cs ++ [c]) (ds ++ s) → forallb isDigit ds = true → (15 <= length ds)%nat → isDigit c = false.
Proof.
  intros Hr Hd Hl. specialize (Hr cs [c] eq_refl ltac:(done)). cbn [app digitRun] in Hr.
  destruct (isDigit c); [|done]. rewrite digitRun_app in Hr by done. lia.
Qed.

Lemma masked_noId s t : masked s t → len s < 10 ^ 14 → noId t.
Proof.
  induction 1 as [cs Hr|cs ds s t Hl Hd Hs Hr _ IH]; intros Hlen; [by eapply noRun_noId|].
  assert (len ds ≤ len (cs ++ ds ++ s)) as Hds by (rewrite !len_app; pose proof (len_nonneg cs); pose proof (len_nonneg s); lia).
  assert (len s < 10 ^ 14) as Hls by (rewrite !len_app in Hlen; pose proof (len_nonneg cs); pose proof (len_nonneg ds); lia).
  assert (noId (cs ++ take 2 ds)) as Hpre.
  { destruct cs as [|c cs _] using rev_ind; [apply noId_short; rewrite app_nil_l, length_take; lia|].
    pose proof (noRun_last _ _ _ _ Hr Hd Hl) as Hc. rewrite <-app_assoc. apply noId_barrier; [done| |].
    - eapply noRun_noId. intros a b -> Hb. specialize (Hr a (b ++ [c])). rewrite <-!app_assoc in Hr. cbn [app] in Hr.
      apply (Hr eq_refl). by destruct b.
    - apply noId_short. rewrite length_take. lia. }
  replace (cs ++ (take 2 ds ++ 8230 :: drop (length ds - 2) ds ++ 40 :: natStr (len ds) ++ [41]) ++ t)
    with ((cs ++ take 2 ds) ++ 8230 :: drop (length ds - 2) ds ++ 40 :: natStr (len ds) ++ 41 :: t)
    by (by rewrite <-!app_assoc; cbn [app]; rewrite <-!app_assoc; cbn [app]; rewrite <-!app_assoc).
  repeat apply noId_barrier; [done..| |done| |by apply IH].
  - apply noId_short. rewrite length_drop. lia.
  - apply noId_short. unfold natStr. apply (Nat.le_lt_trans _ 14); [|lia]. apply digits_length; [|lia].
    split; [apply len_nonneg|]. change (Z.of_nat 14) with 14. lia.
Qed.

Lemma masked_cuts v s t :
  masked s t → opaque v → 8230 ∉ v → 40 ∉ v → 41 ∉ v → len s < 10 ^ 7 → infix v t → infix v s.
Proof.
  intros Hm Hv He Ho Hc. induction Hm as [cs _|cs ds s t Hl Hd _ _ _ IH]; [done|]. intros Hlen Hi.
  pose proof (len_nonneg cs). pose proof (len_nonneg ds). pose proof (len_nonneg s). rewrite !len_app in Hlen.
  assert (ds = take 2 ds ++ drop 2 ds) as Eds by (by rewrite take_drop).
  assert (infix (drop (length ds - 2) ds) ds) as Hend by (exists (take (length ds - 2) ds), []; by rewrite app_nil_r, take_drop).
  replace (cs ++ (take 2 ds ++ 8230 :: drop (length ds - 2) ds ++ 40 :: natStr (len ds) ++ [41]) ++ t)
    with ((cs ++ take 2 ds) ++ 8230 :: drop (length ds - 2) ds ++ 40 :: natStr (len ds) ++ 41 :: t) in Hi
    by (by rewrite <-!app_assoc; cbn [app]; rewrite <-!app_assoc; cbn [app]; rewrite <-!app_assoc).
  apply infix_barrier in Hi as [Hi|Hi]; [| |done].
  { rewrite Eds, <-app_assoc, app_assoc. by apply infix_app_r. }
  apply infix_barrier in Hi as [Hi|Hi]; [| |done].
  { apply infix_app_l, infix_app_r. by etransitivity. }
  apply infix_barrier in Hi as [Hi|Hi]; [| |done].
  { apply infix_length in Hi. destruct Hv as (_ & _ & _ & Hv). unfold MIN_RUNTIME_SECRET_LENGTH, len in Hv.
    assert (length (natStr (len ds)) ≤ 7)%nat; [|lia]. apply digits_length; [|lia].
    split; [apply len_nonneg|]. change (Z.of_nat 7) with 7. lia. }
  apply infix_app_l, infix_app_l, IH; [lia|done].
Qed.

Lemma line_masked registered line :
  masked (redactRegisteredSecretValues registered line).1 (redactLogLine registered line).
Proof. set (t := (redactRegisteredSecretValues _ _).1). apply (log_masked _ (start t)). apply Nat.lt_succ_diag_r. Qed.
Lemma registered_opaque values v :
  v ∈ registerRuntimeSecrets values → 91 ∉ v → 93 ∉ v → v ≠ js "REDACTED" → opaque v.
Proof.
  intros Hin Hl Hr Hne. split_and!; [done..|]. unfold registerRuntimeSecrets in Hin.
  rewrite dedup_elem in Hin. by apply list_elem_of_filter in Hin as [? _].
Qed.

(** C32. A registered runtime secret stays out of what is sent to the model and
    out of what is logged: [redactCredentialText] returns no text that holds it
    anywhere, provided it holds no bracket and is not REDACTED itself, and
    [redactLogLine] no line, provided it also holds neither a parenthesis nor the
    mask character and the line is below ten million characters once the secrets
    are replaced. Other paths to the log (the context prefix, error messages) are
    not covered. *)
Theorem registered_secret_hidden values v :
  let registered := registerRuntimeSecrets values in
  v ∈ registered → 91 ∉ v → 93 ∉ v → v ≠ js "REDACTED" →
  (∀ text, ¬ infix v (redactCredentialText registered text).1)
  ∧ (8230 ∉ v → 40 ∉ v → 41 ∉ v →
     ∀ line, len (redactRegisteredSecretValues registered line).1 < 10 ^ 7 → ¬ infix v (redactLogLine registered line)).
Proof.
  intros registered Hin Hl Hr Hne. pose proof (registered_opaque values v Hin Hl Hr Hne) as Hv.
  assert (∀ t, ¬ infix v (redactRegisteredSecretValues registered t).1) as Hgone
    by (intros t; apply registered_gone; [done|by left]).
  split; [intros text; by apply shapes_keep_out|]. intros He Ho Hc line Hlen Hi.
  apply (Hgone line). eapply masked_cuts; [apply line_masked|done..].
Qed.

(** C35. What [redactLogLine] returns for a line below 10^14 characters (with the
    registered secrets replaced) holds no fifteen digits in a row: every longer
    run, the shape of the platforms' external identifiers, is masked, whatever
    surrounds it. The context prefix of an emitted line does not go through it. *)
Theorem log_line_has_no_id registered line :
  len (redactRegisteredSecretValues registered line).1 < 10 ^ 14 → noId (redactLogLine registered line).
Proof. apply masked_noId, line_masked. Qed.
End Secrets.

Definition someSecrets : list (option jsstring) := [Some (js "hunter2-hunter2"); None; Some (js "true")].

Lemma registered_secret_hidden_witness :
  js "hunter2-hunter2" ∈ registerRuntimeSecrets someSecrets
  ∧ includes (js "the key is hunter2-hunter2.") (js "hunter2-hunter2") = true
  ∧ ¬ infix (js "hunter2-hunter2")
      (@redactCredentialText asciiOnly (registerRuntimeSecrets someSecrets) (js "the key is hunter2-hunter2.")).1.
Proof.
  assert (js "hunter2-hunter2" ∈ registerRuntimeSecrets someSecrets) as Hin by (vm_compute; left).
  split_and!; [exact Hin|vm_compute; reflexivity|].
  assert (∀ c, bool_decide (c ∈ js "hunter2-hunter2") = false → c ∉ js "hunter2-hunter2") as Hn
    by (intros c Hc; by apply bool_decide_eq_false in Hc).
  refine (proj1 (@registered_secret_hidden asciiOnly someSecrets (js "hunter2-hunter2") Hin _ _ _) _);
    [apply Hn; vm_compute; reflexivity|apply Hn; vm_compute; reflexivity|discriminate].
Defined.

Lemma log_line_has_no_id_witness :
  @redactLogLine asciiOnly [] (js "user 12345678901234567") = txt "user 12…67(17)"
  ∧ noId (@redactLogLine asciiOnly [] (js "user 12345678901234567")).
Proof.
  split; [vm_compute; reflexivity|]. apply (@log_line_has_no_id asciiOnly). vm_compute. reflexivity.
Defined.

(** ** Error messages *)

Section Errors.
Context `{Unicode}.

Definition isControl (c : Z) : bool := between 0 31 c || (c =? 127).

Definition printable (s : jsstring) : Prop := Forall (λ c, isControl c = false) s.

Lemma control_pattern :
  CONTROL_CHAR_PATTERN = mkRegex F_ (js "[\u0000-\u001F\u007F]") (RClass false [IRange 0 31; IRange 127 127]).
Proof. vm_compute. reflexivity. Qed.

Lemma spaces_pattern : MULTI_SPACE_PATTERN = mkRegex F_ (js "\s+") (runs 1 false [IEsc false ESpace]).
Proof. vm_compute. reflexivity. Qed.

Lemma control_replaced s : printable (replaceAll CONTROL_CHAR_PATTERN (λ _, js " ") s).
Proof.
  rewrite control_pattern, replace_class by done. unfold printable. induction s as [|c s IH]; [constructor|].
  cbn [fmap list_fmap concat]. apply Forall_app. split; [|done].
  destruct (inClass _ _ _ c) eqn:E; [by repeat constructor|]. constructor; [|constructor].
  unfold inClass in E. cbn in E. unfold isControl. unfold between in *. lia.
Qed.

Lemma collapse_Forall P p w b l : Forall P w → Forall P (unitsOf l) → Forall P (collapse p w b l).
Proof.
  intros Hw. revert b. induction l as [|[c us] l IH]; intros b Hl; [constructor|]. cbn [collapse].
  unfold unitsOf in Hl. cbn [fmap list_fmap concat snd] in Hl. apply Forall_app in Hl as [Hu Hl].
  destruct (p c); (apply Forall_app; split; [|by apply IH]); [by destruct b|done].
Qed.

Lemma mask_printable v s : printable s → printable (maskExternalIdInText s v).
Proof.
  intros Hs. unfold maskExternalIdInText. destruct (bool_decide (v = [])); [done|].
  destruct (decide (includes s v = true)) as [Hi|Hn]; [|by rewrite replace_absent by (by rewrite <-includes_iff)].
  apply includes_iff in Hi as (a & b & ->). pose proof Hs as Hs'. apply Forall_app in Hs' as [_ [Hv _]%Forall_app].
  apply replace_Forall; [|done]. unfold maskExternalId. case_bool_decide; [by repeat constructor|].
  destruct (len v <=? 10); repeat apply Forall_app_2; try (by apply slice_Forall); try (by repeat constructor).
  unfold sliceLast. destruct (4 =? 0); [done|]. by apply Forall_drop.
Qed.

(** The text of an error is one line without control characters, whatever was
    thrown, and no longer than the limit or the fixed text for an empty one. *)
Theorem error_message_line registered err externalUserId maxChars :
  let m := errorMessage registered err externalUserId maxChars in
  let cap := default DEFAULT_MAX_ERROR_CHARS maxChars in
  printable m ∧ (0 ≤ cap → len m ≤ Z.max cap (len (js "Unknown error"))).
Proof.
  cbv zeta. unfold errorMessage. set (m2 := js_trim _).
  case_bool_decide as He; [split; [by repeat constructor|lia]|].
  assert (printable m2) as H2.
  { apply trim_Forall. rewrite spaces_pattern, replace_runs.
    apply collapse_Forall; [by repeat constructor|]. rewrite unitsOf_chars. apply control_replaced. }
  set (m3 := match externalUserId with Some v => _ | None => _ end).
  assert (printable m3) as H3 by (unfold m3; destruct externalUserId; [by apply mask_printable|done]).
  destruct (Z.ltb_spec (default DEFAULT_MAX_ERROR_CHARS maxChars) (len m3)); [|split; [done|lia]].
  split; [by apply slice_Forall|]. intros Hc. rewrite len_sliceTo by done. lia.
Qed.
End Errors.

(** ** Corner cases *)

(** A registered secret in an assignment is replaced twice: the second shape takes
    the placeholder for a value and leaves its bracket behind. *)
Lemma placeholder_redacted_again :
  (@redactCredentialText asciiOnly [js "hunter2-hunter2"] (js "password: hunter2-hunter2")).1 = js "[REDACTED]]".
Proof. vm_compute. reflexivity. Qed.

(** A quoted value with a space is not redacted in an error's message. *)
Lemma quoted_secret_kept :
  @errorMessage asciiOnly [] (TString (js "password='my secret'")) None None = js "password='my secret'".
Proof. vm_compute. reflexivity. Qed.

(** A cap between 0 and 1 is floored to 0: the persisted text is empty. *)
Lemma half_a_character :
  truncatePersistedError (Some (js "boom")) None (Some (js "0.5")) (JFin (1 # 2)) = Some [].
Proof. reflexivity. Qed.
End Masking.
