(* ===== verification/AgentTools.v ===== *)
(** * The agent's tools

    packages/llm-agent, agent.tools.ts: the registry of tools with its startup
    check, the validation of the arguments a model sends, the canonical text of
    arguments by which repeated calls are recognised, and the disclosures of
    bounded results.

    The argument schemas are zod objects.  A schema is the list of its declared
    fields; [Zod] is the library's [safeParse] and [ZodLaws] its documented
    behaviour on strict objects: what is accepted, that the data are the input with
    the declared preprocessing applied, and which keys the issues name. *)

From S2P Require Import Prelude Json.

Module AgentTools.
Import Json.

(** A literal whose tildes are quotation marks. *)
Definition qtxt (s : string) : jsstring := (λ c, if c =? 126 then 34 else c) <$> txt s.

(** ** Registry *)

Record AgentToolCapability := mkCap {
  effect : string;
  identity : string;
  authorization : string;
  confirmation : string;
  idempotency : string;
  providerGuaranteeRequired : option bool  (** [None]: not a boolean *)
}.

(** Metadata as the startup check sees them, before anything is known of their
    types: [None] for a value that is not an array or a string. *)
Record AgentToolMetadata := mkMetadata {
  observationFields : option (list (option string));
  learnerLabel : option jsstring;
  groundingClaims : option (list (option string));
  budget : option string;
  writeAction : option (option jsstring)   (** [None]: undefined *)
}.

Inductive ArgKind :=
| BoundedPositiveInteger (max : Z)
| PositiveInt
| Enum (values : list string)
| Text.

Record ArgField := mkField { fieldName : string; fieldKind : ArgKind; isOptional : bool }.

Abbreviation AgentToolArgsSchema := (list ArgField).

Record AgentToolDefinition := mkTool {
  name : jsstring;
  description : jsstring;
  args : AgentToolArgsSchema;
  parameters : json;
  capability : option AgentToolCapability;
  metadata : option AgentToolMetadata
}.

Definition READ_ONLY_CAPABILITY : AgentToolCapability :=
  mkCap "read_only" "linked_wispace_account" "linked_account" "none" "none" (Some false).

Definition EXPLICIT_INTENT_CAPABILITY : AgentToolCapability :=
  mkCap "idempotent_side_effect" "linked_wispace_account" "linked_account" "explicit_intent"
        "provider_key" (Some true).

Definition RESCHEDULE_CAPABILITY : AgentToolCapability :=
  mkCap "confirmation_required" "linked_wispace_account" "linked_account" "approval_token"
        "confirmation_nonce" (Some false).

Definition MAX_UPCOMING_LIMIT : Z := 10.
Definition MAX_PAST_DAYS : Z := 365.

Definition noArgs : AgentToolArgsSchema := [].

Definition getUpcomingStudySessionsArgs : AgentToolArgsSchema :=
  [mkField "limit" (BoundedPositiveInteger MAX_UPCOMING_LIMIT) true].

Definition listStudyCalendarEntriesArgs : AgentToolArgsSchema :=
  [mkField "timeRange" (Enum ["upcoming"; "past"; "all"]%string) true;
   mkField "limit" (BoundedPositiveInteger MAX_UPCOMING_LIMIT) true;
   mkField "pastDays" (BoundedPositiveInteger MAX_PAST_DAYS) true].

Definition rescheduleStudySessionArgs : AgentToolArgsSchema :=
  [mkField "calendarId" PositiveInt false;
   mkField "schedulingMode" (Enum ["default_next_day_same_time"; "explicit"]%string) false;
   mkField "newLocalDate" Text true;
   mkField "newTime" Text true].

Definition COMMON_TOOL_OBSERVATION_FIELDS : list string :=
  ["available"; "blocked"; "error"; "message"; "reason"]%string.

(** An entry of [agentToolSpecs]. *)
Record AgentToolSpec := mkSpec {
  specName : string;
  specDescription : jsstring;
  specArgs : AgentToolArgsSchema;
  specCapability : AgentToolCapability;
  specMetadata : AgentToolMetadata
}.

Definition mkMeta (fields : list string) (label : jsstring) (claims : list string) (budget : string)
    (action : option jsstring) : AgentToolMetadata :=
  mkMetadata (Some (Some <$> fields)) (Some label) (Some (Some <$> claims)) (Some budget)
             (Some <$> action).

Definition agentToolSpecs : list AgentToolSpec :=
  [ mkSpec "get_learning_progress_report"
      (qtxt "Lấy báo cáo tiến độ học IELTS Writing đầy đủ: điểm task 1/2, mục tiêu, số bài đã làm, gợi ý cải thiện.")
      noArgs READ_ONLY_CAPABILITY
      (mkMeta (["report"]%string ++ COMMON_TOOL_OBSERVATION_FIELDS)
              (txt "báo cáo tiến độ") ["goals"; "progress"]%string "none" None);
    mkSpec "get_user_goals"
      (qtxt "Lấy mục tiêu band và ngày thi IELTS của học viên từ WISPACE.")
      noArgs READ_ONLY_CAPABILITY
      (mkMeta (["targetScore"; "examDate"]%string ++ COMMON_TOOL_OBSERVATION_FIELDS)
              (txt "mục tiêu band và ngày thi") ["goals"]%string "none" None);
    mkSpec "get_upcoming_study_sessions"
      (qtxt "Danh sách buổi học IELTS Writing sắp tới từ lịch UserCalendar của học viên. Dùng để hiển thị lịch. Nếu cần calendarId để đổi lịch, dùng list_study_calendar_entries thay thế.")
      getUpcomingStudySessionsArgs READ_ONLY_CAPABILITY
      (mkMeta (["timeRange"; "count"; "requestedLimit"; "effectiveLimit"; "requestedPastDays"; "effectivePastDays"; "capped"; "completeness"; "sessions"; "reminderNotice"]%string ++ COMMON_TOOL_OBSERVATION_FIELDS)
              (txt "lịch học sắp tới") ["schedule"]%string "none" None);
    mkSpec "list_study_calendar_entries"
      (qtxt "Liệt kê lịch học UserCalendar (calendarId, scheduledTimeLabel). timeRange=upcoming (mặc định) cho lịch sắp tới và đổi lịch; past cho lịch đã qua; all cho cả hai. Học viên hỏi lịch đã qua/history → timeRange=past hoặc all (mặc định lấy trong 90 ngày gần). Không từ chối khi học viên hỏi lịch quá khứ — dữ liệu lấy từ UserCalendar. Dùng tool này (không dùng get_upcoming_study_sessions) khi đổi lịch.")
      listStudyCalendarEntriesArgs READ_ONLY_CAPABILITY
      (mkMeta (["timeRange"; "count"; "requestedLimit"; "effectiveLimit"; "requestedPastDays"; "effectivePastDays"; "capped"; "completeness"; "entries"; "reminderNotice"]%string ++ COMMON_TOOL_OBSERVATION_FIELDS)
              (txt "lịch học") ["schedule"]%string "none" None);
    mkSpec "reschedule_study_session"
      (qtxt "Luôn gọi list_study_calendar_entries trước để lấy calendarId. Tool KHÔNG đổi lịch ngay — chỉ gửi yêu cầu xác nhận bằng nút trên Messenger/Discord hoặc mã token trên Zalo; lịch chỉ thay đổi sau khi học viên xác nhận đúng cách. Không coi các câu đồng ý chung như ~ok~, ~yes~, ~confirm~, ~đồng ý~ là phê duyệt và không gọi lại tool để xác nhận. Sau khi gọi: báo ngắn gọn đã gửi yêu cầu xác nhận; KHÔNG nói «đã dời» cho tới khi học viên xác nhận (kết quả không về trong cùng lượt tool). Chỉ đúng 1 buổi học và học viên muốn dời mà không nêu ngày/giờ mới → schedulingMode=default_next_day_same_time (cùng giờ, +1 ngày so với buổi đang dời; buổi ngày mai → ngày kia). Nhiều buổi học → hỏi buổi nào (vd ~buổi ngày mai~, ~buổi 15/6~) dựa trên scheduledTimeLabel trong danh sách. Học viên không nêu ngày/giờ mới rõ ràng → default_next_day_same_time; nêu rõ ngày/giờ → explicit kèm newLocalDate (YYYY-MM-DD) và/hoặc newTime (HH:mm).")
      rescheduleStudySessionArgs RESCHEDULE_CAPABILITY
      (mkMeta (["pendingConfirmation"; "rescheduled"; "sessionLabel"; "summary"]%string ++ COMMON_TOOL_OBSERVATION_FIELDS)
              (txt "thông tin đổi lịch") []%string "write" (Some (txt "đổi lịch học")));
    mkSpec "preview_next_study_reminder"
      (qtxt "Chỉ dùng khi học viên TỰ yêu cầu xem trước nội dung tin nhắn nhắc buổi học. Không gọi sau khi xem lịch học; không gọi để xem trước tin nhắn nhắc tự động (reminderNotice) khi tool lịch trả về — lúc đó chỉ nhắc lại đúng nội dung reminderNotice.")
      noArgs READ_ONLY_CAPABILITY
      (mkMeta (["hasSession"; "scheduledTimeLabel"; "reminder"; "message"; "session"]%string ++ COMMON_TOOL_OBSERVATION_FIELDS)
              (txt "tin nhắn nhắc buổi học") ["schedule"]%string "none" None);
    mkSpec "register_exam_report_notifications"
      (qtxt "Chỉ gọi khi học viên yêu cầu rõ ràng đăng ký nhận báo cáo AI tự động, ví dụ ~đăng ký nhận báo cáo~ hoặc ~muốn nhận báo cáo tự động~. Không gọi khi học viên chỉ muốn xem báo cáo, nói báo cáo cho mình, nói đăng ký chung hoặc nhận thông tin.")
      noArgs EXPLICIT_INTENT_CAPABILITY
      (mkMeta (["registered"; "alreadyActive"; "automatic"; "blocked"]%string ++ COMMON_TOOL_OBSERVATION_FIELDS)
              (txt "đăng ký nhận báo cáo") []%string "exempt" None);
    mkSpec "precreate_next_exercise"
      (qtxt "Chỉ gọi khi học viên yêu cầu rõ ràng tạo hoặc nhận một bài tập mới tiếp theo trong roadmap (vd ~tạo bài tập cho mình~, ~cho mình bài tập mới~). Không gọi nếu học viên chọn taskType, exerciseTopic, topic hoặc difficulty; tool này không nhận tham số lựa chọn hay id tài nguyên — endpoint tự lấy bài tiếp theo theo identity đã liên kết.")
      noArgs EXPLICIT_INTENT_CAPABILITY
      (mkMeta (["exerciseUrl"; "url"; "status"; "created"; "existing"; "messageHint"]%string ++ COMMON_TOOL_OBSERVATION_FIELDS)
              (txt "thông tin bài tập mới") ["exercise"]%string "write" (Some (txt "tạo bài tập mới"))) ].

Definition AGENT_TOOL_NAMES : list jsstring := (λ s, js (specName s)) <$> agentToolSpecs.

Definition isAgentToolName (n : jsstring) : bool := bool_decide (n ∈ AGENT_TOOL_NAMES).

Definition hasGroundingClaim (n : jsstring) (claim : string) : bool :=
  match find (λ s, bool_decide (js (specName s) = n)) agentToolSpecs with
  | Some s => existsb (λ c, bool_decide (c = Some claim)) (default [] (groundingClaims (specMetadata s)))
  | None => false
  end.

Definition getAgentToolNamesByGroundingClaim (claim : string) : list jsstring :=
  filter (λ n, hasGroundingClaim n claim = true) AGENT_TOOL_NAMES.

Definition SCORE_TOOLS : list jsstring := getAgentToolNamesByGroundingClaim "goals".
Definition SCHEDULE_TOOLS : list jsstring := getAgentToolNamesByGroundingClaim "schedule".

(** [exposeCapabilityVocabulary]: the description the model is shown. *)
Definition vocabulary (d : jsstring) (c : AgentToolCapability) : jsstring :=
  d ++ js " Policy vocabulary: effect=" ++ js (effect c) ++ js "; identity=" ++ js (identity c)
    ++ js "; authorization=" ++ js (authorization c) ++ js "; confirmation=" ++ js (confirmation c)
    ++ js "; idempotency=" ++ js (idempotency c) ++ js "; provider_guarantee="
    ++ match providerGuaranteeRequired c with
       | Some true => js "true" | Some false => js "false" | None => js "undefined" end ++ js ".".

(** [schema.safeParse] of a strict object and of its [partial()], and
    [z.toJSONSchema]. *)
Inductive Issue :=
| UnrecognizedKeys (keys : list jsstring)
| FieldIssue (key : option jsstring).  (** [None]: the path does not start with a string *)

Abbreviation jobj := (list (jsstring * json)).

Class Zod := {
  safeParse : AgentToolArgsSchema → bool → jobj → list Issue + jobj;
  toJSONSchema : AgentToolArgsSchema → jobj
}.

Section Catalogue.
Context `{Zod}.

(** [toProviderSchema]: without its dollar-schema property. *)
Definition toProviderSchema (a : AgentToolArgsSchema) : json :=
  JObj (filter (λ kv, kv.1 ≠ js "$schema") (toJSONSchema a)).

Definition AGENT_TOOLS : list AgentToolDefinition :=
  (λ s, mkTool (js (specName s)) (vocabulary (specDescription s) (specCapability s)) (specArgs s)
               (toProviderSchema (specArgs s)) (Some (specCapability s)) (Some (specMetadata s)))
  <$> agentToolSpecs.

Definition getAgentToolDefinition (n : jsstring) : option AgentToolDefinition :=
  find (λ t, bool_decide (name t = n)) AGENT_TOOLS.

(** [deriveAgentToolMap]; [None] when a tool is missing. *)
Definition deriveAgentToolMap {A} (select : AgentToolDefinition → A) : option (list (jsstring * A)) :=
  mapM (λ n, (λ t, (n, select t)) <$> getAgentToolDefinition n) AGENT_TOOL_NAMES.
End Catalogue.

(** *** The startup check *)

Inductive RegistryError :=
| UnknownTool | DuplicateTool | MissingCapability | MissingMetadata | InvalidObservation | InvalidLabel
| InvalidGrounding | InvalidBudget | MissingWriteAction | InvalidWriteAction | InvalidEffect
| InvalidIdentity | InvalidAuthorization | InvalidConfirmation | InvalidIdempotency
| InvalidProviderGuarantee | NoIdempotencyGuarantee | NoApprovalNonce | InvalidParameters
| IncompleteRegistry.

Definition EFFECTS : list string := ["read_only"; "idempotent_side_effect"; "confirmation_required"]%string.
Definition IDENTITIES : list string := ["platform_identity"; "linked_wispace_account"]%string.
Definition AUTHORIZATIONS : list string := ["linked_account"]%string.
Definition CONFIRMATIONS : list string := ["none"; "explicit_intent"; "approval_token"]%string.
Definition IDEMPOTENCY : list string :=
  ["none"; "canonical_args"; "provider_key"; "confirmation_nonce"]%string.
Definition GROUNDING_CLAIMS : list string := ["goals"; "progress"; "schedule"; "exercise"]%string.
Definition BUDGET_CLASSIFICATIONS : list string := ["none"; "write"; "exempt"]%string.

Definition has (l : list string) (x : string) : bool := bool_decide (x ∈ l).

(** [typeof v !== 'string' || !v.trim()]. *)
Definition blankText (v : option jsstring) : bool :=
  match v with Some s => js_blank s | None => true end.

Fixpoint firstError (checks : list (bool * RegistryError)) : option RegistryError :=
  match checks with
  | [] => None
  | (bad, e) :: checks' => if bad then Some e else firstError checks'
  end.

Definition metadataChecks (m : AgentToolMetadata) : list (bool * RegistryError) :=
  [(match observationFields m with Some l => existsb (λ f, bool_decide (f = None)) l | None => true end,
    InvalidObservation);
   (blankText (learnerLabel m), InvalidLabel);
   (match groundingClaims m with
    | Some l => existsb (λ c, match c with Some c => negb (has GROUNDING_CLAIMS c) | None => true end) l
    | None => true end, InvalidGrounding);
   (match budget m with Some b => negb (has BUDGET_CLASSIFICATIONS b) | None => true end, InvalidBudget);
   (bool_decide (budget m = Some "write"%string) && blankText (mjoin (writeAction m)), MissingWriteAction);
   (match writeAction m with Some a => blankText a | None => false end, InvalidWriteAction)].

Definition capabilityChecks (c : AgentToolCapability) : list (bool * RegistryError) :=
  [(negb (has EFFECTS (effect c)), InvalidEffect);
   (negb (has IDENTITIES (identity c)), InvalidIdentity);
   (negb (has AUTHORIZATIONS (authorization c)), InvalidAuthorization);
   (negb (has CONFIRMATIONS (confirmation c)), InvalidConfirmation);
   (negb (has IDEMPOTENCY (idempotency c)), InvalidIdempotency);
   (bool_decide (providerGuaranteeRequired c = None), InvalidProviderGuarantee);
   (bool_decide (effect c = "idempotent_side_effect"%string)
      && (negb (bool_decide (providerGuaranteeRequired c = Some true))
          || negb (bool_decide (idempotency c = "provider_key"%string))), NoIdempotencyGuarantee);
   (bool_decide (effect c = "confirmation_required"%string)
      && (negb (bool_decide (confirmation c = "approval_token"%string))
          || negb (bool_decide (idempotency c = "confirmation_nonce"%string))), NoApprovalNonce)].

Definition parametersCheck (p : json) : bool :=
  match p with JObj o => negb (bool_decide (jm_get (js "type") o = Some (JStr (js "object")))) | _ => true end.

(** The checks of one tool, given the names seen before it. *)
Definition checkTool (seen : list jsstring) (t : AgentToolDefinition) : option RegistryError :=
  match firstError [(negb (isAgentToolName (name t)), UnknownTool);
                    (bool_decide (name t ∈ seen), DuplicateTool)], capability t, metadata t with
  | Some e, _, _ => Some e
  | None, None, _ => Some MissingCapability
  | None, _, None => Some MissingMetadata
  | None, Some c, Some m =>
      firstError (metadataChecks m ++ capabilityChecks c ++ [(parametersCheck (parameters t), InvalidParameters)])
  end.

Fixpoint checkTools (seen : list jsstring) (tools : list AgentToolDefinition) : option RegistryError :=
  match tools with
  | [] => if bool_decide (length seen = length AGENT_TOOL_NAMES) then None else Some IncompleteRegistry
  | t :: tools' =>
      match checkTool seen t with Some e => Some e | None => checkTools (seen ++ [name t]) tools' end
  end.

(** [validateAgentToolRegistry]: the error it throws, if any. *)
Definition validateAgentToolRegistry (tools : list AgentToolDefinition) : option RegistryError :=
  checkTools [] tools.

(** ** Canonical text *)

(** The order of [Array.prototype.sort] on strings: by code units. *)
Fixpoint unitsLe (s t : jsstring) : bool :=
  match s, t with
  | [], _ => true
  | _ :: _, [] => false
  | a :: s', b :: t' => (a <? b) || (a =? b) && unitsLe s' t'
  end.

Definition sortKeys {A} (o : list (jsstring * A)) : list (jsstring * A) :=
  sortBy (λ a b, unitsLe a.1 b.1) o.

Fixpoint normalize (v : json) : json :=
  match v with
  | JArr l => JArr (map normalize l)
  | JObj o => JObj (objOf (sortKeys (map (λ kv, (kv.1, normalize kv.2)) o)))
  | _ => v
  end.

Definition canonicalizeToolArguments (v : json) : jsstring := stringify (normalize v).

(** ** Validation of arguments *)

Definition safeMax : Z := 9007199254740991.

(** [Number.isSafeInteger], with the integer. *)
Definition safeInt (m e : Z) : option Z :=
  if (0 <=? e) && (e <=? 16) && (Z.abs (m * 10 ^ e) <=? safeMax) then Some (m * 10 ^ e) else None.

Definition jsonInt (v : json) : option Z :=
  match v with JNum m e => safeInt m e | _ => None end.

Definition numOf (z : Z) : json := let '(m, e) := norm z 0 in JNum m e.

(** A present value of a field, by kind. *)
Definition fieldOk (k : ArgKind) (v : json) : bool :=
  match k with
  | BoundedPositiveInteger _ | PositiveInt =>
      match jsonInt v with Some z => 0 <? z | None => false end
  | Enum values => match v with JStr s => bool_decide (s ∈ (js <$> values)) | _ => false end
  | Text => match v with JStr _ => true | _ => false end
  end.

(** The preprocessing step of [boundedPositiveInteger]. *)
Definition clampArg (k : ArgKind) (v : json) : json :=
  match k, jsonInt v with
  | BoundedPositiveInteger max, Some z => if 0 <? z then numOf (Z.min z max) else v
  | _, _ => v
  end.

Definition fieldOf (sh : AgentToolArgsSchema) (k : jsstring) : option ArgField :=
  find (λ f, bool_decide (js (fieldName f) = k)) sh.

(** A key's value is not acceptable to its field. *)
Definition badValue (sh : AgentToolArgsSchema) (kv : jsstring * json) : bool :=
  match fieldOf sh kv.1 with Some f => negb (fieldOk (fieldKind f) kv.2) | None => false end.

Definition missingField (o : jobj) (f : ArgField) : bool :=
  negb (isOptional f) && negb (bool_decide (js (fieldName f) ∈ o.*1)).

Definition accepts (sh : AgentToolArgsSchema) (partial : bool) (o : jobj) : bool :=
  forallb (λ kv, match fieldOf sh kv.1 with Some f => fieldOk (fieldKind f) kv.2 | None => false end) o
  && (partial || negb (existsb (missingField o) sh)).

Definition clampArgs (sh : AgentToolArgsSchema) (o : jobj) : jobj :=
  (λ kv, (kv.1, match fieldOf sh kv.1 with Some f => clampArg (fieldKind f) kv.2 | None => kv.2 end)) <$> o.

Class ZodLaws `{Zod} := {
  zod_accepts sh partial o : (∃ d, safeParse sh partial o = inr d) ↔ accepts sh partial o = true;
  (** the data have the input's properties, preprocessed, in the schema's order *)
  zod_data sh partial o d :
    NoDup o.*1 → safeParse sh partial o = inr d →
    NoDup d.*1 ∧ (ownOrder d).*1 = d.*1 ∧ d ≡ₚ clampArgs sh o;
  (** the issues name the unknown keys and the unacceptable ones *)
  zod_unknown sh partial o issues k :
    safeParse sh partial o = inl issues → k ∈ o.*1 →
    (∃ keys, UnrecognizedKeys keys ∈ issues ∧ k ∈ keys) ↔ fieldOf sh k = None;
  zod_invalid sh partial o issues kv :
    NoDup o.*1 → safeParse sh partial o = inl issues → kv ∈ o →
    FieldIssue (Some kv.1) ∈ issues ↔ badValue sh kv = true
}.

Inductive ToolArgumentError :=
| ToolNotSupported | InvalidJSON | NotAnObject
| UnknownArgument (k : jsstring) | InvalidArgument (k : jsstring) | MissingArgument (k : jsstring)
| InvalidArguments.

Definition errorText (e : ToolArgumentError) : jsstring :=
  match e with
  | ToolNotSupported => txt "Tool không được hỗ trợ"
  | InvalidJSON => js "Invalid tool arguments JSON"
  | NotAnObject => js "Tool arguments must be a JSON object"
  | UnknownArgument k => js "Unknown tool argument: " ++ k
  | InvalidArgument k => js "Invalid tool argument: " ++ k
  | MissingArgument k => js "Missing tool argument: " ++ k
  | InvalidArguments => js "Invalid tool arguments"
  end.

Inductive ToolArgumentValidationResult :=
| Valid (args : jobj) (requestedArgs : option jobj) (canonicalArgs : jsstring)
| Invalid (error : ToolArgumentError).

(** A found key counts only when it is not the empty string. *)
Definition truthyKey (k : option jsstring) : option jsstring :=
  match k with Some [] => None | _ => k end.

Definition hasArgValue (o : jobj) (k : jsstring) : bool := bool_decide (k ∈ o.*1).

Definition toolArgumentsErrorMessage (sh : AgentToolArgsSchema) (o : jobj) (issues : list Issue)
    : ToolArgumentError :=
  let unknownKeys := issues ≫= (λ i, match i with UnrecognizedKeys ks => ks | _ => [] end) in
  let invalidKeys := filter (λ k, hasArgValue o k = true)
      (issues ≫= (λ i, match i with FieldIssue (Some k) => [k] | _ => [] end)) in
  match truthyKey (find (λ k, bool_decide (k ∈ unknownKeys)) o.*1) with
  | Some k => UnknownArgument k
  | None =>
  match truthyKey (find (λ k, bool_decide (k ∈ invalidKeys)) o.*1) with
  | Some k => InvalidArgument k
  | None =>
  match truthyKey (find (λ k, negb (bool_decide (k ∈ invalidKeys)) && negb (hasArgValue o k))
                        ((λ f, js (fieldName f)) <$> filter (λ f, isOptional f = false) sh)) with
  | Some k => MissingArgument k
  | None => InvalidArguments
  end end end.

Section Validate.
Context `{Zod}.

(** The arguments of a known tool: an empty text is no arguments. *)
Definition parseArgs (argsJson : jsstring) : option json :=
  if js_blank argsJson then Some (JObj []) else parse argsJson.

Definition parseAndValidateToolArguments (toolName argsJson : jsstring) (allowMissingRequired : bool)
    : ToolArgumentValidationResult :=
  match getAgentToolDefinition toolName with
  | None => Invalid ToolNotSupported
  | Some tool =>
  match parseArgs argsJson with
  | None => Invalid InvalidJSON
  | Some (JObj o) =>
      match safeParse (args tool) allowMissingRequired o with
      | inr d =>
          let canonicalArgs := canonicalizeToolArguments (JObj o) in
          Valid d (if bool_decide (canonicalizeToolArguments (JObj d) = canonicalArgs) then None else Some o)
                canonicalArgs
      | inl issues => Invalid (toolArgumentsErrorMessage (args tool) o issues)
      end
  | Some _ => Invalid NotAnObject
  end end.

(** [call.arguments || '{}']. *)
Definition argsOf (a : jsstring) : jsstring := if bool_decide (a = []) then js "{}" else a.

(** [toolCallKey] of agent.service.ts. *)
Definition serviceKey (n a : jsstring) : jsstring :=
  n ++ 58 :: match parseAndValidateToolArguments n (argsOf a) false with
             | Valid _ _ canonical => canonical
             | Invalid _ => argsOf a
             end.

(** [toolCallKey] of tool-round-executor.ts. *)
Definition toolCallKey (n a : jsstring) : jsstring :=
  n ++ 58 :: match parseAndValidateToolArguments n (argsOf a) false with
             | Valid d requested _ => canonicalizeToolArguments (JObj (default d requested))
             | Invalid _ => argsOf a
             end.
End Validate.

(** ** Reading single arguments

    [None] as a value is undefined; the result [None] is the TypeError. *)

Definition positiveInteger (v : json) : option Z :=
  match jsonInt v with Some z => if 0 <? z then Some z else None | None => None end.

Definition readPositiveLimit (v : option json) (fallback : Z) : option Z :=
  match v with
  | None => Some fallback
  | Some v => (λ z, Z.min z MAX_UPCOMING_LIMIT) <$> positiveInteger v
  end.

Definition readPastDays (v : option json) : option Z :=
  match v with
  | None => Some 90
  | Some v => (λ z, Z.min z MAX_PAST_DAYS) <$> positiveInteger v
  end.

Definition readPositiveInteger (v : option json) : option (option Z) :=
  match v with None => Some None | Some v => Some <$> positiveInteger v end.

Definition readOptionalString (v : option json) : option jsstring :=
  match v with
  | Some (JStr s) => if js_blank s then None else Some (js_trim s)
  | _ => None
  end.

(** A text of digits and fixed units: [None] stands for a digit. *)
Fixpoint matches (shape : list (option Z)) (s : jsstring) : bool :=
  match shape, s with
  | [], [] => true
  | None :: shape', c :: s' => isDigit c && matches shape' s'
  | Some d :: shape', c :: s' => (c =? d) && matches shape' s'
  | _, _ => false
  end.

Definition readShaped (shape : list (option Z)) (v : option json) : option jsstring :=
  match readOptionalString v with
  | Some s => if matches shape s then Some s else None
  | None => None
  end.

Definition dateShape : list (option Z) :=
  [None; None; None; None; Some 45; None; None; Some 45; None; None].
Definition timeShape : list (option Z) := [None; None; Some 58; None; None].

Definition readValidatedDate : option json → option jsstring := readShaped dateShape.
Definition readValidatedTime : option json → option jsstring := readShaped timeShape.

(** ** Bounded results *)

Inductive CalendarTimeRange := Upcoming | Past | All.
Inductive ToolResultCompleteness := Incomplete | Unknown.

#[export] Instance timeRange_eq_dec : EqDecision CalendarTimeRange.
Proof. solve_decision. Defined.
#[export] Instance completeness_eq_dec : EqDecision ToolResultCompleteness.
Proof. solve_decision. Defined.

(** The properties of a tool result that say how it was bounded. *)
Record BoundedToolResultMetadata := mkBounded {
  b_timeRange : option CalendarTimeRange;
  b_requestedLimit : option Z;
  b_effectiveLimit : Z;
  b_requestedPastDays : option Z;
  b_effectivePastDays : option Z;
  b_count : option Z;
  b_capped : bool;
  b_completeness : ToolResultCompleteness
}.

Definition exceeds (requested effective : option Z) : bool :=
  match requested, effective with Some r, Some e => e <? r | _, _ => false end.

Definition buildBoundedToolResultMetadata (requestedLimit : option Z) (effectiveLimit : Z)
    (requestedPastDays effectivePastDays : option Z) : BoundedToolResultMetadata :=
  let capped := exceeds requestedLimit (Some effectiveLimit)
                || exceeds requestedPastDays effectivePastDays in
  mkBounded None requestedLimit effectiveLimit requestedPastDays effectivePastDays None capped
            (if capped then Incomplete else Unknown).

Record BoundedToolDisclosure := mkDisclosure {
  timeRange : option CalendarTimeRange;
  limit : Z;
  pastDays : option Z;
  requestedLimit : option Z;
  requestedPastDays : option Z;
  count : option Z;
  capped : bool;
  completeness : ToolResultCompleteness
}.

(** The refinement of [boundedToolDisclosureSchema]. *)
Definition coherent (m : BoundedToolResultMetadata) : bool :=
  bool_decide (b_completeness m = if b_capped m then Incomplete else Unknown).

(** [readBoundedToolDisclosure], of what the schema's fields parse to. *)
Definition readBoundedToolDisclosure (parsed : option BoundedToolResultMetadata)
    : option BoundedToolDisclosure :=
  match parsed with
  | Some m =>
      if coherent m
      then Some (mkDisclosure (b_timeRange m) (b_effectiveLimit m) (b_effectivePastDays m)
                   (b_requestedLimit m) (b_requestedPastDays m) (b_count m) (b_capped m) (b_completeness m))
      else None
  | None => None
  end.

Definition sameBoundedToolScope (current next : BoundedToolDisclosure) : bool :=
  bool_decide (timeRange current = timeRange next) && (limit current =? limit next)
  && bool_decide (pastDays current = pastDays next)
  && bool_decide (requestedLimit current = requestedLimit next)
  && bool_decide (requestedPastDays current = requestedPastDays next).

(** The scope of [current], capped, with the count if it is one. *)
Definition cappedScope (current : BoundedToolDisclosure) (n : option Z) : BoundedToolDisclosure :=
  mkDisclosure (timeRange current) (limit current) (pastDays current) (requestedLimit current)
               (requestedPastDays current) n true Incomplete.

Definition mergeBoundedToolDisclosures (current : option BoundedToolDisclosure)
    (next : BoundedToolDisclosure) : BoundedToolDisclosure :=
  match current with
  | None => next
  | Some c =>
      if negb (sameBoundedToolScope c next) then (if capped c then c else next)
      else if xorb (capped c) (capped next) then (if negb (capped c) then next else cappedScope c None)
      else if negb (capped c) then next
      else cappedScope c (if bool_decide (count c = count next) then count c else None)
  end.

(** ** Canonical text *)

(** Equal up to the order of keys. *)
Fixpoint jequiv (v w : json) : Prop :=
  match v, w with
  | JArr l, JArr l' =>
      (fix go (l l' : list json) : Prop :=
         match l, l' with
         | [], [] => True
         | x :: l, y :: l' => jequiv x y ∧ go l l'
         | _, _ => False
         end) l l'
  | JObj o, JObj o' =>
      o.*1 ≡ₚ o'.*1 ∧ foldr (λ kv P, (∃ w, (kv.1, w) ∈ o' ∧ jequiv kv.2 w) ∧ P) True o
  | JArr _, _ | JObj _, _ => False
  | _, _ => v = w
  end.

Lemma unitsLe_total s t : unitsLe s t = true ∨ unitsLe t s = true.
Proof.
  revert t. induction s as [|a s IH]; intros [|b t]; simpl; auto.
  destruct (IH t) as [H|H]; destruct (Z.ltb_spec a b), (Z.ltb_spec b a), (Z.eqb_spec a b), (Z.eqb_spec b a);
    simpl; auto; lia.
Qed.

Lemma unitsLe_antisym s t : unitsLe s t = true → unitsLe t s = true → s = t.
Proof.
  revert t. induction s as [|a s IH]; intros [|b t]; simpl; try done.
  destruct (Z.ltb_spec a b), (Z.ltb_spec b a), (Z.eqb_spec a b), (Z.eqb_spec b a); simpl; try done; try lia.
  intros. subst. f_equal. by apply IH.
Qed.

Lemma unitsLe_trans s t u : unitsLe s t = true → unitsLe t u = true → unitsLe s u = true.
Proof.
  revert t u. induction s as [|a s IH]; intros [|b t] [|c u]; simpl; try done.
  rewrite !orb_true_iff, !andb_true_iff, !Z.ltb_lt, !Z.eqb_eq.
  intros [?|[-> ?]] [?|[-> ?]]; [left; lia|left; lia|left; lia|right; eauto].
Qed.

Lemma same_key {A} (o : list (jsstring * A)) x y : NoDup o.*1 → x ∈ o → y ∈ o → x.1 = y.1 → x = y.
Proof.
  induction o as [|z o IH]; [by intros _ ?%not_elem_of_nil|]. rewrite fmap_cons.
  intros [Hn Hnd]%NoDup_cons Hx Hy E.
  apply elem_of_cons in Hx as [->|Hx]; apply elem_of_cons in Hy as [->|Hy]; [done| | |by apply IH].
  - destruct Hn. rewrite E. by apply list_elem_of_fmap_2.
  - destruct Hn. rewrite <-E. by apply list_elem_of_fmap_2.
Qed.

Lemma sortKeys_perm {A} (o : list (jsstring * A)) : sortKeys o ≡ₚ o.
Proof. apply sortBy_perm. Qed.

Lemma sortKeys_unique {A} (o o' : list (jsstring * A)) : NoDup o.*1 → o ≡ₚ o' → sortKeys o = sortKeys o'.
Proof.
  intros Hnd. apply sortBy_unique.
  - intros x y. apply unitsLe_total.
  - intros x y z. apply unitsLe_trans.
  - intros x y Hx Hy Hxy Hyx. apply (same_key o); auto using unitsLe_antisym.
Qed.

(** The properties of a normalized object. *)
Definition normProps (o : jobj) : jobj := map (λ kv, (kv.1, normalize kv.2)) o.

Lemma normProps_keys o : (normProps o).*1 = o.*1.
Proof. unfold normProps. rewrite <-list_fmap_compose. by apply list_fmap_ext. Qed.

Lemma elem_of_normProps o k v : (k, v) ∈ normProps o ↔ ∃ w, (k, w) ∈ o ∧ normalize w = v.
Proof.
  unfold normProps. rewrite list_elem_of_fmap. split.
  - intros ([k' w] & [= -> ->] & Hin). eauto.
  - intros (w & Hin & <-). by exists (k, w).
Qed.

Lemma normalize_obj o : normalize (JObj o) = JObj (objOf (sortKeys (normProps o))).
Proof. done. Qed.

Lemma nodup_sorted (o : jobj) : NoDup o.*1 → NoDup (sortKeys o).*1.
Proof. by rewrite sortKeys_perm. Qed.

Lemma objOf_normProps_perm o : NoDup o.*1 → objOf (sortKeys (normProps o)) ≡ₚ normProps o.
Proof.
  intros Hnd. rewrite objOf_perm, sortKeys_perm; [done|]. apply nodup_sorted. by rewrite normProps_keys.
Qed.

Lemma wf_obj o :
  wf (JObj o) = true →
  NoDup o.*1 ∧ (ownOrder o).*1 = o.*1 ∧ ∀ k v, (k, v) ∈ o → forallb isUnit k = true ∧ wf v = true.
Proof.
  simpl. rewrite !andb_true_iff. intros [[Hnd Ho] Hf]. bool_to_prop. split; [done|]. split; [done|].
  intros k v Hin. rewrite forallb_forall in Hf. apply list_elem_of_In, Hf in Hin.
  by apply andb_true_iff in Hin.
Qed.

Lemma wf_normalize v : wf v = true → wf (normalize v) = true.
Proof.
  induction v as [|b|m e|s|l Hl|o Ho] using json_ind; try done.
  - simpl. rewrite Forall_forall in Hl. rewrite !forallb_forall. intros Hf x Hx.
    apply in_map_iff in Hx as (y & <- & Hy). apply Hl; [by apply list_elem_of_In|auto].
  - intros (Hnd & Hown & Hf)%wf_obj. rewrite normalize_obj.
    pose proof (objOf_normProps_perm o Hnd) as Hp.
    assert (NoDup (sortKeys (normProps o)).*1) as Hnd' by (apply nodup_sorted; by rewrite normProps_keys).
    simpl. rewrite !andb_true_iff, !bool_decide_eq_true. split; [split|].
    + by rewrite Hp, normProps_keys.
    + unfold objOf. by rewrite ownOrder_idem.
    + apply forallb_forall. intros [k v] Hin%list_elem_of_In. rewrite Hp in Hin.
      apply elem_of_normProps in Hin as (w & Hin & <-). destruct (Hf k w Hin) as [Hk Hw]. simpl.
      rewrite Hk. rewrite Forall_forall in Ho. apply (Ho (k, w)); done.
Qed.

Lemma jequiv_props (o o' : jobj) :
  foldr (λ kv P, (∃ w, (kv.1, w) ∈ o' ∧ jequiv kv.2 w) ∧ P) True o
  ↔ ∀ k v, (k, v) ∈ o → ∃ w, (k, w) ∈ o' ∧ jequiv v w.
Proof.
  induction o as [|[k v] o IH]; simpl; [split; [by intros _ k v ?%not_elem_of_nil|done]|].
  rewrite IH. split.
  - intros [Hw Ho] k' v' [[= -> ->]|Hin]%elem_of_cons; auto.
  - intros Hall. split; [apply Hall; left|]. intros k' v' Hin. apply Hall. by right.
Qed.

Lemma elem_of_keys {A} (o : list (jsstring * A)) k : k ∈ o.*1 ↔ ∃ v, (k, v) ∈ o.
Proof.
  rewrite list_elem_of_fmap. split; [intros ([k' v] & -> & Hin); eauto|intros (v & Hin); by exists (k, v)].
Qed.

Lemma normalize_jequiv v w : wf v = true → wf w = true → normalize v = normalize w ↔ jequiv v w.
Proof.
  revert w. induction v as [|b|m e|s|l Hl|o Ho] using json_ind; intros w Hv Hw.
  1-4: by destruct w.
  - destruct w as [| | | |l'|]; try (by destruct (normalize _)); try done. simpl in Hv, Hw. cbn [normalize jequiv].
    revert l' Hw Hv. induction Hl as [|v l Hx Hl IH]; intros [|w l'] Hw Hv; try done. simpl in Hv, Hw.
    apply andb_true_iff in Hv as [Hv Hvl], Hw as [Hw Hwl]. specialize (IH l' Hwl Hvl). cbn [map].
    rewrite <-IH, <-(Hx w) by done. split; [by intros [= -> ->]|by intros [-> [= ->]]].
  - destruct w as [| | | | |o']; try done. destruct (wf_obj o Hv) as (Hnd & _ & Hf).
    destruct (wf_obj o' Hw) as (Hnd' & _ & Hf'). rewrite !normalize_obj. cbn [jequiv].
    rewrite jequiv_props. rewrite Forall_forall in Ho.
    assert (∀ k v w, (k, v) ∈ o → (k, w) ∈ o' → normalize v = normalize w ↔ jequiv v w) as IH.
    { intros k v w H1 H2. apply (Ho (k, v)); [done|by apply (Hf k)|by apply (Hf' k)]. }
    split.
    + intros [= E]. assert (normProps o ≡ₚ normProps o') as Hp.
      { by rewrite <-(objOf_normProps_perm o), <-(objOf_normProps_perm o'), E by done. }
      split; [by rewrite <-(normProps_keys o), <-(normProps_keys o'), Hp|].
      intros k v Hin. assert ((k, normalize v) ∈ normProps o') as (w & Hin' & Ew)%elem_of_normProps
        by (rewrite <-Hp; apply elem_of_normProps; eauto).
      exists w. split; [done|]. by apply (IH k).
    + intros [Hk Hall]. f_equal. f_equal. apply sortKeys_unique; [by rewrite normProps_keys|].
      apply NoDup_Permutation; [apply (NoDup_fmap_1 fst); by rewrite normProps_keys..|].
      intros [k x]. rewrite !elem_of_normProps. split.
      * intros (v & Hin & <-). destruct (Hall k v Hin) as (w & Hin' & He). exists w. split; [done|].
        symmetry. by apply (IH k).
      * intros (w & Hin & <-). assert (k ∈ o'.*1) as Hko by (apply elem_of_keys; eauto).
        rewrite <-Hk in Hko. apply elem_of_keys in Hko as (v & Hv'). exists v. split; [done|].
        destruct (Hall k v Hv') as (w' & Hin' & He).
        assert ((k, w') = (k, w)) as [= ->] by (apply (same_key o'); done). by apply (IH k).
Qed.

(** Two values have one canonical text exactly when they differ in the order of
    keys only. *)
Lemma canonical_exact v w :
  wf v = true → wf w = true →
  canonicalizeToolArguments v = canonicalizeToolArguments w ↔ jequiv v w.
Proof.
  intros Hv Hw. rewrite <-normalize_jequiv by done. unfold canonicalizeToolArguments.
  split; [|by intros ->]. apply stringify_inj; by apply wf_normalize.
Qed.

(** ** Validation, proved *)

(** The first thing wrong with the arguments, in the order of the messages: an
    unknown key, an unacceptable value, a missing key.  An empty key is never
    named. *)
Definition firstProblem (sh : AgentToolArgsSchema) (partial : bool) (o : jobj) : option ToolArgumentError :=
  if accepts sh partial o then None else Some
  match truthyKey (find (λ k, bool_decide (fieldOf sh k = None)) o.*1) with
  | Some k => UnknownArgument k
  | None =>
  match truthyKey (fst <$> find (badValue sh) o) with
  | Some k => InvalidArgument k
  | None =>
  match truthyKey ((λ f, js (fieldName f)) <$> find (missingField o) sh) with
  | Some k => MissingArgument k
  | None => InvalidArguments
  end end end.

Lemma find_ext {A} (f g : A → bool) l : (∀ x, x ∈ l → f x = g x) → find f l = find g l.
Proof.
  induction l as [|x l IH]; [done|]. intros H. simpl. rewrite (H x) by left.
  destruct (g x); [done|]. apply IH. intros y Hy. apply H. by right.
Qed.

Lemma find_map {A B} (f : A → B) (p : B → bool) l : find p (f <$> l) = f <$> find (λ x, p (f x)) l.
Proof. induction l as [|x l IH]; [done|]. rewrite fmap_cons. simpl. by destruct (p (f x)). Qed.

Lemma find_filter {A} (p q : A → bool) l : find p (filter (λ x, q x = true) l) = find (λ x, q x && p x) l.
Proof.
  induction l as [|x l IH]; [done|]. cbn [find]. destruct (q x) eqn:E.
  - rewrite filter_cons_True by done. simpl. by rewrite IH.
  - by rewrite filter_cons_False by (by rewrite E).
Qed.

Section Laws.
Context `{ZodLaws}.

Lemma error_of_issues sh partial o issues :
  NoDup o.*1 → safeParse sh partial o = inl issues →
  Some (toolArgumentsErrorMessage sh o issues) = firstProblem sh partial o.
Proof.
  intros Hnd Hp. unfold firstProblem.
  assert (accepts sh partial o = false) as ->.
  { destruct (accepts sh partial o) eqn:E; [|done]. apply zod_accepts in E as [d Hd]. congruence. }
  unfold toolArgumentsErrorMessage.
  set (unknown := issues ≫= _). set (invalid := filter _ (issues ≫= _)).
  assert (∀ k, k ∈ o.*1 → k ∈ unknown ↔ fieldOf sh k = None) as Hu.
  { intros k Hk. rewrite <-(zod_unknown sh partial o issues k Hp Hk). unfold unknown.
    rewrite list_elem_of_bind. split.
    - intros ([keys|k'] & Hin & Hi); [by exists keys|by apply not_elem_of_nil in Hin].
    - intros (keys & Hi & Hin). by exists (UnrecognizedKeys keys). }
  assert (∀ kv, kv ∈ o → kv.1 ∈ invalid ↔ badValue sh kv = true) as Hi.
  { intros kv Hkv. rewrite <-(zod_invalid sh partial o issues kv Hnd Hp Hkv). unfold invalid.
    rewrite list_elem_of_filter, list_elem_of_bind. unfold hasArgValue. rewrite bool_decide_eq_true. split.
    - intros [_ ([keys|[k|]] & Hin & Hi)]; [by apply not_elem_of_nil in Hin| |by apply not_elem_of_nil in Hin].
      apply list_elem_of_singleton in Hin. by rewrite Hin.
    - intros Hi. split; [by apply list_elem_of_fmap_2|]. exists (FieldIssue (Some kv.1)).
      by rewrite list_elem_of_singleton. }
  rewrite (find_ext _ (λ k, bool_decide (fieldOf sh k = None)) o.*1) by (intros k Hk; by apply bool_decide_ext, Hu).
  generalize (find (λ k, bool_decide (fieldOf sh k = None)) o.*1). intros firstUnknown.
  rewrite (find_map fst).
  rewrite (find_ext _ (badValue sh) o).
  2: { intros kv Hkv. destruct (badValue sh kv) eqn:E; [by apply bool_decide_eq_true, Hi|].
       apply bool_decide_eq_false. rewrite Hi by done. congruence. }
  rewrite (find_map (λ f, js (fieldName f))).
  assert (find (λ f, negb (bool_decide (js (fieldName f) ∈ invalid)) && negb (hasArgValue o (js (fieldName f))))
            (filter (λ f, isOptional f = false) sh) = find (missingField o) sh) as Hm; [|by rewrite Hm].
  assert (filter (λ f, isOptional f = false) sh = filter (λ f, negb (isOptional f) = true) sh) as ->
    by (apply list_filter_iff; intros f; by rewrite negb_true_iff).
  rewrite find_filter. apply find_ext. intros f _. unfold missingField, hasArgValue.
  destruct (isOptional f); [done|]. simpl. destruct (decide (js (fieldName f) ∈ o.*1)) as [Hin|Hout].
  - rewrite (bool_decide_eq_true_2 (js (fieldName f) ∈ o.*1)) by done. by rewrite andb_false_r.
  - rewrite (bool_decide_eq_false_2 (js (fieldName f) ∈ o.*1)) by done.
    rewrite bool_decide_eq_false_2; [done|]. unfold invalid. rewrite list_elem_of_filter.
    unfold hasArgValue. rewrite bool_decide_eq_true. tauto.
Qed.

Lemma numOf_wf z : wf (numOf z) = true.
Proof. apply norm_wf. Qed.

Lemma clampArg_wf k v : wf v = true → wf (clampArg k v) = true.
Proof. unfold clampArg. intros Hv. repeat case_match; auto using numOf_wf. Qed.

Lemma clampArgs_keys sh o : (clampArgs sh o).*1 = o.*1.
Proof. unfold clampArgs. rewrite <-list_fmap_compose. by apply list_fmap_ext. Qed.

Lemma data_wf sh partial o d :
  wf (JObj o) = true → safeParse sh partial o = inr d → wf (JObj d) = true.
Proof.
  intros (Hnd & Hown & Hf)%wf_obj Hd. destruct (zod_data sh partial o d Hnd Hd) as (H1 & H2 & H3).
  simpl. rewrite (bool_decide_eq_true_2 _ H1), (bool_decide_eq_true_2 _ H2).
  apply forallb_forall. intros [k v] Hin%list_elem_of_In. rewrite H3 in Hin.
  apply list_elem_of_fmap in Hin as ([k' v'] & [= -> ->] & Hin). destruct (Hf k' v' Hin) as [Hk Hv].
  simpl. rewrite Hk. simpl. destruct (fieldOf sh k'); auto using clampArg_wf.
Qed.

(** The data are the input exactly when no argument was clamped. *)
Lemma data_unchanged sh partial o d :
  wf (JObj o) = true → safeParse sh partial o = inr d →
  canonicalizeToolArguments (JObj d) = canonicalizeToolArguments (JObj o) ↔ clampArgs sh o = o.
Proof.
  intros Hwf Hd. pose proof (data_wf _ _ _ _ Hwf Hd) as Hwd. rewrite canonical_exact by done.
  destruct (wf_obj o Hwf) as (Hnd & _ & _). destruct (zod_data sh partial o d Hnd Hd) as (Hnd' & _ & Hp).
  assert (accepts sh partial o = true) as Hacc by (apply zod_accepts; eauto).
  cbn [jequiv]. rewrite jequiv_props. split.
  - intros [_ Hall]. apply same_keys_perm; [by rewrite clampArgs_keys| |by rewrite clampArgs_keys].
    apply NoDup_Permutation; [apply (NoDup_fmap_1 fst); by rewrite ?clampArgs_keys..|].
    assert (∀ kv, kv ∈ clampArgs sh o → kv ∈ o) as Hsub.
    { intros [k v] Hin. rewrite <-Hp in Hin. destruct (Hall k v Hin) as (w & Hw & He).
      rewrite Hp in Hin. apply list_elem_of_fmap in Hin as ([k' v'] & [= -> ->] & Hin).
      assert ((k', w) = (k', v')) as [= ->] by (by apply (same_key o)).
      unfold accepts in Hacc. apply andb_true_iff in Hacc as [Hacc _]. rewrite forallb_forall in Hacc.
      specialize (Hacc (k', v') (proj1 (list_elem_of_In _ _) Hin)). simpl in Hacc.
      destruct (fieldOf sh k') as [f|]; [|done].
      assert (clampArg (fieldKind f) v' = v') as ->; [|done].
      unfold fieldOk in Hacc. unfold clampArg in *.
      destruct (fieldKind f) as [mx| | |]; [|done..]. destruct v' as [| |m e| | |]; try done.
      destruct (jsonInt (JNum m e)) as [z|]; [|done]. destruct (0 <? z); [|done].
      unfold numOf in He |- *. destruct (norm (Z.min z mx) 0). simpl in He. done. }
    intros kv. split; [apply Hsub|]. intros Hin.
    assert (kv.1 ∈ (clampArgs sh o).*1) as Hk by (rewrite clampArgs_keys; by apply list_elem_of_fmap_2).
    apply elem_of_keys in Hk as (v & Hv). pose proof (Hsub _ Hv) as Hv'.
    by rewrite (same_key o kv (kv.1, v)).
  - intros E. rewrite E in Hp. split; [by rewrite Hp|]. intros k v Hin. exists v. rewrite Hp in Hin.
    split; [done|]. destruct (proj2 (proj2 (wf_obj o Hwf)) k v Hin). by apply normalize_jequiv.
Qed.

Lemma parseArgs_wf s v : forallb isUnit s = true → parseArgs s = Some v → wf v = true.
Proof. unfold parseArgs. intros Hs. destruct (js_blank s); [by intros [= <-]|]. by apply parsed_wf. Qed.

(** Validation answers the arguments with the preprocessing applied when they
    are acceptable, and otherwise the first problem: an unknown key, an
    unacceptable value, a missing key, each in the documented order.  The texts of
    the arguments are kept apart from the requested ones only when something was
    clamped. *)
Theorem arguments_outcome n s partial :
  forallb isUnit s = true →
  match getAgentToolDefinition n, parseArgs s with
  | None, _ => parseAndValidateToolArguments n s partial = Invalid ToolNotSupported
  | Some _, None => parseAndValidateToolArguments n s partial = Invalid InvalidJSON
  | Some tool, Some (JObj o) =>
      match firstProblem (args tool) partial o with
      | Some e => parseAndValidateToolArguments n s partial = Invalid e
      | None => ∃ d, d ≡ₚ clampArgs (args tool) o
          ∧ parseAndValidateToolArguments n s partial
            = Valid d (if bool_decide (clampArgs (args tool) o = o) then None else Some o)
                    (canonicalizeToolArguments (JObj o))
      end
  | Some _, Some _ => parseAndValidateToolArguments n s partial = Invalid NotAnObject
  end.
Proof.
  intros Hs. unfold parseAndValidateToolArguments.
  destruct (getAgentToolDefinition n) as [tool|]; [|done].
  destruct (parseArgs s) as [v|] eqn:Ev; [|done]. apply parseArgs_wf in Ev; [|done].
  destruct v as [| | | | |o]; try done. destruct (wf_obj o Ev) as (Hnd & _ & _).
  destruct (safeParse (args tool) partial o) as [issues|d] eqn:Ed.
  - by rewrite <-(error_of_issues _ _ _ _ Hnd Ed).
  - assert (accepts (args tool) partial o = true) as Hacc by (apply zod_accepts; eauto).
    unfold firstProblem. rewrite Hacc. exists d. split; [by apply (zod_data _ _ _ _ Hnd Ed)|].
    f_equal. by rewrite (bool_decide_ext _ _ (data_unchanged _ _ _ _ Ev Ed)).
Qed.

(** ** Keys of calls *)

(** The arguments of a call the validation accepts. *)
Definition validArgs (n a : jsstring) : option jobj :=
  match getAgentToolDefinition n, parseArgs (argsOf a) with
  | Some t, Some (JObj o) => if accepts (args t) false o then Some o else None
  | _, _ => None
  end.

Lemma argsOf_units a : forallb isUnit a = true → forallb isUnit (argsOf a) = true.
Proof. intros Ha. unfold argsOf. by case_bool_decide. Qed.

Lemma keys_agree n a : toolCallKey n a = serviceKey n a.
Proof.
  unfold toolCallKey, serviceKey. unfold parseAndValidateToolArguments.
  destruct (getAgentToolDefinition n) as [t|]; [|done]. destruct (parseArgs (argsOf a)) as [[| | | | |o]|]; try done.
  destruct (safeParse (args t) false o) as [|d]; [done|]. case_bool_decide as E; simpl; [by rewrite E|done].
Qed.

Lemma serviceKey_eq n a :
  forallb isUnit a = true →
  serviceKey n a = n ++ 58 :: match validArgs n a with
                              | Some o => canonicalizeToolArguments (JObj o)
                              | None => argsOf a
                              end.
Proof.
  intros Ha. unfold serviceKey, parseAndValidateToolArguments, validArgs.
  destruct (getAgentToolDefinition n) as [t|]; [|done]. destruct (parseArgs (argsOf a)) as [[| | | | |o]|] eqn:E; try done.
  destruct (safeParse (args t) false o) as [iss|d] eqn:Ed.
  - destruct (accepts (args t) false o) eqn:Ha'; [|done]. apply zod_accepts in Ha' as [d Hd]. congruence.
  - assert (accepts (args t) false o = true) as -> by (apply zod_accepts; eauto). done.
Qed.

Lemma split_colon n1 n2 x y :
  58 ∉ n1 → 58 ∉ n2 → n1 ++ 58 :: x = n2 ++ 58 :: y → n1 = n2 ∧ x = y.
Proof.
  revert n2. induction n1 as [|c n1 IH]; intros [|d n2] H1 H2; rewrite ?not_elem_of_cons in *; simpl.
  - by intros [= ->].
  - intros [= <- _]. tauto.
  - intros [= -> _]. tauto.
  - intros [= -> E]. destruct (IH n2) as [-> ->]; tauto.
Qed.

Lemma tool_names_plain n : isAgentToolName n = true → 58 ∉ n.
Proof.
  intros Hn%bool_decide_eq_true.
  assert (Forall (λ n, 58 ∉ n) AGENT_TOOL_NAMES) as Hall
    by (apply (bool_decide_unpack _); vm_compute; exact I).
  rewrite Forall_forall in Hall. by apply Hall.
Qed.

Lemma accepts_perm sh partial o o' : o ≡ₚ o' → accepts sh partial o = true → accepts sh partial o' = true.
Proof.
  intros Hp. unfold accepts. rewrite !andb_true_iff. intros [Hf Hm]. split.
  - rewrite forallb_forall in Hf |- *. intros kv Hin. apply Hf. apply list_elem_of_In. rewrite Hp.
    by apply list_elem_of_In.
  - apply orb_true_iff in Hm as [->|Hm]; [done|]. apply orb_true_iff. right. rewrite <-Hm. f_equal.
    clear Hf Hm. induction sh as [|f sh IH]; [done|]. simpl. rewrite IH. f_equal. unfold missingField.
    f_equal. f_equal. apply bool_decide_ext. by rewrite Hp.
Qed.

(** Accepted arguments are flat. *)
Lemma accepts_flat sh partial o : accepts sh partial o = true → normProps o = o.
Proof.
  intros [Hf _]%andb_true_iff. unfold normProps. induction o as [|[k v] o IH]; [done|].
  simpl in Hf |- *. apply andb_true_iff in Hf as [Hv Hf]. rewrite IH by done. do 2 f_equal.
  destruct (fieldOf sh k) as [f|]; [|done]. unfold fieldOk in Hv. by destruct (fieldKind f), v.
Qed.

Lemma canonical_is_valid n a o :
  validArgs n a = Some o → wf (JObj o) = true →
  ∃ o', validArgs n (canonicalizeToolArguments (JObj o)) = Some o'.
Proof.
  unfold validArgs. intros Hv Hwf. destruct (getAgentToolDefinition n) as [t|]; [|done].
  destruct (parseArgs (argsOf a)) as [[| | | | |o1]|]; try done.
  destruct (accepts (args t) false o1) eqn:Hacc; [|done]. injection Hv as ->.
  pose proof (wf_normalize _ Hwf) as Hwn. unfold canonicalizeToolArguments.
  assert (argsOf (stringify (normalize (JObj o))) = stringify (normalize (JObj o))) as ->
    by (unfold argsOf; rewrite normalize_obj; cbn [stringify]; by rewrite bool_decide_eq_false_2).
  assert (parseArgs (stringify (normalize (JObj o))) = Some (normalize (JObj o))) as ->.
  { unfold parseArgs. rewrite parse_stringify by done. rewrite normalize_obj. cbn [stringify].
    assert (∀ x, js_blank (123 :: x ++ [125]) = false) as ->; [|done].
    intros x. unfold js_blank. apply bool_decide_eq_false. unfold js_trim. cbn [drop_ws].
    change (js_whitespace 123) with false. cbn [rev]. rewrite rev_app_distr. cbn [rev app drop_ws].
    change (js_whitespace 125) with false. cbn [rev]. by destruct (rev (rev x ++ [123])). }
  rewrite normalize_obj. destruct (wf_obj o Hwf) as (Hnd & _ & _).
  rewrite (accepts_perm (args t) false o _); [eauto| |done].
  rewrite objOf_normProps_perm by done. by rewrite (accepts_flat (args t) false o).
Qed.

Lemma validArgs_wf n a o : forallb isUnit a = true → validArgs n a = Some o → wf (JObj o) = true.
Proof.
  intros Ha Hv. unfold validArgs in Hv. destruct (getAgentToolDefinition n) as [t|]; [|done].
  destruct (parseArgs (argsOf a)) as [[| | | | |o1]|] eqn:E; try done.
  destruct (accepts (args t) false o1); [|done]. injection Hv as <-.
  apply (parseArgs_wf (argsOf a)); [by apply argsOf_units|done].
Qed.

(** C39. The loop and the round compute the same key of a call; two calls of known
    tools share a key exactly when they name one tool with the same accepted
    arguments, up to the order of keys, or with the same rejected text.  So a call
    is executed once however it is spelled, and never taken for another. *)
Theorem tool_key_exact n1 a1 n2 a2 :
  isAgentToolName n1 = true → isAgentToolName n2 = true →
  forallb isUnit a1 = true → forallb isUnit a2 = true →
  toolCallKey n1 a1 = serviceKey n1 a1
  ∧ (toolCallKey n1 a1 = toolCallKey n2 a2 ↔
     n1 = n2 ∧ match validArgs n1 a1, validArgs n2 a2 with
               | Some o1, Some o2 => jequiv (JObj o1) (JObj o2)
               | None, None => argsOf a1 = argsOf a2
               | _, _ => False
               end).
Proof.
  intros Hn1 Hn2 Ha1 Ha2. split; [apply keys_agree|]. rewrite !keys_agree, !serviceKey_eq by done.
  assert (∀ n a a' o, forallb isUnit a = true → validArgs n a = Some o → validArgs n a' = None →
            canonicalizeToolArguments (JObj o) ≠ argsOf a') as Hmix.
  { intros n a a' o Ha Ho Hn E. destruct (canonical_is_valid n a o) as [o' Ho'];
      [done|by apply (validArgs_wf n a)|]. rewrite E in Ho'. unfold validArgs in Hn, Ho'.
    replace (argsOf (argsOf a')) with (argsOf a') in Ho' by (unfold argsOf; by repeat case_bool_decide).
    destruct (getAgentToolDefinition n); [|done]. destruct (parseArgs (argsOf a')) as [[| | | | |]|]; congruence. }
  assert (∀ o1 o2, validArgs n1 a1 = Some o1 → validArgs n2 a2 = Some o2 →
    canonicalizeToolArguments (JObj o1) = canonicalizeToolArguments (JObj o2) ↔ jequiv (JObj o1) (JObj o2)) as Hc.
  { intros o1 o2 H1 H2. apply canonical_exact; [by apply (validArgs_wf n1 a1)|by apply (validArgs_wf n2 a2)]. }
  split.
  - intros [<- E]%split_colon; auto using tool_names_plain. split; [done|].
    destruct (validArgs n1 a1) as [o1|] eqn:E1, (validArgs n1 a2) as [o2|] eqn:E2; [by apply Hc| | |done].
    + by apply (Hmix n1 a1 a2 o1).
    + by apply (Hmix n1 a2 a1 o2).
  - intros [<- E]. f_equal. f_equal.
    destruct (validArgs n1 a1) as [o1|] eqn:E1, (validArgs n1 a2) as [o2|] eqn:E2; [by apply Hc|done..].
Qed.
End Laws.

(** ** A library that keeps the laws *)

(** [safeParse] read off its documentation, for examples. *)
Definition documentedParse (sh : AgentToolArgsSchema) (partial : bool) (o : jobj) : list Issue + jobj :=
  if accepts sh partial o then inr (ownOrder (clampArgs sh o))
  else inl (UnrecognizedKeys (filter (λ k, fieldOf sh k = None) o.*1)
            :: ((λ kv, FieldIssue (Some kv.1)) <$> filter (λ kv, badValue sh kv = true) o)).

#[local] Instance documentedZod : Zod := {| safeParse := documentedParse; toJSONSchema := λ _, [] |}.

Lemma documentedZod_laws : @ZodLaws documentedZod.
Proof.
  split; unfold safeParse, documentedZod, documentedParse; intros.
  - destruct (accepts sh partial o); split; try done; [eauto|by intros [d ?]].
  - destruct (accepts sh partial o); simplify_eq. split; [|split].
    + rewrite ownOrder_perm. by rewrite clampArgs_keys.
    + by rewrite ownOrder_idem.
    + apply ownOrder_perm.
  - destruct (accepts sh partial o); simplify_eq. split.
    + intros (keys & [[= ->]|(kv & E & _)%list_elem_of_fmap]%elem_of_cons & Hk); [|done].
      by apply list_elem_of_filter in Hk as [? _].
    + intros Hf. exists (filter (λ k, fieldOf sh k = None) o.*1). split; [left|]. by apply list_elem_of_filter.
  - destruct (accepts sh partial o); simplify_eq. rewrite elem_of_cons, list_elem_of_fmap. split.
    + intros [?|(kv' & [= E] & [Hb Hin]%list_elem_of_filter)]; [done|]. by rewrite (same_key o kv kv').
    + intros Hb. right. exists kv. split; [done|]. by apply list_elem_of_filter.
Qed.

Lemma arguments_outcome_witness :
  @parseAndValidateToolArguments documentedZod (js "list_study_calendar_entries")
    (jq "{'limit': 25, 'timeRange': 'past'}") false
  = Valid [(js "limit", JNum 1 1); (js "timeRange", JStr (js "past"))]
          (Some [(js "limit", JNum 25 0); (js "timeRange", JStr (js "past"))])
          (jq "{'limit':25,'timeRange':'past'}")
  ∧ @parseAndValidateToolArguments documentedZod (js "list_study_calendar_entries")
      (jq "{'limit': 0, 'x': 1}") false = Invalid (UnknownArgument (js "x")).
Proof.
  split; [vm_compute; reflexivity|].
  exact (@arguments_outcome documentedZod documentedZod_laws (js "list_study_calendar_entries")
           (jq "{'limit': 0, 'x': 1}") false eq_refl).
Defined.

Lemma tool_key_exact_witness :
  @toolCallKey documentedZod (js "list_study_calendar_entries") (jq "{'limit':3,'timeRange':'all'}")
  = @toolCallKey documentedZod (js "list_study_calendar_entries") (jq " {'timeRange': 'all', 'limit': 3.0e0}").
Proof.
  apply (@tool_key_exact documentedZod documentedZod_laws _ _ (js "list_study_calendar_entries") _);
    [vm_compute; reflexivity..|].
  split; [reflexivity|]. vm_compute. split; [apply perm_swap|].
  repeat split; eexists; (split; [|reflexivity]); repeat constructor.
Defined.

(** ** The startup check, proved *)

Definition textOk (v : option jsstring) : Prop := ∃ s, v = Some s ∧ js_trim s ≠ [].

(** What the check promises of a tool's capability. *)
Record capabilityOk (c : AgentToolCapability) : Prop := {
  ok_effect : effect c ∈ EFFECTS;
  ok_identity : identity c ∈ IDENTITIES;
  ok_authorization : authorization c ∈ AUTHORIZATIONS;
  ok_confirmation : confirmation c ∈ CONFIRMATIONS;
  ok_idempotency : idempotency c ∈ IDEMPOTENCY;
  ok_guarantee : providerGuaranteeRequired c ≠ None;
  (** a write that is not confirmed is idempotent at the provider *)
  ok_side_effect : effect c = "idempotent_side_effect"%string →
    providerGuaranteeRequired c = Some true ∧ idempotency c = "provider_key"%string;
  (** a write that is confirmed is bound to the approval *)
  ok_approval : effect c = "confirmation_required"%string →
    confirmation c = "approval_token"%string ∧ idempotency c = "confirmation_nonce"%string
}.

Record metadataOk (m : AgentToolMetadata) : Prop := {
  ok_fields : ∃ l, observationFields m = Some (Some <$> l);
  ok_label : textOk (learnerLabel m);
  ok_claims : ∃ l, groundingClaims m = Some (Some <$> l) ∧ Forall (λ c, c ∈ GROUNDING_CLAIMS) l;
  ok_budget : ∃ b, budget m = Some b ∧ b ∈ BUDGET_CLASSIFICATIONS;
  ok_write : budget m = Some "write"%string → textOk (mjoin (writeAction m));
  ok_action : writeAction m = None ∨ textOk (mjoin (writeAction m))
}.

Definition toolOk (t : AgentToolDefinition) : Prop :=
  (∃ c, capability t = Some c ∧ capabilityOk c) ∧ (∃ m, metadata t = Some m ∧ metadataOk m)
  ∧ ∃ o, parameters t = JObj o ∧ jm_get (js "type") o = Some (JStr (js "object")).

Lemma firstError_none l : firstError l = None ↔ Forall (λ c, c.1 = false) l.
Proof.
  induction l as [|[b e] l IH]; simpl; [by rewrite Forall_nil|]. rewrite Forall_cons, <-IH. simpl.
  destruct b; naive_solver.
Qed.

Lemma blankText_false v : blankText v = false ↔ textOk v.
Proof.
  unfold blankText, textOk, js_blank. destruct v as [s|]; [|split; [done|by intros (? & ? & ?)]].
  rewrite bool_decide_eq_false. split; [eauto|by intros (? & [= <-] & ?)].
Qed.

Lemma has_true l x : negb (has l x) = false ↔ x ∈ l.
Proof. unfold has. by rewrite negb_false_iff, bool_decide_eq_true. Qed.

Lemma all_somes {A} `{EqDecision A} (l : list (option A)) :
  existsb (λ f, bool_decide (f = None)) l = false ↔ ∃ l', l = Some <$> l'.
Proof.
  induction l as [|[x|] l IH]; simpl.
  - split; [by exists []|done].
  - rewrite IH. split; [intros [l' ->]; by exists (x :: l')|].
    intros [[|y l'] E]; [done|]. injection E as -> ->. eauto.
  - split; [done|]. by intros [[|y l'] E].
Qed.

Lemma all_claims (l : list (option string)) :
  existsb (λ c, match c with Some c => negb (has GROUNDING_CLAIMS c) | None => true end) l = false
  ↔ ∃ l', l = Some <$> l' ∧ Forall (λ c, c ∈ GROUNDING_CLAIMS) l'.
Proof.
  induction l as [|[x|] l IH]; simpl.
  - split; [by exists []|done].
  - rewrite orb_false_iff, IH, has_true. split.
    + intros (Hx & l' & -> & Hl). exists (x :: l'). split; [done|by constructor].
    + intros ([|y l'] & E & Hl); [done|]. injection E as -> ->. apply Forall_cons in Hl as [? ?]. eauto.
  - split; [done|]. by intros ([|y l'] & E & _).
Qed.

Lemma capabilityChecks_ok c : firstError (capabilityChecks c) = None ↔ capabilityOk c.
Proof.
  rewrite firstError_none. unfold capabilityChecks. rewrite !Forall_cons, Forall_nil. cbn [fst].
  rewrite !has_true, bool_decide_eq_false, !andb_false_iff, !orb_false_iff, !negb_false_iff,
    !bool_decide_eq_false, !bool_decide_eq_true.
  split.
  - intros (? & ? & ? & ? & ? & ? & Hs & Ha & _). split; try done.
    + intros E. destruct Hs as [Hs|]; [done|done].
    + intros E. destruct Ha as [Ha|]; [done|done].
  - intros []. repeat split; try done.
    + destruct (decide (effect c = "idempotent_side_effect"%string)); auto.
    + destruct (decide (effect c = "confirmation_required"%string)); auto.
Qed.

Lemma metadataChecks_ok m : firstError (metadataChecks m) = None ↔ metadataOk m.
Proof.
  rewrite firstError_none. unfold metadataChecks. rewrite !Forall_cons, Forall_nil. cbn [fst].
  rewrite andb_false_iff, bool_decide_eq_false, !blankText_false.
  split.
  - intros (Hf & Hl & Hc & Hb & Hw & Ha & _). split; try done.
    + destruct (observationFields m) as [l|]; [|done]. apply all_somes in Hf as [l' ->]. eauto.
    + destruct (groundingClaims m) as [l|]; [|done]. apply all_claims in Hc as (l' & -> & ?). eauto.
    + destruct (budget m) as [b|]; [|done]. apply has_true in Hb. eauto.
    + intros E. destruct Hw as [?|?]; done.
    + destruct (writeAction m) as [a|]; [right; by apply blankText_false|by left].
  - intros [(l & Hf) Hl (lc & Hc & Hcs) (b & Hb & Hbs) Hw Ha]. rewrite Hf, Hc, Hb. repeat split; try done.
    + apply all_somes. eauto.
    + apply all_claims. eauto.
    + by apply has_true.
    + destruct (decide (b = "write"%string)) as [->|Hn]; [right; by apply Hw|left; congruence].
    + destruct Ha as [->|Ha]; [done|]. destruct (writeAction m) as [a|]; [by apply blankText_false|done].
Qed.

Lemma firstError_app l l' : firstError (l ++ l') = None ↔ firstError l = None ∧ firstError l' = None.
Proof. rewrite !firstError_none. apply Forall_app. Qed.

Lemma checkTool_ok seen t :
  checkTool seen t = None ↔ isAgentToolName (name t) = true ∧ name t ∉ seen ∧ toolOk t.
Proof.
  unfold checkTool, toolOk.
  destruct (firstError [(negb (isAgentToolName (name t)), UnknownTool); _]) as [e|] eqn:E.
  - split; [done|]. intros (Hn & Hs & _). exfalso. simpl in E. by rewrite Hn, bool_decide_eq_false_2 in E.
  - apply firstError_none in E. rewrite !Forall_cons in E. cbn [fst] in E.
    rewrite negb_false_iff, bool_decide_eq_false in E. destruct E as (Hn & Hs & _).
    destruct (capability t) as [c|]; [|split; [done|by intros (_ & _ & (? & ? & _) & _)]].
    destruct (metadata t) as [m|]; [|split; [done|by intros (_ & _ & _ & (? & ? & _) & _)]].
    rewrite !firstError_app, metadataChecks_ok, capabilityChecks_ok.
    assert (firstError [(parametersCheck (parameters t), InvalidParameters)] = None
            ↔ ∃ o, parameters t = JObj o ∧ jm_get (js "type") o = Some (JStr (js "object"))) as ->.
    { cbn [firstError]. unfold parametersCheck. destruct (parameters t) as [| | | | |o];
        try (split; [done|by intros (? & ? & _)]).
      destruct (bool_decide (jm_get (js "type") o = Some (JStr (js "object")))) eqn:Eb; simpl; bool_to_prop.
      - split; eauto.
      - split; [done|]. by intros (o' & [= <-] & ?). }
    split.
    + intros (Hm & Hc & Hp). eauto 10.
    + intros (_ & _ & (? & [= <-] & ?) & (? & [= <-] & ?) & ?). done.
Qed.

Lemma AGENT_TOOL_NAMES_nodup : NoDup AGENT_TOOL_NAMES.
Proof. apply (bool_decide_unpack _). vm_compute. exact I. Qed.

Lemma checkTools_ok seen tools :
  NoDup seen → (∀ n, n ∈ seen → n ∈ AGENT_TOOL_NAMES) →
  checkTools seen tools = None ↔ seen ++ (name <$> tools) ≡ₚ AGENT_TOOL_NAMES ∧ Forall toolOk tools.
Proof.
  revert seen. induction tools as [|t tools IH]; intros seen Hnd Hin; simpl.
  - rewrite app_nil_r. case_bool_decide as El.
    + split; [|done]. intros _. split; [|done]. apply submseteq_length_Permutation; [by apply NoDup_submseteq|by rewrite El].
    + split; [done|]. intros [Hp _]. by rewrite Hp in El.
  - destruct (checkTool seen t) as [e|] eqn:E.
    + split; [done|]. intros [Hp Hf]. apply Forall_cons in Hf as [Ht _].

      assert (NoDup (seen ++ name t :: (name <$> tools))) as Hn by (rewrite Hp; apply AGENT_TOOL_NAMES_nodup).
      assert (checkTool seen t = None) as E'; [|congruence]. apply checkTool_ok. split; [|split; [|done]].
      * apply bool_decide_eq_true. rewrite <-Hp. apply elem_of_app. right. left.
      * apply NoDup_app in Hn as (_ & Hd & _). intros Hs. apply (Hd _ Hs). left.
    + apply checkTool_ok in E as (Hn & Hs & Ht). rewrite IH.
      * rewrite <-(assoc_L (++)), Forall_cons, ?fmap_cons. simpl. tauto.
      * apply NoDup_app. split; [done|]. split; [|repeat constructor; by apply not_elem_of_nil].
        intros n Hn1 Hn2%list_elem_of_singleton. congruence.
      * intros n [?|Hn2%list_elem_of_singleton]%elem_of_app; [auto|]. subst.
        by apply bool_decide_eq_true in Hn.
Qed.

(** The startup check accepts a registry exactly when it defines every tool
    once and every tool is well-formed, in particular a write without confirmation
    is idempotent at the provider and a write with confirmation is bound to the
    nonce of its approval. *)
Theorem registry_check_exact tools :
  validateAgentToolRegistry tools = None
  ↔ name <$> tools ≡ₚ AGENT_TOOL_NAMES ∧ Forall toolOk tools.
Proof.
  unfold validateAgentToolRegistry. rewrite checkTools_ok; [done|constructor|].
  by intros n ?%not_elem_of_nil.
Qed.

(** The shipped registry passes, zod's schema of an object being of type object. *)
Lemma agent_tools_accepted `{Zod} :
  (∀ sh, jm_get (js "type") (filter (λ kv, kv.1 ≠ js "$schema") (toJSONSchema sh))
         = Some (JStr (js "object"))) →
  validateAgentToolRegistry AGENT_TOOLS = None.
Proof.
  intros Ht. apply registry_check_exact. split.
  - unfold AGENT_TOOLS, AGENT_TOOL_NAMES. by rewrite <-list_fmap_compose.
  - unfold AGENT_TOOLS. rewrite Forall_fmap.
    assert (Forall (λ s, firstError (metadataChecks (specMetadata s)) = None
                         ∧ firstError (capabilityChecks (specCapability s)) = None) agentToolSpecs) as Hall
      by (apply (bool_decide_unpack _); vm_compute; exact I).
    apply (Forall_impl _ _ _ Hall). intros sp [Hm%metadataChecks_ok Hc%capabilityChecks_ok].
    unfold toolOk. simpl. unfold toProviderSchema. eauto 10.
Qed.

(** ** Bounded results, proved *)

Definition coherentDisclosure (d : BoundedToolDisclosure) : Prop :=
  completeness d = if capped d then Incomplete else Unknown.

(** Once capped, always capped, and the two ways to say so agree. *)
Lemma merge_capped current next :
  capped (mergeBoundedToolDisclosures current next)
  = match current with Some c => capped c || capped next | None => capped next end.
Proof.
  destruct current as [c|]; [|done]. simpl.
  destruct (sameBoundedToolScope c next), (capped c) eqn:Ec, (capped next) eqn:En; simpl; auto.
Qed.

Lemma merge_coherent current next :
  match current with Some c => coherentDisclosure c | None => True end → coherentDisclosure next →
  coherentDisclosure (mergeBoundedToolDisclosures current next).
Proof.
  intros Hc Hn. destruct current as [c|]; [|done]. simpl.
  destruct (sameBoundedToolScope c next), (capped c) eqn:Ec, (capped next) eqn:En; simpl; auto; done.
Qed.

Lemma read_coherent parsed d : readBoundedToolDisclosure parsed = Some d → coherentDisclosure d.
Proof.
  unfold readBoundedToolDisclosure, coherent. destruct parsed as [m|]; [|done].
  case_bool_decide; [|done]. by intros [= <-].
Qed.

(** Merging keeps the scope of one of its arguments. *)
Lemma merge_scope current next :
  sameBoundedToolScope (mergeBoundedToolDisclosures current next) next = true
  ∨ ∃ c, current = Some c ∧ mergeBoundedToolDisclosures current next = c.
Proof.
  assert (∀ d, sameBoundedToolScope d d = true) as Hrefl.
  { intros d. unfold sameBoundedToolScope. by rewrite !bool_decide_eq_true_2, Z.eqb_refl by done. }
  destruct current as [c|]; [|by left]. simpl.
  destruct (sameBoundedToolScope c next) eqn:Es; simpl.
  - left. destruct (capped c), (capped next); simpl; auto.
  - destruct (capped c); [right; eauto|by left].
Qed.

(** An argument the validation accepts is read without an error, within its
    bound. *)
Lemma readPositiveLimit_ok v fallback max :
  fieldOk (BoundedPositiveInteger max) v = true →
  ∃ z, readPositiveLimit (Some v) fallback = Some z ∧ 1 ≤ z ≤ MAX_UPCOMING_LIMIT.
Proof.
  simpl. unfold positiveInteger. destruct (jsonInt v) as [z|]; [|done]. intros Hz. rewrite Hz.
  eexists. split; [done|]. unfold MAX_UPCOMING_LIMIT. lia.
Qed.

Lemma readPastDays_ok v max :
  fieldOk (BoundedPositiveInteger max) v = true →
  ∃ z, readPastDays (Some v) = Some z ∧ 1 ≤ z ≤ MAX_PAST_DAYS.
Proof.
  simpl. unfold positiveInteger. destruct (jsonInt v) as [z|]; [|done]. intros Hz. rewrite Hz.
  eexists. split; [done|]. unfold MAX_PAST_DAYS. lia.
Qed.

(** A date or time that is read has the shape, and is read again as itself. *)
Lemma readShaped_stable shape v s :
  Forall (λ d, match d with Some c => js_whitespace c = false | None => True end) shape →
  readShaped shape v = Some s → matches shape s = true ∧ readShaped shape (Some (JStr s)) = Some s.
Proof.
  intros Hsh. unfold readShaped, readOptionalString. destruct v as [[| | |t| |]|]; try done.
  destruct (js_blank t) eqn:Eb; [done|]. destruct (matches shape (js_trim t)) eqn:Em; [|done].
  intros [= <-]. split; [done|].
  assert (Forall (λ c, js_whitespace c = false) (js_trim t)) as Hws.
  { clear Eb. revert Em. generalize (js_trim t). clear t. induction shape as [|d shape IH]; intros s Em.
    - by destruct s.
    - apply Forall_cons in Hsh as [Hd Hsh].
      destruct d as [c|], s as [|x s]; try done; simpl in Em; apply andb_true_iff in Em as [Hx Em];
        constructor; auto.
      + by apply Z.eqb_eq in Hx as ->.
      + unfold isDigit in Hx. unfold js_whitespace. rewrite !orb_false_iff, !andb_false_iff. lia. }
  assert (∀ s, Forall (λ c, js_whitespace c = false) s → drop_ws s = s) as Hdrop.
  { intros s [|c s' Hc _]; [done|]. simpl. by rewrite Hc. }
  assert (js_trim (js_trim t) = js_trim t) as Et.
  { unfold js_trim at 1. rewrite (Hdrop (js_trim t)) by done.
    rewrite Hdrop by (by apply Forall_rev). apply rev_involutive. }
  unfold js_blank in *. rewrite Et, Eb, Em. done.
Qed.
End AgentTools.
