(* ===== verification/PromptSafety.v ===== *)
(** * Untrusted text on its way to the model

    packages/llm-agent, safety/prompt-injection.utils.ts: what is done to a text
    that comes from a learner, the history or a tool before the model reads it,
    and the bounded view in which a turn is scanned together with the history.

    The scans over the tables of patterns are the operations of the class
    [TextScan], with the laws the theorems need; [PromptGuards.promptScan] is the
    code's instance. *)

From S2P Require Import Prelude Json JsText.

Module PromptSafety.
Import Json.
Export JsText.

Class TextScan := {
  (** [scanPatterns]: the reason of the first pattern found *)
  scanPatterns : jsstring → option string;
  (** [prepareLearnerInputForScan]: the text to scan, and a hostile role frame *)
  prepareLearnerInputForScan : jsstring → jsstring * bool;
  (** [redactSecrets]: the text without credentials, and whether there were any *)
  redactSecrets : jsstring → jsstring * bool;
  (** [detectDisclosureProbe] *)
  detectDisclosureProbe : jsstring → bool
}.

Definition MAX_USER_TEXT_LENGTH : Z := 2000.
Definition MAX_UNTRUSTED_TEXT_CHARS : Z := 1000.
Definition MAX_SANITIZED_TOOL_RESULT_CHARS : Z := 8000.
Definition UNSAFE_TEXT_PLACEHOLDER : jsstring := js "[redacted unsafe instruction-like text]".
Definition TRUNCATED_SUFFIX : jsstring := js "... [truncated]".

(** [Array.from(text)] splits code points; a control character is one unit. *)
Definition stripUnsafeControlChars (text : jsstring) : jsstring :=
  (λ c, if negb ((c =? 9) || (c =? 10) || (c =? 13)) && ((0 <=? c) && (c <=? 31) || (c =? 127))
        then 32 else c) <$> text.

(** [text.replace(/\s+/g, ' ')]. *)
Fixpoint collapseWs (inWs : bool) (s : jsstring) : jsstring :=
  match s with
  | [] => []
  | c :: s' => if js_whitespace c then (if inWs then collapseWs true s' else 32 :: collapseWs true s')
               else c :: collapseWs false s'
  end.

Record Sanitized := mkSanitized { s_text : jsstring; s_changed : bool; s_reason : option string }.

Section Scan.
Context `{TextScan}.

Definition truncateTo (maxChars : Z) (s : jsstring) : jsstring :=
  let suffix := if len TRUNCATED_SUFFIX <? maxChars then TRUNCATED_SUFFIX else js "..." in
  trimEnd (sliceTo (maxChars - len suffix) s) ++ suffix.

Definition sanitizeUntrustedTextForLlm (maxChars : Z) (unsafePlaceholder value : jsstring) : Sanitized :=
  let withoutControlChars := js_trim (stripUnsafeControlChars value) in
  match scanPatterns withoutControlChars with
  | Some reason => mkSanitized unsafePlaceholder true (Some reason)
  | None =>
      let '(text, redacted) := redactSecrets (js_trim (collapseWs false withoutControlChars)) in
      let truncated := maxChars <? len text in
      let normalized := if truncated then truncateTo maxChars text else text in
      if redacted then mkSanitized normalized true (Some "secret_redacted"%string)
      else if truncated then mkSanitized normalized true (Some "text_too_long"%string)
      else mkSanitized normalized (negb (bool_decide (normalized = value))) None
  end.

(** [a ??= b]. *)
Definition orElse {A} (a b : option A) : option A := match a with Some _ => a | None => b end.

Record SanitizedValue := mkSanitizedValue {
  v_value : json; v_changed : bool; v_reason : option string }.

Fixpoint sanitizeUntrustedValueForLlm (v : json) : SanitizedValue :=
  match v with
  | JStr s =>
      let r := sanitizeUntrustedTextForLlm MAX_SANITIZED_TOOL_RESULT_CHARS UNSAFE_TEXT_PLACEHOLDER s in
      mkSanitizedValue (JStr (s_text r)) (s_changed r) (s_reason r)
  | JArr l =>
      let rs := map sanitizeUntrustedValueForLlm l in
      mkSanitizedValue (JArr (map v_value rs)) (existsb v_changed rs)
        (foldl (λ a r, orElse a (v_reason r)) None rs)
  | JObj o =>
      let rs := map (λ kv, (kv.1, sanitizeUntrustedValueForLlm kv.2)) o in
      mkSanitizedValue (JObj (map (λ r, (r.1, v_value r.2)) rs)) (existsb (λ r, v_changed r.2) rs)
        (foldl (λ a r, orElse a (v_reason r.2)) None rs)
  | _ => mkSanitizedValue v false None
  end.

(** [sanitizeToolResultContent]. *)
Definition sanitizeToolResultContent (content : jsstring) : Sanitized :=
  match parse content with
  | None => sanitizeUntrustedTextForLlm MAX_SANITIZED_TOOL_RESULT_CHARS UNSAFE_TEXT_PLACEHOLDER content
  | Some parsed =>
      let r := sanitizeUntrustedValueForLlm parsed in
      let text := stringify (v_value r) in
      match scanPatterns text with
      | Some reason => mkSanitized (stringify (JObj [(js "_sanitized", JBool true)])) true (Some reason)
      | None =>
          if MAX_SANITIZED_TOOL_RESULT_CHARS <? len text
          then mkSanitized (stringify (JObj [(js "_truncated", JBool true);
                              (js "preview", JStr (sliceTo MAX_SANITIZED_TOOL_RESULT_CHARS text))])) true
                 (orElse (v_reason r) (Some "tool_result_too_long"%string))
          else mkSanitized text (v_changed r) (v_reason r)
      end
  end.

Definition BENIGN_SANITIZE_REASONS : list string :=
  ["secret_redacted"; "text_too_long"; "tool_result_too_long"]%string.

Definition isInjectionSanitizeReason (reason : option string) : bool :=
  match reason with Some r => negb (bool_decide (r ∈ BENIGN_SANITIZE_REASONS)) | None => false end.

(** ** Learner input *)

Definition detectPromptInjection (userText : jsstring) : option string :=
  if MAX_USER_TEXT_LENGTH <? len userText then Some "message_too_long"%string else
  let '(text, hostile) := prepareLearnerInputForScan userText in
  if hostile then Some "persona_override"%string else scanPatterns text.

Definition MAX_JOINT_SCAN_CHARS : Z := 4000.
Definition MAX_JOINT_HISTORY_ENTRY_CHARS : Z := 8000.

(** [parts.join('\n')]. *)
Fixpoint joinLines (parts : list jsstring) : jsstring :=
  match parts with
  | [] => []
  | [p] => p
  | p :: parts' => p ++ 10 :: joinLines parts'
  end.

(** The newest history that fits, read from its end ([texts] newest first). *)
Fixpoint selectHistory (budget : Z) (selected : jsstring) (texts : list jsstring) : jsstring :=
  match texts with
  | [] => selected
  | candidate :: texts' =>
      let next := match selected with [] => candidate | _ => candidate ++ 10 :: selected end in
      if len next <=? budget then selectHistory budget next texts'
      else
        let remaining := budget - len selected - 1 in
        if 0 <? remaining then
          match selected with
          | [] => sliceLast budget candidate
          | _ => sliceLast remaining candidate ++ 10 :: selected
          end
        else selected
  end.

(** [history] is the contents of the entries of role user, oldest first;
    [parts = None] stands for an absent or empty array. *)
Definition buildJointScanView (currentUserText : jsstring) (parts : option (list jsstring))
    (history : list jsstring) (currentTextMaxChars : Z) : jsstring :=
  let ps := filter (λ p, p ≠ [])
              (js_trim <$> match parts with Some (p :: ps) => p :: ps | _ => [currentUserText] end) in
  let currentBudget := Z.max 0 (Z.min MAX_JOINT_SCAN_CHARS currentTextMaxChars) in
  let current := sliceTo currentBudget (joinLines ps) in
  let historyTexts := filter (λ t, t ≠ [])
    ((λ t, s_text (sanitizeUntrustedTextForLlm MAX_JOINT_HISTORY_ENTRY_CHARS UNSAFE_TEXT_PLACEHOLDER t))
     <$> history) in
  let historyBudget :=
    Z.max (MAX_JOINT_SCAN_CHARS - len current - match current with [] => 0 | _ => 1 end) 0 in
  if historyBudget =? 0 then current else
  let selectedHistory := selectHistory historyBudget [] (rev historyTexts) in
  match selectedHistory, current with
  | [], _ => current
  | _, [] => selectedHistory
  | _, _ => selectedHistory ++ 10 :: current
  end.

Definition detectPromptInjectionAcrossTurns (currentUserText : jsstring) (parts : option (list jsstring))
    (history : list jsstring) (currentTextMaxChars : Z) : option string :=
  let learnerParts := match parts with Some (p :: ps) => p :: ps | _ => [currentUserText] end in
  let '(text, hostile) := prepareLearnerInputForScan (joinLines learnerParts) in
  if hostile then Some "persona_override"%string
  else scanPatterns (buildJointScanView text None history currentTextMaxChars).
End Scan.

(** ** Bounds *)

Lemma len_truncateTo maxChars s : 3 ≤ maxChars → len (truncateTo maxChars s) ≤ maxChars.
Proof.
  intros Hm. unfold truncateTo. rewrite len_app.
  set (suffix := if _ : bool then _ else _).
  assert (len suffix ≤ maxChars) as Hs.
  { unfold suffix. destruct (Z.ltb_spec (len TRUNCATED_SUFFIX) maxChars); [lia|]. by change (len (js "...")) with 3. }
  pose proof (trimEnd_le (sliceTo (maxChars - len suffix) s)) as Ht.
  rewrite len_sliceTo in Ht by lia. lia.
Qed.

Section Bounds.
Context `{TextScan}.

Lemma sanitized_text_bounded maxChars placeholder value :
  3 ≤ maxChars → len placeholder ≤ maxChars →
  len (s_text (sanitizeUntrustedTextForLlm maxChars placeholder value)) ≤ maxChars.
Proof.
  intros Hm Hp. unfold sanitizeUntrustedTextForLlm. destruct (scanPatterns _); [done|].
  destruct (redactSecrets _) as [text redacted].
  destruct (Z.ltb_spec maxChars (len text)), redacted; simpl; auto using len_truncateTo.
Qed.

Lemma selectHistory_bounded budget selected texts :
  len selected ≤ budget → len (selectHistory budget selected texts) ≤ budget.
Proof.
  revert selected. induction texts as [|t texts IH]; intros selected Hs; simpl; [done|].
  destruct (Z.leb_spec (len match selected with [] => t | _ => t ++ 10 :: selected end) budget); [by apply IH|].
  destruct (Z.ltb_spec 0 (budget - len selected - 1)); [|done].
  pose proof (len_nonneg selected).
  destruct selected as [|c selected].
  - rewrite len_sliceLast by lia. lia.
  - rewrite len_app, (len_cons 10), len_sliceLast by lia. lia.
Qed.

(** The view never exceeds its bound and ends with the turn itself. *)
Lemma joint_view_bounded text parts history maxChars :
  let view := buildJointScanView text parts history maxChars in
  let current := sliceTo (Z.max 0 (Z.min MAX_JOINT_SCAN_CHARS maxChars))
    (joinLines (filter (λ p, p ≠ [])
       (js_trim <$> match parts with Some (p :: ps) => p :: ps | _ => [text] end))) in
  len view ≤ MAX_JOINT_SCAN_CHARS ∧ ∃ before, view = before ++ current.
Proof.
  intros view current. unfold view, buildJointScanView. fold current.
  assert (len current ≤ MAX_JOINT_SCAN_CHARS) as Hc.
  { unfold current. rewrite len_sliceTo by lia. unfold MAX_JOINT_SCAN_CHARS. lia. }
  pose proof (len_nonneg current).
  set (hb := Z.max _ 0). destruct (Z.eqb_spec hb 0); [split; [done|by exists []]|].
  set (sel := selectHistory hb [] _).
  assert (len sel ≤ hb) as Hsel by (apply selectHistory_bounded; unfold len; simpl; lia).
  destruct sel as [|c sel']; [split; [done|by exists []]|].
  destruct current as [|d current'].
  - split; [unfold hb in Hsel; rewrite ?len_cons in *; change (len []) with 0 in *; lia|].
    exists (c :: sel'). by rewrite app_nil_r.
  - split.
    + rewrite len_app, (len_cons 10). unfold hb in Hsel. lia.
    + exists ((c :: sel') ++ [10]). by rewrite <-(assoc_L (++)).
Qed.

Lemma sanitize_keeps_keys o :
  ∃ o', v_value (sanitizeUntrustedValueForLlm (JObj o)) = JObj o' ∧ o'.*1 = o.*1.
Proof.
  simpl. eexists. split; [done|]. rewrite map_map. unfold fmap, list_fmap. simpl.
  induction o as [|kv o IH]; [done|]. simpl. by rewrite IH.
Qed.
End Bounds.
End PromptSafety.
