(* ===== verification/ToolObservation.v ===== *)
(** * Tool observations

    packages/llm-agent, observation/tool-observation.ts: the text of a tool result
    that the model reads.  A result is projected to the fields its tool is known
    for, bounded in depth, keys, items and characters, sanitized and printed; the
    text is then fitted into what the context has left.

    A result is data: [raw] is a JSON value with undefined, the numbers JSON has
    no text for, bigint and function values.  Cyclic objects and accessors that
    throw are not among the results of the tools and are left out. *)

From S2P Require Import Prelude Json AgentTools PromptSafety.

Module ToolObservation.
Import Json AgentTools PromptSafety.

Inductive raw :=
| RUndef
| RNonFinite
| RBigInt (digits : jsstring)
| ROther                         (** a function or a symbol *)
| RNull
| RBool (b : bool)
| RNum (m e : Z)
| RStr (s : jsstring)
| RArr (l : list raw)
| RObj (o : list (jsstring * raw)).

Abbreviation robj := (list (jsstring * raw)).

Fixpoint rawOf (v : json) : raw :=
  match v with
  | JNull => RNull
  | JBool b => RBool b
  | JNum m e => RNum m e
  | JStr s => RStr s
  | JArr l => RArr (map rawOf l)
  | JObj o => RObj (map (λ kv, (kv.1, rawOf kv.2)) o)
  end.

Inductive Outcome := Kept | Truncated | Deduped | Dropped | Fallback.

Record Injection := mkInjection { i_reason : string; i_rawPreview : jsstring }.

Record ReducedToolObservation := mkReduced {
  content : jsstring;
  canonical : jsstring;
  outcome : Outcome;
  wasTruncated : bool;
  injection : option Injection
}.

Definition INJECTION_PREVIEW_CHARS : Z := 200.
Definition MAX_TOOL_OBSERVATION_CHARS : Z := 8000.
Definition MAX_DEPTH : nat := 5.
Definition MAX_KEYS : Z := 32.
Definition MAX_ITEMS : Z := 20.
Definition MAX_SAFE_INTEGER : Z := safeMax.

Definition SESSION_FIELDS : list string :=
  ["calendarId"; "sessionKey"; "topic"; "scheduledAtIso"; "scheduledTimeLabel"; "reminderNotice"]%string.

Definition MINIMUM_BOUNDED_METADATA_FIELDS : list string := ["capped"]%string.
Definition COUNT_CAP_BOUNDED_METADATA_FIELDS : list string := ["capped"; "count"]%string.
Definition CAP_STATE_BOUNDED_METADATA_FIELDS : list string := ["capped"; "completeness"]%string.
Definition SCOPED_BOUNDED_METADATA_FIELDS : list string := ["capped"; "timeRange"]%string.
Definition SCOPED_COUNT_BOUNDED_METADATA_FIELDS : list string := ["capped"; "timeRange"; "count"]%string.
Definition SCOPED_CAP_COUNT_BOUNDED_METADATA_FIELDS : list string :=
  ["capped"; "completeness"; "timeRange"; "count"]%string.
Definition SCOPED_CAP_STATE_BOUNDED_METADATA_FIELDS : list string :=
  ["capped"; "completeness"; "timeRange"]%string.
Definition PAST_WINDOW_BOUNDED_METADATA_FIELDS : list string :=
  ["capped"; "timeRange"; "effectivePastDays"; "count"]%string.
Definition CORE_BOUNDED_METADATA_FIELDS : list string :=
  ["capped"; "completeness"; "timeRange"; "effectiveLimit"; "count"]%string.

(** [TOOL_FIELDS[toolName]], for a known tool. *)
Definition toolFields (toolName : jsstring) : option (list string) :=
  match find (λ s, bool_decide (js (specName s) = toolName)) agentToolSpecs with
  | Some s => observationFields (specMetadata s) ≫= mapM id
  | None => None
  end.

Definition truncateString (value : jsstring) (maxChars : Z) : jsstring :=
  if len value <=? maxChars then value
  else if maxChars <=? len TRUNCATED_SUFFIX then sliceTo (Z.max 0 maxChars) value
  else sliceTo (maxChars - len TRUNCATED_SUFFIX) value ++ TRUNCATED_SUFFIX.

(** ** Projection *)

(** The value of a property; undefined when there is none. *)
Definition rget (k : string) (o : robj) : raw := default RUndef (jm_get (js k) o).

Definition pickFields (o : robj) (fields : list string) : robj * Z :=
  let picked := omap (λ f, (λ v, (js f, v)) <$> jm_get (js f) o) fields in
  (objOf picked, Z.of_nat (length (filter (λ kv, kv.1 ∉ (js <$> fields)) o))).

Definition pickSession (v : raw) : raw * Z :=
  match v with
  | RObj o => let '(p, n) := pickFields o SESSION_FIELDS in (RObj p, n)
  | _ => (v, 0)
  end.

Definition pickSessionList (v : raw) : raw * Z :=
  match v with
  | RArr l => (RArr (map (λ x, (pickSession x).1) l), sum_by (λ x, (pickSession x).2) l)
  | _ => (v, 0)
  end.

(** Rewrite a property that is there, adding to the count of omitted fields. *)
Definition project (f : raw → raw * Z) (k : string) (s : robj * Z) : robj * Z :=
  match jm_get (js k) s.1 with
  | Some v => let '(w, n) := f v in (objSet (js k) w s.1, s.2 + n)
  | None => s
  end.

Definition numRaw (z : Z) : raw := rawOf (numOf z).

Definition projectKnownToolObservation (toolName : jsstring) (result : raw) : raw * Z :=
  match result, (if isAgentToolName toolName then toolFields toolName else None) with
  | RObj o, Some fields =>
      let '(projected, omittedCount) :=
        project pickSession "session"
          (project pickSessionList "entries"
             (project pickSessionList "sessions" (pickFields o fields))) in
      (RObj (if 0 <? omittedCount
             then objSet (js "omittedCount") (numRaw omittedCount)
                    (objSet (js "_observation") (RStr (js "truncated")) projected)
             else projected), omittedCount)
  | _, _ => (result, 0)
  end.

Definition projectToolObservation (toolName : jsstring) (result : raw) : raw :=
  (projectKnownToolObservation toolName result).1.

(** ** Metadata of bounded results *)

Definition isString (v : raw) : bool := match v with RStr _ => true | _ => false end.
Definition defined (v : raw) : bool := match v with RUndef => false | _ => true end.
Definition isText (v : raw) (s : string) : bool :=
  match v with RStr t => bool_decide (t = js s) | _ => false end.
Definition isBoolean (v : raw) : bool := match v with RBool _ => true | _ => false end.
Definition isNumber (v : raw) : bool := match v with RNum _ _ | RNonFinite => true | _ => false end.
(** [Number.isSafeInteger], with the value. *)
Definition rawInt (v : raw) : option Z := match v with RNum m e => safeInt m e | _ => None end.

Definition boundedMetadataFields (o : robj) : list string :=
  let given (k : string) := if defined (rget k o) then [k] else [] in
  ["capped"; "completeness"]%string
  ++ (if isString (rget "timeRange" o) then ["timeRange"]%string else [])
  ++ ["effectiveLimit"; "count"]%string
  ++ given "effectivePastDays"%string ++ given "requestedLimit"%string ++ given "requestedPastDays"%string.

Definition prioritizeBoundedMetadata (v : raw) : raw :=
  match v with
  | RObj o =>
      let prioritized := omap (λ f, (λ x, (js f, x)) <$> jm_get (js f) o) (boundedMetadataFields o) in
      match prioritized with [] => v | _ => RObj (objOf (prioritized ++ o)) end
  | _ => v
  end.

(** A field of the metadata that may be shown. *)
Definition safeField (f : string) (v : raw) : option json :=
  if bool_decide (f = "capped"%string) then match v with RBool b => Some (JBool b) | _ => None end
  else if bool_decide (f = "completeness"%string) then
    match v with RStr s => if isText v "incomplete" || isText v "unknown" then Some (JStr s) else None
               | _ => None end
  else if bool_decide (f = "timeRange"%string) then
    match v with
    | RStr s => if isText v "upcoming" || isText v "past" || isText v "all" then Some (JStr s) else None
    | _ => None end
  else match v, rawInt v with
       | RNum m e, Some z => if 0 <=? z then Some (JNum m e) else None
       | _, _ => None
       end.

Definition serializeMetadata (o : robj) (fields : list string) (withMarker withOk : bool) : jsstring :=
  let data := objOf (omap (λ f, (λ v, (js f, v)) <$> safeField f (rget f o)) fields) in
  stringify (JObj ((if withOk then [(js "ok", JBool true)] else []) ++ [(js "data", JObj data)]
                   ++ (if withMarker then [(js "_observation", JStr (js "truncated"))] else []))).

Definition hasCapped (o : robj) : bool := isBoolean (rget "capped" o).
Definition hasCompleteness (o : robj) : bool :=
  isText (rget "completeness" o) "incomplete" || isText (rget "completeness" o) "unknown".

#[local] Notation "a ?? b" := (orElse a b) (at level 60, right associativity).

Definition within (maxChars : Z) (s : jsstring) : option jsstring :=
  if len s <=? maxChars then Some s else None.

(** The longest prefix of the fields that fits; capped alone is not shown where
    completeness should be with it. *)
Fixpoint prefixLoop (o : robj) (fields : list string) (withMarker withOk : bool) (maxChars : Z) (n : nat)
    : option jsstring :=
  match n with
  | O => None
  | S n' =>
      if bool_decide (n = 1%nat) && hasCapped o && hasCompleteness o
         && has fields "capped" && has fields "completeness"
      then None
      else within maxChars (serializeMetadata o (take n fields) withMarker withOk)
           ?? prefixLoop o fields withMarker withOk maxChars n'
  end.

Definition metadataGuard (v : raw) (ok : bool) : option robj :=
  match v with
  | RObj o => if ok && (hasCapped o || hasCompleteness o) then Some o else None
  | _ => None
  end.

(** [compactBoundedMetadata] without the observation marker. *)
Definition compactPlain (v : raw) (ok : bool) (maxChars : Z) (fields : option (list string)) (withOk : bool)
    : option jsstring :=
  match metadataGuard v ok with
  | None => None
  | Some o =>
      let available := default (boundedMetadataFields o) fields in
      within maxChars (serializeMetadata o available false withOk)
      ?? prefixLoop o available false withOk maxChars (length available)
  end.

(** [compactBoundedMetadata] with the marker. *)
Definition compactBoundedMetadata (v : raw) (ok : bool) (maxChars : Z) : option jsstring :=
  match metadataGuard v ok with
  | None => None
  | Some o =>
      let available := boundedMetadataFields o in
      let scoped := isString (rget "timeRange" o) in
      let plain fields := compactPlain v ok maxChars (Some fields) false in
      let trial fields withOk := within maxChars (serializeMetadata o fields false withOk) in
      within maxChars (serializeMetadata o available true true)
      ?? trial CORE_BOUNDED_METADATA_FIELDS true
      ?? (if (isText (rget "timeRange" o) "past" || isText (rget "timeRange" o) "all")
             && match rawInt (rget "effectivePastDays" o) with Some z => 0 <? z | None => false end
          then trial PAST_WINDOW_BOUNDED_METADATA_FIELDS false else None)
      ?? (if scoped then trial SCOPED_CAP_COUNT_BOUNDED_METADATA_FIELDS false else None)
      ?? (if scoped then trial SCOPED_CAP_STATE_BOUNDED_METADATA_FIELDS false else None)
      ?? (if scoped then trial SCOPED_COUNT_BOUNDED_METADATA_FIELDS false else None)
      ?? prefixLoop o available true true maxChars (length available)
      ?? plain SCOPED_CAP_STATE_BOUNDED_METADATA_FIELDS
      ?? plain COUNT_CAP_BOUNDED_METADATA_FIELDS
      ?? (if scoped then plain SCOPED_BOUNDED_METADATA_FIELDS else None)
      ?? plain CAP_STATE_BOUNDED_METADATA_FIELDS
      ?? plain MINIMUM_BOUNDED_METADATA_FIELDS
  end.

(** ** Bounding *)

Record BoundOptions := mkOptions { maxStringChars : Z; maxKeys : Z; maxItems : Z }.

Record BoundedValue := mkBoundedValue { b_value : json; b_truncated : bool; b_omitted : Z }.

Definition obs (s : string) : json := JObj [(js "_observation", JStr (js s))].

Fixpoint boundValue (opts : BoundOptions) (depth : nat) (v : raw) : BoundedValue :=
  match v with
  | RStr s =>
      let long := maxStringChars opts <? len s in
      mkBoundedValue (JStr (truncateString s (maxStringChars opts))) long (if long then 1 else 0)
  | RNull => mkBoundedValue JNull false 0
  | RBool b => mkBoundedValue (JBool b) false 0
  | RNum m e => mkBoundedValue (JNum m e) false 0
  | RNonFinite => mkBoundedValue JNull false 0
  | RUndef => mkBoundedValue JNull true 1
  | RBigInt digits => mkBoundedValue (JStr digits) true 1
  | ROther => mkBoundedValue JNull true 1
  | RArr l =>
      if (MAX_DEPTH <=? depth)%nat then mkBoundedValue (obs "truncated") true 1 else
      let rs := take (Z.to_nat (maxItems opts)) (map (boundValue opts (S depth)) l) in
      let n := Z.of_nat (length l) in
      mkBoundedValue (JArr (map b_value rs)) (existsb b_truncated rs || (maxItems opts <? n))
                     (Z.max 0 (n - maxItems opts) + sum_by b_omitted rs)
  | RObj o =>
      if (MAX_DEPTH <=? depth)%nat then mkBoundedValue (obs "truncated") true 1 else
      let rs := take (Z.to_nat (maxKeys opts)) (map (λ kv, (kv.1, boundValue opts (S depth) kv.2)) o) in
      let n := Z.of_nat (length o) in
      mkBoundedValue (JObj (map (λ r, (r.1, b_value r.2)) rs))
                     (existsb (λ r, b_truncated r.2) rs || (maxKeys opts <? n))
                     (Z.max 0 (n - maxKeys opts) + sum_by (λ r, b_omitted r.2) rs)
  end.

(** ** Envelopes *)

Definition marker (kind : string) (ok : bool) : jsstring :=
  stringify (JObj (if ok then [(js "ok", JBool true); (js "_observation", JStr (js kind))]
                   else [(js "ok", JBool false); (js "error", JStr (js "observation_unavailable"));
                         (js "_observation", JStr (js kind))])).

(** [observationMarker]. *)
Definition observationMarker (kind : string) (ok : bool) : jsstring := marker kind ok.

Section Reduce.
Context `{TextScan}.

Record Envelope := mkEnvelope { e_content : jsstring; e_truncated : bool; e_injection : option Injection }.

Definition envelopeValue (ok : bool) (data : raw) (error : option jsstring) (opts : BoundOptions) : json * bool :=
  let bounded := if ok then boundValue opts 0 data
                 else boundValue opts 0 (RStr (default (js "tool execution failed") error)) in
  (JObj ((if ok then [(js "ok", JBool true); (js "data", b_value bounded)]
          else [(js "ok", JBool false); (js "error", b_value bounded)])
         ++ (if b_truncated bounded
             then [(js "_observation", JStr (js "truncated"));
                   (js "omittedCount", numOf (Z.max 1 (b_omitted bounded)))] else [])),
   b_truncated bounded).

(** [Math.max(1, v)] of a number, 1 of anything else. *)
Definition atLeastOne (v : option json) : json :=
  match v with
  | Some (JNum m e) => if (0 <? m) && (negb (e <? 0) || (10 ^ (- e) <=? m)) then JNum m e else numOf 1
  | _ => numOf 1
  end.

(** What the sanitizer changed is marked as truncated. *)
Definition markTruncated (ok : bool) (text : jsstring) : jsstring :=
  match parse text with
  | Some (JObj o) =>
      let o1 := objSet (js "_observation") (JStr (js "truncated")) o in
      stringify (JObj (objSet (js "omittedCount") (atLeastOne (jm_get (js "omittedCount") o1)) o1))
  | _ => observationMarker "truncated" ok
  end.

Definition serializeEnvelope (ok : bool) (data : raw) (error : option jsstring) (opts : BoundOptions)
    : Envelope :=
  let '(envelope, truncated) := envelopeValue ok data error opts in
  let rawText := stringify envelope in
  let sanitized := sanitizeToolResultContent rawText in
  let changed := s_changed sanitized || (len (s_text sanitized) <? len rawText) in
  let inj := match s_reason sanitized with
             | Some r => if isInjectionSanitizeReason (Some r)
                         then Some (mkInjection r (sliceTo INJECTION_PREVIEW_CHARS rawText)) else None
             | None => None
             end in
  mkEnvelope (if changed then markTruncated ok (s_text sanitized) else s_text sanitized)
             (truncated || changed) inj.

Definition fallbackObservation (ok : bool) (error : option jsstring) : jsstring :=
  if negb ok && negb (bool_decide (default [] error = []))
  then marker "fallback" false
  else marker "truncated" true.

Definition minimumToolObservationLength (text : jsstring) (ok : bool) (toolName : jsstring) : Z :=
  match parse text with
  | Some (JObj o) =>
      match jm_get (js "data") o with
      | Some (JObj data) =>
          let d := match rawOf (JObj data) with RObj d => d | _ => [] end in
          let fields :=
            if (isText (rget "timeRange" d) "past" || isText (rget "timeRange" d) "all")
               && isNumber (rget "effectivePastDays" d)
            then PAST_WINDOW_BOUNDED_METADATA_FIELDS
            else if bool_decide (toolName = js "get_upcoming_study_sessions")
            then COUNT_CAP_BOUNDED_METADATA_FIELDS
            else if isString (rget "timeRange" d) then SCOPED_COUNT_BOUNDED_METADATA_FIELDS
            else MINIMUM_BOUNDED_METADATA_FIELDS in
          match compactPlain (RObj d) (bool_decide (jm_get (js "ok") o = Some (JBool true)))
                  MAX_SAFE_INTEGER (Some fields) false with
          | Some compact => len compact
          | None => len (observationMarker "truncated" ok)
          end
      | _ => len (observationMarker "truncated" ok)
      end
  | _ => len (observationMarker "truncated" ok)
  end.

(** [canonicalizeToolObservation]. *)
Fixpoint canonicalizeToolObservation (v : json) : jsstring :=
  match v with
  | JArr l => 91 :: commas (map canonicalizeToolObservation l) ++ [93]
  | JObj o =>
      123 :: commas (map (λ kv, quote kv.1 ++ 58 :: kv.2)
                       (sortKeys (map (λ kv, (kv.1, canonicalizeToolObservation kv.2)) o))) ++ [125]
  | _ => stringify v
  end.

Definition buildReducedObservation (text : jsstring) (o : Outcome) (truncated : bool)
    (inj : option Injection) : ReducedToolObservation :=
  mkReduced text (canonicalizeToolObservation (default (JStr text) (parse text))) o truncated inj.

Definition attempts (metadataKeyCount : Z) : list BoundOptions :=
  [mkOptions 2000 (Z.max MAX_KEYS metadataKeyCount) MAX_ITEMS;
   mkOptions 1000 (Z.max 20 metadataKeyCount) 10;
   mkOptions 500 (Z.max 12 metadataKeyCount) 5;
   mkOptions 200 (Z.max 8 metadataKeyCount) 3;
   mkOptions 80 (Z.max 6 metadataKeyCount) 2;
   mkOptions 40 (Z.max 4 metadataKeyCount) 1].

(** The first attempt whose text fits, and the first injection seen. *)
Fixpoint tryAttempts (ok : bool) (projected : raw) (error : option jsstring) (maxChars : Z)
    (inj : option Injection) (l : list BoundOptions) : option Envelope * option Injection :=
  match l with
  | [] => (None, inj)
  | opts :: l' =>
      let candidate := serializeEnvelope ok projected error opts in
      let inj' := orElse inj (e_injection candidate) in
      if maxChars <? len (e_content candidate)
      then tryAttempts ok projected error maxChars inj' l'
      else (Some candidate, inj')
  end.

Definition reduceBoundedObservation (projected0 : raw) (error : option jsstring) (ok : bool)
    (requestedChars : Z) (projectionWasTruncated : bool) : ReducedToolObservation :=
  let maxChars := Z.max 1 (Z.min requestedChars MAX_TOOL_OBSERVATION_CHARS) in
  let projected := prioritizeBoundedMetadata projected0 in
  let metadataKeyCount :=
    match projected with RObj o => Z.of_nat (length (boundedMetadataFields o)) | _ => 0 end in
  match tryAttempts ok projected error maxChars None (attempts metadataKeyCount) with
  | (Some candidate, inj) =>
      let truncated := e_truncated candidate || projectionWasTruncated in
      buildReducedObservation (e_content candidate) (if truncated then Truncated else Kept) truncated inj
  | (None, inj) =>
      match compactBoundedMetadata projected ok maxChars with
      | Some compact => buildReducedObservation compact Truncated true inj
      | None => buildReducedObservation (fallbackObservation ok error) (if ok then Truncated else Fallback)
                  true inj
      end
  end.

(** [reduceToolObservation] of a result, and of an error. *)
Definition reduceResult (toolName : jsstring) (result : raw) (maxChars : Z) : ReducedToolObservation :=
  let '(projected, omittedCount) := projectKnownToolObservation toolName result in
  reduceBoundedObservation projected None true maxChars (0 <? omittedCount).

Definition reduceError (error : jsstring) (maxChars : Z) : ReducedToolObservation :=
  reduceBoundedObservation RUndef (Some error) false maxChars false.

(** [String(v)], of a parsed value. *)
Fixpoint jsToString (v : json) : jsstring :=
  match v with
  | JNull => js "null"
  | JBool b => if b then js "true" else js "false"
  | JNum m e => numStr m e
  | JStr s => s
  | JArr l => commas (map (λ x, match x with JNull => [] | _ => jsToString x end) l)
  | JObj _ => js "[object Object]"
  end.

(** A property of a parsed value that is not null; only objects have any of the
    names asked for. *)
Definition jprop (k : string) (v : json) : option json :=
  match v with JObj o => jm_get (js k) o | _ => None end.

(** [fitToolObservation]: the text, and whether it was cut. *)
Definition fitToolObservation (text : jsstring) (maxChars : Z) : jsstring * bool :=
  if len text <=? maxChars then (text, false) else
  match parse text with
  | None | Some JNull => (observationMarker "truncated" true, true)
  | Some parsed =>
      let compactBounded :=
        bool_decide (jprop "ok" parsed = None)
        && match jprop "data" parsed with
           | Some (JObj data) =>
               let d := match rawOf (JObj data) with RObj d => d | _ => [] end in
               isBoolean (rget "capped" d)
               && (isText (rget "timeRange" d) "upcoming" || isText (rget "timeRange" d) "past"
                   || isText (rget "timeRange" d) "all"
                   || match rawInt (rget "count" d) with Some z => 0 <=? z | None => false end)
           | _ => false
           end in
      let ok := bool_decide (jprop "ok" parsed = Some (JBool true)) || compactBounded in
      let reduced := reduceBoundedObservation
        (if ok then match jprop "data" parsed with Some v => rawOf v | None => RUndef end else RUndef)
        (if ok then None
         else Some match jprop "error" parsed with
                   | Some JNull | None => js "tool execution failed"
                   | Some v => jsToString v end)
        ok maxChars
        (bool_decide (jprop "_observation" parsed = Some (JStr (js "truncated"))) || compactBounded) in
      (content reduced, true)
  end.
End Reduce.

(** ** Bounds of the text *)

(** The text of an object, so at least its two braces. *)
Definition objText (t : jsstring) : Prop := ∃ o, t = stringify (JObj o).

Lemma objText_length t : objText t → 2 ≤ len t.
Proof.
  intros [o ->]. cbn [stringify]. rewrite len_cons, len_app.
  pose proof (len_nonneg (commas (map (λ kv, quote kv.1 ++ 58 :: stringify kv.2) o))).
  change (len [125]) with 1. lia.
Qed.

Lemma marker_obj kind ok : objText (marker kind ok).
Proof. by eexists. Qed.

Lemma serializeMetadata_obj o fields mk ok : objText (serializeMetadata o fields mk ok).
Proof. by eexists. Qed.

Lemma within_ok n s t : within n s = Some t → t = s ∧ len t ≤ n.
Proof. unfold within. destruct (Z.leb_spec (len s) n); [by intros [= <-]|done]. Qed.

Lemma within_metadata n o fields mk ok t :
  within n (serializeMetadata o fields mk ok) = Some t → objText t ∧ len t ≤ n.
Proof. intros [-> ?]%within_ok. split; [apply serializeMetadata_obj|done]. Qed.

Lemma orElse_some {A} (a b : option A) x : orElse a b = Some x → a = Some x ∨ b = Some x.
Proof. destruct a; simpl; auto. Qed.

Lemma prefixLoop_ok o fields mk ok n k t : prefixLoop o fields mk ok n k = Some t → objText t ∧ len t ≤ n.
Proof.
  induction k as [|k IH]; [done|]. cbn [prefixLoop]. destruct (_ && _ && _ && _ && _); [done|].
  intros [H|H]%orElse_some; [by apply within_metadata in H|by apply IH].
Qed.

Lemma compactPlain_ok v ok n fields withOk t :
  compactPlain v ok n fields withOk = Some t → objText t ∧ len t ≤ n.
Proof.
  unfold compactPlain. destruct (metadataGuard v ok) as [o|]; [|done].
  intros [H|H]%orElse_some; [by apply within_metadata in H|by apply prefixLoop_ok in H].
Qed.

Lemma compact_ok v ok n t : compactBoundedMetadata v ok n = Some t → objText t ∧ len t ≤ n.
Proof.
  unfold compactBoundedMetadata. destruct (metadataGuard v ok) as [o|]; [|done]. cbv beta zeta. intros H.
  repeat match type of H with orElse _ _ = _ => apply orElse_some in H as [H|H] end;
    repeat match type of H with (if ?b then _ else _) = _ => destruct b; [|done] end;
    first [by apply within_metadata in H|by apply prefixLoop_ok in H|by apply compactPlain_ok in H].
Qed.

Lemma compact_failure v n : compactBoundedMetadata v false n = None.
Proof. unfold compactBoundedMetadata, metadataGuard. by destruct v. Qed.

Section Proofs.
Context `{TextScan}.

Lemma tryAttempts_fits ok v err n inj l c inj' :
  tryAttempts ok v err n inj l = (Some c, inj') →
  len (e_content c) ≤ n ∧ ∃ opts, opts ∈ l ∧ c = serializeEnvelope ok v err opts.
Proof.
  revert inj. induction l as [|opts l IH]; intros inj; cbn [tryAttempts]; [done|].
  destruct (Z.ltb_spec n (len (e_content (serializeEnvelope ok v err opts)))).
  - intros (Hl & o & Ho & ->)%IH. split; [done|]. exists o. split; [by right|done].
  - intros [= <- _]. split; [done|]. exists opts. split; [left|done].
Qed.

Lemma tryAttempts_none ok v err n inj l inj' :
  tryAttempts ok v err n inj l = (None, inj') →
  ∀ opts, opts ∈ l → n < len (e_content (serializeEnvelope ok v err opts)).
Proof.
  revert inj. induction l as [|opts l IH]; intros inj; cbn [tryAttempts]; [by intros _ ? ?%not_elem_of_nil|].
  destruct (Z.ltb_spec n (len (e_content (serializeEnvelope ok v err opts)))); [|done].
  intros E o [->|Ho]%elem_of_cons; [done|]. by apply (IH _ E).
Qed.

(** A reduced text fits, unless not even the fallback does. *)
Lemma reduced_fits v err ok n b :
  let c := content (reduceBoundedObservation v err ok n b) in
  len c ≤ Z.max 1 (Z.min n MAX_TOOL_OBSERVATION_CHARS) ∨ c = fallbackObservation ok err.
Proof.
  unfold reduceBoundedObservation. set (m := Z.max 1 _). set (p := prioritizeBoundedMetadata v).
  destruct (tryAttempts ok p err m None _) as [[c|] inj] eqn:E; simpl.
  - apply tryAttempts_fits in E as [? _]. by left.
  - destruct (compactBoundedMetadata p ok m) as [c|] eqn:Ec; simpl; [|by right].
    apply compact_ok in Ec as [_ Ec]. by left.
Qed.

Lemma fallback_length ok err : len (fallbackObservation ok err) ≤ 73.
Proof. unfold fallbackObservation. by destruct (negb ok && _). Qed.

(** No text is empty. *)
Lemma markTruncated_obj ok t : objText (markTruncated ok t).
Proof.
  unfold markTruncated. destruct (parse t) as [[]|]; try apply marker_obj. by eexists.
Qed.

Lemma envelope_length ok v err opts : 2 ≤ len (e_content (serializeEnvelope ok v err opts)).
Proof.
  unfold serializeEnvelope. destruct (envelopeValue ok v err opts) as [env tr] eqn:E. cbn [e_content].
  destruct (s_changed _ || _) eqn:Ec; [apply objText_length, markTruncated_obj|].
  apply orb_false_iff in Ec as [_ Ec%Z.ltb_ge]. injection E as <- _.
  etrans; [|exact Ec]. apply objText_length. by eexists.
Qed.

Lemma reduced_length v err ok n b : 2 ≤ len (content (reduceBoundedObservation v err ok n b)).
Proof.
  unfold reduceBoundedObservation. set (m := Z.max 1 _).
  destruct (tryAttempts _ _ _ _ _ _) as [[c|] inj] eqn:E; cbn [content buildReducedObservation].
  - apply tryAttempts_fits in E as (_ & opts & _ & ->). apply envelope_length.
  - destruct (compactBoundedMetadata _ _ _) as [c|] eqn:Ec; cbn [content].
    + apply compact_ok in Ec as [Ho _]. by apply objText_length.
    + apply objText_length. unfold fallbackObservation. destruct (negb ok && _); apply marker_obj.
Qed.

Lemma reduceResult_length toolName v n : 2 ≤ len (content (reduceResult toolName v n)).
Proof. unfold reduceResult. destruct (projectKnownToolObservation _ _). apply reduced_length. Qed.

Lemma fit_length t n : 2 ≤ len t → 2 ≤ len (fitToolObservation t n).1.
Proof.
  intros Ht. unfold fitToolObservation. destruct (len t <=? n); [done|].
  destruct (parse t) as [[| | | | |]|]; try apply reduced_length; apply objText_length, marker_obj.
Qed.

(** Every observation is within the limit of a single one. *)
Lemma reduceResult_bounded toolName v : len (content (reduceResult toolName v 8000)) ≤ 8000.
Proof.
  unfold reduceResult. destruct (projectKnownToolObservation toolName v) as [p n].
  destruct (reduced_fits p None true 8000 (0 <? n)) as [Hl| ->]; [done|].
  pose proof (fallback_length true None). lia.
Qed.

Lemma reduceError_bounded err : len (content (reduceError err 8000)) ≤ 8000.
Proof.
  unfold reduceError. destruct (reduced_fits RUndef (Some err) false 8000 false) as [Hl| ->]; [done|].
  pose proof (fallback_length false (Some err)). lia.
Qed.
End Proofs.

(** ** Failures *)

(** What the guards do: redaction returns a text, the same one when it says so,
    and neither the empty text nor the envelope of an empty error is flagged. *)
Class TextScanLaws `{TextScan} := {
  redact_units s : forallb isUnit s = true → forallb isUnit (redactSecrets s).1 = true;
  redact_same s t : redactSecrets s = (t, false) → t = s;
  redact_empty : redactSecrets [] = ([], false);
  scan_empty : scanPatterns [] = None;
  scan_empty_error : scanPatterns (jq "{'ok':false,'error':''}") = None
}.

(** An envelope that does not say the tool succeeded and has no data. *)
Definition failObj (o : jobj) : Prop :=
  jm_get (js "ok") o ≠ Some (JBool true) ∧ jm_get (js "data") o = None.

Definition failText (t : jsstring) : Prop :=
  ∃ o, wf (JObj o) = true ∧ t = stringify (JObj o) ∧ failObj o.

Lemma units_app s t : forallb isUnit (s ++ t) = forallb isUnit s && forallb isUnit t.
Proof. apply forallb_app. Qed.

Lemma units_incl s t : (∀ c, c ∈ s → c ∈ t) → forallb isUnit t = true → forallb isUnit s = true.
Proof. rewrite !forallb_forall. intros H Ht c Hc. apply Ht, list_elem_of_In, H. by apply list_elem_of_In. Qed.

Lemma drop_ws_incl s c : c ∈ drop_ws s → c ∈ s.
Proof. induction s as [|d s IH]; simpl; [done|]. destruct (js_whitespace d); [|done]. intros. right. auto. Qed.

Lemma rev_incl {A} (s : list A) c : c ∈ rev s → c ∈ s.
Proof. by rewrite !list_elem_of_In, <-in_rev. Qed.

Lemma js_trim_units s : forallb isUnit s = true → forallb isUnit (js_trim s) = true.
Proof.
  apply units_incl. intros c Hc. unfold js_trim in Hc. by apply rev_incl, drop_ws_incl, rev_incl, drop_ws_incl in Hc.
Qed.

Lemma sliceTo_units n s : forallb isUnit s = true → forallb isUnit (sliceTo n s) = true.
Proof. intros Hs. unfold sliceTo. destruct (0 <=? n); by apply forallb_take. Qed.

Lemma strip_units s : forallb isUnit s = true → forallb isUnit (stripUnsafeControlChars s) = true.
Proof.
  rewrite !forallb_forall. intros Hs c Hc. unfold stripUnsafeControlChars in Hc.
  apply in_map_iff in Hc as (d & <- & Hd). destruct (negb _ && _); [done|auto].
Qed.

Lemma collapse_units b s : forallb isUnit s = true → forallb isUnit (collapseWs b s) = true.
Proof.
  revert b. induction s as [|c s IH]; intros b; [done|]. simpl. intros [Hc Hs]%andb_true_iff.
  destruct (js_whitespace c); [destruct b|]; simpl; rewrite ?IH, ?Hc by done; done.
Qed.

Lemma truncateTo_units n s : forallb isUnit s = true → forallb isUnit (truncateTo n s) = true.
Proof.
  intros Hs. unfold truncateTo. rewrite units_app. apply andb_true_iff. split.
  - eapply units_incl; [|by apply (sliceTo_units (n - len (if len TRUNCATED_SUFFIX <? n then TRUNCATED_SUFFIX else js "...")))].
    intros c Hc. unfold trimEnd in Hc. by apply rev_incl, drop_ws_incl, rev_incl in Hc.
  - by destruct (_ <? _).
Qed.

Lemma truncateString_units s n : forallb isUnit s = true → forallb isUnit (truncateString s n) = true.
Proof.
  intros Hs. unfold truncateString. destruct (len s <=? n); [done|].
  destruct (n <=? _); rewrite ?units_app, ?sliceTo_units by done; done.
Qed.

Lemma digits_units s : forallb isDigit s = true → forallb isUnit s = true.
Proof.
  rewrite !forallb_forall. intros Hs c Hc. specialize (Hs c Hc). unfold isDigit in Hs. unfold isUnit. lia.
Qed.

Lemma natStr_units n : 0 ≤ n → forallb isUnit (natStr n) = true.
Proof. intros Hn. destruct (natStr_ok n Hn) as (_ & Hd & _). by apply digits_units. Qed.

Lemma zeros_units n : forallb isUnit (zeros n) = true.
Proof. apply digits_units, zeros_digits. Qed.

Lemma numStr_units m e : forallb isUnit (numStr m e) = true.
Proof.
  unfold numStr. destruct (m =? 0); [done|]. pose proof (natStr_units (Z.abs m) ltac:(lia)) as Hd.
  rewrite units_app. destruct (m <? 0); cbn [forallb andb]; [change (isUnit 45) with true; cbn [andb]|];
    (repeat case_match; rewrite ?units_app; cbn [forallb];
     rewrite ?units_app, ?forallb_take, ?forallb_drop, ?Hd, ?zeros_units, ?natStr_units by (done || lia); done).
Qed.

Lemma commas_units l : Forall (λ s, forallb isUnit s = true) l → forallb isUnit (commas l) = true.
Proof.
  induction 1 as [|s l Hs Hl IH]; [done|]. destruct l; [done|].
  rewrite commas_cons, units_app, Hs by done. simpl in *. by rewrite IH.
Qed.

Lemma hexDigit_unit n : 0 ≤ n < 16 → isUnit (hexDigit n) = true.
Proof. intros Hn. unfold hexDigit, isUnit. destruct (n <? 10); lia. Qed.

Lemma quoteFrom_units p s : forallb isUnit s = true → forallb isUnit (quoteFrom p s) = true.
Proof.
  revert p. induction s as [|c s IH]; intros p; [done|]. simpl. intros [Hc Hs]%andb_true_iff.
  rewrite units_app, IH by done. rewrite andb_true_r. unfold quoteUnit.
  destruct (shortEscape c) as [x|] eqn:Ex.
  - unfold shortEscape in Ex. simpl. rewrite andb_true_r. by repeat case_match; simplify_eq.
  - destruct (_ || _); [|simpl; by rewrite Hc]. unfold isUnit in Hc. bool_to_prop.
    assert (0 ≤ c / 4096 < 16) by (split; [apply Z.div_pos|apply Z.div_lt_upper_bound]; lia).
    unfold hex4. cbn [app forallb]. rewrite !hexDigit_unit; [done|apply Z.mod_pos_bound; lia..|done].
Qed.

Lemma quote_units s : forallb isUnit s = true → forallb isUnit (quote s) = true.
Proof. intros Hs. unfold quote. simpl. rewrite units_app, quoteFrom_units by done. done. Qed.

Lemma stringify_units v : wf v = true → forallb isUnit (stringify v) = true.
Proof.
  induction v as [|[]|m e|s|l Hl|o Ho] using json_ind; intros Hwf; try done.
  - apply numStr_units.
  - by apply quote_units.
  - cbn [stringify forallb]. rewrite units_app, commas_units; [done|].
    apply Forall_forall. intros s (v & -> & Hv)%list_elem_of_fmap. rewrite Forall_forall in Hl.
    simpl in Hwf. rewrite forallb_forall in Hwf. apply Hl; [done|]. apply Hwf. by apply list_elem_of_In.
  - cbn [stringify forallb]. rewrite units_app, commas_units; [done|].
    apply wf_obj in Hwf as (_ & _ & Hf). rewrite Forall_forall in Ho.
    apply Forall_forall. intros s ([k v] & -> & Hv)%list_elem_of_fmap.
    destruct (Hf k v Hv) as [Hk Hw]. cbn [fst snd]. rewrite units_app, quote_units by done.
    cbn [forallb]. by rewrite (Ho (k, v) Hv Hw : forallb isUnit (stringify v) = true).
Qed.

Lemma jsToString_units v : wf v = true → forallb isUnit (jsToString v) = true.
Proof.
  induction v as [|[]|m e|s|l Hl|o Ho] using json_ind; intros Hwf; try done.
  - apply numStr_units.
  - cbn [jsToString]. apply commas_units. apply Forall_forall. intros s (v & -> & Hv)%list_elem_of_fmap.
    rewrite Forall_forall in Hl. simpl in Hwf. rewrite forallb_forall in Hwf.
    assert (forallb isUnit (jsToString v) = true) as Hs by (apply Hl; [done|apply Hwf; by apply list_elem_of_In]).
    by destruct v.
Qed.

Section Failures.
Context `{TextScanLaws}.

Lemma sanitize_units n p s :
  forallb isUnit p = true → forallb isUnit s = true →
  forallb isUnit (s_text (sanitizeUntrustedTextForLlm n p s)) = true.
Proof.
  intros Hp Hs. unfold sanitizeUntrustedTextForLlm. destruct (scanPatterns _); [done|].
  pose proof (redact_units (js_trim (collapseWs false (js_trim (stripUnsafeControlChars s))))) as Hr.
  destruct (redactSecrets _) as [t red]. simpl in Hr.
  assert (forallb isUnit t = true) as Ht
    by (apply Hr; auto using js_trim_units, collapse_units, strip_units).
  destruct red, (n <? len t); simpl; auto using truncateTo_units.
Qed.

Lemma sanitize_wf v : wf v = true → wf (v_value (sanitizeUntrustedValueForLlm v)) = true.
Proof.
  induction v as [|b|m e|s|l Hl|o Ho] using json_ind; try done.
  - simpl. intros Hs. by apply sanitize_units.
  - simpl. rewrite Forall_forall in Hl. rewrite !forallb_forall. intros Hf x Hx.
    rewrite map_map in Hx. apply in_map_iff in Hx as (y & <- & Hy).
    apply Hl; [by apply list_elem_of_In|auto].
  - destruct (sanitize_keeps_keys o) as (o' & Eo & Hk). rewrite Eo. simpl in Eo. injection Eo as Eo.
    simpl. rewrite !andb_true_iff, !bool_decide_eq_true, !forallb_forall. intros [[Hnd Hown] Hf].
    split; [split|].
    + by rewrite Hk.
    + subst o'. rewrite map_map. cbn [fst snd].
      set (f := λ v, v_value (sanitizeUntrustedValueForLlm v)).
      change ((ownOrder (map (λ kv, (kv.1, f kv.2)) o)).*1 = (map (λ kv, (kv.1, f kv.2)) o).*1).
      by rewrite ownOrder_map, !map_keys, Hown.
    + subst o'. intros x Hx. rewrite map_map in Hx. apply in_map_iff in Hx as (y & <- & Hy). simpl.
      specialize (Hf y Hy). apply andb_true_iff in Hf as [-> Hv]. simpl.
      rewrite Forall_forall in Ho. apply (Ho y); [by apply list_elem_of_In|done].
Qed.

Lemma failText_of o : wf (JObj o) = true → failObj o → failText (stringify (JObj o)).
Proof. intros Hwf Hf. by exists o. Qed.

(** The model, or any reader, that parses the text does not find a success. *)
Lemma failText_reads t : failText t → ∃ o, parse t = Some (JObj o) ∧ failObj o.
Proof. intros (o & Hwf & -> & Hf). exists o. split; [by apply parse_stringify|done]. Qed.

(** The sanitizer keeps what an envelope says of success. *)
Lemma sanitized_fail o :
  wf (JObj o) = true → failObj o →
  ∃ o', s_text (sanitizeToolResultContent (stringify (JObj o))) = stringify (JObj o')
        ∧ wf (JObj o') = true ∧ failObj o'.
Proof.
  intros Hwf [Hok Hd]. unfold sanitizeToolResultContent. rewrite parse_stringify by done.
  pose proof (sanitize_wf (JObj o) Hwf) as Hw.
  set (r := sanitizeUntrustedValueForLlm (JObj o)) in *.
  assert (∃ o', v_value r = JObj o' ∧ failObj o') as (o' & Eo & Hf).
  { unfold r. simpl. eexists. split; [done|]. rewrite map_map. cbn [fst snd].
    split; rewrite (jm_get_map (λ v, v_value (sanitizeUntrustedValueForLlm v))); [|by rewrite Hd].
    destruct (jm_get (js "ok") o) as [v|]; [|done]. intros [= E]. destruct v; simpl in E; congruence. }
  destruct (scanPatterns _); [by exists [(js "_sanitized", JBool true)]|].
  destruct (_ <? _).
  - exists [(js "_truncated", JBool true);
            (js "preview", JStr (sliceTo MAX_SANITIZED_TOOL_RESULT_CHARS (stringify (v_value r))))].
    split; [done|]. split; [|done].
    assert (forallb isUnit (sliceTo MAX_SANITIZED_TOOL_RESULT_CHARS (stringify (v_value r))) = true) as Hu
      by (apply sliceTo_units, stringify_units, Hw).
    cbn [wf forallb snd fst]. rewrite Hu. reflexivity.
  - exists o'. rewrite <-Eo. done.
Qed.

Lemma atLeastOne_wf v : (∀ x, v = Some x → wf x = true) → wf (atLeastOne v) = true.
Proof.
  intros Hv. destruct v as [[| |m e| | |]|]; try apply numOf_wf. unfold atLeastOne.
  destruct (_ && _); [by apply Hv|apply numOf_wf].
Qed.

Lemma markTruncated_fail o : wf (JObj o) = true → failObj o → failText (markTruncated false (stringify (JObj o))).
Proof.
  intros Hwf [Hok Hd]. unfold markTruncated. rewrite parse_stringify by done.
  cbv zeta. set (n := atLeastOne _).
  assert (wf (JObj (objSet (js "_observation") (JStr (js "truncated")) o)) = true) as Hw1 by (by apply wf_objSet).
  destruct (wf_obj _ Hw1) as (Hnd1 & _ & Hf1). destruct (wf_obj _ Hwf) as (Hnd & _ & _).
  assert (wf n = true) as Hn.
  { apply atLeastOne_wf. intros x E. apply jm_get_some in E; [|done]. by apply Hf1 in E as [_ E]. }
  apply failText_of; [by apply wf_objSet|].
  split; rewrite !jm_get_objSet by done; rewrite !decide_False by done; done.
Qed.

Lemma envelope_fail v err opts :
  forallb isUnit err = true →
  failText (e_content (serializeEnvelope false v (Some err) opts)).
Proof.
  intros Hu. unfold serializeEnvelope.
  destruct (envelopeValue false v (Some err) opts) as [env tr] eqn:E.
  assert (∃ o, env = JObj o ∧ wf (JObj o) = true ∧ failObj o) as (o & -> & Hwf & Hf).
  { injection E as <- _. eexists. split; [done|].
    pose proof (truncateString_units err (maxStringChars opts) Hu) as Ht.
    cbn [boundValue b_value b_truncated b_omitted default]. 
    destruct (maxStringChars opts <? len err); (split; [|by split]);
      cbn [app wf forallb fst snd]; rewrite Ht; [|reflexivity].
    rewrite numOf_wf. reflexivity. }
  destruct (sanitized_fail o Hwf Hf) as (o' & Es & Hwf' & Hf'). cbn [e_content]. rewrite Es.
  destruct (s_changed _ || _); [by apply markTruncated_fail|by apply failText_of].
Qed.

Lemma failText_marker kind :
  kind ∈ ["reused"; "truncated"; "fallback"]%string → failText (marker kind false).
Proof.
  intros Hk. assert (∀ k, failText (marker k false) ∨ k ∉ ["reused"; "truncated"; "fallback"]%string) as H'.
  { intros k. destruct (decide (k ∈ ["reused"; "truncated"; "fallback"]%string)) as [Hin|]; [left|by right].
    rewrite !elem_of_cons, elem_of_nil in Hin.
    destruct Hin as [->|[->|[->|[]]]]; (apply failText_of; [reflexivity|by split]). }
  by destruct (H' kind).
Qed.

Lemma empty_envelope n : 2000 ≤ maxStringChars n →
  e_content (serializeEnvelope false RUndef (Some []) n) = jq "{'ok':false,'error':''}".
Proof.
  intros Hn. unfold serializeEnvelope.
  destruct (envelopeValue false RUndef (Some []) n) as [env tr] eqn:E.
  assert (env = JObj [(js "ok", JBool false); (js "error", JStr [])]) as ->.
  { injection E as <- _. cbn [boundValue b_value b_truncated default].
    unfold truncateString. change (len []) with 0.
    destruct (Z.ltb_spec (maxStringChars n) 0); [lia|]. by rewrite (proj2 (Z.leb_le 0 _)) by lia. }
  set (txt0 := stringify (JObj [(js "ok", JBool false); (js "error", JStr [])])).
  assert (txt0 = jq "{'ok':false,'error':''}") as Et by reflexivity. rewrite Et.
  assert (sanitizeToolResultContent (jq "{'ok':false,'error':''}")
          = mkSanitized (jq "{'ok':false,'error':''}") false None) as ->; [|reflexivity].
  unfold sanitizeToolResultContent. rewrite <-Et. unfold txt0 at 1. rewrite parse_stringify by reflexivity.
  cbn [sanitizeUntrustedValueForLlm map fst snd v_value].
  assert (sanitizeUntrustedTextForLlm MAX_SANITIZED_TOOL_RESULT_CHARS UNSAFE_TEXT_PLACEHOLDER []
          = mkSanitized [] false None) as ->.
  { unfold sanitizeUntrustedTextForLlm. change (js_trim (stripUnsafeControlChars [])) with ([] : jsstring).
    rewrite scan_empty. change (js_trim (collapseWs false [])) with ([] : jsstring). by rewrite redact_empty. }
  cbn [s_text s_changed s_reason]. fold txt0. rewrite Et, scan_empty_error. reflexivity.
Qed.

(** A failed tool's text never reads as a success, in any budget it fits. *)
Lemma failure_reduced err n b :
  forallb isUnit err = true →
  let c := content (reduceBoundedObservation RUndef (Some err) false n b) in
  len c ≤ Z.max 1 (Z.min n MAX_TOOL_OBSERVATION_CHARS) ∨ err ≠ [] → failText c.
Proof.
  intros Hu. unfold reduceBoundedObservation. set (m := Z.max 1 _).
  cbn [prioritizeBoundedMetadata]. rewrite compact_failure.
  destruct (tryAttempts false RUndef (Some err) m None (attempts 0)) as [[c|] inj] eqn:E; cbn [content buildReducedObservation].
  - intros _. apply tryAttempts_fits in E as (_ & opts & _ & ->). by apply envelope_fail.
  - intros Hc. unfold fallbackObservation in *. simpl negb in *. cbn [default andb] in *.
    destruct (decide (err = [])) as [->|Hne].
    + exfalso. destruct Hc as [Hc|]; [|done].
      pose proof (tryAttempts_none _ _ _ _ _ _ _ E (mkOptions 2000 (Z.max MAX_KEYS 0) MAX_ITEMS) ltac:(left)) as Hl.
      rewrite empty_envelope in Hl by (simpl; lia).
      change (len (jq "{'ok':false,'error':''}")) with 23 in Hl.
      rewrite bool_decide_eq_true_2 in Hc by done.
      change (len (if negb true then marker "fallback" false else marker "truncated" true)) with 38 in Hc. lia.
    + rewrite bool_decide_eq_false_2 by done. apply failText_marker. right. right. left.
Qed.

Lemma fit_failure t n :
  0 ≤ n → failText t →
  let c := (fitToolObservation t n).1 in len c ≤ n → failText c.
Proof.
  intros Hn Hf. unfold fitToolObservation. destruct (len t <=? n) eqn:El; [done|].
  destruct Hf as (o & Hwf & -> & Hok & Hd). rewrite parse_stringify by done. cbn [jprop]. rewrite Hd.
  rewrite andb_false_r, orb_false_r, (bool_decide_eq_false_2 (_ = Some (JBool true))) by done. cbn [fst].
  intros Hc. apply failure_reduced.
  - destruct (jm_get (js "error") o) as [v|] eqn:Ev; [|done]. apply jm_get_elem in Ev.
    apply wf_obj in Hwf as (_ & _ & Hwf). apply Hwf in Ev as [_ Ev].
    destruct v; try done; by apply jsToString_units.
  - destruct (decide (1 ≤ n)) as [Hn1|Hn0].
    + destruct (decide (n ≤ MAX_TOOL_OBSERVATION_CHARS)); [left; lia|].
      left. destruct (reduced_fits RUndef
        (Some match jm_get (js "error") o with
              | Some JNull | None => js "tool execution failed" | Some v => jsToString v end) false n
        (bool_decide (jm_get (js "_observation") o = Some (JStr (js "truncated"))) || false)) as [H1|H1]; [done|].
      rewrite H1. pose proof (fallback_length false
        (Some match jm_get (js "error") o with
              | Some JNull | None => js "tool execution failed" | Some v => jsToString v end)).
      unfold MAX_TOOL_OBSERVATION_CHARS in *. lia.
    + left. lia.
Qed.
End Failures.
End ToolObservation.
