(* ===== verification/ToolRound.v ===== *)
(** * A round of tool calls

    packages/llm-agent, internal/tool-round-executor.ts: the calls of one model
    message.  Equal calls run once; unknown tools, invalid arguments and calls over
    the budget are answered without running; a round with a write runs one call at
    a time; every call gets an observation, fitted into the characters the context
    has left.

    The executor, the clock and the abort signal are an environment that answers
    each started call; [order] is the order in which concurrent calls end. *)

From S2P Require Import Prelude Json Masking AgentTools PromptSafety ToolObservation.

Module ToolRound.
Import Json Masking AgentTools PromptSafety ToolObservation.

Record ToolCall := mkCall { c_id : jsstring; c_name : jsstring; c_arguments : jsstring }.

#[export] Instance toolCall_eq_dec : EqDecision ToolCall.
Proof. solve_decision. Defined.

(** [Masking.errorMessage] of the error, and [isAbortError]. *)
Record ToolError := mkToolError { t_message : jsstring; t_abort : bool }.

Inductive Answer := Returned (result : raw) | Raised (e : ToolError).

(** What happens to a call that is about to start. *)
Record CallEnv := mkCallEnv {
  startAborted : bool;       (** the parent signal, before the start *)
  answer : Answer;           (** of the executor or of the timeout *)
  controllerAborted : bool;  (** both signals, when the answer is an error *)
  parentAborted : bool
}.

(** ** State of a round *)

Inductive Event := EStart (name args : jsstring) | EEnd (name args : jsstring).

Record RoundState := mkRound {
  executedInRound : Z;
  executedCount : Z;
  resultsByKey : list (jsstring * (ReducedToolObservation * bool));
  disclosures : list (jsstring * BoundedToolDisclosure);
  denied : list (jsstring * string);
  events : list Event
}.

Definition round0 : RoundState := mkRound 0 0 [] [] [] [].

Definition setResult (k : jsstring) (o : ReducedToolObservation) (succeeded : bool) (s : RoundState) : RoundState :=
  mkRound (executedInRound s) (executedCount s) (jm_set k (o, succeeded) (resultsByKey s))
          (disclosures s) (denied s) (events s).

Definition setDisclosure (k : jsstring) (d : BoundedToolDisclosure) (s : RoundState) : RoundState :=
  mkRound (executedInRound s) (executedCount s) (resultsByKey s)
          (jm_set k (mergeBoundedToolDisclosures (jm_get k (disclosures s)) d) (disclosures s))
          (denied s) (events s).

Definition toolPolicyDeniedInc (n : jsstring) (reason : string) (s : RoundState) : RoundState :=
  mkRound (executedInRound s) (executedCount s) (resultsByKey s) (disclosures s)
          (denied s ++ [(n, reason)]) (events s).

Definition emit (e : Event) (s : RoundState) : RoundState :=
  mkRound (executedInRound s) (executedCount s) (resultsByKey s) (disclosures s) (denied s) (events s ++ [e]).

(** A started call counts against the budget, if there is one. *)
Definition countStart (budget : option Z) (s : RoundState) : RoundState :=
  mkRound (executedInRound s + match budget with Some _ => 1 | None => 0 end) (executedCount s + 1)
          (resultsByKey s) (disclosures s) (denied s) (events s).

Section Execute.
Context `{Zod} `{TextScan}.
(** The schema of bounded results, on a result. *)
Variable parseBounded : raw → option BoundedToolResultMetadata.
Variable externalUserId : jsstring.
Variable env : ToolCall → CallEnv.

Definition keyOf (c : ToolCall) : jsstring := toolCallKey (c_name c) (c_arguments c).

(** The first call of every key. *)
Definition uniqueCalls (calls : list ToolCall) : list ToolCall :=
  (foldl (λ m c, if decide (is_Some (jm_get (keyOf c) m)) then m else jm_set (keyOf c) c m) [] calls).*2.

Definition deny (c : ToolCall) (error : jsstring) (s : RoundState) : RoundState :=
  setResult (keyOf c) (reduceError error 8000) false s.

Inductive Launch := Answered | Started | AbortedLaunch.

(** [executeCall] up to its first await. *)
Definition launch (budget : option Z) (c : ToolCall) (s : RoundState) : RoundState * Launch :=
  let n := c_name c in
  if negb (isAgentToolName n) then (deny c (txt "Tool không được hỗ trợ") s, Answered) else
  match parseAndValidateToolArguments n (argsOf (c_arguments c)) false with
  | Invalid error => (deny c (errorText error) (toolPolicyDeniedInc n "invalid_arguments" s), Answered)
  | Valid _ _ _ =>
      if bool_decide (getAgentToolDefinition n ≫= capability = None)
      then (deny c (js "Tool execution blocked by policy") (toolPolicyDeniedInc n "missing_capability" s), Answered)
      else if match budget with Some max => max <=? executedInRound s | None => false end
      then (deny c (txt "Đã đạt giới hạn tra cứu trong lượt này")
              (toolPolicyDeniedInc n "turn_budget_exhausted" s), Answered)
      else if startAborted (env c) then (s, AbortedLaunch)
      else (emit (EStart n (argsOf (c_arguments c))) (countStart budget s), Started)
  end.

(** The rest of it; [true] when it throws. *)
Definition settle (c : ToolCall) (s0 : RoundState) : RoundState * bool :=
  let n := c_name c in
  let s := emit (EEnd n (argsOf (c_arguments c))) s0 in
  match answer (env c) with
  | Returned result =>
      let s1 := match readBoundedToolDisclosure (parseBounded result) with
                | Some d => setDisclosure (keyOf c) d s
                | None => s
                end in
      (setResult (keyOf c) (reduceResult n result 8000) true s1, false)
  | Raised e =>
      if parentAborted (env c) then (s, true)
      else if t_abort e || (bool_decide (n = js "reschedule_study_session") && controllerAborted (env c))
      then (s, true)
      else
        let message := maskExternalIdInText
          (s_text (sanitizeUntrustedTextForLlm 500 (js "Tool execution failed") (t_message e)))
          externalUserId in
        (deny c message s, false)
  end.

(** One call after the other; stops at the first that throws. *)
Fixpoint runSequential (budget : option Z) (calls : list ToolCall) (s : RoundState) : RoundState * bool :=
  match calls with
  | [] => (s, false)
  | c :: calls' =>
      match launch budget c s with
      | (s1, AbortedLaunch) => (s1, true)
      | (s1, Answered) => runSequential budget calls' s1
      | (s1, Started) =>
          match settle c s1 with
          | (s2, true) => (s2, true)
          | (s2, false) => runSequential budget calls' s2
          end
      end
  end.

(** All calls start in order; the started ones, and whether one was aborted. *)
Fixpoint launchAll (budget : option Z) (calls : list ToolCall) (s : RoundState)
    : RoundState * list ToolCall * bool :=
  match calls with
  | [] => (s, [], false)
  | c :: calls' =>
      let '(s1, l) := launch budget c s in
      let '(s2, running, aborted) := launchAll budget calls' s1 in
      match l with
      | Answered => (s2, running, aborted)
      | Started => (s2, c :: running, aborted)
      | AbortedLaunch => (s2, running, true)
      end
  end.

Fixpoint settleAll (calls : list ToolCall) (s : RoundState) : RoundState * bool :=
  match calls with
  | [] => (s, false)
  | c :: calls' =>
      let '(s1, thrown) := settle c s in
      let '(s2, thrown') := settleAll calls' s1 in (s2, thrown || thrown')
  end.

(** [Promise.all], when the started calls end in the order given. *)
Definition runParallel (order : list ToolCall → list ToolCall) (budget : option Z)
    (calls : list ToolCall) (s : RoundState) : RoundState * bool :=
  let '(s1, running, aborted) := launchAll budget calls s in
  let '(s2, thrown) := settleAll (order running) s1 in (s2, aborted || thrown).

(** Unknown tools count as side effects. *)
Definition hasSideEffect (calls : list ToolCall) : bool :=
  existsb (λ c, negb (bool_decide
    (effect <$> (getAgentToolDefinition (c_name c) ≫= capability) = Some "read_only"%string))) calls.

Definition runCalls (order : list ToolCall → list ToolCall) (budget : option Z)
    (calls : list ToolCall) : RoundState * bool :=
  let unique := uniqueCalls calls in
  if hasSideEffect unique then runSequential budget unique round0
  else runParallel order budget unique round0.

(** ** Observations *)

Definition missingObservation : ReducedToolObservation :=
  reduceError (js "tool execution did not produce a result") 8000.

Definition observationMarkerWithinBudget (kind : string) (ok : bool) (maxChars : Z) : jsstring :=
  let m := observationMarker kind ok in
  if len m <=? maxChars then m
  else
    let compact := stringify (JObj [(js "ok", JBool ok)]) in
    if len compact <=? maxChars then compact else [].

(** The text, and whether it was cut. *)
Definition fitObservationWithinBudget (text : jsstring) (maxChars : Z) (ok : bool) : jsstring * bool :=
  let fitted := fitToolObservation text maxChars in
  if len fitted.1 <=? maxChars then fitted
  else (observationMarkerWithinBudget "truncated" ok maxChars, true).

(** [fullByKey] and [minimumByKey] are functions of the round's results. *)
Section Observations.
Variable results : list (jsstring * (ReducedToolObservation * bool)).
Variable unique : list ToolCall.

Definition executionOf (c : ToolCall) : ReducedToolObservation * bool :=
  default (missingObservation, false) (jm_get (keyOf c) results).

Definition isUnique (k : jsstring) : bool := existsb (λ c, bool_decide (keyOf c = k)) unique.

(** [fullByKey.get(callKey)]. *)
Definition fullOf (c : ToolCall) : option ReducedToolObservation :=
  if isUnique (keyOf c) then Some (executionOf c).1 else None.

Definition minimumOf (c : ToolCall) : Z :=
  match fullOf c with
  | Some full => minimumToolObservationLength (content full) (executionOf c).2 (c_name c)
  | None => len (observationMarker "truncated" (executionOf c).2)
  end.

Definition minimumByKey : list (jsstring * Z) := (λ c, (keyOf c, minimumOf c)) <$> unique.

Definition observationKey (c : ToolCall) : jsstring :=
  c_name c ++ 58 ::
  match fullOf c with
  | Some full => if wasTruncated full then js "call:" ++ keyOf c else canonical full
  | None => keyOf c
  end.

Definition resultKey (c : ToolCall) : jsstring := c_id c ++ 58 :: keyOf c.

Record AllocState := mkAlloc {
  remaining : Z;
  remainingUnique : Z;
  emitted : list jsstring;
  allocated : list (jsstring * jsstring);
  outcomes : list (jsstring * Outcome);
  pendingKeys : list jsstring
}.

Definition reserve (pending : list jsstring) : Z :=
  foldl (λ total k, total + default 0 (jm_get k minimumByKey)) 0 pending.

(** A pass of the loop over the calls. *)
Definition allocate (a : AllocState) (c : ToolCall) : AllocState :=
  let callKey := keyOf c in
  let '(_, succeeded) := executionOf c in
  if bool_decide (observationKey c ∈ emitted a) then
    let m := observationMarkerWithinBudget "reused" succeeded (remaining a) in
    mkAlloc (Z.max 0 (remaining a - len m)) (remainingUnique a) (emitted a)
      (jm_set (resultKey c) m (allocated a)) (jm_set (resultKey c) Deduped (outcomes a)) (pendingKeys a)
  else
    let pending := filter (λ k, k ≠ callKey) (pendingKeys a) in
    let remainingUnique := Z.max 1 (remainingUnique a) in
    let fairShare := Z.max 1 (remaining a / remainingUnique) in
    let availableAfterReserve := Z.max 0 (remaining a - reserve pending) in
    let allocation :=
      Z.max 1 (Z.min (remaining a) (Z.max (minimumOf c) (Z.min fairShare availableAfterReserve))) in
    let '(text, cut) :=
      match fullOf c with
      | Some full => fitObservationWithinBudget (content full) allocation succeeded
      | None => (observationMarkerWithinBudget (if succeeded then "truncated" else "fallback") succeeded
                   allocation, true)
      end in
    let o :=
      match fullOf c with
      | Some full =>
          match outcome full with
          | Fallback => Fallback
          | _ => if wasTruncated full || cut then Truncated else Kept
          end
      | None => if cut then Truncated else Kept
      end in
    mkAlloc (Z.max 0 (remaining a - len text)) (remainingUnique - 1) (emitted a ++ [observationKey c])
      (jm_set (resultKey c) text (allocated a)) (jm_set (resultKey c) o (outcomes a)) pending.

Definition allocation0 (observationBudget : Z) : AllocState :=
  mkAlloc (Z.max 0 observationBudget) (Z.of_nat (length unique)) [] [] [] minimumByKey.*1.

Definition allocateAll (observationBudget : Z) (calls : list ToolCall) : AllocState :=
  foldl allocate (allocation0 observationBudget) calls.
End Observations.

(** ** The round *)

Record ToolRoundResult := mkResult {
  r_toolCallId : jsstring;
  r_toolName : jsstring;
  r_content : jsstring;
  r_succeeded : bool;
  r_boundedDisclosure : option BoundedToolDisclosure;
  r_outcome : Outcome   (** reported to the metrics *)
}.

Record ToolRoundExecution := mkExecution {
  results : list ToolRoundResult;
  x_executedCount : Z;
  successfulToolNames : list jsstring;
  boundedToolDisclosures : list (jsstring * BoundedToolDisclosure);
  injections : list (Injection * jsstring)
}.

Definition resultOf (s : RoundState) (a : AllocState) (c : ToolCall) : ToolRoundResult :=
  let '(_, succeeded) := executionOf (resultsByKey s) c in
  mkResult (c_id c) (c_name c)
    (default (observationMarker "fallback" succeeded) (jm_get (resultKey c) (allocated a)))
    succeeded (jm_get (keyOf c) (disclosures s))
    (default Fallback (jm_get (resultKey c) (outcomes a))).

(** [execute]: what ran, and the observations unless it throws. *)
Definition execute (order : list ToolCall → list ToolCall) (calls : list ToolCall)
    (observationBudget : Z) (budget : option Z) : RoundState * option ToolRoundExecution :=
  let unique := uniqueCalls calls in
  match runCalls order budget calls with
  | (s, true) => (s, None)
  | (s, false) =>
      let a := allocateAll (resultsByKey s) unique observationBudget calls in
      (s, Some (mkExecution
        (resultOf s a <$> calls)
        (executedCount s)
        (c_name <$> filter (λ c, (executionOf (resultsByKey s) c).2 && isAgentToolName (c_name c) = true) unique)
        (disclosures s)
        (omap (λ c, (λ i, (i, c_name c)) <$> injection (executionOf (resultsByKey s) c).1) unique)))
  end.
End Execute.

(** ** What a round should do

    Refusals are decided call by call, in the order of the model; [n] calls have
    started before. *)
Section Reference.
Context `{Zod} `{TextScan}.
Variable externalUserId : jsstring.
Variable env : ToolCall → CallEnv.
Variable max : Z.

Definition refusal (n : Z) (c : ToolCall) : option jsstring :=
  if negb (isAgentToolName (c_name c)) then Some (txt "Tool không được hỗ trợ") else
  match parseAndValidateToolArguments (c_name c) (argsOf (c_arguments c)) false with
  | Invalid error => Some (errorText error)
  | Valid _ _ _ =>
      if bool_decide (getAgentToolDefinition (c_name c) ≫= capability = None)
      then Some (js "Tool execution blocked by policy")
      else if max <=? n then Some (txt "Đã đạt giới hạn tra cứu trong lượt này") else None
  end.

Fixpoint plan (n : Z) (calls : list ToolCall) : list (ToolCall * option jsstring) :=
  match calls with
  | [] => []
  | c :: calls' =>
      let r := refusal n c in
      (c, r) :: plan (match r with None => n + 1 | Some _ => n end) calls'
  end.

(** The calls a plan runs. *)
Definition runs (p : list (ToolCall * option jsstring)) : list ToolCall :=
  omap (λ e, match e.2 with None => Some e.1 | Some _ => None end) p.

Definition failed (error : jsstring) : ReducedToolObservation * bool :=
  (reduceError error 8000, false).

(** The observation of a call that ran. *)
Definition ended (c : ToolCall) : ReducedToolObservation * bool :=
  match answer (env c) with
  | Returned result => (reduceResult (c_name c) result 8000, true)
  | Raised e =>
      failed (maskExternalIdInText
        (s_text (sanitizeUntrustedTextForLlm 500 (js "Tool execution failed") (t_message e))) externalUserId)
  end.

Definition observation (e : ToolCall * option jsstring) : jsstring * (ReducedToolObservation * bool) :=
  (keyOf e.1, match e.2 with Some error => failed error | None => ended e.1 end).

Definition observedBy (calls : list ToolCall) : list (jsstring * (ReducedToolObservation * bool)) :=
  observation <$> plan 0 calls.
End Reference.

Definition startOf (c : ToolCall) : Event := EStart (c_name c) (argsOf (c_arguments c)).
Definition endOf (c : ToolCall) : Event := EEnd (c_name c) (argsOf (c_arguments c)).

(** The calls started in a list of events. *)
Definition starts (l : list Event) : list (jsstring * jsstring) :=
  omap (λ e, match e with EStart n a => Some (n, a) | EEnd _ _ => None end) l.

Definition callOf (c : ToolCall) : jsstring * jsstring := (c_name c, argsOf (c_arguments c)).

(** ** Maps written in turn *)

Definition assign {V} (m l : list (jsstring * V)) : list (jsstring * V) :=
  foldl (λ m kv, jm_set kv.1 kv.2 m) m l.

Lemma assign_lookup {V} (m l : list (jsstring * V)) k :
  NoDup l.*1 → jm_get k (assign m l) = match jm_get k l with Some v => Some v | None => jm_get k m end.
Proof.
  revert m. induction l as [|[k' v] l IH]; intros m; [done|]. rewrite fmap_cons. intros [Hn Hnd]%NoDup_cons.
  cbn [assign foldl jm_get fst snd]. change (jm_get k (assign (jm_set k' v m) l) =
    match (if decide (k' = k) then Some v else jm_get k l) with Some v => Some v | None => jm_get k m end).
  rewrite IH by done. destruct (decide (k' = k)) as [->|Hne].
  - rewrite jm_get_none by done. by rewrite jm_get_set, decide_True.
  - destruct (jm_get k l); [done|]. by rewrite jm_get_set, decide_False by done.
Qed.

(** ** The unique calls *)

Section Proofs.
Context `{Zod} `{TextScan}.
Variable parseBounded : raw → option BoundedToolResultMetadata.
Variable externalUserId : jsstring.
Variable env : ToolCall → CallEnv.

Lemma jm_set_fresh {V} k (v : V) (m : list (jsstring * V)) : jm_get k m = None → jm_set k v m = m ++ [(k, v)].
Proof.
  induction m as [|[k' v'] m IH]; simpl; [done|]. destruct (decide (k' = k)); [done|]. intros Hm. by rewrite IH.
Qed.

Lemma uniqueCalls_spec calls :
  NoDup (keyOf <$> uniqueCalls calls) ∧ uniqueCalls calls `sublist_of` calls
  ∧ ∀ c, c ∈ calls → ∃ c', c' ∈ uniqueCalls calls ∧ keyOf c' = keyOf c.
Proof.
  unfold uniqueCalls.
  induction calls as [|c calls IH] using rev_ind.
  { split_and!; [constructor|constructor|by intros ? ?%not_elem_of_nil]. }
  rewrite foldl_app. cbn [foldl]. set (m := foldl _ [] calls) in *.
  assert (∀ k x, (k, x) ∈ m → k = keyOf x) as Hkeys.
  { subst m. clear IH. induction calls as [|c' calls IH] using rev_ind; intros k x; [by intros ?%not_elem_of_nil|].
    rewrite foldl_app. cbn [foldl]. destruct (decide _) as [|Hn]; [by apply IH|].
    apply eq_None_not_Some in Hn. rewrite jm_set_fresh by done.
    intros [Hin|[= -> ->]%list_elem_of_singleton]%elem_of_app; [by apply IH|done]. }
  assert (m.*1 = keyOf <$> m.*2) as Hm.
  { clear IH. induction m as [|[k x] m IHm]; [done|]. rewrite !fmap_cons. cbn [fst snd].
    rewrite (Hkeys k x) by left. f_equal. apply IHm. intros. apply Hkeys. by right. }
  destruct IH as (Hnd & Hsub & Hall). destruct (decide _) as [Hs|Hn].
  - split_and!; [done|by apply sublist_inserts_r|].
    intros x [Hx|Hx%list_elem_of_singleton]%elem_of_app; [by apply Hall|]. subst x.
    destruct Hs as [x Hx]. apply jm_get_elem in Hx. exists x. rewrite <-(Hkeys _ _ Hx). split; [|done].
    by apply (list_elem_of_fmap_2 snd) in Hx.
  - apply eq_None_not_Some in Hn. rewrite jm_set_fresh by done. rewrite fmap_app. cbn [fmap list_fmap snd].
    split_and!.
    + rewrite fmap_app. apply NoDup_app. split_and!; [done| |apply NoDup_singleton].
      rewrite <-Hm. intros k Hk Hc%list_elem_of_singleton. subst k.
      apply list_elem_of_fmap in Hk as ([k x] & Ek & Hin). simpl in Ek. rewrite Ek in Hn.
      destruct (jm_get k m) eqn:E; [done|]. clear -Hin E.
      induction m as [|[k' x'] m IHm]; [by apply not_elem_of_nil in Hin|]. simpl in E.
      destruct (decide (k' = k)); [done|]. apply elem_of_cons in Hin as [[= -> ->]|Hin]; [done|by apply IHm].
    + by apply sublist_app.
    + intros x [Hx|Hx%list_elem_of_singleton]%elem_of_app.
      * destruct (Hall x Hx) as (x' & ? & ?). exists x'. split; [|done]. apply elem_of_app. by left.
      * subst x. exists c. split; [|done]. apply elem_of_app. right. by apply list_elem_of_singleton.
Qed.

(** ** Running the calls *)

Variable max : Z.

Notation refusal := (refusal max).
Notation plan := (plan max).
Notation launch := (launch env (Some max)).
Notation settle := (settle parseBounded externalUserId env).
Notation observation := (observation externalUserId env).
Notation ended := (ended externalUserId env).

Definition sameRun (s s' : RoundState) : Prop :=
  executedInRound s' = executedInRound s ∧ executedCount s' = executedCount s
  ∧ events s' = events s.

Lemma launch_refused c s e :
  refusal (executedInRound s) c = Some e →
  ∃ s', launch c s = (s', Answered) ∧ sameRun s s' ∧ disclosures s' = disclosures s
        ∧ resultsByKey s' = jm_set (keyOf c) (failed e) (resultsByKey s).
Proof.
  unfold ToolRound.refusal, ToolRound.launch. destruct (isAgentToolName _); simpl negb; cbv iota;
    [|intros [= <-]; eexists; by split_and!].
  destruct (parseAndValidateToolArguments _ _ _); [|intros [= <-]; eexists; by split_and!].
  destruct (bool_decide _); [intros [= <-]; eexists; by split_and!|].
  destruct (max <=? _); [|done]. intros [= <-]. eexists. by split_and!.
Qed.

Lemma launch_started c s :
  refusal (executedInRound s) c = None →
  launch c s = if startAborted (env c) then (s, AbortedLaunch)
               else (emit (startOf c) (countStart (Some max) s), Started).
Proof.
  unfold ToolRound.refusal, ToolRound.launch. destruct (isAgentToolName _); simpl negb; cbv iota; [|done].
  destruct (parseAndValidateToolArguments _ _ _); [|done].
  destruct (bool_decide _); [done|]. by destruct (max <=? _).
Qed.

Lemma settle_spec c s :
  let '(s', thrown) := settle c s in
  executedInRound s' = executedInRound s ∧ executedCount s' = executedCount s
  ∧ events s' = events s ++ [endOf c]
  ∧ (thrown = false → resultsByKey s' = jm_set (keyOf c) (ended c) (resultsByKey s)).
Proof.
  unfold ToolRound.settle, ToolRound.ended. destruct (answer (env c)) as [r|e].
  - by destruct (readBoundedToolDisclosure _); split_and!.
  - destruct (parentAborted (env c)); [by split_and!|]. by destruct (t_abort e || _); split_and!.
Qed.

(** A refused call never starts, so a started one was not refused. *)
Definition accepted (c : ToolCall) : bool :=
  isAgentToolName (c_name c)
  && match parseAndValidateToolArguments (c_name c) (argsOf (c_arguments c)) false with
     | Valid _ _ _ => true | Invalid _ => false end.

Lemma refusal_none n c : refusal n c = None → accepted c = true ∧ n < max.
Proof.
  unfold ToolRound.refusal, accepted. destruct (isAgentToolName _); simpl negb; cbv iota; [|done].
  destruct (parseAndValidateToolArguments _ _ _); [|done].
  destruct (bool_decide _); [done|]. destruct (Z.leb_spec max n); [done|]. by split.
Qed.

Definition alternating (cs : list ToolCall) : list Event := cs ≫= λ c, [startOf c; endOf c].

Lemma sequential_spec calls s :
  ∃ ran, ran `sublist_of` calls
    ∧ Forall (λ c, accepted c = true ∧ startAborted (env c) = false) ran
    ∧ let '(s', thrown) := runSequential parseBounded externalUserId env (Some max) calls s in
      executedCount s' = executedCount s + Z.of_nat (length ran)
      ∧ executedInRound s' = executedInRound s + Z.of_nat (length ran)
      ∧ (executedInRound s ≤ max → executedInRound s' ≤ max)
      ∧ events s' = events s ++ alternating ran
      ∧ (thrown = false → ran = runs (plan (executedInRound s) calls)
           ∧ resultsByKey s' = assign (resultsByKey s) (observation <$> plan (executedInRound s) calls)).
Proof.
  revert s. induction calls as [|c calls IH]; intros s; cbn [runSequential].
  { exists []. split_and!; [constructor|constructor|simpl; lia|simpl; lia|done|by rewrite app_nil_r|done]. }
  cbn [ToolRound.plan]. destruct (refusal (executedInRound s) c) as [e|] eqn:Er.
  - destruct (launch_refused c s e Er) as (s1 & -> & (E1 & E2 & E3) & _ & E4).
    destruct (IH s1) as (ran & Hsub & Hacc & IHs). exists ran. split_and!; [by apply sublist_cons|done|].
    destruct (runSequential _ _ _ _ _ s1) as [s' thrown]. rewrite E1, E2, E3, E4 in IHs.
    destruct IHs as (A & B & C & D & Ht). split_and!; [done..|]. intros Hf. destruct (Ht Hf) as [-> ->].
    by split.
  - rewrite launch_started by done. destruct (startAborted (env c)) eqn:Ea.
    { exists []. split_and!; [apply sublist_nil_l|constructor|simpl; lia|simpl; lia|done|by rewrite app_nil_r|done]. }
    destruct (refusal_none _ _ Er) as [Hacc Hroom].
    set (s1 := emit (startOf c) (countStart (Some max) s)). pose proof (settle_spec c s1) as Hs.
    destruct (settle c s1) as [s2 thrown]. destruct Hs as (E1 & E2 & E3 & E4).
    assert (executedInRound s2 = executedInRound s + 1) as E1' by (rewrite E1; reflexivity).
    assert (executedCount s2 = executedCount s + 1) as E2' by (rewrite E2; reflexivity).
    assert (events s2 = events s ++ [startOf c; endOf c]) as E3' by (rewrite E3; subst s1; simpl; by rewrite <-app_assoc).
    destruct thrown.
    + exists [c]. split_and!; [apply sublist_skip, sublist_nil_l|by repeat constructor|simpl; lia|simpl; lia|lia|
        by rewrite E3'|done].
    + destruct (IH s2) as (ran & Hsub & Hall & IHs). exists (c :: ran).
      split_and!; [by apply sublist_skip|by constructor|].
      destruct (runSequential _ _ _ _ _ s2) as [s' thrown]. rewrite E1', E2', E3' in IHs.
      destruct IHs as (A & B & C & D & Ht). cbn [length].
      split_and!; [lia|lia|intros; apply C; lia|by rewrite D, <-app_assoc|].
      intros Hf. destruct (Ht Hf) as [-> ->]. cbn [runs omap list_omap snd fst]. split; [done|].
      rewrite E4 by done. reflexivity.
Qed.

Definition isRefused (e : ToolCall * option jsstring) : bool := match e.2 with Some _ => true | None => false end.

Lemma launchAll_spec calls s :
  let '(s', running, aborted) := launchAll env (Some max) calls s in
  running `sublist_of` calls
  ∧ Forall (λ c, accepted c = true ∧ startAborted (env c) = false) running
  ∧ executedCount s' = executedCount s + Z.of_nat (length running)
  ∧ executedInRound s' = executedInRound s + Z.of_nat (length running)
  ∧ (executedInRound s ≤ max → executedInRound s' ≤ max)
  ∧ events s' = events s ++ (startOf <$> running)
  ∧ (aborted = false → running = runs (plan (executedInRound s) calls)
       ∧ resultsByKey s' = assign (resultsByKey s)
           (observation <$> filter (λ e, isRefused e = true) (plan (executedInRound s) calls))).
Proof.
  revert s. induction calls as [|c calls IH]; intros s; cbn [launchAll].
  { split_and!; [constructor|constructor|simpl; lia|simpl; lia|done|by rewrite app_nil_r|done]. }
  cbn [ToolRound.plan]. destruct (refusal (executedInRound s) c) as [e|] eqn:Er.
  - destruct (launch_refused c s e Er) as (s1 & -> & (E1 & E2 & E3) & _ & E4).
    specialize (IH s1). destruct (launchAll _ _ _ s1) as [[s' running] aborted].
    rewrite E1, E2, E3, E4 in IH. destruct IH as (A & B & C & D & F & G & Ht).
    split_and!; [by apply sublist_cons|done..|]. intros Hf. destruct (Ht Hf) as [-> ->].
    rewrite filter_cons_True by done. by split.
  - rewrite launch_started by done. destruct (refusal_none _ _ Er) as [Hacc Hroom].
    destruct (startAborted (env c)) eqn:Ea.
    + specialize (IH s). destruct (launchAll _ _ _ s) as [[s' running] aborted].
      destruct IH as (A & B & C & D & F & G & Ht). split_and!; [by apply sublist_cons|done..].
    + set (s1 := emit (startOf c) (countStart (Some max) s)). specialize (IH s1).
      destruct (launchAll _ _ _ s1) as [[s' running] aborted].
      change (executedCount s1) with (executedCount s + 1) in IH.
      change (executedInRound s1) with (executedInRound s + 1) in IH.
      change (events s1) with (events s ++ [startOf c]) in IH.
      change (resultsByKey s1) with (resultsByKey s) in IH.
      destruct IH as (A & B & C & D & F & G & Ht). rewrite fmap_cons. cbn [length].
      split_and!; [by apply sublist_skip|by constructor|lia|lia|intros; apply F; lia|by rewrite G, <-app_assoc|].
      intros Hf. destruct (Ht Hf) as [-> ->]. by rewrite filter_cons_False by done.
Qed.

Lemma settleAll_spec calls s :
  let '(s', thrown) := settleAll parseBounded externalUserId env calls s in
  executedInRound s' = executedInRound s ∧ executedCount s' = executedCount s
  ∧ events s' = events s ++ (endOf <$> calls)
  ∧ (thrown = false → resultsByKey s' = assign (resultsByKey s) ((λ c, (keyOf c, ended c)) <$> calls)).
Proof.
  revert s. induction calls as [|c calls IH]; intros s; cbn [settleAll]; [by rewrite app_nil_r|].
  pose proof (settle_spec c s) as Hs. destruct (settle c s) as [s1 t1]. destruct Hs as (E1 & E2 & E3 & E4).
  specialize (IH s1). destruct (settleAll _ _ _ calls s1) as [s' t']. destruct IH as (A & B & C & D).
  rewrite fmap_cons. split_and!; [congruence|congruence|by rewrite C, E3, <-app_assoc|].
  intros [Ht1 Ht2]%orb_false_iff. rewrite D, E4 by done. reflexivity.
Qed.

Lemma plan_calls n calls : (plan n calls).*1 = calls.
Proof. revert n. induction calls as [|c calls IH]; intros n; [done|]. cbn [ToolRound.plan]. by rewrite fmap_cons, IH. Qed.

Lemma observed_keys n calls : (observation <$> plan n calls).*1 = keyOf <$> calls.
Proof.
  rewrite <-(plan_calls n calls) at 2. rewrite <-!list_fmap_compose. by apply list_fmap_ext.
Qed.

Lemma plan_split l : observation <$> l ≡ₚ
  (observation <$> filter (λ e, isRefused e = true) l) ++ ((λ c, (keyOf c, ended c)) <$> runs l).
Proof.
  induction l as [|[c [e|]] l IH]; [done| |].
  - rewrite filter_cons_True by done. rewrite !fmap_cons. cbn [runs omap list_omap snd fst]. by rewrite IH.
  - rewrite filter_cons_False by done. rewrite fmap_cons. cbn [runs omap list_omap snd fst].
    rewrite fmap_cons. change (omap _ l) with (runs l). rewrite IH. by rewrite Permutation_middle.
Qed.

(** ** The round as a whole *)

Section Round.
Variable order : list ToolCall → list ToolCall.
Hypothesis order_perm : ∀ l, order l ≡ₚ l.

Lemma parallel_spec calls :
  NoDup (keyOf <$> calls) →
  ∃ ran, ran `sublist_of` calls
    ∧ Forall (λ c, accepted c = true ∧ startAborted (env c) = false) ran
    ∧ let '(s, thrown) := runParallel parseBounded externalUserId env order (Some max) calls round0 in
      executedCount s = Z.of_nat (length ran) ∧ (0 ≤ max → executedInRound s ≤ max)
      ∧ executedInRound s = Z.of_nat (length ran)
      ∧ events s = (startOf <$> ran) ++ (endOf <$> order ran)
      ∧ (thrown = false → ran = runs (plan 0 calls)
           ∧ ∀ k, jm_get k (resultsByKey s) = jm_get k (observedBy externalUserId env max calls)).
Proof.
  intros Hnd. unfold runParallel. pose proof (launchAll_spec calls round0) as Hl.
  destruct (launchAll _ _ _ _) as [[s1 running] aborted]. destruct Hl as (A & B & C & D & F & G & Ht).
  exists running. split_and!; [done|done|].
  change (executedInRound round0) with 0 in *.
  pose proof (settleAll_spec (order running) s1) as Hs.
  destruct (settleAll _ _ _ _ _) as [s2 thrown]. destruct Hs as (E1 & E2 & E3 & E4).
  split_and!; [rewrite E2; exact C|rewrite E1; exact F|rewrite E1; exact D|by rewrite E3, G|].
  intros [Ha Hth]%orb_false_iff. destruct (Ht Ha) as [-> Hr]. split; [done|]. intros k.
  rewrite E4, Hr by done. set (p := plan 0 calls) in *.
  assert (NoDup (observation <$> p).*1) as Hk by (unfold p; by rewrite observed_keys).
  assert (Hnd1 := Hk). rewrite plan_split, fmap_app in Hnd1. apply NoDup_app in Hnd1 as (Hn1 & Hdis & Hn2).
  assert (((λ c, (keyOf c, ended c)) <$> order (runs p)) ≡ₚ ((λ c, (keyOf c, ended c)) <$> runs p)) as Hp
    by (by rewrite order_perm).
  assert (NoDup ((λ c, (keyOf c, ended c)) <$> order (runs p)).*1) as Hn3 by (by rewrite Hp).
  rewrite !assign_lookup by done. cbn [round0 resultsByKey jm_get]. rewrite (jm_get_keyperm k _ _ Hn3 Hp).
  unfold observedBy. rewrite (jm_get_keyperm k _ _ Hk (plan_split p)).
  clear -Hdis Hn1. induction (observation <$> filter _ p) as [|[k' v] l IH]; cbn [app jm_get].
  - by destruct (jm_get k _).
  - rewrite fmap_cons in Hdis, Hn1. apply NoDup_cons in Hn1 as [_ Hn1].
    destruct (decide (k' = k)) as [->|]; [|apply IH; [done|]; intros x Hx; apply Hdis; by right].
    rewrite (jm_get_none k (_ <$> runs p)); [done|]. apply Hdis. left.
Qed.
End Round.
End Proofs.

(** ** Fitting one observation *)

Definition markerKinds : list string := ["reused"; "truncated"; "fallback"]%string.

Lemma marker_fits kind ok n : 0 ≤ n → len (observationMarkerWithinBudget kind ok n) ≤ n.
Proof.
  intros Hn. unfold observationMarkerWithinBudget. destruct (Z.leb_spec (len (observationMarker kind ok)) n); [done|].
  by destruct (Z.leb_spec (len (stringify (JObj [(js "ok", JBool ok)]))) n).
Qed.

Lemma marker_starved kind ok n : n < 2 → observationMarkerWithinBudget kind ok n = [].
Proof.
  intros Hn. unfold observationMarkerWithinBudget.
  pose proof (objText_length _ (marker_obj kind ok)) as Hm.
  assert (objText (stringify (JObj [(js "ok", JBool ok)]))) as Hc%objText_length by (by eexists).
  rewrite (proj2 (Z.leb_gt (len (observationMarker kind ok)) n)) by (unfold observationMarker; lia).
  by rewrite (proj2 (Z.leb_gt (len (stringify (JObj [(js "ok", JBool ok)]))) n)) by lia.
Qed.

Lemma marker_nonempty kind (ok : bool) n : (if ok then 11 else 12) ≤ n → 2 ≤ len (observationMarkerWithinBudget kind ok n).
Proof.
  intros Hn. unfold observationMarkerWithinBudget. destruct (_ <=? n).
  - apply objText_length, marker_obj.
  - assert (len (stringify (JObj [(js "ok", JBool ok)])) = if ok then 11 else 12) as -> by (by destruct ok).
    rewrite (proj2 (Z.leb_le _ _)) by done. apply objText_length. by eexists.
Qed.

Lemma marker_failure `{TextScanLaws} kind n :
  kind ∈ markerKinds → observationMarkerWithinBudget kind false n = []
  ∨ failText (observationMarkerWithinBudget kind false n).
Proof.
  intros Hk. unfold observationMarkerWithinBudget. destruct (_ <=? n); [right; by apply failText_marker|].
  destruct (_ <=? n); [right|by left]. by apply failText_of.
Qed.

Section Fitting.
Context `{Hscan : TextScan}.

Lemma fit_fits text n ok : 0 ≤ n → len (fitObservationWithinBudget text n ok).1 ≤ n.
Proof.
  intros Hn. unfold fitObservationWithinBudget.
  destruct (Z.leb_spec (len (fitToolObservation text n).1) n); [done|by apply marker_fits].
Qed.

Lemma fit_starved text ok : 2 ≤ len text → (fitObservationWithinBudget text 1 ok).1 = [].
Proof.
  intros Ht. unfold fitObservationWithinBudget. pose proof (fit_length text 1 Ht).
  rewrite (proj2 (Z.leb_gt _ _)) by lia. by apply marker_starved.
Qed.

Lemma fit_nonempty text n (ok : bool) :
  2 ≤ len text → (if ok then 11 else 12) ≤ n → 2 ≤ len (fitObservationWithinBudget text n ok).1.
Proof.
  intros Ht Hn. unfold fitObservationWithinBudget. destruct (_ <=? n); [by apply fit_length|by apply marker_nonempty].
Qed.

Lemma fit_fails `{!TextScanLaws} text n :
  0 ≤ n → failText text →
  (fitObservationWithinBudget text n false).1 = [] ∨ failText (fitObservationWithinBudget text n false).1.
Proof.
  intros Hn Hf. unfold fitObservationWithinBudget.
  destruct (Z.leb_spec (len (fitToolObservation text n).1) n); [right; by apply fit_failure|].
  apply marker_failure. by right; left.
Qed.
End Fitting.

(** The least length an observation is given is that of an object text. *)
Lemma metadata_length o fields : 11 ≤ len (serializeMetadata o fields false false).
Proof.
  unfold serializeMetadata. set (d := objOf _). cbn [app stringify map fst snd commas].
  rewrite !len_cons, !len_app, !len_cons. change (len (quote (js "data"))) with 6.
  assert (objText (stringify (JObj d))) as Hl%objText_length by (by eexists). cbn [stringify] in Hl. rewrite len_cons in Hl.
  pose proof (len_nonneg []). lia.
Qed.

Lemma compactPlain_length v ok n fields t : compactPlain v ok n fields false = Some t → 11 ≤ len t.
Proof.
  unfold compactPlain. destruct (metadataGuard v ok) as [o|]; [|done].
  assert (∀ fs k, prefixLoop o fs false false n k = Some t → 11 ≤ len t) as Hp.
  { intros fs k. induction k as [|k IH]; [done|]. cbn [prefixLoop]. destruct (_ && _ && _ && _ && _); [done|].
    intros [[-> _]%within_ok|Hk]%orElse_some; [apply metadata_length|by apply IH]. }
  intros [[-> _]%within_ok|E]%orElse_some; [apply metadata_length|by apply Hp in E].
Qed.

Lemma minimum_length text ok toolName : 11 ≤ minimumToolObservationLength text ok toolName.
Proof.
  assert (11 ≤ len (observationMarker "truncated" ok)) as Hm by (destruct ok; by vm_compute).
  unfold minimumToolObservationLength. destruct (parse text) as [[| | | | |o]|]; try done.
  destruct (jm_get _ o) as [[| | | | |d]|]; try done.
  match goal with |- context[compactPlain ?v ?b ?n ?f ?w] => destruct (compactPlain v b n f w) as [c|] eqn:E end;
    [by apply compactPlain_length in E|done].
Qed.

Lemma minimum_failure text toolName : failText text → 12 ≤ minimumToolObservationLength text false toolName.
Proof.
  intros (o & Hwf & -> & _ & Hd). unfold minimumToolObservationLength. rewrite parse_stringify, Hd by done. by vm_compute.
Qed.
(** ** Sharing the budget *)

Section Sharing.
Context `{Zod} `{TextScanLaws}.
Variable results : list (jsstring * (ReducedToolObservation * bool)).
Variable unique : list ToolCall.
Hypothesis results_long : ∀ k o b, jm_get k results = Some (o, b) → 2 ≤ len (content o).
Hypothesis results_fail : ∀ k o, jm_get k results = Some (o, false) → failText (content o).

Lemma failed_fails e : forallb isUnit e = true → failText (content (reduceError e 8000)).
Proof.
  intros Hu. pose proof (reduceError_bounded e) as Hb.
  assert (reduceError e 8000 = reduceBoundedObservation RUndef (Some e) false 8000 false) as E by reflexivity.
  rewrite E in *. apply (failure_reduced e 8000 false Hu). left. exact Hb.
Qed.

Lemma execution_long c : 2 ≤ len (content (executionOf results c).1).
Proof.
  unfold executionOf. destruct (jm_get (keyOf c) results) as [[o b]|] eqn:E; [by apply results_long in E|].
  cbn [default fst]. unfold missingObservation, reduceError. apply reduced_length.
Qed.

Lemma execution_fails c : (executionOf results c).2 = false → failText (content (executionOf results c).1).
Proof.
  unfold executionOf. destruct (jm_get (keyOf c) results) as [[o []]|] eqn:E; [done|by apply results_fail in E|].
  intros _. cbn [default fst]. unfold missingObservation. by apply failed_fails.
Qed.

Notation reserve := (reserve results unique).
Notation minimumOf := (minimumOf results unique).
Notation allocate := (allocate results unique).
Notation observationKey := (observationKey results unique).

Lemma minimum_room c :
  (if (executionOf results c).2 then 11 else 12) ≤ minimumOf c.
Proof.
  unfold ToolRound.minimumOf, fullOf. pose proof (execution_fails c) as Hf.
  destruct (isUnique unique (keyOf c)).
  - destruct (executionOf results c) as [o []]; cbn [fst snd] in *; [apply minimum_length|].
    by apply minimum_failure, Hf.
  - by destruct (executionOf results c) as [o []].
Qed.

Lemma minimum_positive c : 11 ≤ minimumOf c.
Proof. pose proof (minimum_room c) as Hm. revert Hm. destruct (executionOf results c).2; lia. Qed.

(** What the loop stores for a call that is not a repetition. *)
Definition freshText (c : ToolCall) (allocation : Z) : jsstring :=
  match fullOf results unique c with
  | Some full => (fitObservationWithinBudget (content full) allocation (executionOf results c).2).1
  | None => observationMarkerWithinBudget (if (executionOf results c).2 then "truncated" else "fallback")
              (executionOf results c).2 allocation
  end.

Lemma freshText_ok c n :
  1 ≤ n → len (freshText c n) ≤ n ∧ (n = 1 → freshText c n = [])
  ∧ ((executionOf results c).2 = false → freshText c n = [] ∨ failText (freshText c n))
  ∧ (minimumOf c ≤ n → 2 ≤ len (freshText c n)).
Proof.
  intros Hn. pose proof (minimum_room c) as Hm. pose proof (execution_fails c) as Hf.
  pose proof (execution_long c) as Hl. unfold freshText.
  destruct (fullOf results unique c) as [full|] eqn:E.
  - unfold fullOf in E. destruct (isUnique _ _); [|done]. injection E as <-.
    destruct (executionOf results c) as [o b]; cbn [fst snd] in *. split_and!.
    + apply fit_fits. lia.
    + intros ->. by apply fit_starved.
    + intros ->. apply fit_fails; [lia|by apply Hf].
    + intros Hk. apply fit_nonempty; [done|lia].
  - destruct (executionOf results c) as [o b]; cbn [fst snd] in *. split_and!.
    + apply marker_fits. lia.
    + intros ->. by apply marker_starved.
    + intros ->. apply marker_failure. by right; right; left.
    + intros Hk. apply marker_nonempty. lia.
Qed.

Definition allocation (a : AllocState) (c : ToolCall) : Z :=
  let pending := filter (λ k, k ≠ keyOf c) (pendingKeys a) in
  let fairShare := Z.max 1 (remaining a / Z.max 1 (remainingUnique a)) in
  Z.max 1 (Z.min (remaining a)
    (Z.max (minimumOf c) (Z.min fairShare (Z.max 0 (remaining a - reserve pending))))).

Lemma allocate_fresh a c :
  observationKey c ∉ emitted a →
  let t := freshText c (allocation a c) in
  let a' := allocate a c in
  allocated a' = jm_set (resultKey c) t (allocated a) ∧ remaining a' = Z.max 0 (remaining a - len t)
  ∧ emitted a' = emitted a ++ [observationKey c]
  ∧ pendingKeys a' = filter (λ k, k ≠ keyOf c) (pendingKeys a).
Proof.
  intros Hn. cbv zeta. unfold ToolRound.allocate, freshText, allocation.
  destruct (executionOf results c) as [o b]. cbn [snd]. rewrite bool_decide_eq_false_2 by done.
  destruct (fullOf results unique c) as [full|]; [|by split_and!].
  by destruct (fitObservationWithinBudget _ _ b).
Qed.

Lemma allocate_spec a c :
  0 ≤ remaining a →
  ∃ t, allocated (allocate a c) = jm_set (resultKey c) t (allocated a)
    ∧ 0 ≤ remaining (allocate a c) ∧ remaining a = remaining (allocate a c) + len t
    ∧ ((executionOf results c).2 = false → t = [] ∨ failText t).
Proof.
  intros Hr. destruct (decide (observationKey c ∈ emitted a)) as [Hin|Hn].
  - unfold ToolRound.allocate. destruct (executionOf results c) as [o b] eqn:E. rewrite bool_decide_eq_true_2 by done.
    eexists. split; [done|]. cbn [remaining snd]. pose proof (marker_fits "reused" b (remaining a) Hr).
    split_and!; [lia|lia|]. intros ->. apply marker_failure. left.
  - destruct (allocate_fresh a c Hn) as (Ha & Er & _ & _). eexists. split; [exact Ha|]. rewrite Er.
    assert (1 ≤ allocation a c) as Hone by (unfold allocation; lia).
    destruct (freshText_ok c _ Hone) as (Hl & Hempty & Hf & _).
    assert (len (freshText c (allocation a c)) ≤ remaining a) as Hle.
    { destruct (decide (allocation a c = 1)) as [E|]; [by rewrite Hempty|].
      etrans; [exact Hl|]. unfold allocation in *. lia. }
    split_and!; [lia|lia|done].
Qed.

(** A budget that holds the minimum of the call and of the ones still to come
    gives the call a text and keeps the others' minimum. *)
Lemma allocate_reserves a c :
  observationKey c ∉ emitted a → keyOf c ∈ pendingKeys a →
  let pending := filter (λ k, k ≠ keyOf c) (pendingKeys a) in
  0 ≤ reserve pending → minimumOf c + reserve pending ≤ remaining a →
  (∀ t, allocated (allocate a c) = jm_set (resultKey c) t (allocated a) → 2 ≤ len t)
  ∧ reserve pending ≤ remaining (allocate a c).
Proof.
  intros Hn Hp pending Hres Hroom. destruct (allocate_fresh a c Hn) as (Ha & Er & _ & _).
  assert (1 ≤ allocation a c) as Hone by (unfold allocation; lia).
  destruct (freshText_ok c _ Hone) as (Hl & _ & _ & Hmin).
  pose proof (minimum_positive c) as Hm.
  assert (minimumOf c ≤ allocation a c ≤ remaining a - reserve pending) as [Hlo Hhi]
    by (unfold allocation; fold pending; lia).
  split.
  - intros t Ht. rewrite Ha in Ht.
    assert (Some t = Some (freshText c (allocation a c))) as [= ->]; [|by apply Hmin].
    by rewrite <-(decide_True (P := resultKey c = resultKey c) (Some t) (jm_get (resultKey c) (allocated a))),
      <-jm_get_set, <-Ht, jm_get_set, decide_True.
  - rewrite Er. lia.
Qed.

Lemma reserve_sum l :
  (∀ c, c ∈ l → c ∈ unique) → NoDup (keyOf <$> unique) → reserve (keyOf <$> l) = sum_by minimumOf l.
Proof.
  intros Hin Hnd. unfold ToolRound.reserve.
  assert (∀ n, foldl (λ total k, total + default 0 (jm_get k (minimumByKey results unique))) n (keyOf <$> l)
               = n + sum_by minimumOf l) as ->; [|lia].
  induction l as [|c l IH]; intros n; [simpl; lia|]. rewrite fmap_cons. cbn [foldl sum_by].
  rewrite IH by (intros; apply Hin; by right).
  rewrite (jm_get_nodup (keyOf c) (minimumOf c)); [simpl; lia| |].
  - unfold minimumByKey. rewrite <-list_fmap_compose. exact Hnd.
  - unfold minimumByKey. apply list_elem_of_fmap. exists c. split; [done|]. apply Hin. left.
Qed.

Lemma allocateAll_spec rest a :
  0 ≤ remaining a →
  ∃ ts, allocated (foldl allocate a rest) = assign (allocated a) (zip (resultKey <$> rest) ts)
    ∧ sum_by len ts ≤ remaining a
    ∧ Forall2 (λ c t, (executionOf results c).2 = false → t = [] ∨ failText t) rest ts
    ∧ (NoDup (keyOf <$> unique) → (∀ c, c ∈ rest → c ∈ unique) →
       pendingKeys a = keyOf <$> rest → NoDup (keyOf <$> rest) → NoDup (observationKey <$> rest) →
       (∀ c, c ∈ rest → observationKey c ∉ emitted a) → sum_by minimumOf rest ≤ remaining a →
       Forall (λ t, 2 ≤ len t) ts).
Proof.
  revert a. induction rest as [|c rest IH]; intros a Hr.
  { exists []. split_and!; [done|done|constructor|intros; constructor]. }
  destruct (allocate_spec a c Hr) as (t & Ha & Hr' & Hlen & Hf).
  destruct (IH (allocate a c) Hr') as (ts & Hall & Hsum & Hfs & Hmin).
  exists (t :: ts). cbn [foldl]. rewrite fmap_cons. cbn [zip zip_with sum_by]. split_and!.
  - rewrite Hall, Ha. reflexivity.
  - lia.
  - by constructor.
  - rewrite !fmap_cons. intros Hu Hin Hp Hk Ho Hne Hroom. cbn [sum_by] in Hroom.
    apply NoDup_cons in Hk as [Hk Hnk]. apply NoDup_cons in Ho as [Ho Hno].
    assert (filter (λ k, k ≠ keyOf c) (pendingKeys a) = keyOf <$> rest) as Ep.
    { rewrite Hp, filter_cons_False by (intros []; done). apply filter_all. intros k Hk'. set_solver. }
    assert (reserve (keyOf <$> rest) = sum_by minimumOf rest) as Er
      by (apply reserve_sum; [intros; apply Hin; by right|done]).
    assert (0 ≤ sum_by minimumOf rest) as Hpos.
    { apply sum_by_nonneg. intros x _. pose proof (minimum_positive x). lia. }
    pose proof (allocate_reserves a c) as Hres. cbv zeta in Hres. rewrite Ep, Er in Hres.
    destruct Hres as [Ht Hrem]; [apply Hne; left|rewrite Hp; left|done|done|].
    destruct (allocate_fresh a c) as (_ & _ & Ee & Epp); [apply Hne; left|].
    constructor; [by apply Ht|]. apply Hmin; [done|intros; apply Hin; by right|by rewrite Epp| done|done| |done].
    intros x Hx. rewrite Ee. intros [Hin'|Hin'%list_elem_of_singleton]%elem_of_app.
    + by apply (Hne x); [right|].
    + apply Ho. rewrite <-Hin'. by apply list_elem_of_fmap_2.
Qed.
End Sharing.

Section Shares.
Context `{Zod} `{TextScan}.
Variable results : list (jsstring * (ReducedToolObservation * bool)).
Variable unique : list ToolCall.
Hypothesis results_long : ∀ k o b, jm_get k results = Some (o, b) → 2 ≤ len (content o).

Notation minimumOf := (minimumOf results unique).
Notation allocate := (allocate results unique).
Notation allocation := (allocation results unique).
Notation observationKey := (observationKey results unique).
Notation freshText := (freshText results unique).

(** *** What a call is given

    [left] is what the budget has left when the turn of [c] comes, after [before]. *)
Definition sharedAs (before : list ToolCall) (left : Z) (c : ToolCall) (t : jsstring) : Prop :=
  let '(o, succeeded) := executionOf results c in
  if decide (observationKey c ∈ observationKey <$> before)
  then t = observationMarkerWithinBudget "reused" succeeded left
  else ∃ n, Z.min left (minimumOf c) ≤ n ≤ Z.max 1 left
            ∧ t = (fitObservationWithinBudget (content o) n succeeded).1.

Lemma allocate_shares a c before :
  0 ≤ remaining a → isUnique unique (keyOf c) = true →
  (∀ k, k ∈ emitted a ↔ k ∈ observationKey <$> before) →
  ∃ t, allocated (allocate a c) = jm_set (resultKey c) t (allocated a)
    ∧ 0 ≤ remaining (allocate a c) ∧ remaining (allocate a c) = remaining a - len t
    ∧ (∀ k, k ∈ emitted (allocate a c) ↔ k ∈ observationKey <$> before ++ [c])
    ∧ sharedAs before (remaining a) c t.
Proof.
  intros Hr Hu He. assert (2 ≤ len (content (executionOf results c).1)) as Hl.
  { unfold executionOf. destruct (jm_get (keyOf c) results) as [[o b]|] eqn:E; [by apply results_long in E|].
    unfold missingObservation, reduceError. apply reduced_length. } unfold sharedAs.
  destruct (decide (observationKey c ∈ emitted a)) as [Hin|Hn].
  - unfold ToolRound.allocate. destruct (executionOf results c) as [o b] eqn:E.
    rewrite bool_decide_eq_true_2 by done.
    eexists. split; [done|]. cbn [remaining emitted snd]. pose proof (marker_fits "reused" b (remaining a) Hr).
    split_and!; [lia|lia| |by rewrite decide_True by (by apply He)].
    intros k. rewrite He, fmap_app. apply He in Hin. set_solver.
  - destruct (allocate_fresh results unique a c Hn) as (Ha & Er & Ee & _). eexists. split; [exact Ha|]. rewrite Er, Ee.
    set (n := allocation a c). assert (1 ≤ n) as Hone by (unfold n, ToolRound.allocation; lia).
    assert (Z.min (remaining a) (minimumOf c) ≤ n ≤ Z.max 1 (remaining a)) as Hb by (unfold n, ToolRound.allocation; lia).
    assert (freshText c n = (fitObservationWithinBudget (content (executionOf results c).1) n (executionOf results c).2).1)
      as Et by (unfold ToolRound.freshText, fullOf; by rewrite Hu).
    assert (len (freshText c n) ≤ remaining a) as Hle.
    { rewrite Et. destruct (decide (n = 1)) as [->|]; [by rewrite fit_starved|].
      etrans; [apply fit_fits; lia|]. lia. }
    split_and!; [lia|lia| |].
    + intros k. by rewrite fmap_app, !elem_of_app, He.
    + rewrite Et. destruct (executionOf results c) as [o b]. rewrite decide_False by (by rewrite <-He).
      by exists n.
Qed.

Lemma allocateAll_shares rest before a :
  0 ≤ remaining a → (∀ c, c ∈ rest → isUnique unique (keyOf c) = true) →
  (∀ k, k ∈ emitted a ↔ k ∈ observationKey <$> before) →
  ∃ ts, allocated (foldl allocate a rest) = assign (allocated a) (zip (resultKey <$> rest) ts)
    ∧ length ts = length rest
    ∧ ∀ i c, rest !! i = Some c →
        ∃ t, ts !! i = Some t ∧ sharedAs (before ++ take i rest) (remaining a - sum_by len (take i ts)) c t.
Proof.
  revert a before. induction rest as [|c rest IH]; intros a before Hr Hu He; [by exists []|].
  destruct (allocate_shares a c before Hr) as (t & Ha & Hr' & Hlen & He' & Hs); [apply Hu; left|done|].
  destruct (IH (allocate a c) (before ++ [c]) Hr') as (ts & Hall & Hl & Hts); [intros; apply Hu; by right|done|].
  exists (t :: ts). cbn [foldl]. rewrite fmap_cons. cbn [zip zip_with]. split_and!; [by rewrite Hall, Ha|by simpl; f_equal|].
  intros [|i] d; cbn [lookup list_lookup take sum_by]; [intros [= <-]; exists t; by rewrite app_nil_r, Z.sub_0_r|].
  intros Hd. destruct (Hts i d Hd) as (t' & Ht' & Hs'). exists t'. split; [done|].
  rewrite <-app_assoc in Hs'. cbn [app] in Hs'. rewrite Hlen in Hs'.
  by replace (remaining a - (len t + sum_by len (take i ts))) with (remaining a - len t - sum_by len (take i ts)) by lia.
Qed.
End Shares.

(** ** The texts of failures *)

Lemma js_units s : forallb isUnit (js s) = true.
Proof.
  unfold js. apply forallb_forall. intros c Hc. apply in_map_iff in Hc as (a & <- & _).
  pose proof (Ascii.nat_ascii_bounded a). unfold isUnit. apply andb_true_iff. lia.
Qed.

Lemma replace_units v r s :
  forallb isUnit r = true → forallb isUnit s = true → forallb isUnit (replaceText v r s) = true.
Proof.
  rewrite !forallb_forall, <-!List.Forall_forall. apply replace_Forall.
Qed.

Lemma mask_units v : forallb isUnit v = true → forallb isUnit (maskExternalId v) = true.
Proof.
  intros Hv. unfold maskExternalId. destruct (bool_decide (v = [])); [done|].
  assert (forallb isUnit (txt "…") = true) as Hd by reflexivity.
  destruct (len v <=? 10); rewrite !units_app, Hd, !sliceTo_units by done; [done|].
  cbn [andb]. unfold sliceLast. change (4 =? 0) with false. cbv iota.
  apply (units_incl _ v); [|done]. intros c Hc. by eapply subseteq_drop.
Qed.

Lemma truthyKey_some k x : truthyKey k = Some x → k = Some x.
Proof. by destruct k as [[|]|]. Qed.

Section FailureTexts.
Context `{Zod} `{TextScanLaws}.

Lemma errorText_units n a b e :
  forallb isUnit a = true → parseAndValidateToolArguments n a b = Invalid e → forallb isUnit (errorText e) = true.
Proof.
  intros Ha. unfold parseAndValidateToolArguments.
  destruct (getAgentToolDefinition n) as [tool|]; [|by intros [= <-]].
  destruct (parseArgs a) as [[| | | | |o]|] eqn:Ep; try (by intros [= <-]).
  apply parseArgs_wf in Ep as Hwf; [|done]. destruct (wf_obj o Hwf) as (_ & _ & Hf).
  destruct (safeParse _ _ o) as [issues|]; [|done]. intros [= <-].
  assert (∀ k, k ∈ o.*1 → forallb isUnit k = true) as Hk.
  { intros k (kv & -> & Hin)%list_elem_of_fmap. destruct kv as [k v]. by apply Hf in Hin as [? _]. }
  unfold toolArgumentsErrorMessage. cbv zeta.
  destruct (truthyKey _) as [k|] eqn:E1.
  { apply truthyKey_some, find_some in E1 as [Hin _]. cbn [errorText]. rewrite units_app, js_units. simpl.
    apply Hk. by apply list_elem_of_In. }
  destruct (truthyKey (find (λ k, bool_decide (k ∈ filter _ _)) _)) as [k|] eqn:E2.
  { apply truthyKey_some, find_some in E2 as [Hin _]. cbn [errorText]. rewrite units_app, js_units. simpl.
    apply Hk. by apply list_elem_of_In. }
  match goal with |- context[truthyKey ?x] => destruct (truthyKey x) as [k|] eqn:E3; [|done] end.
  apply truthyKey_some, find_some in E3 as [Hin _]. apply list_elem_of_In, list_elem_of_fmap in Hin as (f & -> & _).
  cbn [errorText]. by rewrite units_app, !js_units.
Qed.

Variable externalUserId : jsstring.
Variable env : ToolCall → CallEnv.
Hypothesis id_units : forallb isUnit externalUserId = true.
Hypothesis error_units : ∀ c e, answer (env c) = Raised e → forallb isUnit (t_message e) = true.

Lemma refusal_units max n c e :
  forallb isUnit (c_arguments c) = true → refusal max n c = Some e → forallb isUnit e = true.
Proof.
  intros Ha. unfold refusal. destruct (negb _); [by intros [= <-]|].
  assert (forallb isUnit (argsOf (c_arguments c)) = true) as Ha' by (unfold argsOf; by case_bool_decide).
  destruct (parseAndValidateToolArguments _ _ _) as [|er] eqn:E.
  - destruct (bool_decide _); [by intros [= <-]|]. destruct (_ <=? _); [by intros [= <-]|done].
  - intros [= <-]. by apply errorText_units in E.
Qed.

Lemma ended_ok c :
  2 ≤ len (content (ended externalUserId env c).1)
  ∧ ((ended externalUserId env c).2 = false → failText (content (ended externalUserId env c).1)).
Proof.
  unfold ended. destruct (answer (env c)) as [r|e] eqn:E; cbn [failed fst snd].
  - split; [apply reduceResult_length|done].
  - split; [unfold reduceError; apply reduced_length|]. intros _. apply failed_fails.
    unfold maskExternalIdInText. apply error_units in E.
    assert (forallb isUnit (s_text (sanitizeUntrustedTextForLlm 500 (js "Tool execution failed") (t_message e))) = true)
      as Hs by (apply sanitize_units; [apply js_units|done]).
    destruct (bool_decide _); [done|]. by apply replace_units; [apply mask_units|].
Qed.

(** Every observation of the reference is a text, and a failure's says so. *)
Lemma observed_ok max calls k o b :
  (∀ c, c ∈ calls → forallb isUnit (c_arguments c) = true) →
  jm_get k (observedBy externalUserId env max calls) = Some (o, b) →
  2 ≤ len (content o) ∧ (b = false → failText (content o)).
Proof.
  intros Ha Hk%jm_get_elem. unfold observedBy in Hk.
  apply list_elem_of_fmap in Hk as ([c r] & [= -> Eo] & Hin). cbn [fst snd] in Eo.
  assert (∀ n l, (∀ c, c ∈ l → forallb isUnit (c_arguments c) = true) → (c, r) ∈ plan max n l →
          ∀ e, r = Some e → forallb isUnit e = true) as Hr.
  { intros n l. revert n. induction l as [|c' l IH]; intros n Hl; [by intros ?%not_elem_of_nil|].
    cbn [plan]. intros [[= <- ->]|Hin']%elem_of_cons e He.
    - eapply refusal_units; [|exact He]. apply Hl. left.
    - eapply IH; [|exact Hin'|exact He]. intros. apply Hl. by right. }
  destruct r as [e|].
  - unfold failed in Eo. injection Eo as -> ->. split; [unfold reduceError; apply reduced_length|].
    intros _. apply failed_fails. by eapply Hr.
  - pose proof (ended_ok c) as [Hl Hf]. rewrite <-Eo in Hl, Hf. by split.
Qed.
End FailureTexts.

(** ** The round *)

Lemma starts_app l l' : starts (l ++ l') = starts l ++ starts l'.
Proof. apply omap_app. Qed.

Lemma starts_alternating l : starts (alternating l) = callOf <$> l.
Proof.
  induction l as [|c l IH]; [done|]. change (starts ([startOf c; endOf c] ++ alternating l) = callOf c :: (callOf <$> l)).
  by rewrite starts_app, IH.
Qed.

Lemma starts_parallel l l' : starts ((startOf <$> l) ++ (endOf <$> l')) = callOf <$> l.
Proof.
  rewrite starts_app. assert (starts (endOf <$> l') = []) as ->.
  { induction l' as [|c l' IH]; [done|]. exact IH. }
  rewrite app_nil_r. induction l as [|c l IH]; [done|].
  change (callOf c :: starts (startOf <$> l) = callOf c :: (callOf <$> l)). by rewrite IH.
Qed.

Lemma zip_lookup {V} (ks : list jsstring) (ts : list V) :
  NoDup ks → length ks = length ts →
  Forall2 (λ k t, jm_get k (assign [] (zip ks ts)) = Some t) ks ts.
Proof.
  intros Hnd Hlen. assert ((zip ks ts).*1 = ks) as Hz by (apply fst_zip; lia).
  assert (∀ k t, (k, t) ∈ zip ks ts → jm_get k (assign [] (zip ks ts)) = Some t) as Hl.
  { intros k t Hin. rewrite assign_lookup by (by rewrite Hz).
    by rewrite (jm_get_nodup k t) by (rewrite ?Hz; done). }
  clear Hz Hnd. revert Hl. generalize (assign [] (zip ks ts)). intros m.
  revert ts Hlen. induction ks as [|k ks IH]; intros [|t ts] Hlen Hl; try done; constructor.
  - apply Hl. left.
  - apply IH; [simpl in Hlen; lia|]. intros. apply Hl. by right.
Qed.

Definition isReadOnly `{Zod} (c : ToolCall) : Prop :=
  effect <$> (getAgentToolDefinition (c_name c) ≫= capability) = Some "read_only"%string.

Section Theorems.
Context `{Zod} `{TextScan}.
Variable parseBounded : raw → option BoundedToolResultMetadata.
Variable externalUserId : jsstring.
Variable env : ToolCall → CallEnv.
Variable max : Z.
Variable order : list ToolCall → list ToolCall.
Hypothesis order_perm : ∀ l, order l ≡ₚ l.

Notation runCalls := (runCalls parseBounded externalUserId env order (Some max)).

Lemma runCalls_spec calls :
  ∃ ran, ran `sublist_of` uniqueCalls calls
    ∧ Forall (λ c, accepted c = true ∧ startAborted (env c) = false) ran
    ∧ let '(s, thrown) := runCalls calls in
      executedCount s = Z.of_nat (length ran) ∧ (0 ≤ max → Z.of_nat (length ran) ≤ max)
      ∧ starts (events s) = callOf <$> ran
      ∧ ((∃ c, c ∈ ran ∧ ¬ isReadOnly c) → events s = alternating ran)
      ∧ (thrown = false → ran = runs (plan max 0 (uniqueCalls calls))
           ∧ ∀ k, jm_get k (resultsByKey s) = jm_get k (observedBy externalUserId env max (uniqueCalls calls))).
Proof.
  destruct (uniqueCalls_spec calls) as (Hnd & Hsub & _). unfold ToolRound.runCalls.
  destruct (hasSideEffect (uniqueCalls calls)) eqn:Eh.
  - destruct (sequential_spec parseBounded externalUserId env max (uniqueCalls calls) round0) as (ran & Hs & Ha & Hr).
    exists ran. split_and!; [done|done|]. destruct (runSequential _ _ _ _ _ _) as [s thrown].
    change (executedCount round0) with 0 in Hr. change (executedInRound round0) with 0 in Hr.
    cbn [round0 events resultsByKey app] in Hr. destruct Hr as (A & B & C & D & Ht). split_and!.
    + lia.
    + intros Hm. specialize (C Hm). lia.
    + by rewrite D, starts_alternating.
    + by intros _.
    + intros Hf. destruct (Ht Hf) as [-> ->]. split; [done|]. intros k.
      rewrite assign_lookup by (by rewrite observed_keys). unfold observedBy. by destruct (jm_get k _).
  - destruct (parallel_spec parseBounded externalUserId env max order order_perm (uniqueCalls calls) Hnd)
      as (ran & Hs & Ha & Hr).
    exists ran. split_and!; [done|done|]. destruct (runParallel _ _ _ _ _ _ _) as [s thrown].
    destruct Hr as (A & B & C & D & Ht). split_and!.
    + done.
    + intros Hm. specialize (B Hm). lia.
    + by rewrite D, starts_parallel.
    + intros (c & Hc & Hw). exfalso. unfold hasSideEffect in Eh.
      apply not_true_iff_false in Eh. apply Eh, existsb_exists. exists c.
      split; [apply list_elem_of_In; by eapply sublist_subseteq|]. by rewrite bool_decide_eq_false_2.
    + exact Ht.
Qed.

(** What a caller builds on. *)
Lemma execute_spec calls budget :
  0 ≤ max →
  let '(s, x) := execute parseBounded externalUserId env order calls budget (Some max) in
  executedCount s = Z.of_nat (length (starts (events s))) ∧ executedCount s ≤ max
  ∧ ∀ e, x = Some e →
      r_toolCallId <$> results e = c_id <$> calls ∧ x_executedCount e = executedCount s
      ∧ boundedToolDisclosures e = disclosures s
      ∧ ∀ n, n ∈ successfulToolNames e → isAgentToolName n = true
          ∧ ∃ c o, c_name c = n ∧ jm_get (keyOf c) (resultsByKey s) = Some (o, true).
Proof.
  intros Hmax. destruct (runCalls_spec calls) as (ran & _ & _ & Hr). unfold execute.
  destruct (runCalls calls) as [s thrown]. destruct Hr as (A & B & C & _ & _).
  assert (executedCount s = Z.of_nat (length (starts (events s))) ∧ executedCount s ≤ max) as [E1 E2].
  { rewrite C, length_fmap, A. split; [done|by apply B]. }
  destruct thrown; (split_and!; [exact E1|exact E2|]); [done|]. intros e [= <-]. cbn. split_and!; [|done|done|].
  2: { intros n (c & -> & [Hok _]%list_elem_of_filter)%list_elem_of_fmap. apply andb_true_iff in Hok as [Hok Hn].
    split; [done|]. unfold executionOf in Hok. destruct (jm_get (keyOf c) (resultsByKey s)) as [[o b]|] eqn:E; [|done].
    destruct b; [by exists c, o|done]. }
  rewrite <-list_fmap_compose. apply list_fmap_ext. intros _ c _. unfold compose, resultOf.
  by destruct (executionOf (resultsByKey s) c).
Qed.

(** Every observation of the reference is a text of at least two characters. *)
Lemma observed_long calls k o b : jm_get k (observedBy externalUserId env max calls) = Some (o, b) → 2 ≤ len (content o).
Proof.
  intros Hk%jm_get_elem. unfold observedBy in Hk. apply list_elem_of_fmap in Hk as ([c r] & [= _ Eo] & _). cbn [fst snd] in Eo.
  destruct r as [e|]; [unfold failed in Eo; injection Eo as -> _; unfold reduceError; apply reduced_length|].
  unfold ended in Eo. destruct (answer (env c)); [injection Eo as -> _|unfold failed in Eo; injection Eo as -> _; unfold reduceError; apply reduced_length].
  unfold reduceResult. destruct (projectKnownToolObservation _ _). apply reduced_length.
Qed.

Lemma executionOf_ext m m' c : (∀ k, jm_get k m = jm_get k m') → executionOf m c = executionOf m' c.
Proof. intros Hk. unfold executionOf. by rewrite Hk. Qed.

Lemma sharedAs_ext m m' u before left c t :
  (∀ k, jm_get k m = jm_get k m') → sharedAs m u before left c t → sharedAs m' u before left c t.
Proof.
  intros Hk. assert (∀ d, executionOf m d = executionOf m' d) as He by (intros d; by apply executionOf_ext).
  assert (∀ d, minimumOf m u d = minimumOf m' u d) as Hm by (intros d; unfold minimumOf, fullOf; by rewrite He).
  assert (∀ l : list ToolCall, observationKey m u <$> l = observationKey m' u <$> l) as Ho.
  { intros l. apply list_fmap_ext. intros _ d _. unfold observationKey, fullOf. by rewrite He. }
  assert (observationKey m u c = observationKey m' u c) as Hc by (specialize (Ho [c]); by injection Ho).
  unfold sharedAs. by rewrite He, Hm, Ho, Hc.
Qed.

(** The texts of a completed round, of the observations that it holds. *)
Lemma completed_texts m calls budget s :
  (∀ k, jm_get k (resultsByKey s) = jm_get k m) → (∀ k o b, jm_get k m = Some (o, b) → 2 ≤ len (content o)) →
  NoDup (resultKey <$> calls) →
  let rs := resultOf s (allocateAll (resultsByKey s) (uniqueCalls calls) budget calls) <$> calls in
  ∀ i c r, calls !! i = Some c → rs !! i = Some r →
    sharedAs m (uniqueCalls calls) (take i calls) (Z.max 0 budget - sum_by (λ r, len (r_content r)) (take i rs)) c (r_content r).
Proof.
  intros Hk Hlong Hnd rs i c r Hc Hrs.
  destruct (allocateAll_shares (resultsByKey s) (uniqueCalls calls)) with
    (rest := calls) (before := @nil ToolCall) (a := allocation0 (resultsByKey s) (uniqueCalls calls) budget)
    as (ts & Ha & Hl & Hts).
  - intros k o b. rewrite Hk. apply Hlong.
  - simpl. lia.
  - intros d Hd. destruct (uniqueCalls_spec calls) as (_ & _ & Hu). destruct (Hu d Hd) as (d' & Hd' & <-).
    apply existsb_exists. exists d'. split; [by apply list_elem_of_In|]. by apply bool_decide_eq_true.
  - done.
  - change (foldl _ _ calls) with (allocateAll (resultsByKey s) (uniqueCalls calls) budget calls) in Ha.
    cbn [allocation0 allocated remaining app] in Ha, Hts.
    assert (Forall2 (λ r t, r_content r = t) rs ts) as Hrt.
    { pose proof (zip_lookup (resultKey <$> calls) ts Hnd) as Hz. rewrite length_fmap in Hz. specialize (Hz (eq_sym Hl)).
      rewrite <-Ha in Hz. apply Forall2_fmap_l in Hz. apply Forall2_fmap_l. eapply Forall2_impl; [exact Hz|].
      intros d t Et. change (r_content (resultOf s (allocateAll (resultsByKey s) (uniqueCalls calls) budget calls) d) = t).
      unfold resultOf. destruct (executionOf (resultsByKey s) d). cbv beta delta [compose] in Et. by rewrite Et. }
    destruct (Hts i c Hc) as (t & Ht & Hs). apply (sharedAs_ext _ _ _ _ _ _ _ Hk) in Hs.
    destruct (Forall2_lookup_lr _ _ _ _ _ _ Hrt Hrs Ht).
    assert (sum_by (λ r, len (r_content r)) (take i rs) = sum_by len (take i ts)) as ->; [|done].
    apply (Forall2_take _ _ _ i) in Hrt. clear -Hrt. induction Hrt as [|x y l l' <- _ IH]; [done|]. cbn [sum_by]. by rewrite IH.
Qed.

(** C16. A round runs what it may and nothing else, however concurrent calls end:
    every call that reaches the executor names a known tool with accepted
    arguments, no key runs twice, at most [max] calls run, and a round in which a
    call that is not read-only runs is strictly one call at a time.

    A round that completes ran exactly the calls of the plan and answers every call
    in its place, under its id and name, as failed or not as the reference semantics
    says.  When no two calls share id and key, the text of a call is the observation
    of the reference, fitted into a share of what the budget has left that is no less
    than its minimum, as long as that is left; or, when a call before it had the same
    observation, the marker that points to that one. *)
Theorem round_runs_what_it_may calls budget :
  0 ≤ max →
  let '(s, x) := execute parseBounded externalUserId env order calls budget (Some max) in
  let reference := observedBy externalUserId env max (uniqueCalls calls) in
  (∃ ran, ran `sublist_of` calls ∧ NoDup (keyOf <$> ran)
     ∧ Forall (λ c, accepted c = true ∧ startAborted (env c) = false) ran
     ∧ starts (events s) = callOf <$> ran
     ∧ executedCount s = Z.of_nat (length ran) ∧ Z.of_nat (length ran) ≤ max
     ∧ ((∃ c, c ∈ ran ∧ ¬ isReadOnly c) → events s = alternating ran)
     ∧ (is_Some x → ran = runs (plan max 0 (uniqueCalls calls))))
  ∧ ∀ e, x = Some e →
      length (results e) = length calls
      ∧ ∀ i c r, calls !! i = Some c → results e !! i = Some r →
          r_toolCallId r = c_id c ∧ r_toolName r = c_name c ∧ r_succeeded r = (executionOf reference c).2
          ∧ (NoDup (resultKey <$> calls) →
             sharedAs reference (uniqueCalls calls) (take i calls)
               (Z.max 0 budget - sum_by (λ r, len (r_content r)) (take i (results e))) c (r_content r)).
Proof.
  intros Hmax. destruct (runCalls_spec calls) as (ran & Hs & Ha & Hr). unfold execute.
  destruct (runCalls calls) as [s thrown]. destruct Hr as (A & B & C & D & Ht).
  destruct (uniqueCalls_spec calls) as (Hnd & Hsub & _).
  assert (ran `sublist_of` calls ∧ NoDup (keyOf <$> ran)) as [R1 R2].
  { split; [by etrans|]. eapply sublist_NoDup; [exact Hnd|by apply fmap_sublist]. }
  destruct thrown.
  { split; [|done]. exists ran. split_and!; try done; by apply B. }
  split.
  - exists ran. split_and!; try done; [by apply B|]. intros _. by destruct (Ht eq_refl).
  - intros e [= <-]. cbn [results]. destruct (Ht eq_refl) as [_ Hk]. split; [apply length_fmap|].
    intros i c r Hc Hi. pose proof Hi as Hi'. rewrite list_lookup_fmap, Hc in Hi. injection Hi as <-.
    rewrite <-(executionOf_ext _ _ c Hk). split_and!; try (unfold resultOf; by destruct (executionOf (resultsByKey s) c)).
    intros Hd. eapply completed_texts; [exact Hk|apply observed_long|exact Hd|exact Hc|exact Hi'].
Qed.
End Theorems.

Lemma uniqueCalls_all `{Zod} calls : NoDup (keyOf <$> calls) → uniqueCalls calls = calls.
Proof.
  unfold uniqueCalls. assert (∀ m, NoDup (m.*1 ++ (keyOf <$> calls)) →
    (foldl (λ m c, if decide (is_Some (jm_get (keyOf c) m)) then m else jm_set (keyOf c) c m) m calls).*2
    = m.*2 ++ calls) as Hm; [|intros Hnd; by rewrite Hm].
  induction calls as [|c calls IH]; intros m Hnd; cbn [foldl]; [by rewrite app_nil_r|].
  rewrite fmap_cons in Hnd. apply NoDup_app in Hnd as Hnd'. destruct Hnd' as (_ & Hd & _).
  assert (jm_get (keyOf c) m = None) as Hn.
  { apply jm_get_none. intros Hin. apply (Hd _ Hin). left. }
  rewrite decide_False by (rewrite Hn; by intros []). rewrite jm_set_fresh by done. rewrite IH.
  - rewrite fmap_app. cbn [fmap list_fmap snd]. by rewrite <-app_assoc.
  - rewrite fmap_app. cbn [fmap list_fmap fst]. by rewrite <-app_assoc.
Qed.

Section Observed.
Context `{Zod} `{TextScanLaws}.
Variable parseBounded : raw → option BoundedToolResultMetadata.
Variable externalUserId : jsstring.
Variable env : ToolCall → CallEnv.
Variable max : Z.
Variable order : list ToolCall → list ToolCall.
Hypothesis order_perm : ∀ l, order l ≡ₚ l.
Hypothesis id_units : forallb isUnit externalUserId = true.
Hypothesis error_units : ∀ c e, answer (env c) = Raised e → forallb isUnit (t_message e) = true.

(** Every call of a completed round is answered in its turn, the texts together
    are within the characters the context has left, a failed call's text is empty
    or reads as a failure, and no text is empty when the budget holds the least
    length of every call and no call repeats another. *)
Theorem round_observations calls budget s e :
  (∀ c, c ∈ calls → forallb isUnit (c_arguments c) = true) →
  NoDup (resultKey <$> calls) →
  execute parseBounded externalUserId env order calls budget (Some max) = (s, Some e) →
  r_toolCallId <$> results e = c_id <$> calls
  ∧ sum_by (λ r, len (r_content r)) (results e) ≤ Z.max 0 budget
  ∧ (∀ r, r ∈ results e → r_succeeded r = false →
       r_content r = [] ∨ ∃ o, parse (r_content r) = Some (JObj o) ∧ failObj o)
  ∧ (NoDup (keyOf <$> calls) → NoDup (observationKey (resultsByKey s) calls <$> calls) →
     sum_by (minimumOf (resultsByKey s) calls) calls ≤ budget →
     ∀ r, r ∈ results e → r_content r ≠ []).
Proof.
  intros Hu Hnd He. destruct (runCalls_spec parseBounded externalUserId env max order order_perm calls)
    as (ran & _ & _ & Hr). unfold execute in He.
  destruct (runCalls _ _ _ _ _ calls) as [s' thrown]. destruct thrown; [done|]. injection He as -> <-.
  destruct Hr as (_ & _ & _ & _ & Ht). destruct (Ht eq_refl) as [_ Hk]. cbn [results].
  set (unique := uniqueCalls calls) in *.
  assert (∀ c, c ∈ unique → forallb isUnit (c_arguments c) = true) as Hu'.
  { intros c Hc. apply Hu. destruct (uniqueCalls_spec calls) as (_ & Hsub & _). by eapply sublist_subseteq. }
  assert (∀ k o b, jm_get k (resultsByKey s) = Some (o, b) → 2 ≤ len (content o) ∧ (b = false → failText (content o)))
    as Hobs by (intros k o b; rewrite Hk; by apply observed_ok).
  destruct (allocateAll_spec (resultsByKey s) unique) with (rest := calls) (a := allocation0 (resultsByKey s) unique budget)
    as (ts & Ha & Hsum & Hf & Hmin); [intros k o b E; by apply Hobs in E as []|intros k o E; apply Hobs in E as [_ E]; by apply E|
      simpl; lia|].
  change (foldl _ _ calls) with (allocateAll (resultsByKey s) unique budget calls) in Ha.
  cbn [allocation0 allocated remaining] in Ha, Hsum.
  set (res := resultOf s (allocateAll (resultsByKey s) unique budget calls)).
  assert (∀ c, r_toolCallId (res c) = c_id c ∧ r_succeeded (res c) = (executionOf (resultsByKey s) c).2) as Hres.
  { intros c. unfold res, resultOf. by destruct (executionOf (resultsByKey s) c). }
  assert (Forall2 (λ c t, r_content (res c) = t) calls ts) as Hc.
  { pose proof (zip_lookup (resultKey <$> calls) ts Hnd) as Hz. rewrite length_fmap in Hz.
    specialize (Hz (Forall2_length _ _ _ Hf)). rewrite <-Ha in Hz. apply Forall2_fmap_l in Hz.
    eapply Forall2_impl; [exact Hz|]. intros c t Et. unfold res, resultOf.
    destruct (executionOf (resultsByKey s) c). cbv beta delta [compose] in Et. by rewrite Et. }
  split_and!.
  - rewrite <-list_fmap_compose. apply list_fmap_ext. intros _ c _. by apply Hres.
  - assert (sum_by (λ r, len (r_content r)) (res <$> calls) = sum_by len ts) as ->; [|done].
    clearbody res. clear -Hc. induction Hc as [|c t l l' <- _ IH]; [done|]. rewrite fmap_cons. cbn [sum_by]. by rewrite IH.
  - intros r (c & -> & Hin)%list_elem_of_fmap Hs. rewrite (proj2 (Hres c)) in Hs.
    apply list_elem_of_lookup in Hin as [i Hi]. destruct (Forall2_lookup_l _ _ _ _ _ Hc Hi) as (t & Hti & ->).
    destruct (Forall2_lookup_l _ _ _ _ _ Hf Hi) as (t' & Hti' & Hft). rewrite Hti in Hti'. injection Hti' as <-.
    destruct (Hft Hs) as [->|Hx]; [by left|right; by apply failText_reads].
  - intros Hkeys Ho Hroom r (c & -> & Hin)%list_elem_of_fmap.
    assert (unique = calls) as Eu by (by apply uniqueCalls_all). rewrite Eu in *.
    apply list_elem_of_lookup in Hin as [i Hi]. destruct (Forall2_lookup_l _ _ _ _ _ Hc Hi) as (t & Hti & ->).
    assert (Forall (λ t, 2 ≤ len t) ts) as Hts.
    { apply Hmin; try done; [unfold allocation0, minimumByKey; cbn [pendingKeys]; by rewrite <-list_fmap_compose|intros x _; apply not_elem_of_nil|simpl; lia]. }
    rewrite Forall_lookup in Hts. specialize (Hts _ _ Hti). by intros ->.
Qed.
End Observed.

(** ** Instances *)

(** Guards that find nothing. *)
Definition quietScan : TextScan :=
  {| scanPatterns := λ _, None; prepareLearnerInputForScan := λ t, (t, false);
     redactSecrets := λ t, (t, false); detectDisclosureProbe := λ _, false |}.

Lemma quietScan_laws : @TextScanLaws quietScan.
Proof. split; try done. by intros s t [= ->]. Qed.

Definition callA : ToolCall := mkCall (js "a") (js "get_user_goals") (js "{}").
Definition callB : ToolCall := mkCall (js "b") (js "get_upcoming_study_sessions") (jq "{'limit':3}").

(** The first tool answers, the second fails. *)
Definition someEnv (c : ToolCall) : CallEnv :=
  if bool_decide (c = callA)
  then mkCallEnv false (Returned (RObj [(js "targetScore", RNum 65 (-1))])) false false
  else mkCallEnv false (Raised (mkToolError (js "user-1234567 not found") false)) false false.

Definition someRound (max : Z) : RoundState * option ToolRoundExecution :=
  @execute documentedZod quietScan (λ _, None) (js "user-1234567") someEnv (λ l, rev l) [callA; callB] 400 (Some max).

(** Two calls with one id and one key: the second text replaces the first, so the
    model reads two notices that point at each other and no data. *)
Lemma repeated_call_loses_data :
  match (@execute documentedZod quietScan (λ _, None) [] someEnv (λ l, l) [callA; callA] 8000 (Some 2)).2 with
  | Some e => r_content <$> results e = [marker "reused" true; marker "reused" true]
  | None => False
  end.
Proof. vm_compute. reflexivity. Qed.

Lemma round_runs_what_it_may_witness :
  ∃ ran e, ran `sublist_of` [callA; callB] ∧ starts (events (someRound 2).1) = callOf <$> ran
    ∧ Z.of_nat (length ran) ≤ 2 ∧ (someRound 2).2 = Some e ∧ length (results e) = 2%nat
    ∧ ∀ i c r, [callA; callB] !! i = Some c → results e !! i = Some r →
        r_toolCallId r = c_id c
        ∧ @sharedAs documentedZod quietScan
            (@observedBy documentedZod quietScan (js "user-1234567") someEnv 2 [callA; callB]) [callA; callB]
            (take i [callA; callB]) (400 - sum_by (λ r, len (r_content r)) (take i (results e))) c (r_content r).
Proof.
  pose proof (@round_runs_what_it_may documentedZod quietScan (λ _, None) (js "user-1234567") someEnv 2 (λ l, rev l)
    (λ l, symmetry (Permutation_rev l)) [callA; callB] 400 ltac:(lia)) as Hw.
  assert (is_Some (someRound 2).2) as [e He] by (vm_compute; by eexists).
  unfold someRound in *. destruct (execute _ _ _ _ _ _ _) as [s x]. cbn [fst snd] in *. cbv zeta in Hw.
  destruct Hw as [(ran & Hs & _ & _ & Ht & _ & Hl & _) He']. destruct (He' e He) as [Hlen Hr].
  exists ran, e. split_and!; [exact Hs|exact Ht|exact Hl|exact He|exact Hlen|].
  assert (@uniqueCalls documentedZod [callA; callB] = [callA; callB]) as Eu by (vm_compute; reflexivity).
  rewrite Eu in Hr.
  intros i c r Hc Hi. destruct (Hr i c r Hc Hi) as (H1 & _ & _ & H4). split; [exact H1|]. apply H4.
  apply (bool_decide_unpack _). vm_compute. exact I.
Defined.

Lemma round_observations_witness :
  ∃ e, (someRound 2).2 = Some e ∧ sum_by (λ r, len (r_content r)) (results e) ≤ 400
       ∧ ∀ r, r ∈ results e → r_content r ≠ [].
Proof.
  destruct (someRound 2) as [s x] eqn:E. assert (is_Some x) as [e ->].
  { change x with ((s, x).2). rewrite <-E. vm_compute. by eexists. }
  exists e. split; [done|].
  destruct (@round_observations documentedZod quietScan quietScan_laws (λ _, None) (js "user-1234567") someEnv 2
    (λ l, rev l) (λ l, symmetry (Permutation_rev l)) eq_refl) with (calls := [callA; callB]) (budget := 400) (s := s) (e := e)
    as (_ & Hsum & _ & Hne).
  - intros c er. unfold someEnv. destruct (bool_decide (c = callA)); simpl; [done|]. by intros [= <-].
  - intros c [->|[->|[]%not_elem_of_nil]%elem_of_cons]%elem_of_cons; reflexivity.
  - apply (bool_decide_unpack _). vm_compute. exact I.
  - exact E.
  - split; [exact Hsum|]. assert (s = (someRound 2).1) as -> by (by rewrite E). apply Hne.
    + apply (bool_decide_unpack _). vm_compute. exact I.
    + apply (bool_decide_unpack _). vm_compute. exact I.
    + vm_compute. done.
Defined.
End ToolRound.
