(* ===== verification/AgentContext.v ===== *)
(** * What the model is shown

    packages/llm-agent, internal/agent-limits.ts, internal/context-manager.ts and
    [composeChatSystemPrompt] of chat-system-prompt.ts: the limits of a turn, the
    messages of the first request with what is left out when they do not fit, and
    the trimming and aging of the messages the tool loop adds.

    A message's text is its JSON; its estimate depends on how many units it has and
    how many of them are ASCII, so the order of its properties is immaterial.  The
    metadata the code keeps in a WeakMap are kept beside the message. *)

From Stdlib Require Import QArith Qround.
From S2P Require Import Prelude Json Admission ChatHistory AgentTools PromptSafety ToolObservation ToolRound.
#[local] Open Scope Z_scope.

Module AgentContext.
Import Json AgentTools PromptSafety ToolRound.

(** ** Limits *)

(** Units outside ASCII count one and a half tokens, the others three quarters. *)
Definition nonAscii (s : jsstring) : Z := Z.of_nat (length (filter (λ c, ¬ 0 ≤ c ≤ 127) s)).

Definition estimateTokens (text : jsstring) : Z :=
  let n := nonAscii text in (6 * n + 3 * (len text - n) + 3) / 4.

Definition positive (value : option jsnum) (fallback : Z) : Z :=
  match value with
  | Some v =>
      if js_is_finite v && js_pos v then
        match js_floor v with
        | Some normalized => if 0 <? normalized then normalized else fallback
        | None => fallback
        end
      else fallback
  | None => fallback
  end.

Definition positiveInteger (value : option jsnum) (fallback : Z) : Z :=
  match value ≫= js_integer with
  | Some z => if 0 <? z then z else fallback
  | None => fallback
  end.

Record LlmAgentConfig := mkConfig {
  c_maxToolRounds : option jsnum;
  c_maxToolCallsPerRound : option jsnum;
  c_maxToolExecutionsPerTurn : option jsnum;
  c_maxToolRunsPerNamePerTurn : option jsnum;
  c_staleObservationRounds : option jsnum;
  c_maxContextChars : option jsnum;
  c_maxTotalProviderAttempts : option jsnum;
  c_maxOutputTokens : option jsnum;
  c_toolExecutionTimeoutMs : option jsnum;
  c_globalAgentTimeoutMs : option jsnum;
  c_maxInputTokens : option jsnum
}.

Record AgentLimits := mkLimits {
  maxToolRounds : Z;
  maxToolCallsPerRound : Z;
  maxToolExecutionsPerTurn : Z;
  maxToolRunsPerNamePerTurn : Z;
  staleObservationRounds : Z;
  maxContextChars : Z;
  maxTotalProviderAttempts : Z;
  maxOutputTokens : Z;
  toolExecutionTimeoutMs : Z;
  globalAgentTimeoutMs : Z;
  inputTokenBudget : Z
}.

(** [n * 0.67] is rounded by less than a hundredth below 2^40. *)
Definition limitsOf (c : LlmAgentConfig) : AgentLimits :=
  let contextChars := positive (c_maxContextChars c) 24000 in
  {| maxToolRounds := positive (c_maxToolRounds c) 6;
     maxToolCallsPerRound := positive (c_maxToolCallsPerRound c) 4;
     maxToolExecutionsPerTurn := positive (c_maxToolExecutionsPerTurn c) 8;
     maxToolRunsPerNamePerTurn := positive (c_maxToolRunsPerNamePerTurn c) 3;
     staleObservationRounds := positiveInteger (c_staleObservationRounds c) 2;
     maxContextChars := contextChars;
     maxTotalProviderAttempts :=
       Admission.normalizeMaxTotalProviderAttempts
         (match c_maxTotalProviderAttempts c with
          | Some v => Some v
          | None => Some (js_of_Z Admission.DEFAULT_LLM_MAX_TOTAL_PROVIDER_ATTEMPTS) end);
     maxOutputTokens := positive (c_maxOutputTokens c) 1024;
     toolExecutionTimeoutMs := positive (c_toolExecutionTimeoutMs c) 10000;
     globalAgentTimeoutMs := positive (c_globalAgentTimeoutMs c) 60000;
     inputTokenBudget := positive (c_maxInputTokens c) (contextChars * 67 / 100) |}.

(** [Math.floor(remaining / 0.75)]. *)
Definition observationCharBudget (l : AgentLimits) (usedTokens : Z) : Z :=
  Z.max 0 (inputTokenBudget l - usedTokens) * 4 / 3.

(** ** Messages *)

Inductive LlmMessageRole := RSystem | RUser | RAssistant | RTool.

Definition roleText (r : LlmMessageRole) : jsstring :=
  match r with RSystem => js "system" | RUser => js "user" | RAssistant => js "assistant" | RTool => js "tool" end.

Record LlmMessage := mkMessage {
  m_role : LlmMessageRole;
  m_content : option jsstring;
  m_toolCalls : option (list ToolCall);
  m_toolCallId : option jsstring
}.

Definition plain (r : LlmMessageRole) (text : jsstring) : LlmMessage := mkMessage r (Some text) None None.

Definition callJson (c : ToolCall) : json :=
  JObj [(js "id", JStr (c_id c)); (js "name", JStr (c_name c)); (js "arguments", JStr (c_arguments c))].

Definition field (k : string) (v : option json) : list (jsstring * json) :=
  match v with Some v => [(js k, v)] | None => [] end.

Definition messageJson (m : LlmMessage) : json :=
  JObj ((js "role", JStr (roleText (m_role m)))
        :: field "toolCallId" (JStr <$> m_toolCallId m)
        ++ field "content" (JStr <$> m_content m)
        ++ field "toolCalls" ((λ l, JArr (callJson <$> l)) <$> m_toolCalls m)).

Definition messagesText (ms : list LlmMessage) : jsstring := stringify (JArr (messageJson <$> ms)).

Section Context.
Context `{Zod}.

Definition CONTEXT_TOOL_DEFINITIONS : json :=
  JArr ((λ t, JObj [(js "name", JStr (name t)); (js "description", JStr (description t));
                    (js "parameters", parameters t)]) <$> AGENT_TOOLS).

Definition estimateContextTokens (ms : list LlmMessage) : Z :=
  estimateTokens (messagesText ms) + estimateTokens (stringify CONTEXT_TOOL_DEFINITIONS).

Definition observationBudget (l : AgentLimits) (ms : list LlmMessage) : Z :=
  observationCharBudget l (estimateContextTokens ms).

Definition fitsBudget (l : AgentLimits) (ms : list LlmMessage) : bool :=
  estimateContextTokens ms <=? inputTokenBudget l.

(** *** The system prompt *)

Record LlmAgentPromptParts := mkParts {
  p_core : jsstring;
  p_overlay : jsstring;
  promptCanary : jsstring;
  identityDisplayName : option jsstring;
  learnerProfile : option jsstring
}.

Definition NL2 : jsstring := [10; 10].

(** The parts that are not empty, with a blank line between them. *)
Definition joinParts (parts : list (option jsstring)) : jsstring :=
  match omap (λ p, match p with Some [] => None | _ => p end) parts with
  | [] => []
  | p :: ps => foldl (λ acc q, acc ++ NL2 ++ q) p ps
  end.

(** [composeChatSystemPrompt], of parts without a suffix of their own. *)
Definition composeChatSystemPrompt (p : LlmAgentPromptParts) : jsstring :=
  let base := p_core p ++ NL2 ++ p_overlay p ++ NL2 ++ js "Process marker: " ++ promptCanary p in
  match joinParts [identityDisplayName p; learnerProfile p] with
  | [] => base
  | suffix => base ++ NL2 ++ suffix
  end.

Definition REASONING_INSTRUCTION : jsstring :=
  js "---" ++ [10]
  ++ txt "Trước khi trả lời, hãy:" ++ [10]
  ++ txt "1. Xác định ý định của học viên (tiến độ học, lịch học, đổi lịch, hay câu hỏi chung)." ++ [10]
  ++ txt "2. Nếu cần dữ liệu từ nhiều tool, hãy gọi tất cả trong cùng một lượt để tiết kiệm thời gian." ++ [10]
  ++ txt "3. Chỉ trả lời bằng văn bản sau khi đã có đủ dữ liệu cần thiết.".

Definition buildSystemMessage (systemPrompt : jsstring) (parts : option LlmAgentPromptParts)
    (includeLearnerProfile includeReasoningInstruction : bool) : LlmMessage :=
  let composed :=
    match parts with
    | Some p => composeChatSystemPrompt
                  (if includeLearnerProfile then p
                   else mkParts (p_core p) (p_overlay p) (promptCanary p) (identityDisplayName p) None)
    | None => systemPrompt
    end in
  plain RSystem (if includeReasoningInstruction then composed ++ NL2 ++ REASONING_INSTRUCTION else composed).
End Context.

(** *** The first request *)

Record LlmAgentInput := mkInput {
  externalUserId : jsstring;
  userText : jsstring;
  userTextParts : option (list jsstring);
  systemPrompt : jsstring;
  systemPromptParts : option LlmAgentPromptParts;
  history : list ChatHistory.ChatHistoryMessage
}.

Definition MAX_HISTORY_ENTRY_CHARS : Z := 8000.

Definition REPLAYED_TOOL_SUMMARY_MARKER : jsstring :=
  js "[Previous-turn tool summary; may be stale. Fresh current-turn tool data takes precedence.]".

Definition toMessages (history : list ChatHistory.ChatHistoryMessage) : list LlmMessage :=
  (λ e, match ChatHistory.role e with
        | ChatHistory.user => plain RUser (ChatHistory.content e)
        | ChatHistory.assistant => plain RAssistant (ChatHistory.content e)
        | ChatHistory.tool_summary =>
            plain RAssistant (REPLAYED_TOOL_SUMMARY_MARKER ++ 10 :: ChatHistory.content e)
        end) <$> history.

Inductive ContextPartName := PLearnerProfile | PReasoningInstruction.

Record ContextBuildResult := mkBuild {
  messages : list LlmMessage;
  fits : bool;
  droppedHistoryTokens : Z;
  droppedContextParts : list ContextPartName
}.

Section Build.
Context `{Zod} `{TextScan}.
Variable limits : AgentLimits.

Definition sanitizeEntry (e : ChatHistory.ChatHistoryMessage) : ChatHistory.ChatHistoryMessage :=
  let clean := sanitizeUntrustedTextForLlm MAX_HISTORY_ENTRY_CHARS UNSAFE_TEXT_PLACEHOLDER (ChatHistory.content e) in
  if s_changed clean then ChatHistory.mkMsg (ChatHistory.role e) (s_text clean) else e.

(** The history, and the injections reported on the way. *)
Definition sanitizeHistory (h : list ChatHistory.ChatHistoryMessage)
    : list ChatHistory.ChatHistoryMessage * list (string * jsstring) :=
  (sanitizeEntry <$> h,
   omap (λ e, let clean := sanitizeUntrustedTextForLlm MAX_HISTORY_ENTRY_CHARS UNSAFE_TEXT_PLACEHOLDER
                             (ChatHistory.content e) in
              if s_changed clean && isInjectionSanitizeReason (s_reason clean)
              then Some (default "unknown"%string (s_reason clean), ChatHistory.content e) else None) h).

Definition entryTokens (e : ChatHistory.ChatHistoryMessage) : Z := estimateTokens (ChatHistory.content e).

Definition withHistory (system user : LlmMessage) (h : list ChatHistory.ChatHistoryMessage) : list LlmMessage :=
  system :: toMessages h ++ [user].

(** The oldest entries go first: what is left, and the tokens dropped. *)
Fixpoint dropOldest (system user : LlmMessage) (h : list ChatHistory.ChatHistoryMessage)
    : list ChatHistory.ChatHistoryMessage * Z :=
  match h with
  | [] => ([], 0)
  | e :: h' =>
      if fitsBudget limits (withHistory system user h) then (h, 0)
      else let '(kept, dropped) := dropOldest system user h' in (kept, entryTokens e + dropped)
  end.

(** From the newest to the oldest ([rest]), keeping what still fits. *)
Fixpoint keepWhatFits (system user : LlmMessage) (selected rest : list ChatHistory.ChatHistoryMessage)
    : list ChatHistory.ChatHistoryMessage * Z :=
  match rest with
  | [] => (selected, 0)
  | e :: rest' =>
      if fitsBudget limits (withHistory system user (selected ++ [e]))
      then keepWhatFits system user (e :: selected) rest'
      else let '(kept, dropped) := keepWhatFits system user selected rest' in (kept, entryTokens e + dropped)
  end.

Definition selectEntries (system user : LlmMessage) (h : list ChatHistory.ChatHistoryMessage)
    : list ChatHistory.ChatHistoryMessage * Z :=
  if fitsBudget limits (withHistory system user h) then (h, 0)
  else match last h with
       | Some newest =>
           if fitsBudget limits (withHistory system user [newest]) then dropOldest system user h
           else keepWhatFits system user [] (rev h)
       | None => keepWhatFits system user [] (rev h)
       end.

Definition hasProfile (i : LlmAgentInput) : bool :=
  match systemPromptParts i with
  | Some p => match learnerProfile p with None | Some [] => false | Some _ => true end
  | None => false
  end.

Definition userMessage (i : LlmAgentInput) : LlmMessage :=
  plain RUser (redactSecrets (js_trim (userText i))).1.

(** [build], with the injections it reports. *)
Definition build (i : LlmAgentInput) : ContextBuildResult * list (string * jsstring) :=
  let user := userMessage i in
  let '(h, injections) := sanitizeHistory (history i) in
  let system := buildSystemMessage (systemPrompt i) (systemPromptParts i) in
  let exceeds s := negb (fitsBudget limits (withHistory s user h)) in
  let dropProfile := hasProfile i && exceeds (system (hasProfile i) true) in
  let profile := hasProfile i && negb dropProfile in
  let dropReasoning := exceeds (system profile true) in
  let s := system profile (negb dropReasoning) in
  let droppedParts := (if dropProfile then [PLearnerProfile] else [])
                      ++ (if dropReasoning then [PReasoningInstruction] else []) in
  if negb (fitsBudget limits [s; user])
  then (mkBuild [s; user] false 0 droppedParts, injections)
  else
    let '(selected, dropped) := selectEntries s user h in
    let ms := withHistory s user selected in
    (mkBuild ms (fitsBudget limits ms) dropped droppedParts, injections).
End Build.

(** ** The messages of the tool loop *)

(** [ToolObservationMetadata], of the messages that have them. *)
Record ToolObservationMetadata := mkMeta {
  originRound : Z;
  succeeded : bool;
  downgraded : bool
}.

Abbreviation tracked := (LlmMessage * option ToolObservationMetadata)%type.

Definition RECENT_FAILED_OBSERVATION_ROUNDS : Z := 3.

Definition staleObservationMarker (ok : bool) (round : Z) : jsstring :=
  stringify (JObj (if ok
    then [(js "ok", JBool true); (js "_observation", JStr (js "truncated")); (js "reason", JStr (js "age"));
          (js "originRound", numOf round)]
    else [(js "ok", JBool false); (js "error", JStr (js "observation_unavailable"));
          (js "_observation", JStr (js "truncated")); (js "reason", JStr (js "age"));
          (js "originRound", numOf round)])).

Definition hasToolCalls (m : LlmMessage) : bool :=
  match m_toolCalls m with Some (_ :: _) => true | _ => false end.

Definition isRole (r : LlmMessageRole) (m : LlmMessage) : bool :=
  match r, m_role m with
  | RSystem, RSystem | RUser, RUser | RAssistant, RAssistant | RTool, RTool => true
  | _, _ => false
  end.

(** [trackToolObservation] on a message that is appended. *)
Definition trackToolObservation (m : LlmMessage) (round : Z) (ok : bool) : tracked :=
  (m, if isRole RTool m then Some (mkMeta round ok false) else None).

(** One message of [downgradeStaleObservations]. *)
Definition downgrade (limits : AgentLimits) (currentRound : Z) (t : tracked) : tracked :=
  let '(m, meta) := t in
  match meta with
  | Some d =>
      let age := currentRound - originRound d in
      if negb (isRole RTool m) || downgraded d then t
      else if (age <? staleObservationRounds limits) || (age <? 0)
              || (negb (succeeded d) && (age <? RECENT_FAILED_OBSERVATION_ROUNDS)) then t
      else (mkMessage (m_role m) (Some (staleObservationMarker (succeeded d) (originRound d)))
                      (m_toolCalls m) (m_toolCallId m),
            Some (mkMeta (originRound d) (succeeded d) true))
  | None => t
  end.

(** [messages] is the first request and the loop's segment. *)
Definition downgradeStaleObservations (limits : AgentLimits) (currentRound : Z) (loop : list tracked) : list tracked :=
  downgrade limits currentRound <$> loop.

(** The notice that stands for a dropped exchange. *)
Definition droppedMarker (calls : list ToolCall) : LlmMessage :=
  plain RAssistant (stringify (JObj
    [(js "_observation", JStr (js "dropped"));
     (js "tools", JArr ((λ n, JStr n) <$> foldl (λ l n, if bool_decide (n ∈ l) then l else l ++ [n]) [] (c_name <$> calls)));
     (js "count", numOf (Z.of_nat (length calls)))])).

(** Without the tool messages at its head. *)
Fixpoint dropTools (loop : list tracked) : list tracked :=
  match loop with
  | [] => []
  | x :: loop' => if isRole RTool x.1 then dropTools loop' else loop
  end.

(** The messages before the first that calls tools, that message's calls, and
    what follows it without the tool messages next to it. *)
Fixpoint splitAtToolCall (loop : list tracked) : option (list tracked * list ToolCall * list tracked) :=
  match loop with
  | [] => None
  | t :: loop' =>
      match isRole RAssistant t.1, m_toolCalls t.1 with
      | true, Some (c :: cs) =>
          Some ([], c :: cs, dropTools loop')
      | _, _ => match splitAtToolCall loop' with
                | Some (before, calls, after) => Some (t :: before, calls, after)
                | None => None
                end
      end
  end.

Section Trim.
Context `{Zod}.
Variable limits : AgentLimits.
Variable prefix : list LlmMessage.

Definition requestOf (loop : list tracked) : list LlmMessage := prefix ++ loop.*1.

(** [trimLoopMessages]: the segment, the names of the dropped calls, and whether
    the request fits. *)
Fixpoint trimLoop (fuel : nat) (loop : list tracked) (dropped : list jsstring) : list tracked * list jsstring :=
  match fuel with
  | O => (loop, dropped)
  | S fuel' =>
      if fitsBudget limits (requestOf loop) then (loop, dropped) else
      match splitAtToolCall loop, loop with
      | Some (before, calls, after), _ =>
          trimLoop fuel' (before ++ (droppedMarker calls, None) :: after) (dropped ++ (c_name <$> calls))
      | None, t :: loop' =>
          (** a first message with calls of its own is not an assistant's *)
          match m_toolCalls t.1 with
          | Some (c :: cs) =>
              trimLoop fuel' ((droppedMarker (c :: cs), None)
                 :: dropTools loop') (dropped ++ (c_name <$> (c :: cs)))
          | _ => trimLoop fuel' loop' dropped
          end
      | None, [] => (loop, dropped)
      end
  end.

(** Every pass removes a message or the calls of one. *)
Definition trimFuel (loop : list tracked) : nat :=
  length loop + length (filter (λ t, hasToolCalls t.1 = true) loop).

Definition trimLoopMessages (loop : list tracked) : list tracked * list jsstring * bool :=
  let '(loop', dropped) := trimLoop (trimFuel loop) loop [] in
  (loop', dropped, fitsBudget limits (requestOf loop')).
End Trim.

(** ** Limits *)

Lemma positive_ok v d : 0 < d → 0 < positive v d.
Proof.
  intros Hd. unfold positive. destruct v as [v|]; [|done]. destruct (_ && _); [|done].
  destruct (js_floor v) as [n|]; [|done]. by destruct (Z.ltb_spec 0 n).
Qed.

(** ** Estimates *)

Lemma sum_by_permuted {A} (f : A → Z) l l' : l ≡ₚ l' → sum_by f l = sum_by f l'.
Proof. induction 1; cbn [sum_by]; lia. Qed.

Lemma nonAscii_app s t : nonAscii (s ++ t) = nonAscii s + nonAscii t.
Proof. unfold nonAscii. rewrite filter_app, length_app. lia. Qed.

Lemma nonAscii_bound s : 0 ≤ nonAscii s ≤ len s.
Proof.
  unfold nonAscii, len. pose proof (length_filter (λ c, ¬ 0 ≤ c ≤ 127) s). lia.
Qed.

(** [t] has at least the units of [s], of either kind. *)
Definition lighter (s t : jsstring) : Prop :=
  nonAscii s ≤ nonAscii t ∧ len s - nonAscii s ≤ len t - nonAscii t.

Lemma estimate_mono s t : lighter s t → estimateTokens s ≤ estimateTokens t.
Proof. intros [H1 H2]. unfold estimateTokens. apply Z.div_le_mono; lia. Qed.

Lemma lighter_refl s : lighter s s.
Proof. unfold lighter. lia. Qed.

Lemma lighter_trans s t u : lighter s t → lighter t u → lighter s u.
Proof. unfold lighter. lia. Qed.

Lemma lighter_app s s' t t' : lighter s t → lighter s' t' → lighter (s ++ s') (t ++ t').
Proof. unfold lighter. rewrite !nonAscii_app, !len_app. lia. Qed.

Lemma lighter_prefix s t : lighter s (s ++ t).
Proof. pose proof (nonAscii_bound t). unfold lighter. rewrite nonAscii_app, len_app. lia. Qed.

Lemma lighter_suffix s t : lighter t (s ++ t).
Proof. pose proof (nonAscii_bound s). unfold lighter. rewrite nonAscii_app, len_app. lia. Qed.

Lemma quoteFrom_app p s t :
  quoteFrom p (s ++ 10 :: t) = quoteFrom p s ++ quoteFrom 0 (10 :: t).
Proof.
  revert p. induction s as [|c s IH]; intros p; [reflexivity|]. cbn [app quoteFrom]. rewrite IH, <-app_assoc.
  f_equal. by destruct s.
Qed.

(** A text continued on a new line. *)
Definition continues (s t : jsstring) : Prop := t = s ∨ ∃ u, t = s ++ 10 :: u.

Lemma continues_refl s : continues s s.
Proof. by left. Qed.

Lemma continues_trans s t u : continues s t → continues t u → continues s u.
Proof.
  intros [->|[v ->]] [->|[w ->]]; [by left|by right; exists w|by right; exists v|].
  right. exists (v ++ 10 :: w). by rewrite <-app_assoc.
Qed.

Lemma continues_lines s u : continues s (s ++ NL2 ++ u).
Proof. right. by exists (10 :: u). Qed.

Lemma quote_continues s t : continues s t → lighter (quote s) (quote t).
Proof.
  intros [->|[u ->]]; [apply lighter_refl|]. unfold quote. rewrite quoteFrom_app, <-app_assoc.
  change (lighter ([34] ++ quoteFrom 0 s ++ [34]) ([34] ++ quoteFrom 0 s ++ quoteFrom 0 (10 :: u) ++ [34])).
  repeat apply lighter_app; try apply lighter_refl. apply lighter_suffix.
Qed.

Definition textOf (m : LlmMessage) : jsstring := stringify (messageJson m).

Lemma plain_lighter r s t : continues s t → lighter (textOf (plain r s)) (textOf (plain r t)).
Proof.
  intros Hc. unfold textOf, plain, messageJson. cbn [m_role m_toolCallId m_content m_toolCalls fmap option_fmap option_map field app].
  cbn [stringify map fst snd commas].
  apply (lighter_app [123] _ [123]); [apply lighter_refl|]. apply lighter_app; [|apply lighter_refl].
  apply lighter_app; [apply lighter_refl|]. apply (lighter_app [44] _ [44]); [apply lighter_refl|].
  apply lighter_app; [apply lighter_refl|]. apply (lighter_app [58] _ [58]); [apply lighter_refl|].
  by apply quote_continues.
Qed.

Lemma commas_weight l :
  len (commas l) = sum_by len l + Z.max 0 (Z.of_nat (length l) - 1)
  ∧ nonAscii (commas l) = sum_by nonAscii l.
Proof.
  induction l as [|x l IH]; [done|]. destruct l as [|y l].
  - cbn [commas sum_by length]. lia.
  - rewrite commas_cons by done. change (x ++ 44 :: commas (y :: l)) with (x ++ [44] ++ commas (y :: l)).
    rewrite !len_app, !nonAscii_app. destruct IH as [-> ->]. change (nonAscii [44]) with 0. change (len [44]) with 1.
    cbn [sum_by length]. lia.
Qed.

Lemma messagesText_weight ms :
  len (messagesText ms) = 2 + sum_by len (textOf <$> ms) + Z.max 0 (Z.of_nat (length ms) - 1)
  ∧ nonAscii (messagesText ms) = sum_by nonAscii (textOf <$> ms).
Proof.
  unfold messagesText. cbn [stringify].
  assert (map stringify (messageJson <$> ms) = textOf <$> ms) as -> by (apply map_map).
  change (91 :: commas (textOf <$> ms) ++ [93]) with ([91] ++ commas (textOf <$> ms) ++ [93]).
  rewrite !len_app, !nonAscii_app. destruct (commas_weight (textOf <$> ms)) as [-> ->].
  rewrite length_fmap. change (len [91]) with 1. change (len [93]) with 1.
  change (nonAscii [91]) with 0. change (nonAscii [93]) with 0. lia.
Qed.
Section Requests.
Context `{Zod}.

Lemma request_lighter ms ms' :
  (length ms ≤ length ms')%nat →
  sum_by nonAscii (textOf <$> ms) ≤ sum_by nonAscii (textOf <$> ms') →
  sum_by (λ t, len t - nonAscii t) (textOf <$> ms) ≤ sum_by (λ t, len t - nonAscii t) (textOf <$> ms') →
  estimateContextTokens ms ≤ estimateContextTokens ms'.
Proof.
  intros Hl Hn Ha. unfold estimateContextTokens. apply Z.add_le_mono_r, estimate_mono.
  destruct (messagesText_weight ms) as [E1 E2], (messagesText_weight ms') as [E3 E4].
  assert (∀ l, sum_by (λ t, len t - nonAscii t) l = sum_by len l - sum_by nonAscii l) as Hs.
  { intros l. induction l as [|x l IH]; cbn [sum_by]; [done|]. rewrite IH. lia. }
  rewrite !Hs in Ha. unfold lighter. rewrite E1, E2, E3, E4. lia.
Qed.

Lemma request_sublist ms ms' : ms `sublist_of` ms' → estimateContextTokens ms ≤ estimateContextTokens ms'.
Proof.
  intros Hs. apply request_lighter; [by apply sublist_length| |].
  - induction Hs as [|x l l' _ IH|x l l' _ IH]; [done| |]; rewrite ?fmap_cons; cbn [sum_by]; [lia|].
    pose proof (nonAscii_bound (textOf x)). lia.
  - induction Hs as [|x l l' _ IH|x l l' _ IH]; [done| |]; rewrite ?fmap_cons; cbn [sum_by]; [lia|].
    pose proof (nonAscii_bound (textOf x)). lia.
Qed.

Lemma request_perm ms ms' : ms ≡ₚ ms' → estimateContextTokens ms = estimateContextTokens ms'.
Proof.
  intros Hp. assert (∀ l l', l ≡ₚ l' → estimateContextTokens l ≤ estimateContextTokens l') as Hle.
  { intros l l' Hl. apply request_lighter; [by rewrite Hl| |].
    - apply Z.eq_le_incl. by apply sum_by_permuted, fmap_Permutation.
    - apply Z.eq_le_incl. by apply sum_by_permuted, fmap_Permutation. }
  apply Z.le_antisymm; by apply Hle.
Qed.

Lemma request_system m m' ms :
  lighter (textOf m) (textOf m') → estimateContextTokens (m :: ms) ≤ estimateContextTokens (m' :: ms).
Proof. intros [H1 H2]. apply request_lighter; rewrite ?fmap_cons; cbn [length sum_by]; lia. Qed.

Variable limits : AgentLimits.

Lemma fits_mono ms ms' :
  estimateContextTokens ms ≤ estimateContextTokens ms' → fitsBudget limits ms' = true → fitsBudget limits ms = true.
Proof. unfold fitsBudget. rewrite !Z.leb_le. lia. Qed.
End Requests.

(** ** The first request *)

Lemma composed_continues p :
  continues (composeChatSystemPrompt (mkParts (p_core p) (p_overlay p) (promptCanary p) (identityDisplayName p) None))
            (composeChatSystemPrompt p).
Proof.
  unfold composeChatSystemPrompt. cbn [p_core p_overlay promptCanary identityDisplayName learnerProfile].
  set (base := p_core p ++ _). destruct (learnerProfile p) as [[|c l]|]; try apply continues_refl;
    destruct (identityDisplayName p) as [[|d i]|]; try apply continues_refl; unfold joinParts; cbn -[NL2].
  - apply continues_lines.
  - right. exists (10 :: (c :: l)). by rewrite <-!app_assoc.
  - apply continues_lines.
Qed.

(** The prompt without profile and instruction, the least there is to send. *)
Definition bareSystem (i : LlmAgentInput) : LlmMessage :=
  buildSystemMessage (systemPrompt i) (systemPromptParts i) false false.

Lemma bare_lightest i profile reasoning :
  lighter (textOf (bareSystem i)) (textOf (buildSystemMessage (systemPrompt i) (systemPromptParts i) profile reasoning)).
Proof.
  unfold bareSystem, buildSystemMessage. apply plain_lighter.
  assert (∀ s t, continues s t → continues s (if reasoning then t ++ NL2 ++ REASONING_INSTRUCTION else t)) as Hr.
  { intros s t Hst. destruct reasoning; [|done]. eapply continues_trans; [exact Hst|apply continues_lines]. }
  apply Hr. destruct (systemPromptParts i) as [p|]; [|apply continues_refl].
  destruct profile; [apply composed_continues|apply continues_refl].
Qed.

Section Build.
Context `{Zod} `{TextScan}.
Variable limits : AgentLimits.

Notation fitsBudget := (fitsBudget limits).
Notation dropOldest := (dropOldest limits).
Notation keepWhatFits := (keepWhatFits limits).

Lemma toMessages_app h h' : toMessages (h ++ h') = toMessages h ++ toMessages h'.
Proof. apply fmap_app. Qed.

Lemma without_history s u h : [s; u] `sublist_of` withHistory s u h.
Proof. apply sublist_skip. apply (sublist_app [] _ [u] [u]); [apply sublist_nil_l|done]. Qed.

(** What is kept is the longest run of newest entries that fits. *)
Lemma dropOldest_spec s u h :
  fitsBudget [s; u] = true →
  let '(kept, dropped) := dropOldest s u h in
  fitsBudget (withHistory s u kept) = true
  ∧ ∃ pre, h = pre ++ kept ∧ dropped = sum_by entryTokens pre
      ∧ ∀ mid post, h = post ++ mid → fitsBudget (withHistory s u mid) = true → (length mid ≤ length kept)%nat.
Proof.
  intros Hbare. induction h as [|e h IH]; cbn [AgentContext.dropOldest].
  { split; [done|]. exists []. split_and!; [done|done|]. intros mid post E _.
    apply (f_equal length) in E. rewrite length_app in E. simpl in *. lia. }
  destruct (fitsBudget (withHistory s u (e :: h))) eqn:Ef.
  - split; [done|]. exists []. split_and!; [done|done|]. intros mid post E _. rewrite E, length_app. lia.
  - destruct (dropOldest s u h) as [kept dropped]. destruct IH as (Hf & pre & -> & -> & Hmax). split; [done|].
    exists (e :: pre). split_and!; [done|done|]. intros mid [|x post] E Hm.
    + simpl in E. subst mid. by rewrite Ef in Hm.
    + injection E as -> E. by apply (Hmax mid post).
Qed.

Lemma keepWhatFits_fits s u selected rest :
  fitsBudget (withHistory s u selected) = true →
  let '(kept, _) := keepWhatFits s u selected rest in
  fitsBudget (withHistory s u kept) = true ∧ kept `sublist_of` rev rest ++ selected.
Proof.
  revert selected. induction rest as [|e rest IH]; intros selected Hs; cbn [AgentContext.keepWhatFits]; [done|].
  destruct (fitsBudget (withHistory s u (selected ++ [e]))) eqn:Ef.
  - assert (fitsBudget (withHistory s u (e :: selected)) = true) as Hs'.
    { eapply fits_mono; [|exact Ef]. apply Z.eq_le_incl, request_perm. unfold withHistory.
      rewrite toMessages_app. unfold toMessages at 1. rewrite fmap_cons. fold (toMessages selected).
      apply perm_skip. rewrite <-!app_assoc. cbn [app toMessages fmap list_fmap]. by rewrite Permutation_middle. }
    specialize (IH _ Hs'). destruct (keepWhatFits s u (e :: selected) rest) as [kept d].
    destruct IH as [IH1 IH2]. split; [done|]. cbn [rev]. by rewrite <-app_assoc.
  - specialize (IH _ Hs). destruct (keepWhatFits s u selected rest) as [kept d].
    destruct IH as [IH1 IH2]. split; [done|]. etrans; [exact IH2|]. cbn [rev]. rewrite <-app_assoc.
    by apply sublist_app, sublist_cons.
Qed.

(** The longest run of newest entries that fits. *)
Definition longestRun (s u : LlmMessage) (h kept : list ChatHistory.ChatHistoryMessage) : Prop :=
  ∃ pre, h = pre ++ kept ∧
    ∀ post mid, h = post ++ mid → fitsBudget (withHistory s u mid) = true → (length mid ≤ length kept)%nat.

Lemma selectEntries_spec s u h :
  fitsBudget [s; u] = true →
  let '(kept, _) := selectEntries limits s u h in
  fitsBudget (withHistory s u kept) = true ∧ kept `sublist_of` h
  ∧ ∀ newest, last h = Some newest → fitsBudget (withHistory s u [newest]) = true → longestRun s u h kept.
Proof.
  intros Hbare. unfold selectEntries. destruct (fitsBudget (withHistory s u h)) eqn:Ea.
  { split_and!; [done|done|]. intros _ _ _. exists []. split; [done|]. intros post mid -> _. rewrite length_app. lia. }
  assert (let '(kept, _) := keepWhatFits s u [] (rev h) in
          fitsBudget (withHistory s u kept) = true ∧ kept `sublist_of` h) as Hkeep.
  { pose proof (keepWhatFits_fits s u [] (rev h) Hbare) as Hk. destruct (keepWhatFits s u [] (rev h)).
    by rewrite rev_involutive, app_nil_r in Hk. }
  destruct (last h) as [newest|].
  - destruct (fitsBudget (withHistory s u [newest])) eqn:En.
    + pose proof (dropOldest_spec s u h Hbare) as Hd. destruct (dropOldest s u h) as [kept d].
      destruct Hd as (Hf & pre & -> & _ & Hmax). split_and!; [done|by apply sublist_inserts_l|].
      intros _ _ _. exists pre. split; [done|]. intros post mid E. by apply (Hmax mid post).
    + destruct (keepWhatFits s u [] (rev h)). destruct Hkeep. split_and!; [done..|].
      intros x [= <-]. by rewrite En.
  - destruct (keepWhatFits s u [] (rev h)). destruct Hkeep. by split_and!.
Qed.

Lemma build_fits i :
  let '(r, _) := build limits i in
  fits r = true →
  fitsBudget (messages r) = true
  ∧ ∃ s h, m_role s = RSystem ∧ messages r = withHistory s (userMessage i) h.
Proof.
  unfold build. destruct (sanitizeHistory (history i)) as [h injections]. cbv zeta.
  match goal with |- context[fitsBudget [?s; _]] => set (sys := s) end.
  destruct (negb (fitsBudget [sys; userMessage i])); [done|].
  destruct (selectEntries limits sys (userMessage i) h) as [selected dropped]. cbn [fits messages].
  intros Hf. split; [done|]. by exists sys, selected.
Qed.

Definition fullSystem (i : LlmAgentInput) : LlmMessage :=
  buildSystemMessage (systemPrompt i) (systemPromptParts i) (hasProfile i) true.

(** C38. The first request is refused only when not even the system prompt without
    profile and instruction and the learner's text fit; a context that fits is sent
    whole; and otherwise what is sent is within the budget, keeps the learner's
    text and the system prompt, and of the history the longest run of newest
    entries, unless the newest alone does not fit. *)
Theorem context_build i :
  let u := userMessage i in
  let h := sanitizeEntry <$> history i in
  let '(r, _) := build limits i in
  fits r = fitsBudget [bareSystem i; u]
  ∧ (fitsBudget (withHistory (fullSystem i) u h) = true → r = mkBuild (withHistory (fullSystem i) u h) true 0 [])
  ∧ (fits r = true → ∃ profile reasoning kept,
       let s := buildSystemMessage (systemPrompt i) (systemPromptParts i) profile reasoning in
       messages r = withHistory s u kept ∧ fitsBudget (messages r) = true ∧ kept `sublist_of` h
       ∧ ∀ newest, last h = Some newest → fitsBudget (withHistory s u [newest]) = true → longestRun s u h kept).
Proof.
  cbv zeta. unfold build, sanitizeHistory, fullSystem. set (u := userMessage i). set (h := sanitizeEntry <$> history i).
  set (sys := buildSystemMessage (systemPrompt i) (systemPromptParts i)).
  assert (∀ p r l, fitsBudget (withHistory (sys p r) u l) = true → fitsBudget [sys p r; u] = true) as Hfixed.
  { intros p r l. apply fits_mono, request_sublist, without_history. }
  assert (∀ p r l, fitsBudget (sys p r :: l) = true → fitsBudget (bareSystem i :: l) = true) as Hbare.
  { intros p r l. apply fits_mono, request_system, bare_lightest. }
  remember (hasProfile i && negb (fitsBudget (withHistory (sys (hasProfile i) true) u h))) as dropProfile eqn:E_dropProfile.
  remember (hasProfile i && negb dropProfile) as profile eqn:E_profile.
  remember (negb (fitsBudget (withHistory (sys profile true) u h))) as dropReasoning eqn:E_dropReasoning.
  set (s := sys profile (negb dropReasoning)).
  assert (fitsBudget [s; u] = fitsBudget [bareSystem i; u]) as Es.
  { destruct (fitsBudget [s; u]) eqn:E; [by rewrite (Hbare _ _ _ E)|]. symmetry. rewrite <-E. unfold s.
    destruct (fitsBudget (withHistory (sys profile true) u h)) eqn:Ef.
    - exfalso. apply Hfixed in Ef as Ef'. unfold s in E. rewrite E_dropReasoning in E. cbn [negb] in E. by rewrite Ef' in E.
    - assert (profile = false) as Ep.
      { rewrite E_profile, E_dropProfile in *. destruct (hasProfile i) eqn:Eh; [|done]. cbn [andb] in *.
        destruct (fitsBudget (withHistory (sys true true) u h)) eqn:Et; [|done].
        cbn [negb] in Ef. by rewrite Et in Ef. }
      rewrite E_dropReasoning, Ep. reflexivity. }
  assert (fitsBudget (withHistory (sys (hasProfile i) true) u h) = true →
          dropProfile = false ∧ profile = hasProfile i ∧ dropReasoning = false) as Hfull.
  { intros Hf. assert (dropProfile = false) as Edp by (rewrite E_dropProfile, Hf; apply andb_false_r).
    assert (profile = hasProfile i) as Ep by (rewrite E_profile, Edp; apply andb_true_r).
    split_and!; [done|done|]. by rewrite E_dropReasoning, Ep, Hf. }
  destruct (fitsBudget [s; u]) eqn:Efix; simpl negb; cbv iota.
  - pose proof (selectEntries_spec s u h Efix) as Hsel.
    destruct (selectEntries limits s u h) as [kept d] eqn:Esel. destruct Hsel as (Hk & Hsub & Hlong).
    cbn [fits messages]. split_and!; [by rewrite Hk|..].
    + intros Hf. destruct (Hfull Hf) as (E1 & E2 & E3). unfold s in *. rewrite E1, E2, E3 in *. cbn [negb app] in *.
      unfold selectEntries in Esel. rewrite Hf in Esel. injection Esel as <- <-. by rewrite Hf.
    + intros _. exists profile, (negb dropReasoning), kept. by split_and!.
  - cbn [fits messages]. split_and!; [done| |done]. intros Hf. destruct (Hfull Hf) as (E1 & E2 & E3).
    apply Hfixed in Hf. unfold s in Efix. rewrite E2, E3 in Efix. cbn [negb] in Efix. by rewrite Hf in Efix.
Qed.
End Build.

(** ** Trimming and aging *)

Definition isPlain (t : tracked) : Prop := m_role t.1 = RAssistant ∧ hasToolCalls t.1 = false.

Definition answers (calls : list ToolCall) (tools : list tracked) : Prop :=
  (λ t, m_toolCallId t.1) <$> tools = (λ c, Some (c_id c)) <$> calls
  ∧ Forall (λ t, m_role t.1 = RTool ∧ m_toolCalls t.1 = None) tools.

(** What a provider accepts: plain assistant messages, and messages with calls
    followed by one answer to each call, in order. *)
Inductive paired : list tracked → Prop :=
| paired_nil : paired []
| paired_plain t l : isPlain t → paired l → paired (t :: l)
| paired_round m meta calls tools l :
    m_role m = RAssistant → m_toolCalls m = Some calls → calls ≠ [] →
    answers calls tools → paired l → paired ((m, meta) :: tools ++ l).

Lemma paired_app l l' : paired l → paired l' → paired (l ++ l').
Proof.
  intros Hl Hl'. induction Hl as [|t l Ht _ IH|m meta calls tools l Hr Hc Hne Ha _ IH]; [done|by constructor|].
  cbn [app]. rewrite <-app_assoc. by eapply paired_round.
Qed.

Lemma dropTools_answers tools l :
  Forall (λ t, m_role t.1 = RTool ∧ m_toolCalls t.1 = None) tools → paired l → dropTools (tools ++ l) = l.
Proof.
  intros Ht Hl. induction Ht as [|t tools [Hr _] _ IH]; cbn [app dropTools].
  - destruct Hl as [|t l [Hp _] _|m meta calls tools l Hr _ _ _ _]; [done| |]; cbn [dropTools fst]; unfold isRole.
    + by rewrite Hp.
    + by rewrite Hr.
  - unfold isRole. by rewrite Hr.
Qed.

Lemma split_paired l :
  paired l →
  match splitAtToolCall l with
  | Some (before, calls, after) => Forall isPlain before ∧ calls ≠ [] ∧ paired after
      ∧ ∃ m meta tools, l = before ++ (m, meta) :: tools ++ after ∧ m_toolCalls m = Some calls
  | None => Forall isPlain l
  end.
Proof.
  induction 1 as [|t l Ht Hl IH|m meta calls tools l Hr Hc Hne Ha Hl _]; cbn [splitAtToolCall]; [constructor| |].
  - pose proof Ht as [Hr Hc]. unfold isRole. rewrite Hr. unfold hasToolCalls in Hc.
    destruct (m_toolCalls t.1) as [[|]|] eqn:Em; try done;
      (destruct (splitAtToolCall l) as [[[before cs] after]|]; [|by constructor];
       destruct IH as (Hb & Hn & Haf & m & meta & tools & -> & Hm');
       split_and!; [by constructor|done|done|by exists m, meta, tools]).
  - unfold isRole. cbn [fst]. rewrite Hr, Hc. destruct calls as [|c cs]; [done|].
    destruct Ha as [_ Ha]. rewrite dropTools_answers by done. split_and!; [constructor|done|done|].
    by exists m, meta, tools.
Qed.

Lemma plain_paired l : Forall isPlain l → paired l.
Proof. induction 1; by constructor. Qed.

Lemma marker_plain calls : isPlain (droppedMarker calls, None).
Proof. by split. Qed.

Lemma plain_calls l : Forall isPlain l → filter (λ t : tracked, hasToolCalls t.1 = true) l = [].
Proof.
  induction 1 as [|t l [_ Ht] _ IH]; [done|]. rewrite filter_cons_False by (by rewrite Ht). done.
Qed.

Section Trimming.
Context `{Zod}.
Variable limits : AgentLimits.
Variable prefix : list LlmMessage.

Lemma trimLoop_spec fuel l dropped :
  paired l → (trimFuel l ≤ fuel)%nat →
  let '(l', _) := trimLoop limits prefix fuel l dropped in
  paired l' ∧ (fitsBudget limits (requestOf prefix l') = true ∨ l' = []).
Proof.
  revert l dropped. induction fuel as [|fuel IH]; intros l dropped Hl Hf; cbn [trimLoop].
  { assert (l = []) as ->; [|split; [constructor|by right]].
    destruct l; [done|]. unfold trimFuel in Hf. simpl in Hf. lia. }
  destruct (fitsBudget limits (requestOf prefix l)) eqn:Ef; [split; [done|by left]|].
  pose proof (split_paired l Hl) as Hs. destruct (splitAtToolCall l) as [[[before calls] after]|].
  - destruct Hs as (Hb & Hne & Ha & m & meta & tools & El & Hm). apply IH.
    + apply paired_app; [by apply plain_paired|]. apply paired_plain; [apply marker_plain|done].
    + subst l. unfold trimFuel in *. rewrite !length_app in *. cbn [length] in *. rewrite !length_app in *.
      rewrite !filter_app in *. rewrite (plain_calls before Hb) in *. cbn [app] in *.
      rewrite filter_cons_True in Hf by (unfold hasToolCalls; cbn [fst]; rewrite Hm; by destruct calls).
      rewrite filter_cons_False by done. rewrite filter_app, !length_cons, length_app in Hf. lia.
  - destruct l as [|t l]; [split; [constructor|by right]|]. inversion Hs as [|? ? [_ Ht] Hs']; subst.
    assert (trimFuel l ≤ fuel)%nat as Hf'.
    { unfold trimFuel in *. rewrite filter_cons_False in Hf by (by rewrite Ht). simpl in Hf. lia. }
    assert (paired l) as Hl' by (by apply plain_paired).
    unfold hasToolCalls in Ht. destruct (m_toolCalls t.1) as [[|]|]; try done; by apply IH.
Qed.

(** A first request that fits is never lost to its loop. *)
Lemma trim_fits l :
  fitsBudget limits prefix = true → paired l →
  let '(l', _, ok) := trimLoopMessages limits prefix l in
  ok = true ∧ paired l' ∧ fitsBudget limits (requestOf prefix l') = true.
Proof.
  intros Hp Hl. unfold trimLoopMessages. pose proof (trimLoop_spec (trimFuel l) l [] Hl ltac:(lia)) as Ht.
  destruct (trimLoop limits prefix (trimFuel l) l []) as [l' dropped]. destruct Ht as [Hl' Hf].
  assert (fitsBudget limits (requestOf prefix l') = true) as ->; [|done].
  destruct Hf as [Hf| ->]; [done|]. unfold requestOf. by rewrite app_nil_r.
Qed.
End Trimming.

(** Aging changes texts only. *)
Lemma downgrade_keeps limits round t :
  m_role (downgrade limits round t).1 = m_role t.1 ∧ m_toolCalls (downgrade limits round t).1 = m_toolCalls t.1
  ∧ m_toolCallId (downgrade limits round t).1 = m_toolCallId t.1.
Proof.
  destruct t as [m [d|]]; [|done]. cbn [downgrade]. cbv zeta. destruct (_ || downgraded d); [done|].
  by destruct (_ || _ || _).
Qed.

Lemma downgrade_paired limits round l : paired l → paired (downgradeStaleObservations limits round l).
Proof.
  unfold downgradeStaleObservations.
  induction 1 as [|t l [Hr Hc] _ IH|m meta calls tools l Hr Hc Hne [Ha1 Ha2] _ IH]; [constructor| |].
  - rewrite fmap_cons. destruct (downgrade_keeps limits round t) as (E1 & E2 & _).
    constructor; [|done]. split; [by rewrite E1|]. unfold hasToolCalls. by rewrite E2.
  - rewrite fmap_cons, fmap_app. destruct (downgrade_keeps limits round (m, meta)) as (E1 & E2 & _).
    destruct (downgrade limits round (m, meta)) as [m' meta']. cbn [fst] in *.
    apply (paired_round m' meta' calls); [congruence|congruence|done| |done]. split.
    + rewrite <-Ha1, <-list_fmap_compose. apply list_fmap_ext. intros _ t _. by apply downgrade_keeps.
    + apply Forall_fmap. eapply Forall_impl; [exact Ha2|]. intros t [Ht1 Ht2].
      destruct (downgrade_keeps limits round t) as (F1 & F2 & _). unfold compose. by rewrite F1, F2.
Qed.

(** The notice of an aged observation can be longer than the text it stands for,
    and nothing is trimmed between the aging and the request: a segment that fits
    exactly no longer does. *)
Definition starvedRound : list tracked :=
  [(mkMessage RAssistant None (Some [callA]) None, None);
   trackToolObservation (mkMessage RTool (Some []) None (Some (js "a"))) 0 true].

Definition exactLimits : AgentLimits :=
  mkLimits 6 4 8 3 2 24000 6 1024 10000 60000
    (@estimateContextTokens documentedZod (requestOf [] starvedRound)).

Lemma aging_can_exceed :
  @fitsBudget documentedZod exactLimits (requestOf [] starvedRound) = true
  ∧ @fitsBudget documentedZod exactLimits (requestOf [] (downgradeStaleObservations exactLimits 2 starvedRound)) = false.
Proof. split; vm_compute; reflexivity. Qed.

(** *** A first request *)

Definition smallInput : LlmAgentInput :=
  mkInput (js "user-1234567") (js "my sessions?") None (js "You are an assistant.") None
    [ChatHistory.mkMsg ChatHistory.user (js "hello"); ChatHistory.mkMsg ChatHistory.assistant (js "hi")].

Definition smallConfig : LlmAgentConfig := mkConfig None None None None None None None None None None None.

Lemma context_build_witness :
  ∃ r, fits r = true ∧ length (messages r) = 4%nat
    ∧ fits r = @fitsBudget documentedZod (limitsOf smallConfig) [bareSystem smallInput; @userMessage quietScan smallInput].
Proof.
  pose proof (@context_build documentedZod quietScan (limitsOf smallConfig) smallInput) as Hb.
  destruct (@build documentedZod quietScan (limitsOf smallConfig) smallInput) as [r inj] eqn:E.
  destruct Hb as (Hf & _ & _). exists r.
  assert (r = (@build documentedZod quietScan (limitsOf smallConfig) smallInput).1) as Er by (by rewrite E).
  split_and!; [rewrite Er; vm_compute; reflexivity|rewrite Er; vm_compute; reflexivity|exact Hf].
Defined.
End AgentContext.
