(* ===== verification/ReplySafety.v ===== *)
(** * The last check of a reply

    packages/llm-agent, internal/safety-pipeline.ts with the learner-facing texts of
    messages.ts: the canary, the grounding check, the disclosure of bounded results
    and the final output check, in their order.

    The checks themselves are the operations of the class [ReplyGuards];
    [OutputGuards.replyGuards] is the code's instance. *)

From S2P Require Import Prelude Json AgentTools PromptSafety ToolObservation ToolRound.

Module ReplySafety.
Import Json AgentTools PromptSafety ToolRound.

Record Verdict := mkVerdict { unsafe : bool; v_unsafeReason : option string }.

Record Grounding := mkGrounding {
  suspicious : bool;
  g_reason : option string;
  replacementText : option jsstring
}.

Abbreviation disclosureMap := (list (jsstring * BoundedToolDisclosure)).

Class ReplyGuards := {
  sanitizeReplyText : jsstring → jsstring;
  (** the reply, the grounded tools, the learner's text, the bounded results *)
  checkLlmGrounding : jsstring → list jsstring → jsstring → option disclosureMap → Grounding;
  checkFinalOutputSafety : jsstring → Verdict;
  checkPromptCanarySafety : jsstring → jsstring → Verdict;
  (** [hasBoundedDisclosure]: the text says how this result was bounded *)
  hasBoundedDisclosure : jsstring → BoundedToolDisclosure → jsstring → bool;
  isObviouslyOffTopic : jsstring → bool;
  isStopIntent : jsstring → bool;
  isAmbiguousMessage : jsstring → bool
}.

(** ** Texts *)

Definition NON_DISCLOSURE_REPLY : jsstring :=
  txt "Mình là trợ lý AI của WISPACE, đồng hành cùng bạn luyện IELTS Writing — theo dõi tiến độ, lịch học và cách làm Task 1/2. Bạn muốn mình hỗ trợ phần nào của Writing không?".

Definition buildPromptInjectionBlockedMessage : jsstring :=
  txt "Mình không thể xử lý tin nhắn này." ++ [10; 10]
  ++ txt "Bạn có thể hỏi về tiến độ học, lịch học IELTS, hoặc đăng ký báo cáo nhé.".

Definition buildWispaceScopeRedirectMessage : jsstring :=
  txt "Mình chỉ hỗ trợ các câu hỏi về WISPACE và IELTS Writing thôi nhé." ++ [10; 10]
  ++ txt "Bạn có thể hỏi ví dụ: tiến độ học của mình, lịch học sắp tới, cách luyện Task 1/2, hoặc đăng ký báo cáo trước ngày thi.".

Definition buildGroundingBlockedMessage : jsstring :=
  txt "Mình cần tra cứu dữ liệu để trả lời chính xác hơn. " ++ txt "Bạn vui lòng thử lại nhé.".

Definition buildClarificationMessage : jsstring :=
  txt "Mình chưa rõ bạn muốn hỏi gì. Bạn có thể hỏi về:" ++ [10]
  ++ txt "• Tiến độ học IELTS" ++ [10] ++ txt "• Lịch học sắp tới" ++ [10] ++ txt "• Đổi lịch học" ++ [10]
  ++ txt "Trả lời 1, 2 hoặc 3; hoặc nhắn “Hủy” để bỏ qua.".

Definition buildStopAcknowledgedMessage : jsstring :=
  txt "Mình đã nhận được yêu cầu dừng của bạn." ++ [10]
  ++ qtxt "Câu trả lời đang được tạo không thể dừng giữa chừng, nhưng bạn cứ nhắn ~tiếp~ khi muốn mình làm tiếp nhé.".

Definition buildToolCallCapMessage : jsstring :=
  txt "Mình chỉ xử lý được tối đa 4 việc cùng lúc. Bạn hỏi lại từng việc nhé.".

Definition buildFinalOutputBlockedMessage : jsstring :=
  txt "Mình chưa thể gửi nội dung này. Bạn thử lại nhé.".

Definition UNKNOWN_TOOL_LABEL : jsstring := txt "dữ liệu liên quan".

(** The label of a tool, by the registry. *)
Definition toolLabel (n : jsstring) : jsstring :=
  match find (λ s, bool_decide (js (specName s) = n)) agentToolSpecs with
  | Some s => default [] (learnerLabel (specMetadata s))
  | None => UNKNOWN_TOOL_LABEL
  end.

Definition buildExhaustionPartialAnswer (groundedToolNames : list jsstring) : jsstring :=
  match toolLabel <$> dedup groundedToolNames with
  | [] => txt "Mình chưa tổng hợp xong câu trả lời. Bạn thử lại hoặc hỏi rõ hơn nhé."
  | labels => txt "Đã lấy được dữ liệu: " ++ joinWith (js ", ") labels ++ js ". "
              ++ txt "Mình chưa tổng hợp xong — bạn thử lại hoặc hỏi rõ một mục nhé."
  end.

(** Numbers of a disclosure are not negative. *)
Definition buildCappedResultMessage (d : BoundedToolDisclosure) (calendarLabelOverride : option jsstring) : jsstring :=
  let bounds := joinWith (txt " và ")
    ((txt "giới hạn " ++ natStr (limit d) ++ txt " mục")
     :: match pastDays d with Some n => [natStr n ++ txt " ngày gần nhất"] | None => [] end) in
  let calendarLabel :=
    match calendarLabelOverride with
    | Some l => l
    | None => match timeRange d with
              | Some Past => txt "lịch đã qua" | Some Upcoming => txt "lịch sắp tới" | _ => txt "lịch" end
    end in
  let scope :=
    match count d with
    | None => txt "Mình chỉ lấy được dữ liệu trong " ++ bounds ++ txt " của " ++ calendarLabel
    | Some n => txt "Mình đã lấy " ++ natStr n ++ txt " mục trong " ++ bounds ++ txt " của " ++ calendarLabel
    end in
  scope ++ js "; "
  ++ (if capped d then txt "đây không phải toàn bộ lịch." else txt "mình chưa thể xác nhận đây là toàn bộ lịch.")
  ++ txt " Bạn có thể hỏi theo khoảng thời gian cụ thể để mình kiểm tra tiếp.".

(** ** The pipeline *)

Inductive SafetyOutcome := SafetyAllowed | GroundingBlocked | FinalBlocked.

Record SafetyEvaluationInput := mkEvaluation {
  e_text : jsstring;
  e_userText : jsstring;
  e_toolsCalled : list jsstring;
  e_groundedTools : list jsstring;
  e_disclosures : disclosureMap;
  e_promptCanary : option jsstring;
  e_includeBoundedDisclosures : bool
}.

Record SafetyEvaluation := mkSafety {
  s_outcome : SafetyOutcome;
  s_replyText : jsstring;
  s_safetyReason : option string;
  s_skipHistory : bool
}.

Definition isHarmfulOutputSafetyReason (r : option string) : bool :=
  bool_decide (r = Some "self_harm_instruction"%string) || bool_decide (r = Some "targeted_harassment"%string).

Section Pipeline.
Context `{ReplyGuards}.

Definition evaluateFinalSafety (text : jsstring) : SafetyEvaluation :=
  let f := checkFinalOutputSafety text in
  if negb (unsafe f) then mkSafety SafetyAllowed (sanitizeReplyText text) None false
  else mkSafety FinalBlocked
    (if isHarmfulOutputSafetyReason (v_unsafeReason f)
        || bool_decide (v_unsafeReason f = Some "credential_leak"%string)
     then buildFinalOutputBlockedMessage else NON_DISCLOSURE_REPLY)
    (Some (default "unknown"%string (v_unsafeReason f))) (isHarmfulOutputSafetyReason (v_unsafeReason f)).

(** [scopeKey.split(':', 1)[0]]. *)
Fixpoint beforeColon (s : jsstring) : jsstring :=
  match s with
  | [] => []
  | c :: s' => if c =? 58 then [] else c :: beforeColon s'
  end.

Definition calendarLabel (scopeKey : jsstring) (d : BoundedToolDisclosure) : option jsstring :=
  let toolName := beforeColon scopeKey in
  if bool_decide (toolName = js "get_upcoming_study_sessions") then Some (txt "buổi học sắp tới")
  else if bool_decide (toolName = js "list_study_calendar_entries") then
    Some match timeRange d with
         | Some Past => txt "lịch học đã qua" | Some Upcoming => txt "lịch học sắp tới"
         | _ => txt "lịch học tổng hợp" end
  else None.

(** The notes a text still needs, and the text with them. *)
Definition addNote (acc : list jsstring * jsstring) (e : jsstring * BoundedToolDisclosure)
    : list jsstring * jsstring :=
  let '(notes, textWithNotes) := acc in
  let '(scopeKey, d) := e in
  if hasBoundedDisclosure textWithNotes d scopeKey then acc else
  let note := buildCappedResultMessage d (calendarLabel scopeKey d) in
  if includes textWithNotes note then acc
  else (notes ++ [note], js_trim (js_trim textWithNotes ++ 32 :: note)).

Definition appendBoundedDisclosures (text : jsstring) (disclosures : disclosureMap) : jsstring :=
  let '(notes, _) := foldl addNote ([], text) (sortKeys disclosures) in
  match notes with
  | [] => text
  | _ => js_trim (js_trim text ++ 32 :: joinWith [32] notes)
  end.

(** The canary's verdict, when there is a canary and the text holds it. *)
Definition canaryHit (i : SafetyEvaluationInput) : option Verdict :=
  match e_promptCanary i with
  | None | Some [] => None
  | Some c => let v := checkPromptCanarySafety (e_text i) c in if unsafe v then Some v else None
  end.

(** [evaluate]; the summary of the called tools is left to the caller. *)
Definition evaluate (i : SafetyEvaluationInput) : SafetyEvaluation :=
  match canaryHit i with
  | Some v => mkSafety FinalBlocked NON_DISCLOSURE_REPLY (Some (default "unknown"%string (v_unsafeReason v))) false
  | None =>
      let blocked r := mkSafety GroundingBlocked buildGroundingBlockedMessage
                         (Some (default "unknown"%string r)) false in
      let g := checkLlmGrounding (e_text i) (e_groundedTools i) (e_userText i) (Some (e_disclosures i)) in
      if suspicious g then
        match g_reason g, replacementText g with
        | Some r, Some (c :: t) =>
            if bool_decide (r = "capped_result_claim"%string)
               && negb (suspicious (checkLlmGrounding (c :: t) (e_groundedTools i) (e_userText i) None))
            then
              let f := evaluateFinalSafety (appendBoundedDisclosures (c :: t) (e_disclosures i)) in
              match s_outcome f with
              | FinalBlocked => f
              | _ => mkSafety GroundingBlocked (s_replyText f) (Some "capped_result_claim"%string) (s_skipHistory f)
              end
            else blocked (g_reason g)
        | r, _ => blocked r
        end
      else evaluateFinalSafety
             (if e_includeBoundedDisclosures i then appendBoundedDisclosures (e_text i) (e_disclosures i)
              else e_text i)
  end.
End Pipeline.

(** ** Texts without space at their ends *)

Definition tight (s : jsstring) : Prop :=
  (∀ c, head s = Some c → js_whitespace c = false) ∧ (∀ c, last s = Some c → js_whitespace c = false).

Lemma drop_ws_head s c : head (drop_ws s) = Some c → js_whitespace c = false.
Proof.
  induction s as [|d s IH]; [done|]. cbn [drop_ws]. destruct (js_whitespace d) eqn:E; [done|]. by intros [= <-].
Qed.

Lemma drop_ws_tight s : (∀ c, head s = Some c → js_whitespace c = false) → drop_ws s = s.
Proof. destruct s as [|c s]; [done|]. intros Hs. cbn [drop_ws]. by rewrite (Hs c). Qed.

Lemma drop_ws_last s : drop_ws s = [] ∨ last (drop_ws s) = last s.
Proof.
  induction s as [|d s IH]; [by left|]. cbn [drop_ws]. destruct (js_whitespace d); [|by right].
  destruct IH as [IH|IH]; [by left|]. rewrite IH. destruct s; [by left|by right].
Qed.

Lemma head_rev {A} (l : list A) : head (rev l) = last l.
Proof. rewrite <-head_reverse. unfold reverse. by rewrite <-rev_alt. Qed.

Lemma last_rev {A} (l : list A) : last (rev l) = head l.
Proof. by rewrite <-head_rev, rev_involutive. Qed.

Lemma js_trim_tight s : tight (js_trim s).
Proof.
  unfold js_trim. split; intros c.
  - rewrite head_rev. destruct (drop_ws_last (rev (drop_ws s))) as [-> | ->]; [done|].
    rewrite last_rev. apply drop_ws_head.
  - rewrite last_rev. apply drop_ws_head.
Qed.

Lemma tight_trim s : tight s → js_trim s = s.
Proof.
  intros [Hh Hl]. unfold js_trim. rewrite (drop_ws_tight s Hh), drop_ws_tight; [apply rev_involutive|].
  intros c. rewrite head_rev. apply Hl.
Qed.

Lemma tight_app a b : tight a → tight b → a ≠ [] → b ≠ [] → tight (a ++ 32 :: b).
Proof.
  intros [Ha _] [_ Hb] Hna Hnb. split; intros c.
  - destruct a; [done|]. apply Ha.
  - rewrite last_app_cons, last_cons. destruct (last b) eqn:E; [intros [= <-]; by apply Hb|].
    by destruct b using rev_ind; [|rewrite last_snoc in E].
Qed.

(** A note after a text. *)
Definition withNote (a n : jsstring) : jsstring := match js_trim a with [] => n | b => b ++ 32 :: n end.

Lemma trim_note a n : tight n → n ≠ [] → js_trim (js_trim a ++ 32 :: n) = withNote a n.
Proof.
  intros Hn Hne. unfold withNote. pose proof (js_trim_tight a) as Ha.
  destruct (js_trim a) as [|c b]; [|by apply tight_trim, tight_app].
  cbn [app]. unfold js_trim at 1. cbn [drop_ws]. change (js_whitespace 32) with true. cbv iota.
  exact (tight_trim n Hn).
Qed.

Lemma withNote_tight a n : tight n → n ≠ [] → tight (withNote a n).
Proof.
  intros Hn Hne. unfold withNote. pose proof (js_trim_tight a) as Ha. destruct (js_trim a); [done|]. by apply tight_app.
Qed.

Lemma withNote_nonempty a n : n ≠ [] → withNote a n ≠ [].
Proof. intros Hne. unfold withNote. by destruct (js_trim a). Qed.

Lemma withNote_twice a n m :
  tight n → n ≠ [] → withNote (withNote a n) m = withNote a (n ++ 32 :: m).
Proof.
  intros Hn Hne. unfold withNote at 1. rewrite (tight_trim _ (withNote_tight a n Hn Hne)).
  pose proof (withNote_nonempty a n Hne). destruct (withNote a n) eqn:E; [done|]. rewrite <-E. clear E.
  unfold withNote. destruct (js_trim a); [done|]. cbn [app]. by rewrite <-app_assoc.
Qed.

(** ** The notes of a reply *)

Lemma capped_note_tight d l : tight (buildCappedResultMessage d l) ∧ buildCappedResultMessage d l ≠ [].
Proof.
  unfold buildCappedResultMessage. set (b := joinWith _ _). set (cl := match l with Some _ => _ | None => _ end).
  set (tailText := txt " Bạn có thể hỏi theo khoảng thời gian cụ thể để mình kiểm tra tiếp.").
  assert (∃ t, tailText = t ++ [46]) as [t Et].
  { exists (removelast tailText). vm_compute. reflexivity. }
  assert (∀ sc y, head sc = Some 77 →
          tight (sc ++ js "; " ++ y ++ tailText) ∧ sc ++ js "; " ++ y ++ tailText ≠ []) as Ht.
  { intros sc y Hs. destruct sc as [|x sc]; [done|]. injection Hs as ->. split; [|done]. split; intros c.
    - by intros [= <-].
    - rewrite Et, !app_assoc, last_snoc. by intros [= <-]. }
  destruct (count d) as [n|]; by apply Ht.
Qed.
Definition noteText (n : jsstring) : Prop := tight n ∧ n ≠ [].

Lemma join_note l : l ≠ [] → Forall noteText l → noteText (joinWith [32] l).
Proof.
  intros Hne Hl. induction Hl as [|p l Hp Hl IH]; [done|]. destruct l as [|q l]; [done|].
  rewrite joinWith_cons by done. destruct (IH ltac:(done)) as [Ht Hn], Hp as [Hpt Hpn].
  split; [by apply (tight_app p)|by destruct p].
Qed.

(** A text with the notes added so far. *)
Definition running (text : jsstring) (notes : list jsstring) : jsstring :=
  match notes with [] => text | _ => withNote text (joinWith [32] notes) end.

Lemma running_snoc text notes n :
  Forall noteText notes → noteText n →
  js_trim (js_trim (running text notes) ++ 32 :: n) = running text (notes ++ [n]).
Proof.
  intros Hns [Hn Hne]. rewrite trim_note by done. destruct notes as [|m notes]; [done|].
  unfold running. destruct (join_note (m :: notes)) as [Ht Hj]; [done|done|].
  rewrite withNote_twice by done. cbn [app]. f_equal.
  change (m :: notes ++ [n]) with ((m :: notes) ++ [n]). by rewrite joinWith_snoc.
Qed.

Lemma running_prefix text notes more :
  running text notes = text ∨ running text notes `prefix_of` running text (notes ++ more).
Proof.
  destruct notes as [|m notes]; [by left|right]. revert m notes.
  induction more as [|x more IH] using rev_ind; intros m notes; [by rewrite app_nil_r|].
  etrans; [apply IH|]. rewrite app_assoc. cbn [running app]. unfold withNote.
  change (m :: (notes ++ more) ++ [x]) with ((m :: notes ++ more) ++ [x]). rewrite joinWith_snoc by done.
  destruct (js_trim text); [by apply prefix_app_r|]. cbn [app]. apply prefix_cons, prefix_app, prefix_cons, prefix_app_r. done.
Qed.

Section Notes.
Context `{ReplyGuards}.

(** The text says how the result of [k] was bounded: to the guard's eye, or in
    the words of the note. *)
Definition says (t k : jsstring) (d : BoundedToolDisclosure) : Prop :=
  hasBoundedDisclosure t d k = true ∨ includes t (buildCappedResultMessage d (calendarLabel k d)) = true.

Lemma addNotes_spec text ds notes :
  Forall noteText notes →
  ∃ more, foldl addNote (notes, running text notes) ds = (notes ++ more, running text (notes ++ more))
    ∧ Forall noteText more
    ∧ ∀ k d, (k, d) ∈ ds → ∃ now, now `prefix_of` notes ++ more ∧ says (running text now) k d.
Proof.
  revert notes. induction ds as [|[k d] ds IH]; intros notes Hn; cbn [foldl].
  { exists []. rewrite app_nil_r. split_and!; [done|constructor|by intros ? ? ?%not_elem_of_nil]. }
  pose proof (capped_note_tight d (calendarLabel k d)) as Ht.
  unfold addNote at 2. set (n := buildCappedResultMessage d (calendarLabel k d)) in *.
  assert (∀ x, (if hasBoundedDisclosure (running text notes) d k then (notes, running text notes)
     else if includes (running text notes) n then (notes, running text notes) else x)
     = if decide (says (running text notes) k d) then (notes, running text notes) else x) as ->.
  { intros x. unfold says. fold n. destruct (hasBoundedDisclosure _ d k) eqn:E1; [by rewrite decide_True by auto|].
    destruct (includes _ n) eqn:E2; [by rewrite decide_True by auto|]. by rewrite decide_False by (intros []; congruence). }
  case_decide as Hs.
  - destruct (IH notes Hn) as (more & E & Hm & Hall). exists more. split_and!; [done|done|].
    intros k' d' [[= -> ->]|Hin]%elem_of_cons; [|by apply Hall]. exists notes. split; [by apply prefix_app_r|done].
  - rewrite (running_snoc text notes n Hn Ht). destruct (IH (notes ++ [n])) as (more & E & Hm & Hall).
    { apply Forall_app. split; [done|by constructor]. }
    exists (n :: more). rewrite <-app_assoc in E. cbn [app] in E. split_and!; [done|by constructor|].
    intros k' d' [[= -> ->]|Hin]%elem_of_cons.
    + exists (notes ++ [n]). split; [by exists more; rewrite <-app_assoc|]. right. fold n.
      rewrite <-(running_snoc text notes n Hn Ht). rewrite trim_note by apply Ht. unfold withNote.
      destruct (js_trim (running text notes)) as [|c l].
      { pose proof (includes_part [] n []) as Hi. by rewrite app_nil_r in Hi. }
      pose proof (includes_part (c :: l ++ [32]) n []) as Hi. rewrite app_nil_r in Hi. cbn [app] in Hi.
      by rewrite <-app_assoc in Hi.
    + destruct (Hall k' d' Hin) as (now & Hp & Hsay). exists now. split; [|done]. by rewrite <-app_assoc in Hp.
Qed.

(** Whatever is appended, every bounded result is disclosed in the model's text or
    in an initial part of the text with its notes. *)
Lemma append_discloses text ds k d :
  (k, d) ∈ ds → ∃ t, (t = text ∨ t `prefix_of` appendBoundedDisclosures text ds) ∧ says t k d.
Proof.
  intros Hin. unfold appendBoundedDisclosures.
  destruct (addNotes_spec text (sortKeys ds) [] (Forall_nil_2 _)) as (more & E & Hm & Hall).
  cbn [running app] in E. rewrite E.
  destruct (Hall k d) as (now & [rest Hp] & Hs); [by rewrite sortKeys_perm|]. cbn [app] in Hp.
  exists (running text now). split; [|done].
  assert (match more with [] => text | _ => js_trim (js_trim text ++ 32 :: joinWith [32] more) end = running text more) as ->.
  { destruct more as [|m more]; [done|]. destruct (join_note (m :: more)); [done|done|]. by apply trim_note. }
  rewrite Hp. apply running_prefix.
Qed.

(** ** What a checked reply is *)

Definition blockedTexts : list jsstring :=
  [NON_DISCLOSURE_REPLY; buildGroundingBlockedMessage; buildFinalOutputBlockedMessage].

(** A text that passed every check, with its notes: the model's own, free of the
    canary and grounded with the bounded results in view, or the one the grounding
    check put in its place. *)
Record checkedReply (i : SafetyEvaluationInput) (reply : jsstring) : Prop := {
  checked_by : ∃ t,
    let full := appendBoundedDisclosures t (e_disclosures i) in
    reply = sanitizeReplyText full
    ∧ unsafe (checkFinalOutputSafety full) = false
    ∧ (t = e_text i
         ∧ suspicious (checkLlmGrounding t (e_groundedTools i) (e_userText i) (Some (e_disclosures i))) = false
       ∨ replacementText (checkLlmGrounding (e_text i) (e_groundedTools i) (e_userText i) (Some (e_disclosures i))) = Some t
         ∧ suspicious (checkLlmGrounding t (e_groundedTools i) (e_userText i) None) = false)
    ∧ ∀ k d, (k, d) ∈ e_disclosures i → ∃ t', (t' = t ∨ t' `prefix_of` full) ∧ says t' k d;
  checked_canary : ∀ c l, e_promptCanary i = Some (c :: l) → unsafe (checkPromptCanarySafety (e_text i) (c :: l)) = false
}.

Lemma final_cases t :
  s_replyText (evaluateFinalSafety t) ∈ blockedTexts
  ∨ s_outcome (evaluateFinalSafety t) ≠ FinalBlocked
    ∧ s_replyText (evaluateFinalSafety t) = sanitizeReplyText t ∧ unsafe (checkFinalOutputSafety t) = false.
Proof.
  unfold evaluateFinalSafety. destruct (unsafe (checkFinalOutputSafety t)); cbn [negb s_replyText s_outcome].
  - left. destruct (_ || _); [right; right; left|left].
  - right. by split_and!.
Qed.

Lemma evaluate_checked i :
  e_includeBoundedDisclosures i = true →
  s_replyText (evaluate i) ∈ blockedTexts ∨ checkedReply i (s_replyText (evaluate i)).
Proof.
  intros Hinc. unfold evaluate. rewrite Hinc.
  assert (NON_DISCLOSURE_REPLY ∈ blockedTexts) as Hb1 by left.
  assert (buildGroundingBlockedMessage ∈ blockedTexts) as Hb2 by (right; left).
  destruct (canaryHit i) as [v|] eqn:Ec; [left; exact Hb1|].
  assert (∀ c l, e_promptCanary i = Some (c :: l) → unsafe (checkPromptCanarySafety (e_text i) (c :: l)) = false) as Hcan.
  { intros c l E. unfold canaryHit in Ec. rewrite E in Ec. by destruct (unsafe (checkPromptCanarySafety _ _)). }
  set (g := checkLlmGrounding (e_text i) (e_groundedTools i) (e_userText i) (Some (e_disclosures i))).
  destruct (suspicious g) eqn:Eg.
  - destruct (g_reason g) as [r|]; [|left; exact Hb2]. destruct (replacementText g) as [[|c t]|] eqn:Er; [left; exact Hb2| |left; exact Hb2].
    destruct (_ && _) eqn:Eb; [|left; exact Hb2]. apply andb_true_iff in Eb as [_ Eb%negb_true_iff].
    destruct (final_cases (appendBoundedDisclosures (c :: t) (e_disclosures i))) as [Hin|(Ho & Et & Hu)].
    + left. destruct (s_outcome (evaluateFinalSafety _)); exact Hin.
    + right. assert (∀ s1 s2, (match s_outcome (evaluateFinalSafety (appendBoundedDisclosures (c :: t) (e_disclosures i)))
                               with FinalBlocked => s1 | _ => s2 end) = s2 :> SafetyEvaluation) as Hm
        by (intros; by destruct (s_outcome (evaluateFinalSafety _))).
      rewrite Hm. cbn [s_replyText]. split; [|exact Hcan]. exists (c :: t). split_and!; [done|done|by right|].
      intros k d. apply append_discloses.
  - destruct (final_cases (appendBoundedDisclosures (e_text i) (e_disclosures i))) as [Hin|(_ & Et & Hu)]; [left; exact Hin|].
    right. split; [|exact Hcan]. exists (e_text i). split_and!; [done|done|by left|]. intros k d. apply append_discloses.
Qed.
End Notes.
End ReplySafety.
