(* ===== verification/AgentLoop.v ===== *)
(** * A turn of the agent

    packages/llm-agent, agent.service.ts: the replies given before the model is
    asked, and the loop of provider calls and tool rounds up to a reply, the
    exhaustion of the rounds or an error.

    The provider is any function of the round and of the messages it is sent; the
    tools answer as in [ToolRound]; the summary of the tools is any function here
    and that of [ToolSummary] in [GuardedTurn].  The deadline of the whole turn
    rejects the caller's promise and leaves the loop to its abort signal; it is an
    error like any other here. *)

From S2P Require Import Prelude Json ChatHistory AgentTools PromptSafety ToolObservation ToolRound AgentContext ReplySafety.

Module AgentLoop.
Import Json AgentTools PromptSafety ToolRound AgentContext ReplySafety.

(** ** State of a turn *)

Record ToolSummaryObservation := mkSummary {
  o_toolName : jsstring;
  o_content : jsstring;
  o_succeeded : bool;
  o_boundedDisclosure : option BoundedToolDisclosure
}.

Record LlmAgentReply := mkReply {
  text : jsstring;
  skipHistory : bool;
  exhausted : bool;
  toolSummary : option jsstring
}.

Definition canned (t : jsstring) : LlmAgentReply := mkReply t false false None.

(** [chatWithTools] as the execution port answers it. *)
Inductive ProviderAnswer := Response (message : LlmMessage) (content : option jsstring) | ProviderError.

Inductive TurnEvent :=
| Requested (round : Z) (messages : list LlmMessage)
| Usage (round : Z) (ok : bool)
| ToolsRan (round : Z) (unique : Z) (run : RoundState)
| Degraded (failureClass action : string)
| DegradedByError                       (** with the class of the error, chat_fallback *)
| InjectionRecorded (source reason : string).

Record TurnState := mkTurn {
  loop : list tracked;
  toolsCalled : list jsstring;
  grounded : list jsstring;
  turnDisclosures : disclosureMap;
  observations : list ToolSummaryObservation;
  runsPerName : list (jsstring * Z);
  toolExecutions : Z;
  previousSignature : option jsstring;
  previousRoundFailed : bool;
  log : list TurnEvent
}.

Definition turn0 (log : list TurnEvent) : TurnState := mkTurn [] [] [] [] [] [] 0 None false log.

Definition record (e : TurnEvent) (s : TurnState) : TurnState :=
  mkTurn (loop s) (toolsCalled s) (grounded s) (turnDisclosures s) (observations s) (runsPerName s)
    (toolExecutions s) (previousSignature s) (previousRoundFailed s) (log s ++ [e]).

Definition setLoop (l : list tracked) (s : TurnState) : TurnState :=
  mkTurn l (toolsCalled s) (grounded s) (turnDisclosures s) (observations s) (runsPerName s)
    (toolExecutions s) (previousSignature s) (previousRoundFailed s) (log s).

(** [Set.add]. *)
Definition setAdd (l : list jsstring) (n : jsstring) : list jsstring :=
  if bool_decide (n ∈ l) then l else l ++ [n].

Inductive Exit := EReply (r : LlmAgentReply) | EBreak | EThrow.

Section Turn.
Context `{Zod} `{TextScan} `{ReplyGuards}.
Variable parseBounded : ToolObservation.raw → option BoundedToolResultMetadata.
Variable buildToolSummary : list jsstring → list ToolSummaryObservation → option jsstring.
Variable limits : AgentLimits.
Variable input : LlmAgentInput.
Variable provider : Z → list LlmMessage → ProviderAnswer.
Variable tools : Z → ToolCall → CallEnv.
Variable order : Z → list ToolCall → list ToolCall.
Variable isConfigured : bool.

Definition maintenanceText : jsstring :=
  txt "WISPACE đang bảo trì trợ lý AI tạm thời." ++ [10; 10]
  ++ txt "Bạn có thể hỏi tự do về tiến độ, lịch học — WISPACE cũng gửi báo cáo và nhắc lịch tự động.".

Definition buildFallbackReply (userText : jsstring) : jsstring :=
  let trimmed := js_trim userText in
  if bool_decide (trimmed = []) || isObviouslyOffTopic trimmed then buildWispaceScopeRedirectMessage
  else maintenanceText.

(** ** Before the model is asked *)

Definition injectionReply (reason : string) (skip : bool) : LlmAgentReply :=
  mkReply (if bool_decide (reason = "extraction"%string) then NON_DISCLOSURE_REPLY
           else buildPromptInjectionBlockedMessage) skip false None.

(** The learner's entries of the history. *)
Definition userTexts : list jsstring :=
  omap (λ e, match ChatHistory.role e with ChatHistory.user => Some (ChatHistory.content e) | _ => None end)
       (history input).

Definition checkEarlyReturns : option (LlmAgentReply * list TurnEvent) :=
  let t := userText input in
  if negb isConfigured then Some (canned (buildFallbackReply t), [])
  else match detectPromptInjection t with
  | Some reason => Some (injectionReply reason false, [InjectionRecorded "user_input" reason])
  | None =>
  match detectPromptInjectionAcrossTurns t (userTextParts input) userTexts (len t) with
  | Some reason => Some (injectionReply reason true, [InjectionRecorded "user_input" "multi_turn"])
  | None =>
      if detectDisclosureProbe t then Some (canned NON_DISCLOSURE_REPLY, [])
      else if isObviouslyOffTopic t then Some (canned buildWispaceScopeRedirectMessage, [])
      else if isStopIntent t then Some (canned buildStopAcknowledgedMessage, [])
      else if isAmbiguousMessage t then Some (canned buildClarificationMessage, [])
      else None
  end end.

(** ** A round *)

Definition callKey (c : ToolCall) : jsstring := serviceKey (c_name c) (c_arguments c).

Definition countUniqueToolCalls (calls : list ToolCall) : Z := Z.of_nat (length (dedup (callKey <$> calls))).

(** The keys in the order of [Array.prototype.sort], joined by a bar. *)
Definition buildToolCallSignature (calls : list ToolCall) : jsstring :=
  joinWith [124] (sortBy unitsLe (callKey <$> calls)).

(** [promptCanary], if the prompt has named parts. *)
Definition canaryOf : option jsstring := promptCanary <$> systemPromptParts input.

Definition evaluationOf (t : jsstring) (canary : option jsstring) (s : TurnState) : SafetyEvaluation :=
  evaluate (mkEvaluation t (userText input) (toolsCalled s) (grounded s) (turnDisclosures s) canary true).

(** A reply without tool calls. *)
Definition directReply (t : jsstring) (s : TurnState) : TurnState * Exit :=
  let safety := evaluationOf t canaryOf s in
  let s' := match s_outcome safety with
            | SafetyAllowed => s
            | GroundingBlocked => record (Degraded "grounding_blocked" "block_response") s
            | FinalBlocked => record (Degraded "safety_blocked" "block_response") s
            end in
  (s', EReply (mkReply (s_replyText safety) (s_skipHistory safety) false
                 (buildToolSummary (toolsCalled s) (observations s)))).

(** The disclosures of a round are merged into the turn's. *)
Definition mergeDisclosures (round turn : disclosureMap) : disclosureMap :=
  foldl (λ m kd, jm_set kd.1 (mergeBoundedToolDisclosures (jm_get kd.1 m) kd.2) m) turn round.

(** The loop over the successful tools that means to clear their disclosures. *)
Definition clearDisclosures (successful : list jsstring) (m : disclosureMap) : disclosureMap :=
  foldl (λ m n,
    let ofTool (kd : jsstring * BoundedToolDisclosure) := isPrefix (n ++ [58]) kd.1 in
    if existsb ofTool m then m
    else if existsb (λ kd, ofTool kd && capped kd.2) m then m
    else filter (λ kd, ofTool kd = false) m) m successful.

Definition toolMessages (round : Z) (rs : list ToolRoundResult) : list tracked :=
  (λ r, trackToolObservation (mkMessage RTool (Some (r_content r)) None (Some (r_toolCallId r)))
          round (r_succeeded r)) <$> rs.

(** What a completed tool round leaves, before trimming. *)
Definition afterTools (round : Z) (message : LlmMessage) (calls : list ToolCall) (signature : jsstring)
    (x : ToolRoundExecution) (s : TurnState) : TurnState :=
  mkTurn (loop s ++ (message, None) :: toolMessages round (results x))
    (foldl setAdd (toolsCalled s) (filter (λ n, isAgentToolName n = true) (c_name <$> calls)))
    (foldl setAdd (grounded s) (successfulToolNames x))
    (clearDisclosures (successfulToolNames x) (mergeDisclosures (boundedToolDisclosures x) (turnDisclosures s)))
    (observations s ++ ((λ r, mkSummary (r_toolName r) (r_content r) (r_succeeded r) (r_boundedDisclosure r))
                        <$> results x))
    (foldl (λ m n, jm_set n (default 0 (jm_get n m) + 1) m) (runsPerName s) (successfulToolNames x))
    (toolExecutions s + x_executedCount x)
    (Some signature)
    (existsb (λ r, negb (r_succeeded r)) (results x))
    (log s).

(** The refusals before a round of tools: the reply, or the end of the loop. *)
Definition roundRefusal (calls : list ToolCall) (s : TurnState) : option (TurnState * Exit) :=
  if maxToolCallsPerRound limits <? countUniqueToolCalls calls
  then Some (record (Degraded "tool_failure" "block_response") s, EReply (canned buildToolCallCapMessage))
  else if bool_decide (previousSignature s = Some (buildToolCallSignature calls)) && negb (previousRoundFailed s)
  then Some (record (Degraded "tool_failure" "block_response") s, EBreak)
  else if existsb (λ nr, maxToolRunsPerNamePerTurn limits <=? nr.2) (runsPerName s)
  then Some (record (Degraded "tool_failure" "block_response") s, EBreak)
  else if maxToolExecutionsPerTurn limits - toolExecutions s <=? 0
  then Some (record (Degraded "tool_round_exhausted" "partial_answer") s, EBreak)
  else None.

(** A response that calls tools; [None] goes on with the next round. *)
Definition toolRound (prefix : list LlmMessage) (round : Z) (message : LlmMessage) (calls : list ToolCall)
    (s : TurnState) : TurnState * option Exit :=
  match roundRefusal calls s with
  | Some (s', e) => (s', Some e)
  | None =>
      let ms := requestOf prefix (loop s ++ [(message, None)]) in
      let '(run, x) := execute parseBounded (externalUserId input) (tools round) (order round) calls
                         (observationBudget limits ms)
                         (Some (maxToolExecutionsPerTurn limits - toolExecutions s)) in
      let s1 := record (ToolsRan round (countUniqueToolCalls calls) run) s in
      let reported x := foldl (λ s i, record (InjectionRecorded "tool_result" (ToolObservation.i_reason i.1)) s) s1
                          (injections x) in
      match x with
      | None => (record DegradedByError s1, Some EThrow)
      | Some x =>
          let s2 := afterTools round message calls (buildToolCallSignature calls) x (reported x) in
          let '(loop', _, ok) := trimLoopMessages limits prefix (loop s2) in
          let s3 := setLoop loop' s2 in
          if ok then (s3, None)
          else (record (Degraded "invalid_output" "chat_fallback") s3,
                Some (EReply (canned (buildFallbackReply (userText input)))))
      end
  end.

Definition runRound (prefix : list LlmMessage) (round : Z) (s0 : TurnState) : TurnState * option Exit :=
  let s := setLoop (downgradeStaleObservations limits round (loop s0)) s0 in
  let ms := requestOf prefix (loop s) in
  let s1 := record (Requested round ms) s in
  match provider round ms with
  | ProviderError =>
      (record DegradedByError (record (Usage round false) s1), Some EThrow)
  | Response message content =>
      let s2 := record (Usage round true) s1 in
      match m_toolCalls message with
      | Some ((_ :: _) as calls) => toolRound prefix round message calls s2
      | _ =>
          match content with
          | None | Some [] => (record DegradedByError s2, Some EThrow)
          | Some t => let '(s3, e) := directReply t s2 in (s3, Some e)
          end
      end
  end.

(** The rounds that are left. *)
Fixpoint runLoop (prefix : list LlmMessage) (left : nat) (round : Z) (s : TurnState) : TurnState * Exit :=
  match left with
  | O => (s, EBreak)
  | S left' =>
      match runRound prefix round s with
      | (s', Some e) => (s', e)
      | (s', None) => runLoop prefix left' (round + 1) s'
      end
  end.

(** After the loop: the partial answer. *)
Definition exhaustedReply (s : TurnState) : TurnState * LlmAgentReply :=
  let s' := record (Degraded "tool_round_exhausted" "partial_answer") s in
  let safety := evaluationOf (buildExhaustionPartialAnswer (grounded s)) None s in
  (s', mkReply (s_replyText safety) false true (buildToolSummary (toolsCalled s) (observations s))).

(** [runRounds]: the events, and the reply unless it throws. *)
Definition runRounds : list TurnEvent * option LlmAgentReply :=
  match checkEarlyReturns with
  | Some (r, events) =>
      (events ++ (if isConfigured then [] else [Degraded "provider_unconfigured" "chat_fallback"]), Some r)
  | None =>
      let '(context, injections) := build limits input in
      let events := (λ i, InjectionRecorded "history" i.1) <$> injections in
      if negb (fits context)
      then (events ++ [Degraded "invalid_output" "chat_fallback"], Some (canned (buildFallbackReply (userText input))))
      else
        let prefix := messages context in
        match runLoop prefix (Z.to_nat (maxToolRounds limits)) 0 (turn0 events) with
        | (s, EThrow) => (log s, None)
        | (s, EReply r) => (log s, Some r)
        | (s, EBreak) => let '(s', r) := exhaustedReply s in (log s', Some r)
        end
  end.
End Turn.

(** ** Clearing disclosures *)

(** The clearing asks the turn's map where it means to ask the round's, so it
    never removes anything. *)
Lemma clearDisclosures_noop successful m : clearDisclosures successful m = m.
Proof.
  unfold clearDisclosures. revert m. induction successful as [|n successful IH]; intros m; [done|].
  cbn [foldl]. destruct (existsb (λ kd, isPrefix (n ++ [58]) kd.1) m) eqn:E; [apply IH|].
  assert (∀ kd, kd ∈ m → isPrefix (n ++ [58]) kd.1 = false) as Hn.
  { intros kd Hin. destruct (isPrefix (n ++ [58]) kd.1) eqn:Ep; [|done]. rewrite <-E. symmetry.
    apply existsb_exists. exists kd. split; [by apply list_elem_of_In|done]. }
  match goal with |- context[existsb ?f m] => destruct (existsb f m); [apply IH|] end. rewrite filter_all by done. apply IH.
Qed.

(** Every bounded result of a round leaves a disclosure, capped if it was. *)
Definition remembers (m : disclosureMap) (k : jsstring) (d : BoundedToolDisclosure) : Prop :=
  ∃ d', jm_get k m = Some d' ∧ (capped d = true → capped d' = true).

Lemma merge_remembers m k d :
  remembers (jm_set k (mergeBoundedToolDisclosures (jm_get k m) d) m) k d.
Proof.
  unfold remembers. rewrite jm_get_set, decide_True by done. eexists. split; [done|].
  intros Hc. rewrite merge_capped, Hc. destruct (jm_get k m); [apply orb_true_r|done].
Qed.

Lemma merge_keeps m k d k' d' :
  remembers m k' d' → remembers (jm_set k (mergeBoundedToolDisclosures (jm_get k m) d) m) k' d'.
Proof.
  intros (d0 & Hg & Hc). unfold remembers. rewrite jm_get_set. destruct (decide (k' = k)) as [->|]; [|by exists d0].
  eexists. split; [done|]. rewrite Hg. intros Hd. rewrite merge_capped. by rewrite Hc.
Qed.

Lemma mergeDisclosures_remembers round turn k d :
  remembers turn k d ∨ (k, d) ∈ round → remembers (mergeDisclosures round turn) k d.
Proof.
  unfold mergeDisclosures. revert turn. induction round as [|[k' d'] round IH]; intros turn; cbn [foldl fst snd].
  - by intros [?|?%not_elem_of_nil].
  - intros [Hr|[[= <- <-]|Hin]%elem_of_cons]; apply IH; [left; by apply merge_keeps|left; apply merge_remembers|by right].
Qed.

(** ** The log of a turn *)

Definition requestsOf (l : list TurnEvent) : list Z :=
  omap (λ e, match e with Requested r _ => Some r | _ => None end) l.

Definition usageOf (l : list TurnEvent) : list Z :=
  omap (λ e, match e with Usage r _ => Some r | _ => None end) l.

(** The calls that reached the tools. *)
Definition executionsOf (l : list TurnEvent) : Z :=
  sum_by (λ e, match e with ToolsRan _ _ run => Z.of_nat (length (starts (events run))) | _ => 0 end) l.

Lemma requestsOf_app l l' : requestsOf (l ++ l') = requestsOf l ++ requestsOf l'.
Proof. apply omap_app. Qed.

Lemma usageOf_app l l' : usageOf (l ++ l') = usageOf l ++ usageOf l'.
Proof. apply omap_app. Qed.

Lemma executionsOf_app l l' : executionsOf (l ++ l') = executionsOf l + executionsOf l'.
Proof. apply sum_by_app. Qed.

Section Invariant.
Context `{Zod} `{TextScan} `{ReplyGuards}.
Variable parseBounded : ToolObservation.raw → option BoundedToolResultMetadata.
Variable buildToolSummary : list jsstring → list ToolSummaryObservation → option jsstring.
Variable limits : AgentLimits.
Variable input : LlmAgentInput.
Variable provider : Z → list LlmMessage → ProviderAnswer.
Variable tools : Z → ToolCall → CallEnv.
Variable order : Z → list ToolCall → list ToolCall.
Hypothesis order_perm : ∀ r l, order r l ≡ₚ l.
(** A response is an assistant's message. *)
Hypothesis provider_role : ∀ r ms m c, provider r ms = Response m c → m_role m = RAssistant.

Variable prefix : list LlmMessage.
Hypothesis prefix_fits : fitsBudget limits prefix = true.

(** A request is the first one and a segment that pairs calls with answers and
    fitted before its old observations were replaced by their notices. *)
Definition eventOk (e : TurnEvent) : Prop :=
  match e with
  | Requested r ms => ∃ l, paired l ∧ fitsBudget limits (requestOf prefix l) = true
                           ∧ ms = requestOf prefix (downgradeStaleObservations limits r l)
  | ToolsRan _ unique run => unique ≤ maxToolCallsPerRound limits
  | _ => True
  end.

Record logOk (l : list TurnEvent) : Prop := {
  log_events : Forall eventOk l;
  log_usage : usageOf l = requestsOf l;
  log_executions : executionsOf l ≤ maxToolExecutionsPerTurn limits
}.

(** Every bounded result of the log is in the turn's disclosures. *)
Definition allRemembered (l : list TurnEvent) (m : disclosureMap) : Prop :=
  ∀ r u run k d, ToolsRan r u run ∈ l → (k, d) ∈ disclosures run → remembers m k d.

(** Every grounded tool succeeded in a round of the log. *)
Definition allGrounded (l : list TurnEvent) (names : list jsstring) : Prop :=
  ∀ n, n ∈ names → isAgentToolName n = true
    ∧ ∃ r u run c o, ToolsRan r u run ∈ l ∧ c_name c = n ∧ jm_get (keyOf c) (resultsByKey run) = Some (o, true).

Definition told (s : TurnState) : Prop :=
  allRemembered (log s) (turnDisclosures s) ∧ allGrounded (log s) (grounded s).

(** The text answers a request of the log, without tool calls. *)
Definition answered (l : list TurnEvent) (t : jsstring) : Prop :=
  ∃ r ms m, Requested r ms ∈ l ∧ provider r ms = Response m (Some t)
            ∧ (m_toolCalls m = None ∨ m_toolCalls m = Some []).

Record turnOk (s : TurnState) : Prop := {
  turn_paired : paired (loop s);
  turn_log : logOk (log s);
  turn_executions : toolExecutions s = executionsOf (log s);
  turn_told : told s
}.

Lemma allGrounded_mono l l' names : l ⊆ l' → allGrounded l names → allGrounded l' names.
Proof.
  intros Hl Hg n Hn. destruct (Hg n Hn) as (Ha & r & u & run & c & o & Hin & Hc). split; [done|].
  exists r, u, run, c, o. split; [by apply Hl|done].
Qed.

Lemma setAdd_elem names n x : x ∈ setAdd names n → x ∈ names ∨ x = n.
Proof. unfold setAdd. case_bool_decide; [by left|]. intros [?| ->%list_elem_of_singleton]%elem_of_app; auto. Qed.

Lemma addAll_elem names ns x : x ∈ foldl setAdd names ns → x ∈ names ∨ x ∈ ns.
Proof.
  revert names. induction ns as [|n ns IH]; intros names; cbn [foldl]; [by left|].
  intros [[?| ->]%setAdd_elem|?]%IH; [by left|right; left|right; by right].
Qed.

(** Events that are neither a request, its usage nor a round of tools. *)
Definition isNote (e : TurnEvent) : Prop :=
  match e with Degraded _ _ | DegradedByError | InjectionRecorded _ _ => True | _ => False end.

Lemma notes_log l : Forall isNote l → requestsOf l = [] ∧ usageOf l = [] ∧ executionsOf l = 0 ∧ Forall eventOk l.
Proof.
  induction 1 as [|e l He _ (IH1 & IH2 & IH3 & IH4)]; [by repeat constructor|].
  unfold executionsOf in *. destruct e; try done; cbn [requestsOf usageOf omap list_omap sum_by];
    (split_and!; [exact IH1|exact IH2|lia|by constructor]).
Qed.

Lemma logOk_notes l ns : logOk l → Forall isNote ns → logOk (l ++ ns).
Proof.
  intros [He Hu Hx] Hns. destruct (notes_log ns Hns) as (E1 & E2 & E3 & E4).
  split; [by apply Forall_app|by rewrite usageOf_app, requestsOf_app, E1, E2, !app_nil_r|
    rewrite executionsOf_app; lia].
Qed.

Lemma remembered_notes l ns m : allRemembered l m → Forall isNote ns → allRemembered (l ++ ns) m.
Proof.
  intros Hr Hns r u run k d [Hin|Hin]%elem_of_app; [by eapply Hr|].
  rewrite Forall_forall in Hns. by apply Hns in Hin.
Qed.

(** The log of a state that went on with some notes. *)
Lemma record_notes s e : log (record e s) = log s ++ [e].
Proof. done. Qed.

Lemma reported_log (xs : list (ToolObservation.Injection * jsstring)) s :
  let s' := foldl (λ s i, record (InjectionRecorded "tool_result" (ToolObservation.i_reason i.1)) s) s xs in
  ∃ ns, log s' = log s ++ ns ∧ Forall isNote ns ∧ loop s' = loop s ∧ toolExecutions s' = toolExecutions s
        ∧ turnDisclosures s' = turnDisclosures s ∧ grounded s' = grounded s.
Proof.
  cbv zeta. revert s. induction xs as [|x xs IH]; intros s; cbn [foldl].
  - exists []. split_and!; [by rewrite app_nil_r|constructor|done..].
  - destruct (IH (record (InjectionRecorded "tool_result" (ToolObservation.i_reason x.1)) s)) as (ns & E & Hn & E1 & E2 & E3 & E4).
    exists (InjectionRecorded "tool_result" (ToolObservation.i_reason x.1) :: ns).
    split_and!; [by rewrite E, record_notes, <-app_assoc|by constructor|done..].
Qed.

Lemma toolMessages_answer round calls rs :
  r_toolCallId <$> rs = c_id <$> calls → answers calls (toolMessages round rs).
Proof.
  intros E. unfold toolMessages. split.
  - rewrite <-list_fmap_compose. rewrite (list_fmap_compose c_id Some), <-E, <-list_fmap_compose. done.
  - apply Forall_fmap, Forall_true. by intros r.
Qed.

(** How a round of the loop ends: with the state of the reply if there is one. *)
Definition exitOk (s : TurnState) (e : Exit) : Prop :=
  logOk (log s)
  ∧ match e with
    | EThrow => True
    | EBreak => told s
    | EReply r => told s
        ∧ (text r ∈ blockedTexts ++ [buildToolCallCapMessage]
           ∨ ∃ i, e_disclosures i = turnDisclosures s ∧ e_groundedTools i = grounded s ∧ e_userText i = userText input
                  ∧ e_promptCanary i = canaryOf input ∧ exhausted r = false ∧ answered (log s) (e_text i)
                  ∧ checkedReply i (text r))
    end.

Notation toolRound := (toolRound parseBounded limits input tools order).
Notation runRound := (runRound parseBounded buildToolSummary limits input provider tools order).
Notation runLoop := (runLoop parseBounded buildToolSummary limits input provider tools order).

Lemma refusal_cases calls s :
  match roundRefusal limits calls s with
  | None => countUniqueToolCalls calls ≤ maxToolCallsPerRound limits
            ∧ toolExecutions s < maxToolExecutionsPerTurn limits
  | Some (s', e) => ∃ f a, s' = record (Degraded f a) s ∧ (e = EBreak ∨ e = EReply (canned buildToolCallCapMessage))
  end.
Proof.
  unfold roundRefusal. destruct (Z.ltb_spec (maxToolCallsPerRound limits) (countUniqueToolCalls calls)); [eauto|].
  destruct (bool_decide _ && _); [eauto|]. destruct (existsb _ _); [eauto|].
  destruct (Z.leb_spec (maxToolExecutionsPerTurn limits - toolExecutions s) 0); [eauto|lia].
Qed.

(** What one round leaves behind, whichever way it ends. *)
Definition stepOk (s : TurnState) (new : list Z) (res : TurnState * option Exit) : Prop :=
  requestsOf (log res.1) = requestsOf (log s) ++ new
  ∧ match res.2 with
    | None => turnOk res.1 ∧ fitsBudget limits (requestOf prefix (loop res.1)) = true
    | Some e => exitOk res.1 e
    end.

Lemma exit_notes s s' ns :
  turnOk s → log s' = log s ++ ns → turnDisclosures s' = turnDisclosures s → grounded s' = grounded s → Forall isNote ns →
  logOk (log s') ∧ told s' ∧ requestsOf (log s') = requestsOf (log s).
Proof.
  intros [_ Hl _ [Hr Hg]] El Ed Eg Hn. unfold told. rewrite El, Ed, Eg.
  split_and!; [by apply logOk_notes|by apply remembered_notes|eapply allGrounded_mono; [|done]; set_solver|].
  destruct (notes_log ns Hn) as (E & _). by rewrite requestsOf_app, E, app_nil_r.
Qed.

Lemma ran_log l r u run :
  logOk l → u ≤ maxToolCallsPerRound limits →
  executionsOf l + Z.of_nat (length (starts (events run))) ≤ maxToolExecutionsPerTurn limits →
  logOk (l ++ [ToolsRan r u run]).
Proof.
  intros [He Hu Hx] Hcap Hmax. split.
  - apply Forall_app. split; [done|by constructor].
  - by rewrite usageOf_app, requestsOf_app, Hu.
  - rewrite executionsOf_app. unfold executionsOf at 2. cbn [sum_by]. lia.
Qed.

Lemma toolRound_spec round m calls s :
  turnOk s → m_role m = RAssistant → m_toolCalls m = Some calls → calls ≠ [] →
  stepOk s [] (toolRound prefix round m calls s).
Proof.
  intros Hs Hrole Hcalls Hne. unfold AgentLoop.toolRound. pose proof (refusal_cases calls s) as Hr.
  destruct (roundRefusal limits calls s) as [[s' e]|].
  { destruct Hr as (f & a & -> & He).
    destruct (exit_notes s (record (Degraded f a) s) [Degraded f a]) as (A & B & C); [done..|by repeat constructor|].
    split; [by rewrite app_nil_r|]. split; [done|]. destruct He as [->| ->]; [done|]. split; [done|].
    left. apply elem_of_app. right. left. }
  destruct Hr as [Hcap Hmax]. destruct Hs as [Hp Hl Hx [Hrem Hgr]].
  set (budget := observationBudget _ _).
  pose proof (execute_spec parseBounded (externalUserId input) (tools round)
    (maxToolExecutionsPerTurn limits - toolExecutions s) (order round) (order_perm round) calls budget ltac:(lia)) as He.
  destruct (execute _ _ _ _ _ _ _) as [run x]. destruct He as (Ec & Em & He).
  set (s1 := record (ToolsRan round (countUniqueToolCalls calls) run) s).
  assert (logOk (log s1)) as Hl1 by (apply ran_log; [done|done|lia]).
  assert (requestsOf (log s1) = requestsOf (log s)) as Hq1 by (unfold s1; by rewrite record_notes, requestsOf_app, app_nil_r).
  assert (executionsOf (log s1) = executionsOf (log s) + executedCount run) as Hx1.
  { unfold s1. rewrite record_notes, executionsOf_app. unfold executionsOf at 2. cbn [sum_by]. lia. }
  destruct x as [x|].
  - destruct (He x eq_refl) as (Eids & Ecount & Edis & Enames).
    destruct (reported_log (injections x) s1) as (ns & El & Hns & E1 & E2 & E3 & E4).
    set (sr := foldl _ s1 (injections x)) in *.
    set (s2 := afterTools round m calls (buildToolCallSignature calls) x sr).
    assert (paired (loop s2)) as Hp2.
    { unfold s2, afterTools. cbn [loop]. rewrite E1. apply paired_app; [done|].
      rewrite <-(app_nil_r (toolMessages round (results x))).
      eapply paired_round; [done|exact Hcalls|done|by apply toolMessages_answer|constructor]. }
    pose proof (trim_fits limits prefix (loop s2) prefix_fits Hp2) as Ht.
    destruct (trimLoopMessages limits prefix (loop s2)) as [[loop' dropped] ok]. destruct Ht as (-> & Hp3 & Hf3).
    split; cbn [fst snd].
    + change (requestsOf (log sr) = requestsOf (log s) ++ []).
      destruct (notes_log ns Hns) as (En & _). by rewrite El, requestsOf_app, En, Hq1.
    + split; [|exact Hf3]. split; cbn [setLoop loop log turnDisclosures toolExecutions].
      * done.
      * change (logOk (log sr)). rewrite El. by apply logOk_notes.
      * change (toolExecutions sr + x_executedCount x = executionsOf (log sr)).
        destruct (notes_log ns Hns) as (_ & _ & En & _).
        rewrite El, executionsOf_app, En, E2, Hx1, Ecount. change (toolExecutions s1) with (toolExecutions s). lia.
      * split; cbn [setLoop log grounded turnDisclosures].
        2: { change (allGrounded (log sr) (foldl setAdd (grounded sr) (successfulToolNames x))).
          assert (log s ⊆ log sr) as Hsub by (rewrite El; unfold s1; rewrite record_notes; set_solver).
          intros n [Hn|Hn]%addAll_elem; [rewrite E4 in Hn; by apply (allGrounded_mono _ _ _ Hsub Hgr)|].
          destruct (Enames n Hn) as (Ha & c & o & Hc & Ho). split; [done|].
          exists round, (countUniqueToolCalls calls), run, c, o. split; [|done]. rewrite El. unfold s1.
          rewrite record_notes. set_solver. }
        change (allRemembered (log sr) (clearDisclosures (successfulToolNames x)
          (mergeDisclosures (boundedToolDisclosures x) (turnDisclosures sr)))).
        rewrite clearDisclosures_noop, El, E3. apply remembered_notes; [|done].
        intros r u run' k d Hin Hd. apply mergeDisclosures_remembers.
        apply elem_of_app in Hin as [Hin|[= -> -> ->]%list_elem_of_singleton]; [left; by eapply Hrem|].
        right. by rewrite Edis.
  - split; cbn [fst snd].
    + rewrite record_notes, requestsOf_app, Hq1. done.
    + split; [|done]. rewrite record_notes. by apply logOk_notes; [|repeat constructor].
Qed.

Lemma directReply_spec t s :
  turnOk s → answered (log s) t → stepOk s [] (let '(s', e) := directReply buildToolSummary input t s in (s', Some e)).
Proof.
  intros Hs Hans. unfold directReply. set (i := mkEvaluation t (userText input) (toolsCalled s) (grounded s)
    (turnDisclosures s) (canaryOf input) true).
  change (evaluationOf input t (canaryOf input) s) with (evaluate i).
  pose proof (evaluate_checked i eq_refl) as Hi.
  assert (∃ ns, log (match s_outcome (evaluate i) with
      | SafetyAllowed => s
      | GroundingBlocked => record (Degraded "grounding_blocked" "block_response") s
      | FinalBlocked => record (Degraded "safety_blocked" "block_response") s end) = log s ++ ns ∧ Forall isNote ns)
    as (ns & El & Hns).
  { destruct (s_outcome (evaluate i)); [exists []; by rewrite app_nil_r|eexists; split; [done|by repeat constructor]..]. }
  set (s' := match s_outcome _ with SafetyAllowed => s | _ => _ end) in *.
  assert (turnDisclosures s' = turnDisclosures s) as Ed by (unfold s'; by destruct (s_outcome (evaluate i))).
  assert (grounded s' = grounded s) as Eg by (unfold s'; by destruct (s_outcome (evaluate i))).
  destruct (exit_notes s s' ns) as (A & B & C); [done..|].
  split; [cbn [fst]; by rewrite app_nil_r|]. cbn [snd fst]. split; [done|]. split; [done|]. cbn [text].
  destruct Hi as [Hi|Hi]; [left; apply elem_of_app; by left|right]. exists i. rewrite Ed, Eg.
  split_and!; try done. destruct Hans as (r & ms & m & Hin & Hm). exists r, ms, m. split; [|done].
  rewrite El. apply elem_of_app. by left.
Qed.

Lemma runRound_spec round s :
  turnOk s → fitsBudget limits (requestOf prefix (loop s)) = true →
  stepOk s [round] (runRound prefix round s).
Proof.
  intros [Hp [He Hu Hxm] Hx [Hrem Hgr]] Hf. unfold AgentLoop.runRound.
  set (sa := setLoop (downgradeStaleObservations limits round (loop s)) s).
  set (ms := requestOf prefix (loop sa)). set (s1 := record (Requested round ms) sa).
  assert (paired (loop sa)) as Hpa by (by apply downgrade_paired).
  assert (eventOk (Requested round ms)) as Hreq by (by exists (loop s)).
  assert (∀ ok, logOk (log s ++ [Requested round ms; Usage round ok])) as Hlog.
  { intros ok. split.
    - apply Forall_app. split; [done|by repeat constructor].
    - by rewrite usageOf_app, requestsOf_app, Hu.
    - rewrite executionsOf_app. unfold executionsOf at 2. cbn [sum_by]. lia. }
  assert (∀ ok, log (record (Usage round ok) s1) = log s ++ [Requested round ms; Usage round ok]) as Elog.
  { intros ok. unfold s1. rewrite !record_notes. change (log sa) with (log s). by rewrite <-app_assoc. }
  assert (∀ s' new res, stepOk s' new res → requestsOf (log s') = requestsOf (log s) ++ [round] →
          stepOk s ([round] ++ new) res) as Hstep.
  { intros s' new res [H1' H2'] E. split; [by rewrite H1', E, <-app_assoc|done]. }
  assert (∀ ok, turnOk (record (Usage round ok) s1)) as Hs2.
  { intros ok. split; [done|by rewrite Elog| |].
    - change (toolExecutions s = executionsOf (log (record (Usage round ok) s1))).
      rewrite Elog, executionsOf_app, Hx. unfold executionsOf at 3. cbn [sum_by]. lia.
    - split; [|rewrite Elog; eapply allGrounded_mono; [|exact Hgr]; set_solver].
      rewrite Elog. intros r u run k d [Hin|Hin]%elem_of_app Hd; [by eapply Hrem|].
      by repeat (apply elem_of_cons in Hin as [Hin|Hin]; [done|]); apply not_elem_of_nil in Hin. }
  assert (∀ ok, requestsOf (log (record (Usage round ok) s1)) = requestsOf (log s) ++ [round]) as Ereq.
  { intros ok. by rewrite Elog, requestsOf_app. }
  assert (∀ ok, stepOk s [round] (record DegradedByError (record (Usage round ok) s1), Some EThrow)) as Hthrow.
  { intros ok. split; cbn [fst snd].
    - rewrite record_notes, requestsOf_app, Ereq. apply app_nil_r.
    - split; [|done]. rewrite record_notes. apply logOk_notes; [apply Hs2|by repeat constructor]. }
  destruct (provider round ms) as [m c|] eqn:Ep; [|apply Hthrow].
  assert (∀ t, c = Some t → (m_toolCalls m = None ∨ m_toolCalls m = Some []) →
               stepOk s [round] (let '(s3, e) := directReply buildToolSummary input t (record (Usage round true) s1) in
                                 (s3, Some e))) as Hdirect.
  { intros t -> Hnone. refine (Hstep (record (Usage round true) s1) [] _ (directReply_spec t _ (Hs2 true) _) (Ereq true)).
    exists round, ms, m. split; [|done]. rewrite Elog. set_solver. }
  destruct (m_toolCalls m) as [[|tc calls]|] eqn:Ec.
  - destruct c as [[|x t]|]; [apply Hthrow|apply Hdirect; auto|apply Hthrow].
  - apply (Hstep (record (Usage round true) s1) []); [|apply Ereq].
    apply toolRound_spec; [apply Hs2|by eapply provider_role|done|done].
  - destruct c as [[|x t]|]; [apply Hthrow|apply Hdirect; auto|apply Hthrow].
Qed.

Lemma runLoop_spec left round s :
  turnOk s → fitsBudget limits (requestOf prefix (loop s)) = true →
  let '(s', e) := runLoop prefix left round s in
  exitOk s' e ∧ ∃ new, requestsOf (log s') = requestsOf (log s) ++ new ∧ (length new ≤ left)%nat.
Proof.
  revert round s. induction left as [|left IH]; intros round s Hs Hf; cbn [AgentLoop.runLoop].
  { split; [|exists []; rewrite app_nil_r; by split]. destruct Hs. by split. }
  pose proof (runRound_spec round s Hs Hf) as [Hreq Hres].
  destruct (runRound prefix round s) as [s' [e|]]; cbn [fst snd] in *.
  - split; [done|]. exists [round]. split; [done|]. simpl. lia.
  - destruct Hres as [Hs' Hf']. specialize (IH (round + 1) s' Hs' Hf').
    destruct (runLoop prefix left (round + 1) s') as [s'' e]. destruct IH as (He & new & En & Hlen).
    split; [done|]. exists ([round] ++ new). rewrite En, Hreq, <-app_assoc. split; [done|]. simpl in *. lia.
Qed.
End Invariant.

(** ** The turn *)

(** The texts of the code's own. *)
Definition fixedTexts : list jsstring :=
  (blockedTexts ++ [buildToolCallCapMessage])
  ++ [buildPromptInjectionBlockedMessage; buildWispaceScopeRedirectMessage; maintenanceText;
      buildStopAcknowledgedMessage; buildClarificationMessage].

Section TurnTheorems.
Context `{Zod} `{TextScan} `{ReplyGuards}.
Variable parseBounded : ToolObservation.raw → option BoundedToolResultMetadata.
Variable buildToolSummary : list jsstring → list ToolSummaryObservation → option jsstring.
Variable config : LlmAgentConfig.
Variable input : LlmAgentInput.
Variable provider : Z → list LlmMessage → ProviderAnswer.
Variable tools : Z → ToolCall → CallEnv.
Variable order : Z → list ToolCall → list ToolCall.
Variable isConfigured : bool.
Hypothesis order_perm : ∀ r l, order r l ≡ₚ l.
Hypothesis provider_role : ∀ r ms m c, provider r ms = Response m c → m_role m = RAssistant.

Notation limits := (limitsOf config).
Notation runRounds := (runRounds parseBounded buildToolSummary limits input provider tools order isConfigured).
Notation firstRequest := (messages (build limits input).1).

Lemma fallback_text t : buildFallbackReply t ∈ fixedTexts.
Proof.
  apply elem_of_app. right. unfold buildFallbackReply.
  destruct (bool_decide (js_trim t = []) || isObviouslyOffTopic (js_trim t)); [right; left|right; right; left].
Qed.

Lemma early_texts r l :
  checkEarlyReturns input isConfigured = Some (r, l) → text r ∈ fixedTexts ∧ Forall isNote l.
Proof.
  assert (∀ t, t ∈ [buildPromptInjectionBlockedMessage; buildWispaceScopeRedirectMessage; maintenanceText;
      buildStopAcknowledgedMessage; buildClarificationMessage] → t ∈ fixedTexts) as Hin
    by (intros t Ht; apply elem_of_app; by right).
  assert (NON_DISCLOSURE_REPLY ∈ fixedTexts) as Hnd by (apply elem_of_app; left; apply elem_of_app; left; left).
  assert (∀ reason skip, text (injectionReply reason skip) ∈ fixedTexts) as Hinj.
  { intros reason skip. unfold injectionReply. cbn [text]. case_bool_decide; [exact Hnd|apply Hin; left]. }
  unfold checkEarlyReturns. destruct isConfigured; cbn [negb].
  2: { intros [= <- <-]. split; [apply fallback_text|constructor]. }
  destruct (detectPromptInjection _) as [reason|].
  { intros [= <- <-]. split; [apply Hinj|by repeat constructor]. }
  destruct (detectPromptInjectionAcrossTurns _ _ _ _) as [reason|].
  { intros [= <- <-]. split; [apply Hinj|by repeat constructor]. }
  destruct (detectDisclosureProbe _); [intros [= <- <-]; split; [exact Hnd|constructor]|].
  destruct (isObviouslyOffTopic _); [intros [= <- <-]; split; [apply Hin; right; left|constructor]|].
  destruct (isStopIntent _); [intros [= <- <-]; split; [apply Hin; do 3 right; left|constructor]|].
  destruct (isAmbiguousMessage _); [intros [= <- <-]; split; [apply Hin; do 4 right; left|constructor]|done].
Qed.

(** The reply of the turn, against the results the tools returned. *)
Definition replyOk (l : list TurnEvent) (r : LlmAgentReply) : Prop :=
  text r ∈ fixedTexts
  ∨ ∃ i, checkedReply i (text r) ∧ allRemembered l (e_disclosures i) ∧ allGrounded l (e_groundedTools i)
         ∧ e_userText i = userText input
         ∧ (exhausted r = false ∧ e_promptCanary i = canaryOf input ∧ answered provider l (e_text i)
            ∨ exhausted r = true ∧ e_promptCanary i = None ∧ e_text i = buildExhaustionPartialAnswer (e_groundedTools i)).

Lemma notes_only p l : Forall isNote l → logOk limits p l ∧ requestsOf l = [].
Proof.
  intros Hn. destruct (notes_log limits p l Hn) as (E1 & E2 & E3 & E4). split; [|done].
  split; [done|by rewrite E1, E2|]. rewrite E3. pose proof (positive_ok (c_maxToolExecutionsPerTurn config) 8). simpl. lia.
Qed.

Lemma runRounds_spec :
  let '(l, x) := runRounds in
  logOk limits firstRequest l ∧ Z.of_nat (length (requestsOf l)) ≤ maxToolRounds limits
  ∧ ∀ r, x = Some r → replyOk l r.
Proof.
  pose proof (positive_ok (c_maxToolRounds config) 6 ltac:(lia)) as Hrounds.
  assert (∀ l r, Forall isNote l → text r ∈ fixedTexts →
    logOk limits firstRequest l ∧ Z.of_nat (length (requestsOf l)) ≤ maxToolRounds limits
    ∧ ∀ r', Some r = Some r' → replyOk l r') as Hfixed.
  { intros l r Hn Ht. destruct (notes_only firstRequest l Hn) as [Hl E]. split_and!; [done|rewrite E; simpl; lia|].
    intros r' [= <-]. by left. }
  unfold AgentLoop.runRounds. destruct (checkEarlyReturns input isConfigured) as [[r l]|] eqn:Ee.
  { apply early_texts in Ee as [Ht Hn]. apply Hfixed; [|done]. apply Forall_app. split; [done|].
    destruct isConfigured; by repeat constructor. }
  pose proof (build_fits limits input) as Hb. destruct (build limits input) as [context injections]. cbn [fst] in *.
  set (notes := (λ i, InjectionRecorded "history" i.1) <$> injections).
  assert (Forall isNote notes) as Hnotes by (by apply Forall_fmap, Forall_true).
  destruct (fits context) eqn:Ef; cbn [negb].
  2: { apply Hfixed; [apply Forall_app; split; [done|by repeat constructor]|apply fallback_text]. }
  destruct (Hb eq_refl) as [Hfits _]. destruct (notes_only (messages context) notes Hnotes) as [Hl0 E0].
  assert (turnOk limits (messages context) (turn0 notes)) as Ht0.
  { destruct (notes_log limits (messages context) notes Hnotes) as (_ & _ & E & _).
    split; [apply paired_nil|exact Hl0|symmetry; exact E|]. split; [|by intros n ?%not_elem_of_nil].
    intros r u run k d Hin. rewrite Forall_forall in Hnotes. by apply Hnotes in Hin. }
  pose proof (runLoop_spec parseBounded buildToolSummary limits input provider tools order order_perm provider_role
    (messages context) Hfits (Z.to_nat (maxToolRounds limits)) 0 (turn0 notes) Ht0) as Hloop.
  unfold requestOf at 1 in Hloop. rewrite app_nil_r in Hloop. specialize (Hloop Hfits).
  destruct (runLoop _ _ _ _ _ _ _ _ _ _ _) as [s e]. destruct Hloop as [[Hl He] (new & En & Hlen)].
  cbn [turn0 log] in En. rewrite E0 in En. cbn [app] in En.
  assert (Z.of_nat (length (requestsOf (log s))) ≤ maxToolRounds limits) as Hbound.
  { rewrite En. simpl in *. lia. }
  destruct e as [r| |].
  - destruct He as [[Hrem Hgr] He]. split_and!; [done|done|]. intros r' [= <-].
    destruct He as [He|(i & Ei & Eg & Eu & Ec & Ex & Ha & Hi)]; [left; apply elem_of_app; by left|right].
    exists i. rewrite Ei, Eg. split_and!; [done..|by left].
  - destruct He as [Hrem Hgr]. unfold exhaustedReply. cbv zeta. rewrite record_notes. split_and!.
    + apply logOk_notes; [done|by repeat constructor].
    + rewrite requestsOf_app, app_nil_r. done.
    + intros r' [= <-]. set (i := mkEvaluation (buildExhaustionPartialAnswer (grounded s)) (userText input) (toolsCalled s)
        (grounded s) (turnDisclosures s) None true).
      change (evaluationOf input (buildExhaustionPartialAnswer (grounded s)) None s) with (evaluate i).
      destruct (evaluate_checked i eq_refl) as [Hi|Hi].
      * left. apply elem_of_app. left. apply elem_of_app. by left.
      * right. exists i. split_and!; [done|apply remembered_notes; [done|by repeat constructor]| |done|].
        -- eapply allGrounded_mono; [|exact Hgr]. set_solver.
        -- right. by split_and!.
  - by split_and!.
Qed.

(** C19. Whatever the provider and the tools answer and whatever is configured, a
    turn ends: it asks the provider at most [maxToolRounds] times and records the
    usage of every request exactly once, runs at most [maxToolExecutionsPerTurn]
    tools, and in no round more distinct calls than [maxToolCallsPerRound]. *)
Theorem agent_turn_bounded :
  let '(l, _) := runRounds in
  Z.of_nat (length (requestsOf l)) ≤ maxToolRounds limits
  ∧ usageOf l = requestsOf l
  ∧ executionsOf l ≤ maxToolExecutionsPerTurn limits
  ∧ ∀ round unique run, ToolsRan round unique run ∈ l → unique ≤ maxToolCallsPerRound limits.
Proof.
  pose proof runRounds_spec as Hr. destruct runRounds as [l x]. destruct Hr as ([He Hu Hx] & Hb & _).
  split_and!; [done..|]. intros round unique run Hin. rewrite Forall_forall in He. by apply He in Hin.
Qed.

(** C20. Every request is the first request followed by messages in which each
    assistant message with tool calls is answered by one tool message per call, in
    order; before the old observations were replaced by their notices it was
    within the token budget. *)
Theorem agent_requests_paired round ms :
  Requested round ms ∈ runRounds.1 →
  ∃ seg, paired seg ∧ paired (downgradeStaleObservations limits round seg)
    ∧ estimateContextTokens (firstRequest ++ seg.*1) ≤ inputTokenBudget limits
    ∧ ms = firstRequest ++ (downgradeStaleObservations limits round seg).*1.
Proof.
  intros Hin. pose proof runRounds_spec as Hr. destruct runRounds as [l x]. destruct Hr as ([He _ _] & _ & _).
  cbn [fst] in Hin. rewrite Forall_forall in He. destruct (He _ Hin) as (seg & Hp & Hf & ->).
  exists seg. split_and!; [done|by apply downgrade_paired|by apply Z.leb_le|done].
Qed.

(** C18. The reply of a turn is one of the code's own texts, or the Markdown-free form
    of a text that the pipeline let pass.  What was evaluated is this turn: the
    learner's text; as tools that ground it, only known tools of which a call
    succeeded in a round of the turn; every bounded result that a round returned, as
    capped if it was; and either the provider's answer to a request of the turn, with
    the canary of its prompt, or, when the turn was exhausted, the partial answer that
    names those tools.  The text was free of the canary, and it, or the text that the
    grounding check put in its place, was grounded and, with its notes on bounded
    results, passed the final output check. *)
Theorem agent_reply_checked r :
  runRounds.2 = Some r →
  text r ∈ fixedTexts
  ∨ ∃ i, checkedReply i (text r)
      ∧ e_userText i = userText input
      ∧ (∀ n, n ∈ e_groundedTools i → isAgentToolName n = true
           ∧ ∃ round unique run c o, ToolsRan round unique run ∈ runRounds.1 ∧ c_name c = n
               ∧ jm_get (keyOf c) (resultsByKey run) = Some (o, true))
      ∧ (∀ round unique run k d, ToolsRan round unique run ∈ runRounds.1 → (k, d) ∈ disclosures run →
           ∃ d', jm_get k (e_disclosures i) = Some d' ∧ (capped d = true → capped d' = true))
      ∧ (exhausted r = false ∧ e_promptCanary i = canaryOf input
           ∧ (∃ round ms m, Requested round ms ∈ runRounds.1 ∧ provider round ms = Response m (Some (e_text i))
                            ∧ (m_toolCalls m = None ∨ m_toolCalls m = Some []))
         ∨ exhausted r = true ∧ e_promptCanary i = None ∧ e_text i = buildExhaustionPartialAnswer (e_groundedTools i)).
Proof.
  intros Hx. pose proof runRounds_spec as Hr. destruct runRounds as [l x]. destruct Hr as (_ & _ & Hok).
  cbn [fst snd] in *. destruct (Hok r Hx) as [Ht|(i & Hi & Hrem & Hgr & Hu & Hc)]; [by left|right].
  exists i. split_and!; [done|done|exact Hgr| |exact Hc]. intros. by eapply Hrem.
Qed.
End TurnTheorems.

(** ** Instances *)

(** Guards that let everything pass. *)
Definition quietGuards : ReplyGuards :=
  {| sanitizeReplyText := λ t, t; checkLlmGrounding := λ _ _ _ _, mkGrounding false None None;
     checkFinalOutputSafety := λ _, mkVerdict false None; checkPromptCanarySafety := λ _ _, mkVerdict false None;
     hasBoundedDisclosure := λ _ _ _, false; isObviouslyOffTopic := λ _, false; isStopIntent := λ _, false;
     isAmbiguousMessage := λ _, false |}.

Definition defaultConfig : LlmAgentConfig := mkConfig None None None None None None None None None None None.

Definition someInput : LlmAgentInput :=
  mkInput (js "user-1234567") (js "my sessions?") None (js "You are an assistant.") None [].

(** One round of tools, then a text. *)
Definition someProvider (round : Z) (ms : list LlmMessage) : ProviderAnswer :=
  if round =? 0 then Response (mkMessage RAssistant None (Some [callB]) None) None
  else Response (plain RAssistant (js "Done.")) (Some (js "Done.")).

Definition cappedMetadata : BoundedToolResultMetadata :=
  mkBounded None (Some 10) 3 None None (Some 3) true Incomplete.

Definition someTools (round : Z) (c : ToolCall) : CallEnv :=
  mkCallEnv false (Returned (ToolObservation.RObj [])) false false.

Definition someTurn : list TurnEvent * option LlmAgentReply :=
  @runRounds documentedZod quietScan quietGuards (λ _, Some cappedMetadata) (λ _ _, None) (limitsOf defaultConfig) someInput
    someProvider someTools (λ _ l, l) true.

Lemma some_roles r ms m c : someProvider r ms = Response m c → m_role m = RAssistant.
Proof. unfold someProvider. destruct (r =? 0); by intros [= <- <-]. Qed.

Lemma agent_turn_bounded_witness :
  requestsOf someTurn.1 = [0; 1] ∧ Z.of_nat (length (requestsOf someTurn.1)) ≤ 6.
Proof.
  split; [vm_compute; reflexivity|].
  pose proof (@agent_turn_bounded documentedZod quietScan quietGuards (λ _, Some cappedMetadata) (λ _ _, None) defaultConfig
    someInput someProvider someTools (λ _ l, l) true (λ _ l, reflexivity l) some_roles) as Hb.
  unfold someTurn. destruct (runRounds _ _ _ _ _ _ _ _) as [l x]. exact (proj1 Hb).
Defined.

Lemma agent_requests_paired_witness :
  ∃ ms seg, Requested 1 ms ∈ someTurn.1 ∧ paired seg ∧ length seg = 2%nat.
Proof.
  unfold someTurn. set (turn := runRounds _ _ _ _ _ _ _ _).
  assert (Exists (λ e, match e with Requested 1 ms => length ms = 4%nat | _ => False end) turn.1) as Hex.
  { vm_compute. do 3 right. left. reflexivity. }
  apply Exists_exists in Hex as (e & Hin & He). destruct e as [[|[]|] ms| | | | |]; try done.
  destruct (@agent_requests_paired documentedZod quietScan quietGuards (λ _, Some cappedMetadata) (λ _ _, None) defaultConfig
    someInput someProvider someTools (λ _ l, l) true (λ _ l, reflexivity l) some_roles 1 ms Hin)
    as (seg & Hp & _ & _ & Ems).
  exists ms, seg. split_and!; [exact Hin|exact Hp|]. apply (f_equal length) in Ems.
  rewrite length_app, length_fmap in Ems. unfold downgradeStaleObservations in Ems. rewrite length_fmap, He in Ems.
  assert (length (messages (@build documentedZod quietScan (limitsOf defaultConfig) someInput).1) = 2%nat) as E2
    by (vm_compute; reflexivity). rewrite E2 in Ems. lia.
Defined.

Lemma agent_reply_checked_witness :
  ∃ r i, someTurn.2 = Some r ∧ includes (text r) (js "Done.") = true
    ∧ @checkedReply quietGuards i (text r)
    ∧ (∀ n, n ∈ e_groundedTools i → ∃ round unique run c o, ToolsRan round unique run ∈ someTurn.1 ∧ c_name c = n
         ∧ jm_get (@keyOf documentedZod c) (resultsByKey run) = Some (o, true))
    ∧ ∃ round ms m, Requested round ms ∈ someTurn.1 ∧ someProvider round ms = Response m (Some (e_text i)).
Proof.
  unfold someTurn. set (turn := runRounds _ _ _ _ _ _ _ _).
  assert (∃ r, turn.2 = Some r ∧ includes (text r) (js "Done.") = true ∧ exhausted r = false
               ∧ bool_decide (text r ∈ fixedTexts) = false) as (r & E & Ht & Hx & Hf).
  { eexists. split; [vm_compute; reflexivity|]. split; [vm_compute; reflexivity|]. split; vm_compute; reflexivity. }
  apply bool_decide_eq_false in Hf.
  destruct (@agent_reply_checked documentedZod quietScan quietGuards (λ _, Some cappedMetadata) (λ _ _, None) defaultConfig
    someInput someProvider someTools (λ _ l, l) true (λ _ l, reflexivity l) some_roles r E)
    as [Hin|(i & Hi & _ & Hg & _ & Hc)]; [exact (False_ind _ (Hf Hin))|].
  exists r, i. split; [exact E|]. split; [exact Ht|]. split; [exact Hi|]. split; [intros n Hn; exact (proj2 (Hg n Hn))|].
  destruct Hc as [(_ & _ & round & ms & m & Hr & Hm & _)|(Hx' & _)].
  - exists round, ms, m. exact (conj Hr Hm).
  - rewrite Hx in Hx'. discriminate Hx'.
Defined.
End AgentLoop.
