(* ===== verification/ToolSummary.v ===== *)
(** * The summary of a turn's tools

    packages/llm-agent, observation/tool-summary.ts: what the history keeps of the
    tools a turn has called, their results and the identifiers in them, within a
    limit of characters.

    The theorems show that no value of a tool can add a line to the summary or pass
    for one of its headings.  [Date.parse], [Number] of a text, the URL parser and
    the locale's order are arguments. *)

From S2P Require Import Prelude Json JsText ChatHistory AgentTools PromptSafety ToolObservation ToolRound AgentLoop.

Module ToolSummary.
Import Json JsText AgentTools PromptSafety AgentLoop.

Definition MAX_TOOL_SUMMARY_CHARS : Z := 8000.
Definition MAX_RESULT_VALUE_CHARS : Z := 256.
Definition MAX_IDENTIFIER_CHARS : Z := 2048.

Definition UPCOMING : jsstring := js "get_upcoming_study_sessions".
Definition ENTRIES : jsstring := js "list_study_calendar_entries".
Definition GOALS : jsstring := js "get_user_goals".
Definition PRECREATE : jsstring := js "precreate_next_exercise".

Definition SUMMARY_TOOL_NAMES : list jsstring := [GOALS; UPCOMING; ENTRIES; PRECREATE].

Definition PRECREATE_STATUS_VALUES : list jsstring :=
  [js "created"; js "already_exists"; js "finished_all"; js "no_roadmap"].

Inductive IdentifierField := CalendarId | ExerciseUrl.

#[export] Instance IdentifierField_eq_dec : EqDecision IdentifierField.
Proof. solve_decision. Defined.

Record SummaryIdentifier := mkIdentifier { i_toolName : jsstring; field : IdentifierField; i_value : jsstring }.

Record SummaryExtraction := mkExtraction {
  line : option jsstring;
  scopeKey : jsstring;
  identifiers : list SummaryIdentifier
}.

Definition IDENTIFIER_FIELD_ORDER (f : IdentifierField) : Z := match f with CalendarId => 0 | ExerciseUrl => 1 end.
Definition fieldName (f : IdentifierField) : jsstring :=
  match f with CalendarId => js "calendarId" | ExerciseUrl => js "exerciseUrl" end.

Definition MIN_MERGEABLE_SUMMARY_FIELDS : list jsstring :=
  [js "requestedLimit"; js "effectiveLimit"; js "requestedPastDays"; js "effectivePastDays"].

Section Summary.
Context `{TextScan}.
(** [Date.parse], when it is a number *)
Variable dateParse : jsstring → option Z.
(** [Number] of a text, when it is finite: an integer times a power of ten *)
Variable number : jsstring → option (Z * Z).
(** [new URL(url).protocol === 'https:'], false when the URL does not parse *)
Variable isHttps : jsstring → bool.
Variable localeCompare : jsstring → jsstring → Z.

(** ** Readers *)

(** [o[k]]; [None] is undefined. *)
Definition get (k : string) (o : jobj) : option json := jm_get (js k) o.

Definition readSafeText (value : option json) (maxChars : Z) : option jsstring :=
  match value with
  | Some (JStr s) =>
      match js_trim s with
      | [] => None
      | text =>
          let sanitized := sanitizeUntrustedTextForLlm maxChars UNSAFE_TEXT_PLACEHOLDER text in
          match s_reason sanitized, js_trim (s_text sanitized) with
          | Some _, _ | None, [] => None
          | None, result => Some result
          end
      end
  | _ => None
  end.

Definition readFiniteNumber (value : option json) : option (Z * Z) :=
  match value with Some (JNum m e) => Some (m, e) | _ => None end.

Definition readInteger (value : option json) : option Z :=
  readFiniteNumber value ≫= λ '(m, e), safeInt m e.

Definition readNonNegativeInteger (value : option json) : option Z :=
  readInteger value ≫= λ n, if 0 <=? n then Some n else None.

Definition readPositiveInteger (value : option json) : option Z :=
  readInteger value ≫= λ n, if 0 <? n then Some n else None.

Definition readBoolean (value : option json) : option bool :=
  match value with Some (JBool b) => Some b | _ => None end.

Definition oneOf (l : list jsstring) (value : option json) : option jsstring :=
  match value with Some (JStr s) => if bool_decide (s ∈ l) then Some s else None | _ => None end.

Definition readCompleteness : option json → option jsstring := oneOf [js "incomplete"; js "unknown"].
Definition readTimeRange : option json → option jsstring := oneOf [js "upcoming"; js "past"; js "all"].

Definition readCalendarId (value : option json) : option jsstring := natStr <$> readPositiveInteger value.

Definition readStatus (value : option json) : option jsstring :=
  readSafeText value MAX_RESULT_VALUE_CHARS ≫= λ s, if bool_decide (s ∈ PRECREATE_STATUS_VALUES) then Some s else None.

Definition readHttpsUrl (value : jsstring) : option jsstring :=
  if isHttps (js_trim value) then Some (js_trim value) else None.

Definition readExerciseUrl (value : option json) : option jsstring :=
  readSafeText value MAX_IDENTIFIER_CHARS ≫= readHttpsUrl.

(** A truthy value; an absent one is not. *)
Definition truthy (value : option json) : bool :=
  match value with
  | None | Some JNull | Some (JBool false) | Some (JStr []) => false
  | Some (JNum m _) => negb (m =? 0)
  | _ => true
  end.

Definition nullish (value : option json) : bool := match value with None | Some JNull => true | _ => false end.

(** [a ?? b]. *)
Definition coalesce (a b : option json) : option json := if nullish a then b else a.

Definition readObservationData (content : jsstring) : option jobj :=
  match parse content with
  | Some (JObj parsed) =>
      if negb (bool_decide (get "ok" parsed = Some (JBool true))) || truthy (get "_observation" parsed) then None
      else match get "data" parsed with
           | Some (JObj data) => if truthy (get "_observation" data) then None else Some data
           | _ => None
           end
  | _ => None
  end.

(** The data, and whether the observation was truncated. *)
Definition readCalendarObservationData (content : jsstring) : option (jobj * bool) :=
  match parse content with
  | Some (JObj parsed) =>
      match get "data" parsed with
      | Some (JObj data) =>
          let compactBounded :=
            bool_decide (get "ok" parsed = None) && bool_decide (is_Some (readBoolean (get "capped" data)))
            && (bool_decide (is_Some (readTimeRange (get "timeRange" data)))
                || bool_decide (is_Some (readNonNegativeInteger (get "count" data)))) in
          if negb (bool_decide (get "ok" parsed = Some (JBool true))) && negb compactBounded then None else
          match coalesce (get "_observation" parsed) (get "_observation" data) with
          | None => Some (data, compactBounded)
          | Some o => if bool_decide (o = JStr (js "truncated")) then Some (data, true) else None
          end
      | _ => None
      end
  | _ => None
  end.

(** ** Calendar results *)

Definition isArray (value : option json) : bool := match value with Some (JArr _) => true | _ => false end.

Definition readItems (data : jobj) (key : string) : option (list jobj) :=
  match get key data with
  | Some (JArr l) => Some (omap (λ v, match v with JObj o => Some o | _ => None end) l)
  | _ => None
  end.

(** The item with the least time, the first of equal ones. *)
Definition nearestItem (items : list jobj) : option jobj :=
  fst <$> foldl (λ nearest item,
    match readSafeText (get "scheduledAtIso" item) MAX_RESULT_VALUE_CHARS ≫= dateParse with
    | None => nearest
    | Some timestamp =>
        match nearest with
        | Some (_, least) => if timestamp <? least then Some (item, timestamp) else nearest
        | None => Some (item, timestamp)
        end
    end) None items.

Definition itemLabel (item : jobj) : option jsstring :=
  match readSafeText (get "scheduledTimeLabel" item) MAX_RESULT_VALUE_CHARS with
  | Some label => Some label
  | None => readSafeText (get "scheduledAtIso" item) MAX_RESULT_VALUE_CHARS
  end.

Definition readNearestLabel (items : list jobj) : option jsstring :=
  let candidates := match nearestItem items with Some item => [item] | None => items end in
  head (omap itemLabel candidates).

Definition numberOrNull (n : option Z) : json := match n with Some z => numOf z | None => JNull end.

Definition calendarScopeKey (toolName : jsstring) (data : jobj) : jsstring :=
  let timeRange := if bool_decide (toolName = UPCOMING) then js "upcoming"
                   else default (js "unknown") (readTimeRange (get "timeRange" data)) in
  stringify (JArr [JStr timeRange; numberOrNull (readPositiveInteger (get "requestedLimit" data));
    numberOrNull (readPositiveInteger (get "effectiveLimit" data));
    numberOrNull (readPositiveInteger (get "requestedPastDays" data));
    numberOrNull (readPositiveInteger (get "effectivePastDays" data));
    numberOrNull (readNonNegativeInteger (get "count" data))]).

(** A property of an object literal after a spread; an undefined value reads as an
    absent one. *)
Definition put (k : string) (value : option json) (o : jobj) : jobj :=
  match value with Some v => jm_set (js k) v o | None => o end.

Definition rangeText (r : CalendarTimeRange) : jsstring :=
  match r with Upcoming => js "upcoming" | Past => js "past" | All => js "all" end.

Definition completenessText (c : ToolResultCompleteness) : jsstring :=
  match c with Incomplete => js "incomplete" | Unknown => js "unknown" end.

(** What a disclosure puts over the data. *)
Definition summaryDataOf (toolName : jsstring) (data : jobj) (disclosure : option BoundedToolDisclosure) : jobj :=
  match disclosure with
  | None => data
  | Some d =>
      let ofNum (n : option Z) k := match n with Some z => Some (numOf z) | None => get k data end in
      let range :=
        coalesce (get "timeRange" data)
          (match timeRange d with
           | Some r => Some (JStr (rangeText r))
           | None => if bool_decide (toolName = UPCOMING) then Some (JStr (js "upcoming")) else None
           end) in
      put "completeness" (Some (JStr (completenessText (completeness d))))
        (put "capped" (Some (JBool (capped d)))
        (put "effectivePastDays" (ofNum (pastDays d) "effectivePastDays"%string)
        (put "requestedPastDays" (ofNum (requestedPastDays d) "requestedPastDays"%string)
        (put "effectiveLimit" (Some (numOf (limit d)))
        (put "requestedLimit" (ofNum (requestedLimit d) "requestedLimit"%string)
        (put "count" (ofNum (AgentTools.count d) "count"%string)
        (put "timeRange" range data)))))))
  end.

(** [key=value] of a value that is there. *)
Definition fieldOf (key : string) (value : option jsstring) : list jsstring :=
  match value with Some v => [js key ++ js "=" ++ v] | None => [] end.

Definition boolText (b : bool) : jsstring := if b then js "true" else js "false".

Definition lineOf (toolName : jsstring) (fields : list jsstring) : option jsstring :=
  match fields with [] => None | _ => Some (toolName ++ js ": " ++ joinWith (js "; ") fields) end.

Definition extractCalendarSummary (toolName : jsstring) (data : jobj) (truncated : bool)
    (disclosure : option BoundedToolDisclosure) : SummaryExtraction :=
  let summaryData := summaryDataOf toolName data disclosure in
  let '(preferredKey, fallbackKey) :=
    if bool_decide (toolName = ENTRIES) then ("entries", "sessions")%string else ("sessions", "entries")%string in
  let items :=
    if truncated then []
    else match readItems summaryData preferredKey with
         | Some l => l
         | None => default [] (readItems summaryData fallbackKey)
         end in
  let count :=
    match readNonNegativeInteger (get "count" summaryData) with
    | Some n => Some n
    | None => if truncated then None
              else if isArray (get preferredKey summaryData) || isArray (get fallbackKey summaryData)
              then Some (Z.of_nat (length items)) else None
    end in
  let nearest := if truncated then None else readNearestLabel items in
  let positive k := natStr <$> readPositiveInteger (get k summaryData) in
  let cappedField := readBoolean (get "capped" summaryData) in
  let completenessField := readCompleteness (get "completeness" summaryData) in
  let bounds :=
    if bool_decide (cappedField = None ∧ completenessField = None) then [] else
    fieldOf "requestedLimit" (positive "requestedLimit"%string)
    ++ fieldOf "effectiveLimit" (positive "effectiveLimit"%string)
    ++ fieldOf "requestedPastDays" (positive "requestedPastDays"%string)
    ++ fieldOf "effectivePastDays" (positive "effectivePastDays"%string)
    ++ fieldOf "capped" (boolText <$> cappedField)
    ++ fieldOf "completeness" completenessField in
  let fields :=
    fieldOf "timeRange" (readTimeRange (get "timeRange" summaryData))
    ++ fieldOf "count" (natStr <$> count) ++ bounds ++ fieldOf "nearest" nearest in
  mkExtraction (lineOf toolName fields) (calendarScopeKey toolName summaryData)
    (omap (λ item, mkIdentifier toolName CalendarId <$> readCalendarId (get "calendarId" item)) items).

Definition extractGoals (toolName : jsstring) (data : jobj) : SummaryExtraction :=
  mkExtraction
    (lineOf toolName
      (fieldOf "targetScore" ((λ me, numStr me.1 me.2) <$> readFiniteNumber (get "targetScore" data))
       ++ fieldOf "examDate" (readSafeText (get "examDate" data) MAX_RESULT_VALUE_CHARS)))
    (js "default") [].

Definition extractExercise (toolName : jsstring) (data : jobj) : option SummaryExtraction :=
  let status := readStatus (get "status" data) in
  let exerciseUrl := readExerciseUrl (get "exerciseUrl" data) in
  if bool_decide (status = None ∧ exerciseUrl = None) then None
  else Some (mkExtraction (lineOf toolName (fieldOf "status" status)) (js "default")
               (match exerciseUrl with Some u => [mkIdentifier toolName ExerciseUrl u] | None => [] end)).

Definition extractSummary (toolName content : jsstring) (boundedDisclosure : option BoundedToolDisclosure)
    : option SummaryExtraction :=
  if negb (bool_decide (toolName ∈ SUMMARY_TOOL_NAMES)) then None
  else if bool_decide (toolName = UPCOMING) || bool_decide (toolName = ENTRIES) then
    match readCalendarObservationData content, boundedDisclosure with
    | None, None => None
    | Some (data, truncated), _ => Some (extractCalendarSummary toolName data truncated boundedDisclosure)
    | None, Some _ => Some (extractCalendarSummary toolName [] true boundedDisclosure)
    end
  else
    readObservationData content ≫= λ data,
      if bool_decide (toolName = GOALS) then Some (extractGoals toolName data) else extractExercise toolName data.

(** ** The text *)

Definition identifierText (i : SummaryIdentifier) : jsstring :=
  i_toolName i ++ js "." ++ fieldName (field i) ++ js "=" ++ i_value i.

(** [a || b] of numbers. *)
Definition orNumber (a b : Z) : Z := if a =? 0 then b else a.

Definition compareIdentifiers (left right : SummaryIdentifier) : Z :=
  orNumber (IDENTIFIER_FIELD_ORDER (field left) - IDENTIFIER_FIELD_ORDER (field right))
    (orNumber (localeCompare (i_toolName left) (i_toolName right)) (localeCompare (i_value left) (i_value right))).

(** The lines of a section that fit, under a heading written with the first. *)
Fixpoint appendSection (lines : list jsstring) (heading : jsstring) (headingAdded : bool) (section : list jsstring)
    : list jsstring :=
  match section with
  | [] => lines
  | l :: section' =>
      let candidate := lines ++ (if headingAdded then [] else [heading]) ++ [l] in
      if MAX_TOOL_SUMMARY_CHARS <? len (joinWith [10] candidate)
      then appendSection lines heading headingAdded section'
      else appendSection candidate heading true section'
  end.

(** [field.split('=', 1)[0]]. *)
Definition fieldKey (f : jsstring) : jsstring := match indexOf [61] f with Some n => take n f | None => f end.

Definition addValue (values : list (jsstring * list jsstring)) (f : jsstring) : list (jsstring * list jsstring) :=
  let current := default [] (jm_get (fieldKey f) values) in
  jm_set (fieldKey f) (if bool_decide (f ∈ current) then current else current ++ [f]) values.

(** The order of numbers [m * 10 ^ e]. *)
Definition decimalLe (a b : Z * Z) : bool :=
  let e := Z.min a.2 b.2 in a.1 * 10 ^ (a.2 - e) <=? b.1 * 10 ^ (b.2 - e).

Definition minDecimal (l : list (Z * Z)) : option (Z * Z) :=
  match l with
  | [] => None
  | x :: l' => Some (foldl (λ a b, if decimalLe a b then a else b) x l')
  end.

Definition mergedField (e : jsstring * list jsstring) : option jsstring :=
  let '(key, fieldValues) := e in
  match fieldValues with
  | [f] => Some f
  | _ =>
      if bool_decide (key = js "count") || negb (bool_decide (key ∈ MIN_MERGEABLE_SUMMARY_FIELDS)) then None else
      let numbers := omap (λ f, number (drop (S (length key)) f)) fieldValues in
      if bool_decide (length numbers = length fieldValues)
      then (λ n, key ++ js "=" ++ numStr n.1 n.2) <$> minDecimal numbers else None
  end.

Definition mergeCappedSummaryLines (toolName previous next : jsstring) : jsstring :=
  let prefix := toolName ++ js ": " in
  let fields := splitText (js "; ") (drop (length prefix) previous) ++ splitText (js "; ") (drop (length prefix) next) in
  prefix ++ joinWith (js "; ") (omap mergedField (foldl addValue [] fields)).

Definition isCapped (l : jsstring) : bool := includes l (js "capped=true").

(** The line of a scope after another result. *)
Definition nextLine (toolName : jsstring) (previous : option jsstring) (new : jsstring) : jsstring :=
  match previous with
  | Some p => if isCapped p then (if isCapped new then mergeCappedSummaryLines toolName p new else p) else new
  | None => new
  end.

Record Accumulated := mkAccumulated {
  linesByTool : list (jsstring * list (jsstring * jsstring));
  found : list (jsstring * SummaryIdentifier)
}.

Definition addObservation (acc : Accumulated) (o : ToolSummaryObservation) : Accumulated :=
  if negb (o_succeeded o) then acc else
  match extractSummary (o_toolName o) (o_content o) (o_boundedDisclosure o) with
  | None => acc
  | Some extracted =>
      let toolLines := default [] (jm_get (o_toolName o) (linesByTool acc)) in
      mkAccumulated
        (match line extracted with
         | Some l =>
             jm_set (o_toolName o)
               (jm_set (scopeKey extracted) (nextLine (o_toolName o) (jm_get (scopeKey extracted) toolLines) l) toolLines)
               (linesByTool acc)
         | None => linesByTool acc
         end)
        (foldl (λ m i, jm_set (identifierText i) i m) (found acc) (identifiers extracted))
  end.

Definition RESULTS : jsstring := txt "[Kết quả]".
Definition IDENTIFIERS : jsstring := js "[Identifiers]".

Definition header (names : list jsstring) : jsstring := txt "[Đã tra cứu: " ++ joinWith (js "; ") names ++ js "]".

Definition namesOf (toolNames : list jsstring) : list jsstring := dedup (filter (λ n, isAgentToolName n = true) toolNames).

Definition summaryLines (names : list jsstring) (acc : Accumulated) : list jsstring :=
  let results := names ≫= λ n, snd <$> default [] (jm_get n (linesByTool acc)) in
  let ids := identifierText <$> sortBy (λ a b, compareIdentifiers a b <=? 0) (snd <$> found acc) in
  appendSection (appendSection [header names] RESULTS false results) IDENTIFIERS false ids.

Definition buildToolSummary (toolNames : list jsstring) (observations : list ToolSummaryObservation)
    : option jsstring :=
  match namesOf toolNames with
  | [] => None
  | names => Some (joinWith [10] (summaryLines names (foldl addObservation (mkAccumulated [] []) observations)))
  end.
End Summary.
(** ** Lines *)

Abbreviation oneLine := (Forall (λ c : Z, c ≠ 10)).

Lemma literal_oneLine s : forallb (λ c, negb (c =? 10)) s = true → oneLine s.
Proof.
  rewrite forallb_forall, Forall_forall. intros Hs c Hc ->. by specialize (Hs 10 (proj1 (list_elem_of_In _ _) Hc)).
Qed.

Lemma digits_oneLine s : forallb isDigit s = true → oneLine s.
Proof.
  rewrite forallb_forall, Forall_forall. intros Hs c Hc ->. by specialize (Hs 10 (proj1 (list_elem_of_In _ _) Hc)).
Qed.

Lemma natStr_oneLine n : 0 ≤ n → oneLine (natStr n).
Proof. intros Hn. destruct (natStr_ok n Hn) as (_ & Hd & _). by apply digits_oneLine. Qed.

Lemma numStr_oneLine m e : oneLine (numStr m e).
Proof.
  assert (∀ n, oneLine (zeros n)) as Hz by (intros n; apply digits_oneLine, zeros_digits).
  pose proof (natStr_oneLine (Z.abs m) ltac:(lia)) as Hd. unfold numStr.
  destruct (m =? 0); [by repeat constructor|]. apply Forall_app_2; [destruct (m <? 0); by repeat constructor|].
  repeat case_match; repeat first [apply Forall_app_2|apply Forall_cons; split; [lia|]]; auto using Forall_take, Forall_drop;
    try (by apply natStr_oneLine; lia); by repeat constructor.
Qed.

Lemma readPositive_ok value n : readPositiveInteger value = Some n → 0 < n.
Proof.
  unfold readPositiveInteger. destruct (readInteger value) as [k|]; [|done]. simpl. destruct (Z.ltb_spec 0 k); [|done]. by intros [= <-].
Qed.

Lemma readNonNegative_ok value n : readNonNegativeInteger value = Some n → 0 ≤ n.
Proof.
  unfold readNonNegativeInteger. destruct (readInteger value) as [k|]; [|done]. simpl. destruct (Z.leb_spec 0 k); [|done]. by intros [= <-].
Qed.

Lemma positive_oneLine value t : natStr <$> readPositiveInteger value = Some t → oneLine t.
Proof.
  destruct (readPositiveInteger value) as [n|] eqn:E; [|done]. intros [= <-]. apply natStr_oneLine.
  pose proof (readPositive_ok _ _ E). lia.
Qed.

Lemma oneOf_oneLine l value t : Forall oneLine l → oneOf l value = Some t → oneLine t.
Proof.
  intros Hl. destruct value as [[]|]; cbn; try done. case_bool_decide as Hin; [|done]. intros [= <-].
  rewrite Forall_forall in Hl. by apply Hl.
Qed.

Lemma fieldOf_oneLine key value :
  oneLine (js key) → (∀ t, value = Some t → oneLine t) → Forall oneLine (fieldOf key value).
Proof.
  intros Hk Hv. destruct value as [t|]; unfold fieldOf; [|constructor]. constructor; [|constructor].
  repeat apply Forall_app_2; [done|by repeat constructor|by apply Hv].
Qed.

(** A line about a tool's result. *)
Definition resultLine (name l : jsstring) : Prop := ∃ rest, l = name ++ js ": " ++ rest ∧ oneLine rest.

Lemma lineOf_result name fields l : Forall oneLine fields → lineOf name fields = Some l → resultLine name l.
Proof.
  intros Hf. unfold lineOf. destruct fields as [|f fs]; [done|]. intros [= <-]. exists (joinWith (js "; ") (f :: fs)).
  split; [reflexivity|]. apply joinWith_Forall; [by repeat constructor|done].
Qed.

Definition idOk (i : SummaryIdentifier) : Prop := i_toolName i ∈ SUMMARY_TOOL_NAMES ∧ oneLine (i_value i).

Lemma summary_name_oneLine name : name ∈ SUMMARY_TOOL_NAMES → oneLine name.
Proof.
  assert (Forall oneLine SUMMARY_TOOL_NAMES) as Hall.
  { apply Forall_forall. intros n Hn. apply Forall_forall. intros c Hc ->.
    assert (forallb (λ n, negb (bool_decide (10 ∈ n))) SUMMARY_TOOL_NAMES = true) as Hb by (vm_compute; reflexivity).
    rewrite forallb_forall in Hb. specialize (Hb n (proj1 (list_elem_of_In _ _) Hn)). by case_bool_decide. }
  rewrite Forall_forall in Hall. apply Hall.
Qed.

Section Lines.
Context `{ToolObservation.TextScanLaws}.
Variable dateParse : jsstring → option Z.
Variable number : jsstring → option (Z * Z).
Variable isHttps : jsstring → bool.
Variable localeCompare : jsstring → jsstring → Z.

Lemma collapse_oneLine b s : oneLine (collapseWs b s).
Proof.
  revert b. induction s as [|c s IH]; intros b; cbn [collapseWs]; [constructor|].
  destruct (js_whitespace c) eqn:E; [destruct b; [apply IH|]|]; constructor; [done|apply IH|by intros ->|apply IH].
Qed.

Lemma sanitized_oneLine n p v :
  s_reason (sanitizeUntrustedTextForLlm n p v) = None → oneLine (s_text (sanitizeUntrustedTextForLlm n p v)).
Proof.
  unfold sanitizeUntrustedTextForLlm. destruct (scanPatterns _); [done|]. destruct (redactSecrets _) as [t r] eqn:E.
  destruct r; [done|]. destruct (n <? len t); [done|]. intros _. apply ToolObservation.redact_same in E as ->.
  apply trim_Forall, collapse_oneLine.
Qed.

(** A text from a tool is one line. *)
Lemma safe_oneLine value n t : readSafeText value n = Some t → oneLine t.
Proof.
  destruct value as [[]|]; cbn; try done. destruct (js_trim s) as [|c u]; [done|].
  pose proof (sanitized_oneLine n UNSAFE_TEXT_PLACEHOLDER (c :: u)) as Hs.
  destruct (s_reason _); [done|]. specialize (Hs eq_refl). apply trim_Forall in Hs.
  destruct (js_trim (s_text _)); [done|]. by intros [= <-].
Qed.

Lemma nearest_oneLine items t : readNearestLabel dateParse items = Some t → oneLine t.
Proof.
  intros Ht. apply head_Some_elem_of, list_elem_of_omap in Ht as (item & _ & Ht). unfold itemLabel in Ht.
  destruct (readSafeText _ _) eqn:E; [injection Ht as <-|]; by eapply safe_oneLine.
Qed.

Lemma calendar_ok name data truncated d :
  name ∈ SUMMARY_TOOL_NAMES →
  let e := extractCalendarSummary dateParse name data truncated d in
  (∀ l, line e = Some l → resultLine name l) ∧ Forall idOk (identifiers e).
Proof.
  intros Hn. cbv zeta. unfold extractCalendarSummary. set (sd := summaryDataOf name data d).
  destruct (if bool_decide (name = ENTRIES) then _ else _) as [pk fk]. set (items := if truncated then [] else _).
  cbn [line identifiers]. split.
  - intros l. apply lineOf_result.
    repeat apply Forall_app_2; try apply fieldOf_oneLine; try (by repeat constructor).
    + intros t. apply oneOf_oneLine. by repeat constructor.
    + intros t. destruct (readNonNegativeInteger _) as [k|] eqn:E.
      * intros [= <-]. by eapply natStr_oneLine, readNonNegative_ok.
      * repeat case_match; try done. intros [= <-]. apply natStr_oneLine. lia.
    + case_bool_decide; [constructor|]. repeat apply Forall_app_2; apply fieldOf_oneLine; try (by repeat constructor);
        try (by intros t; apply positive_oneLine).
      * intros t. destruct (readBoolean _) as [[]|]; intros [= <-]; by repeat constructor.
      * intros t. apply oneOf_oneLine. by repeat constructor.
    + intros t. destruct truncated; [done|]. apply nearest_oneLine.
  - apply Forall_forall. intros i (item & _ & Hi)%list_elem_of_omap.
    destruct (readCalendarId _) as [v|] eqn:E; [|done]. injection Hi as <-. split; [done|].
    by eapply positive_oneLine.
Qed.

Lemma extract_ok name content d e :
  extractSummary dateParse isHttps name content d = Some e →
  name ∈ SUMMARY_TOOL_NAMES ∧ (∀ l, line e = Some l → resultLine name l) ∧ Forall idOk (identifiers e).
Proof.
  unfold extractSummary. case_bool_decide as Hn; [|done]. cbn [negb]. intros He. split; [done|].
  destruct (bool_decide (name = UPCOMING) || _).
  { destruct (readCalendarObservationData content) as [[data tr]|], d; try done; injection He as <-; by apply calendar_ok. }
  destruct (readObservationData content) as [data|]; [|done]. cbn in He. case_bool_decide.
  - injection He as <-. cbn [extractGoals line identifiers]. split; [|constructor]. intros l. apply lineOf_result, Forall_app_2.
    + apply fieldOf_oneLine; [by repeat constructor|]. intros t. destruct (readFiniteNumber _) as [[]|]; [|done].
      intros [= <-]. apply numStr_oneLine.
    + apply fieldOf_oneLine; [by repeat constructor|]. intros t. apply safe_oneLine.
  - unfold extractExercise in He. case_bool_decide; [done|]. injection He as <-. cbn [line identifiers]. split.
    + intros l. apply lineOf_result, fieldOf_oneLine; [by repeat constructor|]. intros t. unfold readStatus.
      destruct (readSafeText _ _) as [s|] eqn:E; [|done]. cbn. case_bool_decide; [|done]. intros [= <-]. by eapply safe_oneLine.
    + destruct (readExerciseUrl _ _) as [u|] eqn:E; [|constructor]. constructor; [|constructor]. split; [done|]. cbn.
      unfold readExerciseUrl in E. destruct (readSafeText _ _) as [s|] eqn:Es; [|done]. cbn in E. unfold readHttpsUrl in E.
      destruct (isHttps _); [|done]. injection E as <-. apply trim_Forall. by eapply safe_oneLine.
Qed.

(** ** Merging *)

Lemma merged_ok name p n :
  resultLine name p → resultLine name n → resultLine name (mergeCappedSummaryLines number name p n).
Proof.
  intros (rp & -> & Hp) (rn & -> & Hn). unfold mergeCappedSummaryLines. eexists. rewrite <-app_assoc. split; [reflexivity|].
  apply joinWith_Forall; [by repeat constructor|]. set (fields := splitText _ _ ++ splitText _ _).
  assert (Forall oneLine fields) as Hf.
  { assert (∀ r, drop (length (name ++ js ": ")) (name ++ js ": " ++ r) = r) as Hd
      by (intros r; rewrite app_assoc; apply drop_app_length).
    apply Forall_app_2; apply split_Forall; by rewrite Hd. }
  set (ok := λ e : jsstring * list jsstring, oneLine e.1 ∧ Forall oneLine e.2).
  assert (∀ values, Forall ok values → Forall ok (foldl addValue values fields)) as Hv.
  { induction Hf as [|f fs Hf1 Hf IH]; intros values Hv; [done|]. cbn [foldl]. apply IH.
    apply Forall_forall. intros e [->|He]%jm_set_elem; [|by rewrite Forall_forall in Hv; apply Hv].
    assert (Forall oneLine (default [] (jm_get (fieldKey f) values))) as Hc.
    { destruct (jm_get _ values) eqn:E; [|constructor]. apply jm_get_elem in E. rewrite Forall_forall in Hv. by apply Hv in E as [_ ?]. }
    split; cbn [fst snd].
    - unfold fieldKey. destruct (indexOf _ f); [by apply Forall_take|done].
    - case_bool_decide; [done|]. apply Forall_app_2; [done|]. by constructor. }
  specialize (Hv [] ltac:(constructor)). apply Forall_forall. intros x ([key vs] & Hin & Hx)%list_elem_of_omap.
  rewrite Forall_forall in Hv. apply Hv in Hin as [Hk Hvs]. cbn [fst snd] in *. unfold mergedField in Hx.
  assert (∀ o : option (Z * Z), (λ n, key ++ js "=" ++ numStr n.1 n.2) <$> o = Some x → oneLine x) as Hnum.
  { intros [[a b]|] Ex; [|done]. apply (inj Some) in Ex as <-.
    repeat apply Forall_app_2; [done|by repeat constructor|apply numStr_oneLine]. }
  destruct vs as [|v [|w vs]]; repeat case_match; try done; try (by eapply Hnum).
  injection Hx as <-. by inversion Hvs.
Qed.

Lemma nextLine_ok name previous l :
  (∀ p, previous = Some p → resultLine name p) → resultLine name l → resultLine name (nextLine number name previous l).
Proof.
  intros Hp Hl. unfold nextLine. destruct previous as [p|]; [|done]. repeat case_match; [apply merged_ok|..]; auto.
Qed.

(** ** The whole text *)

Definition accOk (acc : Accumulated) : Prop :=
  (∀ name m, (name, m) ∈ linesByTool acc → name ∈ SUMMARY_TOOL_NAMES ∧ ∀ scope l, (scope, l) ∈ m → resultLine name l)
  ∧ ∀ k i, (k, i) ∈ found acc → idOk i.

Lemma add_ok acc o : accOk acc → accOk (addObservation dateParse number isHttps acc o).
Proof.
  intros [Hl Hi]. unfold addObservation. destruct (negb _); [done|]. destruct (extractSummary _ _ _ _ _) as [e|] eqn:E; [|done].
  apply extract_ok in E as (Hn & Hline & Hids). split; cbn [linesByTool found].
  - destruct (line e) as [l|]; [|done]. specialize (Hline l eq_refl).
    assert (∀ scope x, (scope, x) ∈ default [] (jm_get (o_toolName o) (linesByTool acc)) → resultLine (o_toolName o) x) as Hold.
    { destruct (jm_get _ _) as [m0|] eqn:Em; [|set_solver]. apply jm_get_elem in Em. by destruct (Hl _ _ Em). }
    intros name m [[= -> ->]|Hin]%jm_set_elem; [|by apply Hl]. split; [done|].
    intros scope x [[= -> ->]|Hin]%jm_set_elem; [|by eapply Hold]. apply nextLine_ok; [|done].
    intros p Hp%jm_get_elem. by eapply Hold.
  - revert Hi. generalize (found acc) as m. induction Hids as [|i ids Hid Hids IH]; intros m Hm; [done|].
    cbn [foldl]. apply IH. intros k j [[= -> ->]|Hin]%jm_set_elem; [done|by eapply Hm].
Qed.

Lemma accumulated_ok acc os : accOk acc → accOk (foldl (addObservation dateParse number isHttps) acc os).
Proof. revert acc. induction os as [|o os IH]; intros acc Ha; [done|]. cbn [foldl]. by apply IH, add_ok. Qed.

Lemma append_spec lines heading b section :
  len (joinWith [10] lines) ≤ MAX_TOOL_SUMMARY_CHARS →
  ∃ extra, appendSection lines heading b section = lines ++ extra
    ∧ len (joinWith [10] (lines ++ extra)) ≤ MAX_TOOL_SUMMARY_CHARS
    ∧ Forall (λ l, l = heading ∨ l ∈ section) extra.
Proof.
  revert lines b. induction section as [|l section IH]; intros lines b Hl; cbn [appendSection].
  - exists []. rewrite app_nil_r. auto.
  - destruct (Z.ltb_spec MAX_TOOL_SUMMARY_CHARS (len (joinWith [10] (lines ++ (if b then [] else [heading]) ++ [l])))) as [|Hf].
    + destruct (IH lines b Hl) as (extra & -> & Hlen & He). exists extra. split_and!; [done..|].
      eapply Forall_impl; [exact He|]. intros x [->|?]; [by left|right; by right].
    + destruct (IH _ true Hf) as (extra & -> & Hlen & He).
      exists (((if b then [] else [heading]) ++ [l]) ++ extra). rewrite <-(app_assoc lines _ extra) in Hlen |- *.
      split_and!; [done..|].
      apply Forall_app_2.
      * destruct b; repeat constructor; try (by left); right; by left.
      * eapply Forall_impl; [exact He|]. intros x [->|?]; [by left|right; by right].
Qed.

Lemma header_fits toolNames :
  len (header (namesOf toolNames)) ≤ MAX_TOOL_SUMMARY_CHARS ∧ oneLine (header (namesOf toolNames)).
Proof.
  assert (∀ n, n ∈ namesOf toolNames → n ∈ AGENT_TOOL_NAMES) as Hin.
  { intros n. unfold namesOf. rewrite dedup_elem, list_elem_of_filter. intros [Hn _]. unfold isAgentToolName in Hn.
    by case_bool_decide. }
  split.
  - unfold header. rewrite !len_app. pose proof (joinWith_len (js "; ") (namesOf toolNames)) as Hj.
    assert (namesOf toolNames ⊆+ AGENT_TOOL_NAMES) as [k Hk]%submseteq_Permutation
      by (apply NoDup_submseteq; [apply dedup_nodup|exact Hin]).
    assert (∀ (f : jsstring → Z) l l', l ≡ₚ l' → sum_by f l = sum_by f l') as Hperm
      by (intros f l l'; induction 1; simpl; lia).
    pose proof (Hperm (λ x, len x + len (js "; ")) _ _ Hk) as Hs. rewrite sum_by_app in Hs.
    assert (0 ≤ sum_by (λ x, len x + len (js "; ")) k) by (apply sum_by_nonneg; intros x _; pose proof (len_nonneg x); pose proof (len_nonneg (js "; ")); lia).
    assert (sum_by (λ x, len x + len (js "; ")) AGENT_TOOL_NAMES ≤ 7000) as Hm
      by (apply Z.leb_le; vm_compute; reflexivity).
    assert (len (txt "[Đã tra cứu: ") = 13) as -> by reflexivity. assert (len (js "]") = 1) as -> by reflexivity.
    unfold MAX_TOOL_SUMMARY_CHARS. lia.
  - apply Forall_app_2; [apply literal_oneLine; reflexivity|]. apply Forall_app_2; [|apply literal_oneLine; reflexivity].
    apply joinWith_Forall; [by repeat constructor|]. apply Forall_forall. intros n Hn%Hin. apply Forall_forall. intros c Hc ->.
    assert (forallb (λ n, negb (bool_decide (10 ∈ n))) AGENT_TOOL_NAMES = true) as Hb by (vm_compute; reflexivity).
    rewrite forallb_forall in Hb. specialize (Hb n (proj1 (list_elem_of_In _ _) Hn)). by case_bool_decide.
Qed.

(** What a line after the header can be. *)
Definition isLine (names : list jsstring) (l : jsstring) : Prop :=
  l = RESULTS ∨ l = IDENTIFIERS
  ∨ (∃ name rest, name ∈ names ∧ name ∈ SUMMARY_TOOL_NAMES ∧ l = name ++ js ": " ++ rest)
  ∨ ∃ name f rest, name ∈ SUMMARY_TOOL_NAMES ∧ l = name ++ js "." ++ fieldName f ++ js "=" ++ rest.

Lemma results_ok names acc l :
  accOk acc → l ∈ (names ≫= λ n, snd <$> default [] (jm_get n (linesByTool acc))) → isLine names l ∧ oneLine l.
Proof.
  intros [Hl _] Hin. apply list_elem_of_bind in Hin as (n & ([scope x] & -> & Hx)%list_elem_of_fmap & Hn).
  destruct (jm_get _ _) as [m|] eqn:Em; [|set_solver]. apply jm_get_elem in Em. destruct (Hl _ _ Em) as [Hs Hm].
  destruct (Hm _ _ Hx) as (rest & E & Hr). cbn [snd]. split; [right; right; left; by exists n, rest|]. rewrite E.
  repeat apply Forall_app_2; [by apply summary_name_oneLine|by repeat constructor|done].
Qed.

Lemma ids_ok names acc l :
  accOk acc → l ∈ (identifierText <$> sortBy (λ a b, compareIdentifiers localeCompare a b <=? 0) (snd <$> found acc)) →
  isLine names l ∧ oneLine l.
Proof.
  intros [_ Hi] (i & -> & Hin)%list_elem_of_fmap. apply elem_of_sortBy, list_elem_of_fmap in Hin as ([k j] & -> & Hj).
  destruct (Hi _ _ Hj) as [Hn Hv]. cbn [snd]. split; [right; right; right; by eexists _, _, _|]. unfold identifierText.
  repeat apply Forall_app_2; [by apply summary_name_oneLine|by repeat constructor| |by repeat constructor|done].
  destruct (field j); by repeat constructor.
Qed.

Lemma failed_left_out acc os :
  foldl (addObservation dateParse number isHttps) acc (filter (λ o, o_succeeded o = true) os)
  = foldl (addObservation dateParse number isHttps) acc os.
Proof.
  revert acc. induction os as [|o os IH]; intros acc; [done|]. rewrite filter_cons. cbn [foldl].
  destruct (decide (o_succeeded o = true)) as [E|E]; cbn [foldl]; [apply IH|]. rewrite IH. f_equal. unfold addObservation.
  by destruct (o_succeeded o).
Qed.

(** C37. The summary of a turn's tools fits its limit, and read line by line it is
    the header with the known tools that were called, headings, results under the
    name of a called tool and identifiers: no value from a tool's result adds a line
    or passes for a heading, and no failed result appears. *)
Theorem tool_summary_lines toolNames observations t :
  buildToolSummary dateParse number isHttps localeCompare toolNames observations = Some t →
  len t ≤ MAX_TOOL_SUMMARY_CHARS
  ∧ (∃ lines, splitText [10] t = header (namesOf toolNames) :: lines ∧ Forall (isLine (namesOf toolNames)) lines)
  ∧ buildToolSummary dateParse number isHttps localeCompare toolNames
      (filter (λ o, o_succeeded o = true) observations) = Some t.
Proof.
  unfold buildToolSummary. destruct (header_fits toolNames) as [Hfit Hone]. destruct (namesOf toolNames) as [|n ns] eqn:En; [done|].
  rewrite failed_left_out. intros [= <-].
  assert (accOk (foldl (addObservation dateParse number isHttps) (mkAccumulated [] []) observations)) as Hacc
    by (apply accumulated_ok; split; cbn; set_solver).
  revert Hacc. generalize (foldl (addObservation dateParse number isHttps) (mkAccumulated [] []) observations) as acc.
  intros acc Hacc. unfold summaryLines.
  destruct (append_spec [header (n :: ns)] RESULTS false ((n :: ns) ≫= λ n, snd <$> default [] (jm_get n (linesByTool acc)))
    Hfit) as (e1 & -> & H1 & He1).
  destruct (append_spec _ IDENTIFIERS false
    (identifierText <$> sortBy (λ a b, compareIdentifiers localeCompare a b <=? 0) (snd <$> found acc)) H1)
    as (e2 & -> & H2 & He2).
  assert (∀ l, l ∈ e1 ++ e2 → isLine (n :: ns) l ∧ oneLine l) as Hall.
  { rewrite Forall_forall in He1, He2. intros l [Hl|Hl]%elem_of_app.
    - apply He1 in Hl as [->|Hl]; [split; [by left|apply literal_oneLine; reflexivity]|by eapply results_ok].
    - apply He2 in Hl as [->|Hl]; [split; [right; by left|apply literal_oneLine; reflexivity]|by eapply ids_ok]. }
  split_and!; [done| |done]. exists (e1 ++ e2). rewrite <-app_assoc. split.
  - apply split_join; [done|]. constructor; [done|]. apply Forall_forall. intros l Hl. by apply Hall.
  - apply Forall_forall. intros l Hl. by apply Hall.
Qed.
End Lines.

(** ** An instance *)

(** [Number] of digits. *)
Definition digitsNumber (t : jsstring) : option (Z * Z) :=
  if negb (bool_decide (t = [])) && forallb isDigit t then Some (norm (digitsVal t) 0) else None.

Definition summaryOf (toolNames : list jsstring) (observations : list ToolSummaryObservation) : option jsstring :=
  @buildToolSummary ToolRound.quietScan (λ _, None) digitsNumber (λ _, true) (λ _ _, 0) toolNames observations.

Definition someObservations : list ToolSummaryObservation :=
  [mkSummary GOALS (jq "{'ok':true,'data':{'targetScore':6.5,'examDate':'2026-11-20'}}") true None;
   mkSummary UPCOMING (jq "{'ok':false,'error':'timeout'}") false None].

Lemma tool_summary_lines_witness :
  ∃ t, summaryOf [GOALS; UPCOMING] someObservations = Some t
    ∧ len t ≤ MAX_TOOL_SUMMARY_CHARS
    ∧ t = header [GOALS; UPCOMING] ++ [10] ++ RESULTS ++ [10] ++ js "get_user_goals: targetScore=6.5; examDate=2026-11-20".
Proof.
  destruct (summaryOf [GOALS; UPCOMING] someObservations) as [t|] eqn:E; [|vm_compute in E; discriminate E].
  exists t. split; [reflexivity|]. split; [exact (proj1 (@tool_summary_lines _ ToolRound.quietScan_laws _ _ _ _ _ _ _ E))|].
  vm_compute in E. injection E as <-. vm_compute. reflexivity.
Defined.

(** ** A corner case *)

(** The merging of two capped results splits their lines at [; ] again: a label of a
    session that holds one takes the mark of the bounded result away. *)
Definition cappedAnswer (label : string) : ToolSummaryObservation :=
  mkSummary UPCOMING
    (jq ("{'ok':true,'data':{'capped':true,'count':1,'sessions':[{'scheduledTimeLabel':'" ++ label ++ "'}]}}")) true None.

Lemma label_takes_the_mark :
  let summary label := default [] (summaryOf [UPCOMING] [cappedAnswer label; cappedAnswer label]) in
  isCapped (summary "Monday"%string) = true ∧ isCapped (summary "Monday; capped=false"%string) = false.
Proof. split; vm_compute; reflexivity. Qed.
End ToolSummary.
