(* ===== verification/ScopeGuards.v ===== *)
(** * Scope, intent and the text of a reply

    packages/llm-agent, scope.ts, intent-detector.ts and text.ts: the messages that
    are answered without the model (greetings, stop requests, vague or off-topic
    texts) and the Markdown that is taken out of a reply. *)

From S2P Require Import Prelude JsText JsRegex Masking PromptGuards.

Module ScopeGuards.
Import JsText JsRegex PromptGuards.

Section Scope.
Context `{Unicode}.

Definition NON_WORDS : regex := mk Fu (js "[^\p{L}\p{N}]+").
Definition D_STROKE_I : regex := mk Fi (txt "đ").

Definition normalizeScopeText (text : jsstring) : jsstring :=
  let n1 := replaceAll COMBINING (λ _, []) (replaceAll D_STROKE_I (λ _, js "d") (nfd text)) in
  replaceAll SPACES (λ _, js " ") (js_trim (replaceAll NON_WORDS (λ _, js " ") (toLowerCase n1))).

Definition TOKEN_REGEX : regex := mk Fu (js "[\p{L}\p{N}]+").

Definition DEFAULT_GREETING_KEYWORDS : list jsstring :=
  [js "hi"; js "hello"; js "hey"; txt "chào"; txt "xin chào"; js "good morning"; js "good afternoon";
   js "good evening"; txt "chào buổi sáng"; txt "chào buổi tối"; js "sup"; js "yo"; js "alo"].

Definition GREETING_SUFFIXES : list jsstring := [js "ban"; js "bot"; js "oi"; js "nhe"; js "nha"; js "a"; js "shop"].

Definition tokenize (text : jsstring) : list jsstring := (λ x, toLowerCase (m_text x)) <$> matchAll TOKEN_REGEX text.

Definition sameTokens (left right : list jsstring) : bool := bool_decide (left = right).

(** The token lists of the canonical forms that have tokens. *)
Definition tokenForms (text : jsstring) : list (list jsstring) :=
  filter (λ l, l ≠ []) (tokenize <$> buildSafetyScanCandidates text).

Definition fits (allowGreetingSuffix : bool) (inputTokens keywordTokens : list jsstring) : bool :=
  sameTokens inputTokens keywordTokens
  || allowGreetingSuffix && (length keywordTokens <? length inputTokens)%nat
     && bool_decide (take (length keywordTokens) inputTokens = keywordTokens)
     && forallb (λ t, bool_decide (t ∈ GREETING_SUFFIXES)) (drop (length keywordTokens) inputTokens).

Definition matchStandaloneKeyword (userText : jsstring) (keywords : list jsstring) (allowGreetingSuffix : bool)
    : option jsstring :=
  let inputCandidates := tokenForms userText in
  List.find (λ k, existsb (λ i, existsb (fits allowGreetingSuffix i) (tokenForms k)) inputCandidates) keywords.

Definition OFF_TOPIC_PATTERNS : list regex :=
  [mk Fi (txt "thoi\s*tiet|weather|mua\s*hom nay");
   mk Fi (txt "bong\s*da|world\s*cup|phim\s+|game\s+|netflix");
   mk Fi (txt "bitcoin|crypto|chung\s*khoan|forex");
   mk Fi (txt "nau\s*an|cong\s*thuc\s*nau|recipe");
   mk Fi (txt "chinh\s*tri|bau\s*cu|tong\s*thong");
   mk Fi (txt "python|javascript|java\s+code|lap\s*trinh\s+web");
   mk Fi (txt "toan\s+lop|vat\s*ly|hoa\s*hoc(?!\s*ielts)");
   mk Fi (txt "phap\s*luat|luat\s*su|tu\s*van\s*phap\s*luat")].

Definition DISTRESS_PATTERNS : list regex :=
  [mk F_ (txt "ap\s*luc");
   mk F_ (txt "chan\s*(qua|roai|roi|lam)");
   mk F_ (txt "bo\s*cuoc");
   mk F_ (txt "met\s*(moi|qua|roi|lam)");
   mk F_ (txt "\bnan\b|nan\s*(qua|roai|roi|lam)");
   mk F_ (txt "that\s*vong");
   mk F_ (txt "hoc\s*mai\s*(ma)?\s*khong");
   mk F_ (txt "khong\s*(the\s*)?(hoc|noi)\s*noi");
   mk F_ (txt "stress(ed)?");
   mk F_ (txt "burn(t|ing)?\s*out");
   mk F_ (txt "tam\s*ly\s+phong\s+thi");
   mk F_ (txt "tam\s*ly\s+so\s+viet")].

Definition matchesDistress (normalized : jsstring) : bool := existsb (λ r, test r normalized) DISTRESS_PATTERNS.

Definition isDistressExpression (userText : jsstring) : bool :=
  match normalizeScopeText (js_trim userText) with [] => false | n => matchesDistress n end.

Definition ACK_ONLY : list jsstring :=
  [js "ok"; js "oke"; js "okay"; js "u"; js "vang"; js "da"; js "cam on"; js "thanks"; js "thank you"].

Definition SHORT_FRAGMENT_THRESHOLD : Z := 4.

Definition IELTS_WRITING_REQUEST : regex :=
  mk Fi (js "\btask\s*[12]\b|\bde\s*bai\b.{0,50}\b(?:viet|writing|essay|task)\b").

Definition isGreetingOnly (userText : jsstring) : bool :=
  bool_decide (is_Some (matchStandaloneKeyword userText DEFAULT_GREETING_KEYWORDS true))
  || bool_decide (normalizeScopeText (js_trim userText) ∈ ACK_ONLY).

Definition isObviouslyOffTopic (userText : jsstring) : bool :=
  let text := js_trim userText in
  let normalized := normalizeScopeText text in
  if bool_decide (text = []) || isGreetingOnly text then false
  else if matchesDistress normalized then false
  else existsb (λ r, test r normalized) OFF_TOPIC_PATTERNS && negb (test IELTS_WRITING_REQUEST normalized).

Definition AMBIGUOUS_FRAGMENTS : regex :=
  mk Fi (js "^(?:thu|bai|cai\s+do|hoc\s+gi+|hco|lch|lichh|cho\s+xin|gi\s*vay|sao\s*the|thi\s*sao|hom\s+nay|ngay\s+mai|mai|tuan\s+(?:nay|sau)|sang|chieu|toi)$").

Definition SHORT_ACK : regex := mk Fi (js "^(?:ok|oke|okay|u|vang|da|a|o|ha|nhe|di|ok\s+nhe|ok\s+nha)$").

Definition SHORT_AFFIRMATIVE_ACKS : list jsstring := [txt "đúng"; txt "đồng ý"].

Definition FINAL_MARKS : regex := mk Fu (js "[.!?]+$").

Definition normalizeIntentText (text : jsstring) : jsstring :=
  replaceAll SPACES (λ _, js " ") (replaceFirst FINAL_MARKS (λ _, []) (js_trim (toLowerCase (nfc text)))).

Definition STOP_INTENT : regex :=
  mk Fi (txt "^(?:dừng|dừng lại|stop|thôi|thôi khỏi|thôi đi|thoi|thoi khoi|thoi di|hủy|huỷ|hủy đi|huỷ đi|hủy bỏ|huy|huy di|huy bo|khoan|khoan da|khoan đã|không cần|không cần nữa|khong can|khong can nua|bỏ qua|bo qua|nevermind|never mind)$").

Definition RESUME_INTENT : regex := mk Fi (js "^(?:tiep|tiep tuc|continue|go on)$").

Definition SHORT_MEANINGFUL : regex := mk Fi (js "^(?:band(?:\s+\d+(?:[.,]\d+)?)?|\d+(?:[.,]\d+)?)[\s?!.]*$").

Definition WORD_CHARS : regex := mk Fu (js "[\p{L}\p{N}]").

Definition isStopIntent (userText : jsstring) : bool :=
  let text := normalizeIntentText userText in
  (0 <? len text) && test STOP_INTENT text.

Definition isAmbiguousMessage (userText : jsstring) : bool :=
  let rawText := js_trim userText in
  let text := normalizeScopeText rawText in
  if bool_decide (text = []) then true
  else if bool_decide (normalizeIntentText rawText ∈ SHORT_AFFIRMATIVE_ACKS) then false
  else if matchesDistress text then false
  else if test SHORT_MEANINGFUL rawText then false
  else
    let nonAlpha := replaceAll WORD_CHARS (λ _, []) rawText in
    if (len rawText <=? 2 * len nonAlpha) && (len rawText <=? 20) then true
    else if (len rawText <=? SHORT_FRAGMENT_THRESHOLD) && negb (test SHORT_ACK text) && negb (isGreetingOnly rawText)
            && negb (isStopIntent rawText) && negb (test RESUME_INTENT text) && negb (test SHORT_MEANINGFUL rawText)
    then true
    else test AMBIGUOUS_FRAGMENTS text.

(** ** Intents *)

Inductive IntentType := Greeting | SelfIntro | UnknownIntent.

Record IntentMatch := mkIntent { intent : IntentType; matchedKeyword : option jsstring }.

Record IntentConfig := mkIntentConfig { greetingKeywords : list jsstring; selfIntroKeywords : list jsstring }.

Definition DEFAULT_CONFIG : IntentConfig :=
  mkIntentConfig DEFAULT_GREETING_KEYWORDS
    [txt "bạn là ai"; txt "bạn là ai vậy"; txt "bạn tên gì"; txt "bạn làm gì"; txt "tên bạn"; txt "giới thiệu";
     txt "bạn là gì"; txt "ai vậy"; txt "mình là ai"].

Definition detect (config : IntentConfig) (message : jsstring) : IntentMatch :=
  match matchStandaloneKeyword message (selfIntroKeywords config) false with
  | Some k => mkIntent SelfIntro (Some k)
  | None =>
      match matchStandaloneKeyword message (greetingKeywords config) true with
      | Some k => mkIntent Greeting (Some k)
      | None => mkIntent UnknownIntent None
      end
  end.

(** ** Markdown *)

Definition MARKDOWN : list (regex * bool) :=
  [(mk F_ (js "\*\*([^*]+)\*\*"), true); (mk F_ (js "\*([^*\n]+)\*"), true); (mk F_ (js "__([^_]+)__"), true);
   (mk F_ (js "_([^_\n]+)_"), true); (mk Fm (js "^#{1,6}\s+"), false); (mk F_ (js "`([^`]+)`"), true)].

Definition BLANK_LINES : regex := mk F_ (js "\n{3,}").

(** The markers are replaced by their first group, or by nothing. *)
Definition sanitizeReplyText (text : jsstring) : jsstring :=
  let unmarked := foldl (λ t e, replaceAll e.1 (λ x, if e.2 : bool then Masking.dollar 1 x else []) t) text MARKDOWN in
  js_trim (replaceAll BLANK_LINES (λ _, [10; 10]) unmarked).
End Scope.

Lemma scope_patterns_parse :
  forallb parses
    ([NON_WORDS; D_STROKE_I; TOKEN_REGEX; IELTS_WRITING_REQUEST; AMBIGUOUS_FRAGMENTS; SHORT_ACK; FINAL_MARKS;
      STOP_INTENT; RESUME_INTENT; SHORT_MEANINGFUL; WORD_CHARS; BLANK_LINES]
     ++ OFF_TOPIC_PATTERNS ++ DISTRESS_PATTERNS ++ MARKDOWN.*1) = true.
Proof. vm_compute. reflexivity. Qed.

(** ** The text of a reply *)

Section Reply.
Context `{Unicode}.

Lemma infix_sublist (s t : list Z) : infix s t → s `sublist_of` t.
Proof.
  intros (a & b & ->). apply sublist_inserts_l, sublist_inserts_r. done.
Qed.

(** Replacing every match by a part of it only takes characters out. *)
Lemma replace_sublist r f s :
  (∀ x y, caps x = [] → run (r_flags r) (r_re r) x y → reads x y → f (matchOf (x, y)) `sublist_of` textBetween x y) →
  replaceAll r f s `sublist_of` s.
Proof.
  intros Hf. apply (replace_ind (λ t o, o `sublist_of` t)); [done|intros; by apply sublist_app|].
  intros x y t o Hc Hr Hxy <- Ho. pose proof Hxy as (w & E & _). rewrite E at 1. apply sublist_app; [|done].
  rewrite <-(textBetween_reads _ _ w E). by apply Hf.
Qed.

Lemma group_part fl r i x y :
  lookFree r = true → caps x = [] → run fl r x y → default [] (group i y) `sublist_of` textBetween x y.
Proof.
  intros Hl Hc Hr. destruct (group i y) as [c|] eqn:E; [|apply sublist_nil_l]. apply group_elem in E.
  destruct (run_caps fl r x y Hl Hr) as (w & Ew & Hw). rewrite (textBetween_reads _ _ w Ew).
  destruct (Hw _ _ E) as [Hin|Hin]; [|by apply infix_sublist]. rewrite Hc in Hin. by apply not_elem_of_nil in Hin.
Qed.

Lemma markdown_lookFree : forallb (λ e, lookFree (r_re e.1)) MARKDOWN = true.
Proof. vm_compute. reflexivity. Qed.

Lemma blank_pattern : BLANK_LINES = mkRegex F_ (js "\n{3,}") (runs 3 false [IRange 10 10]).
Proof. vm_compute. reflexivity. Qed.

Lemma rev_sublist (s t : list Z) : s `sublist_of` t → rev s `sublist_of` rev t.
Proof.
  induction 1 as [|c s t _ IH|c s t _ IH]; cbn [rev]; [done|by apply sublist_app|]. by apply sublist_inserts_r.
Qed.

Lemma trim_sublist s : js_trim s `sublist_of` s.
Proof.
  assert (∀ t, drop_ws t `sublist_of` t) as Hd.
  { induction t as [|c t IH]; [done|]. cbn [drop_ws]. destruct (js_whitespace c); [by apply sublist_cons|done]. }
  unfold js_trim. etransitivity; [apply rev_sublist, Hd|]. rewrite rev_involutive. apply Hd.
Qed.

(** Taking the Markdown out of a reply only takes characters out: what the learner
    reads is the model's text without some of its characters, in order. *)
Lemma shrinks text : sanitizeReplyText text `sublist_of` text.
Proof.
  unfold sanitizeReplyText. etransitivity; [apply trim_sublist|]. etransitivity.
  - rewrite blank_pattern. apply replace_sublist. intros x y Hc Hr Hxy.
    destruct (run_class F_ false [IRange 10 10] 3 None x y Hr) as (ds & Hds & Hl & Hp); [done|].
    rewrite (textBetween_reads _ _ _ (readsChars_text _ _ _ _ Hds)).
    assert (∀ d, d ∈ ds → d = (10, [10])) as Hall.
    { intros [c w] Hd. rewrite Forall_forall in Hp. pose proof (Hp _ Hd) as Hpc. cbn in Hpc.
      destruct Hds as [E _]. change (f_u F_) with false in E. rewrite chars_units in E.
      assert ((c, w) ∈ (λ c, (c, [c])) <$> after x) as Hin by (rewrite E; apply elem_of_app; by left).
      apply list_elem_of_fmap in Hin as (? & [= <- ->] & _). unfold between in Hpc. f_equal; [|f_equal]; lia. }
    destruct ds as [|d1 [|d2 ds]]; [simpl in Hl; lia..|].
    rewrite (Hall d1), (Hall d2) by set_solver. unfold unitsOf. cbn [fmap list_fmap concat snd app].
    do 2 apply sublist_skip. apply sublist_nil_l.
  - pose proof markdown_lookFree as Hm. revert Hm. generalize MARKDOWN as table. intros table. revert text.
    induction table as [|[r keep] table IH]; intros text Hm; [done|]. cbn [foldl forallb fst snd] in *.
    apply andb_true_iff in Hm as [Hl Hm]. etransitivity; [by apply IH|]. apply replace_sublist.
    intros x y Hc Hr _. destruct keep; [|apply sublist_nil_l]. by eapply group_part.
Qed.

End Reply.
End ScopeGuards.
