(* ===== verification/Grounding.v ===== *)
(** * Grounding of a reply

    packages/llm-agent, safety/grounding.utils.ts: whether a reply claims personal
    data (scores, dates, counts, a complete list) that no tool of the turn returned,
    and the rewriting of claims that a bounded result is complete. *)

From S2P Require Import Prelude Json JsText JsRegex Masking AgentTools PromptSafety ToolObservation ToolRound ReplySafety.

Module Grounding.
Import Json JsText JsRegex Masking AgentTools ReplySafety.

Section Claims.
Context `{Unicode}.

(** ** Patterns *)

Definition DECIMAL_SCORE : jsstring :=
  txt "\d+[.,]\d+".

Definition USER_PERSONAL_SCORE_RE : regex :=
  mk Fi (txt "(?:\bmy\s+(?:ielts\s+)?(?:score|band)\b[^.!?\n]{0,25}?" ++ DECIMAL_SCORE ++ txt "|\bi\s+scored\b[^.!?\n]{0,20}?" ++ DECIMAL_SCORE ++ txt "|\bi\s+got\b[^.!?\n]{0,20}?" ++ DECIMAL_SCORE ++ txt "[^.!?\n]{0,20}?\b(?:in|on)\s+ielts\b|(?:mình|tôi|em|tớ)[^.!?\n]{0,25}?(?:được\s+chấm|đạt\s+(?:band|điểm|score)|được\s+(?:band|điểm|score)|(?:band|điểm|score))[^.!?\n]{0,25}?" ++ DECIMAL_SCORE ++ txt "|(?:band|điểm|score)[^.!?\n]{0,25}?của\s+(?:mình|tôi|em|tớ)[^.!?\n]{0,25}?" ++ DECIMAL_SCORE ++ txt ")").

Definition QUOTED_USER_TEXT_RE : regex :=
  mk Fu (qtext "~[^~]*~|“[^”]*”|‘[^’]*’|`[^`]*`|(?<![\p{L}\p{N}])'[^'\r\n]*'(?![\p{L}\p{N}])").

Definition PERSONAL_SCORE_CONTEXT : jsstring :=
  txt "(?:(?:điểm|band|score)[^.!?\n]{0,25}của\s+bạn|bạn\s+(?:đang\s+ở|đạt)\s+(?:band|điểm|score)|your\s+(?:current\s+)?(?:ielts\s+)?(?:score|band)|you\s+(?:are\s+at|scored))".

Definition PERSONAL_SCORE_RE : regex :=
  mk Fi (txt "(?:" ++ PERSONAL_SCORE_CONTEXT ++ txt "[^.!?\n]{0,60}?" ++ DECIMAL_SCORE ++ txt "|" ++ DECIMAL_SCORE ++ txt "[^.!?\n]{0,40}(?:của\s+bạn|your\s+(?:current\s+)?(?:score|band)))").

Definition SCHEDULE_CONTEXT : jsstring :=
  txt "(buổi học|lịch học|học vào|đã dời|được dời|chuyển lịch|ca học|giờ học)".

Definition TIME_MARKER : jsstring :=
  txt "\b\d{1,2}[/-]\d{1,2}([/-]\d{2,4})?\b|\b\d{1,2}:\d{2}\b".

Definition TIME_MARKER_GLOBAL_RE : regex :=
  mk Fi TIME_MARKER.

Definition SCHEDULE_CLAIM_BEFORE_RE : regex :=
  mk Fi (SCHEDULE_CONTEXT ++ txt "[^.!?\n]{0,60}$").

Definition SCHEDULE_CLAIM_AFTER_RE : regex :=
  mk Fi (txt "^[^.!?\n]{0,40}" ++ SCHEDULE_CONTEXT).

Definition TARGET_BAND_RE : regex :=
  mk Fi (txt "(mục tiêu band|band mục tiêu|target band)[^.!?\n]{0,30}\d+(?:[.,]\d+)?|\d+(?:[.,]\d+)?[^.!?\n]{0,30}(mục tiêu band|band mục tiêu)").

Definition EXAM_DATE_RE : regex :=
  mk Fi (txt "(ngày thi|dự thi|thi vào)[^.!?\n]{0,20}\d{1,2}[/-]\d{1,2}([/-]\d{2,4})?").

Definition TASK_COUNT_RE : regex :=
  mk Fi (txt "(đã (?:làm|viết|nộp|hoàn thành|sửa|chữa)|số bài|bài đã làm)[^.!?\n]{0,25}\d{1,2}\s*(?:bài|task\s*1|task\s*2)|\d{1,2}\s*/\s*\d{1,2}\s*bài").

Definition ROADMAP_STATE_RE : regex :=
  mk Fi (txt "(chưa có roadmap|đã hoàn thành toàn bộ bài tập|bài tập đã tồn tại|đã tạo bài tập mới|bài tập mới đã sẵn sàng|đã tạo bài mới)").

Definition CAPPED_LIST_CONTEXT : jsstring :=
  txt "(?:lịch(?:\s+học)?|buổi(?:\s+học)?|dữ\s*liệu|kết\s*quả|data|sessions?|entries|records|results|items|schedule|calendar|list)".

Definition CAPPED_ENGLISH_LIST_SUFFIX : jsstring :=
  txt "(?:(?:available|upcoming|past|previous|study|calendar)\s+){0,2}(?:sessions?|data|entries|records|results|items)".

Definition CAPPED_ENGLISH_TRAILER : jsstring :=
  txt "(?:\s+(?:(?:are|is|were|was)\s+)?(?:available|included|returned|shown|left|remaining|remain|remains)\b)?".

Definition CAPPED_NO_MORE_RE : jsstring :=
  txt "(?:hết\s+(?:tất\s+cả\s+|các\s+)?" ++ CAPPED_LIST_CONTEXT ++ txt "(?:\s+rồi)?|đã\s+hết\s+(?:các\s+)?" ++ CAPPED_LIST_CONTEXT ++ txt "(?:\s+rồi)?|" ++ CAPPED_LIST_CONTEXT ++ txt "\s+đã\s+hết(?:\s+rồi)?|chỉ\s+(?:có|còn)\s+\d+\s+" ++ CAPPED_LIST_CONTEXT ++ txt "|xem\s+hết\s+(?:danh\s+sách|" ++ CAPPED_LIST_CONTEXT ++ txt ")|không\s+(?:còn|có)\s+(?:các\s+|thêm\s+)?" ++ CAPPED_LIST_CONTEXT ++ txt "(?:\s+(?:sắp\s+tới|đã\s+qua))?(?:\s+nào)?(?:\s+(?:nữa|khác))?|there\s+(?:are|is|aren't|isn't)\s+(?:no(?:\s+any)?|any|0|zero)(?:\s+(?:more|further|additional))?\s+" ++ CAPPED_ENGLISH_LIST_SUFFIX ++ CAPPED_ENGLISH_TRAILER ++ txt "|no\s+(?:more|additional|other|further)\s+" ++ CAPPED_ENGLISH_LIST_SUFFIX ++ CAPPED_ENGLISH_TRAILER ++ txt "|no\s+remaining\s+" ++ CAPPED_ENGLISH_LIST_SUFFIX ++ CAPPED_ENGLISH_TRAILER ++ txt "|no\s+" ++ CAPPED_ENGLISH_LIST_SUFFIX ++ txt "\s+(?:are|is)\s+available|no\s+" ++ CAPPED_ENGLISH_LIST_SUFFIX ++ txt "\s+(?:(?:are|were|is|was)\s+)?found|no\s+" ++ CAPPED_ENGLISH_LIST_SUFFIX ++ txt "\s+(?:is|are)\s+(?:left|remaining|remain)|no\s+" ++ CAPPED_ENGLISH_LIST_SUFFIX ++ txt "\s+(?:remain|remains|left)\b|(?:i|you|we)\s+(?:don't|do\s+not|can't|cannot)\s+(?:have|find|see)\s+any\s+" ++ CAPPED_ENGLISH_LIST_SUFFIX ++ txt "|you\s+have\s+no\s+" ++ CAPPED_ENGLISH_LIST_SUFFIX ++ CAPPED_ENGLISH_TRAILER ++ txt "|no\s+" ++ CAPPED_ENGLISH_LIST_SUFFIX ++ txt ")".

Definition CAPPED_VIETNAMESE_QUANTITY_RE : jsstring :=
  txt "(?:\d+\s+" ++ CAPPED_LIST_CONTEXT ++ txt "\s+này\s+là\s+(?:toàn\s*bộ|tất\s*cả|đầy\s*đủ))".

Definition CAPPED_ENGLISH_PREDICATE_RE : jsstring :=
  txt "(?:(?:this|the)\s+" ++ CAPPED_LIST_CONTEXT ++ txt "\s+(?:is|are)\s+(?:complete|full|entire)|(?:this|these|those)\s+(?:is|are)\s+(?:the\s+)?(?:complete|full|entire)\s+" ++ CAPPED_LIST_CONTEXT ++ txt "|(?:these|those|this)\s+(?:are|is)\s+the\s+only\s+" ++ CAPPED_ENGLISH_LIST_SUFFIX ++ txt "|only\s+(?:\d+\s+)?" ++ CAPPED_ENGLISH_LIST_SUFFIX ++ txt ")".

Definition CAPPED_ALL_RE : jsstring :=
  txt "(?:" ++ CAPPED_NO_MORE_RE ++ txt "|(?:toàn\s*bộ|tất\s*cả|đầy\s*đủ)(?:\s+các)?(?:\s+\d+)?\s+" ++ CAPPED_LIST_CONTEXT ++ txt "(?:\s+(?:sắp\s+tới|đã\s+qua))?|" ++ CAPPED_LIST_CONTEXT ++ txt "\s+(?:toàn\s*bộ|tất\s*cả|đầy\s*đủ)|danh\s+sách\s+đầy\s*đủ|" ++ CAPPED_VIETNAMESE_QUANTITY_RE ++ txt "|" ++ CAPPED_ENGLISH_PREDICATE_RE ++ txt "|all\s+(?:(?:the|\d+)\s+)?" ++ CAPPED_ENGLISH_LIST_SUFFIX ++ CAPPED_ENGLISH_TRAILER ++ txt "|all\s+of\s+(?:the\s+)?" ++ CAPPED_ENGLISH_LIST_SUFFIX ++ CAPPED_ENGLISH_TRAILER ++ txt "|(?:these|those|this)\s+(?:are|is)\s+all\s+(?:the\s+)?" ++ CAPPED_ENGLISH_LIST_SUFFIX ++ CAPPED_ENGLISH_TRAILER ++ txt "|every\s+(?:\d+\s+)?" ++ CAPPED_ENGLISH_LIST_SUFFIX ++ CAPPED_ENGLISH_TRAILER ++ txt "|entirety\s+of\s+" ++ CAPPED_ENGLISH_LIST_SUFFIX ++ CAPPED_ENGLISH_TRAILER ++ txt "|entire\s+(?:schedule|list)|complete\s+(?:schedule|list)|full\s+(?:schedule|list))".

Definition CAPPED_COMPLETENESS_RE : regex :=
  mk Fiu CAPPED_ALL_RE.

Definition NEGATED_COMPLETENESS_RE : regex :=
  mk Fiu (txt "(?:không\s+phải(?:\s+là)?|not(?:\s+(?:the|a))?|(?:is|are|was|were)\s+not(?:\s+(?:the|a))?|(?:isn't|aren't|wasn't|weren't)(?:\s+(?:the|a))?)\s*" ++ CAPPED_ALL_RE ++ txt "\s*$").

Definition NEGATED_TRAILING_RE : regex :=
  mk Fiu (qtext "\s+(?:(?:are|is|were|was)\s+not|aren't|isn't|weren't|wasn't|not)\s+(?:included|returned|shown|available)\b").

Definition UNCERTAIN_COMPLETENESS_RE : regex :=
  mk Fiu (qtext "(?:cannot|can't|unable\s+to)\s+(?:confirm|say|know)\s+(?:whether\s+)?(?:(?:this|that|it)\s+is\s+)?(?:the|a)?\s*$|(?:chưa\s+thể|không\s+thể)\s+xác\s+nhận\s+(?:đây\s+là)?\s*$").

(** ** Claims of completeness *)

Record UnsupportedCompletenessClaim := mkClaim { start_ : nat; end_ : nat; c_text : jsstring }.

(** [s.lastIndexOf(c) + 1] of a single character. *)
Definition afterLast (c : Z) (s : jsstring) : nat :=
  foldl (λ a n, if bool_decide (s !! n = Some c) then S n else a) 0%nat (seq 0 (length s)).

Definition CLAUSE_END : regex := mk Fu (js "[.!?;,\n]").

(** What is before and after a claim in its clause. *)
Definition claimClauseContext (responseText : jsstring) (start end_ : nat) : jsstring * jsstring :=
  let before := take start responseText in
  let clauseStart := foldr Nat.max 0%nat ((λ c, afterLast c before) <$> [46; 33; 63; 59; 44; 10]) in
  let after := drop end_ responseText in
  let suffix := match exec CLAUSE_END after with Some x => take (Z.to_nat (m_index x)) after | None => after end in
  (drop clauseStart before, suffix).

Definition UPCOMING_TOOL : jsstring := js "get_upcoming_study_sessions".

Definition isUpcomingKey (key : jsstring) : bool :=
  bool_decide (key = UPCOMING_TOOL) || isPrefix (UPCOMING_TOOL ++ [58]) key.

(** The scope of a disclosure; [None] is the unknown one. *)
Definition scopeOf (e : jsstring * BoundedToolDisclosure) : option CalendarTimeRange :=
  match timeRange e.2 with
  | Some r => Some r
  | None => if isUpcomingKey e.1 then Some Upcoming else None
  end.

Definition ONLY_COUNT : regex := mk Fiu (js "^only\s+(\d+)\s+(?:(?:available|upcoming|study)\s+)?sessions?$").
Definition RETURNED_SUFFIX : regex := mk Fiu (js "^\s+(?:(?:are|were|is|was)\s+)?returned\b").
Definition PAST_SCOPE : regex := mk Fiu (txt "(?:đã\s+qua|past|previous)").
Definition UPCOMING_SCOPE : regex := mk Fiu (txt "(?:sắp\s+tới|upcoming|future)").
Definition REQUESTS_ALL : regex := mk Fiu (txt "(?:all|everything|entire|toàn\s*bộ|tất\s*cả)").
Definition REFUSES_ALL : regex :=
  mk Fiu (txt "(?:not|n't|không(?:\s+(?:phải|là))?|chẳng|trừ)\s+(?:(?:the|a)\s+)?(?:all|everything|entire|toàn\s*bộ|tất\s*cả)").

(** A count is below 2^53. *)
Definition isAccurateReturnedCountClaim (claim suffix context : jsstring) (disclosures : disclosureMap)
    (userText : jsstring) : bool :=
  match exec ONLY_COUNT claim with
  | None => false
  | Some x =>
      if negb (test RETURNED_SUFFIX suffix) then false else
      let wanted := digitsVal (dollar 1 x) in
      let scopeText := context ++ js " " ++ userText in
      let mentionsPast := test PAST_SCOPE scopeText in
      let mentionsUpcoming := test UPCOMING_SCOPE scopeText in
      let requestsAll := test REQUESTS_ALL userText && negb (test REFUSES_ALL userText) in
      let matching := filter (λ e,
        (bool_decide (count e.2 = Some wanted)
         && negb (mentionsPast && negb (bool_decide (scopeOf e = Some Past)))
         && negb (mentionsUpcoming && negb (bool_decide (scopeOf e = Some Upcoming)))
         && negb (requestsAll && negb (bool_decide (scopeOf e = Some All)))) = true) disclosures in
      match scopeOf <$> matching with
      | [] => false
      | r :: rs => forallb (λ r', bool_decide (r' = r)) rs
      end
  end.

Definition findUnsupportedCompletenessClaims (responseText : jsstring) (disclosures : disclosureMap)
    (userText : jsstring) : list UnsupportedCompletenessClaim :=
  omap (λ claim,
    let index := Z.to_nat (m_index claim) in
    let text := m_text claim in
    let '(prefix, suffix) := claimClauseContext responseText index (index + length text) in
    if negb (isAccurateReturnedCountClaim text suffix (prefix ++ text ++ suffix) disclosures userText)
       && negb (test NEGATED_COMPLETENESS_RE (prefix ++ text))
       && negb (test NEGATED_TRAILING_RE (text ++ suffix))
       && negb (test UNCERTAIN_COMPLETENESS_RE prefix)
    then Some (mkClaim index (index + length text) text) else None)
    (matchAll CAPPED_COMPLETENESS_RE responseText).

Definition hasUnsupportedCappedCompletenessClaim (responseText : jsstring) (disclosures : option disclosureMap)
    (userText : jsstring) : bool :=
  match disclosures with
  | None | Some [] => false
  | Some ds => negb (bool_decide (length (findUnsupportedCompletenessClaims responseText ds userText) = 0%nat))
  end.

Definition ENGLISH_CLAIM : regex :=
  mk Fiu (js "^(?:there\s+(?:are|is)|no\b|all\b|every\b|entirety\b|entire\b|complete\b|full\b|this\b|the\b|you\b|these\b|those\b|only\b)").

Definition isEnglishCompletenessClaim (claim : jsstring) : bool := test ENGLISH_CLAIM claim.

Definition DETERMINER : regex := mk Fiu (js "\b(?:a|an|the|this|that|these|those)\s*$").
Definition SENTENCE_END : regex := mk Fu (js "[.!?]\s*$").
Definition QUANTITY_CLAIM : regex :=
  mk Fiu (txt "^(\d+\s+.+?)\s+này\s+là\s+(?:toàn\s*bộ|tất\s*cả|đầy\s*đủ)").
Definition NO_MORE_CLAIM : regex :=
  mk Fiu (txt "^(?:hết|" ++ CAPPED_LIST_CONTEXT ++ txt "\s+đã\s+hết|chỉ\s+(?:có|còn)|không\s+(?:còn|có)(?:\s+các|\s+thêm)?|xem\s+hết|no\s+(?:more|additional|other|further|remaining)|no\s+" ++ CAPPED_ENGLISH_LIST_SUFFIX ++ txt "\s+(?:are|is)\s+available|no\s+" ++ CAPPED_ENGLISH_LIST_SUFFIX ++ txt "\s+(?:(?:are|were|is|was)\s+)?found|no\s+" ++ CAPPED_LIST_CONTEXT ++ txt "\s+(?:is|are)\s+(?:left|remaining|remain)|there\s+(?:are|is|aren't|isn't)\s+(?:no|any|0|zero)|(?:i|you|we)\s+(?:don't|do\s+not|can't|cannot)\s+(?:have|find|see)\s+any|no\s+(?:available\s+|upcoming\s+|study\s+){0,2}(?:sessions?|data)\s+(?:remain|left)|no\s+" ++ CAPPED_ENGLISH_LIST_SUFFIX ++ txt "|you\s+have\s+no)").
Definition VIETNAMESE_SCOPE : regex := mk Fiu (txt "(?:sắp\s+tới|đã\s+qua)").
Definition VIETNAMESE_UPCOMING : regex := mk Fiu (txt "sắp\s+tới").

(** [charAt(0).toLocaleUpperCase()] before the rest. *)
Definition capitalized (s : jsstring) : jsstring :=
  match s with c :: s' => (if isAscii c then asciiUpper c else u_upper c) :: s' | [] => [] end.

Definition boundedClaimReplacement (claim prefix : jsstring) (capitalize : bool) : jsstring :=
  let isEnglish := isEnglishCompletenessClaim claim in
  let embedded := negb (js_blank prefix) && negb (test SENTENCE_END prefix) in
  let scopeSuffix :=
    if test VIETNAMESE_SCOPE claim then Some (if test VIETNAMESE_UPCOMING claim then txt "sắp tới" else txt "đã qua")
    else None in
  let replacement :=
    match exec QUANTITY_CLAIM claim with
    | Some x => dollar 1 x ++ txt " này là dữ liệu đã trả về"
    | None =>
        if test NO_MORE_CLAIM claim then
          if isEnglish then
            if embedded then js "no confirmed remaining data" else js "I cannot confirm whether more data remains"
          else txt "chưa xác nhận còn dữ liệu nào khác"
        else if isEnglish then
          if test DETERMINER prefix then js "returned data" else js "the returned data"
        else match scopeSuffix with Some t => txt "lịch " ++ t | None => txt "dữ liệu" end
    end in
  if capitalize then capitalized replacement else replacement.

(** The claims are replaced from the last to the first. *)
Definition rewriteClaims (responseText : jsstring) (claims : list UnsupportedCompletenessClaim) : jsstring :=
  foldl (λ rewritten claim,
    let prefix := take (start_ claim) responseText in
    take (start_ claim) rewritten
    ++ boundedClaimReplacement (c_text claim) prefix (bool_decide (start_ claim = 0%nat) || test SENTENCE_END prefix)
    ++ drop (end_ claim) rewritten) responseText (rev claims).

Definition rewriteUnsupportedCappedCompletenessClaims (responseText : jsstring) (disclosures : option disclosureMap)
    (userText : jsstring) : option jsstring :=
  match disclosures with
  | None => None
  | Some ds =>
      match findUnsupportedCompletenessClaims responseText ds userText with
      | [] => None
      | claims => Some (js_trim (rewriteClaims responseText claims))
      end
  end.

(** ** Claims of personal data *)

Definition SCORE_IN_CLAIM : regex := mk F_ (js "\d+[.,]\d+").

(** The value of a decimal; two decimals of at most fifteen digits are the same
    number exactly when their values are equal. *)
Definition decimalOf (s : jsstring) : option Q :=
  match indexOf [46] s with
  | Some n => Some (inject_Z (digitsVal (take n s ++ drop (S n) s)) / inject_Z (10 ^ (len s - Z.of_nat n - 1)))%Q
  | None => None
  end.

Definition scoreIn (claim : jsstring) : option jsstring := m_text <$> exec SCORE_IN_CLAIM claim.

Definition commaToPoint (s : jsstring) : jsstring :=
  match indexOf [44] s with Some n => take n s ++ [46] ++ drop (S n) s | None => s end.

Definition learnerScores (userText : jsstring) : list Q :=
  omap (λ x, scoreIn (m_text x) ≫= λ t, decimalOf (commaToPoint t))
       (matchAll USER_PERSONAL_SCORE_RE (replaceAll QUOTED_USER_TEXT_RE (λ _, js " ") userText)).

(** [Number(scoreText)] of a text with a comma is not a number. *)
Definition echoed (scores : list Q) (scoreText : jsstring) : bool :=
  match decimalOf scoreText with Some q => existsb (λ p, Qeq_bool p q) scores | None => false end.

Definition hasUngroundedPersonalScoreClaim (responseText userText : jsstring) : bool :=
  let scores := learnerScores userText in
  existsb (λ x, match scoreIn (m_text x) with Some t => negb (echoed scores t) | None => true end)
          (matchAll PERSONAL_SCORE_RE responseText).

Definition hasUngroundedScheduleClaim (responseText userText : jsstring) : bool :=
  existsb (λ x,
    let marker := m_text x in
    let index := Z.to_nat (m_index x) in
    if includes (toLowerCase userText) (toLowerCase marker) then false else
    let before := drop (index - 60) (take index responseText) in
    let after := take 40 (drop (index + length marker) responseText) in
    test SCHEDULE_CLAIM_BEFORE_RE before || test SCHEDULE_CLAIM_AFTER_RE after)
    (matchAll TIME_MARKER_GLOBAL_RE responseText).

Definition hasAny (called required : list jsstring) : bool := existsb (λ t, bool_decide (t ∈ called)) required.

Definition GOALS_TOOLS : list jsstring := SCORE_TOOLS.
Definition PROGRESS_TOOLS : list jsstring := getAgentToolNamesByGroundingClaim "progress".
Definition EXERCISE_TOOLS : list jsstring := getAgentToolNamesByGroundingClaim "exercise".

Definition checkLlmGrounding (responseText : jsstring) (toolsCalledThisTurn : list jsstring) (userText : jsstring)
    (disclosures : option disclosureMap) : Grounding :=
  let without reason := mkGrounding true (Some reason) None in
  if hasUnsupportedCappedCompletenessClaim responseText disclosures userText
  then mkGrounding true (Some "capped_result_claim"%string)
         (rewriteUnsupportedCappedCompletenessClaims responseText disclosures userText)
  else if hasUngroundedPersonalScoreClaim responseText userText && negb (hasAny toolsCalledThisTurn SCORE_TOOLS)
  then without "score_without_tool"%string
  else if test TARGET_BAND_RE responseText && negb (hasAny toolsCalledThisTurn GOALS_TOOLS)
  then without "score_without_tool"%string
  else if test EXAM_DATE_RE responseText && negb (hasAny toolsCalledThisTurn GOALS_TOOLS)
  then without "score_without_tool"%string
  else if test TASK_COUNT_RE responseText && negb (hasAny toolsCalledThisTurn PROGRESS_TOOLS)
  then without "score_without_tool"%string
  else if test ROADMAP_STATE_RE responseText && negb (hasAny toolsCalledThisTurn EXERCISE_TOOLS)
  then without "schedule_without_tool"%string
  else if negb (hasAny toolsCalledThisTurn SCHEDULE_TOOLS) && hasUngroundedScheduleClaim responseText userText
  then without "schedule_without_tool"%string
  else mkGrounding false None None.
End Claims.

Lemma grounding_patterns_parse :
  forallb parses
    [USER_PERSONAL_SCORE_RE; QUOTED_USER_TEXT_RE; PERSONAL_SCORE_RE; TIME_MARKER_GLOBAL_RE; SCHEDULE_CLAIM_BEFORE_RE;
     SCHEDULE_CLAIM_AFTER_RE; TARGET_BAND_RE; EXAM_DATE_RE; TASK_COUNT_RE; ROADMAP_STATE_RE; CAPPED_COMPLETENESS_RE;
     NEGATED_COMPLETENESS_RE; NEGATED_TRAILING_RE; UNCERTAIN_COMPLETENESS_RE; CLAUSE_END; ONLY_COUNT; RETURNED_SUFFIX;
     PAST_SCOPE; UPCOMING_SCOPE; REQUESTS_ALL; REFUSES_ALL; ENGLISH_CLAIM; DETERMINER; SENTENCE_END; QUANTITY_CLAIM;
     NO_MORE_CLAIM; VIETNAMESE_SCOPE; VIETNAMESE_UPCOMING; SCORE_IN_CLAIM] = true.
Proof. vm_compute. reflexivity. Qed.

(** ** A corner case *)

(** A reply that repeats the learner's score passes with a decimal point and is
    refused with a decimal comma. *)
Lemma comma_score_not_echoed :
  suspicious (@checkLlmGrounding asciiOnly (js "Your score is 6.5") [] (js "my score is 6.5") None) = false
  ∧ suspicious (@checkLlmGrounding asciiOnly (js "Your score is 6,5") [] (js "my score is 6,5") None) = true.
Proof. split; vm_compute; reflexivity. Qed.
End Grounding.
