(* ===== verification/OutputGuards.v ===== *)
(** * The guards on a reply

    packages/llm-agent, safety/final-output.utils.ts and the recognition of a
    disclosure in internal/safety-pipeline.ts: leaks of the prompt, of credentials,
    of the vendor and of internal details, harmful content, and the canary.

    [replyGuards] is the instance of [ReplyGuards] that the code has. *)

From S2P Require Import Prelude Json JsText JsRegex Masking AgentTools PromptSafety ToolObservation ToolRound ReplySafety PromptGuards ScopeGuards Grounding.

Module OutputGuards.
Import Json JsText JsRegex Masking AgentTools ReplySafety PromptGuards.

Section Output.
Context `{Unicode}.

(** ** Tables *)

Definition SYSTEM_PROMPT_LEAK_MARKERS : list jsstring :=
  [txt "You are the WISPACE assistant";
   txt "WISPACE scope (mandatory)";
   txt "OUT-OF-SCOPE questions";
   txt "Crisis/self-harm (support handoff)";
   txt "Non-disclosure of internal details";
   txt "When NOT to call tools";
   txt "Do NOT act as a general-purpose assistant";
   txt "Multi-intent requests (2+ tasks in one message)";
   txt "Personal data — never fabricate"].

Definition VENDOR_MODEL_PATTERNS : list regex :=
  [mk Fi (txt "\b(open\s*ai|anthropic|openrouter|together\s+ai|groq|mistral\s+ai|deepseek|minimax|azure\s+openai|aws\s+bedrock|vertex\s+ai|google\s+ai)\b");
   mk Fi (txt "\b(?:i am|i'm|my model is|this assistant (?:is|uses)|powered by|built (?:with|by)|running on|based on)\s+(?:the\s+)?(?:chatgpt|claude|gemini|llama|mixtral|qwen|grok)\b");
   mk Fi (txt "\b(?:chatgpt|claude|gemini|llama|mixtral|qwen|grok)\s+(?:powers|runs|operates)\s+(?:me|this assistant|the assistant)\b");
   mk Fi (txt "\b(?:the\s+)?(?:model|llm)\s*(?::|=|is)\s+(?:chatgpt|claude|gemini|llama|mixtral|qwen|grok)\b");
   mk Fi (txt "\b(?:chatgpt|claude|gemini|llama|mixtral|qwen|grok)\s+is\s+(?:the\s+)?model\s+used\s+(?:by|for)\s+(?:this\s+)?(?:assistant|me|you)\b");
   mk Fi (txt "\b(?:chatgpt|claude|gemini|llama|mixtral|qwen|grok)\s+is\s+(?:being\s+)?used\s+(?:by|for)\s+(?:this\s+)?(?:assistant|me|you)\b");
   mk Fi (txt "\b(?:mình|tôi|minh|toi)\s+(?:là|la|chạy trên|chay tren|đang chạy trên|dang chay tren|dùng|dung|đang dùng|dang dung)\s+(?:chatgpt|claude|gemini|llama|mixtral|qwen|grok)\b");
   mk Fi (txt "\bgpt\b");
   mk Fi (txt "\bgpt[-_\s]?\d");
   mk Fi (txt "\bclaude[-_\s]?\d");
   mk Fi (txt "\bo[134]-(?:mini|preview|pro)\b");
   mk Fi (txt "\bsystem\s*fingerprint\b");
   mk Fi (txt "\bknowledge\s+cutoff\b");
   mk Fi (txt "\btemperature\s*[:=]\s*\d");
   mk Fi (txt "\btop[_-]?p\s*[:=]")].

Definition FIRST_PERSON_MODEL_USAGE : regex :=
  mk Fi (txt "\b(?:i am using|i'm using|i use)\s+(?:the\s+)?(?:chatgpt|claude|gemini|llama|mixtral|qwen|grok)\b").

Definition QUOTED_MODEL_REFERENCE : regex :=
  mk Fi (qtext "[~“‘`][^~“”‘’`\r\n]{0,120}\b(?:chatgpt|claude|gemini|llama|mixtral|qwen|grok)\b[^~“”‘’`\r\n]{0,120}[~”’`]").

Definition escapeRegExp (value : jsstring) : jsstring :=
  concat ((λ c, if bool_decide (c ∈ js ".*+?^${}()|[]\") then [92; c] else [c]) <$> value).

(** A name between characters that are no letter, digit or underscore. *)
Definition namePattern (name : jsstring) : regex :=
  mk Fiu (js "(^|[^\p{L}\p{N}_])" ++ escapeRegExp name ++ js "(?=$|[^\p{L}\p{N}_])").

Definition withoutMarkdown (name : jsstring) : list jsstring := [name; ScopeGuards.sanitizeReplyText name].

(** The tools' names are those of [agentToolSpecs]. *)
Definition TOOL_NAME_LEAK_PATTERNS : list regex :=
  AGENT_TOOL_NAMES ≫= λ name, namePattern <$> dedup (withoutMarkdown name).

(** The capability's fields with their values as texts. *)
Definition capabilityEntries (c : AgentToolCapability) : list (string * jsstring) :=
  [("effect"%string, js (effect c)); ("identity"%string, js (identity c)); ("authorization"%string, js (authorization c));
   ("confirmation"%string, js (confirmation c)); ("idempotency"%string, js (idempotency c))]
  ++ match providerGuaranteeRequired c with
     | Some b => [("provider_guarantee"%string, if b then js "true" else js "false")]
     | None => []
     end.

Definition CAPABILITY_VALUE_LEAK_PATTERNS : list regex :=
  namePattern <$> dedup (agentToolSpecs ≫= λ s,
    filter (λ v, v ≠ js "none") (snd <$> take 5 (capabilityEntries (specCapability s))) ≫= withoutMarkdown).

Definition CAPABILITY_ASSIGNMENT_LEAK_PATTERNS : list regex :=
  agentToolSpecs ≫= λ s,
    (λ e, mk Fi (js "\b" ++ escapeRegExp (js e.1) ++ js "\s*[:=]\s*" ++ escapeRegExp e.2 ++ js "\b"))
    <$> capabilityEntries (specCapability s).

(** The categories in the order of the record. *)
Definition OUTPUT_DISCLOSURE_PATTERNS : list (string * list regex) :=
  [("agent_tool_architecture"%string,
    TOOL_NAME_LEAK_PATTERNS ++ CAPABILITY_VALUE_LEAK_PATTERNS ++ CAPABILITY_ASSIGNMENT_LEAK_PATTERNS ++
  [mk Fi (txt "\b(?:policy\s+vocabulary|(?:tool|function)\s+schemas?|(?:tool|function)\s+definitions?)\b");
   mk Fi (txt "\b(?:(?:i|we)\s+(?:can\s+call|have|use|support|expose)|(?:this|the)\s+(?:assistant|agent)\s+(?:can\s+call|has|uses?|supports?|exposes?))\s+(?:\d+|one|two|three|four|five|six|seven|eight|nine|ten)\s+tools?\b");
   mk Fi (txt "\b(?:\d+|one|two|three|four|five|six|seven|eight|nine|ten)\s+schemas?\b");
   mk Fi (txt "\b(?:i|we|the\s+assistant|the\s+agent)\s+(?:can\s+call|have|support|expose)\s+(?:\d+|one|two|three|four|five|six|seven|eight|nine|ten)\s+functions?\b")]);
   ("system_prompt"%string,
    ((λ m, mk Fi (escapeRegExp m)) <$> SYSTEM_PROMPT_LEAK_MARKERS) ++
  [mk Fi (txt "\b(?:system\s+prompt|system\s+message|developer\s+instructions?)\s*[:=]\s*\S+")]);
   ("sampling_parameters"%string,
  [mk Fi (txt "\b(?:temperature|top[_ -]?p|top[_ -]?k|seed|max[_ -]?tokens?|frequency[_ -]?penalty|presence[_ -]?penalty|system\s*fingerprint)\s*[:=]\s*[\w.-]+")]);
   ("runtime_identity_hosting"%string,
  [mk Fi (txt "\b(?:i|we|this assistant|the assistant|this bot|the bot|wispace)\b.{0,30}\b(?:hosted|deployed|running)\s+(?:on|at)\s+(?:aws|gcp|azure|vps|heroku|render|railway|digitalocean)\b");
   mk Fi (txt "\b(?:our|internal|this assistant's|the assistant's|this bot's|the bot's|wispace's)\s+(?:database|db|server|cloud|api\s+endpoint|endpoint)\s*(?:is|:|=)\s*\S+")]);
   ("environment_variables"%string,
  [mk F_ (txt "\b[A-Z][A-Z0-9]*(?:_[A-Z0-9]+)+\b")]);
   ("file_paths"%string,
  [mk Fi (txt "\b(?:apps|packages|deploy|\.github)\/(?:[\w.-]+\/)*[\w.-]+\.(?:ts|js|json|txt|yaml|yml|sh|md|env)\b");
   mk Fi (txt "\b[A-Z]:\\(?:[^\\\s]+\\)*[^\\\s]+\.(?:ts|js|json|txt|yaml|yml|sh|md|env)\b")]);
   ("internal_rate_limits"%string,
  [mk Fi (txt "\b(?:internal|configured|actual)\s+rate\s+limit\b.{0,30}\b\d+\b");
   mk Fi (txt "\brate[_ -]?limit\s*[:=]\s*\d+\b");
   mk Fi (txt "\b(?:i|we|the assistant|this assistant|the bot|this bot)\b.{0,20}\b\d+\s+(?:requests?|calls?)\s+per\s+(?:minute|second)\b")]);
   ("safety_abuse_detection"%string,
  [mk Fi (txt "\b(?:prompt[- ]injection|abuse\s+detection)\s+(?:is\s+)?(?:detected|blocked|filtered)\s+(?:by|using|with)\b");
   mk Fi (txt "\b(?:i|we|this assistant|the assistant)\s+(?:detect|block|filter|classify)\b.{0,35}\b(?:prompt[- ]injection|abuse|malicious|unsafe)\b");
   mk Fi (txt "\b(?:my|our|this assistant's|the assistant's)\s+(?:blocked\s+keywords?|refused\s+topics?|safety\s+rules?|guardrails?)\b");
   mk Fi (txt "\b(?:blocked\s+keywords?|refused\s+topics?|safety\s+rules?|guardrails?)\b.{0,30}\b(?:assistant|agent)\b")])].

Definition SELF_HARM_INSTRUCTION_PATTERNS : list regex :=
  [mk Fi (txt "\b(?:how|ways?|steps?|instructions?)\s+(?:to|for)\s+(?:self[-\s]?harm|harm\s+(?:my|your)self)\b");
   mk Fi (txt "\b(?:how|ways?|steps?|instructions?)\s+(?:to|for)\s+commit\s+suicide\b");
   mk Fi (txt "\b(?:how(?:\s+(?:do|can)\s+i)?|what\s+is\s+the\s+(?:most\s+)?(?:effective|quickest|best)\s+way|(?:tell|show)\s+me\s+how|(?:give|provide)\s+(?:me\s+)?(?:instructions?|steps?)|instructions?\s+(?:for|to)|steps?\s+to|ways?\s+to)\b(?:(?!\b(?:prevent(?:ion|ing)?|avoid(?:ing)?|stop(?:ping)?|reduce|support|help|protect|safety|safe|warning|education|awareness|treatment|recovery|hotline|intervention|not|never|don't|do\s+not)\b).){0,100}\b(?:kill\s+(?:my|your)self|take\s+(?:my|your)\s+life|cut\s+(?:my|your)self|overdose(?:\s+on)?|hang\s+(?:my|your)self|jump\s+off\s+(?:a|the)\s+(?:bridge|building|roof))\b");
   mk Fi (txt "(?:chi minh|huong dan|cach|lam sao|lam the nao|phuong phap)(?![^.!?\n]{0,40}(?:phong ngua|ngan chan|ngan ngua|ho tro|giup|tuyen truyen))[^.!?\n]{0,100}(?:cat\s+(?:co tay|tay)|uong\s+thuoc\s+qua\s+lieu|nhay\s+(?:lau|cau)|tu\s+(?:sat|tu))");
   mk Fu (txt "(?:怎么|如何|怎样|教我|指导|方法)(?![^。！？\n]{0,20}(?:预防|防止|避免|支持|帮助|热线|宣传))[^。！？\n]{0,40}(?:割腕|自杀|自残|跳楼|跳桥|过量服药|上吊)");
   mk Fi (txt "\b(?:you should|you must|go ahead and|just|it's okay to|please)\s+(?!not\b|never\b|don't\b|do\s+not\b)(?:kill yourself|harm yourself|cut yourself|take your life|end your life|commit suicide|overdose|hang yourself|jump off (?:a|the) (?:bridge|building|roof))\b");
   mk Fi (txt "(?:hay|ban nen|ban phai|cu|di|phai|nen)\s+(?:tu tu|tu sat|tu hai|cat tay|cat co tay|nhay lau|nhay cau)(?:\s+di)?\b");
   mk Fu (txt "(?:你应该|你必须|去|赶紧|就去)\s*(?:自杀|自残|割腕|跳楼|跳桥|上吊)")].

Definition TARGETED_HARASSMENT_PATTERNS : list regex :=
  [mk Fi (txt "(?:write|generate|draft|compose|create).{0,100}(?:smear\s+campaign|defam(?:e|ation)|harass(?:ing|ment)?|humiliat(?:e|ing)|insults?|threat(?:en(?:ing)?)?|doxx(?:ing)?|ridicul(?:e|ing)?|mock(?:ing)?).{0,100}(?:about|against|at|to|on|accusing|targeting|john|someone|somebody|him|her|them)\b");
   mk Fi (txt "(?:how\s+(?:do|can)\s+i|(?:give|provide)\s+(?:me\s+)?(?:instructions?|steps?)|instructions?\s+(?:for|to)|steps?\s+to).{0,100}(?:doxx|harass|threaten).{0,100}(?:someone|somebody|a\s+person|him|her|them|phone|number)\b");
   mk Fi (txt "(?:viet|soan|lap).{0,100}(?:chui|ha nhuc|xuc pham|boi nho|quay roi|de doa|lang ma).{0,100}(?:thang|con|ong|ba|co|anh|chi|ban|nguoi|ten|lan)\b");
   mk Fi (txt "(?:huong dan|cach).{0,100}(?:doxx|quay roi|de doa|boi nho|xuc pham).{0,100}(?:nguoi|so dien thoai|thang|con|anh|chi|ban)\b");
   mk Fu (txt "(?:写|生成|编写|帮我写|起草).{0,100}(?:造谣|诽谤|侮辱|骚扰|威胁|辱骂).{0,100}(?:李华|某人|别人|他|她|同学|老师)");
   mk Fu (txt "(?:教我|怎么|如何).{0,100}(?:人肉搜索|恶意轰炸|造谣|诽谤|骚扰).{0,100}(?:别人|某人|他|她|同学|老师|手机号码)");
   mk Fi (txt "(?:harass|humiliat|insult|threaten|defam|doxx|smear|ridicul|mock|abuse).{0,80}(?:him|her|them)\b");
   mk Fi (txt "(?:him|her|them).{0,80}(?:harass|humiliat|insult|threaten|defam|doxx|smear|ridicul|mock|abuse)\b");
   mk F_ (txt "\b(?!(?:You|This|That|Someone|Somebody|Anyone|Everyone|Everybody|Nobody|He|She|They|We|It|The|A|An|My|Your|Our|Their|His|Her|These|Those|Please|Write|Generate)\b)[A-Z][a-z]{1,30}\b.{0,80}(?:idiot|stupid|disgusting|loser|scum|worthless|piece\s+of\s+shit)\b");
   mk F_ (txt "\b(?:[Hh]arass|[Hh]umiliat|[Ii]nsult|[Tt]hreaten|[Dd]efam|[Dd]oxx|[Ss]mear|[Rr]idicul|[Mm]ock|[Aa]buse).{0,80}\b[A-Z][a-z]{1,30}\b");
   mk Fi (txt "(?:chui|ha nhuc|xuc pham|boi nho|quay roi|de doa|lang ma).{0,80}\b(?:thang|con|ong|ba|anh|chi|ten|lan)\b");
   mk Fi (txt "\b(?:thang|con|ong|ba|anh|chi|ban|ten|lan)\b.{0,80}(?:chui|ha nhuc|xuc pham|boi nho|quay roi|de doa|lang ma|ngu|rac ruoi|ngoc|do te)\b");
   mk Fu (txt "(?:辱骂|侮辱|骚扰|威胁|诽谤).{0,40}(?:李华|某人|他|她|同学|老师)");
   mk Fu (txt "(?:李华|某人|他|她|同学|老师).{0,40}(?:辱骂|侮辱|骚扰|威胁|诽谤|废物|蠢货|垃圾|笨蛋)")].

Definition TARGETED_HARASSMENT_CONTEXT_PATTERNS : list regex :=
  [mk Fi (txt "\b(?:fiction(?:al)?|literary|literature|character|quoted?|quote|analysis|analy[sz]e|example|academic|constructive|criticism|critique|feedback|respectful|essay|discussion)\b");
   mk Fi (txt "(?:nhan vat|van hoc|trich dan|trich|phan tich|vi du|hoc thuat|xay dung|gop y|ton trong|bai luan)");
   mk Fu (txt "(?:虚构|小说|文学|角色|引用|引文|分析|例子|学术|建设性|批评|反馈|尊重|讨论)")].

Definition TARGETED_HARASSMENT_ACTION_MARKERS : list regex :=
  [mk Fi (txt "\b(?:harass|humiliat|insult|threaten|defam|doxx|smear|ridicul|mock|abuse)\w*\b");
   mk Fi (txt "(?:chui|ha nhuc|xuc pham|boi nho|quay roi|de doa|lang ma)");
   mk Fu (txt "(?:辱骂|侮辱|骚扰|威胁|诽谤|人肉搜索|恶意轰炸)")].

(** ** Quoted examples *)

Definition GRAMMAR_AFTER : regex := mk Fi (js "^\s*(?:(?:is|seems|sounds|looks)\s+)?(?:grammatically|grammar-wise)\s+(?:correct|incorrect|natural)\b").
Definition GRAMMAR_BEFORE : regex := mk Fi (js "\b(?:grammatically|grammar-wise)\s+(?:correct|incorrect|natural)\s+to\s+(?:say|write|use|phrase|express)\s*$").
Definition SENTENCE_BEFORE : regex := mk Fi (js "\b(?:sentence|phrase|wording)\s*$").
Definition CORRECT_AFTER : regex := mk Fi (js "^\s*(?:is|seems|sounds|looks)\s+(?:a\s+)?(?:correct|incorrect|natural)\b").
Definition EXAMPLE_BEFORE : regex := mk Fi (js "\b(?:use|write|say|give|provide|include)\b[^.!?\n]{0,60}$").
Definition EXAMPLE_AFTER : regex := mk Fi (js "^\s+as\s+an?\s+example\s+(?:sentence|phrase)\b").

Definition isQuotedModelLanguageExample (text quoted : jsstring) (offset : nat) : bool :=
  let precedingText := drop (offset - 80) (take offset text) in
  let followingText := take 45 (drop (offset + length quoted) text) in
  test GRAMMAR_AFTER followingText || test GRAMMAR_BEFORE precedingText
  || test SENTENCE_BEFORE precedingText && test CORRECT_AFTER followingText
  || test EXAMPLE_BEFORE precedingText && test EXAMPLE_AFTER followingText.

(** ** The checks *)

Definition anyTest (table : list regex) (candidate : jsstring) : bool := existsb (λ r, test r candidate) table.

Definition isTargetedHarassmentCandidate (candidate : jsstring) : bool :=
  if negb (anyTest TARGETED_HARASSMENT_PATTERNS candidate) then false
  else negb (anyTest TARGETED_HARASSMENT_CONTEXT_PATTERNS candidate) || anyTest TARGETED_HARASSMENT_ACTION_MARKERS candidate.

Definition NON_ALPHANUMERIC : regex := mk Fu (js "[^\p{L}\p{N}]+").

Definition compactCanonicalText (text : jsstring) : jsstring := replaceAll NON_ALPHANUMERIC (λ _, []) text.

Definition CANARY : regex := mk F_ (js "^[0-9a-f]{32}$").

Definition checkPromptCanarySafety (text promptCanary : jsstring) : Verdict :=
  let canary := toLowerCase (compactCanonicalText promptCanary) in
  if negb (test CANARY canary) then mkVerdict false None
  else if existsb (λ c, includes (toLowerCase (compactCanonicalText c)) canary) (buildSafetyScanCandidates text)
  then mkVerdict true (Some "prompt_canary_hit"%string) else mkVerdict false None.

Definition containsPromptLeakMarker (outputCandidates : list jsstring) : bool :=
  let canonicalOutputCandidates := tail outputCandidates in
  existsb (λ marker,
    existsb (λ markerCandidate,
      let compactMarker := compactCanonicalText markerCandidate in
      existsb (λ c, includes c markerCandidate || includes (compactCanonicalText c) compactMarker)
        canonicalOutputCandidates)
      (tail (buildSafetyScanCandidates marker)))
    SYSTEM_PROMPT_LEAK_MARKERS.

(** [quoted.slice(1, -1)]. *)
Definition unquote (quoted : jsstring) : jsstring := removelast (tail quoted).

Definition vendorScanTextOf (text : jsstring) : jsstring :=
  replaceAll QUOTED_MODEL_REFERENCE
    (λ x, if isQuotedModelLanguageExample text (m_text x) (Z.to_nat (m_index x)) then js " " else unquote (m_text x)) text.

Definition checkFinalOutputSafety (text : jsstring) : Verdict :=
  let outputCandidates := buildSafetyScanCandidates text in
  let leak reason := mkVerdict true (Some reason) in
  if containsPromptLeakMarker outputCandidates then leak "prompt_leak"%string
  else if anyTest CREDENTIAL_SHAPES text then leak "credential_leak"%string
  else
    let vendorScanText := vendorScanTextOf text in
    let vendorCandidates :=
      if bool_decide (vendorScanText = text) then outputCandidates else buildSafetyScanCandidates vendorScanText in
    let candidatesOf category :=
      if bool_decide (category = "runtime_identity_hosting"%string) then vendorCandidates else outputCandidates in
    if existsb (test FIRST_PERSON_MODEL_USAGE) vendorCandidates then leak "vendor_leak"%string
    else if existsb (λ r, existsb (test r) vendorCandidates) VENDOR_MODEL_PATTERNS then leak "vendor_leak"%string
    else if existsb (λ e, existsb (λ r, existsb (test r) (candidatesOf e.1)) e.2) OUTPUT_DISCLOSURE_PATTERNS
    then leak "disclosure_leak"%string
    else if existsb (λ r, existsb (test r) outputCandidates) SELF_HARM_INSTRUCTION_PATTERNS
    then leak "self_harm_instruction"%string
    else if existsb isTargetedHarassmentCandidate outputCandidates then leak "targeted_harassment"%string
    else mkVerdict false None.

(** ** Disclosures in a text *)

Definition CLAUSES : regex := mk Fu (js "[.!?\n]+").

Definition limitPattern (d : BoundedToolDisclosure) : jsstring :=
  txt "(?:giới\s+hạn|tối\s+đa|limit|maximum\s+of|up\s+to)\s*" ++ natStr (limit d)
  ++ txt "(?:\s*(?:mục|items?|records?|sessions?))?\b".

Definition countPattern (n : Z) : jsstring :=
  js "\b" ++ natStr n ++ txt "\s*(?:mục|items?|records?|buổi|sessions?)\b".

Definition factsPattern (d : BoundedToolDisclosure) : regex :=
  match count d with
  | None => mk Fiu (limitPattern d)
  | Some n => mk Fiu (js "(?:" ++ countPattern n ++ js "[^.!?\n]{0,120}" ++ limitPattern d ++ js "|"
                      ++ limitPattern d ++ js "[^.!?\n]{0,120}" ++ countPattern n ++ js ")")
  end.

Definition GENERIC_LIMIT : regex := mk Fiu (txt "giới\s+hạn\s+\d+\s+mục").
Definition ANY_SCOPE : regex := mk Fiu (txt "(?:sắp\s+tới|đã\s+qua|past|upcoming|future|all)").
Definition SESSIONS_SCOPE : regex := mk Fiu (txt "(?:buổi\s+học|lịch\s+học|sessions?|upcoming|future)").
Definition PAST_CALENDAR : regex := mk Fiu (txt "(?:lịch\s+học\s+đã\s+qua|past|previous)").
Definition UPCOMING_CALENDAR : regex := mk Fiu (txt "(?:lịch\s+học\s+sắp\s+tới|upcoming|future)").
Definition WHOLE_CALENDAR : regex := mk Fiu (txt "(?:lịch\s+học\s+tổng\s+hợp|both\s+past\s+and\s+upcoming)").
Definition NAMED_SCOPE : regex :=
  mk Fiu (txt "(?:lịch(?:\s+học)?\s+(?:sắp\s+tới|đã\s+qua)|past|previous|upcoming|future|all)").
Definition INCOMPLETE_NOTE : regex :=
  mk Fiu (txt "(?:không\s+phải\s+(?:toàn\s+bộ|tất\s*cả)|(?:chưa|không)\s+thể\s+xác\s+nhận|not\s+(?:the\s+)?full|not\s+all|cannot\s+(?:confirm|say)|can't\s+(?:confirm|say)|(?:are|is|were|was)\s+not\s+(?:included|returned|shown|available)|(?:aren't|isn't|weren't|wasn't)\s+(?:included|returned|shown|available))").
Definition UNKNOWN_NOTE : regex :=
  mk Fiu (txt "(?:(?:chưa|không)\s+thể\s+xác\s+nhận|không\s+phải\s+tất\s*cả|cannot\s+(?:confirm|say)|can't\s+(?:confirm|say)|not\s+(?:the\s+)?full|not\s+all)").

Definition hasBoundedDisclosureInClause (text : jsstring) (d : BoundedToolDisclosure) (scopeKey : jsstring) : bool :=
  let facts := test (factsPattern d) text in
  let pastDaysOk := match pastDays d with
                    | None => true
                    | Some n => test (mk Fiu (js "\b" ++ natStr n ++ txt "\s*(?:ngày|days?)\b")) text
                    end in
  let hasPastScope := test Grounding.PAST_SCOPE text in
  let hasUpcomingScope := test Grounding.UPCOMING_SCOPE text in
  if hasPastScope && hasUpcomingScope then false else
  let hasGenericUpcomingScope := test GENERIC_LIMIT text && negb (test ANY_SCOPE text) in
  let timeRangeOk :=
    if bool_decide (beforeColon scopeKey = js "get_upcoming_study_sessions")
    then test SESSIONS_SCOPE text && negb hasPastScope || hasGenericUpcomingScope
    else match timeRange d with
         | Some Past => test PAST_CALENDAR text
         | Some Upcoming => test UPCOMING_CALENDAR text
         | Some All => test WHOLE_CALENDAR text
         | None => negb (test NAMED_SCOPE text)
         end in
  let completenessOk :=
    if capped d || bool_decide (completeness d = Incomplete) then test INCOMPLETE_NOTE text else test UNKNOWN_NOTE text in
  facts && pastDaysOk && timeRangeOk && completenessOk.

Definition hasBoundedDisclosure (text : jsstring) (d : BoundedToolDisclosure) (scopeKey : jsstring) : bool :=
  existsb (λ clause, hasBoundedDisclosureInClause clause d scopeKey) (split CLAUSES text).

(** The guards of the agent. *)
Definition replyGuards : ReplyGuards := {|
  ReplySafety.sanitizeReplyText := ScopeGuards.sanitizeReplyText;
  ReplySafety.checkLlmGrounding := Grounding.checkLlmGrounding;
  ReplySafety.checkFinalOutputSafety := checkFinalOutputSafety;
  ReplySafety.checkPromptCanarySafety := checkPromptCanarySafety;
  ReplySafety.hasBoundedDisclosure := hasBoundedDisclosure;
  ReplySafety.isObviouslyOffTopic := ScopeGuards.isObviouslyOffTopic;
  ReplySafety.isStopIntent := ScopeGuards.isStopIntent;
  ReplySafety.isAmbiguousMessage := ScopeGuards.isAmbiguousMessage
|}.
End Output.

Lemma output_patterns_parse :
  forallb parses
    ([FIRST_PERSON_MODEL_USAGE; QUOTED_MODEL_REFERENCE; GRAMMAR_AFTER; GRAMMAR_BEFORE; SENTENCE_BEFORE; CORRECT_AFTER;
      EXAMPLE_BEFORE; EXAMPLE_AFTER; NON_ALPHANUMERIC; CANARY; CLAUSES; GENERIC_LIMIT; ANY_SCOPE; SESSIONS_SCOPE;
      PAST_CALENDAR; UPCOMING_CALENDAR; WHOLE_CALENDAR; NAMED_SCOPE; INCOMPLETE_NOTE; UNKNOWN_NOTE]
     ++ VENDOR_MODEL_PATTERNS ++ SELF_HARM_INSTRUCTION_PATTERNS ++ TARGETED_HARASSMENT_PATTERNS
     ++ TARGETED_HARASSMENT_CONTEXT_PATTERNS ++ TARGETED_HARASSMENT_ACTION_MARKERS) = true.
Proof. vm_compute. reflexivity. Qed.

Lemma disclosure_patterns_parse :
  forallb (λ e, forallb parses e.2) (@OUTPUT_DISCLOSURE_PATTERNS asciiOnly) = true.
Proof. vm_compute. reflexivity. Qed.

(** ** The canary *)

Section Canary.
Context `{UnicodeLaws}.

Definition alphanumeric (c : Z) : bool := inProperty Fu Letter c || inProperty Fu Number c.

(** Some part of the text has these letters and digits, in this order and in any
    case, whatever else is between them. *)
Definition spells (text word : jsstring) : Prop :=
  ∃ a b d, text = a ++ b ++ d ∧ forallb isPlain b = true ∧ asciiLower <$> filter (λ c, alphanumeric c = true) b = word.

Lemma compact_pattern :
  NON_ALPHANUMERIC = mkRegex Fu (js "[^\p{L}\p{N}]+") (runs 1 true [IEsc false (EProp Letter); IEsc false (EProp Number)]).
Proof. vm_compute. reflexivity. Qed.

Lemma compact_filter s :
  compactCanonicalText s = unitsOf (filter (λ d, negb (alphanumeric d.1) = false) (chars true s)).
Proof.
  unfold compactCanonicalText. rewrite compact_pattern, replace_runs, collapse_filter. f_equal.
  apply list_filter_iff. intros [c w]. unfold inClass, alphanumeric. cbn [existsb inItem inEscape fst].
  by rewrite orb_false_r, !xorb_false_l.
Qed.

Lemma compact_part a b d :
  forallb isPlain b = true →
  infix (filter (λ c, alphanumeric c = true) b) (compactCanonicalText (a ++ b ++ d)).
Proof.
  intros Hb. destruct b as [|c b]; [exists [], (compactCanonicalText (a ++ [] ++ d)); done|].
  rewrite compact_filter. cbn [app]. rewrite chars_app.
  2: { cbn [forallb] in Hb. apply andb_true_iff in Hb as [[_ Hc]%andb_true_iff _]. by apply negb_true_iff in Hc. }
  change (c :: b ++ d) with ((c :: b) ++ d). rewrite chars_plain by done.
  rewrite !filter_app, !unitsOf_app. eexists _, _. f_equal. f_equal. rewrite (filter_units (λ c, negb (alphanumeric c))).
  symmetry. apply list_filter_iff. intros e. by destruct (alphanumeric e).
Qed.

Lemma lower_isAscii c : isAscii (asciiLower c) = true → isAscii c = true.
Proof. unfold asciiLower, isAscii, between. destruct ((65 <=? c) && (c <=? 90)) eqn:E; [|done]. lia. Qed.

Lemma candidates_head text : ∃ l, buildSafetyScanCandidates text = text :: l.
Proof. by eexists. Qed.

Lemma spelled_refused text promptCanary canary :
  toLowerCase (compactCanonicalText promptCanary) = canary → test CANARY canary = true →
  forallb isAscii canary = true → spells text canary →
  checkPromptCanarySafety text promptCanary = mkVerdict true (Some "prompt_canary_hit"%string).
Proof.
  intros Ec Ht Ha (a & b & d & -> & Hb & Hw). unfold checkPromptCanarySafety. rewrite Ec, Ht.
  assert (includes (toLowerCase (compactCanonicalText (a ++ b ++ d))) canary = true) as Hi.
  { apply includes_iff. rewrite <-Hw. destruct (compact_part a b d Hb) as (x & y & ->). apply lower_infix.
    rewrite <-Hw in Ha. rewrite forallb_forall in Ha. apply forallb_forall. intros c Hc.
    apply lower_isAscii, Ha. by apply in_map. }
  destruct (candidates_head (a ++ b ++ d)) as [l ->]. cbn [existsb]. rewrite Hi. done.
Qed.

(** C33. The canary cannot be smuggled out between punctuation: a reply that
    spells its 32 digits is refused, in any case, at any place, with any
    characters between them that are neither letters nor numbers nor surrogate
    halves. *)
Theorem spelled_canary_refused text promptCanary :
  test CANARY (toLowerCase (compactCanonicalText promptCanary)) = true →
  forallb isAscii (toLowerCase (compactCanonicalText promptCanary)) = true →
  spells text (toLowerCase (compactCanonicalText promptCanary)) →
  checkPromptCanarySafety text promptCanary = mkVerdict true (Some "prompt_canary_hit"%string).
Proof. by apply spelled_refused. Qed.
End Canary.

(** ASCII data keep the laws of lower case: nothing outside ASCII has one. *)
Definition asciiLowerOnly : Unicode :=
  {| u_nfd := λ s, s; u_nfc := λ s, s; u_lower := fmap asciiLower; u_upper := λ c, c; u_fold := λ c, c;
     u_property := λ _ _ _, false |}.

Lemma asciiLowerOnly_laws : @UnicodeLaws asciiLowerOnly.
Proof. split. intros a s b _. exists (asciiLower <$> a), (asciiLower <$> b). cbn. by rewrite !fmap_app. Qed.

Definition someCanary : jsstring := js "0123456789abcdef0123456789abcdef".

Lemma spelled_canary_refused_witness :
  @spells asciiLowerOnly (js "It says: 01-23 45.67*89 ABCDEF/0123456789abcdef!") (js "0123456789abcdef0123456789abcdef")
  ∧ @checkPromptCanarySafety asciiLowerOnly (js "It says: 01-23 45.67*89 ABCDEF/0123456789abcdef!") someCanary
    = mkVerdict true (Some "prompt_canary_hit"%string).
Proof.
  assert (@spells asciiLowerOnly (js "It says: 01-23 45.67*89 ABCDEF/0123456789abcdef!") (js "0123456789abcdef0123456789abcdef")) as Hs.
  { exists (js "It says: "), (js "01-23 45.67*89 ABCDEF/0123456789abcdef"), (js "!").
    split_and!; vm_compute; reflexivity. }
  split; [exact Hs|].
  apply (@spelled_canary_refused asciiLowerOnly asciiLowerOnly_laws); [vm_compute; reflexivity..|].
  assert (@toLowerCase asciiLowerOnly (@compactCanonicalText asciiLowerOnly someCanary) = js "0123456789abcdef0123456789abcdef") as ->
    by (vm_compute; reflexivity). exact Hs.
Defined.

(** ** Corner cases *)

(** The Markdown is taken out after the checks, so a marker hides the shape of a
    credential, or a vendor's name, which the reply then shows. *)
Lemma markdown_hides_credential :
  let reply := @evaluateFinalSafety (@replyGuards asciiOnly) (js "Key: sk-abcdefgh**ijklmnopqrst** for GP**T**") in
  s_outcome reply = SafetyAllowed ∧ s_replyText reply = js "Key: sk-abcdefghijklmnopqrst for GPT"
  ∧ @test asciiOnly PROVIDER_KEY_SHAPE (s_replyText reply) = true.
Proof. vm_compute. by split_and!. Qed.
End OutputGuards.
