(* ===== verification/GuardedTurn.v ===== *)
(** * A turn with its guards

    The agent of [AgentLoop] with the guards that the code has: [promptScan] for
    what comes in, [replyGuards] for what goes out and the summary of its tools. *)

From S2P Require Import Prelude Json JsText JsRegex Masking ChatHistory AgentTools PromptSafety ToolObservation ToolRound AgentContext ReplySafety AgentLoop ToolSummary PromptGuards ScopeGuards Grounding OutputGuards.

Module GuardedTurn.
Import JsText JsRegex Masking AgentTools PromptSafety ToolRound AgentContext ReplySafety AgentLoop PromptGuards OutputGuards.

Section Guarded.
Context `{UnicodeLaws} `{Zod}.
Variable secrets : list (option jsstring).
Variable parseBounded : ToolObservation.raw → option BoundedToolResultMetadata.
Variable dateParse : jsstring → option Z.
Variable number : jsstring → option (Z * Z).
Variable isHttps : jsstring → bool.
Variable localeCompare : jsstring → jsstring → Z.
Variable config : LlmAgentConfig.
Variable input : LlmAgentInput.
Variable provider : Z → list LlmMessage → ProviderAnswer.
Variable tools : Z → ToolCall → CallEnv.
Variable order : Z → list ToolCall → list ToolCall.
Variable isConfigured : bool.
Hypothesis order_perm : ∀ r l, order r l ≡ₚ l.
Hypothesis provider_role : ∀ r ms m c, provider r ms = Response m c → m_role m = RAssistant.

#[local] Instance scan : TextScan := promptScan (registerRuntimeSecrets secrets).
#[local] Instance guards : ReplyGuards := replyGuards.

(** The turn as the code runs it. *)
Definition guardedTurn : list TurnEvent * option LlmAgentReply :=
  runRounds parseBounded (ToolSummary.buildToolSummary dateParse number isHttps localeCompare) (limitsOf config) input provider tools order isConfigured.

Lemma safe_no_credential text r :
  unsafe (OutputGuards.checkFinalOutputSafety text) = false → r ∈ CREDENTIAL_SHAPES → ¬ occurs r (start text).
Proof.
  unfold OutputGuards.checkFinalOutputSafety. destruct (containsPromptLeakMarker _); [done|].
  destruct (anyTest CREDENTIAL_SHAPES text) eqn:E; [done|]. intros _ Hr. rewrite <-test_iff. intros Ht.
  assert (anyTest CREDENTIAL_SHAPES text = true) as ?; [|congruence].
  apply existsb_exists. exists r. split; [by apply list_elem_of_In|done].
Qed.

Lemma guards_final t : ReplySafety.checkFinalOutputSafety t = OutputGuards.checkFinalOutputSafety t.
Proof. reflexivity. Qed.

Lemma guards_canary t c : ReplySafety.checkPromptCanarySafety t c = OutputGuards.checkPromptCanarySafety t c.
Proof. reflexivity. Qed.

Lemma guards_sanitize t : ReplySafety.sanitizeReplyText t = ScopeGuards.sanitizeReplyText t.
Proof. reflexivity. Qed.

(** C17. Whatever the provider answers, the reply of a turn is one of the code's own
    texts, or it is the Markdown-free form of a text in which no credential has its
    shape anywhere.  That text is, with its notes on bounded results, either the
    provider's answer to a request of the turn, or the text that the grounding check
    put in place of it; and the answer does not spell the canary of the prompt, in any
    case and with any characters between its digits that are neither letters nor
    numbers nor surrogate halves.
    Only an exhausted turn replies with the partial answer, which is the code's own
    but for the names of the tools. *)
Theorem guarded_reply parts r :
  systemPromptParts input = Some parts →
  test CANARY (toLowerCase (compactCanonicalText (promptCanary parts))) = true →
  forallb isAscii (toLowerCase (compactCanonicalText (promptCanary parts))) = true →
  promptCanary parts ≠ [] →
  guardedTurn.2 = Some r →
  text r ∈ fixedTexts
  ∨ ∃ answer shown disclosures tools',
      let full := appendBoundedDisclosures shown disclosures in
      text r = ScopeGuards.sanitizeReplyText full
      ∧ (∀ shape, shape ∈ CREDENTIAL_SHAPES → ¬ occurs shape (start full))
      ∧ (shown = answer
         ∨ replacementText (ReplySafety.checkLlmGrounding answer tools' (userText input) (Some disclosures)) = Some shown)
      ∧ (exhausted r = false
           ∧ (∃ round ms m, Requested round ms ∈ guardedTurn.1 ∧ provider round ms = Response m (Some answer))
           ∧ ¬ spells answer (toLowerCase (compactCanonicalText (promptCanary parts)))
         ∨ exhausted r = true ∧ answer = buildExhaustionPartialAnswer tools').
Proof.
  intros Hp Hc Ha Hne Hr. unfold guardedTurn in *.
  pose proof (runRounds_spec parseBounded
    (ToolSummary.buildToolSummary dateParse number isHttps localeCompare) config input provider tools order isConfigured
    order_perm provider_role) as Hs.
  destruct (runRounds _ _ _ _ _ _ _ _) as [l x]. cbn [fst snd] in *. destruct Hs as (_ & _ & Hs).
  destruct (Hs r Hr) as [Ht|(i & Hi & _ & _ & Hu & Hcan)]; [by left|right].
  destruct Hi as [(t & Et & Hsafe & Hshown & _) Hcheck].
  exists (e_text i), t, (e_disclosures i), (e_groundedTools i). cbv zeta. rewrite <-Hu. split_and!.
  - exact (eq_trans Et (guards_sanitize _)).
  - intros shape Hin. rewrite guards_final in Hsafe. exact (safe_no_credential _ _ Hsafe Hin).
  - destruct Hshown as [[E _]|[E _]]; [left; exact E|right; exact E].
  - destruct Hcan as [(Hx & Ec & (round & ms & m & Hq & Hm & _))|(Hx & _ & Et')]; [left|right; exact (conj Hx Et')].
    split; [exact Hx|]. split; [exists round, ms, m; exact (conj Hq Hm)|]. intros Hsp. unfold canaryOf in Ec. rewrite Hp in Ec.
    cbn [fmap option_fmap option_map] in Ec. destruct (promptCanary parts) as [|c k] eqn:Ek; [exact (False_ind _ (Hne eq_refl))|].
    specialize (Hcheck c k Ec). rewrite guards_canary in Hcheck.
    rewrite (spelled_refused (e_text i) (c :: k) _ eq_refl Hc Ha Hsp) in Hcheck. discriminate Hcheck.
Qed.
End Guarded.

(** ** An instance *)

Definition guardedParts : LlmAgentPromptParts := mkParts (js "You are an assistant.") [] someCanary None None.

Definition guardedInput : LlmAgentInput :=
  mkInput (js "user-1234567") (js "my sessions?") None (js "You are an assistant.")
    (Some guardedParts) [].

(** The model answers at once. *)
Definition answeringProvider (round : Z) (ms : list LlmMessage) : ProviderAnswer :=
  Response (plain RAssistant (js "You have two *sessions*.")) (Some (js "You have two *sessions*.")).

Abbreviation someGuardedTurn :=
  (@guardedTurn asciiLowerOnly documentedZod [] (λ _, None) (λ _, None) ToolSummary.digitsNumber (λ _, true) (λ _ _, 0) defaultConfig guardedInput answeringProvider
    someTools (λ _ l, l) true).

Definition guardedReplyText : jsstring := js "You have two sessions.".

Lemma guarded_turn_replies : option_map text someGuardedTurn.2 = Some guardedReplyText.
Proof. vm_compute. reflexivity. Qed.

Lemma guarded_reply_witness :
  ∃ r answer full, someGuardedTurn.2 = Some r ∧ text r = guardedReplyText
    ∧ text r = @ScopeGuards.sanitizeReplyText asciiLowerOnly full
    ∧ (∀ shape, shape ∈ CREDENTIAL_SHAPES → ¬ @occurs asciiLowerOnly shape (start full))
    ∧ (∃ round ms m, Requested round ms ∈ someGuardedTurn.1 ∧ answeringProvider round ms = Response m (Some answer))
    ∧ ¬ @spells asciiLowerOnly answer (@toLowerCase asciiLowerOnly (@compactCanonicalText asciiLowerOnly (promptCanary guardedParts))).
Proof.
  assert (option_map (λ r, (text r, exhausted r, bool_decide (text r ∈ fixedTexts))) someGuardedTurn.2
          = Some (guardedReplyText, false, false)) as Ht by (vm_compute; reflexivity).
  destruct someGuardedTurn.2 as [r|] eqn:E; [|discriminate Ht].
  injection Ht as Ht Hx Hf. apply bool_decide_eq_false in Hf.
  assert (∀ n ms m c, answeringProvider n ms = Response m c → m_role m = RAssistant) as Hrole
    by (intros ? ? ? ? [= <- <-]; reflexivity).
  assert (@test asciiLowerOnly CANARY (@toLowerCase asciiLowerOnly (@compactCanonicalText asciiLowerOnly (promptCanary guardedParts))) = true)
    as Hc by (vm_compute; reflexivity).
  assert (forallb isAscii (@toLowerCase asciiLowerOnly (@compactCanonicalText asciiLowerOnly (promptCanary guardedParts))) = true)
    as Ha by (vm_compute; reflexivity).
  assert (promptCanary guardedParts ≠ []) as Hne by discriminate.
  pose proof (@guarded_reply asciiLowerOnly asciiLowerOnly_laws documentedZod [] (λ _, None) (λ _, None) ToolSummary.digitsNumber
    (λ _, true) (λ _ _, 0) defaultConfig guardedInput answeringProvider someTools (λ _ l, l) true (λ _ l, reflexivity l) Hrole
    guardedParts r eq_refl Hc Ha Hne E) as Hg.
  destruct Hg as [Hin|(answer & shown & ds & names & E1 & E2 & _ & [(_ & E3 & E4)|(E5 & _)])];
    [exact (False_ind _ (Hf Hin))| |rewrite Hx in E5; discriminate E5].
  eexists r, answer, _. split; [reflexivity|]. split; [exact Ht|]. split; [exact E1|]. split; [exact E2|]. split; [exact E3|exact E4].
Defined.
End GuardedTurn.
