(* ===== verification/WispaceCache.v ===== *)
(** * The cache of WISPACE reads

    packages/wispace-client, cache/: the policy of lifetimes, the keys, the JSON
    documents of the shared store with dates, and [WispaceDataCache] as a system of
    pods: every pod has its map and its fetches in flight, and all pods use one
    shared store.

    A fetch is a program between its awaits: [Await] is where it stands and
    [advance] what it does with an answer.  The shared store may fail, lose a key at
    any time (expiry, deletion by prefix) and grant or refuse a lock at will.  The
    pods' clocks are one clock that does not go back. *)

From S2P Require Import Prelude Json JsText AgentTools.

Module WispaceCache.
Import Json JsText AgentTools.

(** ** Policy *)

Inductive Kind := KGoals | KCalendar | KScores.

#[export] Instance Kind_eq_dec : EqDecision Kind.
Proof. solve_decision. Defined.

Definition kindName (k : Kind) : jsstring :=
  match k with KGoals => js "goals" | KCalendar => js "calendar" | KScores => js "scores" end.

Definition WISPACE_CACHE_POLICY (k : Kind) : Z :=
  match k with KGoals => 60000 | KCalendar => 15000 | KScores => 300000 end.

(** [Object.hasOwn(WISPACE_CACHE_POLICY, name)], with the lifetime. *)
Definition policyOf (name : jsstring) : option Z :=
  WISPACE_CACHE_POLICY <$> List.find (λ k, bool_decide (kindName k = name)) [KGoals; KCalendar; KScores].

Definition DEFAULT_COORDINATION_POLL_MS : Z := 50.
Definition DEFAULT_COORDINATION_WAIT_BUDGET_MS : Z := 2000.
Definition LOCK_TTL_SECONDS : Z := 5.

(** [random] is [Math.random()]; the jitter is a tenth of the lifetime. *)
Definition ttlSecondsWithJitter (kind : Kind) (random : Q) : Z :=
  let base := inject_Z (WISPACE_CACHE_POLICY kind / 1000) in
  Z.max 1 (Qfloor (base + (random * 2 - 1) * (base * (1 # 10)) + (1 # 2))).

(** ** Keys *)

Definition KEY_NS : jsstring := js "wispace-cache:".
Definition KEY_SEP : jsstring := [31].

Definition Args := option (list (jsstring * option json)).

(** The properties that are not undefined, by the order of their names. *)
Definition canonicalArgs (args : Args) : list (jsstring * json) :=
  objOf (omap (λ kv, (λ v, (kv.1, v)) <$> kv.2) (sortKeys (default [] args))).

Definition buildKey (kind : Kind) (externalUserId : jsstring) (args : Args) : jsstring :=
  KEY_NS ++ externalUserId ++ KEY_SEP ++ kindName kind ++ KEY_SEP ++ stringify (JObj (canonicalArgs args)).

(** The user and the kind of a key. *)
Definition parseKey (key : jsstring) : option (jsstring * jsstring) :=
  if negb (isPrefix KEY_NS key) then None else
  match splitText KEY_SEP (drop (length KEY_NS) key) with
  | userId :: kind :: _ :: _ => Some (userId, kind)
  | _ => None
  end.

Definition lockKey (key : jsstring) : jsstring := KEY_NS ++ js "lock" ++ KEY_SEP ++ key.

Definition userOf (key : jsstring) : jsstring := match parseKey key with Some (u, _) => u | None => [] end.

(** ** Values with dates *)

#[local] Unset Elimination Schemes.
Inductive cval :=
| CNull
| CBool (b : bool)
| CNum (m e : Z)
| CStr (s : jsstring)
| CArr (l : list cval)
| CObj (o : list (jsstring * cval))
| CDate (time : option Z).     (** [None] is an invalid date *)
#[local] Set Elimination Schemes.

Section Induction.
Variable P : cval → Prop.
Hypothesis Hnull : P CNull.
Hypothesis Hbool : ∀ b, P (CBool b).
Hypothesis Hnum : ∀ m e, P (CNum m e).
Hypothesis Hstr : ∀ s, P (CStr s).
Hypothesis Harr : ∀ l, Forall P l → P (CArr l).
Hypothesis Hobj : ∀ o, Forall (λ kv, P kv.2) o → P (CObj o).
Hypothesis Hdate : ∀ t, P (CDate t).

Fixpoint cval_ind (v : cval) : P v :=
  match v with
  | CNull => Hnull
  | CBool b => Hbool b
  | CNum m e => Hnum m e
  | CStr s => Hstr s
  | CArr l => Harr l ((fix go l : Forall P l :=
      match l with
      | [] => List.Forall_nil _
      | x :: l => List.Forall_cons _ _ _ (cval_ind x) (go l)
      end) l)
  | CObj o => Hobj o ((fix go o : Forall (λ kv, P kv.2) o :=
      match o with
      | [] => List.Forall_nil _
      | kv :: o => List.Forall_cons _ _ _ (cval_ind kv.2) (go o)
      end) o)
  | CDate t => Hdate t
  end.
End Induction.

Definition DATE : jsstring := js "$date".

(** Assigning it sets the prototype and makes no property. *)
Definition PROTO : jsstring := js "__proto__".

Fixpoint encodeDates (value : cval) : json :=
  match value with
  | CNull => JNull
  | CBool b => JBool b
  | CNum m e => JNum m e
  | CStr s => JStr s
  | CArr l => JArr (map encodeDates l)
  | CObj o => JObj (objOf (filter (λ kv, kv.1 ≠ PROTO) (map (λ kv, (kv.1, encodeDates kv.2)) o)))
  | CDate (Some t) => JObj [(DATE, numOf t)]
  | CDate None => JObj [(DATE, JNull)]
  end.

Definition MAX_DATE : Z := 8640000000000000.

Section Cache.
(** [new Date(x)] of a value that is no number, boolean, null or date *)
Variable dateText : cval → option Z.

(** [new Date(x).getTime()]. *)
Definition dateOf (x : cval) : option Z :=
  match x with
  | CNum m e =>
      let n := if 0 <=? e then m * 10 ^ e else Z.quot m (10 ^ (- e)) in
      if Z.abs n <=? MAX_DATE then Some n else None
  | CNull => Some 0
  | CBool b => Some (if b then 1 else 0)
  | CDate t => t
  | _ => dateText x
  end.

(** [JSON.parse] with the reviver, on what is parsed. *)
Fixpoint revive (value : json) : cval :=
  match value with
  | JNull => CNull
  | JBool b => CBool b
  | JNum m e => CNum m e
  | JStr s => CStr s
  | JArr l => CArr (map revive l)
  | JObj o =>
      match map (λ kv, (kv.1, revive kv.2)) o with
      | [(k, x)] => if bool_decide (k = DATE) then CDate (dateOf x) else CObj [(k, x)]
      | o' => CObj o'
      end
  end.

(** A point in time as a JSON number. *)
Definition Stamp : Type := Z * Z.
Definition stampOf (n : Z) : Stamp := norm n 0.

(** [now - stamp >= ttl]. *)
Definition elapsed (ttl : Z) (now stamp : Stamp) : bool :=
  let e := Z.min 0 (Z.min now.2 stamp.2) in
  ttl * 10 ^ (- e) <=? now.1 * 10 ^ (now.2 - e) - stamp.1 * 10 ^ (stamp.2 - e).

(** The value is absent when it is undefined. *)
Record SharedEnvelope := mkEnvelope {
  s_kind : jsstring; s_userId : jsstring; s_fetchedAt : Stamp; s_value : option cval }.

Definition encodeEnvelope (e : SharedEnvelope) : jsstring :=
  stringify (JObj ([(js "kind", JStr (s_kind e)); (js "userId", JStr (s_userId e));
                    (js "fetchedAt", JNum (s_fetchedAt e).1 (s_fetchedAt e).2)]
                   ++ match s_value e with Some v => [(js "value", encodeDates v)] | None => [] end)).

Definition decodeEnvelope (raw : jsstring) : option SharedEnvelope :=
  match revive <$> parse raw with
  | Some (CObj o) =>
      match jm_get (js "kind") o, jm_get (js "userId") o, jm_get (js "fetchedAt") o with
      | Some (CStr kind), Some (CStr userId), Some (CNum m e) =>
          if bool_decide (is_Some (policyOf kind)) then Some (mkEnvelope kind userId (m, e) (jm_get (js "value") o)) else None
      | _, _, _ => None
      end
  | _ => None
  end.

(** ** The map of a pod *)

Record CacheEntry := mkEntry { value : option cval; fetchedAt : Stamp }.

Definition Cache := list (jsstring * CacheEntry).

(** The lifetime of an entry's key: 0 for no key, none for an unknown kind, whose
    entries never expire as the comparison is with undefined. *)
Definition entryExpired (now : Stamp) (e : jsstring * CacheEntry) : bool :=
  match parseKey e.1 with
  | None => elapsed 0 now (fetchedAt e.2)
  | Some (_, kind) => match policyOf kind with Some ttl => elapsed ttl now (fetchedAt e.2) | None => false end
  end.

Fixpoint deleteFirst (p : jsstring * CacheEntry → bool) (c : Cache) : Cache :=
  match c with
  | [] => []
  | e :: c' => if p e then c' else e :: deleteFirst p c'
  end.

Definition evictIfNeeded (maxEntries : Z) (now : Stamp) (c : Cache) : Cache :=
  if Z.of_nat (length c) <? maxEntries then c else
  let swept := deleteFirst (entryExpired now) c in
  if maxEntries <=? Z.of_nat (length swept) then tail swept else swept.

Definition store (maxEntries : Z) (key : jsstring) (v : option cval) (at_ : Stamp) (c : Cache) : Cache :=
  jm_set key (mkEntry v at_) (evictIfNeeded maxEntries at_ c).

(** The value of a fresh entry. *)
Definition hit (kind : Kind) (key : jsstring) (now : Z) (c : Cache) : option CacheEntry :=
  match jm_get key c with
  | Some e => if elapsed (WISPACE_CACHE_POLICY kind) (stampOf now) (fetchedAt e) then None else Some e
  | None => None
  end.

(** The local part of [invalidateUser]; no kinds are all kinds. *)
Definition selected (externalUserId : jsstring) (kinds : option (list Kind)) (key : jsstring) : bool :=
  match parseKey key with
  | Some (userId, kind) =>
      bool_decide (userId = externalUserId)
      && match kinds with Some ks => bool_decide (kind ∈ kindName <$> ks) | None => true end
  | None => false
  end.

Definition invalidateUser (externalUserId : jsstring) (kinds : option (list Kind)) (c : Cache) : Cache :=
  filter (λ e, selected externalUserId kinds e.1 = false) c.

(** ** A fetch *)

Variable pollMs : Z.
Variable waitBudgetMs : Z.

Definition maxPolls : nat := Z.to_nat ((waitBudgetMs + pollMs - 1) / pollMs + 1).

(** How a fetch ends: with a value and the time it was fetched, or by rejecting. *)
Inductive Outcome := Resolved (v : option cval) (at_ : Stamp) (own : bool) | Failed.

(** What a fetch is waiting for. *)
Inductive Await :=
| AReadShared
| ATryLock
| ASleep (polls : nat) (deadline : Z)
| APoll (polls : nat) (deadline : Z)
| ARecheck
| AFetch (started : Z) (locked : bool)
| ASet (envelope : SharedEnvelope)
| AUnlock (outcome : Outcome).

Inductive Answer :=
| GotRaw (raw : option jsstring)
| Locked (granted : bool)
| Woke
| Fetched (v : option cval)
| Done
| Rejected.

Inductive Next := Go (a : Await) | Finish (o : Outcome).

(** [readShared], of what the store returned; an empty text is a miss. *)
Definition readShared (kind : Kind) (key : jsstring) (now : Z) (raw : option jsstring) : option SharedEnvelope :=
  match raw with
  | None | Some [] => None
  | Some r =>
      match decodeEnvelope r with
      | Some e =>
          if negb (bool_decide (s_kind e = kindName kind)) || negb (bool_decide (Some (s_userId e) = fst <$> parseKey key))
          then None
          else if elapsed (WISPACE_CACHE_POLICY kind) (stampOf now) (s_fetchedAt e) then None else Some e
      | None => None
      end
  end.

Definition resolvedShared (e : SharedEnvelope) : Outcome := Resolved (s_value e) (s_fetchedAt e) false.

(** The head of the polling loop. *)
Definition pollOrFetch (polls : nat) (deadline now : Z) : Await :=
  match polls with
  | O => AFetch now false
  | S _ => if now <? deadline then ASleep polls deadline else AFetch now false
  end.

Definition envelopeOf (kind : Kind) (key : jsstring) (started : Z) (v : option cval) : SharedEnvelope :=
  mkEnvelope (kindName kind) (userOf key) (stampOf started) v.

Definition advance (kind : Kind) (key : jsstring) (now : Z) (a : Await) (x : Answer) : option Next :=
  match a, x with
  | AReadShared, GotRaw raw =>
      Some match readShared kind key now raw with Some e => Finish (resolvedShared e) | None => Go ATryLock end
  | AReadShared, Rejected => Some (Go (AFetch now false))
  | ATryLock, Locked true => Some (Go ARecheck)
  | ATryLock, Locked false => Some (Go (pollOrFetch maxPolls (now + waitBudgetMs) now))
  | ATryLock, Rejected => Some (Go (AFetch now false))
  | ASleep polls deadline, Woke => Some (Go (APoll polls deadline))
  | APoll polls deadline, GotRaw raw =>
      Some match readShared kind key now raw with
           | Some e => Finish (resolvedShared e)
           | None => Go (pollOrFetch (Nat.pred polls) deadline now)
           end
  | APoll polls deadline, Rejected => Some (Go (pollOrFetch (Nat.pred polls) deadline now))
  | ARecheck, GotRaw raw =>
      Some match readShared kind key now raw with
           | Some e => Go (AUnlock (resolvedShared e))
           | None => Go (AFetch now true)
           end
  | ARecheck, Rejected => Some (Go (AFetch now true))
  | AFetch started false, Fetched v => Some (Finish (Resolved v (stampOf started) true))
  | AFetch _ false, Rejected => Some (Finish Failed)
  | AFetch started true, Fetched v => Some (Go (ASet (envelopeOf kind key started v)))
  | AFetch _ true, Rejected => Some (Go (AUnlock Failed))
  | ASet e, Done => Some (Go (AUnlock (resolvedShared e)))
  | ASet _, Rejected => Some (Go (AUnlock Failed))
  | AUnlock o, Done | AUnlock o, Rejected => Some (Finish o)
  | _, _ => None
  end.

(** ** The pods *)

(** A caller of [getOrFetch], and when it called. *)
Record Caller := mkCaller { q_kind : Kind; q_user : jsstring; q_args : Args; q_at : Z }.

Record Flight := mkFlight { f_kind : Kind; f_since : Z; f_waiters : list Caller; f_at : Await }.

Record Pod := mkPod { cache : Cache; inFlight : list (jsstring * Flight) }.

(** What a caller was given, by a promise that was made at [v_since]. *)
Record Served := mkServed { v_caller : Caller; v_value : option cval; v_since : Z }.

Record World := mkWorld {
  clock : Z;
  pods : list (nat * Pod);
  shared : list (jsstring * jsstring);      (** the store's texts *)
  writes : list (jsstring * jsstring);      (** writes on their way *)
  log : list (Caller * Z * option cval);    (** what fetches brought: whose it was, and when it began *)
  served : list Served
}.

Definition podOf (p : nat) (w : World) : Pod := default (mkPod [] []) (jm_get p (pods w)).

Definition setPod (p : nat) (pod : Pod) (w : World) : World :=
  mkWorld (clock w) (jm_set p pod (pods w)) (shared w) (writes w) (log w) (served w).

Inductive Event :=
| Call (p : nat) (c : Caller)
| Reply (p : nat) (key : jsstring) (x : Answer)
| Invalidate (p : nat) (user : jsstring) (kinds : option (list Kind))
| Write (key raw : jsstring)            (** a write arrives *)
| Drop (key : jsstring)                 (** a key expires or is deleted *)
| Tick (now : Z).

Variable hasStore : bool.
Variable maxEntries : Z.

Definition keyOf (c : Caller) : jsstring := buildKey (q_kind c) (q_user c) (q_args c).

(** [getOrFetch], up to its first await. *)
Definition getOrFetch (p : nat) (c : Caller) (w : World) : World :=
  let key := keyOf c in
  let pod := podOf p w in
  match hit (q_kind c) key (clock w) (cache pod) with
  | Some e => mkWorld (clock w) (pods w) (shared w) (writes w) (log w) (served w ++ [mkServed c (value e) (q_at c)])
  | None =>
      let flight :=
        match jm_get key (inFlight pod) with
        | Some f => mkFlight (f_kind f) (f_since f) (f_waiters f ++ [c]) (f_at f)
        | None => mkFlight (q_kind c) (clock w) [c] (if hasStore then AReadShared else AFetch (clock w) false)
        end in
      setPod p (mkPod (cache pod) (jm_set key flight (inFlight pod))) w
  end.

(** The end of a fetch: the entry, the write of an own value, and the callers. *)
Definition finish (p : nat) (key : jsstring) (f : Flight) (o : Outcome) (w : World) : World :=
  let pod := podOf p w in
  let rest := jm_del key (inFlight pod) in
  match o with
  | Failed => setPod p (mkPod (cache pod) rest) w
  | Resolved v at_ own =>
      let w' := setPod p (mkPod (store maxEntries key v at_ (cache pod)) rest) w in
      mkWorld (clock w') (pods w') (shared w')
        (if own && hasStore
         then writes w' ++ [(key, encodeEnvelope (mkEnvelope (kindName (f_kind f)) (userOf key) at_ v))] else writes w')
        (log w') (served w' ++ ((λ c, mkServed c v (f_since f)) <$> f_waiters f))
  end.

(** A text that the store returns is the one it holds; a write that is rejected may
    still arrive. *)
Definition honest (key : jsstring) (x : Answer) (w : World) : bool :=
  match x with GotRaw raw => bool_decide (raw = jm_get key (shared w)) | _ => true end.

(** The flight runs the fetcher of the call that made it. *)
Definition fetched (f : Flight) (x : Answer) : list (Caller * Z * option cval) :=
  match f_at f, x with
  | AFetch started _, Fetched v => (λ c, (c, started, v)) <$> take 1 (f_waiters f)
  | _, _ => []
  end.

Definition reply (p : nat) (key : jsstring) (x : Answer) (w : World) : option World :=
  f ← jm_get key (inFlight (podOf p w));
  if negb (honest key x w) then None else
  next ← advance (f_kind f) key (clock w) (f_at f) x;
  let logged := log w ++ fetched f x in
  let written := match f_at f, x with ASet e, Done => jm_set key (encodeEnvelope e) (shared w) | _, _ => shared w end in
  let late := match f_at f, x with ASet e, Rejected => writes w ++ [(key, encodeEnvelope e)] | _, _ => writes w end in
  let w' := mkWorld (clock w) (pods w) written late logged (served w) in
  Some match next with
       | Go a => let pod := podOf p w in
                 setPod p (mkPod (cache pod) (jm_set key (mkFlight (f_kind f) (f_since f) (f_waiters f) a) (inFlight pod))) w'
       | Finish o => finish p key f o w'
       end.

Definition step (w : World) (e : Event) : option World :=
  match e with
  | Call p c => if bool_decide (q_at c = clock w) then Some (getOrFetch p c w) else None
  | Reply p key x => reply p key x w
  | Invalidate p user kinds =>
      let pod := podOf p w in
      Some (setPod p (mkPod (invalidateUser user kinds (cache pod)) (inFlight pod)) w)
  | Write key raw =>
      if bool_decide ((key, raw) ∈ writes w)
      then Some (mkWorld (clock w) (pods w) (jm_set key raw (shared w)) (writes w) (log w) (served w)) else None
  | Drop key => Some (mkWorld (clock w) (pods w) (jm_del key (shared w)) (writes w) (log w) (served w))
  | Tick now =>
      if clock w <=? now then Some (mkWorld now (pods w) (shared w) (writes w) (log w) (served w)) else None
  end.

Fixpoint run (w : World) (l : list Event) : option World :=
  match l with [] => Some w | e :: l' => w' ← step w e; run w' l' end.

Definition world0 : World := mkWorld 0 [] [] [] [] [].
End Cache.

(** ** Keys *)

Lemma split_unit_eq c (a b a' b' : list Z) : c ∉ a → c ∉ a' → a ++ c :: b = a' ++ c :: b' → a = a' ∧ b = b'.
Proof.
  revert a'. induction a as [|x a IH]; intros [|y a'] Ha Ha' E; cbn in E.
  - by injection E as <-.
  - injection E as <- _. set_solver.
  - injection E as -> _. set_solver.
  - injection E as <- E. destruct (IH a') as [-> ->]; [set_solver..|done|done].
Qed.

Lemma kindName_plain k : 31 ∉ kindName k.
Proof. apply (bool_decide_unpack _). by destruct k. Qed.

Lemma kindName_inj k k' : kindName k = kindName k' → k = k'.
Proof. by destruct k, k'. Qed.

(** A key tells the kind, the user and the arguments. *)
Lemma key_identifies k u a k' u' a' :
  31 ∉ u → 31 ∉ u' → wf (JObj (canonicalArgs a)) = true → wf (JObj (canonicalArgs a')) = true →
  buildKey k u a = buildKey k' u' a' → k = k' ∧ u = u' ∧ canonicalArgs a = canonicalArgs a'.
Proof.
  intros Hu Hu' Ha Ha' E. unfold buildKey in E. apply (inj (app KEY_NS)) in E.
  apply split_unit_eq in E as [-> E]; [|done..]. apply split_unit_eq in E as [Ek E]; [|apply kindName_plain..].
  split; [by apply kindName_inj|]. split; [done|].
  assert (parse (stringify (JObj (canonicalArgs a))) = parse (stringify (JObj (canonicalArgs a')))) as Hp by (by rewrite E).
  rewrite !parse_stringify in Hp by done. by injection Hp.
Qed.

(** ** Times *)

Lemma normFuel_value fuel m e :
  0 ≤ e → 0 ≤ (normFuel fuel m e).2 ∧ (normFuel fuel m e).1 * 10 ^ (normFuel fuel m e).2 = m * 10 ^ e.
Proof.
  revert m e. induction fuel as [|fuel IH]; intros m e He; cbn [normFuel]; [done|].
  destruct (Z.eqb_spec (m mod 10) 0) as [E|]; [|done]. destruct (IH (m / 10) (e + 1) ltac:(lia)) as [H1 H2].
  split; [done|]. rewrite H2, Z.pow_add_r by lia. pose proof (Z.div_mod m 10 ltac:(lia)). nia.
Qed.

Lemma stamp_value n : 0 ≤ (stampOf n).2 ∧ (stampOf n).1 * 10 ^ (stampOf n).2 = n.
Proof.
  unfold stampOf, norm. destruct (Z.eqb_spec n 0) as [->|]; [done|].
  destruct (normFuel_value (S (Z.to_nat (Z.log2 (Z.abs n)))) n 0 ltac:(lia)) as [H1 H2]. split; [done|]. rewrite H2. lia.
Qed.

Lemma elapsed_stamps ttl now n : elapsed ttl (stampOf now) (stampOf n) = (ttl <=? now - n).
Proof.
  unfold elapsed. destruct (stamp_value now) as [H1 E1], (stamp_value n) as [H2 E2].
  rewrite Z.min_l by lia. rewrite !Z.sub_0_r, E1, E2. simpl. by rewrite Z.mul_1_r.
Qed.

Lemma stamp_wf n : wf (JNum (stampOf n).1 (stampOf n).2) = true.
Proof. pose proof (norm_wf n 0) as Hw. unfold stampOf. by destruct (norm n 0). Qed.

(** ** Documents *)

Fixpoint plain (v : cval) : bool :=
  match v with
  | CNull | CBool _ => true
  | CNum m e => wf (JNum m e)
  | CStr s => forallb isUnit s
  | CArr l => forallb plain l
  | CObj o =>
      bool_decide (NoDup o.*1) && bool_decide ((ownOrder o).*1 = o.*1) && bool_decide (PROTO ∉ o.*1)
      && negb (bool_decide (o.*1 = [DATE])) && forallb (λ kv, forallb isUnit kv.1 && plain kv.2) o
  | CDate (Some t) => Z.abs t <=? MAX_DATE
  | CDate None => false
  end.

Section Documents.
Variable dateText : cval → option Z.

Lemma date_read t : Z.abs t ≤ MAX_DATE → dateOf dateText (CNum (stampOf t).1 (stampOf t).2) = Some t.
Proof.
  intros Ht. cbn [dateOf]. destruct (stamp_value t) as [He E]. rewrite (proj2 (Z.leb_le _ _) He), E.
  by rewrite (proj2 (Z.leb_le _ _) Ht).
Qed.

Lemma numOf_stamp n : numOf n = JNum (stampOf n).1 (stampOf n).2.
Proof. unfold numOf, stampOf. by destruct (norm n 0). Qed.

Lemma encoded_obj o :
  plain (CObj o) = true → encodeDates (CObj o) = JObj (map (λ kv, (kv.1, encodeDates kv.2)) o).
Proof.
  intros Hp. cbn [plain] in Hp. rewrite !andb_true_iff in Hp. destruct Hp as [[[[Hn Ho] Hpr] _] _].
  apply bool_decide_eq_true in Hn, Ho, Hpr. cbn [encodeDates].
  set (o' := map _ o). assert (o'.*1 = o.*1) as Ek by (unfold o'; rewrite <-list_fmap_compose; by apply list_fmap_ext).
  assert (filter (λ kv : jsstring * json, kv.1 ≠ PROTO) o' = o') as ->.
  { apply filter_all. intros kv Hin E. apply Hpr. rewrite <-Ek, <-E. apply list_elem_of_fmap. by exists kv. }
  rewrite objOf_id; [done|by rewrite Ek|]. unfold o'. rewrite ownOrder_map.
  transitivity ((ownOrder o).*1); [rewrite <-list_fmap_compose; by apply list_fmap_ext|]. rewrite Ho.
  rewrite <-list_fmap_compose. by apply list_fmap_ext.
Qed.

(** What is plain survives the store: dates, too. *)
Lemma encode_ok v : plain v = true → wf (encodeDates v) = true ∧ revive dateText (encodeDates v) = v.
Proof.
  induction v as [|b|m e|s|l IH|o IH|t] using cval_ind; intros Hp; try done.
  - cbn [encodeDates wf revive plain] in *. rewrite forallb_forall in Hp. rewrite Forall_forall in IH. split.
    + apply forallb_forall. intros x Hx. apply in_map_iff in Hx as (y & <- & Hy).
      apply IH; [by apply list_elem_of_In|by apply Hp].
    + f_equal. rewrite map_map. rewrite <-(map_id l) at 2. apply map_ext_in. intros y Hy.
      apply IH; [by apply list_elem_of_In|by apply Hp].
  - rewrite encoded_obj by done. cbn [plain] in Hp. rewrite !andb_true_iff in Hp.
    destruct Hp as [[[[Hn Ho] _] Hd] Hl]. apply bool_decide_eq_true in Hn, Ho.
    apply negb_true_iff, bool_decide_eq_false in Hd. rewrite forallb_forall in Hl. rewrite Forall_forall in IH.
    set (o' := map _ o). assert (o'.*1 = o.*1) as Ek by (unfold o'; rewrite <-list_fmap_compose; by apply list_fmap_ext).
    assert (∀ kv, In kv o → wf (encodeDates kv.2) = true ∧ revive dateText (encodeDates kv.2) = kv.2) as Hv.
    { intros kv Hin. apply IH; [by apply list_elem_of_In|]. specialize (Hl kv Hin). by apply andb_true_iff in Hl as [_ ?]. }
    split.
    + cbn [wf]. rewrite !andb_true_iff. split_and!; [by apply bool_decide_eq_true; rewrite Ek| |].
      * apply bool_decide_eq_true. rewrite Ek, <-Ho. unfold o'. rewrite ownOrder_map, <-list_fmap_compose. by apply list_fmap_ext.
      * apply forallb_forall. intros kv' Hin. apply in_map_iff in Hin as (kv & <- & Hin). cbn [fst snd].
        destruct (Hv kv Hin) as [-> _]. specialize (Hl kv Hin). apply andb_true_iff in Hl as [-> _]. done.
    + assert (map (λ kv : jsstring * json, (kv.1, revive dateText kv.2)) o' = o) as Eo.
      { unfold o'. rewrite map_map. rewrite <-(map_id o) at 2. apply map_ext_in. intros [k x] Hin. cbn [fst snd].
        destruct (Hv (k, x) Hin) as [_ Hr]. cbn [snd] in Hr. by rewrite Hr. }
      cbn [revive]. rewrite Eo. destruct o as [|[k x] [|kv o]]; [done| |done]. case_bool_decide; [|done]. subst. done.
  - destruct t as [t|]; [|done]. cbn [plain] in Hp. apply Z.leb_le in Hp. cbn [encodeDates]. rewrite numOf_stamp. split.
    + cbn [wf forallb fst snd]. pose proof (stamp_wf t) as Hw. cbn [wf] in Hw. rewrite Hw. reflexivity.
    + cbn [revive map fst snd]. rewrite date_read by done. reflexivity.
Qed.

(** C40. The document that a pod puts into the shared store is read back by every pod
    as the same envelope: the kind, the user, the time of the fetch and the value
    with its dates, for a known policy kind, a canonical time stamp and a [plain]
    value: valid dates, objects as JavaScript orders them, no property [__proto__]
    and no object whose one property is [$date]. *)
Theorem envelope_roundtrip e n :
  is_Some (policyOf (s_kind e)) → forallb isUnit (s_kind e) = true → forallb isUnit (s_userId e) = true →
  s_fetchedAt e = stampOf n → (∀ v, s_value e = Some v → plain v = true) →
  decodeEnvelope dateText (encodeEnvelope e) = Some e.
Proof.
  destruct e as [kind user st v]. cbn [s_kind s_userId s_fetchedAt s_value]. intros Hk Hku Hu -> Hv.
  unfold encodeEnvelope, decodeEnvelope. cbn [s_kind s_userId s_fetchedAt s_value].
  pose proof (stamp_wf n) as Hw. cbn [wf] in Hw. destruct (stampOf n) as [m e]. cbn [fst snd] in *.
  destruct v as [v|]; cbn [app].
  - destruct (encode_ok v (Hv v eq_refl)) as [Hwv Hrv]. rewrite parse_stringify.
    2:{ cbn [wf forallb fst snd]. rewrite Hku, Hu, Hw, Hwv. reflexivity. }
    cbn [fmap option_fmap option_map revive map fst snd]. rewrite Hrv. cbn [jm_get].
    repeat (destruct (decide (js _ = js _)) as [E|E]; [try discriminate E|try (by destruct E)]).
    by rewrite bool_decide_eq_true_2.
  - rewrite parse_stringify.
    2:{ cbn [wf forallb fst snd]. rewrite Hku, Hu, Hw. reflexivity. }
    cbn [fmap option_fmap option_map revive map fst snd jm_get].
    repeat (destruct (decide (js _ = js _)) as [E|E]; [try discriminate E|try (by destruct E)]).
    by rewrite bool_decide_eq_true_2.
Qed.
End Documents.
(** ** What a pod serves *)

Section System.
Variable dateText : cval → option Z.
Variables pollMs waitBudgetMs : Z.
Variable hasStore : bool.
Variable maxEntries : Z.

Notation advance := (advance dateText pollMs waitBudgetMs).
Notation readShared := (readShared dateText).
Notation step := (step dateText pollMs waitBudgetMs hasStore maxEntries).
Notation run := (run dateText pollMs waitBudgetMs hasStore maxEntries).

(** A caller as the applications make them: the identifiers of platforms hold no
    control character. *)
Definition callerOk (c : Caller) : Prop :=
  31 ∉ q_user c ∧ forallb isUnit (q_user c) = true ∧ wf (JObj (canonicalArgs (q_args c))) = true.

Definition plainValue (v : option cval) : Prop := ∀ x, v = Some x → plain x = true.

Definition eventOk (e : Event) : Prop :=
  match e with Call _ c => callerOk c | Reply _ _ (Fetched v) => plainValue v | _ => True end.

Abbreviation Log := (list (Caller * Z * option cval)).

(** A fetch for a caller with the key, begun at [n], brought the value. *)
Definition brought (l : Log) (key : jsstring) (n : Z) (v : option cval) : Prop :=
  ∃ d, (d, n, v) ∈ l ∧ keyOf d = key.

(** A value that a fetch of the key brought. *)
Definition sourced (l : Log) (key : jsstring) (v : option cval) (at_ : Stamp) : Prop :=
  ∃ n, at_ = stampOf n ∧ brought l key n v.

(** Such a value that was fetched less than its lifetime before [since]. *)
Definition good (l : Log) (key : jsstring) (kind : Kind) (since : Z) (v : option cval) (at_ : Stamp) : Prop :=
  ∃ n, at_ = stampOf n ∧ brought l key n v ∧ since - n < WISPACE_CACHE_POLICY kind.

Definition stored (l : Log) (key raw : jsstring) : Prop :=
  ∃ kind n v, brought l key n v ∧ raw = encodeEnvelope (envelopeOf kind key n v).

Definition awaitOk (l : Log) (key : jsstring) (kind : Kind) (since now : Z) (a : Await) : Prop :=
  match a with
  | AFetch started _ => since ≤ started ≤ now
  | ASet e => ∃ n v, e = envelopeOf kind key n v ∧ brought l key n v ∧ since ≤ n
  | AUnlock (Resolved v at_ _) => good l key kind since v at_
  | _ => True
  end.

Definition flightOk (l : Log) (now : Z) (key : jsstring) (f : Flight) : Prop :=
  f_since f ≤ now ∧ f_waiters f ≠ []
  ∧ (∀ c, c ∈ f_waiters f → callerOk c ∧ keyOf c = key ∧ q_kind c = f_kind f ∧ f_since f ≤ q_at c)
  ∧ awaitOk l key (f_kind f) (f_since f) now (f_at f).

Definition servedOk (l : Log) (s : Served) : Prop :=
  v_since s ≤ q_at (v_caller s) ∧ callerOk (v_caller s)
  ∧ ∃ n, brought l (keyOf (v_caller s)) n (v_value s) ∧ v_since s - n < WISPACE_CACHE_POLICY (q_kind (v_caller s)).

Definition podOk (l : Log) (now : Z) (pod : Pod) : Prop :=
  (∀ key e, (key, e) ∈ cache pod → sourced l key (value e) (fetchedAt e))
  ∧ (∀ key f, (key, f) ∈ inFlight pod → flightOk l now key f)
  ∧ (1 ≤ maxEntries → Z.of_nat (length (cache pod)) ≤ maxEntries).

Definition logOk (l : Log) : Prop :=
  ∀ d n v, (d, n, v) ∈ l → callerOk d ∧ plainValue v.

Record Inv (w : World) : Prop := {
  inv_pods : ∀ p pod, (p, pod) ∈ pods w → podOk (log w) (clock w) pod;
  inv_shared : ∀ key raw, (key, raw) ∈ shared w ∨ (key, raw) ∈ writes w → stored (log w) key raw;
  inv_log : logOk (log w);
  inv_served : ∀ s, s ∈ served w → servedOk (log w) s
}.

(** *** What grows keeps *)

Lemma brought_mono l l' key n v : l ⊆ l' → brought l key n v → brought l' key n v.
Proof. intros Hl (d & Hin & E). exists d. auto. Qed.
#[local] Hint Resolve brought_mono : core.

Lemma sourced_mono l l' key v at_ : l ⊆ l' → sourced l key v at_ → sourced l' key v at_.
Proof. intros Hl (n & -> & Hin). exists n. eauto. Qed.

Lemma good_mono l l' key kind since v at_ : l ⊆ l' → good l key kind since v at_ → good l' key kind since v at_.
Proof. intros Hl (n & -> & Hin & Hf). exists n. eauto. Qed.

Lemma stored_mono l l' key raw : l ⊆ l' → stored l key raw → stored l' key raw.
Proof. intros Hl (k & n & v & Hin & ->). exists k, n, v. eauto. Qed.

Lemma awaitOk_mono l l' key kind since now now' a :
  l ⊆ l' → now ≤ now' → awaitOk l key kind since now a → awaitOk l' key kind since now' a.
Proof.
  intros Hl Hn. destruct a as [| | | | |s b|e|[v at_ own|]]; cbn [awaitOk]; try done.
  - lia.
  - intros (n & v & -> & Hin & ?). exists n, v. eauto.
  - by apply good_mono.
Qed.

Lemma podOk_mono l l' now now' pod : l ⊆ l' → now ≤ now' → podOk l now pod → podOk l' now' pod.
Proof.
  intros Hl Hn (Hc & Hf & Hs). split_and!; [|intros key f Hin|done].
  - intros key e Hin. eapply sourced_mono; [done|by apply Hc].
  - destruct (Hf key f Hin) as (H1 & H2 & H3 & H4). split_and!; [lia|done|done|by eapply awaitOk_mono].
Qed.

Lemma servedOk_mono l l' s : l ⊆ l' → servedOk l s → servedOk l' s.
Proof. intros Hl (H1 & Hc & n & Hin & H2). split_and!; [done|done|]. exists n. eauto. Qed.

(** *** The map *)

Lemma deleteFirst_sublist p c : deleteFirst p c `sublist_of` c.
Proof. induction c as [|e c IH]; [done|]. cbn [deleteFirst]. destruct (p e); [by apply sublist_cons|by apply sublist_skip]. Qed.

Lemma evict_sublist now c : evictIfNeeded maxEntries now c `sublist_of` c.
Proof.
  unfold evictIfNeeded. destruct (_ <? _); [done|]. pose proof (deleteFirst_sublist (entryExpired now) c) as Hs.
  destruct (_ <=? _); [|done]. etransitivity; [|exact Hs]. destruct (deleteFirst _ c); [done|]. by apply sublist_cons.
Qed.

Lemma evict_room now c :
  1 ≤ maxEntries → Z.of_nat (length c) ≤ maxEntries → Z.of_nat (length (evictIfNeeded maxEntries now c)) < maxEntries.
Proof.
  intros Hm Hc. unfold evictIfNeeded. destruct (Z.ltb_spec (Z.of_nat (length c)) maxEntries); [done|].
  pose proof (sublist_length _ _ (deleteFirst_sublist (entryExpired now) c)).
  destruct (Z.leb_spec maxEntries (Z.of_nat (length (deleteFirst (entryExpired now) c)))); [|done].
  destruct (deleteFirst _ c); simpl in *; lia.
Qed.

Lemma jm_set_room {A} (k : jsstring) (v : A) m : (length (jm_set k v m) ≤ S (length m))%nat.
Proof. induction m as [|[k' v'] m IH]; simpl; [lia|]. destruct (decide (k' = k)); simpl; lia. Qed.

Lemma store_ok l now key v at_ pod rest :
  podOk l now pod → sourced l key v at_ → rest ⊆ inFlight pod →
  podOk l now (mkPod (store maxEntries key v at_ (cache pod)) rest).
Proof.
  intros (Hc & Hf & Hs) Hv Hr. split_and!; cbn [cache inFlight].
  - intros k e [[= -> ->]|Hin]%jm_set_elem; [done|]. apply Hc. eapply sublist_subseteq; [apply evict_sublist|exact Hin].
  - intros k f Hin. by apply Hf, Hr.
  - intros Hm. specialize (Hs Hm). pose proof (evict_room at_ (cache pod) Hm Hs).
    pose proof (jm_set_room key (mkEntry v at_) (evictIfNeeded maxEntries at_ (cache pod))). unfold store. lia.
Qed.

Lemma podOf_ok w p : Inv w → podOk (log w) (clock w) (podOf p w).
Proof.
  intros Hi. unfold podOf. destruct (jm_get p (pods w)) as [pod|] eqn:E; [apply jm_get_elem in E; by apply (inv_pods w Hi p)|].
  split_and!; cbn; [set_solver..|lia].
Qed.

Lemma nat_set_elem {A} (k : nat) (v : A) o kv : kv ∈ jm_set k v o → kv = (k, v) ∨ kv ∈ o.
Proof.
  induction o as [|[k' v'] o IH]; simpl; [set_solver|].
  destruct (decide (k' = k)); rewrite !elem_of_cons; intros [->|Hin]; auto. destruct (IH Hin); auto.
Qed.

Lemma setPod_ok w p pod : Inv w → podOk (log w) (clock w) pod → Inv (setPod p pod w).
Proof.
  intros [H1 H2 H3 H4] Hp. split; cbn [setPod pods log clock shared writes served]; try done.
  intros q pod' [[= -> ->]|Hin]%nat_set_elem; [done|by eapply H1].
Qed.

(** *** Reading the shared store *)

Lemma caller_key c : callerOk c → parseKey (keyOf c) = Some (q_user c, kindName (q_kind c)).
Proof.
  intros (Hu & _ & _). unfold keyOf, buildKey, parseKey.
  assert (isPrefix KEY_NS (KEY_NS ++ q_user c ++ KEY_SEP ++ kindName (q_kind c) ++ KEY_SEP ++ stringify (JObj (canonicalArgs (q_args c)))) = true)
    as -> by (apply isPrefix_spec; by eexists).
  cbn [negb]. rewrite drop_app_length. generalize (stringify (JObj (canonicalArgs (q_args c)))) as t. intros t.
  pose proof (kindName_plain (q_kind c)) as Hk. generalize dependent (kindName (q_kind c)). intros k Hk. revert Hu Hk.
  generalize (q_user c) as u. intros u Hu Hk. unfold splitText, KEY_SEP. cbn [app].
  assert (∀ fuel a b, 31 ∉ a → splitFuel (S fuel) [31] (a ++ 31 :: b) = a :: splitFuel fuel [31] b) as Hs.
  { intros fuel a b Ha. cbn [splitFuel]. rewrite indexOf_unit by done. rewrite take_app_length. do 2 f_equal. cbn [length].
    by rewrite <-drop_drop, drop_app_length. }
  rewrite Hs by done. rewrite length_app. cbn [length]. rewrite Nat.add_succ_r. rewrite Hs by done.
  destruct (splitFuel _ [31] t) as [|x l] eqn:E; [|done]. exfalso. revert E. apply split_ne.
Qed.

(** What is stored for a key can be written and read back. *)
Lemma brought_plain l key n v : logOk l → brought l key n v → forallb isUnit (userOf key) = true ∧ plainValue v.
Proof.
  intros Hl (d & Hin & <-). destruct (Hl _ _ _ Hin) as [Hd Hv]. unfold userOf. rewrite caller_key by done.
  by destruct Hd as (_ & ? & _).
Qed.

Lemma readShared_ok l key kind since now raw e :
  logOk l → since ≤ now → (∀ r, raw = Some r → stored l key r) → readShared kind key now raw = Some e →
  good l key kind since (s_value e) (s_fetchedAt e).
Proof.
  intros Hl Hn Hraw. unfold WispaceCache.readShared. destruct raw as [[|c r]|]; [done| |done].
  destruct (Hraw _ eq_refl) as (k & n & v & Hin & ->). destruct (brought_plain _ _ _ _ Hl Hin) as [Hu Hv].
  rewrite (envelope_roundtrip dateText _ n); cbn [envelopeOf s_kind s_userId s_fetchedAt s_value]; [|by destruct k; eexists|
    by destruct k|done|done|done].
  destruct (negb _ || negb _); [done|]. rewrite elapsed_stamps.
  destruct (Z.leb_spec (WISPACE_CACHE_POLICY kind) (now - n)); [done|]. intros [= <-]. exists n. split_and!; [done|done|lia].
Qed.

(** One reply keeps a fetch in order. *)
Definition nextOk (l : Log) (key : jsstring) (f : Flight) (now : Z) (n : Next) : Prop :=
  match n with
  | Go a => awaitOk l key (f_kind f) (f_since f) now a
  | Finish (Resolved v at_ _) => good l key (f_kind f) (f_since f) v at_
  | Finish Failed => True
  end.

Lemma poll_ok l key f polls deadline now :
  f_since f ≤ now → awaitOk l key (f_kind f) (f_since f) now (pollOrFetch polls deadline now).
Proof. intros. unfold pollOrFetch. destruct polls; [done|]. destruct (now <? deadline); done. Qed.

Lemma advance_ok l key f now x n :
  logOk l → flightOk l now key f → (∀ raw r, x = GotRaw raw → raw = Some r → stored l key r) →
  advance (f_kind f) key now (f_at f) x = Some n → nextOk (l ++ fetched f x) key f now n.
Proof.
  intros Hl (Hs & Hne & Hw & Ha) Hraw. destruct f as [kind since waiters a]. cbn [f_kind f_since f_waiters f_at] in *.
  assert (∀ raw e, x = GotRaw raw → readShared kind key now raw = Some e → good l key kind since (s_value e) (s_fetchedAt e)) as Hr.
  { intros raw e -> He. eapply readShared_ok; [done..| |exact He]. intros r. by apply Hraw. }
  assert (∀ n v, brought (l ++ ((λ c, (c, n, v)) <$> take 1 waiters)) key n v) as Hnew.
  { intros m v. destruct waiters as [|d ds]; [done|]. exists d. split; [set_solver|]. by apply Hw; left. }
  assert (0 < WISPACE_CACHE_POLICY kind) as Hpos by (by destruct kind).
  unfold fetched. cbn [f_at f_waiters].
  destruct a as [| |polls dl|polls dl| |started lk|e|o], x as [raw|g| |v| |];
    cbn [WispaceCache.advance awaitOk] in *; try done; rewrite ?app_nil_r;
    try (destruct (readShared kind key now raw) as [e'|] eqn:Er; [pose proof (Hr raw e' eq_refl Er)|]);
    try destruct g; try destruct lk; intros [= <-]; cbn [nextOk resolvedShared awaitOk f_kind f_since]; try done; try lia;
    try (by apply (poll_ok l key (mkFlight kind since waiters AReadShared))).
  - exists started, v. split_and!; [done|apply Hnew|lia].
  - exists started. split_and!; [done|apply Hnew|lia].
  - destruct Ha as (n & v & -> & Hin & Hle). exists n. split_and!; [done|done|lia].
Qed.

(** *** Steps *)

Lemma hit_good w p c e :
  Inv w → callerOk c → q_at c = clock w → hit (q_kind c) (keyOf c) (clock w) (cache (podOf p w)) = Some e →
  servedOk (log w) (mkServed c (value e) (q_at c)).
Proof.
  intros Hi Hok Hq. unfold hit. destruct (jm_get _ _) as [e'|] eqn:E; [|done]. apply jm_get_elem in E.
  destruct (proj1 (podOf_ok w p Hi) _ _ E) as (n & Hat & Hin). rewrite Hat, elapsed_stamps.
  destruct (Z.leb_spec (WISPACE_CACHE_POLICY (q_kind c)) (clock w - n)); [done|]. intros [= <-].
  split_and!; cbn [v_since v_caller v_value]; [lia|done|]. exists n. split; [done|lia].
Qed.

Lemma getOrFetch_ok p c w : Inv w → callerOk c → q_at c = clock w → Inv (getOrFetch hasStore p c w).
Proof.
  intros Hi Hc Hq. unfold getOrFetch. pose proof (podOf_ok w p Hi) as Hp.
  destruct (hit _ _ _ _) as [e|] eqn:Eh.
  - pose proof (hit_good w p c e Hi Hc Hq Eh) as Hs. destruct Hi as [H1 H2 H3 H4]. split; cbn; try done.
    intros s [Hin| ->%list_elem_of_singleton]%elem_of_app; [by apply H4|done].
  - apply setPod_ok; [done|]. destruct Hp as (Hpc & Hpf & Hps). split_and!; cbn [cache inFlight]; [done| |done].
    intros key f [[= -> ->]|Hin]%jm_set_elem; [|by apply Hpf].
    destruct (jm_get (keyOf c) (inFlight (podOf p w))) as [g|] eqn:Eg.
    + apply jm_get_elem in Eg. destruct (Hpf _ _ Eg) as (G1 & G2 & G3 & G4). split_and!; cbn; [done| | |done].
      * by destruct (f_waiters g).
      * intros d [Hd| ->%list_elem_of_singleton]%elem_of_app; [by apply G3|]. split_and!; [done|done| |lia].
        destruct (f_waiters g) as [|d ds]; [done|]. destruct (G3 d ltac:(left)) as (Hd & Hkey & <- & _).
        unfold keyOf in Hkey. destruct Hd as (Hd1 & _ & Hd3), Hc as (Hc1 & _ & Hc3).
        by destruct (key_identifies _ _ _ _ _ _ Hd1 Hc1 Hd3 Hc3 Hkey) as (-> & _).
    + split_and!; cbn; [lia|done| |].
      * intros d ->%list_elem_of_singleton. split_and!; [done..|lia].
      * destruct hasStore; cbn; [done|lia].
Qed.

Lemma finish_ok p key f o w :
  Inv w → (key, f) ∈ inFlight (podOf p w) → nextOk (log w) key f (clock w) (Finish o) →
  Inv (finish hasStore maxEntries p key f o w).
Proof.
  intros Hi Hin Ho. pose proof (podOf_ok w p Hi) as Hp. unfold finish.
  assert (jm_del key (inFlight (podOf p w)) ⊆ inFlight (podOf p w)) as Hdel
    by (intros x Hx; unfold jm_del in Hx; by apply list_elem_of_filter in Hx as [_ ?]).
  destruct o as [v at_ own|].
  - destruct Ho as (n & -> & Hlog & Hfresh).
    assert (Inv (setPod p (mkPod (store maxEntries key v (stampOf n) (cache (podOf p w))) (jm_del key (inFlight (podOf p w)))) w))
      as [H1 H2 H3 H4] by (apply setPod_ok; [done|]; eapply store_ok; [done|by exists n|done]).
    split; cbn in *; [done| |done|].
    + intros k raw [Hs|Hw]; [by apply H2; left|]. destruct (own && hasStore); [|by apply H2; right].
      apply elem_of_app in Hw as [Hw|Hw%list_elem_of_singleton]; [by apply H2; right|]. injection Hw as -> ->.
      by exists (f_kind f), n, v.
    + intros s [Hs|Hs]%elem_of_app; [by apply H4|]. apply list_elem_of_fmap in Hs as (c & -> & Hc).
      destruct Hp as (_ & Hpf & _). destruct (Hpf _ _ Hin) as (_ & _ & G & _). destruct (G c Hc) as (Hok & Hk & Hkind & Hsince).
      split_and!; cbn [v_since v_caller v_value]; [done|done|]. exists n. by rewrite Hk, Hkind.
  - apply setPod_ok; [done|]. destruct Hp as (Hpc & Hpf & Hps). split_and!; cbn; [done| |done].
    intros k g Hg. by apply Hpf, Hdel.
Qed.

Lemma reply_ok p key x w w' :
  Inv w → (∀ v, x = Fetched v → plainValue v) →
  reply dateText pollMs waitBudgetMs hasStore maxEntries p key x w = Some w' → Inv w'.
Proof.
  intros Hi Hv. unfold reply. destruct (jm_get key (inFlight (podOf p w))) as [f|] eqn:Ef; [|done]. cbn [mbind option_bind].
  apply jm_get_elem in Ef. destruct (honest key x w) eqn:Eh; [|done]. cbn [negb].
  destruct (advance (f_kind f) key (clock w) (f_at f) x) as [n|] eqn:Ea; [|done]. cbn [mbind option_bind].
  pose proof (podOf_ok w p Hi) as Hp. pose proof Hp as (_ & Hpf & _). pose proof (Hpf _ _ Ef) as Hf.
  assert (nextOk (log w ++ fetched f x) key f (clock w) n) as Hn.
  { eapply advance_ok; [by apply inv_log|done| |exact Ea]. intros raw r -> ->. cbn in Eh. apply bool_decide_eq_true in Eh.
    apply (inv_shared w Hi). left. by apply jm_get_elem. }
  set (w1 := mkWorld _ _ _ _ _ _). assert (Inv w1) as H1.
  { destruct Hi as [I1 I2 I3 I4]. assert (log w ⊆ log w ++ fetched f x) as Hl by set_solver. split; unfold w1; cbn.
    - intros q pod Hq. eapply podOk_mono; [exact Hl|done|by eapply I1].
    - assert (∀ e, f_at f = ASet e → stored (log w) key (encodeEnvelope e)) as Hset.
      { intros e He. destruct Hf as (_ & _ & _ & Ha). rewrite He in Ha. destruct Ha as (n0 & v & -> & Hin & _).
        by exists (f_kind f), n0, v. }
      intros k raw Hk. eapply stored_mono; [exact Hl|]. destruct Hk as [Hk|Hk].
      + destruct (f_at f) as [| | | | | |e|], x; try (by apply I2; left).
        apply jm_set_elem in Hk as [[= -> ->]|Hk]; [by apply Hset|by apply I2; left].
      + destruct (f_at f) as [| | | | | |e|], x; try (by apply I2; right).
        apply elem_of_app in Hk as [Hk|Hk%list_elem_of_singleton]; [by apply I2; right|]. injection Hk as -> ->. by apply Hset.
    - intros d m u [Hin|Hin]%elem_of_app; [by eapply I3|]. unfold fetched in Hin.
      destruct (f_at f) as [| | | | |started lk| |], x as [| | |v| |]; try (by apply not_elem_of_nil in Hin).
      apply list_elem_of_fmap in Hin as (c & [= -> -> ->] & Hc). split; [|by apply Hv].
      apply Hf. by apply subseteq_take in Hc.
    - intros s Hs. eapply servedOk_mono; [exact Hl|by apply I4]. }
  intros [= <-]. destruct n as [a|o].
  - apply setPod_ok; [done|]. pose proof (podOf_ok w1 p H1) as (G1 & G2 & G3). change (podOf p w1) with (podOf p w) in *.
    split_and!; cbn [cache inFlight]; [done| |done].
    intros k g [[= -> ->]|Hin]%jm_set_elem; [|by apply G2]. destruct (G2 _ _ Ef) as (F1 & F2 & F3 & _). by split_and!.
  - apply finish_ok; [done|done|exact Hn].
Qed.

Lemma cache_step_ok w e w' : Inv w → eventOk e → step w e = Some w' → Inv w'.
Proof.
  intros Hi He. destruct e as [p c|p key x|p user kinds|key raw|key|now]; cbn [WispaceCache.step].
  - case_bool_decide; [|done]. intros [= <-]. by apply getOrFetch_ok.
  - apply reply_ok; [done|]. intros v ->. done.
  - intros [= <-]. apply setPod_ok; [done|]. destruct (podOf_ok w p Hi) as (Hc & Hf & Hs). split_and!; cbn; [|done|].
    + intros key e Hin. unfold invalidateUser in Hin. apply list_elem_of_filter in Hin as [_ Hin]. by apply Hc.
    + intros Hm. specialize (Hs Hm). unfold invalidateUser.
      eapply Z.le_trans; [apply inj_le, length_filter|exact Hs].
  - case_bool_decide as Hin; [|done]. intros [= <-]. destruct Hi as [H1 H2 H3 H4]. split; cbn; try done.
    intros k r [[[= -> ->]|Hk]%jm_set_elem|Hk]; apply H2; auto.
  - intros [= <-]. destruct Hi as [H1 H2 H3 H4]. split; cbn; try done.
    intros k r [Hk|Hk]; apply H2; [left|by right]. unfold jm_del in Hk. by apply list_elem_of_filter in Hk as [_ ?].
  - destruct (Z.leb_spec (clock w) now); [|done]. intros [= <-]. destruct Hi as [H1 H2 H3 H4]. split; cbn; try done.
    intros p pod Hp. eapply podOk_mono; [done|done|by eapply H1].
Qed.

Lemma run_ok w l w' : Inv w → Forall eventOk l → run w l = Some w' → Inv w'.
Proof.
  intros Hi Hl. revert w Hi. induction Hl as [|e l He Hl IH]; intros w Hi; cbn [WispaceCache.run]; [by intros [= <-]|].
  destruct (step w e) as [w1|] eqn:E; [|done]. cbn [mbind option_bind]. apply IH. by eapply cache_step_ok.
Qed.

Lemma world0_ok : Inv world0.
Proof. split; cbn; try set_solver. intros ? ? []; set_solver. Qed.

(** C36. A learner is only given data that was fetched for the same kind, the same
    learner and the same arguments, less than its lifetime before the promise that
    the call shares was made, whatever the pods and the shared store do and
    whichever of its operations fail; and no pod's map outgrows its limit.  The pods
    share one clock that does not go back, the values fetched survive the trip
    through the store ([plain]), and a learner's identifier does not hold the
    separator of the keys. *)
Theorem served_own_and_fresh events w :
  run world0 events = Some w → Forall eventOk events →
  (∀ s, s ∈ served w →
     let c := v_caller s in
     v_since s ≤ q_at c
     ∧ ∃ d started, (d, started, v_value s) ∈ log w
         ∧ q_kind d = q_kind c ∧ q_user d = q_user c ∧ canonicalArgs (q_args d) = canonicalArgs (q_args c)
         ∧ v_since s - started < WISPACE_CACHE_POLICY (q_kind c))
  ∧ (1 ≤ maxEntries → ∀ p pod, (p, pod) ∈ pods w → Z.of_nat (length (cache pod)) ≤ maxEntries).
Proof.
  intros Hr He. pose proof (run_ok _ _ _ world0_ok He Hr) as [H1 _ H3 H4]. split.
  - intros s Hs. destruct (H4 s Hs) as (Hsince & Hc & n & (d & Hin & Hk) & Hfresh). split; [done|]. exists d, n.
    destruct (H3 _ _ _ Hin) as [Hd _]. destruct Hd as (Hd1 & _ & Hd3), Hc as (Hc1 & _ & Hc3).
    by destruct (key_identifies _ _ _ _ _ _ Hd1 Hc1 Hd3 Hc3 Hk) as (-> & -> & ->).
  - intros Hm p pod Hp. by apply (H1 p pod Hp).
Qed.

(** *** A fetch ends *)

Definition awaitsLeft (a : Await) : nat :=
  match a with
  | AUnlock _ => 0
  | ASet _ => 1
  | AFetch _ _ => 2
  | ARecheck => 3
  | APoll n _ => 2 * n + 3
  | ASleep n _ => 2 * n + 4
  | ATryLock => 2 * maxPolls pollMs waitBudgetMs + 5
  | AReadShared => 2 * maxPolls pollMs waitBudgetMs + 6
  end.

(** Every answer brings a fetch closer to its end: it awaits at most twice the
    number of polls and seven more times. *)
Lemma fetch_ends kind key now a x a' :
  advance kind key now a x = Some (Go a') → (awaitsLeft a' < awaitsLeft a)%nat.
Proof.
  assert (∀ n dl, (awaitsLeft (pollOrFetch n dl now) ≤ 2 * n + 4)%nat) as Hp.
  { intros n dl. unfold pollOrFetch. destruct n; [simpl; lia|]. destruct (now <? dl); simpl; lia. }
  assert (∀ n dl, (awaitsLeft (pollOrFetch (Nat.pred n) dl now) < 2 * n + 3)%nat) as Hq.
  { intros n dl. destruct n as [|[|n]]; [simpl; lia..|]. specialize (Hp (S n) dl). cbn [Nat.pred]. lia. }
  destruct a as [| |n dl|n dl| |st lk|e|o], x as [raw|g| |v| |]; cbn [WispaceCache.advance]; try done;
    try (destruct (readShared kind key now raw)); try destruct g; try destruct lk; intros [= <-]; try (cbn [awaitsLeft]; lia);
    try apply Hq.
  specialize (Hp (maxPolls pollMs waitBudgetMs) (now + waitBudgetMs)). cbn [awaitsLeft]. lia.
Qed.
End System.

(** ** Instances *)

Definition learner (at_ : Z) : Caller := mkCaller KCalendar (js "2001") (Some [(js "limit", Some (JNum 5 0))]) at_.

Definition sessions (t : Z) : option cval := Some (CArr [CObj [(js "at", CDate (Some t))]]).

Abbreviation runCache hasStore :=
  (run (λ _, None) DEFAULT_COORDINATION_POLL_MS DEFAULT_COORDINATION_WAIT_BUDGET_MS hasStore 10000).

(** Two pods: the first one fetches under the lock, the second one reads what it wrote. *)
Definition twoPods : list Event :=
  let key := keyOf (learner 0) in
  [Call 0 (learner 0); Reply 0 key (GotRaw None); Reply 0 key (Locked true); Reply 0 key (GotRaw None);
   Call 1 (learner 0); Reply 1 key (GotRaw None); Reply 1 key (Locked false);
   Tick 40; Reply 0 key (Fetched (sessions 1700000000000)); Reply 0 key Done; Reply 0 key Done;
   Tick 50; Reply 1 key Woke;
   Reply 1 key (GotRaw (Some (encodeEnvelope (envelopeOf KCalendar key 0 (sessions 1700000000000)))))].

Lemma two_pods_ok : Forall eventOk twoPods.
Proof.
  repeat constructor; try (by intros x [= <-]); by apply (bool_decide_unpack _); vm_compute.
Qed.

Lemma two_pods_serve :
  match runCache true world0 twoPods with
  | Some w => v_value <$> served w = [sessions 1700000000000; sessions 1700000000000]
              ∧ (λ s, q_kind (v_caller s)) <$> served w = [KCalendar; KCalendar]
  | None => False
  end.
Proof. vm_compute. by split. Qed.

Lemma served_own_and_fresh_witness :
  ∃ w, runCache true world0 twoPods = Some w
    ∧ v_value <$> served w = [sessions 1700000000000; sessions 1700000000000]
    ∧ ∀ s, s ∈ served w →
        ∃ d started, (d, started, v_value s) ∈ log w ∧ q_kind d = q_kind (v_caller s) ∧ q_user d = q_user (v_caller s)
          ∧ canonicalArgs (q_args d) = canonicalArgs (q_args (v_caller s))
          ∧ v_since s - started < WISPACE_CACHE_POLICY (q_kind (v_caller s)).
Proof.
  pose proof two_pods_serve as Hw. destruct (runCache true world0 twoPods) as [w|] eqn:E; [|destruct Hw].
  exists w. split; [reflexivity|]. split; [exact (proj1 Hw)|]. intros s Hs.
  exact (proj2 (proj1 (served_own_and_fresh _ _ _ _ _ _ _ E two_pods_ok) s Hs)).
Defined.

Definition someEnvelope : SharedEnvelope := envelopeOf KCalendar (keyOf (learner 0)) 1234 (sessions 1700000000000).

Lemma envelope_roundtrip_witness :
  plain (CArr [CObj [(js "at", CDate (Some 1700000000000))]]) = true
  ∧ decodeEnvelope (λ _, None) (encodeEnvelope someEnvelope) = Some someEnvelope.
Proof.
  split; [reflexivity|].
  refine (envelope_roundtrip (λ _, None) someEnvelope 1234 _ _ _ eq_refl _);
    [by eexists|vm_compute; reflexivity|vm_compute; reflexivity|intros v [= <-]; vm_compute; reflexivity].
Defined.

(** ** Corner cases *)

(** A read that is in flight when the learner's data is invalidated puts the old
    data back: the next read is served what was fetched before the change. *)
Lemma invalidation_is_overtaken :
  let key := keyOf (learner 0) in
  let old := sessions 1 in
  match runCache false world0
    [Call 0 (learner 0); Tick 10; Invalidate 0 (js "2001") None; Reply 0 key (Fetched old); Tick 20; Call 0 (learner 20)] with
  | Some w => served w = [mkServed (learner 0) old 0; mkServed (learner 20) old 20]
  | None => False
  end.
Proof. vm_compute. reflexivity. Qed.

(** A value that was fetched under the lock is lost when the store rejects it: the
    callers fail. *)
Lemma rejected_write_fails_the_read :
  let key := keyOf (learner 0) in
  match runCache true world0
    [Call 0 (learner 0); Reply 0 key (GotRaw None); Reply 0 key (Locked true); Reply 0 key (GotRaw None);
     Reply 0 key (Fetched (sessions 1)); Reply 0 key Rejected; Reply 0 key Done] with
  | Some w => served w = [] ∧ inFlight (podOf 0 w) = [] ∧ cache (podOf 0 w) = []
  | None => False
  end.
Proof. vm_compute. by split_and!. Qed.

(** An invalid date comes back as 1970, and data of one property [$date] as a date. *)
Lemma dates_are_not_exact dateText :
  revive dateText (encodeDates (CDate None)) = CDate (Some 0)
  ∧ revive dateText (encodeDates (CObj [(DATE, CNum 7 0)])) = CDate (Some 7).
Proof. by split. Qed.
End WispaceCache.
